(* ===== verification/_CoqProject ===== *)
-Q . S2P
Prelude.v
BTree.v
Config.v
StakeLists.v
Block.v
Commit.v
Store.v
StakeAggregator.v
ThresholdClock.v
LeaderScoring.v
RoundTracker.v
RoundTrackerTheory.v
AncestorState.v
AncestorStateTheory.v
DagState.v
DagTheory.v
DagRecovery.v
DagTraversal.v
LeaderSchedule.v
LeaderScheduleV3.v
BaseCommitter.v
CommitRule.v
CommitterTheory.v
UniversalCommitter.v
CommitSequence.v
CommitSamples.v
Linearizer.v
LinearizerTheory.v
CommitTimestamp.v
CommitChain.v
CommitChainSamples.v
BlockVerifier.v
BlockVerifierTheory.v
BlockManager.v
BlockManagerTheory.v
BlockManagerAccept.v
BlockManagerLive.v
BlockManagerGc.v
BlockManagerDag.v
TransactionPool.v
TransactionPoolTheory.v
TransactionVoteTracker.v
VoteTrackerTheory.v
Proposer.v
ProposerTruncate.v
ProposerDag.v
ProposerHistory.v
ProposerAncestors.v
ProposerBlock.v
ProposerRun.v
ProposerSamples.v
CommitFinalizer.v
FinalizerVotes.v
FinalizerLinks.v
FinalizerReasons.v
FinalizerDirect.v
FinalizerIndirect.v
FinalizerRun.v
FinalizerSamples.v
SlotRule.v
V3Metadata.v
V3Run.v
LeaderSlotDecider.v
SlotDeciderTheory.v
SlotSearch.v
FlexCommitter.v
FlexRounds.v
FlexLeaders.v
FlexCollect.v
FlexTimestamp.v
FlexBuild.v
FlexCommit.v
FlexMarks.v
FlexChain.v
ScheduleTotals.v
ScheduleReplay.v
ScheduleRecovery.v
ScheduleChain.v
FlexSamples.v
