(* ===== verification/Prelude.v ===== *)
(** * Haneul consensus: a verification development

    ** The program

    Haneul's validators agree on a sequence of transactions with a DAG-based
    Byzantine fault tolerant consensus protocol (src/consensus).  Every
    authority proposes one block per round; a block lists ancestors, among them
    a quorum of blocks of the round before.  Blocks received from the network
    are verified, wait in the block manager until their ancestors have arrived,
    and are accepted into the DAG state, a cache over a persistent store.  The
    committer decides which leader blocks are committed, the linearizer turns
    committed leaders into sub-dags, and the finalizer decides the transactions
    of the sub-dags.  Protocol v3 has a committer and a leader schedule of its
    own.  This development models these parts and proves that they do what the
    protocol needs.

    ** Files

    Each model file translates one part of the source, with one definition for
    each function or method, named [Type_method], and records and inductive
    types with the fields and constructors of the source.

    Common ground:
    - Prelude.v: outcomes of Rust functions, machine integers, tactics, sums;
      BTree.v: ordered maps and sets of the standard library, stable sort;
      StakeLists.v: medians and lists weighted by stake.
    - Config.v: committee, thresholds, protocol parameters, context
      (config/src/committee.rs, config/src/consensus_protocol_config.rs,
      core/src/context.rs).
    - Block.v: references, the three versions of blocks, genesis
      (types/src/block.rs, core/src/block.rs); Commit.v: commits, sub-dags,
      ranges, errors (core/src/commit.rs, core/src/error.rs).
    - Store.v: the [Store] trait as a class with laws, and the in-memory store
      that satisfies them (core/src/storage/).
    - StakeAggregator.v, ThresholdClock.v, LeaderScoring.v, RoundTracker.v,
      AncestorState.v: the files of the same names in core/src (ancestor.rs for
      the last); RoundTrackerTheory.v and AncestorStateTheory.v hold the
      theorems on the last two.

    The DAG state (core/src/dag_state.rs): DagState.v has the whole state and its
    operations; DagTheory.v the invariant [ds_ok], the abstract map of blocks
    [ds_block] and the refinement; DagRecovery.v restarts; DagTraversal.v the
    history of a block.

    Receiving blocks: BlockVerifier.v, BlockVerifierTheory.v
    (core/src/block_verifier.rs); BlockManager.v (core/src/block_manager.rs) over
    the interface [BlockSink], with BlockManagerTheory.v, BlockManagerAccept.v,
    BlockManagerLive.v and BlockManagerGc.v; BlockManagerDag.v discharges the
    interface with the DAG state.

    Committing: LeaderSchedule.v (core/src/leader_schedule.rs); BaseCommitter.v
    (core/src/base_committer.rs) over the interface [DagReader]; CommitRule.v the
    rule on an abstract DAG, CommitterTheory.v the committer against it;
    UniversalCommitter.v (core/src/universal_committer.rs), CommitSequence.v its
    sequences; Linearizer.v (core/src/linearizer.rs) over the interface
    [BlockStoreAPI], LinearizerTheory.v, CommitTimestamp.v, CommitChain.v.
    CommitSamples.v and CommitChainSamples.v evaluate them on a concrete DAG.

    Finalizing: CommitFinalizer.v (core/src/commit_finalizer.rs) with
    FinalizerVotes.v, FinalizerLinks.v, FinalizerReasons.v, FinalizerDirect.v,
    FinalizerIndirect.v, FinalizerRun.v, FinalizerSamples.v;
    TransactionVoteTracker.v and VoteTrackerTheory.v
    (core/src/transaction_vote_tracker.rs).

    Proposing: TransactionPool.v, TransactionPoolTheory.v
    (core/src/transaction.rs); Proposer.v (core/src/proposer.rs) with
    ProposerTruncate.v, ProposerDag.v, ProposerHistory.v, ProposerAncestors.v,
    ProposerBlock.v, ProposerRun.v, ProposerSamples.v.

    Protocol v3: LeaderSlotDecider.v (core/src/leader_slot_decider.rs) with
    SlotRule.v (the rule on an abstract DAG), SlotDeciderTheory.v and
    SlotSearch.v; V3Metadata.v and V3Run.v, the votes that the DAG state keeps
    for it; FlexCommitter.v (core/src/flex_committer.rs) with FlexRounds.v,
    FlexLeaders.v, FlexCollect.v, FlexTimestamp.v, FlexBuild.v, FlexCommit.v,
    FlexMarks.v; FlexChain.v, the commits of authorities over the interface
    [CommitSchedule]; LeaderScheduleV3.v (core/src/leader_schedule_v3.rs) with
    ScheduleTotals.v, ScheduleReplay.v, ScheduleRecovery.v; ScheduleChain.v
    discharges the interface with the leader schedule; FlexSamples.v evaluates
    runs of concrete authorities.

    ** How code is translated

    A function that can panic returns in the monad [M] below; a [Result] is the
    type [Result] of Commit.v; [&mut self] is state passing.  Locks disappear:
    each definition is what runs under one lock, and interleavings are
    sequences of operations.  Unsigned integers are [N], with the overflow of
    their width as the build profile says.  A [BTreeMap] or [BTreeSet] is a
    [gmap] or [gset] read in key order ([bmap_list], [bset_list]).  Code of
    other crates is a class: [Crypto], [CommitBcs] and [Signing] for hashes,
    encodings and signatures, [Rng] with [RngLaws] for the crate rand,
    [TransactionVerifier] for the application, [UnstableSort] for unstable
    sorting, [Store] for persistence.  Each class has an instance with which the
    samples are evaluated.

    Loops that are not structural take fuel.  The fuel is a count that the loop
    cannot exceed, and the theorems on these loops show that they return: the
    cached blocks for searches and traversals ([link_fuel], [linearize_fuel],
    [search_fuel]), the suspended blocks for releases ([unsuspend_fuel]), the
    entries of a map or list that each iteration shrinks (garbage collection of
    votes, transactions and blocks, truncation of votes), the rounds between two
    blocks for support, certificates and ancestors at a round, the blocks and
    commits held for the finalizer.

    ** What the theorems show

    - Safety of commits: the sequences decided by any two authorities are
      prefixes of one another ([UniversalCommitter_try_decide_agree]), direct
      decisions are final, the indirect rule depends on its anchor only, and
      equal leaders give equal sub-dags, timestamps and digests
      ([Linearizer_handle_commit_agree], [Linearizer_handle_commit_chain]).
      Faulty authorities hold less stake than the validity threshold, and the
      views of two authorities are otherwise arbitrary.
    - Safety of commits under v3: the same for runs of whole authorities
      (accepting, flushing, committing), each with its own committer and leader
      schedule ([FlexCommitter_commits_agree]); each attempt to commit returns,
      or panics on the timestamp in one case ([FlexCommitter_try_commit_outcome]).
    - The DAG state refines a map from references to blocks through cache,
      eviction, store and restart ([DagState_refines_block_map],
      [DagState_flush_lossless], [DagState_restart_lossless]); under v3 the votes
      it keeps are exact ([DagState_v3_votes_exact]).
    - Received blocks: verification accepts exactly the blocks that follow the
      rules, these form a DAG as the commit rule assumes it, and every block
      whose history arrives is accepted, in any order of arrival.
    - Finalization: commits leave the finalizer in order, each once, and every
      transaction is accepted or rejected for a reason that the votes give.
    - Proposals: a consistent node always proposes a block that every authority
      accepts; the pool answers every submission exactly once.
    - Leader schedules: election never picks a bad node, the v3 schedule is
      recovered exactly from the last stored commits
      ([LeaderScheduleV3_from_store_exact]).
    - Thresholds, clock, quorum rounds, medians, excluded stake: bounds under
      faults.

    ** Not modelled

    core/src/core.rs, which calls the parts above in turn; the network, the
    synchronizers of blocks and commits, the round prober and the commit
    observer, which are asynchronous I/O; the RocksDB store, a client of another
    crate (the theorems hold of every store with the laws of Store.v); metrics
    and logs, except for operations in them that can panic; and the rest of the
    repository (execution, storage, Move, indexers, bridge, RPC, tools). *)

From stdpp Require Export base tactics decidable list gmap sets strings numbers.
From Stdlib Require Export NArith Lia.

Set Default Goal Selector "!".

#[global] Arguments N.add : simpl never.
#[global] Arguments N.sub : simpl never.
#[global] Arguments N.mul : simpl never.
#[global] Arguments N.div : simpl never.
#[global] Arguments N.modulo : simpl never.
#[global] Arguments N.pow : simpl never.
#[global] Arguments N.eqb : simpl never.
#[global] Arguments N.leb : simpl never.
#[global] Arguments N.ltb : simpl never.
#[global] Arguments N.compare : simpl never.
#[global] Arguments N.of_nat : simpl never.
#[global] Arguments N.to_nat : simpl never.

(** [lia] with division and remainder. *)
Ltac Zify.zify_post_hook ::= Z.div_mod_to_equations.

(** ** Outcomes of a Rust function

    A Rust function returns, panics, or (in the model only) runs out of the
    fuel that bounds a loop whose recursion is not structural.  [M] is the
    type of such outcomes; it is a monad, written with the arrow notation of
    stdpp.  A function taking [&mut self] returns the new state in its value;
    the state after a panic is never observed, since the release profile aborts
    the process on a panic. *)

Inductive panic : Type :=
| ArithOverflow
| IndexOutOfBounds
| RangeInverted
| Asserted (why : string)
| Expected (why : string)
| Explicit (why : string).

Inductive M (A : Type) : Type :=
| Ret (a : A)
| Panic (p : panic)
| NoFuel.

Arguments Ret {A} _.
Arguments Panic {A} _.
Arguments NoFuel {A}.

#[export] Instance M_ret : MRet M := λ A a, Ret a.
#[export] Instance M_bind : MBind M := λ A B f m,
  match m with
  | Ret a => f a
  | Panic p => Panic p
  | NoFuel => NoFuel
  end.
#[export] Instance M_fmap : FMap M := λ A B f m,
  match m with
  | Ret a => Ret (f a)
  | Panic p => Panic p
  | NoFuel => NoFuel
  end.

(** [assert!(b, why)]. *)
Definition assert_that (b : bool) (why : string) : M unit :=
  if b then Ret tt else Panic (Asserted why).

(** [o.expect(why)], [o.unwrap()]. *)
Definition expect {A} (o : option A) (why : string) : M A :=
  match o with Some a => Ret a | None => Panic (Expected why) end.

(** [v[i]] on a vector. *)
Definition index {A} (v : list A) (i : N) : M A :=
  match v !! N.to_nat i with Some a => Ret a | None => Panic IndexOutOfBounds end.

(** [v[i] = f(v[i])] on a vector. *)
Definition index_update {A} (v : list A) (i : N) (f : A → A) : M (list A) :=
  match v !! N.to_nat i with
  | Some a => Ret (<[N.to_nat i := f a]> v)
  | None => Panic IndexOutOfBounds
  end.

(** A [for] loop threading a state. *)
Fixpoint foldM {A S} (f : S → A → M S) (s : S) (l : list A) : M S :=
  match l with
  | [] => Ret s
  | a :: l => s' ← f s a; foldM f s' l
  end.

(** ** Machine integers

    An unsigned integer of width [w] is an [N] below [2^w].  Debug and
    simulator builds check overflow and panic, release builds wrap (the release
    profile of Cargo.toml does not set [overflow-checks]); [Profile] says
    which, and every theorem holds for both. *)

Class Profile : Type := overflow_checks : bool.

Definition debug_profile : Profile := true.
Definition release_profile : Profile := false.

(** [zip_debug_eq] of haneullabs-common, consumed to its end: debug builds panic when
    the lengths differ. *)
Definition zip_debug_eq `{Profile} {A B} (l : list A) (k : list B) : M (list (A * B)) :=
  if overflow_checks && negb (length l =? length k)%nat
  then Panic (Explicit "zip_debug_eq: iterators of different lengths") else Ret (zip l k).

Lemma zip_debug_eq_exact `{Profile} {A B} (l : list A) (k : list B) :
  length l = length k → zip_debug_eq l k = Ret (zip l k).
Proof. intros Hl. unfold zip_debug_eq. rewrite Hl, Nat.eqb_refl. by destruct overflow_checks. Qed.

Section MachineIntegers.
Context `{Profile}.
Local Open Scope N_scope.

Definition overflowed (w x : N) : M N :=
  if overflow_checks then Panic ArithOverflow else Ret (x mod 2 ^ w).

Definition int_add (w a b : N) : M N :=
  if a + b <? 2 ^ w then Ret (a + b) else overflowed w (a + b).

Definition int_sub (w a b : N) : M N :=
  if b <=? a then Ret (a - b) else overflowed w (2 ^ w + a - b).

Definition int_mul (w a b : N) : M N :=
  if a * b <? 2 ^ w then Ret (a * b) else overflowed w (a * b).

Definition saturating_add (w a b : N) : N := N.min (a + b) (2 ^ w - 1).

(** [iter.sum()]. *)
Definition int_sum (w : N) (l : list N) : M N := foldM (int_add w) 0 l.

End MachineIntegers.

Abbreviation u32_add := (int_add 32).
Abbreviation u32_sub := (int_sub 32).
Abbreviation u32_mul := (int_mul 32).
Abbreviation u64_add := (int_add 64).
Abbreviation u64_sub := (int_sub 64).
Abbreviation u64_mul := (int_mul 64).
Abbreviation u64_sum := (int_sum 64).
Abbreviation u32_max := (2 ^ 32 - 1)%N.
Abbreviation u64_max := (2 ^ 64 - 1)%N.

(** ** Reasoning about outcomes *)

Lemma bind_Ret {A B} (m : M A) (k : A → M B) b :
  (m ≫= k) = Ret b ↔ ∃ a, m = Ret a ∧ k a = Ret b.
Proof. destruct m; simpl; naive_solver. Qed.

Lemma bind_assoc {A B C} (m : M A) (f : A → M B) (g : B → M C) :
  ((m ≫= f) ≫= g) = (m ≫= λ a, f a ≫= g).
Proof. by destruct m. Qed.

Lemma assert_that_Ret b why u : assert_that b why = Ret u ↔ b = true.
Proof. destruct b, u; simpl; naive_solver. Qed.

Lemma expect_Ret {A} (o : option A) why a : expect o why = Ret a ↔ o = Some a.
Proof. destruct o; simpl; naive_solver. Qed.

Lemma index_Ret {A} (v : list A) i a : index v i = Ret a ↔ v !! N.to_nat i = Some a.
Proof. unfold index. destruct (v !! N.to_nat i); naive_solver. Qed.

Lemma index_update_Ret {A} (v v' : list A) i f :
  index_update v i f = Ret v' ↔
  ∃ a, v !! N.to_nat i = Some a ∧ v' = <[N.to_nat i := f a]> v.
Proof. unfold index_update. destruct (v !! N.to_nat i); naive_solver. Qed.

(** A check on an outcome that evaluates to a boolean. *)
Definition outcome_sat {A} (m : M A) (P : A → bool) : bool :=
  match m with Ret a => P a | _ => false end.

Lemma outcome_sat_spec {A} (m : M A) P : outcome_sat m P = true → ∃ a, m = Ret a ∧ P a = true.
Proof. destruct m; simpl; [eauto|done..]. Qed.

(** [minv H] opens a hypothesis saying that a composed outcome is [Ret]. *)
Ltac minv1 H :=
  lazymatch type of H with
  | mbind _ _ = Ret _ =>
      let a := fresh "r" in let E := fresh "E" in
      apply bind_Ret in H as (a & E & H); cbn beta in H; minv1 E
  | assert_that _ _ = Ret _ => apply assert_that_Ret in H
  | expect _ _ = Ret _ => apply expect_Ret in H
  | index _ _ = Ret _ => apply index_Ret in H
  | index_update _ _ _ = Ret _ =>
      let a := fresh "a" in let E := fresh "E" in
      apply index_update_Ret in H as (a & E & H)
  | _ => idtac
  end.
Ltac minv H :=
  progress (minv1 H; repeat (progress (cbn beta iota in H; minv1 H)));
  try discriminate H; simplify_eq.

(** [mskip H] opens the binds of [H], forgetting the intermediate outcomes. *)
Ltac mskip H :=
  repeat (apply bind_Ret in H as (? & _ & H); cbn beta iota zeta in H;
          try match type of H with
              | match ?x with (_, _) => _ end = _ => destruct x; cbn beta iota zeta in H
              end).

Lemma foldM_app {A S} (f : S → A → M S) s l1 l2 :
  foldM f s (l1 ++ l2) = (foldM f s l1 ≫= λ s', foldM f s' l2).
Proof.
  revert s. induction l1 as [|a l1 IH]; intros s; simpl; [done|].
  destruct (f s a); simpl; [apply IH|done..].
Qed.

(** An invariant of every iteration is an invariant of the loop. *)
Lemma foldM_invariant {A S} (f : S → A → M S) (P : S → Prop) l s s' :
  (∀ s a s1, a ∈ l → P s → f s a = Ret s1 → P s1) →
  P s → foldM f s l = Ret s' → P s'.
Proof.
  revert s. induction l as [|a l IH]; simpl; intros s Hstep Hs Hf; [by simplify_eq|].
  apply bind_Ret in Hf as (s1 & Hf1 & Hf).
  apply (IH s1); [|eapply Hstep; [left| |]|]; eauto.
  intros ??? ?. apply Hstep. by right.
Qed.

(** A loop whose every iteration returns under an invariant returns. *)
Lemma foldM_returns {A S} (f : S → A → M S) (P : S → Prop) l s :
  (∀ s a, a ∈ l → P s → ∃ s1, f s a = Ret s1 ∧ P s1) →
  P s → ∃ s', foldM f s l = Ret s' ∧ P s'.
Proof.
  revert s. induction l as [|a l IH]; simpl; intros s Hstep Hs; [eauto|].
  destruct (Hstep s a) as (s1 & -> & H1); [left|done|]. simpl.
  apply IH; [|done]. intros ???. apply Hstep. by right.
Qed.

(** Turns boolean comparisons on [N] into propositions. *)
Ltac nbool :=
  repeat match goal with
  | H : (_ <? _)%N = true |- _ => apply N.ltb_lt in H
  | H : (_ <? _)%N = false |- _ => apply N.ltb_ge in H
  | H : (_ <=? _)%N = true |- _ => apply N.leb_le in H
  | H : (_ <=? _)%N = false |- _ => apply N.leb_gt in H
  | H : (_ =? _)%N = true |- _ => apply N.eqb_eq in H
  | H : (_ =? _)%N = false |- _ => apply N.eqb_neq in H
  | H : negb _ = true |- _ => apply negb_true_iff in H
  | H : negb _ = false |- _ => apply negb_false_iff in H
  | H : _ && _ = true |- _ => apply andb_true_iff in H as [??]
  | H : _ || _ = false |- _ => apply orb_false_iff in H as [??]
  end.

Lemma int_add_exact `{Profile} w a b : (a + b < 2 ^ w)%N → int_add w a b = Ret (a + b)%N.
Proof. intros Hlt. unfold int_add. by rewrite (proj2 (N.ltb_lt _ _) Hlt). Qed.

Lemma int_sub_exact `{Profile} w a b : (b ≤ a)%N → int_sub w a b = Ret (a - b)%N.
Proof. intros Hle. unfold int_sub. by rewrite (proj2 (N.leb_le _ _) Hle). Qed.

Lemma int_mul_exact `{Profile} w a b : (a * b < 2 ^ w)%N → int_mul w a b = Ret (a * b)%N.
Proof. intros Hlt. unfold int_mul. by rewrite (proj2 (N.ltb_lt _ _) Hlt). Qed.

(** Arithmetic that [lia] shows not to overflow. *)
Create HintDb outcome.
#[export] Hint Rewrite @int_add_exact @int_sub_exact @int_mul_exact using lia : outcome.
Ltac arith := progress autorewrite with outcome; cbn [mbind M_bind].

(** Runs the arithmetic at the head of a composed outcome when [lia] shows
    that it does not overflow. *)
Ltac arith_step :=
  lazymatch goal with
  | |- mbind _ (int_add ?w ?a ?b) = _ => rewrite (int_add_exact w a b) by lia
  | |- mbind _ (int_sub ?w ?a ?b) = _ => rewrite (int_sub_exact w a b) by lia
  | |- mbind _ (int_mul ?w ?a ?b) = _ => rewrite (int_mul_exact w a b) by lia
  end; cbn [mbind M_bind].
Ltac arith_step_in H :=
  lazymatch type of H with
  | mbind _ (int_add ?w ?a ?b) = _ => rewrite (int_add_exact w a b) in H by (clear H; lia)
  | mbind _ (int_sub ?w ?a ?b) = _ => rewrite (int_sub_exact w a b) in H by (clear H; lia)
  | mbind _ (int_mul ?w ?a ?b) = _ => rewrite (int_mul_exact w a b) in H by (clear H; lia)
  end; cbn [mbind M_bind] in H.

(** ** Sums of unsigned integers *)

Section Sums.
Local Open Scope N_scope.

Definition sumN (l : list N) : N := foldr N.add 0 l.

Lemma sumN_app l1 l2 : sumN (l1 ++ l2) = sumN l1 + sumN l2.
Proof. induction l1; simpl; lia. Qed.

#[export] Instance sumN_perm : Proper ((≡ₚ) ==> (=)) sumN.
Proof. intros l1 l2 Hp. induction Hp; simpl; lia. Qed.

Lemma int_sum_acc `{Profile} w acc l :
  acc + sumN l < 2 ^ w → foldM (int_add w) acc l = Ret (acc + sumN l).
Proof.
  revert acc. induction l as [|x l IH]; simpl; intros acc Hlt.
  - f_equal; lia.
  - rewrite int_add_exact by lia. simpl. rewrite IH by lia. f_equal; lia.
Qed.

Lemma int_sum_exact `{Profile} w l : sumN l < 2 ^ w → int_sum w l = Ret (sumN l).
Proof. intros Hlt. unfold int_sum. rewrite int_sum_acc by lia. f_equal; lia. Qed.

(** The weight of a finite set. *)
Definition weight {A} `{Countable A} (f : A → N) (s : gset A) : N :=
  sumN (f <$> elements s).

Section Weight.
Context {A} `{Countable A} (f : A → N).
Implicit Types s t : gset A.

Lemma weight_empty : weight f ∅ = 0.
Proof. unfold weight. by rewrite elements_empty. Qed.

Lemma weight_disj_union s t : s ## t → weight f (s ∪ t) = weight f s + weight f t.
Proof.
  intros Hd. unfold weight. rewrite elements_disj_union by done.
  by rewrite fmap_app, sumN_app.
Qed.

Lemma weight_singleton a : weight f {[a]} = f a.
Proof. unfold weight. rewrite elements_singleton. simpl. lia. Qed.

Lemma weight_insert a s : a ∉ s → weight f ({[a]} ∪ s) = f a + weight f s.
Proof. intros Ha. rewrite weight_disj_union by set_solver. by rewrite weight_singleton. Qed.

Lemma weight_split s t : weight f s = weight f (s ∩ t) + weight f (s ∖ t).
Proof.
  rewrite <- weight_disj_union by set_solver. f_equal.
  apply set_eq. intros x. destruct (decide (x ∈ t)); set_solver.
Qed.

Lemma weight_mono s t : s ⊆ t → weight f s ≤ weight f t.
Proof.
  intros Hst. rewrite (weight_split t s).
  replace (t ∩ s) with s by set_solver. lia.
Qed.

(** Inclusion and exclusion. *)
Lemma weight_union_inter s t :
  weight f (s ∪ t) + weight f (s ∩ t) = weight f s + weight f t.
Proof.
  rewrite (weight_split s t).
  replace (s ∪ t) with ((s ∖ t) ∪ t).
  - rewrite weight_disj_union by set_solver. lia.
  - apply set_eq. intros x. destruct (decide (x ∈ t)); set_solver.
Qed.

(** Two sets inside a universe overlap in at least what exceeds the universe. *)
Lemma weight_overlap s t u :
  s ⊆ u → t ⊆ u → weight f s + weight f t ≤ weight f u + weight f (s ∩ t).
Proof.
  intros Hs Ht. rewrite <- weight_union_inter.
  assert (weight f (s ∪ t) ≤ weight f u) by (apply weight_mono; set_solver). lia.
Qed.

Lemma weight_pos_inhabited s : 0 < weight f s → ∃ a, a ∈ s.
Proof.
  intros Hp. destruct (decide (s = ∅)) as [->|Hne].
  - rewrite weight_empty in Hp. lia.
  - by apply set_choose_L.
Qed.

Lemma weight_list_to_set l :
  NoDup l → weight f (list_to_set l) = sumN (f <$> l).
Proof.
  intros Hnd. unfold weight. by rewrite elements_list_to_set.
Qed.

Lemma weight_list_to_set_le l : weight f (list_to_set l) ≤ sumN (f <$> l).
Proof.
  induction l as [|x l IH]; csimpl; [by rewrite weight_empty|].
  destruct (decide (x ∈ (list_to_set l : gset A))) as [Hx|Hx].
  - rewrite subseteq_union_1_L by set_solver. lia.
  - rewrite weight_insert by done. lia.
Qed.

End Weight.
End Sums.

(** ** Lists *)

Lemma list_filter_ext_in {A} (P Q : A → Prop) `{!∀ x, Decision (P x), !∀ x, Decision (Q x)} (l : list A) :
  (∀ x, x ∈ l → P x ↔ Q x) → filter P l = filter Q l.
Proof.
  induction l as [|x l IH]; intros Heq; [done|]. rewrite !filter_cons.
  rewrite IH by (intros; apply Heq; by right).
  pose proof (Heq x ltac:(left)). destruct (decide (P x)), (decide (Q x)); tauto.
Qed.

Lemma Forall2_Some_det {A B} (f g : A → option B) (l : list A) (k1 k2 : list B) :
  Forall2 (λ a b, f a = Some b) l k1 → Forall2 (λ a b, g a = Some b) l k2 →
  (∀ a b, a ∈ l → f a = Some b → g a = Some b) → k1 = k2.
Proof.
  intros Hf. revert k2. induction Hf as [|a b l k1 Hab _ IH]; intros k2 Hg Heq;
    inversion Hg as [|? b' ? k2' Hab' Hg']; subst; [done|].
  rewrite (Heq a b) in Hab' by (done || left). simplify_eq. f_equal. apply IH; [done|].
  intros; apply Heq; [by right|done].
Qed.

Lemma filter_all_in {A} (P : A → Prop) `{!∀ x, Decision (P x)} (l : list A) :
  (∀ x, x ∈ l → P x) → filter P l = l.
Proof.
  induction l as [|x l IH]; intros Hl; [done|]. rewrite filter_cons, decide_True by (apply Hl; left).
  f_equal. apply IH. intros; apply Hl; by right.
Qed.

Lemma filter_none_in {A} (P : A → Prop) `{!∀ x, Decision (P x)} (l : list A) :
  (∀ x, x ∈ l → ¬ P x) → filter P l = [].
Proof.
  induction l as [|x l IH]; intros Hl; [done|]. rewrite filter_cons, decide_False by (apply Hl; left).
  apply IH. intros; apply Hl; by right.
Qed.

(** Decides a closed proposition by evaluation. *)
Ltac by_eval := refine (bool_decide_unpack _ _); vm_compute; exact I.
