(* ===== verification/BTree.v ===== *)
(** * Ordered collections of the Rust standard library

    [Ord] is the trait deciding a total order, [stable_sort] is
    [slice::sort_by], and a [BTreeMap]/[BTreeSet] is a finite map/set of stdpp
    whose iteration order is the key order.  The range methods panic on an
    inverted range, as the standard library does. *)

From S2P Require Import Prelude.
From stdpp Require Export sorting.

(** ** The [Ord] trait *)

Class Ord (K : Type) : Type := cmp : K → K → comparison.

Class OrdLaws (K : Type) `{Ord K} : Prop := {
  cmp_eq : ∀ a b : K, cmp a b = Eq ↔ a = b;
  cmp_opp : ∀ a b : K, cmp b a = CompOpp (cmp a b);
  cmp_lt_trans : ∀ a b c : K, cmp a b = Lt → cmp b c = Lt → cmp a c = Lt;
}.

Definition le_ord {K} `{Ord K} (a b : K) : bool :=
  match cmp a b with Gt => false | _ => true end.
Definition lt_ord {K} `{Ord K} (a b : K) : bool :=
  match cmp a b with Lt => true | _ => false end.

#[export] Instance Ord_N : Ord N := N.compare.
#[export] Instance OrdLaws_N : OrdLaws N.
Proof.
  split; unfold cmp, Ord_N.
  - apply N.compare_eq_iff.
  - apply N.compare_antisym.
  - intros a b c. rewrite !N.compare_lt_iff. apply N.lt_trans.
Qed.

(** The derived order of a tuple or struct is lexicographic. *)
Definition lex (c d : comparison) : comparison :=
  match c with Eq => d | _ => c end.

#[export] Instance Ord_prod {A B} `{Ord A, Ord B} : Ord (A * B) := λ x y,
  lex (cmp x.1 y.1) (cmp x.2 y.2).
#[export] Instance OrdLaws_prod {A B} `{OrdLaws A, OrdLaws B} : OrdLaws (A * B).
Proof.
  split; unfold cmp, Ord_prod, lex.
  - intros [a b] [a' b']; simpl. destruct (cmp a a') eqn:E.
    + apply cmp_eq in E as ->. rewrite cmp_eq. naive_solver.
    + split; [done|]. intros [= -> ->].
      by rewrite (proj2 (cmp_eq a' a') eq_refl) in E.
    + split; [done|]. intros [= -> ->].
      by rewrite (proj2 (cmp_eq a' a') eq_refl) in E.
  - intros [a b] [a' b']; simpl. rewrite (cmp_opp a a').
    destruct (cmp a a'); simpl; [apply cmp_opp|done..].
  - intros [a b] [a' b'] [a'' b'']; simpl.
    destruct (cmp a a') eqn:E1; destruct (cmp a' a'') eqn:E2;
      try apply cmp_eq in E1 as ->; try apply cmp_eq in E2 as ->;
      intros Hx Hy; try discriminate.
    + rewrite (proj2 (cmp_eq a'' a'') eq_refl). by eapply cmp_lt_trans.
    + by rewrite E2.
    + by rewrite E1.
    + by rewrite (cmp_lt_trans _ _ _ E1 E2).
Qed.

(** A type ordered through an injection into an ordered type. *)
Lemma ord_laws_inj {A B} `{OrdLaws B} (f : A → B) `{!Inj (=) (=) f} :
  @OrdLaws A (λ a b, cmp (f a) (f b)).
Proof.
  split; unfold cmp at 1.
  - intros a b. pose proof (cmp_eq (f a) (f b)) as Hc. unfold cmp in Hc |- *.
    rewrite Hc. split; [apply inj, _|by intros ->].
  - intros a b. apply (cmp_opp (f a) (f b)).
  - intros a b c. apply (cmp_lt_trans (f a) (f b) (f c)).
Qed.

Section OrdFacts.
Context {K} `{OrdLaws K}.
Implicit Types a b c : K.

Lemma cmp_refl a : cmp a a = Eq.
Proof. by apply cmp_eq. Qed.

Lemma le_ord_refl a : le_ord a a = true.
Proof. unfold le_ord. by rewrite cmp_refl. Qed.

Lemma le_ord_total a b : le_ord a b = true ∨ le_ord b a = true.
Proof. unfold le_ord. rewrite (cmp_opp a b). destruct (cmp a b); simpl; auto. Qed.

Lemma le_ord_antisym a b : le_ord a b = true → le_ord b a = true → a = b.
Proof.
  unfold le_ord. rewrite (cmp_opp a b). destruct (cmp a b) eqn:E; simpl; try done.
  intros _ _. by apply cmp_eq.
Qed.

Lemma le_ord_trans a b c : le_ord a b = true → le_ord b c = true → le_ord a c = true.
Proof.
  unfold le_ord. destruct (cmp a b) eqn:E1; destruct (cmp b c) eqn:E2; try done;
    try apply cmp_eq in E1 as ->; try apply cmp_eq in E2 as ->; intros _ _.
  - by rewrite cmp_refl.
  - by rewrite E2.
  - by rewrite E1.
  - by rewrite (cmp_lt_trans _ _ _ E1 E2).
Qed.

Lemma lt_ord_alt a b : lt_ord a b = negb (le_ord b a).
Proof. unfold lt_ord, le_ord. rewrite (cmp_opp a b). by destruct (cmp a b). Qed.

Lemma lt_ord_le a b : lt_ord a b = true → le_ord a b = true.
Proof. unfold lt_ord, le_ord. by destruct (cmp a b). Qed.

End OrdFacts.

(** The orders of numbers and pairs as propositions [lia] understands. *)
Lemma le_ord_N (a b : N) : le_ord a b = true ↔ (a ≤ b)%N.
Proof. unfold le_ord, cmp, Ord_N. destruct (N.compare_spec a b); split; (done || lia). Qed.

Lemma lt_ord_N (a b : N) : lt_ord a b = true ↔ (a < b)%N.
Proof. unfold lt_ord, cmp, Ord_N. destruct (N.compare_spec a b); split; (done || lia). Qed.

Lemma le_ord_prod {A B} `{OrdLaws A, Ord B} (x y : A * B) :
  le_ord x y = true ↔ lt_ord x.1 y.1 = true ∨ (x.1 = y.1 ∧ le_ord x.2 y.2 = true).
Proof.
  unfold le_ord, lt_ord, cmp at 1, Ord_prod, lex.
  destruct (cmp x.1 y.1) eqn:E.
  - apply cmp_eq in E. naive_solver.
  - naive_solver.
  - split; [done|]. intros [?|[Heq _]]; [done|]. rewrite Heq, cmp_refl in E. done.
Qed.

Lemma lt_ord_prod {A B} `{OrdLaws A, Ord B} (x y : A * B) :
  lt_ord x y = true ↔ lt_ord x.1 y.1 = true ∨ (x.1 = y.1 ∧ lt_ord x.2 y.2 = true).
Proof.
  unfold lt_ord, cmp at 1, Ord_prod, lex.
  destruct (cmp x.1 y.1) eqn:E.
  - apply cmp_eq in E. naive_solver.
  - naive_solver.
  - split; [done|]. intros [?|[Heq _]]; [done|]. rewrite Heq, cmp_refl in E. done.
Qed.

(** ** Stable sorting *)

Section StableSort.
Context {A : Type} (leb : A → A → bool).

Fixpoint sorted_insert (x : A) (l : list A) : list A :=
  match l with
  | [] => [x]
  | y :: l' => if leb x y then x :: l else y :: sorted_insert x l'
  end.

Definition stable_sort (l : list A) : list A := foldr sorted_insert [] l.

Lemma sorted_insert_perm x l : sorted_insert x l ≡ₚ x :: l.
Proof.
  induction l as [|y l IH]; simpl; [done|].
  destruct (leb x y); [done|]. rewrite IH. apply Permutation_swap.
Qed.

Lemma stable_sort_perm l : stable_sort l ≡ₚ l.
Proof. induction l as [|x l IH]; simpl; [done|]. by rewrite sorted_insert_perm, IH. Qed.

Lemma stable_sort_elem x l : x ∈ stable_sort l ↔ x ∈ l.
Proof. by rewrite stable_sort_perm. Qed.

Lemma stable_sort_NoDup l : NoDup l → NoDup (stable_sort l).
Proof. by rewrite stable_sort_perm. Qed.

Context (leb_total : ∀ x y, leb x y = true ∨ leb y x = true).
Context (leb_trans : ∀ x y z, leb x y = true → leb y z = true → leb x z = true).

Lemma sorted_insert_sorted x l :
  StronglySorted (λ a b, leb a b = true) l →
  StronglySorted (λ a b, leb a b = true) (sorted_insert x l).
Proof using leb_total leb_trans.
  induction 1 as [|y l Hl IH Hy]; simpl; [repeat constructor|].
  destruct (leb x y) eqn:Exy.
  - constructor; [by constructor|]. constructor; [done|].
    eapply Forall_impl; [exact Hy|]. eauto.
  - constructor; [done|]. rewrite sorted_insert_perm. constructor; [|done].
    destruct (leb_total x y); congruence.
Qed.

Lemma stable_sort_sorted l : StronglySorted (λ a b, leb a b = true) (stable_sort l).
Proof using leb_total leb_trans.
  induction l; simpl; [constructor|]. by apply sorted_insert_sorted.
Qed.

(** Stability: elements that compare equal to [x] keep their relative order. *)
Definition same_rank (x z : A) : bool := leb x z && leb z x.

Lemma sorted_insert_stable x y l :
  StronglySorted (λ a b, leb a b = true) l →
  filter (λ z, same_rank x z = true) (sorted_insert y l) =
  filter (λ z, same_rank x z = true) (y :: l).
Proof using leb_trans.
  intros Hl. induction Hl as [|z l Hl IH Hz]; [done|].
  cbn [sorted_insert]. destruct (leb y z) eqn:Eyz; [done|].
  rewrite (filter_cons _ z (sorted_insert y l)), IH, !filter_cons.
  destruct (decide (same_rank x z = true)) as [Hez|],
    (decide (same_rank x y = true)) as [Hey|]; try done.
  exfalso. apply andb_true_iff in Hez as [??], Hey as [??].
  rewrite (leb_trans y x z) in Eyz; done.
Qed.

Lemma stable_sort_stable x l :
  filter (λ z, same_rank x z = true) (stable_sort l) =
  filter (λ z, same_rank x z = true) l.
Proof using leb_total leb_trans.
  induction l as [|y l IH]; [done|]. cbn [stable_sort foldr].
  fold (stable_sort l). rewrite sorted_insert_stable by apply stable_sort_sorted.
  rewrite !filter_cons. by destruct (decide _); rewrite <- IH.
Qed.

End StableSort.

(** ** Sorted lists *)

Lemma StronglySorted_filter {A} (R : A → A → Prop) (P : A → Prop) `{∀ x, Decision (P x)} l :
  StronglySorted R l → StronglySorted R (filter P l).
Proof.
  induction 1 as [|x l Hl IH Hx]; [constructor|]. rewrite filter_cons.
  destruct (decide (P x)); [|done]. constructor; [done|].
  rewrite Forall_forall in Hx |- *. intros y [_ Hy]%list_elem_of_filter. auto.
Qed.

Lemma StronglySorted_reverse {A} (R : A → A → Prop) l : StronglySorted R l → StronglySorted (λ a b, R b a) (reverse l).
Proof.
  induction 1 as [|x l Hl IH Hall]; [constructor|]. rewrite reverse_cons. apply StronglySorted_app_2; [|exact IH|repeat constructor].
  intros a b Ha ->%list_elem_of_singleton. rewrite elem_of_reverse in Ha. rewrite Forall_forall in Hall. by apply Hall.
Qed.

Lemma StronglySorted_fmap {A B} (f : A → B) (R : A → A → Prop) (R' : B → B → Prop) l :
  (∀ x y, x ∈ l → y ∈ l → R x y → R' (f x) (f y)) →
  StronglySorted R l → StronglySorted R' (f <$> l).
Proof.
  intros HR Hl. induction Hl as [|x l Hl IH Hx]; csimpl; [constructor|].
  constructor.
  - apply IH. intros y z ??. apply HR; by right.
  - apply Forall_fmap. rewrite Forall_forall in Hx |- *. intros y Hy. simpl.
    apply HR; [by left|by right|auto].
Qed.

Lemma StronglySorted_fmap_inv {A B} (f : A → B) (R : B → B → Prop) l :
  StronglySorted R (f <$> l) → StronglySorted (λ x y, R (f x) (f y)) l.
Proof.
  induction l as [|x l IH]; csimpl; [constructor|].
  intros [Hx Hl]%StronglySorted_cons. constructor; [auto|]. by rewrite Forall_fmap in Hx.
Qed.

(** A strictly increasing list below [n] has at most [n] elements. *)
Lemma increasing_length (l : list N) (n : N) :
  StronglySorted N.lt l → Forall (λ x, (x < n)%N) l → (N.of_nat (length l) ≤ n)%N.
Proof.
  revert n. induction l as [|x l IH] using rev_ind; intros n Hs Hb; simpl; [lia|].
  apply StronglySorted_app in Hs as (Hlt & Hs & _). apply Forall_app in Hb as [_ Hx].
  inversion Hx; subst. rewrite length_app. simpl.
  specialize (IH x Hs). rewrite Forall_forall in IH.
  assert ((N.of_nat (length l) ≤ x)%N); [|lia]. apply IH. intros y Hy. apply Hlt; [done|]. left.
Qed.

(** ** Sorted keys and entries *)

Section BTree.
Context {K} `{OrdLaws K} `{Countable K}.

Definition bset_list (s : gset K) : list K := stable_sort le_ord (elements s).

Definition bmap_list {V} (m : gmap K V) : list (K * V) :=
  stable_sort (λ x y, le_ord x.1 y.1) (map_to_list m).

Definition bset_first (s : gset K) : option K := head (bset_list s).
Definition bset_last (s : gset K) : option K := last (bset_list s).
Definition bmap_first {V} (m : gmap K V) : option (K * V) := head (bmap_list m).
Definition bmap_last {V} (m : gmap K V) : option (K * V) := last (bmap_list m).

(** [std::ops::Bound]. *)
Inductive bound : Type :=
| Included (k : K)
| Excluded (k : K)
| Unbounded.

Definition above (lo : bound) (k : K) : bool :=
  match lo with Included a => le_ord a k | Excluded a => lt_ord a k | Unbounded => true end.
Definition below (hi : bound) (k : K) : bool :=
  match hi with Included b => le_ord k b | Excluded b => lt_ord k b | Unbounded => true end.

(** [BTreeMap::range] panics when the start is past the end, or when both are
    equal and excluded. *)
Definition range_ok (lo hi : bound) : bool :=
  match lo, hi with
  | Excluded a, Excluded b => lt_ord a b
  | Included a, Included b | Included a, Excluded b | Excluded a, Included b => le_ord a b
  | _, _ => true
  end.

Definition in_range (lo hi : bound) (k : K) : bool := above lo k && below hi k.

Definition bset_range (lo hi : bound) (s : gset K) : M (list K) :=
  if range_ok lo hi then Ret (filter (λ k, in_range lo hi k = true) (bset_list s))
  else Panic RangeInverted.

Definition bmap_range {V} (lo hi : bound) (m : gmap K V) : M (list (K * V)) :=
  if range_ok lo hi
  then Ret (filter (λ e, in_range lo hi e.1 = true) (bmap_list m))
  else Panic RangeInverted.

Lemma bset_list_elem s k : k ∈ bset_list s ↔ k ∈ s.
Proof. unfold bset_list. by rewrite stable_sort_elem, elem_of_elements. Qed.

Lemma bset_list_NoDup s : NoDup (bset_list s).
Proof. apply stable_sort_NoDup, NoDup_elements. Qed.

Lemma bset_list_sorted s : StronglySorted (λ a b, le_ord a b = true) (bset_list s).
Proof. apply stable_sort_sorted; [apply le_ord_total|apply le_ord_trans]. Qed.

Lemma bmap_list_elem {V} (m : gmap K V) k v : (k, v) ∈ bmap_list m ↔ m !! k = Some v.
Proof. unfold bmap_list. by rewrite stable_sort_elem, elem_of_map_to_list. Qed.

Lemma bmap_list_NoDup {V} (m : gmap K V) : NoDup (bmap_list m).*1.
Proof.
  unfold bmap_list. rewrite stable_sort_perm. apply NoDup_fst_map_to_list.
Qed.

Lemma bmap_list_sorted {V} (m : gmap K V) :
  StronglySorted (λ a b, le_ord a.1 b.1 = true) (bmap_list m).
Proof.
  apply (stable_sort_sorted (λ x y, le_ord x.1 y.1)).
  - intros ??. apply le_ord_total.
  - intros ???. apply le_ord_trans.
Qed.

Lemma bset_range_Ret lo hi s l :
  bset_range lo hi s = Ret l →
  range_ok lo hi = true ∧ l = filter (λ k, in_range lo hi k = true) (bset_list s).
Proof. unfold bset_range. destruct (range_ok lo hi); naive_solver. Qed.

Lemma bmap_range_Ret {V} lo hi (m : gmap K V) l :
  bmap_range lo hi m = Ret l →
  range_ok lo hi = true ∧ l = filter (λ e, in_range lo hi e.1 = true) (bmap_list m).
Proof. unfold bmap_range. destruct (range_ok lo hi); naive_solver. Qed.

(** The last element is the greatest one. *)
Lemma sorted_last {A} (R : A → A → Prop) `{!Reflexive R} l x :
  StronglySorted R l → last l = Some x → ∀ y, y ∈ l → R y x.
Proof.
  induction 1 as [|z l Hl IH Hz]; [done|].
  destruct l as [|w l]; [intros [= ->] y ->%list_elem_of_singleton; done|].
  intros Hlast y [->|Hy]%elem_of_cons; [|by apply IH].
  rewrite Forall_forall in Hz. apply Hz.
  apply last_Some_elem_of. done.
Qed.

Lemma bset_last_Some s k :
  bset_last s = Some k → k ∈ s ∧ ∀ k', k' ∈ s → le_ord k' k = true.
Proof.
  intros Hl. split.
  - apply bset_list_elem. by apply last_Some_elem_of.
  - intros k' Hk'. eapply (sorted_last (λ a b, le_ord a b = true)).
    + apply bset_list_sorted.
    + exact Hl.
    + by apply bset_list_elem.
  Unshelve. intros ?. apply le_ord_refl.
Qed.

Lemma bset_last_None s : bset_last s = None ↔ s = ∅.
Proof.
  unfold bset_last. rewrite last_None. split.
  - intros E. apply set_eq. intros k. rewrite <- bset_list_elem, E. set_solver.
  - intros ->. unfold bset_list. by rewrite elements_empty.
Qed.

Lemma bset_first_Some s k :
  bset_first s = Some k → k ∈ s ∧ ∀ k', k' ∈ s → le_ord k k' = true.
Proof.
  unfold bset_first. intros Hh. pose proof (bset_list_sorted s) as Hs.
  destruct (bset_list s) as [|x l] eqn:E; [done|]. simplify_eq/=.
  split; [apply bset_list_elem; rewrite E; left|].
  intros k' Hk'%bset_list_elem. rewrite E in Hk'.
  apply StronglySorted_cons in Hs as [Hs _]. rewrite Forall_forall in Hs.
  apply elem_of_cons in Hk' as [->|]; [apply le_ord_refl|by apply Hs].
Qed.

Lemma bset_first_None s : bset_first s = None ↔ s = ∅.
Proof.
  unfold bset_first. rewrite head_None. split.
  - intros E. apply set_eq. intros k. rewrite <- bset_list_elem, E. set_solver.
  - intros ->. unfold bset_list. by rewrite elements_empty.
Qed.

Lemma bmap_last_Some {V} (m : gmap K V) k v :
  bmap_last m = Some (k, v) →
  m !! k = Some v ∧ ∀ k' v', m !! k' = Some v' → le_ord k' k = true.
Proof.
  intros Hl. split.
  - apply bmap_list_elem. by apply last_Some_elem_of.
  - intros k' v' Hk'%bmap_list_elem.
    assert (Reflexive (λ a b : K * V, le_ord a.1 b.1 = true)) by (intros ?; apply le_ord_refl).
    by apply (sorted_last (λ a b : K * V, le_ord a.1 b.1 = true) (bmap_list m) (k, v)
                (bmap_list_sorted m) Hl (k', v')).
Qed.

Lemma bmap_last_None {V} (m : gmap K V) : bmap_last m = None ↔ m = ∅.
Proof.
  unfold bmap_last. rewrite last_None. split.
  - intros E. apply map_empty. intros k. destruct (m !! k) as [v|] eqn:Hk; [|done].
    apply bmap_list_elem in Hk. rewrite E in Hk. by apply not_elem_of_nil in Hk.
  - intros ->. done.
Qed.

Lemma bmap_first_Some {V} (m : gmap K V) k v :
  bmap_first m = Some (k, v) →
  m !! k = Some v ∧ ∀ k', is_Some (m !! k') → le_ord k k' = true.
Proof.
  unfold bmap_first. intros Hh. pose proof (bmap_list_sorted m) as Hs.
  destruct (bmap_list m) as [|x l] eqn:E; [done|]. simplify_eq/=.
  split; [apply bmap_list_elem; rewrite E; left|].
  intros k' [v' Hk'%bmap_list_elem]. rewrite E in Hk'.
  apply StronglySorted_cons in Hs as [Hs _]. rewrite Forall_forall in Hs.
  apply elem_of_cons in Hk' as [[= -> ->]|Hk']; [apply le_ord_refl|by apply (Hs (k', v'))].
Qed.

Lemma bmap_first_None {V} (m : gmap K V) : bmap_first m = None ↔ m = ∅.
Proof.
  unfold bmap_first. rewrite head_None. split.
  - intros E. apply map_empty. intros k. destruct (m !! k) as [v|] eqn:Hk; [|done].
    apply bmap_list_elem in Hk. rewrite E in Hk. by apply not_elem_of_nil in Hk.
  - intros ->. done.
Qed.

(** A sorted list without duplicates is strictly sorted. *)
Lemma sorted_strict {A} (f : A → K) l :
  StronglySorted (λ a b, le_ord (f a) (f b) = true) l → NoDup (f <$> l) →
  StronglySorted (λ a b, lt_ord (f a) (f b) = true) l.
Proof.
  induction 1 as [|x l Hl IH Hx]; csimpl; [constructor|].
  intros [Hnin Hnd]%NoDup_cons. constructor; [auto|].
  rewrite Forall_forall in Hx |- *. intros y Hy. rewrite lt_ord_alt.
  apply negb_true_iff. destruct (le_ord (f y) (f x)) eqn:E; [|done].
  destruct Hnin. rewrite (le_ord_antisym (f x) (f y)) by auto.
  by apply list_elem_of_fmap_2.
Qed.

End BTree.

Arguments bound _ : clear implicits.
Arguments Unbounded {K}.
