(* ===== verification/Config.v ===== *)
(** * Configuration of consensus (crate [consensus-config])

    The committee of an epoch with its stake thresholds
    (consensus/config/src/committee.rs), the protocol parameters consensus reads
    (consensus_protocol_config.rs) and the per-authority context
    (consensus/core/src/context.rs), without metrics and clocks. *)

From S2P Require Import Prelude.

Abbreviation Epoch := N (only parsing).
Abbreviation Stake := N (only parsing).
Abbreviation AuthorityIndex := N (only parsing).
Abbreviation Round := N (only parsing).
Abbreviation BlockTimestampMs := N (only parsing).
Abbreviation TransactionIndex := N (only parsing).
Abbreviation bytes := (list Byte.byte).

Local Open Scope N_scope.

(** ** Authorities and committees *)

Record Authority : Type := mkAuthority {
  Authority_stake : Stake;
  Authority_address : string;
  Authority_hostname : string;
  Authority_name : bytes;
  Authority_protocol_key : bytes;
  Authority_network_key : bytes;
}.

Record Committee : Type := mkCommittee {
  Committee_epoch : Epoch;
  Committee_authorities : list Authority;
  Committee_total_stake : Stake;
  Committee_quorum_threshold : Stake;
  Committee_certification_threshold : Stake;
  Committee_validity_threshold : Stake;
}.

(** [authorities.len()]. *)
Definition Committee_size (c : Committee) : N := N.of_nat (length (Committee_authorities c)).

Section CommitteeNew.
Context `{Profile}.

Definition Committee_new (epoch : Epoch) (authorities : list Authority) : M Committee :=
  assert_that (negb (N.of_nat (length authorities) =? 0)) "Committee cannot be empty!";;
  assert_that (N.of_nat (length authorities) <? u32_max) "Too many authorities";;
  total_stake ← u64_sum (Authority_stake <$> authorities);
  assert_that (negb (total_stake =? 0)) "Total stake cannot be zero!";;
  total_minus_1 ← u64_sub total_stake 1;
  let fault_tolerance := total_minus_1 / 3 in
  quorum_threshold ← u64_sub total_stake fault_tolerance;
  validity_threshold ← u64_add fault_tolerance 1;
  twice ← u64_mul 2 quorum_threshold;
  overlap ← u64_sub twice fault_tolerance;
  assert_that (total_stake <? overlap) "Quorum must intersect under maxim equivocations!";;
  Ret {| Committee_epoch := epoch;
         Committee_authorities := authorities;
         Committee_total_stake := total_stake;
         Committee_quorum_threshold := quorum_threshold;
         Committee_certification_threshold := quorum_threshold;
         Committee_validity_threshold := validity_threshold |}.

(** The closure [scale] of [new_v3]: [checked_mul] and [checked_div] panic. *)
Definition scale_stake (actual_minus_1 base_stake nominal : Stake) : M Stake :=
  if nominal * actual_minus_1 <? 2 ^ 64
  then if base_stake =? 0 then Panic (Explicit "Division error")
       else Ret (nominal * actual_minus_1 / base_stake)
  else Panic (Explicit "Overflowed").

Definition Committee_new_v3 (epoch : Epoch) (authorities : list Authority)
    (malicious_stake crash_stake : Stake) : M Committee :=
  assert_that (negb (N.of_nat (length authorities) =? 0)) "Committee cannot be empty!";;
  assert_that (N.of_nat (length authorities) <? u32_max) "Too many authorities";;
  actual_total_stake ← u64_sum (Authority_stake <$> authorities);
  assert_that (negb (actual_total_stake =? 0)) "Total stake cannot be zero!";;
  malicious_part ← u64_mul 5 malicious_stake;
  crash_part ← u64_mul 3 crash_stake;
  base_stake ← u64_add malicious_part crash_part;
  '(f, c) ←
    (if 0 <? base_stake
     then actual_minus_1 ← u64_sub actual_total_stake 1;
          f ← scale_stake actual_minus_1 base_stake malicious_stake;
          c ← scale_stake actual_minus_1 base_stake crash_stake;
          Ret (f, c)
     else Ret (0, 0));
  validity_threshold ← u64_add f 1;
  two_f ← u64_mul 2 f;
  two_f_c ← u64_add two_f c;
  certification_threshold ← u64_add two_f_c 1;
  total_minus_f ← u64_sub actual_total_stake f;
  quorum_threshold ← u64_sub total_minus_f c;
  cert_plus_quorum ← u64_add certification_threshold quorum_threshold;
  total_plus_f ← u64_add actual_total_stake f;
  total_plus_f_1 ← u64_add total_plus_f 1;
  assert_that (total_plus_f_1 <=? cert_plus_quorum) "Stake-safety invariant violated";;
  quorum_2 ← u64_mul quorum_threshold 2;
  total_f_cert ← u64_add total_plus_f certification_threshold;
  assert_that (total_f_cert <=? quorum_2) "Stake-safety invariant violated";;
  Ret {| Committee_epoch := epoch;
         Committee_authorities := authorities;
         Committee_total_stake := actual_total_stake;
         Committee_quorum_threshold := quorum_threshold;
         Committee_certification_threshold := certification_threshold;
         Committee_validity_threshold := validity_threshold |}.

End CommitteeNew.

(** [self.authorities[i]] panics out of range. *)
Definition Committee_authority (c : Committee) (i : AuthorityIndex) : M Authority :=
  index (Committee_authorities c) i.

Definition Committee_stake (c : Committee) (i : AuthorityIndex) : M Stake :=
  Authority_stake <$> Committee_authority c i.

(** [authorities()]: the authorities with their indices, in order. *)
Definition Committee_authorities_iter (c : Committee) : list (AuthorityIndex * Authority) :=
  imap (λ i a, (N.of_nat i mod 2 ^ 32, a)) (Committee_authorities c).

Definition Committee_reached_quorum (c : Committee) (stake : Stake) : bool :=
  Committee_quorum_threshold c <=? stake.

Definition Committee_reached_validity (c : Committee) (stake : Stake) : bool :=
  Committee_validity_threshold c <=? stake.

Definition Committee_to_authority_index (c : Committee) (i : N) : option AuthorityIndex :=
  if i <? Committee_size c then Some (i mod 2 ^ 32) else None.

Definition Committee_is_valid_index (c : Committee) (i : AuthorityIndex) : bool :=
  i <? Committee_size c.

(** ** Protocol configuration *)

Inductive ChainType : Type := ChainUnknown | ChainTestnet | ChainMainnet.

Record ConsensusProtocolConfig : Type := mkProtocolConfig {
  pc_protocol_version : N;
  pc_chain : ChainType;
  pc_max_transaction_size_bytes : N;
  pc_max_transactions_in_block_bytes : N;
  pc_max_num_transactions_in_block : N;
  pc_gc_depth : N;
  pc_slim_block_propagation_enabled : bool;
  pc_transaction_voting_enabled : bool;
  pc_num_leaders_per_round : option N;
  pc_bad_nodes_stake_threshold : N;
  pc_enable_v3 : bool;
  pc_leader_schedule_window_size_raw : N;
  pc_leader_schedule_update_interval_raw : N;
}.

(** [ConsensusProtocolConfig::default] outside of the simulator. *)
Definition ConsensusProtocolConfig_default : ConsensusProtocolConfig := {|
  pc_protocol_version := 0;
  pc_chain := ChainUnknown;
  pc_max_transaction_size_bytes := 256 * 1024;
  pc_max_transactions_in_block_bytes := 512 * 1024;
  pc_max_num_transactions_in_block := 512;
  pc_gc_depth := 0;
  pc_slim_block_propagation_enabled := false;
  pc_transaction_voting_enabled := false;
  pc_num_leaders_per_round := None;
  pc_bad_nodes_stake_threshold := 0;
  pc_enable_v3 := false;
  pc_leader_schedule_window_size_raw := 600;
  pc_leader_schedule_update_interval_raw := 60;
|}.

(** [ConsensusProtocolConfig::for_testing] outside of the simulator. *)
Definition ConsensusProtocolConfig_for_testing : ConsensusProtocolConfig := {|
  pc_protocol_version := u64_max;
  pc_chain := ChainUnknown;
  pc_max_transaction_size_bytes := 256 * 1024;
  pc_max_transactions_in_block_bytes := 512 * 1024;
  pc_max_num_transactions_in_block := 512;
  pc_gc_depth := 60;
  pc_slim_block_propagation_enabled := false;
  pc_transaction_voting_enabled := true;
  pc_num_leaders_per_round := Some 1;
  pc_bad_nodes_stake_threshold := 30;
  pc_enable_v3 := false;
  pc_leader_schedule_window_size_raw := 600;
  pc_leader_schedule_update_interval_raw := 60;
|}.

Definition pc_leader_schedule_window_size (p : ConsensusProtocolConfig) : N :=
  N.max (pc_leader_schedule_window_size_raw p) 1.
Definition pc_leader_schedule_update_interval (p : ConsensusProtocolConfig) : N :=
  N.max (pc_leader_schedule_update_interval_raw p) 1.

(** ** Context

    [ctx_dag_state_cached_rounds], [ctx_skip_equivocation_validation],
    [ctx_min_round_delay] (in nanoseconds) and
    [ctx_propagation_delay_stop_proposal_threshold] are the fields of [Parameters]
    that the modelled code reads. *)
Record Context : Type := mkContext {
  ctx_epoch_start_timestamp_ms : N;
  ctx_own_index : AuthorityIndex;
  ctx_committee : Committee;
  ctx_dag_state_cached_rounds : Round;
  ctx_skip_equivocation_validation : bool;
  ctx_min_round_delay : N;
  ctx_propagation_delay_stop_proposal_threshold : Round;
  ctx_protocol_config : ConsensusProtocolConfig;
}.

Definition Context_is_validator (ctx : Context) : bool :=
  Committee_is_valid_index (ctx_committee ctx) (ctx_own_index ctx).

(** ** Stake of sets of authorities *)

Definition stake_at (c : Committee) (i : AuthorityIndex) : Stake :=
  from_option Authority_stake 0 (Committee_authorities c !! N.to_nat i).

Definition members (c : Committee) : gset AuthorityIndex :=
  list_to_set (N.of_nat <$> seq 0 (length (Committee_authorities c))).

Definition set_stake (c : Committee) (s : gset AuthorityIndex) : Stake :=
  weight (stake_at c) s.

(** A quorum: members whose joint stake passes [reached_quorum]. *)
Definition is_quorum (c : Committee) (s : gset AuthorityIndex) : Prop :=
  s ⊆ members c ∧ Committee_reached_quorum c (set_stake c s) = true.

(** What every component relies on: the recorded total is the sum of the
    stakes, it fits its width, and two quorums overlap in more stake than the
    faults tolerated ([validity_threshold] is one more than these), which are
    less than half of a quorum and leave a quorum of others. *)
Record Committee_wf (c : Committee) : Prop := {
  wf_total : Committee_total_stake c = sumN (Authority_stake <$> Committee_authorities c);
  wf_total_u64 : Committee_total_stake c < 2 ^ 64;
  wf_size : Committee_size c < u32_max;
  wf_quorum_pos : 0 < Committee_quorum_threshold c;
  wf_quorum_reachable : Committee_quorum_threshold c ≤ Committee_total_stake c;
  wf_overlap : Committee_total_stake c + Committee_validity_threshold c
               ≤ 2 * Committee_quorum_threshold c;
  wf_validity : 2 * Committee_validity_threshold c ≤ Committee_quorum_threshold c + 1;
  wf_available : Committee_quorum_threshold c + Committee_validity_threshold c
                 ≤ Committee_total_stake c + 1;
}.

Lemma members_spec c i : i ∈ members c ↔ Committee_is_valid_index c i = true.
Proof.
  unfold members, Committee_is_valid_index, Committee_size.
  rewrite elem_of_list_to_set, list_elem_of_fmap, N.ltb_lt. split.
  - intros (n & -> & ?%elem_of_seq). lia.
  - intros ?. exists (N.to_nat i). rewrite elem_of_seq. lia.
Qed.

Lemma Committee_stake_valid c i :
  Committee_is_valid_index c i = true → Committee_stake c i = Ret (stake_at c i).
Proof.
  unfold Committee_is_valid_index, Committee_stake, Committee_authority, index, stake_at.
  intros ?%N.ltb_lt. unfold Committee_size in *.
  destruct (lookup_lt_is_Some_2 (Committee_authorities c) (N.to_nat i)) as [a ->]; [lia|done].
Qed.

Lemma Committee_authority_member c i : i ∈ members c → ∃ a, Committee_authority c i = Ret a.
Proof.
  intros Hi%members_spec%Committee_stake_valid. unfold Committee_stake in Hi.
  destruct (Committee_authority c i); try done. by eexists.
Qed.

Lemma Committee_stake_Ret c i s :
  Committee_stake c i = Ret s → i ∈ members c ∧ s = stake_at c i.
Proof.
  unfold Committee_stake, Committee_authority, index, stake_at. rewrite members_spec.
  unfold Committee_is_valid_index, Committee_size.
  destruct (Committee_authorities c !! N.to_nat i) as [a|] eqn:E; [|done].
  intros [= <-]. apply lookup_lt_Some in E. split; [apply N.ltb_lt; lia|done].
Qed.

Lemma set_stake_members c :
  set_stake c (members c) = sumN (Authority_stake <$> Committee_authorities c).
Proof.
  unfold set_stake, members. rewrite weight_list_to_set.
  - f_equal. rewrite <- list_fmap_compose.
    apply list_eq. intros i. rewrite !list_lookup_fmap.
    destruct (decide (i < length (Committee_authorities c))%nat) as [Hi|Hi].
    + rewrite lookup_seq_lt by done. simpl. unfold compose, stake_at. rewrite Nat2N.id.
      by destruct (lookup_lt_is_Some_2 _ _ Hi) as [a ->].
    + rewrite lookup_seq_ge by lia. by rewrite lookup_ge_None_2 by lia.
  - apply (NoDup_fmap_2 _), NoDup_seq.
Qed.

Lemma set_stake_le_total c s :
  Committee_wf c → s ⊆ members c → set_stake c s ≤ Committee_total_stake c.
Proof.
  intros Hwf Hs. rewrite (wf_total c Hwf), <- set_stake_members. by apply weight_mono.
Qed.

Lemma quorum_overlap c s t :
  Committee_wf c → is_quorum c s → is_quorum c t →
  Committee_validity_threshold c ≤ set_stake c (s ∩ t).
Proof.
  intros Hwf [Hs Hqs] [Ht Hqt]. unfold Committee_reached_quorum in *.
  apply N.leb_le in Hqs, Hqt.
  pose proof (weight_overlap (stake_at c) s t (members c) Hs Ht) as Ho.
  pose proof (wf_overlap c Hwf). pose proof (wf_total c Hwf).
  pose proof (set_stake_members c). unfold set_stake in *. lia.
Qed.

(** Two quorums share an authority outside any set too light to be valid. *)
Lemma quorum_honest_witness c s t byz :
  Committee_wf c → is_quorum c s → is_quorum c t →
  set_stake c byz < Committee_validity_threshold c →
  ∃ i, i ∈ s ∧ i ∈ t ∧ i ∉ byz.
Proof.
  intros Hwf Hs Ht Hb. pose proof (quorum_overlap c s t Hwf Hs Ht) as Ho.
  destruct (weight_pos_inhabited (stake_at c) ((s ∩ t) ∖ byz)) as [i Hi].
  - pose proof (weight_split (stake_at c) (s ∩ t) byz) as Hsp.
    pose proof (weight_mono (stake_at c) (s ∩ t ∩ byz) byz ltac:(set_solver)) as Hm.
    unfold set_stake in *. lia.
  - exists i. set_solver.
Qed.

Lemma is_quorum_mono c s t : is_quorum c s → s ⊆ t → t ⊆ members c → is_quorum c t.
Proof.
  unfold is_quorum, Committee_reached_quorum. intros [_ Hq%N.leb_le] Hst Ht.
  split; [done|]. apply N.leb_le. pose proof (weight_mono (stake_at c) s t Hst).
  unfold set_stake in *. lia.
Qed.

(** ** The thresholds computed by [Committee::new] *)

Section CommitteeProps.
Context `{Profile}.

Definition total_of (authorities : list Authority) : N := sumN (Authority_stake <$> authorities).

Lemma Committee_new_fields epoch authorities c :
  total_of authorities < 2 ^ 64 →
  Committee_new epoch authorities = Ret c →
  let T := total_of authorities in
  0 < T ∧ N.of_nat (length authorities) < u32_max ∧
  c = {| Committee_epoch := epoch; Committee_authorities := authorities;
         Committee_total_stake := T;
         Committee_quorum_threshold := T - (T - 1) / 3;
         Committee_certification_threshold := T - (T - 1) / 3;
         Committee_validity_threshold := (T - 1) / 3 + 1 |}.
Proof.
  intros Ht Hnew T. unfold Committee_new in Hnew. minv Hnew.
  rewrite int_sum_exact in E1 by done. fold (total_of authorities) in E1. fold T in E1, Ht.
  simplify_eq. nbool.
  rewrite int_sub_exact in E3 by lia. simplify_eq.
  rewrite int_sub_exact in E4 by lia. rewrite int_add_exact in E5 by lia. simplify_eq.
  split_and!; [lia|done|done].
Qed.

Lemma Committee_new_wf epoch authorities c :
  total_of authorities < 2 ^ 64 →
  Committee_new epoch authorities = Ret c → Committee_wf c.
Proof.
  intros Ht (Hpos & Hlen & ->)%Committee_new_fields; [|done].
  split; simpl; unfold Committee_size; simpl; fold (total_of authorities); try done; lia.
Qed.


Lemma Committee_new_exact epoch authorities T :
  total_of authorities = T → authorities ≠ [] →
  N.of_nat (length authorities) < u32_max → T ≠ 0 → 2 * T < 2 ^ 64 →
  Committee_new epoch authorities =
    Ret {| Committee_epoch := epoch; Committee_authorities := authorities;
           Committee_total_stake := T;
           Committee_quorum_threshold := T - (T - 1) / 3;
           Committee_certification_threshold := T - (T - 1) / 3;
           Committee_validity_threshold := (T - 1) / 3 + 1 |}.
Proof.
  intros HT Hne Hlen Hpos Ht. unfold Committee_new.
  rewrite int_sum_exact by (fold (total_of authorities); lia).
  fold (total_of authorities). rewrite HT.
  rewrite (proj2 (N.eqb_neq (N.of_nat (length authorities)) 0))
    by (destruct authorities; simpl; [done|lia]).
  rewrite (proj2 (N.ltb_lt _ _) Hlen). simpl. rewrite (proj2 (N.eqb_neq T 0) Hpos). simpl.
  repeat arith_step.
  by rewrite (proj2 (N.ltb_lt _ _)) by lia.
Qed.

(** [Committee::new] panics exactly on an empty or oversized list and on
    zero stake; its last assertion never fires, and its fault budget is the
    largest [f] with [3 f + 1 <= total]. *)
Theorem Committee_new_returns epoch authorities :
  2 * total_of authorities < 2 ^ 64 →
  (∃ c, Committee_new epoch authorities = Ret c ∧
        Committee_total_stake c = total_of authorities ∧
        3 * (Committee_validity_threshold c - 1) + 1 ≤ total_of authorities
          < 3 * Committee_validity_threshold c + 1 ∧
        Committee_quorum_threshold c + Committee_validity_threshold c
          = total_of authorities + 1) ↔
  authorities ≠ [] ∧ N.of_nat (length authorities) < u32_max ∧ total_of authorities ≠ 0.
Proof.
  intros Ht. split.
  - intros (c & (? & ? & Hc)%Committee_new_fields & _); [|lia].
    split_and!; [|done|lia]. intros ->. unfold total_of in *. simpl in *. lia.
  - intros (Hne & Hlen & Hpos).
    rewrite (Committee_new_exact epoch authorities _ eq_refl) by done.
    eexists. split; [done|]. simpl. split_and!; lia.
Qed.

(** *** [Committee::new_v3] *)

(** The scaled budgets fit the real total: [5 f + 3 c <= total - 1]. *)
Lemma scaled_budget F C X B :
  B = 5 * F + 3 * C → 0 < B → 5 * (F * X / B) + 3 * (C * X / B) ≤ X.
Proof.
  intros HB Hpos.
  pose proof (N.Div0.mul_div_le (F * X) B) as H1.
  pose proof (N.Div0.mul_div_le (C * X) B) as H2.
  generalize dependent (F * X / B). intros f H1.
  generalize dependent (C * X / B). intros c H2. nia.
Qed.

(** The fault budget a v3 committee ends up with. *)
Definition v3_budget (T F C : N) : N * N :=
  let B := 5 * F + 3 * C in
  if 0 <? B then (F * (T - 1) / B, C * (T - 1) / B) else (0, 0).

Lemma v3_budget_fits T F C : 0 < T → 5 * (v3_budget T F C).1 + 3 * (v3_budget T F C).2 + 1 ≤ T.
Proof.
  intros HT. unfold v3_budget. destruct (0 <? 5 * F + 3 * C) eqn:E; simpl; [|lia].
  nbool. pose proof (scaled_budget F C (T - 1) _ eq_refl E). lia.
Qed.

Definition v3_committee epoch authorities (f c : N) : Committee :=
  {| Committee_epoch := epoch; Committee_authorities := authorities;
     Committee_total_stake := total_of authorities;
     Committee_quorum_threshold := total_of authorities - f - c;
     Committee_certification_threshold := 2 * f + c + 1;
     Committee_validity_threshold := f + 1 |}.

Lemma Committee_new_v3_fields epoch authorities F C r :
  total_of authorities < 2 ^ 64 → 5 * F + 3 * C < 2 ^ 64 →
  Committee_new_v3 epoch authorities F C = Ret r →
  0 < total_of authorities ∧ N.of_nat (length authorities) < u32_max ∧
  r = v3_committee epoch authorities
        (v3_budget (total_of authorities) F C).1 (v3_budget (total_of authorities) F C).2.
Proof.
  intros Ht HB Hnew. unfold Committee_new_v3 in Hnew.
  apply bind_Ret in Hnew as (? & E1 & Hnew). apply bind_Ret in Hnew as (? & E2 & Hnew).
  rewrite int_sum_exact in Hnew by done. fold (total_of authorities) in Hnew. simpl in Hnew.
  apply bind_Ret in Hnew as (? & E3 & Hnew).
  apply assert_that_Ret in E1, E2, E3. nbool.
  repeat arith_step_in Hnew.
  apply bind_Ret in Hnew as ([f c] & Efc & Hnew).
  assert ((f, c) = v3_budget (total_of authorities) F C) as Hfc.
  { unfold v3_budget. destruct (0 <? 5 * F + 3 * C) eqn:EB; [|by simplify_eq].
    repeat arith_step_in Efc. nbool.
    unfold scale_stake in Efc. rewrite (proj2 (N.eqb_neq (5 * F + 3 * C) 0)) in Efc by lia.
    destruct (F * (total_of authorities - 1) <? 2 ^ 64); [|done].
    destruct (C * (total_of authorities - 1) <? 2 ^ 64); by simplify_eq/=. }
  pose proof (v3_budget_fits (total_of authorities) F C ltac:(lia)) as Hfit.
  rewrite <- Hfc in Hfit |- *. simpl in Hfit |- *. clear Efc Hfc.
  repeat arith_step_in Hnew.
  minv Hnew. split_and!; [lia|done|done].
Qed.

Lemma Committee_new_v3_wf epoch authorities F C r :
  total_of authorities < 2 ^ 64 → 5 * F + 3 * C < 2 ^ 64 →
  Committee_new_v3 epoch authorities F C = Ret r → Committee_wf r.
Proof.
  intros Ht HB (Hpos & Hlen & ->)%Committee_new_v3_fields; [|done..].
  pose proof (v3_budget_fits (total_of authorities) F C Hpos).
  split; simpl; unfold Committee_size; simpl; fold (total_of authorities); try done; lia.
Qed.


(** The two stake-safety assertions of [Committee::new_v3] never fire: it
    returns for every non-empty committee whose arithmetic fits 64 bits. *)
Theorem Committee_new_v3_returns epoch authorities F C :
  authorities ≠ [] → N.of_nat (length authorities) < u32_max →
  0 < total_of authorities → 2 * total_of authorities < 2 ^ 64 →
  5 * F + 3 * C < 2 ^ 64 →
  F * (total_of authorities - 1) < 2 ^ 64 → C * (total_of authorities - 1) < 2 ^ 64 →
  ∃ f c, Committee_new_v3 epoch authorities F C = Ret (v3_committee epoch authorities f c) ∧
         5 * f + 3 * c + 1 ≤ total_of authorities.
Proof.
  intros Hne Hlen Hpos Ht HB HF HC.
  pose proof (v3_budget_fits (total_of authorities) F C Hpos) as Hfit.
  exists (v3_budget (total_of authorities) F C).1, (v3_budget (total_of authorities) F C).2.
  split; [|done]. unfold Committee_new_v3.
  rewrite int_sum_exact by (fold (total_of authorities); lia). fold (total_of authorities).
  rewrite (proj2 (N.eqb_neq (N.of_nat (length authorities)) 0))
    by (destruct authorities; simpl; [done|lia]).
  rewrite (proj2 (N.ltb_lt _ _) Hlen). simpl.
  rewrite (proj2 (N.eqb_neq (total_of authorities) 0)) by lia. simpl.
  repeat arith_step.
  replace (if 0 <? 5 * F + 3 * C then _ else Ret (0, 0))
    with (Ret (v3_budget (total_of authorities) F C)).
  2: { unfold v3_budget. destruct (0 <? 5 * F + 3 * C) eqn:EB; [|done]. nbool.
       rewrite int_sub_exact by lia. simpl. unfold scale_stake.
       rewrite (proj2 (N.ltb_lt _ _) HF), (proj2 (N.ltb_lt _ _) HC).
       by rewrite (proj2 (N.eqb_neq (5 * F + 3 * C) 0)) by lia. }
  destruct (v3_budget (total_of authorities) F C) as [f c]. simpl in *.
  repeat arith_step.
  rewrite (proj2 (N.leb_le _ _)) by lia. simpl. repeat arith_step. by rewrite (proj2 (N.leb_le _ _)) by lia.
Qed.

End CommitteeProps.

(** ** A sample committee

    Four authorities holding 2,500 of the 10,000 units of voting power each. *)

Definition sample_authority (stake : Stake) : Authority :=
  {| Authority_stake := stake; Authority_address := ""; Authority_hostname := "h";
     Authority_name := []; Authority_protocol_key := []; Authority_network_key := [] |}.

Definition sample_authorities : list Authority := sample_authority <$> [2500; 2500; 2500; 2500].



(** Four authorities with the same stake. *)
Definition sample_committee : Committee :=
  {| Committee_epoch := 1; Committee_authorities := sample_authorities;
     Committee_total_stake := 10000; Committee_quorum_threshold := 6667;
     Committee_certification_threshold := 6667; Committee_validity_threshold := 3334 |}.

Lemma sample_committee_new :
  Committee_new (H := release_profile) 1 sample_authorities = Ret sample_committee.
Proof. vm_compute. reflexivity. Qed.

Lemma sample_committee_wf : Committee_wf sample_committee.
Proof.
  apply (Committee_new_wf (H := release_profile) 1 sample_authorities); [|apply sample_committee_new].
  vm_compute. reflexivity.
Qed.

Definition sample_context : Context :=
  {| ctx_epoch_start_timestamp_ms := 0; ctx_own_index := 0; ctx_committee := sample_committee;
     ctx_dag_state_cached_rounds := 2; ctx_skip_equivocation_validation := false;
     ctx_min_round_delay := 50000000; ctx_propagation_delay_stop_proposal_threshold := 5;
     ctx_protocol_config := ConsensusProtocolConfig_for_testing |}.
