(* ===== verification/StakeLists.v ===== *)
(** * Values weighted by stake

    Lists of values with the stake behind each, as the linearizer, the round
    tracker and the ancestor states accumulate them: the stake below, up to and
    from a value, and where a threshold is reached along a sorted list. *)

From S2P Require Import Prelude BTree Config.
Local Open Scope N_scope.

Implicit Types l : list (N * Stake).

Definition stakes l : N := sumN (snd <$> l).

(** The stake behind the entries before [m], up to [m], from [m] on and after [m]. *)
Definition before (m : N) l : N := stakes (filter (λ e, e.1 < m) l).
Definition until (m : N) l : N := stakes (filter (λ e, e.1 ≤ m) l).
Definition since (m : N) l : N := stakes (filter (λ e, m ≤ e.1) l).
Definition after (m : N) l : N := stakes (filter (λ e, m < e.1) l).

Lemma stakes_app l1 l2 : stakes (l1 ++ l2) = stakes l1 + stakes l2.
Proof. unfold stakes. by rewrite fmap_app, sumN_app. Qed.

Lemma stakes_cons e l : stakes (e :: l) = e.2 + stakes l.
Proof. done. Qed.

Lemma stakes_filter_le (P : N * Stake → Prop) `{!∀ e, base.Decision (P e)} l :
  stakes (filter P l) ≤ stakes l.
Proof.
  induction l as [|e l IH]; [done|]. rewrite filter_cons. unfold stakes in *.
  destruct (decide (P e)); csimpl; lia.
Qed.

#[export] Instance stakes_perm : Proper ((≡ₚ) ==> (=)) stakes.
Proof. intros l l' Hp. unfold stakes. by rewrite Hp. Qed.

Lemma StronglySorted_weaken {A} (R R' : A → A → Prop) (l : list A) :
  (∀ x y, R x y → R' x y) → StronglySorted R l → StronglySorted R' l.
Proof. intros HR. induction 1 as [|x l Hl IH Hx]; constructor; [done|]. rewrite Forall_forall in Hx |- *. auto. Qed.

(** A prefix of a sorted list holds what is before the next entry. *)
Lemma sorted_split pre m stake post :
  StronglySorted (λ a b : N * Stake, (a.1 <=? b.1) = true) (pre ++ (m, stake) :: post) →
  before m (pre ++ (m, stake) :: post) ≤ stakes pre ∧
  stakes pre + stake ≤ until m (pre ++ (m, stake) :: post).
Proof.
  intros Hs. apply StronglySorted_app in Hs as (Hcross & _ & Hpost).
  inversion Hpost as [|? ? _ Hge]; subst. rewrite Forall_forall in Hge.
  unfold before, until. rewrite !filter_app, !stakes_app, !filter_cons. simpl.
  rewrite (decide_False (P := m < m)), (decide_True (P := m ≤ m)) by lia. split.
  - assert (filter (λ e : N * Stake, e.1 < m) post = []) as ->.
    { apply filter_none_in. intros e He Hlt. specialize (Hge e He). simpl in Hge. nbool. lia. }
    pose proof (stakes_filter_le (λ e, e.1 < m) pre). unfold stakes at 2. simpl. lia.
  - rewrite (filter_all_in (λ e, e.1 ≤ m) pre).
    + rewrite stakes_cons. simpl. lia.
    + intros e He. specialize (Hcross e (m, stake) He ltac:(left)). simpl in Hcross. by nbool.
Qed.

Lemma sorted_split_rev pre m stake post :
  StronglySorted (λ a b : N * Stake, (a.1 <=? b.1) = true) (pre ++ (m, stake) :: post) →
  after m (pre ++ (m, stake) :: post) ≤ stakes post ∧
  stakes post + stake ≤ since m (pre ++ (m, stake) :: post).
Proof.
  intros Hs. apply StronglySorted_app in Hs as (Hcross & _ & Hpost).
  inversion Hpost as [|? ? _ Hge]; subst. rewrite Forall_forall in Hge.
  unfold after, since. rewrite !filter_app, !stakes_app, !filter_cons. simpl.
  rewrite (decide_False (P := m < m)), (decide_True (P := m ≤ m)) by lia. split.
  - assert (filter (λ e : N * Stake, m < e.1) pre = []) as ->.
    { apply filter_none_in. intros e He Hlt. specialize (Hcross e (m, stake) He ltac:(left)). simpl in Hcross. nbool. lia. }
    pose proof (stakes_filter_le (λ e, m < e.1) post). unfold stakes at 1. simpl. lia.
  - rewrite (filter_all_in (λ e, m ≤ e.1) post).
    + rewrite stakes_cons. simpl. lia.
    + intros e He. specialize (Hge e He). simpl in Hge. by nbool.
Qed.

(** ** One value per authority *)

Section Weighted.
Context (c : Committee) (f : AuthorityIndex → N).

Definition indices : list AuthorityIndex := N.of_nat <$> seq 0 (length (Committee_authorities c)).

Definition weighted : list (N * Stake) := (λ i, (f i, stake_at c i)) <$> indices.

(** The members whose value satisfies [P]. *)
Definition having (P : N → Prop) `{!∀ x, base.Decision (P x)} : gset AuthorityIndex :=
  filter (λ i, P (f i)) (members c).

Lemma having_elem P `{!∀ x, base.Decision (P x)} i : i ∈ having P ↔ i ∈ members c ∧ P (f i).
Proof. unfold having. rewrite elem_of_filter. tauto. Qed.

Lemma weighted_filter P `{!∀ x, base.Decision (P x)} :
  stakes (filter (λ e, P e.1) weighted) = set_stake c (having P).
Proof.
  assert (having P = list_to_set (filter (λ i, P (f i)) indices)) as ->.
  { apply set_eq. intros i. rewrite having_elem. unfold members. fold indices.
    rewrite !elem_of_list_to_set, list_elem_of_filter. tauto. }
  unfold set_stake. rewrite weight_list_to_set.
  2:{ apply NoDup_filter, (NoDup_fmap_2 _), NoDup_seq. }
  unfold weighted. generalize indices. intros l. induction l as [|i l IH]; [done|].
  csimpl. rewrite !filter_cons. simpl. destruct (decide (P (f i))); csimpl; [|done].
  rewrite stakes_cons, IH. done.
Qed.

Lemma stakes_weighted : stakes weighted = set_stake c (members c).
Proof.
  pose proof (weighted_filter (λ _, True)) as Hw. rewrite filter_all_in in Hw by done. rewrite Hw. f_equal.
  apply set_eq. intros i. rewrite having_elem. tauto.
Qed.

End Weighted.
