(* ===== verification/Block.v ===== *)
(** * Blocks of the DAG

    consensus/types/src/block.rs and consensus/core/src/block.rs: block
    references with their derived order, the three block versions behind
    [BlockAPI], signed and verified blocks, slots, genesis blocks; and
    [CommitRef] of commit.rs, which blocks carry as commit votes.

    A 32-byte digest is the 256-bit number with these big-endian bytes, so the
    derived lexicographic order on digests is the order of numbers. *)

From S2P Require Import Prelude BTree Config.
Local Open Scope N_scope.

(** ** References *)

Abbreviation BlockDigest := N (only parsing).
Abbreviation CommitDigest := N (only parsing).
Abbreviation CommitIndex := N (only parsing).
Definition BlockDigest_MIN : BlockDigest := 0.
Definition BlockDigest_MAX : BlockDigest := 2 ^ 256 - 1.
Definition AuthorityIndex_ZERO : AuthorityIndex := 0.
Definition AuthorityIndex_MAX : AuthorityIndex := u32_max.
Definition GENESIS_ROUND : Round := 0.
Definition NUM_RESERVED_TRANSACTION_INDICES : TransactionIndex := 8.

Record BlockRef : Type := mkBlockRef {
  br_round : Round;
  br_author : AuthorityIndex;
  br_digest : BlockDigest;
}.

Definition BlockRef_MIN : BlockRef := mkBlockRef 0 AuthorityIndex_ZERO BlockDigest_MIN.
Definition BlockRef_MAX : BlockRef := mkBlockRef u32_max AuthorityIndex_MAX BlockDigest_MAX.

Definition BlockRef_tuple (r : BlockRef) : N * (N * N) :=
  (br_round r, (br_author r, br_digest r)).

#[export] Instance BlockRef_tuple_inj : Inj (=) (=) BlockRef_tuple.
Proof. intros [] []. by intros [= -> -> ->]. Qed.
#[export] Instance BlockRef_eq_dec : EqDecision BlockRef.
Proof. solve_decision. Defined.
#[export] Instance BlockRef_countable : Countable BlockRef.
Proof.
  refine (inj_countable' BlockRef_tuple (λ t, mkBlockRef t.1 t.2.1 t.2.2) _).
  by intros [].
Defined.

(** [#[derive(PartialOrd, Ord)]]: lexicographic on round, author, digest. *)
#[export] Instance Ord_BlockRef : Ord BlockRef := λ a b,
  cmp (BlockRef_tuple a) (BlockRef_tuple b).
#[export] Instance OrdLaws_BlockRef : OrdLaws BlockRef.
Proof. apply (ord_laws_inj BlockRef_tuple). Qed.

Record Slot : Type := mkSlot { slot_round : Round; slot_authority : AuthorityIndex }.
#[export] Instance Slot_eq_dec : EqDecision Slot.
Proof. solve_decision. Defined.

(** [impl From<BlockRef> for Slot]. *)
Definition Slot_from (r : BlockRef) : Slot := mkSlot (br_round r) (br_author r).

Record CommitRef : Type := mkCommitRef { cr_index : CommitIndex; cr_digest : CommitDigest }.
#[export] Instance CommitRef_eq_dec : EqDecision CommitRef.
Proof. solve_decision. Defined.
#[export] Instance CommitRef_countable : Countable CommitRef.
Proof.
  refine (inj_countable' (λ c, (cr_index c, cr_digest c)) (λ t, mkCommitRef t.1 t.2) _).
  by intros [].
Defined.
Abbreviation CommitVote := CommitRef (only parsing).

(** ** Block contents *)

Record Transaction : Type := mkTransaction { tx_data : bytes }.

Record BlockTransactionVotes : Type := mkBlockTransactionVotes {
  btv_block_ref : BlockRef;
  btv_rejects : list TransactionIndex;
}.

Inductive MisbehaviorProof : Type := InvalidBlock (r : BlockRef).
Record MisbehaviorReport : Type := mkMisbehaviorReport {
  mr_target : AuthorityIndex;
  mr_proof : MisbehaviorProof;
}.

Record BlockV1 : Type := mkBlockV1 {
  v1_epoch : Epoch;
  v1_round : Round;
  v1_author : AuthorityIndex;
  v1_timestamp_ms : BlockTimestampMs;
  v1_ancestors : list BlockRef;
  v1_transactions : list Transaction;
  v1_commit_votes : list CommitVote;
  v1_misbehavior_reports : list MisbehaviorReport;
}.

Record BlockV2 : Type := mkBlockV2 {
  v2_epoch : Epoch;
  v2_round : Round;
  v2_author : AuthorityIndex;
  v2_timestamp_ms : BlockTimestampMs;
  v2_ancestors : list BlockRef;
  v2_transactions : list Transaction;
  v2_transaction_votes : list BlockTransactionVotes;
  v2_commit_votes : list CommitVote;
  v2_misbehavior_reports : list MisbehaviorReport;
}.

Record BlockV3 : Type := mkBlockV3 {
  v3_epoch : Epoch;
  v3_round : Round;
  v3_author : AuthorityIndex;
  v3_timestamp_ms : BlockTimestampMs;
  v3_ancestors : list BlockRef;
  v3_transactions : list Transaction;
  v3_transaction_votes : list BlockTransactionVotes;
  v3_transaction_votes_cutoff_round : Round;
  v3_commit_votes : list CommitVote;
  v3_misbehavior_reports : list MisbehaviorReport;
}.

Inductive Block : Type :=
| BV1 (b : BlockV1)
| BV2 (b : BlockV2)
| BV3 (b : BlockV3).

(** ** [BlockAPI], dispatched on the version *)

Definition b_epoch (b : Block) : Epoch :=
  match b with BV1 b => v1_epoch b | BV2 b => v2_epoch b | BV3 b => v3_epoch b end.
Definition b_round (b : Block) : Round :=
  match b with BV1 b => v1_round b | BV2 b => v2_round b | BV3 b => v3_round b end.
Definition b_author (b : Block) : AuthorityIndex :=
  match b with BV1 b => v1_author b | BV2 b => v2_author b | BV3 b => v3_author b end.
Definition b_slot (b : Block) : Slot := mkSlot (b_round b) (b_author b).
Definition b_timestamp_ms (b : Block) : BlockTimestampMs :=
  match b with
  | BV1 b => v1_timestamp_ms b | BV2 b => v2_timestamp_ms b | BV3 b => v3_timestamp_ms b
  end.
Definition b_ancestors (b : Block) : list BlockRef :=
  match b with
  | BV1 b => v1_ancestors b | BV2 b => v2_ancestors b | BV3 b => v3_ancestors b
  end.
Definition b_transactions (b : Block) : list Transaction :=
  match b with
  | BV1 b => v1_transactions b | BV2 b => v2_transactions b | BV3 b => v3_transactions b
  end.
Definition b_transactions_data (b : Block) : list bytes := tx_data <$> b_transactions b.
Definition b_transaction_votes (b : Block) : list BlockTransactionVotes :=
  match b with
  | BV1 _ => [] | BV2 b => v2_transaction_votes b | BV3 b => v3_transaction_votes b
  end.
Definition b_transaction_votes_cutoff_round (b : Block) : Round :=
  match b with
  | BV1 _ | BV2 _ => GENESIS_ROUND | BV3 b => v3_transaction_votes_cutoff_round b
  end.
Definition b_commit_votes (b : Block) : list CommitVote :=
  match b with
  | BV1 b => v1_commit_votes b | BV2 b => v2_commit_votes b | BV3 b => v3_commit_votes b
  end.
Definition b_misbehavior_reports (b : Block) : list MisbehaviorReport :=
  match b with
  | BV1 b => v1_misbehavior_reports b
  | BV2 b => v2_misbehavior_reports b
  | BV3 b => v3_misbehavior_reports b
  end.

(** ** Signed and verified blocks

    [Deref] to the inner block is a coercion. *)

Record SignedBlock : Type := mkSignedBlock {
  sb_inner :> Block;
  sb_signature : bytes;
}.

Record VerifiedBlock : Type := mkVerifiedBlock {
  vb_block :> SignedBlock;
  vb_digest : BlockDigest;
  vb_serialized : bytes;
}.

(** [PartialEq] and [Eq], derived. *)
#[export] Instance byte_eq_dec : EqDecision Byte.byte := Byte.byte_eq_dec.
#[export] Instance Transaction_eq_dec : EqDecision Transaction.
Proof. solve_decision. Defined.
#[export] Instance BlockTransactionVotes_eq_dec : EqDecision BlockTransactionVotes.
Proof. solve_decision. Defined.
#[export] Instance MisbehaviorProof_eq_dec : EqDecision MisbehaviorProof.
Proof. solve_decision. Defined.
#[export] Instance MisbehaviorReport_eq_dec : EqDecision MisbehaviorReport.
Proof. solve_decision. Defined.
#[export] Instance BlockV1_eq_dec : EqDecision BlockV1.
Proof. solve_decision. Defined.
#[export] Instance BlockV2_eq_dec : EqDecision BlockV2.
Proof. solve_decision. Defined.
#[export] Instance BlockV3_eq_dec : EqDecision BlockV3.
Proof. solve_decision. Defined.
#[export] Instance Block_eq_dec : EqDecision Block.
Proof. solve_decision. Defined.
#[export] Instance SignedBlock_eq_dec : EqDecision SignedBlock.
Proof. solve_decision. Defined.
#[export] Instance VerifiedBlock_eq_dec : EqDecision VerifiedBlock.
Proof. solve_decision. Defined.

(** BCS serialization and the hash function are third-party code: [bcs] and
    [fastcrypto]. *)
Class Crypto : Type := {
  bcs_signed_block : SignedBlock → option bytes;
  hash : bytes → N;
}.

Definition VerifiedBlock_compute_digest `{Crypto} (serialized : bytes) : BlockDigest :=
  hash serialized.

Definition VerifiedBlock_new_verified `{Crypto} (sb : SignedBlock) (serialized : bytes)
    : VerifiedBlock :=
  {| vb_block := sb;
     vb_digest := VerifiedBlock_compute_digest serialized;
     vb_serialized := serialized |}.

Definition reference (b : VerifiedBlock) : BlockRef :=
  {| br_round := b_round b; br_author := b_author b; br_digest := vb_digest b |}.

(** [impl PartialEq for VerifiedBlock] compares digests only. *)
Definition VerifiedBlock_eqb (a b : VerifiedBlock) : bool := vb_digest a =? vb_digest b.

(** ** Genesis *)

Definition SignedBlock_new_genesis (b : Block) : SignedBlock :=
  {| sb_inner := b; sb_signature := [] |}.

Definition BlockV1_genesis_block (ctx : Context) (author : AuthorityIndex) : BlockV1 :=
  {| v1_epoch := Committee_epoch (ctx_committee ctx); v1_round := GENESIS_ROUND;
     v1_author := author; v1_timestamp_ms := ctx_epoch_start_timestamp_ms ctx;
     v1_ancestors := []; v1_transactions := []; v1_commit_votes := [];
     v1_misbehavior_reports := [] |}.
Definition BlockV2_genesis_block (ctx : Context) (author : AuthorityIndex) : BlockV2 :=
  {| v2_epoch := Committee_epoch (ctx_committee ctx); v2_round := GENESIS_ROUND;
     v2_author := author; v2_timestamp_ms := ctx_epoch_start_timestamp_ms ctx;
     v2_ancestors := []; v2_transactions := []; v2_transaction_votes := [];
     v2_commit_votes := []; v2_misbehavior_reports := [] |}.
Definition BlockV3_genesis_block (ctx : Context) (author : AuthorityIndex) : BlockV3 :=
  {| v3_epoch := Committee_epoch (ctx_committee ctx); v3_round := GENESIS_ROUND;
     v3_author := author; v3_timestamp_ms := ctx_epoch_start_timestamp_ms ctx;
     v3_ancestors := []; v3_transactions := []; v3_transaction_votes := [];
     v3_transaction_votes_cutoff_round := GENESIS_ROUND; v3_commit_votes := [];
     v3_misbehavior_reports := [] |}.

Definition genesis_block `{Crypto} (ctx : Context) (i : AuthorityIndex) : M VerifiedBlock :=
  let block :=
    if pc_enable_v3 (ctx_protocol_config ctx) then BV3 (BlockV3_genesis_block ctx i)
    else if pc_transaction_voting_enabled (ctx_protocol_config ctx)
    then BV2 (BlockV2_genesis_block ctx i)
    else BV1 (BlockV1_genesis_block ctx i) in
  let signed_block := SignedBlock_new_genesis block in
  serialized ← expect (bcs_signed_block signed_block) "Genesis block serialization failed.";
  Ret (VerifiedBlock_new_verified signed_block serialized).

(** [iter.map(f).collect()] for an [f] that may panic. *)
Fixpoint mapP {A B} (f : A → M B) (l : list A) : M (list B) :=
  match l with
  | [] => Ret []
  | a :: l => b ← f a; bs ← mapP f l; Ret (b :: bs)
  end.

(** [iter.filter(f).collect()] for an [f] that may panic. *)
Fixpoint filterP {A} (f : A → M bool) (l : list A) : M (list A) :=
  match l with
  | [] => Ret []
  | a :: l => keep ← f a; rest ← filterP f l; Ret (if keep : bool then a :: rest else rest)
  end.

Definition genesis_blocks `{Crypto} (ctx : Context) : M (list VerifiedBlock) :=
  mapP (λ ia, genesis_block ctx ia.1) (Committee_authorities_iter (ctx_committee ctx)).

Lemma mapP_Forall2 {A B} (f : A → M B) l bs :
  mapP f l = Ret bs ↔ Forall2 (λ a b, f a = Ret b) l bs.
Proof.
  revert bs. induction l as [|a l IH]; intros bs; simpl.
  - split; [by intros [= <-]|by intros ->%Forall2_nil_inv_l].
  - split.
    + intros Hf. minv Hf. constructor; [done|]. by apply IH.
    + intros Hf. destruct bs as [|b bs]; [by apply Forall2_nil_inv_r in Hf|].
      apply Forall2_cons in Hf as [-> Hf]. simpl. apply IH in Hf as ->. done.
Qed.

Lemma mapP_pure {A B} (f : A → M B) (g : A → B) l :
  (∀ a, a ∈ l → f a = Ret (g a)) → mapP f l = Ret (g <$> l).
Proof.
  induction l as [|a l IH]; intros Hl; cbn [mapP]; [done|].
  rewrite Hl by left. cbn [mbind M_bind]. rewrite IH by (intros; apply Hl; by right). done.
Qed.

Lemma mapP_spec {A B} (f : A → M B) (P : A → B → Prop) l :
  (∀ a, a ∈ l → ∃ b, f a = Ret b ∧ P a b) → ∃ bs, mapP f l = Ret bs ∧ Forall2 P l bs.
Proof.
  induction l as [|a l IH]; intros Hl; cbn [mapP]; [by exists []|].
  destruct (Hl a) as (b & -> & Hb); [left|]. cbn [mbind M_bind].
  destruct IH as (bs & -> & Hbs); [intros; apply Hl; by right|]. exists (b :: bs). by split; [|constructor].
Qed.

Lemma mapP_returns {A B} (f : A → M B) l :
  (∀ a, a ∈ l → ∃ b, f a = Ret b) → ∃ bs, mapP f l = Ret bs.
Proof.
  induction l as [|a l IH]; intros Hl; cbn [mapP]; [by eauto|].
  destruct (Hl a) as [b ->]; [left|]. cbn [mbind M_bind].
  destruct IH as [bs ->]; [intros; apply Hl; by right|]. cbn [mbind M_bind]. by eauto.
Qed.

Lemma filterP_returns {A} (f : A → M bool) l :
  (∀ a, a ∈ l → ∃ b, f a = Ret b) → ∃ l', filterP f l = Ret l' ∧ l' ⊆ l.
Proof.
  induction l as [|a l IH]; intros Hl; cbn [filterP]; [by eauto|].
  destruct (Hl a) as [b ->]; [left|]. cbn [mbind M_bind].
  destruct IH as (l' & -> & Hsub); [intros; apply Hl; by right|]. cbn [mbind M_bind].
  destruct b; eexists; (split; [done|]); set_solver.
Qed.

Lemma filterP_spec {A} (f : A → M bool) (P : A → Prop) `{∀ a, Decision (P a)} l :
  (∀ a, a ∈ l → f a = Ret (bool_decide (P a))) → filterP f l = Ret (filter P l).
Proof.
  induction l as [|a l IH]; intros Hf; cbn [filterP]; [done|].
  rewrite Hf by left. cbn [mbind M_bind].
  rewrite IH by (intros; apply Hf; by right). cbn [mbind M_bind]. rewrite filter_cons.
  case_bool_decide; [by rewrite decide_True|by rewrite decide_False].
Qed.

(** ** Facts about references *)

Lemma BlockRef_le_round (a b : BlockRef) :
  le_ord a b = true → br_round a ≤ br_round b.
Proof.
  unfold le_ord, cmp, Ord_BlockRef, cmp, Ord_prod, BlockRef_tuple, lex; simpl.
  unfold cmp, Ord_N. destruct (N.compare_spec (br_round a) (br_round b)); try done; lia.
Qed.

(** The references of one slot are exactly the range the code scans for it. *)
Lemma slot_range (slot : Slot) (r : BlockRef) :
  br_digest r ≤ BlockDigest_MAX →
  in_range (Included (mkBlockRef (slot_round slot) (slot_authority slot) BlockDigest_MIN))
           (Included (mkBlockRef (slot_round slot) (slot_authority slot) BlockDigest_MAX)) r
  = bool_decide (Slot_from r = slot).
Proof.
  destruct slot as [sr sa], r as [r a d]. intros Hd. simpl in Hd.
  unfold in_range, above, below, le_ord, cmp, Ord_BlockRef, cmp, Ord_prod, BlockRef_tuple, lex.
  unfold cmp, Ord_N, Slot_from; simpl.
  rewrite (N.compare_antisym r sr), (N.compare_antisym a sa).
  destruct (N.compare_spec r sr) as [->| |]; simpl;
    [|rewrite bool_decide_eq_false_2; [done|intros [=]; lia]..].
  destruct (N.compare_spec a sa) as [->| |]; simpl;
    [|rewrite bool_decide_eq_false_2; [done|intros [=]; lia]..].
  rewrite bool_decide_eq_true_2 by done. unfold BlockDigest_MIN.
  destruct (N.compare_spec 0 d); [..|lia]; simpl;
    destruct (N.compare_spec d BlockDigest_MAX); try done; lia.
Qed.

(** The references of one round are exactly the range the code scans for it. *)
Lemma round_range (round : Round) (r : BlockRef) :
  in_range (Included (mkBlockRef round AuthorityIndex_ZERO BlockDigest_MIN))
           (Excluded (mkBlockRef (round + 1) AuthorityIndex_ZERO BlockDigest_MIN)) r
  = bool_decide (br_round r = round).
Proof.
  destruct r as [r a d].
  unfold in_range, above, below, le_ord, lt_ord, cmp, Ord_BlockRef, cmp, Ord_prod,
    BlockRef_tuple, lex.
  unfold cmp, Ord_N, AuthorityIndex_ZERO, BlockDigest_MIN; simpl.
  destruct (N.compare_spec round r) as [->| |]; simpl.
  - rewrite bool_decide_eq_true_2 by done.
    destruct (N.compare_spec r (r + 1)); [lia| |lia].
    destruct (N.compare_spec 0 a); [..|lia]; simpl; [|done].
    destruct (N.compare_spec 0 d); [..|lia]; done.
  - rewrite bool_decide_eq_false_2 by lia.
    destruct (N.compare_spec r (round + 1)) as [->| |]; simpl; [|lia|done].
    destruct (N.compare_spec a 0); simpl; [|lia|done].
    destruct (N.compare_spec d 0); simpl; [done|lia|done].
  - by rewrite bool_decide_eq_false_2 by lia.
Qed.

(** References whose fields fit their machine types. *)
Definition ref_valid (r : BlockRef) : Prop :=
  br_round r ≤ u32_max ∧ br_author r ≤ u32_max ∧ br_digest r ≤ BlockDigest_MAX.

Definition sample_ref (round : Round) (author : AuthorityIndex) : BlockRef :=
  {| br_round := round; br_author := author; br_digest := 7 |}.

Definition sample_block (round : Round) (author : AuthorityIndex) (digest : BlockDigest)
    (ancestors : list BlockRef) : VerifiedBlock :=
  {| vb_block :=
       {| sb_inner := BV1 {| v1_epoch := 1; v1_round := round; v1_author := author;
                             v1_timestamp_ms := 1000 + round; v1_ancestors := ancestors;
                             v1_transactions := []; v1_commit_votes := [];
                             v1_misbehavior_reports := [] |};
          sb_signature := [] |};
     vb_digest := digest; vb_serialized := [] |}.

(** An instance of the third-party code: every block has the same digest. *)
Definition sample_crypto : Crypto :=
  {| bcs_signed_block _ := Some []; hash _ := 7 |}.
