(* ===== verification/Commit.v ===== *)
(** * Commits (consensus/core/src/commit.rs, consensus/core/src/error.rs)

    Commits and their digests, committed sub-dags and the order of their blocks,
    the status of a leader slot, commit ranges, and the error type of the
    consensus crate. *)

From S2P Require Import Prelude BTree Config Block.
Local Open Scope N_scope.

Definition GENESIS_COMMIT_INDEX : CommitIndex := 0.
Definition MINIMUM_WAVE_LENGTH : Round := 3.
Definition DEFAULT_WAVE_LENGTH : Round := MINIMUM_WAVE_LENGTH.
Definition CommitDigest_MIN : CommitDigest := 0.
Definition CommitDigest_MAX : CommitDigest := 2 ^ 256 - 1.
Abbreviation WaveNumber := N (only parsing).

(** ** Commits *)

Record CommitV1 : Type := mkCommitV1 {
  cm_index : CommitIndex;
  cm_previous_digest : CommitDigest;
  cm_timestamp_ms : BlockTimestampMs;
  cm_leader : BlockRef;
  cm_blocks : list BlockRef;
}.

Inductive Commit : Type := CommitV1_ (c : CommitV1).

Definition Commit_new (index : CommitIndex) (previous_digest : CommitDigest)
    (timestamp_ms : BlockTimestampMs) (leader : BlockRef) (blocks : list BlockRef) : Commit :=
  CommitV1_ (mkCommitV1 index previous_digest timestamp_ms leader blocks).

(** [CommitAPI]. *)
Definition c_index (c : Commit) : CommitIndex := let 'CommitV1_ c := c in cm_index c.
Definition c_previous_digest (c : Commit) : CommitDigest :=
  let 'CommitV1_ c := c in cm_previous_digest c.
Definition c_timestamp_ms (c : Commit) : BlockTimestampMs :=
  let 'CommitV1_ c := c in cm_timestamp_ms c.
Definition c_leader (c : Commit) : BlockRef := let 'CommitV1_ c := c in cm_leader c.
Definition c_blocks (c : Commit) : list BlockRef := let 'CommitV1_ c := c in cm_blocks c.
Definition c_round (c : Commit) : Round := br_round (c_leader c).

Record TrustedCommit : Type := mkTrustedCommit {
  tcm_inner :> Commit;
  tcm_digest : CommitDigest;
  tcm_serialized : bytes;
}.

(** [bcs::to_bytes] on commits. *)
Class CommitBcs : Type := bcs_commit : Commit → option bytes.

Definition TrustedCommit_new_trusted `{Crypto} (commit : Commit) (serialized : bytes)
    : TrustedCommit :=
  {| tcm_inner := commit; tcm_digest := hash serialized; tcm_serialized := serialized |}.

Definition TrustedCommit_reference (c : TrustedCommit) : CommitRef :=
  mkCommitRef (c_index c) (tcm_digest c).

Record CertifiedCommit : Type := mkCertifiedCommit {
  cc_commit :> TrustedCommit;
  cc_blocks : list VerifiedBlock;
}.

Record CertifiedCommits : Type := mkCertifiedCommits {
  ccs_commits : list CertifiedCommit;
  ccs_votes : list VerifiedBlock;
}.

(** ** Committed sub-dags *)

Record CommittedSubDag : Type := mkCommittedSubDag {
  sd_leader : BlockRef;
  sd_blocks : list VerifiedBlock;
  sd_timestamp_ms : BlockTimestampMs;
  sd_commit_ref : CommitRef;
  sd_decided_with_local_blocks : bool;
  sd_recovered_rejected_transactions : bool;
  sd_rejected_transactions_by_block : gmap BlockRef (list TransactionIndex);
}.

Definition CommittedSubDag_new (leader : BlockRef) (blocks : list VerifiedBlock)
    (timestamp_ms : BlockTimestampMs) (commit_ref : CommitRef) : CommittedSubDag :=
  {| sd_leader := leader; sd_blocks := blocks; sd_timestamp_ms := timestamp_ms;
     sd_commit_ref := commit_ref; sd_decided_with_local_blocks := true;
     sd_recovered_rejected_transactions := false;
     sd_rejected_transactions_by_block := ∅ |}.

Definition block_rank (b : VerifiedBlock) : N * N := (b_round b, b_author b).

Definition sort_sub_dag_blocks (blocks : list VerifiedBlock) : list VerifiedBlock :=
  stable_sort (λ a b, le_ord (block_rank a) (block_rank b)) blocks.

(** ** Decisions on leader slots *)

Inductive Decision : Type := Direct | Indirect | Certified.

Inductive LeaderStatus : Type :=
  | LCommit (block : VerifiedBlock)
  | LSkip (slot : Slot)
  | LUndecided (slot : Slot).

Inductive DecidedLeader : Type :=
  | DCommit (block : VerifiedBlock) (direct : bool)
  | DSkip (slot : Slot).

Definition LeaderStatus_round (s : LeaderStatus) : Round :=
  match s with
  | LCommit block => b_round block
  | LSkip leader => slot_round leader
  | LUndecided leader => slot_round leader
  end.

Definition LeaderStatus_is_decided (s : LeaderStatus) : bool :=
  match s with LCommit _ | LSkip _ => true | LUndecided _ => false end.

Definition LeaderStatus_into_decided_leader (s : LeaderStatus) (direct : bool)
    : option DecidedLeader :=
  match s with
  | LCommit block => Some (DCommit block direct)
  | LSkip slot => Some (DSkip slot)
  | LUndecided _ => None
  end.

Definition DecidedLeader_slot (d : DecidedLeader) : Slot :=
  match d with DCommit block _ => Slot_from (reference block) | DSkip slot => slot end.

Definition DecidedLeader_into_committed_block (d : DecidedLeader) : option VerifiedBlock :=
  match d with DCommit block _ => Some block | DSkip _ => None end.

(** ** Commit ranges: a half-open [start..end] seen as [start..=end-1] *)

Record CommitRange : Type := mkCommitRange { rg_start : CommitIndex; rg_end : CommitIndex }.

#[export] Instance CommitRange_eq_dec : EqDecision CommitRange.
Proof. solve_decision. Defined.

Definition CommitRange_new (start last : CommitIndex) : CommitRange :=
  mkCommitRange start (saturating_add 32 last 1).
Definition CommitRange_default : CommitRange := mkCommitRange 0 0.
Definition CommitRange_start (r : CommitRange) : CommitIndex := rg_start r.
Definition CommitRange_end (r : CommitRange) : CommitIndex := rg_end r - 1.

Definition CommitRange_extend_to (r : CommitRange) (other : CommitIndex) : M CommitRange :=
  let new_end := saturating_add 32 other 1 in
  assert_that (rg_end r <=? new_end) "self.0.end <= new_end";;
  Ret (mkCommitRange (rg_start r) new_end).

Definition CommitRange_size (r : CommitRange) : M N :=
  if rg_start r <=? rg_end r then Ret (rg_end r - rg_start r)
  else Panic (Expected "Range should never have end < start").

Definition CommitRange_is_equal_size (r other : CommitRange) : M bool :=
  a ← CommitRange_size r; b ← CommitRange_size other; Ret (a =? b).

Definition CommitRange_is_next_range (r other : CommitRange) : bool :=
  rg_end r =? rg_start other.

Definition CommitRange_cmp (r other : CommitRange) : comparison :=
  lex (CommitRange_start r ?= CommitRange_start other) (CommitRange_end r ?= CommitRange_end other).

(** ** Per-commit info *)

Record ReputationScores : Type := mkReputationScores {
  rs_scores_per_authority : list N;
  rs_commit_range : CommitRange;
}.

Definition ReputationScores_default : ReputationScores :=
  mkReputationScores [] CommitRange_default.

Record CommitInfo : Type := mkCommitInfo {
  ci_committed_rounds : list Round;
  ci_reputation_scores : ReputationScores;
}.

(** ** Errors *)

Inductive PeerId : Type := PeerValidator (i : AuthorityIndex) | PeerObserver (node : bytes).

(** [ConsensusError]; the payload of an error of a library is its text. *)
Inductive ConsensusError : Type :=
  | MalformedBlock (e : string)
  | UnexpectedBlockForm
  | MalformedBlockEnvelope (e : string)
  | MalformedCommit (e : string)
  | SerializationFailure (e : string)
  | TransactionTooLarge (size limit : N)
  | TooManyTransactions (count limit : N)
  | TooManyTransactionBytes (size limit : N)
  | UnexpectedAuthority (authority peer : AuthorityIndex)
  | WrongEpoch (expected actual : Epoch)
  | UnexpectedGenesisBlock
  | UnexpectedBlockVersion (version : string)
  | InvalidTransactionVotesCutoff (cutoff block : Round)
  | InvalidTransactionVotes (reason : string)
  | UnexpectedGenesisBlockRequested
  | UnexpectedNumberOfBlocksFetched (peer : PeerId) (requested received : N)
  | UnexpectedFetchedBlock (index : AuthorityIndex) (block_ref : BlockRef)
  | UnexpectedLastOwnBlock (index : AuthorityIndex) (block_ref : BlockRef)
  | TooManyFetchedBlocksReturned (authority : AuthorityIndex)
  | TooManyAuthoritiesProvided (authority : AuthorityIndex)
  | InvalidSizeOfHighestAcceptedRounds (size committee_size : N)
  | InvalidFetchBlocksRequest (reason : string)
  | InvalidAuthorityIndex (loc : string) (index : AuthorityIndex) (max : N)
  | MalformedSignature (e : string)
  | SignatureVerificationFailure (e : string)
  | SynchronizerSaturated (peer : string)
  | PeerUnavailable (peer : string)
  | PeerNotFound (peer : string)
  | BlockRejected (block_ref : BlockRef) (reason : string)
  | InvalidAncestorPosition (block_authority ancestor_authority : AuthorityIndex) (position : N)
  | InvalidAncestorRound (ancestor block : Round)
  | InvalidGenesisAncestor (ancestor : BlockRef)
  | TooManyAncestors (count limit : N)
  | DuplicatedAncestorsAuthority (authority : AuthorityIndex)
  | InsufficientParentStakes (parent_stakes quorum : Stake)
  | InvalidTransaction (reason : string)
  | NoCommitReceived (peer : PeerId)
  | UnexpectedStartCommit (peer : PeerId) (start : CommitIndex) (commit : Commit)
  | UnexpectedCommitSequence (peer : PeerId) (prev_commit curr_commit : Commit)
  | NotEnoughCommitVotes (stake : Stake) (peer : PeerId) (commit : Commit)
  | UnexpectedBlockForCommit (peer : PeerId) (requested received : BlockRef)
  | UnexpectedCertifiedCommitIndex (expected_commit_index commit_index : CommitIndex)
  | RocksDBFailure (e : string)
  | UnknownNetworkPeer (e : string)
  | PeerDisconnected (e : string)
  | NetworkConfig (e : string)
  | NetworkClientConnection (e : string)
  | NetworkRequest (e : string)
  | NetworkRequestTimeout (e : string)
  | Shutdown.

Inductive ConsensusResult (A : Type) : Type :=
  | Ok (a : A)
  | Err (e : ConsensusError).
Arguments Ok {_} _.
Arguments Err {_} _.

(** The [?] operator. *)
Definition try_bind {A B} (m : M (ConsensusResult A)) (k : A → M (ConsensusResult B))
    : M (ConsensusResult B) :=
  r ← m; match r with Ok a => k a | Err e => Ret (Err e) end.

Declare Scope result_scope.
Notation "x ←? m ; k" := (try_bind m (λ x, k))
  (at level 20, m at level 100, k at level 200, right associativity) : result_scope.

(** [r?] in a function whose own panics are outcomes of [M]. *)
Definition try_ok {A B} (m : M (ConsensusResult A)) (k : A → M (ConsensusResult B))
    : M (ConsensusResult B) :=
  r ← m; match r with Ok a => k a | Err e => Ret (Err e) end.

(** [r.unwrap_or_else(|e| panic!(..))] *)
Definition unwrap_ok {A} (m : M (ConsensusResult A)) (why : string) : M A :=
  r ← m; match r with Ok a => Ret a | Err _ => Panic (Explicit why) end.

(** ** Order of the blocks of a sub-dag *)

Lemma sort_sub_dag_blocks_perm l : sort_sub_dag_blocks l ≡ₚ l.
Proof. apply stable_sort_perm. Qed.

Lemma sort_sub_dag_blocks_sorted l :
  StronglySorted (λ a b, le_ord (block_rank a) (block_rank b) = true) (sort_sub_dag_blocks l).
Proof.
  apply stable_sort_sorted.
  - intros a b. apply le_ord_total.
  - intros a b c. apply le_ord_trans.
Qed.

Lemma block_rank_round a b :
  le_ord (block_rank a) (block_rank b) = true → b_round a ≤ b_round b.
Proof.
  unfold le_ord, cmp, Ord_prod, block_rank, cmp, Ord_N, lex; simpl.
  destruct (N.compare_spec (b_round a) (b_round b)); [lia|lia|done].
Qed.

(** ** Commit ranges *)

(** A range made from [start..=last] with [last] below the maximum keeps its
    bounds, has one element per index, is extended in place to any later index,
    and is followed exactly by the ranges that start at [last + 1]. *)
Theorem CommitRange_new_bounds start last other :
  start ≤ last → last ≤ other → other < u32_max →
  CommitRange_start (CommitRange_new start last) = start ∧
  CommitRange_end (CommitRange_new start last) = last ∧
  CommitRange_size (CommitRange_new start last) = Ret (last - start + 1) ∧
  CommitRange_extend_to (CommitRange_new start last) other = Ret (CommitRange_new start other) ∧
  (∀ s l, CommitRange_is_next_range (CommitRange_new start last) (CommitRange_new s l) = true ↔
          s = last + 1).
Proof.
  intros Hsl Hlo Ho. unfold CommitRange_new, CommitRange_start, CommitRange_end,
    CommitRange_size, CommitRange_extend_to, CommitRange_is_next_range, saturating_add,
    assert_that; simpl.
  assert (N.min (last + 1) (2 ^ 32 - 1) = last + 1) as -> by lia.
  assert (N.min (other + 1) (2 ^ 32 - 1) = other + 1) as -> by lia.
  assert ((start <=? last + 1) = true) as -> by (apply N.leb_le; lia).
  assert ((last + 1 <=? other + 1) = true) as -> by (apply N.leb_le; lia). simpl.
  split_and!; [done|lia|f_equal; lia|done|].
  intros s l. rewrite N.eqb_eq. split; congruence.
Qed.

(** The order of ranges disagrees with their equality: the default (empty)
    range and the range of commit 0 compare as equal and are different, because
    [end()] saturates at 0. *)
Lemma CommitRange_order_not_equality :
  CommitRange_cmp CommitRange_default (CommitRange_new 0 0) = Eq ∧
  CommitRange_default ≠ CommitRange_new 0 0.
Proof. by vm_compute. Qed.
