(* ===== verification/Store.v ===== *)
(** * Consensus storage (consensus/core/src/storage/)

    The [Store] trait with what it promises, as a class of operations and a
    class of laws; [MemStore], which discharges the laws; and
    [load_committed_subdag_from_store] of commit.rs.

    A store is used through a shared reference with interior mutability: here a
    write returns the new store.  Tuples nest to the right, so their derived
    order is [Ord_prod]. *)

From S2P Require Import Prelude BTree Config Block Commit.
Local Open Scope N_scope.

Abbreviation RejectedTransactions := (gmap BlockRef (list TransactionIndex)) (only parsing).

Record WriteBatch : Type := mkWriteBatch {
  wb_blocks : list VerifiedBlock;
  wb_commits : list TrustedCommit;
  wb_commit_info : list (CommitRef * CommitInfo);
  wb_finalized_commits : list (CommitRef * RejectedTransactions);
}.

Class Store (S : Type) : Type := {
  store_write : S → WriteBatch → M (ConsensusResult S);
  store_read_blocks : S → list BlockRef → M (ConsensusResult (list (option VerifiedBlock)));
  store_contains_blocks : S → list BlockRef → M (ConsensusResult (list bool));
  store_scan_blocks_by_author : S → AuthorityIndex → Round →
    M (ConsensusResult (list VerifiedBlock));
  store_scan_blocks_by_author_in_range : S → AuthorityIndex → Round → Round → N →
    M (ConsensusResult (list VerifiedBlock));
  store_scan_last_blocks_by_author : S → AuthorityIndex → N → option Round →
    M (ConsensusResult (list VerifiedBlock));
  store_read_last_commit : S → M (ConsensusResult (option TrustedCommit));
  store_scan_commits : S → CommitRange → M (ConsensusResult (list TrustedCommit));
  store_read_commit_votes : S → CommitIndex → M (ConsensusResult (list BlockRef));
  store_read_last_commit_info : S → M (ConsensusResult (option (CommitRef * CommitInfo)));
  store_read_last_finalized_commit : S → M (ConsensusResult (option CommitRef));
  store_read_rejected_transactions : S → CommitRef →
    M (ConsensusResult (option RejectedTransactions));
}.

(** ** The in-memory store *)

Record MemStore : Type := mkMemStore {
  ms_blocks : gmap (N * (N * N)) VerifiedBlock;
  ms_digests_by_authorities : gset (N * (N * N));
  ms_commits : gmap (N * N) TrustedCommit;
  ms_commit_votes : gset (N * (N * BlockRef));
  ms_commit_info : gmap (N * N) CommitInfo;
  ms_finalized_commits : gmap (N * N) RejectedTransactions;
}.

Definition MemStore_new : MemStore := mkMemStore ∅ ∅ ∅ ∅ ∅ ∅.

Definition block_key (r : BlockRef) : N * (N * N) := (br_round r, (br_author r, br_digest r)).
Definition author_key (r : BlockRef) : N * (N * N) := (br_author r, (br_round r, br_digest r)).
Definition commit_key (r : CommitRef) : N * N := (cr_index r, cr_digest r).

Definition write_block (s : MemStore) (block : VerifiedBlock) : MemStore :=
  let block_ref := reference block in
  {| ms_blocks := <[block_key block_ref := block]> (ms_blocks s);
     ms_digests_by_authorities := {[author_key block_ref]} ∪ ms_digests_by_authorities s;
     ms_commits := ms_commits s;
     ms_commit_votes :=
       foldl (λ votes vote, {[(cr_index vote, (cr_digest vote, block_ref))]} ∪ votes)
         (ms_commit_votes s) (b_commit_votes block);
     ms_commit_info := ms_commit_info s;
     ms_finalized_commits := ms_finalized_commits s |}.

Definition MemStore_write (s : MemStore) (wb : WriteBatch) : M (ConsensusResult MemStore) :=
  let s := foldl write_block s (wb_blocks wb) in
  Ret (Ok
    {| ms_blocks := ms_blocks s;
       ms_digests_by_authorities := ms_digests_by_authorities s;
       ms_commits :=
         foldl (λ m c, <[(c_index (tcm_inner c), tcm_digest c) := c]> m)
           (ms_commits s) (wb_commits wb);
       ms_commit_votes := ms_commit_votes s;
       ms_commit_info :=
         foldl (λ m e, <[commit_key e.1 := e.2]> m) (ms_commit_info s) (wb_commit_info wb);
       ms_finalized_commits :=
         foldl (λ m e, <[commit_key e.1 := e.2]> m)
           (ms_finalized_commits s) (wb_finalized_commits wb) |}).

Definition MemStore_read_blocks (s : MemStore) (refs : list BlockRef)
    : M (ConsensusResult (list (option VerifiedBlock))) :=
  Ret (Ok ((λ r, ms_blocks s !! block_key r) <$> refs)).

Definition MemStore_contains_blocks (s : MemStore) (refs : list BlockRef)
    : M (ConsensusResult (list bool)) :=
  Ret (Ok ((λ r, bool_decide (is_Some (ms_blocks s !! block_key r))) <$> refs)).

(** The loops that collect references: stop once [limit] are collected, after
    pushing. *)
Fixpoint collect_refs (collected : list BlockRef) (limit : N) (keys : list (N * (N * N)))
    : list BlockRef :=
  match keys with
  | [] => collected
  | (author, (round, digest)) :: keys =>
      let refs := collected ++ [mkBlockRef round author digest] in
      if limit <=? N.of_nat (length refs) then refs else collect_refs refs limit keys
  end.

(** [refs.zip(results)], panicking on a missing block. *)
Definition all_found (results : list (option VerifiedBlock)) (why : string)
    : M (list VerifiedBlock) :=
  mapP (λ block, match block with Some b => Ret b | None => Panic (Explicit why) end) results.

Definition MemStore_scan_blocks_by_author_in_range (s : MemStore) (author : AuthorityIndex)
    (start_round end_round : Round) (limit : N) : M (ConsensusResult (list VerifiedBlock)) :=
  keys ← bset_range (Included (author, (start_round, BlockDigest_MIN)))
                    (Excluded (author, (end_round, BlockDigest_MIN)))
                    (ms_digests_by_authorities s);
  let refs := collect_refs [] limit keys in
  try_ok (MemStore_read_blocks s refs) (λ results,
    blocks ← all_found results "Block not found!";
    Ret (Ok blocks)).

Definition usize_max : N := 2 ^ 64 - 1.

Definition MemStore_scan_blocks_by_author (s : MemStore) (author : AuthorityIndex)
    (start_round : Round) : M (ConsensusResult (list VerifiedBlock)) :=
  MemStore_scan_blocks_by_author_in_range s author start_round u32_max usize_max.

Definition MemStore_scan_last_blocks_by_author (s : MemStore) (author : AuthorityIndex)
    (num_of_rounds : N) (before_round : option Round)
    : M (ConsensusResult (list VerifiedBlock)) :=
  let before_round := default u32_max before_round in
  keys ← bset_range (Included (author, (0, BlockDigest_MIN)))
                    (Included (author, (before_round, BlockDigest_MAX)))
                    (ms_digests_by_authorities s);
  let refs :=
    foldl (λ refs '(author, (round, digest)), mkBlockRef round author digest :: refs) []
      (take (N.to_nat num_of_rounds) (reverse keys)) in
  try_ok (MemStore_read_blocks s refs) (λ results,
    blocks ← all_found results "Storage inconsistency: block not found!";
    Ret (Ok blocks)).

Definition MemStore_read_last_commit (s : MemStore)
    : M (ConsensusResult (option TrustedCommit)) :=
  Ret (Ok (snd <$> bmap_last (ms_commits s))).

Definition MemStore_scan_commits (s : MemStore) (range : CommitRange)
    : M (ConsensusResult (list TrustedCommit)) :=
  entries ← bmap_range (Included (CommitRange_start range, CommitDigest_MIN))
                       (Included (CommitRange_end range, CommitDigest_MAX)) (ms_commits s);
  Ret (Ok entries.*2).

Definition MemStore_read_commit_votes (s : MemStore) (commit_index : CommitIndex)
    : M (ConsensusResult (list BlockRef)) :=
  votes ← bset_range (Included (commit_index, (CommitDigest_MIN, BlockRef_MIN)))
                     (Included (commit_index, (CommitDigest_MAX, BlockRef_MAX)))
                     (ms_commit_votes s);
  Ret (Ok votes.*2.*2).

Definition CommitRef_of_key (k : N * N) : CommitRef := mkCommitRef k.1 k.2.

Definition MemStore_read_last_commit_info (s : MemStore)
    : M (ConsensusResult (option (CommitRef * CommitInfo))) :=
  Ret (Ok ((λ e, (CommitRef_of_key e.1, e.2)) <$> bmap_last (ms_commit_info s))).

Definition MemStore_read_last_finalized_commit (s : MemStore)
    : M (ConsensusResult (option CommitRef)) :=
  Ret (Ok ((λ e, CommitRef_of_key e.1) <$> bmap_last (ms_finalized_commits s))).

Definition MemStore_read_rejected_transactions (s : MemStore) (commit_ref : CommitRef)
    : M (ConsensusResult (option RejectedTransactions)) :=
  Ret (Ok (ms_finalized_commits s !! commit_key commit_ref)).

#[export] Instance MemStore_store : Store MemStore := {
  store_write := MemStore_write;
  store_read_blocks := MemStore_read_blocks;
  store_contains_blocks := MemStore_contains_blocks;
  store_scan_blocks_by_author := MemStore_scan_blocks_by_author;
  store_scan_blocks_by_author_in_range := MemStore_scan_blocks_by_author_in_range;
  store_scan_last_blocks_by_author := MemStore_scan_last_blocks_by_author;
  store_read_last_commit := MemStore_read_last_commit;
  store_scan_commits := MemStore_scan_commits;
  store_read_commit_votes := MemStore_read_commit_votes;
  store_read_last_commit_info := MemStore_read_last_commit_info;
  store_read_last_finalized_commit := MemStore_read_last_finalized_commit;
  store_read_rejected_transactions := MemStore_read_rejected_transactions;
}.

(** ** Recovering a sub-dag from a store *)

Definition load_committed_subdag_from_store {S} `{Store S} (store : S) (commit : TrustedCommit)
    : M CommittedSubDag :=
  commit_blocks ← unwrap_ok (store_read_blocks store (c_blocks commit))
                    "We should have the block referenced in the commit data";
  blocks ← all_found commit_blocks "We should have the block referenced in the commit data";
  let leader_block_idx :=
    foldl (λ found '(idx, b), if decide (reference b = c_leader commit) then Some idx else found)
      None (zip (N.of_nat <$> seq 0 (length blocks)) blocks) in
  leader_block_idx ← expect leader_block_idx "Leader block must be in the sub-dag";
  leader_block ← index blocks leader_block_idx;
  let subdag := CommittedSubDag_new (reference leader_block) blocks (c_timestamp_ms commit)
                  (TrustedCommit_reference commit) in
  reject_votes ← unwrap_ok (store_read_rejected_transactions store
                              (TrustedCommit_reference commit)) "unwrap";
  match reject_votes with
  | Some reject_votes =>
      Ret {| sd_leader := sd_leader subdag; sd_blocks := sd_blocks subdag;
             sd_timestamp_ms := sd_timestamp_ms subdag; sd_commit_ref := sd_commit_ref subdag;
             sd_decided_with_local_blocks := true;
             sd_recovered_rejected_transactions := true;
             sd_rejected_transactions_by_block := reject_votes |}
  | None =>
      Ret {| sd_leader := sd_leader subdag; sd_blocks := sd_blocks subdag;
             sd_timestamp_ms := sd_timestamp_ms subdag; sd_commit_ref := sd_commit_ref subdag;
             sd_decided_with_local_blocks := false;
             sd_recovered_rejected_transactions := false;
             sd_rejected_transactions_by_block := sd_rejected_transactions_by_block subdag |}
  end.

(** ** What a store promises *)

Section Overlay.
Context {A K V : Type} `{EqDecision K} (key : A → K) (val : A → V).

(** What key [k] holds once the entries [l] are written over [old]: the last
    write wins. *)
Definition overlay (l : list A) (k : K) (old : option V) : option V :=
  from_option (Some ∘ val) old (last (filter (λ a, key a = k) l)).

Lemma overlay_nil k old : overlay [] k old = old.
Proof. done. Qed.

Lemma overlay_snoc l a k old :
  overlay (l ++ [a]) k old = if decide (key a = k) then Some (val a) else overlay l k old.
Proof.
  unfold overlay. rewrite filter_app, filter_cons. destruct (decide (key a = k)).
  - by rewrite filter_nil, last_snoc.
  - by rewrite filter_nil, app_nil_r.
Qed.

Lemma overlay_Some l k old v :
  overlay l k old = Some v → (∃ a, a ∈ l ∧ key a = k ∧ val a = v) ∨ old = Some v.
Proof.
  unfold overlay. destruct (last _) as [a|] eqn:Hl; simpl; [|by right].
  intros [= <-]. left. apply last_Some_elem_of, list_elem_of_filter in Hl. naive_solver.
Qed.

End Overlay.

Lemma foldl_insert_overlay {A K V} `{Countable K} (key : A → K) (val : A → V)
    (m : gmap K V) l k :
  foldl (λ m a, <[key a := val a]> m) m l !! k = overlay key val l k (m !! k).
Proof.
  induction l as [|a l IH] using rev_ind; [done|].
  rewrite foldl_app, overlay_snoc. simpl. destruct (decide (key a = k)) as [<-|].
  - by rewrite lookup_insert_eq.
  - by rewrite lookup_insert_ne.
Qed.

(** [l] lists, in the order of references, the blocks of [author] that [blocks]
    holds at rounds [lo <= r < hi]. *)
Definition scan_of (blocks : BlockRef → option VerifiedBlock) (author : AuthorityIndex)
    (lo hi : N) (l : list VerifiedBlock) : Prop :=
  StronglySorted (λ a b, lt_ord (reference a) (reference b) = true) l ∧
  ∀ b, b ∈ l ↔ blocks (reference b) = Some b ∧ b_author b = author ∧
               lo ≤ b_round b ∧ b_round b < hi.

(** Batches whose fields fit their machine types. *)
Definition batch_valid (wb : WriteBatch) : Prop :=
  ∀ b, b ∈ wb_blocks wb → ref_valid (reference b).

(** [entry] is the entry with the greatest key. *)
Definition greatest {V} (f : CommitRef → option V) (entry : option (CommitRef * V)) : Prop :=
  match entry with
  | Some (r, v) => f r = Some v ∧
                   ∀ r' v', f r' = Some v' → le_ord (commit_key r') (commit_key r) = true
  | None => ∀ r, f r = None
  end.

Class StoreLaws (S : Type) `{Store S} : Type := {
  st_ok : S → Prop;
  st_block : S → BlockRef → option VerifiedBlock;
  st_commit : S → CommitRef → option TrustedCommit;
  st_info : S → CommitRef → option CommitInfo;
  st_finalized : S → CommitRef → option RejectedTransactions;
  st_block_ref : ∀ s r b, st_ok s → st_block s r = Some b → reference b = r;
  st_block_valid : ∀ s r b, st_ok s → st_block s r = Some b → ref_valid r;
  st_commit_ref : ∀ s r c, st_ok s → st_commit s r = Some c → TrustedCommit_reference c = r;
  st_write : ∀ s wb, st_ok s → batch_valid wb →
    ∃ s', store_write s wb = Ret (Ok s') ∧ st_ok s' ∧
      (∀ r, st_block s' r = overlay reference id (wb_blocks wb) r (st_block s r)) ∧
      (∀ r, st_commit s' r = overlay TrustedCommit_reference id (wb_commits wb) r (st_commit s r)) ∧
      (∀ r, st_info s' r = overlay fst snd (wb_commit_info wb) r (st_info s r)) ∧
      (∀ r, st_finalized s' r =
              overlay fst snd (wb_finalized_commits wb) r (st_finalized s r));
  st_read_blocks : ∀ s refs, st_ok s →
    store_read_blocks s refs = Ret (Ok (st_block s <$> refs));
  st_contains_blocks : ∀ s refs, st_ok s →
    store_contains_blocks s refs = Ret (Ok ((λ r, bool_decide (is_Some (st_block s r))) <$> refs));
  st_scan_in_range : ∀ s author lo hi limit, st_ok s → lo ≤ hi →
    ∃ l, scan_of (st_block s) author lo hi l ∧
         store_scan_blocks_by_author_in_range s author lo hi limit =
           Ret (Ok (take (N.to_nat (N.max limit 1)) l));
  st_scan : ∀ s author lo, st_ok s → lo ≤ u32_max →
    ∃ l, scan_of (st_block s) author lo u32_max l ∧
         store_scan_blocks_by_author s author lo = Ret (Ok (take (N.to_nat usize_max) l));
  st_scan_last : ∀ s author n before, st_ok s →
    ∃ l, scan_of (st_block s) author 0 (default u32_max before + 1) l ∧
         store_scan_last_blocks_by_author s author n before =
           Ret (Ok (drop (length l - N.to_nat n) l));
  st_read_last_commit : ∀ s, st_ok s →
    ∃ o, greatest (st_commit s) o ∧ store_read_last_commit s = Ret (Ok (snd <$> o));
  st_read_last_commit_info : ∀ s, st_ok s →
    ∃ o, greatest (st_info s) o ∧ store_read_last_commit_info s = Ret (Ok o);
  st_read_last_finalized_commit : ∀ s, st_ok s →
    ∃ o, greatest (st_finalized s) o ∧
         store_read_last_finalized_commit s = Ret (Ok (fst <$> o));
  st_read_rejected_transactions : ∀ s r, st_ok s →
    store_read_rejected_transactions s r = Ret (Ok (st_finalized s r));
}.

(** ** [MemStore] is a store *)

Definition author_key_ref (k : N * (N * N)) : BlockRef := mkBlockRef k.2.1 k.1 k.2.2.

Record mem_ok (s : MemStore) : Prop := {
  mem_block_key : ∀ k b, ms_blocks s !! k = Some b →
    block_key (reference b) = k ∧ ref_valid (reference b);
  mem_digests : ∀ k, k ∈ ms_digests_by_authorities s ↔
    is_Some (ms_blocks s !! block_key (author_key_ref k));
  mem_commit_key : ∀ k c, ms_commits s !! k = Some c →
    (c_index (tcm_inner c), tcm_digest c) = k;
}.

#[export] Instance block_key_inj : Inj (=) (=) block_key.
Proof. intros [] []. by intros [= -> -> ->]. Qed.
#[export] Instance commit_key_inj : Inj (=) (=) commit_key.
Proof. intros [] []. by intros [= -> ->]. Qed.

Lemma author_key_author_key_ref k : author_key (author_key_ref k) = k.
Proof. by destruct k as [a [r d]]. Qed.
Lemma author_key_ref_author_key r : author_key_ref (author_key r) = r.
Proof. by destruct r. Qed.

Lemma mem_ok_new : mem_ok MemStore_new.
Proof.
  split; simpl; [by intros ??; rewrite lookup_empty| |by intros ??; rewrite lookup_empty].
  intros k. rewrite lookup_empty. split; [set_solver|by intros [??]].
Qed.

Lemma write_block_ok s b : mem_ok s → ref_valid (reference b) → mem_ok (write_block s b).
Proof.
  intros [Hk Hd Hc] Hv. split; simpl.
  - intros k b' [[<- <-]|[_ Hb']]%lookup_insert_Some; [done|by apply Hk].
  - intros k. rewrite elem_of_union, elem_of_singleton, lookup_insert_is_Some, Hd.
    split.
    + intros [->|Hs]; [left; by rewrite author_key_ref_author_key|].
      destruct (decide (block_key (reference b) = block_key (author_key_ref k))); auto.
    + intros [Heq%(inj _)|[_ ?]]; [left|by right].
      by rewrite Heq, author_key_author_key_ref.
  - done.
Qed.

Lemma write_blocks_ok s l :
  mem_ok s → (∀ b, b ∈ l → ref_valid (reference b)) → mem_ok (foldl write_block s l).
Proof.
  revert s. induction l as [|b l IH]; intros s Hs Hl; simpl; [done|].
  apply IH; [apply write_block_ok; [done|]|]; set_solver.
Qed.

Lemma write_blocks_fields s l :
  ms_blocks (foldl write_block s l) =
    foldl (λ m b, <[block_key (reference b) := b]> m) (ms_blocks s) l ∧
  ms_commits (foldl write_block s l) = ms_commits s ∧
  ms_commit_info (foldl write_block s l) = ms_commit_info s ∧
  ms_finalized_commits (foldl write_block s l) = ms_finalized_commits s.
Proof.
  revert s. induction l as [|b l IH]; intros s; simpl; [done|].
  destruct (IH (write_block s b)) as (-> & -> & -> & ->). done.
Qed.

Lemma overlay_inj {A K K' V} `{EqDecision K, EqDecision K'} (g : K → K') `{!Inj (=) (=) g}
    (key : A → K) (val : A → V) l k old :
  overlay (g ∘ key) val l (g k) old = overlay key val l k old.
Proof.
  unfold overlay. do 2 f_equal. apply list_filter_iff. intros a. simpl.
  split; [apply (inj g)|congruence].
Qed.

Lemma MemStore_write_law s wb :
  mem_ok s → batch_valid wb →
  ∃ s', MemStore_write s wb = Ret (Ok s') ∧ mem_ok s' ∧
    (∀ r, ms_blocks s' !! block_key r =
            overlay reference id (wb_blocks wb) r (ms_blocks s !! block_key r)) ∧
    (∀ r, ms_commits s' !! commit_key r =
            overlay TrustedCommit_reference id (wb_commits wb) r (ms_commits s !! commit_key r)) ∧
    (∀ r, ms_commit_info s' !! commit_key r =
            overlay fst snd (wb_commit_info wb) r (ms_commit_info s !! commit_key r)) ∧
    (∀ r, ms_finalized_commits s' !! commit_key r =
            overlay fst snd (wb_finalized_commits wb) r (ms_finalized_commits s !! commit_key r)).
Proof.
  intros Hs Hwb. eexists. split; [done|].
  pose proof (write_blocks_ok s (wb_blocks wb) Hs Hwb) as [Hk Hd Hc].
  destruct (write_blocks_fields s (wb_blocks wb)) as (Hb & Hcm & Hi & Hf).
  split; [split; simpl; [done..|]|split_and!; simpl].
  - intros k c. rewrite (foldl_insert_overlay (λ c : TrustedCommit, (c_index c, tcm_digest c)) id).
    intros [(c' & _ & Hck & <-)|?]%overlay_Some; [done|eauto].
  - intros r. rewrite Hb, (foldl_insert_overlay (block_key ∘ reference) id).
    apply (overlay_inj block_key).
  - intros r. rewrite Hcm, (foldl_insert_overlay (commit_key ∘ TrustedCommit_reference) id).
    apply (overlay_inj commit_key).
  - intros r. rewrite Hi, (foldl_insert_overlay (λ e, commit_key e.1) snd).
    apply (overlay_inj commit_key fst snd).
  - intros r. rewrite Hf, (foldl_insert_overlay (λ e, commit_key e.1) snd).
    apply (overlay_inj commit_key fst snd).
Qed.

(** *** Scans *)

Lemma collect_refs_take limit keys acc :
  (length acc < N.to_nat (N.max limit 1))%nat →
  collect_refs acc limit keys =
    acc ++ take (N.to_nat (N.max limit 1) - length acc) (author_key_ref <$> keys).
Proof.
  revert acc. induction keys as [|[a [r d]] keys IH]; intros acc Hacc; csimpl.
  - by rewrite take_nil, app_nil_r.
  - destruct (N.to_nat (N.max limit 1) - length acc)%nat as [|n] eqn:Hn; [lia|].
    change (author_key_ref (a, (r, d))) with (mkBlockRef r a d). csimpl.
    destruct (N.leb_spec limit (N.of_nat (length (acc ++ [mkBlockRef r a d])))) as [Hl|Hl];
      rewrite length_app in Hl; simpl in Hl.
    + assert (n = 0%nat) as -> by lia. by rewrite take_0.
    + rewrite IH, length_app by (rewrite length_app; simpl; lia). simpl.
      rewrite <- app_assoc. simpl. do 3 f_equal. lia.
Qed.

Lemma foldl_push_front (l : list (N * (N * N))) acc :
  foldl (λ refs '(author, (round, digest)), mkBlockRef round author digest :: refs) acc l =
    reverse (author_key_ref <$> l) ++ acc.
Proof.
  revert acc. induction l as [|[a [r d]] l IH]; intros acc; csimpl; [done|].
  rewrite IH, reverse_cons, <- app_assoc. done.
Qed.

(** Reading the references of stored blocks finds them all. *)
Lemma read_found s refs why :
  mem_ok s → (∀ r, r ∈ refs → is_Some (ms_blocks s !! block_key r)) →
  ∃ l, all_found ((λ r, ms_blocks s !! block_key r) <$> refs) why = Ret l ∧
       reference <$> l = refs ∧ (∀ b, b ∈ l → ms_blocks s !! block_key (reference b) = Some b).
Proof.
  intros Hs. unfold all_found. induction refs as [|r refs IH]; intros Hr; csimpl.
  - exists []. by split_and!; [..|set_solver].
  - destruct (Hr r) as [b Hb]; [left|]. rewrite Hb. simpl.
    destruct IH as (l & -> & <- & Hl); [set_solver|]. simpl.
    destruct (mem_block_key s Hs _ _ Hb) as [Hkey%(inj block_key) _].
    exists (b :: l). csimpl. rewrite Hkey. split_and!; [done..|].
    intros b' [->|?]%elem_of_cons; [by rewrite Hkey|auto].
Qed.

Lemma all_found_take o why l n :
  all_found o why = Ret l → all_found (take n o) why = Ret (take n l).
Proof. unfold all_found. rewrite !mapP_Forall2. apply Forall2_take. Qed.

Lemma all_found_drop o why l n :
  all_found o why = Ret l → all_found (drop n o) why = Ret (drop n l).
Proof. unfold all_found. rewrite !mapP_Forall2. apply Forall2_drop. Qed.

Lemma reverse_take_reverse {A} n (l : list A) :
  reverse (take n (reverse l)) = drop (length l - n) l.
Proof. by rewrite take_reverse, reverse_involutive. Qed.

(** The range of the index by authors that holds the rounds [lo <= r < hi] of
    one author. *)
Definition author_range (s : MemStore) (a lo hi : N) : list BlockRef :=
  author_key_ref <$>
    filter (λ k : N * (N * N), k.1 = a ∧ lo ≤ k.2.1 ∧ k.2.1 < hi)
      (bset_list (ms_digests_by_authorities s)).

Lemma author_range_elem s a lo hi r :
  mem_ok s →
  r ∈ author_range s a lo hi ↔
    is_Some (ms_blocks s !! block_key r) ∧ br_author r = a ∧ lo ≤ br_round r ∧ br_round r < hi.
Proof.
  intros Hs. unfold author_range. rewrite list_elem_of_fmap. split.
  - intros (k & -> & Hk). apply list_elem_of_filter in Hk as [? Hk].
    by rewrite bset_list_elem, mem_digests in Hk by done.
  - intros [Hb Hr]. exists (author_key r). rewrite author_key_ref_author_key.
    split; [done|]. apply list_elem_of_filter. split; [done|].
    rewrite bset_list_elem, mem_digests by done. by rewrite author_key_ref_author_key.
Qed.

Lemma author_key_ref_lt k1 k2 :
  k1.1 = k2.1 → lt_ord k1 k2 = lt_ord (author_key_ref k1) (author_key_ref k2).
Proof.
  destruct k1 as [a [r1 d1]], k2 as [a' [r2 d2]]. simpl. intros <-.
  unfold lt_ord, cmp, Ord_BlockRef, BlockRef_tuple, cmp, Ord_prod, lex, cmp, Ord_N; simpl.
  rewrite !N.compare_refl. by destruct (r1 ?= r2).
Qed.

Lemma author_range_sorted s a lo hi :
  StronglySorted (λ r1 r2, lt_ord r1 r2 = true) (author_range s a lo hi).
Proof.
  unfold author_range. apply StronglySorted_fmap with (R := λ k1 k2, lt_ord k1 k2 = true).
  - intros k1 k2 [[H1 _] _]%list_elem_of_filter [[H2 _] _]%list_elem_of_filter Hlt.
    rewrite <- author_key_ref_lt; [done|congruence].
  - apply StronglySorted_filter. apply (sorted_strict id); [apply bset_list_sorted|].
    rewrite list_fmap_id. apply bset_list_NoDup.
Qed.

(** Reading a range gives its scan. *)
Lemma read_range_scan s a lo hi l :
  mem_ok s → reference <$> l = author_range s a lo hi →
  (∀ b, b ∈ l → ms_blocks s !! block_key (reference b) = Some b) →
  scan_of (λ r, ms_blocks s !! block_key r) a lo hi l.
Proof.
  intros Hs Hl Hb. split.
  - apply (StronglySorted_fmap_inv reference (λ r1 r2, lt_ord r1 r2 = true)).
    rewrite Hl. apply author_range_sorted.
  - intros b. split.
    + intros Hin. split; [by apply Hb|].
      assert (reference b ∈ author_range s a lo hi) as Hr
        by (rewrite <- Hl; by apply list_elem_of_fmap_2).
      apply author_range_elem in Hr; [|done]. apply Hr.
    + intros [Hlk Hr].
      assert (reference b ∈ author_range s a lo hi) as Hin
        by (apply author_range_elem; [done|]; simpl; eauto).
      rewrite <- Hl in Hin. apply list_elem_of_fmap in Hin as (b' & Hb' & Hin).
      specialize (Hb b' Hin). rewrite <- Hb' in Hb. congruence.
Qed.

Lemma range_keys_half_open (a lo hi : N) k :
  in_range (Included (a, (lo, BlockDigest_MIN))) (Excluded (a, (hi, BlockDigest_MIN))) k = true ↔
  k.1 = a ∧ lo ≤ k.2.1 ∧ k.2.1 < hi.
Proof.
  destruct k as [a' [r d]]. unfold in_range, above, below.
  rewrite andb_true_iff, !le_ord_prod, !lt_ord_prod, !le_ord_N, !lt_ord_N.
  unfold BlockDigest_MIN. simpl. lia.
Qed.

Lemma range_keys_closed (a hi : N) k :
  k.2.2 ≤ BlockDigest_MAX →
  in_range (Included (a, (0, BlockDigest_MIN))) (Included (a, (hi, BlockDigest_MAX))) k = true ↔
  k.1 = a ∧ 0 ≤ k.2.1 ∧ k.2.1 < hi + 1.
Proof.
  destruct k as [a' [r d]]. simpl. intros Hd. unfold in_range, above, below.
  rewrite andb_true_iff, !le_ord_prod, !lt_ord_N, !le_ord_N. unfold BlockDigest_MIN. simpl. lia.
Qed.

Lemma range_ok_rounds (a lo hi d d' : N) :
  lo ≤ hi → d ≤ d' → le_ord (a, (lo, d)) (a, (hi, d')) = true.
Proof. intros ??. rewrite !le_ord_prod, !lt_ord_N, le_ord_N. simpl. lia. Qed.

Lemma MemStore_scan_in_range_law s a lo hi limit :
  mem_ok s → lo ≤ hi →
  ∃ l, scan_of (λ r, ms_blocks s !! block_key r) a lo hi l ∧
       MemStore_scan_blocks_by_author_in_range s a lo hi limit =
         Ret (Ok (take (N.to_nat (N.max limit 1)) l)).
Proof.
  intros Hs Hlo.
  unfold MemStore_scan_blocks_by_author_in_range, bset_range, try_ok, MemStore_read_blocks. simpl.
  rewrite range_ok_rounds by (done || lia). simpl.
  rewrite (list_filter_iff _ _ _ (range_keys_half_open a lo hi)).
  rewrite collect_refs_take by (simpl; lia). simpl. rewrite Nat.sub_0_r.
  fold (author_range s a lo hi).
  destruct (read_found s (author_range s a lo hi) "Block not found!" Hs) as (l & Hf & Hl & Hb).
  { intros r Hr%author_range_elem; [apply Hr|done]. }
  exists l. split; [by apply read_range_scan|].
  by rewrite fmap_take, (all_found_take _ _ l).
Qed.

Lemma MemStore_scan_last_law s a n before :
  mem_ok s →
  ∃ l, scan_of (λ r, ms_blocks s !! block_key r) a 0 (default u32_max before + 1) l ∧
       MemStore_scan_last_blocks_by_author s a n before =
         Ret (Ok (drop (length l - N.to_nat n) l)).
Proof.
  intros Hs.
  unfold MemStore_scan_last_blocks_by_author, bset_range, try_ok, MemStore_read_blocks. simpl.
  rewrite range_ok_rounds by (done || lia). simpl.
  set (hi := default u32_max before).
  assert (filter (λ k, in_range (Included (a, (0, BlockDigest_MIN)))
            (Included (a, (hi, BlockDigest_MAX))) k = true)
            (bset_list (ms_digests_by_authorities s)) =
          filter (λ k : N * (N * N), k.1 = a ∧ 0 ≤ k.2.1 ∧ k.2.1 < hi + 1)
            (bset_list (ms_digests_by_authorities s))) as ->.
  { apply list_filter_ext_in. intros k Hk%bset_list_elem.
    apply range_keys_closed. apply mem_digests in Hk as [b Hb]; [|done].
    destruct (mem_block_key s Hs _ _ Hb) as [Hkey%(inj block_key) (_ & _ & Hd)].
    by rewrite Hkey in Hd. }
  rewrite foldl_push_front, app_nil_r, fmap_take, (fmap_reverse author_key_ref), reverse_take_reverse.
  fold (author_range s a 0 (hi + 1)).
  destruct (read_found s (author_range s a 0 (hi + 1))
    "Storage inconsistency: block not found!" Hs) as (l & Hf & Hl & Hb).
  { intros r Hr%author_range_elem; [apply Hr|done]. }
  exists l. split; [by apply read_range_scan|].
  by rewrite fmap_drop, (all_found_drop _ _ l), <- Hl, length_fmap.
Qed.

Lemma greatest_last {V} (m : gmap (N * N) V) :
  greatest (λ r, m !! commit_key r) (prod_map CommitRef_of_key id <$> bmap_last m).
Proof.
  destruct (bmap_last m) as [[[i d] v]|] eqn:E; simpl.
  - apply bmap_last_Some in E as [Hk Hmax]. split; [done|]. intros r' v' ?. by eapply Hmax.
  - apply bmap_last_None in E as ->. intros r. apply lookup_empty.
Qed.

#[export] Instance MemStore_laws : StoreLaws MemStore.
Proof.
  refine {| st_ok := mem_ok;
            st_block s r := ms_blocks s !! block_key r;
            st_commit s r := ms_commits s !! commit_key r;
            st_info s r := ms_commit_info s !! commit_key r;
            st_finalized s r := ms_finalized_commits s !! commit_key r |}.
  - intros s r b Hs Hb. by destruct (mem_block_key s Hs _ _ Hb) as [?%(inj block_key) _].
  - intros s r b Hs Hb. by destruct (mem_block_key s Hs _ _ Hb) as [<-%(inj block_key) ?].
  - intros s r c Hs Hc%mem_commit_key; [|done]. by apply (inj commit_key).
  - apply MemStore_write_law.
  - done.
  - done.
  - intros. by apply MemStore_scan_in_range_law.
  - intros s a lo Hs Hlo. by apply (MemStore_scan_in_range_law s a lo u32_max usize_max).
  - intros. by apply MemStore_scan_last_law.
  - intros s Hs. eexists. split; [apply greatest_last|].
    simpl. unfold MemStore_read_last_commit. by destruct (bmap_last _) as [[??]|].
  - intros s Hs. eexists. split; [apply greatest_last|].
    simpl. unfold MemStore_read_last_commit_info. by destruct (bmap_last _) as [[??]|].
  - intros s Hs. eexists. split; [apply greatest_last|].
    simpl. unfold MemStore_read_last_finalized_commit. by destruct (bmap_last _) as [[??]|].
  - done.
Defined.

(** ** Properties *)

(** A sequence of writes from an empty in-memory store. *)
Definition mem_after (batches : list WriteBatch) : M (ConsensusResult MemStore) :=
  foldM (λ r wb, match r with Ok s => MemStore_write s wb | Err e => Ret (Err e) end)
    (Ok MemStore_new) batches.

(** The block last written under reference [r]. *)
Definition written_block (batches : list WriteBatch) (r : BlockRef) : option VerifiedBlock :=
  last (filter (λ b, reference b = r) (batches ≫= wb_blocks)).

Lemma mem_after_ok batches :
  (∀ wb, wb ∈ batches → batch_valid wb) →
  ∃ s, mem_after batches = Ret (Ok s) ∧ mem_ok s ∧
       ∀ r, st_block s r = written_block batches r.
Proof.
  unfold mem_after. induction batches as [|wb batches IH] using rev_ind; intros Hv.
  - exists MemStore_new. split_and!; [done|apply mem_ok_new|done].
  - destruct IH as (s & Hs & Hok & Hb); [set_solver|].
    destruct (st_write (StoreLaws := MemStore_laws) s wb Hok) as (s' & Hw & Hok' & Hb' & _); [set_solver|].
    exists s'. rewrite foldM_app, Hs. split_and!; [|done|].
    + exact Hw.
    + intros r. rewrite Hb', Hb. unfold overlay, written_block.
      rewrite bind_app. csimpl. rewrite app_nil_r, filter_app, last_app.
      by destruct (last _).
Qed.

(** After any sequence of writes the in-memory store returns, for every
    author and every interval of rounds, exactly the blocks last written there,
    once each and in the order of their references, cut off at the limit; and
    point reads agree with it. *)
Theorem MemStore_scan_complete batches author lo hi limit :
  (∀ wb, wb ∈ batches → batch_valid wb) → lo ≤ hi → 0 < limit →
  ∃ s l, mem_after batches = Ret (Ok s) ∧
    scan_of (written_block batches) author lo hi l ∧
    MemStore_scan_blocks_by_author_in_range s author lo hi limit =
      Ret (Ok (take (N.to_nat limit) l)) ∧
    (∀ refs, MemStore_read_blocks s refs = Ret (Ok (written_block batches <$> refs))).
Proof.
  intros Hv Hlo Hlimit. destruct (mem_after_ok batches Hv) as (s & Hs & Hok & Hb).
  destruct (st_scan_in_range (StoreLaws := MemStore_laws) s author lo hi limit Hok Hlo) as (l & [Hl1 Hl2] & Hl).
  exists s, l. split_and!; [done| | |].
  - split; [done|]. intros b. by rewrite Hl2, Hb.
  - simpl in Hl. rewrite Hl. do 3 f_equal. lia.
  - intros refs. unfold MemStore_read_blocks. do 2 f_equal.
    apply list_fmap_ext. intros i r _. apply Hb.
Qed.

Definition sample_batch : WriteBatch :=
  mkWriteBatch [sample_block 4 1 10 []; sample_block 5 1 20 []; sample_block 5 1 21 [];
                sample_block 5 2 22 []] [] [] [].

Lemma sample_batch_valid wb : wb ∈ [sample_batch] → batch_valid wb.
Proof.
  intros ->%list_elem_of_singleton. unfold batch_valid. rewrite <- Forall_forall.
  repeat (constructor; [by_eval|]). constructor.
Qed.

(** The limit of [scan_last_blocks_by_author] counts blocks: asked for the last
    two rounds of an author with two blocks in its last round, it returns blocks
    of one round only. *)
Lemma MemStore_scan_last_counts_blocks :
  ∃ s l, mem_after [sample_batch] = Ret (Ok s) ∧
    MemStore_scan_last_blocks_by_author s 1 2 None = Ret (Ok l) ∧
    (b_round ∘ vb_block) <$> l = [5; 5].
Proof. eexists _, _. split_and!; [vm_compute; reflexivity..]. Qed.

(** A limit of 0 still returns one block. *)
Lemma MemStore_scan_limit_zero :
  ∃ s l, mem_after [sample_batch] = Ret (Ok s) ∧
    MemStore_scan_blocks_by_author_in_range s 1 0 6 0 = Ret (Ok l) ∧ length l = 1%nat.
Proof. eexists _, _. split_and!; [vm_compute; reflexivity..]. Qed.

(** *** Recovery of a sub-dag *)

Lemma all_found_Some l why : all_found (Some <$> l) why = Ret l.
Proof. unfold all_found. apply mapP_Forall2. apply Forall2_fmap_l, Forall_Forall2_diag.
  by apply Forall_true. Qed.

(** The loop that looks for the leader ends on a block with its reference. *)
Lemma find_leader_idx (leader : BlockRef) l k acc :
  leader ∈ reference <$> l →
  ∃ i b, foldl (λ found '(idx, b), if decide (reference b = leader) then Some idx else found)
           acc (zip (N.of_nat <$> seq k (length l)) l) = Some (N.of_nat (k + i)) ∧
         l !! i = Some b ∧ reference b = leader.
Proof.
  revert k acc. induction l as [|b l IH] using rev_ind; intros k acc Hin;
    [by apply not_elem_of_nil in Hin|].
  rewrite length_app, seq_app, fmap_app, zip_with_app, foldl_app
    by (by rewrite length_fmap, length_seq). csimpl.
  destruct (decide (reference b = leader)) as [Hb|Hb].
  - exists (length l), b. split_and!; [done| |done].
    by rewrite lookup_app_r, Nat.sub_diag.
  - destruct (IH k acc) as (i & b' & Hf & Hi & Hb').
    + rewrite fmap_app in Hin. csimpl in Hin. set_solver.
    + exists i, b'. split_and!; [done| |done]. by apply lookup_app_l_Some.
Qed.

(** C30: A sub-dag is recovered from a store that holds its blocks: from the
    commit that lists their references the loader returns the same leader, the
    same blocks in the same order, the commit's timestamp and reference, and
    the rejected transactions exactly when the commit was finalized. *)
Theorem load_committed_subdag_roundtrip {S} `{StoreLaws S} (s : S) (commit : TrustedCommit) blocks :
  st_ok s → c_blocks commit = reference <$> blocks →
  (∀ b, b ∈ blocks → st_block s (reference b) = Some b) →
  c_leader commit ∈ c_blocks commit →
  load_committed_subdag_from_store s commit = Ret
    {| sd_leader := c_leader commit; sd_blocks := blocks;
       sd_timestamp_ms := c_timestamp_ms commit;
       sd_commit_ref := TrustedCommit_reference commit;
       sd_decided_with_local_blocks :=
         bool_decide (is_Some (st_finalized s (TrustedCommit_reference commit)));
       sd_recovered_rejected_transactions :=
         bool_decide (is_Some (st_finalized s (TrustedCommit_reference commit)));
       sd_rejected_transactions_by_block :=
         default ∅ (st_finalized s (TrustedCommit_reference commit)) |}.
Proof.
  intros Hok Hc Hb Hl. unfold load_committed_subdag_from_store, unwrap_ok.
  rewrite st_read_blocks, st_read_rejected_transactions by done. simpl.
  assert (st_block s <$> c_blocks commit = Some <$> blocks) as ->.
  { rewrite Hc, <- list_fmap_compose. apply list_fmap_ext. intros i b Hi. apply Hb.
    by eapply list_elem_of_lookup_2. }
  rewrite all_found_Some. simpl. rewrite Hc in Hl.
  destruct (find_leader_idx (c_leader commit) blocks 0 None Hl) as (i & b & -> & Hi & Hr).
  simpl. unfold index. rewrite Nat2N.id, Hi. simpl. rewrite Hr.
  by destruct (st_finalized s (TrustedCommit_reference commit)).
Qed.

Definition sample_commit : TrustedCommit :=
  {| tcm_inner := Commit_new 1 CommitDigest_MIN 1005 (mkBlockRef 5 2 22)
                    [mkBlockRef 4 1 10; mkBlockRef 5 2 22];
     tcm_digest := 77; tcm_serialized := [] |}.

Lemma load_committed_subdag_roundtrip_witness :
  ∃ s, mem_after [sample_batch] = Ret (Ok s) ∧
  ∃ sd, load_committed_subdag_from_store s sample_commit = Ret sd ∧
        sd_blocks sd = [sample_block 4 1 10 []; sample_block 5 2 22 []].
Proof.
  destruct (mem_after_ok [sample_batch]) as (s & Hs & Hok & Hb).
  { apply sample_batch_valid. }
  exists s. split; [exact Hs|]. eexists. split.
  - apply (load_committed_subdag_roundtrip (S := MemStore) (H0 := MemStore_laws) s sample_commit
             [sample_block 4 1 10 []; sample_block 5 2 22 []] Hok).
    + reflexivity.
    + rewrite <- Forall_forall. repeat constructor; rewrite Hb; vm_compute; reflexivity.
    + by_eval.
  - reflexivity.
Defined.
