(* ===== verification/StakeAggregator.v ===== *)
(** * Counting stake (consensus/core/src/stake_aggregator.rs)

    [StakeAggregator<T>] accumulates the stake of distinct authorities and
    compares it with the threshold that its marker type [T] stands for. *)

From S2P Require Import Prelude BTree Config Block.
Local Open Scope N_scope.

(** The trait [CommitteeThreshold], implemented by marker types. *)
Class CommitteeThreshold (T : Type) : Type := {
  is_threshold : Committee → Stake → bool;
  threshold : Committee → Stake;
}.

(** What the trait promises: [is_threshold] is a comparison with [threshold]. *)
Class CommitteeThresholdLaws (T : Type) `{CommitteeThreshold T} : Prop :=
  is_threshold_spec : ∀ c amount,
    is_threshold (T := T) c amount = (threshold (T := T) c <=? amount).

Inductive QuorumThreshold : Type := .
Inductive CertificationThreshold : Type := .

#[export] Instance QuorumThreshold_impl : CommitteeThreshold QuorumThreshold := {
  is_threshold c amount := Committee_reached_quorum c amount;
  threshold c := Committee_quorum_threshold c;
}.
#[export] Instance CertificationThreshold_impl : CommitteeThreshold CertificationThreshold := {
  is_threshold c amount := Committee_certification_threshold c <=? amount;
  threshold c := Committee_certification_threshold c;
}.
#[export] Instance QuorumThreshold_laws : CommitteeThresholdLaws QuorumThreshold.
Proof. done. Qed.
#[export] Instance CertificationThreshold_laws : CommitteeThresholdLaws CertificationThreshold.
Proof. done. Qed.

Record StakeAggregator (T : Type) : Type := mkStakeAggregator {
  sa_votes : gset AuthorityIndex;
  sa_stake : Stake;
}.
Arguments mkStakeAggregator {T} _ _.
Arguments sa_votes {T} _.
Arguments sa_stake {T} _.

Section StakeAggregator.
Context `{Profile} {T : Type} `{CommitteeThreshold T}.

Definition StakeAggregator_new : StakeAggregator T := mkStakeAggregator ∅ 0.

(** [add_unique]: true when the vote comes from a new authority. *)
Definition StakeAggregator_add_unique (sa : StakeAggregator T) (vote : AuthorityIndex)
    (committee : Committee) : M (StakeAggregator T * bool) :=
  if decide (vote ∈ sa_votes sa) then Ret (sa, false)
  else stake ← Committee_stake committee vote;
       stake' ← u64_add (sa_stake sa) stake;
       Ret (mkStakeAggregator ({[vote]} ∪ sa_votes sa) stake', true).

(** [add]: true when the threshold has been reached. *)
Definition StakeAggregator_add (sa : StakeAggregator T) (vote : AuthorityIndex)
    (committee : Committee) : M (StakeAggregator T * bool) :=
  sa' ← (if decide (vote ∈ sa_votes sa) then Ret sa
         else stake ← Committee_stake committee vote;
              stake' ← u64_add (sa_stake sa) stake;
              Ret (mkStakeAggregator ({[vote]} ∪ sa_votes sa) stake'));
  Ret (sa', is_threshold (T := T) committee (sa_stake sa')).

Definition StakeAggregator_reached_threshold (sa : StakeAggregator T) (committee : Committee)
    : bool := is_threshold (T := T) committee (sa_stake sa).

Definition StakeAggregator_threshold (sa : StakeAggregator T) (committee : Committee) : Stake :=
  threshold (T := T) committee.

Definition StakeAggregator_clear (sa : StakeAggregator T) : StakeAggregator T :=
  mkStakeAggregator ∅ 0.

(** ** The aggregator of a set of voters *)

Definition SA_of (c : Committee) (s : gset AuthorityIndex) : StakeAggregator T :=
  mkStakeAggregator s (set_stake c s).

Lemma SA_of_new c : StakeAggregator_new = SA_of c ∅.
Proof. unfold SA_of, set_stake. by rewrite weight_empty. Qed.

Lemma SA_of_clear c sa : StakeAggregator_clear sa = SA_of c ∅.
Proof. apply SA_of_new. Qed.

Context (c : Committee) (Hwf : Committee_wf c).

Lemma SA_add_stake s v :
  s ⊆ members c → v ∈ members c → v ∉ s →
  Committee_stake c v = Ret (stake_at c v) ∧
  u64_add (set_stake c s) (stake_at c v) = Ret (set_stake c ({[v]} ∪ s)).
Proof using Hwf.
  intros Hs Hv Hvs. split; [by apply Committee_stake_valid, members_spec|].
  unfold set_stake. rewrite weight_insert by done.
  rewrite int_add_exact; [f_equal; lia|].
  pose proof (set_stake_le_total c ({[v]} ∪ s) Hwf ltac:(set_solver)) as Hle.
  pose proof (wf_total_u64 c Hwf). unfold set_stake in Hle.
  rewrite weight_insert in Hle by done. lia.
Qed.

Lemma StakeAggregator_add_spec s v :
  s ⊆ members c → v ∈ members c →
  StakeAggregator_add (SA_of c s) v c =
    Ret (SA_of c ({[v]} ∪ s), is_threshold (T := T) c (set_stake c ({[v]} ∪ s))).
Proof using Hwf.
  intros Hs Hv. unfold StakeAggregator_add. simpl.
  destruct (decide (v ∈ s)) as [Hin|Hnin]; simpl.
  - by replace ({[v]} ∪ s) with s by set_solver.
  - destruct (SA_add_stake s v Hs Hv Hnin) as [-> Hadd]. simpl. by rewrite Hadd.
Qed.

Lemma StakeAggregator_add_unique_spec s v :
  s ⊆ members c → v ∈ members c →
  StakeAggregator_add_unique (SA_of c s) v c =
    Ret (SA_of c ({[v]} ∪ s), bool_decide (v ∉ s)).
Proof using Hwf.
  intros Hs Hv. unfold StakeAggregator_add_unique. simpl.
  destruct (decide (v ∈ s)) as [Hin|Hnin]; simpl.
  - rewrite bool_decide_eq_false_2 by auto. by replace ({[v]} ∪ s) with s by set_solver.
  - destruct (SA_add_stake s v Hs Hv Hnin) as [-> Hadd]. simpl. rewrite Hadd. simpl.
    by rewrite bool_decide_eq_true_2.
Qed.

(** Votes added one after another. *)
Definition add_votes (sa : StakeAggregator T) (votes : list AuthorityIndex)
    : M (StakeAggregator T) :=
  foldM (λ sa v, fst <$> StakeAggregator_add sa v c) sa votes.

Lemma add_votes_spec s l :
  s ⊆ members c → (∀ v, v ∈ l → v ∈ members c) →
  add_votes (SA_of c s) l = Ret (SA_of c (list_to_set l ∪ s)).
Proof using Hwf.
  unfold add_votes. revert s. induction l as [|v l IH]; intros s Hs Hl; simpl.
  - by rewrite union_empty_l_L.
  - rewrite StakeAggregator_add_spec by set_solver. simpl.
    rewrite IH by set_solver. do 2 f_equal. set_solver.
Qed.

(** An aggregator counts each authority once and does not depend on the
    order of the votes: two vote sequences over the same authorities leave it
    in the same state, whose stake is the stake of the set of voters. *)
Theorem StakeAggregator_order_independent l1 l2 :
  (∀ v, v ∈ l1 ↔ v ∈ l2) → (∀ v, v ∈ l1 → v ∈ members c) →
  ∃ sa, add_votes StakeAggregator_new l1 = Ret sa ∧
        add_votes StakeAggregator_new l2 = Ret sa ∧
        sa_stake sa = set_stake c (sa_votes sa) ∧
        (∀ v, v ∈ sa_votes sa ↔ v ∈ l1).
Proof using Hwf.
  intros Heq Hl. rewrite (SA_of_new c).
  rewrite !add_votes_spec by set_solver. eexists. split; [done|]. split.
  - do 2 f_equal. set_solver.
  - split; [done|]. set_solver.
Qed.

End StakeAggregator.

