(* ===== verification/ThresholdClock.v ===== *)
(** * The threshold clock (consensus/core/src/threshold_clock.rs)

    The round a proposer may build at.  The clock moves to the round after a
    quorum of blocks of one round, and catches up with any higher block.  The
    wall-clock instant of the last quorum, which only feeds metrics and
    timeouts, is left out. *)

From S2P Require Import Prelude BTree Config Block StakeAggregator.
Local Open Scope N_scope.

Record ThresholdClock : Type := mkThresholdClock {
  tc_aggregator : StakeAggregator QuorumThreshold;
  tc_round : Round;
}.

Section ThresholdClock.
Context `{Profile}.

Definition ThresholdClock_new (round : Round) : ThresholdClock :=
  {| tc_aggregator := StakeAggregator_new; tc_round := round |}.

(** Returns true when the round has advanced. *)
Definition ThresholdClock_add_block (c : Committee) (tc : ThresholdClock) (block : BlockRef)
    : M (ThresholdClock * bool) :=
  match br_round block ?= tc_round tc with
  | Lt => Ret (tc, false)
  | Eq =>
      '(aggregator, reached) ← StakeAggregator_add (tc_aggregator tc) (br_author block) c;
      if reached : bool then
        round ← u32_add (br_round block) 1;
        Ret (mkThresholdClock (StakeAggregator_clear aggregator) round, true)
      else Ret (mkThresholdClock aggregator (tc_round tc), false)
  | Gt =>
      let aggregator := StakeAggregator_clear (tc_aggregator tc) in
      '(aggregator, reached) ← StakeAggregator_add aggregator (br_author block) c;
      round ← (if reached : bool then u32_add (br_round block) 1 else Ret (br_round block));
      Ret (mkThresholdClock aggregator round, true)
  end.

(** The clock after a sequence of accepted blocks. *)
Definition clock_after (c : Committee) (tc : ThresholdClock) (blocks : list BlockRef)
    : M ThresholdClock :=
  foldM (λ tc b, fst <$> ThresholdClock_add_block c tc b) tc blocks.

(** ** What the clock promises

    [authors_at l r] are the authorities with a block of round [r] among the
    accepted blocks [l].  [clock_spec] says that [R] is the least round that is
    not below the start, not below any accepted block, and past every round with
    a quorum of authors. *)

Definition authors_at (l : list BlockRef) (r : Round) : gset AuthorityIndex :=
  list_to_set (br_author <$> filter (λ b, br_round b = r) l).

Definition has_quorum (c : Committee) (l : list BlockRef) (r : Round) : Prop :=
  Committee_reached_quorum c (set_stake c (authors_at l r)) = true.

Definition clock_bound (c : Committee) (start : Round) (l : list BlockRef) (R : Round) : Prop :=
  start ≤ R ∧ (∀ b, b ∈ l → br_round b ≤ R) ∧ (∀ r, has_quorum c l r → r < R).

Definition clock_spec (c : Committee) (start : Round) (l : list BlockRef) (R : Round) : Prop :=
  clock_bound c start l R ∧ ∀ R', clock_bound c start l R' → R ≤ R'.

Lemma authors_at_elem l r i :
  i ∈ authors_at l r ↔ ∃ b, b ∈ l ∧ br_round b = r ∧ br_author b = i.
Proof.
  unfold authors_at. rewrite elem_of_list_to_set, list_elem_of_fmap.
  setoid_rewrite list_elem_of_filter. naive_solver.
Qed.

Lemma authors_at_snoc_ne l b r : br_round b ≠ r → authors_at (l ++ [b]) r = authors_at l r.
Proof. intros Hr. apply set_eq. intros i. rewrite !authors_at_elem. set_solver. Qed.

Lemma authors_at_snoc l b :
  authors_at (l ++ [b]) (br_round b) = {[br_author b]} ∪ authors_at l (br_round b).
Proof. apply set_eq. intros i. rewrite elem_of_union, !authors_at_elem. set_solver. Qed.

Lemma authors_at_none l r : (∀ b, b ∈ l → br_round b ≠ r) → authors_at l r = ∅.
Proof. intros Hl. apply set_eq. intros i. rewrite authors_at_elem. set_solver. Qed.

Lemma clock_spec_unique c start l R1 R2 :
  clock_spec c start l R1 → clock_spec c start l R2 → R1 = R2.
Proof.
  intros [H1 H1'] [H2 H2']. apply H1' in H2. apply H2' in H1. lia.
Qed.

Section ClockProps.
Context (c : Committee) (Hwf : Committee_wf c).
Context (Hsingle : ∀ i, Committee_reached_quorum c (stake_at c i) = false).
Context (start : Round).

Lemma has_quorum_occurs l r : has_quorum c l r → ∃ b, b ∈ l ∧ br_round b = r.
Proof using Hwf.
  unfold has_quorum, Committee_reached_quorum. intros Hq%N.leb_le.
  destruct (weight_pos_inhabited (stake_at c) (authors_at l r)) as [i Hi].
  - pose proof (wf_quorum_pos c Hwf). unfold set_stake in Hq. lia.
  - apply authors_at_elem in Hi as (b & ? & ? & _). eauto.
Qed.

Lemma has_quorum_snoc_ne l b r :
  br_round b ≠ r → has_quorum c (l ++ [b]) r ↔ has_quorum c l r.
Proof. intros Hr. unfold has_quorum. by rewrite authors_at_snoc_ne. Qed.

Lemma has_quorum_snoc_mono l b r :
  has_quorum c l r → has_quorum c (l ++ [b]) r.
Proof.
  unfold has_quorum, Committee_reached_quorum. intros Hq%N.leb_le. apply N.leb_le.
  pose proof (weight_mono (stake_at c) (authors_at l r) (authors_at (l ++ [b]) r)) as Hm.
  unfold set_stake in *. lapply Hm; [lia|].
  intros i. rewrite !authors_at_elem. set_solver.
Qed.

(** The state of the clock after accepting [l]. *)
Definition clock_inv (l : list BlockRef) (tc : ThresholdClock) : Prop :=
  clock_spec c start l (tc_round tc) ∧
  tc_aggregator tc = SA_of c (authors_at l (tc_round tc)).

Lemma clock_spec_step l b R R' :
  clock_spec c start l R → R ≤ R' → br_round b ≤ R' →
  (has_quorum c (l ++ [b]) (br_round b) → br_round b < R') →
  (R' = R ∨ R' = br_round b ∨ (has_quorum c (l ++ [b]) (br_round b) ∧ R' = br_round b + 1)) →
  clock_spec c start (l ++ [b]) R'.
Proof.
  intros [(Hs & Hl & Hq) Hleast] HR Hb Hqb Hcase. split.
  - split_and!; [lia| |].
    + intros b' [Hb'%Hl| ->%list_elem_of_singleton]%elem_of_app; [lia|done].
    + intros r Hr. destruct (decide (br_round b = r)) as [<-|Hne]; [auto|].
      apply has_quorum_snoc_ne in Hr; [|done]. apply Hq in Hr. lia.
  - intros R'' (Hs' & Hl' & Hq'). destruct Hcase as [->|[->|[Hqq ->]]].
    + apply Hleast. split_and!; [done| |].
      * intros b' ?. apply Hl'. set_solver.
      * intros r Hr. apply Hq'. by apply has_quorum_snoc_mono.
    + apply Hl'. set_solver.
    + apply Hq' in Hqq. lia.
Qed.

Lemma clock_add_block l tc b :
  clock_inv l tc → authors_at l (tc_round tc) ⊆ members c →
  br_author b ∈ members c → br_round b < u32_max →
  ∃ tc', ThresholdClock_add_block c tc b = Ret (tc', tc_round tc <? tc_round tc') ∧
         clock_inv (l ++ [b]) tc'.
Proof using Hwf Hsingle.
  intros [Hspec Hagg] Hmem Ha Hr. destruct Hspec as [(Hs & Hl & Hq) Hleast] eqn:Hsp.
  clear Hsp. unfold ThresholdClock_add_block.
  destruct (N.compare_spec (br_round b) (tc_round tc)) as [Heq|Hlt|Hgt].
  - rewrite Hagg, StakeAggregator_add_spec by done. simpl.
    rewrite <- Heq, <- authors_at_snoc.
    destruct (Committee_reached_quorum c (set_stake c (authors_at (l ++ [b]) (br_round b))))
      eqn:Eq.
    + rewrite int_add_exact by lia. simpl. eexists. split.
      { repeat f_equal. symmetry. apply N.ltb_lt. simpl. lia. }
      split; simpl.
      * apply (clock_spec_step l b (tc_round tc)); [by rewrite Heq in *|lia..|].
        right; right. done.
      * rewrite (SA_of_clear c), authors_at_none; [done|].
        intros b' [Hb'%Hl| ->%list_elem_of_singleton]%elem_of_app; lia.
    + eexists. split.
      { repeat f_equal. symmetry. apply N.ltb_ge. simpl. lia. }
      split; simpl.
      * apply (clock_spec_step l b (tc_round tc)); [by rewrite <- Heq in *|lia..| |lia].
        intros Hq'. unfold has_quorum in Hq'. congruence.
      * by rewrite Heq.
  - eexists. split.
    { repeat f_equal. symmetry. apply N.ltb_ge. lia. }
    split.
    + apply (clock_spec_step l b (tc_round tc)); [done|lia..| |lia]. lia.
    + by rewrite authors_at_snoc_ne by lia.
  - rewrite (SA_of_clear c), StakeAggregator_add_spec by set_solver. simpl.
    rewrite union_empty_r_L. unfold set_stake. rewrite weight_singleton, Hsingle. simpl.
    eexists. split.
    { repeat f_equal. symmetry. apply N.ltb_lt. simpl. lia. }
    assert (authors_at (l ++ [b]) (br_round b) = {[br_author b]}) as Hab.
    { rewrite authors_at_snoc, authors_at_none; [set_solver|]. intros b' ?%Hl. lia. }
    split; simpl.
    + apply (clock_spec_step l b (tc_round tc)); [done|lia..| |lia].
      unfold has_quorum. rewrite Hab. unfold set_stake. rewrite weight_singleton, Hsingle. done.
    + rewrite Hab. unfold SA_of, set_stake. by rewrite weight_singleton.
Qed.

Lemma clock_after_inv l :
  (∀ b, b ∈ l → br_author b ∈ members c ∧ br_round b < u32_max) →
  ∃ tc, clock_after c (ThresholdClock_new start) l = Ret tc ∧ clock_inv l tc.
Proof using Hwf Hsingle.
  induction l as [|b l IH] using rev_ind; intros Hl; unfold clock_after in *.
  - eexists. split; [done|]. split.
    + split; simpl.
      * split_and!; [lia|set_solver|].
        intros r (b & Hb & _)%has_quorum_occurs. by apply not_elem_of_nil in Hb.
      * by intros R' [? _].
    + simpl. apply SA_of_new.
  - destruct IH as (tc & Htc & Hinv); [set_solver|].
    destruct (Hl b) as [? ?]; [set_solver|].
    destruct (clock_add_block l tc b) as (tc' & Hadd & Hinv'); [done| |done..|].
    { intros i (b' & Hb' & _ & <-)%authors_at_elem. apply Hl. set_solver. }
    exists tc'. split; [|done]. rewrite foldM_app, Htc. simpl. by rewrite Hadd.
Qed.


Lemma clock_inv_ext l1 l2 tc1 tc2 :
  (∀ b, b ∈ l1 ↔ b ∈ l2) → clock_inv l1 tc1 → clock_inv l2 tc2 → tc1 = tc2.
Proof.
  intros Heq [Hs1 Ha1] [Hs2 Ha2].
  assert (∀ r, authors_at l1 r = authors_at l2 r) as Hauth.
  { intros r. apply set_eq. intros i. rewrite !authors_at_elem. by setoid_rewrite Heq. }
  assert (tc_round tc1 = tc_round tc2) as Hr.
  { apply (clock_spec_unique c start l2); [|done].
    unfold clock_spec, clock_bound, has_quorum in *.
    setoid_rewrite Hauth in Hs1. by setoid_rewrite Heq in Hs1. }
  destruct tc1, tc2; simpl in *. subst. by rewrite Hauth.
Qed.

(** The clock does not depend on the order or the repetition of the blocks
    it is fed with, so two authorities that accepted the same blocks propose
    at the same round. *)
Theorem ThresholdClock_order_independent l1 l2 :
  (∀ b, b ∈ l1 ↔ b ∈ l2) →
  (∀ b, b ∈ l1 → br_author b ∈ members c ∧ br_round b < u32_max) →
  ∃ tc, clock_after c (ThresholdClock_new start) l1 = Ret tc ∧
        clock_after c (ThresholdClock_new start) l2 = Ret tc.
Proof using Hwf Hsingle.
  intros Heq Hl. destruct (clock_after_inv l1 Hl) as (tc1 & H1 & Hi1).
  destruct (clock_after_inv l2) as (tc2 & H2 & Hi2); [by setoid_rewrite <- Heq|].
  rewrite <- (clock_inv_ext l1 l2 tc1 tc2 Heq Hi1 Hi2) in H2. by exists tc1.
Qed.

End ClockProps.

(** ** Acceptance of one block never fails *)

Definition clock_ok (c : Committee) (tc : ThresholdClock) : Prop :=
  ∃ voters, voters ⊆ members c ∧ tc_aggregator tc = SA_of c voters.

Lemma clock_ok_new c round : clock_ok c (ThresholdClock_new round).
Proof. exists ∅. split; [set_solver|]. apply SA_of_new. Qed.

Lemma clock_ok_add c tc b :
  Committee_wf c → clock_ok c tc → br_author b ∈ members c → br_round b < u32_max →
  ∃ tc' advanced, ThresholdClock_add_block c tc b = Ret (tc', advanced).
Proof.
  intros Hwf (vs & Hvs & Hagg) Ha Hr. unfold ThresholdClock_add_block.
  destruct (br_round b ?= tc_round tc); [|by eauto|].
  - rewrite Hagg, StakeAggregator_add_spec by done. simpl.
    destruct (Committee_reached_quorum c _); simpl; [|by eauto].
    rewrite int_add_exact by lia. simpl. eauto.
  - rewrite (SA_of_clear c), StakeAggregator_add_spec by set_solver. simpl.
    destruct (Committee_reached_quorum c _); simpl; [|by eauto].
    rewrite int_add_exact by lia. simpl. eauto.
Qed.

Lemma clock_ok_step c tc b tc' advanced :
  Committee_wf c → clock_ok c tc → br_author b ∈ members c →
  ThresholdClock_add_block c tc b = Ret (tc', advanced) → clock_ok c tc'.
Proof.
  intros Hwf (vs & Hvs & Hagg) Ha. unfold ThresholdClock_add_block.
  destruct (br_round b ?= tc_round tc).
  - rewrite Hagg, StakeAggregator_add_spec by done. simpl.
    destruct (Committee_reached_quorum c _); simpl; intros Hadd.
    + mskip Hadd. simplify_eq. exists ∅. split; [set_solver|]. apply SA_of_new.
    + simplify_eq. eexists. split; [|done]. set_solver.
  - intros; simplify_eq. by exists vs.
  - rewrite (SA_of_clear c), StakeAggregator_add_spec by set_solver. simpl. intros Hadd.
    mskip Hadd. simplify_eq. eexists. split; [|done]. set_solver.
Qed.

End ThresholdClock.

(** A committee in which no authority is a quorum by itself. *)
Lemma no_single_quorum c i :
  forallb (λ a, negb (Committee_reached_quorum c (Authority_stake a))) (Committee_authorities c) = true →
  0 < Committee_quorum_threshold c → Committee_reached_quorum c (stake_at c i) = false.
Proof.
  intros Hall Hq. unfold stake_at. destruct (Committee_authorities c !! N.to_nat i) as [a|] eqn:Ha; simpl.
  - rewrite forallb_forall in Hall. apply negb_true_iff, Hall, list_elem_of_In.
    by eapply list_elem_of_lookup_2.
  - apply N.leb_gt. lia.
Qed.

Lemma sample_no_single i : Committee_reached_quorum sample_committee (stake_at sample_committee i) = false.
Proof. apply no_single_quorum; vm_compute; reflexivity. Qed.

Lemma elem_of_members_forallb c (l : list BlockRef) :
  forallb (λ b, Committee_is_valid_index c (br_author b) && (br_round b <? u32_max)) l = true →
  ∀ b, b ∈ l → br_author b ∈ members c ∧ br_round b < u32_max.
Proof.
  rewrite forallb_forall. intros Hall b Hb%list_elem_of_In%Hall.
  apply andb_prop in Hb as [? ?%N.ltb_lt]. by rewrite members_spec.
Qed.

Definition sample_refs : list BlockRef :=
  [sample_ref 5 0; sample_ref 5 1; sample_ref 6 1; sample_ref 5 2; sample_ref 6 3].


(** ** A single authority with a quorum

    When the first block of a round completes a quorum by itself, [add_block]
    advances the round but keeps the vote in the aggregator, unlike the
    [Ordering::Equal] arm, which clears it.  The vote then counts for the next
    round: below, authority 0 holds 8000 of 10000 and has no block of round 6,
    yet a block of authority 1 (2000) moves the clock past round 6. *)
Definition dominant_committee : Committee :=
  {| Committee_epoch := 1; Committee_authorities := sample_authority <$> [8000; 2000];
     Committee_total_stake := 10000; Committee_quorum_threshold := 6667;
     Committee_certification_threshold := 6667; Committee_validity_threshold := 3334 |}.

(** With an authority that is a quorum by itself the clock passes a round
    that has no quorum: after blocks (5, author 0) and (6, author 1) it stands
    at round 7, although the authors of round 6 are no quorum. *)
Theorem ThresholdClock_stale_vote `{Profile} :
  Committee_new 1 (sample_authority <$> [8000; 2000]) = Ret dominant_committee ∧
  (tc_round <$> clock_after dominant_committee (ThresholdClock_new 1)
                  [sample_ref 5 0; sample_ref 6 1] = Ret 7) ∧
  set_stake dominant_committee (authors_at [sample_ref 5 0; sample_ref 6 1] 6) = 2000 ∧
  Committee_reached_quorum dominant_committee 2000 = false.
Proof. destruct H; split_and!; vm_compute; reflexivity. Qed.
