(* ===== verification/LeaderScoring.v ===== *)
(** * Reputation scores (consensus/core/src/leader_scoring.rs)

    [ScoringSubdag] records the votes for committed leaders found in committed
    sub-dags, and the stake of the blocks that include each vote. *)

From S2P Require Import Prelude BTree Config Block Commit StakeAggregator.
Local Open Scope N_scope.

Section ReputationScores.

Definition ReputationScores_new (commit_range : CommitRange) (scores_per_authority : list N)
    : ReputationScores :=
  mkReputationScores scores_per_authority commit_range.

Definition ReputationScores_highest_score (rs : ReputationScores) : N :=
  foldr N.max 0 (rs_scores_per_authority rs).

Definition ReputationScores_authorities_by_score (rs : ReputationScores) (c : Committee)
    : M (list (AuthorityIndex * N)) :=
  mapP (λ '(index, score),
          i ← expect (Committee_to_authority_index c index) "Should be a valid AuthorityIndex";
          Ret (i, score))
    (zip (N.of_nat <$> seq 0 (length (rs_scores_per_authority rs))) (rs_scores_per_authority rs)).

End ReputationScores.

Record ScoringSubdag : Type := mkScoringSubdag {
  ss_context : Context;
  ss_commit_range : option CommitRange;
  ss_leaders : gset BlockRef;
  ss_votes : gmap BlockRef (StakeAggregator QuorumThreshold);
}.

Section ScoringSubdag.
Context `{Profile}.

Definition ScoringSubdag_new (ctx : Context) : ScoringSubdag := mkScoringSubdag ctx None ∅ ∅.

(** The body of the loop over the ancestors of [block]. *)
Definition score_ancestor (c : Committee) (leaders : gset BlockRef) (block : VerifiedBlock)
    (votes : gmap BlockRef (StakeAggregator QuorumThreshold)) (ancestor : BlockRef)
    : M (gmap BlockRef (StakeAggregator QuorumThreshold)) :=
  if negb (br_round ancestor =? b_round block - 1) then Ret votes
  else
    votes ← (if decide (ancestor ∈ leaders) then
               assert_that (bool_decide (votes !! reference block = None))
                 "Vote already exists. Duplicate vote found for leader";;
               Ret (<[reference block := StakeAggregator_new]> votes)
             else Ret votes);
    match votes !! ancestor with
    | Some stake =>
        '(stake', _) ← StakeAggregator_add stake (b_author block) c;
        Ret (<[ancestor := stake']> votes)
    | None => Ret votes
    end.

Definition score_block (c : Committee) (leaders : gset BlockRef)
    (votes : gmap BlockRef (StakeAggregator QuorumThreshold)) (block : VerifiedBlock)
    : M (gmap BlockRef (StakeAggregator QuorumThreshold)) :=
  foldM (score_ancestor c leaders block) votes (b_ancestors block).

(** The body of the loop over sub-dags. *)
Definition add_subdag (ss : ScoringSubdag) (subdag : CommittedSubDag) : M ScoringSubdag :=
  let index := cr_index (sd_commit_ref subdag) in
  range ← match ss_commit_range ss with
          | Some commit_range => CommitRange_extend_to commit_range index
          | None => Ret (CommitRange_new index index)
          end;
  let leaders := {[sd_leader subdag]} ∪ ss_leaders ss in
  votes ← foldM (score_block (ctx_committee (ss_context ss)) leaders) (ss_votes ss)
            (sd_blocks subdag);
  Ret (mkScoringSubdag (ss_context ss) (Some range) leaders votes).

Definition ScoringSubdag_add_subdags (ss : ScoringSubdag) (subdags : list CommittedSubDag)
    : M ScoringSubdag :=
  foldM add_subdag ss subdags.

Definition ScoringSubdag_distributed_votes_scores (ss : ScoringSubdag) : M (list N) :=
  foldM (λ scores '(vote, stake_agg),
           score ← index scores (br_author vote);
           score' ← u64_add score (sa_stake stake_agg);
           index_update scores (br_author vote) (λ _, score'))
    (replicate (N.to_nat (Committee_size (ctx_committee (ss_context ss)))) 0)
    (bmap_list (ss_votes ss)).

Definition ScoringSubdag_calculate_distributed_vote_scores (ss : ScoringSubdag)
    : M ReputationScores :=
  scores_per_authority ← ScoringSubdag_distributed_votes_scores ss;
  range ← expect (ss_commit_range ss)
            "CommitRange should be set if calculate_scores is called.";
  Ret (ReputationScores_new range scores_per_authority).

Definition ScoringSubdag_scored_subdags_count (ss : ScoringSubdag) : M N :=
  match ss_commit_range ss with
  | Some commit_range => CommitRange_size commit_range
  | None => Ret 0
  end.

Definition ScoringSubdag_is_empty (ss : ScoringSubdag) : bool :=
  bool_decide (ss_leaders ss = ∅) && bool_decide (ss_votes ss = ∅) &&
  bool_decide (ss_commit_range ss = None).

Definition ScoringSubdag_clear (ss : ScoringSubdag) : ScoringSubdag :=
  mkScoringSubdag (ss_context ss) None ∅ ∅.

End ScoringSubdag.
