(* ===== verification/RoundTracker.v ===== *)
(** * The round tracker (consensus/core/src/round_tracker.rs)

    How far the blocks of each authority have reached the others: from the highest
    rounds that the authorities report for one of them, the range of rounds that a
    quorum brackets from below and from above.  Metrics and tracing are left out;
    the subtraction computed for a metric is kept, since it can overflow. *)

From S2P Require Import Prelude BTree Config StakeLists Block.
Local Open Scope N_scope.

(** [ExtendedBlock] of block.rs. *)
Record ExtendedBlock : Type := mkExtendedBlock {
  eb_block : VerifiedBlock;
  eb_excluded_ancestors : list BlockRef;
}.

Definition QuorumRound : Type := Round * Round.

Record RoundTracker : Type := mkRoundTracker {
  rt_context : Context;
  rt_block_accepted_rounds : list (list Round);
  rt_probed_accepted_rounds : list (list Round);
  rt_probed_received_rounds : list (list Round);
  rt_local_highest_received_rounds : list Round;
}.

Section RoundTracker.
Context `{Profile}.
Implicit Types t : RoundTracker.

Definition RoundTracker_new (ctx : Context) (initial_received_rounds : list Round) : M RoundTracker :=
  let size := N.to_nat (Committee_size (ctx_committee ctx)) in
  local ← (if bool_decide (initial_received_rounds = []) then Ret (replicate size 0)
           else assert_that (length initial_received_rounds =? size)%nat
                  "initial_received_rounds must be empty or have the same size as the committee";;
                Ret initial_received_rounds);
  let rounds := replicate size (replicate size 0) in
  Ret (mkRoundTracker ctx rounds rounds rounds local).

(** [m[i][j] = m[i][j].max(round)]. *)
Definition raise_round (m : list (list Round)) (i j : AuthorityIndex) (round : Round) : M (list (list Round)) :=
  row ← index m i;
  row ← index_update row j (λ r, N.max r round);
  index_update m i (λ _, row).

Definition RoundTracker_update_from_verified_block t (extended_block : ExtendedBlock) : M RoundTracker :=
  let block := eb_block extended_block in
  let author := b_author block in
  local ← index_update (rt_local_highest_received_rounds t) author (λ r, N.max r (b_round block));
  accepted ← raise_round (rt_block_accepted_rounds t) author author (b_round block);
  accepted ← foldM (λ m ancestor, raise_round m author (br_author ancestor) (br_round ancestor)) accepted
               (b_ancestors block);
  accepted ← foldM (λ m ancestor, raise_round m author (br_author ancestor) (br_round ancestor)) accepted
               (eb_excluded_ancestors extended_block);
  Ret (mkRoundTracker (rt_context t) accepted (rt_probed_accepted_rounds t) (rt_probed_received_rounds t) local).

Definition RoundTracker_update_from_probe t (accepted_rounds received_rounds : list (list Round)) : RoundTracker :=
  mkRoundTracker (rt_context t) (rt_block_accepted_rounds t) accepted_rounds received_rounds
    (rt_local_highest_received_rounds t).

(** The round at which the accumulated stake reaches a quorum. *)
Fixpoint quorum_loop (c : Committee) (total_stake : Stake) (rounds_with_stake : list (Round * Stake)) : M Round :=
  match rounds_with_stake with
  | [] => Ret 0
  | (round, stake) :: rest =>
      total_stake ← u64_add total_stake stake;
      if Committee_quorum_threshold c <=? total_stake then Ret round else quorum_loop c total_stake rest
  end.

Definition compute_quorum_round (c : Committee) (target_index : AuthorityIndex)
    (highest_rounds : list (list Round)) : M QuorumRound :=
  zipped ← zip_debug_eq highest_rounds (Committee_authorities_iter c);
  rounds_with_stake ← mapP (λ e : list Round * (AuthorityIndex * Authority),
                              round ← index e.1 target_index; Ret (round, Authority_stake e.2.2)) zipped;
  let rounds_with_stake := stable_sort le_ord rounds_with_stake in
  low ← quorum_loop c 0 (reverse rounds_with_stake);
  high ← quorum_loop c 0 rounds_with_stake;
  Ret (low, high).

Definition max_rounds (probed_rounds block_rounds : list Round) : M (list Round) :=
  zipped ← zip_debug_eq probed_rounds block_rounds;
  mapP (λ e : Round * Round, Ret (N.max e.1 e.2)) zipped.

Definition RoundTracker_compute_accepted_quorum_rounds t : M (list QuorumRound) :=
  let c := ctx_committee (rt_context t) in
  zipped ← zip_debug_eq (rt_probed_accepted_rounds t) (rt_block_accepted_rounds t);
  highest_accepted_rounds ← mapP (λ e, max_rounds e.1 e.2) zipped;
  mapP (λ peer : AuthorityIndex * Authority, compute_quorum_round c peer.1 highest_accepted_rounds)
    (Committee_authorities_iter c).

Definition RoundTracker_compute_received_quorum_rounds t : M (list QuorumRound) :=
  let c := ctx_committee (rt_context t) in
  mapP (λ peer : AuthorityIndex * Authority, compute_quorum_round c peer.1 (rt_probed_received_rounds t))
    (Committee_authorities_iter c).

(** The gaps reported by the metrics. *)
Definition quorum_round_gaps t (quorum_rounds : list QuorumRound) : M (list Round) :=
  zipped ← zip_debug_eq quorum_rounds (Committee_authorities_iter (ctx_committee (rt_context t)));
  mapP (λ e : QuorumRound * (AuthorityIndex * Authority), u32_sub e.1.2 e.1.1) zipped.

Definition RoundTracker_calculate_propagation_delay t (last_proposed_round : Round) : M Round :=
  let own_index := ctx_own_index (rt_context t) in
  received_quorum_rounds ← RoundTracker_compute_received_quorum_rounds t;
  accepted_quorum_rounds ← RoundTracker_compute_accepted_quorum_rounds t;
  quorum_round_gaps t received_quorum_rounds;;
  quorum_round_gaps t accepted_quorum_rounds;;
  received ← index received_quorum_rounds own_index;
  accepted ← index accepted_quorum_rounds own_index;
  Ret (N.min (last_proposed_round - received.1) (last_proposed_round - accepted.1)).

End RoundTracker.
