(* ===== verification/RoundTrackerTheory.v ===== *)
(** * What the quorum rounds say

    The quorum round of an authority is the highest round that a quorum has
    reached and the lowest round that a quorum has not passed; faulty authorities
    cannot move it out of the range that the honest ones report. *)

From S2P Require Import Prelude BTree Config StakeLists Block RoundTracker.
Local Open Scope N_scope.

Section QuorumRounds.
Context `{Profile} (c : Committee) (Hwf : Committee_wf c).

(** The range of rounds bracketed by quorums, when authority [i] reports [f i]. *)
Record quorum_range (f : AuthorityIndex → Round) (q : QuorumRound) : Prop := {
  qr_low : is_quorum c (having c f (λ x, q.1 ≤ x));
  qr_low_max : ∀ r, is_quorum c (having c f (λ x, r ≤ x)) → r ≤ q.1;
  qr_high : is_quorum c (having c f (λ x, x ≤ q.2));
  qr_high_min : ∀ r, is_quorum c (having c f (λ x, x ≤ r)) → q.2 ≤ r;
}.

Lemma having_members f P `{!∀ x, base.Decision (P x)} : having c f P ⊆ members c.
Proof using. intros i Hi. by apply having_elem in Hi as [? _]. Qed.

Lemma having_mono f P Q `{!∀ x, base.Decision (P x), !∀ x, base.Decision (Q x)} :
  (∀ x, P x → Q x) → having c f P ⊆ having c f Q.
Proof using. intros HPQ i [? ?]%having_elem. apply having_elem. auto. Qed.

Lemma quorum_loop_spec total l :
  total < Committee_quorum_threshold c → Committee_quorum_threshold c ≤ total + stakes l → total + stakes l < 2 ^ 64 →
  ∃ pre r s post, l = pre ++ (r, s) :: post ∧ quorum_loop c total l = Ret r ∧
    total + stakes pre < Committee_quorum_threshold c ≤ total + stakes pre + s.
Proof using.
  revert total. induction l as [|[r s] l IH]; intros total Ht Hq Hlt; [unfold stakes in Hq; simpl in Hq; lia|].
  rewrite stakes_cons in Hq, Hlt. simpl in Hq, Hlt. cbn [quorum_loop]. arith.
  destruct (N.leb_spec (Committee_quorum_threshold c) (total + s)) as [Hge|Hlt'].
  - exists [], r, s, l. unfold stakes. simpl. split_and!; [done..|lia|lia].
  - destruct (IH (total + s)) as (pre & r' & s' & post & -> & Hl & Hb); [lia..|].
    exists ((r, s) :: pre), r', s', post. rewrite stakes_cons. simpl. split_and!; [done..|lia|lia].
Qed.

Lemma threshold_range f low high :
  after low (weighted c f) < Committee_quorum_threshold c ≤ since low (weighted c f) →
  before high (weighted c f) < Committee_quorum_threshold c ≤ until high (weighted c f) →
  quorum_range f (low, high).
Proof using.
  unfold after, since, before, until. intros [Ha Hs] [Hb Hu].
  pose proof (weighted_filter c f (λ x, low < x)) as E1. pose proof (weighted_filter c f (λ x, low ≤ x)) as E2.
  pose proof (weighted_filter c f (λ x, x < high)) as E3. pose proof (weighted_filter c f (λ x, x ≤ high)) as E4.
  cbn beta in *. rewrite E1 in Ha. rewrite E2 in Hs. rewrite E3 in Hb. rewrite E4 in Hu.
  assert (∀ P Q `{!∀ x, base.Decision (P x), !∀ x, base.Decision (Q x)}, (∀ x, P x → Q x) →
    set_stake c (having c f P) ≤ set_stake c (having c f Q)) as Hmono.
  { intros P Q ? ? HPQ. apply weight_mono, having_mono, HPQ. }
  split; simpl.
  - split; [apply having_members|]. by apply N.leb_le.
  - intros r [_ Hq%N.leb_le]. apply N.le_ngt. intros Hlt.
    pose proof (Hmono (λ x, r ≤ x) (λ x, low < x) _ _ ltac:(cbn beta; intros; lia)). lia.
  - split; [apply having_members|]. by apply N.leb_le.
  - intros r [_ Hq%N.leb_le]. apply N.le_ngt. intros Hlt.
    pose proof (Hmono (λ x, x ≤ r) (λ x, x < high) _ _ ltac:(cbn beta; intros; lia)). lia.
Qed.

(** The value that authority [j] reports for [i]. *)
Definition reported (m : list (list Round)) (i j : AuthorityIndex) : Round :=
  default 0 (m !! N.to_nat j ≫= λ row, row !! N.to_nat i).

(** One row per authority, with one column per authority. *)
Definition square {A} (m : list (list A)) : Prop :=
  length m = length (Committee_authorities c) ∧
  Forall (λ row, length row = length (Committee_authorities c)) m.

Lemma square_row {A} (m : list (list A)) i :
  square m → i ∈ members c →
  ∃ row, m !! N.to_nat i = Some row ∧ length row = length (Committee_authorities c).
Proof using.
  intros [Hl Hr] Hi. apply members_spec in Hi. unfold Committee_is_valid_index, Committee_size in Hi. nbool.
  destruct (lookup_lt_is_Some_2 m (N.to_nat i)) as [row Hrow]; [lia|]. exists row. split; [done|].
  rewrite Forall_forall in Hr. apply Hr. by apply list_elem_of_lookup_2 in Hrow.
Qed.

Lemma row_cell {A} (row : list A) i :
  length row = length (Committee_authorities c) → i ∈ members c → is_Some (row !! N.to_nat i).
Proof using.
  intros Hl Hi. apply members_spec in Hi. unfold Committee_is_valid_index, Committee_size in Hi. nbool.
  apply lookup_lt_is_Some_2. lia.
Qed.

Lemma rounds_with_stake_spec m i :
  square m → i ∈ members c →
  mapP (λ e : list Round * (AuthorityIndex * Authority), round ← index e.1 i; Ret (round, Authority_stake e.2.2))
    (zip m (Committee_authorities_iter c)) = Ret (weighted c (reported m i)).
Proof using.
  intros Hm Hi. rewrite (mapP_pure _ (λ e : list Round * (AuthorityIndex * Authority),
    (default 0 (e.1 !! N.to_nat i), Authority_stake e.2.2))).
  - f_equal. apply list_eq. intros k. unfold weighted, indices. rewrite !list_lookup_fmap.
    destruct (decide (k < length (Committee_authorities c))%nat) as [Hk|Hk].
    + rewrite lookup_seq_lt by done. simpl. unfold Committee_authorities_iter, stake_at, reported. rewrite Nat2N.id.
      destruct Hm as [Hl _]. destruct (lookup_lt_is_Some_2 m k) as [row Hrow]; [lia|].
      destruct (lookup_lt_is_Some_2 _ _ Hk) as [a Ha].
      rewrite (proj2 (lookup_zip_Some m _ k row (N.of_nat k mod 2 ^ 32, a))).
      * simpl. by rewrite Hrow, Ha.
      * split; [done|]. by rewrite list_lookup_imap, Ha.
    + rewrite lookup_seq_ge by lia. simpl. rewrite lookup_ge_None_2; [done|].
      rewrite length_zip_with. destruct Hm as [-> _]. unfold Committee_authorities_iter. rewrite length_imap. lia.
  - intros [row [k a]] Hin%elem_of_zip_l. simpl. destruct Hm as [_ Hr]. rewrite Forall_forall in Hr.
    destruct (row_cell row i (Hr _ Hin) Hi) as [r Hrow]. rewrite (proj2 (index_Ret _ _ _) Hrow), Hrow. done.
Qed.

Lemma le_ord_fst (a b : N * N) : le_ord a b = true → (a.1 <=? b.1) = true.
Proof using.
  destruct a as [a a'], b as [b b']. unfold le_ord, cmp, Ord_prod, lex, cmp, Ord_N. simpl.
  rewrite N.leb_le. destruct (N.compare_spec a b); try done; lia.
Qed.

Lemma weighted_sorted f :
  let l := stable_sort le_ord (weighted c f) in
  StronglySorted (λ a b : N * Stake, (a.1 <=? b.1) = true) l ∧ l ≡ₚ weighted c f.
Proof using.
  split; [|apply stable_sort_perm].
  eapply StronglySorted_weaken; [|apply stable_sort_sorted; [intros; apply le_ord_total|intros ? ? ?; apply le_ord_trans]].
  apply le_ord_fst.
Qed.

Lemma compute_quorum_round_spec m i :
  square m → i ∈ members c →
  ∃ q, compute_quorum_round c i m = Ret q ∧ quorum_range (reported m i) q.
Proof using Hwf.
  intros Hm Hi. unfold compute_quorum_round.
  rewrite zip_debug_eq_exact by (destruct Hm as [-> _]; unfold Committee_authorities_iter; by rewrite length_imap).
  cbn [mbind M_bind]. rewrite rounds_with_stake_spec by done. cbn [mbind M_bind].
  destruct (weighted_sorted (reported m i)) as [Hs Hp]. set (l := stable_sort le_ord _) in *.
  assert (stakes l = Committee_total_stake c) as Htot.
  { rewrite Hp, stakes_weighted, set_stake_members. by rewrite (wf_total c Hwf). }
  pose proof (wf_total_u64 c Hwf). pose proof (wf_quorum_pos c Hwf). pose proof (wf_quorum_reachable c Hwf).
  destruct (quorum_loop_spec 0 (reverse l)) as (post & low & s & pre & Hrev & -> & Hlow);
    [lia|rewrite reverse_Permutation; lia..|].
  cbn [mbind M_bind]. destruct (quorum_loop_spec 0 l) as (pre' & high & s' & post' & Heq & -> & Hhigh); [lia..|].
  cbn [mbind M_bind]. exists (low, high). split; [done|].
  assert (l = reverse pre ++ (low, s) :: reverse post) as Heq'.
  { rewrite <- (reverse_involutive l), Hrev, reverse_app, reverse_cons, <- app_assoc. done. }
  apply threshold_range; unfold after, since, before, until; rewrite <- !Hp.
  - rewrite Heq' in Hs. apply sorted_split_rev in Hs. rewrite <- Heq' in Hs. unfold after, since in Hs.
    rewrite !(reverse_Permutation post) in Hs. lia.
  - rewrite Heq in Hs. apply sorted_split in Hs. rewrite <- Heq in Hs. unfold before, until in Hs. lia.
Qed.

(** ** What faulty authorities can do *)

(** The members outside a set that is no quorum outweigh the faulty ones. *)
Lemma non_quorum_honest s byz :
  s ⊆ members c → ¬ is_quorum c s → set_stake c byz < Committee_validity_threshold c →
  ∃ i, i ∈ members c ∧ i ∉ s ∧ i ∉ byz.
Proof using Hwf.
  intros Hs Hq Hb. destruct (weight_pos_inhabited (stake_at c) (members c ∖ (s ∪ byz))) as [i Hi]; [|exists i; set_solver].
  assert (set_stake c s < Committee_quorum_threshold c) as Hlt.
  { apply N.lt_nge. intros Hge. apply Hq. split; [done|]. by apply N.leb_le. }
  pose proof (wf_available c Hwf). pose proof (wf_total c Hwf) as Ht. rewrite <- set_stake_members in Ht.
  pose proof (weight_split (stake_at c) (members c) (s ∪ byz)).
  pose proof (weight_mono (stake_at c) (members c ∩ (s ∪ byz)) (s ∪ byz) ltac:(set_solver)).
  pose proof (weight_union_inter (stake_at c) s byz). unfold set_stake in *. lia.
Qed.

(** With less than the validity threshold faulty, the range lies between two
    honest reports. *)
Lemma quorum_range_honest f q byz :
  quorum_range f q → set_stake c byz < Committee_validity_threshold c →
  q.1 ≤ q.2 ∧
  (∃ i, i ∈ members c ∧ i ∉ byz ∧ f i ≤ q.1) ∧ (∃ i, i ∈ members c ∧ i ∉ byz ∧ q.2 ≤ f i).
Proof using Hwf.
  intros [H1 H2 H3 H4] Hb. split_and!.
  - destruct (quorum_honest_witness c _ _ ∅ Hwf H1 H3) as (i & Hi1%having_elem & Hi2%having_elem & _);
      [unfold set_stake; rewrite weight_empty; lia|]. lia.
  - destruct (non_quorum_honest (having c f (λ x, q.1 < x)) byz) as (i & Hi & Hn & ?); [apply having_members| |done|].
    { intros Hq. specialize (H2 (q.1 + 1)). assert (q.1 + 1 ≤ q.1); [|lia]. apply H2.
      eapply is_quorum_mono; [exact Hq| |apply having_members]. apply having_mono. intros; lia. }
    exists i. split_and!; [done..|]. apply N.le_ngt. intros Hlt. apply Hn, having_elem. done.
  - destruct (non_quorum_honest (having c f (λ x, x < q.2)) byz) as (i & Hi & Hn & ?); [apply having_members| |done|].
    { intros Hq. destruct (decide (q.2 = 0)) as [Hz|Hz].
      - destruct Hq as [_ Hq%N.leb_le]. pose proof (wf_quorum_pos c Hwf).
        destruct (weight_pos_inhabited (stake_at c) (having c f (λ x, x < q.2))) as [j Hj%having_elem];
          [unfold set_stake in Hq; lia|]. lia.
      - specialize (H4 (q.2 - 1)). assert (q.2 ≤ q.2 - 1); [|lia]. apply H4.
        eapply is_quorum_mono; [exact Hq| |apply having_members]. apply having_mono. intros; lia. }
    exists i. split_and!; [done..|]. apply N.le_ngt. intros Hlt. apply Hn, having_elem. done.
Qed.

End QuorumRounds.

(** ** The tracker *)

Section RoundTrackerTheory.
Context `{Profile}.
Implicit Types t : RoundTracker.

Record rt_ok t : Prop := {
  rto_wf : Committee_wf (ctx_committee (rt_context t));
  rto_block : square (ctx_committee (rt_context t)) (rt_block_accepted_rounds t);
  rto_accepted : square (ctx_committee (rt_context t)) (rt_probed_accepted_rounds t);
  rto_received : square (ctx_committee (rt_context t)) (rt_probed_received_rounds t);
  rto_local : length (rt_local_highest_received_rounds t) = length (Committee_authorities (ctx_committee (rt_context t)));
}.

(** The highest round of [i] that [j] is known to have accepted. *)
Definition accepted_round t (i j : AuthorityIndex) : Round :=
  N.max (reported (rt_probed_accepted_rounds t) i j) (reported (rt_block_accepted_rounds t) i j).

Lemma zip_with_pairs {A B C} (f : A → B → C) l k : (λ e, f e.1 e.2) <$> zip l k = zip_with f l k.
Proof. revert k. induction l as [|x l IH]; intros [|y k]; csimpl; [done..|]. by rewrite IH. Qed.

Lemma square_zip c (m m' : list (list Round)) :
  square c m → square c m' →
  mapP (λ e, max_rounds e.1 e.2) (zip m m') = Ret (zip_with (zip_with N.max) m m') ∧
  square c (zip_with (zip_with N.max) m m') ∧
  ∀ i j, reported (zip_with (zip_with N.max) m m') i j = N.max (reported m i j) (reported m' i j).
Proof.
  intros [Hl Hr] [Hl' Hr']. rewrite Forall_forall in Hr, Hr'. split_and!.
  - rewrite (mapP_pure _ (λ e, zip_with N.max e.1 e.2)).
    + f_equal. apply zip_with_pairs.
    + intros [p b] Hin. pose proof (elem_of_zip_l _ _ _ _ Hin) as Hp. pose proof (elem_of_zip_r _ _ _ _ Hin) as Hb.
      unfold max_rounds. simpl. rewrite zip_debug_eq_exact by (by rewrite Hr, Hr'). cbn [mbind M_bind].
      rewrite (mapP_pure _ (λ e : Round * Round, N.max e.1 e.2)) by done.
      f_equal. apply zip_with_pairs.
  - split; [rewrite length_zip_with; lia|]. rewrite Forall_forall. intros row Hrow.
    apply elem_of_lookup_zip_with in Hrow as (k & p & b & -> & Hp & Hb).
    rewrite length_zip_with, (Hr p), (Hr' b) by (by eapply list_elem_of_lookup_2). lia.
  - intros i j. unfold reported. rewrite lookup_zip_with.
    destruct (m !! N.to_nat j) as [p|] eqn:Hp; simpl.
    + destruct (lookup_lt_is_Some_2 m' (N.to_nat j)) as [b Hb]; [apply lookup_lt_Some in Hp; lia|]. rewrite Hb. simpl.
      rewrite lookup_zip_with. assert (length p = length b) as Hpb.
      { rewrite (Hr p), (Hr' b) by (by eapply list_elem_of_lookup_2). done. }
      destruct (p !! N.to_nat i) as [x|] eqn:Hx; simpl.
      * destruct (lookup_lt_is_Some_2 b (N.to_nat i)) as [y Hy]; [apply lookup_lt_Some in Hx; lia|]. by rewrite Hy.
      * apply lookup_ge_None_1 in Hx. by rewrite lookup_ge_None_2 by lia.
    + apply lookup_ge_None_1 in Hp. by rewrite lookup_ge_None_2 by lia.
Qed.

(** One quorum round per authority. *)
Definition quorum_rounds_of (c : Committee) (f : AuthorityIndex → AuthorityIndex → Round) (l : list QuorumRound) : Prop :=
  length l = length (Committee_authorities c) ∧
  ∀ i, i ∈ members c → ∃ q, l !! N.to_nat i = Some q ∧ quorum_range c (f i) q.

Lemma compute_all_spec c m :
  Committee_wf c → square c m →
  ∃ l, mapP (λ peer : AuthorityIndex * Authority, compute_quorum_round c peer.1 m) (Committee_authorities_iter c) = Ret l ∧
    quorum_rounds_of c (reported m) l.
Proof.
  intros Hwf Hm.
  assert (∀ k a, Committee_authorities c !! k = Some a → N.of_nat k ∈ members c ∧ N.of_nat k mod 2 ^ 32 = N.of_nat k) as Hk.
  { intros k a Ha%lookup_lt_Some. pose proof (wf_size c Hwf). unfold Committee_size in *.
    rewrite members_spec. unfold Committee_is_valid_index, Committee_size. split; [apply N.ltb_lt; lia|].
    apply N.mod_small. lia. }
  destruct (mapP_returns (λ peer : AuthorityIndex * Authority, compute_quorum_round c peer.1 m) (Committee_authorities_iter c))
    as [l Hl].
  { intros [i a] (k & Hin)%list_elem_of_lookup. unfold Committee_authorities_iter in Hin.
    rewrite list_lookup_imap in Hin. destruct (Committee_authorities c !! k) as [a'|] eqn:Ha; [|done].
    simpl in Hin. injection Hin as <- <-. destruct (Hk k a' Ha) as [Hi Heq]. simpl. rewrite Heq.
    destruct (compute_quorum_round_spec c Hwf m (N.of_nat k) Hm Hi) as (q & -> & _). by exists q. }
  exists l. split; [done|]. apply mapP_Forall2 in Hl. pose proof (Forall2_length _ _ _ Hl) as Hlen.
  unfold Committee_authorities_iter in Hlen. rewrite length_imap in Hlen. split; [done|]. intros i Hi.
  pose proof Hi as Hi'. apply members_spec in Hi'. unfold Committee_is_valid_index, Committee_size in Hi'. nbool.
  destruct (lookup_lt_is_Some_2 (Committee_authorities c) (N.to_nat i)) as [a Ha]; [lia|].
  destruct (Forall2_lookup_l _ _ _ (N.to_nat i) (N.of_nat (N.to_nat i) mod 2 ^ 32, a) Hl) as (q & Hq & Hqr).
  { unfold Committee_authorities_iter. by rewrite list_lookup_imap, Ha. }
  destruct (Hk _ _ Ha) as [_ Hmod]. simpl in Hqr. rewrite Hmod, N2Nat.id in Hqr.
  destruct (compute_quorum_round_spec c Hwf m i Hm Hi) as (q' & Hq' & Hrange).
  exists q. split; [done|]. rewrite Hq' in Hqr. by injection Hqr as <-.
Qed.

Lemma quorum_rounds_ext c f g l :
  (∀ i j, f i j = g i j) → quorum_rounds_of c f l → quorum_rounds_of c g l.
Proof.
  intros Hfg [Hl Hq]. split; [done|]. intros i Hi. destruct (Hq i Hi) as (q & Hlq & [H1 H2 H3 H4]). exists q. split; [done|].
  assert (∀ P `{!∀ x, base.Decision (P x)}, having c (g i) P = having c (f i) P) as Hh.
  { intros P ?. apply set_eq. intros j. rewrite !having_elem. by rewrite Hfg. }
  split; intros *; rewrite ?Hh; auto.
Qed.

Lemma compute_accepted_spec t :
  rt_ok t → ∃ l, RoundTracker_compute_accepted_quorum_rounds t = Ret l ∧
    quorum_rounds_of (ctx_committee (rt_context t)) (accepted_round t) l.
Proof.
  intros [Hwf Hb Ha Hr Hl]. unfold RoundTracker_compute_accepted_quorum_rounds.
  rewrite zip_debug_eq_exact by (destruct Ha as [-> _], Hb as [-> _]; done). cbn [mbind M_bind].
  destruct (square_zip _ _ _ Ha Hb) as (-> & Hsq & Hrep). cbn [mbind M_bind].
  destruct (compute_all_spec _ _ Hwf Hsq) as (l & -> & Hq). exists l. split; [done|].
  eapply quorum_rounds_ext; [|exact Hq]. exact Hrep.
Qed.

Lemma RoundTracker_new_ok ctx initial :
  Committee_wf (ctx_committee ctx) →
  initial = [] ∨ length initial = length (Committee_authorities (ctx_committee ctx)) →
  ∃ t, RoundTracker_new ctx initial = Ret t ∧ rt_ok t ∧ rt_context t = ctx.
Proof.
  intros Hwf Hini. unfold RoundTracker_new, Committee_size. rewrite Nat2N.id.
  set (n := length (Committee_authorities (ctx_committee ctx))) in *. assert (square (ctx_committee ctx) (replicate n (replicate n 0))) as Hsq.
  { split; [apply length_replicate|]. apply Forall_replicate, length_replicate. }
  case_bool_decide as Hnil; cbn [mbind M_bind].
  - eexists. split; [done|]. split; [|done]. split; simpl; try done. apply length_replicate.
  - destruct Hini as [?|Hlen]; [done|]. rewrite Hlen, Nat.eqb_refl. cbn [assert_that mbind M_bind].
    eexists. split; [done|]. split; [|done]. by split.
Qed.

(** ** Updates *)

Lemma raise_round_spec c m i j r :
  square c m → i ∈ members c → j ∈ members c →
  ∃ m', raise_round m i j r = Ret m' ∧ square c m' ∧
    ∀ a b, reported m' a b = if decide (a = j ∧ b = i) then N.max (reported m a b) r else reported m a b.
Proof.
  intros Hm Hi Hj. destruct (square_row c m i Hm Hi) as (row & Hrow & Hlen).
  destruct (row_cell c row j Hlen Hj) as [x Hx]. unfold raise_round.
  rewrite (proj2 (index_Ret _ _ _) Hrow). cbn [mbind M_bind]. unfold index_update. rewrite Hx. cbn [mbind M_bind].
  rewrite Hrow. eexists. split; [done|]. pose proof (lookup_lt_Some _ _ _ Hrow). pose proof (lookup_lt_Some _ _ _ Hx).
  destruct Hm as [Hl Hr]. split; [split|].
  - by rewrite length_insert.
  - apply Forall_insert; [done|]. by rewrite length_insert.
  - intros a b. unfold reported. destruct (decide (b = i)) as [->|Hne].
    + rewrite list_lookup_insert_eq, Hrow by done. simpl. destruct (decide (a = j)) as [->|Hna].
      * rewrite list_lookup_insert_eq, Hx by done. by rewrite decide_True.
      * rewrite list_lookup_insert_ne by lia. rewrite decide_False by tauto. done.
    + rewrite list_lookup_insert_ne by lia. by rewrite decide_False by tauto.
Qed.

(** The rounds of [refs] are noted as accepted by [i]. *)
Definition notes (m m' : list (list Round)) (i : AuthorityIndex) (refs : list BlockRef) : Prop :=
  (∀ a b, reported m a b ≤ reported m' a b) ∧ (∀ a b, b ≠ i → reported m' a b = reported m a b) ∧
  (∀ r, r ∈ refs → br_round r ≤ reported m' (br_author r) i) ∧
  ∀ a, reported m' a i = reported m a i ∨ ∃ r, r ∈ refs ∧ br_author r = a ∧ reported m' a i = br_round r.

Lemma raise_rounds_spec c i refs m :
  square c m → i ∈ members c → (∀ r, r ∈ refs → br_author r ∈ members c) →
  ∃ m', foldM (λ m r, raise_round m i (br_author r) (br_round r)) m refs = Ret m' ∧ square c m' ∧ notes m m' i refs.
Proof.
  intros Hm Hi. revert m Hm. induction refs as [|r refs IH]; intros m Hm Hrefs; cbn [foldM].
  { exists m. split_and!; [done..|]. split_and!; [lia|done| |by left]. intros r Hr. by apply not_elem_of_nil in Hr. }
  destruct (raise_round_spec c m i (br_author r) (br_round r) Hm Hi) as (m1 & -> & Hm1 & Hr1); [apply Hrefs; left|].
  cbn [mbind M_bind]. destruct (IH m1 Hm1) as (m2 & -> & Hm2 & N1 & N2 & N3 & N4); [intros; apply Hrefs; by right|].
  exists m2. split_and!; [done..|]. split_and!.
  - intros a b. etrans; [|apply N1]. rewrite Hr1. case_decide; lia.
  - intros a b Hb. rewrite N2, Hr1 by done. rewrite decide_False by tauto. done.
  - intros r' [->|Hr']%list.elem_of_cons; [|by apply N3]. etrans; [|apply N1].
    rewrite Hr1, decide_True by done. lia.
  - intros a. destruct (N4 a) as [Heq|(r' & Hr' & Ha & Heq)]; [|right; exists r'; split_and!; [by right|done..]].
    rewrite Hr1 in Heq. case_decide as Hd; [|by left]. destruct Hd as [-> _].
    destruct (N.max_spec (reported m (br_author r) i) (br_round r)) as [[_ Hmax]|[_ Hmax]]; rewrite Hmax in Heq;
      [right; exists r; split_and!; [left|done..]|by left].
Qed.

Lemma update_from_verified_block_spec t eb :
  let c := ctx_committee (rt_context t) in
  let b := eb_block eb in
  rt_ok t → b_author b ∈ members c →
  (∀ r, r ∈ b_ancestors b ++ eb_excluded_ancestors eb → br_author r ∈ members c) →
  ∃ t', RoundTracker_update_from_verified_block t eb = Ret t' ∧ rt_ok t' ∧ rt_context t' = rt_context t ∧
    notes (rt_block_accepted_rounds t) (rt_block_accepted_rounds t') (b_author b)
      (reference b :: b_ancestors b ++ eb_excluded_ancestors eb).
Proof.
  intros c b [Hwf Hb Ha Hr Hl] Hauth Hrefs. unfold RoundTracker_update_from_verified_block. fold b.
  destruct (row_cell c (rt_local_highest_received_rounds t) (b_author b) Hl Hauth) as [x Hx].
  unfold index_update at 1. rewrite Hx. cbn [mbind M_bind].
  destruct (raise_rounds_spec c (b_author b) (reference b :: b_ancestors b ++ eb_excluded_ancestors eb)
    (rt_block_accepted_rounds t) Hb Hauth) as (m' & Hm' & Hsq & Hn).
  { intros r [->|Hin]%list.elem_of_cons; [done|by apply Hrefs]. }
  cbn [foldM] in Hm'. apply bind_Ret in Hm' as (m1 & Hm1 & Hm'). rewrite foldM_app in Hm'.
  apply bind_Ret in Hm' as (m2 & Hm2 & Hm').
  change (raise_round (rt_block_accepted_rounds t) (b_author b) (b_author b) (b_round b) = Ret m1) in Hm1.
  rewrite Hm1. cbn [mbind M_bind]. rewrite Hm2. cbn [mbind M_bind]. rewrite Hm'. cbn [mbind M_bind].
  eexists. split; [done|]. split_and!; [|done..|by apply Hn]. split; simpl; [done..|]. by rewrite length_insert.
Qed.

(** ** Propagation delay *)

Lemma quorum_round_gaps_returns t f l :
  let c := ctx_committee (rt_context t) in
  Committee_wf c → 0 < Committee_validity_threshold c → quorum_rounds_of c f l →
  ∃ gaps, quorum_round_gaps t l = Ret gaps.
Proof.
  intros c Hwf Hv [Hl Hq]. unfold quorum_round_gaps. fold c.
  rewrite zip_debug_eq_exact by (unfold Committee_authorities_iter; by rewrite length_imap). cbn [mbind M_bind].
  apply mapP_returns. intros [q [i a]] (k & Hk)%list_elem_of_lookup. apply lookup_zip_Some in Hk as [Hk Ha].
  destruct (Hq (N.of_nat k)) as (q' & Hq' & Hrange).
  { apply members_spec. unfold Committee_is_valid_index, Committee_size. apply N.ltb_lt.
    apply lookup_lt_Some in Hk. lia. }
  rewrite Nat2N.id, Hk in Hq'. injection Hq' as <-.
  destruct (quorum_range_honest c Hwf (f (N.of_nat k)) q ∅ Hrange) as [Hle _];
    [unfold set_stake; rewrite weight_empty; done|].
  simpl. rewrite int_sub_exact by done. by eexists.
Qed.

(** C38: the quorum rounds are Byzantine fault tolerant.  From the rounds that each
    authority is known to have accepted, [compute_accepted_quorum_rounds] returns,
    for every authority, the highest round that a quorum has reached and the lowest
    round that a quorum has not passed; the first is at most the second, and with
    less than the validity threshold of stake faulty both lie between rounds
    reported by honest authorities.  The propagation delay computed from them never
    overflows. *)
Theorem RoundTracker_quorum_rounds_bft t last :
  let c := ctx_committee (rt_context t) in
  rt_ok t → 0 < Committee_validity_threshold c → ctx_own_index (rt_context t) ∈ members c →
  ∃ l delay, RoundTracker_compute_accepted_quorum_rounds t = Ret l ∧
    RoundTracker_calculate_propagation_delay t last = Ret delay ∧ delay ≤ last ∧
    ∀ i, i ∈ members c → ∃ low high, l !! N.to_nat i = Some (low, high) ∧
      is_quorum c (having c (accepted_round t i) (λ r, low ≤ r)) ∧
      (∀ r, is_quorum c (having c (accepted_round t i) (λ x, r ≤ x)) → r ≤ low) ∧
      is_quorum c (having c (accepted_round t i) (λ r, r ≤ high)) ∧
      (∀ r, is_quorum c (having c (accepted_round t i) (λ x, x ≤ r)) → high ≤ r) ∧
      ∀ byz, set_stake c byz < Committee_validity_threshold c →
        ∃ j k, j ∈ members c ∖ byz ∧ k ∈ members c ∖ byz ∧
          accepted_round t i j ≤ low ∧ low ≤ high ∧ high ≤ accepted_round t i k.
Proof.
  intros c Hok Hv Hown. pose proof (rto_wf t Hok) as Hwf.
  destruct (compute_accepted_spec t Hok) as (l & Hl & Hq). destruct (compute_all_spec c _ Hwf (rto_received t Hok)) as (l' & Hl' & Hq').
  destruct (quorum_round_gaps_returns t _ l Hwf Hv Hq) as [g Hg].
  destruct (quorum_round_gaps_returns t _ l' Hwf Hv Hq') as [g' Hg'].
  destruct Hq as [Hlen Hq]. destruct Hq' as [Hlen' Hq'].
  destruct (Hq _ Hown) as (q & Hqo & _), (Hq' _ Hown) as (q' & Hqo' & _).
  exists l, (N.min (last - q'.1) (last - q.1)). split_and!; [done| |lia|].
  - unfold RoundTracker_calculate_propagation_delay, RoundTracker_compute_received_quorum_rounds. fold c.
    rewrite Hl'. cbn [mbind M_bind]. rewrite Hl. cbn [mbind M_bind]. rewrite Hg'. cbn [mbind M_bind]. rewrite Hg.
    cbn [mbind M_bind]. rewrite (proj2 (index_Ret _ _ _) Hqo'). cbn [mbind M_bind].
    rewrite (proj2 (index_Ret _ _ _) Hqo). done.
  - intros i Hi. destruct (Hq i Hi) as ([low high] & Hi' & Hrange). exists low, high. pose proof Hrange as [R1 R2 R3 R4].
    split_and!; [done..|]. intros byz Hb.
    destruct (quorum_range_honest c Hwf _ _ byz Hrange Hb) as (Hle & (j & ? & ? & ?) & (k & ? & ? & ?)).
    exists j, k. rewrite !elem_of_difference. done.
Qed.

End RoundTrackerTheory.

Lemma RoundTracker_quorum_rounds_bft_witness :
  ∃ t l delay, RoundTracker_new sample_context [] = Ret t ∧
    RoundTracker_compute_accepted_quorum_rounds (H := debug_profile) t = Ret l ∧
    RoundTracker_calculate_propagation_delay (H := debug_profile) t 5 = Ret delay.
Proof.
  destruct (RoundTracker_new_ok sample_context [] sample_committee_wf (or_introl eq_refl))
    as (t & Ht & Hok & Hctx).
  destruct (RoundTracker_quorum_rounds_bft (H := debug_profile) t 5 Hok
    ltac:(rewrite Hctx; vm_compute; reflexivity) ltac:(rewrite Hctx; by_eval)) as (l & delay & Hl & Hd & _).
  exists t, l, delay. split; [exact Ht|]. split; [exact Hl|exact Hd].
Defined.
