(* ===== verification/AncestorState.v ===== *)
(** * Ancestor states (consensus/core/src/ancestor.rs)

    Which authorities' blocks a proposal leaves out: those with low propagation
    scores, within a bound on their joint stake, each change being locked for a
    number of rounds.  Logs and the metric of changes are left out; the lookup of
    the host name for it, which panics on an unknown authority, is kept. *)

From S2P Require Import Prelude BTree Config StakeLists Block Commit LeaderScoring RoundTracker.
Local Open Scope N_scope.

Inductive AncestorState : Type :=
| Include
| Exclude (score : N).

Record AncestorInfo : Type := mkAncestorInfo {
  ai_state : AncestorState;
  ai_lock_until_round : Round;
}.

Definition AncestorInfo_new : AncestorInfo := mkAncestorInfo Include 0.

Definition AncestorInfo_is_locked (info : AncestorInfo) (current_clock_round : Round) : bool :=
  current_clock_round <=? ai_lock_until_round info.

Record StateTransition : Type := mkStateTransition {
  tr_authority_id : AuthorityIndex;
  tr_score : N;
  tr_stake : Stake;
  tr_high_quorum_round : Round;
}.

(** The DAG state of the manager is only read for the round of its threshold
    clock, which is an argument below. *)
Record AncestorStateManager : Type := mkAncestorStateManager {
  am_context : Context;
  am_state_map : list AncestorInfo;
  am_excluded_nodes_stake_threshold : Stake;
  am_total_excluded_stake : Stake;
  am_propagation_scores : ReputationScores;
}.

Definition STATE_LOCK_CLOCK_ROUNDS : Round := 450.
Definition SCORE_EXCLUSION_THRESHOLD_PERCENTAGE : N := 20.

Section AncestorStateManager.
Context `{Profile}.
Implicit Types m : AncestorStateManager.

Definition AncestorStateManager_new (ctx : Context) : M AncestorStateManager :=
  double ← u64_mul 2 (pc_bad_nodes_stake_threshold (ctx_protocol_config ctx));
  let percentage := double / 3 in
  scaled ← u64_mul percentage (Committee_total_stake (ctx_committee ctx));
  Ret (mkAncestorStateManager ctx (replicate (N.to_nat (Committee_size (ctx_committee ctx))) AncestorInfo_new)
         (scaled / 100) 0 ReputationScores_default).

Definition AncestorStateManager_set_propagation_scores m (scores : ReputationScores) : AncestorStateManager :=
  mkAncestorStateManager (am_context m) (am_state_map m) (am_excluded_nodes_stake_threshold m)
    (am_total_excluded_stake m) scores.

Definition AncestorStateManager_get_ancestor_states m : list AncestorState := ai_state <$> am_state_map m.

Definition AncestorStateManager_calculate_network_high_quorum_round m (accepted_quorum_rounds : list QuorumRound)
    : M Round :=
  let c := ctx_committee (am_context m) in
  zipped ← zip_debug_eq accepted_quorum_rounds (Committee_authorities_iter c);
  high_quorum_rounds_with_stake ←
    mapP (λ e : QuorumRound * (AuthorityIndex * Authority), Ret (e.1.2, Authority_stake e.2.2)) zipped;
  quorum_loop c 0 (stable_sort le_ord high_quorum_rounds_with_stake).

Definition AncestorStateManager_apply_state_change m (transition : StateTransition) (new_state : AncestorState)
    (current_clock_round : Round) : M AncestorStateManager :=
  Committee_authority (ctx_committee (am_context m)) (tr_authority_id transition);;
  info ← index (am_state_map m) (tr_authority_id transition);
  total ← match ai_state info, new_state with
          | Exclude _, Include =>
              expect (if tr_stake transition <=? am_total_excluded_stake m
                      then Some (am_total_excluded_stake m - tr_stake transition) else None)
                "total_excluded_stake underflow - trying to subtract more stake than we're tracking as excluded"
          | Include, Exclude _ => u64_add (am_total_excluded_stake m) (tr_stake transition)
          | _, _ => Panic (Explicit "Calls to this function should only be made for state transition.")
          end;
  lock_until_round ← u32_add current_clock_round STATE_LOCK_CLOCK_ROUNDS;
  state_map ← index_update (am_state_map m) (tr_authority_id transition)
                (λ _, mkAncestorInfo new_state lock_until_round);
  Ret (mkAncestorStateManager (am_context m) state_map (am_excluded_nodes_stake_threshold m) total
         (am_propagation_scores m)).

(** The body of the loop over the scores: the transitions to the include state
    and to the exclude state. *)
Definition collect_transition m (accepted_quorum_rounds : list QuorumRound)
    (network_high_quorum_round current_clock_round : Round) (low_score_threshold : N)
    (acc : list StateTransition * list StateTransition) (entry : nat * N)
    : M (list StateTransition * list StateTransition) :=
  let '(exclude_to_include, include_to_exclude) := acc in
  let '(idx, score) := entry in
  authority_id ← expect (Committee_to_authority_index (ctx_committee (am_context m)) (N.of_nat idx))
                   "Index should be valid";
  info ← index (am_state_map m) (N.of_nat idx);
  quorum_round ← index accepted_quorum_rounds (N.of_nat idx);
  authority ← Committee_authority (ctx_committee (am_context m)) authority_id;
  let transition := mkStateTransition authority_id score (Authority_stake authority) quorum_round.2 in
  if AncestorInfo_is_locked info current_clock_round then Ret acc
  else
    match ai_state info with
    | Include => if score <=? low_score_threshold
                 then Ret (exclude_to_include, include_to_exclude ++ [transition]) else Ret acc
    | Exclude _ => if (low_score_threshold <? score) || (network_high_quorum_round <=? quorum_round.2)
                   then Ret (exclude_to_include ++ [transition], include_to_exclude) else Ret acc
    end.

Definition exclude_step (current_clock_round : Round) m (transition : StateTransition) : M AncestorStateManager :=
  total ← u64_add (am_total_excluded_stake m) (tr_stake transition);
  if total <=? am_excluded_nodes_stake_threshold m
  then AncestorStateManager_apply_state_change m transition (Exclude (tr_score transition)) current_clock_round
  else Ret m.

Definition AncestorStateManager_update_all_ancestors_state m (current_clock_round : Round)
    (accepted_quorum_rounds : list QuorumRound) : M AncestorStateManager :=
  network_high_quorum_round ← AncestorStateManager_calculate_network_high_quorum_round m accepted_quorum_rounds;
  scaled ← u64_mul (ReputationScores_highest_score (am_propagation_scores m)) SCORE_EXCLUSION_THRESHOLD_PERCENTAGE;
  let low_score_threshold := scaled / 100 in
  '(exclude_to_include, include_to_exclude) ←
    foldM (collect_transition m accepted_quorum_rounds network_high_quorum_round current_clock_round low_score_threshold)
      ([], []) (imap pair (rs_scores_per_authority (am_propagation_scores m)));
  m ← foldM (λ m transition, AncestorStateManager_apply_state_change m transition Include current_clock_round)
        m exclude_to_include;
  foldM (exclude_step current_clock_round) m
    (stable_sort (λ a b, tr_score a <=? tr_score b) include_to_exclude).

End AncestorStateManager.
