(* ===== verification/AncestorStateTheory.v ===== *)
(** * The stake left out of proposals is bounded

    The manager of ancestor states keeps the exact stake of the excluded
    authorities, never above its threshold, and changes a state only for the
    documented reasons and never while it is locked. *)

From S2P Require Import Prelude BTree Config StakeLists Block Commit LeaderScoring RoundTracker RoundTrackerTheory.
From S2P Require Import AncestorState.
Local Open Scope N_scope.

Definition state_excluded (state : AncestorState) : bool := match state with Include => false | Exclude _ => true end.

Section AncestorStateTheory.
Context `{Profile}.
Implicit Types m : AncestorStateManager.
Implicit Types tr : StateTransition.

Abbreviation committee m := (ctx_committee (am_context m)).

Definition excluded_in (map : list AncestorInfo) (i : AuthorityIndex) : bool :=
  from_option (λ info, state_excluded (ai_state info)) false (map !! N.to_nat i).

(** The authorities that are excluded. *)
Definition excluded_set c (map : list AncestorInfo) : gset AuthorityIndex :=
  filter (λ i, excluded_in map i = true) (members c).

Record asm_ok m : Prop := {
  ao_wf : Committee_wf (committee m);
  ao_len : length (am_state_map m) = length (Committee_authorities (committee m));
  ao_total : am_total_excluded_stake m = set_stake (committee m) (excluded_set (committee m) (am_state_map m));
  ao_bound : am_total_excluded_stake m ≤ am_excluded_nodes_stake_threshold m;
  ao_threshold : am_excluded_nodes_stake_threshold m ≤ Committee_total_stake (committee m);
}.

Lemma excluded_set_elem c map i : i ∈ excluded_set c map ↔ i ∈ members c ∧ excluded_in map i = true.
Proof using. unfold excluded_set. rewrite elem_of_filter. tauto. Qed.

Lemma excluded_insert map i j info :
  (N.to_nat i < length map)%nat →
  excluded_in (<[N.to_nat i := info]> map) j
  = if decide (j = i) then state_excluded (ai_state info) else excluded_in map j.
Proof using.
  intros Hi. unfold excluded_in. destruct (decide (j = i)) as [->|Hne].
  - by rewrite list_lookup_insert_eq.
  - by rewrite list_lookup_insert_ne by lia.
Qed.

(** Excluding or including one authority. *)
Lemma excluded_set_insert c map i info :
  (N.to_nat i < length map)%nat → i ∈ members c →
  excluded_set c (<[N.to_nat i := info]> map)
  = if state_excluded (ai_state info) then {[i]} ∪ excluded_set c map else excluded_set c map ∖ {[i]}.
Proof using.
  intros Hlt Hi. apply set_eq. intros j. rewrite excluded_set_elem, excluded_insert by done.
  destruct (decide (j = i)) as [->|Hne], (state_excluded (ai_state info));
    rewrite ?elem_of_union, ?elem_of_difference, ?elem_of_singleton, ?excluded_set_elem; naive_solver.
Qed.

(** A transition of [m] out of the state that [excluded] tells. *)
Record transits m (round : Round) (excluded : bool) tr : Prop := {
  tt_member : tr_authority_id tr ∈ members (committee m);
  tt_stake : tr_stake tr = stake_at (committee m) (tr_authority_id tr);
  tt_info : ∃ info, am_state_map m !! N.to_nat (tr_authority_id tr) = Some info ∧
    state_excluded (ai_state info) = excluded ∧ AncestorInfo_is_locked info round = false;
}.

Definition moved (round : Round) (state : AncestorState) tr (map : list AncestorInfo) : list AncestorInfo :=
  <[N.to_nat (tr_authority_id tr) := mkAncestorInfo state (round + STATE_LOCK_CLOCK_ROUNDS)]> map.

Definition set_map m (map : list AncestorInfo) (total : Stake) : AncestorStateManager :=
  mkAncestorStateManager (am_context m) map (am_excluded_nodes_stake_threshold m) total (am_propagation_scores m).

Lemma apply_include m round tr :
  asm_ok m → transits m round true tr → round + STATE_LOCK_CLOCK_ROUNDS < 2 ^ 32 →
  ∃ total, AncestorStateManager_apply_state_change m tr Include round
           = Ret (set_map m (moved round Include tr (am_state_map m)) total) ∧
    asm_ok (set_map m (moved round Include tr (am_state_map m)) total).
Proof using.
  intros [Hwf Hlen Htot Hb Hth] [Hmem Hst (info & Hinfo & Hex & _)] Hround.
  unfold AncestorStateManager_apply_state_change.
  pose proof Hmem as Ha%members_spec%Committee_stake_valid. unfold Committee_stake in Ha.
  destruct (Committee_authority _ _) as [a| |]; try done. cbn [mbind M_bind].
  rewrite (proj2 (index_Ret _ _ _) Hinfo). cbn [mbind M_bind].
  destruct (ai_state info) as [|score] eqn:Hs; [done|].
  pose proof (lookup_lt_Some _ _ _ Hinfo) as Hlt.
  assert (tr_authority_id tr ∈ excluded_set (committee m) (am_state_map m)) as Hin.
  { apply excluded_set_elem. split; [done|]. unfold excluded_in. rewrite Hinfo. simpl. by rewrite Hs. }
  assert (set_stake (committee m) (excluded_set (committee m) (am_state_map m)) =
          tr_stake tr + set_stake (committee m) (excluded_set (committee m) (am_state_map m) ∖ {[tr_authority_id tr]})) as Hsum.
  { unfold set_stake. rewrite Hst. rewrite <- weight_insert by set_solver. f_equal.
    apply set_eq. intros x. destruct (decide (x = tr_authority_id tr)); set_solver. }
  destruct (N.leb_spec (tr_stake tr) (am_total_excluded_stake m)) as [Hle|Hgt]; [|lia].
  cbn [expect mbind M_bind]. rewrite int_add_exact by done. cbn [mbind M_bind].
  unfold index_update. rewrite Hinfo. cbn [mbind M_bind]. eexists. split; [done|].
  split; simpl; [done| | |lia|done].
  - unfold moved. by rewrite length_insert.
  - unfold moved. rewrite excluded_set_insert by done. simpl. lia.
Qed.

Lemma apply_exclude m round tr :
  asm_ok m → transits m round false tr → round + STATE_LOCK_CLOCK_ROUNDS < 2 ^ 32 →
  am_total_excluded_stake m + tr_stake tr ≤ am_excluded_nodes_stake_threshold m →
  ∃ total, AncestorStateManager_apply_state_change m tr (Exclude (tr_score tr)) round
           = Ret (set_map m (moved round (Exclude (tr_score tr)) tr (am_state_map m)) total) ∧
    asm_ok (set_map m (moved round (Exclude (tr_score tr)) tr (am_state_map m)) total).
Proof using.
  intros [Hwf Hlen Htot Hb Hth] [Hmem Hst (info & Hinfo & Hex & _)] Hround Hfits.
  unfold AncestorStateManager_apply_state_change.
  pose proof Hmem as Ha%members_spec%Committee_stake_valid. unfold Committee_stake in Ha.
  destruct (Committee_authority _ _) as [a| |]; try done. cbn [mbind M_bind].
  rewrite (proj2 (index_Ret _ _ _) Hinfo). cbn [mbind M_bind].
  destruct (ai_state info) as [|score] eqn:Hs; [|done].
  pose proof (lookup_lt_Some _ _ _ Hinfo) as Hlt. pose proof (wf_total_u64 _ Hwf).
  rewrite (int_add_exact 64) by lia. cbn [mbind M_bind]. rewrite (int_add_exact 32) by done. cbn [mbind M_bind].
  unfold index_update. rewrite Hinfo. cbn [mbind M_bind]. eexists. split; [done|].
  split; simpl; [done| | |lia|done].
  - unfold moved. by rewrite length_insert.
  - unfold moved. rewrite excluded_set_insert by done. simpl. unfold set_stake in *. rewrite weight_insert; [lia|].
    rewrite excluded_set_elem. intros [_ Hx]. unfold excluded_in in Hx. rewrite Hinfo in Hx. simpl in Hx. by rewrite Hs in Hx.
Qed.

(** ** The transitions that are applied *)

Lemma transits_moved m round excluded state total tr tr' :
  transits m round excluded tr → tr_authority_id tr' ≠ tr_authority_id tr →
  transits (set_map m (moved round state tr' (am_state_map m)) total) round excluded tr.
Proof using.
  intros [H1 H2 (info & H3 & H4)] Hne. split; [done|done|]. exists info. split; [|done]. simpl. unfold moved.
  rewrite list_lookup_insert_ne; [done|]. intros Heq. by apply Hne, N2Nat.inj.
Qed.

(** [m'] is [m] after the transitions [l] into the states that [f] tells. *)
Definition after_moves m round (f : StateTransition → AncestorState) (l : list StateTransition) m' : Prop :=
  asm_ok m' ∧ ∃ total, m' = set_map m (foldl (λ map tr, moved round (f tr) tr map) (am_state_map m) l) total.

Lemma after_moves_nil m round f : asm_ok m → after_moves m round f [] m.
Proof using. intros Hok. split; [done|]. exists (am_total_excluded_stake m). by destruct m. Qed.

Lemma after_moves_cons m round f tr l total m' :
  after_moves (set_map m (moved round (f tr) tr (am_state_map m)) total) round f l m' → after_moves m round f (tr :: l) m'.
Proof using. intros [Hok [total' ->]]. split; [done|]. by exists total'. Qed.

Lemma include_loop round l m :
  asm_ok m → round + STATE_LOCK_CLOCK_ROUNDS < 2 ^ 32 → NoDup (tr_authority_id <$> l) →
  (∀ tr, tr ∈ l → transits m round true tr) →
  ∃ m', foldM (λ m tr, AncestorStateManager_apply_state_change m tr Include round) m l = Ret m' ∧
    after_moves m round (λ _, Include) l m'.
Proof using.
  intros Hok Hr. revert m Hok. induction l as [|tr l IH]; intros m Hok Hnd Hl; cbn [foldM].
  { exists m. split; [done|]. by apply after_moves_nil. }
  csimpl in Hnd. apply NoDup_cons in Hnd as [Hni Hnd].
  destruct (apply_include m round tr Hok (Hl tr ltac:(left)) Hr) as (total & -> & Hok'). cbn [mbind M_bind].
  destruct (IH _ Hok' Hnd) as (m' & -> & Hm').
  { intros tr' Htr'. apply transits_moved; [apply Hl; by right|]. intros Heq. apply Hni. rewrite Heq.
    by apply list_elem_of_fmap_2. }
  exists m'. split; [done|]. by eapply after_moves_cons.
Qed.

Lemma exclude_loop round l m :
  asm_ok m → round + STATE_LOCK_CLOCK_ROUNDS < 2 ^ 32 → NoDup (tr_authority_id <$> l) →
  (∀ tr, tr ∈ l → transits m round false tr) →
  ∃ m' l', foldM (exclude_step round) m l = Ret m' ∧ l' `sublist_of` l ∧
    after_moves m round (λ tr, Exclude (tr_score tr)) l' m'.
Proof using.
  intros Hok Hr. revert m Hok. induction l as [|tr l IH]; intros m Hok Hnd Hl; cbn [foldM].
  { exists m, []. split_and!; [done..|]. by apply after_moves_nil. }
  csimpl in Hnd. apply NoDup_cons in Hnd as [Hni Hnd]. unfold exclude_step at 2.
  pose proof (Hl tr ltac:(left)) as Htr. pose proof Hok as [Hwf _ _ Hb Hth].
  assert (am_total_excluded_stake m + tr_stake tr < 2 ^ 64) as Hlt.
  { rewrite (ao_total m Hok), (tt_stake _ _ _ _ Htr). destruct Htr as [Hmem _ (info & Hinfo & Hex & _)].
    pose proof (wf_total_u64 _ Hwf). eapply N.le_lt_trans; [|done].
    unfold set_stake. rewrite N.add_comm. rewrite <- weight_insert.
    - apply (set_stake_le_total _ _ Hwf). intros x [->%elem_of_singleton|Hx]%elem_of_union; [done|].
      by apply excluded_set_elem in Hx as [? _].
    - rewrite excluded_set_elem. intros [_ Hx]. unfold excluded_in in Hx. rewrite Hinfo in Hx. simpl in Hx. congruence. }
  rewrite int_add_exact by done. cbn [mbind M_bind].
  destruct (N.leb_spec (am_total_excluded_stake m + tr_stake tr) (am_excluded_nodes_stake_threshold m)) as [Hle|Hgt].
  - destruct (apply_exclude m round tr Hok Htr Hr Hle) as (total & -> & Hok'). cbn [mbind M_bind].
    destruct (IH _ Hok' Hnd) as (m' & l' & -> & Hsub & Hm').
    { intros tr' Htr'. apply transits_moved; [apply Hl; by right|]. intros Heq. apply Hni. rewrite Heq.
      by apply list_elem_of_fmap_2. }
    exists m', (tr :: l'). split_and!; [done|by constructor|]. by eapply after_moves_cons.
  - cbn [mbind M_bind]. destruct (IH m Hok Hnd) as (m' & l' & -> & Hsub & Hm'); [intros; apply Hl; by right|].
    exists m', l'. split_and!; [done|by constructor|done].
Qed.

(** Where the moves lead. *)
Lemma moves_lookup round f l map i :
  NoDup (tr_authority_id <$> l) → (∀ tr, tr ∈ l → (N.to_nat (tr_authority_id tr) < length map)%nat) →
  (∃ tr, tr ∈ l ∧ tr_authority_id tr = i ∧ foldl (λ map tr, moved round (f tr) tr map) map l !! N.to_nat i
           = Some (mkAncestorInfo (f tr) (round + STATE_LOCK_CLOCK_ROUNDS))) ∨
  (i ∉ tr_authority_id <$> l ∧ foldl (λ map tr, moved round (f tr) tr map) map l !! N.to_nat i = map !! N.to_nat i).
Proof using.
  revert map. induction l as [|tr l IH]; intros map Hnd Hl; [right; split; [apply not_elem_of_nil|done]|].
  csimpl in *. apply NoDup_cons in Hnd as [Hni Hnd].
  destruct (IH (moved round (f tr) tr map) Hnd) as [(tr' & Htr' & Hi & Heq)|[Hn Heq]].
  { intros tr' Htr'. unfold moved. rewrite length_insert. apply Hl. by right. }
  - left. exists tr'. split_and!; [by right|done|done].
  - rewrite Heq. unfold moved. destruct (decide (tr_authority_id tr = i)) as [Hi|Hi].
    + left. exists tr. split_and!; [left|done|]. rewrite Hi, list_lookup_insert_eq; [done|]. rewrite <- Hi. apply Hl. left.
    + right. split; [|rewrite list_lookup_insert_ne; [done|lia]].
      intros [?|?]%list.elem_of_cons; [congruence|done].
Qed.

(** ** Why states change *)

Definition score_of m (i : AuthorityIndex) : N :=
  default 0 (rs_scores_per_authority (am_propagation_scores m) !! N.to_nat i).
Definition high_of (rounds : list QuorumRound) (i : AuthorityIndex) : Round :=
  from_option snd 0 (rounds !! N.to_nat i).

(** The score that counts as low. *)
Definition low_score m : N := ReputationScores_highest_score (am_propagation_scores m) * 20 / 100.

(** A state may change for these reasons. *)
Definition reason m (rounds : list QuorumRound) (network : Round) (excluded : bool) (i : AuthorityIndex) : Prop :=
  if excluded then low_score m < score_of m i ∨ network ≤ high_of rounds i else score_of m i ≤ low_score m.

Record candidates m rounds network round excluded (ids : list AuthorityIndex) (l : list StateTransition) : Prop := {
  ca_NoDup : NoDup (tr_authority_id <$> l);
  ca_from : ∀ i, i ∈ tr_authority_id <$> l → i ∈ ids;
  ca_each : ∀ tr, tr ∈ l → transits m round excluded tr ∧ tr_score tr = score_of m (tr_authority_id tr) ∧
    reason m rounds network excluded (tr_authority_id tr);
}.

Lemma candidates_nil m rounds network round excluded ids : candidates m rounds network round excluded ids [].
Proof using. split; [constructor|intros i Hi; by apply not_elem_of_nil in Hi|intros tr Htr; by apply not_elem_of_nil in Htr]. Qed.

Lemma candidates_one m rounds network round excluded i tr :
  tr_authority_id tr = i → transits m round excluded tr → tr_score tr = score_of m i →
  reason m rounds network excluded i → candidates m rounds network round excluded [i] [tr].
Proof using.
  intros <- Ht Hs Hr. split; csimpl; [apply NoDup_singleton|done|]. by intros tr' ->%list_elem_of_singleton.
Qed.

Lemma candidates_app m rounds network round excluded ids1 ids2 l1 l2 :
  NoDup (ids1 ++ ids2) →
  candidates m rounds network round excluded ids1 l1 → candidates m rounds network round excluded ids2 l2 →
  candidates m rounds network round excluded (ids1 ++ ids2) (l1 ++ l2).
Proof using.
  intros (_ & Hdis & _)%NoDup_app [H1 H2 H3] [G1 G2 G3]. split.
  - rewrite fmap_app. apply NoDup_app. split_and!; [done| |done]. intros i Hi Hi2. apply (Hdis i); auto.
  - intros i. rewrite fmap_app, !elem_of_app. intros [?|?]; auto.
  - intros tr [?|?]%elem_of_app; auto.
Qed.

(** One entry of the scores. *)
Lemma collect_step m rounds network round k score a b :
  asm_ok m → length rounds = length (Committee_authorities (committee m)) →
  rs_scores_per_authority (am_propagation_scores m) !! k = Some score →
  (k < length (Committee_authorities (committee m)))%nat →
  ∃ a1 b1, collect_transition m rounds network round (low_score m) (a, b) (k, score) = Ret (a ++ a1, b ++ b1) ∧
    candidates m rounds network round true [N.of_nat k] a1 ∧ candidates m rounds network round false [N.of_nat k] b1.
Proof using.
  intros [Hwf Hmap _ _ _] Hlen Hscore Hk.
  assert (N.of_nat k ∈ members (committee m)) as Hmem.
  { apply members_spec. unfold Committee_is_valid_index, Committee_size. apply N.ltb_lt. lia. }
  unfold collect_transition, Committee_to_authority_index, Committee_size.
  destruct (N.ltb_spec (N.of_nat k) (N.of_nat (length (Committee_authorities (committee m))))) as [_|?]; [|lia].
  cbn [expect mbind M_bind]. pose proof (wf_size _ Hwf) as Hsz. unfold Committee_size in Hsz.
  rewrite N.mod_small by lia.
  destruct (lookup_lt_is_Some_2 (am_state_map m) k) as [info Hinfo]; [lia|].
  destruct (lookup_lt_is_Some_2 rounds k) as [q Hq]; [lia|].
  rewrite (proj2 (index_Ret (am_state_map m) (N.of_nat k) info)) by (by rewrite Nat2N.id). cbn [mbind M_bind].
  rewrite (proj2 (index_Ret rounds (N.of_nat k) q)) by (by rewrite Nat2N.id). cbn [mbind M_bind].
  pose proof Hmem as Ha%members_spec%Committee_stake_valid. unfold Committee_stake in Ha.
  destruct (Committee_authority _ _) as [au| |]; try done. injection Ha as Hst. cbn [mbind M_bind].
  set (tr := mkStateTransition _ _ _ _).
  assert (score_of m (N.of_nat k) = score) as Hsc by (unfold score_of; by rewrite Nat2N.id, Hscore).
  assert (high_of rounds (N.of_nat k) = q.2) as Hhigh by (unfold high_of; rewrite Nat2N.id; unfold QuorumRound in *; by rewrite Hq).
  assert (∀ ex, AncestorInfo_is_locked info round = false → state_excluded (ai_state info) = ex →
    reason m rounds network ex (N.of_nat k) → candidates m rounds network round ex [N.of_nat k] [tr]) as Htr.
  { intros ex Hun Hex Hre. apply candidates_one; [done| |done|done]. split; [done|done|]. exists info. simpl. by rewrite Nat2N.id. }
  assert (∀ ex, candidates m rounds network round ex [N.of_nat k] []) as Hnil by (intros; apply candidates_nil).
  unfold reason in Htr. rewrite Hsc, Hhigh in Htr.
  destruct (AncestorInfo_is_locked info round); [exists [], []; by rewrite !app_nil_r|].
  destruct (ai_state info) as [|s]; simpl in Htr.
  - destruct (N.leb_spec score (low_score m)); [exists [], [tr]|exists [], []]; rewrite !app_nil_r; split_and!; try done.
    by apply (Htr false).
  - destruct (N.ltb_spec (low_score m) score); [|destruct (N.leb_spec network q.2)]; simpl;
      [exists [tr], []..|exists [], []]; rewrite ?app_nil_r; split_and!; try done; apply (Htr true); auto.
Qed.

Lemma collect_transition_spec m rounds network round es a b :
  asm_ok m → length rounds = length (Committee_authorities (committee m)) → NoDup (N.of_nat <$> es.*1) →
  (∀ e, e ∈ es → rs_scores_per_authority (am_propagation_scores m) !! e.1 = Some e.2 ∧
     (e.1 < length (Committee_authorities (committee m)))%nat) →
  ∃ a' b', foldM (collect_transition m rounds network round (low_score m)) (a, b) es = Ret (a ++ a', b ++ b') ∧
    candidates m rounds network round true (N.of_nat <$> es.*1) a' ∧
    candidates m rounds network round false (N.of_nat <$> es.*1) b'.
Proof using.
  intros Hok Hlen. revert a b. induction es as [|[k score] es IH]; intros a b Hnd Hes; cbn [foldM].
  { exists [], []. rewrite !app_nil_r. split_and!; [done|apply candidates_nil..]. }
  destruct (Hes (k, score) ltac:(left)) as [Hscore Hk].
  destruct (collect_step m rounds network round k score a b Hok Hlen Hscore Hk) as (a1 & b1 & -> & Ha1 & Hb1).
  cbn [mbind M_bind]. csimpl in *. pose proof Hnd as [_ Hnd']%NoDup_cons.
  destruct (IH (a ++ a1) (b ++ b1) Hnd') as (a' & b' & -> & Ha' & Hb'); [intros; apply Hes; by right|].
  exists (a1 ++ a'), (b1 ++ b'). rewrite <- !app_assoc.
  split_and!; [done|by apply (candidates_app _ _ _ _ _ [N.of_nat k])..].
Qed.

(** ** The whole update *)

(** The network high quorum round: the lowest round that a quorum of the
    authorities' high quorum rounds has not passed. *)
Definition network_high m rounds (network : Round) : Prop :=
  is_quorum (committee m) (having (committee m) (high_of rounds) (λ x, x ≤ network)) ∧
  ∀ r, is_quorum (committee m) (having (committee m) (high_of rounds) (λ x, x ≤ r)) → network ≤ r.

Lemma high_rounds_weighted m (rounds : list QuorumRound) :
  length rounds = length (Committee_authorities (committee m)) →
  mapP (λ e : QuorumRound * (AuthorityIndex * Authority), Ret (e.1.2, Authority_stake e.2.2))
    (zip rounds (Committee_authorities_iter (committee m))) = Ret (weighted (committee m) (high_of rounds)).
Proof using.
  intros Hlen. rewrite (mapP_pure _ (λ e : QuorumRound * (AuthorityIndex * Authority), (e.1.2, Authority_stake e.2.2)))
    by done.
  f_equal. apply list_eq. intros k. unfold weighted, indices. rewrite !list_lookup_fmap.
  destruct (decide (k < length (Committee_authorities (committee m)))%nat) as [Hk|Hk].
  - rewrite lookup_seq_lt by done. simpl. unfold stake_at, high_of. rewrite Nat2N.id.
    destruct (lookup_lt_is_Some_2 rounds k) as [q Hq]; [lia|]. destruct (lookup_lt_is_Some_2 _ _ Hk) as [a Ha].
    rewrite (proj2 (lookup_zip_Some rounds _ k q (N.of_nat k mod 2 ^ 32, a))).
    + simpl. unfold QuorumRound in *. by rewrite Hq, Ha.
    + split; [done|]. unfold Committee_authorities_iter. by rewrite list_lookup_imap, Ha.
  - rewrite lookup_seq_ge by lia. simpl. rewrite lookup_ge_None_2; [done|].
    rewrite length_zip_with. unfold Committee_authorities_iter. rewrite length_imap. lia.
Qed.

Lemma network_high_returns m (rounds : list QuorumRound) :
  Committee_wf (committee m) → length rounds = length (Committee_authorities (committee m)) →
  ∃ network, AncestorStateManager_calculate_network_high_quorum_round m rounds = Ret network ∧ network_high m rounds network.
Proof using.
  intros Hwf Hlen. unfold AncestorStateManager_calculate_network_high_quorum_round.
  rewrite zip_debug_eq_exact by (unfold Committee_authorities_iter; by rewrite length_imap). cbn [mbind M_bind].
  rewrite high_rounds_weighted by done. cbn [mbind M_bind].
  destruct (weighted_sorted (committee m) (high_of rounds)) as [Hs Hp]. set (l := stable_sort le_ord _) in *.
  assert (stakes l = Committee_total_stake (committee m)) as Htot.
  { rewrite Hp, stakes_weighted, set_stake_members. by rewrite (wf_total _ Hwf). }
  pose proof (wf_total_u64 _ Hwf). pose proof (wf_quorum_pos _ Hwf). pose proof (wf_quorum_reachable _ Hwf).
  destruct (quorum_loop_spec (committee m) 0 l) as (pre & network & s & post & Heq & -> & Hb); [lia..|].
  exists network. split; [done|]. rewrite Heq in Hs. apply sorted_split in Hs. rewrite <- Heq in Hs.
  unfold before, until in Hs. rewrite !Hp in Hs.
  pose proof (weighted_filter (committee m) (high_of rounds) (λ x, x < network)) as E1.
  pose proof (weighted_filter (committee m) (high_of rounds) (λ x, x ≤ network)) as E2. cbn beta in *.
  rewrite E1, E2 in Hs. split.
  - split; [apply having_members|]. apply N.leb_le. lia.
  - intros r [_ Hq%N.leb_le]. apply N.le_ngt. intros Hlt.
    pose proof (weight_mono (stake_at (committee m)) _ _ (having_mono (committee m) (high_of rounds) (λ x, x ≤ r)
      (λ x, x < network) ltac:(cbn beta; intros; lia))). unfold set_stake in *. lia.
Qed.

(** How one entry may change. *)
Inductive info_step m rounds network (round : Round) (i : AuthorityIndex) (info : AncestorInfo) : AncestorInfo → Prop :=
| step_keep : info_step m rounds network round i info info
| step_include : AncestorInfo_is_locked info round = false → state_excluded (ai_state info) = true →
    reason m rounds network true i →
    info_step m rounds network round i info (mkAncestorInfo Include (round + STATE_LOCK_CLOCK_ROUNDS))
| step_exclude : AncestorInfo_is_locked info round = false → state_excluded (ai_state info) = false →
    reason m rounds network false i →
    info_step m rounds network round i info (mkAncestorInfo (Exclude (score_of m i)) (round + STATE_LOCK_CLOCK_ROUNDS)).

Lemma transits_length m round excluded tr :
  transits m round excluded tr → (N.to_nat (tr_authority_id tr) < length (am_state_map m))%nat.
Proof using. intros [_ _ (info & Hi & _)]. by apply lookup_lt_Some in Hi. Qed.

(** After the moves [l] out of one state, the candidates out of the other remain. *)
Lemma transits_after m round f l m1 excluded tr :
  after_moves m round f l m1 → NoDup (tr_authority_id <$> l) →
  (∀ tr', tr' ∈ l → transits m round (negb excluded) tr') → transits m round excluded tr → transits m1 round excluded tr.
Proof using.
  intros [_ [total ->]] Hnd Hl [H1 H2 (info & H3 & H4 & H5)]. split; [done|done|]. exists info. split; [|done]. simpl.
  destruct (moves_lookup round f l (am_state_map m) (tr_authority_id tr) Hnd) as [(tr' & Htr' & Hi & _)|[_ ->]]; [|exfalso|done].
  { intros tr' Htr'. by eapply transits_length, Hl. }
  destruct (Hl tr' Htr') as [_ _ (info' & H3' & H4' & _)]. rewrite Hi, H3 in H3'. injection H3' as <-.
  rewrite H4 in H4'. by destruct excluded.
Qed.

Lemma imap_pair_fst {A} (l : list A) : (imap pair l).*1 = seq 0 (length l).
Proof using.
  apply list_eq. intros k. rewrite list_lookup_fmap, list_lookup_imap.
  destruct (decide (k < length l)%nat) as [Hk|Hk].
  - destruct (lookup_lt_is_Some_2 l k Hk) as [x ->]. by rewrite lookup_seq_lt.
  - rewrite lookup_ge_None_2, lookup_seq_ge by lia. done.
Qed.

Lemma imap_pair_elem {A} (l : list A) e : e ∈ imap pair l → l !! e.1 = Some e.2.
Proof using.
  intros (k & Hk)%list_elem_of_lookup. rewrite list_lookup_imap in Hk. destruct (l !! k) as [x|] eqn:Hx; [|done].
  simpl in Hk. by injection Hk as <-.
Qed.

(** The steps of the entries, out of the two loops. *)
Lemma info_steps m rounds network round ids a b m1 m2 :
  candidates m rounds network round true ids a → candidates m rounds network round false ids b →
  after_moves m round (λ _, Include) a m1 → after_moves m1 round (λ tr, Exclude (tr_score tr)) b m2 →
  ∀ i info, am_state_map m !! N.to_nat i = Some info →
    ∃ info', am_state_map m2 !! N.to_nat i = Some info' ∧ info_step m rounds network round i info info'.
Proof using.
  intros [Ha1 _ Ha3] [Hb1 _ Hb3] Hm1 [_ [total2 ->]] i info Hi. simpl.
  assert (∀ tr, tr ∈ b → transits m1 round false tr) as Hb.
  { intros tr Htr. eapply (transits_after m round _ a); [done..| |by apply Hb3]. intros tr' Htr'. by apply Ha3. }
  destruct Hm1 as [_ [total1 ->]]. simpl in *.
  destruct (moves_lookup round (λ _, Include) a (am_state_map m) i Ha1) as [(tr & Htr & <- & Hl1)|[Hn1 Hl1]].
  { intros tr Htr. by eapply transits_length, Ha3. }
  - destruct (moves_lookup round (λ tr, Exclude (tr_score tr)) b
      (foldl (λ map tr, moved round Include tr map) (am_state_map m) a) (tr_authority_id tr) Hb1) as [(tr' & Htr' & Heq & _)|[_ Hl2]].
    { intros tr' Htr'. apply (transits_length _ _ _ _ (Hb tr' Htr')). }
    { exfalso. destruct (Ha3 tr Htr) as ([_ _ (x & Hx & Hxe & _)] & _), (Hb3 tr' Htr') as ([_ _ (y & Hy & Hye & _)] & _).
      rewrite Heq, Hx in Hy. simplify_eq. congruence. }
    rewrite Hl2, Hl1. eexists. split; [done|]. destruct (Ha3 tr Htr) as ([_ _ (x & Hx & Hxe & Hxl)] & _ & Hre).
    rewrite Hi in Hx. simplify_eq. by constructor.
  - destruct (moves_lookup round (λ tr, Exclude (tr_score tr)) b
      (foldl (λ map tr, moved round Include tr map) (am_state_map m) a) i Hb1) as [(tr & Htr & <- & Hl2)|[_ Hl2]].
    { intros tr Htr. apply (transits_length _ _ _ _ (Hb tr Htr)). }
    + rewrite Hl2. eexists. split; [done|]. destruct (Hb3 tr Htr) as ([_ _ (x & Hx & Hxe & Hxl)] & Hsc & Hre).
      rewrite Hi in Hx. simplify_eq. rewrite Hsc. by constructor.
    + rewrite Hl2, Hl1. exists info. split; [done|constructor].
Qed.

Lemma candidates_perm m rounds network round excluded ids l l' :
  l' ≡ₚ l → candidates m rounds network round excluded ids l → candidates m rounds network round excluded ids l'.
Proof using.
  intros Hp [H1 H2 H3]. split; [by rewrite Hp|intros i; rewrite Hp; apply H2|intros tr; rewrite Hp; apply H3].
Qed.

Lemma candidates_sublist m rounds network round excluded ids l l' :
  l' `sublist_of` l → candidates m rounds network round excluded ids l → candidates m rounds network round excluded ids l'.
Proof using.
  intros Hs [H1 H2 H3]. pose proof (sublist_submseteq _ _ Hs) as Hsub. split.
  - eapply sublist_NoDup; [exact H1|]. by apply fmap_sublist.
  - intros i (tr & -> & Htr)%list_elem_of_fmap. apply H2, list_elem_of_fmap_2. by eapply elem_of_submseteq.
  - intros tr Htr. apply H3. by eapply elem_of_submseteq.
Qed.

Lemma update_all_ancestors_spec m (round : Round) (rounds : list QuorumRound) :
  asm_ok m → length rounds = length (Committee_authorities (committee m)) →
  (length (rs_scores_per_authority (am_propagation_scores m)) ≤ length (Committee_authorities (committee m)))%nat →
  ReputationScores_highest_score (am_propagation_scores m) * 20 < 2 ^ 64 →
  round + STATE_LOCK_CLOCK_ROUNDS < 2 ^ 32 →
  ∃ network m', network_high m rounds network ∧
    AncestorStateManager_update_all_ancestors_state m round rounds = Ret m' ∧ asm_ok m' ∧
    am_context m' = am_context m ∧
    ∀ i info, am_state_map m !! N.to_nat i = Some info →
      ∃ info', am_state_map m' !! N.to_nat i = Some info' ∧ info_step m rounds network round i info info'.
Proof using.
  intros Hok Hlen Hsc Hmul Hr. pose proof Hok as [Hwf _ _ _ _].
  destruct (network_high_returns m rounds Hwf Hlen) as (network & Hn & Hnh). exists network.
  unfold AncestorStateManager_update_all_ancestors_state. rewrite Hn. cbn [mbind M_bind].
  unfold SCORE_EXCLUSION_THRESHOLD_PERCENTAGE. rewrite int_mul_exact by done. cbn [mbind M_bind]. fold (low_score m).
  set (es := imap pair _).
  destruct (collect_transition_spec m rounds network round es [] []) as (a & b & -> & Ha & Hb); [done|done| | |].
  { unfold es. rewrite imap_pair_fst. apply (NoDup_fmap_2 _), NoDup_seq. }
  { intros e He%imap_pair_elem. split; [done|]. apply lookup_lt_Some in He. lia. }
  cbn [mbind M_bind app].
  destruct (include_loop round a m Hok Hr) as (m1 & -> & Hm1); [by apply Ha|intros tr Htr; by apply Ha|].
  cbn [mbind M_bind]. set (b' := stable_sort _ b).
  assert (candidates m rounds network round false (N.of_nat <$> es.*1) b') as Hb'.
  { eapply candidates_perm; [apply stable_sort_perm|done]. }
  destruct (exclude_loop round b' m1 (proj1 Hm1) Hr) as (m2 & l & -> & Hsub & Hm2); [by apply Hb'| |].
  { intros tr Htr. eapply (transits_after m round _ a); [done|by apply Ha| |by apply Hb']. intros tr' Htr'. by apply Ha. }
  exists m2. split_and!; [done|done|by apply Hm2| |].
  - destruct Hm2 as [_ [? ->]], Hm1 as [_ [? ->]]. done.
  - eapply info_steps; [exact Ha| |exact Hm1|exact Hm2]. by eapply candidates_sublist.
Qed.


Lemma update_all_ancestors_scores m round rounds m' :
  AncestorStateManager_update_all_ancestors_state m round rounds = Ret m' → am_propagation_scores m' = am_propagation_scores m.
Proof using.
  assert (∀ m tr state m', AncestorStateManager_apply_state_change m tr state round = Ret m' → am_propagation_scores m' = am_propagation_scores m) as Hap.
  { intros m0 tr state m1. unfold AncestorStateManager_apply_state_change. intros Hap. mskip Hap. by simplify_eq. }
  unfold AncestorStateManager_update_all_ancestors_state. intros Hu. apply bind_Ret in Hu as (network & _ & Hu). apply bind_Ret in Hu as (scaled & _ & Hu).
  apply bind_Ret in Hu as ([a b] & _ & Hu). apply bind_Ret in Hu as (m1 & H1 & H2).
  assert (am_propagation_scores m1 = am_propagation_scores m) as <-.
  { eapply (foldM_invariant _ (λ x, am_propagation_scores x = am_propagation_scores m)); [|done|exact H1].
    intros x tr x' _ Hx Hs. rewrite <- Hx. exact (Hap _ _ _ _ Hs). }
  eapply (foldM_invariant _ (λ x, am_propagation_scores x = am_propagation_scores m1)); [|done|exact H2].
  intros x tr x' _ Hx Hs. rewrite <- Hx. unfold exclude_step in Hs. apply bind_Ret in Hs as (total & _ & Hs). case_match; [exact (Hap _ _ _ _ Hs)|by simplify_eq].
Qed.

Lemma AncestorStateManager_new_ok ctx :
  let c := ctx_committee ctx in
  let bad := pc_bad_nodes_stake_threshold (ctx_protocol_config ctx) in
  Committee_wf c → bad ≤ 100 → 2 * bad / 3 * Committee_total_stake c < 2 ^ 64 →
  ∃ m, AncestorStateManager_new ctx = Ret m ∧ asm_ok m ∧ am_context m = ctx ∧
    am_excluded_nodes_stake_threshold m = 2 * bad / 3 * Committee_total_stake c / 100 ∧
    am_propagation_scores m = ReputationScores_default.
Proof using.
  intros c bad Hwf Hbad Hlt. unfold AncestorStateManager_new. fold c bad.
  arith. rewrite int_mul_exact by done. cbn [mbind M_bind].
  eexists. split; [done|]. split_and!; [|done..]. split; simpl; [done| | |lia|].
  - rewrite length_replicate. unfold Committee_size. by rewrite Nat2N.id.
  - unfold set_stake. replace (excluded_set _ _) with (∅ : gset AuthorityIndex); [by rewrite weight_empty|].
    symmetry. apply set_eq. intros i. rewrite excluded_set_elem, elem_of_empty. split; [|done]. intros [_ Hx].
    unfold excluded_in in Hx. destruct (replicate _ _ !! _) as [info|] eqn:Hl in Hx; [|done].
    apply lookup_replicate in Hl as [-> _]. done.
  - fold c. set (T := Committee_total_stake c) in *. assert (2 * bad / 3 ≤ 100) as Hp by lia.
    apply N.Div0.div_le_upper_bound. nia.
Qed.

End AncestorStateTheory.

