(* ===== verification/DagState.v ===== *)
(** * The state of the DAG (consensus/core/src/dag_state.rs)

    [DagState] with all its operations: acceptance of blocks, reads through the
    cache and the store, commit and inclusion marks, buffered commits, flush and
    eviction, and recovery from the store.  The store is any instance of
    [Store].  Metrics, logs and wall-clock times are left out. *)

From S2P Require Import Prelude BTree Config Block Commit Store StakeAggregator ThresholdClock.
From S2P Require Import LeaderScoring.
Local Open Scope N_scope.

Record BlockInfo : Type := mkBlockInfo {
  bi_block : VerifiedBlock;
  bi_children : gset BlockRef;
  bi_children_stake : StakeAggregator QuorumThreshold;
  bi_committed : bool;
  bi_included : bool;
}.

Definition BlockInfo_new (block : VerifiedBlock) : BlockInfo :=
  {| bi_block := block; bi_children := ∅; bi_children_stake := StakeAggregator_new;
     bi_committed := false; bi_included := false |}.

Record RoundInfo : Type := mkRoundInfo {
  ri_round : Round;
  ri_blocks : gset BlockRef;
  ri_total_stake : StakeAggregator QuorumThreshold;
}.

Definition RoundInfo_new (round : Round) : RoundInfo := mkRoundInfo round ∅ StakeAggregator_new.

Record DagState {S : Type} : Type := mkDagState {
  ds_context : Context;
  ds_genesis : gmap BlockRef VerifiedBlock;
  ds_recent_blocks : gmap BlockRef BlockInfo;
  ds_recent_refs_by_authority : list (gset BlockRef);
  ds_round_info : list RoundInfo;
  ds_threshold_clock : ThresholdClock;
  ds_evicted_rounds : list Round;
  ds_highest_accepted_round : Round;
  ds_last_commit : option TrustedCommit;
  ds_last_committed_rounds : list Round;
  ds_scoring_subdag : ScoringSubdag;
  ds_pending_commit_votes : list CommitVote;
  ds_blocks_to_write : list VerifiedBlock;
  ds_commits_to_write : list TrustedCommit;
  ds_commit_info_to_write : list (CommitRef * CommitInfo);
  ds_finalized_commits_to_write : list (CommitRef * RejectedTransactions);
  ds_store : S;
  ds_cached_rounds : Round;
}.
Arguments DagState : clear implicits.
Arguments mkDagState {S}.

(** ** Field updates *)

Section Updates.
Context {S : Type}.

Definition set_recent_blocks (v : gmap BlockRef BlockInfo) (s : DagState S) : DagState S :=
  mkDagState (ds_context s) (ds_genesis s) v (ds_recent_refs_by_authority s) (ds_round_info s)
    (ds_threshold_clock s) (ds_evicted_rounds s) (ds_highest_accepted_round s)
    (ds_last_commit s) (ds_last_committed_rounds s) (ds_scoring_subdag s)
    (ds_pending_commit_votes s) (ds_blocks_to_write s) (ds_commits_to_write s)
    (ds_commit_info_to_write s) (ds_finalized_commits_to_write s) (ds_store s)
    (ds_cached_rounds s).
Definition set_recent_refs_by_authority (v : list (gset BlockRef)) (s : DagState S) : DagState S :=
  mkDagState (ds_context s) (ds_genesis s) (ds_recent_blocks s) v (ds_round_info s)
    (ds_threshold_clock s) (ds_evicted_rounds s) (ds_highest_accepted_round s)
    (ds_last_commit s) (ds_last_committed_rounds s) (ds_scoring_subdag s)
    (ds_pending_commit_votes s) (ds_blocks_to_write s) (ds_commits_to_write s)
    (ds_commit_info_to_write s) (ds_finalized_commits_to_write s) (ds_store s)
    (ds_cached_rounds s).
Definition set_round_info (v : list RoundInfo) (s : DagState S) : DagState S :=
  mkDagState (ds_context s) (ds_genesis s) (ds_recent_blocks s) (ds_recent_refs_by_authority s)
    v (ds_threshold_clock s) (ds_evicted_rounds s) (ds_highest_accepted_round s)
    (ds_last_commit s) (ds_last_committed_rounds s) (ds_scoring_subdag s)
    (ds_pending_commit_votes s) (ds_blocks_to_write s) (ds_commits_to_write s)
    (ds_commit_info_to_write s) (ds_finalized_commits_to_write s) (ds_store s)
    (ds_cached_rounds s).
Definition set_threshold_clock (v : ThresholdClock) (s : DagState S) : DagState S :=
  mkDagState (ds_context s) (ds_genesis s) (ds_recent_blocks s) (ds_recent_refs_by_authority s)
    (ds_round_info s) v (ds_evicted_rounds s) (ds_highest_accepted_round s) (ds_last_commit s)
    (ds_last_committed_rounds s) (ds_scoring_subdag s) (ds_pending_commit_votes s)
    (ds_blocks_to_write s) (ds_commits_to_write s) (ds_commit_info_to_write s)
    (ds_finalized_commits_to_write s) (ds_store s) (ds_cached_rounds s).
Definition set_evicted_rounds (v : list Round) (s : DagState S) : DagState S :=
  mkDagState (ds_context s) (ds_genesis s) (ds_recent_blocks s) (ds_recent_refs_by_authority s)
    (ds_round_info s) (ds_threshold_clock s) v (ds_highest_accepted_round s) (ds_last_commit s)
    (ds_last_committed_rounds s) (ds_scoring_subdag s) (ds_pending_commit_votes s)
    (ds_blocks_to_write s) (ds_commits_to_write s) (ds_commit_info_to_write s)
    (ds_finalized_commits_to_write s) (ds_store s) (ds_cached_rounds s).
Definition set_highest_accepted_round (v : Round) (s : DagState S) : DagState S :=
  mkDagState (ds_context s) (ds_genesis s) (ds_recent_blocks s) (ds_recent_refs_by_authority s)
    (ds_round_info s) (ds_threshold_clock s) (ds_evicted_rounds s) v (ds_last_commit s)
    (ds_last_committed_rounds s) (ds_scoring_subdag s) (ds_pending_commit_votes s)
    (ds_blocks_to_write s) (ds_commits_to_write s) (ds_commit_info_to_write s)
    (ds_finalized_commits_to_write s) (ds_store s) (ds_cached_rounds s).
Definition set_last_commit (v : option TrustedCommit) (s : DagState S) : DagState S :=
  mkDagState (ds_context s) (ds_genesis s) (ds_recent_blocks s) (ds_recent_refs_by_authority s)
    (ds_round_info s) (ds_threshold_clock s) (ds_evicted_rounds s)
    (ds_highest_accepted_round s) v (ds_last_committed_rounds s) (ds_scoring_subdag s)
    (ds_pending_commit_votes s) (ds_blocks_to_write s) (ds_commits_to_write s)
    (ds_commit_info_to_write s) (ds_finalized_commits_to_write s) (ds_store s)
    (ds_cached_rounds s).
Definition set_last_committed_rounds (v : list Round) (s : DagState S) : DagState S :=
  mkDagState (ds_context s) (ds_genesis s) (ds_recent_blocks s) (ds_recent_refs_by_authority s)
    (ds_round_info s) (ds_threshold_clock s) (ds_evicted_rounds s)
    (ds_highest_accepted_round s) (ds_last_commit s) v (ds_scoring_subdag s)
    (ds_pending_commit_votes s) (ds_blocks_to_write s) (ds_commits_to_write s)
    (ds_commit_info_to_write s) (ds_finalized_commits_to_write s) (ds_store s)
    (ds_cached_rounds s).
Definition set_scoring_subdag (v : ScoringSubdag) (s : DagState S) : DagState S :=
  mkDagState (ds_context s) (ds_genesis s) (ds_recent_blocks s) (ds_recent_refs_by_authority s)
    (ds_round_info s) (ds_threshold_clock s) (ds_evicted_rounds s)
    (ds_highest_accepted_round s) (ds_last_commit s) (ds_last_committed_rounds s) v
    (ds_pending_commit_votes s) (ds_blocks_to_write s) (ds_commits_to_write s)
    (ds_commit_info_to_write s) (ds_finalized_commits_to_write s) (ds_store s)
    (ds_cached_rounds s).
Definition set_pending_commit_votes (v : list CommitVote) (s : DagState S) : DagState S :=
  mkDagState (ds_context s) (ds_genesis s) (ds_recent_blocks s) (ds_recent_refs_by_authority s)
    (ds_round_info s) (ds_threshold_clock s) (ds_evicted_rounds s)
    (ds_highest_accepted_round s) (ds_last_commit s) (ds_last_committed_rounds s)
    (ds_scoring_subdag s) v (ds_blocks_to_write s) (ds_commits_to_write s)
    (ds_commit_info_to_write s) (ds_finalized_commits_to_write s) (ds_store s)
    (ds_cached_rounds s).
Definition set_blocks_to_write (v : list VerifiedBlock) (s : DagState S) : DagState S :=
  mkDagState (ds_context s) (ds_genesis s) (ds_recent_blocks s) (ds_recent_refs_by_authority s)
    (ds_round_info s) (ds_threshold_clock s) (ds_evicted_rounds s)
    (ds_highest_accepted_round s) (ds_last_commit s) (ds_last_committed_rounds s)
    (ds_scoring_subdag s) (ds_pending_commit_votes s) v (ds_commits_to_write s)
    (ds_commit_info_to_write s) (ds_finalized_commits_to_write s) (ds_store s)
    (ds_cached_rounds s).
Definition set_commits_to_write (v : list TrustedCommit) (s : DagState S) : DagState S :=
  mkDagState (ds_context s) (ds_genesis s) (ds_recent_blocks s) (ds_recent_refs_by_authority s)
    (ds_round_info s) (ds_threshold_clock s) (ds_evicted_rounds s)
    (ds_highest_accepted_round s) (ds_last_commit s) (ds_last_committed_rounds s)
    (ds_scoring_subdag s) (ds_pending_commit_votes s) (ds_blocks_to_write s) v
    (ds_commit_info_to_write s) (ds_finalized_commits_to_write s) (ds_store s)
    (ds_cached_rounds s).
Definition set_commit_info_to_write (v : list (CommitRef * CommitInfo)) (s : DagState S) : DagState S :=
  mkDagState (ds_context s) (ds_genesis s) (ds_recent_blocks s) (ds_recent_refs_by_authority s)
    (ds_round_info s) (ds_threshold_clock s) (ds_evicted_rounds s)
    (ds_highest_accepted_round s) (ds_last_commit s) (ds_last_committed_rounds s)
    (ds_scoring_subdag s) (ds_pending_commit_votes s) (ds_blocks_to_write s)
    (ds_commits_to_write s) v (ds_finalized_commits_to_write s) (ds_store s)
    (ds_cached_rounds s).
Definition set_finalized_commits_to_write (v : list (CommitRef * RejectedTransactions)) (s : DagState S) : DagState S :=
  mkDagState (ds_context s) (ds_genesis s) (ds_recent_blocks s) (ds_recent_refs_by_authority s)
    (ds_round_info s) (ds_threshold_clock s) (ds_evicted_rounds s)
    (ds_highest_accepted_round s) (ds_last_commit s) (ds_last_committed_rounds s)
    (ds_scoring_subdag s) (ds_pending_commit_votes s) (ds_blocks_to_write s)
    (ds_commits_to_write s) (ds_commit_info_to_write s) v (ds_store s) (ds_cached_rounds s).
Definition set_store (v : S) (s : DagState S) : DagState S :=
  mkDagState (ds_context s) (ds_genesis s) (ds_recent_blocks s) (ds_recent_refs_by_authority s)
    (ds_round_info s) (ds_threshold_clock s) (ds_evicted_rounds s)
    (ds_highest_accepted_round s) (ds_last_commit s) (ds_last_committed_rounds s)
    (ds_scoring_subdag s) (ds_pending_commit_votes s) (ds_blocks_to_write s)
    (ds_commits_to_write s) (ds_commit_info_to_write s) (ds_finalized_commits_to_write s) v
    (ds_cached_rounds s).

End Updates.

Section DagState.
Context `{Profile} `{Crypto} {S : Type} `{Store S}.
Implicit Types s : DagState S.

Definition DagState_committee s : Committee := ctx_committee (ds_context s).
Definition DagState_protocol_config s : ConsensusProtocolConfig :=
  ctx_protocol_config (ds_context s).

(** ** The last commit and the GC round *)

Definition DagState_last_commit_index s : CommitIndex :=
  match ds_last_commit s with Some commit => c_index commit | None => 0 end.

Definition DagState_last_commit_digest s : CommitDigest :=
  match ds_last_commit s with Some commit => tcm_digest commit | None => CommitDigest_MIN end.

Definition DagState_last_commit_timestamp_ms s : BlockTimestampMs :=
  match ds_last_commit s with Some commit => c_timestamp_ms commit | None => 0 end.

Definition DagState_last_commit_leader s : M Slot :=
  match ds_last_commit s with
  | Some commit => Ret (Slot_from (c_leader commit))
  | None => '(genesis_ref, _) ← expect (bmap_first (ds_genesis s))
                                  "Genesis blocks should always be available.";
            Ret (Slot_from genesis_ref)
  end.

Definition DagState_last_commit_round s : Round :=
  match ds_last_commit s with Some commit => br_round (c_leader commit) | None => 0 end.

Definition DagState_calculate_gc_round s (commit_round : Round) : Round :=
  commit_round - pc_gc_depth (DagState_protocol_config s).

Definition DagState_gc_round s : Round :=
  DagState_calculate_gc_round s (DagState_last_commit_round s).

Definition eviction_round (last_round gc_round cached_rounds : Round) : Round :=
  N.min gc_round (last_round - cached_rounds).

Definition DagState_calculate_authority_eviction_round s (authority : AuthorityIndex) : M Round :=
  refs ← index (ds_recent_refs_by_authority s) authority;
  let last_round := default GENESIS_ROUND (br_round <$> bset_last refs) in
  Ret (eviction_round last_round (DagState_gc_round s) (ds_cached_rounds s)).

(** ** Reads *)

(** [block_refs] is split into the blocks found in memory and the missing
    positions, which are then read from the store. *)
Definition get_cached (s : DagState S) (acc : list (option VerifiedBlock) * list (nat * BlockRef))
    (entry : nat * BlockRef) : list (option VerifiedBlock) * list (nat * BlockRef) :=
  let '(blocks, missing) := acc in
  let '(i, block_ref) := entry in
  if br_round block_ref =? GENESIS_ROUND then
    match ds_genesis s !! block_ref with
    | Some block => (<[i := Some block]> blocks, missing)
    | None => (blocks, missing)
    end
  else
    match ds_recent_blocks s !! block_ref with
    | Some block_info => (<[i := Some (bi_block block_info)]> blocks, missing)
    | None => (blocks, missing ++ [(i, block_ref)])
    end.

Definition fill_missing {A} (v : list A) (missing : list (nat * BlockRef)) (results : list A)
    : list A :=
  foldl (λ v '(i, result), <[i := result]> v) v (zip missing.*1 results).

Definition DagState_get_blocks s (block_refs : list BlockRef)
    : M (list (option VerifiedBlock)) :=
  match block_refs with
  | [] => Ret []
  | _ =>
      let '(blocks, missing) :=
        foldl (get_cached s) (replicate (length block_refs) None, []) (imap pair block_refs) in
      match missing with
      | [] => Ret blocks
      | _ =>
          store_results ← unwrap_ok (store_read_blocks (ds_store s) missing.*2)
                            "Failed to read from storage";
          Ret (fill_missing blocks missing store_results)
      end
  end.

Definition DagState_get_block s (r : BlockRef) : M (option VerifiedBlock) :=
  blocks ← DagState_get_blocks s [r];
  expect (last blocks) "Exactly one element should be returned".

Definition slot_bounds (slot : Slot) : bound BlockRef * bound BlockRef :=
  (Included (mkBlockRef (slot_round slot) (slot_authority slot) BlockDigest_MIN),
   Included (mkBlockRef (slot_round slot) (slot_authority slot) BlockDigest_MAX)).

Definition DagState_get_block_info_at_slot s (slot : Slot) : M (list BlockInfo) :=
  assert_that (DagState_gc_round s <? slot_round slot)
    "get_block_info_at_slot() should only be called for slots above gc_round";;
  entries ← bmap_range (slot_bounds slot).1 (slot_bounds slot).2 (ds_recent_blocks s);
  Ret entries.*2.

Definition DagState_get_uncommitted_blocks_at_slot s (slot : Slot) : M (list VerifiedBlock) :=
  entries ← bmap_range (slot_bounds slot).1 (slot_bounds slot).2 (ds_recent_blocks s);
  Ret (map bi_block entries.*2).

Definition DagState_get_uncommitted_blocks_at_round s (round : Round) : M (list VerifiedBlock) :=
  if round <=? DagState_last_commit_round s then Panic (Explicit "Round has committed blocks!")
  else
    next_round ← u32_add round 1;
    entries ← bmap_range (Included (mkBlockRef round AuthorityIndex_ZERO BlockDigest_MIN))
                         (Excluded (mkBlockRef next_round AuthorityIndex_ZERO BlockDigest_MIN))
                         (ds_recent_blocks s);
    Ret (map bi_block entries.*2).

(** [ancestors_at_round]: the loop pops the greatest reference until it is at or
    below [earlier_round]. *)
Fixpoint ancestors_loop (fuel : nat) s (earlier_round : Round) (linked : gset BlockRef)
    : M (gset BlockRef) :=
  match fuel with
  | O => NoFuel
  | Datatypes.S fuel =>
      match bset_last linked with
      | None => Ret linked
      | Some block_ref =>
          if br_round block_ref <=? earlier_round then Ret linked
          else
            found ← DagState_get_block s block_ref;
            block ← expect found "Block should exist in DAG!";
            ancestors_loop fuel s earlier_round
              (linked ∖ {[block_ref]} ∪ list_to_set (b_ancestors (vb_block block)))
      end
  end.

Definition DagState_ancestors_at_round (fuel : nat) s (later_block : VerifiedBlock)
    (earlier_round : Round) : M (list VerifiedBlock) :=
  linked ← ancestors_loop fuel s earlier_round (list_to_set (b_ancestors later_block));
  refs ← bset_range (Included (mkBlockRef earlier_round AuthorityIndex_ZERO BlockDigest_MIN))
           Unbounded linked;
  mapP (λ r, found ← DagState_get_block s r; expect found "Block should exist in DAG!") refs.

Definition DagState_get_last_block_for_authority s (authority : AuthorityIndex)
    : M VerifiedBlock :=
  refs ← index (ds_recent_refs_by_authority s) authority;
  match bset_last refs with
  | Some last =>
      info ← expect (ds_recent_blocks s !! last) "Block should be found in recent blocks";
      Ret (bi_block info)
  | None =>
      '(_, genesis_block) ←
        expect (head (filter (λ e, br_author e.1 = authority) (bmap_list (ds_genesis s))))
          "Genesis should be found for authority";
      Ret genesis_block
  end.

Definition DagState_get_last_proposed_block s : M (option VerifiedBlock) :=
  if Context_is_validator (ds_context s)
  then Some <$> DagState_get_last_block_for_authority s (ctx_own_index (ds_context s))
  else Ret None.

(** The loop that collects cached blocks up to a limit, checked after a push. *)
Fixpoint collect_cached s (limit : N) (blocks : list VerifiedBlock) (refs : list BlockRef)
    : M (list VerifiedBlock) :=
  match refs with
  | [] => Ret blocks
  | block_ref :: refs =>
      info ← expect (ds_recent_blocks s !! block_ref) "Block should exist in recent blocks";
      let blocks := blocks ++ [bi_block info] in
      if limit <=? N.of_nat (length blocks) then Ret blocks
      else collect_cached s limit blocks refs
  end.

Definition DagState_get_cached_blocks_in_range s (authority : AuthorityIndex)
    (start_round end_round : Round) (limit : N) : M (list VerifiedBlock) :=
  if (end_round <=? start_round) || (limit =? 0) then Ret []
  else
    refs ← index (ds_recent_refs_by_authority s) authority;
    keys ← bset_range (Included (mkBlockRef start_round authority BlockDigest_MIN))
             (Excluded (mkBlockRef end_round AuthorityIndex_ZERO BlockDigest_MIN)) refs;
    collect_cached s limit [] keys.

Definition DagState_get_cached_blocks s (authority : AuthorityIndex) (start : Round)
    : M (list VerifiedBlock) :=
  DagState_get_cached_blocks_in_range s authority start u32_max usize_max.

Definition DagState_get_last_cached_block_in_range s (authority : AuthorityIndex)
    (start_round end_round : Round) : M (option VerifiedBlock) :=
  if end_round <=? start_round then Ret None
  else
    refs ← index (ds_recent_refs_by_authority s) authority;
    keys ← bset_range (Included (mkBlockRef start_round authority BlockDigest_MIN))
             (Excluded (mkBlockRef end_round AuthorityIndex_ZERO BlockDigest_MIN)) refs;
    Ret (last keys ≫= λ block_ref, bi_block <$> ds_recent_blocks s !! block_ref).

(** The loop over one authority's references, from the highest down. *)
Fixpoint last_cached_loop s (authority : AuthorityIndex) (last_round : Round)
    (blocks : list VerifiedBlock) (equivocating : list (list BlockRef)) (refs : list BlockRef)
    : M (list VerifiedBlock * list (list BlockRef)) :=
  match refs with
  | [] => Ret (blocks, equivocating)
  | block_ref :: refs =>
      if last_round =? 0 then
        info ← expect (ds_recent_blocks s !! block_ref) "Block should found in recent blocks";
        blocks' ← index_update blocks authority (λ _, bi_block info);
        last_cached_loop s authority (br_round block_ref) blocks' equivocating refs
      else if br_round block_ref <? last_round then Ret (blocks, equivocating)
      else
        equivocating' ← index_update equivocating authority (λ l, l ++ [block_ref]);
        last_cached_loop s authority last_round blocks equivocating' refs
  end.

Definition last_cached_step s (end_round : Round)
    (acc : list VerifiedBlock * list (list BlockRef)) (entry : nat * gset BlockRef)
    : M (list VerifiedBlock * list (list BlockRef)) :=
  authority_index ← expect (Committee_to_authority_index (DagState_committee s)
                              (N.of_nat entry.1)) "unwrap";
  last_evicted_round ← index (ds_evicted_rounds s) authority_index;
  if end_round - 1 <=? last_evicted_round
  then Panic (Explicit "Attempted to request for blocks of evicted rounds")
  else
    first_round ← u32_add last_evicted_round 1;
    keys ← bset_range (Included (mkBlockRef first_round authority_index BlockDigest_MIN))
             (Excluded (mkBlockRef end_round authority_index BlockDigest_MIN)) entry.2;
    last_cached_loop s authority_index 0 acc.1 acc.2 (reverse keys).

Definition DagState_get_last_cached_block_per_authority s (end_round : Round)
    : M (list (VerifiedBlock * list BlockRef)) :=
  let blocks := (bmap_list (ds_genesis s)).*2 in
  let equivocating_blocks := replicate (N.to_nat (Committee_size (DagState_committee s))) [] in
  if end_round =? GENESIS_ROUND then
    Panic (Explicit "Attempted to retrieve blocks earlier than the genesis round")
  else if end_round =? GENESIS_ROUND + 1 then Ret ((λ b, (b, [])) <$> blocks)
  else
    '(blocks, equivocating) ←
      foldM (last_cached_step s end_round) (blocks, equivocating_blocks)
        (imap pair (ds_recent_refs_by_authority s));
    Ret (zip blocks equivocating).

Definition DagState_contains_cached_block_at_slot s (slot : Slot) : M bool :=
  if slot_round slot =? GENESIS_ROUND then Ret true
  else
    eviction_round ← index (ds_evicted_rounds s) (slot_authority slot);
    if slot_round slot <=? eviction_round
    then Panic (Explicit "Attempted to check for slot that is <= the last evicted round")
    else
      refs ← index (ds_recent_refs_by_authority s) (slot_authority slot);
      result ← bset_range (slot_bounds slot).1 (slot_bounds slot).2 refs;
      Ret (bool_decide (result ≠ [])).

(** One position of [contains_blocks]: known from memory, or left to the store. *)
Definition contains_cached s (acc : list bool * list (nat * BlockRef)) (entry : nat * BlockRef)
    : M (list bool * list (nat * BlockRef)) :=
  let '(found, missing) := acc in
  let '(i, block_ref) := entry in
  recent_refs ← index (ds_recent_refs_by_authority s) (br_author block_ref);
  if bool_decide (block_ref ∈ recent_refs) || bool_decide (is_Some (ds_genesis s !! block_ref))
  then Ret (<[i := true]> found, missing)
  else
    match bset_last recent_refs with
    | None => Ret (<[i := false]> found, missing)
    | Some last_ref =>
        if br_round last_ref <? br_round block_ref then Ret (<[i := false]> found, missing)
        else Ret (found, missing ++ [(i, block_ref)])
    end.

Definition DagState_contains_blocks s (block_refs : list BlockRef) : M (list bool) :=
  '(found, missing) ← foldM (contains_cached s) (replicate (length block_refs) false, [])
                        (imap pair block_refs);
  match missing with
  | [] => Ret found
  | _ =>
      store_results ← unwrap_ok (store_contains_blocks (ds_store s) missing.*2)
                        "Failed to read from storage";
      Ret (fill_missing found missing store_results)
  end.

Definition DagState_contains_block s (block_ref : BlockRef) : M bool :=
  blocks ← DagState_contains_blocks s [block_ref];
  expect (head blocks) "unwrap".

(** ** Marks *)

Definition DagState_set_committed s (block_ref : BlockRef) : M (DagState S * bool) :=
  match ds_recent_blocks s !! block_ref with
  | Some info =>
      if negb (bi_committed info) then
        let info' := mkBlockInfo (bi_block info) (bi_children info) (bi_children_stake info)
                       true (bi_included info) in
        Ret (set_recent_blocks (<[block_ref := info']> (ds_recent_blocks s)) s, true)
      else Ret (s, false)
  | None => Panic (Explicit "Block not found in cache to set as committed.")
  end.

Definition DagState_is_committed s (block_ref : BlockRef) : M bool :=
  match ds_recent_blocks s !! block_ref with
  | Some info => Ret (bi_committed info)
  | None => Panic (Explicit "Attempted to query for commit status for a block not in cached data")
  end.

Definition DagState_has_been_included s (block_ref : BlockRef) : M bool :=
  match ds_recent_blocks s !! block_ref with
  | Some info => Ret (bi_included info)
  | None =>
      Panic (Explicit "Attempted to query for inclusion status for a block not in cached data")
  end.

Definition mark_included (info : BlockInfo) : BlockInfo :=
  mkBlockInfo (bi_block info) (bi_children info) (bi_children_stake info) (bi_committed info) true.

Fixpoint link_loop (fuel : nat) (gc_round : Round) (recent : gmap BlockRef BlockInfo)
    (linked_blocks targets : list BlockRef) : M (gmap BlockRef BlockInfo * list BlockRef) :=
  match fuel with
  | O => NoFuel
  | Datatypes.S fuel =>
      match targets with
      | [] => Ret (recent, linked_blocks)
      | block_ref :: targets =>
          if br_round block_ref <=? gc_round
          then link_loop fuel gc_round recent linked_blocks targets
          else
            match recent !! block_ref with
            | None => Panic (Explicit "Block is not in DAG state")
            | Some info =>
                if bi_included info
                then link_loop fuel gc_round recent linked_blocks targets
                else link_loop fuel gc_round (<[block_ref := mark_included info]> recent)
                       (linked_blocks ++ [block_ref])
                       (targets ++ b_ancestors (bi_block info))
            end
      end
  end.

(** Each block is expanded at most once, so one step per cached block and per
    link is enough. *)
Definition link_fuel (recent : gmap BlockRef BlockInfo) : nat :=
  2 + sum_list ((λ e, Datatypes.S (length (b_ancestors (bi_block e.2)))) <$> map_to_list recent).

Definition DagState_link_causal_history s (root_block : BlockRef)
    : M (DagState S * list BlockRef) :=
  '(recent, linked_blocks) ←
    link_loop (link_fuel (ds_recent_blocks s)) (DagState_gc_round s) (ds_recent_blocks s) []
      [root_block];
  Ret (set_recent_blocks recent s, linked_blocks).

(** ** Round information (v3) *)

Definition DagState_get_round_info s (round : Round) : M (option RoundInfo) :=
  match ds_round_info s with
  | [] => Ret None
  | front :: _ =>
      let front_round := ri_round front in
      if (round <? front_round) || (round <=? DagState_gc_round s) then Ret None
      else
        offset ← u32_sub round front_round;
        match ds_round_info s !! N.to_nat offset with
        | None => Ret None
        | Some info =>
            assert_that (ri_round info =? round) "RoundInfo should be contiguous.";;
            Ret (Some info)
        end
  end.

Definition DagState_update_round_info s (block : VerifiedBlock) : M (DagState S) :=
  let block_ref := reference block in
  let gc_round := DagState_gc_round s in
  if b_round block <=? gc_round then Ret s
  else
    after_gc ← u32_add gc_round 1;
    next_round ← match last (ds_round_info s) with
                 | Some info => u32_add (ri_round info) 1
                 | None => Ret after_gc
                 end;
    assert_that (b_round block <=? next_round)
      "Attempted to update round info for block with round higher than next round";;
    let infos := if b_round block =? next_round
                 then ds_round_info s ++ [RoundInfo_new (b_round block)]
                 else ds_round_info s in
    front ← expect (head infos) "round_info non-empty after extend";
    offset ← u32_sub (b_round block) (ri_round front);
    info ← index infos offset;
    '(total_stake, _) ← StakeAggregator_add_unique (ri_total_stake info) (br_author block_ref)
                          (DagState_committee s);
    infos ← index_update infos offset (λ _,
              mkRoundInfo (ri_round info) ({[block_ref]} ∪ ri_blocks info) total_stake);
    Ret (set_round_info infos s).

(** ** Acceptance *)

(** Votes accounting of v3: one ancestor of [block]. *)
Definition update_children s (block_ref : BlockRef) (recent : gmap BlockRef BlockInfo)
    (ancestor : BlockRef) : M (gmap BlockRef BlockInfo) :=
  next ← u32_add (br_round ancestor) 1;
  if negb (next =? br_round block_ref) || (br_round ancestor <=? DagState_gc_round s)
  then Ret recent
  else
    match recent !! ancestor with
    | None => Panic (Explicit "Parent block does not exist")
    | Some info =>
        '(children_stake, _) ← StakeAggregator_add_unique (bi_children_stake info)
                                 (br_author block_ref) (DagState_committee s);
        Ret (<[ancestor := mkBlockInfo (bi_block info) ({[block_ref]} ∪ bi_children info)
                             children_stake (bi_committed info) (bi_included info)]> recent)
    end.

Definition DagState_update_block_metadata s (block : VerifiedBlock) : M (DagState S) :=
  let block_ref := reference block in
  let s := set_recent_blocks (<[block_ref := BlockInfo_new block]> (ds_recent_blocks s)) s in
  refs ← index_update (ds_recent_refs_by_authority s) (br_author block_ref) (union {[block_ref]});
  let s := set_recent_refs_by_authority refs s in
  s ← (if pc_enable_v3 (DagState_protocol_config s) then
         recent ← foldM (update_children s block_ref) (ds_recent_blocks s) (b_ancestors block);
         DagState_update_round_info (set_recent_blocks recent s) block
       else Ret s);
  '(clock, advanced) ← ThresholdClock_add_block (DagState_committee s) (ds_threshold_clock s)
                         block_ref;
  let s := set_threshold_clock clock s in
  _ ← (if advanced : bool then DagState_get_last_proposed_block s else Ret None);
  let s := set_highest_accepted_round
             (N.max (ds_highest_accepted_round s) (b_round block)) s in
  refs ← index (ds_recent_refs_by_authority s) (br_author block_ref);
  expect (bset_last refs) "There should be by now at least one block ref";;
  Committee_authority (DagState_committee s) (br_author block_ref);;
  Ret s.

(** No second block in one of this authority's own slots. *)
Definition check_own_slot s (block_ref : BlockRef) : M unit :=
  if br_author block_ref =? ctx_own_index (ds_context s) then
    existing_blocks ← DagState_get_uncommitted_blocks_at_slot s (Slot_from block_ref);
    if negb (ctx_skip_equivocation_validation (ds_context s)) then
      assert_that (match existing_blocks with [] => true | _ => false end)
        "Block Rejected! Attempted to add block to own slot where block(s) already exists."
    else Ret tt
  else Ret tt.

Definition DagState_accept_block s (block : VerifiedBlock) : M (DagState S) :=
  assert_that (negb (b_round block =? 0)) "Genesis block should not be accepted into DAG.";;
  let block_ref := reference block in
  known ← DagState_contains_block s block_ref;
  if known : bool then Ret s
  else
    Committee_authority (DagState_committee s) (br_author block_ref);;
    check_own_slot s block_ref;;
    s ← DagState_update_block_metadata s block;
    Ret (set_blocks_to_write (ds_blocks_to_write s ++ [block]) s).

Definition DagState_accept_blocks s (blocks : list VerifiedBlock) : M (DagState S) :=
  foldM DagState_accept_block s blocks.

(** ** Commits *)

Definition raise_committed_round (rounds : list Round) (block_ref : BlockRef) : M (list Round) :=
  round ← index rounds (br_author block_ref);
  index_update rounds (br_author block_ref) (λ _, N.max round (br_round block_ref)).

Definition DagState_add_commit s (commit : TrustedCommit) : M (DagState S) :=
  skip ← match ds_last_commit s with
         | Some last_commit =>
             if c_index commit <=? c_index last_commit then Ret true
             else
               next ← u32_add (c_index last_commit) 1;
               assert_that (c_index commit =? next) "commit.index() == last_commit.index() + 1";;
               if c_timestamp_ms commit <? c_timestamp_ms last_commit
               then Panic (Explicit "Commit timestamps do not monotonically increment")
               else Ret false
         | None => assert_that (c_index commit =? 1) "commit.index() == 1";; Ret false
         end;
  if skip : bool then Ret s
  else
    let s := set_last_commit (Some commit) s in
    rounds ← foldM raise_committed_round (ds_last_committed_rounds s) (c_blocks commit);
    let s := set_last_committed_rounds rounds s in
    mapP (λ i, expect (Committee_to_authority_index (DagState_committee s) (N.of_nat i)) "unwrap")
      (seq 0 (length rounds));;
    let s := set_pending_commit_votes
               (ds_pending_commit_votes s ++ [TrustedCommit_reference commit]) s in
    Ret (set_commits_to_write (ds_commits_to_write s ++ [commit]) s).

Definition DagState_recover_commits_to_write s (commits : list TrustedCommit) : DagState S :=
  set_commits_to_write (ds_commits_to_write s ++ commits) s.

Definition DagState_ensure_commits_to_write_is_empty s : M unit :=
  assert_that (match ds_commits_to_write s with [] => true | _ => false end)
    "Commits to write should be empty.".

Definition DagState_add_commit_info s (reputation_scores : ReputationScores) : M (DagState S) :=
  assert_that (ScoringSubdag_is_empty (ds_scoring_subdag s)) "self.scoring_subdag.is_empty()";;
  last_commit ← expect (ds_last_commit s) "Last commit should already be set.";
  Ret (set_commit_info_to_write
         (ds_commit_info_to_write s ++
            [(TrustedCommit_reference last_commit,
              mkCommitInfo (ds_last_committed_rounds s) reputation_scores)]) s).

Definition DagState_add_finalized_commit s (commit_ref : CommitRef)
    (rejected_transactions : RejectedTransactions) : DagState S :=
  set_finalized_commits_to_write
    (ds_finalized_commits_to_write s ++ [(commit_ref, rejected_transactions)]) s.

Fixpoint take_votes_loop (limit : N) (votes pending : list CommitVote)
    : list CommitVote * list CommitVote :=
  match pending with
  | [] => (votes, pending)
  | vote :: rest =>
      if N.of_nat (length votes) <? limit then take_votes_loop limit (votes ++ [vote]) rest
      else (votes, pending)
  end.

Definition DagState_take_commit_votes s (limit : N) : DagState S * list CommitVote :=
  let '(votes, pending) := take_votes_loop limit [] (ds_pending_commit_votes s) in
  (set_pending_commit_votes pending s, votes).

(** ** Flush and eviction *)

(** Pops references from the front while they are at or below [eviction_round]. *)
Fixpoint evict_loop (eviction_round : Round) (recent : gmap BlockRef BlockInfo)
    (refs : gset BlockRef) (sorted : list BlockRef) : gmap BlockRef BlockInfo * gset BlockRef :=
  match sorted with
  | [] => (recent, refs)
  | block_ref :: sorted =>
      if br_round block_ref <=? eviction_round
      then evict_loop eviction_round (delete block_ref recent) (refs ∖ {[block_ref]}) sorted
      else (recent, refs)
  end.

Definition evict_authority s (authority : AuthorityIndex) : M (DagState S) :=
  eviction_round ← DagState_calculate_authority_eviction_round s authority;
  refs ← index (ds_recent_refs_by_authority s) authority;
  let '(recent, refs) := evict_loop eviction_round (ds_recent_blocks s) refs (bset_list refs) in
  all_refs ← index_update (ds_recent_refs_by_authority s) authority (λ _, refs);
  evicted ← index_update (ds_evicted_rounds s) authority (λ _, eviction_round);
  Ret (set_evicted_rounds evicted
         (set_recent_refs_by_authority all_refs (set_recent_blocks recent s))).

Fixpoint drop_round_info (gc_round : Round) (infos : list RoundInfo) : list RoundInfo :=
  match infos with
  | [] => []
  | info :: rest => if ri_round info <=? gc_round then drop_round_info gc_round rest else infos
  end.

Definition is_nil {A} (l : list A) : bool := match l with [] => true | _ => false end.

Definition DagState_flush s : M (DagState S) :=
  let pending_blocks := ds_blocks_to_write s in
  let pending_commits := ds_commits_to_write s in
  let pending_commit_info := ds_commit_info_to_write s in
  let pending_finalized_commits := ds_finalized_commits_to_write s in
  let s := set_finalized_commits_to_write [] (set_commit_info_to_write []
             (set_commits_to_write [] (set_blocks_to_write [] s))) in
  if is_nil pending_blocks && is_nil pending_commits && is_nil pending_commit_info &&
     is_nil pending_finalized_commits
  then Ret s
  else
    store ← unwrap_ok (store_write (ds_store s)
              (mkWriteBatch pending_blocks pending_commits pending_commit_info
                 pending_finalized_commits)) "Failed to write to storage";
    s ← foldM evict_authority (set_store store s)
          (Committee_authorities_iter (DagState_committee s)).*1;
    Ret (set_round_info (drop_round_info (DagState_gc_round s) (ds_round_info s)) s).

(** ** Scoring *)

Definition DagState_recover_last_commit_info s : M (option (CommitRef * CommitInfo)) :=
  unwrap_ok (store_read_last_commit_info (ds_store s)) "Failed to read from storage".

Definition DagState_add_scoring_subdags s (subdags : list CommittedSubDag) : M (DagState S) :=
  subdag ← ScoringSubdag_add_subdags (ds_scoring_subdag s) subdags;
  Ret (set_scoring_subdag subdag s).

Definition DagState_clear_scoring_subdag s : DagState S :=
  set_scoring_subdag (ScoringSubdag_clear (ds_scoring_subdag s)) s.

Definition DagState_scoring_subdags_count s : M N :=
  ScoringSubdag_scored_subdags_count (ds_scoring_subdag s).

Definition DagState_calculate_scoring_subdag_scores s : M ReputationScores :=
  ScoringSubdag_calculate_distributed_vote_scores (ds_scoring_subdag s).

Definition DagState_scoring_subdag_commit_range s : M CommitIndex :=
  range ← expect (ss_commit_range (ds_scoring_subdag s))
            "commit range should exist for scoring subdag";
  Ret (CommitRange_end range).

(** ** Recovery *)

(** Commits since the last [CommitInfo]: committed rounds and unscored sub-dags. *)
Definition recover_commit (store : S) (acc : list Round * list CommittedSubDag)
    (commit : TrustedCommit) : M (list Round * list CommittedSubDag) :=
  rounds ← foldM raise_committed_round acc.1 (c_blocks commit);
  committed_subdag ← load_committed_subdag_from_store store commit;
  Ret (rounds, acc.2 ++ [committed_subdag]).

(** The blocks of one authority after its eviction round. *)
Definition recover_authority (acc : DagState S * list VerifiedBlock) (authority : AuthorityIndex)
    : M (DagState S * list VerifiedBlock) :=
  let '(s, recovered_blocks) := acc in
  last_block ← unwrap_ok (store_scan_last_blocks_by_author (ds_store s) authority 1 None)
                 "Database error";
  let last_block_round :=
    default GENESIS_ROUND ((λ b : VerifiedBlock, b_round b) <$> last last_block) in
  let er := eviction_round last_block_round (DagState_gc_round s) (ds_cached_rounds s) in
  first_round ← u32_add er 1;
  blocks ← unwrap_ok (store_scan_blocks_by_author (ds_store s) authority first_round)
             "Database error";
  evicted ← index_update (ds_evicted_rounds s) authority (λ _, er);
  Ret (set_evicted_rounds evicted s, recovered_blocks ++ blocks).

(** Commit marks, from the last commit backwards to the GC round. *)
Fixpoint recover_committed (steps : nat) (gc_round : Round) s (i : CommitIndex)
    : M (DagState S) :=
  match steps with
  | O => NoFuel
  | Datatypes.S steps =>
      commits ← unwrap_ok (store_scan_commits (ds_store s) (CommitRange_new i i))
                  "Failed to read from storage";
      match commits with
      | [] => Ret s
      | commit :: _ =>
          if (0 <? gc_round) && (br_round (c_leader (tcm_inner commit)) <=? gc_round) then Ret s
          else
            s ← (if pc_enable_v3 (DagState_protocol_config s) then
                   rounds ← foldM raise_committed_round (ds_last_committed_rounds s)
                              (c_blocks (tcm_inner commit));
                   Ret (set_last_committed_rounds rounds s)
                 else Ret s);
            s ← foldM (λ s block_ref,
                         '(s, fresh) ← DagState_set_committed s block_ref;
                         assert_that fresh "Attempted to set again a block as committed";;
                         Ret s)
                  s (filter (λ b, gc_round < br_round b) (c_blocks (tcm_inner commit)));
            let i := i - 1 in
            if i =? 0 then Ret s else recover_committed steps gc_round s i
      end
  end.

Definition DagState_new (ctx : Context) (store : S) : M (DagState S) :=
  let num_authorities := N.to_nat (Committee_size (ctx_committee ctx)) in
  genesis ← genesis_blocks ctx;
  let genesis : gmap BlockRef VerifiedBlock :=
    list_to_map (reverse ((λ block, (reference block, block)) <$> genesis)) in
  last_commit ← unwrap_ok (store_read_last_commit store) "Failed to read from storage";
  commit_info ← unwrap_ok (store_read_last_commit_info store) "Failed to read from storage";
  '(last_committed_rounds, commit_recovery_start_index) ←
    match commit_info with
    | Some (commit_ref, commit_info) =>
        start ← u32_add (cr_index commit_ref) 1; Ret (ci_committed_rounds commit_info, start)
    | None => Ret (replicate num_authorities 0, GENESIS_COMMIT_INDEX + 1)
    end;
  '(last_committed_rounds, unscored) ←
    match pc_enable_v3 (ctx_protocol_config ctx), last_commit with
    | false, Some last_commit =>
        commits ← unwrap_ok (store_scan_commits store
                    (CommitRange_new commit_recovery_start_index (c_index (tcm_inner last_commit))))
                    "Failed to read from storage";
        foldM (recover_commit store) (last_committed_rounds, []) commits
    | _, _ => Ret (last_committed_rounds, [])
    end;
  scoring_subdag ← ScoringSubdag_add_subdags (ScoringSubdag_new ctx) unscored;
  let s :=
    {| ds_context := ctx; ds_genesis := genesis; ds_recent_blocks := ∅;
       ds_recent_refs_by_authority := replicate num_authorities ∅; ds_round_info := [];
       ds_threshold_clock := ThresholdClock_new 1;
       ds_evicted_rounds := replicate num_authorities 0; ds_highest_accepted_round := 0;
       ds_last_commit := last_commit; ds_last_committed_rounds := last_committed_rounds;
       ds_scoring_subdag := scoring_subdag; ds_pending_commit_votes := [];
       ds_blocks_to_write := []; ds_commits_to_write := []; ds_commit_info_to_write := [];
       ds_finalized_commits_to_write := []; ds_store := store;
       ds_cached_rounds := ctx_dag_state_cached_rounds ctx |} in
  '(s, recovered_blocks) ← foldM recover_authority (s, [])
                             (Committee_authorities_iter (ctx_committee ctx)).*1;
  s ← foldM DagState_update_block_metadata s
        (stable_sort (λ a b, le_ord (reference a) (reference b)) recovered_blocks);
  s ← match last_commit with
      | Some last_commit =>
          let i := c_index (tcm_inner last_commit) in
          recover_committed (N.to_nat (N.max i 1)) (DagState_gc_round s) s i
      | None => Ret s
      end;
  first_round ← u32_add (DagState_gc_round s) 1;
  proposed_blocks ← unwrap_ok (store_scan_blocks_by_author store (ctx_own_index ctx) first_round)
                      "Database error";
  foldM (λ s block, fst <$> DagState_link_causal_history s (reference block)) s proposed_blocks.

End DagState.
