(* ===== verification/DagTheory.v ===== *)
(** * What [DagState] promises

    A [DagState] refines a growing map from references to blocks, [ds_block]:
    the genesis blocks, the blocks cached in memory and the blocks in the store.
    The invariant [ds_ok] relates the cache, the index by authority, the buffer
    of unwritten blocks and the store; every operation preserves it, and reads
    through the cache agree with the map. *)

From S2P Require Import Prelude BTree Config Block Commit Store StakeAggregator ThresholdClock.
From S2P Require Import LeaderScoring DagState.
Local Open Scope N_scope.

(** ** Reads by position

    [get_blocks] and [contains_blocks] fill a vector in two passes: the entries
    known from memory, then the rest from the store. *)

Section Positions.
Context {A : Type} (look : BlockRef → option A) (d : A).

Fixpoint missing_at (k : nat) (refs : list BlockRef) : list (nat * BlockRef) :=
  match refs with
  | [] => []
  | r :: refs =>
      match look r with
      | Some _ => missing_at (S k) refs
      | None => (k, r) :: missing_at (S k) refs
      end
  end.

Context (step : list A * list (nat * BlockRef) → nat * BlockRef → list A * list (nat * BlockRef)).
Context (step_spec : ∀ pre post miss r,
  step (pre ++ d :: post, miss) (length pre, r) =
    match look r with
    | Some a => (pre ++ a :: post, miss)
    | None => (pre ++ d :: post, miss ++ [(length pre, r)])
    end).

Lemma positions_fold refs pre miss :
  foldl step (pre ++ replicate (length refs) d, miss) (imap (λ i r, (length pre + i, r)%nat) refs) =
    (pre ++ (default d ∘ look <$> refs), miss ++ missing_at (length pre) refs).
Proof using step_spec.
  revert pre miss. induction refs as [|r refs IH]; intros pre miss; csimpl.
  - by rewrite !app_nil_r.
  - rewrite Nat.add_0_r, step_spec.
    assert (∀ a : A, imap ((λ i r, (length pre + i, r)%nat) ∘ S) refs =
                     imap (λ i r, (length (pre ++ [a]) + i, r)%nat) refs) as Himap.
    { intros a. apply imap_ext. intros i x _. simpl. rewrite length_app. simpl. f_equal. lia. }
    destruct (look r) as [a|]; simpl.
    + rewrite (Himap a), (cons_middle a), app_assoc, IH, length_app, Nat.add_1_r.
      by rewrite <- app_assoc.
    + rewrite (Himap d), (cons_middle d), app_assoc, IH, length_app, Nat.add_1_r.
      by rewrite <- !app_assoc.
Qed.

Lemma fill_missing_spec (f : BlockRef → A) refs pre :
  fill_missing (pre ++ (default d ∘ look <$> refs)) (missing_at (length pre) refs)
    (f <$> (missing_at (length pre) refs).*2) =
  pre ++ ((λ r, default (f r) (look r)) <$> refs).
Proof.
  unfold fill_missing. revert pre. induction refs as [|r refs IH]; intros pre; csimpl; [done|].
  assert (∀ a : A, S (length pre) = length (pre ++ [a])) as Hlen.
  { intros a. rewrite length_app. simpl. lia. }
  destruct (look r) as [a|]; csimpl.
  - rewrite (cons_middle a), app_assoc, (Hlen a), IH. by rewrite <- app_assoc.
  - rewrite insert_app_r_alt, Nat.sub_diag by done. simpl.
    rewrite (cons_middle (f r)), app_assoc, (Hlen (f r)), IH. by rewrite <- app_assoc.
Qed.

End Positions.

Section DagTheory.
Context `{Profile} `{Crypto} {S : Type} `{StoreLaws S}.
Implicit Types s : DagState S.

(** ** The map of blocks *)

Definition ds_block s (r : BlockRef) : option VerifiedBlock :=
  if br_round r =? GENESIS_ROUND then ds_genesis s !! r
  else match ds_recent_blocks s !! r with
       | Some info => Some (bi_block info)
       | None => st_block (ds_store s) r
       end.

Definition cached_look s (r : BlockRef) : option (option VerifiedBlock) :=
  if br_round r =? GENESIS_ROUND then Some (ds_genesis s !! r)
  else match ds_recent_blocks s !! r with
       | Some info => Some (Some (bi_block info))
       | None => None
       end.

Lemma ds_block_look s r : ds_block s r = default (st_block (ds_store s) r) (cached_look s r).
Proof.
  unfold ds_block, cached_look. destruct (_ =? _); [done|]. by destruct (_ !! r).
Qed.

Lemma missing_at_nil {A} (look : BlockRef → option A) k refs f d :
  missing_at look k refs = [] →
  default d ∘ look <$> refs = (λ r, default (f r) (look r)) <$> refs.
Proof.
  revert k. induction refs as [|r refs IH]; intros k; csimpl; [done|].
  destruct (look r) eqn:E; simpl; [|done]. intros ?. f_equal. by eapply IH.
Qed.

Lemma get_blocks_spec s refs :
  st_ok (ds_store s) → DagState_get_blocks s refs = Ret (ds_block s <$> refs).
Proof.
  intros Hok. unfold DagState_get_blocks.
  assert (ds_block s <$> refs =
          (λ r, default (st_block (ds_store s) r) (cached_look s r)) <$> refs) as ->.
  { apply list_fmap_ext. intros ???. apply ds_block_look. }
  destruct refs as [|r0 refs0] eqn:Erefs; [done|]. rewrite <- Erefs. clear r0 refs0 Erefs.
  pose proof (positions_fold (cached_look s) None (get_cached s)) as Hfold.
  lapply Hfold; clear Hfold.
  - intros Hfold. specialize (Hfold refs [] []). simpl in Hfold.
    change (imap (λ i r, (i, r)) refs) with (imap pair refs) in Hfold. rewrite Hfold.
    destruct (missing_at (cached_look s) 0 refs) as [|m ms] eqn:Em.
    + f_equal. by eapply missing_at_nil.
    + rewrite <- Em. unfold unwrap_ok. rewrite st_read_blocks by done. simpl. f_equal.
      apply (fill_missing_spec (cached_look s) None (st_block (ds_store s)) refs []).
  - intros pre post miss r. unfold get_cached, cached_look. destruct (_ =? _); simpl.
    + destruct (ds_genesis s !! r); [|done].
      by rewrite insert_app_r_alt, Nat.sub_diag by done.
    + destruct (ds_recent_blocks s !! r); [|done].
      by rewrite insert_app_r_alt, Nat.sub_diag by done.
Qed.

Lemma get_block_spec s r :
  st_ok (ds_store s) → DagState_get_block s r = Ret (ds_block s r).
Proof. intros. unfold DagState_get_block. by rewrite get_blocks_spec. Qed.

(** ** The invariant *)

Definition ds_cached s (r : BlockRef) : option VerifiedBlock :=
  bi_block <$> ds_recent_blocks s !! r.

Record ds_ok s : Prop := {
  ok_committee : Committee_wf (DagState_committee s);
  ok_cached_rounds : 1 ≤ ds_cached_rounds s;
  ok_store : st_ok (ds_store s);
  ok_store_author : ∀ r b, st_block (ds_store s) r = Some b →
    0 < br_round r ∧ br_author r ∈ members (DagState_committee s);
  ok_genesis : ∀ r b, ds_genesis s !! r = Some b → reference b = r ∧ br_round r = GENESIS_ROUND;
  ok_genesis_author : ∀ i, i ∈ members (DagState_committee s) →
    ∃ r b, ds_genesis s !! r = Some b ∧ br_author r = i;
  ok_cached : ∀ r b, ds_cached s r = Some b →
    reference b = r ∧ 0 < br_round r ∧ ref_valid r ∧
    br_author r ∈ members (DagState_committee s);
  ok_refs_len : length (ds_recent_refs_by_authority s) =
                length (Committee_authorities (DagState_committee s));
  ok_refs : ∀ i refs, ds_recent_refs_by_authority s !! N.to_nat i = Some refs →
    ∀ r, r ∈ refs ↔ br_author r = i ∧ is_Some (ds_cached s r);
  ok_evicted_len : length (ds_evicted_rounds s) =
                   length (Committee_authorities (DagState_committee s));
  ok_persisted : ∀ r b, ds_cached s r = Some b →
    b ∈ ds_blocks_to_write s ∨ st_block (ds_store s) r = Some b;
  ok_buffered : ∀ b, b ∈ ds_blocks_to_write s → ds_cached s (reference b) = Some b;
  ok_buffer_NoDup : NoDup (reference <$> ds_blocks_to_write s);
  ok_stored : ∀ r b b', st_block (ds_store s) r = Some b → ds_cached s r = Some b' → b' = b;
  ok_evicted : ∀ r b, st_block (ds_store s) r = Some b → ds_cached s r = None →
    ∃ er, ds_evicted_rounds s !! N.to_nat (br_author r) = Some er ∧ br_round r ≤ er;
  ok_evicted_gc : ∀ i er, ds_evicted_rounds s !! N.to_nat i = Some er →
    er ≤ DagState_gc_round s;
  ok_clock : clock_ok (DagState_committee s) (ds_threshold_clock s);
  ok_evicted_low : ∀ i er, ds_evicted_rounds s !! N.to_nat i = Some er →
    er = 0 ∨ ∃ r, is_Some (ds_cached s r) ∧ br_author r = i ∧
                  er + ds_cached_rounds s ≤ br_round r;
}.

(** The invariant and the map of blocks depend on these fields only. *)
Record same_view s s' : Prop := {
  sv_context : ds_context s' = ds_context s;
  sv_genesis : ds_genesis s' = ds_genesis s;
  sv_cached : ∀ r, ds_cached s' r = ds_cached s r;
  sv_refs : ds_recent_refs_by_authority s' = ds_recent_refs_by_authority s;
  sv_evicted : ds_evicted_rounds s' = ds_evicted_rounds s;
  sv_buffer : ds_blocks_to_write s' = ds_blocks_to_write s;
  sv_store : ds_store s' = ds_store s;
  sv_cached_rounds : ds_cached_rounds s' = ds_cached_rounds s;
  sv_clock : ds_threshold_clock s' = ds_threshold_clock s;
}.

Lemma ds_block_cached s r :
  ds_block s r = if br_round r =? GENESIS_ROUND then ds_genesis s !! r
                 else match ds_cached s r with
                      | Some b => Some b
                      | None => st_block (ds_store s) r
                      end.
Proof. unfold ds_block, ds_cached. by destruct (ds_recent_blocks s !! r). Qed.

Lemma same_view_block s s' r : same_view s s' → ds_block s' r = ds_block s r.
Proof. intros []. rewrite !ds_block_cached. by rewrite sv_genesis0, sv_cached0, sv_store0. Qed.

Lemma same_view_ok s s' :
  same_view s s' → DagState_gc_round s ≤ DagState_gc_round s' → ds_ok s → ds_ok s'.
Proof.
  intros [Hc Hg Hca Hr He Hb Hs Hcr Hcl] Hgc [].
  split; unfold DagState_committee in *; rewrite ?Hc, ?Hg, ?Hr, ?He, ?Hb, ?Hs, ?Hcr, ?Hcl;
    try setoid_rewrite Hca; try done.
  intros i er Hi. specialize (ok_evicted_gc0 i er Hi). lia.
Qed.

Lemma index_member {A} s (l : list A) i :
  length l = length (Committee_authorities (DagState_committee s)) →
  i ∈ members (DagState_committee s) → ∃ a, l !! N.to_nat i = Some a.
Proof.
  intros Hl Hi. apply lookup_lt_is_Some. rewrite Hl.
  apply members_spec in Hi. unfold Committee_is_valid_index, Committee_size in Hi. nbool. lia.
Qed.

(** A stored block is not above the highest cached block of its author. *)
Lemma ok_frontier s r b :
  ds_ok s → st_block (ds_store s) r = Some b →
  ∃ r', is_Some (ds_cached s r') ∧ br_author r' = br_author r ∧ br_round r ≤ br_round r'.
Proof.
  intros Hok Hb. destruct (ds_cached s r) as [b'|] eqn:Hc; [by eauto|].
  destruct (ok_evicted s Hok r b Hb Hc) as (er & Her & Hle).
  destruct (ok_store_author s Hok r b Hb) as [Hpos _].
  destruct (ok_evicted_low s Hok _ _ Her) as [->|(r' & ? & ? & ?)]; [lia|].
  exists r'. split_and!; [done..|lia].
Qed.

Lemma cached_is_block s r b : ds_ok s → ds_cached s r = Some b → ds_block s r = Some b.
Proof.
  intros Hok Hc. destruct (ok_cached s Hok r b Hc) as (_ & Hpos & _). rewrite ds_block_cached.
  destruct (N.eqb_spec (br_round r) GENESIS_ROUND) as [E|_]; [unfold GENESIS_ROUND in E; lia|]. by rewrite Hc.
Qed.

Lemma block_above_gc_cached s r b : ds_ok s → ds_block s r = Some b → DagState_gc_round s < br_round r → ds_cached s r = Some b.
Proof.
  intros Hok. rewrite ds_block_cached. intros Hb Hgt. destruct (N.eqb_spec (br_round r) GENESIS_ROUND) as [E|_]; [unfold GENESIS_ROUND in E; lia|].
  destruct (ds_cached s r) as [b'|] eqn:Ec; [done|]. destruct (ok_evicted s Hok r b Hb Ec) as (er & Her & Hle).
  pose proof (ok_evicted_gc s Hok _ er Her). lia.
Qed.

(** ** Existence checks *)

Definition contains_look s (r : BlockRef) : option bool :=
  if bool_decide (is_Some (ds_cached s r)) || bool_decide (is_Some (ds_genesis s !! r))
  then Some true
  else match ds_recent_refs_by_authority s !! N.to_nat (br_author r) with
       | Some refs =>
           match bset_last refs with
           | Some last_ref => if br_round last_ref <? br_round r then Some false else None
           | None => Some false
           end
       | None => None
       end.

Lemma contains_look_spec s r :
  ds_ok s → br_author r ∈ members (DagState_committee s) →
  default (bool_decide (is_Some (st_block (ds_store s) r))) (contains_look s r) =
  bool_decide (is_Some (ds_block s r)).
Proof.
  intros Hok Hr. unfold contains_look. rewrite ds_block_cached.
  destruct (ds_cached s r) as [b|] eqn:Hc.
  { rewrite (bool_decide_eq_true_2 (is_Some (Some b))) by done. simpl.
    destruct (ok_cached s Hok r b Hc) as (_ & Hpos & _).
    destruct (N.eqb_spec (br_round r) GENESIS_ROUND) as [E|_]; [rewrite E in Hpos; done|].
    by rewrite bool_decide_eq_true_2. }
  rewrite (bool_decide_eq_false_2 (is_Some None)) by (by intros [??]). simpl.
  destruct (ds_genesis s !! r) as [b|] eqn:Hg.
  { rewrite (bool_decide_eq_true_2 (is_Some (Some b))) by done. simpl.
    destruct (ok_genesis s Hok r b Hg) as [_ ->]. rewrite N.eqb_refl.
    by rewrite bool_decide_eq_true_2. }
  rewrite (bool_decide_eq_false_2 (is_Some None)) by (by intros [??]). simpl.
  destruct (index_member s _ _ (ok_refs_len s Hok) Hr) as [refs Hrefs]. rewrite Hrefs.
  pose proof (ok_refs s Hok _ refs Hrefs) as Helem.
  destruct (st_block (ds_store s) r) as [b|] eqn:Hb.
  - destruct (ok_store_author s Hok r b Hb) as [Hpos _].
    destruct (N.eqb_spec (br_round r) GENESIS_ROUND) as [E|_]; [rewrite E in Hpos; done|].
    rewrite bool_decide_eq_true_2 by done.
    destruct (ok_frontier s r b Hok Hb) as (r' & Hc' & Ha & Hle).
    assert (r' ∈ refs) as Hin by (by apply Helem).
    destruct (bset_last refs) as [last_ref|] eqn:El.
    + apply bset_last_Some in El as [_ Hmax].
      apply Hmax, BlockRef_le_round in Hin. destruct (N.ltb_spec (br_round last_ref) (br_round r));
        [lia|done].
    + apply bset_last_None in El. set_solver.
  - replace (if br_round r =? GENESIS_ROUND then None else None) with (@None VerifiedBlock)
      by (by destruct (_ =? _)).
    rewrite bool_decide_eq_false_2 by (by intros [??]).
    destruct (bset_last refs); [|done]. by destruct (_ <? _).
Qed.

Lemma contains_cached_look s i r acc :
  ds_ok s → br_author r ∈ members (DagState_committee s) →
  contains_cached s acc (i, r) =
    Ret (match contains_look s r with
         | Some b => (<[i := b]> acc.1, acc.2)
         | None => (acc.1, acc.2 ++ [(i, r)])
         end).
Proof.
  intros Hok Hr. destruct acc as [found missing]. unfold contains_cached, contains_look.
  destruct (index_member s _ _ (ok_refs_len s Hok) Hr) as [refs Hrefs].
  unfold index. rewrite Hrefs. simpl.
  assert (bool_decide (r ∈ refs) = bool_decide (is_Some (ds_cached s r))) as ->.
  { apply bool_decide_ext. rewrite (ok_refs s Hok _ refs Hrefs). naive_solver. }
  destruct (_ || _); simpl; [done|]. destruct (bset_last refs); simpl; [|done].
  by destruct (_ <? _).
Qed.

Lemma contains_blocks_spec s refs :
  ds_ok s → (∀ r, r ∈ refs → br_author r ∈ members (DagState_committee s)) →
  DagState_contains_blocks s refs = Ret ((λ r, bool_decide (is_Some (ds_block s r))) <$> refs).
Proof.
  intros Hok Hrefs. unfold DagState_contains_blocks.
  set (step := λ (acc : list bool * list (nat * BlockRef)) (e : nat * BlockRef),
    match contains_look s e.2 with
    | Some b => (<[e.1 := b]> acc.1, acc.2)
    | None => (acc.1, acc.2 ++ [e])
    end).
  assert (∀ es acc, (∀ e, e ∈ es → br_author e.2 ∈ members (DagState_committee s)) →
            foldM (contains_cached s) acc es = Ret (foldl step acc es)) as Hpure.
  { induction es as [|[i r] es IH]; intros acc Hes; simpl; [done|].
    rewrite contains_cached_look by (done || apply (Hes (i, r)); by left). simpl.
    apply IH. intros e ?. apply Hes. by right. }
  rewrite Hpure; clear Hpure.
  - pose proof (positions_fold (contains_look s) false step) as Hfold.
    lapply Hfold; clear Hfold.
    + intros Hfold. specialize (Hfold refs [] []). simpl in Hfold.
      change (imap (λ i r, (i, r)) refs) with (imap pair refs) in Hfold. rewrite Hfold. simpl.
      assert ((λ r, bool_decide (is_Some (ds_block s r))) <$> refs =
        (λ r, default (bool_decide (is_Some (st_block (ds_store s) r))) (contains_look s r))
          <$> refs) as ->.
      { apply list_fmap_ext. intros i r Hi. symmetry. apply contains_look_spec; [done|].
        apply Hrefs. by eapply list_elem_of_lookup_2. }
      destruct (missing_at (contains_look s) 0 refs) as [|m ms] eqn:Em.
      * f_equal. by eapply missing_at_nil.
      * rewrite <- Em. unfold unwrap_ok. rewrite st_contains_blocks by apply Hok. simpl. f_equal.
        apply (fill_missing_spec (contains_look s) false _ refs []).
    + intros pre post miss r. unfold step. simpl. destruct (contains_look s r); [|done].
      by rewrite insert_app_r_alt, Nat.sub_diag by done.
  - intros [i r] Hin. apply elem_of_lookup_imap in Hin as (i' & r' & [= -> ->] & Hin).
    apply Hrefs. by eapply list_elem_of_lookup_2.
Qed.

Lemma contains_block_spec s r :
  ds_ok s → br_author r ∈ members (DagState_committee s) →
  DagState_contains_block s r = Ret (bool_decide (is_Some (ds_block s r))).
Proof.
  intros Hok Hr. unfold DagState_contains_block.
  rewrite contains_blocks_spec; [done|done|]. by intros ? ->%list_elem_of_singleton.
Qed.

(** ** Acceptance *)

Definition same_blocks (m m' : gmap BlockRef BlockInfo) : Prop :=
  ∀ r, bi_block <$> m' !! r = bi_block <$> m !! r.

Lemma update_children_same s block_ref recent ancestor recent' :
  update_children s block_ref recent ancestor = Ret recent' → same_blocks recent recent'.
Proof.
  unfold update_children. intros Hu. apply bind_Ret in Hu as (next & _ & Hu).
  destruct (_ || _); [by simplify_eq|].
  destruct (recent !! ancestor) as [info|] eqn:Ha; [|done].
  apply bind_Ret in Hu as ([stake fresh] & _ & Hu). simplify_eq. intros r.
  destruct (decide (ancestor = r)) as [<-|].
  - by rewrite lookup_insert_eq, Ha.
  - by rewrite lookup_insert_ne.
Qed.

Lemma update_children_all_same s block_ref recent ancestors recent' :
  foldM (update_children s block_ref) recent ancestors = Ret recent' → same_blocks recent recent'.
Proof.
  apply (foldM_invariant _ (same_blocks recent)); [|done].
  intros m a m' _ Hm Hu%update_children_same r. by rewrite Hu.
Qed.

Lemma update_round_info_fields s block s' :
  DagState_update_round_info s block = Ret s' → ∃ infos, s' = set_round_info infos s.
Proof.
  unfold DagState_update_round_info. intros Hu.
  destruct (_ <=? _); [simplify_eq; by exists (ds_round_info s'); destruct s'|].
  mskip Hu. simplify_eq. eauto.
Qed.

(** The fields [update_block_metadata] may touch. *)
Lemma update_block_metadata_fields s block s' :
  DagState_update_block_metadata s block = Ret s' →
  ∃ refs, ds_recent_refs_by_authority s !! N.to_nat (b_author block) = Some refs ∧
  ds_recent_refs_by_authority s' =
    <[N.to_nat (b_author block) := {[reference block]} ∪ refs]> (ds_recent_refs_by_authority s) ∧
  (∀ r, ds_cached s' r = if decide (r = reference block) then Some block else ds_cached s r) ∧
  ds_context s' = ds_context s ∧ ds_genesis s' = ds_genesis s ∧
  ds_evicted_rounds s' = ds_evicted_rounds s ∧ ds_blocks_to_write s' = ds_blocks_to_write s ∧
  ds_store s' = ds_store s ∧ ds_cached_rounds s' = ds_cached_rounds s ∧
  ds_last_commit s' = ds_last_commit s ∧
  ds_highest_accepted_round s' = N.max (ds_highest_accepted_round s) (b_round block) ∧
  ∃ advanced, ThresholdClock_add_block (DagState_committee s) (ds_threshold_clock s)
                (reference block) = Ret (ds_threshold_clock s', advanced).
Proof.
  unfold DagState_update_block_metadata. intros Hu.
  apply bind_Ret in Hu as (refs' & Hrefs & Hu). cbn beta zeta in Hu.
  apply index_update_Ret in Hrefs as (refs & Hrefs & ->).
  apply bind_Ret in Hu as (s1 & Hs1 & Hu).
  apply bind_Ret in Hu as ([clock advanced] & Hclock & Hu). cbn beta iota zeta in Hu.
  mskip Hu. simplify_eq. exists refs. split; [done|].
  assert (∃ recent infos, same_blocks (<[reference block := BlockInfo_new block]>
            (ds_recent_blocks s)) recent ∧
          s1 = set_round_info infos (set_recent_blocks recent (set_recent_refs_by_authority
            (<[N.to_nat (b_author block) := {[reference block]} ∪ refs]>
              (ds_recent_refs_by_authority s)) s))) as (recent & infos & Hsame & ->).
  { destruct (pc_enable_v3 _).
    - apply bind_Ret in Hs1 as (recent & Hr%update_children_all_same & Hs1).
      apply update_round_info_fields in Hs1 as [infos ->]. by exists recent, infos.
    - simplify_eq. by eexists _, (ds_round_info s). }
  simpl. split_and!; try done; [|by exists advanced].
  intros r. unfold ds_cached. simpl. rewrite Hsame.
  destruct (decide (r = reference block)) as [->|].
  - by rewrite lookup_insert_eq.
  - by rewrite lookup_insert_ne.
Qed.

(** A block that can be accepted: from a committee member, not of the genesis
    round, with fields that fit their types. *)
Definition block_valid s (b : VerifiedBlock) : Prop :=
  ref_valid (reference b) ∧ b_author b ∈ members (DagState_committee s).

Lemma accept_metadata_ok s block s' :
  ds_ok s → block_valid s block → 0 < b_round block → ds_block s (reference block) = None →
  DagState_update_block_metadata s block = Ret s' →
  ds_ok (set_blocks_to_write (ds_blocks_to_write s' ++ [block]) s').
Proof.
  intros Hok [Hv Ha] Hpos Hnone (refs & Hrefs & Hrefs' & Hca & Hctx & Hg & He & Hb & Hst & Hcr &
    Hlc & _ & advanced & Hclock)%update_block_metadata_fields.
  assert (ds_cached s (reference block) = None ∧
          st_block (ds_store s) (reference block) = None) as [Hnc Hns].
  { rewrite ds_block_cached in Hnone. simpl in Hnone.
    destruct (N.eqb_spec (b_round block) GENESIS_ROUND) as [E|_]; [rewrite E in Hpos; done|].
    by destruct (ds_cached s (reference block)). }
  assert (DagState_gc_round s' = DagState_gc_round s) as Hgc.
  { unfold DagState_gc_round, DagState_calculate_gc_round, DagState_protocol_config,
      DagState_last_commit_round. by rewrite Hctx, Hlc. }
  destruct Hok. split; unfold DagState_committee in *; simpl;
    change (ds_cached (set_blocks_to_write (ds_blocks_to_write s' ++ [block]) s'))
      with (ds_cached s');
    change (DagState_gc_round (set_blocks_to_write (ds_blocks_to_write s' ++ [block]) s'))
      with (DagState_gc_round s');
    rewrite ?Hctx, ?Hg, ?He, ?Hb, ?Hst, ?Hcr, ?Hgc; try done.
  - intros r b. rewrite Hca. destruct (decide (r = reference block)) as [->|]; [|by auto].
    by intros [= <-].
  - by rewrite Hrefs', length_insert.
  - intros i refs1 Hi r. rewrite Hrefs' in Hi. rewrite Hca.
    apply list_lookup_insert_Some in Hi as [(Hi & <- & _)|(Hne & Hi)].
    + apply N2Nat.inj in Hi as <-. rewrite elem_of_union, elem_of_singleton, (ok_refs0 _ _ Hrefs).
      destruct (decide (r = reference block)) as [->|]; naive_solver.
    + rewrite (ok_refs0 _ _ Hi). destruct (decide (r = reference block)) as [->|]; [|done].
      simpl. rewrite Hnc. split; [by intros [_ [??]]|]. intros [<- _]. done.
  - intros r b. rewrite Hca. destruct (decide (r = reference block)) as [->|].
    + intros [= <-]. left. set_solver.
    + intros [?|?]%ok_persisted0; [left; set_solver|by right].
  - intros b [Hin| ->%list_elem_of_singleton]%elem_of_app; rewrite Hca.
    + apply ok_buffered0 in Hin. rewrite decide_False by congruence. done.
    + by rewrite decide_True.
  - rewrite fmap_app. apply NoDup_app. split_and!; [done| |apply NoDup_singleton].
    intros r (b & -> & Hin)%list_elem_of_fmap Heq%list_elem_of_singleton.
    apply ok_buffered0 in Hin. congruence.
  - intros r b b'. rewrite Hca. destruct (decide (r = reference block)) as [->|]; [congruence|].
    by apply ok_stored0.
  - intros r b Hb'. rewrite Hca. destruct (decide (r = reference block)); [done|].
    by apply (ok_evicted0 r b).
  - exact (clock_ok_step _ _ (reference block) _ _ ok_committee0 ok_clock0 Ha Hclock).
  - intros i er Hi. destruct (ok_evicted_low0 i er Hi) as [?|(r & Hr & Hr')]; [by left|].
    right. exists r. rewrite Hca. destruct (decide (r = reference block)); [by split|done].
Qed.

(** [accept_block] adds the block to the map unless it is already there. *)
Lemma accept_block_spec s block s' :
  ds_ok s → block_valid s block → DagState_accept_block s block = Ret s' →
  ds_ok s' ∧ ds_context s' = ds_context s ∧ ds_last_commit s' = ds_last_commit s ∧
  ∀ r, ds_block s' r =
         if decide (r = reference block ∧ ds_block s r = None) then Some block else ds_block s r.
Proof.
  intros Hok Hval Ha. unfold DagState_accept_block in Ha.
  apply bind_Ret in Ha as ([] & Hr & Ha). apply assert_that_Ret in Hr. nbool.
  rewrite contains_block_spec in Ha by (done || apply Hval). simpl in Ha.
  destruct (ds_block s (reference block)) as [b|] eqn:Hb.
  { rewrite bool_decide_eq_true_2 in Ha by done. simplify_eq. split_and!; [done..|].
    intros r. rewrite decide_False; [done|]. intros [-> ?]. congruence. }
  rewrite bool_decide_eq_false_2 in Ha by (by intros [??]). simpl in Ha.
  apply bind_Ret in Ha as (_ & _ & Ha). apply bind_Ret in Ha as ([] & _ & Ha).
  apply bind_Ret in Ha as (s1 & Hs1 & Ha). simplify_eq.
  assert (0 < b_round block) as Hpos by lia.
  pose proof (accept_metadata_ok s block s1 Hok Hval Hpos Hb Hs1) as Hok'.
  apply update_block_metadata_fields in Hs1
    as (refs & _ & _ & Hca & Hctx & Hg & _ & _ & Hst & _ & Hlc & _).
  split_and!; [done..|]. intros r. rewrite !ds_block_cached. simpl.
  change (ds_cached (set_blocks_to_write (ds_blocks_to_write s1 ++ [block]) s1) r)
    with (ds_cached s1 r). rewrite Hca, Hg, Hst, <- ds_block_cached.
  destruct (decide (r = reference block)) as [->|]; simpl.
  - rewrite decide_True by done. destruct (N.eqb_spec (b_round block) GENESIS_ROUND) as [E|_];
      [rewrite E in Hpos; done|done].
  - rewrite decide_False by naive_solver. by rewrite ds_block_cached.
Qed.

(** ** Flush *)

Lemma evict_loop_spec er (sorted : list BlockRef) recent refs recent' refs' :
  StronglySorted (λ a b, le_ord a b = true) sorted →
  evict_loop er recent refs sorted = (recent', refs') →
  (∀ r, recent' !! r = if decide (r ∈ sorted ∧ br_round r ≤ er) then None else recent !! r) ∧
  (∀ r, r ∈ refs' ↔ r ∈ refs ∧ ¬ (r ∈ sorted ∧ br_round r ≤ er)).
Proof.
  intros Hs. revert recent refs. induction Hs as [|a l Hl IH Ha]; intros recent refs He;
    cbn [evict_loop] in He.
  - simplify_eq. split; intros r; [|set_solver].
    rewrite decide_False; [done|]. by intros [?%not_elem_of_nil _].
  - destruct (N.leb_spec (br_round a) er) as [Hle|Hgt].
    + apply IH in He as [He1 He2]. split; intros r.
      * rewrite He1, lookup_delete. destruct (decide (a = r)) as [<-|].
        -- rewrite (decide_True _ _ (P := a ∈ a :: l ∧ _)) by (split; [left|done]).
           by destruct (decide _).
        -- destruct (decide (r ∈ l ∧ br_round r ≤ er)).
           ++ rewrite decide_True; [done|]. set_solver.
           ++ rewrite decide_False; [done|]. set_solver.
      * rewrite He2. set_solver.
    + simplify_eq. rewrite Forall_forall in Ha.
      assert (∀ r, ¬ (r ∈ a :: l ∧ br_round r ≤ er)) as Hno.
      { intros r [[->|Hr]%elem_of_cons Hle]; [lia|].
        apply Ha, BlockRef_le_round in Hr. lia. }
      split; intros r; [by rewrite decide_False|]. naive_solver.
Qed.

(** The block of the highest reference decides the eviction round. *)
Lemma last_round_spec s i refs :
  ds_ok s → ds_recent_refs_by_authority s !! N.to_nat i = Some refs →
  let last_round := default GENESIS_ROUND (br_round <$> bset_last refs) in
  (∀ r, is_Some (ds_cached s r) → br_author r = i → br_round r ≤ last_round) ∧
  (last_round = 0 ∨ ∃ r, is_Some (ds_cached s r) ∧ br_author r = i ∧ br_round r = last_round).
Proof.
  intros Hok Hrefs. pose proof (ok_refs s Hok i refs Hrefs) as Helem.
  destruct (bset_last refs) as [l|] eqn:El; simpl.
  - apply bset_last_Some in El as [Hin Hmax]. split.
    + intros r Hr Ha. apply BlockRef_le_round, Hmax. by apply Helem.
    + right. exists l. apply Helem in Hin as [??]. done.
  - apply bset_last_None in El as ->. split; [|by left].
    intros r Hr Ha. assert (r ∈ (∅ : gset BlockRef)) by (by apply Helem). set_solver.
Qed.

Lemma evict_authority_fields s i :
  ds_ok s → i ∈ members (DagState_committee s) →
  ∃ er refs recent refs',
    ds_recent_refs_by_authority s !! N.to_nat i = Some refs ∧
    er = eviction_round (default GENESIS_ROUND (br_round <$> bset_last refs))
           (DagState_gc_round s) (ds_cached_rounds s) ∧
    evict_authority s i = Ret (set_evicted_rounds (<[N.to_nat i := er]> (ds_evicted_rounds s))
      (set_recent_refs_by_authority (<[N.to_nat i := refs']> (ds_recent_refs_by_authority s))
        (set_recent_blocks recent s))) ∧
    (∀ r, bi_block <$> recent !! r =
            if decide (br_author r = i ∧ br_round r ≤ er) then None else ds_cached s r) ∧
    (∀ r, r ∈ refs' ↔ r ∈ refs ∧ er < br_round r).
Proof.
  intros Hok Hi.
  destruct (index_member s _ _ (ok_refs_len s Hok) Hi) as [refs Hrefs].
  destruct (index_member s _ _ (ok_evicted_len s Hok) Hi) as [er0 Her0].
  set (er := eviction_round (default GENESIS_ROUND (br_round <$> bset_last refs))
           (DagState_gc_round s) (ds_cached_rounds s)).
  destruct (evict_loop er (ds_recent_blocks s) refs (bset_list refs)) as [recent refs'] eqn:El.
  exists er, refs, recent, refs'. split_and!; [done..| | |].
  - unfold evict_authority, DagState_calculate_authority_eviction_round, index, index_update.
    rewrite Hrefs. simpl. fold er. rewrite El. simpl. by rewrite Her0.
  - apply evict_loop_spec in El as [El _]; [|apply bset_list_sorted]. intros r. rewrite El.
    pose proof (ok_refs s Hok i refs Hrefs r) as Helem.
    unfold ds_cached in *. destruct (decide (r ∈ bset_list refs ∧ br_round r ≤ er)) as [[Hin ?]|Hn].
    + rewrite decide_True; [done|]. split; [|done]. by apply bset_list_elem, Helem in Hin as [??].
    + destruct (decide (br_author r = i ∧ br_round r ≤ er)) as [[Ha ?]|]; [|done].
      destruct (ds_recent_blocks s !! r) as [info|]; [|done]. destruct Hn. split; [|done].
      apply bset_list_elem, Helem. split; [done|by eexists].
  - apply evict_loop_spec in El as [_ El]; [|apply bset_list_sorted]. intros r. rewrite El.
    rewrite bset_list_elem, N.lt_nge. naive_solver.
Qed.

(** Everything in memory is also in the store. *)
Definition flushed s : Prop := ds_blocks_to_write s = [].

Lemma evict_authority_ok s i :
  ds_ok s → flushed s → i ∈ members (DagState_committee s) →
  ∃ s', evict_authority s i = Ret s' ∧ ds_ok s' ∧ flushed s' ∧
        ds_context s' = ds_context s ∧ ds_store s' = ds_store s ∧
        ds_last_commit s' = ds_last_commit s ∧ (∀ r, ds_block s' r = ds_block s r).
Proof.
  intros Hok Hfl Hi.
  destruct (evict_authority_fields s i Hok Hi)
    as (er & refs & recent & refs' & Hrefs & Her & -> & Hrec & Hrefs').
  pose proof (last_round_spec s i refs Hok Hrefs) as [Hmax Hlast]. cbv zeta in Hmax, Hlast.
  set (lr := default GENESIS_ROUND (br_round <$> bset_last refs)) in *.
  set (s' := set_evicted_rounds _ _).
  assert (∀ r, ds_cached s' r =
            if decide (br_author r = i ∧ br_round r ≤ er) then None else ds_cached s r) as Hca
    by exact Hrec. clear Hrec.
  assert (∀ r b, ds_cached s' r = Some b → ds_cached s r = Some b) as Hsub.
  { intros r b. rewrite Hca. by destruct (decide _). }
  assert (er ≤ DagState_gc_round s ∧ er ≤ lr - ds_cached_rounds s) as [Hgc Hlr]
    by (unfold eviction_round in Her; lia).
  assert (∀ er0, ds_evicted_rounds s !! N.to_nat i = Some er0 → er0 ≤ er) as Hmono.
  { intros er0 Hi0. pose proof (ok_evicted_gc s Hok i er0 Hi0).
    destruct (ok_evicted_low s Hok i er0 Hi0) as [->|(r & Hr & Ha & Hle)]; [lia|].
    specialize (Hmax r Hr Ha). unfold eviction_round in Her. lia. }
  exists s'. split; [done|]. split; [|split_and!; [done..|]].
  - destruct Hok. split; try done.
    + intros r b Hb%Hsub. by apply ok_cached0.
    + simpl. by rewrite length_insert.
    + intros j refs1 Hj r. simpl in Hj. rewrite Hca.
      apply list_lookup_insert_Some in Hj as [(Hj & <- & _)|(Hne & Hj)].
      * apply N2Nat.inj in Hj as <-. rewrite Hrefs', (ok_refs0 _ _ Hrefs).
        destruct (decide (br_author r = i ∧ br_round r ≤ er)) as [|Hd].
        -- split; [lia|]. by intros [_ [??]].
        -- split; [naive_solver|]. intros [Ha Hs]. split_and!; [done..|lia].
      * rewrite (ok_refs0 _ _ Hj).
        destruct (decide (br_author r = i ∧ br_round r ≤ er)) as [[Hai _]|]; [|done].
        split; [intros [<- _]; by rewrite Hai in Hne|by intros [_ [??]]].
    + simpl. by rewrite length_insert.
    + intros r b Hb%Hsub. by apply ok_persisted0.
    + intros b Hb. simpl in Hb. rewrite Hfl in Hb. by apply not_elem_of_nil in Hb.
    + intros r b b' Hb Hb'%Hsub. by eapply ok_stored0.
    + intros r b Hb. rewrite Hca. simpl.
      destruct (decide (br_author r = i ∧ br_round r ≤ er)) as [[Ha Hle]|Hd]; intros Hn.
      * exists er. split; [|done]. rewrite Ha. apply list_lookup_insert_eq.
        rewrite ok_evicted_len0, <- ok_refs_len0. by eapply lookup_lt_Some.
      * destruct (ok_evicted0 r b Hb Hn) as (er0 & Hr0 & Hle).
        destruct (decide (br_author r = i)) as [Ha|Ha].
        -- rewrite Ha in Hr0. specialize (Hmono er0 Hr0). destruct Hd. split; [done|lia].
        -- exists er0. split; [|done]. rewrite list_lookup_insert_ne; [done|].
           intros E. apply N2Nat.inj in E. done.
    + intros j er1 Hj. simpl in Hj.
      apply list_lookup_insert_Some in Hj as [(_ & <- & _)|(_ & Hj)]; [done|eauto].
    + intros j er1 Hj. simpl in Hj.
      apply list_lookup_insert_Some in Hj as [(Hj & <- & _)|(Hne & Hj)].
      * apply N2Nat.inj in Hj as <-. destruct (decide (er = 0)) as [|Hz]; [by left|right].
        destruct Hlast as [Hl0|(r & Hr & Ha & Hrl)]; [lia|].
        exists r. rewrite Hca, decide_False by lia. split_and!; [done..|]. simpl. lia.
      * destruct (ok_evicted_low0 j er1 Hj) as [?|(r & Hr & Ha & Hle)]; [by left|right].
        exists r. rewrite Hca, decide_False; [done|]. intros [Hai _]. congruence.
  - intros r. rewrite !ds_block_cached. simpl. rewrite Hca. destruct (_ =? _); [done|].
    destruct (decide _); [|done]. destruct (ds_cached s r) as [b|] eqn:Hc; [|done].
    destruct (ok_persisted s Hok r b Hc) as [Hb|Hb]; [|done].
    rewrite Hfl in Hb. by apply not_elem_of_nil in Hb.
Qed.

(** The state with its buffers emptied, before the store is written. *)
Definition clear_buffers s : DagState S :=
  set_finalized_commits_to_write [] (set_commit_info_to_write []
    (set_commits_to_write [] (set_blocks_to_write [] s))).

Definition pending_batch s : WriteBatch :=
  mkWriteBatch (ds_blocks_to_write s) (ds_commits_to_write s) (ds_commit_info_to_write s)
    (ds_finalized_commits_to_write s).

Lemma pending_batch_valid s : ds_ok s → batch_valid (pending_batch s).
Proof.
  intros Hok b Hb. apply (ok_buffered s Hok), (ok_cached s Hok) in Hb as (_ & _ & ? & _). done.
Qed.

(** Writing the buffered blocks stores exactly the cached ones. *)
Lemma overlay_buffer s r :
  ds_ok s → overlay reference id (ds_blocks_to_write s) r (st_block (ds_store s) r) =
            match ds_cached s r with Some b => Some b | None => st_block (ds_store s) r end.
Proof.
  intros Hok. destruct (overlay _ _ _ _ _) as [b|] eqn:Ho.
  - apply overlay_Some in Ho as [(b' & Hin & Hr & <-)|Hst].
    + apply (ok_buffered s Hok) in Hin. rewrite Hr in Hin. by rewrite Hin.
    + destruct (ds_cached s r) as [b'|] eqn:Hc; [|done]. f_equal.
      symmetry. by eapply (ok_stored s Hok).
  - unfold overlay in Ho. destruct (last _) as [b|] eqn:Hl; [done|]. simpl in Ho.
    destruct (ds_cached s r) as [b|] eqn:Hc; [|done].
    destruct (ok_persisted s Hok r b Hc) as [Hin|Hst]; [|congruence].
    apply last_None in Hl. destruct (ok_cached s Hok r b Hc) as [Hr _].
    assert (b ∈ filter (λ a, reference a = r) (ds_blocks_to_write s)) as Hf
      by (by apply list_elem_of_filter).
    rewrite Hl in Hf. by apply not_elem_of_nil in Hf.
Qed.

Lemma write_ok s store' :
  ds_ok s → st_ok store' →
  (∀ r, st_block store' r =
          overlay reference id (ds_blocks_to_write s) r (st_block (ds_store s) r)) →
  ds_ok (set_store store' (clear_buffers s)) ∧
  ∀ r, ds_block (set_store store' (clear_buffers s)) r = ds_block s r.
Proof.
  intros Hok Hst Hb.
  assert (∀ r, st_block store' r =
    match ds_cached s r with Some b => Some b | None => st_block (ds_store s) r end) as Hb'.
  { intros r. by rewrite Hb, overlay_buffer. }
  split.
  - destruct Hok. split; simpl; try done;
      change (ds_cached (set_store store' (clear_buffers s))) with (ds_cached s); try done.
    + intros r b. rewrite Hb'. destruct (ds_cached s r) as [b'|] eqn:Hc; [|by apply ok_store_author0].
      intros _. apply ok_cached0 in Hc as (_ & ? & _ & ?). done.
    + intros r b Hc. right. by rewrite Hb', Hc.
    + intros b Hin. by apply not_elem_of_nil in Hin.
    + constructor.
    + intros r b b'. rewrite Hb'. intros ? Hc. rewrite Hc in *. congruence.
    + intros r b. rewrite Hb'. intros Hs Hc. rewrite Hc in Hs. eauto.
  - intros r. rewrite !ds_block_cached. simpl.
    change (ds_cached (set_store store' (clear_buffers s)) r) with (ds_cached s r).
    destruct (_ =? _); [done|]. rewrite Hb'. by destruct (ds_cached s r).
Qed.

Lemma members_authorities_iter c i :
  Committee_wf c → i ∈ (Committee_authorities_iter c).*1 → i ∈ members c.
Proof.
  intros Hwf. unfold Committee_authorities_iter.
  intros (ia & -> & Hia)%list_elem_of_fmap.
  apply elem_of_lookup_imap in Hia as (k & a & -> & Hk). simpl.
  apply lookup_lt_Some in Hk. pose proof (wf_size c Hwf) as Hsz.
  unfold Committee_size in Hsz. rewrite N.mod_small by lia.
  apply members_spec. unfold Committee_is_valid_index, Committee_size. apply N.ltb_lt. lia.
Qed.

(** A flush loses nothing: the map of blocks is unchanged, the buffers are
    empty, and all the blocks in memory are in the store. *)
Lemma evict_all_ok s l :
  ds_ok s → flushed s → (∀ i, i ∈ l → i ∈ members (DagState_committee s)) →
  ∃ s', foldM evict_authority s l = Ret s' ∧ ds_ok s' ∧ flushed s' ∧
        ds_context s' = ds_context s ∧ ds_store s' = ds_store s ∧
        ds_last_commit s' = ds_last_commit s ∧ (∀ r, ds_block s' r = ds_block s r).
Proof.
  intros Hok Hfl Hl.
  apply (foldM_returns _ (λ s', ds_ok s' ∧ flushed s' ∧ ds_context s' = ds_context s ∧
    ds_store s' = ds_store s ∧ ds_last_commit s' = ds_last_commit s ∧
    ∀ r, ds_block s' r = ds_block s r)); [|done].
  intros s1 i Hi (Hok1 & Hfl1 & Hc1 & Hst1 & Hlc1 & Hb1).
  destruct (evict_authority_ok s1 i Hok1 Hfl1) as (s2 & Hs2 & Hok2 & Hfl2 & Hc2 & Hst2 & Hlc2 & Hb2).
  { unfold DagState_committee. rewrite Hc1. by apply Hl. }
  exists s2. split_and!; try congruence.
Qed.

Lemma flushed_stored s r :
  ds_ok s → flushed s → 0 < br_round r → st_block (ds_store s) r = ds_block s r.
Proof.
  intros Hok Hfl Hpos. rewrite ds_block_cached.
  destruct (N.eqb_spec (br_round r) GENESIS_ROUND) as [E|_]; [rewrite E in Hpos; done|].
  destruct (ds_cached s r) as [b|] eqn:Hc; [|done].
  destruct (ok_persisted s Hok r b Hc) as [Hb|Hb]; [|done].
  rewrite Hfl in Hb. by apply not_elem_of_nil in Hb.
Qed.

Lemma is_nil_true {A} (l : list A) : is_nil l = true → l = [].
Proof. by destruct l. Qed.

Lemma flush_spec s :
  ds_ok s →
  ∃ s', DagState_flush s = Ret s' ∧ ds_ok s' ∧ flushed s' ∧
        ds_context s' = ds_context s ∧ ds_last_commit s' = ds_last_commit s ∧
        (∀ r, ds_block s' r = ds_block s r) ∧
        (∀ r, 0 < br_round r → st_block (ds_store s') r = ds_block s r).
Proof.
  intros Hok. unfold DagState_flush. cbv zeta. fold (clear_buffers s).
  destruct (is_nil (ds_blocks_to_write s) && _ && _ && _) eqn:Hnil.
  - repeat (apply andb_true_iff in Hnil as [Hnil ?]). apply is_nil_true in Hnil.
    assert (ds_ok (clear_buffers s)) as Hok'.
    { apply (same_view_ok s); [|done|done]. by split; simpl. }
    exists (clear_buffers s). split_and!; try done.
    intros r Hr. by apply (flushed_stored (clear_buffers s)).
  - fold (pending_batch s). unfold unwrap_ok. simpl.
    destruct (st_write (ds_store s) (pending_batch s) (ok_store s Hok) (pending_batch_valid s Hok))
      as (store' & -> & Hst & Hb & _). simpl.
    destruct (write_ok s store' Hok Hst Hb) as [Hok1 Hb1].
    destruct (evict_all_ok (set_store store' (clear_buffers s))
      (Committee_authorities_iter (DagState_committee (clear_buffers s))).*1 Hok1)
      as (s2 & Hs2 & Hok2 & Hfl2 & Hc2 & Hst2 & Hlc2 & Hb2); [done| |].
    { intros i. apply members_authorities_iter, Hok. }
    rewrite Hs2. simpl. eexists. split; [done|].
    assert (same_view s2 (set_round_info (drop_round_info (DagState_gc_round s2)
              (ds_round_info s2)) s2)) as Hsv by (by split).
    split_and!; try done.
    + by apply (same_view_ok s2).
    + intros r. rewrite (same_view_block _ _ _ Hsv), Hb2. apply Hb1.
    + intros r Hr. simpl. by rewrite flushed_stored, Hb2, Hb1.
Qed.

(** ** The other operations leave the blocks alone *)

Lemma same_view_recent s recent :
  same_blocks (ds_recent_blocks s) recent → same_view s (set_recent_blocks recent s).
Proof. intros Hsame. by split; simpl. Qed.

Lemma set_committed_view s r s' fresh :
  DagState_set_committed s r = Ret (s', fresh) →
  same_view s s' ∧ ds_last_commit s' = ds_last_commit s.
Proof.
  unfold DagState_set_committed. destruct (ds_recent_blocks s !! r) as [info|] eqn:Hr; [|done].
  destruct (negb _); intros; simplify_eq; [|by split].
  split; [|done]. apply same_view_recent. intros r'.
  destruct (decide (r = r')) as [<-|]; [by rewrite lookup_insert_eq, Hr|by rewrite lookup_insert_ne].
Qed.

Lemma link_loop_same fuel gc recent linked targets recent' linked' :
  link_loop fuel gc recent linked targets = Ret (recent', linked') → same_blocks recent recent'.
Proof.
  revert recent linked targets. induction fuel as [|fuel IH]; intros recent linked targets; simpl;
    [done|].
  destruct targets as [|r targets]; [intros; by simplify_eq|].
  destruct (_ <=? _); [apply IH|].
  destruct (recent !! r) as [info|] eqn:Hr; [|done].
  destruct (bi_included info); [apply IH|]. intros Hs%IH r'. rewrite Hs.
  destruct (decide (r = r')) as [<-|]; [by rewrite lookup_insert_eq, Hr|by rewrite lookup_insert_ne].
Qed.

Lemma link_causal_history_view s r s' linked :
  DagState_link_causal_history s r = Ret (s', linked) →
  same_view s s' ∧ ds_last_commit s' = ds_last_commit s.
Proof.
  unfold DagState_link_causal_history. intros Hl.
  apply bind_Ret in Hl as ([recent l] & Hl & Heq). simplify_eq.
  split; [|done]. by eapply same_view_recent, link_loop_same.
Qed.

Lemma add_commit_view s commit s' :
  DagState_add_commit s commit = Ret s' →
  same_view s s' ∧ (s' = s ∨ ds_last_commit s' = Some commit).
Proof.
  unfold DagState_add_commit. intros Ha. apply bind_Ret in Ha as ([] & _ & Ha).
  - simplify_eq. by split; [|left].
  - mskip Ha. simplify_eq. split; [by split|by right].
Qed.

(** ** Runs of operations *)

Inductive DagOp : Type :=
  | OpAccept (block : VerifiedBlock)
  | OpFlush
  | OpSetCommitted (r : BlockRef)
  | OpLinkCausalHistory (r : BlockRef)
  | OpAddCommit (commit : TrustedCommit)
  | OpAddCommitInfo (scores : ReputationScores)
  | OpAddFinalizedCommit (r : CommitRef) (rejected : RejectedTransactions)
  | OpTakeCommitVotes (limit : N)
  | OpAddScoringSubdags (subdags : list CommittedSubDag)
  | OpClearScoringSubdag.

Definition run_op s (op : DagOp) : M (DagState S) :=
  match op with
  | OpAccept block => DagState_accept_block s block
  | OpFlush => DagState_flush s
  | OpSetCommitted r => fst <$> DagState_set_committed s r
  | OpLinkCausalHistory r => fst <$> DagState_link_causal_history s r
  | OpAddCommit commit => DagState_add_commit s commit
  | OpAddCommitInfo scores => DagState_add_commit_info s scores
  | OpAddFinalizedCommit r rejected => Ret (DagState_add_finalized_commit s r rejected)
  | OpTakeCommitVotes limit => Ret (DagState_take_commit_votes s limit).1
  | OpAddScoringSubdags subdags => DagState_add_scoring_subdags s subdags
  | OpClearScoringSubdag => Ret (DagState_clear_scoring_subdag s)
  end.

(** Accepted blocks come from the committee, and leaders are committed at
    increasing rounds. *)
Definition op_valid s (op : DagOp) : Prop :=
  match op with
  | OpAccept block => block_valid s block
  | OpAddCommit commit => DagState_last_commit_round s ≤ c_round commit
  | _ => True
  end.

(** The specification: a map from references to blocks that only grows. *)
Definition spec_step (blocks : BlockRef → option VerifiedBlock) (op : DagOp) (r : BlockRef)
    : option VerifiedBlock :=
  match op with
  | OpAccept block =>
      if decide (r = reference block ∧ blocks r = None) then Some block else blocks r
  | _ => blocks r
  end.

Lemma fmap_fst_Ret {A B} (m : M (A * B)) a : fst <$> m = Ret a → ∃ b, m = Ret (a, b).
Proof. destruct m as [[??]| |]; simpl; intros; simplify_eq; eauto. Qed.

Lemma gc_round_mono s s' :
  ds_context s' = ds_context s → DagState_last_commit_round s ≤ DagState_last_commit_round s' →
  DagState_gc_round s ≤ DagState_gc_round s'.
Proof.
  intros Hc Hl. unfold DagState_gc_round, DagState_calculate_gc_round, DagState_protocol_config.
  rewrite Hc. lia.
Qed.

Lemma gc_round_same s s' : ds_context s' = ds_context s → ds_last_commit s' = ds_last_commit s → DagState_gc_round s' = DagState_gc_round s.
Proof.
  intros Hc Hl. unfold DagState_gc_round, DagState_calculate_gc_round, DagState_last_commit_round, DagState_protocol_config. by rewrite Hc, Hl.
Qed.

Lemma run_op_spec s op s' :
  ds_ok s → op_valid s op → run_op s op = Ret s' →
  ds_ok s' ∧ ds_context s' = ds_context s ∧
  DagState_last_commit_round s ≤ DagState_last_commit_round s' ∧
  ∀ r, ds_block s' r = spec_step (ds_block s) op r.
Proof.
  intros Hok Hval Hrun.
  assert (same_view s s' → DagState_last_commit_round s ≤ DagState_last_commit_round s' →
    ds_ok s' ∧ ds_context s' = ds_context s ∧
    DagState_last_commit_round s ≤ DagState_last_commit_round s' ∧
    ∀ r, ds_block s' r = ds_block s r) as Hview.
  { intros Hv Hlc. pose proof (sv_context _ _ Hv) as Hctx.
    split_and!; [|done..|intros; by apply same_view_block].
    apply (same_view_ok s); [done|by apply gc_round_mono|done]. }
  assert (ds_last_commit s' = ds_last_commit s →
    DagState_last_commit_round s ≤ DagState_last_commit_round s') as Hlc.
  { unfold DagState_last_commit_round. by intros ->. }
  destruct op; simpl in *.
  - apply accept_block_spec in Hrun as (? & ? & ? & ?); [|done..]. auto.
  - destruct (flush_spec s Hok) as (s1 & Hs1 & ? & _ & ? & ? & ? & _).
    rewrite Hs1 in Hrun. simplify_eq. auto.
  - apply fmap_fst_Ret in Hrun as [b [? ?]%set_committed_view]. auto.
  - apply fmap_fst_Ret in Hrun as [b [? ?]%link_causal_history_view]. auto.
  - apply add_commit_view in Hrun as [? [->|Hl]]; [auto|]. apply Hview; [done|].
    unfold DagState_last_commit_round at 2. by rewrite Hl.
  - unfold DagState_add_commit_info in Hrun. mskip Hrun. simplify_eq. apply Hview; [by split|done].
  - simplify_eq. apply Hview; [by split|done].
  - simplify_eq. unfold DagState_take_commit_votes in *. destruct (take_votes_loop _ _ _).
    apply Hview; [by split|done].
  - unfold DagState_add_scoring_subdags in Hrun. mskip Hrun. simplify_eq.
    apply Hview; [by split|done].
  - simplify_eq. apply Hview; [by split|done].
Qed.


(** ** Blocks of a slot or a round *)

Definition ref_sorted (l : list VerifiedBlock) : Prop :=
  StronglySorted (λ a b, lt_ord (reference a) (reference b) = true) l.

(** [l] lists, in the order of references, the cached blocks that satisfy [P]. *)
Definition lists_cached s (P : BlockRef → Prop) (l : list VerifiedBlock) : Prop :=
  ref_sorted l ∧ ∀ b, b ∈ l ↔ ds_cached s (reference b) = Some b ∧ P (reference b).

Lemma cached_entries_spec s (P : BlockRef → Prop) (Q : BlockRef * BlockInfo → Prop)
    `{∀ e, base.Decision (Q e)} :
  ds_ok s → (∀ e, e ∈ bmap_list (ds_recent_blocks s) → Q e ↔ P e.1) →
  lists_cached s P (map bi_block (filter Q (bmap_list (ds_recent_blocks s))).*2).
Proof.
  intros Hok HQ. set (l := filter _ _).
  assert (∀ e, e ∈ l → ds_recent_blocks s !! e.1 = Some e.2 ∧ reference (bi_block e.2) = e.1 ∧ P e.1)
    as Hl.
  { intros [r info] [HP Hin]%list_elem_of_filter. apply (HQ _ Hin) in HP.
    apply bmap_list_elem in Hin. split; [done|].
    split; [|done]. apply (ok_cached s Hok). unfold ds_cached. simpl. by rewrite Hin. }
  assert (StronglySorted (λ e f, lt_ord e.1 f.1 = true) l) as Hsort.
  { apply StronglySorted_filter, (sorted_strict fst); [apply bmap_list_sorted|apply bmap_list_NoDup]. }
  change (map bi_block l.*2) with (bi_block <$> (snd <$> l)). rewrite <- list_fmap_compose.
  split.
  - apply (StronglySorted_fmap _ (λ e f, lt_ord e.1 f.1 = true)); [|done].
    intros e f (_ & He & _)%Hl (_ & Hf & _)%Hl. simpl. by rewrite He, Hf.
  - intros b. rewrite list_elem_of_fmap. split.
    + intros (e & -> & Hin). simpl. destruct (Hl e Hin) as (He & Hr & HP). rewrite Hr.
      split; [|done]. unfold ds_cached. by rewrite He.
    + intros [Hc HP]. unfold ds_cached in Hc.
      destruct (ds_recent_blocks s !! reference b) as [info|] eqn:Hi; [|done]. simplify_eq/=.
      exists (reference (bi_block info), info). split; [done|].
      assert ((reference (bi_block info), info) ∈ bmap_list (ds_recent_blocks s)) as Hin
        by (by apply bmap_list_elem).
      apply list_elem_of_filter. by rewrite HQ.
Qed.

Lemma cached_digest s e :
  ds_ok s → e ∈ bmap_list (ds_recent_blocks s) → br_digest e.1 ≤ BlockDigest_MAX.
Proof.
  intros Hok. destruct e as [r info]. intros Hin%bmap_list_elem.
  destruct (ok_cached s Hok r (bi_block info)) as (_ & _ & (_ & _ & ?) & _); [|done].
  unfold ds_cached. by rewrite Hin.
Qed.

Lemma slot_bounds_ok slot : range_ok (slot_bounds slot).1 (slot_bounds slot).2 = true.
Proof.
  simpl. unfold le_ord, cmp, Ord_BlockRef, cmp, Ord_prod, lex, cmp, Ord_N; simpl.
  by rewrite !N.compare_refl.
Qed.

Lemma get_uncommitted_blocks_at_slot_spec s slot :
  ds_ok s →
  ∃ l, DagState_get_uncommitted_blocks_at_slot s slot = Ret l ∧
       lists_cached s (λ r, Slot_from r = slot) l.
Proof.
  intros Hok. unfold DagState_get_uncommitted_blocks_at_slot, bmap_range.
  rewrite slot_bounds_ok. cbn [mbind M_bind]. eexists. split; [done|].
  apply cached_entries_spec; [done|]. intros e He. simpl.
  rewrite slot_range by (by eapply cached_digest). apply bool_decide_eq_true.
Qed.

Lemma get_uncommitted_blocks_at_round_spec s round :
  ds_ok s → DagState_last_commit_round s < round → round < u32_max →
  ∃ l, DagState_get_uncommitted_blocks_at_round s round = Ret l ∧
       lists_cached s (λ r, br_round r = round) l.
Proof.
  intros Hok Hlc Hr. unfold DagState_get_uncommitted_blocks_at_round, bmap_range.
  destruct (N.leb_spec round (DagState_last_commit_round s)); [lia|].
  arith.
  assert (range_ok (Included (mkBlockRef round AuthorityIndex_ZERO BlockDigest_MIN))
    (Excluded (mkBlockRef (round + 1) AuthorityIndex_ZERO BlockDigest_MIN)) = true) as ->.
  { simpl. unfold le_ord, cmp, Ord_BlockRef, cmp, Ord_prod, lex, cmp, Ord_N; simpl.
    destruct (N.compare_spec round (round + 1)); [lia|done|lia]. }
  cbn [mbind M_bind]. eexists. split; [done|].
  apply cached_entries_spec; [done|]. intros e He. simpl.
  rewrite round_range. apply bool_decide_eq_true.
Qed.

(** ** When a block is accepted *)

Lemma get_last_block_for_authority_returns s i refs :
  ds_recent_refs_by_authority s !! N.to_nat i = Some refs →
  (∀ r, r ∈ refs → is_Some (ds_recent_blocks s !! r)) →
  (∃ r b, ds_genesis s !! r = Some b ∧ br_author r = i) →
  ∃ b, DagState_get_last_block_for_authority s i = Ret b.
Proof.
  intros Hrefs Hin (r & b & Hr & Ha). unfold DagState_get_last_block_for_authority, index.
  rewrite Hrefs. simpl. destruct (bset_last refs) as [l|] eqn:El.
  - apply bset_last_Some in El as [[info Hl]%Hin _]. rewrite Hl. simpl. eauto.
  - destruct (filter (λ e, br_author e.1 = i) (bmap_list (ds_genesis s))) as [|[r' b'] l] eqn:Ef;
      [|simpl; eauto].
    assert ((r, b) ∈ filter (λ e, br_author e.1 = i) (bmap_list (ds_genesis s))) as Hf
      by (apply list_elem_of_filter; split; [done|by apply bmap_list_elem]).
    rewrite Ef in Hf. by apply not_elem_of_nil in Hf.
Qed.

(** With v3, the votes of the block can be counted. *)
Definition v3_ready s (block : VerifiedBlock) : Prop :=
  pc_enable_v3 (DagState_protocol_config s) = true →
  ∃ recent s1, foldM (update_children s (reference block))
                 (<[reference block := BlockInfo_new block]> (ds_recent_blocks s))
                 (b_ancestors block) = Ret recent ∧
               DagState_update_round_info s block = Ret s1.

Lemma v3_off_ready s block : pc_enable_v3 (DagState_protocol_config s) = false → v3_ready s block.
Proof. intros Hoff Hon. congruence. Qed.

Lemma update_round_info_transfer s (t : DagState S) block s1 :
  ds_context t = ds_context s → ds_last_commit t = ds_last_commit s →
  ds_round_info t = ds_round_info s →
  DagState_update_round_info s block = Ret s1 →
  DagState_update_round_info t block = Ret (set_round_info (ds_round_info s1) t).
Proof.
  intros Hc Hl Hr. unfold DagState_update_round_info, DagState_gc_round,
    DagState_calculate_gc_round, DagState_protocol_config, DagState_last_commit_round,
    DagState_committee. rewrite Hc, Hl, Hr.
  destruct (_ <=? _); [intros [= <-]; rewrite <- Hr; by destruct t|]. intros Hu.
  repeat (apply bind_Ret in Hu as (? & Ha & Hu); rewrite Ha; clear Ha; cbn [mbind M_bind]).
  destruct x5. repeat (apply bind_Ret in Hu as (? & Ha & Hu); rewrite Ha; clear Ha; cbn [mbind M_bind]).
  by injection Hu as <-.
Qed.

Lemma update_block_metadata_returns s block :
  v3_ready s block → ds_ok s → block_valid s block → b_round block < u32_max →
  ∃ s', DagState_update_block_metadata s block = Ret s'.
Proof.
  intros Hv3 Hok [Hv Ha] Hmax.
  destruct (index_member s _ _ (ok_refs_len s Hok) Ha) as [refs Hrefs].
  destruct (index_member s _ _ (eq_refl _) Ha) as [auth Hauth].
  destruct (clock_ok_add (DagState_committee s) (ds_threshold_clock s) (reference block))
    as (tc & advanced & Hclock); [apply Hok|apply Hok|done|done|].
  unfold DagState_update_block_metadata, index, index_update. simpl. rewrite Hrefs. simpl.
  set (s0 := set_recent_refs_by_authority _ _).
  assert (∃ recent infos, same_blocks (ds_recent_blocks s0) recent ∧
    (if pc_enable_v3 (DagState_protocol_config s)
     then recent ← foldM (update_children s0 (reference block)) (ds_recent_blocks s0)
                     (b_ancestors block);
          DagState_update_round_info (set_recent_blocks recent s0) block
     else Ret s0) = Ret (set_round_info infos (set_recent_blocks recent s0)))
    as (recent & infos & Hsame & Hmid).
  { unfold v3_ready in Hv3. destruct (pc_enable_v3 _).
    - destruct (Hv3 eq_refl) as (recent & s1 & Hr & Hs1). exists recent, (ds_round_info s1).
      split; [by eapply update_children_all_same|].
      change (foldM (update_children s0 (reference block)) (ds_recent_blocks s0) (b_ancestors block)
              = Ret recent) in Hr. rewrite Hr. cbn [mbind M_bind].
      by apply (update_round_info_transfer s).
    - by exists (ds_recent_blocks s0), (ds_round_info s0). }
  match goal with |- ∃ _, (?m ≫= _) = _ => change m with
    (if pc_enable_v3 (DagState_protocol_config s)
     then recent ← foldM (update_children s0 (reference block)) (ds_recent_blocks s0)
                     (b_ancestors block);
          DagState_update_round_info (set_recent_blocks recent s0) block
     else Ret s0) end. rewrite Hmid.
  cbn [mbind M_bind]. unfold DagState_committee in *. simpl. rewrite Hclock. simpl.
  rewrite list_lookup_insert_eq by (by eapply lookup_lt_Some). simpl.
  set (s1 := set_threshold_clock tc _).
  assert (∃ o, (if advanced then DagState_get_last_proposed_block s1 else Ret None) = Ret o)
    as [o ->].
  { destruct advanced; [|eauto]. unfold DagState_get_last_proposed_block.
    destruct (Context_is_validator (ds_context s1)) eqn:Hval; [|eauto].
    apply members_spec in Hval.
    destruct (index_member s (<[N.to_nat (b_author block) := {[reference block]} ∪ refs]>
      (ds_recent_refs_by_authority s)) (ctx_own_index (ds_context s1))) as [own Hown];
      [by rewrite length_insert, (ok_refs_len s Hok)|done|].
    destruct (get_last_block_for_authority_returns s1 (ctx_own_index (ds_context s1)) own)
      as [b ->]; [done| |by apply (ok_genesis_author s Hok)|simpl; eauto].
    intros r Hr. simpl. apply (fmap_is_Some bi_block). rewrite Hsame. apply fmap_is_Some. simpl.
    apply lookup_insert_is_Some'.
    apply list_lookup_insert_Some in Hown as [(Hi & <- & _)|(Hne & Hown)].
    - apply elem_of_union in Hr as [->%elem_of_singleton|Hr]; [by left|right].
      apply (ok_refs s Hok _ _ Hrefs) in Hr as [_ Hr]. by apply fmap_is_Some in Hr.
    - right. apply (ok_refs s Hok _ _ Hown) in Hr as [_ Hr]. by apply fmap_is_Some in Hr. }
  simpl. destruct (bset_last ({[reference block]} ∪ refs)) as [l|] eqn:El.
  - simpl. unfold Committee_authority, index. unfold DagState_committee in Hauth. simpl.
    rewrite Hauth. simpl. eauto.
  - apply bset_last_None in El. set_solver.
Qed.

(** This authority already has a block in the slot of [block]. *)
Definition own_slot_taken s (block : VerifiedBlock) : Prop :=
  b_author block = ctx_own_index (ds_context s) ∧
  ctx_skip_equivocation_validation (ds_context s) = false ∧
  ∃ b, ds_cached s (reference b) = Some b ∧ Slot_from (reference b) = Slot_from (reference block).

Definition own_slot_panic : panic :=
  Asserted "Block Rejected! Attempted to add block to own slot where block(s) already exists.".

Lemma own_slot_check s block :
  ds_ok s →
  (own_slot_taken s block ∧ check_own_slot s (reference block) = Panic own_slot_panic) ∨
  (¬ own_slot_taken s block ∧ check_own_slot s (reference block) = Ret tt).
Proof.
  intros Hok. unfold own_slot_taken, check_own_slot. simpl.
  destruct (N.eqb_spec (b_author block) (ctx_own_index (ds_context s))) as [Ho|Ho].
  - destruct (get_uncommitted_blocks_at_slot_spec s (Slot_from (reference block)) Hok)
      as (l & -> & _ & Hl). simpl.
    destruct (ctx_skip_equivocation_validation (ds_context s)); simpl.
    + right. split; [naive_solver|done].
    + destruct l as [|b l].
      * right. split; [|done]. intros (_ & _ & b & Hb). apply Hl in Hb.
        by apply not_elem_of_nil in Hb.
      * left. split; [|done]. split_and!; [done..|]. exists b. apply Hl. by left.
  - right. split; [naive_solver|done].
Qed.

Lemma accept_block_outcome s block :
  ds_ok s → v3_ready s block →
  block_valid s block → 0 < b_round block → b_round block < u32_max →
  (is_Some (ds_block s (reference block)) ∧ DagState_accept_block s block = Ret s) ∨
  (ds_block s (reference block) = None ∧ own_slot_taken s block ∧
   DagState_accept_block s block = Panic own_slot_panic) ∨
  (ds_block s (reference block) = None ∧ ¬ own_slot_taken s block ∧
   ∃ s', DagState_accept_block s block = Ret s' ∧ ds_ok s' ∧
         ∀ r, ds_block s' r = if decide (r = reference block) then Some block else ds_block s r).
Proof.
  intros Hok Hv3 Hval Hpos Hmax.
  assert (∃ a, Committee_authority (DagState_committee s) (b_author block) = Ret a) as [a Ha].
  { destruct (index_member s _ _ (eq_refl _) (proj2 Hval)) as [a Ha].
    exists a. by apply index_Ret. }
  destruct (DagState_accept_block s block) as [s'|p|] eqn:Hacc;
    [pose proof (accept_block_spec s block s' Hok Hval Hacc) as (Hok' & _ & _ & Hb)|..];
    unfold DagState_accept_block in Hacc;
    (destruct (N.eqb_spec (b_round block) 0); [lia|]);
    rewrite contains_block_spec in Hacc by (done || apply Hval); simpl in Hacc;
    destruct (ds_block s (reference block)) as [b|] eqn:Hnone; simpl in Hacc; simplify_eq;
    try (left; by split); right;
    rewrite Ha in Hacc; simpl in Hacc;
    destruct (own_slot_check s block Hok) as [[Ht Hchk]|[Ht Hchk]]; rewrite Hchk in Hacc;
    simpl in Hacc; simplify_eq; try (left; by split).
  - right. split_and!; [done..|]. exists s'. split_and!; [done..|]. intros r. rewrite Hb.
    destruct (decide (r = reference block)) as [->|].
    + by rewrite decide_True.
    + rewrite decide_False; [done|naive_solver].
  - destruct (update_block_metadata_returns s block) as [s1 Hs1]; [done..|].
    by rewrite Hs1 in Hacc.
  - destruct (update_block_metadata_returns s block) as [s1 Hs1]; [done..|].
    by rewrite Hs1 in Hacc.
Qed.

(** C18: Every outcome of [accept_block] on a valid block, on the path without
    v3: a known block changes nothing; a second block of this authority in one
    of its own slots panics; any other block is accepted, keeps the invariant,
    and extends the map of blocks by exactly itself. *)
Theorem DagState_accept_block_outcome s block :
  ds_ok s → pc_enable_v3 (DagState_protocol_config s) = false →
  block_valid s block → 0 < b_round block → b_round block < u32_max →
  (is_Some (ds_block s (reference block)) ∧ DagState_accept_block s block = Ret s) ∨
  (ds_block s (reference block) = None ∧ own_slot_taken s block ∧
   DagState_accept_block s block = Panic own_slot_panic) ∨
  (ds_block s (reference block) = None ∧ ¬ own_slot_taken s block ∧
   ∃ s', DagState_accept_block s block = Ret s' ∧ ds_ok s' ∧
         ∀ r, ds_block s' r = if decide (r = reference block) then Some block else ds_block s r).
Proof. intros Hok Hv3. by apply accept_block_outcome, v3_off_ready. Qed.

(** ** Refinement *)

(** Every operation of a run is valid in the state it runs in. *)
Fixpoint ops_valid s (ops : list DagOp) : Prop :=
  match ops with
  | [] => True
  | op :: ops => op_valid s op ∧ ∀ s', run_op s op = Ret s' → ops_valid s' ops
  end.

Lemma spec_run_ext ops f g r :
  (∀ r, f r = g r) → foldl spec_step f ops r = foldl spec_step g ops r.
Proof.
  revert f g. induction ops as [|op ops IH]; intros f g Hfg; simpl; [done|].
  apply IH. intros r'. unfold spec_step. destruct op; rewrite ?Hfg; done.
Qed.

Lemma run_ops_spec ops s s' :
  ds_ok s → ops_valid s ops → foldM run_op s ops = Ret s' →
  ds_ok s' ∧ ds_context s' = ds_context s ∧
  ∀ r, ds_block s' r = foldl spec_step (ds_block s) ops r.
Proof.
  revert s. induction ops as [|op ops IH]; intros s Hok Hval Hrun; simpl in Hrun;
    [by simplify_eq|].
  destruct Hval as [Hop Hops]. apply bind_Ret in Hrun as (s1 & Hs1 & Hrun).
  destruct (run_op_spec s op s1 Hok Hop Hs1) as (Hok1 & Hctx & _ & Hb1).
  destruct (IH s1 Hok1 (Hops s1 Hs1) Hrun) as (Hok' & Hctx' & Hb').
  split_and!; [done|congruence|]. intros r. rewrite Hb'. simpl. by apply spec_run_ext.
Qed.

(** C12: The DAG state refines a map from references to blocks that only grows by
    acceptance: after any run of operations (acceptance, flush with eviction,
    commit and inclusion marks, commits, votes, scoring) the invariant holds,
    [get_blocks] reads that map through genesis, cache and store, and
    [contains_blocks], with its shortcut for rounds above the cache, answers
    whether a reference is in it. *)
Theorem DagState_refines_block_map s ops s' refs :
  ds_ok s → ops_valid s ops → foldM run_op s ops = Ret s' →
  (∀ r, r ∈ refs → br_author r ∈ members (DagState_committee s)) →
  ds_ok s' ∧
  DagState_get_blocks s' refs = Ret (foldl spec_step (ds_block s) ops <$> refs) ∧
  DagState_contains_blocks s' refs =
    Ret ((λ r, bool_decide (is_Some (foldl spec_step (ds_block s) ops r))) <$> refs).
Proof.
  intros Hok Hval Hrun Hrefs.
  destruct (run_ops_spec ops s s' Hok Hval Hrun) as (Hok' & Hctx & Hb).
  split; [done|]. split.
  - rewrite get_blocks_spec by apply Hok'. f_equal. apply list_fmap_ext. intros ???. apply Hb.
  - rewrite contains_blocks_spec; [|done|unfold DagState_committee; by rewrite Hctx].
    f_equal. apply list_fmap_ext. intros ???. by rewrite Hb.
Qed.

(** C20: A flush never fails and loses nothing: the map of blocks and the
    invariant are unchanged, the buffer is empty, and every block above genesis
    is in the store, whatever is evicted from the cache. *)
Theorem DagState_flush_lossless s :
  ds_ok s →
  ∃ s', DagState_flush s = Ret s' ∧ ds_ok s' ∧ ds_blocks_to_write s' = [] ∧
        (∀ r, ds_block s' r = ds_block s r) ∧
        (∀ r, 0 < br_round r → st_block (ds_store s') r = ds_block s r).
Proof.
  intros Hok. destruct (flush_spec s Hok) as (s' & ? & ? & ? & _ & _ & ? & ?). by exists s'.
Qed.

End DagTheory.
