(* ===== verification/DagRecovery.v ===== *)
(** * Recovery of [DagState] from its store

    [DagState::new] reads back the blocks above each authority's eviction round;
    the recovered state satisfies the invariant of DagTheory.v and holds the
    blocks of the store.  A flush followed by a restart loses nothing. *)

From S2P Require Import Prelude BTree Config Block Commit Store StakeAggregator ThresholdClock.
From S2P Require Import LeaderScoring DagState DagTheory.
Local Open Scope N_scope.

Section DagRecovery.
Context `{Profile} `{Crypto} {S : Type} `{StoreLaws S}.
Implicit Types s : DagState S.

Definition genesis_map (gs : list VerifiedBlock) : gmap BlockRef VerifiedBlock :=
  list_to_map (reverse ((λ block, (reference block, block)) <$> gs)).

Lemma genesis_block_fields ctx i b :
  genesis_block ctx i = Ret b → b_round b = GENESIS_ROUND ∧ b_author b = i.
Proof.
  unfold genesis_block. intros Hb. mskip Hb. simplify_eq. simpl.
  by destruct (pc_enable_v3 (ctx_protocol_config ctx)),
    (pc_transaction_voting_enabled (ctx_protocol_config ctx)).
Qed.

Lemma genesis_map_spec ctx gs :
  genesis_blocks ctx = Ret gs →
  (∀ r b, genesis_map gs !! r = Some b → reference b = r ∧ br_round r = GENESIS_ROUND) ∧
  (∀ i, i ∈ (Committee_authorities_iter (ctx_committee ctx)).*1 →
        ∃ r b, genesis_map gs !! r = Some b ∧ br_author r = i).
Proof.
  unfold genesis_blocks. rewrite mapP_Forall2. intros Hgs.
  assert (∀ r b, genesis_map gs !! r = Some b → reference b = r ∧ b ∈ gs) as Hmap.
  { intros r b Hb%elem_of_list_to_map_2. rewrite elem_of_reverse in Hb.
    apply list_elem_of_fmap in Hb as (b' & [= -> ->] & Hb). done. }
  split.
  - intros r b Hb. destruct (Hmap r b Hb) as [<- Hin]. split; [done|].
    apply list_elem_of_lookup in Hin as [k Hk].
    destruct (Forall2_lookup_r _ _ _ _ _ Hgs Hk) as (ia & _ & Hg). simpl.
    by apply genesis_block_fields in Hg as [? _].
  - intros i (ia & -> & Hin)%list_elem_of_fmap. apply list_elem_of_lookup in Hin as [k Hk].
    destruct (Forall2_lookup_l _ _ _ _ _ Hgs Hk) as (b & Hb & Hg).
    apply genesis_block_fields in Hg as [_ Ha].
    destruct (genesis_map gs !! reference b) as [b'|] eqn:Hl.
    + exists (reference b), b'. by split.
    + apply not_elem_of_list_to_map in Hl. destruct Hl.
      rewrite fmap_reverse, elem_of_reverse, <- list_fmap_compose.
      apply (list_elem_of_fmap_2 reference). by eapply list_elem_of_lookup_2.
Qed.

(** Fields that the loading of blocks does not touch. *)
Definition same_base s s' : Prop :=
  ds_context s' = ds_context s ∧ ds_genesis s' = ds_genesis s ∧
  ds_evicted_rounds s' = ds_evicted_rounds s ∧ ds_blocks_to_write s' = ds_blocks_to_write s ∧
  ds_store s' = ds_store s ∧ ds_cached_rounds s' = ds_cached_rounds s ∧
  ds_last_commit s' = ds_last_commit s.

Definition refs_ok s : Prop :=
  ∀ i refs, ds_recent_refs_by_authority s !! N.to_nat i = Some refs →
  ∀ r, r ∈ refs ↔ br_author r = i ∧ is_Some (ds_cached s r).

Lemma refs_ok_metadata s block s' :
  refs_ok s → DagState_update_block_metadata s block = Ret s' → refs_ok s'.
Proof.
  intros Hok (refs & Hrefs & Hrefs' & Hca & _)%update_block_metadata_fields i refs1 Hi r.
  rewrite Hrefs' in Hi. rewrite Hca.
  apply list_lookup_insert_Some in Hi as [(Hi & <- & _)|(Hne & Hi)].
  - apply N2Nat.inj in Hi as <-. rewrite elem_of_union, elem_of_singleton, (Hok _ _ Hrefs).
    destruct (decide (r = reference block)) as [->|]; naive_solver.
  - rewrite (Hok _ _ Hi). destruct (decide (r = reference block)) as [->|]; [|done].
    simpl. split; (intros [<- _]; done).
Qed.

Lemma load_blocks_spec s bs s' :
  refs_ok s → (∀ r, ds_cached s r = None) →
  foldM DagState_update_block_metadata s bs = Ret s' →
  same_base s s' ∧ refs_ok s' ∧
  length (ds_recent_refs_by_authority s') = length (ds_recent_refs_by_authority s) ∧
  (∀ r b, ds_cached s' r = Some b → b ∈ bs ∧ reference b = r) ∧
  (∀ b, b ∈ bs → is_Some (ds_cached s' (reference b))) ∧
  (Committee_wf (DagState_committee s) → clock_ok (DagState_committee s) (ds_threshold_clock s) →
   (∀ b : VerifiedBlock, b ∈ bs → b_author b ∈ members (DagState_committee s)) →
   clock_ok (DagState_committee s) (ds_threshold_clock s')).
Proof.
  intros Hok Hnone. revert s'. induction bs as [|b bs IH] using rev_ind; intros s' Hf.
  - simpl in Hf. simplify_eq. split_and!; try done.
    + intros r b. by rewrite Hnone.
    + by intros b ?%not_elem_of_nil.
  - rewrite foldM_app in Hf. apply bind_Ret in Hf as (s1 & Hs1 & Hs').
    simpl in Hs'. apply bind_Ret in Hs' as (s2 & Hs2 & [= ->]).
    apply IH in Hs1 as (Hbase & Hrefs & Hlen & Hc & Hin & Hcl).
    pose proof (refs_ok_metadata _ _ _ Hrefs Hs2) as Hrefs2.
    apply update_block_metadata_fields in Hs2
      as (refs & _ & Hrefs' & Hca & ? & ? & ? & ? & ? & ? & ? & _ & adv & Hclock).
    unfold same_base in *. split_and!; try (destruct_and!; congruence); try done.
    + rewrite Hrefs', length_insert. done.
    + intros r b'. rewrite Hca. destruct (decide (r = reference b)) as [->|].
      * intros [= <-]. set_solver.
      * intros [? ?]%Hc. set_solver.
    + intros b' [Hb'| ->%list_elem_of_singleton]%elem_of_app; rewrite Hca.
      * destruct (decide _); [done|auto].
      * by rewrite decide_True.
    + intros Hwf Hcl0 Ha. unfold DagState_committee in *. destruct Hbase as [Hctx _].
      rewrite Hctx in Hclock. eapply clock_ok_step; [done|apply Hcl|..|exact Hclock]; [done|done|..];
        [intros b' ?|simpl]; apply Ha; set_solver.
Qed.

(** Stores whose rounds are below the maximum and whose scans fit in memory. *)
Definition store_bounded (c : Committee) (store : S) : Prop :=
  (∀ r b, st_block store r = Some b →
     0 < br_round r ∧ br_round r < u32_max ∧ br_author r ∈ members c) ∧
  (∀ a lo l, scan_of (st_block store) a lo u32_max l → N.of_nat (length l) ≤ usize_max).

(** [l] holds the blocks of authority [i] above the eviction round [er]. *)
Definition recovered s (er : Round) (l : list VerifiedBlock) (i : AuthorityIndex) : Prop :=
  er ≤ DagState_gc_round s ∧
  (er = 0 ∨ ∃ b, st_block (ds_store s) (reference b) = Some b ∧ b_author b = i ∧
                 er + ds_cached_rounds s ≤ b_round b) ∧
  (∀ b, b ∈ l ↔ st_block (ds_store s) (reference b) = Some b ∧ b_author b = i ∧ er < b_round b).

Lemma last_drop_1 {A} (l : list A) : last (drop (length l - N.to_nat 1) l) = last l.
Proof.
  destruct l as [|x l] using rev_ind; [done|]. rewrite length_app. simpl.
  replace (length l + 1 - N.to_nat 1)%nat with (length l) by lia.
  by rewrite drop_app_length, last_snoc.
Qed.

Lemma recover_authority_spec c s bs i s' bs' :
  st_ok (ds_store s) → store_bounded c (ds_store s) →
  recover_authority (s, bs) i = Ret (s', bs') →
  ∃ er l er0, ds_evicted_rounds s !! N.to_nat i = Some er0 ∧
    s' = set_evicted_rounds (<[N.to_nat i := er]> (ds_evicted_rounds s)) s ∧
    bs' = bs ++ l ∧ recovered s er l i.
Proof.
  intros Hok [Hb Hlen] Hr. unfold recover_authority, unwrap_ok in Hr.
  destruct (st_scan_last (ds_store s) i 1 None Hok) as (l0 & [_ Hl0] & Hscan).
  rewrite Hscan in Hr. cbn [mbind M_bind] in Hr. rewrite last_drop_1 in Hr.
  set (lr := default GENESIS_ROUND ((λ b : VerifiedBlock, b_round b) <$> last l0)) in *.
  set (er := eviction_round lr (DagState_gc_round s) (ds_cached_rounds s)) in *.
  assert (lr < u32_max ∧ (lr = 0 ∨ ∃ b, st_block (ds_store s) (reference b) = Some b ∧
            b_author b = i ∧ b_round b = lr)) as [Hlr Hlr'].
  { unfold lr. destruct (last l0) as [b|] eqn:El; simpl; [|by split; [|left]].
    apply last_Some_elem_of, Hl0 in El as (Hst & Ha & _).
    split; [by apply (Hb _ _ Hst)|right; by exists b]. }
  assert (er ≤ DagState_gc_round s ∧ er ≤ lr - ds_cached_rounds s) as [Hgc Hlow]
    by (unfold er, eviction_round; lia).
  rewrite int_add_exact in Hr by lia. cbn [mbind M_bind] in Hr.
  destruct (st_scan (ds_store s) i (er + 1) Hok ltac:(lia)) as (l & Hsc & Hscan').
  rewrite Hscan' in Hr. cbn [mbind M_bind] in Hr.
  rewrite take_ge in Hr by (pose proof (Hlen _ _ _ Hsc); lia).
  minv Hr. exists er, l, a. destruct Hsc as [_ Hsc]. unfold recovered. split_and!; try done.
  - destruct (decide (er = 0)); [by left|right].
    destruct Hlr' as [?|(b & Hst & Ha & Hrb)]; [lia|]. exists b. split_and!; [done..|lia].
  - intros b. rewrite Hsc. split.
    + intros (? & ? & ? & _). split_and!; [done..|lia].
    + intros (Hst & ? & ?). destruct (Hb _ _ Hst) as (_ & Hlt & _). simpl in Hlt.
      split_and!; [done..|lia|done].
Qed.

(** Recovery state after the authorities [l]. *)
Definition recovered_all s s' (bs : list VerifiedBlock) (l : list AuthorityIndex) : Prop :=
  ∃ evicted, s' = set_evicted_rounds evicted s ∧
    length evicted = length (ds_evicted_rounds s) ∧
    (∀ i, i ∈ l → ∃ er li, evicted !! N.to_nat i = Some er ∧ recovered s er li i ∧
                           (∀ b, b ∈ li → b ∈ bs)) ∧
    (∀ i, i ∉ l → evicted !! N.to_nat i = ds_evicted_rounds s !! N.to_nat i) ∧
    (∀ b, b ∈ bs → st_block (ds_store s) (reference b) = Some b).

Lemma recover_authorities_spec c s l s' bs :
  st_ok (ds_store s) → store_bounded c (ds_store s) →
  foldM recover_authority (s, []) l = Ret (s', bs) → recovered_all s s' bs l.
Proof.
  intros Hok Hb. revert s' bs. induction l as [|i l IH] using rev_ind; intros s' bs Hf.
  - simpl in Hf. simplify_eq. exists (ds_evicted_rounds s'). split_and!; try done.
    + by destruct s'.
    + by intros i ?%not_elem_of_nil.
    + by intros b ?%not_elem_of_nil.
  - rewrite foldM_app in Hf. apply bind_Ret in Hf as ([s1 bs1] & Hs1 & Hf).
    simpl in Hf. apply bind_Ret in Hf as ([s2 bs2] & Hs2 & [= -> ->]).
    apply IH in Hs1 as (ev & -> & Hlen & Hin & Hout & Hst).
    apply (recover_authority_spec c) in Hs2 as (er & li & er0 & Her0 & -> & -> & Hrec); [|done..].
    exists (<[N.to_nat i := er]> ev). simpl in *. split_and!; [done|by rewrite length_insert| | |].
    + intros j Hj. destruct (decide (j = i)) as [->|Hne].
      * exists er, li. split_and!; [|done|set_solver].
        apply list_lookup_insert_eq. by eapply lookup_lt_Some.
      * destruct (Hin j) as (erj & lj & Hj' & Hrj & Hlj); [set_solver|].
        exists erj, lj. split_and!; [|done|set_solver].
        rewrite list_lookup_insert_ne; [done|]. intros E%N2Nat.inj. done.
    + intros j Hj. rewrite list_lookup_insert_ne; [apply Hout; set_solver|].
      intros E%N2Nat.inj. set_solver.
    + intros b [?|Hbl]%elem_of_app; [auto|]. by apply Hrec in Hbl as [? _].
Qed.

Definition same_dag s s' : Prop := same_view s s' ∧ ds_last_commit s' = ds_last_commit s.

Lemma same_dag_refl s : same_dag s s.
Proof. done. Qed.

Lemma same_dag_trans s1 s2 s3 : same_dag s1 s2 → same_dag s2 s3 → same_dag s1 s3.
Proof. intros [[] ?] [[] ?]. split; [split|]; congruence. Qed.

Lemma same_dag_ok s s' : same_dag s s' → ds_ok s → ds_ok s'.
Proof.
  intros [Hv Hl]. apply same_view_ok; [done|]. apply gc_round_mono; [by destruct Hv|].
  unfold DagState_last_commit_round. by rewrite Hl.
Qed.

Lemma foldM_same_dag {A} (f : DagState S → A → M (DagState S)) l s s' :
  (∀ s a s', f s a = Ret s' → same_dag s s') → foldM f s l = Ret s' → same_dag s s'.
Proof.
  intros Hf. apply (foldM_invariant f (same_dag s)); [|apply same_dag_refl].
  intros s1 a s2 _ H12 H23%Hf. by eapply same_dag_trans.
Qed.

Lemma recover_committed_same steps gc s idx s' :
  recover_committed steps gc s idx = Ret s' → same_dag s s'.
Proof.
  revert s idx. induction steps as [|steps IH]; intros s idx Hr; simpl in Hr; [done|].
  apply bind_Ret in Hr as (commits & _ & Hr).
  destruct commits as [|commit commits]; [by simplify_eq|].
  destruct (_ && _); [by simplify_eq|].
  apply bind_Ret in Hr as (s1 & Hs1 & Hr). apply bind_Ret in Hr as (s2 & Hs2 & Hr).
  assert (same_dag s s1) as Hs01.
  { destruct (pc_enable_v3 _); [mskip Hs1|]; simplify_eq; by repeat split. }
  apply (same_dag_trans _ s1); [done|]. apply foldM_same_dag in Hs2.
  - apply (same_dag_trans _ s2); [done|]. destruct (_ =? _); [by simplify_eq|by eapply IH].
  - intros s3 r s4 Hs. apply bind_Ret in Hs as ([s5 fresh] & Hs & Hs').
    apply set_committed_view in Hs. mskip Hs'. by simplify_eq.
Qed.

(** The state from which recovery loads its blocks. *)
Lemma DagState_new_steps ctx store s :
  DagState_new ctx store = Ret s →
  ∃ gs s0 s1 bs s2,
    genesis_blocks ctx = Ret gs ∧
    ds_context s0 = ctx ∧ ds_genesis s0 = genesis_map gs ∧ ds_store s0 = store ∧
    ds_recent_blocks s0 = ∅ ∧ ds_blocks_to_write s0 = [] ∧
    ds_cached_rounds s0 = ctx_dag_state_cached_rounds ctx ∧
    ds_threshold_clock s0 = ThresholdClock_new 1 ∧
    ds_recent_refs_by_authority s0 = replicate (N.to_nat (Committee_size (ctx_committee ctx))) ∅ ∧
    ds_evicted_rounds s0 = replicate (N.to_nat (Committee_size (ctx_committee ctx))) 0 ∧
    foldM recover_authority (s0, []) (Committee_authorities_iter (ctx_committee ctx)).*1
      = Ret (s1, bs) ∧
    foldM DagState_update_block_metadata s1
      (stable_sort (λ a b, le_ord (reference a) (reference b)) bs) = Ret s2 ∧
    same_dag s2 s.
Proof.
  unfold DagState_new. intros Hn. apply bind_Ret in Hn as (gs & Hgs & Hn). cbv zeta in Hn.
  do 2 apply bind_Ret in Hn as (? & _ & Hn). apply bind_Ret in Hn as ([rounds start] & _ & Hn).
  apply bind_Ret in Hn as ([rounds' unscored] & _ & Hn).
  apply bind_Ret in Hn as (scoring & _ & Hn).
  apply bind_Ret in Hn as ([s1 bs] & Hs1 & Hn). apply bind_Ret in Hn as (s2 & Hs2 & Hn).
  apply bind_Ret in Hn as (s3 & Hs3 & Hn). apply bind_Ret in Hn as (fr & _ & Hn).
  apply bind_Ret in Hn as (proposed & _ & Hn).
  eexists gs, _, s1, bs, s2. split_and!; [exact Hgs| | | | | | | | | |exact Hs1|exact Hs2|]; try done.
  apply (same_dag_trans _ s3).
  - destruct x as [commit|]; [by eapply recover_committed_same|by simplify_eq].
  - eapply foldM_same_dag; [|exact Hn]. intros s4 b s5 [linked Hl]%fmap_fst_Ret.
    by apply link_causal_history_view in Hl.
Qed.

Lemma authorities_iter_members c :
  Committee_wf c → ∀ i, i ∈ (Committee_authorities_iter c).*1 ↔ i ∈ members c.
Proof.
  intros Hwf i. split; [by apply members_authorities_iter|].
  intros Hi%members_spec. unfold Committee_is_valid_index, Committee_size in Hi. nbool.
  destruct (lookup_lt_is_Some_2 (Committee_authorities c) (N.to_nat i)) as [a Ha]; [lia|].
  apply list_elem_of_fmap. exists (i, a). split; [done|].
  apply elem_of_lookup_imap. exists (N.to_nat i), a. split; [|done].
  pose proof (wf_size c Hwf) as Hsz. unfold Committee_size in Hsz.
  by rewrite N2Nat.id, N.mod_small by lia.
Qed.

(** The facts about the loaded state, before commit and inclusion marks. *)
Record loaded (ctx : Context) (store : S) (gs : list VerifiedBlock) s : Prop := {
  ld_genesis_blocks : genesis_blocks ctx = Ret gs;
  ld_context : ds_context s = ctx;
  ld_genesis : ds_genesis s = genesis_map gs;
  ld_store : ds_store s = store;
  ld_buffer : ds_blocks_to_write s = [];
  ld_cached_rounds : ds_cached_rounds s = ctx_dag_state_cached_rounds ctx;
  ld_refs_len : length (ds_recent_refs_by_authority s) =
                length (Committee_authorities (ctx_committee ctx));
  ld_evicted_len : length (ds_evicted_rounds s) =
                   length (Committee_authorities (ctx_committee ctx));
  ld_refs : refs_ok s;
  ld_clock : clock_ok (ctx_committee ctx) (ds_threshold_clock s);
  ld_cached : ∀ r b, ds_cached s r = Some b → st_block store r = Some b;
  ld_recovered : ∀ i, i ∈ members (ctx_committee ctx) →
    ∃ er l, ds_evicted_rounds s !! N.to_nat i = Some er ∧ recovered s er l i ∧
            ∀ b, b ∈ l → is_Some (ds_cached s (reference b));
}.

Lemma recovered_base s s' er l i :
  DagState_gc_round s' = DagState_gc_round s → ds_store s' = ds_store s →
  ds_cached_rounds s' = ds_cached_rounds s → recovered s er l i → recovered s' er l i.
Proof. unfold recovered. by intros -> -> ->. Qed.

Lemma DagState_new_loaded ctx store s :
  Committee_wf (ctx_committee ctx) → st_ok store → store_bounded (ctx_committee ctx) store →
  DagState_new ctx store = Ret s → ∃ gs s2, loaded ctx store gs s2 ∧ same_dag s2 s.
Proof.
  intros Hwf Hst Hb (gs & s0 & s1 & bs & s2 & Hgs & Hctx & Hg & Hs & Hrec & Hbw & Hcr' &
    Htc & Hrefs & Hev & Hs1 & Hs2 & Hdag)%DagState_new_steps.
  apply (recover_authorities_spec (ctx_committee ctx)) in Hs1
    as (ev & -> & Hlen & Hin & _ & Hbs); [|by rewrite Hs..].
  apply load_blocks_spec in Hs2
    as ((E1 & E2 & E3 & E4 & E5 & E6 & E7) & Hrok & Hrlen & Hc & Hc' & Hcl).
  2:{ intros i refs Hi r. simpl in Hi. rewrite Hrefs in Hi.
      apply lookup_replicate in Hi as [-> _].
      unfold ds_cached. simpl. rewrite Hrec, lookup_empty. split; [set_solver|by intros [_ [??]]]. }
  2:{ intros r. unfold ds_cached. simpl. by rewrite Hrec, lookup_empty. }
  simpl in *. exists gs, s2. split; [|done].
  split; try congruence; try done.
  - rewrite Hrlen, Hrefs, length_replicate. unfold Committee_size. lia.
  - rewrite E3, Hlen, Hev, length_replicate. unfold Committee_size. lia.
  - unfold DagState_committee in Hcl. simpl in Hcl. rewrite Hctx in Hcl.
    apply Hcl; [done|rewrite Htc; apply clock_ok_new|].
    intros b Hb'%stable_sort_elem%Hbs. rewrite Hs in Hb'. by apply Hb in Hb' as (_ & _ & ?).
  - intros r b [Hb' <-]%Hc. apply stable_sort_elem, Hbs in Hb'. by rewrite <- Hs.
  - intros i Hi%authorities_iter_members; [|done].
    destruct (Hin i Hi) as (er & l & Her & Hr & Hl). exists er, l. rewrite E3.
    split_and!; [done| |].
    + eapply recovered_base; [..|exact Hr]; [|congruence..].
      unfold DagState_gc_round, DagState_calculate_gc_round, DagState_protocol_config,
        DagState_last_commit_round. by rewrite E1, E7.
    + intros b Hbl%Hl. by apply Hc', stable_sort_elem.
Qed.

Lemma loaded_ok ctx store gs s :
  Committee_wf (ctx_committee ctx) → 1 ≤ ctx_dag_state_cached_rounds ctx → st_ok store →
  store_bounded (ctx_committee ctx) store → loaded ctx store gs s → ds_ok s.
Proof.
  intros Hwf Hcr Hst [Hb _] [].
  destruct (genesis_map_spec _ _ ld_genesis_blocks0) as [Hg1 Hg2].
  assert (∀ i er, ds_evicted_rounds s !! N.to_nat i = Some er → i ∈ members (ctx_committee ctx))
    as Hmem.
  { intros i er Hi%lookup_lt_Some. apply members_spec.
    unfold Committee_is_valid_index, Committee_size. apply N.ltb_lt. lia. }
  split; unfold DagState_committee; rewrite ?ld_context0, ?ld_store0, ?ld_genesis0, ?ld_buffer0,
    ?ld_cached_rounds0; try done.
  - intros r b Hr%Hb. by destruct Hr as (? & ? & ?).
  - intros i Hi%(authorities_iter_members _ Hwf). by apply Hg2.
  - intros r b Hc%ld_cached0. destruct (Hb _ _ Hc) as (? & ? & ?).
    split_and!; [by eapply st_block_ref|done|by eapply st_block_valid|done].
  - intros r b Hc%ld_cached0. by right.
  - by intros b ?%not_elem_of_nil.
  - constructor.
  - intros r b b' Hs Hc%ld_cached0. congruence.
  - intros r b Hs Hn. destruct (Hb _ _ Hs) as (Hpos & _ & Ha).
    destruct (ld_recovered0 _ Ha) as (er & l & Her & (_ & _ & Hl) & Hc). exists er.
    split; [done|]. destruct (N.le_gt_cases (br_round r) er) as [|Hgt]; [done|].
    assert (reference b = r) as Href by (by eapply st_block_ref).
    destruct (Hc b) as [b' Hb']; [|rewrite Href in Hb'; congruence].
    apply Hl. rewrite Href, ld_store0. split_and!; [done|by rewrite <- Href|by rewrite <- Href in Hgt].
  - intros i er Her. destruct (ld_recovered0 i (Hmem _ _ Her)) as (er' & l & Her' & (Hgc & _) & _).
    by simplify_eq.
  - intros i er Her.
    destruct (ld_recovered0 i (Hmem _ _ Her)) as (er' & l & Her' & (_ & Hlow & Hl) & Hc).
    simplify_eq. destruct Hlow as [?|(b & Hs & Ha & Hle)]; [by left|right].
    rewrite ld_cached_rounds0 in Hle.
    exists (reference b). split_and!; [|done..]. apply Hc, Hl. split_and!; [done..|lia].
Qed.

(** The recovered state satisfies the invariant and holds the store's blocks. *)
Lemma recovery_ok ctx store s :
  Committee_wf (ctx_committee ctx) → 1 ≤ ctx_dag_state_cached_rounds ctx →
  st_ok store → store_bounded (ctx_committee ctx) store → DagState_new ctx store = Ret s →
  ds_ok s ∧ flushed s ∧ ds_store s = store ∧ ds_context s = ctx ∧
  ∀ r, 0 < br_round r → ds_block s r = st_block store r.
Proof.
  intros Hwf Hcr Hst Hb Hn. destruct (DagState_new_loaded ctx store s) as (gs & s2 & Hl & Hdag);
    [done..|].
  pose proof (loaded_ok ctx store gs s2 Hwf Hcr Hst Hb Hl) as Hok2.
  pose proof (same_dag_ok s2 s Hdag Hok2) as Hok. destruct Hdag as [[] _], Hl.
  assert (flushed s) as Hfl by (unfold flushed; congruence).
  assert (ds_store s = store) as Hs by congruence.
  split_and!; [done..|congruence|]. intros r Hr. rewrite <- Hs. symmetry. by apply flushed_stored.
Qed.

(** ** A fresh start *)

Record store_fresh (store : S) : Prop := {
  fresh_ok : st_ok store;
  fresh_blocks : ∀ r, st_block store r = None;
  fresh_commits : ∀ r, st_commit store r = None;
  fresh_infos : ∀ r, st_info store r = None;
}.

Lemma scan_of_fresh store a lo hi l :
  store_fresh store → scan_of (st_block store) a lo hi l → l = [].
Proof.
  intros Hf [_ Hl]. destruct l as [|b l]; [done|].
  destruct (Hl b) as [Hb _]. destruct Hb as [Hb _]; [left|].
  by rewrite (fresh_blocks store Hf) in Hb.
Qed.

Lemma fresh_bounded c store : store_fresh store → store_bounded c store.
Proof.
  intros Hf. split.
  - intros r b Hb. by rewrite (fresh_blocks store Hf) in Hb.
  - intros a lo l Hl. by rewrite (scan_of_fresh store a lo u32_max l Hf Hl).
Qed.

Lemma fresh_scan store a lo :
  store_fresh store → lo ≤ u32_max → store_scan_blocks_by_author store a lo = Ret (Ok []).
Proof.
  intros Hf Hlo. destruct (st_scan store a lo (fresh_ok store Hf) Hlo) as (l & Hl & ->).
  apply (scan_of_fresh store) in Hl as ->; [|done]. by rewrite take_nil.
Qed.

Lemma greatest_none {V} (f : CommitRef → option V) o : (∀ r, f r = None) → greatest f o → o = None.
Proof. intros Hf. destruct o as [[r v]|]; [|done]. simpl. rewrite Hf. by intros [? _]. Qed.

Lemma recover_authority_fresh s i :
  store_fresh (ds_store s) → (N.to_nat i < length (ds_evicted_rounds s))%nat →
  DagState_gc_round s = 0 →
  recover_authority (s, []) i =
    Ret (set_evicted_rounds (<[N.to_nat i := 0]> (ds_evicted_rounds s)) s, []).
Proof.
  intros Hf [er Her]%lookup_lt_is_Some Hgc. unfold recover_authority, unwrap_ok.
  destruct (st_scan_last (ds_store s) i 1 None (fresh_ok _ Hf)) as (l & Hl & ->).
  apply (scan_of_fresh (ds_store s)) in Hl as ->; [|done]. simpl. rewrite Hgc.
  unfold eviction_round. rewrite N.min_0_l, int_add_exact by done. simpl.
  rewrite fresh_scan by done. simpl. unfold index_update. by rewrite Her.
Qed.

Lemma recover_authorities_fresh s l :
  store_fresh (ds_store s) → DagState_gc_round s = 0 →
  (∀ i, i ∈ l → (N.to_nat i < length (ds_evicted_rounds s))%nat) →
  ∃ ev, foldM recover_authority (s, []) l = Ret (set_evicted_rounds ev s, []).
Proof.
  intros Hf Hgc Hl.
  destruct (foldM_returns recover_authority (λ acc, ∃ ev, acc = (set_evicted_rounds ev s, []) ∧
    length ev = length (ds_evicted_rounds s)) l (s, [])) as (acc & Hacc & ev & -> & _).
  - intros acc i Hi (ev & -> & Hev). rewrite recover_authority_fresh; [|done|simpl; rewrite Hev; auto|done].
    eexists. split; [done|]. eexists. split; [done|]. by rewrite length_insert.
  - exists (ds_evicted_rounds s). split; [by destruct s|done].
  - by exists ev.
Qed.

(** On an empty store nothing is recovered. *)
Lemma fresh_state_empty ctx store gs :
  Committee_wf (ctx_committee ctx) → genesis_blocks ctx = Ret gs → store_fresh store →
  ∃ s, DagState_new ctx store = Ret s ∧ ds_last_commit s = None ∧ ds_recent_blocks s = ∅ ∧
       ds_round_info s = [] ∧ ds_highest_accepted_round s = 0 ∧ ds_genesis s = genesis_map gs.
Proof.
  intros Hwf Hgs Hf. pose proof (fresh_ok store Hf) as Hst. unfold DagState_new, unwrap_ok. rewrite Hgs. simpl.
  destruct (st_read_last_commit store Hst) as (o & Ho & ->).
  rewrite (greatest_none _ _ (fresh_commits store Hf) Ho). simpl.
  destruct (st_read_last_commit_info store Hst) as (o' & Ho' & ->).
  rewrite (greatest_none _ _ (fresh_infos store Hf) Ho'). simpl.
  match goal with |- ∃ _, (match pc_enable_v3 _ with true => ?a | false => ?b end ≫= ?k) = _ ∧ _ =>
    replace (match pc_enable_v3 (ctx_protocol_config ctx) with true => a | false => b end)
      with a by (by destruct (pc_enable_v3 _)) end. simpl.
  match goal with |- context [foldM recover_authority (?s0, []) ?l] =>
    destruct (recover_authorities_fresh s0 l) as [ev ->]; [done|done| |] end.
  - intros i Hi. apply members_authorities_iter, members_spec in Hi; [|done]. simpl.
    rewrite length_replicate. unfold Committee_is_valid_index in Hi. nbool. lia.
  - simpl. unfold DagState_gc_round, DagState_calculate_gc_round. simpl.
    rewrite fresh_scan; [simpl; eauto 12|done|]. unfold DagState_last_commit_round. simpl. lia.
Qed.

Lemma fresh_state_ok ctx store gs :
  Committee_wf (ctx_committee ctx) → 1 ≤ ctx_dag_state_cached_rounds ctx →
  genesis_blocks ctx = Ret gs → store_fresh store →
  ∃ s, DagState_new ctx store = Ret s ∧ ds_ok s ∧ ds_context s = ctx ∧
       ds_last_commit s = None ∧ (∀ r, 0 < br_round r → ds_block s r = None).
Proof.
  intros Hwf Hcr Hgs Hf. destruct (fresh_state_empty ctx store gs Hwf Hgs Hf) as (s & Hn & Hlc & _).
  pose proof (fresh_ok store Hf) as Hst.
  exists s. destruct (recovery_ok ctx store s) as (Hok & _ & _ & Hctx & Hb);
    [done..|by apply fresh_bounded|done|].
  split_and!; [done..|]. intros r Hr. rewrite Hb by done. apply Hf.
Qed.

(** C22: A restart after a flush recovers every block: when [DagState::new]
    returns on the flushed store, the recovered state satisfies the invariant
    and its map of blocks above genesis is the one before the restart. *)
Theorem DagState_restart_lossless s s1 s2 :
  ds_ok s → 1 ≤ ctx_dag_state_cached_rounds (ds_context s) →
  DagState_flush s = Ret s1 → store_bounded (DagState_committee s) (ds_store s1) →
  DagState_new (ds_context s) (ds_store s1) = Ret s2 →
  ds_ok s2 ∧ (∀ r, 0 < br_round r → ds_block s2 r = ds_block s r).
Proof.
  intros Hok Hcr Hf Hb Hn.
  destruct (flush_spec s Hok) as (s1' & Hf' & Hok1 & _ & _ & _ & _ & Hst).
  rewrite Hf in Hf'. simplify_eq.
  destruct (recovery_ok (ds_context s) (ds_store s1') s2) as (Hok2 & _ & _ & _ & Hb2);
    [apply Hok|done|apply Hok1|done|done|].
  split; [done|]. intros r Hr. rewrite Hb2 by done. auto.
Qed.

End DagRecovery.

(** ** Witnesses *)

Lemma mem_fresh : store_fresh (S := MemStore) (H2 := MemStore_laws) MemStore_new.
Proof. split; [apply mem_ok_new|intros r; apply lookup_empty..]. Qed.

#[local] Instance witness_profile : Profile := release_profile.
#[local] Instance witness_crypto : Crypto := sample_crypto.

Lemma sample_dag :
  ∃ s : DagState MemStore, DagState_new sample_context MemStore_new = Ret s ∧ ds_ok s ∧
    ds_context s = sample_context ∧ (∀ r, 0 < br_round r → ds_block s r = None).
Proof.
  destruct (genesis_blocks sample_context) as [gs| |] eqn:Hgs; [|vm_compute in Hgs; discriminate..].
  destruct (fresh_state_ok sample_context MemStore_new gs) as (s & Hs & Hok & Hctx & _ & Hb);
    [apply sample_committee_wf|by_eval|exact Hgs|apply mem_fresh|by exists s].
Qed.

Definition sample_genesis_refs : list BlockRef := [sample_ref 0 0; sample_ref 0 1; sample_ref 0 2].

Definition sample_ops : list DagOp :=
  [OpAccept (sample_block 1 1 20 sample_genesis_refs);
   OpAccept (sample_block 1 0 21 sample_genesis_refs);
   OpFlush;
   OpLinkCausalHistory (mkBlockRef 1 0 21);
   OpAccept (sample_block 1 1 20 sample_genesis_refs);
   OpAccept (sample_block 2 1 22 [mkBlockRef 1 1 20])].

(** Runs without commits are valid when their blocks are. *)
Definition static_valid (c : Committee) (op : DagOp) : Prop :=
  match op with
  | OpAccept block => ref_valid (reference block) ∧ b_author block ∈ members c
  | OpAddCommit _ => False
  | _ => True
  end.

Lemma static_ops_valid {S} `{StoreLaws S} (s : DagState S) ops :
  ds_ok s → Forall (static_valid (DagState_committee s)) ops → ops_valid s ops.
Proof.
  intros Hok Hops. revert s Hok Hops. induction ops as [|op ops IH]; intros s Hok Hops; [done|].
  apply Forall_cons in Hops as [Hop Hops].
  assert (op_valid s op) as Hv by (by destruct op).
  split; [done|]. intros s' (Hok' & Hctx & _)%run_op_spec; [|done..].
  apply IH; [done|]. unfold DagState_committee in *. by rewrite Hctx.
Qed.

Lemma sample_ops_valid s :
  ds_ok s → ds_context s = sample_context → ops_valid s sample_ops.
Proof.
  intros Hok Hctx. apply static_ops_valid; [done|].
  unfold DagState_committee. rewrite Hctx.
  repeat (constructor; [first [exact I|split; by_eval]|]). constructor.
Qed.

(** The sample run from a fresh start. *)
Lemma sample_run :
  ∃ s0 s, DagState_new sample_context MemStore_new = Ret s0 ∧ foldM run_op s0 sample_ops = Ret s ∧
    ds_ok s0 ∧ ds_context s0 = sample_context ∧ (∀ r, 0 < br_round r → ds_block s0 r = None).
Proof.
  assert (outcome_sat (s0 ← DagState_new sample_context MemStore_new; foldM run_op s0 sample_ops)
            (λ _, true) = true) as Hr by (vm_compute; reflexivity).
  apply outcome_sat_spec in Hr as (s & Hr & _). apply bind_Ret in Hr as (s0 & Hn & Hr).
  destruct sample_dag as (s0' & Hn' & Hok & Hctx & Hb). rewrite Hn in Hn'.
  injection Hn' as <-. by exists s0, s.
Qed.

Lemma DagState_refines_block_map_witness :
  ∃ s s', DagState_new sample_context MemStore_new = Ret s ∧ foldM run_op s sample_ops = Ret s' ∧
    DagState_get_blocks s' [mkBlockRef 1 1 20; mkBlockRef 2 1 99] =
      Ret [Some (sample_block 1 1 20 sample_genesis_refs); None].
Proof.
  destruct sample_run as (s & s' & Hn & Hrun & Hok & Hctx & Hb).
  exists s, s'. split; [exact Hn|]. split; [exact Hrun|].
  rewrite (proj1 (proj2 (DagState_refines_block_map s sample_ops s'
    [mkBlockRef 1 1 20; mkBlockRef 2 1 99] Hok (sample_ops_valid s Hok Hctx) Hrun
    ltac:(unfold DagState_committee; rewrite Hctx, <- Forall_forall;
          repeat (constructor; [by_eval|]); constructor)))).
  unfold sample_ops. cbn. rewrite !Hb by by_eval. reflexivity.
Defined.

Lemma DagState_flush_lossless_witness :
  ∃ s s', DagState_new sample_context MemStore_new = Ret s ∧ DagState_flush s = Ret s'.
Proof.
  destruct sample_dag as (s & Hn & Hok & _).
  destruct (DagState_flush_lossless s Hok) as (s' & Hf & _).
  exists s, s'. split; [exact Hn|exact Hf].
Defined.

Lemma DagState_accept_block_outcome_witness :
  ∃ s s', DagState_new sample_context MemStore_new = Ret s ∧
    DagState_accept_block s (sample_block 1 1 20 sample_genesis_refs) = Ret s' ∧
    ds_block s' (mkBlockRef 1 1 20) = Some (sample_block 1 1 20 sample_genesis_refs).
Proof.
  destruct sample_dag as (s & Hn & Hok & Hctx & Hnone).
  destruct (DagState_accept_block_outcome s (sample_block 1 1 20 sample_genesis_refs) Hok)
    as [[[b Hb] _]|[(_ & (Hown & _) & _)|(_ & _ & s' & Hs' & _ & Hb)]].
  - unfold DagState_protocol_config. rewrite Hctx. reflexivity.
  - split; [by_eval|]. unfold DagState_committee. rewrite Hctx. by_eval.
  - by_eval.
  - by_eval.
  - exfalso. rewrite Hnone in Hb; [discriminate|by_eval].
  - exfalso. rewrite Hctx in Hown. discriminate.
  - exists s, s'. split; [exact Hn|]. split; [exact Hs'|]. apply Hb.
Defined.

(** Boundedness of an in-memory store can be computed. *)
Lemma mem_scan_length s a lo hi l :
  scan_of (λ r, ms_blocks s !! block_key r) a lo hi l → (length l ≤ size (ms_blocks s))%nat.
Proof.
  intros [Hs Hl]. rewrite <- size_dom.
  assert (NoDup (block_key ∘ reference <$> l)) as Hnd.
  { rewrite list_fmap_compose. apply NoDup_fmap_2; [apply _|]. clear Hl.
    induction Hs as [|b l Hl IH Hb]; csimpl; constructor; [|done].
    intros (b' & Heq & Hin)%list_elem_of_fmap. rewrite Forall_forall in Hb.
    apply Hb in Hin. rewrite lt_ord_alt, Heq, le_ord_refl in Hin. done. }
  rewrite <- (length_fmap (block_key ∘ reference) l), <- (size_list_to_set (C := gset _)) by done.
  apply subseteq_size. intros k. rewrite elem_of_list_to_set, list_elem_of_fmap.
  intros (b & -> & [Hb _]%Hl). apply elem_of_dom. by exists b.
Qed.

Lemma mem_bounded c (s : MemStore) :
  map_Forall (λ k _, 0 < k.1 ∧ k.1 < u32_max ∧ k.2.1 ∈ members c) (ms_blocks s) →
  N.of_nat (size (ms_blocks s)) ≤ usize_max → store_bounded c s.
Proof.
  intros Hall Hsz. split.
  - intros r b Hb. apply Hall in Hb. exact Hb.
  - intros a lo l Hl. apply mem_scan_length in Hl. lia.
Qed.

Definition sample_restart (s0 : DagState MemStore)
    : M (DagState MemStore * DagState MemStore * DagState MemStore) :=
  s ← foldM run_op s0 sample_ops;
  s1 ← DagState_flush s;
  s2 ← DagState_new sample_context (ds_store s1);
  Ret (s, s1, s2).

Lemma DagState_restart_lossless_witness :
  ∃ s s1 s2, DagState_flush s = Ret s1 ∧ DagState_new (ds_context s) (ds_store s1) = Ret s2 ∧
    ds_block s2 (mkBlockRef 2 1 22) = Some (sample_block 2 1 22 [mkBlockRef 1 1 20]).
Proof.
  assert (outcome_sat (s0 ← DagState_new sample_context MemStore_new; sample_restart s0)
    (λ '(_, s1, _), bool_decide
       (map_Forall (λ k _, 0 < k.1 ∧ k.1 < u32_max ∧ k.2.1 ∈ members sample_committee)
          (ms_blocks (ds_store s1)) ∧ N.of_nat (size (ms_blocks (ds_store s1))) ≤ usize_max)) = true)
    as Hr by (vm_compute; reflexivity).
  apply outcome_sat_spec in Hr as ([[s s1] s2] & Hr & [Hall Hsz]%bool_decide_eq_true).
  apply bind_Ret in Hr as (s0 & Hn & Hr). unfold sample_restart in Hr.
  apply bind_Ret in Hr as (s' & Hrun & Hr). apply bind_Ret in Hr as (s1' & Hf & Hr).
  apply bind_Ret in Hr as (s2' & Hnew & [= -> -> ->]).
  destruct sample_dag as (s0' & Hn' & Hok0 & Hctx0 & Hnone). rewrite Hn in Hn'. injection Hn' as <-.
  destruct (run_ops_spec sample_ops s0 s Hok0 (sample_ops_valid s0 Hok0 Hctx0) Hrun)
    as (Hok & Hctx & Hb).
  exists s, s1, s2. split; [exact Hf|]. rewrite Hctx, Hctx0. split; [exact Hnew|].
  rewrite (proj2 (DagState_restart_lossless s s1 s2 Hok ltac:(rewrite Hctx, Hctx0; by_eval) Hf
    ltac:(unfold DagState_committee; rewrite Hctx, Hctx0; apply mem_bounded; assumption)
    ltac:(rewrite Hctx, Hctx0; exact Hnew))); [|by_eval].
  rewrite Hb. unfold sample_ops. cbn. rewrite !Hnone by by_eval. reflexivity.
Defined.
