(* ===== verification/DagTraversal.v ===== *)
(** * Traversals of the DAG

    What [DagState::ancestors_at_round] and [DagState::link_causal_history]
    compute, and that they terminate: the first pops the greatest reference
    until it reaches the wanted round, the second marks each block once. *)

From S2P Require Import Prelude BTree Config Block Commit Store StakeAggregator ThresholdClock.
From S2P Require Import LeaderScoring DagState DagTheory DagRecovery.
Local Open Scope N_scope.

(** ** Ancestry *)

Section Ancestry.
Context (blk : BlockRef → option VerifiedBlock) (lo : Round).

(** [a] is a direct ancestor of the block of [r], which is above round [lo]. *)
Definition parent (r a : BlockRef) : Prop :=
  lo < br_round r ∧ ∃ b, blk r = Some b ∧ a ∈ b_ancestors b.

(** Blocks are filed under their references and link to lower rounds only. *)
Definition dag_sound : Prop :=
  ∀ r b, blk r = Some b → reference b = r ∧ ∀ a, a ∈ b_ancestors b → br_round a < br_round r.

(** The history of [x] down to round [lo] is there. *)
Definition complete_from (x : BlockRef) : Prop :=
  ∀ r, rtc parent x r → lo ≤ br_round r → is_Some (blk r).

Lemma parent_round r a : dag_sound → parent r a → br_round a < br_round r.
Proof. intros Hs (_ & b & Hb & Ha). by apply (Hs r b). Qed.

Lemma rtc_parent_round r a : dag_sound → rtc parent r a → br_round a ≤ br_round r.
Proof.
  intros Hs. induction 1 as [|x y z Hxy _ IH]; [done|].
  apply parent_round in Hxy; [|done]. lia.
Qed.

Lemma complete_parent x a : complete_from x → parent x a → complete_from a.
Proof. intros Hc Hp r Hr. apply Hc. by eapply rtc_l. Qed.

(** A set of references closed under ancestry above [lo]. *)
Definition closed (U : gset BlockRef) : Prop :=
  ∀ u, u ∈ U → lo < br_round u →
  ∃ b, blk u = Some b ∧ ∀ a, a ∈ b_ancestors b → a ∈ U.

(** Histories are finite. *)
Lemma closure_exists (n : N) (X : gset BlockRef) :
  dag_sound → (∀ x, x ∈ X → br_round x ≤ n ∧ complete_from x) →
  ∃ U, X ⊆ U ∧ closed U.
Proof.
  intros Hs. revert X. induction n as [n IH] using (well_founded_induction N.lt_wf_0).
  intros X HX.
  set (anc := λ x, if br_round x <=? lo then [] else from_option (λ b, b_ancestors (vb_block b)) [] (blk x)).
  set (Y := list_to_set (elements X ≫= anc) : gset BlockRef).
  assert (∀ a, a ∈ Y → ∃ x, x ∈ X ∧ parent x a) as HY.
  { intros a Ha. unfold Y in Ha. rewrite elem_of_list_to_set, list_elem_of_bind in Ha.
    destruct Ha as (x & Ha & Hx%elem_of_elements). exists x. split; [done|].
    unfold anc in Ha. destruct (N.leb_spec (br_round x) lo); [by apply not_elem_of_nil in Ha|].
    destruct (blk x) as [b|] eqn:Hb; [|by apply not_elem_of_nil in Ha]. split; [done|]. eauto. }
  destruct (decide (Y = ∅)) as [Hempty|Hne].
  - exists X. split; [done|]. intros u Hu Hr.
    destruct (HX u Hu) as [_ Hc]. destruct (Hc u) as [b Hb]; [apply rtc_refl|lia|].
    exists b. split; [done|]. intros a Ha. exfalso.
    assert (a ∈ Y) as Hin; [|by rewrite Hempty in Hin].
    apply elem_of_list_to_set, list_elem_of_bind. exists u. rewrite elem_of_elements.
    split; [|done]. unfold anc. destruct (N.leb_spec (br_round u) lo); [lia|]. by rewrite Hb.
  - apply set_choose_L in Hne as [y0 Hy0].
    assert (0 < n) as Hn.
    { destruct (HY y0 Hy0) as (x & Hx & Hp). apply parent_round in Hp; [|done].
      apply HX in Hx as [Hx _]. lia. }
    destruct (IH (n - 1) ltac:(lia) Y) as (U & HU & Hcl).
    { intros a Ha. destruct (HY a Ha) as (x & Hx & Hp). destruct (HX x Hx) as [Hxn Hc].
      pose proof (parent_round _ _ Hs Hp). split; [lia|by eapply complete_parent]. }
    exists (X ∪ U). split; [set_solver|]. intros u [Hu|Hu]%elem_of_union Hr.
    + destruct (HX u Hu) as [_ Hc]. destruct (Hc u) as [b Hb]; [apply rtc_refl|lia|].
      exists b. split; [done|]. intros a Ha. apply elem_of_union_r, HU.
      apply elem_of_list_to_set, list_elem_of_bind. exists u. rewrite elem_of_elements.
      split; [|done]. unfold anc. destruct (N.leb_spec (br_round u) lo); [lia|]. by rewrite Hb.
    + destruct (Hcl u Hu Hr) as (b & Hb & Ha). exists b. split; [done|]. set_solver.
Qed.

(** Reachability from a set, after one reference is replaced by its ancestors. *)
Lemma reach_step (L : gset BlockRef) m b r :
  m ∈ L → lo < br_round m → blk m = Some b → br_round r ≤ lo →
  (∃ x, x ∈ L ∖ {[m]} ∪ list_to_set (b_ancestors b) ∧ rtc parent x r) ↔
  (∃ x, x ∈ L ∧ rtc parent x r).
Proof.
  intros Hm Hlo Hb Hr. split.
  - intros (x & [Hx|Hx]%elem_of_union & Hreach); [exists x; set_solver|].
    apply elem_of_list_to_set in Hx. exists m. split; [done|].
    eapply rtc_l; [|done]. split; [done|]. eauto.
  - intros (x & Hx & Hreach). destruct (decide (x = m)) as [->|Hne].
    + inversion Hreach as [|? y ? (_ & b' & Hb' & Ha) Hy]; subst; [lia|].
      exists y. split; [|done]. apply elem_of_union_r, elem_of_list_to_set. congruence.
    + exists x. set_solver.
Qed.

End Ancestry.

(** The blocks of round [lo] that a block reaches through blocks above [lo]. *)
Definition reaches_at (blk : BlockRef → option VerifiedBlock) (later : VerifiedBlock) (lo : Round)
    (r : BlockRef) : Prop :=
  br_round r = lo ∧ ∃ x, x ∈ b_ancestors later ∧ rtc (parent blk lo) x r.

(** [l] lists, in the order of references, the blocks of [blk] that satisfy [P]. *)
Definition lists_blocks (blk : BlockRef → option VerifiedBlock) (P : BlockRef → Prop)
    (l : list VerifiedBlock) : Prop :=
  ref_sorted l ∧ ∀ b, b ∈ l ↔ blk (reference b) = Some b ∧ P (reference b).

(** ** [ancestors_at_round] *)

Section Ancestors.
Context `{Profile} `{Crypto} {S : Type} `{StoreLaws S}.
Implicit Types s : DagState S.

(** Each iteration removes the greatest reference and adds smaller ones that
    were in the closed set already, so the size of the set bounds the loop. *)
Lemma ancestors_loop_spec s lo (U L : gset BlockRef) fuel :
  st_ok (ds_store s) → dag_sound (ds_block s) → closed (ds_block s) lo U → L ⊆ U →
  (size U < fuel)%nat →
  ∃ L', ancestors_loop fuel s lo L = Ret L' ∧ L' ⊆ U ∧
    (∀ r, r ∈ L' → br_round r ≤ lo) ∧
    ∀ r, br_round r = lo → r ∈ L' ↔ ∃ x, x ∈ L ∧ rtc (parent (ds_block s) lo) x r.
Proof.
  intros Hst Hs. revert U L. induction fuel as [|fuel IH]; intros U L Hcl HL Hf; [lia|].
  cbn [ancestors_loop]. destruct (bset_last L) as [m|] eqn:Em.
  2: { apply bset_last_None in Em as ->. exists ∅. split_and!; [done|set_solver|set_solver|].
       set_solver. }
  apply bset_last_Some in Em as [Hm Hmax].
  assert (∀ r, r ∈ L → br_round r ≤ br_round m) as Htop by eauto using BlockRef_le_round.
  destruct (N.leb_spec (br_round m) lo) as [Hle|Hlt].
  { exists L. split_and!; [done..|intros r Hr; specialize (Htop r Hr); lia|].
    intros r Hr. split; [intros; exists r; split; [done|apply rtc_refl]|].
    intros (x & Hx & Hreach). destruct Hreach as [|x y z [Hxy _] _]; [done|].
    specialize (Htop x Hx). lia. }
  destruct (Hcl m) as (b & Hb & Hanc); [set_solver|done|].
  rewrite get_block_spec by done. rewrite Hb. cbn [mbind M_bind expect].
  set (U' := filter (λ u, br_round u ≤ br_round m) U ∖ {[m]}).
  assert (∀ a, a ∈ b_ancestors b → br_round a < br_round m) as Hlower by (apply (Hs m b Hb)).
  destruct (IH U' (L ∖ {[m]} ∪ list_to_set (b_ancestors b))) as (L' & HL' & HU' & Hlow & Hspec).
  - intros u [[Hum Hu]%elem_of_filter Hne]%elem_of_difference Hur.
    destruct (Hcl u Hu Hur) as (bu & Hbu & Ha).
    exists bu. split; [done|]. intros a Hin. destruct (Hs u bu Hbu) as [_ Hlt'].
    specialize (Hlt' a Hin). apply elem_of_difference. rewrite elem_of_filter.
    split_and!; [lia|by apply Ha|]. intros ->%elem_of_singleton. lia.
  - intros a [[Ha Hne]%elem_of_difference|Ha%elem_of_list_to_set]%elem_of_union;
      apply elem_of_difference; rewrite elem_of_filter.
    + split_and!; [by apply Htop|set_solver|done].
    + specialize (Hlower a Ha). split_and!; [lia|by apply Hanc|].
      intros ->%elem_of_singleton. lia.
  - assert (size U' < size U)%nat; [|lia]. apply subset_size. split; [set_solver|].
    intros Hsub. assert (m ∈ U') by set_solver. set_solver.
  - exists L'. split_and!; [done|set_solver|done|]. intros r Hr. rewrite Hspec by done.
    apply reach_step; [done..|lia].
Qed.

Lemma reached_refs s lo (L L' : gset BlockRef) :
  dag_sound (ds_block s) → (∀ x, x ∈ L → complete_from (ds_block s) lo x) →
  (∀ r, r ∈ L' → br_round r ≤ lo) →
  (∀ r, br_round r = lo → r ∈ L' ↔ ∃ x, x ∈ L ∧ rtc (parent (ds_block s) lo) x r) →
  ∃ refs, bset_range (Included (mkBlockRef lo AuthorityIndex_ZERO BlockDigest_MIN)) Unbounded L'
            = Ret refs ∧
    StronglySorted (λ a b, lt_ord a b = true) refs ∧
    ∀ r, r ∈ refs ↔ br_round r = lo ∧ ∃ x, x ∈ L ∧ rtc (parent (ds_block s) lo) x r.
Proof.
  intros Hs Hc Hlow Hspec. eexists. split; [done|]. split.
  - apply StronglySorted_filter, (sorted_strict id); [apply bset_list_sorted|].
    rewrite list_fmap_id. apply bset_list_NoDup.
  - intros r. rewrite list_elem_of_filter, bset_list_elem. split.
    + intros [Hin Hr]. specialize (Hlow r Hr).
      assert (br_round r = lo) as Heq.
      { unfold in_range, above, below in Hin. apply andb_true_iff in Hin as [Hin _].
        apply BlockRef_le_round in Hin. simpl in Hin. lia. }
      split; [done|]. by apply Hspec.
    + intros [Hr Hx]. split; [|by apply Hspec].
      unfold in_range, above, below, le_ord, cmp, Ord_BlockRef, cmp, Ord_prod, BlockRef_tuple, lex.
      unfold cmp, Ord_N, AuthorityIndex_ZERO, BlockDigest_MIN; simpl. rewrite Hr, N.compare_refl.
      destruct (N.compare_spec 0 (br_author r)); [..|lia]; [|done].
      destruct (N.compare_spec 0 (br_digest r)); [..|lia]; done.
Qed.

Lemma fetch_refs_spec s refs :
  st_ok (ds_store s) → (∀ r, r ∈ refs → ∃ b, ds_block s r = Some b ∧ reference b = r) →
  ∃ l, mapP (λ r, found ← DagState_get_block s r; expect found "Block should exist in DAG!") refs
         = Ret l ∧
    reference <$> l = refs ∧ Forall (λ b, ds_block s (reference b) = Some b) l.
Proof.
  intros Hst. induction refs as [|r refs IH]; intros Hfound; [by exists []|]. cbn [mapP].
  destruct (Hfound r) as (b & Hb & Hrb); [left|]. rewrite get_block_spec by done.
  rewrite Hb. cbn [mbind M_bind expect]. destruct IH as (l & -> & <- & Hall).
  { intros ??. apply Hfound. by right. }
  exists (b :: l). csimpl. rewrite Hrb. split_and!; [done..|]. constructor; [by rewrite Hrb|done].
Qed.

Lemma ancestors_at_round_spec s (later : VerifiedBlock) lo :
  st_ok (ds_store s) → dag_sound (ds_block s) →
  (∀ x, x ∈ b_ancestors later → complete_from (ds_block s) lo x) →
  ∃ n, ∀ fuel, (n ≤ fuel)%nat →
    ∃ l, DagState_ancestors_at_round fuel s later lo = Ret l ∧
         lists_blocks (ds_block s) (reaches_at (ds_block s) later lo) l.
Proof.
  intros Hst Hs Hc. set (L := list_to_set (b_ancestors later) : gset BlockRef).
  assert (∀ x, x ∈ L → complete_from (ds_block s) lo x) as HcL.
  { intros x Hx%elem_of_list_to_set. by apply Hc. }
  destruct (closure_exists (ds_block s) lo (sumN (br_round <$> b_ancestors later)) L) as (U & HLU & Hcl).
  { done. }
  { intros x Hx. split; [|by apply HcL]. apply elem_of_list_to_set in Hx.
    apply list_elem_of_split in Hx as (l1 & l2 & ->). rewrite fmap_app, sumN_app. csimpl. lia. }
  exists (Datatypes.S (size U)). intros fuel Hf.
  destruct (ancestors_loop_spec s lo U L fuel) as (L' & HL' & _ & Hlow & Hspec); [done..|lia|].
  destruct (reached_refs s lo L L') as (refs & Hrefs & Hsort & Hmem); [done..|].
  assert (∀ r, r ∈ refs → ∃ b, ds_block s r = Some b ∧ reference b = r) as Hfound.
  { intros r (Hr & x & Hx & Hreach)%Hmem. destruct (HcL x Hx r) as [b Hb]; [done|lia|].
    exists b. split; [done|]. by apply (Hs r b). }
  unfold DagState_ancestors_at_round. fold L. rewrite HL'. cbn [mbind M_bind].
  rewrite Hrefs. cbn [mbind M_bind].
  destruct (fetch_refs_spec s refs) as (l & Hl & Href & Hall); [done..|].
  exists l. split; [done|]. split.
  - apply (StronglySorted_fmap_inv reference (λ a b, lt_ord a b = true)). by rewrite Href.
  - intros b. rewrite Forall_forall in Hall. split.
    + intros Hb. split; [by apply Hall|].
      assert (reference b ∈ refs) as (? & x & ? & ?)%Hmem by (rewrite <- Href; by apply list_elem_of_fmap_2).
      split; [done|]. exists x. split; [by apply (elem_of_list_to_set (C:=gset BlockRef))|done].
    + intros (Hb & Hr & x & Hx & Hreach).
      assert (reference b ∈ refs) as Hin.
      { apply Hmem. split; [done|]. exists x. split; [|done]. by apply elem_of_list_to_set. }
      rewrite <- Href in Hin. apply list_elem_of_fmap in Hin as (b' & Heq & Hb').
      specialize (Hall b' Hb'). rewrite <- Heq in Hall. congruence.
Qed.

End Ancestors.

(** ** [link_causal_history] *)

Section LinkCausalHistory.
Context `{Profile} `{Crypto} {S : Type} `{StoreLaws S}.
Implicit Types s : DagState S.
Implicit Types recent : gmap BlockRef BlockInfo.

(** The steps the loop may still take: one per block not yet included, and one
    per link of such a block. *)
Definition pending_weight (e : BlockRef * BlockInfo) : nat :=
  if bi_included e.2 then 0 else Datatypes.S (length (b_ancestors (bi_block e.2))).

Definition pending_steps recent : nat := sum_list (pending_weight <$> map_to_list recent).

#[local] Instance sum_list_perm : Proper ((≡ₚ) ==> (=)) sum_list.
Proof. intros l1 l2 Hp. induction Hp; simpl; lia. Qed.

Lemma pending_steps_delete recent r info :
  recent !! r = Some info →
  pending_steps recent = (pending_weight (r, info) + pending_steps (delete r recent))%nat.
Proof. intros Hr. unfold pending_steps. by rewrite <- (map_to_list_delete recent r info Hr). Qed.

Lemma pending_steps_mark recent r info :
  recent !! r = Some info → bi_included info = false →
  (pending_steps (<[r := mark_included info]> recent)
   + Datatypes.S (length (b_ancestors (bi_block info))) = pending_steps recent)%nat.
Proof.
  intros Hr Hi. rewrite (pending_steps_delete recent r info) by done.
  rewrite (pending_steps_delete _ r (mark_included info)) by apply lookup_insert_eq.
  rewrite delete_insert_eq. unfold pending_weight. simpl. rewrite Hi. lia.
Qed.

Lemma pending_steps_fuel recent : (2 + pending_steps recent ≤ link_fuel recent)%nat.
Proof.
  unfold link_fuel, pending_steps.
  induction (map_to_list recent) as [|e l IH]; csimpl; [lia|].
  unfold pending_weight at 1. destruct (bi_included e.2); lia.
Qed.

(** [r] is not included yet and above the garbage collection round [gc]; [a] is
    one of its ancestors. *)
Definition fresh (gc : Round) recent (r : BlockRef) (info : BlockInfo) : Prop :=
  gc < br_round r ∧ recent !! r = Some info ∧ bi_included info = false.

Definition fresh_link (gc : Round) recent (r a : BlockRef) : Prop :=
  ∃ info, fresh gc recent r info ∧ a ∈ b_ancestors (bi_block info).

(** What the loop has done when it has linked the blocks [linked]. *)
Record link_state (gc : Round) (root : BlockRef) recent0 recent (linked targets : list BlockRef)
    : Prop := {
  ls_marks : ∀ r, recent !! r =
    if bool_decide (r ∈ linked) then mark_included <$> recent0 !! r else recent0 !! r;
  ls_NoDup : NoDup linked;
  ls_linked : ∀ r, r ∈ linked →
    (∃ info, fresh gc recent0 r info) ∧ rtc (fresh_link gc recent0) root r;
  ls_targets : ∀ r, r ∈ targets → rtc (fresh_link gc recent0) root r;
  ls_root : root ∈ linked ∨ root ∈ targets ∨ ¬ ∃ info, fresh gc recent0 root info;
  ls_closed : ∀ r a, r ∈ linked → fresh_link gc recent0 r a →
    a ∈ linked ∨ a ∈ targets ∨ ¬ ∃ info, fresh gc recent0 a info;
}.

Section LinkLoop.
Context (gc : Round) (root : BlockRef) (recent0 : gmap BlockRef BlockInfo).

(** The blocks the loop visits above [gc] are in the cache. *)
Definition linkable : Prop :=
  ∀ r, rtc (fresh_link gc recent0) root r → gc < br_round r → is_Some (recent0 !! r).

Lemma link_state_init : link_state gc root recent0 recent0 [] [root].
Proof.
  split; try set_solver. apply NoDup_nil_2.
Qed.

Lemma link_state_skip recent linked targets r :
  link_state gc root recent0 recent linked (r :: targets) →
  (r ∈ linked ∨ ¬ ∃ info, fresh gc recent0 r info) →
  link_state gc root recent0 recent linked targets.
Proof.
  intros [] Hr. split; try done; [set_solver| |].
  - rewrite list.elem_of_cons in ls_root0. naive_solver.
  - intros r' a Hr' Ha. specialize (ls_closed0 r' a Hr' Ha).
    rewrite list.elem_of_cons in ls_closed0. naive_solver.
Qed.

Lemma link_state_expand recent linked targets r info :
  link_state gc root recent0 recent linked (r :: targets) →
  gc < br_round r → recent !! r = Some info → bi_included info = false →
  link_state gc root recent0 (<[r := mark_included info]> recent) (linked ++ [r])
    (targets ++ b_ancestors (bi_block info)).
Proof.
  intros [] Hgc Hr Hi.
  assert (r ∉ linked ∧ recent0 !! r = Some info) as [Hnew Hr0].
  { rewrite ls_marks0 in Hr. case_bool_decide; [|done].
    destruct (recent0 !! r); simplify_eq/=. }
  assert (fresh gc recent0 r info) as Hfresh by done.
  assert (rtc (fresh_link gc recent0) root r) as Hreach by (apply ls_targets0; left).
  split.
  - intros r'. destruct (decide (r' = r)) as [->|Hne].
    + rewrite lookup_insert_eq, bool_decide_eq_true_2 by set_solver. by rewrite Hr0.
    + rewrite lookup_insert_ne, ls_marks0 by done.
      rewrite (bool_decide_ext (r' ∈ linked ++ [r]) (r' ∈ linked)); [done|set_solver].
  - apply NoDup_app. split_and!; [done|set_solver|apply NoDup_singleton].
  - intros r' [Hr'| ->%list_elem_of_singleton]%elem_of_app; eauto.
  - intros r' [Hr'|Hr']%elem_of_app; [apply ls_targets0; by right|].
    eapply rtc_r; [done|]. by exists info.
  - rewrite list.elem_of_cons in ls_root0. set_solver.
  - intros r' a [Hr'| ->%list_elem_of_singleton]%elem_of_app Ha.
    + specialize (ls_closed0 r' a Hr' Ha). rewrite list.elem_of_cons in ls_closed0. set_solver.
    + destruct Ha as (info' & (_ & Hr0' & _) & Ha). simplify_eq. set_solver.
Qed.

Lemma link_loop_spec fuel recent linked targets :
  linkable → link_state gc root recent0 recent linked targets →
  (length targets + pending_steps recent < fuel)%nat →
  ∃ recent' linked', link_loop fuel gc recent linked targets = Ret (recent', linked') ∧
    link_state gc root recent0 recent' linked' [].
Proof.
  intros Hlink. revert recent linked targets.
  induction fuel as [|fuel IH]; intros recent linked targets Hls Hf; [lia|].
  cbn [link_loop]. destruct targets as [|r targets]; [by eauto|]. simpl in Hf.
  destruct (N.leb_spec (br_round r) gc) as [Hle|Hgt].
  { apply IH; [|lia]. eapply link_state_skip; [done|]. right. intros (info & ? & _). lia. }
  destruct (Hlink r) as [info0 Hr0]; [by apply (ls_targets _ _ _ _ _ _ Hls); left|done|].
  pose proof (ls_marks _ _ _ _ _ _ Hls r) as Hr. rewrite Hr0 in Hr. simpl in Hr.
  assert (∃ info, recent !! r = Some info) as [info Hri] by (case_bool_decide; eauto).
  rewrite Hri. destruct (bi_included info) eqn:Hi.
  - apply IH; [|lia]. eapply link_state_skip; [done|]. case_bool_decide; [by left|].
    right. intros (info' & _ & ? & ?). congruence.
  - pose proof (pending_steps_mark recent r info Hri Hi).
    apply IH; [by apply link_state_expand|rewrite length_app; lia].
Qed.

Lemma link_state_final recent linked :
  link_state gc root recent0 recent linked [] →
  ∀ r, r ∈ linked ↔ rtc (fresh_link gc recent0) root r ∧ ∃ info, fresh gc recent0 r info.
Proof.
  intros Hls r. split; [intros Hr; apply (ls_linked _ _ _ _ _ _ Hls) in Hr; tauto|].
  intros [Hreach Hfresh].
  assert (root ∈ linked ∨ ¬ ∃ info, fresh gc recent0 root info) as Hroot.
  { pose proof (ls_root _ _ _ _ _ _ Hls). set_solver. }
  assert (∀ x y, rtc (fresh_link gc recent0) x y →
    x ∈ linked ∨ (¬ ∃ info, fresh gc recent0 x info) →
    y ∈ linked ∨ ¬ ∃ info, fresh gc recent0 y info) as Hind.
  { induction 1 as [|x y z Hxy _ IH]; [done|]. intros [Hx|Hx].
    - apply IH. pose proof (ls_closed _ _ _ _ _ _ Hls x y Hx Hxy). set_solver.
    - destruct Hxy as (info & ? & _). naive_solver. }
  destruct (Hind root r Hreach Hroot); [done|naive_solver].
Qed.

(** A cache that has the ancestors above [gc] of each of its blocks will do. *)
Definition cache_closed (gc : Round) recent : Prop :=
  map_Forall (λ _ info, Forall (λ a, gc < br_round a → is_Some (recent !! a))
                          (b_ancestors (bi_block info))) recent.

Lemma cache_closed_linkable :
  cache_closed gc recent0 → (gc < br_round root → is_Some (recent0 !! root)) → linkable.
Proof.
  intros Hc Hroot r Hreach. revert Hroot. induction Hreach as [|x y z Hxy _ IH]; [done|].
  intros _. apply IH. destruct Hxy as (info & (_ & Hx & _) & Ha).
  specialize (Hc x info Hx). rewrite Forall_forall in Hc. by apply Hc.
Qed.

End LinkLoop.

Lemma link_causal_history_spec s root :
  linkable (DagState_gc_round s) root (ds_recent_blocks s) →
  ∃ s' linked, DagState_link_causal_history s root = Ret (s', linked) ∧
    NoDup linked ∧
    (∀ r, r ∈ linked ↔
       rtc (fresh_link (DagState_gc_round s) (ds_recent_blocks s)) root r ∧
       ∃ info, fresh (DagState_gc_round s) (ds_recent_blocks s) r info) ∧
    (∀ r, ds_recent_blocks s' !! r =
       if bool_decide (r ∈ linked) then mark_included <$> ds_recent_blocks s !! r
       else ds_recent_blocks s !! r) ∧
    ∀ r, ds_block s' r = ds_block s r.
Proof.
  intros Hlink. unfold DagState_link_causal_history.
  destruct (link_loop_spec _ _ _ (link_fuel (ds_recent_blocks s)) _ _ _ Hlink
              (link_state_init _ _ _)) as (recent' & linked & Hl & Hls).
  { pose proof (pending_steps_fuel (ds_recent_blocks s)). simpl. lia. }
  rewrite Hl. cbn [mbind M_bind]. eexists _, linked. split_and!; [done|by destruct Hls| | |].
  - by eapply link_state_final.
  - by destruct Hls.
  - intros r. apply same_view_block. by eapply same_view_recent, link_loop_same.
Qed.

(** C32: linking the causal history of a block returns, whenever the part of it
    that is above the garbage collection round and not yet included is cached:
    it lists every such block exactly once, marks exactly those as included, and
    changes no block. *)
Theorem DagState_link_causal_history_exact s root :
  linkable (DagState_gc_round s) root (ds_recent_blocks s) →
  ∃ s' linked, DagState_link_causal_history s root = Ret (s', linked) ∧
    NoDup linked ∧
    (∀ r, r ∈ linked ↔
       rtc (fresh_link (DagState_gc_round s) (ds_recent_blocks s)) root r ∧
       ∃ info, fresh (DagState_gc_round s) (ds_recent_blocks s) r info) ∧
    (∀ r, ds_recent_blocks s' !! r =
       if bool_decide (r ∈ linked) then mark_included <$> ds_recent_blocks s !! r
       else ds_recent_blocks s !! r) ∧
    ∀ r, ds_block s' r = ds_block s r.
Proof. apply link_causal_history_spec. Qed.

End LinkCausalHistory.

#[local] Instance witness_profile : Profile := release_profile.
#[local] Instance witness_crypto : Crypto := sample_crypto.

Lemma DagState_link_causal_history_exact_witness :
  ∃ (s s' : DagState MemStore) linked,
    DagState_link_causal_history s (mkBlockRef 2 1 22) = Ret (s', linked) ∧
    mkBlockRef 2 1 22 ∈ linked.
Proof.
  assert (outcome_sat (s0 ← DagState_new sample_context MemStore_new; foldM run_op s0 sample_ops)
    (λ s, bool_decide (cache_closed (DagState_gc_round s) (ds_recent_blocks s) ∧
                       DagState_gc_round s = 0 ∧
                       is_Some (ds_recent_blocks s !! mkBlockRef 2 1 22) ∧
                       from_option bi_included true (ds_recent_blocks s !! mkBlockRef 2 1 22) = false))
    = true) as Hr by (vm_compute; reflexivity).
  apply outcome_sat_spec in Hr as (s & _ & (Hc & Hgc & [info Hi] & Hf)%bool_decide_eq_true).
  rewrite Hi in Hf. simpl in Hf.
  destruct (DagState_link_causal_history_exact s (mkBlockRef 2 1 22)
    ltac:(apply cache_closed_linkable; [exact Hc|intros _; rewrite Hi; by exists info]))
    as (s' & linked & Hl & _ & Hmem & _).
  exists s, s', linked. split; [exact Hl|]. apply Hmem. split; [apply rtc_refl|].
  exists info. split; [rewrite Hgc; reflexivity|]. split; [exact Hi|exact Hf].
Defined.
