(* ===== verification/LeaderSchedule.v ===== *)
(** * The leader schedule (consensus/core/src/leader_schedule.rs)

    Leaders are drawn by stake from a generator seeded with the round; a leader
    that is one of the bad nodes of the swap table is replaced by one of its
    good nodes.  The table is rebuilt from the reputation scores after every
    [num_commits_per_schedule] commits.

    The generator and its sampling functions belong to the crate [rand]; they
    are the operations of [Rng].  The branch compiled outside of unit tests and
    of the simulator is modelled. *)

From S2P Require Import Prelude BTree Config Block Commit Store StakeAggregator ThresholdClock.
From S2P Require Import LeaderScoring DagState.
Local Open Scope N_scope.

(** ** The crate [rand] *)

Abbreviation Seed := (list N) (only parsing).

Class Rng : Type := {
  (** [slice.shuffle(&mut StdRng::from_seed(seed))]. *)
  rng_shuffle : Seed → ∀ {A : Type}, list A → list A;
  (** [slice.choose(&mut StdRng::from_seed(seed))]. *)
  rng_choose : Seed → ∀ {A : Type}, list A → option A;
  (** [choose_multiple_weighted] for items with their weights, the amount asked
      for being the number of items; [None] is a [WeightedError]. *)
  rng_choose_multiple_weighted : Seed → ∀ {A : Type}, list (A * Stake) → option (list A);
}.

(** What the documentation of [rand] states of them. *)
Class RngLaws `{Rng} : Prop := {
  shuffle_perm : ∀ seed A (l : list A), rng_shuffle seed l ≡ₚ l;
  choose_in : ∀ seed A (l : list A) a, rng_choose seed l = Some a → a ∈ l;
  choose_some : ∀ seed A (l : list A), l ≠ [] → is_Some (rng_choose seed l);
  choose_multiple_perm : ∀ seed A (l : list (A * Stake)),
    l ≠ [] → (∀ x, x ∈ l → 0 < x.2) →
    ∃ l', rng_choose_multiple_weighted seed l = Some l' ∧ l' ≡ₚ l.*1;
}.

(** [u32::to_le_bytes]. *)
Definition u32_to_le_bytes (n : N) : list N :=
  [n mod 256; n / 256 mod 256; n / 65536 mod 256; n / 16777216 mod 256].

(** ** The swap table *)

Record LeaderSwapTable : Type := mkLeaderSwapTable {
  good_nodes : list (AuthorityIndex * string * Stake);
  bad_nodes : gmap AuthorityIndex (string * Stake);
  st_reputation_scores : ReputationScores;
}.

Definition LeaderSwapTable_default : LeaderSwapTable :=
  mkLeaderSwapTable [] ∅ ReputationScores_default.

Section LeaderSwapTable.
Context `{Profile} `{Rng}.

(** The loop of [retrieve_first_nodes], with the stake accumulated so far. *)
Fixpoint retrieve_loop (c : Committee) (stake_threshold : N) (stake : Stake)
    (authorities : list (AuthorityIndex * N)) : M (list (AuthorityIndex * string * Stake)) :=
  match authorities with
  | [] => Ret []
  | (authority_idx, _) :: authorities =>
      s ← Committee_stake c authority_idx;
      stake' ← u64_add stake s;
      scaled ← u64_mul stake_threshold (Committee_total_stake c);
      if scaled / 100 <? stake' then Ret []
      else
        authority ← Committee_authority c authority_idx;
        rest ← retrieve_loop c stake_threshold stake' authorities;
        Ret ((authority_idx, Authority_hostname authority, Authority_stake authority) :: rest)
  end.

Definition LeaderSwapTable_retrieve_first_nodes (ctx : Context)
    (authorities : list (AuthorityIndex * N)) (stake_threshold : N)
    : M (list (AuthorityIndex * string * Stake)) :=
  retrieve_loop (ctx_committee ctx) stake_threshold 0 authorities.

Definition swap_table_seed (commit_index : CommitIndex) : Seed :=
  replicate 28 0 ++ u32_to_le_bytes commit_index.

(** Scores descending; the sort is stable. *)
Definition by_score_desc (a b : AuthorityIndex * N) : bool := b.2 <=? a.2.

Definition LeaderSwapTable_new_inner (ctx : Context) (swap_stake_threshold : N)
    (commit_index : CommitIndex) (reputation_scores : ReputationScores) : M LeaderSwapTable :=
  assert_that (swap_stake_threshold <=? 33) "The swap_stake_threshold should be in range [0 - 33]";;
  if bool_decide (rs_scores_per_authority reputation_scores = [])
  then Ret LeaderSwapTable_default
  else
    authorities_by_score ←
      ReputationScores_authorities_by_score reputation_scores (ctx_committee ctx);
    assert_that (N.of_nat (length authorities_by_score) =? Committee_size (ctx_committee ctx))
      "authorities_by_score.len() == context.committee.size()";;
    let shuffled := rng_shuffle (swap_table_seed commit_index) authorities_by_score in
    let sorted := stable_sort by_score_desc shuffled in
    good ← LeaderSwapTable_retrieve_first_nodes ctx sorted swap_stake_threshold;
    bad ← LeaderSwapTable_retrieve_first_nodes ctx (reverse sorted) swap_stake_threshold;
    Ret (mkLeaderSwapTable good
           (list_to_map ((λ '(idx, hostname, stake), (idx, (hostname, stake))) <$> bad))
           reputation_scores).

Definition LeaderSwapTable_new (ctx : Context) (commit_index : CommitIndex)
    (reputation_scores : ReputationScores) : M LeaderSwapTable :=
  LeaderSwapTable_new_inner ctx (pc_bad_nodes_stake_threshold (ctx_protocol_config ctx))
    commit_index reputation_scores.

Definition swap_seed (leader_round : Round) (leader_offset : N) : Seed :=
  replicate 24 0 ++ u32_to_le_bytes leader_round ++ u32_to_le_bytes leader_offset.

Definition LeaderSwapTable_swap (t : LeaderSwapTable) (leader : AuthorityIndex)
    (leader_round : Round) (leader_offset : N) : M (option AuthorityIndex) :=
  if bool_decide (is_Some (bad_nodes t !! leader)) then
    assert_that (leader_offset =? 0) "Swap for multi-leader case not implemented yet.";;
    '(idx, _, _) ← expect (rng_choose (swap_seed leader_round leader_offset) (good_nodes t))
                     "There should be at least one good node available";
    Ret (Some idx)
  else Ret None.

End LeaderSwapTable.

(** ** The schedule *)

Record LeaderSchedule : Type := mkLeaderSchedule {
  ls_leader_swap_table : LeaderSwapTable;
  ls_context : Context;
  ls_num_commits_per_schedule : N;
}.

Definition CONSENSUS_COMMITS_PER_SCHEDULE : N := 300.

Section LeaderSchedule.
Context `{Profile} `{Rng} {S : Type} `{Store S}.

Definition LeaderSchedule_new (ctx : Context) (table : LeaderSwapTable) : LeaderSchedule :=
  mkLeaderSchedule table ctx CONSENSUS_COMMITS_PER_SCHEDULE.

Definition LeaderSchedule_from_store (ctx : Context) (dag_state : DagState S) : M LeaderSchedule :=
  info ← DagState_recover_last_commit_info dag_state;
  table ← match info with
          | None => Ret LeaderSwapTable_default
          | Some (last_commit_ref, last_commit_info) =>
              LeaderSwapTable_new ctx (cr_index last_commit_ref)
                (ci_reputation_scores last_commit_info)
          end;
  Ret (LeaderSchedule_new ctx table).

Definition LeaderSchedule_commits_until_leader_schedule_update (ls : LeaderSchedule)
    (dag_state : DagState S) : M N :=
  subdag_count ← DagState_scoring_subdags_count dag_state;
  assert_that (subdag_count <=? ls_num_commits_per_schedule ls)
    "Committed subdags count exceeds the number of commits per schedule";;
  Ret (ls_num_commits_per_schedule ls - subdag_count).

Definition LeaderSchedule_update_leader_swap_table (ls : LeaderSchedule) (table : LeaderSwapTable)
    : M LeaderSchedule :=
  let old_commit_range := rs_commit_range (st_reputation_scores (ls_leader_swap_table ls)) in
  let new_commit_range := rs_commit_range (st_reputation_scores table) in
  (if bool_decide (old_commit_range ≠ CommitRange_default) then
     ok ← (if CommitRange_is_next_range old_commit_range new_commit_range
           then CommitRange_is_equal_size old_commit_range new_commit_range
           else Ret false);
     assert_that ok "The new LeaderSwapTable has an invalid CommitRange."
   else Ret tt);;
  Ret (mkLeaderSchedule table (ls_context ls) (ls_num_commits_per_schedule ls)).

Definition LeaderSchedule_update_leader_schedule_v2 (ls : LeaderSchedule) (dag_state : DagState S)
    : M (LeaderSchedule * DagState S) :=
  reputation_scores ← DagState_calculate_scoring_subdag_scores dag_state;
  last_commit_index ← DagState_scoring_subdag_commit_range dag_state;
  dag_state' ← DagState_add_commit_info (DagState_clear_scoring_subdag dag_state) reputation_scores;
  table ← LeaderSwapTable_new (ls_context ls) last_commit_index reputation_scores;
  ls' ← LeaderSchedule_update_leader_swap_table ls table;
  Ret (ls', dag_state').

Definition elect_seed (round : Round) : Seed := replicate 28 0 ++ u32_to_le_bytes round.

Definition LeaderSchedule_elect_leader_stake_based (ls : LeaderSchedule) (round : Round) (offset : N)
    : M AuthorityIndex :=
  let c := ctx_committee (ls_context ls) in
  assert_that (offset <? Committee_size c) "(offset as usize) < self.context.committee.size()";;
  let choices := (λ ia, (ia.1, Authority_stake ia.2)) <$> Committee_authorities_iter c in
  chosen ← expect (rng_choose_multiple_weighted (elect_seed round) choices)
             "Weighted choice error: stake values incorrect!";
  expect (chosen !! N.to_nat offset) "unwrap".

Definition LeaderSchedule_elect_leader (ls : LeaderSchedule) (round : Round) (leader_offset : N)
    : M AuthorityIndex :=
  leader ← LeaderSchedule_elect_leader_stake_based ls round leader_offset;
  swapped ← LeaderSwapTable_swap (ls_leader_swap_table ls) leader round leader_offset;
  Ret (default leader swapped).

End LeaderSchedule.

(** ** Properties of the swap table *)

Section SwapTableTheory.
Context `{Profile} `{RngLaws}.
Context (c : Committee) (Hwf : Committee_wf c).

Definition list_stake (l : list AuthorityIndex) : N := sumN (stake_at c <$> l).

(** The nodes as the code stores them. *)
Definition node_of (i : AuthorityIndex) : AuthorityIndex * string * Stake :=
  (i, from_option Authority_hostname ""%string (Committee_authorities c !! N.to_nat i),
   stake_at c i).

Lemma list_stake_members l :
  NoDup l → (∀ i, i ∈ l → i ∈ members c) → list_stake l ≤ Committee_total_stake c.
Proof using Hwf.
  intros Hnd Hl. unfold list_stake. rewrite <- weight_list_to_set by done.
  apply set_stake_le_total; [done|]. intros i Hi%elem_of_list_to_set. by apply Hl.
Qed.

(** [k] authorities from the front fit the budget, and no more. *)
Definition budget_prefix (budget acc : N) (l : list AuthorityIndex) (k : nat) : Prop :=
  acc + list_stake (take k l) ≤ budget ∧
  ((k < length l)%nat → budget < acc + list_stake (take (Datatypes.S k) l)).

Lemma retrieve_loop_spec thr acc (l : list (AuthorityIndex * N)) :
  thr * Committee_total_stake c < 2 ^ 64 → (∀ i, i ∈ l.*1 → i ∈ members c) →
  acc + list_stake l.*1 < 2 ^ 64 → acc ≤ thr * Committee_total_stake c / 100 →
  ∃ k, (k ≤ length l)%nat ∧ retrieve_loop c thr acc l = Ret (node_of <$> take k l.*1) ∧
       budget_prefix (thr * Committee_total_stake c / 100) acc l.*1 k.
Proof using Hwf.
  intros Hthr. revert acc. induction l as [|[i score] l IH]; intros acc Hl Hacc Hb.
  { exists O. unfold budget_prefix. simpl. split_and!; [lia|done| |lia].
    unfold list_stake. simpl. lia. }
  csimpl in *. unfold list_stake in Hacc. csimpl in Hacc.
  assert (i ∈ members c) as Hi by (apply Hl; left).
  rewrite Committee_stake_valid by (by apply members_spec). cbn [mbind M_bind].
  arith. set (budget := thr * Committee_total_stake c / 100) in *.
  destruct (N.ltb_spec budget (acc + stake_at c i)) as [Hover|Hfit].
  - exists O. unfold budget_prefix. split_and!; [lia|done| |].
    + unfold list_stake. simpl. lia.
    + intros _. unfold list_stake. simpl. lia.
  - destruct (IH (acc + stake_at c i)) as (k & Hk & Hrec & Hle & Hmax); [by intros; apply Hl; right| |done|].
    { unfold list_stake. lia. }
    assert (∃ a, Committee_authorities c !! N.to_nat i = Some a) as [a Ha].
    { apply lookup_lt_is_Some. apply members_spec in Hi.
      unfold Committee_is_valid_index, Committee_size in Hi. nbool. lia. }
    exists (Datatypes.S k). unfold Committee_authority, index. rewrite Ha. cbn [mbind M_bind].
    rewrite Hrec. cbn [mbind M_bind]. split_and!; [lia| |].
    + csimpl. do 2 f_equal. unfold node_of, stake_at. by rewrite Ha.
    + unfold budget_prefix, list_stake in *. csimpl. split; [lia|].
      intros ?. specialize (Hmax ltac:(lia)). csimpl in Hmax. lia.
Qed.

(** A prefix and a suffix that are both light do not overlap. *)
Lemma light_ends_disjoint (l : list AuthorityIndex) k m :
  NoDup l → list_stake (take k l) + list_stake (take m (reverse l)) < list_stake l →
  ∀ i, i ∈ take k l → i ∉ take m (reverse l).
Proof.
  intros Hnd Hlt i Hi Hj.
  assert (list_stake (take m (reverse l)) = list_stake (drop (length l - m) l)) as Hrev.
  { unfold list_stake. rewrite take_reverse.
    by rewrite (fmap_Permutation (stake_at c) _ _ (reverse_Permutation _)). }
  rewrite take_reverse in Hj. rewrite elem_of_reverse in Hj.
  set (n := (length l - m)%nat) in *.
  destruct (decide (n ≤ k)%nat) as [Hnk|Hnk].
  - assert (list_stake l ≤ list_stake (take k l) + list_stake (drop n l)); [|lia].
    rewrite <- (take_drop n l) at 1. unfold list_stake. rewrite fmap_app, sumN_app.
    replace (take n l) with (take n (take k l)) by (rewrite take_take; f_equal; lia).
    rewrite <- (take_drop n (take k l)) at 2. rewrite fmap_app, sumN_app. lia.
  - rewrite <- (take_drop k l) in Hnd. apply NoDup_app in Hnd as (_ & Hdis & _).
    apply (Hdis i Hi). replace n with (k + (n - k))%nat in Hj by lia.
    rewrite <- drop_drop in Hj. by apply (subseteq_drop (n - k)).
Qed.

(** The score of an authority. *)
Definition score_of (rs : ReputationScores) (i : AuthorityIndex) : N :=
  default 0 (rs_scores_per_authority rs !! N.to_nat i).

Definition scored (rs : ReputationScores) : list (AuthorityIndex * N) :=
  zip (N.of_nat <$> seq 0 (length (rs_scores_per_authority rs))) (rs_scores_per_authority rs).

Lemma scored_fst rs :
  N.of_nat (length (rs_scores_per_authority rs)) = Committee_size c →
  NoDup (scored rs).*1 ∧ (∀ i, i ∈ (scored rs).*1 ↔ i ∈ members c) ∧
  ∀ e, e ∈ scored rs → e.2 = score_of rs e.1.
Proof.
  intros Hlen. unfold scored. rewrite fst_zip by (rewrite length_fmap, length_seq; lia). split_and!.
  - apply (NoDup_fmap_2 _), NoDup_seq.
  - intros i. unfold members, Committee_size in *.
    rewrite elem_of_list_to_set, (Nat2N.inj _ _ Hlen). done.
  - intros [i sc] Hin. apply list_elem_of_lookup in Hin as [n Hn].
    apply lookup_zip_Some in Hn as [Hi Hs]. unfold score_of. simpl.
    rewrite list_lookup_fmap in Hi. destruct (seq _ _ !! n) as [n'|] eqn:Hseq; [|done].
    apply lookup_seq in Hseq as [-> ?]. simplify_eq/=. by rewrite Nat2N.id, Hs.
Qed.

Lemma authorities_by_score_spec rs :
  N.of_nat (length (rs_scores_per_authority rs)) = Committee_size c →
  ReputationScores_authorities_by_score rs c = Ret (scored rs).
Proof using Hwf.
  intros Hlen. unfold ReputationScores_authorities_by_score. fold (scored rs).
  apply mapP_Forall2. destruct (scored_fst rs Hlen) as (_ & Hmem & _).
  assert (∀ e, e ∈ scored rs → Committee_to_authority_index c e.1 = Some e.1) as Hidx.
  { intros e He. assert (e.1 ∈ members c) as Hm by (apply Hmem; by apply list_elem_of_fmap_2).
    apply members_spec in Hm. unfold Committee_to_authority_index, Committee_is_valid_index in *.
    rewrite Hm. f_equal. apply N.mod_small. nbool. pose proof (wf_size c Hwf). lia. }
  clear Hmem. induction (scored rs) as [|[i sc] l IH]; constructor.
  - specialize (Hidx (i, sc) ltac:(left)). simpl in Hidx. by rewrite Hidx.
  - apply IH. intros e He. apply Hidx. by right.
Qed.

(** What a table built from scores guarantees. *)
Record table_sound (thr : N) (rs : ReputationScores) (t : LeaderSwapTable) : Prop := {
  ts_good_NoDup : NoDup (good_nodes t).*1.*1;
  ts_good_members : ∀ i, i ∈ (good_nodes t).*1.*1 → i ∈ members c;
  ts_bad_members : dom (bad_nodes t) ⊆ members c;
  ts_good_stake :
    set_stake c (list_to_set (good_nodes t).*1.*1) ≤ thr * Committee_total_stake c / 100;
  ts_bad_stake : set_stake c (dom (bad_nodes t)) ≤ thr * Committee_total_stake c / 100;
  ts_disjoint : ∀ i, i ∈ (good_nodes t).*1.*1 → bad_nodes t !! i = None;
  ts_scores : ∀ g b, g ∈ (good_nodes t).*1.*1 → b ∈ dom (bad_nodes t) →
    score_of rs b ≤ score_of rs g;
}.

Lemma NoDup_take {A} n (l : list A) : NoDup l → NoDup (take n l).
Proof. intros Hnd. eapply sublist_NoDup; [done|apply sublist_take]. Qed.

(** An authority outside of the first [k] scores no more than one of them. *)
Lemma ends_scores rs (l : list (AuthorityIndex * N)) k g b :
  (∀ e, e ∈ l → e.2 = score_of rs e.1) →
  StronglySorted (λ a b, by_score_desc a b = true) l →
  g ∈ take k l.*1 → b ∈ l.*1 → b ∉ take k l.*1 → score_of rs b ≤ score_of rs g.
Proof.
  intros Hsc Hsort Hgi Hbl Hbk.
  assert (b ∈ drop k l.*1) as Hbd.
  { rewrite <- (take_drop k l.*1) in Hbl. by apply elem_of_app in Hbl as [?|?]. }
  rewrite <- (take_drop k l), StronglySorted_app in Hsort. destruct Hsort as (Hgb & _ & _).
  rewrite <- fmap_take in Hgi. rewrite <- fmap_drop in Hbd.
  apply list_elem_of_fmap in Hgi as (eg & -> & Hgi).
  apply list_elem_of_fmap in Hbd as (eb & -> & Hbd).
  rewrite <- (Hsc eg (subseteq_take _ _ _ Hgi)), <- (Hsc eb (subseteq_drop _ _ _ Hbd)).
  specialize (Hgb eg eb Hgi Hbd). unfold by_score_desc in Hgb. by nbool.
Qed.

(** Taking authorities from both ends of a list sorted by score. *)
Lemma table_of_ends thr rs (l : list (AuthorityIndex * N)) k m :
  thr ≤ 33 → NoDup l.*1 → (∀ i, i ∈ l.*1 ↔ i ∈ members c) →
  (∀ e, e ∈ l → e.2 = score_of rs e.1) →
  StronglySorted (λ a b, by_score_desc a b = true) l →
  list_stake (take k l.*1) ≤ thr * Committee_total_stake c / 100 →
  list_stake (take m (reverse l).*1) ≤ thr * Committee_total_stake c / 100 →
  table_sound thr rs
    (mkLeaderSwapTable (node_of <$> take k l.*1)
       (list_to_map ((λ '(idx, hostname, stake), (idx, (hostname, stake))) <$>
                     (node_of <$> take m (reverse l).*1))) rs).
Proof using Hwf.
  intros Hthr Hnd Hmem Hsc Hsort Hg Hb. rewrite fmap_reverse in *.
  assert (list_stake l.*1 = Committee_total_stake c) as Htot.
  { unfold list_stake. rewrite <- weight_list_to_set by done.
    rewrite (wf_total c Hwf), <- set_stake_members. unfold set_stake. f_equal.
    apply set_eq. intros i. by rewrite elem_of_list_to_set, Hmem. }
  assert (∀ i, i ∈ take k l.*1 → i ∉ take m (reverse l.*1)) as Hdis.
  { apply light_ends_disjoint; [done|]. rewrite Htot.
    pose proof (wf_quorum_pos c Hwf). pose proof (wf_quorum_reachable c Hwf).
    assert (thr * Committee_total_stake c ≤ 33 * Committee_total_stake c) by nia. lia. }
  set (tb := mkLeaderSwapTable _ _ _).
  assert ((good_nodes tb).*1.*1 = take k l.*1) as Hgood.
  { simpl. rewrite <- !list_fmap_compose. apply list_fmap_id. }
  assert (dom (bad_nodes tb) = list_to_set (take m (reverse l.*1))) as Hbad.
  { simpl. rewrite dom_list_to_map_L, <- !list_fmap_compose. f_equal. apply list_fmap_id. }
  assert (NoDup (take m (reverse l.*1))) as Hndm.
  { apply NoDup_take. by rewrite reverse_Permutation. }
  assert (∀ i, i ∈ take m (reverse l.*1) → i ∈ l.*1) as Hsub.
  { intros i Hi%subseteq_take. by apply elem_of_reverse. }
  split; rewrite ?Hgood, ?Hbad.
  - by apply NoDup_take.
  - intros i Hi%subseteq_take. by apply Hmem.
  - intros i Hi%elem_of_list_to_set%Hsub. by apply Hmem.
  - unfold set_stake. rewrite weight_list_to_set; [done|].
    by apply NoDup_take.
  - unfold set_stake. by rewrite weight_list_to_set.
  - intros i Hi. apply not_elem_of_dom. rewrite Hbad, elem_of_list_to_set. by apply Hdis.
  - intros g b Hgi Hbi%elem_of_list_to_set.
    apply (ends_scores rs l k); [done..|by apply Hsub|]. intros Hin. by apply Hdis in Hin.
Qed.

Lemma by_score_desc_total a b : by_score_desc a b = true ∨ by_score_desc b a = true.
Proof. unfold by_score_desc. rewrite !N.leb_le. lia. Qed.

Lemma new_inner_spec ctx thr commit_index rs :
  ctx_committee ctx = c → thr ≤ 33 → thr * Committee_total_stake c < 2 ^ 64 →
  rs_scores_per_authority rs ≠ [] →
  N.of_nat (length (rs_scores_per_authority rs)) = Committee_size c →
  ∃ t, LeaderSwapTable_new_inner ctx thr commit_index rs = Ret t ∧ table_sound thr rs t.
Proof using Hwf H1.
  intros Hctx Hthr Hov Hne Hlen. unfold LeaderSwapTable_new_inner, LeaderSwapTable_retrieve_first_nodes.
  rewrite (proj2 (N.leb_le thr 33)) by done. cbn [assert_that mbind M_bind].
  rewrite bool_decide_eq_false_2 by done. rewrite Hctx, authorities_by_score_spec by done.
  cbn [mbind M_bind]. destruct (scored_fst rs Hlen) as (Hnd & Hmem & Hsc).
  assert (length (scored rs) = length (rs_scores_per_authority rs)) as Hl.
  { unfold scored. rewrite length_zip_with, length_fmap, length_seq. lia. }
  rewrite Hl, Hlen, N.eqb_refl. cbn [assert_that mbind M_bind].
  set (sorted := stable_sort _ _).
  assert (sorted ≡ₚ scored rs) as Hperm.
  { unfold sorted. by rewrite stable_sort_perm, shuffle_perm. }
  assert (NoDup sorted.*1) as Hnds by (by rewrite Hperm).
  assert (∀ i, i ∈ sorted.*1 ↔ i ∈ members c) as Hmems by (intros; by rewrite Hperm).
  assert (StronglySorted (λ a b, by_score_desc a b = true) sorted) as Hsort.
  { apply stable_sort_sorted; [apply by_score_desc_total|].
    intros a b d. unfold by_score_desc. rewrite !N.leb_le. lia. }
  pose proof (wf_total_u64 c Hwf).
  destruct (retrieve_loop_spec thr 0 sorted) as (k & _ & -> & [Hk _]); [done| | |lia|].
  { intros i. by rewrite Hmems. }
  { pose proof (list_stake_members sorted.*1 Hnds ltac:(intros; by apply Hmems)). lia. }
  cbn [mbind M_bind].
  destruct (retrieve_loop_spec thr 0 (reverse sorted)) as (m & _ & -> & [Hm _]); [done| | |lia|].
  { intros i. by rewrite fmap_reverse, elem_of_reverse, Hmems. }
  { pose proof (list_stake_members (reverse sorted).*1) as Hle. rewrite fmap_reverse in *.
    lapply Hle; [|by rewrite reverse_Permutation]. intros Hle'. lapply Hle'; [lia|].
    intros i. rewrite elem_of_reverse. apply Hmems. }
  cbn [mbind M_bind]. eexists. split; [done|].
  apply table_of_ends; [done..| |done|lia|lia]. intros e He. apply Hsc. by rewrite <- Hperm.
Qed.

End SwapTableTheory.

Section ElectLeader.
Context `{Profile} `{RngLaws} {S : Type} `{Store S}.

Lemma elect_stake_based_spec ls round offset :
  Committee_wf (ctx_committee (ls_context ls)) →
  (∀ i, i ∈ members (ctx_committee (ls_context ls)) →
        0 < stake_at (ctx_committee (ls_context ls)) i) →
  offset < Committee_size (ctx_committee (ls_context ls)) →
  ∃ i, LeaderSchedule_elect_leader_stake_based ls round offset = Ret i ∧
       i ∈ members (ctx_committee (ls_context ls)).
Proof.
  set (c := ctx_committee (ls_context ls)). intros Hwf Hpos Hoff.
  unfold LeaderSchedule_elect_leader_stake_based. fold c.
  rewrite (proj2 (N.ltb_lt _ _) Hoff). cbn [assert_that mbind M_bind].
  set (choices := _ <$> Committee_authorities_iter c).
  assert (choices.*1 = N.of_nat <$> seq 0 (length (Committee_authorities c))) as Hfst.
  { unfold choices, Committee_authorities_iter. apply list_eq. intros n.
    rewrite !list_lookup_fmap, list_lookup_imap. pose proof (wf_size c Hwf) as Hsz.
    unfold Committee_size in Hsz. destruct (Committee_authorities c !! n) as [a|] eqn:Ha; simpl.
    - apply lookup_lt_Some in Ha. rewrite lookup_seq_lt by done. simpl. f_equal.
      apply N.mod_small. lia.
    - apply lookup_ge_None in Ha. by rewrite lookup_seq_ge. }
  assert (∀ x, x ∈ choices → 0 < x.2) as Hw.
  { intros x Hx. assert (x.1 ∈ members c ∧ x.2 = stake_at c x.1) as [Hm ->]; [|by apply Hpos].
    split; [unfold members; rewrite elem_of_list_to_set, <- Hfst; by apply list_elem_of_fmap_2|].
    unfold choices, Committee_authorities_iter in Hx. apply list_elem_of_fmap in Hx as (ia & -> & Hx).
    apply elem_of_lookup_imap in Hx as (n & a & -> & Ha). simpl. unfold stake_at.
    pose proof (wf_size c Hwf) as Hsz. unfold Committee_size in Hsz.
    pose proof (lookup_lt_Some _ _ _ Ha). rewrite N.mod_small by lia. by rewrite Nat2N.id, Ha. }
  assert (length choices = length (Committee_authorities c)) as Hlen.
  { rewrite <- (length_fmap fst), Hfst, length_fmap, length_seq. done. }
  unfold Committee_size in Hoff.
  destruct (choose_multiple_perm (elect_seed round) _ choices) as (l & -> & Hl); [|done|].
  { intros Hnil. rewrite Hnil in Hlen. simpl in Hlen. lia. }
  cbn [expect mbind M_bind]. rewrite Hfst in Hl.
  destruct (lookup_lt_is_Some_2 l (N.to_nat offset)) as [i Hi].
  { rewrite Hl, length_fmap, length_seq. lia. }
  rewrite Hi. exists i. split; [done|]. unfold members. rewrite elem_of_list_to_set, <- Hl.
  by eapply list_elem_of_lookup_2.
Qed.

Lemma elect_leader_spec ls thr rs round :
  Committee_wf (ctx_committee (ls_context ls)) →
  (∀ i, i ∈ members (ctx_committee (ls_context ls)) →
        0 < stake_at (ctx_committee (ls_context ls)) i) →
  table_sound (ctx_committee (ls_context ls)) thr rs (ls_leader_swap_table ls) →
  bad_nodes (ls_leader_swap_table ls) = ∅ ∨ good_nodes (ls_leader_swap_table ls) ≠ [] →
  ∃ drawn i, LeaderSchedule_elect_leader_stake_based ls round 0 = Ret drawn ∧
    LeaderSchedule_elect_leader ls round 0 = Ret i ∧
    i ∈ members (ctx_committee (ls_context ls)) ∧
    bad_nodes (ls_leader_swap_table ls) !! i = None ∧
    (bad_nodes (ls_leader_swap_table ls) !! drawn = None → i = drawn) ∧
    (is_Some (bad_nodes (ls_leader_swap_table ls) !! drawn) →
     i ∈ (good_nodes (ls_leader_swap_table ls)).*1.*1).
Proof.
  intros Hwf Hpos Hts Hne. pose proof (wf_quorum_pos _ Hwf). pose proof (wf_quorum_reachable _ Hwf).
  destruct (elect_stake_based_spec ls round 0) as (drawn & Hd & Hm); [done..| |].
  { pose proof (wf_total _ Hwf) as Htot. unfold Committee_size.
    destruct (Committee_authorities _); simpl in *; lia. }
  exists drawn. unfold LeaderSchedule_elect_leader, LeaderSwapTable_swap. rewrite Hd.
  cbn [mbind M_bind]. set (t := ls_leader_swap_table ls) in *.
  destruct (bad_nodes t !! drawn) as [x|] eqn:Hbad.
  - rewrite bool_decide_eq_true_2 by done. cbn [N.eqb assert_that mbind M_bind].
    destruct Hne as [Hempty|Hne]; [by rewrite Hempty in Hbad|].
    destruct (choose_some (swap_seed round 0) _ (good_nodes t) Hne) as [[[i h] st] Hi].
    rewrite Hi. cbn [expect mbind M_bind]. exists i. simpl.
    assert (i ∈ (good_nodes t).*1.*1) as Hg.
    { apply choose_in in Hi. by apply (list_elem_of_fmap_2 fst), (list_elem_of_fmap_2 fst) in Hi. }
    split_and!; [done..|by apply (ts_good_members _ _ _ _ Hts)|by apply (ts_disjoint _ _ _ _ Hts)|done|done].
  - rewrite bool_decide_eq_false_2 by (intros [? ?]; done). exists drawn.
    split_and!; [done..|]. by intros [? ?].
Qed.

(** C34: whatever the generator draws, the first leader elected for a round is a
    member of the committee and never one of the bad nodes of a table built from
    reputation scores: a bad draw is replaced by a good node, and any other draw
    stands. *)
Theorem LeaderSchedule_elect_leader_sound ls thr rs round :
  Committee_wf (ctx_committee (ls_context ls)) →
  (∀ i, i ∈ members (ctx_committee (ls_context ls)) →
        0 < stake_at (ctx_committee (ls_context ls)) i) →
  table_sound (ctx_committee (ls_context ls)) thr rs (ls_leader_swap_table ls) →
  bad_nodes (ls_leader_swap_table ls) = ∅ ∨ good_nodes (ls_leader_swap_table ls) ≠ [] →
  ∃ drawn i, LeaderSchedule_elect_leader_stake_based ls round 0 = Ret drawn ∧
    LeaderSchedule_elect_leader ls round 0 = Ret i ∧
    i ∈ members (ctx_committee (ls_context ls)) ∧
    bad_nodes (ls_leader_swap_table ls) !! i = None ∧
    (bad_nodes (ls_leader_swap_table ls) !! drawn = None → i = drawn) ∧
    (is_Some (bad_nodes (ls_leader_swap_table ls) !! drawn) →
     i ∈ (good_nodes (ls_leader_swap_table ls)).*1.*1).
Proof. apply elect_leader_spec. Qed.

(** C33: building the swap table from the scores of every authority succeeds for
    every threshold up to 33; the good and the bad nodes each hold at most that
    percentage of the stake, no authority is both, and no bad node has a higher
    score than a good one. *)
Theorem LeaderSwapTable_new_sound ctx commit_index rs :
  Committee_wf (ctx_committee ctx) →
  pc_bad_nodes_stake_threshold (ctx_protocol_config ctx) ≤ 33 →
  33 * Committee_total_stake (ctx_committee ctx) < 2 ^ 64 →
  rs_scores_per_authority rs ≠ [] →
  N.of_nat (length (rs_scores_per_authority rs)) = Committee_size (ctx_committee ctx) →
  ∃ t, LeaderSwapTable_new ctx commit_index rs = Ret t ∧
    table_sound (ctx_committee ctx) (pc_bad_nodes_stake_threshold (ctx_protocol_config ctx)) rs t.
Proof.
  intros Hwf Hthr Hov Hne Hlen. unfold LeaderSwapTable_new. apply new_inner_spec; [done..| |done|done].
  assert (pc_bad_nodes_stake_threshold (ctx_protocol_config ctx) *
          Committee_total_stake (ctx_committee ctx) ≤ 33 * Committee_total_stake (ctx_committee ctx));
    [nia|lia].
Qed.

End ElectLeader.

(** ** A table without good nodes

    A heavy authority with the best score exceeds the budget of the good nodes,
    which stay empty, while light authorities with bad scores fit the budget of
    the bad nodes. *)

Definition heavy_committee : Committee :=
  {| Committee_epoch := 1;
     Committee_authorities := sample_authority <$> [4000; 2000; 2000; 2000];
     Committee_total_stake := 10000;
     Committee_quorum_threshold := 6667;
     Committee_certification_threshold := 6667;
     Committee_validity_threshold := 3334 |}.

Definition heavy_context : Context :=
  mkContext 0 0 heavy_committee 2 false 50000000 5 ConsensusProtocolConfig_for_testing.

Definition heavy_scores : ReputationScores := mkReputationScores [9; 5; 4; 3] (CommitRange_new 1 300).

Lemma heavy_sorted `{RngLaws} seed :
  stable_sort by_score_desc (rng_shuffle seed (scored heavy_scores)) = scored heavy_scores.
Proof.
  apply (StronglySorted_unique_strong (λ a b, by_score_desc a b = true)).
  - intros x1 x2 Hx1 Hx2. rewrite stable_sort_perm, shuffle_perm in Hx1.
    assert (Forall (λ a, Forall (λ b, by_score_desc a b = true → by_score_desc b a = true → a = b)
              (scored heavy_scores)) (scored heavy_scores)) as Hall by by_eval.
    rewrite Forall_forall in Hall. specialize (Hall x1 Hx1). rewrite Forall_forall in Hall. eauto.
  - apply stable_sort_sorted; [apply by_score_desc_total|].
    intros a b d. unfold by_score_desc. rewrite !N.leb_le. lia.
  - repeat constructor.
  - by rewrite stable_sort_perm, shuffle_perm.
Qed.


(** A generator that draws in order. *)
Definition sample_rng : Rng :=
  {| rng_shuffle _ _ l := l; rng_choose _ _ l := head l;
     rng_choose_multiple_weighted _ _ l := Some l.*1 |}.

Lemma sample_rng_laws : RngLaws (H := sample_rng).
Proof.
  split; simpl; [done| | |by eauto].
  - intros _ A [|x l] a; [done|]. intros [= ->]. left.
  - intros _ A [|x l]; [done|by eauto].
Qed.

#[local] Instance witness_profile : Profile := release_profile.
#[local] Instance witness_rng : Rng := sample_rng.
#[local] Instance witness_rng_laws : RngLaws := sample_rng_laws.


Definition sample_scores : ReputationScores := mkReputationScores [9; 5; 4; 3] (CommitRange_new 1 300).

Lemma LeaderSwapTable_new_sound_witness :
  ∃ t, LeaderSwapTable_new sample_context 300 sample_scores
         = Ret t ∧ table_sound sample_committee 30 sample_scores t.
Proof.
  exact (LeaderSwapTable_new_sound
    sample_context 300 sample_scores sample_committee_wf ltac:(by_eval) ltac:(by_eval)
    ltac:(discriminate) ltac:(reflexivity)).
Defined.

Definition sample_schedule (t : LeaderSwapTable) : LeaderSchedule := LeaderSchedule_new sample_context t.

Lemma LeaderSchedule_elect_leader_sound_witness :
  ∃ t i, LeaderSwapTable_new sample_context 300 sample_scores
           = Ret t ∧
    LeaderSchedule_elect_leader (sample_schedule t) 5 0 = Ret i ∧
    bad_nodes t !! i = None.
Proof.
  destruct (new_inner_spec
    sample_committee sample_committee_wf sample_context 30 300 sample_scores eq_refl
    ltac:(by_eval) ltac:(by_eval) ltac:(discriminate) eq_refl) as (t & Ht & Hts).
  assert (good_nodes t ≠ []) as Hg.
  { vm_compute in Ht. injection Ht as <-. discriminate. }
  destruct (LeaderSchedule_elect_leader_sound
    (sample_schedule t) 30 sample_scores 5 sample_committee_wf
    ltac:(change (set_Forall (λ i, 0 < stake_at sample_committee i) (members sample_committee)); by_eval) Hts (or_intror Hg)) as (d & i & _ & Hi & _ & Hb & _).
  exists t, i. split; [exact Ht|]. split; [exact Hi|exact Hb].
Defined.
