(* ===== verification/LeaderScheduleV3.v ===== *)
(** * The leader schedule of commit rule v3 (consensus/core/src/leader_schedule_v3.rs)

    Leaders are scored over a sliding window of recent commits; the authorities
    with the lowest scores, up to a share of the stake, are not allowed to lead.
    Metrics are left out, except for the operations in them that can panic. *)

From S2P Require Import Prelude BTree Config Block Commit Store StakeAggregator ThresholdClock.
From S2P Require Import LeaderScoring DagState LeaderSchedule.
Local Open Scope N_scope.

(** ** Checked arithmetic and bytes *)

Definition checked_add (w a b : N) : option N := if a + b <? 2 ^ w then Some (a + b) else None.
Definition checked_sub (a b : N) : option N := if b <=? a then Some (a - b) else None.
Definition checked_mul (w a b : N) : option N := if a * b <? 2 ^ w then Some (a * b) else None.

(** [a / b]. *)
Definition int_div (a b : N) : M N :=
  if b =? 0 then Panic (Explicit "attempt to divide by zero") else Ret (a / b).

(** The [n] big-endian bytes of a number. *)
Definition to_be_bytes (n : nat) (x : N) : list N :=
  (λ i, x / 256 ^ N.of_nat (n - 1 - i) mod 256) <$> seq 0 n.

Definition u64_to_le_bytes (x : N) : list N := reverse (to_be_bytes 8 x).

(** ** Data *)

Definition MAX_PENDING_COMMITS : N := 3.

Record NextCommitLeaderSchedule : Type := mkNextCommitLeaderSchedule {
  nc_next_commit_index : CommitIndex;
  nc_min_next_leader_round : Round;
  nc_allowed_leaders : list AuthorityIndex;
}.

Definition NextCommitLeaderSchedule_default : NextCommitLeaderSchedule :=
  mkNextCommitLeaderSchedule 0 0 [].

Record ScoresEntry : Type := mkScoresEntry {
  se_commit_ref : CommitRef;
  se_score_contributions : list N;
  se_num_leaders : N;
  se_leader_stakes : N;
}.

Record LeaderScheduleV3 : Type := mkLeaderScheduleV3 {
  l3_context : Context;
  l3_total_scores_per_authority : list N;
  l3_total_num_leaders : N;
  l3_total_leader_stakes : N;
  l3_pending_commits : list CommittedSubDag;
  l3_scores_entries : list ScoresEntry;
  l3_current_schedule : NextCommitLeaderSchedule;
}.

Definition set_current_schedule (v : NextCommitLeaderSchedule) (ls : LeaderScheduleV3)
    : LeaderScheduleV3 :=
  mkLeaderScheduleV3 (l3_context ls) (l3_total_scores_per_authority ls) (l3_total_num_leaders ls)
    (l3_total_leader_stakes ls) (l3_pending_commits ls) (l3_scores_entries ls) v.
Definition set_l3_pending_commits (v : list CommittedSubDag) (ls : LeaderScheduleV3)
    : LeaderScheduleV3 :=
  mkLeaderScheduleV3 (l3_context ls) (l3_total_scores_per_authority ls) (l3_total_num_leaders ls)
    (l3_total_leader_stakes ls) v (l3_scores_entries ls) (l3_current_schedule ls).

Section LeaderScheduleV3.
Context `{Profile} `{Rng}.
Implicit Types ls : LeaderScheduleV3.

Definition l3_window_size ls : N :=
  pc_leader_schedule_window_size (ctx_protocol_config (l3_context ls)).
Definition l3_update_interval ls : N :=
  pc_leader_schedule_update_interval (ctx_protocol_config (l3_context ls)).

(** ** The next commit *)

Definition LeaderScheduleV3_next_commit_index ls : M CommitIndex :=
  u32_add (default 0 ((λ c, cr_index (sd_commit_ref c)) <$> last (l3_pending_commits ls))) 1.

Definition LeaderScheduleV3_min_next_leader_round ls : M Round :=
  u32_add (default 0 ((λ c, br_round (sd_leader c)) <$> last (l3_pending_commits ls))) 1.

(** The seed of the shuffle: the digest of the last commit, or a seed of the epoch. *)
Definition shuffle_seed ls : list N :=
  match last (l3_pending_commits ls) with
  | Some c => to_be_bytes 32 (cr_digest (sd_commit_ref c))
  | None =>
      u64_to_le_bytes (ctx_epoch_start_timestamp_ms (l3_context ls)) ++
      u64_to_le_bytes (Committee_epoch (ctx_committee (l3_context ls))) ++ replicate 16 0
  end.

(** The loop that pops authorities from the back while their stake stays within
    the cutoff: the list holds the authorities from the back. *)
Fixpoint drop_bad_authorities (c : Committee) (cutoff accumulated_bad_stake : Stake)
    (by_score : list (AuthorityIndex * N)) : M (list (AuthorityIndex * N)) :=
  match by_score with
  | [] => Ret []
  | (idx, _) :: rest =>
      stake ← Committee_stake c idx;
      accumulated ← u64_add accumulated_bad_stake stake;
      if cutoff <? accumulated then Ret by_score
      else drop_bad_authorities c cutoff accumulated rest
  end.

Definition LeaderScheduleV3_select_allowed_leaders_with_fixed_config ls
    : M (list AuthorityIndex) :=
  let c := ctx_committee (l3_context ls) in
  by_score ← mapP (λ '(i, score),
               authority_index ← expect (Committee_to_authority_index c (N.of_nat i))
                                   "Should be a valid AuthorityIndex";
               Ret (authority_index, score))
               (imap pair (l3_total_scores_per_authority ls));
  let by_score := rng_shuffle (shuffle_seed ls) by_score in
  let by_score := stable_sort (λ a b : AuthorityIndex * N, b.2 <=? a.2) by_score in
  product ← u64_mul (pc_bad_nodes_stake_threshold (ctx_protocol_config (l3_context ls)))
              (Committee_total_stake c);
  kept ← drop_bad_authorities c (product / 100) 0 (reverse by_score);
  Ret (reverse kept.*1).

Definition LeaderScheduleV3_compute_next_commit_leader_schedule ls : M NextCommitLeaderSchedule :=
  allowed_leaders ← LeaderScheduleV3_select_allowed_leaders_with_fixed_config ls;
  next_commit_index ← LeaderScheduleV3_next_commit_index ls;
  min_next_leader_round ← LeaderScheduleV3_min_next_leader_round ls;
  Ret (mkNextCommitLeaderSchedule next_commit_index min_next_leader_round allowed_leaders).

Definition LeaderScheduleV3_refresh_current_schedule ls : M LeaderScheduleV3 :=
  next_commit_index ← LeaderScheduleV3_next_commit_index ls;
  if (next_commit_index - 1) mod l3_update_interval ls =? 0 then
    schedule ← LeaderScheduleV3_compute_next_commit_leader_schedule ls;
    Ret (set_current_schedule schedule ls)
  else
    min_next_leader_round ← LeaderScheduleV3_min_next_leader_round ls;
    Ret (set_current_schedule
           (mkNextCommitLeaderSchedule next_commit_index min_next_leader_round
              (nc_allowed_leaders (l3_current_schedule ls))) ls).

(** What [report_metrics] can panic on. *)
Definition LeaderScheduleV3_report_metrics ls : M unit :=
  let c := ctx_committee (l3_context ls) in
  mapP (λ i,
    authority_index ← expect (Committee_to_authority_index c (N.of_nat i))
                        "Should be a valid AuthorityIndex";
    authority ← Committee_authority c authority_index;
    if bool_decide (Authority_hostname authority = ""%string) then Ret tt
    else expect (checked_mul 64 (l3_total_leader_stakes ls) (Committee_total_stake c)) "unwrap";;
         Ret tt)
    (seq 0 (length (l3_total_scores_per_authority ls)));;
  Ret tt.

(** ** Construction *)

Definition LeaderScheduleV3_new (context : Context) (total_scores_per_authority : list N)
    : M LeaderScheduleV3 :=
  assert_that (N.of_nat (length total_scores_per_authority) =?
               Committee_size (ctx_committee context))
    "total_scores_per_authority.len() == context.committee.size()";;
  let schedule := mkLeaderScheduleV3 context total_scores_per_authority 0 0 [] []
                    NextCommitLeaderSchedule_default in
  current_schedule ← LeaderScheduleV3_compute_next_commit_leader_schedule schedule;
  Ret (set_current_schedule current_schedule schedule).

(** ** Scoring a commit *)

Fixpoint scan_commits (upper : Round) (commits : list CommittedSubDag) : list CommittedSubDag :=
  match commits with
  | [] => []
  | cmt :: commits =>
      if upper <? br_round (sd_leader cmt) then [cmt] else cmt :: scan_commits upper commits
  end.

Definition LeaderScheduleV3_scan_commits_until_leader_round_above
    (pending : list CommittedSubDag) (c : CommittedSubDag) (upper : Round)
    : M (list CommittedSubDag) :=
  let out := scan_commits upper (drop 1 pending ++ [c]) in
  assert_that (from_option (λ cmt, upper <? br_round (sd_leader cmt)) false (last out))
    "scan must end on a commit with leader.round > upper";;
  Ret out.

Definition blocks_at_round (round : Round) (commits : list CommittedSubDag) : list VerifiedBlock :=
  filter (λ b : VerifiedBlock, b_round b = round) (concat (sd_blocks <$> commits)).

Definition group_by_author (blocks : list VerifiedBlock)
    : gmap AuthorityIndex (list VerifiedBlock) :=
  foldl (λ groups b, <[b_author (vb_block b) := default [] (groups !! b_author (vb_block b)) ++ [b]]> groups)
    ∅ blocks.

(** [authorities.into_iter().map(|i| committee.stake(i)).sum()]. *)
Definition stake_sum (c : Committee) (authorities : list AuthorityIndex) : M N :=
  stakes ← mapP (Committee_stake c) authorities;
  u64_sum stakes.

(** One authority's contribution: nothing for an equivocation. *)
Definition authority_score (c : Committee) (leader_refs : gset BlockRef)
    (certifying_blocks : list VerifiedBlock) (scores : list N)
    (entry : AuthorityIndex * list VerifiedBlock) : M (list N) :=
  match entry.2 with
  | [voting_block] =>
      let leader_authorities : gset AuthorityIndex :=
        list_to_set (br_author <$> filter (λ anc, anc ∈ leader_refs)
                                     (b_ancestors (vb_block voting_block))) in
      voted_for_stake ← stake_sum c (bset_list leader_authorities);
      if voted_for_stake =? 0 then Ret scores
      else
        let certifying_authorities : gset AuthorityIndex :=
          list_to_set ((λ b : VerifiedBlock, b_author b) <$>
                       filter (λ b : VerifiedBlock, reference voting_block ∈ b_ancestors b)
                         certifying_blocks) in
        certified_by_stake ← stake_sum c (bset_list certifying_authorities);
        score ← expect (checked_mul 64 voted_for_stake certified_by_stake) "unwrap";
        index_update scores entry.1 (λ _, score)
  | _ => Ret scores
  end.

(** What [c] adds to the window: the scores of the commit three before it. *)
Definition score_commit (committee : Committee) (pending : list CommittedSubDag)
    (c : CommittedSubDag) : M ScoresEntry :=
  c_minus_3 ← index pending 0;
  c_minus_2 ← index pending 1;
  c_minus_1 ← index pending 2;
  let leader_round := br_round (sd_leader c_minus_3) in
  vote_round ← u32_add leader_round 1;
  certify_round ← u32_add leader_round 2;
  assert_that ((br_round (sd_leader c_minus_3) <? br_round (sd_leader c_minus_2)) &&
               (br_round (sd_leader c_minus_2) <? br_round (sd_leader c_minus_1)) &&
               (br_round (sd_leader c_minus_1) <? br_round (sd_leader c)))
    "consecutive commits must have strictly increasing leader rounds";;
  let leader_refs : gset BlockRef :=
    list_to_set (reference <$> blocks_at_round leader_round [c_minus_3]) in
  assert_that (negb (bool_decide (leader_refs = ∅))) "!leader_refs.is_empty()";;
  assert_that (bool_decide (sd_leader c_minus_3 ∈ leader_refs))
    "C-3's leader missing from its own leader blocks";;
  voting_commits ← LeaderScheduleV3_scan_commits_until_leader_round_above pending c vote_round;
  certifying_commits ←
    LeaderScheduleV3_scan_commits_until_leader_round_above pending c certify_round;
  score_contributions ←
    foldM (authority_score committee leader_refs (blocks_at_round certify_round certifying_commits))
      (replicate (N.to_nat (Committee_size committee)) 0)
      (bmap_list (group_by_author (blocks_at_round vote_round voting_commits)));
  leader_stakes ← stake_sum committee (br_author <$> bset_list leader_refs);
  Ret (mkScoresEntry (sd_commit_ref c_minus_3) score_contributions
         (N.of_nat (size leader_refs)) leader_stakes).

(** [totals[i] = op(totals[i], deltas[i]).unwrap()] for every position of [deltas]. *)
Definition update_totals (op : N → N → option N) (totals deltas : list N) : M (list N) :=
  foldM (λ totals '(i, delta),
           total ← index totals (N.of_nat i);
           total ← expect (op total delta) "unwrap";
           index_update totals (N.of_nat i) (λ _, total))
    totals (imap pair deltas).

Definition remove_entry ls (evicted : ScoresEntry) (entries : list ScoresEntry)
    : M LeaderScheduleV3 :=
  scores ← update_totals checked_sub (l3_total_scores_per_authority ls)
             (se_score_contributions evicted);
  num_leaders ← expect (checked_sub (l3_total_num_leaders ls) (se_num_leaders evicted)) "unwrap";
  leader_stakes ← expect (checked_sub (l3_total_leader_stakes ls) (se_leader_stakes evicted))
                    "unwrap";
  Ret (mkLeaderScheduleV3 (l3_context ls) scores num_leaders leader_stakes
         (l3_pending_commits ls) entries (l3_current_schedule ls)).

(** [while self.scores_entries.len() >= self.window_size()]. *)
Fixpoint evict_entries ls (entries : list ScoresEntry) : M LeaderScheduleV3 :=
  if l3_window_size ls <=? N.of_nat (length entries) then
    match entries with
    | [] => Panic (Expected "non empty")
    | evicted :: entries => ls ← remove_entry ls evicted entries; evict_entries ls entries
    end
  else Ret ls.

Definition add_entry ls (entry : ScoresEntry) : M LeaderScheduleV3 :=
  scores ← update_totals (checked_add 64) (l3_total_scores_per_authority ls)
             (se_score_contributions entry);
  num_leaders ← expect (checked_add 64 (l3_total_num_leaders ls) (se_num_leaders entry)) "unwrap";
  leader_stakes ← expect (checked_add 64 (l3_total_leader_stakes ls) (se_leader_stakes entry))
                    "unwrap";
  Ret (mkLeaderScheduleV3 (l3_context ls) scores num_leaders leader_stakes
         (l3_pending_commits ls) (l3_scores_entries ls ++ [entry]) (l3_current_schedule ls)).

Definition LeaderScheduleV3_add_commit ls (c : CommittedSubDag) : M LeaderScheduleV3 :=
  match last (l3_pending_commits ls) with
  | Some last =>
      next ← u32_add (cr_index (sd_commit_ref last)) 1;
      assert_that (cr_index (sd_commit_ref c) =? next) "c.commit_ref.index == last.commit_ref.index + 1"
  | None => Ret tt
  end;;
  ls ← (if N.of_nat (length (l3_pending_commits ls)) <? MAX_PENDING_COMMITS
        then Ret (set_l3_pending_commits (l3_pending_commits ls ++ [c]) ls)
        else
          entry ← score_commit (ctx_committee (l3_context ls)) (l3_pending_commits ls) c;
          ls ← evict_entries ls (l3_scores_entries ls);
          ls ← add_entry ls entry;
          Ret (set_l3_pending_commits (drop 1 (l3_pending_commits ls) ++ [c]) ls));
  ls ← LeaderScheduleV3_refresh_current_schedule ls;
  LeaderScheduleV3_report_metrics ls;;
  Ret ls.

Definition LeaderScheduleV3_current_reputation_scores ls : M ReputationScores :=
  if forallb (λ score, score =? 0) (l3_total_scores_per_authority ls)
  then Ret ReputationScores_default
  else
    let interval_size := l3_update_interval ls in
    elapsed ← u32_sub (nc_next_commit_index (l3_current_schedule ls)) 1;
    interval_num ← int_div elapsed interval_size;
    before ← u32_mul interval_num interval_size;
    start ← u32_add before 1;
    next_interval ← u32_add interval_num 1;
    last ← u32_mul next_interval interval_size;
    Ret (ReputationScores_new (CommitRange_new start last) (l3_total_scores_per_authority ls)).

(** ** Recovery *)

Definition LeaderScheduleV3_replay_start (context : Context) (last_commit_index : CommitIndex)
    : M CommitIndex :=
  let window_size := pc_leader_schedule_window_size (ctx_protocol_config context) in
  let update_interval := pc_leader_schedule_update_interval (ctx_protocol_config context) in
  intervals ← int_div last_commit_index update_interval;
  before ← u32_mul intervals update_interval;
  last_schedule_update_index ← u32_add before 1;
  replayed ← u32_add window_size MAX_PENDING_COMMITS;
  Ret (N.max (last_schedule_update_index - replayed) 1).

Definition LeaderScheduleV3_from_store {S : Type} `{Store S} (context : Context)
    (dag_state : DagState S) : M LeaderScheduleV3 :=
  leader_schedule ← LeaderScheduleV3_new context
                      (replicate (N.to_nat (Committee_size (ctx_committee context))) 0);
  let last_commit_index := DagState_last_commit_index dag_state in
  if last_commit_index =? 0 then Ret leader_schedule
  else
    replay_start ← LeaderScheduleV3_replay_start context last_commit_index;
    let store := ds_store dag_state in
    commits ← unwrap_ok (store_scan_commits store (CommitRange_new replay_start last_commit_index))
                "Failed to scan commits from storage";
    foldM (λ leader_schedule commit,
             subdag ← load_committed_subdag_from_store store commit;
             LeaderScheduleV3_add_commit leader_schedule subdag) leader_schedule commits.

End LeaderScheduleV3.
