(* ===== verification/BaseCommitter.v ===== *)
(** * The commit rule of one wave (consensus/core/src/base_committer.rs)

    A [BaseCommitter] decides the leader slots of the waves that start at its
    offset: directly, from the blocks of the voting and of the decision round, or
    indirectly, from a later committed leader.  It reads the DAG through
    [DagReader], whose operations are those of [DagState] that the committers
    call; [DagReaderLaws] says what the committers rely on, and [DagState]
    provides it. *)

From S2P Require Import Prelude BTree Config Block Commit Store StakeAggregator ThresholdClock.
From S2P Require Import LeaderScoring DagState DagTheory DagTraversal LeaderSchedule.
Local Open Scope N_scope.

(** ** Reading the DAG *)

Class DagReader (D : Type) : Type := {
  dr_get_block : D → BlockRef → M (option VerifiedBlock);
  dr_uncommitted_at_slot : D → Slot → M (list VerifiedBlock);
  dr_uncommitted_at_round : D → Round → M (list VerifiedBlock);
  dr_ancestors_at_round : nat → D → VerifiedBlock → Round → M (list VerifiedBlock);
  dr_gc_round : D → Round;
  dr_last_commit_round : D → Round;
  dr_highest_accepted_round : D → Round;
}.

Class DagReaderLaws (D : Type) `{DagReader D} : Type := {
  dr_ok : D → Prop;
  dr_block : D → BlockRef → option VerifiedBlock;
  dr_get_block_spec : ∀ d r, dr_ok d → dr_get_block d r = Ret (dr_block d r);
  dr_at_slot_spec : ∀ d slot, dr_ok d → dr_gc_round d < slot_round slot →
    ∃ l, dr_uncommitted_at_slot d slot = Ret l ∧
         lists_blocks (dr_block d) (λ r, Slot_from r = slot) l;
  dr_at_round_spec : ∀ d round, dr_ok d → dr_last_commit_round d < round → round < u32_max →
    ∃ l, dr_uncommitted_at_round d round = Ret l ∧
         lists_blocks (dr_block d) (λ r, br_round r = round) l;
  dr_ancestors_spec : ∀ d later lo, dr_ok d → dag_sound (dr_block d) →
    (∀ x, x ∈ b_ancestors (vb_block later) → complete_from (dr_block d) lo x) →
    ∃ n, ∀ fuel, (n ≤ fuel)%nat →
      ∃ l, dr_ancestors_at_round fuel d later lo = Ret l ∧
           lists_blocks (dr_block d) (reaches_at (dr_block d) later lo) l;
}.

(** ** The committer *)

Record BaseCommitterOptions : Type := mkBaseCommitterOptions {
  bo_wave_length : Round;
  bo_leader_offset : N;
  bo_round_offset : N;
}.

Definition BaseCommitterOptions_default : BaseCommitterOptions :=
  mkBaseCommitterOptions DEFAULT_WAVE_LENGTH 0 0.

(** [dag_state], behind a lock that the other components write, is an argument
    of the methods; [bc_leader_schedule] is the schedule at the time of the
    call. *)
Record BaseCommitter : Type := mkBaseCommitter {
  bc_context : Context;
  bc_leader_schedule : LeaderSchedule;
  bc_options : BaseCommitterOptions;
}.

Section BaseCommitter.
Context `{Profile} `{Rng} {D : Type} `{DagReader D}.
Implicit Types bc : BaseCommitter.
Implicit Types d : D.

Definition BaseCommitter_wave_number bc (round : Round) : M N :=
  if bo_wave_length (bc_options bc) =? 0 then Panic (Explicit "attempt to divide by zero")
  else Ret ((round - bo_round_offset (bc_options bc)) / bo_wave_length (bc_options bc)).

Definition BaseCommitter_leader_round bc (wave : N) : M Round :=
  start ← u32_mul wave (bo_wave_length (bc_options bc));
  u32_add start (bo_round_offset (bc_options bc)).

Definition BaseCommitter_decision_round bc (wave : N) : M Round :=
  let wave_length := bo_wave_length (bc_options bc) in
  start ← u32_mul wave wave_length;
  next ← u32_add start wave_length;
  end_round ← u32_sub next 1;
  u32_add end_round (bo_round_offset (bc_options bc)).

Definition BaseCommitter_elect_leader bc (round : Round) : M (option Slot) :=
  wave ← BaseCommitter_wave_number bc round;
  leader_round ← BaseCommitter_leader_round bc wave;
  if negb (leader_round =? round) then Ret None
  else
    leader ← LeaderSchedule_elect_leader (bc_leader_schedule bc) round
               (bo_leader_offset (bc_options bc));
    Ret (Some (mkSlot round leader)).

(** [find_supported_block]; a block has a higher round than its ancestors, so
    its round bounds the depth of the recursion. *)
Fixpoint find_supported (fuel : nat) d (leader_slot : Slot) (from : VerifiedBlock)
    : M (option BlockRef) :=
  match fuel with
  | O => NoFuel
  | Datatypes.S fuel =>
      if b_round from <? slot_round leader_slot then Ret None
      else
        (fix loop (ancestors : list BlockRef) : M (option BlockRef) :=
           match ancestors with
           | [] => Ret None
           | ancestor :: ancestors =>
               if bool_decide (Slot_from ancestor = leader_slot) then Ret (Some ancestor)
               else if br_round ancestor <=? slot_round leader_slot then loop ancestors
               else
                 found ← dr_get_block d ancestor;
                 match found with
                 | None => Panic (Explicit "Block not found in storage")
                 | Some block =>
                     support ← find_supported fuel d leader_slot block;
                     match support with
                     | Some support => Ret (Some support)
                     | None => loop ancestors
                     end
                 end
           end) (b_ancestors from)
  end.

Definition BaseCommitter_find_supported_block d (leader_slot : Slot) (from : VerifiedBlock)
    : M (option BlockRef) :=
  find_supported (Datatypes.S (N.to_nat (b_round from))) d leader_slot from.

Definition BaseCommitter_is_vote d (potential_vote leader_block : VerifiedBlock) : M bool :=
  let leader_ref := reference leader_block in
  support ← BaseCommitter_find_supported_block d (Slot_from leader_ref) potential_vote;
  Ret (bool_decide (support = Some leader_ref)).

(** The vote of one reference, from the cache or from the DAG. *)
Definition cached_vote d (gc_round : Round) (leader_block : VerifiedBlock)
    (all_votes : gmap BlockRef bool) (ref : BlockRef) : M (bool * gmap BlockRef bool) :=
  match all_votes !! ref with
  | Some is_vote => Ret (is_vote, all_votes)
  | None =>
      potential_vote ← dr_get_block d ref;
      is_vote ← match potential_vote with
                | Some potential_vote => BaseCommitter_is_vote d potential_vote leader_block
                | None => assert_that (br_round ref <=? gc_round) "Block not found in storage";;
                          Ret false
                end;
      Ret (is_vote, <[ref := is_vote]> all_votes)
  end.

Fixpoint certificate_loop bc d (gc_round : Round) (leader_block : VerifiedBlock)
    (votes_stake_aggregator : StakeAggregator QuorumThreshold) (all_votes : gmap BlockRef bool)
    (ancestors : list BlockRef) : M (bool * gmap BlockRef bool) :=
  match ancestors with
  | [] => Ret (false, all_votes)
  | ref :: ancestors =>
      '(is_vote, all_votes) ← cached_vote d gc_round leader_block all_votes ref;
      if is_vote : bool then
        '(aggregator, reached) ← StakeAggregator_add votes_stake_aggregator (br_author ref)
                                   (ctx_committee (bc_context bc));
        if reached : bool then Ret (true, all_votes)
        else certificate_loop bc d gc_round leader_block aggregator all_votes ancestors
      else certificate_loop bc d gc_round leader_block votes_stake_aggregator all_votes ancestors
  end.

Definition BaseCommitter_is_certificate bc d (potential_certificate leader_block : VerifiedBlock)
    (all_votes : gmap BlockRef bool) : M (bool * gmap BlockRef bool) :=
  certificate_loop bc d (dr_gc_round d) leader_block StakeAggregator_new all_votes
    (b_ancestors potential_certificate).

(** [potential_certificates.iter().any(..)], threading the cache. *)
Fixpoint any_certificate bc d (leader_block : VerifiedBlock) (all_votes : gmap BlockRef bool)
    (potential_certificates : list VerifiedBlock) : M bool :=
  match potential_certificates with
  | [] => Ret false
  | potential_certificate :: rest =>
      '(is_certificate, all_votes) ←
        BaseCommitter_is_certificate bc d potential_certificate leader_block all_votes;
      if is_certificate : bool then Ret true else any_certificate bc d leader_block all_votes rest
  end.

Definition BaseCommitter_decide_leader_from_anchor (fuel : nat) bc d (anchor : VerifiedBlock)
    (leader_slot : Slot) : M LeaderStatus :=
  leader_blocks ← dr_uncommitted_at_slot d leader_slot;
  wave ← BaseCommitter_wave_number bc (slot_round leader_slot);
  decision_round ← BaseCommitter_decision_round bc wave;
  potential_certificates ← dr_ancestors_at_round fuel d anchor decision_round;
  certified_leader_blocks ←
    filterP (λ leader_block, any_certificate bc d leader_block ∅ potential_certificates)
      leader_blocks;
  if (1 <? N.of_nat (length certified_leader_blocks))
  then Panic (Explicit "More than one certified leader")
  else Ret (match last certified_leader_blocks with
            | Some certified_leader_block => LCommit certified_leader_block
            | None => LSkip leader_slot
            end).

Fixpoint blame_loop bc (leader : AuthorityIndex)
    (blame_stake_aggregator : StakeAggregator QuorumThreshold) (voting_blocks : list VerifiedBlock)
    : M bool :=
  match voting_blocks with
  | [] => Ret false
  | voting_block :: voting_blocks =>
      if forallb (λ ancestor, negb (br_author ancestor =? leader)) (b_ancestors voting_block) then
        '(aggregator, reached) ←
          StakeAggregator_add blame_stake_aggregator (br_author (reference voting_block))
            (ctx_committee (bc_context bc));
        if reached : bool then Ret true else blame_loop bc leader aggregator voting_blocks
      else blame_loop bc leader blame_stake_aggregator voting_blocks
  end.

Definition BaseCommitter_enough_leader_blame bc d (voting_round : Round) (leader : AuthorityIndex)
    : M bool :=
  voting_blocks ← dr_uncommitted_at_round d voting_round;
  blame_loop bc leader StakeAggregator_new voting_blocks.

Fixpoint support_loop bc d (leader_block : VerifiedBlock)
    (certificate_stake_aggregator : StakeAggregator QuorumThreshold)
    (all_votes : gmap BlockRef bool) (decision_blocks : list VerifiedBlock) : M bool :=
  match decision_blocks with
  | [] => Ret false
  | decision_block :: decision_blocks =>
      '(is_certificate, all_votes) ←
        BaseCommitter_is_certificate bc d decision_block leader_block all_votes;
      if is_certificate : bool then
        '(aggregator, reached) ←
          StakeAggregator_add certificate_stake_aggregator (br_author (reference decision_block))
            (ctx_committee (bc_context bc));
        if reached : bool then Ret true
        else support_loop bc d leader_block aggregator all_votes decision_blocks
      else support_loop bc d leader_block certificate_stake_aggregator all_votes decision_blocks
  end.

Definition BaseCommitter_enough_leader_support bc d (decision_round : Round)
    (leader_block : VerifiedBlock) : M bool :=
  decision_blocks ← dr_uncommitted_at_round d decision_round;
  stakes ← mapP (λ b : VerifiedBlock, Committee_stake (ctx_committee (bc_context bc)) (b_author b))
             decision_blocks;
  total_stake ← u64_sum stakes;
  if negb (Committee_reached_quorum (ctx_committee (bc_context bc)) total_stake) then Ret false
  else support_loop bc d leader_block StakeAggregator_new ∅ decision_blocks.

Definition BaseCommitter_try_direct_decide bc d (leader : Slot) : M LeaderStatus :=
  voting_round ← u32_add (slot_round leader) 1;
  blamed ← BaseCommitter_enough_leader_blame bc d voting_round (slot_authority leader);
  if blamed : bool then Ret (LSkip leader)
  else
    wave ← BaseCommitter_wave_number bc (slot_round leader);
    decision_round ← BaseCommitter_decision_round bc wave;
    leader_blocks ← dr_uncommitted_at_slot d leader;
    leaders_with_enough_support ←
      filterP (BaseCommitter_enough_leader_support bc d decision_round) leader_blocks;
    if (1 <? N.of_nat (length leaders_with_enough_support))
    then Panic (Explicit "More than one candidate")
    else Ret (match last leaders_with_enough_support with
              | Some leader_block => LCommit leader_block
              | None => LUndecided leader
              end).

(** The anchors are the leaders from [first_round] on, in their order. *)
Fixpoint indirect_loop (fuel : nat) bc d (leader_slot : Slot) (leaders : list LeaderStatus)
    : M LeaderStatus :=
  match leaders with
  | [] => Ret (LUndecided leader_slot)
  | x :: leaders =>
      first_round ← u32_add (slot_round leader_slot) (bo_wave_length (bc_options bc));
      if negb (first_round <=? LeaderStatus_round x)
      then indirect_loop fuel bc d leader_slot leaders
      else
        match x with
        | LCommit anchor => BaseCommitter_decide_leader_from_anchor fuel bc d anchor leader_slot
        | LSkip _ => indirect_loop fuel bc d leader_slot leaders
        | LUndecided _ => Ret (LUndecided leader_slot)
        end
  end.

Definition BaseCommitter_try_indirect_decide (fuel : nat) bc d (leader_slot : Slot)
    (leaders : list LeaderStatus) : M LeaderStatus :=
  indirect_loop fuel bc d leader_slot leaders.

End BaseCommitter.

(** ** [DagState] as a reader *)

Section DagStateReader.
Context `{Profile} `{Crypto} {S : Type} `{StoreLaws S}.
Implicit Types s : DagState S.

#[export] Instance DagState_reader : DagReader (DagState S) := {
  dr_get_block := DagState_get_block;
  dr_uncommitted_at_slot := DagState_get_uncommitted_blocks_at_slot;
  dr_uncommitted_at_round := DagState_get_uncommitted_blocks_at_round;
  dr_ancestors_at_round := DagState_ancestors_at_round;
  dr_gc_round := DagState_gc_round;
  dr_last_commit_round := DagState_last_commit_round;
  dr_highest_accepted_round := ds_highest_accepted_round;
}.

(** Nothing above the garbage collection round has been evicted. *)
Lemma cached_above_gc s r :
  ds_ok s → DagState_gc_round s < br_round r → ds_block s r = ds_cached s r.
Proof.
  intros Hok Hgc. rewrite ds_block_cached. unfold GENESIS_ROUND.
  destruct (N.eqb_spec (br_round r) 0); [lia|].
  destruct (ds_cached s r) eqn:Hc; [done|]. destruct (st_block (ds_store s) r) eqn:Hb; [|done].
  destruct (ok_evicted s Hok r _ Hb Hc) as (er & Her & Hle).
  pose proof (ok_evicted_gc s Hok _ er Her). lia.
Qed.

Lemma lists_cached_blocks s (P : BlockRef → Prop) l :
  ds_ok s → (∀ r, P r → DagState_gc_round s < br_round r) → lists_cached s P l →
  lists_blocks (ds_block s) P l.
Proof.
  intros Hok HP [Hs Hl]. split; [done|]. intros b. rewrite Hl.
  split; intros [Hb Hp]; (split; [|done]); [rewrite cached_above_gc|rewrite <- cached_above_gc]; auto.
Qed.

#[export] Instance DagState_reader_laws : DagReaderLaws (DagState S).
Proof.
  refine {| dr_ok := ds_ok; dr_block := ds_block |}.
  - intros s r Hok. by apply get_block_spec, ok_store.
  - intros s slot Hok Hgc.
    destruct (get_uncommitted_blocks_at_slot_spec s slot Hok) as (l & Hl & Hlist).
    exists l. split; [done|]. apply lists_cached_blocks; [done| |done].
    intros r <-. exact Hgc.
  - intros s round Hok Hlc Hr.
    destruct (get_uncommitted_blocks_at_round_spec s round Hok Hlc Hr) as (l & Hl & Hlist).
    exists l. split; [done|]. apply lists_cached_blocks; [done| |done].
    intros r <-. simpl in Hlc. unfold DagState_gc_round, DagState_calculate_gc_round. lia.
  - intros s later lo Hok Hs Hc. by apply ancestors_at_round_spec; [apply ok_store|..].
Defined.

End DagStateReader.
