(* ===== verification/CommitRule.v ===== *)
(** * The commit rule, and why it is safe

    Support, votes, certificates and blame as functions of a set of blocks, and
    the facts that make the decisions of different authorities agree: a block
    keeps the support of its author's earlier blocks, two blocks of one slot are
    never both certified, a blamed leader is never certified, and every block
    three rounds above a directly committed leader has a certificate for it in
    its history. *)

From S2P Require Import Prelude BTree Config Block Commit Store StakeAggregator ThresholdClock.
From S2P Require Import DagState DagTheory DagTraversal.
Local Open Scope N_scope.

Fixpoint first_some {A B} (f : A → option B) (l : list A) : option B :=
  match l with
  | [] => None
  | a :: l => match f a with Some b => Some b | None => first_some f l end
  end.

Lemma first_some_Some {A B} (f : A → option B) l b :
  first_some f l = Some b → ∃ a, a ∈ l ∧ f a = Some b.
Proof.
  induction l as [|a l IH]; simpl; [done|]. destruct (f a) eqn:Ha.
  - intros [= ->]. exists a. split; [left|done].
  - intros (a' & ? & ?)%IH. exists a'. split; [by right|done].
Qed.

Lemma first_some_ext {A B} (f g : A → option B) l :
  (∀ a, a ∈ l → f a = g a) → first_some f l = first_some g l.
Proof.
  induction l as [|a l IH]; intros Hfg; simpl; [done|]. rewrite (Hfg a) by left.
  destruct (g a); [done|]. apply IH. intros. apply Hfg. by right.
Qed.

Section CommitRule.
Context (c : Committee) (G : BlockRef → option VerifiedBlock).

(** The block of [slot] that [from] supports: the first one met by a search
    through the ancestors above the slot, in their order. *)
Fixpoint supports_n (n : nat) (slot : Slot) (from : VerifiedBlock) : option BlockRef :=
  match n with
  | O => None
  | S n =>
      if b_round from <? slot_round slot then None
      else first_some (λ a,
             if bool_decide (Slot_from a = slot) then Some a
             else if br_round a <=? slot_round slot then None
             else G a ≫= supports_n n slot) (b_ancestors from)
  end.

Definition supports (slot : Slot) (from : VerifiedBlock) : option BlockRef :=
  supports_n (S (N.to_nat (b_round from))) slot from.

Definition votes_for (leader r : BlockRef) : bool :=
  bool_decide (G r ≫= supports (Slot_from leader) = Some leader).

Definition voters (leader : BlockRef) (b : VerifiedBlock) : gset AuthorityIndex :=
  list_to_set (br_author <$> filter (λ a, votes_for leader a = true) (b_ancestors b)).

Definition certifies (leader : BlockRef) (b : VerifiedBlock) : Prop := is_quorum c (voters leader b).

#[export] Instance certifies_dec leader b : base.Decision (certifies leader b).
Proof. unfold certifies, is_quorum. apply _. Defined.

(** The authors of the ancestors of the previous round. *)
Definition parents (b : VerifiedBlock) : gset AuthorityIndex :=
  list_to_set (br_author <$> filter (λ a, br_round a + 1 = b_round b) (b_ancestors b)).

(** What block verification and the block manager establish of the blocks that
    all authorities together have accepted. *)
Record dag_valid : Prop := {
  dv_ref : ∀ r b, G r = Some b → reference b = r;
  dv_author : ∀ r b, G r = Some b → br_author r ∈ members c;
  dv_ancestor : ∀ r b a, G r = Some b → a ∈ b_ancestors b →
    br_round a < br_round r ∧ is_Some (G a);
  dv_parents : ∀ r b, G r = Some b → 0 < br_round r → is_quorum c (parents b);
}.

(** An honest authority signs one block per round, and each of its blocks has as
    its first ancestor the block it signed before. *)
Definition honest (i : AuthorityIndex) : Prop :=
  ∀ r1 b1 r2 b2, G r1 = Some b1 → G r2 = Some b2 → br_author r1 = i → br_author r2 = i →
  br_round r1 ≤ br_round r2 →
  r1 = r2 ∨ (br_round r1 < br_round r2 ∧
             ∃ a rest, b_ancestors b2 = a :: rest ∧ br_author a = i ∧ br_round r1 ≤ br_round a).

(** The fault assumption. *)
Definition honest_majority (byz : gset AuthorityIndex) : Prop :=
  set_stake c byz < Committee_validity_threshold c ∧
  ∀ i, i ∈ members c → i ∉ byz → honest i.

Context (Hwf : Committee_wf c) (Hdag : dag_valid).

(** ** Support *)

Lemma reference_round b r : reference b = r → b_round b = br_round r.
Proof. by intros <-. Qed.

(** More fuel than the round of the block changes nothing. *)
Lemma supports_fuel n slot r b :
  G r = Some b → (N.to_nat (b_round b) < n)%nat → supports_n n slot b = supports slot b.
Proof using Hdag.
  intros Hb Hn. unfold supports. remember (S (N.to_nat (b_round b))) as m eqn:Hm.
  assert (N.to_nat (b_round b) < m)%nat as Hm' by lia. clear Hm. revert r b n Hb Hn Hm'.
  induction m as [|m IH]; intros r b n Hb Hn Hm; [lia|]. destruct n as [|n]; [lia|]. simpl.
  destruct (_ <? _); [done|]. apply first_some_ext. intros a Ha.
  case_bool_decide; [done|]. destruct (_ <=? _); [done|].
  destruct (dv_ancestor Hdag r b a Hb Ha) as [Hlt [ba Hba]]. rewrite Hba. simpl.
  pose proof (reference_round _ _ (dv_ref Hdag _ _ Hb)).
  pose proof (reference_round _ _ (dv_ref Hdag _ _ Hba)). apply (IH a); [done|lia|lia].
Qed.

(** The equation of [find_supported_block]. *)
Lemma supports_eq slot r b :
  G r = Some b →
  supports slot b =
    if b_round b <? slot_round slot then None
    else first_some (λ a,
           if bool_decide (Slot_from a = slot) then Some a
           else if br_round a <=? slot_round slot then None
           else G a ≫= supports slot) (b_ancestors b).
Proof using Hdag.
  intros Hb. unfold supports at 1. simpl. destruct (_ <? _); [done|].
  apply first_some_ext. intros a Ha. case_bool_decide; [done|]. destruct (_ <=? _); [done|].
  destruct (dv_ancestor Hdag r b a Hb Ha) as [Hlt [ba Hba]]. rewrite Hba. simpl.
  pose proof (reference_round _ _ (dv_ref Hdag _ _ Hb)).
  pose proof (reference_round _ _ (dv_ref Hdag _ _ Hba)).
  apply (supports_fuel _ _ a); [done|lia].
Qed.

(** What is supported is in the slot, below, and in the history. *)
Lemma supports_Some slot r b l :
  G r = Some b → supports slot b = Some l →
  Slot_from l = slot ∧ slot_round slot < br_round r ∧
  (l ∈ b_ancestors b ∨ slot_round slot + 1 < br_round r).
Proof using Hdag.
  intros Hb. remember (br_round r) as n eqn:Hn. revert r b Hb Hn.
  induction n as [n IH] using (well_founded_induction N.lt_wf_0). intros r b Hb Hn.
  rewrite (supports_eq slot r b Hb). destruct (_ <? _); [done|].
  intros (a & Ha & Hs)%first_some_Some.
  destruct (dv_ancestor Hdag r b a Hb Ha) as [Hlt [ba Hba]].
  case_bool_decide as Hslot.
  - injection Hs as <-. split_and!; [done| |by left]. rewrite <- Hslot. simpl. lia.
  - destruct (N.leb_spec (br_round a) (slot_round slot)); [done|].
    rewrite Hba in Hs. simpl in Hs.
    destruct (IH (br_round a) ltac:(lia) a ba) as (? & ? & _); [done..|].
    split_and!; [done|lia|right; lia].
Qed.

(** The blocks of an honest author keep the support of its earlier blocks. *)
Lemma supports_inherited i slot r1 b1 r2 b2 l :
  honest i → G r1 = Some b1 → G r2 = Some b2 → br_author r1 = i → br_author r2 = i →
  br_round r1 ≤ br_round r2 → supports slot b1 = Some l → supports slot b2 = Some l.
Proof using Hdag.
  intros Hi Hb1 Hb2 Ha1 Ha2 Hle Hs. remember (br_round r2) as n eqn:Hn.
  revert r2 b2 Hb2 Ha2 Hle Hn. induction n as [n IH] using (well_founded_induction N.lt_wf_0).
  intros r2 b2 Hb2 Ha2 Hle ->.
  destruct (Hi r1 b1 r2 b2) as [->|(Hlt & a & rest & Hanc & Haa & Hra)]; [done..|by simplify_eq|].
  destruct (supports_Some slot r1 b1 l Hb1 Hs) as (_ & Hr1 & _).
  destruct (dv_ancestor Hdag r2 b2 a Hb2) as [Har [ba Hba]]; [rewrite Hanc; left|].
  rewrite (supports_eq slot r2 b2 Hb2), (reference_round _ _ (dv_ref Hdag _ _ Hb2)).
  destruct (N.ltb_spec (br_round r2) (slot_round slot)); [lia|]. rewrite Hanc. simpl.
  rewrite bool_decide_eq_false_2 by (intros <-; simpl in *; lia).
  destruct (N.leb_spec (br_round a) (slot_round slot)); [lia|].
  rewrite Hba. simpl. by rewrite (IH (br_round a) ltac:(lia) a ba).
Qed.

(** ** Certificates *)

Lemma votes_for_spec leader r :
  votes_for leader r = true ↔ ∃ b, G r = Some b ∧ supports (Slot_from leader) b = Some leader.
Proof.
  unfold votes_for. rewrite bool_decide_eq_true. destruct (G r); simpl; naive_solver.
Qed.

Lemma voters_spec leader b i :
  i ∈ voters leader b ↔ ∃ a, a ∈ b_ancestors b ∧ br_author a = i ∧ votes_for leader a = true.
Proof.
  unfold voters. rewrite elem_of_list_to_set, list_elem_of_fmap.
  setoid_rewrite list_elem_of_filter. naive_solver.
Qed.

Lemma parents_spec b i :
  i ∈ parents b ↔ ∃ a, a ∈ b_ancestors b ∧ br_author a = i ∧ br_round a + 1 = b_round b.
Proof.
  unfold parents. rewrite elem_of_list_to_set, list_elem_of_fmap.
  setoid_rewrite list_elem_of_filter. naive_solver.
Qed.

(** Quorums of blocks: their authors hold a quorum of the stake. *)
Definition block_quorum (P : BlockRef → VerifiedBlock → Prop) : Prop :=
  ∃ Q, is_quorum c Q ∧ ∀ i, i ∈ Q → ∃ r b, G r = Some b ∧ br_author r = i ∧ P r b.

(** Two quorums of blocks share an honest author. *)
Lemma block_quorums_meet byz P1 P2 :
  honest_majority byz → block_quorum P1 → block_quorum P2 →
  ∃ i r1 b1 r2 b2, honest i ∧ G r1 = Some b1 ∧ G r2 = Some b2 ∧
    br_author r1 = i ∧ br_author r2 = i ∧ P1 r1 b1 ∧ P2 r2 b2.
Proof using Hwf.
  intros [Hbyz Hh] (Q1 & HQ1 & H1) (Q2 & HQ2 & H2).
  destruct (quorum_honest_witness c Q1 Q2 byz) as (i & Hi1 & Hi2 & Hi); [done..|].
  destruct (H1 i Hi1) as (r1 & b1 & ? & ? & ?). destruct (H2 i Hi2) as (r2 & b2 & ? & ? & ?).
  exists i, r1, b1, r2, b2. split_and!; [|done..].
  apply Hh; [|done]. destruct HQ1 as [Hsub _]. by apply Hsub.
Qed.

Lemma honest_one_per_round i r1 b1 r2 b2 :
  honest i → G r1 = Some b1 → G r2 = Some b2 → br_author r1 = i → br_author r2 = i →
  br_round r1 = br_round r2 → r1 = r2 ∧ b1 = b2.
Proof.
  intros Hi Hb1 Hb2 Ha1 Ha2 Hr. assert (r1 = r2) as ->; [|by simplify_eq].
  destruct (Hi r1 b1 r2 b2) as [?|[? _]]; [done..|lia|done|lia].
Qed.

(** The votes in a certificate are a quorum of supporting blocks. *)
Lemma certifies_quorum leader r b :
  G r = Some b → certifies leader b →
  block_quorum (λ v bv, v ∈ b_ancestors b ∧ br_round v < br_round r ∧
                        supports (Slot_from leader) bv = Some leader).
Proof using Hdag.
  intros Hb Hc. exists (voters leader b). split; [done|].
  intros i (a & Ha & Hai & (ba & Hba & Hs)%votes_for_spec)%voters_spec.
  exists a, ba. split_and!; [done..| |done]. by apply (dv_ancestor Hdag r b).
Qed.

(** A slot has at most one certified block. *)
Lemma certified_unique byz l1 l2 r1 b1 r2 b2 :
  honest_majority byz → Slot_from l1 = Slot_from l2 → G r1 = Some b1 → G r2 = Some b2 →
  certifies l1 b1 → certifies l2 b2 → l1 = l2.
Proof using Hwf Hdag.
  intros Hm Hslot Hb1 Hb2 Hc1 Hc2.
  destruct (block_quorums_meet byz _ _ Hm (certifies_quorum l1 r1 b1 Hb1 Hc1)
              (certifies_quorum l2 r2 b2 Hb2 Hc2))
    as (i & v1 & bv1 & v2 & bv2 & Hi & Hv1 & Hv2 & Ha1 & Ha2 & (_ & _ & Hs1) & (_ & _ & Hs2)).
  rewrite Hslot in Hs1. destruct (N.le_ge_cases (br_round v1) (br_round v2)) as [Hle|Hle].
  - rewrite (supports_inherited i _ v1 bv1 v2 bv2 l1) in Hs2 by done. congruence.
  - rewrite (supports_inherited i _ v2 bv2 v1 bv1 l2) in Hs1 by done. congruence.
Qed.

(** ** Blame *)

Definition blames (leader : AuthorityIndex) (b : VerifiedBlock) : Prop :=
  ∀ a, a ∈ b_ancestors b → br_author a ≠ leader.

#[export] Instance blames_dec leader b : base.Decision (blames leader b).
Proof.
  refine (cast_if (decide (Forall (λ a, br_author a ≠ leader) (b_ancestors b))));
    unfold blames; by rewrite <- Forall_forall.
Defined.

(** A quorum of the voting round blames the leader of the slot. *)
Definition blamed (slot : Slot) : Prop :=
  block_quorum (λ r b, br_round r = slot_round slot + 1 ∧ blames (slot_authority slot) b).

(** No block of the decision round certifies a blamed leader. *)
Lemma blamed_not_certified byz slot leader r b :
  honest_majority byz → blamed slot → Slot_from leader = slot →
  G r = Some b → br_round r = slot_round slot + 2 → ¬ certifies leader b.
Proof using Hwf Hdag.
  intros Hm Hblame Hslot Hb Hr Hc.
  destruct (block_quorums_meet byz _ _ Hm Hblame (certifies_quorum leader r b Hb Hc))
    as (i & v1 & bv1 & v2 & bv2 & Hi & Hv1 & Hv2 & Ha1 & Ha2 & [Hr1 Hbl] & (_ & Hr2 & Hs)).
  rewrite Hslot in Hs. destruct (supports_Some slot v2 bv2 leader Hv2 Hs) as (_ & Hlow & Hanc).
  destruct (honest_one_per_round i v1 bv1 v2 bv2) as [-> ->]; [done..|lia|].
  destruct Hanc as [Hin|?]; [|lia]. apply (Hbl leader Hin). by rewrite <- Hslot.
Qed.

(** ** Direct commits *)

(** A quorum of the decision round certifies the leader block. *)
Definition committed (leader : BlockRef) : Prop :=
  block_quorum (λ r b, br_round r = br_round leader + 2 ∧ certifies leader b).

Lemma quorum_inhabited Q : is_quorum c Q → ∃ i, i ∈ Q.
Proof using Hwf.
  intros [_ Hq]. apply (weight_pos_inhabited (stake_at c)).
  unfold Committee_reached_quorum in Hq. nbool. pose proof (wf_quorum_pos c Hwf).
  unfold set_stake in Hq. lia.
Qed.

Lemma parents_quorum r b :
  G r = Some b → 0 < br_round r →
  block_quorum (λ a _, a ∈ b_ancestors b ∧ br_round a + 1 = br_round r).
Proof using Hdag.
  intros Hb Hr. exists (parents b). split; [by apply (dv_parents Hdag r)|].
  intros i (a & Ha & Hai & Har)%parents_spec.
  destruct (dv_ancestor Hdag r b a Hb Ha) as [_ [ba Hba]]. exists a, ba.
  rewrite (reference_round _ _ (dv_ref Hdag _ _ Hb)) in Har. done.
Qed.

(** Every block three rounds above a committed leader or later has a
    certificate for it in its history. *)
Lemma committed_certificate_reached byz leader r b :
  honest_majority byz → committed leader → G r = Some b → br_round leader + 3 ≤ br_round r →
  ∃ rc bc, G rc = Some bc ∧ certifies leader bc ∧ reaches_at G b (br_round leader + 2) rc.
Proof using Hwf Hdag.
  intros Hm Hcom. remember (br_round r) as n eqn:Hn. revert r b Hn.
  induction n as [n IH] using (well_founded_induction N.lt_wf_0). intros r b -> Hb Hle.
  pose proof (parents_quorum r b Hb ltac:(lia)) as Hpar.
  destruct (decide (br_round r = br_round leader + 3)) as [Heq|Hne].
  - destruct (block_quorums_meet byz _ _ Hm Hcom Hpar)
      as (i & v1 & bv1 & v2 & bv2 & Hi & Hv1 & Hv2 & Ha1 & Ha2 & [Hr1 Hc] & [Hin Hr2]).
    destruct (honest_one_per_round i v1 bv1 v2 bv2) as [-> ->]; [done..|lia|].
    exists v2, bv2. split_and!; [done..|]. split; [lia|]. exists v2. split; [done|apply rtc_refl].
  - destruct Hpar as (Q & [i Hi]%quorum_inhabited & HQ).
    destruct (HQ i Hi) as (a & ba & Hba & _ & Hin & Hra).
    destruct (IH (br_round a) ltac:(lia) a ba) as (rc & bc & ? & ? & Hrc & x & Hx & Hreach);
      [done..|lia|].
    exists rc, bc. split_and!; [done..|]. split; [done|]. exists a. split; [done|].
    eapply rtc_l; [|done]. split; [lia|]. eauto.
Qed.

End CommitRule.
