(* ===== verification/CommitterTheory.v ===== *)
(** * The committer implements the commit rule

    What [BaseCommitter] returns on the view of the DAG that one authority has,
    in terms of the rule on the blocks of all authorities, and the agreement of
    the decisions that different authorities take on one slot. *)

From S2P Require Import Prelude BTree Config Block Commit Store StakeAggregator ThresholdClock.
From S2P Require Import LeaderScoring DagState DagTheory DagTraversal LeaderSchedule.
From S2P Require Import BaseCommitter CommitRule.
Local Open Scope N_scope.

Section CommitterTheory.
Context `{Profile} `{Rng} {D : Type} `{DagReaderLaws D}.
Context (c : Committee) (G : BlockRef → option VerifiedBlock).
Implicit Types d : D.

(** What one authority has of the DAG: the history of each of its blocks, down
    to its garbage collection round.  The last condition bounds how many
    equivocating blocks it accepted in one round. *)
Record view d : Prop := {
  vo_ok : dr_ok d;
  vo_sub : ∀ r b, dr_block d r = Some b → G r = Some b;
  vo_closed : ∀ r b a, dr_block d r = Some b → a ∈ b_ancestors b → dr_gc_round d < br_round a →
    is_Some (dr_block d a);
  vo_stake : ∀ round l, lists_blocks (dr_block d) (λ r, br_round r = round) l →
    sumN ((λ b : VerifiedBlock, stake_at c (b_author b)) <$> l) < 2 ^ 64;
}.

Context (Hwf : Committee_wf c) (Hdag : dag_valid c G).

(** ** Views *)

Lemma view_ancestor d r b a :
  view d → dr_block d r = Some b → a ∈ b_ancestors b → dr_gc_round d < br_round a →
  ∃ ba, dr_block d a = Some ba ∧ G a = Some ba ∧ br_round a < br_round r.
Proof using Hdag.
  intros Hv Hb Ha Hgc. destruct (vo_closed d Hv r b a Hb Ha Hgc) as [ba Hba].
  exists ba. split_and!; [done|by apply (vo_sub d Hv)|].
  by apply (dv_ancestor c G Hdag r b a); [apply (vo_sub d Hv)|].
Qed.

Lemma view_sound d : view d → dag_sound (dr_block d).
Proof using Hdag.
  intros Hv r b Hb. apply (vo_sub d Hv) in Hb. split; [by apply (dv_ref c G Hdag)|].
  intros a Ha. by apply (dv_ancestor c G Hdag r b a).
Qed.

(** Above the garbage collection round, a view has the history of its blocks. *)
Lemma view_reach d lo x r :
  view d → dr_gc_round d ≤ lo → (lo < br_round x → is_Some (dr_block d x)) →
  rtc (parent G lo) x r → rtc (parent (dr_block d) lo) x r.
Proof using Hdag.
  intros Hv Hgc Hx Hreach. revert Hx. induction Hreach as [|x y z Hxy _ IH]; intros Hx; [apply rtc_refl|].
  destruct Hxy as (Hlo & b & Hb & Hy). destruct (Hx Hlo) as [b' Hb'].
  assert (b' = b) as -> by (apply (vo_sub d Hv) in Hb'; congruence).
  eapply rtc_l; [split; [done|]; by eauto|]. apply IH. intros Hylo.
  apply (vo_closed d Hv x b y); [done..|lia].
Qed.

Lemma view_reach_sub d lo x r :
  view d → rtc (parent (dr_block d) lo) x r → rtc (parent G lo) x r.
Proof.
  intros Hv. induction 1 as [|x y z (Hlo & b & Hb & Hy) _ IH]; [apply rtc_refl|].
  eapply rtc_l; [|done]. split; [done|]. exists b. split; [|done]. by apply (vo_sub d Hv).
Qed.

Lemma view_reaches_at d later lo r rl :
  view d → dr_block d rl = Some later → dr_gc_round d ≤ lo →
  reaches_at (dr_block d) later lo r ↔ reaches_at G later lo r.
Proof using Hdag.
  intros Hv Hl Hgc. unfold reaches_at. split; intros (Hr & x & Hx & Hreach); (split; [done|]);
    exists x; (split; [done|]).
  - by eapply view_reach_sub.
  - apply view_reach; [done..| |done]. intros Hlo. apply (vo_closed d Hv rl later x); [done..|lia].
Qed.

Lemma view_complete d rl later lo x :
  view d → dr_block d rl = Some later → dr_gc_round d < lo → x ∈ b_ancestors later →
  complete_from (dr_block d) lo x.
Proof using Hdag.
  intros Hv Hl Hgc Hx r Hreach Hr.
  assert (lo ≤ br_round x → is_Some (dr_block d x)) as Hx'.
  { intros ?. apply (vo_closed d Hv rl later x); [done..|lia]. }
  clear Hx. induction Hreach as [x|x y z Hxy _ IH]; [by apply Hx'|].
  apply IH; [done|]. intros Hy. destruct Hxy as (_ & b & Hb & Hin).
  apply (vo_closed d Hv x b y); [done..|lia].
Qed.

(** ** Support and votes *)

Lemma find_supported_spec d slot fuel r b :
  view d → dr_gc_round d ≤ slot_round slot → dr_block d r = Some b →
  (N.to_nat (br_round r) < fuel)%nat → find_supported fuel d slot b = Ret (supports G slot b).
Proof using Hdag.
  intros Hv Hgc. revert r b. induction fuel as [|fuel IH]; intros r b Hb Hf; [lia|].
  pose proof (vo_sub d Hv r b Hb) as HG. rewrite (supports_eq c G Hdag slot r b HG).
  cbn [find_supported]. destruct (_ <? _); [done|].
  assert (∀ a, a ∈ b_ancestors b → a ∈ b_ancestors b) as Hsub by done. revert Hsub.
  generalize (b_ancestors b) at 1 3 4 as l. induction l as [|a l IHl]; intros Hsub; [done|].
  cbn [first_some]. case_bool_decide; [done|].
  destruct (N.leb_spec (br_round a) (slot_round slot)) as [Hle|Hgt].
  { apply IHl. intros. apply Hsub. by right. }
  destruct (view_ancestor d r b a Hv Hb) as (ba & Hba & HGa & Hlt); [apply Hsub; left|lia|].
  rewrite dr_get_block_spec by apply (vo_ok d Hv). rewrite Hba. cbn [mbind M_bind].
  rewrite (IH a ba) by (done || lia). rewrite HGa. cbn [mbind M_bind option_bind].
  destruct (supports G slot ba); [done|]. apply IHl. intros. apply Hsub. by right.
Qed.

Lemma is_vote_spec d leader r b :
  view d → dr_gc_round d ≤ br_round (reference leader) → dr_block d r = Some b →
  BaseCommitter_is_vote d b leader = Ret (votes_for G (reference leader) r).
Proof using Hdag.
  intros Hv Hgc Hb. unfold BaseCommitter_is_vote, BaseCommitter_find_supported_block.
  assert (b_round b = br_round r) as Hr.
  { apply reference_round, (dv_ref c G Hdag), (vo_sub d Hv), Hb. }
  rewrite (find_supported_spec d _ _ r b) by (done || lia). cbn [mbind M_bind].
  unfold votes_for. by rewrite (vo_sub d Hv r b Hb).
Qed.

(** The cache holds the votes for one leader. *)
Definition cache_ok (leader : VerifiedBlock) (all_votes : gmap BlockRef bool) : Prop :=
  ∀ r v, all_votes !! r = Some v → v = votes_for G (reference leader) r.

Lemma cached_vote_spec d leader all_votes r b a :
  view d → dr_gc_round d ≤ br_round (reference leader) → dr_block d r = Some b →
  a ∈ b_ancestors b → cache_ok leader all_votes →
  ∃ all_votes', cached_vote d (dr_gc_round d) leader all_votes a =
      Ret (votes_for G (reference leader) a, all_votes') ∧ cache_ok leader all_votes'.
Proof using Hdag.
  intros Hv Hgc Hb Ha Hc. unfold cached_vote. destruct (all_votes !! a) as [v|] eqn:Hcache.
  { exists all_votes. by rewrite (Hc a v). }
  rewrite dr_get_block_spec by apply (vo_ok d Hv). cbn [mbind M_bind].
  assert (cache_ok leader (<[a := votes_for G (reference leader) a]> all_votes)) as Hc'.
  { intros r' v. destruct (decide (r' = a)) as [->|].
    - rewrite lookup_insert_eq. by intros [= <-].
    - rewrite lookup_insert_ne by done. apply Hc. }
  destruct (dr_block d a) as [ba|] eqn:Hba.
  { rewrite (is_vote_spec d leader a ba) by done. cbn [mbind M_bind]. eauto. }
  destruct (N.leb_spec (br_round a) (dr_gc_round d)) as [Hle|Hgt].
  2: { destruct (vo_closed d Hv r b a Hb Ha Hgt). congruence. }
  cbn [assert_that mbind M_bind].
  assert (votes_for G (reference leader) a = false) as Hno.
  { apply not_true_is_false. intros (ba & HGa & Hs)%votes_for_spec.
    apply (supports_Some c G Hdag _ a) in Hs as (_ & Hlt & _); [|done]. cbn [slot_round Slot_from] in Hlt. lia. }
  rewrite Hno in Hc' |- *. eauto.
Qed.

(** A view has what its blocks support and certify. *)
Lemma supported_in_view d slot r b l :
  view d → dr_gc_round d < slot_round slot → dr_block d r = Some b → supports G slot b = Some l →
  is_Some (dr_block d l).
Proof using Hdag.
  intros Hv Hgc. remember (br_round r) as n eqn:Hn. revert r b Hn.
  induction n as [n IH] using (well_founded_induction N.lt_wf_0). intros r b -> Hb Hs.
  rewrite (supports_eq c G Hdag slot r b) in Hs by (by apply (vo_sub d Hv)).
  destruct (_ <? _); [done|]. apply first_some_Some in Hs as (a & Ha & Hs).
  case_bool_decide as Hslot.
  - injection Hs as <-. apply (vo_closed d Hv r b a); [done..|]. by subst slot.
  - destruct (N.leb_spec (br_round a) (slot_round slot)); [done|].
    destruct (view_ancestor d r b a) as (ba & Hba & HGa & Hlt); [done..|lia|].
    rewrite HGa in Hs. by apply (IH (br_round a) Hlt a ba).
Qed.

Lemma certified_in_view d r b l :
  view d → dr_gc_round d < br_round l → dr_block d r = Some b → certifies c G l b →
  is_Some (dr_block d l).
Proof using Hwf Hdag.
  intros Hv Hgc Hb [i (a & Ha & _ & (ba & HGa & Hs)%votes_for_spec)%voters_spec]%(quorum_inhabited c Hwf).
  destruct (supports_Some c G Hdag _ a ba l HGa Hs) as (_ & Hlt & _). cbn [slot_round Slot_from] in Hlt.
  destruct (view_ancestor d r b a) as (ba' & Hba & HGa' & _); [done..|lia|].
  assert (ba' = ba) as -> by congruence. by apply (supported_in_view d (Slot_from l) a ba).
Qed.

(** A certificate for [l] is in the history of the anchor. *)
Definition anchored (anchor : VerifiedBlock) (l : BlockRef) : Prop :=
  ∃ rc b, G rc = Some b ∧ certifies c G l b ∧ reaches_at G anchor (br_round l + 2) rc.

Lemma reached_in_view d ra anchor lo rc b :
  view d → dr_block d ra = Some anchor → dr_gc_round d < lo → G rc = Some b →
  reaches_at G anchor lo rc → dr_block d rc = Some b ∧ reaches_at (dr_block d) anchor lo rc.
Proof using Hdag.
  intros Hv Ha Hgc Hb Hre. apply (view_reaches_at d anchor _ _ ra Hv Ha) in Hre; [|lia].
  split; [|done]. destruct Hre as (Hrc & x & Hx & Hre).
  destruct (view_complete d ra anchor lo x Hv Ha Hgc Hx rc Hre) as [b' Hb']; [lia|].
  rewrite Hb'. apply (vo_sub d Hv) in Hb'. congruence.
Qed.

(** The anchored leaders are those that the reached blocks of the view certify. *)
Lemma anchored_spec d ra anchor l pc :
  view d → dr_block d ra = Some anchor → dr_gc_round d < br_round l →
  lists_blocks (dr_block d) (reaches_at (dr_block d) anchor (br_round l + 2)) pc →
  (∃ b, b ∈ pc ∧ certifies c G l b) ↔ anchored anchor l.
Proof using Hdag.
  intros Hv Ha Hgc [_ Hpc]. split.
  - intros (b & [Hb Hre]%Hpc & Hc). exists (reference b), b.
    split_and!; [by apply (vo_sub d Hv)|done|].
    by apply (view_reaches_at d anchor _ _ ra Hv Ha); [lia|].
  - intros (rc & b & Hb & Hc & Hre). exists b. split; [|done]. apply Hpc.
    rewrite (dv_ref c G Hdag rc b Hb). apply (reached_in_view d ra); [done|done|lia|done..].
Qed.

Lemma anchored_in_view d ra anchor l :
  view d → dr_block d ra = Some anchor → dr_gc_round d < br_round l → anchored anchor l →
  is_Some (dr_block d l).
Proof using Hwf Hdag.
  intros Hv Ha Hgc (rc & b & Hb & Hc & Hre).
  destruct (reached_in_view d ra anchor (br_round l + 2) rc b Hv Ha ltac:(lia) Hb Hre) as [Hb' _].
  by apply (certified_in_view d rc b).
Qed.

(** ** Certificates *)

Lemma reached_mono s t :
  s ⊆ t → Committee_reached_quorum c (set_stake c s) = true →
  Committee_reached_quorum c (set_stake c t) = true.
Proof.
  unfold Committee_reached_quorum. rewrite !N.leb_le. intros Hst Hs.
  pose proof (weight_mono (stake_at c) s t Hst). unfold set_stake in *. lia.
Qed.

Lemma reached_empty : Committee_reached_quorum c (set_stake c ∅) = false.
Proof using Hwf.
  unfold Committee_reached_quorum, set_stake. rewrite weight_empty. apply N.leb_gt.
  apply (wf_quorum_pos c Hwf).
Qed.

(** Adding the vote of one authority: the aggregator of the larger set, and
    whether that set is a quorum. *)
Lemma quorum_add s i :
  s ⊆ members c → i ∈ members c →
  StakeAggregator_add (T := QuorumThreshold) (SA_of c s) i c =
    Ret (SA_of c ({[i]} ∪ s), Committee_reached_quorum c (set_stake c ({[i]} ∪ s))).
Proof using Hwf. intros. by rewrite StakeAggregator_add_spec. Qed.

Context (bc : BaseCommitter) (Hbc : ctx_committee (bc_context bc) = c).

Definition voters_among (leader : VerifiedBlock) (refs : list BlockRef) : gset AuthorityIndex :=
  list_to_set (br_author <$> filter (λ a, votes_for G (reference leader) a = true) refs).

Lemma certificate_loop_spec d leader r b s all_votes refs :
  view d → dr_gc_round d ≤ br_round (reference leader) → dr_block d r = Some b →
  (∀ a, a ∈ refs → a ∈ b_ancestors b) → cache_ok leader all_votes → s ⊆ members c →
  Committee_reached_quorum c (set_stake c s) = false →
  ∃ all_votes', certificate_loop bc d (dr_gc_round d) leader (SA_of c s) all_votes refs =
      Ret (Committee_reached_quorum c (set_stake c (voters_among leader refs ∪ s)), all_votes') ∧
    cache_ok leader all_votes'.
Proof using Hwf Hdag Hbc.
  intros Hv Hgc Hb. revert s all_votes. induction refs as [|a refs IH]; intros s all_votes Hsub Hc Hs Hq.
  { exists all_votes. split; [|done]. unfold voters_among. simpl. by rewrite union_empty_l_L, Hq. }
  cbn [certificate_loop].
  destruct (cached_vote_spec d leader all_votes r b a) as (all_votes' & -> & Hc'); [done..|by apply Hsub; left|done|].
  cbn [mbind M_bind]. assert (∀ x, x ∈ refs → x ∈ b_ancestors b) as Hsub' by (intros; apply Hsub; by right).
  unfold voters_among. rewrite filter_cons.
  destruct (votes_for G (reference leader) a) eqn:Hvote; cycle 1.
  { rewrite decide_False by done. by apply IH. }
  rewrite decide_True by done. rewrite Hbc.
  assert (br_author a ∈ members c) as Hm.
  { apply votes_for_spec in Hvote as (ba & Hba & _). by apply (dv_author c G Hdag a ba). }
  rewrite quorum_add by done. cbn [mbind M_bind]. csimpl.
  destruct (Committee_reached_quorum c (set_stake c ({[br_author a]} ∪ s))) eqn:Hq'.
  - exists all_votes'. split; [|done]. do 2 f_equal. symmetry.
    eapply reached_mono; [|exact Hq']. set_solver.
  - destruct (IH ({[br_author a]} ∪ s) all_votes') as (av & -> & Hav); [done|done|set_solver|done|].
    exists av. split; [|done]. do 4 f_equal. unfold voters_among. set_solver.
Qed.

Lemma certifies_reached leader r b :
  G r = Some b →
  bool_decide (certifies c G leader b) =
  Committee_reached_quorum c (set_stake c (voters G leader b)).
Proof using Hdag.
  intros Hb. assert (voters G leader b ⊆ members c) as Hsub.
  { intros i (a & Ha & <- & (ba & Hba & _)%votes_for_spec)%voters_spec.
    by apply (dv_author c G Hdag a ba). }
  destruct (Committee_reached_quorum _ _) eqn:Hq.
  - by apply bool_decide_eq_true.
  - apply bool_decide_eq_false. intros [_ Hq']. congruence.
Qed.

Lemma is_certificate_spec d leader r b all_votes :
  view d → dr_gc_round d ≤ br_round (reference leader) → dr_block d r = Some b →
  cache_ok leader all_votes →
  ∃ all_votes', BaseCommitter_is_certificate bc d b leader all_votes =
      Ret (bool_decide (certifies c G (reference leader) b), all_votes') ∧
    cache_ok leader all_votes'.
Proof using Hwf Hdag Hbc.
  intros Hv Hgc Hb Hc. unfold BaseCommitter_is_certificate. rewrite (SA_of_new c).
  destruct (certificate_loop_spec d leader r b ∅ all_votes (b_ancestors b)) as (av & Hl & Hav);
    [done..|apply reached_empty|].
  exists av. split; [|done]. rewrite Hl. do 2 f_equal.
  rewrite (certifies_reached _ r) by (by apply (vo_sub d Hv)).
  by rewrite union_empty_r_L.
Qed.

(** ** Decisions from a list of blocks *)

(** The authors of the blocks that satisfy [P]. *)
Definition authors_of (P : VerifiedBlock → Prop) `{∀ b, base.Decision (P b)}
    (l : list VerifiedBlock) : gset AuthorityIndex :=
  list_to_set ((λ b, br_author (reference b)) <$> filter P l).

Lemma authors_of_quorum d (Q : BlockRef → Prop) (P : VerifiedBlock → Prop)
    `{∀ b, base.Decision (P b)} l :
  view d → lists_blocks (dr_block d) Q l →
  Committee_reached_quorum c (set_stake c (authors_of P l)) = true ↔
  block_quorum c (dr_block d) (λ r b, Q r ∧ P b).
Proof using Hdag.
  intros Hv [_ Hl].
  assert (∀ i, i ∈ authors_of P l ↔ ∃ b, b ∈ l ∧ P b ∧ br_author (reference b) = i) as Ha.
  { intros i. unfold authors_of. rewrite elem_of_list_to_set, list_elem_of_fmap.
    setoid_rewrite list_elem_of_filter. naive_solver. }
  split.
  - intros Hq. exists (authors_of P l). split.
    + split; [|done]. intros i (b & [Hb _]%Hl & _ & <-)%Ha.
      by eapply (dv_author c G Hdag), (vo_sub d Hv).
    + intros i (b & [Hb HQ]%Hl & HP & Hi)%Ha. by exists (reference b), b.
  - intros (S & [_ HS] & HSb). eapply reached_mono; [|exact HS].
    intros i Hi. destruct (HSb i Hi) as (r & b & Hb & <- & HQ & HP). apply Ha. exists b.
    assert (reference b = r) as <- by (by apply (dv_ref c G Hdag), (vo_sub d Hv)).
    split_and!; [|done..]. by apply Hl.
Qed.

Lemma authors_of_cons P `{∀ b, base.Decision (P b)} b l :
  authors_of P (b :: l) =
  if decide (P b) then {[br_author (reference b)]} ∪ authors_of P l else authors_of P l.
Proof. unfold authors_of. rewrite filter_cons. by destruct (decide (P b)). Qed.

Lemma blame_test leader (b : VerifiedBlock) :
  forallb (λ a, negb (br_author a =? leader)) (b_ancestors b) = bool_decide (blames leader b).
Proof.
  case_bool_decide as Hb.
  - apply forallb_forall. intros a Ha%list_elem_of_In. apply negb_true_iff, N.eqb_neq. by apply Hb.
  - apply not_true_is_false. intros Hf. apply Hb. intros a Ha%list_elem_of_In.
    rewrite forallb_forall in Hf. apply Hf in Ha. by apply negb_true_iff, N.eqb_neq in Ha.
Qed.

Lemma blame_loop_spec leader s l :
  (∀ b, b ∈ l → br_author (reference b) ∈ members c) → s ⊆ members c →
  Committee_reached_quorum c (set_stake c s) = false →
  blame_loop bc leader (SA_of c s) l =
    Ret (Committee_reached_quorum c (set_stake c (authors_of (blames leader) l ∪ s))).
Proof using Hwf Hdag Hbc.
  revert s. induction l as [|b l IH]; intros s Hl Hs Hq.
  { unfold authors_of. simpl. by rewrite union_empty_l_L, Hq. }
  assert (∀ x, x ∈ l → br_author (reference x) ∈ members c) as Hl' by (intros; apply Hl; by right).
  cbn [blame_loop]. rewrite blame_test, authors_of_cons. case_bool_decide as Hb.
  - rewrite decide_True, Hbc, quorum_add by (done || by apply Hl; left). cbn [mbind M_bind].
    destruct (Committee_reached_quorum c (set_stake c ({[br_author (reference b)]} ∪ s))) eqn:Hq'.
    + f_equal. symmetry. eapply reached_mono; [|exact Hq']. set_solver.
    + rewrite IH; [|done| |done]; [do 3 f_equal; set_solver|].
      assert (br_author (reference b) ∈ members c) by (apply Hl; left). set_solver.
  - rewrite decide_False by done. by apply IH.
Qed.

Lemma listed_authors d Q l :
  view d → lists_blocks (dr_block d) Q l → ∀ b, b ∈ l → br_author (reference b) ∈ members c.
Proof using Hdag.
  intros Hv [_ Hl] b [Hb _]%Hl. by eapply (dv_author c G Hdag), (vo_sub d Hv).
Qed.

Lemma enough_leader_blame_spec d round leader :
  view d → dr_last_commit_round d < round → round < u32_max →
  ∃ e, BaseCommitter_enough_leader_blame bc d round leader = Ret e ∧
    (e = true ↔ block_quorum c (dr_block d) (λ r b, br_round r = round ∧ blames leader b)).
Proof using Hwf Hdag Hbc.
  intros Hv Hlc Hr. unfold BaseCommitter_enough_leader_blame.
  destruct (dr_at_round_spec d round) as (l & -> & Hl); [apply (vo_ok d Hv)|done..|].
  cbn [mbind M_bind]. rewrite (SA_of_new c).
  rewrite blame_loop_spec by (by eapply listed_authors || apply reached_empty || done).
  eexists. split; [done|]. rewrite union_empty_r_L. by apply authors_of_quorum.
Qed.

Lemma support_loop_spec d leader s all_votes l :
  view d → dr_gc_round d ≤ br_round (reference leader) →
  (∀ b, b ∈ l → dr_block d (reference b) = Some b) → cache_ok leader all_votes → s ⊆ members c →
  Committee_reached_quorum c (set_stake c s) = false →
  support_loop bc d leader (SA_of c s) all_votes l =
    Ret (Committee_reached_quorum c
           (set_stake c (authors_of (certifies c G (reference leader)) l ∪ s))).
Proof using Hwf Hdag Hbc.
  intros Hv Hgc. revert s all_votes. induction l as [|b l IH]; intros s all_votes Hl Hc Hs Hq.
  { unfold authors_of. simpl. by rewrite union_empty_l_L, Hq. }
  assert (∀ x, x ∈ l → dr_block d (reference x) = Some x) as Hl' by (intros; apply Hl; by right).
  assert (dr_block d (reference b) = Some b) as Hb by (apply Hl; left).
  assert (br_author (reference b) ∈ members c) as Hm.
  { by eapply (dv_author c G Hdag), (vo_sub d Hv). }
  cbn [support_loop].
  destruct (is_certificate_spec d leader (reference b) b all_votes) as (av & -> & Hav); [done..|].
  cbn [mbind M_bind]. rewrite authors_of_cons. case_bool_decide as Hcert.
  - rewrite decide_True, Hbc, quorum_add by done. cbn [mbind M_bind].
    destruct (Committee_reached_quorum c (set_stake c ({[br_author (reference b)]} ∪ s))) eqn:Hq'.
    + f_equal. symmetry. eapply reached_mono; [|exact Hq']. set_solver.
    + rewrite IH; [|done|done|set_solver|done]. do 3 f_equal. set_solver.
  - rewrite decide_False by done. by apply IH.
Qed.

(** The quick rejection counts equivocating blocks several times, so it never
    rejects a quorum. *)
Lemma quick_reject d round l (P : VerifiedBlock → Prop) `{∀ b, base.Decision (P b)} :
  view d → lists_blocks (dr_block d) (λ r, br_round r = round) l →
  ∃ total, (stakes ← mapP (λ b : VerifiedBlock, Committee_stake c (b_author b)) l; u64_sum stakes)
             = Ret total ∧
    (Committee_reached_quorum c total = false →
     Committee_reached_quorum c (set_stake c (authors_of P l)) = false).
Proof using Hdag.
  intros Hv Hl. exists (sumN ((λ b : VerifiedBlock, stake_at c (b_author b)) <$> l)). split.
  - assert (mapP (λ b : VerifiedBlock, Committee_stake c (b_author b)) l =
            Ret ((λ b : VerifiedBlock, stake_at c (b_author b)) <$> l)) as ->.
    { pose proof (listed_authors d _ l Hv Hl) as Hm. apply mapP_Forall2, Forall2_fmap_r, Forall_Forall2_diag.
      apply Forall_forall. intros b Hb. by apply Committee_stake_valid, members_spec, (Hm b). }
    cbn [mbind M_bind]. apply int_sum_exact. by eapply vo_stake.
  - unfold Committee_reached_quorum. rewrite !N.leb_gt. intros Hlt. eapply N.le_lt_trans; [|exact Hlt].
    unfold set_stake, authors_of. etransitivity; [apply weight_list_to_set_le|].
    rewrite <- list_fmap_compose. clear. induction l as [|b l IH]; [done|].
    rewrite filter_cons. destruct (decide (P b)); csimpl; unfold compose in *; simpl in *; lia.
Qed.

Lemma enough_leader_support_spec d round leader :
  view d → dr_last_commit_round d < round → round < u32_max →
  dr_gc_round d ≤ br_round (reference leader) →
  ∃ e, BaseCommitter_enough_leader_support bc d round leader = Ret e ∧
    (e = true ↔ block_quorum c (dr_block d)
                  (λ r b, br_round r = round ∧ certifies c G (reference leader) b)).
Proof using Hwf Hdag Hbc.
  intros Hv Hlc Hr Hgc. unfold BaseCommitter_enough_leader_support.
  destruct (dr_at_round_spec d round) as (l & -> & Hl); [apply (vo_ok d Hv)|done..|].
  cbn [mbind M_bind]. rewrite Hbc.
  destruct (quick_reject d round l (certifies c G (reference leader)) Hv Hl) as (total & Htot & Hrej).
  apply bind_Ret in Htot as (stakes & -> & Htot). cbn [mbind M_bind]. rewrite Htot. cbn [mbind M_bind].
  pose proof (authors_of_quorum d (λ r, br_round r = round) (certifies c G (reference leader)) l Hv Hl)
    as Hiff.
  destruct (Committee_reached_quorum c total); cbn [negb].
  - rewrite (SA_of_new c), support_loop_spec; [|done|done| |done|done|apply reached_empty].
    + rewrite union_empty_r_L. eauto.
    + intros b Hb. by apply Hl.
  - exists false. by rewrite <- Hiff, Hrej.
Qed.

(** ** Waves *)

(** Leaders are elected in the first round of a wave. *)
Definition first_of_wave (round : Round) : Prop :=
  (round - bo_round_offset (bc_options bc)) / bo_wave_length (bc_options bc)
    * bo_wave_length (bc_options bc) + bo_round_offset (bc_options bc) = round.

Context (Hwave : bo_wave_length (bc_options bc) = 3).

Lemma decision_round_spec round :
  first_of_wave round → round + 3 < 2 ^ 32 →
  ∃ wave, BaseCommitter_wave_number bc round = Ret wave ∧
    BaseCommitter_decision_round bc wave = Ret (round + 2).
Proof using Hwave.
  unfold first_of_wave, BaseCommitter_wave_number, BaseCommitter_decision_round. rewrite Hwave.
  intros Hfirst Hr. eexists. split; [done|]. set (wave := _ / 3) in *.
  do 3 arith_step. rewrite int_add_exact by lia. f_equal. lia.
Qed.

(** ** The direct rule *)

Definition committed_in d (l : BlockRef) : Prop :=
  block_quorum c (dr_block d) (λ r b, br_round r = br_round l + 2 ∧ certifies c G l b).

Inductive direct_outcome d (slot : Slot) : LeaderStatus → Prop :=
| direct_skip : blamed c (dr_block d) slot → direct_outcome d slot (LSkip slot)
| direct_commit b :
    dr_block d (reference b) = Some b → Slot_from (reference b) = slot →
    ¬ blamed c (dr_block d) slot → committed_in d (reference b) →
    direct_outcome d slot (LCommit b)
| direct_undecided :
    ¬ blamed c (dr_block d) slot →
    (∀ b, dr_block d (reference b) = Some b → Slot_from (reference b) = slot →
          ¬ committed_in d (reference b)) →
    direct_outcome d slot (LUndecided slot).

Lemma block_quorum_sub d P :
  view d → block_quorum c (dr_block d) P → block_quorum c G P.
Proof.
  intros Hv (Q & HQ & Hb). exists Q. split; [done|]. intros i Hi.
  destruct (Hb i Hi) as (r & b & Hr & ? & ?). exists r, b. split_and!; [|done..]. by apply (vo_sub d Hv).
Qed.

(** At most one block of a list of distinct blocks passes a filter that only
    one block can pass. *)
Lemma filter_at_most_one (P : VerifiedBlock → Prop) `{∀ b, base.Decision (P b)} l :
  ref_sorted l → (∀ b1 b2, b1 ∈ l → b2 ∈ l → P b1 → P b2 → reference b1 = reference b2) →
  (length (filter P l) ≤ 1)%nat.
Proof.
  intros Hs Huniq. apply (StronglySorted_filter _ P) in Hs.
  assert (∀ b, b ∈ filter P l → b ∈ l ∧ P b) as Hin by (intros b; rewrite list_elem_of_filter; tauto).
  destruct (filter P l) as [|b1 [|b2 l']]; simpl; [lia..|]. exfalso.
  apply StronglySorted_inv in Hs as [_ Hs]. apply Forall_cons in Hs as [Hlt _].
  destruct (Hin b1) as [? ?]; [left|]. destruct (Hin b2) as [? ?]; [right; left|].
  rewrite lt_ord_alt, (Huniq b1 b2), le_ord_refl in Hlt; done.
Qed.

Lemma unique_candidate (f : VerifiedBlock → M bool) (P : VerifiedBlock → Prop) l :
  ref_sorted l → (∀ b, b ∈ l → ∃ e, f b = Ret e ∧ (e = true ↔ P b)) →
  (∀ b1 b2, b1 ∈ l → b2 ∈ l → P b1 → P b2 → reference b1 = reference b2) →
  ∃ l', filterP f l = Ret l' ∧ N.of_nat (length l') ≤ 1 ∧
    match last l' with
    | Some b => b ∈ l ∧ P b
    | None => ∀ b, b ∈ l → ¬ P b
    end.
Proof.
  intros Hs Hf Huniq. set (e b := match f b with Ret e => e | _ => false end).
  assert (∀ b, b ∈ l → f b = Ret (e b) ∧ (e b = true ↔ P b)) as He.
  { intros b Hb. unfold e. destruct (Hf b Hb) as (v & -> & Hv). done. }
  exists (filter (λ b, e b = true) l). split_and!.
  - apply filterP_spec. intros b Hb. destruct (He b Hb) as [-> _]. f_equal. by destruct (e b).
  - assert (length (filter (λ b, e b = true) l) ≤ 1)%nat; [|lia].
    apply filter_at_most_one; [done|]. intros b1 b2 Hb1 Hb2 He1 He2.
    apply Huniq; [done|done|by apply He|by apply He].
  - destruct (last _) as [b|] eqn:Hlast.
    + apply last_Some_elem_of, list_elem_of_filter in Hlast as [Heb Hb]. split; [done|]. by apply He.
    + apply last_None in Hlast. intros b Hb HP.
      assert (b ∈ filter (λ b, e b = true) l) as Hin.
      { apply list_elem_of_filter. split; [by apply He|done]. }
      rewrite Hlast in Hin. by apply not_elem_of_nil in Hin.
Qed.

Context (byz : gset AuthorityIndex) (Hbyz : honest_majority c G byz).

Lemma committed_certified l :
  block_quorum c G (λ r b, br_round r = br_round l + 2 ∧ certifies c G l b) →
  ∃ r b, G r = Some b ∧ certifies c G l b.
Proof using Hwf.
  intros (Q & [i Hi]%(quorum_inhabited c Hwf) & HQ).
  destruct (HQ i Hi) as (r & b & ? & _ & _ & ?). eauto.
Qed.

Lemma committed_unique l1 l2 :
  Slot_from l1 = Slot_from l2 → committed c G l1 → committed c G l2 → l1 = l2.
Proof using Hwf Hdag Hbyz.
  intros Hslot (r1 & b1 & Hb1 & Hc1)%committed_certified (r2 & b2 & Hb2 & Hc2)%committed_certified.
  by apply (certified_unique c G Hwf Hdag byz l1 l2 r1 b1 r2 b2).
Qed.

(** The rounds a view can decide. *)
Record decidable_slot d (slot : Slot) : Prop := {
  sl_gc : dr_gc_round d < slot_round slot;
  sl_last_commit : dr_last_commit_round d ≤ slot_round slot;
  sl_round : slot_round slot + 3 < u32_max;
  sl_first : first_of_wave (slot_round slot);
}.

Lemma try_direct_decide_spec d slot :
  view d → decidable_slot d slot →
  ∃ st, BaseCommitter_try_direct_decide bc d slot = Ret st ∧ direct_outcome d slot st.
Proof using Hwf Hdag Hbc Hwave Hbyz.
  intros Hv [Hgc Hlc Hr Hfirst]. unfold BaseCommitter_try_direct_decide.
  arith.
  destruct (enough_leader_blame_spec d (slot_round slot + 1) (slot_authority slot))
    as (blame & -> & Hblame); [done|lia|lia|]. cbn [mbind M_bind].
  destruct blame; [exists (LSkip slot); split; [done|]; by apply direct_skip, Hblame|].
  assert (¬ blamed c (dr_block d) slot) as Hnb by (intros Hb; by apply Hblame in Hb).
  destruct (decision_round_spec (slot_round slot)) as (wave & -> & Hdec); [done|lia|].
  cbn [mbind M_bind]. rewrite Hdec. cbn [mbind M_bind].
  destruct (dr_at_slot_spec d slot) as (l & -> & Hsort & Hl); [apply (vo_ok d Hv)|done|].
  cbn [mbind M_bind].
  destruct (unique_candidate (BaseCommitter_enough_leader_support bc d (slot_round slot + 2))
              (λ b, committed_in d (reference b)) l) as (l' & -> & Hone & Hlast); [done| | |].
  { intros b [_ Hslot]%Hl. subst slot.
    apply (enough_leader_support_spec d (br_round (reference b) + 2) b); [done|simpl in *; lia..]. }
  { intros b1 b2 [_ Hs1]%Hl [_ Hs2]%Hl Hc1 Hc2.
    apply committed_unique; [congruence|by eapply block_quorum_sub..]. }
  cbn [mbind M_bind]. destruct (N.ltb_spec 1 (N.of_nat (length l'))); [lia|].
  eexists. split; [done|]. destruct (last l') as [b|].
  - destruct Hlast as [[Hb Hslot]%Hl Hcom]. by apply direct_commit.
  - apply direct_undecided; [done|]. intros b Hb Hslot. apply Hlast. by apply Hl.
Qed.

(** ** The indirect rule *)

Lemma any_certificate_spec d leader all_votes l :
  view d → dr_gc_round d ≤ br_round (reference leader) → cache_ok leader all_votes →
  (∀ b, b ∈ l → dr_block d (reference b) = Some b) →
  ∃ e, any_certificate bc d leader all_votes l = Ret e ∧
    (e = true ↔ ∃ b, b ∈ l ∧ certifies c G (reference leader) b).
Proof using Hwf Hdag Hbc.
  intros Hv Hgc. revert all_votes. induction l as [|b l IH]; intros all_votes Hc Hl.
  { exists false. split; [done|]. split; [done|]. by intros (? & ?%not_elem_of_nil & _). }
  cbn [any_certificate].
  destruct (is_certificate_spec d leader (reference b) b all_votes) as (av & -> & Hav);
    [done..|by apply Hl; left|done|].
  cbn [mbind M_bind]. case_bool_decide as Hcert.
  - exists true. split; [done|]. split; [|done]. intros _. exists b. split; [left|done].
  - destruct (IH av Hav) as (e & -> & He); [by intros; apply Hl; right|].
    exists e. split; [done|]. rewrite He. setoid_rewrite list.elem_of_cons. naive_solver.
Qed.

Inductive anchor_outcome (anchor : VerifiedBlock) (slot : Slot) : LeaderStatus → Prop :=
| anchor_commit b :
    G (reference b) = Some b → Slot_from (reference b) = slot → anchored anchor (reference b) →
    anchor_outcome anchor slot (LCommit b)
| anchor_skip :
    (∀ l, Slot_from l = slot → ¬ anchored anchor l) → anchor_outcome anchor slot (LSkip slot).

Lemma anchored_unique anchor1 anchor2 l1 l2 :
  Slot_from l1 = Slot_from l2 → anchored anchor1 l1 → anchored anchor2 l2 → l1 = l2.
Proof using Hwf Hdag Hbyz.
  intros Hslot (r1 & b1 & Hb1 & Hc1 & _) (r2 & b2 & Hb2 & Hc2 & _).
  by apply (certified_unique c G Hwf Hdag byz l1 l2 r1 b1 r2 b2).
Qed.

(** The anchor alone determines the decision. *)
Lemma anchor_outcome_det anchor slot st1 st2 :
  anchor_outcome anchor slot st1 → anchor_outcome anchor slot st2 → st1 = st2.
Proof using Hwf Hdag Hbyz.
  intros [b1 Hb1 Hs1 Ha1|Hn1] [b2 Hb2 Hs2 Ha2|Hn2].
  - assert (reference b1 = reference b2) as Heq.
    { apply (anchored_unique anchor anchor); [congruence|done..]. }
    rewrite Heq in Hb1. by simplify_eq.
  - by destruct (Hn2 (reference b1)).
  - by destruct (Hn1 (reference b2)).
  - done.
Qed.

(** A committed block is in the view of who committed it. *)
Definition in_view d (st : LeaderStatus) : Prop :=
  match st with LCommit b => dr_block d (reference b) = Some b | _ => True end.

Lemma decide_leader_from_anchor_spec d slot ra anchor :
  view d → decidable_slot d slot → dr_block d ra = Some anchor →
  ∃ n, ∀ fuel, (n ≤ fuel)%nat →
    ∃ st, BaseCommitter_decide_leader_from_anchor fuel bc d anchor slot = Ret st ∧
      anchor_outcome anchor slot st ∧ in_view d st.
Proof using Hwf Hdag Hbc Hwave Hbyz.
  intros Hv [Hgc Hlc Hr Hfirst] Ha.
  destruct (dr_ancestors_spec d anchor (slot_round slot + 2)) as (n & Hn);
    [apply (vo_ok d Hv)|by apply view_sound|intros x; apply (view_complete d ra anchor); [done..|lia]|].
  exists n. intros fuel Hf. unfold BaseCommitter_decide_leader_from_anchor.
  destruct (dr_at_slot_spec d slot) as (l & -> & Hsort & Hl); [apply (vo_ok d Hv)|done|].
  cbn [mbind M_bind]. destruct (decision_round_spec (slot_round slot)) as (wave & -> & Hdec); [done|lia|].
  cbn [mbind M_bind]. rewrite Hdec. cbn [mbind M_bind].
  destruct (Hn fuel Hf) as (pc & -> & Hpc). cbn [mbind M_bind].
  destruct (unique_candidate (λ b, any_certificate bc d b ∅ pc) (λ b, anchored anchor (reference b)) l)
    as (l' & -> & Hone & Hlast); [done| | |].
  { intros b [_ <-]%Hl. setoid_rewrite <- (anchored_spec d ra anchor _ pc Hv Ha Hgc Hpc).
    apply any_certificate_spec; [done|cbn [slot_round Slot_from] in *; lia|done|].
    intros b' [Hb' _]%Hpc. done. }
  { intros b1 b2 [_ Hs1]%Hl [_ Hs2]%Hl. apply anchored_unique. congruence. }
  cbn [mbind M_bind]. destruct (N.ltb_spec 1 (N.of_nat (length l'))); [lia|].
  eexists. split; [done|]. destruct (last l') as [b|].
  - destruct Hlast as [[Hb Hslot]%Hl Hanchor]. split; [|done].
    apply anchor_commit; [by apply (vo_sub d Hv)|done..].
  - split; [|done]. apply anchor_skip. intros lref <- Hanchor.
    destruct (anchored_in_view d ra anchor lref) as [lb Hlb]; [done..|].
    assert (reference lb = lref) as Href by (by apply (dv_ref c G Hdag), (vo_sub d Hv)).
    apply (Hlast lb); rewrite ?Href; [|done]. apply Hl. by rewrite Href.
Qed.

(** The decision does not depend on the fuel. *)
Lemma decide_leader_from_anchor_total d slot ra anchor :
  view d → decidable_slot d slot → dr_block d ra = Some anchor →
  ∃ n st, (∀ fuel, (n ≤ fuel)%nat →
             BaseCommitter_decide_leader_from_anchor fuel bc d anchor slot = Ret st) ∧
    anchor_outcome anchor slot st ∧ in_view d st.
Proof using Hwf Hdag Hbc Hwave Hbyz.
  intros Hv Hsl Ha. destruct (decide_leader_from_anchor_spec d slot ra anchor Hv Hsl Ha) as (n & Hn).
  destruct (Hn n ltac:(done)) as (st & _ & Hst & Hin). exists n, st. split; [|done].
  intros fuel Hf. destruct (Hn fuel Hf) as (st' & -> & Hst' & _). f_equal.
  by eapply anchor_outcome_det.
Qed.

(** ** Agreement between views *)

Lemma blamed_not_anchored d slot anchor l :
  view d → blamed c (dr_block d) slot → Slot_from l = slot → ¬ anchored anchor l.
Proof using Hwf Hdag Hbyz.
  intros Hv Hb Hslot (rc & b & HGc & Hc & Hr & _).
  eapply (blamed_not_certified c G Hwf Hdag byz slot l rc b);
    [done|by eapply block_quorum_sub|done..| |done].
  rewrite Hr, <- Hslot. done.
Qed.

Lemma blamed_not_committed d1 d2 slot l :
  view d1 → view d2 → blamed c (dr_block d1) slot → Slot_from l = slot → ¬ committed_in d2 l.
Proof using Hwf Hdag Hbyz.
  intros Hv1 Hv2 Hb Hslot (Q & [i Hi]%(quorum_inhabited c Hwf) & HQ).
  destruct (HQ i Hi) as (r & b & Hrb & _ & Hr & Hc).
  eapply (blamed_not_certified c G Hwf Hdag byz slot l r b);
    [done|by eapply (block_quorum_sub d1)|done|by apply (vo_sub d2 Hv2)| |done].
  rewrite Hr, <- Hslot. done.
Qed.

Lemma direct_direct_agree d1 d2 slot st1 st2 :
  view d1 → view d2 → direct_outcome d1 slot st1 → direct_outcome d2 slot st2 →
  LeaderStatus_is_decided st1 = true → LeaderStatus_is_decided st2 = true → st1 = st2.
Proof using Hwf Hdag Hbyz.
  intros Hv1 Hv2 [Hb1|b1 Hb1 Hs1 _ Hc1|] [Hb2|b2 Hb2 Hs2 _ Hc2|]; try done; intros _ _.
  - by destruct (blamed_not_committed d1 d2 slot (reference b2)).
  - by destruct (blamed_not_committed d2 d1 slot (reference b1)).
  - assert (reference b1 = reference b2) as Heq.
    { apply committed_unique; [congruence|by apply (block_quorum_sub d1)|by apply (block_quorum_sub d2)]. }
    apply (vo_sub d1 Hv1) in Hb1. apply (vo_sub d2 Hv2) in Hb2. rewrite Heq in Hb1. by simplify_eq.
Qed.

Lemma direct_anchor_agree d1 slot st1 ra anchor st2 :
  view d1 → direct_outcome d1 slot st1 → LeaderStatus_is_decided st1 = true →
  G ra = Some anchor → slot_round slot + 3 ≤ br_round ra → anchor_outcome anchor slot st2 → st1 = st2.
Proof using Hwf Hdag Hbyz.
  intros Hv1 [Hb1|b1 Hb1 Hs1 _ Hc1|] Hdec Ha Hra Hst2; [| |done].
  - destruct Hst2 as [b2 Hb2 Hs2 Ha2|]; [|done]. by destruct (blamed_not_anchored d1 slot anchor (reference b2)).
  - assert (anchored anchor (reference b1)) as Hanch.
    { subst slot. cbn [slot_round Slot_from] in *.
      destruct (committed_certificate_reached c G Hwf Hdag byz (reference b1) ra anchor)
        as (rc & b & ? & ? & ?); [done|by eapply (block_quorum_sub d1)|done|done|]. by exists rc, b. }
    apply (vo_sub d1 Hv1) in Hb1.
    apply (anchor_outcome_det anchor slot); [apply (anchor_commit anchor slot b1 Hb1 Hs1 Hanch)|exact Hst2].
Qed.

End CommitterTheory.

(** ** The guarantees of the committer *)

Section CommitterGuarantees.
Context `{Profile} `{Rng} {D : Type} `{DagReaderLaws D}.
Implicit Types d : D.

(** The blocks accepted by all authorities, of which [byz] are faulty. *)
Record world (c : Committee) (G : BlockRef → option VerifiedBlock) (byz : gset AuthorityIndex)
    : Prop := {
  w_committee : Committee_wf c;
  w_dag : dag_valid c G;
  w_honest : honest_majority c G byz;
}.

(** A committer with the committee [c] and waves of three rounds, the length
    that [UniversalCommitterBuilder] sets. *)
Definition runs_rule (c : Committee) (bc : BaseCommitter) : Prop :=
  ctx_committee (bc_context bc) = c ∧ bo_wave_length (bc_options bc) = MINIMUM_WAVE_LENGTH.

(** [is_certificate] with a cache of earlier votes for the same leader
    answers whether the authors of the votes among the ancestors hold a quorum
    of the stake, as it does with an empty cache, and leaves the cache with
    correct votes only. *)
Theorem BaseCommitter_is_certificate_exact c G byz bc d leader r b all_votes :
  world c G byz → runs_rule c bc → view c G d →
  dr_gc_round d ≤ br_round (reference leader) → dr_block d r = Some b →
  cache_ok G leader all_votes →
  ∃ all_votes' fresh_votes,
    BaseCommitter_is_certificate bc d b leader all_votes =
      Ret (bool_decide (certifies c G (reference leader) b), all_votes') ∧
    BaseCommitter_is_certificate bc d b leader ∅ =
      Ret (bool_decide (certifies c G (reference leader) b), fresh_votes) ∧
    cache_ok G leader all_votes'.
Proof.
  intros [Hwf Hdag _] [Hbc _] Hv Hgc Hb Hc.
  destruct (is_certificate_spec c G Hwf Hdag bc Hbc d leader r b all_votes) as (av & -> & Hav); [done..|].
  destruct (is_certificate_spec c G Hwf Hdag bc Hbc d leader r b ∅) as (fv & -> & _); [done..|].
  by exists av, fv.
Qed.

(** C31: the block that a block of an honest author supports at a slot is
    supported by every later block of that author. *)
Theorem BaseCommitter_find_supported_block_inherited c G d slot i r1 b1 r2 b2 l :
  dag_valid c G → view c G d → dr_gc_round d ≤ slot_round slot → honest G i →
  dr_block d r1 = Some b1 → dr_block d r2 = Some b2 →
  br_author r1 = i → br_author r2 = i → br_round r1 ≤ br_round r2 →
  BaseCommitter_find_supported_block d slot b1 = Ret (Some l) →
  BaseCommitter_find_supported_block d slot b2 = Ret (Some l).
Proof.
  intros Hdag Hv Hgc Hi Hb1 Hb2 Ha1 Ha2 Hle. unfold BaseCommitter_find_supported_block.
  assert (∀ r b, dr_block d r = Some b → b_round b = br_round r) as Hround.
  { intros r b Hb. by apply reference_round, (dv_ref c G Hdag), (vo_sub c G d Hv). }
  rewrite (find_supported_spec c G Hdag d slot _ r1 b1), (find_supported_spec c G Hdag d slot _ r2 b2)
    by (done || rewrite (Hround _ _ Hb1) || rewrite (Hround _ _ Hb2); lia).
  intros [= Hs]. f_equal. apply (supports_inherited c G Hdag i slot r1 b1 r2 b2 l); try done.
  - by apply (vo_sub c G d Hv).
  - by apply (vo_sub c G d Hv).
Qed.

(** C13: a direct decision is final.  When one authority directly commits or
    skips a leader slot, the direct rule of any other authority returns the same
    decision or none, and the indirect rule returns the same decision from every
    block three rounds later or more. *)
Theorem BaseCommitter_direct_decision_final c G byz bc1 bc2 d1 d2 slot st :
  world c G byz → runs_rule c bc1 → runs_rule c bc2 → view c G d1 → view c G d2 →
  decidable_slot bc1 d1 slot → decidable_slot bc2 d2 slot →
  BaseCommitter_try_direct_decide bc1 d1 slot = Ret st → LeaderStatus_is_decided st = true →
  (∃ st2, BaseCommitter_try_direct_decide bc2 d2 slot = Ret st2 ∧
          (st2 = st ∨ st2 = LUndecided slot)) ∧
  ∀ ra anchor, dr_block d2 ra = Some anchor → slot_round slot + 3 ≤ br_round ra →
    ∃ n, ∀ fuel, (n ≤ fuel)%nat →
      BaseCommitter_decide_leader_from_anchor fuel bc2 d2 anchor slot = Ret st.
Proof.
  intros [Hwf Hdag Hbyz] [Hbc1 Hw1] [Hbc2 Hw2] Hv1 Hv2 Hsl1 Hsl2 Hst Hdec.
  destruct (try_direct_decide_spec c G Hwf Hdag bc1 Hbc1 Hw1 byz Hbyz d1 slot Hv1 Hsl1)
    as (st' & Hst' & Hout). rewrite Hst in Hst'. injection Hst' as <-.
  split.
  - destruct (try_direct_decide_spec c G Hwf Hdag bc2 Hbc2 Hw2 byz Hbyz d2 slot Hv2 Hsl2)
      as (st2 & Hst2 & Hout2). exists st2. split; [done|].
    destruct (LeaderStatus_is_decided st2) eqn:Hdec2.
    + left. symmetry. by apply (direct_direct_agree c G Hwf Hdag byz Hbyz d1 d2 slot).
    + right. by destruct Hout2.
  - intros ra anchor Ha Hra.
    destruct (decide_leader_from_anchor_total c G Hwf Hdag bc2 Hbc2 Hw2 byz Hbyz d2 slot ra anchor
                Hv2 Hsl2 Ha) as (n & st2 & Hn & Hout2 & _).
    exists n. intros fuel Hf. rewrite Hn by done. f_equal. symmetry.
    apply (direct_anchor_agree c G Hwf Hdag byz Hbyz d1 slot st ra anchor st2); try done.
    by apply (vo_sub c G d2 Hv2).
Qed.

(** C23: authorities that decide a slot from the same anchor decide alike: the
    indirect rule returns one status that depends on the anchor only. *)
Theorem BaseCommitter_anchor_decision_shared c G byz bc1 bc2 d1 d2 slot ra anchor :
  world c G byz → runs_rule c bc1 → runs_rule c bc2 → view c G d1 → view c G d2 →
  decidable_slot bc1 d1 slot → decidable_slot bc2 d2 slot →
  dr_block d1 ra = Some anchor → dr_block d2 ra = Some anchor →
  ∃ n st, LeaderStatus_is_decided st = true ∧ ∀ fuel, (n ≤ fuel)%nat →
    BaseCommitter_decide_leader_from_anchor fuel bc1 d1 anchor slot = Ret st ∧
    BaseCommitter_decide_leader_from_anchor fuel bc2 d2 anchor slot = Ret st.
Proof.
  intros [Hwf Hdag Hbyz] [Hbc1 Hw1] [Hbc2 Hw2] Hv1 Hv2 Hsl1 Hsl2 Ha1 Ha2.
  destruct (decide_leader_from_anchor_total c G Hwf Hdag bc1 Hbc1 Hw1 byz Hbyz d1 slot ra anchor
              Hv1 Hsl1 Ha1) as (n1 & st1 & Hn1 & Hout1 & _).
  destruct (decide_leader_from_anchor_total c G Hwf Hdag bc2 Hbc2 Hw2 byz Hbyz d2 slot ra anchor
              Hv2 Hsl2 Ha2) as (n2 & st2 & Hn2 & Hout2 & _).
  exists (n1 + n2)%nat, st1. split; [by destruct Hout1|]. intros fuel Hf.
  rewrite Hn1, Hn2 by lia. split; [done|]. f_equal.
  by eapply (anchor_outcome_det c G Hwf Hdag byz Hbyz).
Qed.

End CommitterGuarantees.
