(* ===== verification/UniversalCommitter.v ===== *)
(** * The sequence of decided leaders (consensus/core/src/universal_committer.rs)

    [UniversalCommitter] tries to decide every leader slot above the last decided
    one, from the highest round down, and returns the longest decided prefix. *)

From S2P Require Import Prelude BTree Config Block Commit Store StakeAggregator ThresholdClock.
From S2P Require Import LeaderScoring DagState DagTheory DagTraversal LeaderSchedule.
From S2P Require Import BaseCommitter CommitRule CommitterTheory.
Local Open Scope N_scope.

Record UniversalCommitter : Type := mkUniversalCommitter {
  uc_context : Context;
  uc_committers : list BaseCommitter;
}.

(** [lo..=hi]. *)
Definition rounds_between (lo hi : Round) : list Round :=
  if lo <=? hi then (λ i, lo + N.of_nat i) <$> seq 0 (N.to_nat (hi - lo + 1)) else [].

Section UniversalCommitter.
Context `{Profile} `{Rng} {D : Type} `{DagReader D}.
Implicit Types d : D.

(** The body of the loop over committers, for one of them that has [slot]. *)
Definition decide_slot (fuel : nat) d (committer : BaseCommitter) (slot : Slot)
    (leaders : list (LeaderStatus * Decision)) : M (LeaderStatus * Decision) :=
  status ← BaseCommitter_try_direct_decide committer d slot;
  if LeaderStatus_is_decided status then Ret (status, Direct)
  else
    status ← BaseCommitter_try_indirect_decide fuel committer d slot leaders.*1;
    Ret (status, Indirect).

(** The inner loop; the boolean says whether it left the outer loop. *)
Fixpoint committers_loop (fuel : nat) d (last_decided : Slot) (round : Round)
    (leaders : list (LeaderStatus * Decision)) (committers : list BaseCommitter)
    : M (list (LeaderStatus * Decision) * bool) :=
  match committers with
  | [] => Ret (leaders, false)
  | committer :: committers =>
      elected ← BaseCommitter_elect_leader committer round;
      match elected with
      | None => committers_loop fuel d last_decided round leaders committers
      | Some slot =>
          if bool_decide (slot = last_decided) then Ret (leaders, true)
          else
            entry ← decide_slot fuel d committer slot leaders;
            committers_loop fuel d last_decided round (entry :: leaders) committers
      end
  end.

(** The outer loop, over rounds in the order given. *)
Fixpoint rounds_loop (fuel : nat) d (last_decided : Slot) (committers : list BaseCommitter)
    (leaders : list (LeaderStatus * Decision)) (rounds : list Round)
    : M (list (LeaderStatus * Decision)) :=
  match rounds with
  | [] => Ret leaders
  | round :: rounds =>
      '(leaders, stop) ← committers_loop fuel d last_decided round leaders (reverse committers);
      if stop : bool then Ret leaders
      else rounds_loop fuel d last_decided committers leaders rounds
  end.

(** [update_metrics] reads the host name of the leader. *)
Definition UniversalCommitter_update_metrics (ctx : Context) (decided_leader : DecidedLeader)
    : M unit :=
  _ ← Committee_authority (ctx_committee ctx) (slot_authority (DecidedLeader_slot decided_leader));
  Ret tt.

Definition Decision_is_direct (decision : Decision) : bool :=
  match decision with Direct => true | _ => false end.

(** The longest decided prefix. *)
Fixpoint decided_prefix (ctx : Context) (leaders : list (LeaderStatus * Decision))
    : M (list DecidedLeader) :=
  match leaders with
  | [] => Ret []
  | (leader, decision) :: leaders =>
      if LeaderStatus_round leader =? GENESIS_ROUND then decided_prefix ctx leaders
      else
        match LeaderStatus_into_decided_leader leader (Decision_is_direct decision) with
        | None => Ret []
        | Some decided_leader =>
            UniversalCommitter_update_metrics ctx decided_leader;;
            rest ← decided_prefix ctx leaders;
            Ret (decided_leader :: rest)
        end
  end.

Definition UniversalCommitter_try_decide (fuel : nat) (uc : UniversalCommitter) d
    (last_decided : Slot) : M (list DecidedLeader) :=
  let highest_accepted_round := dr_highest_accepted_round d in
  last_round ← (if bool_decide (pc_num_leaders_per_round (ctx_protocol_config (uc_context uc)) = Some 1)
                then u32_add (slot_round last_decided) 1
                else Ret (slot_round last_decided));
  leaders ← rounds_loop fuel d last_decided (uc_committers uc) []
              (reverse (rounds_between last_round (highest_accepted_round - 2)));
  decided_prefix (uc_context uc) leaders.

Fixpoint collect_leaders (round : Round) (committers : list BaseCommitter) : M (list AuthorityIndex) :=
  match committers with
  | [] => Ret []
  | committer :: committers =>
      elected ← BaseCommitter_elect_leader committer round;
      rest ← collect_leaders round committers;
      Ret (match elected with Some slot => slot_authority slot :: rest | None => rest end)
  end.

Definition UniversalCommitter_get_leaders (uc : UniversalCommitter) (round : Round)
    : M (list AuthorityIndex) :=
  collect_leaders round (uc_committers uc).

End UniversalCommitter.

(** ** The builder *)

Record UniversalCommitterBuilder : Type := mkUniversalCommitterBuilder {
  ub_context : Context;
  ub_leader_schedule : LeaderSchedule;
  ub_wave_length : Round;
  ub_number_of_leaders : N;
  ub_pipeline : bool;
}.

Definition UniversalCommitterBuilder_new (ctx : Context) (leader_schedule : LeaderSchedule)
    : UniversalCommitterBuilder :=
  mkUniversalCommitterBuilder ctx leader_schedule DEFAULT_WAVE_LENGTH 1 false.

Definition UniversalCommitterBuilder_with_number_of_leaders (number_of_leaders : N)
    (ub : UniversalCommitterBuilder) : UniversalCommitterBuilder :=
  mkUniversalCommitterBuilder (ub_context ub) (ub_leader_schedule ub) (ub_wave_length ub)
    number_of_leaders (ub_pipeline ub).

Definition UniversalCommitterBuilder_with_pipeline (pipeline : bool)
    (ub : UniversalCommitterBuilder) : UniversalCommitterBuilder :=
  mkUniversalCommitterBuilder (ub_context ub) (ub_leader_schedule ub) (ub_wave_length ub)
    (ub_number_of_leaders ub) pipeline.

(** [0..n]. *)
Definition range_to (n : N) : list N := N.of_nat <$> seq 0 (N.to_nat n).

Definition UniversalCommitterBuilder_build (ub : UniversalCommitterBuilder) : UniversalCommitter :=
  let pipeline_stages := if ub_pipeline ub then ub_wave_length ub else 1 in
  mkUniversalCommitter (ub_context ub)
    (round_offset ← range_to pipeline_stages;
     leader_offset ← range_to (ub_number_of_leaders ub);
     [mkBaseCommitter (ub_context ub) (ub_leader_schedule ub)
        (mkBaseCommitterOptions (ub_wave_length ub) (leader_offset mod 2 ^ 32) round_offset)]).
