(* ===== verification/CommitSequence.v ===== *)
(** * The decided sequences of all authorities agree

    [UniversalCommitter::try_decide] returns, for the slots elected above the
    last decided one and in their order, the longest prefix of decisions; the
    sequences that two authorities decide are prefixes of one another. *)

From S2P Require Import Prelude BTree Config Block Commit Store StakeAggregator ThresholdClock.
From S2P Require Import LeaderScoring DagState DagTheory DagTraversal LeaderSchedule.
From S2P Require Import BaseCommitter CommitRule CommitterTheory UniversalCommitter.
Local Open Scope N_scope.

(** ** The slots to decide *)

(** The elements before the first [x]. *)
Fixpoint until (x : Slot) (l : list Slot) : list Slot :=
  match l with
  | [] => []
  | y :: l => if bool_decide (y = x) then [] else y :: until x l
  end.

Lemma until_app_notin x l1 l2 : x ∉ l1 → until x (l1 ++ l2) = l1 ++ until x l2.
Proof.
  induction l1 as [|y l1 IH]; simpl; [done|]. intros Hx. apply not_elem_of_cons in Hx as [Hne Hx].
  rewrite bool_decide_eq_false_2 by done. by rewrite IH.
Qed.

Lemma until_notin x l : x ∉ l → until x l = l.
Proof. intros Hx. pose proof (until_app_notin x l [] Hx) as Heq. by rewrite !app_nil_r in Heq. Qed.

Lemma until_app_in x l1 l2 : x ∈ l1 → until x (l1 ++ l2) = until x l1.
Proof.
  induction l1 as [|y l1 IH]; simpl; [by intros ?%not_elem_of_nil|].
  case_bool_decide; [done|]. intros [->|Hx]%list.elem_of_cons; [done|]. by rewrite IH.
Qed.

Lemma until_subseteq x l y : y ∈ until x l → y ∈ l.
Proof.
  induction l as [|z l IH]; simpl; [done|]. case_bool_decide; [by intros ?%not_elem_of_nil|].
  rewrite !list.elem_of_cons. naive_solver.
Qed.

Lemma rounds_between_elem lo hi r : r ∈ rounds_between lo hi ↔ lo ≤ r ∧ r ≤ hi.
Proof.
  unfold rounds_between. destruct (N.leb_spec lo hi) as [Hle|Hlt].
  - rewrite list_elem_of_fmap. setoid_rewrite elem_of_seq. split.
    + intros (i & -> & ?). lia.
    + intros [??]. exists (N.to_nat (r - lo)). lia.
  - split; [by intros ?%not_elem_of_nil|lia].
Qed.

Lemma rounds_between_app lo hi1 hi2 :
  lo ≤ hi1 → hi1 ≤ hi2 →
  rounds_between lo hi2 = rounds_between lo hi1 ++ rounds_between (hi1 + 1) hi2.
Proof.
  intros H1 H2. unfold rounds_between. destruct (N.leb_spec lo hi2); [|lia].
  destruct (N.leb_spec lo hi1); [|lia].
  replace (N.to_nat (hi2 - lo + 1)) with (N.to_nat (hi1 - lo + 1) + N.to_nat (hi2 - hi1))%nat by lia.
  rewrite seq_app, fmap_app. f_equal. destruct (N.leb_spec (hi1 + 1) hi2).
  - replace (N.to_nat (hi2 - (hi1 + 1) + 1)) with (N.to_nat (hi2 - hi1)) by lia.
    apply list_eq. intros i. rewrite !list_lookup_fmap.
    destruct (decide (i < N.to_nat (hi2 - hi1))%nat).
    + rewrite !lookup_seq_lt by done. simpl. f_equal. lia.
    + by rewrite !lookup_seq_ge by lia.
  - by replace (N.to_nat (hi2 - hi1)) with O by lia.
Qed.

Section Slots.
Context `{Profile} `{Rng}.

(** The slot a committer elects in a round. *)
Definition elected (bc : BaseCommitter) (round : Round) : option Slot :=
  match BaseCommitter_elect_leader bc round with Ret o => o | _ => None end.

Definition elected_at (cs : list BaseCommitter) (round : Round) : list Slot :=
  omap (λ bc, elected bc round) cs.

(** The slots above [last], in ascending order. *)
Definition slots_between (cs : list BaseCommitter) (last : Slot) (lo hi : Round) : list Slot :=
  reverse (until last (reverse (rounds_between lo hi) ≫= elected_at (reverse cs))).

Lemma elected_Some bc round slot :
  elected bc round = Some slot →
  bo_wave_length (bc_options bc) = 3 → bo_round_offset (bc_options bc) < 2 ^ 32 →
  round < 2 ^ 32 →
  slot_round slot = round ∧ first_of_wave bc round.
Proof.
  unfold elected, BaseCommitter_elect_leader, BaseCommitter_wave_number, BaseCommitter_leader_round.
  intros Hel Hw Hro Hr. unfold first_of_wave. rewrite Hw in *. cbn [N.eqb mbind M_bind] in Hel.
  change (3 =? 0) with false in Hel. cbn [mbind M_bind] in Hel.
  set (wave := (round - bo_round_offset (bc_options bc)) / 3) in *.
  rewrite int_mul_exact in Hel by lia. cbn [mbind M_bind] in Hel.
  rewrite int_add_exact in Hel by lia.
  cbn [mbind M_bind] in Hel. destruct (N.eqb_spec (wave * 3 + bo_round_offset (bc_options bc)) round)
    as [Heq|]; [|done]. cbn [negb] in Hel.
  destruct (LeaderSchedule_elect_leader _ _ _); [|done..]. by simplify_eq/=.
Qed.

Lemma elected_at_elem cs round slot :
  slot ∈ elected_at cs round ↔ ∃ bc, bc ∈ cs ∧ elected bc round = Some slot.
Proof. unfold elected_at. apply list_elem_of_omap. Qed.

End Slots.

(** ** The statuses of the slots *)

(** The first committed leader from round [first] on, unless an undecided one
    comes before. *)
Fixpoint anchor_of (first : Round) (sts : list LeaderStatus) : option VerifiedBlock :=
  match sts with
  | [] => None
  | x :: sts =>
      if first <=? LeaderStatus_round x then
        match x with
        | LCommit anchor => Some anchor
        | LSkip _ => anchor_of first sts
        | LUndecided _ => None
        end
      else anchor_of first sts
  end.

Lemma anchor_of_Some first sts a :
  anchor_of first sts = Some a → LCommit a ∈ sts ∧ first ≤ b_round a.
Proof.
  induction sts as [|x sts IH]; simpl; [done|].
  destruct (N.leb_spec first (LeaderStatus_round x)).
  - destruct x; [|rewrite list.elem_of_cons; naive_solver|done].
    intros [= ->]. split; [left|done].
  - rewrite list.elem_of_cons. naive_solver.
Qed.

Section Statuses.
Context `{Profile} `{Rng} {D : Type} `{DagReaderLaws D}.
Context (c : Committee) (G : BlockRef → option VerifiedBlock) (byz : gset AuthorityIndex).
Implicit Types d : D.

(** The status of [slot] when the later slots have the statuses [sts]. *)
Definition slot_outcome d (slot : Slot) (sts : list LeaderStatus) (st : LeaderStatus) : Prop :=
  (direct_outcome c G d slot st ∧ LeaderStatus_is_decided st = true) ∨
  (direct_outcome c G d slot (LUndecided slot) ∧
   match anchor_of (slot_round slot + 3) sts with
   | Some anchor => anchor_outcome c G anchor slot st
   | None => st = LUndecided slot
   end).

Inductive statuses d : list Slot → list LeaderStatus → Prop :=
| statuses_nil : statuses d [] []
| statuses_cons slot ss st sts :
    statuses d ss sts → slot_outcome d slot sts st → in_view d st →
    statuses d (slot :: ss) (st :: sts).

Definition status_slot (st : LeaderStatus) : Slot :=
  match st with LCommit b => Slot_from (reference b) | LSkip s => s | LUndecided s => s end.

Lemma slot_outcome_slot d slot sts st : slot_outcome d slot sts st → status_slot st = slot.
Proof.
  intros [[[] _]|[_ Hst]]; [done..|]. destruct (anchor_of _ sts); [by destruct Hst|by subst].
Qed.

Lemma status_slot_round st : LeaderStatus_round st = slot_round (status_slot st).
Proof. by destruct st. Qed.

Lemma statuses_slots d ss sts : statuses d ss sts → status_slot <$> sts = ss.
Proof.
  induction 1 as [|slot ss st sts _ IH Ho _]; csimpl; [done|].
  by rewrite IH, (slot_outcome_slot d slot sts st).
Qed.

Lemma statuses_in_view d ss sts st : statuses d ss sts → st ∈ sts → in_view d st.
Proof.
  induction 1; [by intros ?%not_elem_of_nil|]. rewrite list.elem_of_cons. naive_solver.
Qed.

Context (Hw : world c G byz).

Lemma try_indirect_decide_spec bc d slot ss sts :
  runs_rule c bc → view c G d → decidable_slot bc d slot → statuses d ss sts →
  ∃ n st, (∀ fuel, (n ≤ fuel)%nat →
             BaseCommitter_try_indirect_decide fuel bc d slot sts = Ret st) ∧
    match anchor_of (slot_round slot + 3) sts with
    | Some anchor => anchor_outcome c G anchor slot st
    | None => st = LUndecided slot
    end ∧ in_view d st.
Proof using Hw.
  intros [Hbc Hwave] Hv Hsl Hst. destruct Hw as [Hwf Hdag Hbyz].
  unfold BaseCommitter_try_indirect_decide.
  assert (slot_round slot + 3 < 2 ^ 32) as Hr by (destruct Hsl; lia).
  induction Hst as [|slot' ss st' sts Hst IH Ho Hin]; [by exists O, (LUndecided slot)|].
  cbn [indirect_loop anchor_of]. rewrite Hwave. unfold MINIMUM_WAVE_LENGTH.
  rewrite int_add_exact by done. cbn [mbind M_bind].
  destruct (N.leb_spec (slot_round slot + 3) (LeaderStatus_round st')); cbn [negb]; [|done].
  destruct st' as [anchor| |]; [|done|by exists O, (LUndecided slot)].
  by apply (decide_leader_from_anchor_total c G Hwf Hdag bc Hbc Hwave byz Hbyz d slot
              (reference anchor) anchor).
Qed.

Lemma decide_slot_spec bc d slot ss (leaders : list (LeaderStatus * Decision)) :
  runs_rule c bc → view c G d → decidable_slot bc d slot → statuses d ss leaders.*1 →
  ∃ n e, (∀ fuel, (n ≤ fuel)%nat → decide_slot fuel d bc slot leaders = Ret e) ∧
    statuses d (slot :: ss) (e.1 :: leaders.*1).
Proof using Hw.
  intros Hbc Hv Hsl Hst. unfold decide_slot.
  destruct (try_direct_decide_spec c G (w_committee _ _ _ Hw) (w_dag _ _ _ Hw) bc (proj1 Hbc)
              (proj2 Hbc) byz (w_honest _ _ _ Hw) d slot Hv Hsl) as (st & -> & Ho).
  cbn [mbind M_bind]. destruct (LeaderStatus_is_decided st) eqn:Hdec.
  - exists O, (st, Direct). split; [done|]. constructor; [done|by left|].
    by destruct Ho.
  - assert (st = LUndecided slot) as -> by (by destruct Ho).
    destruct (try_indirect_decide_spec bc d slot ss leaders.*1) as (n & st & Hn & Hout & Hin); [done..|].
    exists n, (st, Indirect). split; [intros fuel Hf; by rewrite Hn|].
    constructor; [done|by right|done].
Qed.

(** ** The loops *)

(** What the loops need of a committer: it elects a member of the committee,
    or nobody. *)
Record elects (bc : BaseCommitter) : Prop := {
  el_rule : runs_rule c bc;
  el_offset : bo_round_offset (bc_options bc) < 2 ^ 32;
  el_returns : ∀ round, round < u32_max → BaseCommitter_elect_leader bc round = Ret (elected bc round);
  el_member : ∀ round slot, elected bc round = Some slot → slot_authority slot ∈ members c;
}.

(** The rounds that [d] can decide. *)
Record round_ok d (round : Round) : Prop := {
  ro_gc : dr_gc_round d < round;
  ro_last_commit : dr_last_commit_round d ≤ round;
  ro_max : round + 3 < u32_max;
}.

Lemma elected_decidable bc d round slot :
  elects bc → round_ok d round → elected bc round = Some slot → decidable_slot bc d slot.
Proof.
  intros He [Hgc Hlc Hmax] Hel.
  destruct (elected_Some bc round slot Hel (proj2 (el_rule bc He)) (el_offset bc He)) as [<- Hfirst];
    [lia|]. done.
Qed.

Lemma committers_loop_spec d last round ss leaders cs :
  view c G d → round_ok d round → Forall elects cs → statuses d ss leaders.*1 →
  ∃ n leaders', (∀ fuel, (n ≤ fuel)%nat →
      committers_loop fuel d last round leaders cs =
        Ret (leaders', bool_decide (last ∈ elected_at cs round))) ∧
    statuses d (reverse (until last (elected_at cs round)) ++ ss) leaders'.*1.
Proof using Hw.
  intros Hv Hr Hcs. revert ss leaders. induction Hcs as [|bc cs Hbc Hcs IH]; intros ss leaders Hst.
  { exists O, leaders. by split. }
  unfold elected_at. cbn [committers_loop omap list_omap]. fold (elected_at cs round).
  rewrite (el_returns bc Hbc) by (destruct Hr; lia). cbn [mbind M_bind].
  destruct (elected bc round) as [slot|] eqn:Hel; [|by apply IH].
  cbn [until]. destruct (decide (slot = last)) as [->|Hlast].
  { exists O, leaders. rewrite !(bool_decide_eq_true_2 (last = last)) by done. split; [|done].
    intros ??. by rewrite bool_decide_eq_true_2 by left. }
  rewrite !(bool_decide_eq_false_2 (slot = last)) by done.
  destruct (decide_slot_spec bc d slot ss leaders) as (n & e & Hn & Hst');
    [by apply el_rule|done|by eapply elected_decidable|done|].
  destruct (IH (slot :: ss) (e :: leaders)) as (m & leaders' & Hm & Hst''); [done|].
  exists (n + m)%nat, leaders'. split.
  - intros fuel Hf. rewrite Hn by lia. cbn [mbind M_bind]. rewrite Hm by lia. do 2 f_equal.
    apply bool_decide_ext. rewrite list.elem_of_cons. naive_solver.
  - rewrite reverse_cons, <- app_assoc. done.
Qed.

Lemma rounds_loop_spec d last cs ss leaders rounds :
  view c G d → Forall (round_ok d) rounds → Forall elects cs → statuses d ss leaders.*1 →
  ∃ n leaders', (∀ fuel, (n ≤ fuel)%nat →
      rounds_loop fuel d last cs leaders rounds = Ret leaders') ∧
    statuses d (reverse (until last (rounds ≫= elected_at (reverse cs))) ++ ss) leaders'.*1.
Proof using Hw.
  intros Hv Hr Hcs. revert ss leaders. induction Hr as [|round rounds Hr Hrs IH]; intros ss leaders Hst.
  { by exists O, leaders. }
  cbn [rounds_loop mbind list_bind].
  destruct (committers_loop_spec d last round ss leaders (reverse cs)) as (n & leaders' & Hn & Hst');
    [done..|by rewrite reverse_Permutation|done|].
  case_bool_decide as Hlast.
  - exists n, leaders'. split; [|by rewrite until_app_in].
    intros fuel Hf. by rewrite Hn by done.
  - destruct (IH _ leaders' Hst') as (m & leaders'' & Hm & Hst'').
    exists (n + m)%nat, leaders''. split.
    + intros fuel Hf. rewrite Hn by lia. cbn [mbind M_bind]. by rewrite Hm by lia.
    + rewrite until_app_notin, reverse_app, <- app_assoc by done.
      by rewrite (until_notin _ (elected_at (reverse cs) round)) in Hst'' by done.
Qed.

(** ** Agreement *)

(** The statuses at the same position agree where both are decided. *)
Fixpoint agree (sts1 sts2 : list LeaderStatus) : Prop :=
  match sts1, sts2 with
  | x1 :: sts1, x2 :: sts2 =>
      (LeaderStatus_is_decided x1 = true → LeaderStatus_is_decided x2 = true → x1 = x2) ∧
      agree sts1 sts2
  | _, _ => True
  end.

(** Lists of statuses for the same slots, as far as both go. *)
Fixpoint same_slots (sts1 sts2 : list LeaderStatus) : Prop :=
  match sts1, sts2 with
  | x1 :: sts1, x2 :: sts2 => status_slot x1 = status_slot x2 ∧ same_slots sts1 sts2
  | _, _ => True
  end.

Lemma anchor_of_agree first sts1 sts2 a1 a2 :
  same_slots sts1 sts2 → agree sts1 sts2 →
  anchor_of first sts1 = Some a1 → anchor_of first sts2 = Some a2 → a1 = a2.
Proof.
  revert sts2. induction sts1 as [|x1 sts1 IH]; intros [|x2 sts2]; [done..|].
  cbn [same_slots agree anchor_of]. intros [Hslot Hss] [Hx Hag].
  rewrite !status_slot_round, Hslot. destruct (_ <=? _); [|by apply IH].
  destruct x1, x2; simpl in *; try done; try (specialize (Hx eq_refl eq_refl); simplify_eq); [congruence|].
  by apply IH.
Qed.

Lemma slot_outcome_undecided d slot sts st :
  slot_outcome d slot sts st → LeaderStatus_is_decided st = true →
  (direct_outcome c G d slot st ∨
   ∃ anchor, anchor_of (slot_round slot + 3) sts = Some anchor ∧ anchor_outcome c G anchor slot st).
Proof.
  intros [[Ho _]|[_ Ho]] Hdec; [by left|right].
  destruct (anchor_of _ sts) as [a|]; [by eauto|by subst st].
Qed.

Lemma anchor_in_dag d ss sts slot anchor :
  view c G d → statuses d ss sts → anchor_of (slot_round slot + 3) sts = Some anchor →
  G (reference anchor) = Some anchor ∧ slot_round slot + 3 ≤ br_round (reference anchor).
Proof.
  intros Hv Hst [Hin Hle]%anchor_of_Some. split; [|done].
  apply (vo_sub c G d Hv). apply (statuses_in_view d ss sts (LCommit anchor) Hst Hin).
Qed.

Lemma head_agree d1 d2 slot ss1 ss2 sts1 sts2 st1 st2 :
  view c G d1 → view c G d2 → statuses d1 ss1 sts1 → statuses d2 ss2 sts2 →
  same_slots sts1 sts2 → agree sts1 sts2 →
  slot_outcome d1 slot sts1 st1 → slot_outcome d2 slot sts2 st2 →
  LeaderStatus_is_decided st1 = true → LeaderStatus_is_decided st2 = true → st1 = st2.
Proof using Hw.
  intros Hv1 Hv2 Hst1 Hst2 Hss Hag Ho1 Ho2 Hd1 Hd2. destruct Hw as [Hwf Hdag Hbyz].
  apply slot_outcome_undecided in Ho1 as [Ho1|(a1 & Ha1 & Ho1)]; [| |done];
    apply slot_outcome_undecided in Ho2 as [Ho2|(a2 & Ha2 & Ho2)]; try done.
  - by apply (direct_direct_agree c G Hwf Hdag byz Hbyz d1 d2 slot).
  - destruct (anchor_in_dag d2 ss2 sts2 slot a2) as [? ?]; [done..|].
    by apply (direct_anchor_agree c G Hwf Hdag byz Hbyz d1 slot st1 (reference a2) a2).
  - destruct (anchor_in_dag d1 ss1 sts1 slot a1) as [? ?]; [done..|]. symmetry.
    by apply (direct_anchor_agree c G Hwf Hdag byz Hbyz d2 slot st2 (reference a1) a1).
  - assert (a1 = a2) as -> by (by apply (anchor_of_agree (slot_round slot + 3) sts1 sts2)).
    by apply (anchor_outcome_det c G Hwf Hdag byz Hbyz a2 slot).
Qed.

Lemma statuses_agree d1 d2 ss1 ss2 sts1 sts2 :
  view c G d1 → view c G d2 → statuses d1 ss1 sts1 → statuses d2 ss2 sts2 → ss1 `prefix_of` ss2 →
  same_slots sts1 sts2 ∧ agree sts1 sts2.
Proof using Hw.
  intros Hv1 Hv2 Hst1. revert ss2 sts2. induction Hst1 as [|slot ss1 st1 sts1 Hst1 IH Ho1 _];
    intros ss2 sts2 Hst2 Hpre; [done|].
  destruct Hst2 as [|slot2 ss2 st2 sts2 Hst2 Ho2 _]; [by apply prefix_nil_not in Hpre|].
  apply prefix_cons_inv_1 in Hpre as Heq. subst slot2. apply prefix_cons_inv_2 in Hpre.
  destruct (IH ss2 sts2 Hst2 Hpre) as [Hss Hag]. cbn [same_slots agree]. split_and!; [|done| |done].
  - by rewrite (slot_outcome_slot d1 slot sts1 st1), (slot_outcome_slot d2 slot sts2 st2).
  - by apply (head_agree d1 d2 slot ss1 ss2 sts1 sts2).
Qed.

(** ** The decided prefix *)

Fixpoint take_decided (sts : list LeaderStatus) : list LeaderStatus :=
  match sts with
  | [] => []
  | x :: sts => if LeaderStatus_is_decided x then x :: take_decided sts else []
  end.

Lemma take_decided_agree sts1 sts2 :
  agree sts1 sts2 →
  take_decided sts1 `prefix_of` take_decided sts2 ∨ take_decided sts2 `prefix_of` take_decided sts1.
Proof.
  revert sts2. induction sts1 as [|x1 sts1 IH]; intros [|x2 sts2]; cbn [agree take_decided];
    [intros _; eauto using prefix_nil..|]. intros [Hx Hag].
  destruct (LeaderStatus_is_decided x1), (LeaderStatus_is_decided x2);
    try (eauto using prefix_nil; fail).
  rewrite Hx by done. destruct (IH sts2 Hag); [left|right]; by apply prefix_cons.
Qed.

(** The status behind a decided leader. *)
Definition decided_status (l : DecidedLeader) : LeaderStatus :=
  match l with DCommit b _ => LCommit b | DSkip slot => LSkip slot end.

Lemma decided_prefix_spec ctx (leaders : list (LeaderStatus * Decision)) :
  ctx_committee ctx = c →
  (∀ st, st ∈ leaders.*1 → 0 < LeaderStatus_round st ∧ slot_authority (status_slot st) ∈ members c) →
  ∃ l, decided_prefix ctx leaders = Ret l ∧ decided_status <$> l = take_decided leaders.*1.
Proof.
  intros Hctx. induction leaders as [|[st dec] leaders IH]; intros Hall; csimpl; [by exists []|].
  destruct (Hall st) as [Hr Hm]; [left|]. unfold GENESIS_ROUND.
  destruct (N.eqb_spec (LeaderStatus_round st) 0); [lia|].
  destruct IH as (l & Hl & Heq); [intros; apply Hall; by right|].
  assert (∀ dl, DecidedLeader_slot dl = status_slot st →
                UniversalCommitter_update_metrics ctx dl = Ret tt) as Hum.
  { intros dl Hdl. unfold UniversalCommitter_update_metrics, Committee_authority, index.
    rewrite Hdl, Hctx. apply members_spec in Hm. unfold Committee_is_valid_index, Committee_size in Hm.
    nbool. destruct (lookup_lt_is_Some_2 (Committee_authorities c)
                       (N.to_nat (slot_authority (status_slot st)))) as [a ->]; [lia|done]. }
  destruct st as [b|slot|slot]; simpl in *; [| |by exists []].
  - rewrite Hum by done. cbn [mbind M_bind]. rewrite Hl. eexists. split; [done|]. csimpl. by rewrite Heq.
  - rewrite Hum by done. cbn [mbind M_bind]. rewrite Hl. eexists. split; [done|]. csimpl. by rewrite Heq.
Qed.

End Statuses.

(** A leader schedule with a swap table that can replace its bad nodes lets a
    committer elect. *)
Lemma schedule_elects `{Profile} `{RngLaws} c bc thr rs :
  Committee_wf c → (∀ i, i ∈ members c → 0 < stake_at c i) →
  runs_rule c bc → bo_round_offset (bc_options bc) < 2 ^ 32 → bo_leader_offset (bc_options bc) = 0 →
  ctx_committee (ls_context (bc_leader_schedule bc)) = c →
  table_sound c thr rs (ls_leader_swap_table (bc_leader_schedule bc)) →
  bad_nodes (ls_leader_swap_table (bc_leader_schedule bc)) = ∅ ∨
  good_nodes (ls_leader_swap_table (bc_leader_schedule bc)) ≠ [] →
  elects c bc.
Proof.
  intros Hwf Hpos Hrule Hro Hlo Hctx Hts Hgood.
  assert (∀ round, ∃ i, LeaderSchedule_elect_leader (bc_leader_schedule bc) round 0 = Ret i ∧
                        i ∈ members c) as Hel.
  { intros round. subst c.
    destruct (elect_leader_spec (bc_leader_schedule bc) thr rs round) as (_ & i & _ & Hi & Hm & _);
      [done..|]. by exists i. }
  assert (∀ round, round < 2 ^ 32 →
    ∃ o, BaseCommitter_elect_leader bc round = Ret o) as Hret.
  { intros round Hr. unfold BaseCommitter_elect_leader, BaseCommitter_wave_number,
      BaseCommitter_leader_round. destruct Hrule as [_ ->]. unfold MINIMUM_WAVE_LENGTH.
    change (3 =? 0) with false. cbn [mbind M_bind].
    arith. arith.
    destruct (negb _); [by eauto|]. rewrite Hlo. destruct (Hel round) as (i & -> & _). by eexists. }
  split; [done..| |].
  - intros round Hr. unfold elected. destruct (Hret round) as [o ->]; [lia|done].
  - intros round slot. unfold elected, BaseCommitter_elect_leader.
    destruct (BaseCommitter_wave_number bc round); [|done..]. cbn [mbind M_bind].
    destruct (BaseCommitter_leader_round bc a); [|done..]. cbn [mbind M_bind].
    destruct (negb _); [done|]. rewrite Hlo. destruct (Hel round) as (i & -> & Hm).
    cbn [mbind M_bind]. by intros [= <-].
Qed.

(** ** The guarantees of [try_decide] *)

Section SequenceGuarantees.
Context `{Profile} `{Rng} {D : Type} `{DagReaderLaws D}.
Implicit Types d : D.

(** The first round above the last decided slot that [try_decide] considers. *)
Definition next_round (uc : UniversalCommitter) (last : Slot) : Round :=
  if bool_decide (pc_num_leaders_per_round (ctx_protocol_config (uc_context uc)) = Some 1)
  then slot_round last + 1 else slot_round last.

(** The slots that [try_decide] considers. *)
Definition slots_of (uc : UniversalCommitter) d (last : Slot) : list Slot :=
  slots_between (uc_committers uc) last (next_round uc last) (dr_highest_accepted_round d - 2).

(** The committer of an authority with the view [d], after [last] was decided. *)
Record ready (c : Committee) (uc : UniversalCommitter) d (last : Slot) : Prop := {
  rd_context : ctx_committee (uc_context uc) = c;
  rd_committers : Forall (elects c) (uc_committers uc);
  rd_gc : dr_gc_round d < next_round uc last;
  rd_last_commit : dr_last_commit_round d ≤ next_round uc last;
  rd_last : slot_round last < u32_max;
  rd_max : dr_highest_accepted_round d + 1 < u32_max;
}.

Lemma ready_rounds c uc d last :
  ready c uc d last →
  Forall (round_ok d) (reverse (rounds_between (next_round uc last) (dr_highest_accepted_round d - 2))).
Proof.
  intros []. apply Forall_forall. intros r. rewrite elem_of_reverse, rounds_between_elem.
  intros [??]. split; lia.
Qed.

Lemma slots_of_elem c uc d last slot :
  ready c uc d last → slot ∈ slots_of uc d last →
  0 < slot_round slot ∧ slot_authority slot ∈ members c.
Proof.
  intros Hrd. unfold slots_of, slots_between. rewrite elem_of_reverse.
  intros Hin%until_subseteq. apply list_elem_of_bind in Hin as (round & Hin & Hround).
  pose proof (ready_rounds c uc d last Hrd) as Hall. rewrite Forall_forall in Hall.
  destruct (Hall round Hround) as [Hgc _ Hmax].
  apply elected_at_elem in Hin as (bc & Hbc & Hel).
  rewrite elem_of_reverse in Hbc.
  pose proof (rd_committers c uc d last Hrd) as Hcs. rewrite Forall_forall in Hcs.
  specialize (Hcs bc Hbc). split; [|by eapply el_member].
  destruct (elected_Some bc round slot Hel (proj2 (el_rule c bc Hcs)) (el_offset c bc Hcs)) as [-> _]; lia.
Qed.

Lemma try_decide_spec c G byz uc d last :
  world c G byz → view c G d → ready c uc d last →
  ∃ n l sts, (∀ fuel, (n ≤ fuel)%nat → UniversalCommitter_try_decide fuel uc d last = Ret l) ∧
    statuses c G d (slots_of uc d last) sts ∧ decided_status <$> l = take_decided sts.
Proof.
  intros Hw Hv Hrd. unfold UniversalCommitter_try_decide.
  destruct (rounds_loop_spec c G byz Hw d last (uc_committers uc) [] []
    (reverse (rounds_between (next_round uc last) (dr_highest_accepted_round d - 2))))
    as (n & leaders & Hn & Hst); [done|by eapply ready_rounds|by eapply rd_committers|constructor|].
  rewrite app_nil_r in Hst. change (statuses c G d (slots_of uc d last) leaders.*1) in Hst.
  destruct (decided_prefix_spec c (uc_context uc) leaders) as (l & Hl & Heq); [by eapply rd_context| |].
  { intros st Hin. rewrite status_slot_round. apply (slots_of_elem c uc d last); [done|].
    rewrite <- (statuses_slots _ _ _ _ _ Hst). by apply list_elem_of_fmap_2. }
  exists n, l, leaders.*1. split; [|done]. intros fuel Hf.
  assert ((if bool_decide (pc_num_leaders_per_round (ctx_protocol_config (uc_context uc)) = Some 1)
           then u32_add (slot_round last) 1 else Ret (slot_round last)) = Ret (next_round uc last)) as ->.
  { unfold next_round. case_bool_decide; [|done]. apply int_add_exact.
    pose proof (rd_last c uc d last Hrd). lia. }
  cbn [mbind M_bind]. rewrite Hn by done. exact Hl.
Qed.

(** Committers that elect the same leaders. *)
Definition same_schedule (uc1 uc2 : UniversalCommitter) : Prop :=
  pc_num_leaders_per_round (ctx_protocol_config (uc_context uc1)) =
    pc_num_leaders_per_round (ctx_protocol_config (uc_context uc2)) ∧
  Forall2 (λ bc1 bc2, ∀ round, elected bc1 round = elected bc2 round)
    (uc_committers uc1) (uc_committers uc2).

Lemma same_elected cs1 cs2 round :
  Forall2 (λ bc1 bc2, ∀ round, elected bc1 round = elected bc2 round) cs1 cs2 →
  elected_at cs1 round = elected_at cs2 round.
Proof.
  unfold elected_at. induction 1 as [|bc1 bc2 cs1 cs2 Hel _ IH]; csimpl; [done|]. by rewrite Hel, IH.
Qed.

Lemma slots_between_same cs1 cs2 last lo hi :
  Forall2 (λ bc1 bc2, ∀ round, elected bc1 round = elected bc2 round) cs1 cs2 →
  slots_between cs1 last lo hi = slots_between cs2 last lo hi.
Proof.
  intros Hcs. unfold slots_between. do 2 f_equal. apply list_bind_ext; [|done].
  intros round. apply same_elected. by apply Forall2_reverse.
Qed.

(** A higher round to decide adds slots at the end. *)
Lemma slots_between_prefix c cs last lo hi1 hi2 :
  Forall (elects c) cs → slot_round last ≤ lo → hi1 ≤ hi2 → hi2 < 2 ^ 32 →
  slots_between cs last lo hi1 `prefix_of` slots_between cs last lo hi2.
Proof.
  intros Hcs Hlast Hhi Hmax. unfold slots_between. destruct (N.le_gt_cases lo hi1) as [Hle|Hgt].
  2: { unfold rounds_between at 1. destruct (N.leb_spec lo hi1); [lia|]. apply prefix_nil. }
  rewrite (rounds_between_app lo hi1 hi2), reverse_app, bind_app by done.
  rewrite until_app_notin, reverse_app; [by apply prefix_app_r|].
  intros (round & Hin & Hround)%list_elem_of_bind.
  rewrite elem_of_reverse, rounds_between_elem in Hround.
  apply elected_at_elem in Hin as (bc & Hbc & Hel).
  rewrite elem_of_reverse in Hbc.
  rewrite Forall_forall in Hcs. specialize (Hcs bc Hbc).
  destruct (elected_Some bc round last Hel (proj2 (el_rule c bc Hcs)) (el_offset c bc Hcs)) as [Hr _]; lia.
Qed.

Lemma next_round_last uc last : slot_round last ≤ next_round uc last.
Proof. unfold next_round. case_bool_decide; lia. Qed.

Lemma slots_of_prefix c uc1 uc2 d1 d2 last :
  same_schedule uc1 uc2 → ready c uc1 d1 last → ready c uc2 d2 last →
  dr_highest_accepted_round d1 ≤ dr_highest_accepted_round d2 →
  slots_of uc1 d1 last `prefix_of` slots_of uc2 d2 last.
Proof.
  intros [Hnum Hcs] Hr1 Hr2 Hle. unfold slots_of.
  rewrite (slots_between_same _ _ _ _ _ Hcs).
  assert (next_round uc1 last = next_round uc2 last) as -> by (unfold next_round; by rewrite Hnum).
  apply (slots_between_prefix c); [by eapply rd_committers|apply next_round_last|lia|].
  pose proof (rd_max c uc2 d2 last Hr2). lia.
Qed.

(** C1: all authorities commit the same sequence.  From the same last decided
    slot, [try_decide] returns on the view of any two authorities, and one of
    the two sequences of decided leaders, each a committed block or a skipped
    slot, is a prefix of the other. *)
Theorem UniversalCommitter_try_decide_agree c G byz uc1 uc2 d1 d2 last :
  world c G byz → same_schedule uc1 uc2 → view c G d1 → view c G d2 →
  ready c uc1 d1 last → ready c uc2 d2 last →
  ∃ n l1 l2, (∀ fuel, (n ≤ fuel)%nat →
      UniversalCommitter_try_decide fuel uc1 d1 last = Ret l1 ∧
      UniversalCommitter_try_decide fuel uc2 d2 last = Ret l2) ∧
    (decided_status <$> l1 `prefix_of` decided_status <$> l2 ∨
     decided_status <$> l2 `prefix_of` decided_status <$> l1).
Proof.
  intros Hw Hsame Hv1 Hv2 Hr1 Hr2.
  destruct (try_decide_spec c G byz uc1 d1 last Hw Hv1 Hr1) as (n1 & l1 & sts1 & Hn1 & Hst1 & Heq1).
  destruct (try_decide_spec c G byz uc2 d2 last Hw Hv2 Hr2) as (n2 & l2 & sts2 & Hn2 & Hst2 & Heq2).
  exists (n1 + n2)%nat, l1, l2. split; [intros fuel Hf; rewrite Hn1, Hn2 by lia; done|].
  rewrite Heq1, Heq2.
  destruct (N.le_ge_cases (dr_highest_accepted_round d1) (dr_highest_accepted_round d2)) as [Hle|Hle].
  - apply take_decided_agree, (statuses_agree c G byz Hw d1 d2 _ _ _ _ Hv1 Hv2 Hst1 Hst2).
    by eapply slots_of_prefix.
  - apply or_comm, take_decided_agree, (statuses_agree c G byz Hw d2 d1 _ _ _ _ Hv2 Hv1 Hst2 Hst1).
    eapply slots_of_prefix; [|done..]. destruct Hsame as [Hnum Hcs]. split; [done|].
    apply Forall2_flip. eapply Forall2_impl; [exact Hcs|]. intros ?? Hel round. by rewrite Hel.
Qed.

(** C26: the decided leaders are those of the first slots above the last decided
    one, in the order of rounds and committers and without gaps. *)
Theorem UniversalCommitter_try_decide_in_order c G byz uc d last :
  world c G byz → view c G d → ready c uc d last →
  ∃ n l, (∀ fuel, (n ≤ fuel)%nat → UniversalCommitter_try_decide fuel uc d last = Ret l) ∧
    DecidedLeader_slot <$> l `prefix_of` slots_of uc d last.
Proof.
  intros Hw Hv Hr.
  destruct (try_decide_spec c G byz uc d last Hw Hv Hr) as (n & l & sts & Hn & Hst & Heq).
  exists n, l. split; [done|]. rewrite <- (statuses_slots _ _ _ _ _ Hst).
  assert (DecidedLeader_slot <$> l = status_slot <$> take_decided sts) as ->.
  { rewrite <- Heq, <- list_fmap_compose. apply list_fmap_ext. by intros _ [] _. }
  clear. induction sts as [|st sts IH]; csimpl; [done|].
  destruct (LeaderStatus_is_decided st); [by apply prefix_cons|apply prefix_nil].
Qed.

End SequenceGuarantees.
