(* ===== verification/CommitSamples.v ===== *)
(** * A concrete DAG for the commit rule

    Four authorities of equal stake, the fourth of which equivocates, build a
    DAG of four rounds; one authority has accepted the first three rounds and
    another all four.  The guarantees of the committers are instantiated here. *)

From S2P Require Import Prelude BTree Config Block Commit Store StakeAggregator ThresholdClock.
From S2P Require Import LeaderScoring DagState DagTheory DagRecovery DagTraversal LeaderSchedule.
From S2P Require Import BaseCommitter CommitRule CommitterTheory UniversalCommitter CommitSequence.
Local Open Scope N_scope.

#[local] Existing Instances DagRecovery.witness_profile DagRecovery.witness_crypto.
#[local] Existing Instances LeaderSchedule.witness_rng LeaderSchedule.witness_rng_laws.

(** ** The blocks *)

Definition dag_ref (round : Round) (author : AuthorityIndex) : BlockRef :=
  if round =? 0 then sample_ref 0 author else mkBlockRef round author (100 * round + author).

Definition dag_block (round : Round) (author : AuthorityIndex) : VerifiedBlock :=
  sample_block round author (100 * round + author)
    (dag_ref (round - 1) <$> (author :: filter (λ i, i ≠ author) [0; 1; 2; 3])).

(** A second block of authority 3 in round 2. *)
Definition twin_block : VerifiedBlock :=
  sample_block 2 3 999 (dag_ref 1 <$> [3; 0; 1]).

Definition round_blocks (round : Round) : list VerifiedBlock := dag_block round <$> [0; 1; 2; 3].

Definition early_ops : list DagOp :=
  OpAccept <$> (round_blocks 1 ++ round_blocks 2 ++ [twin_block] ++ round_blocks 3).
Definition late_ops : list DagOp := OpAccept <$> round_blocks 4.

(** ** Checking a world by evaluation *)

Definition blocks_of (s : DagState MemStore) : gmap BlockRef VerifiedBlock :=
  (bi_block <$> ds_recent_blocks s) ∪ ds_genesis s.

Lemma blocks_of_spec s r :
  ds_ok s → ms_blocks (ds_store s) = ∅ → ds_block s r = blocks_of s !! r.
Proof.
  intros Hok Hst. rewrite ds_block_cached. unfold blocks_of, ds_cached.
  rewrite lookup_union, lookup_fmap. unfold GENESIS_ROUND.
  assert (st_block (ds_store s) r = None) as Hnone.
  { change (ms_blocks (ds_store s) !! block_key r = None). by rewrite Hst. }
  rewrite Hnone. destruct (N.eqb_spec (br_round r) 0) as [Hz|Hnz].
  - destruct (ds_recent_blocks s !! r) as [info|] eqn:Hi; simpl; [|by destruct (ds_genesis s !! r)].
    destruct (ok_cached s Hok r (bi_block info)) as (_ & ? & _); [|lia].
    unfold ds_cached. by rewrite Hi.
  - destruct (ds_recent_blocks s !! r) as [info|] eqn:Hi; simpl; [by destruct (ds_genesis s !! r)|].
    destruct (ds_genesis s !! r) as [b|] eqn:Hg; [|done].
    destruct (ok_genesis s Hok r b Hg) as [_ ?]. unfold GENESIS_ROUND in *. lia.
Qed.

#[local] Instance is_quorum_dec c Q : base.Decision (is_quorum c Q).
Proof. unfold is_quorum. apply _. Defined.

Definition valid_map (c : Committee) (W : gmap BlockRef VerifiedBlock) : Prop :=
  map_Forall (λ r b, reference b = r ∧ br_author r ∈ members c ∧
    Forall (λ a, br_round a < br_round r ∧ is_Some (W !! a)) (b_ancestors b) ∧
    (0 < br_round r → is_quorum c (parents b))) W.

Lemma valid_map_dag c W : valid_map c W → dag_valid c (λ r, W !! r).
Proof.
  intros Hv. split; intros r b; [| |intros a|]; intros Hb; destruct (Hv r b Hb) as (? & ? & Hanc & ?);
    [done..| |done].
  rewrite Forall_forall in Hanc. apply Hanc.
Qed.

Definition extends (i : AuthorityIndex) (r1 : BlockRef) (b2 : VerifiedBlock) : Prop :=
  match b_ancestors b2 with
  | a :: _ => br_author a = i ∧ br_round r1 ≤ br_round a
  | [] => False
  end.
#[local] Instance extends_dec i r1 b2 : base.Decision (extends i r1 b2).
Proof. unfold extends. destruct (b_ancestors b2); apply _. Defined.

Definition honest_map (W : gmap BlockRef VerifiedBlock) (i : AuthorityIndex) : Prop :=
  map_Forall (λ r1 _, map_Forall (λ r2 b2, br_author r1 = i → br_author r2 = i →
    br_round r1 ≤ br_round r2 → r1 = r2 ∨ (br_round r1 < br_round r2 ∧ extends i r1 b2)) W) W.

Lemma honest_map_dag W i : honest_map W i → honest (λ r, W !! r) i.
Proof.
  intros Hh r1 b1 r2 b2 Hb1 Hb2 Ha1 Ha2 Hle.
  destruct (Hh r1 b1 Hb1 r2 b2 Hb2 Ha1 Ha2 Hle) as [?|[? Hext]]; [by left|right]. split; [done|].
  unfold extends in Hext. destruct (b_ancestors b2) as [|a rest]; [done|]. exists a, rest. by split.
Qed.

Definition closed_map (W : gmap BlockRef VerifiedBlock) : Prop :=
  map_Forall (λ _ b, Forall (λ a, is_Some (W !! a)) (b_ancestors (vb_block b))) W.

(** No round has more stake than all blocks together. *)
Lemma stake_bounded c (W : gmap BlockRef VerifiedBlock) P l :
  Committee_wf c → N.of_nat (size W) * Committee_total_stake c < 2 ^ 64 →
  lists_blocks (λ r, W !! r) P l →
  sumN ((λ b : VerifiedBlock, stake_at c (b_author b)) <$> l) < 2 ^ 64.
Proof.
  intros Hwf Hsz [Hs Hl].
  assert (∀ i, stake_at c i ≤ Committee_total_stake c) as Hst.
  { intros i. destruct (decide (i ∈ members c)) as [Hi|Hi].
    - pose proof (set_stake_le_total c {[i]} Hwf ltac:(set_solver)) as Hle.
      unfold set_stake in Hle. by rewrite weight_singleton in Hle.
    - unfold stake_at. rewrite members_spec in Hi. unfold Committee_is_valid_index, Committee_size in Hi.
      rewrite lookup_ge_None_2; [simpl; lia|]. apply not_true_is_false, N.ltb_ge in Hi. lia. }
  assert (sumN ((λ b : VerifiedBlock, stake_at c (b_author b)) <$> l) ≤
          N.of_nat (length l) * Committee_total_stake c) as Hsum.
  { clear -Hst. induction l as [|b l IH]; csimpl; [lia|]. specialize (Hst (b_author b)). lia. }
  assert (length l ≤ size W)%nat as Hlen.
  { rewrite <- size_dom, <- (length_fmap reference l).
    rewrite <- (size_list_to_set (C := gset BlockRef)).
    - apply subseteq_size. intros r. rewrite elem_of_list_to_set, list_elem_of_fmap.
      intros (b & -> & [Hb _]%Hl). by apply elem_of_dom_2 in Hb.
    - clear Hl Hsum. induction Hs as [|b l Hs IH Hb]; csimpl; constructor; [|done].
      intros (b' & Heq & Hin)%list_elem_of_fmap. rewrite Forall_forall in Hb.
      specialize (Hb b' Hin). by rewrite lt_ord_alt, Heq, le_ord_refl in Hb. }
  nia.
Qed.

(** ** The two authorities *)

Definition sample_committer (round_offset : N) : BaseCommitter :=
  mkBaseCommitter sample_context (sample_schedule LeaderSwapTable_default)
    (mkBaseCommitterOptions DEFAULT_WAVE_LENGTH 0 round_offset).

Definition sample_universal : UniversalCommitter :=
  UniversalCommitterBuilder_build (UniversalCommitterBuilder_with_pipeline true
    (UniversalCommitterBuilder_with_number_of_leaders 1
       (UniversalCommitterBuilder_new sample_context (sample_schedule LeaderSwapTable_default)))).

Definition sample_views : M (DagState MemStore * DagState MemStore) :=
  s0 ← DagState_new sample_context MemStore_new;
  s1 ← foldM run_op s0 early_ops;
  s2 ← foldM run_op s1 late_ops;
  Ret (s1, s2).

(** What evaluation shows of one state. *)
Definition state_check (s : DagState MemStore) : Prop :=
  ms_blocks (ds_store s) = ∅ ∧ closed_map (blocks_of s) ∧
  N.of_nat (size (blocks_of s)) * 10000 < 2 ^ 64 ∧
  DagState_gc_round s = 0 ∧ DagState_last_commit_round s = 0.

(** The block of the first leader, and what later blocks make of it. *)
Definition leader_check (p : DagState MemStore * DagState MemStore) : Prop :=
  is_Some (blocks_of p.2 !! dag_ref 4 0) ∧
  outcome_sat (BaseCommitter_try_direct_decide (sample_committer 1) p.1 (mkSlot 1 0))
    LeaderStatus_is_decided = true ∧
  is_Some (blocks_of p.2 !! dag_ref 3 1) ∧
  match blocks_of p.2 !! dag_ref 2 1 with
  | Some b => outcome_sat (BaseCommitter_find_supported_block p.2 (mkSlot 1 0) b)
                (λ o, bool_decide (o = Some (dag_ref 1 0)))
  | None => false
  end = true.

Definition sample_check (p : DagState MemStore * DagState MemStore) : Prop :=
  state_check p.1 ∧ state_check p.2 ∧
  ds_highest_accepted_round p.1 = 3 ∧ ds_highest_accepted_round p.2 = 4 ∧
  valid_map sample_committee (blocks_of p.2) ∧
  Forall (honest_map (blocks_of p.2)) [0; 1; 2] ∧ leader_check p.

#[local] Instance state_check_dec s : base.Decision (state_check s).
Proof. unfold state_check, closed_map. apply _. Defined.
#[local] Instance sample_check_dec p : base.Decision (sample_check p).
Proof. unfold sample_check, valid_map, honest_map, leader_check. apply _. Defined.

Lemma sample_views_check : outcome_sat sample_views (λ p, bool_decide (sample_check p)) = true.
Proof. vm_compute. reflexivity. Qed.

Lemma spec_run_grows ops f r b : f r = Some b → foldl spec_step f ops r = Some b.
Proof.
  revert f. induction ops as [|op ops IH]; intros f Hf; simpl; [done|]. apply IH.
  unfold spec_step. destruct op; [|done..]. rewrite decide_False; [done|]. intros [_ ?]. congruence.
Qed.

(** A run that accepts distinct new blocks has them. *)
Lemma spec_run_accepts bs f b :
  NoDup (reference <$> bs) → b ∈ bs → f (reference b) = None →
  foldl spec_step f (OpAccept <$> bs) (reference b) = Some b.
Proof.
  revert f. induction bs as [|b' bs IH]; intros f Hnd Hin Hf; [by apply not_elem_of_nil in Hin|].
  csimpl in *. apply NoDup_cons in Hnd as [Hnew Hnd].
  apply list.elem_of_cons in Hin as [<-|Hin].
  - apply spec_run_grows. simpl. by rewrite decide_True.
  - apply IH; [done..|]. simpl. rewrite decide_False; [done|]. intros [Heq _]. apply Hnew.
    rewrite <- Heq. by apply list_elem_of_fmap_2.
Qed.

Lemma state_view c G s :
  Committee_wf c → Committee_total_stake c = 10000 → ds_ok s → state_check s →
  (∀ r b, ds_block s r = Some b → G r = Some b) → view c G s.
Proof.
  intros Hwf Htot Hok (Hst & Hcl & Hsz & Hgc & _) Hsub.
  pose proof (blocks_of_spec s) as Heq. split; [done|done| |].
  - intros r b a Hb Ha _. change (is_Some (ds_block s a)). change (ds_block s r = Some b) in Hb.
    rewrite Heq in Hb |- * by done. specialize (Hcl r b Hb). rewrite Forall_forall in Hcl. by apply Hcl.
  - intros round l [Hs Hl]. apply (stake_bounded c (blocks_of s) (λ r, br_round r = round)); [done|by rewrite Htot|].
    split; [exact Hs|]. intros b. rewrite Hl. change (dr_block s (reference b)) with (ds_block s (reference b)).
    by rewrite Heq.
Qed.

(** The world, the views of the two authorities and their committers. *)
Lemma sample_world :
  ∃ (G : BlockRef → option VerifiedBlock) (s1 s2 : DagState MemStore),
    sample_views = Ret (s1, s2) ∧ world sample_committee G {[3]} ∧
    view sample_committee G s1 ∧ view sample_committee G s2 ∧
    state_check s1 ∧ state_check s2 ∧
    ds_highest_accepted_round s1 = 3 ∧ ds_highest_accepted_round s2 = 4 ∧
    (∀ r, ds_block s2 r = blocks_of s2 !! r) ∧ leader_check (s1, s2).
Proof.
  destruct (outcome_sat_spec _ _ sample_views_check) as ([s1 s2] & Hrun & Hcheck%bool_decide_eq_true).
  destruct Hcheck as (Hc1 & Hc2 & Hh1 & Hh2 & Hvalid & Hhonest & Hlead).
  unfold sample_views in Hrun. apply bind_Ret in Hrun as (s0 & Hn & Hrun).
  apply bind_Ret in Hrun as (s1' & Hr1 & Hrun). apply bind_Ret in Hrun as (s2' & Hr2 & [= -> ->]).
  destruct sample_dag as (s0' & Hn' & Hok0 & Hctx0 & _). rewrite Hn in Hn'. injection Hn' as <-.
  destruct (run_ops_spec early_ops s0 s1 Hok0) as (Hok1 & Hctx1 & Hb1); [|done|].
  { apply static_ops_valid; [done|]. unfold DagState_committee. rewrite Hctx0.
    repeat (constructor; [split; by_eval|]). constructor. }
  destruct (run_ops_spec late_ops s1 s2 Hok1) as (Hok2 & Hctx2 & Hb2); [|done|].
  { apply static_ops_valid; [done|]. unfold DagState_committee. rewrite Hctx1, Hctx0.
    repeat (constructor; [split; by_eval|]). constructor. }
  assert (∀ r, ds_block s2 r = blocks_of s2 !! r) as Heq.
  { intros r. apply blocks_of_spec; [done|]. by destruct Hc2. }
  exists (λ r, blocks_of s2 !! r), s1, s2. split; [|split_and!; try done].
  - unfold sample_views. rewrite Hn. cbn [mbind M_bind]. rewrite Hr1. cbn [mbind M_bind]. by rewrite Hr2.
  - split; [apply sample_committee_wf|by apply valid_map_dag|]. split; [by_eval|].
    intros i Hi Hne. apply honest_map_dag. rewrite Forall_forall in Hhonest. apply Hhonest.
    assert (i ∈ elements (members sample_committee)) as Hin by (by apply elem_of_elements).
    assert (Forall (λ i, i ≠ 3 → i ∈ [0; 1; 2]) (elements (members sample_committee))) as Hall by by_eval.
    rewrite Forall_forall in Hall. apply Hall; [exact Hin|].
    intros ->. apply Hne. by apply elem_of_singleton.
  - apply state_view; [apply sample_committee_wf|done..|]. intros r b Hb. rewrite <- Heq, Hb2.
    by apply spec_run_grows.
  - apply state_view; [apply sample_committee_wf|done..|]. intros r b Hb. by rewrite <- Heq.
Qed.

Lemma sample_rule round_offset : runs_rule sample_committee (sample_committer round_offset).
Proof. by split. Qed.

Lemma sample_elects round_offset :
  round_offset < 2 ^ 32 → elects sample_committee (sample_committer round_offset).
Proof.
  intros Hr. apply (schedule_elects _ _ 30 sample_scores).
  - apply sample_committee_wf.
  - change (set_Forall (λ i, 0 < stake_at sample_committee i) (members sample_committee)). by_eval.
  - apply sample_rule.
  - exact Hr.
  - reflexivity.
  - reflexivity.
  - split; simpl; rewrite ?dom_empty_L; try set_solver; [apply NoDup_nil_2|by_eval..].
  - by left.
Qed.

(** The first leader slot, and its committer. *)
Lemma sample_slot s :
  state_check s → decidable_slot (sample_committer 1) s (mkSlot 1 0).
Proof.
  intros (_ & _ & _ & Hgc & Hlc). split; simpl; rewrite ?Hgc, ?Hlc; [done..|reflexivity].
Qed.

Lemma sample_ready s :
  state_check s → ds_highest_accepted_round s ≤ 4 → ready sample_committee sample_universal s (mkSlot 0 0).
Proof.
  intros (_ & _ & _ & Hgc & Hlc) Hh. split; simpl; rewrite ?Hgc, ?Hlc; [done| |done|done|done|lia].
  repeat (constructor; [by apply (sample_elects _)|]). constructor.
Qed.

(** ** Instances of the guarantees *)

Lemma BaseCommitter_find_supported_block_inherited_witness :
  ∃ (s : DagState MemStore) b, ds_block s (dag_ref 3 1) = Some b ∧
    BaseCommitter_find_supported_block s (mkSlot 1 0) b = Ret (Some (dag_ref 1 0)).
Proof.
  destruct sample_world as (G & s1 & s2 & _ & Hw & _ & Hv & _ & Hc & _ & _ & Heq & Hlead).
  destruct Hlead as (_ & _ & [b2 Hb2] & Hsup). simpl in Hb2, Hsup.
  destruct (blocks_of s2 !! dag_ref 2 1) as [b1|] eqn:Hb1; [|discriminate].
  apply outcome_sat_spec in Hsup as (o & Ho & Heqo%bool_decide_eq_true). subst o.
  rewrite <- Heq in Hb1, Hb2.
  exists s2, b2. split; [exact Hb2|].
  exact (BaseCommitter_find_supported_block_inherited sample_committee G s2 (mkSlot 1 0) 1
    (dag_ref 2 1) b1 (dag_ref 3 1) b2 (dag_ref 1 0) (w_dag _ _ _ Hw) Hv
    ltac:(destruct Hc as (_ & _ & _ & Hgc & _); simpl; rewrite Hgc; by_eval)
    (proj2 (w_honest _ _ _ Hw) 1 ltac:(by_eval) ltac:(by_eval)) Hb1 Hb2 eq_refl eq_refl
    ltac:(by_eval) Ho).
Defined.

Lemma BaseCommitter_direct_decision_final_witness :
  ∃ (s1 s2 : DagState MemStore) st anchor n,
    BaseCommitter_try_direct_decide (sample_committer 1) s1 (mkSlot 1 0) = Ret st ∧
    ds_block s2 (dag_ref 4 0) = Some anchor ∧
    ∀ fuel, (n ≤ fuel)%nat →
      BaseCommitter_decide_leader_from_anchor fuel (sample_committer 1) s2 anchor (mkSlot 1 0) = Ret st.
Proof.
  destruct sample_world as (G & s1 & s2 & _ & Hw & Hv1 & Hv2 & Hc1 & Hc2 & _ & _ & Heq & Hlead).
  destruct Hlead as ([anchor Ha] & Hdir & _). simpl in Ha, Hdir. rewrite <- Heq in Ha.
  apply outcome_sat_spec in Hdir as (st & Hst & Hdec).
  destruct (BaseCommitter_direct_decision_final sample_committee G {[3]} (sample_committer 1)
    (sample_committer 1) s1 s2 (mkSlot 1 0) st Hw (sample_rule 1) (sample_rule 1) Hv1 Hv2
    (sample_slot s1 Hc1) (sample_slot s2 Hc2) Hst Hdec) as [_ Hanchor].
  destruct (Hanchor (dag_ref 4 0) anchor Ha ltac:(by_eval)) as (n & Hn).
  exists s1, s2, st, anchor, n. split; [exact Hst|]. split; [exact Ha|exact Hn].
Defined.

Lemma BaseCommitter_anchor_decision_shared_witness :
  ∃ (s : DagState MemStore) anchor n st, ∀ fuel, (n ≤ fuel)%nat →
    BaseCommitter_decide_leader_from_anchor fuel (sample_committer 1) s anchor (mkSlot 1 0) = Ret st.
Proof.
  destruct sample_world as (G & s1 & s2 & _ & Hw & _ & Hv & _ & Hc & _ & _ & Heq & Hlead).
  destruct Hlead as ([anchor Ha] & _). simpl in Ha. rewrite <- Heq in Ha.
  destruct (BaseCommitter_anchor_decision_shared sample_committee G {[3]} (sample_committer 1)
    (sample_committer 1) s2 s2 (mkSlot 1 0) (dag_ref 4 0) anchor Hw (sample_rule 1) (sample_rule 1)
    Hv Hv (sample_slot s2 Hc) (sample_slot s2 Hc) Ha Ha) as (n & st & _ & Hn).
  exists s2, anchor, n, st. intros fuel Hf. apply (Hn fuel Hf).
Defined.

Lemma UniversalCommitter_try_decide_agree_witness :
  ∃ (s1 s2 : DagState MemStore) n l1 l2, sample_views = Ret (s1, s2) ∧
    ∀ fuel, (n ≤ fuel)%nat →
      UniversalCommitter_try_decide fuel sample_universal s1 (mkSlot 0 0) = Ret l1 ∧
      UniversalCommitter_try_decide fuel sample_universal s2 (mkSlot 0 0) = Ret l2.
Proof.
  destruct sample_world as (G & s1 & s2 & Hrun & Hw & Hv1 & Hv2 & Hc1 & Hc2 & Hh1 & Hh2 & _).
  destruct (UniversalCommitter_try_decide_agree sample_committee G {[3]} sample_universal
    sample_universal s1 s2 (mkSlot 0 0) Hw
    ltac:(split; [reflexivity|]; apply Forall2_same_length_lookup; split; [reflexivity|]; congruence)
    Hv1 Hv2 (sample_ready s1 Hc1 ltac:(rewrite Hh1; by_eval))
    (sample_ready s2 Hc2 ltac:(rewrite Hh2; by_eval))) as (n & l1 & l2 & Hn & _).
  exists s1, s2, n, l1, l2. split; [exact Hrun|exact Hn].
Defined.

Lemma UniversalCommitter_try_decide_in_order_witness :
  ∃ (s : DagState MemStore) n l, ∀ fuel, (n ≤ fuel)%nat →
    UniversalCommitter_try_decide fuel sample_universal s (mkSlot 0 0) = Ret l.
Proof.
  destruct sample_world as (G & s1 & s2 & _ & Hw & _ & Hv & _ & Hc & _ & Hh & _).
  destruct (UniversalCommitter_try_decide_in_order sample_committee G {[3]} sample_universal s2
    (mkSlot 0 0) Hw Hv (sample_ready s2 Hc ltac:(rewrite Hh; by_eval))) as (n & l & Hn & _).
  exists s2, n, l. exact Hn.
Defined.

(** What the two authorities decide: the first one the leader of round 1, the
    second one also that of round 2. *)
Definition sample_decided (p : DagState MemStore * DagState MemStore)
    : M (list DecidedLeader * list DecidedLeader) :=
  l1 ← UniversalCommitter_try_decide 100 sample_universal p.1 (mkSlot 0 0);
  l2 ← UniversalCommitter_try_decide 100 sample_universal p.2 (mkSlot 0 0);
  Ret (l1, l2).

Lemma sample_decisions :
  outcome_sat (sample_views ≫= sample_decided)
    (λ '(l1, l2), bool_decide (DecidedLeader_slot <$> l1 = [mkSlot 1 0] ∧
                               DecidedLeader_slot <$> l2 = [mkSlot 1 0; mkSlot 2 0])) = true.
Proof. vm_compute. reflexivity. Qed.

(** ** Support and equivocation

    Authority 2 equivocates in round 1 and authority 3 in round 2, once for each
    block of authority 2; its block of round 4 extends one of its two blocks and
    includes the other one through a block of authority 1. *)

Definition other_leader : VerifiedBlock := sample_block 1 2 777 (dag_ref 0 <$> [2; 0; 1]).
Definition first_vote : VerifiedBlock := dag_block 2 3.
Definition second_vote : VerifiedBlock :=
  sample_block 2 3 888 [dag_ref 1 3; reference other_leader; dag_ref 1 0; dag_ref 1 1].
Definition forked_block : VerifiedBlock :=
  sample_block 4 3 403 [reference second_vote; dag_ref 3 0; dag_ref 3 1; dag_ref 3 2].

Definition forked_blocks : list VerifiedBlock :=
  round_blocks 1 ++ [other_leader] ++ round_blocks 2 ++ [second_vote] ++ round_blocks 3 ++ [forked_block].

Definition forked_run : M (DagState MemStore) :=
  s0 ← DagState_new sample_context MemStore_new; foldM run_op s0 (OpAccept <$> forked_blocks).

Definition supports_check (s : DagState MemStore) (b : VerifiedBlock) (l : BlockRef) : bool :=
  outcome_sat (BaseCommitter_find_supported_block s (mkSlot 1 2) b) (λ o, bool_decide (o = Some l)).

Lemma supports_check_spec s b l :
  supports_check s b l = true → BaseCommitter_find_supported_block s (mkSlot 1 2) b = Ret (Some l).
Proof. intros (o & -> & ->%bool_decide_eq_true)%outcome_sat_spec. done. Qed.

(** the support of a block is not inherited from every earlier block of its
    author that it includes: an equivocating author has a block that supports
    one leader block and a later block, with the former in its history, that
    supports another leader block of the same slot. *)
Theorem BaseCommitter_find_supported_block_equivocation :
  ∃ s : DagState MemStore, forked_run = Ret s ∧
    ds_block s (reference first_vote) = Some first_vote ∧
    ds_block s (reference forked_block) = Some forked_block ∧
    b_author first_vote = b_author forked_block ∧
    rtc (parent (ds_block s) 0) (reference forked_block) (reference first_vote) ∧
    BaseCommitter_find_supported_block s (mkSlot 1 2) first_vote = Ret (Some (dag_ref 1 2)) ∧
    BaseCommitter_find_supported_block s (mkSlot 1 2) forked_block =
      Ret (Some (reference other_leader)) ∧
    dag_ref 1 2 ≠ reference other_leader.
Proof.
  assert (outcome_sat forked_run (λ s, supports_check s first_vote (dag_ref 1 2) &&
            supports_check s forked_block (reference other_leader)) = true) as Hc
    by (vm_compute; reflexivity).
  apply outcome_sat_spec in Hc as (s & Hrun & Hc). apply andb_true_iff in Hc as [Hc1 Hc2].
  exists s. split; [exact Hrun|]. unfold forked_run in Hrun.
  apply bind_Ret in Hrun as (s0 & Hn & Hrun).
  destruct sample_dag as (s0' & Hn' & Hok0 & Hctx0 & Hnone). rewrite Hn in Hn'. injection Hn' as <-.
  destruct (run_ops_spec (OpAccept <$> forked_blocks) s0 s Hok0) as (_ & _ & Hb); [|exact Hrun|].
  { apply static_ops_valid; [done|]. unfold DagState_committee. rewrite Hctx0.
    repeat (constructor; [split; by_eval|]). constructor. }
  assert (∀ b : VerifiedBlock, b ∈ forked_blocks → 0 < b_round b → ds_block s (reference b) = Some b) as Hin.
  { intros b Hin Hr. rewrite Hb. apply spec_run_accepts; [by_eval|done|by apply Hnone]. }
  assert (ds_block s (reference first_vote) = Some first_vote) as Hfirst.
  { apply Hin; [|by_eval]. unfold forked_blocks. do 2 apply elem_of_app, or_intror.
    apply elem_of_app, or_introl. by do 3 right; left. }
  assert (ds_block s (reference forked_block) = Some forked_block) as Hforked.
  { apply Hin; [|by_eval]. unfold forked_blocks. do 5 apply elem_of_app, or_intror. left. }
  assert (ds_block s (dag_ref 3 1) = Some (dag_block 3 1)) as Hmid.
  { apply (Hin (dag_block 3 1)); [|by_eval]. unfold forked_blocks. do 4 apply elem_of_app, or_intror.
    apply elem_of_app, or_introl. by right; left. }
  split_and!; [exact Hfirst|exact Hforked|reflexivity| |by apply supports_check_spec..|by_eval].
  apply (rtc_l _ _ (dag_ref 3 1)).
  { split; [by_eval|]. exists forked_block. split; [exact Hforked|by_eval]. }
  apply rtc_once. split; [by_eval|]. exists (dag_block 3 1). split; [exact Hmid|by_eval].
Qed.
