(* ===== verification/Linearizer.v ===== *)
(** * From committed leaders to sub-dags (consensus/core/src/linearizer.rs)

    The linearizer expands a committed leader into the blocks of its history that
    are above the garbage collection round and not committed before, sorts them,
    and computes the timestamp of the commit as the median of the timestamps of
    the leader's parents, weighted by stake.

    The trait [BlockStoreAPI] is a class; [BlockStoreLaws] says what the search
    relies on, and [DagState] provides it. *)

From S2P Require Import Prelude BTree Config Block Commit Store StakeAggregator ThresholdClock.
From S2P Require Import LeaderScoring DagState DagTheory DagTraversal.
Local Open Scope N_scope.

(** ** The block store *)

Class BlockStoreAPI (D : Type) : Type := {
  bs_get_blocks : D → list BlockRef → M (list (option VerifiedBlock));
  bs_gc_round : D → Round;
  bs_set_committed : D → BlockRef → M (D * bool);
  bs_is_committed : D → BlockRef → M bool;
}.

#[export] Instance DagState_block_store {S : Type} `{Store S} : BlockStoreAPI (DagState S) := {
  bs_get_blocks := DagState_get_blocks;
  bs_gc_round := DagState_gc_round;
  bs_set_committed := DagState_set_committed;
  bs_is_committed := DagState_is_committed;
}.

(** ** Linearization *)

Section Linearize.
Context {D : Type} `{BlockStoreAPI D}.
Implicit Types d : D.

Definition wanted_ancestor d (gc_round : Round) (ancestor : BlockRef) : M bool :=
  if gc_round <? br_round ancestor
  then committed ← bs_is_committed d ancestor; Ret (negb committed)
  else Ret false.

(** The body of the loop over the ancestors to commit: the buffer is a stack
    whose top is the head of the list. *)
Definition push_ancestor (acc : D * list VerifiedBlock) (ancestor : VerifiedBlock)
    : M (D * list VerifiedBlock) :=
  let '(d, buffer) := acc in
  '(d, fresh) ← bs_set_committed d (reference ancestor);
  assert_that fresh "Block attempted to be committed twice";;
  Ret (d, ancestor :: buffer).

Fixpoint linearize_loop (fuel : nat) (gc_round : Round) d (buffer to_commit : list VerifiedBlock)
    : M (D * list VerifiedBlock) :=
  match fuel with
  | O => NoFuel
  | Datatypes.S fuel =>
      match buffer with
      | [] => Ret (d, to_commit)
      | x :: buffer =>
          refs ← filterP (wanted_ancestor d gc_round) (b_ancestors x);
          found ← bs_get_blocks d refs;
          ancestors ← mapP (λ ancestor_opt,
                        expect ancestor_opt "We should have all uncommitted blocks in dag state.")
                        found;
          '(d, buffer) ← foldM push_ancestor (d, buffer) ancestors;
          linearize_loop fuel gc_round d buffer (to_commit ++ [x])
      end
  end.

Definition Linearizer_linearize_sub_dag (fuel : nat) (leader_block : VerifiedBlock) d
    : M (D * list VerifiedBlock) :=
  let gc_round := bs_gc_round d in
  '(d, fresh) ← bs_set_committed d (reference leader_block);
  assert_that fresh "Leader block attempted to be committed twice";;
  '(d, to_commit) ← linearize_loop fuel gc_round d [leader_block] [];
  assert_that (forallb (λ block : VerifiedBlock, gc_round <? b_round block) to_commit)
    "No blocks <= gc_round should be committed";;
  Ret (d, sort_sub_dag_blocks to_commit).

End Linearize.

(** ** Timestamps *)

Section Timestamps.
Context `{Profile}.

Fixpoint median_loop (total_stake cumulative_stake : Stake)
    (timestamps : list (BlockTimestampMs * Stake)) : M (option BlockTimestampMs) :=
  match timestamps with
  | [] => Ret None
  | (ts, stake) :: timestamps =>
      cumulative_stake ← u64_add cumulative_stake stake;
      if total_stake / 2 <? cumulative_stake then Ret (Some ts)
      else median_loop total_stake cumulative_stake timestamps
  end.

Definition median_timestamps_by_stake_inner (timestamps : list (BlockTimestampMs * Stake))
    (total_stake : Stake) : M BlockTimestampMs :=
  let timestamps := stable_sort (λ a b, a.1 <=? b.1) timestamps in
  found ← median_loop total_stake 0 timestamps;
  match found with
  | Some ts => Ret ts
  | None => entry ← expect (last timestamps) "unwrap"; Ret entry.1
  end.

(** The error of [median_timestamp_by_stake], a formatted string. *)
Inductive MedianError : Type :=
| NoBlocksProvided
| TotalStakeBelowQuorum (total_stake quorum : Stake).

(** The body of the loop that collects the timestamps. *)
Definition collect_timestamp (ctx : Context) (acc : list (BlockTimestampMs * Stake) * Stake)
    (block : VerifiedBlock) : M (list (BlockTimestampMs * Stake) * Stake) :=
  let '(timestamps, total_stake) := acc in
  authority ← Committee_authority (ctx_committee ctx) (b_author block);
  let stake := Authority_stake authority in
  total_stake ← u64_add total_stake stake;
  Ret (timestamps ++ [(b_timestamp_ms block, stake)], total_stake).

Definition median_timestamp_by_stake (ctx : Context) (blocks : list VerifiedBlock)
    : M (BlockTimestampMs + MedianError) :=
  '(timestamps, total_stake) ← foldM (collect_timestamp ctx) ([], 0) blocks;
  if bool_decide (timestamps = []) then Ret (inr NoBlocksProvided)
  else if total_stake <? Committee_quorum_threshold (ctx_committee ctx)
  then Ret (inr (TotalStakeBelowQuorum total_stake (Committee_quorum_threshold (ctx_committee ctx))))
  else ts ← median_timestamps_by_stake_inner timestamps total_stake; Ret (inl ts).

Definition Linearizer_calculate_commit_timestamp {D : Type} `{BlockStoreAPI D} (ctx : Context) (d : D)
    (leader_block : VerifiedBlock) (last_commit_timestamp_ms : BlockTimestampMs)
    : M BlockTimestampMs :=
  block_refs ← filterP (λ block_ref, parent_round ← u32_sub (b_round leader_block) 1;
                                     Ret (br_round block_ref =? parent_round))
                 (b_ancestors leader_block);
  block_opts ← bs_get_blocks d block_refs;
  blocks ← mapP (λ block_opt, expect block_opt "We should have all blocks in dag state.") block_opts;
  median ← median_timestamp_by_stake ctx blocks;
  match median with
  | inl timestamp_ms => Ret (N.max timestamp_ms last_commit_timestamp_ms)
  | inr _ => Panic (Explicit "Cannot compute median timestamp for leader block")
  end.

End Timestamps.

(** ** The linearizer *)

Section Linearizer.
Context `{Profile} `{Crypto} `{CommitBcs} {S : Type} `{Store S}.
Implicit Types s : DagState S.

(** Each block is pushed once, when it is marked. *)
Definition linearize_fuel s : nat := Datatypes.S (size (ds_recent_blocks s)).

Definition Linearizer_collect_sub_dag_and_commit (ctx : Context) s (leader_block : VerifiedBlock)
    : M (DagState S * (CommittedSubDag * TrustedCommit)) :=
  let last_commit_index := DagState_last_commit_index s in
  let last_commit_digest := DagState_last_commit_digest s in
  let last_commit_timestamp_ms := DagState_last_commit_timestamp_ms s in
  '(s, to_commit) ← Linearizer_linearize_sub_dag (linearize_fuel s) leader_block s;
  timestamp_ms ← Linearizer_calculate_commit_timestamp ctx s leader_block last_commit_timestamp_ms;
  index ← u32_add last_commit_index 1;
  let commit := Commit_new index last_commit_digest timestamp_ms (reference leader_block)
                  (reference <$> to_commit) in
  match bcs_commit commit with
  | None => Panic (Explicit "Failed to serialize commit")
  | Some serialized =>
      let commit := TrustedCommit_new_trusted commit serialized in
      Ret (s, (CommittedSubDag_new (reference leader_block) to_commit timestamp_ms
                 (TrustedCommit_reference commit), commit))
  end.

(** [update_blocks_pruned_metric]: the references counted as pruned, with
    whether they are known not to be committed. *)
Definition pruned_label (last_committed_rounds : list Round) (ctx : Context) (block_ref : BlockRef)
    : M (BlockRef * bool) :=
  _ ← Committee_authority (ctx_committee ctx) (br_author block_ref);
  round ← index last_committed_rounds (br_author block_ref);
  Ret (block_ref, round <? br_round block_ref).

Definition Linearizer_update_blocks_pruned_metric (ctx : Context) s (sub_dag : CommittedSubDag)
    : M (list (BlockRef * bool)) :=
  let last_committed_rounds := ds_last_committed_rounds s in
  let gc_round := DagState_gc_round s in
  refs ← filterP (λ ancestor_ref,
           if br_round ancestor_ref <=? gc_round
           then round ← index last_committed_rounds (br_author ancestor_ref);
                Ret (negb (round =? br_round ancestor_ref))
           else Ret false)
           (concat ((λ block : VerifiedBlock, b_ancestors block) <$> sd_blocks sub_dag));
  mapP (pruned_label last_committed_rounds ctx) (remove_dups refs).

Definition handle_leader (ctx : Context) (acc : DagState S * list CommittedSubDag)
    (leader_block : VerifiedBlock) : M (DagState S * list CommittedSubDag) :=
  let '(s, committed_sub_dags) := acc in
  '(s, (sub_dag, commit)) ← Linearizer_collect_sub_dag_and_commit ctx s leader_block;
  Linearizer_update_blocks_pruned_metric ctx s sub_dag;;
  s ← DagState_add_commit s commit;
  Ret (s, committed_sub_dags ++ [sub_dag]).

Definition Linearizer_handle_commit (ctx : Context) s (committed_leaders : list VerifiedBlock)
    : M (DagState S * list CommittedSubDag) :=
  foldM (handle_leader ctx) (s, []) committed_leaders.

End Linearizer.
