(* ===== verification/LinearizerTheory.v ===== *)
(** * What linearization commits

    The search of the linearizer terminates; it commits exactly the uncommitted
    part of the leader's history above the garbage collection round, each block
    once, and marks exactly these blocks.  Its result depends only on the history
    of the leader and on what was committed before. *)

From S2P Require Import Prelude BTree Config Block Commit Store StakeAggregator ThresholdClock.
From S2P Require Import LeaderScoring DagState DagTheory DagTraversal Linearizer.
Local Open Scope N_scope.

(** ** What the search relies on *)

Class BlockStoreLaws (D : Type) `{BlockStoreAPI D} : Type := {
  bs_ok : D → Prop;
  bs_block : D → BlockRef → option VerifiedBlock;
  (** [None]: not cached; otherwise whether the block is committed. *)
  bs_mark : D → BlockRef → option bool;
  bs_pending : D → gset BlockRef;
  (** What marking a block leaves alone. *)
  bs_frame : D → D → Prop;
  bs_frame_preorder :: PreOrder bs_frame;
  bs_pending_spec : ∀ d r, bs_mark d r = Some false → r ∈ bs_pending d;
  bs_get_blocks_spec : ∀ d refs, bs_ok d → bs_get_blocks d refs = Ret (bs_block d <$> refs);
  bs_is_committed_spec : ∀ d r m, bs_mark d r = Some m → bs_is_committed d r = Ret m;
  bs_set_committed_spec : ∀ d r m, bs_ok d → bs_mark d r = Some m →
    ∃ d', bs_set_committed d r = Ret (d', negb m) ∧ (bs_ok d' ∧ bs_frame d d') ∧
      (∀ r', bs_block d' r' = bs_block d r') ∧
      (∀ r', bs_mark d' r' = if decide (r' = r) then Some true else bs_mark d r');
  bs_cached : ∀ d r m, bs_ok d → bs_mark d r = Some m → ∃ b, bs_block d r = Some b;
  bs_reference : ∀ d r b, bs_ok d → bs_block d r = Some b → reference b = r;
}.

Lemma mapP_expect {A B} (f : A → option B) why l :
  (∀ a, a ∈ l → is_Some (f a)) →
  ∃ bs, mapP (λ o, expect o why) (f <$> l) = Ret bs ∧ Forall2 (λ a b, f a = Some b) l bs.
Proof.
  induction l as [|a l IH]; intros Hl; [by exists []|].
  destruct (Hl a) as [b Hb]; [left|]. destruct IH as (bs & Hbs & Hall); [intros; apply Hl; by right|].
  exists (b :: bs). csimpl. rewrite Hb. cbn [expect mbind M_bind]. rewrite Hbs. by auto.
Qed.

Section LinearizeTheory.
Context {D : Type} `{BlockStoreLaws D}.
Implicit Types d : D.

(** [a] is an uncommitted ancestor of [r] above [gc]. *)
Definition uncommitted_step (gc : Round) d (r a : BlockRef) : Prop :=
  ∃ b, bs_block d r = Some b ∧ a ∈ b_ancestors b ∧ gc < br_round a ∧ bs_mark d a = Some false.

(** The blocks to commit with the leader [l]. *)
Definition reached (gc : Round) d (l r : BlockRef) : Prop := rtc (uncommitted_step gc d) l r.

(** The leader is cached and uncommitted, and the history that the search visits
    is cached and free of duplicates. *)
Record committable (gc : Round) d (leader : VerifiedBlock) : Prop := {
  co_leader : bs_block d (reference leader) = Some leader;
  co_mark : bs_mark d (reference leader) = Some false;
  co_round : gc < b_round leader;
  co_cached : ∀ r b a, reached gc d (reference leader) r → bs_block d r = Some b →
    a ∈ b_ancestors b → gc < br_round a → is_Some (bs_mark d a);
  co_NoDup : ∀ r b, reached gc d (reference leader) r → bs_block d r = Some b →
    NoDup (b_ancestors b);
}.

(** [d'] differs from [d] in that the references in [refs] are marked. *)
Definition marked d (refs : list BlockRef) d' : Prop :=
  (bs_ok d' ∧ bs_frame d d') ∧ (∀ r, bs_block d' r = bs_block d r) ∧
  ∀ r, bs_mark d' r = if decide (r ∈ refs) then Some true else bs_mark d r.

Lemma marked_nil d : bs_ok d → marked d [] d.
Proof.
  intros Hok. split_and!; [done..|]. intros r. by rewrite decide_False by apply not_elem_of_nil.
Qed.

Lemma marked_snoc d refs d1 r d2 :
  marked d refs d1 → bs_ok d2 ∧ bs_frame d1 d2 → (∀ r', bs_block d2 r' = bs_block d1 r') →
  (∀ r', bs_mark d2 r' = if decide (r' = r) then Some true else bs_mark d1 r') →
  marked d (refs ++ [r]) d2.
Proof.
  intros ([_ Hf] & Hb & Hm) [Hok Hf2] Hb2 Hm2. split_and!; [done|by etrans|by intros; rewrite Hb2|].
  intros r'. rewrite Hm2, Hm. destruct (decide (r' = r)) as [->|Hne].
  - rewrite decide_True; [done|]. apply elem_of_app, or_intror. left.
  - destruct (decide (r' ∈ refs)); [rewrite decide_True|rewrite decide_False];
      rewrite ?elem_of_app, ?list_elem_of_singleton; naive_solver.
Qed.

(** The ancestors to visit. *)
Definition wanted (gc : Round) d (a : BlockRef) : Prop := gc < br_round a ∧ bs_mark d a = Some false.

#[local] Instance wanted_dec gc d a : base.Decision (wanted gc d a).
Proof. unfold wanted. apply _. Defined.

Lemma wanted_ancestor_spec gc d a :
  (gc < br_round a → is_Some (bs_mark d a)) →
  wanted_ancestor d gc a = Ret (bool_decide (wanted gc d a)).
Proof.
  intros Hc. unfold wanted_ancestor. destruct (N.ltb_spec gc (br_round a)) as [Hlt|Hge].
  - destruct (Hc Hlt) as [m Hm]. rewrite (bs_is_committed_spec d a m Hm). cbn [mbind M_bind]. f_equal.
    destruct m; symmetry; [apply bool_decide_eq_false|by apply bool_decide_eq_true].
    intros [_ ?]. congruence.
  - f_equal. symmetry. apply bool_decide_eq_false. intros [? _]. lia.
Qed.

(** Pushing distinct uncommitted blocks marks them all. *)
Lemma push_ancestors_spec d0 refs d buffer ancestors :
  marked d0 refs d → NoDup (refs ++ (reference <$> ancestors)) →
  (∀ b, b ∈ ancestors → bs_mark d0 (reference b) = Some false) →
  ∃ d', foldM push_ancestor (d, buffer) ancestors = Ret (d', reverse ancestors ++ buffer) ∧
    marked d0 (refs ++ (reference <$> ancestors)) d'.
Proof.
  revert refs d buffer. induction ancestors as [|b ancestors IH]; intros refs d buffer Hm Hnd Hfresh; csimpl.
  { exists d. by rewrite app_nil_r. }
  csimpl in Hnd. rewrite cons_middle, app_assoc in Hnd.
  assert (reference b ∉ refs) as Hnew.
  { intros Hin. apply NoDup_app in Hnd as (Hnd & _ & _). apply NoDup_app in Hnd as (_ & Hdis & _).
    apply (Hdis _ Hin). left. }
  assert (bs_mark d (reference b) = Some false) as Hmark.
  { destruct Hm as (_ & _ & Hm). rewrite Hm, decide_False by done. apply Hfresh. left. }
  destruct (bs_set_committed_spec d (reference b) false (proj1 (proj1 Hm)) Hmark) as (d1 & -> & Hok1 & Hb1 & Hm1).
  cbn [mbind M_bind negb assert_that].
  destruct (IH (refs ++ [reference b]) d1 (b :: buffer)) as (d' & -> & Hm'); [|done| |].
  { by eapply marked_snoc. }
  { intros b' Hb'. apply Hfresh. by right. }
  exists d'. rewrite reverse_cons, <- app_assoc. split; [done|]. by rewrite cons_middle, app_assoc.
Qed.

Lemma marked_perm d refs refs' d' : refs ≡ₚ refs' → marked d refs d' → marked d refs' d'.
Proof.
  intros Hp ([Hok Hf] & Hb & Hm). split_and!; [done..|]. intros r. rewrite Hm.
  destruct (decide (r ∈ refs)) as [Hr|Hr]; rewrite Hp in Hr; [by rewrite decide_True|by rewrite decide_False].
Qed.

#[local] Instance marked_proper d : Proper ((≡ₚ) ==> (=) ==> iff) (marked d).
Proof. intros l l' Hp d1 d2 ->. split; by apply marked_perm. Qed.

(** Reading the wanted ancestors of a block. *)
Lemma read_wanted_spec gc d refs :
  bs_ok d → (∀ a, a ∈ refs → gc < br_round a → is_Some (bs_mark d a)) →
  ∃ ancestors, filterP (wanted_ancestor d gc) refs = Ret (filter (wanted gc d) refs) ∧
    (found ← bs_get_blocks d (filter (wanted gc d) refs);
     mapP (λ o, expect o "We should have all uncommitted blocks in dag state.") found) = Ret ancestors ∧
    reference <$> ancestors = filter (wanted gc d) refs ∧
    ∀ b, b ∈ ancestors → bs_block d (reference b) = Some b.
Proof.
  intros Hok Hc.
  destruct (mapP_expect (bs_block d) "We should have all uncommitted blocks in dag state."
    (filter (wanted gc d) refs)) as (ancestors & Ha & Hall).
  { intros a [[_ Hm] _]%list_elem_of_filter. by destruct (bs_cached d a false Hok Hm) as [b ->]. }
  assert (reference <$> ancestors = filter (wanted gc d) refs ∧
          ∀ b, b ∈ ancestors → bs_block d (reference b) = Some b) as [Href Hin].
  { clear Ha. induction Hall as [|a b l bs Hab _ [IH1 IH2]];
      [split; [done|by intros ? ?%not_elem_of_nil]|].
    pose proof (bs_reference d a b Hok Hab) as Hrb. csimpl. rewrite Hrb, IH1. split; [done|].
    intros b' [->|Hb']%list.elem_of_cons; [by rewrite Hrb|by apply IH2]. }
  exists ancestors. split_and!; [|by rewrite bs_get_blocks_spec|done|done].
  apply filterP_spec. intros a Ha'. apply wanted_ancestor_spec. by apply Hc.
Qed.

(** What the search has done: [to_commit] is visited, [buffer] is to visit. *)
Record search (gc : Round) d0 (leader : VerifiedBlock) d (buffer to_commit : list VerifiedBlock)
    : Prop := {
  se_marked : marked d0 (reference <$> (to_commit ++ buffer)) d;
  se_NoDup : NoDup (reference <$> (to_commit ++ buffer));
  se_reached : ∀ b, b ∈ to_commit ++ buffer →
    bs_block d0 (reference b) = Some b ∧ reached gc d0 (reference leader) (reference b) ∧
    bs_mark d0 (reference b) = Some false ∧ gc < b_round b;
  se_closed : ∀ (b : VerifiedBlock) a, b ∈ to_commit → a ∈ b_ancestors b → wanted gc d0 a →
    a ∈ reference <$> (to_commit ++ buffer);
  se_leader : leader ∈ to_commit ++ buffer;
}.

Lemma search_step gc d0 leader d x buffer to_commit ancestors d' :
  bs_ok d0 → committable gc d0 leader →
  search gc d0 leader d (x :: buffer) to_commit →
  reference <$> ancestors = filter (wanted gc d) (b_ancestors x) →
  (∀ b, b ∈ ancestors → bs_block d (reference b) = Some b) →
  marked d0 (reference <$> ((to_commit ++ x :: buffer) ++ ancestors)) d' →
  search gc d0 leader d' (reverse ancestors ++ buffer) (to_commit ++ [x]).
Proof.
  intros Hok0 Hco [Hm Hnd Hre Hcl Hl] Href Hblk Hm'.
  assert ((to_commit ++ x :: buffer) ++ ancestors ≡ₚ (to_commit ++ [x]) ++ reverse ancestors ++ buffer) as Hp.
  { rewrite reverse_Permutation. solve_Permutation. }
  assert (∀ r, bs_mark d r = Some false →
    r ∉ reference <$> (to_commit ++ x :: buffer) ∧ bs_mark d0 r = Some false) as Hfresh.
  { intros r. destruct Hm as (_ & _ & ->). destruct (decide _); [done|by split]. }
  destruct (Hre x) as (Hxb & Hxr & _ & _); [apply elem_of_app; right; left|].
  assert (∀ b, b ∈ ancestors → reference b ∈ b_ancestors x ∧ gc < br_round (reference b) ∧
               bs_mark d (reference b) = Some false) as Hanc.
  { intros b Hb. assert (reference b ∈ reference <$> ancestors) as Hin by (by apply list_elem_of_fmap_2).
    rewrite Href in Hin. by apply list_elem_of_filter in Hin as [[??] ?]. }
  split.
  - by rewrite <- Hp.
  - rewrite <- Hp, fmap_app. apply NoDup_app. split_and!; [done| |].
    + intros r Hr Hr'. apply list_elem_of_fmap in Hr' as (b & -> & Hb).
      destruct (Hanc b Hb) as (_ & _ & Hmb). by apply (Hfresh _ Hmb).
    + rewrite Href. apply NoDup_filter. by apply (co_NoDup _ _ _ Hco (reference x)).
  - intros b. rewrite <- Hp. intros [Hb|Hb]%elem_of_app; [by apply Hre|].
    destruct (Hanc b Hb) as (Hin & Hgc & Hmb). destruct (Hfresh _ Hmb) as [_ Hm0].
    assert (bs_block d0 (reference b) = Some b) as Hb0.
    { destruct Hm as (_ & Hbd & _). rewrite <- Hbd. by apply Hblk. }
    split_and!; [done| |done|done]. eapply rtc_r; [exact Hxr|]. exists x. by split_and!.
  - intros b a [Hb| ->%list_elem_of_singleton]%elem_of_app Ha Hw; rewrite <- Hp, fmap_app;
      apply elem_of_app; [left; by apply (Hcl b)|].
    destruct (decide (a ∈ reference <$> (to_commit ++ x :: buffer))) as [|Hnin]; [by left|right].
    rewrite Href. apply list_elem_of_filter. split; [|done]. destruct Hw as [Hgc Hm0]. split; [done|].
    destruct Hm as (_ & _ & ->). by rewrite decide_False.
  - rewrite <- Hp. by apply elem_of_app, or_introl.
Qed.

Lemma search_init gc d0 leader d :
  committable gc d0 leader → bs_ok d0 → bs_ok d ∧ bs_frame d0 d → (∀ r, bs_block d r = bs_block d0 r) →
  (∀ r, bs_mark d r = if decide (r = reference leader) then Some true else bs_mark d0 r) →
  search gc d0 leader d [leader] [].
Proof.
  intros Hco Hok Hok1 Hb1 Hm1. split; csimpl.
  - apply (marked_snoc d0 [] d0); [by apply marked_nil|done..].
  - apply NoDup_singleton.
  - intros b ->%list_elem_of_singleton. destruct Hco. split_and!; [done|apply rtc_refl|done|done].
  - intros b a Hb. by apply not_elem_of_nil in Hb.
  - left.
Qed.

Lemma search_length gc d0 leader d buffer to_commit :
  search gc d0 leader d buffer to_commit →
  (length to_commit + length buffer ≤ size (bs_pending d0))%nat.
Proof.
  intros Hs. rewrite <- length_app, <- (length_fmap reference).
  rewrite <- (size_list_to_set (C := gset BlockRef)) by (by eapply se_NoDup).
  apply subseteq_size. intros r [b [-> Hb]]%elem_of_list_to_set%list_elem_of_fmap.
  destruct (se_reached _ _ _ _ _ _ Hs b Hb) as (_ & _ & Hm & _). by apply bs_pending_spec.
Qed.

Lemma search_cached gc d0 leader d x buffer to_commit a :
  committable gc d0 leader → search gc d0 leader d (x :: buffer) to_commit →
  a ∈ b_ancestors x → gc < br_round a → is_Some (bs_mark d a).
Proof.
  intros Hco Hs Ha Hgc. destruct (se_reached _ _ _ _ _ _ Hs x) as (Hb & Hr & _).
  { apply elem_of_app. right. left. }
  destruct (se_marked _ _ _ _ _ _ Hs) as (_ & _ & ->). destruct (decide _); [done|].
  by apply (co_cached _ _ _ Hco (reference x) x).
Qed.

(** One iteration: the next block is visited, its unvisited ancestors are pushed. *)
Lemma linearize_loop_step gc d0 leader fuel d x buffer to_commit :
  bs_ok d0 → committable gc d0 leader → search gc d0 leader d (x :: buffer) to_commit →
  ∃ d' ancestors,
    linearize_loop (Datatypes.S fuel) gc d (x :: buffer) to_commit =
      linearize_loop fuel gc d' (reverse ancestors ++ buffer) (to_commit ++ [x]) ∧
    Forall2 (λ a b, bs_block d0 a = Some b) (filter (wanted gc d) (b_ancestors x)) ancestors ∧
    search gc d0 leader d' (reverse ancestors ++ buffer) (to_commit ++ [x]).
Proof.
  intros Hok0 Hco Hs. cbn [linearize_loop].
  pose proof (se_marked _ _ _ _ _ _ Hs) as Hm.
  destruct (read_wanted_spec gc d (b_ancestors x)) as (ancestors & -> & Hread & Href & Hblk).
  { apply Hm. }
  { intros a. by eapply search_cached. }
  cbn [mbind M_bind]. apply bind_Ret in Hread as (found & -> & Hread). cbn [mbind M_bind].
  rewrite Hread. cbn [mbind M_bind].
  assert (∀ b, b ∈ ancestors →
    reference b ∉ reference <$> (to_commit ++ x :: buffer) ∧ bs_mark d0 (reference b) = Some false) as Hfresh.
  { intros b Hb. assert (reference b ∈ reference <$> ancestors) as Hin by (by apply list_elem_of_fmap_2).
    rewrite Href in Hin. apply list_elem_of_filter in Hin as [[_ Hmb] _].
    destruct Hm as (_ & _ & Hm). rewrite Hm in Hmb. destruct (decide _); [done|by split]. }
  destruct (push_ancestors_spec d0 (reference <$> (to_commit ++ x :: buffer)) d buffer ancestors)
    as (d' & -> & Hm'); [done| |by intros b Hb; apply Hfresh|].
  { apply NoDup_app. split_and!; [by eapply se_NoDup| |].
    - intros r Hr Hr'. apply list_elem_of_fmap in Hr' as (b & -> & Hb). by apply (Hfresh b Hb).
    - rewrite Href. apply NoDup_filter.
      destruct (se_reached _ _ _ _ _ _ Hs x) as (Hxb & Hxr & _); [apply elem_of_app; right; left|].
      by apply (co_NoDup _ _ _ Hco (reference x)). }
  cbn [mbind M_bind]. exists d', ancestors. split_and!; [done| |].
  - rewrite <- Href. apply Forall2_fmap_l, Forall_Forall2_diag, Forall_forall. intros b Hb. simpl.
    destruct Hm as (_ & Hbd & _). rewrite <- Hbd. by apply Hblk.
  - eapply search_step; [done..|]. by rewrite fmap_app.
Qed.

Lemma linearize_loop_spec gc d0 leader fuel d buffer to_commit :
  bs_ok d0 → committable gc d0 leader → search gc d0 leader d buffer to_commit →
  (size (bs_pending d0) < fuel + length to_commit)%nat →
  ∃ d' l, linearize_loop fuel gc d buffer to_commit = Ret (d', l) ∧ search gc d0 leader d' [] l.
Proof.
  intros Hok0 Hco. revert d buffer to_commit.
  induction fuel as [|fuel IH]; intros d buffer to_commit Hs Hf.
  { pose proof (search_length _ _ _ _ _ _ Hs). lia. }
  destruct buffer as [|x buffer]; [by eauto|].
  destruct (linearize_loop_step gc d0 leader fuel d x buffer to_commit) as (d' & anc & -> & _ & Hs');
    [done..|]. apply IH; [done|]. rewrite length_app. simpl. lia.
Qed.

(** Two stores that agree on the history to commit are searched in lockstep. *)
Definition same_history (gc : Round) d1 d2 (leader : VerifiedBlock) : Prop :=
  ∀ r b, reached gc d1 (reference leader) r → bs_block d1 r = Some b →
    bs_block d2 r = Some b ∧
    ∀ a, a ∈ b_ancestors b → gc < br_round a → bs_mark d1 a = bs_mark d2 a.

Lemma linearize_loop_agree gc d01 d02 leader fuel d1 d2 buffer to_commit d1' l :
  bs_ok d01 → bs_ok d02 → committable gc d01 leader → committable gc d02 leader →
  same_history gc d01 d02 leader →
  search gc d01 leader d1 buffer to_commit → search gc d02 leader d2 buffer to_commit →
  linearize_loop fuel gc d1 buffer to_commit = Ret (d1', l) →
  ∃ d2', linearize_loop fuel gc d2 buffer to_commit = Ret (d2', l).
Proof.
  intros Hok1 Hok2 Hc1 Hc2 Hsame. revert d1 d2 buffer to_commit.
  induction fuel as [|fuel IH]; intros d1 d2 buffer to_commit Hs1 Hs2; [done|].
  destruct buffer as [|x buffer]; [cbn [linearize_loop]; intros; simplify_eq; by eauto|].
  destruct (linearize_loop_step gc d01 leader fuel d1 x buffer to_commit) as (e1 & anc1 & -> & Ha1 & Hs1');
    [done..|].
  destruct (linearize_loop_step gc d02 leader fuel d2 x buffer to_commit) as (e2 & anc2 & -> & Ha2 & Hs2');
    [done..|].
  destruct (se_reached _ _ _ _ _ _ Hs1 x) as (Hxb & Hxr & _); [apply elem_of_app; right; left|].
  destruct (Hsame _ _ Hxr Hxb) as [_ Hmarks].
  assert (anc1 = anc2) as ->; [|by apply IH].
  assert (filter (wanted gc d1) (b_ancestors x) = filter (wanted gc d2) (b_ancestors x)) as Hfilter.
  { apply list_filter_ext_in. intros a Ha. unfold wanted.
    destruct (se_marked _ _ _ _ _ _ Hs1) as (_ & _ & ->), (se_marked _ _ _ _ _ _ Hs2) as (_ & _ & ->).
    split; intros [Hgc Hm]; (split; [done|]); destruct (decide _); try done;
      [rewrite <- Hmarks|rewrite Hmarks]; done. }
  rewrite <- Hfilter in Ha2. apply (Forall2_Some_det _ _ _ _ _ Ha1 Ha2). intros a b [Hw Ha]%list_elem_of_filter Hab.
  apply (Hsame a b); [|done]. eapply rtc_r; [exact Hxr|]. exists x. split_and!; [done..|apply Hw|].
  destruct Hw as [_ Hw], (se_marked _ _ _ _ _ _ Hs1) as (_ & _ & Hm1). rewrite Hm1 in Hw.
  by destruct (decide _).
Qed.

Lemma search_final gc d0 leader d l :
  bs_ok d0 → search gc d0 leader d [] l →
  ∀ r, r ∈ reference <$> l ↔ reached gc d0 (reference leader) r.
Proof.
  intros Hok Hs. pose proof (se_leader _ _ _ _ _ _ Hs) as Hl. pose proof (se_closed _ _ _ _ _ _ Hs) as Hcl.
  pose proof (se_reached _ _ _ _ _ _ Hs) as Hre. rewrite app_nil_r in *. intros r. split.
  - intros (b & -> & Hb)%list_elem_of_fmap. by apply Hre.
  - assert (∀ x, x ∈ reference <$> l → reached gc d0 x r → r ∈ reference <$> l) as Hind.
    { intros x Hx Hreach. revert Hx. induction Hreach as [|x y z Hxy _ IH]; [done|]. intros Hx.
      apply IH. destruct Hxy as (b & Hb & Ha & Hgc & Hm).
      apply list_elem_of_fmap in Hx as (b' & -> & Hb').
      destruct (Hre b' Hb') as (Hb0 & _). rewrite Hb in Hb0. simplify_eq. by apply (Hcl b'). }
    intros Hreach. apply (Hind (reference leader)); [by apply list_elem_of_fmap_2|done].
Qed.

(** What [linearize_sub_dag] returns. *)
Record linearized (gc : Round) d (leader : VerifiedBlock) d' (l : list VerifiedBlock) : Prop := {
  lz_refs : ∀ r, r ∈ reference <$> l ↔ reached gc d (reference leader) r;
  lz_NoDup : NoDup (reference <$> l);
  lz_blocks : ∀ b, b ∈ l → bs_block d (reference b) = Some b ∧ bs_mark d (reference b) = Some false ∧
                           gc < b_round b;
  lz_sorted : StronglySorted (λ a b : VerifiedBlock, le_ord (block_rank a) (block_rank b) = true) l;
  lz_marked : marked d (reference <$> l) d';
}.

Lemma linearize_sub_dag_spec d leader fuel :
  bs_ok d → committable (bs_gc_round d) d leader → (size (bs_pending d) < fuel)%nat →
  ∃ d' l, Linearizer_linearize_sub_dag fuel leader d = Ret (d', l) ∧
    linearized (bs_gc_round d) d leader d' l.
Proof.
  intros Hok Hco Hf. unfold Linearizer_linearize_sub_dag. set (gc := bs_gc_round d) in *.
  destruct (bs_set_committed_spec d (reference leader) false Hok (co_mark _ _ _ Hco))
    as (d1 & -> & Hok1 & Hb1 & Hm1).
  cbn [mbind M_bind negb assert_that].
  destruct (linearize_loop_spec gc d leader fuel d1 [leader] []) as (d' & l & -> & Hs);
    [done..|by apply search_init|simpl; lia|].
  cbn [mbind M_bind]. pose proof (se_reached _ _ _ _ _ _ Hs) as Hre. rewrite app_nil_r in Hre.
  assert (forallb (λ block : VerifiedBlock, gc <? b_round block) l = true) as ->.
  { apply forallb_forall. intros b Hb%list_elem_of_In. apply N.ltb_lt. by apply Hre. }
  cbn [assert_that mbind M_bind]. exists d', (sort_sub_dag_blocks l). split; [done|].
  pose proof (sort_sub_dag_blocks_perm l) as Hp. split.
  - intros r. rewrite Hp. by eapply search_final.
  - rewrite Hp. pose proof (se_NoDup _ _ _ _ _ _ Hs) as Hnd. by rewrite app_nil_r in Hnd.
  - intros b. rewrite Hp. intros Hb. destruct (Hre b Hb) as (? & _ & ? & ?). done.
  - apply sort_sub_dag_blocks_sorted.
  - rewrite Hp. pose proof (se_marked _ _ _ _ _ _ Hs) as Hm. by rewrite app_nil_r in Hm.
Qed.

Lemma linearize_loop_fuel gc fuel fuel' d buffer to_commit x :
  linearize_loop fuel gc d buffer to_commit = Ret x → (fuel ≤ fuel')%nat →
  linearize_loop fuel' gc d buffer to_commit = Ret x.
Proof.
  revert fuel' d buffer to_commit. induction fuel as [|fuel IH]; intros fuel' d buffer to_commit; [done|].
  intros Hl Hle. destruct fuel' as [|fuel']; [lia|]. cbn [linearize_loop] in *.
  destruct buffer as [|b buffer]; [done|].
  apply bind_Ret in Hl as (refs & -> & Hl). cbn [mbind M_bind].
  apply bind_Ret in Hl as (found & -> & Hl). cbn [mbind M_bind].
  apply bind_Ret in Hl as (ancestors & -> & Hl). cbn [mbind M_bind].
  apply bind_Ret in Hl as ([d' buffer'] & -> & Hl). cbn [mbind M_bind]. apply IH; [done|lia].
Qed.

Lemma linearize_sub_dag_agree d1 d2 leader fuel1 fuel2 :
  bs_ok d1 → bs_ok d2 → bs_gc_round d1 = bs_gc_round d2 →
  committable (bs_gc_round d1) d1 leader → committable (bs_gc_round d1) d2 leader →
  same_history (bs_gc_round d1) d1 d2 leader →
  (size (bs_pending d1) < fuel1)%nat → (size (bs_pending d2) < fuel2)%nat →
  ∃ d1' d2' l, Linearizer_linearize_sub_dag fuel1 leader d1 = Ret (d1', l) ∧
    Linearizer_linearize_sub_dag fuel2 leader d2 = Ret (d2', l) ∧
    linearized (bs_gc_round d1) d1 leader d1' l ∧ linearized (bs_gc_round d1) d2 leader d2' l.
Proof.
  intros Hok1 Hok2 Hgc Hc1 Hc2 Hsame Hf1 Hf2.
  destruct (linearize_sub_dag_spec d1 leader fuel1) as (d1' & l1 & Hl1 & Hs1); [done..|].
  destruct (linearize_sub_dag_spec d2 leader fuel2) as (d2' & l2 & Hl2 & Hs2); [done|by rewrite <- Hgc|done|].
  assert (l1 = l2) as ->; [|rewrite <- Hgc in Hs2; by exists d1', d2', l2].
  clear Hs1 Hs2. unfold Linearizer_linearize_sub_dag in Hl1, Hl2. rewrite <- Hgc in Hl2.
  set (gc := bs_gc_round d1) in *.
  destruct (bs_set_committed_spec d1 (reference leader) false Hok1 (co_mark _ _ _ Hc1))
    as (e1 & He1 & Hoke1 & Hb1 & Hm1).
  destruct (bs_set_committed_spec d2 (reference leader) false Hok2 (co_mark _ _ _ Hc2))
    as (e2 & He2 & Hoke2 & Hb2 & Hm2).
  rewrite He1 in Hl1. rewrite He2 in Hl2. cbn [mbind M_bind negb assert_that] in Hl1, Hl2.
  apply bind_Ret in Hl1 as ([a1 to1] & Hl1 & Hrest1). apply bind_Ret in Hl2 as ([a2 to2] & Hl2 & Hrest2).
  assert (to1 = to2) as ->; [|mskip Hrest1; mskip Hrest2; by simplify_eq].
  apply (linearize_loop_fuel _ _ (Nat.max fuel1 fuel2)) in Hl1; [|lia].
  apply (linearize_loop_fuel _ _ (Nat.max fuel1 fuel2)) in Hl2; [|lia].
  destruct (linearize_loop_agree gc d1 d2 leader (Nat.max fuel1 fuel2) e1 e2 [leader] [] a1 to1)
    as (a2' & Hl2'); [done..|by apply search_init|by apply search_init|done|].
  rewrite Hl2 in Hl2'. by simplify_eq.
Qed.

End LinearizeTheory.
