(* ===== verification/CommitTimestamp.v ===== *)
(** * The timestamp of a commit

    The timestamp that the linearizer gives a commit is the median, weighted by
    stake, of the timestamps of the leader's parents, and never before the
    timestamp of the previous commit.  Faulty authorities cannot move it out of
    the range that the honest parents span. *)

From S2P Require Import Prelude BTree Config StakeLists Block Commit Store StakeAggregator ThresholdClock.
From S2P Require Import LeaderScoring DagState DagTheory DagTraversal CommitRule Linearizer LinearizerTheory.
Local Open Scope N_scope.

(** ** Weighted medians *)

Section Median.
Implicit Types l : list (BlockTimestampMs * Stake).

Definition is_median (m : BlockTimestampMs) l : Prop :=
  (∃ stake, (m, stake) ∈ l) ∧ 2 * before m l ≤ stakes l ∧ stakes l < 2 * until m l.

Lemma is_median_perm m l l' : l ≡ₚ l' → is_median m l → is_median m l'.
Proof.
  intros Hp ([stake Hin] & Hb & Hu). unfold is_median, before, until in *.
  split_and!; [exists stake|..]; by rewrite <- Hp.
Qed.

Lemma median_loop_spec `{Profile} total cumulative l :
  total < 2 ^ 64 → cumulative + stakes l = total → cumulative ≤ total / 2 → total / 2 < total →
  ∃ pre ts stake post, l = pre ++ (ts, stake) :: post ∧
    median_loop total cumulative l = Ret (Some ts) ∧
    cumulative + stakes pre ≤ total / 2 < cumulative + stakes pre + stake.
Proof.
  intros Ht. revert cumulative. induction l as [|[ts stake] l IH]; intros cumulative Hsum Hcum Hpos.
  { unfold stakes in Hsum. simpl in Hsum. lia. }
  change (stakes ((ts, stake) :: l)) with (stake + stakes l) in Hsum. cbn [median_loop].
  arith.
  destruct (N.ltb_spec (total / 2) (cumulative + stake)) as [Hlt|Hge].
  - exists [], ts, stake, l. unfold stakes. simpl. split_and!; [done..|lia|lia].
  - destruct (IH (cumulative + stake)) as (pre & ts' & stake' & post & -> & Hl & Hb); [lia..|].
    exists ((ts, stake) :: pre), ts', stake', post. split_and!; [done..| |];
      change (stakes ((ts, stake) :: pre)) with (stake + stakes pre); lia.
Qed.

Lemma median_timestamps_by_stake_inner_spec `{Profile} l :
  0 < stakes l → stakes l < 2 ^ 64 →
  ∃ m, median_timestamps_by_stake_inner l (stakes l) = Ret m ∧ is_median m l.
Proof.
  intros Hpos Hlt. unfold median_timestamps_by_stake_inner.
  set (sorted := stable_sort _ l).
  assert (sorted ≡ₚ l) as Hp by apply stable_sort_perm.
  assert (StronglySorted (λ a b : BlockTimestampMs * Stake, (a.1 <=? b.1) = true) sorted) as Hs.
  { apply stable_sort_sorted; intros; nbool; rewrite ?N.leb_le in *; lia. }
  assert (stakes sorted = stakes l) as Hsum by (by rewrite Hp).
  destruct (median_loop_spec (stakes l) 0 sorted) as (pre & ts & stake & post & Heq & -> & Hb);
    [done|lia..|].
  cbn [mbind M_bind]. exists ts. split; [done|]. apply (is_median_perm _ sorted); [done|].
  rewrite Heq in Hs. apply sorted_split in Hs. rewrite <- Heq in Hs. split_and!.
  - exists stake. rewrite Heq. apply elem_of_app. right. left.
  - rewrite Hsum. lia.
  - rewrite Hsum. lia.
Qed.

End Median.

(** ** The median of blocks *)

Section MedianBlocks.
Context `{Profile} (ctx : Context).
Let c := ctx_committee ctx.
Context (Hwf : Committee_wf c).
Implicit Types blocks : list VerifiedBlock.

Definition authors blocks : gset AuthorityIndex := list_to_set ((λ b : VerifiedBlock, b_author b) <$> blocks).

Definition entries blocks : list (BlockTimestampMs * Stake) :=
  (λ b : VerifiedBlock, (b_timestamp_ms b, stake_at c (b_author b))) <$> blocks.

Record one_per_author blocks : Prop := {
  opa_NoDup : NoDup ((λ b : VerifiedBlock, b_author b) <$> blocks);
  opa_members : ∀ b : VerifiedBlock, b ∈ blocks → b_author b ∈ members c;
}.

Lemma one_per_author_filter (P : VerifiedBlock → Prop) `{!∀ b, base.Decision (P b)} blocks :
  one_per_author blocks → one_per_author (filter P blocks).
Proof.
  intros [Hnd Hm]. split.
  - eapply sublist_NoDup; [exact Hnd|]. apply fmap_sublist, sublist_filter.
  - intros b [_ Hb]%list_elem_of_filter. by apply Hm.
Qed.

Lemma stakes_entries blocks : one_per_author blocks → stakes (entries blocks) = set_stake c (authors blocks).
Proof.
  intros [Hnd _]. unfold set_stake, authors. rewrite weight_list_to_set by done.
  unfold stakes, entries. by rewrite <- !list_fmap_compose.
Qed.

Lemma entries_filter (P : BlockTimestampMs → Prop) `{!∀ ts, base.Decision (P ts)} blocks :
  filter (λ e, P e.1) (entries blocks) = entries (filter (λ b : VerifiedBlock, P (b_timestamp_ms b)) blocks).
Proof.
  induction blocks as [|b blocks IH]; [done|]. csimpl. rewrite !filter_cons. simpl.
  destruct (decide _); csimpl; by rewrite IH.
Qed.

Lemma authors_members blocks : one_per_author blocks → authors blocks ⊆ members c.
Proof.
  intros [_ Hm] i (b & -> & Hb)%elem_of_list_to_set%list_elem_of_fmap. by apply Hm.
Qed.

Lemma collect_entries pre blocks :
  one_per_author (pre ++ blocks) →
  foldM (collect_timestamp ctx) (entries pre, stakes (entries pre)) blocks
  = Ret (entries (pre ++ blocks), stakes (entries (pre ++ blocks))).
Proof using Hwf.
  revert pre. induction blocks as [|b blocks IH]; intros pre Hopa; cbn [foldM]; [by rewrite app_nil_r|].
  assert (b_author b ∈ members c) as Hb.
  { apply Hopa, elem_of_app. right. left. }
  assert (stakes (entries (pre ++ b :: blocks)) < 2 ^ 64) as Hlt.
  { rewrite stakes_entries by done. pose proof (wf_total_u64 c Hwf).
    pose proof (set_stake_le_total c _ Hwf (authors_members _ Hopa)). lia. }
  rewrite cons_middle, app_assoc in Hopa, Hlt |- *. specialize (IH (pre ++ [b]) Hopa).
  unfold entries in Hlt. rewrite !fmap_app, !stakes_app in Hlt.
  change (stakes ((λ b : VerifiedBlock, (b_timestamp_ms b, stake_at c (b_author b))) <$> [b]))
    with (stake_at c (b_author b) + 0) in Hlt.
  apply members_spec, Committee_stake_valid in Hb. unfold Committee_stake in Hb.
  assert (collect_timestamp ctx (entries pre, stakes (entries pre)) b
          = Ret (entries (pre ++ [b]), stakes (entries (pre ++ [b])))) as ->; [|by rewrite <- IH].
  assert (entries (pre ++ [b]) = entries pre ++ [(b_timestamp_ms b, stake_at c (b_author b))]) as ->.
  { unfold entries. by rewrite fmap_app. }
  rewrite stakes_app. change (stakes [(b_timestamp_ms b, stake_at c (b_author b))])
    with (stake_at c (b_author b) + 0). rewrite N.add_0_r.
  unfold collect_timestamp. fold c.
  destruct (Committee_authority c (b_author b)) as [a| |] eqn:Ha; try done.
  injection Hb as Hst. cbn [mbind M_bind]. rewrite Hst, int_add_exact by (unfold entries; lia). done.
Qed.

(** The authors of the blocks stamped before [m], up to [m] and from [m] on. *)
Definition authors_before m blocks := authors (filter (λ b : VerifiedBlock, b_timestamp_ms b < m) blocks).
Definition authors_until m blocks := authors (filter (λ b : VerifiedBlock, b_timestamp_ms b ≤ m) blocks).

Definition weighted_median (m : BlockTimestampMs) blocks : Prop :=
  (∃ b : VerifiedBlock, b ∈ blocks ∧ b_timestamp_ms b = m) ∧
  2 * set_stake c (authors_before m blocks) ≤ set_stake c (authors blocks) ∧
  set_stake c (authors blocks) < 2 * set_stake c (authors_until m blocks).

(** Every outcome of [median_timestamp_by_stake] on blocks of distinct authors. *)
Lemma median_timestamp_by_stake_spec blocks :
  one_per_author blocks →
  (blocks = [] ∧ median_timestamp_by_stake ctx blocks = Ret (inr NoBlocksProvided)) ∨
  (blocks ≠ [] ∧ set_stake c (authors blocks) < Committee_quorum_threshold c ∧
   median_timestamp_by_stake ctx blocks
   = Ret (inr (TotalStakeBelowQuorum (set_stake c (authors blocks)) (Committee_quorum_threshold c)))) ∨
  (is_quorum c (authors blocks) ∧
   ∃ m, median_timestamp_by_stake ctx blocks = Ret (inl m) ∧ weighted_median m blocks).
Proof using Hwf.
  intros Hopa. unfold median_timestamp_by_stake. fold c.
  pose proof (collect_entries [] blocks Hopa) as Hfold.
  rewrite app_nil_l in Hfold. change (stakes (entries [])) with 0 in Hfold.
  change (entries []) with (@nil (BlockTimestampMs * Stake)) in Hfold. rewrite Hfold. clear Hfold. cbn [mbind M_bind].
  rewrite stakes_entries by done. destruct (decide (blocks = [])) as [->|Hne]; [by left|right].
  rewrite bool_decide_eq_false_2 by (by intros ?%fmap_nil_inv).
  destruct (N.ltb_spec (set_stake c (authors blocks)) (Committee_quorum_threshold c)) as [Hlt|Hge];
    [by left|right].
  split.
  { split; [by apply authors_members|]. by apply N.leb_le. }
  pose proof (set_stake_le_total c _ Hwf (authors_members _ Hopa)). pose proof (wf_total_u64 c Hwf).
  pose proof (wf_quorum_pos c Hwf).
  destruct (median_timestamps_by_stake_inner_spec (entries blocks)) as (m & Hm & [stake Hin] & Hb & Hu);
    [rewrite stakes_entries by done; lia..|].
  rewrite stakes_entries in Hm, Hb, Hu by done. rewrite Hm. cbn [mbind M_bind]. exists m.
  unfold before, until in Hb, Hu. pose proof (entries_filter (λ ts, ts < m) blocks) as Hfb.
  pose proof (entries_filter (λ ts, ts ≤ m) blocks) as Hfu. cbn beta in Hfb, Hfu.
  rewrite Hfb in Hb. rewrite Hfu in Hu. clear Hfb Hfu.
  rewrite !stakes_entries in Hb, Hu by (by apply one_per_author_filter).
  split; [done|]. split_and!; [|done..].
  apply list_elem_of_fmap in Hin as (b' & Heq & Hb'). simplify_eq. by exists b'.
Qed.

(** Faulty stake below half of a quorum cannot move the median out of the range
    of the other timestamps. *)
Lemma weighted_median_honest m blocks (byz : gset AuthorityIndex) :
  one_per_author blocks → weighted_median m blocks →
  2 * set_stake c byz < set_stake c (authors blocks) →
  ∃ lo hi : VerifiedBlock, lo ∈ blocks ∧ hi ∈ blocks ∧ b_author lo ∉ byz ∧ b_author hi ∉ byz ∧
    b_timestamp_ms lo ≤ m ≤ b_timestamp_ms hi.
Proof.
  intros Hopa (_ & Hb & Hu) Hbyz.
  assert (∀ X Y : gset AuthorityIndex, set_stake c byz + set_stake c Y < set_stake c X →
    ∃ i, i ∈ X ∧ i ∉ byz ∧ i ∉ Y) as Hpick.
  { intros X Y Hlt. destruct (weight_pos_inhabited (stake_at c) (X ∖ (byz ∪ Y))) as [i Hi]; [|set_solver].
    pose proof (weight_split (stake_at c) X (byz ∪ Y)).
    pose proof (weight_mono (stake_at c) (X ∩ (byz ∪ Y)) (byz ∪ Y) ltac:(set_solver)).
    pose proof (weight_union_inter (stake_at c) byz Y). unfold set_stake in Hlt. lia. }
  destruct (Hpick (authors_until m blocks) ∅) as (i & Hi & Hib & _).
  { unfold set_stake at 2. rewrite weight_empty. lia. }
  destruct (Hpick (authors blocks) (authors_before m blocks)) as (j & Hj & Hjb & Hjn); [lia|].
  apply elem_of_list_to_set, list_elem_of_fmap in Hi as (lo & -> & [Hlo Hlob]%list_elem_of_filter).
  apply elem_of_list_to_set, list_elem_of_fmap in Hj as (hi & -> & Hhi).
  exists lo, hi. split_and!; try done. apply N.le_ngt. intros Hlt. apply Hjn.
  apply elem_of_list_to_set, list_elem_of_fmap. exists hi. split; [done|]. by apply list_elem_of_filter.
Qed.

End MedianBlocks.

(** ** The timestamp of a commit *)

Section CommitTimestamp.
Context `{Profile} {D : Type} `{BlockStoreLaws D}.
Context (ctx : Context).
Let c := ctx_committee ctx.
Implicit Types d : D.

Definition parent_refs (leader : VerifiedBlock) : list BlockRef :=
  filter (λ a, br_round a = b_round leader - 1) (b_ancestors leader).

(** The leader has a quorum of parents, of distinct authors, all of them in the
    store. *)
Record stampable d (leader : VerifiedBlock) : Prop := {
  sta_round : 0 < b_round leader;
  sta_quorum : is_quorum c (parents leader);
  sta_NoDup : NoDup (br_author <$> parent_refs leader);
  sta_stored : ∀ a, a ∈ parent_refs leader → is_Some (bs_block d a);
}.

Lemma parents_refs (leader : VerifiedBlock) :
  0 < b_round leader → parents leader = list_to_set (br_author <$> parent_refs leader).
Proof.
  intros Hr. unfold parents, parent_refs. do 2 f_equal. apply list_filter_ext_in. intros a _. lia.
Qed.

Lemma calculate_commit_timestamp_spec d leader last :
  Committee_wf c → bs_ok d → stampable d leader →
  ∃ blocks m, Forall2 (λ a b, bs_block d a = Some b) (parent_refs leader) blocks ∧
    one_per_author ctx blocks ∧ authors blocks = parents leader ∧
    median_timestamp_by_stake ctx blocks = Ret (inl m) ∧ weighted_median ctx m blocks ∧
    Linearizer_calculate_commit_timestamp ctx d leader last = Ret (N.max m last).
Proof.
  intros Hwf Hok [Hr Hq Hnd Hst]. unfold Linearizer_calculate_commit_timestamp.
  rewrite (filterP_spec _ (λ a, br_round a = b_round leader - 1)).
  2:{ intros a _. arith. f_equal.
      destruct (N.eqb_spec (br_round a) (b_round leader - 1)); symmetry;
        [by apply bool_decide_eq_true|by apply bool_decide_eq_false]. }
  cbn [mbind M_bind]. fold (parent_refs leader). rewrite bs_get_blocks_spec by done. cbn [mbind M_bind].
  destruct (mapP_expect (bs_block d) "We should have all blocks in dag state." (parent_refs leader))
    as (blocks & -> & Hall); [done|].
  assert ((λ b : VerifiedBlock, b_author b) <$> blocks = br_author <$> parent_refs leader) as Hauth.
  { clear Hnd Hst. induction Hall as [|a b l bs Hab _ IH]; [done|]. csimpl. rewrite IH. f_equal.
    by rewrite <- (bs_reference d a b Hok Hab). }
  assert (authors blocks = parents leader) as Hpar.
  { unfold authors. by rewrite Hauth, parents_refs. }
  assert (one_per_author ctx blocks) as Hopa.
  { split; [by rewrite Hauth|]. intros b Hb. apply Hq. rewrite <- Hpar.
    apply elem_of_list_to_set. by apply (list_elem_of_fmap_2 (λ b : VerifiedBlock, b_author b)). }
  cbn [mbind M_bind]. pose proof Hq as [_ Hqs%N.leb_le]. rewrite <- Hpar in Hqs.
  destruct (median_timestamp_by_stake_spec ctx Hwf blocks Hopa)
    as [[-> _]|[(_ & Hlt & _)|(_ & m & Hmed & Hm)]].
  - pose proof (wf_quorum_pos c Hwf). unfold set_stake, authors in Hqs. simpl in Hqs.
    rewrite weight_empty in Hqs. lia.
  - fold c in Hlt. lia.
  - exists blocks, m. rewrite Hmed. by split_and!.
Qed.


(** C24: the timestamp of a commit is computed for every leader with a quorum of
    parents; it is the later one of the timestamp of the previous commit and a
    median that lies between the timestamps of two parents of the leader whose
    authors are honest, as long as the faulty authorities have less stake than
    the validity threshold. *)
Theorem Linearizer_calculate_commit_timestamp_honest d leader last byz :
  Committee_wf c → bs_ok d → stampable d leader →
  set_stake c byz < Committee_validity_threshold c →
  ∃ m, Linearizer_calculate_commit_timestamp ctx d leader last = Ret (N.max m last) ∧
    ∃ lo hi : VerifiedBlock,
      bs_block d (reference lo) = Some lo ∧ reference lo ∈ b_ancestors leader ∧
      bs_block d (reference hi) = Some hi ∧ reference hi ∈ b_ancestors leader ∧
      b_author lo ∉ byz ∧ b_author hi ∉ byz ∧
      b_timestamp_ms lo ≤ m ≤ b_timestamp_ms hi.
Proof.
  intros Hwf Hok Hst Hbyz.
  destruct (calculate_commit_timestamp_spec d leader last Hwf Hok Hst)
    as (blocks & m & Hall & Hopa & Hauth & _ & Hm & Hts).
  exists m. split; [done|].
  destruct (weighted_median_honest ctx Hwf m blocks byz) as (lo & hi & Hlo & Hhi & ? & ? & ?); [done..| |].
  { rewrite Hauth. destruct (sta_quorum _ _ Hst) as [_ Hq%N.leb_le]. fold c.
    pose proof (wf_validity c Hwf). lia. }
  assert (∀ b : VerifiedBlock, b ∈ blocks →
    bs_block d (reference b) = Some b ∧ reference b ∈ b_ancestors leader) as Hparent.
  { intros b Hb. apply list_elem_of_lookup in Hb as [i Hi].
    destruct (Forall2_lookup_r _ _ _ _ _ Hall Hi) as (a & Ha & Hab).
    rewrite (bs_reference d a b Hok Hab). split; [done|].
    by apply list_elem_of_lookup_2, list_elem_of_filter in Ha as [_ ?]. }
  exists lo, hi. destruct (Hparent lo Hlo), (Hparent hi Hhi). split_and!; [done..|lia|lia].
Qed.

End CommitTimestamp.
