(* ===== verification/CommitChain.v ===== *)
(** * The chain of commits

    [Linearizer::handle_commit] on a DAG state: every leader of the sequence
    gives one commit, whose blocks are new, come after their causal history and
    are chained to the previous commit by its digest.  Authorities that commit
    the same leaders from the same last commit produce the same sub-dags. *)

From S2P Require Import Prelude BTree Config Block Commit Store StakeAggregator ThresholdClock.
From S2P Require Import LeaderScoring DagState DagTheory DagTraversal BaseCommitter CommitRule.
From S2P Require Import Linearizer LinearizerTheory CommitTimestamp.
Local Open Scope N_scope.

(** ** The DAG state as a block store *)

Section DagStateBlockStore.
Context `{Profile} `{Crypto} {S : Type} `{StoreLaws S}.
Implicit Types s : DagState S.

Definition ds_mark s (r : BlockRef) : option bool := bi_committed <$> ds_recent_blocks s !! r.

(** Only the cache differs. *)
Definition ds_frame s s' : Prop := s' = set_recent_blocks (ds_recent_blocks s') s.

Lemma ds_block_reference s r b : ds_ok s → ds_block s r = Some b → reference b = r.
Proof.
  intros Hok. rewrite ds_block_cached. destruct (_ =? _).
  - intros Hb. by apply (ok_genesis s Hok r b).
  - destruct (ds_cached s r) eqn:Hc; intros; simplify_eq.
    + by apply (ok_cached s Hok).
    + by apply (st_block_ref (ds_store s)); [apply ok_store|].
Qed.

Lemma ds_mark_cached s r m : ds_mark s r = Some m → is_Some (ds_cached s r).
Proof. unfold ds_mark, ds_cached. destruct (_ !! r); [by eexists|done]. Qed.

Lemma ds_cached_block s r b : ds_ok s → ds_cached s r = Some b → ds_block s r = Some b.
Proof.
  intros Hok Hc. rewrite ds_block_cached, Hc. destruct (ok_cached s Hok r b Hc) as (_ & Hpos & _).
  unfold GENESIS_ROUND. destruct (N.eqb_spec (br_round r) 0); [lia|done].
Qed.

Lemma set_committed_spec s r m :
  ds_ok s → ds_mark s r = Some m →
  ∃ s', DagState_set_committed s r = Ret (s', negb m) ∧ (ds_ok s' ∧ ds_frame s s') ∧
    (∀ r', ds_block s' r' = ds_block s r') ∧
    (∀ r', ds_mark s' r' = if decide (r' = r) then Some true else ds_mark s r').
Proof.
  intros Hok Hm. destruct (DagState_set_committed s r) as [[s' fresh]| |] eqn:Hs.
  2,3: unfold DagState_set_committed, ds_mark in *; destruct (_ !! r); [by destruct (negb _)|done].
  pose proof (set_committed_view s r s' fresh Hs) as [Hv Hl].
  assert (ds_ok s') as Hok'.
  { apply (same_view_ok s); [done| |done]. apply gc_round_mono; [apply Hv|].
    unfold DagState_last_commit_round. by rewrite Hl. }
  unfold DagState_set_committed, ds_mark in *. destruct (ds_recent_blocks s !! r) as [info|] eqn:Hr; [|done].
  simpl in Hm. simplify_eq. exists s'. destruct (bi_committed info) eqn:Hc; simpl in Hs; simplify_eq.
  - split_and!; [done|done|unfold ds_frame; by destruct s'|done|].
    intros r'. destruct (decide (r' = r)) as [->|]; [by rewrite Hr; simpl; rewrite Hc|done].
  - split_and!; [done|done|done|intros; by apply same_view_block|].
    intros r'. destruct (decide (r' = r)) as [->|]; simpl; [by rewrite lookup_insert_eq|].
    by rewrite lookup_insert_ne.
Qed.

#[export] Instance DagState_block_store_laws : BlockStoreLaws (DagState S).
Proof.
  refine {| bs_ok := ds_ok; bs_block := ds_block; bs_mark := ds_mark;
            bs_pending := λ s, dom (ds_recent_blocks s); bs_frame := ds_frame |}.
  - split; [intros s; unfold ds_frame; by destruct s|].
    intros s1 s2 s3 -> ->. by unfold ds_frame.
  - intros s r Hm. unfold ds_mark in Hm. apply elem_of_dom.
    destruct (ds_recent_blocks s !! r); [by eexists|done].
  - intros s refs Hok. by apply get_blocks_spec, ok_store.
  - intros s r m Hm. unfold ds_mark in Hm. simpl. unfold DagState_is_committed.
    destruct (ds_recent_blocks s !! r); simpl in *; by simplify_eq.
  - apply set_committed_spec.
  - intros s r m Hok [b Hb]%ds_mark_cached. exists b. by apply ds_cached_block.
  - apply ds_block_reference.
Defined.

Lemma linearize_fuel_enough s : (size (bs_pending s) < linearize_fuel s)%nat.
Proof. unfold linearize_fuel. simpl. rewrite size_dom. lia. Qed.

Lemma add_commit_returns s (commit : TrustedCommit) :
  ds_ok s → DagState_last_commit_index s < u32_max →
  length (ds_last_committed_rounds s) = length (Committee_authorities (DagState_committee s)) →
  c_index commit = DagState_last_commit_index s + 1 →
  DagState_last_commit_timestamp_ms s ≤ c_timestamp_ms commit →
  (∀ r, r ∈ c_blocks commit → br_author r ∈ members (DagState_committee s)) →
  ∃ s', DagState_add_commit s commit = Ret s' ∧ ds_last_commit s' = Some commit ∧
    ds_recent_blocks s' = ds_recent_blocks s ∧
    length (ds_last_committed_rounds s') = length (ds_last_committed_rounds s).
Proof.
  intros Hok Hmax Hlen Hi Ht Hm. unfold DagState_add_commit.
  assert ((match ds_last_commit s with
         | Some last_commit =>
             if c_index commit <=? c_index last_commit then Ret true
             else
               next ← u32_add (c_index last_commit) 1;
               assert_that (c_index commit =? next) "commit.index() == last_commit.index() + 1";;
               if c_timestamp_ms commit <? c_timestamp_ms last_commit
               then Panic (Explicit "Commit timestamps do not monotonically increment")
               else Ret false
         | None => assert_that (c_index commit =? 1) "commit.index() == 1";; Ret false
         end) = Ret false) as ->.
  { unfold DagState_last_commit_index, DagState_last_commit_timestamp_ms in *. rewrite Hi.
    destruct (ds_last_commit s) as [lc|]; [|done].
    rewrite (proj2 (N.leb_gt _ _)) by lia. arith.
    rewrite N.eqb_refl. cbn [mbind M_bind assert_that]. by rewrite (proj2 (N.ltb_ge _ _)) by lia. }
  cbn [mbind M_bind].
  destruct (foldM_returns raise_committed_round
    (λ rounds, length rounds = length (Committee_authorities (DagState_committee s)))
    (c_blocks commit) (ds_last_committed_rounds s)) as (rounds & Hrounds & Hlen'); [|done|].
  { intros rounds r Hr Hl. destruct (index_member s rounds (br_author r) Hl (Hm r Hr)) as [x Hx].
    unfold raise_committed_round, index, index_update. rewrite Hx. cbn [mbind M_bind].
    eexists. split; [done|]. by rewrite length_insert. }
  simpl. rewrite Hrounds. cbn [mbind M_bind].
  match goal with |- context [mapP ?f ?l] => destruct (mapP_returns f l) as [x Hx] end.
  { intros i Hi'%elem_of_seq. unfold Committee_to_authority_index, Committee_size, DagState_committee in *.
    simpl. rewrite (proj2 (N.ltb_lt _ _)) by lia. by eexists. }
  rewrite Hx. cbn [mbind M_bind]. eexists. split; [done|]. simpl. by rewrite Hlen'.
Qed.

End DagStateBlockStore.

(** ** One commit *)

Section CommitStep.
Context `{Profile} `{Crypto} `{CommitBcs} {S : Type} `{StoreLaws S}.
Context (ctx : Context).
Let c := ctx_committee ctx.
Implicit Types s : DagState S.
Implicit Types C : gset BlockRef.

(** A DAG state whose committed blocks above the garbage collection round are
    those in [C], a set closed under ancestry. *)
Record chain_ok s C : Prop := {
  ch_ok : ds_ok s;
  ch_context : ds_context s = ctx;
  ch_rounds : length (ds_last_committed_rounds s) = length (Committee_authorities c);
  ch_dag : ∀ r b, ds_block s r = Some b → NoDup (b_ancestors b) ∧
    ∀ a, a ∈ b_ancestors b → br_round a < br_round r ∧ br_author a ∈ members c;
  ch_cached : ∀ r b a, ds_cached s r = Some b → a ∈ b_ancestors b →
    DagState_gc_round s < br_round a → is_Some (ds_cached s a);
  ch_marks : ∀ r m, ds_mark s r = Some m → DagState_gc_round s < br_round r → m = bool_decide (r ∈ C);
  ch_closed : ∀ r b a, r ∈ C → ds_cached s r = Some b → a ∈ b_ancestors b →
    DagState_gc_round s < br_round a → a ∈ C;
}.

(** A leader that can be committed next. *)
Record leader_ok s C (leader : VerifiedBlock) : Prop := {
  lo_cached : ds_cached s (reference leader) = Some leader;
  lo_fresh : reference leader ∉ C;
  lo_round : DagState_last_commit_round s ≤ b_round leader;
  lo_stamp : stampable ctx s leader;
}.

Definition refs_of (sd : CommittedSubDag) : gset BlockRef := list_to_set (reference <$> sd_blocks sd).

(** Each block comes after its ancestors above [gc], which are in [C] or earlier
    in the list. *)
Definition causal (gc : Round) C (l : list VerifiedBlock) : Prop :=
  ∀ pre (b : VerifiedBlock) post a, l = pre ++ b :: post → a ∈ b_ancestors b → gc < br_round a →
  a ∈ C ∨ a ∈ reference <$> pre.

(** The history of [l] above [gc]. *)
Definition history (gc : Round) s (l r : BlockRef) : Prop :=
  rtc (λ x a, ∃ b, ds_block s x = Some b ∧ a ∈ b_ancestors b ∧ gc < br_round a) l r.

(** What one leader adds to the chain of commits. *)
Record commits s C (leader : VerifiedBlock) s' (sd : CommittedSubDag) : Prop := {
  cs_leader : sd_leader sd = reference leader;
  cs_exact : ∀ r, r ∈ reference <$> sd_blocks sd ↔
    history (DagState_gc_round s) s (reference leader) r ∧ r ∉ C;
  cs_NoDup : NoDup (reference <$> sd_blocks sd);
  cs_blocks : ∀ b, b ∈ sd_blocks sd → ds_block s (reference b) = Some b;
  cs_causal : causal (DagState_gc_round s) C (sd_blocks sd);
  cs_index : cr_index (sd_commit_ref sd) = DagState_last_commit_index s + 1;
  cs_timestamp : DagState_last_commit_timestamp_ms s ≤ sd_timestamp_ms sd;
  cs_commit : ∃ commit, ds_last_commit s' = Some commit ∧
    TrustedCommit_reference commit = sd_commit_ref sd ∧
    c_previous_digest commit = DagState_last_commit_digest s ∧
    c_timestamp_ms commit = sd_timestamp_ms sd ∧
    c_leader commit = reference leader ∧
    c_blocks commit = reference <$> sd_blocks sd;
}.

Context (Hdepth : 1 ≤ pc_gc_depth (ctx_protocol_config ctx)).

Lemma leader_above_gc s C leader :
  chain_ok s C → leader_ok s C leader → DagState_gc_round s < b_round leader.
Proof using Hdepth.
  intros Hch [Hc _ Hr _]. destruct (ok_cached s (ch_ok _ _ Hch) _ _ Hc) as (_ & Hpos & _).
  unfold DagState_gc_round, DagState_calculate_gc_round, DagState_protocol_config.
  rewrite (ch_context _ _ Hch). simpl in Hpos. lia.
Qed.

Lemma mark_above_gc s C r :
  chain_ok s C → is_Some (ds_cached s r) → DagState_gc_round s < br_round r →
  ds_mark s r = Some (bool_decide (r ∈ C)).
Proof.
  intros Hch [b Hb] Hgc. unfold ds_cached in Hb.
  destruct (ds_recent_blocks s !! r) as [info|] eqn:Hr; [|done].
  assert (ds_mark s r = Some (bi_committed info)) as Hm by (unfold ds_mark; by rewrite Hr).
  rewrite Hm. f_equal. by apply (ch_marks _ _ Hch r).
Qed.

(** The history of a leader above the garbage collection round is cached. *)
Lemma history_cached s C leader r :
  chain_ok s C → leader_ok s C leader → history (DagState_gc_round s) s (reference leader) r →
  is_Some (ds_cached s r) ∧ DagState_gc_round s < br_round r.
Proof using Hdepth.
  intros Hch Hlo Hh. pose proof (leader_above_gc s C leader Hch Hlo) as Hgc.
  revert r Hh. apply rtc_ind_r; [split; [rewrite (lo_cached _ _ _ Hlo); by eexists|done]|].
  intros r a _ (b & Hb & Ha & Hga) [_ Hgr]. rewrite cached_above_gc in Hb by (done || apply Hch).
  split; [by eapply ch_cached|done].
Qed.

Lemma reached_history s C leader r :
  chain_ok s C → leader_ok s C leader →
  reached (DagState_gc_round s) s (reference leader) r ↔
  history (DagState_gc_round s) s (reference leader) r ∧ r ∉ C.
Proof using Hdepth.
  intros Hch Hlo. split.
  - revert r. apply rtc_ind_r; [split; [apply rtc_refl|apply Hlo]|].
    intros r a _ (b & Hb & Ha & Hga & Hm) [IH _].
    split; [eapply rtc_r; [exact IH|by exists b]|]. simpl in Hm.
    rewrite (mark_above_gc s C a) in Hm by (done || by eapply ds_mark_cached). simplify_eq.
    by apply bool_decide_eq_false in Hm.
  - intros [Hh Hn]. revert r Hh Hn. apply (rtc_ind_r (λ r, r ∉ C → reached _ _ _ r));
      [intros _; apply rtc_refl|]. intros r a Hh (b & Hb & Ha & Hga) IH Hn.
    destruct (history_cached s C leader r Hch Hlo Hh) as [_ Hgr].
    pose proof Hb as Hcb. rewrite cached_above_gc in Hcb by (done || apply Hch).
    assert (r ∉ C) as Hrn by (intros Hrc; by apply Hn, (ch_closed _ _ Hch r b a)).
    eapply rtc_r; [by apply IH|]. exists b. split_and!; [done..|]. simpl.
    rewrite (mark_above_gc s C a); [by rewrite bool_decide_eq_false_2|done| |done].
    by eapply ch_cached.
Qed.

Lemma chain_committable s C leader :
  chain_ok s C → leader_ok s C leader → committable (DagState_gc_round s) s leader.
Proof using Hdepth.
  intros Hch Hlo. pose proof (leader_above_gc s C leader Hch Hlo) as Hgc.
  assert (∀ r b, reached (DagState_gc_round s) s (reference leader) r → ds_block s r = Some b →
    ds_cached s r = Some b) as Hcb.
  { intros r b [Hh _]%(reached_history _ C) Hb; [|done..].
    destruct (history_cached s C leader r Hch Hlo Hh) as [_ Hgr].
    by rewrite cached_above_gc in Hb by (done || apply Hch). }
  split; simpl.
  - apply ds_cached_block; [apply Hch|apply Hlo].
  - rewrite (mark_above_gc s C); [|done|rewrite (lo_cached _ _ _ Hlo); by eexists|done].
    rewrite bool_decide_eq_false_2; [done|apply Hlo].
  - done.
  - intros r b a Hr Hb Ha Hga. apply Hcb in Hb; [|done].
    rewrite (mark_above_gc s C a); [by eexists|done| |done]. by eapply ch_cached.
  - intros r b _ Hb. by apply (ch_dag _ _ Hch r b).
Qed.

(** Blocks sorted by round come after their ancestors. *)
Lemma linearized_causal s C leader s1 l :
  chain_ok s C → leader_ok s C leader →
  linearized (DagState_gc_round s) s leader s1 l → causal (DagState_gc_round s) C l.
Proof using Hdepth.
  intros Hch Hlo [Href Hnd Hblk Hsort _] pre b post a -> Ha Hga.
  destruct (decide (a ∈ C)) as [|Hn]; [by left|right].
  destruct (Hblk b) as (Hb & _ & _); [apply elem_of_app; right; left|].
  assert (a ∈ reference <$> (pre ++ b :: post)) as Hin.
  { apply Href, (reached_history _ C); [done..|]. split; [|done].
    assert (reference b ∈ reference <$> (pre ++ b :: post)) as Hin.
    { apply list_elem_of_fmap_2, elem_of_app. right. left. }
    apply Href, (reached_history _ C) in Hin as [Hh _]; [|done..].
    eapply rtc_r; [exact Hh|]. by exists b. }
  destruct (ch_dag _ _ Hch _ b Hb) as [_ Hlt]. destruct (Hlt a Ha) as [Hround _].
  rewrite fmap_app, elem_of_app in Hin. destruct Hin as [|Hin]; [done|exfalso].
  apply list_elem_of_fmap in Hin as (b' & -> & Hb').
  assert (b_round b ≤ b_round b'); [|simpl in Hround; lia].
  apply list.elem_of_cons in Hb' as [->|Hb']; [done|].
  apply StronglySorted_app in Hsort as (_ & _ & Hs). inversion Hs as [|? ? _ Hall]; subst.
  rewrite Forall_forall in Hall. by apply block_rank_round, Hall.
Qed.

Context (Hwf : Committee_wf c) (Hbcs : ∀ commit, is_Some (bcs_commit commit)).

Definition stamp_of s (leader : VerifiedBlock) (ts : BlockTimestampMs) : Prop :=
  ∃ blocks m, Forall2 (λ a b, ds_block s a = Some b) (parent_refs leader) blocks ∧
    median_timestamp_by_stake ctx blocks = Ret (inl m) ∧
    ts = N.max m (DagState_last_commit_timestamp_ms s).

(** The commit of [leader] with the blocks [l]. *)
Definition commit_body s (leader : VerifiedBlock) (l : list VerifiedBlock) (ts : BlockTimestampMs) : Commit :=
  Commit_new (DagState_last_commit_index s + 1) (DagState_last_commit_digest s) ts (reference leader)
    (reference <$> l).

Definition commit_of s leader l ts : TrustedCommit :=
  TrustedCommit_new_trusted (commit_body s leader l ts) (default [] (bcs_commit (commit_body s leader l ts))).

Definition sub_dag_of s leader l ts : CommittedSubDag :=
  CommittedSubDag_new (reference leader) l ts (TrustedCommit_reference (commit_of s leader l ts)).

Lemma stampable_blocks s s' leader :
  (∀ r, ds_block s' r = ds_block s r) → stampable ctx s leader → stampable ctx s' leader.
Proof. intros Hb []. split; [done..|]. simpl in *. intros a Ha. rewrite Hb. by apply sta_stored. Qed.

Lemma collect_spec s C leader s1 l :
  chain_ok s C → leader_ok s C leader → DagState_last_commit_index s < u32_max →
  Linearizer_linearize_sub_dag (linearize_fuel s) leader s = Ret (s1, l) →
  linearized (DagState_gc_round s) s leader s1 l →
  ∃ ts, stamp_of s leader ts ∧
    Linearizer_collect_sub_dag_and_commit ctx s leader
    = Ret (s1, (sub_dag_of s leader l ts, commit_of s leader l ts)).
Proof using Hwf Hbcs Hdepth.
  intros Hch Hlo Hmax Hl Hlin. destruct (lz_marked _ _ _ _ _ Hlin) as ([Hok1 _] & Hb1 & _).
  unfold Linearizer_collect_sub_dag_and_commit. rewrite Hl. cbn [mbind M_bind].
  destruct (calculate_commit_timestamp_spec ctx s1 leader (DagState_last_commit_timestamp_ms s) Hwf Hok1)
    as (blocks & m & Hall & _ & _ & Hmed & _ & ->).
  { eapply stampable_blocks; [exact Hb1|apply Hlo]. }
  cbn [mbind M_bind]. arith.
  set (ts := N.max m (DagState_last_commit_timestamp_ms s)).
  change (Commit_new (DagState_last_commit_index s + 1) (DagState_last_commit_digest s) ts
            (reference leader) (reference <$> l)) with (commit_body s leader l ts).
  destruct (Hbcs (commit_body s leader l ts)) as [ser Hser]. rewrite Hser. exists ts. split.
  - exists blocks, m. split_and!; [|done..]. eapply Forall2_impl; [exact Hall|]. simpl.
    intros a b Hab. rewrite <- Hab. symmetry. apply Hb1.
  - unfold sub_dag_of, commit_of. by rewrite Hser.
Qed.

(** The metric does not get in the way. *)
Lemma update_blocks_pruned_metric_returns s sd :
  length (ds_last_committed_rounds s) = length (Committee_authorities c) →
  (∀ (b : VerifiedBlock) a, b ∈ sd_blocks sd → a ∈ b_ancestors b → br_author a ∈ members c) →
  ∃ x, Linearizer_update_blocks_pruned_metric ctx s sd = Ret x.
Proof using Hdepth.
  intros Hlen Hm. unfold Linearizer_update_blocks_pruned_metric.
  assert (∀ a, a ∈ concat ((λ block : VerifiedBlock, b_ancestors block) <$> sd_blocks sd) →
    br_author a ∈ members c ∧ ∃ round, index (ds_last_committed_rounds s) (br_author a) = Ret round) as Hin.
  { intros a (l & Hl%list_elem_of_In & Ha%list_elem_of_In)%list_elem_of_In%in_concat.
    apply list_elem_of_fmap in Hl as (b & -> & Hb).
    specialize (Hm b a Hb Ha). split; [done|]. apply members_spec in Hm.
    unfold Committee_is_valid_index, Committee_size in Hm. nbool.
    destruct (lookup_lt_is_Some_2 (ds_last_committed_rounds s) (N.to_nat (br_author a))) as [x Hx]; [lia|].
    exists x. unfold index. by rewrite Hx. }
  match goal with |- context [filterP ?f ?l] => destruct (filterP_returns f l) as (refs & -> & Hsub) end.
  { intros a Ha. destruct (_ <=? _); [|by eauto]. destruct (Hin a Ha) as [_ [x ->]]. by eexists. }
  cbn [mbind M_bind]. apply mapP_returns. intros a Ha%elem_of_remove_dups%Hsub.
  destruct (Hin a Ha) as [Hmem [x Hx]]. unfold pruned_label.
  apply members_spec, Committee_stake_valid in Hmem. unfold Committee_stake in Hmem. fold c.
  destruct (Committee_authority c (br_author a)); try done. cbn [mbind M_bind]. rewrite Hx. by eexists.
Qed.

(** Marking leaves the cached blocks alone. *)
Lemma marked_cached s refs s1 r :
  ds_ok s → marked s refs s1 → (∀ x, x ∈ refs → is_Some (ds_cached s x)) →
  ds_cached s1 r = ds_cached s r.
Proof using.
  intros Hok ([Hok1 _] & Hb1 & Hm1) Hrefs. simpl in *.
  assert (is_Some (ds_cached s1 r) ↔ is_Some (ds_cached s r)) as Hdom.
  { specialize (Hm1 r). unfold ds_mark, ds_cached in *. destruct (decide (r ∈ refs)) as [Hin|_].
    - destruct (Hrefs r Hin) as [b Hb].
      destruct (ds_recent_blocks s !! r), (ds_recent_blocks s1 !! r); done.
    - destruct (ds_recent_blocks s !! r), (ds_recent_blocks s1 !! r); done. }
  destruct (ds_cached s r) as [b|] eqn:Hb, (ds_cached s1 r) as [b1|] eqn:Hb1'; [| |..|done].
  - apply ds_cached_block in Hb, Hb1'; [|done..]. rewrite Hb1 in Hb1'. by simplify_eq.
  - destruct Hdom as [_ [? ?]]; [by eexists|done].
  - destruct Hdom as [[? ?] _]; [by eexists|done].
Qed.

Lemma linearized_cached s C leader s1 l r :
  chain_ok s C → linearized (DagState_gc_round s) s leader s1 l → ds_cached s1 r = ds_cached s r.
Proof using.
  intros Hch Hlin. eapply marked_cached; [apply Hch|apply Hlin|].
  intros x (b & -> & Hb)%list_elem_of_fmap. destruct (lz_blocks _ _ _ _ _ Hlin b Hb) as (_ & Hmb & _).
  by eapply ds_mark_cached.
Qed.

(** After the commit the blocks of the sub-dag are committed as well. *)
Lemma chain_ok_next s C leader s1 l s2 commit :
  chain_ok s C → leader_ok s C leader →
  linearized (DagState_gc_round s) s leader s1 l →
  same_view s1 s2 → ds_last_commit s2 = Some commit → c_leader commit = reference leader →
  ds_recent_blocks s2 = ds_recent_blocks s1 →
  length (ds_last_committed_rounds s2) = length (ds_last_committed_rounds s1) →
  chain_ok s2 (C ∪ list_to_set (reference <$> l)).
Proof using Hdepth.
  intros Hch Hlo Hlin Hv Hlast Hleader Hrecent Hrounds. pose proof Hch as [Hok Hctx Hlen Hdag Hca Hma Hcl].
  assert (∀ r, ds_cached s2 r = ds_cached s r) as Hc2.
  { intros r. rewrite (sv_cached _ _ Hv). by eapply linearized_cached. }
  destruct (lz_marked _ _ _ _ _ Hlin) as ([Hok1 Hf] & Hb1 & Hm1). simpl in Hok1, Hf, Hb1, Hm1.
  assert (ds_context s2 = ctx) as Hctx2 by (rewrite (sv_context _ _ Hv), Hf; done).
  assert (DagState_gc_round s ≤ DagState_gc_round s2) as Hgc.
  { apply gc_round_mono; [by rewrite Hctx2|]. unfold DagState_last_commit_round at 2.
    rewrite Hlast, Hleader. apply Hlo. }
  split; [|done| | | | |].
  - apply (same_view_ok s1); [done| |done]. rewrite Hf. exact Hgc.
  - rewrite Hrounds, Hf. done.
  - intros r b. rewrite (same_view_block _ _ _ Hv), Hb1. apply Hdag.
  - intros r b a. rewrite !Hc2. intros Hr Ha Hga. apply (Hca r b); [done..|lia].
  - intros r m Hm Hg. unfold ds_mark in Hm. rewrite Hrecent in Hm. fold (ds_mark s1 r) in Hm.
    rewrite Hm1 in Hm. destruct (decide (r ∈ reference <$> l)) as [Hin|Hn]; simplify_eq.
    + symmetry. apply bool_decide_eq_true. apply elem_of_union_r, elem_of_list_to_set, Hin.
    + rewrite (Hma r m) by (done || lia). apply bool_decide_ext.
      rewrite elem_of_union, elem_of_list_to_set. tauto.
  - intros r b a Hr. rewrite Hc2. intros Hb Ha Hga.
    rewrite elem_of_union, elem_of_list_to_set in Hr |- *. destruct Hr as [Hr|Hr].
    + left. apply (Hcl r b a); [done..|lia].
    + destruct (decide (a ∈ C)) as [|Hn]; [by left|right].
      apply (lz_refs _ _ _ _ _ Hlin), (reached_history _ C); [done..|]. split; [|done].
      apply (lz_refs _ _ _ _ _ Hlin), (reached_history _ C) in Hr as [Hh _]; [|done..].
      eapply rtc_r; [exact Hh|]. exists b. split_and!; [by apply ds_cached_block|done|lia].
Qed.

Lemma linearized_commits s C leader s1 l ts s2 :
  chain_ok s C → leader_ok s C leader → linearized (DagState_gc_round s) s leader s1 l →
  stamp_of s leader ts → ds_last_commit s2 = Some (commit_of s leader l ts) →
  commits s C leader s2 (sub_dag_of s leader l ts).
Proof using Hdepth.
  intros Hch Hlo Hlin (blocks & m & _ & _ & ->) Hlast. split; simpl; [done| | | | |done|lia|].
  - intros r. rewrite <- reached_history by done. apply Hlin.
  - apply Hlin.
  - intros b Hb. by apply (lz_blocks _ _ _ _ _ Hlin).
  - by eapply linearized_causal.
  - eexists. by split_and!.
Qed.

Lemma handle_leader_spec s C subs leader s1 l :
  chain_ok s C → leader_ok s C leader → DagState_last_commit_index s < u32_max →
  Linearizer_linearize_sub_dag (linearize_fuel s) leader s = Ret (s1, l) →
  linearized (DagState_gc_round s) s leader s1 l →
  ∃ s2 ts, stamp_of s leader ts ∧
    handle_leader ctx (s, subs) leader = Ret (s2, subs ++ [sub_dag_of s leader l ts]) ∧
    ds_last_commit s2 = Some (commit_of s leader l ts) ∧
    chain_ok s2 (C ∪ list_to_set (reference <$> l)) ∧
    commits s C leader s2 (sub_dag_of s leader l ts) ∧
    (∀ r, ds_cached s2 r = ds_cached s r) ∧ ∀ r, ds_block s2 r = ds_block s r.
Proof using Hwf Hbcs Hdepth.
  intros Hch Hlo Hmax Hl Hlin.
  destruct (collect_spec s C leader s1 l Hch Hlo Hmax Hl Hlin) as (ts & Hst & Hcol).
  destruct (lz_marked _ _ _ _ _ Hlin) as ([Hok1 Hf] & Hb1 & Hm1). simpl in Hok1, Hf, Hb1, Hm1.
  unfold handle_leader. rewrite Hcol. cbn [mbind M_bind].
  destruct (update_blocks_pruned_metric_returns s1 (sub_dag_of s leader l ts)) as [x Hx].
  { rewrite Hf. apply Hch. }
  { intros b a Hb Ha. destruct (lz_blocks _ _ _ _ _ Hlin b Hb) as (Hblk & _).
    by apply (ch_dag _ _ Hch _ _ Hblk). }
  rewrite Hx. cbn [mbind M_bind].
  destruct (add_commit_returns s1 (commit_of s leader l ts)) as (s2 & Hadd & Hlast & Hrec & Hlen).
  { done. }
  { by rewrite Hf. }
  { rewrite Hf. unfold DagState_committee. simpl. rewrite (ch_context _ _ Hch). apply Hch. }
  { by rewrite Hf. }
  { rewrite Hf. simpl. destruct Hst as (? & ? & _ & _ & ->).
    change (DagState_last_commit_timestamp_ms (set_recent_blocks (ds_recent_blocks s1) s))
      with (DagState_last_commit_timestamp_ms s). lia. }
  { simpl. intros r (b & -> & Hb)%list_elem_of_fmap.
    destruct (lz_blocks _ _ _ _ _ Hlin b Hb) as (_ & Hmb & _). apply ds_mark_cached in Hmb as [b' Hb'].
    rewrite Hf. by apply (ok_cached s (ch_ok _ _ Hch) _ b'). }
  rewrite Hadd. cbn [mbind M_bind]. apply add_commit_view in Hadd as [Hv _].
  exists s2, ts. split_and!; [done|done|done| | | |].
  - by eapply chain_ok_next.
  - by eapply linearized_commits.
  - intros r. rewrite (sv_cached _ _ Hv). by eapply linearized_cached.
  - intros r. rewrite (same_view_block _ _ _ Hv). apply Hb1.
Qed.

(** ** Runs *)

(** Leaders in the order of their rounds, each of which can be committed. *)
Record leaders_ok s C (leaders : list VerifiedBlock) : Prop := {
  ls_leader : ∀ b, b ∈ leaders → leader_ok s C b;
  ls_order : StronglySorted (λ a b : VerifiedBlock, b_round a ≤ b_round b ∧ reference a ≠ reference b) leaders;
}.

Inductive commit_run : DagState S → gset BlockRef → list VerifiedBlock → list CommittedSubDag →
    DagState S → gset BlockRef → Prop :=
| run_nil s C : commit_run s C [] [] s C
| run_cons s C leader s1 sd leaders sds s2 C2 :
    commits s C leader s1 sd → commit_run s1 (C ∪ refs_of sd) leaders sds s2 C2 →
    commit_run s C (leader :: leaders) (sd :: sds) s2 C2.

Lemma history_round s C gc l r :
  chain_ok s C → history gc s l r → r = l ∨ br_round r < br_round l.
Proof using Hdepth.
  intros Hch Hh. revert r Hh. apply rtc_ind_r; [by left|].
  intros r a _ (b & Hb & Ha & _) IH. right. destruct (ch_dag _ _ Hch r b Hb) as [_ Hlt].
  destruct (Hlt a Ha) as [Hr _]. destruct IH as [->|]; lia.
Qed.

(** Committing the first leader leaves the others to be committed. *)
Lemma leaders_ok_next s C leader leaders s2 sd :
  chain_ok s C → leaders_ok s C (leader :: leaders) → commits s C leader s2 sd →
  (∀ r, ds_cached s2 r = ds_cached s r) → (∀ r, ds_block s2 r = ds_block s r) →
  leaders_ok s2 (C ∪ refs_of sd) leaders.
Proof using Hdepth.
  intros Hch [Hlo Hord] Hcom Hc Hb. inversion Hord as [|? ? Hs Hall]; subst.
  rewrite Forall_forall in Hall. split; [|done]. intros b Hbl.
  destruct (Hlo b ltac:(by right)) as [Hca Hfr _ Hst]. destruct (Hall b Hbl) as [Hround Hne].
  split; [by rewrite Hc| | |by eapply stampable_blocks].
  - intros [|Hin%elem_of_list_to_set%(cs_exact _ _ _ _ _ Hcom)]%elem_of_union; [done|].
    destruct Hin as [[Heq|Hlt]%(history_round _ C) _]; [by apply Hne|simpl in Hlt; lia|done].
  - destruct (cs_commit _ _ _ _ _ Hcom) as (commit & Hl & _ & _ & _ & Hleader & _).
    unfold DagState_last_commit_round. rewrite Hl, Hleader. done.
Qed.

Lemma handle_leaders_run leaders s C subs :
  chain_ok s C → leaders_ok s C leaders →
  DagState_last_commit_index s + N.of_nat (length leaders) ≤ u32_max →
  ∃ s' C' sds, foldM (handle_leader ctx) (s, subs) leaders = Ret (s', subs ++ sds) ∧
    commit_run s C leaders sds s' C' ∧ chain_ok s' C'.
Proof using Hwf Hbcs Hdepth.
  revert s C subs. induction leaders as [|leader leaders IH]; intros s C subs Hch Hls Hmax; cbn [foldM].
  { exists s, C, []. rewrite app_nil_r. split_and!; [done|constructor|done]. }
  assert (leader_ok s C leader) as Hlo by (apply Hls; left).
  destruct (linearize_sub_dag_spec s leader (linearize_fuel s)) as (s1 & l & Hl & Hlin);
    [apply Hch|by eapply chain_committable|apply linearize_fuel_enough|].
  destruct (handle_leader_spec s C subs leader s1 l) as (s2 & ts & Hst & -> & Hlast & Hch2 & Hcom & Hc & Hb);
    [done..|simpl in Hmax; lia|done|done|].
  cbn [mbind M_bind].
  destruct (IH s2 (C ∪ refs_of (sub_dag_of s leader l ts)) (subs ++ [sub_dag_of s leader l ts]))
    as (s' & C' & sds & -> & Hrun & Hch'); [done|by eapply leaders_ok_next| |].
  { unfold DagState_last_commit_index. rewrite Hlast. simpl in *. lia. }
  exists s', C', (sub_dag_of s leader l ts :: sds). rewrite <- app_assoc.
  split_and!; [done|by econstructor|done].
Qed.

Definition committed_refs (sds : list CommittedSubDag) : list BlockRef :=
  concat ((λ sd, reference <$> sd_blocks sd) <$> sds).

Lemma commit_run_refs s C leaders sds s' C' :
  commit_run s C leaders sds s' C' →
  C' = C ∪ list_to_set (committed_refs sds) ∧ NoDup (committed_refs sds) ∧
  ∀ r, r ∈ committed_refs sds → r ∉ C.
Proof using.
  induction 1 as [s C|s C leader s1 sd leaders sds s2 C2 Hcom _ (-> & Hnd & Hfresh)].
  { split_and!; [symmetry; apply union_empty_r_L|constructor|by intros ? ?%not_elem_of_nil]. }
  unfold committed_refs in *. csimpl. unfold refs_of. split_and!.
  - by rewrite list_to_set_app_L, (assoc_L (∪)).
  - apply NoDup_app. split_and!; [apply Hcom| |done]. intros r Hr Hr'%Hfresh. apply Hr'.
    by apply elem_of_union_r, elem_of_list_to_set.
  - intros r [Hr|Hr%Hfresh]%elem_of_app; [by apply (cs_exact _ _ _ _ _ Hcom)|].
    intros Hc. by apply Hr, elem_of_union_l.
Qed.

Lemma commit_run_chain s C leaders sds s' C' :
  commit_run s C leaders sds s' C' →
  sd_leader <$> sds = reference <$> leaders ∧
  (∀ i sd, sds !! i = Some sd →
     cr_index (sd_commit_ref sd) = DagState_last_commit_index s + 1 + N.of_nat i) ∧
  StronglySorted N.le (DagState_last_commit_timestamp_ms s :: (sd_timestamp_ms <$> sds)).
Proof using Hdepth.
  induction 1 as [s C|s C leader s1 sd leaders sds s2 C2 Hcom _ (Hl & Hi & Ht)].
  { split_and!; [done|by intros|repeat constructor]. }
  destruct (cs_commit _ _ _ _ _ Hcom) as (commit & Hlast & Href & _ & Hts & _).
  pose proof (cs_index _ _ _ _ _ Hcom) as Hidx. pose proof (cs_timestamp _ _ _ _ _ Hcom) as Htm.
  unfold DagState_last_commit_index, DagState_last_commit_timestamp_ms in Hi, Ht.
  rewrite Hlast in Hi, Ht. rewrite Hts in Ht. csimpl. split_and!.
  - by rewrite (cs_leader _ _ _ _ _ Hcom), Hl.
  - intros [|i] sd' Hsd; simpl in Hsd; simplify_eq; [lia|]. rewrite (Hi i sd' Hsd).
    rewrite <- Href in Hidx. simpl in Hidx. lia.
  - constructor; [done|]. constructor; [done|]. inversion Ht as [|? ? _ Hall]; subst.
    eapply Forall_impl; [exact Hall|]. intros x Hx. simpl in Hx. lia.
Qed.

(** C14: [handle_commit] returns on every sequence of leaders that can be
    committed, in the order of their rounds.  It makes one commit per leader:
    the indices are consecutive, the timestamps never decrease, every commit has
    the digest of the one before it, its blocks are exactly the history of the
    leader above the garbage collection round that was not committed before,
    listed after their ancestors, and no block is ever committed twice. *)
Theorem Linearizer_handle_commit_chain s C leaders :
  chain_ok s C → leaders_ok s C leaders →
  DagState_last_commit_index s + N.of_nat (length leaders) ≤ u32_max →
  ∃ s' C' sds, Linearizer_handle_commit ctx s leaders = Ret (s', sds) ∧
    commit_run s C leaders sds s' C' ∧ chain_ok s' C' ∧
    sd_leader <$> sds = reference <$> leaders ∧
    NoDup (committed_refs sds) ∧ (∀ r, r ∈ committed_refs sds → r ∉ C) ∧
    (∀ i sd, sds !! i = Some sd →
       cr_index (sd_commit_ref sd) = DagState_last_commit_index s + 1 + N.of_nat i) ∧
    StronglySorted N.le (DagState_last_commit_timestamp_ms s :: (sd_timestamp_ms <$> sds)).
Proof using Hwf Hbcs Hdepth.
  intros Hch Hls Hmax.
  destruct (handle_leaders_run leaders s C [] Hch Hls Hmax) as (s' & C' & sds & Hh & Hrun & Hch').
  destruct (commit_run_refs _ _ _ _ _ _ Hrun) as (_ & Hnd & Hfresh).
  destruct (commit_run_chain _ _ _ _ _ _ Hrun) as (Hl & Hi & Ht).
  exists s', C', sds. by split_and!.
Qed.

End CommitStep.

(** ** Agreement *)

Section CommitAgreement.
Context `{Profile} `{Crypto} `{CommitBcs} {S : Type} `{StoreLaws S}.
Context (ctx1 ctx2 : Context).
Context (Hcommittee : ctx_committee ctx1 = ctx_committee ctx2).
Context (Hprotocol : ctx_protocol_config ctx1 = ctx_protocol_config ctx2).
Context (Hdepth : 1 ≤ pc_gc_depth (ctx_protocol_config ctx1)).
Implicit Types s : DagState S.

(** No reference names different blocks. *)
Definition coherent s1 s2 : Prop :=
  ∀ r b1 b2, ds_block s1 r = Some b1 → ds_block s2 r = Some b2 → b1 = b2.

(** Two authorities that have made the same commits. *)
Record same_chain s1 s2 (C : gset BlockRef) : Prop := {
  sc_left : chain_ok ctx1 s1 C;
  sc_right : chain_ok ctx2 s2 C;
  sc_coherent : coherent s1 s2;
  sc_last : ds_last_commit s1 = ds_last_commit s2;
}.

Lemma same_chain_gc s1 s2 C : same_chain s1 s2 C → DagState_gc_round s1 = DagState_gc_round s2.
Proof using Hprotocol.
  intros [Hl Hr _ Hlast]. unfold DagState_gc_round, DagState_calculate_gc_round,
    DagState_protocol_config, DagState_last_commit_round.
  by rewrite Hlast, (ch_context _ _ _ Hl), (ch_context _ _ _ Hr), Hprotocol.
Qed.

(** The history of a leader is the same for both. *)
Lemma history_shared s1 s2 C leader r :
  same_chain s1 s2 C → leader_ok ctx1 s1 C leader → leader_ok ctx2 s2 C leader →
  history (DagState_gc_round s1) s1 (reference leader) r →
  history (DagState_gc_round s1) s2 (reference leader) r ∧
  ∃ b, ds_block s1 r = Some b ∧ ds_block s2 r = Some b.
Proof using Hprotocol Hdepth.
  intros Hsc Hlo1 Hlo2. pose proof Hsc as [Hl Hr Hco _]. pose proof (same_chain_gc _ _ _ Hsc) as Hgc.
  assert (1 ≤ pc_gc_depth (ctx_protocol_config ctx2)) as Hdepth2 by (by rewrite <- Hprotocol).
  revert r. apply rtc_ind_r.
  { split; [apply rtc_refl|]. exists leader.
    split; (apply ds_cached_block; [by eapply ch_ok|by eapply lo_cached]). }
  intros r a Hh1 (b & Hb & Ha & Hga) (Hh2 & b' & Hb1 & Hb2). rewrite Hb in Hb1. simplify_eq.
  assert (history (DagState_gc_round s1) s1 (reference leader) a) as Hha1.
  { eapply rtc_r; [exact Hh1|]. by exists b'. }
  assert (history (DagState_gc_round s1) s2 (reference leader) a) as Hha2.
  { eapply rtc_r; [exact Hh2|]. by exists b'. }
  split; [done|].
  destruct (history_cached ctx1 Hdepth s1 C leader a Hl Hlo1 Hha1) as [[b1 Hc1] _].
  destruct (history_cached ctx2 Hdepth2 s2 C leader a Hr Hlo2) as [[b2 Hc2] _]; [by rewrite <- Hgc|].
  apply ds_cached_block in Hc1; [|apply Hl]. apply ds_cached_block in Hc2; [|apply Hr].
  exists b1. by rewrite Hc1, Hc2, (Hco a b1 b2).
Qed.

Lemma chain_same_history s1 s2 C leader :
  same_chain s1 s2 C → leader_ok ctx1 s1 C leader → leader_ok ctx2 s2 C leader →
  same_history (DagState_gc_round s1) s1 s2 leader.
Proof using Hprotocol Hdepth.
  intros Hsc Hlo1 Hlo2 r b Hr Hb. pose proof Hsc as [Hl Hrt _ _].
  pose proof (same_chain_gc _ _ _ Hsc) as Hgc.
  assert (1 ≤ pc_gc_depth (ctx_protocol_config ctx2)) as Hdepth2 by (by rewrite <- Hprotocol).
  apply (reached_history ctx1 Hdepth _ C) in Hr as [Hh1 _]; [|done..].
  destruct (history_shared s1 s2 C leader r) as (Hh2 & b' & Hb1 & Hb2); [done..|]. simpl in Hb |- *.
  rewrite Hb in Hb1. simplify_eq. split; [done|]. intros a Ha Hga.
  assert (history (DagState_gc_round s1) s1 (reference leader) a) as Hha1.
  { eapply rtc_r; [exact Hh1|]. by exists b'. }
  destruct (history_shared s1 s2 C leader a) as (Hha2 & _); [done..|]. rewrite Hgc in Hha2.
  destruct (history_cached ctx1 Hdepth s1 C leader a) as [Hc1 _]; [done..|].
  destruct (history_cached ctx2 Hdepth2 s2 C leader a) as [Hc2 Hg2]; [done..|].
  rewrite (mark_above_gc ctx1 s1 C a), (mark_above_gc ctx2 s2 C a) by done. done.
Qed.

Lemma stamp_agree s1 s2 C leader ts1 ts2 :
  same_chain s1 s2 C → stamp_of ctx1 s1 leader ts1 → stamp_of ctx2 s2 leader ts2 → ts1 = ts2.
Proof using Hcommittee.
  intros [_ _ Hco Hlast] (bs1 & m1 & Hall1 & Hm1 & ->) (bs2 & m2 & Hall2 & Hm2 & ->).
  assert (bs1 = bs2) as ->.
  { clear Hm1 Hm2. revert bs2 Hall2.
    induction Hall1 as [|a b l bs1 Hab _ IH]; intros bs2 Hall2; inversion Hall2; subst; [done|].
    f_equal; [by eapply Hco|by apply IH]. }
  assert (median_timestamp_by_stake ctx1 bs2 = median_timestamp_by_stake ctx2 bs2) as Heq.
  { unfold median_timestamp_by_stake, collect_timestamp. by rewrite Hcommittee. }
  rewrite Hm1, Hm2 in Heq. simplify_eq. unfold DagState_last_commit_timestamp_ms. by rewrite Hlast.
Qed.

Context (Hwf : Committee_wf (ctx_committee ctx1)) (Hbcs : ∀ commit, is_Some (bcs_commit commit)).

Lemma handle_leaders_agree leaders s1 s2 C subs :
  same_chain s1 s2 C → leaders_ok ctx1 s1 C leaders → leaders_ok ctx2 s2 C leaders →
  DagState_last_commit_index s1 + N.of_nat (length leaders) ≤ u32_max →
  ∃ s1' s2' C' sds,
    foldM (handle_leader ctx1) (s1, subs) leaders = Ret (s1', subs ++ sds) ∧
    foldM (handle_leader ctx2) (s2, subs) leaders = Ret (s2', subs ++ sds) ∧
    same_chain s1' s2' C'.
Proof using Hcommittee Hprotocol Hdepth Hwf Hbcs.
  assert (1 ≤ pc_gc_depth (ctx_protocol_config ctx2)) as Hdepth2 by (by rewrite <- Hprotocol).
  pose proof Hwf as Hwf2. rewrite Hcommittee in Hwf2.
  revert s1 s2 C subs. induction leaders as [|leader leaders IH]; intros s1 s2 C subs Hsc Hls1 Hls2 Hmax;
    cbn [foldM].
  { exists s1, s2, C, []. by rewrite app_nil_r. }
  assert (leader_ok ctx1 s1 C leader) as Hlo1 by (apply Hls1; left).
  assert (leader_ok ctx2 s2 C leader) as Hlo2 by (apply Hls2; left).
  pose proof (same_chain_gc _ _ _ Hsc) as Hgc. pose proof Hsc as [Hc1 Hc2 Hco Hlast].
  assert (DagState_last_commit_index s1 = DagState_last_commit_index s2) as Hidx.
  { unfold DagState_last_commit_index. by rewrite Hlast. }
  destruct (linearize_sub_dag_agree s1 s2 leader (linearize_fuel s1) (linearize_fuel s2))
    as (e1 & e2 & l & Hl1 & Hl2 & Hlin1 & Hlin2);
    [apply Hc1|apply Hc2|done|by apply (chain_committable ctx1 Hdepth s1 C)
    |simpl; rewrite Hgc; by apply (chain_committable ctx2 Hdepth2 s2 C)|by eapply chain_same_history
    |apply linearize_fuel_enough..|].
  simpl in Hlin1, Hlin2. rewrite Hgc in Hlin2. simpl in Hmax.
  destruct (handle_leader_spec ctx1 Hdepth Hwf Hbcs s1 C subs leader e1 l)
    as (s1' & ts1 & Hst1 & -> & Hlast1 & Hch1 & Hcom1 & Hca1 & Hb1); [done..|lia|done|done|].
  destruct (handle_leader_spec ctx2 Hdepth2 Hwf2 Hbcs s2 C subs leader e2 l)
    as (s2' & ts2 & Hst2 & -> & Hlast2 & Hch2 & Hcom2 & Hca2 & Hb2); [done..|lia|done|done|].
  rewrite <- (stamp_agree s1 s2 C leader ts1 ts2 Hsc Hst1 Hst2) in *.
  assert (commit_of s2 leader l ts1 = commit_of s1 leader l ts1) as Hcommit.
  { unfold commit_of, commit_body, DagState_last_commit_index, DagState_last_commit_digest.
    by rewrite Hlast. }
  assert (sub_dag_of s2 leader l ts1 = sub_dag_of s1 leader l ts1) as Hsd.
  { unfold sub_dag_of. by rewrite Hcommit. }
  rewrite Hsd, Hcommit in *. cbn [mbind M_bind].
  destruct (IH s1' s2' (C ∪ refs_of (sub_dag_of s1 leader l ts1)) (subs ++ [sub_dag_of s1 leader l ts1]))
    as (f1 & f2 & C' & sds & Hf1 & Hf2 & Hsc').
  { split; [done..| |by rewrite Hlast1, Hlast2]. intros r b1 b2. rewrite Hb1, Hb2. apply Hco. }
  { by apply (leaders_ok_next ctx1 Hdepth s1 C leader). }
  { by apply (leaders_ok_next ctx2 Hdepth2 s2 C leader). }
  { unfold DagState_last_commit_index. rewrite Hlast1. simpl. lia. }
  exists f1, f2, C', (sub_dag_of s1 leader l ts1 :: sds). rewrite <- app_assoc in Hf1, Hf2. by split_and!.
Qed.

(** C3: two authorities that have made the same commits so far and commit the
    same sequence of leaders output the same sub-dags, blocks in the same order
    and with the same timestamps and commit digests, whatever else they hold, and
    have again made the same commits. *)
Theorem Linearizer_handle_commit_agree s1 s2 C leaders :
  same_chain s1 s2 C → leaders_ok ctx1 s1 C leaders → leaders_ok ctx2 s2 C leaders →
  DagState_last_commit_index s1 + N.of_nat (length leaders) ≤ u32_max →
  ∃ s1' s2' C' sds,
    Linearizer_handle_commit ctx1 s1 leaders = Ret (s1', sds) ∧
    Linearizer_handle_commit ctx2 s2 leaders = Ret (s2', sds) ∧
    same_chain s1' s2' C'.
Proof using Hcommittee Hprotocol Hdepth Hwf Hbcs. apply handle_leaders_agree. Qed.

End CommitAgreement.
