(* ===== verification/CommitChainSamples.v ===== *)
(** * Commits of a concrete DAG

    The two authorities of [CommitSamples] commit the same two leaders. *)

From S2P Require Import Prelude BTree Config Block Commit Store StakeAggregator ThresholdClock.
From S2P Require Import LeaderScoring DagState DagTheory DagRecovery DagTraversal LeaderSchedule.
From S2P Require Import BaseCommitter CommitRule CommitterTheory CommitSamples.
From S2P Require Import Linearizer LinearizerTheory CommitTimestamp CommitChain.
Local Open Scope N_scope.

#[local] Existing Instances DagRecovery.witness_profile DagRecovery.witness_crypto.
#[local] Existing Instance CommitSamples.is_quorum_dec.

#[local] Instance sample_bcs : CommitBcs := λ c, Some [default Byte.x00 (Byte.of_N (c_index c mod 256))].

Definition sample_leaders : list VerifiedBlock := [dag_block 2 1; dag_block 3 0].

Definition leader_sat (s : DagState MemStore) (leader : VerifiedBlock) : Prop :=
  ds_cached s (reference leader) = Some leader ∧
  is_quorum sample_committee (parents leader) ∧
  NoDup (br_author <$> parent_refs leader) ∧
  Forall (λ a, is_Some (blocks_of s !! a)) (parent_refs leader).

Definition chain_check (s : DagState MemStore) : Prop :=
  length (ds_last_committed_rounds s) = 4%nat ∧
  map_Forall (λ r b, NoDup (b_ancestors (vb_block b)) ∧
    Forall (λ a, br_round a < br_round r ∧ br_author a ∈ members sample_committee)
      (b_ancestors (vb_block b))) (blocks_of s) ∧
  map_Forall (λ _ info, bi_committed info = false ∧
    Forall (λ a, 0 < br_round a → is_Some (ds_recent_blocks s !! a))
      (b_ancestors (vb_block (bi_block info)))) (ds_recent_blocks s) ∧
  Forall (leader_sat s) sample_leaders.

#[local] Instance chain_check_dec s : base.Decision (chain_check s).
Proof. unfold chain_check, leader_sat. apply _. Defined.

Lemma sample_chain_check :
  outcome_sat sample_views (λ p, bool_decide (chain_check p.1 ∧ chain_check p.2)) = true.
Proof. vm_compute. reflexivity. Qed.

Lemma chain_check_ok s :
  ds_ok s → ds_context s = sample_context → state_check s → chain_check s →
  chain_ok sample_context s ∅ ∧ leaders_ok sample_context s ∅ sample_leaders.
Proof.
  intros Hok Hctx (Hst & _ & _ & Hgc & Hlc) (Hlen & Hdag & Hcache & Hlead).
  pose proof (blocks_of_spec s) as Heq. split.
  - split; [done|done|done| | | |].
    + intros r b Hb. rewrite Heq in Hb by done. destruct (Hdag r b Hb) as [Hnd Hall].
      rewrite Forall_forall in Hall. by split.
    + intros r b a Hb Ha. rewrite Hgc. intros Hga. unfold ds_cached in *.
      destruct (ds_recent_blocks s !! r) as [info|] eqn:Hr; [|done]. simpl in Hb. simplify_eq.
      destruct (Hcache r info Hr) as [_ Hall]. rewrite Forall_forall in Hall.
      apply fmap_is_Some. by apply Hall.
    + intros r m Hm _. unfold ds_mark in Hm. destruct (ds_recent_blocks s !! r) as [info|] eqn:Hr; [|done].
      destruct (Hcache r info Hr) as [Hf _]. simpl in Hm. simplify_eq. rewrite Hf. done.
    + intros r b a Hr. by apply not_elem_of_empty in Hr.
  - rewrite Forall_forall in Hlead. split.
    + intros b Hb. destruct (Hlead b Hb) as (Hc & Hq & Hnd & Hall).
      rewrite Forall_forall in Hall.
      destruct (ok_cached s Hok _ _ Hc) as (_ & Hpos & _). split; [done|apply not_elem_of_empty|lia|].
      split; [done..|]. intros a Ha. simpl. rewrite Heq by done. by apply Hall.
    + repeat constructor; by_eval.
Qed.

#[local] Instance authority_eq_dec : EqDecision Authority.
Proof. solve_decision. Defined.
#[local] Instance committee_eq_dec : EqDecision Committee.
Proof. solve_decision. Defined.
#[local] Instance chain_type_eq_dec : EqDecision ChainType.
Proof. solve_decision. Defined.
#[local] Instance protocol_config_eq_dec : EqDecision ConsensusProtocolConfig.
Proof. solve_decision. Defined.
#[local] Instance context_eq_dec : EqDecision Context.
Proof. solve_decision. Defined.

Lemma sample_contexts :
  outcome_sat sample_views (λ p, bool_decide (ds_context p.1 = sample_context ∧
    ds_context p.2 = sample_context ∧ ¬ is_Some (ds_last_commit p.1) ∧
    ¬ is_Some (ds_last_commit p.2))) = true.
Proof. vm_compute. reflexivity. Qed.

Lemma sample_chain :
  ∃ s1 s2 : DagState MemStore, same_chain sample_context sample_context s1 s2 ∅ ∧
    leaders_ok sample_context s1 ∅ sample_leaders ∧ leaders_ok sample_context s2 ∅ sample_leaders ∧
    DagState_last_commit_index s1 = 0.
Proof.
  destruct sample_world as (G & s1 & s2 & Hrun & _ & Hv1 & Hv2 & Hc1 & Hc2 & _).
  pose proof sample_chain_check as Hcheck. pose proof sample_contexts as Hctx. rewrite Hrun in Hcheck, Hctx.
  apply bool_decide_eq_true in Hcheck as [Hk1 Hk2].
  apply bool_decide_eq_true in Hctx as (Hx1 & Hx2 & Hl1%eq_None_not_Some & Hl2%eq_None_not_Some).
  cbn [fst snd] in *.
  destruct (chain_check_ok s1) as [Hch1 Hls1]; [apply Hv1|done..|].
  destruct (chain_check_ok s2) as [Hch2 Hls2]; [apply Hv2|done..|].
  exists s1, s2. split_and!; [|done..|unfold DagState_last_commit_index; by rewrite Hl1].
  split; [done..| |by rewrite Hl1, Hl2].
  intros r b1 b2 Hb1%(vo_sub _ _ _ Hv1) Hb2%(vo_sub _ _ _ Hv2). congruence.
Qed.

Lemma sample_bcs_total commit : is_Some (bcs_commit commit).
Proof. by eexists. Qed.

Lemma Linearizer_handle_commit_chain_witness :
  ∃ (s s' : DagState MemStore) sds,
    Linearizer_handle_commit sample_context s sample_leaders = Ret (s', sds) ∧
    sd_leader <$> sds = reference <$> sample_leaders.
Proof.
  destruct sample_chain as (s1 & s2 & Hsc & Hls & _ & Hidx).
  destruct (Linearizer_handle_commit_chain sample_context
              ltac:(vm_compute; discriminate) sample_committee_wf sample_bcs_total s1 ∅ sample_leaders
              (sc_left _ _ _ _ _ Hsc) Hls ltac:(rewrite Hidx; vm_compute; discriminate))
    as (s' & C' & sds & Hh & _ & _ & Hl & _).
  exists s1, s', sds. split; [exact Hh|exact Hl].
Defined.

Lemma Linearizer_handle_commit_agree_witness :
  ∃ (s1 s2 s1' s2' : DagState MemStore) sds,
    Linearizer_handle_commit sample_context s1 sample_leaders = Ret (s1', sds) ∧
    Linearizer_handle_commit sample_context s2 sample_leaders = Ret (s2', sds).
Proof.
  destruct sample_chain as (s1 & s2 & Hsc & Hls1 & Hls2 & Hidx).
  destruct (Linearizer_handle_commit_agree sample_context sample_context eq_refl eq_refl
              ltac:(vm_compute; discriminate) sample_committee_wf sample_bcs_total s1 s2 ∅ sample_leaders
              Hsc Hls1 Hls2 ltac:(rewrite Hidx; vm_compute; discriminate))
    as (s1' & s2' & C' & sds & Hh1 & Hh2 & _).
  exists s1, s2, s1', s2', sds. split; [exact Hh1|exact Hh2].
Defined.

Lemma Linearizer_calculate_commit_timestamp_honest_witness :
  ∃ (s : DagState MemStore) m,
    Linearizer_calculate_commit_timestamp sample_context s (dag_block 2 1) 7 = Ret (N.max m 7).
Proof.
  destruct sample_chain as (s1 & s2 & Hsc & Hls1 & _ & _).
  destruct (Linearizer_calculate_commit_timestamp_honest sample_context s1 (dag_block 2 1) 7 {[3]}
              sample_committee_wf ltac:(exact (ch_ok _ _ _ (sc_left _ _ _ _ _ Hsc)))
              ltac:(exact (lo_stamp _ _ _ _ (ls_leader _ _ _ _ Hls1 _ ltac:(left)))) ltac:(by_eval)) as (m & Hm & _).
  exists s1, m. exact Hm.
Defined.
