(* ===== verification/BlockVerifier.v ===== *)
(** * Signatures and block verification
    (consensus/core/src/block_verifier.rs, consensus/core/src/block.rs)

    A block from the network is checked before it enters the DAG: epoch, version,
    author, signature, ancestors, the quorum of parents, transaction votes and
    transaction limits.  [verify_block] never panics, and it accepts exactly the
    blocks that are valid in the declarative sense of [block_rules]. *)

From S2P Require Import Prelude BTree Config Block Commit.
Local Open Scope N_scope.
Local Open Scope result_scope.

(** ** Signatures *)

(** [bcs] and the signature scheme of [fastcrypto]; errors are texts. *)
Class Signing : Type := {
  ProtocolKeyPair : Type;
  ProtocolKeySignature : Type;
  bcs_block : Block → bytes + string;
  bcs_intent : N → bytes + string;
  keypair_sign : ProtocolKeyPair → bytes → ProtocolKeySignature;
  signature_to_bytes : ProtocolKeySignature → bytes;
  signature_from_bytes : bytes → ProtocolKeySignature + string;
  pubkey_verify : bytes → bytes → ProtocolKeySignature → option string;
}.

Section Signatures.
Context `{Profile} `{Crypto} `{Signing}.

Definition compute_inner_block_digest (block : Block) : ConsensusResult N :=
  match bcs_block block with
  | inl serialized => Ok (hash serialized)
  | inr e => Err (SerializationFailure e)
  end.

(** The digest in its intent message, serialized. *)
Definition block_message (block : Block) : ConsensusResult bytes :=
  match compute_inner_block_digest block with
  | Ok digest => match bcs_intent digest with
                 | inl message => Ok message
                 | inr e => Err (SerializationFailure e)
                 end
  | Err e => Err e
  end.

Definition compute_block_signature (block : Block) (protocol_keypair : ProtocolKeyPair)
    : ConsensusResult ProtocolKeySignature :=
  match block_message block with
  | Ok message => Ok (keypair_sign protocol_keypair message)
  | Err e => Err e
  end.

Definition verify_block_signature (block : Block) (signature protocol_pubkey : bytes)
    : ConsensusResult unit :=
  match block_message block with
  | Ok message =>
      match signature_from_bytes signature with
      | inl sig => match pubkey_verify protocol_pubkey message sig with
                   | None => Ok tt
                   | Some e => Err (SignatureVerificationFailure e)
                   end
      | inr e => Err (MalformedSignature e)
      end
  | Err e => Err e
  end.

Definition SignedBlock_new (block : Block) (protocol_keypair : ProtocolKeyPair)
    : ConsensusResult SignedBlock :=
  match compute_block_signature block protocol_keypair with
  | Ok signature => Ok (mkSignedBlock block (signature_to_bytes signature))
  | Err e => Err e
  end.

(** [committee.size() - 1] in errors. *)
Definition InvalidAuthorityIndex_at {A} (loc : string) (c : Committee) (index : AuthorityIndex)
    : M (ConsensusResult A) :=
  max ← u64_sub (Committee_size c) 1; Ret (Err (InvalidAuthorityIndex loc index max)).

Definition SignedBlock_verify_signature (block : SignedBlock) (ctx : Context)
    : M (ConsensusResult unit) :=
  let committee := ctx_committee ctx in
  if negb (Committee_is_valid_index committee (b_author block))
  then InvalidAuthorityIndex_at "verifying signature" committee (b_author block)
  else authority ← Committee_authority committee (b_author block);
       Ret (verify_block_signature block (sb_signature block) (Authority_protocol_key authority)).

End Signatures.

(** ** The verifier *)

(** The trait [TransactionVerifier], implemented by the authority. *)
Class TransactionVerifier : Type := {
  verify_batch : BlockRef → list bytes → option string;
  verify_and_vote_batch : BlockRef → list bytes → list TransactionIndex + string;
}.

Record SignedBlockVerifier : Type := mkSignedBlockVerifier {
  bv_context : Context;
  bv_genesis : gset BlockRef;
}.

Definition TransactionIndex_MAX : TransactionIndex := 2 ^ 16 - 1.

Section Verifier.
Context `{Profile} `{Crypto} `{Signing} `{TransactionVerifier}.
Implicit Types v : SignedBlockVerifier.

Definition SignedBlockVerifier_new (ctx : Context) : M SignedBlockVerifier :=
  genesis ← genesis_blocks ctx;
  Ret (mkSignedBlockVerifier ctx (list_to_set (reference <$> genesis))).

Definition max_transaction_vote_targets (ctx : Context) : M N :=
  u64_mul (N.max (pc_gc_depth (ctx_protocol_config ctx)) 1) (Committee_size (ctx_committee ctx)).

Definition version_matches (ctx : Context) (block : Block) : bool :=
  match block with
  | BV1 _ | BV2 _ => negb (pc_enable_v3 (ctx_protocol_config ctx))
  | BV3 _ => pc_enable_v3 (ctx_protocol_config ctx)
  end.

(** The loop over the ancestors: [seen_ancestors] and [parent_stakes]. *)
Fixpoint ancestors_check v (block : Block) (i : N) (seen_ancestors : list bool) (parent_stakes : Stake)
    (ancestors : list BlockRef) : M (ConsensusResult Stake) :=
  let committee := ctx_committee (bv_context v) in
  match ancestors with
  | [] => Ret (Ok parent_stakes)
  | ancestor :: ancestors =>
      if negb (Committee_is_valid_index committee (br_author ancestor))
      then InvalidAuthorityIndex_at "ancestor" committee (br_author ancestor)
      else if ((i =? 0) && negb (br_author ancestor =? b_author block))
              || ((0 <? i) && (br_author ancestor =? b_author block))
      then Ret (Err (InvalidAncestorPosition (b_author block) (br_author ancestor) i))
      else if b_round block <=? br_round ancestor
      then Ret (Err (InvalidAncestorRound (br_round ancestor) (b_round block)))
      else if (br_round ancestor =? GENESIS_ROUND) && negb (bool_decide (ancestor ∈ bv_genesis v))
      then Ret (Err (InvalidGenesisAncestor ancestor))
      else
        seen ← index seen_ancestors (br_author ancestor);
        if seen : bool then Ret (Err (DuplicatedAncestorsAuthority (br_author ancestor)))
        else
          seen_ancestors ← index_update seen_ancestors (br_author ancestor) (λ _, true);
          parent_round ← expect (if 1 <=? b_round block then Some (b_round block - 1) else None) "unwrap";
          parent_stakes ←
            (if br_round ancestor =? parent_round
             then stake ← Committee_stake committee (br_author ancestor); u64_add parent_stakes stake
             else Ret parent_stakes);
          ancestors_check v block (i + 1) seen_ancestors parent_stakes ancestors
  end.

(** [windows(2).any(|pair| pair[0] >= pair[1])]. *)
Fixpoint not_increasing (l : list TransactionIndex) : bool :=
  match l with
  | x :: (y :: _) as rest => (y <=? x) || not_increasing rest
  | _ => false
  end.

Definition transaction_limit (ctx : Context) : TransactionIndex :=
  N.min (pc_max_num_transactions_in_block (ctx_protocol_config ctx))
    (TransactionIndex_MAX - NUM_RESERVED_TRANSACTION_INDICES) mod 2 ^ 16.

Fixpoint votes_check v (block : Block) (vote_targets : gset BlockRef) (votes : list BlockTransactionVotes)
    : M (ConsensusResult unit) :=
  let committee := ctx_committee (bv_context v) in
  let limit := transaction_limit (bv_context v) in
  match votes with
  | [] => Ret (Ok tt)
  | vote :: votes =>
      let target := btv_block_ref vote in
      if bool_decide (target ∈ vote_targets)
      then Ret (Err (InvalidTransactionVotes "vote target appears more than once"))
      else if b_round block <=? br_round target
      then Ret (Err (InvalidTransactionVotes "vote target must have a round less than block round"))
      else if br_round target <=? b_transaction_votes_cutoff_round block
      then Ret (Err (InvalidTransactionVotes "vote target is at or below cutoff round"))
      else if negb (Committee_is_valid_index committee (br_author target))
      then InvalidAuthorityIndex_at "transaction vote block" committee (br_author target)
      else if bool_decide (btv_rejects vote = [])
      then Ret (Err (InvalidTransactionVotes "vote target has no reject indices"))
      else if limit <? N.of_nat (length (btv_rejects vote))
      then Ret (Err (InvalidTransactionVotes "vote target has too many reject indices"))
      else if not_increasing (btv_rejects vote)
      then Ret (Err (InvalidTransactionVotes "reject indices are not strictly increasing"))
      else if from_option (λ reject, limit <=? reject) false (last (btv_rejects vote))
      then Ret (Err (InvalidTransactionVotes "reject index is not below limit"))
      else votes_check v block ({[target]} ∪ vote_targets) votes
  end.

Definition SignedBlockVerifier_check_transaction_votes v (block : Block) : M (ConsensusResult unit) :=
  let transaction_votes := b_transaction_votes block in
  if bool_decide (transaction_votes = []) then Ret (Ok tt)
  else
    vote_target_limit ← max_transaction_vote_targets (bv_context v);
    if vote_target_limit <? N.of_nat (length transaction_votes)
    then Ret (Err (InvalidTransactionVotes "block has too many vote targets"))
    else votes_check v block ∅ transaction_votes.

Fixpoint sizes_check (limit : N) (batch : list bytes) : ConsensusResult unit :=
  match batch with
  | [] => Ok tt
  | t :: batch =>
      if (limit <? N.of_nat (length t)) && (0 <? limit)
      then Err (TransactionTooLarge (N.of_nat (length t)) limit)
      else sizes_check limit batch
  end.

Definition SignedBlockVerifier_check_transactions v (batch : list bytes) : M (ConsensusResult unit) :=
  let config := ctx_protocol_config (bv_context v) in
  _ ←? Ret (sizes_check (pc_max_transaction_size_bytes config) batch);
  let max_num_transactions_limit := pc_max_num_transactions_in_block config in
  if (max_num_transactions_limit <? N.of_nat (length batch)) && (0 <? max_num_transactions_limit)
  then Ret (Err (TooManyTransactions (N.of_nat (length batch)) max_num_transactions_limit))
  else
    let total_transactions_size_limit := pc_max_transactions_in_block_bytes config in
    size ← u64_sum ((λ t, N.of_nat (length t)) <$> batch);
    if (total_transactions_size_limit <? size) && (0 <? total_transactions_size_limit)
    then Ret (Err (TooManyTransactionBytes (N.of_nat (length batch)) total_transactions_size_limit))
    else Ret (Ok tt).

(** The checks after the signature: ancestors, votes and transactions. *)
Definition verify_contents v (block : SignedBlock) : M (ConsensusResult unit) :=
  let ctx := bv_context v in
  let committee := ctx_committee ctx in
  let ancestors := b_ancestors block in
  if Committee_size committee <? N.of_nat (length ancestors)
  then Ret (Err (TooManyAncestors (N.of_nat (length ancestors)) (Committee_size committee)))
  else if bool_decide (ancestors = [])
  then Ret (Err (InsufficientParentStakes 0 (Committee_quorum_threshold committee)))
  else
    parent_stakes ←? ancestors_check v block 0 (replicate (N.to_nat (Committee_size committee)) false) 0
                       ancestors;
    if negb (Committee_reached_quorum committee parent_stakes)
    then Ret (Err (InsufficientParentStakes parent_stakes (Committee_quorum_threshold committee)))
    else
      _ ←? (if pc_enable_v3 (ctx_protocol_config ctx) then
              let cutoff := b_transaction_votes_cutoff_round block in
              if b_round block <=? cutoff
              then Ret (Err (InvalidTransactionVotesCutoff cutoff (b_round block)))
              else SignedBlockVerifier_check_transaction_votes v block
            else Ret (Ok tt));
      SignedBlockVerifier_check_transactions v (b_transactions_data block).

Definition SignedBlockVerifier_verify_block v (block : SignedBlock) : M (ConsensusResult unit) :=
  let ctx := bv_context v in
  let committee := ctx_committee ctx in
  if negb (b_epoch block =? Committee_epoch committee)
  then Ret (Err (WrongEpoch (Committee_epoch committee) (b_epoch block)))
  else if b_round block =? 0 then Ret (Err UnexpectedGenesisBlock)
  else if negb (version_matches ctx block)
  then Ret (Err (UnexpectedBlockVersion
         (if pc_enable_v3 (ctx_protocol_config ctx) then "block is not V3 but v3 is enabled"
          else "block is V3 but v3 is disabled")))
  else if negb (Committee_is_valid_index committee (b_author block))
  then InvalidAuthorityIndex_at "verifying block" committee (b_author block)
  else
    _ ←? SignedBlock_verify_signature block ctx;
    verify_contents v block.

Definition SignedBlockVerifier_vote (block : VerifiedBlock) : ConsensusResult (list TransactionIndex) :=
  match verify_and_vote_batch (reference block) (b_transactions_data block) with
  | inl rejected => Ok rejected
  | inr e => Err (InvalidTransaction e)
  end.

Definition SignedBlockVerifier_verify_and_vote v (block : SignedBlock) (serialized_block : bytes)
    : M (ConsensusResult (VerifiedBlock * list TransactionIndex)) :=
  _ ←? SignedBlockVerifier_verify_block v block;
  let verified_block := VerifiedBlock_new_verified block serialized_block in
  rejected_transactions ←?
    (if pc_transaction_voting_enabled (ctx_protocol_config (bv_context v))
     then Ret (SignedBlockVerifier_vote verified_block)
     else match verify_batch (reference verified_block) (b_transactions_data verified_block) with
          | None => Ret (Ok [])
          | Some e => Ret (Err (InvalidTransaction e))
          end);
  Ret (Ok (verified_block, rejected_transactions)).

End Verifier.
