(* ===== verification/BlockVerifierTheory.v ===== *)
(** * What block verification accepts

    [verify_block] returns on every block, and accepts it exactly when it follows
    [block_rules].  Blocks that follow the rules make a DAG on which the commit
    rule is safe. *)

From S2P Require Import Prelude BTree Config Block Commit Store StakeAggregator DagState DagTheory.
From S2P Require Import DagRecovery CommitRule CommitSamples BlockVerifier.
Local Open Scope N_scope.

(** ** Generic facts *)

Lemma not_increasing_spec l : not_increasing l = false ↔ StronglySorted N.lt l.
Proof.
  induction l as [|x l IH]; [split; [constructor|done]|]. destruct l as [|y l].
  - split; [repeat constructor|done].
  - change (not_increasing (x :: y :: l)) with ((y <=? x) || not_increasing (y :: l)).
    rewrite orb_false_iff, IH, N.leb_gt. split.
    + intros [Hlt Hs]. constructor; [done|]. inversion Hs as [|? ? _ Hall]; subst.
      constructor; [done|]. eapply Forall_impl; [exact Hall|]. simpl. lia.
    + intros Hs. inversion Hs as [|? ? Hs' Hall]; subst. inversion Hall; subst. by split.
Qed.

Lemma increasing_last (l : list N) n :
  l ≠ [] → StronglySorted N.lt l →
  from_option (λ x, n <=? x) false (last l) = false ↔ Forall (λ x, x < n) l.
Proof.
  intros Hne Hs. destruct l as [|x l] using rev_ind; [done|]. clear IHl Hne.
  rewrite last_snoc. simpl. rewrite N.leb_gt, Forall_app, Forall_singleton.
  apply StronglySorted_app in Hs as (Hlt & _ & _). split; [|tauto]. intros Hx. split; [|done].
  apply Forall_forall. intros y Hy. specialize (Hlt y x Hy ltac:(left)). lia.
Qed.

Section Rules.
Context `{Profile} `{Crypto} `{Signing} (v : SignedBlockVerifier).
Let ctx := bv_context v.
Let c := ctx_committee ctx.
Let config := ctx_protocol_config ctx.

(** ** The rules *)

Definition parent_authors (round : Round) (ancestors : list BlockRef) : gset AuthorityIndex :=
  list_to_set (br_author <$> filter (λ a, br_round a + 1 = round) ancestors).

Definition ancestor_rules (block : Block) (a : BlockRef) : Prop :=
  br_author a ∈ members c ∧ br_round a < b_round block ∧
  (br_round a = GENESIS_ROUND → a ∈ bv_genesis v).

Definition vote_rules (block : Block) (vote : BlockTransactionVotes) : Prop :=
  b_transaction_votes_cutoff_round block < br_round (btv_block_ref vote) < b_round block ∧
  br_author (btv_block_ref vote) ∈ members c ∧ btv_rejects vote ≠ [] ∧
  StronglySorted N.lt (btv_rejects vote) ∧
  Forall (λ i, i < transaction_limit ctx) (btv_rejects vote).

Definition votes_rules (block : Block) : Prop :=
  N.of_nat (length (b_transaction_votes block)) ≤
    N.max (pc_gc_depth config) 1 * Committee_size c ∧
  NoDup (btv_block_ref <$> b_transaction_votes block) ∧
  Forall (vote_rules block) (b_transaction_votes block).

Definition batch_size (batch : list bytes) : N := sumN ((λ t, N.of_nat (length t)) <$> batch).

(** A limit of zero is no limit. *)
Definition within (limit n : N) : Prop := limit = 0 ∨ n ≤ limit.

Definition batch_rules (batch : list bytes) : Prop :=
  Forall (λ t, within (pc_max_transaction_size_bytes config) (N.of_nat (length t))) batch ∧
  within (pc_max_num_transactions_in_block config) (N.of_nat (length batch)) ∧
  within (pc_max_transactions_in_block_bytes config) (batch_size batch).

Record block_rules (block : SignedBlock) : Prop := {
  bk_epoch : b_epoch block = Committee_epoch c;
  bk_round : 0 < b_round block;
  bk_version : version_matches ctx block = true;
  bk_author : b_author block ∈ members c;
  bk_signature : ∃ authority, Committee_authorities c !! N.to_nat (b_author block) = Some authority ∧
    verify_block_signature block (sb_signature block) (Authority_protocol_key authority) = Ok tt;
  bk_own_first : ∃ a rest, b_ancestors block = a :: rest ∧ br_author a = b_author block;
  bk_distinct : NoDup (br_author <$> b_ancestors block);
  bk_ancestors : Forall (ancestor_rules block) (b_ancestors block);
  bk_quorum : is_quorum c (parent_authors (b_round block) (b_ancestors block));
  bk_votes : pc_enable_v3 config = true →
    b_transaction_votes_cutoff_round block < b_round block ∧ votes_rules block;
  bk_transactions : batch_rules (b_transactions_data block);
}.

Context (Hwf : Committee_wf c).

Lemma InvalidAuthorityIndex_at_returns {A} loc i :
  ∃ e, InvalidAuthorityIndex_at (A := A) loc c i = Ret (Err e).
Proof using Hwf.
  unfold InvalidAuthorityIndex_at. rewrite int_sub_exact; [by eexists|].
  pose proof (wf_quorum_pos c Hwf). pose proof (wf_quorum_reachable c Hwf). pose proof (wf_total c Hwf).
  unfold Committee_size. destruct (Committee_authorities c); simpl in *; lia.
Qed.

(** ** Transactions *)

Lemma within_spec limit n : within limit n ↔ (limit <? n) && (0 <? limit) = false.
Proof.
  unfold within. destruct (N.ltb_spec limit n), (N.ltb_spec 0 limit); simpl; split; (lia || done || intros; lia).
Qed.

Lemma check_transactions_spec batch :
  batch_size batch < 2 ^ 64 →
  ∃ r, SignedBlockVerifier_check_transactions v batch = Ret r ∧ (r = Ok tt ↔ batch_rules batch).
Proof using.
  intros Hsum. unfold SignedBlockVerifier_check_transactions, batch_rules. fold ctx config.
  assert (sizes_check (pc_max_transaction_size_bytes config) batch = Ok tt ↔
    Forall (λ t, within (pc_max_transaction_size_bytes config) (N.of_nat (length t))) batch) as Hsizes.
  { clear Hsum. induction batch as [|t batch IH]; [done|]. cbn [sizes_check].
    rewrite Forall_cons, within_spec. destruct (_ && _); [split; [done|by intros [? _]]|].
    rewrite IH. tauto. }
  unfold try_bind. cbn [mbind M_bind].
  destruct (sizes_check _ batch) as [[]|e].
  2:{ eexists. split; [done|]. split; [done|]. intros [Hs%Hsizes _]. done. }
  pose proof (within_spec (pc_max_num_transactions_in_block config) (N.of_nat (length batch))) as Hn.
  pose proof (within_spec (pc_max_transactions_in_block_bytes config) (batch_size batch)) as Hb.
  destruct ((_ <? N.of_nat (length batch)) && _) eqn:Hnum.
  { eexists. split; [done|]. split; [done|]. intros (_ & ?%Hn & _). done. }
  rewrite int_sum_exact by done. cbn [mbind M_bind]. fold (batch_size batch).
  destruct ((_ <? batch_size batch) && _) eqn:Htotal; eexists; (split; [done|]).
  - split; [done|]. intros (_ & _ & ?%Hb). done.
  - split; [|done]. intros _. split_and!; [by apply Hsizes|by apply Hn|by apply Hb].
Qed.

(** ** Votes *)

Lemma vote_checks block vote :
  vote_rules block vote ↔
  (b_round block <=? br_round (btv_block_ref vote)) = false ∧
  (br_round (btv_block_ref vote) <=? b_transaction_votes_cutoff_round block) = false ∧
  negb (Committee_is_valid_index c (br_author (btv_block_ref vote))) = false ∧
  bool_decide (btv_rejects vote = []) = false ∧
  (transaction_limit ctx <? N.of_nat (length (btv_rejects vote))) = false ∧
  not_increasing (btv_rejects vote) = false ∧
  from_option (λ reject, transaction_limit ctx <=? reject) false (last (btv_rejects vote)) = false.
Proof using.
  unfold vote_rules.
  rewrite !N.leb_gt, negb_false_iff, <- members_spec, bool_decide_eq_false, N.ltb_ge, not_increasing_spec.
  split.
  - intros (? & ? & ? & Hs & Hall). split_and!; try (done || lia); [by apply increasing_length|].
    by apply increasing_last.
  - intros (? & ? & ? & Hne & ? & Hs & Hl). rewrite increasing_last in Hl by done. by split_and!.
Qed.

Lemma votes_check_spec block targets votes :
  ∃ r, votes_check v block targets votes = Ret r ∧
    (r = Ok tt ↔ NoDup (btv_block_ref <$> votes) ∧ Forall (vote_rules block) votes ∧
                 ∀ vote, vote ∈ votes → btv_block_ref vote ∉ targets).
Proof using Hwf.
  revert targets. induction votes as [|vote votes IH]; intros targets.
  { eexists. split; [done|]. split; [|done]. intros _.
    split_and!; [apply NoDup_nil_2|done|by intros ? ?%not_elem_of_nil]. }
  pose proof (vote_checks block vote) as Hv.
  assert (∀ (m : M (ConsensusResult unit)) e, m = Ret (Err e) → ¬ vote_rules block vote → ∃ r, m = Ret r ∧
    (r = Ok tt ↔ NoDup (btv_block_ref <$> vote :: votes) ∧ Forall (vote_rules block) (vote :: votes) ∧
       ∀ vote', vote' ∈ vote :: votes → btv_block_ref vote' ∉ targets)) as Hfail.
  { intros m e -> Hn. eexists. split; [done|]. split; [done|]. by intros (_ & [? _]%Forall_cons & _). }
  cbn [votes_check]. fold ctx c.
  destruct (bool_decide (btv_block_ref vote ∈ targets)) eqn:Hin.
  { apply bool_decide_eq_true in Hin. eexists. split; [done|]. split; [done|].
    intros (_ & _ & Hn). exfalso. apply (Hn vote); [left|done]. }
  apply bool_decide_eq_false in Hin.
  destruct (InvalidAuthorityIndex_at_returns (A := unit) "transaction vote block"
              (br_author (btv_block_ref vote))) as [e He].
  repeat match goal with
  | |- ∃ r, (if ?b then _ else _) = _ ∧ _ => destruct b eqn:?;
      [eapply Hfail; [first [reflexivity|exact He]|]; intros Hr%Hv; destruct_and! Hr; congruence|]
  end.
  destruct (IH ({[btv_block_ref vote]} ∪ targets)) as (r & -> & Hr). exists r. split; [done|].
  rewrite Hr. csimpl. rewrite NoDup_cons, Forall_cons, list_elem_of_fmap. clear IH Hfail Hr He.
  assert (vote_rules block vote) as Hrules by (by apply Hv). split.
  - intros (Hnd & Hall & Hn). split_and!; [|done..|].
    + intros (vote' & Heq & Hvote'). apply (Hn vote' Hvote'). rewrite <- Heq. by apply elem_of_union_l, elem_of_singleton.
    + intros vote' [->|Hvote']%list.elem_of_cons; [done|]. intros Ht. by apply (Hn vote' Hvote'), elem_of_union_r.
  - intros ([Hnew Hnd] & [_ Hall] & Hn). split_and!; [done..|].
    intros vote' Hvote' [Heq%elem_of_singleton|Ht]%elem_of_union; [by apply Hnew; exists vote'|].
    apply (Hn vote'); [by right|done].
Qed.

(** ** Ancestors *)

Fixpoint positions (block : Block) (i : N) (l : list BlockRef) : Prop :=
  match l with
  | [] => True
  | a :: l => (i = 0 ↔ br_author a = b_author block) ∧ positions block (i + 1) l
  end.

(** What is left to check of the ancestors when those of [S] have been seen. *)
Definition rest_rules (block : Block) (i : N) (S : gset AuthorityIndex) (l : list BlockRef) : Prop :=
  Forall (ancestor_rules block) l ∧ NoDup (br_author <$> l) ∧
  (∀ a, a ∈ l → br_author a ∉ S) ∧ positions block i l.

Lemma rest_rules_cons block i S a l :
  rest_rules block i S (a :: l) ↔
  ancestor_rules block a ∧ (i = 0 ↔ br_author a = b_author block) ∧ br_author a ∉ S ∧
  rest_rules block (i + 1) ({[br_author a]} ∪ S) l.
Proof using.
  unfold rest_rules. csimpl. rewrite Forall_cons, NoDup_cons, list_elem_of_fmap. split.
  - intros ([? ?] & [Hn ?] & Hs & ? & ?). split_and!; try done; [apply Hs; left|].
    intros a' Ha' [Heq%elem_of_singleton|Hin]%elem_of_union; [apply Hn; by exists a'|].
    apply (Hs a'); [by right|done].
  - intros (? & ? & ? & ? & ? & Hs & ?). split_and!; try done.
    + intros (a' & Heq & Ha'). apply (Hs a' Ha'). rewrite Heq. by apply elem_of_union_l, elem_of_singleton.
    + intros a' [->|Ha']%list.elem_of_cons; [done|]. intros Hin. by apply (Hs a' Ha'), elem_of_union_r.
Qed.

Definition seen_is (seen : list bool) (S : gset AuthorityIndex) : Prop :=
  length seen = length (Committee_authorities c) ∧
  ∀ i b, seen !! N.to_nat i = Some b → b = bool_decide (i ∈ S).

Lemma seen_is_lookup seen S i :
  seen_is seen S → i ∈ members c → index seen i = Ret (bool_decide (i ∈ S)).
Proof using.
  intros [Hlen Hs] Hi. apply members_spec in Hi. unfold Committee_is_valid_index, Committee_size in Hi.
  nbool. destruct (lookup_lt_is_Some_2 seen (N.to_nat i)) as [b Hb]; [lia|].
  unfold index. by rewrite Hb, (Hs i b Hb).
Qed.

Lemma seen_is_update seen S i :
  seen_is seen S → i ∈ members c →
  ∃ seen', index_update seen i (λ _, true) = Ret seen' ∧ seen_is seen' ({[i]} ∪ S).
Proof using.
  intros Hseen Hi. pose proof (seen_is_lookup seen S i Hseen Hi) as Hl%index_Ret.
  unfold index_update. rewrite Hl. eexists. split; [done|]. destruct Hseen as [Hlen Hs].
  split; [by rewrite length_insert|]. intros j b Hj. destruct (decide (j = i)) as [->|Hne].
  - rewrite list_lookup_insert_eq in Hj by (by eapply lookup_lt_Some). simplify_eq. symmetry.
    apply bool_decide_eq_true. by apply elem_of_union_l, elem_of_singleton.
  - rewrite list_lookup_insert_ne in Hj by lia. rewrite (Hs j b Hj). apply bool_decide_ext.
    rewrite elem_of_union, elem_of_singleton. tauto.
Qed.

Lemma parent_authors_cons round a l :
  parent_authors round (a :: l) =
  (if decide (br_round a + 1 = round) then {[br_author a]} else ∅) ∪ parent_authors round l.
Proof using.
  unfold parent_authors. rewrite filter_cons. destruct (decide _); csimpl; [done|].
  by rewrite union_empty_l_L.
Qed.

(** Counting the stake of a parent not seen before. *)
Lemma add_parent_stake P i :
  P ⊆ members c → i ∈ members c → i ∉ P →
  (stake ← Committee_stake c i; u64_add (set_stake c P) stake) = Ret (set_stake c ({[i]} ∪ P)).
Proof using Hwf.
  intros HP Hi Hn. rewrite Committee_stake_valid by (by apply members_spec). cbn [mbind M_bind].
  assert (set_stake c ({[i]} ∪ P) = stake_at c i + set_stake c P) as Heq by (by apply weight_insert).
  assert (set_stake c ({[i]} ∪ P) ≤ Committee_total_stake c) as Hle.
  { apply set_stake_le_total; [done|]. apply union_least; [by apply singleton_subseteq_l|done]. }
  pose proof (wf_total_u64 c Hwf). rewrite int_add_exact by lia. f_equal. lia.
Qed.

Lemma position_check (block : Block) (i : N) (a : BlockRef) :
  ((i =? 0) && negb (br_author a =? b_author block)) || ((0 <? i) && (br_author a =? b_author block)) = false
  ↔ (i = 0 ↔ br_author a = b_author block).
Proof using.
  destruct (N.eqb_spec i 0), (N.ltb_spec 0 i), (N.eqb_spec (br_author a) (b_author block)); simpl;
    split; (done || lia || tauto || intros; lia).
Qed.

Lemma ancestors_check_spec block l i seen S P :
  0 < b_round block → seen_is seen S → P ⊆ S → S ⊆ members c →
  ∃ r, ancestors_check v block i seen (set_stake c P) l = Ret r ∧
    ∀ stakes, r = Ok stakes ↔ rest_rules block i S l ∧
      stakes = set_stake c (P ∪ parent_authors (b_round block) l).
Proof using Hwf.
  intros Hround. revert i seen S P. induction l as [|a l IH]; intros i seen S P Hseen HP HS.
  { exists (Ok (set_stake c P)). split; [done|]. intros stakes.
    change (parent_authors (b_round block) []) with (∅ : gset AuthorityIndex). rewrite union_empty_r_L.
    split; [intros [= <-]|by intros [_ ->]]. split; [|done].
    split_and!; [done|apply NoDup_nil_2|by intros ? ?%not_elem_of_nil|done]. }
  assert (∀ (m : M (ConsensusResult Stake)) e, m = Ret (Err e) → ¬ rest_rules block i S (a :: l) →
    ∃ r, m = Ret r ∧ ∀ stakes, r = Ok stakes ↔ rest_rules block i S (a :: l) ∧
      stakes = set_stake c (P ∪ parent_authors (b_round block) (a :: l))) as Hfail.
  { intros m e -> Hn. eexists. split; [done|]. intros stakes. split; [done|by intros [? _]]. }
  cbn [ancestors_check]. fold ctx c.
  destruct (Committee_is_valid_index c (br_author a)) eqn:Hvalid; cbn [negb].
  2:{ destruct (InvalidAuthorityIndex_at_returns (A := Stake) "ancestor" (br_author a)) as [e He].
      eapply Hfail; [exact He|]. intros ((Hm & _) & _)%rest_rules_cons. apply members_spec in Hm. congruence. }
  apply members_spec in Hvalid.
  destruct (_ || _) eqn:Hpos.
  { eapply Hfail; [done|]. intros (_ & Hp & _)%rest_rules_cons. apply position_check in Hp. congruence. }
  apply position_check in Hpos.
  destruct (N.leb_spec (b_round block) (br_round a)) as [Hge|Hlt].
  { eapply Hfail; [done|]. intros ((_ & Hlt & _) & _)%rest_rules_cons. lia. }
  destruct ((br_round a =? GENESIS_ROUND) && negb (bool_decide (a ∈ bv_genesis v))) eqn:Hgen.
  { eapply Hfail; [done|]. intros ((_ & _ & Hg) & _)%rest_rules_cons.
    apply andb_true_iff in Hgen as [Hz%N.eqb_eq Hn%negb_true_iff%bool_decide_eq_false]. by apply Hn, Hg. }
  assert (ancestor_rules block a) as Hrules.
  { split_and!; [done..|]. intros Hz. apply andb_false_iff in Hgen as [Hnz%N.eqb_neq|Hin]; [done|].
    by apply negb_false_iff, bool_decide_eq_true in Hin. }
  rewrite (seen_is_lookup seen S) by done. cbn [mbind M_bind].
  destruct (bool_decide (br_author a ∈ S)) eqn:Hdup.
  { eapply Hfail; [done|]. intros (_ & _ & Hn & _)%rest_rules_cons. by apply bool_decide_eq_true in Hdup. }
  apply bool_decide_eq_false in Hdup.
  destruct (seen_is_update seen S (br_author a)) as (seen' & -> & Hseen'); [done..|]. cbn [mbind M_bind].
  rewrite (proj2 (N.leb_le 1 (b_round block))) by lia. cbn [expect mbind M_bind].
  set (P' := (if decide (br_round a + 1 = b_round block) then {[br_author a]} else ∅) ∪ P).
  assert ((if br_round a =? b_round block - 1
           then stake ← Committee_stake c (br_author a); u64_add (set_stake c P) stake
           else Ret (set_stake c P)) = Ret (set_stake c P')) as ->.
  { unfold P'. destruct (N.eqb_spec (br_round a) (b_round block - 1)).
    - rewrite decide_True by lia. apply add_parent_stake; set_solver.
    - rewrite decide_False by lia. by rewrite union_empty_l_L. }
  cbn [mbind M_bind]. destruct (IH (i + 1) seen' ({[br_author a]} ∪ S) P') as (r & -> & Hr); [done| | |].
  { unfold P'. destruct (decide _); set_solver. }
  { set_solver. }
  exists r. split; [done|]. intros stakes. rewrite Hr, rest_rules_cons, parent_authors_cons.
  rewrite (assoc_L (∪)), (comm_L (∪) P). fold P'. tauto.
Qed.

Lemma distinct_members_length (l : list AuthorityIndex) :
  NoDup l → (∀ i, i ∈ l → i ∈ members c) → N.of_nat (length l) ≤ Committee_size c.
Proof using.
  intros Hnd Hm. unfold Committee_size.
  assert (size (list_to_set l : gset AuthorityIndex) ≤ size (members c))%nat as Hle.
  { apply subseteq_size. intros i Hi%elem_of_list_to_set. by apply Hm. }
  unfold members in Hle. rewrite !size_list_to_set in Hle; [|by apply NoDup_fmap_2_strong, NoDup_seq; intros; lia|done].
  rewrite length_fmap, length_seq in Hle. lia.
Qed.

Lemma positions_own_first block l :
  NoDup (br_author <$> l) → l ≠ [] →
  positions block 0 l ↔ ∃ a rest, l = a :: rest ∧ br_author a = b_author block.
Proof using.
  intros Hnd Hne. destruct l as [|a l]; [done|]. csimpl in Hnd. apply NoDup_cons in Hnd as [Hn _].
  split; [intros [Ha _]; exists a, l; split; [done|by apply Ha]|]. intros (a' & rest & [= <- <-] & Ha).
  split; [done|].
  assert (∀ i l', 0 < i → (∀ x, x ∈ l' → br_author x ≠ b_author block) → positions block i l') as Hrest.
  { clear. intros i l'. revert i. induction l' as [|x l' IH]; intros i Hi Hx; [done|]. split.
    - split; [lia|]. intros Heq. exfalso. apply (Hx x); [left|done].
    - apply IH; [lia|]. intros; apply Hx; by right. }
  apply Hrest; [lia|]. intros x Hx Heq. apply Hn. rewrite Ha, <- Heq. by apply list_elem_of_fmap_2.
Qed.

(** The ancestors a block may have. *)
Definition ancestors_rules (block : Block) : Prop :=
  (∃ a rest, b_ancestors block = a :: rest ∧ br_author a = b_author block) ∧
  NoDup (br_author <$> b_ancestors block) ∧ Forall (ancestor_rules block) (b_ancestors block).

Lemma ancestors_rules_rest block :
  b_ancestors block ≠ [] → ancestors_rules block ↔ rest_rules block 0 ∅ (b_ancestors block).
Proof using.
  intros Hne. unfold ancestors_rules, rest_rules. split.
  - intros (? & Hnd & ?). split_and!; [done..|intros ? _; apply not_elem_of_empty|].
    by apply positions_own_first.
  - intros (? & Hnd & _ & ?). split_and!; [|done..]. by apply positions_own_first.
Qed.

Lemma verify_signature_spec (block : SignedBlock) :
  b_author block ∈ members c →
  ∃ authority, Committee_authorities c !! N.to_nat (b_author block) = Some authority ∧
    SignedBlock_verify_signature block ctx
    = Ret (verify_block_signature block (sb_signature block) (Authority_protocol_key authority)).
Proof using.
  intros Ha%members_spec. unfold SignedBlock_verify_signature. fold c. rewrite Ha. cbn [negb].
  unfold Committee_is_valid_index, Committee_size in Ha. nbool. unfold Committee_authority, index.
  destruct (lookup_lt_is_Some_2 (Committee_authorities c) (N.to_nat (b_author block))) as [a Hl]; [lia|].
  rewrite Hl. by exists a.
Qed.

Lemma check_transaction_votes_spec (block : Block) :
  pc_gc_depth config < 2 ^ 32 →
  ∃ r, SignedBlockVerifier_check_transaction_votes v block = Ret r ∧ (r = Ok tt ↔ votes_rules block).
Proof using Hwf.
  intros Hgc. unfold SignedBlockVerifier_check_transaction_votes, votes_rules.
  destruct (decide (b_transaction_votes block = [])) as [Hnil|Hne].
  { rewrite bool_decide_eq_true_2 by done. eexists. split; [done|]. rewrite Hnil. split; [|done].
    intros _. split_and!; [simpl; lia|apply NoDup_nil_2|done]. }
  rewrite bool_decide_eq_false_2 by done. unfold max_transaction_vote_targets. fold ctx c config.
  pose proof (wf_size c Hwf). rewrite int_mul_exact by nia. cbn [mbind M_bind].
  destruct (N.ltb_spec (N.max (pc_gc_depth config) 1 * Committee_size c)
              (N.of_nat (length (b_transaction_votes block)))) as [Hlt|Hge].
  { eexists. split; [done|]. split; [done|]. intros [? _]. lia. }
  destruct (votes_check_spec block ∅ (b_transaction_votes block)) as (r & Hr & Hiff).
  exists r. split; [done|]. rewrite Hiff. split; [intros (? & ? & _)|intros (_ & ? & ?)]; by split_and!.
Qed.

(** The checks on ancestors and parents, together. *)
Lemma ancestors_verified (block : SignedBlock) :
  0 < b_round block → b_ancestors block ≠ [] →
  ∃ r, ancestors_check v block 0 (replicate (N.to_nat (Committee_size c)) false) 0 (b_ancestors block) = Ret r ∧
    ∀ stakes, r = Ok stakes ↔ ancestors_rules block ∧
      stakes = set_stake c (parent_authors (b_round block) (b_ancestors block)).
Proof using Hwf.
  intros Hround Hne.
  destruct (ancestors_check_spec block (b_ancestors block) 0 (replicate (N.to_nat (Committee_size c)) false) ∅ ∅)
    as (r & Hr & Hiff); [done| |done|set_solver|].
  { split; [rewrite length_replicate; unfold Committee_size; lia|].
    intros i b [-> _]%lookup_replicate. symmetry. apply bool_decide_eq_false, not_elem_of_empty. }
  exists r. change 0 with (set_stake c ∅). split; [exact Hr|]. intros stakes.
  by rewrite Hiff, ancestors_rules_rest, union_empty_l_L.
Qed.

Lemma parents_members (block : Block) :
  ancestors_rules block → parent_authors (b_round block) (b_ancestors block) ⊆ members c.
Proof using.
  intros (_ & _ & Hall) i (a & -> & [_ Ha]%list_elem_of_filter)%elem_of_list_to_set%list_elem_of_fmap.
  rewrite Forall_forall in Hall. by apply (Hall a Ha).
Qed.

(** The rules that do not need the identity of the author. *)
Definition contents_rules (block : SignedBlock) : Prop :=
  ancestors_rules block ∧ is_quorum c (parent_authors (b_round block) (b_ancestors block)) ∧
  (pc_enable_v3 config = true → b_transaction_votes_cutoff_round block < b_round block ∧ votes_rules block) ∧
  batch_rules (b_transactions_data block).

Lemma votes_verified (block : SignedBlock) :
  pc_gc_depth config < 2 ^ 32 →
  ∃ r, (if pc_enable_v3 config then
          let cutoff := b_transaction_votes_cutoff_round block in
          if b_round block <=? cutoff then Ret (Err (InvalidTransactionVotesCutoff cutoff (b_round block)))
          else SignedBlockVerifier_check_transaction_votes v block
        else Ret (Ok tt)) = Ret r ∧
    (r = Ok tt ↔ (pc_enable_v3 config = true →
                  b_transaction_votes_cutoff_round block < b_round block ∧ votes_rules block)).
Proof using Hwf.
  intros Hgc. destruct (pc_enable_v3 config); [|eexists; split; [done|]; by split].
  cbv zeta.
  destruct (N.leb_spec (b_round block) (b_transaction_votes_cutoff_round block)) as [Hle|Hlt].
  { eexists. split; [done|]. split; [done|]. intros Hv. destruct (Hv eq_refl). lia. }
  destruct (check_transaction_votes_spec block Hgc) as (r & -> & Hr). exists r. split; [done|].
  rewrite Hr. split; [done|]. intros Hv. by apply (Hv eq_refl).
Qed.

Lemma verify_contents_spec (block : SignedBlock) :
  0 < b_round block → pc_gc_depth config < 2 ^ 32 → batch_size (b_transactions_data block) < 2 ^ 64 →
  ∃ r, verify_contents v block = Ret r ∧ (r = Ok tt ↔ contents_rules block).
Proof using Hwf.
  intros Hround Hgc Hbatch.
  assert (∀ (m : M (ConsensusResult unit)) e, m = Ret (Err e) → ¬ contents_rules block →
    ∃ r, m = Ret r ∧ (r = Ok tt ↔ contents_rules block)) as Hfail.
  { intros m e -> Hn. eexists. split; [done|]. by split. }
  unfold verify_contents. fold ctx c config.
  destruct (N.ltb_spec (Committee_size c) (N.of_nat (length (b_ancestors block)))) as [Hlen|_].
  { eapply Hfail; [done|]. intros ((_ & Hnd & Hall) & _). rewrite Forall_forall in Hall.
    pose proof (distinct_members_length (br_author <$> b_ancestors block) Hnd) as Hle.
    rewrite length_fmap in Hle. apply N.lt_nge in Hlen. apply Hlen, Hle.
    intros i (a & -> & Ha)%list_elem_of_fmap. by apply Hall. }
  destruct (decide (b_ancestors block = [])) as [Hnil|Hne].
  { rewrite bool_decide_eq_true_2 by done. eapply Hfail; [done|]. intros (((? & ? & ? & _) & _) & _). congruence. }
  rewrite bool_decide_eq_false_2 by done.
  destruct (ancestors_verified block) as (r & -> & Hanc); [done..|]. unfold try_bind. cbn [mbind M_bind].
  destruct r as [stakes|e].
  2:{ eapply Hfail; [done|]. intros [Ha _]. by pose proof (proj2 (Hanc _) (conj Ha eq_refl)). }
  destruct (proj1 (Hanc stakes) eq_refl) as [Ha ->]. clear Hanc.
  destruct (Committee_reached_quorum c _) eqn:Hq; cbn [negb].
  2:{ eapply Hfail; [done|]. intros (_ & [_ ?] & _). congruence. }
  assert (is_quorum c (parent_authors (b_round block) (b_ancestors block))) as Hquorum
    by (split; [by apply parents_members|done]).
  destruct (votes_verified block Hgc) as (rv & Hrv & Hvotes). cbv zeta in Hrv. rewrite Hrv. cbn [mbind M_bind].
  destruct rv as [[]|e]; [|eapply Hfail; [done|]; intros (_ & _ & Hv%Hvotes & _); done].
  destruct (check_transactions_spec (b_transactions_data block) Hbatch) as (rt & -> & Ht).
  exists rt. split; [done|]. rewrite Ht. unfold contents_rules.
  pose proof (proj1 Hvotes eq_refl) as Hv. split; [intros Hb; by split_and!|by intros (_ & _ & _ & Hb)].
Qed.

Lemma block_rules_contents (block : SignedBlock) authority :
  b_epoch block = Committee_epoch c → 0 < b_round block → version_matches ctx block = true →
  b_author block ∈ members c →
  Committee_authorities c !! N.to_nat (b_author block) = Some authority →
  verify_block_signature block (sb_signature block) (Authority_protocol_key authority) = Ok tt →
  contents_rules block ↔ block_rules block.
Proof using.
  intros ? ? ? ? ? ?. split.
  - intros ((? & ? & ?) & ? & ? & ?). split; try done. by exists authority.
  - intros []. by split_and!.
Qed.

Lemma verify_block_spec (block : SignedBlock) :
  pc_gc_depth config < 2 ^ 32 → batch_size (b_transactions_data block) < 2 ^ 64 →
  ∃ r, SignedBlockVerifier_verify_block v block = Ret r ∧ (r = Ok tt ↔ block_rules block).
Proof using Hwf.
  intros Hgc Hbatch.
  assert (∀ (m : M (ConsensusResult unit)) e, m = Ret (Err e) → ¬ block_rules block →
    ∃ r, m = Ret r ∧ (r = Ok tt ↔ block_rules block)) as Hfail.
  { intros m e -> Hn. eexists. split; [done|]. by split. }
  unfold SignedBlockVerifier_verify_block. fold ctx c config.
  destruct (N.eqb_spec (b_epoch block) (Committee_epoch c)) as [Hepoch|He]; cbn [negb];
    [|eapply Hfail; [done|by intros []]].
  destruct (N.eqb_spec (b_round block) 0) as [Hz|Hround]; [eapply Hfail; [done|intros []; lia]|].
  destruct (version_matches ctx block) eqn:Hver; cbn [negb]; [|eapply Hfail; [done|intros []; congruence]].
  destruct (Committee_is_valid_index c (b_author block)) eqn:Hauth; cbn [negb].
  2:{ destruct (InvalidAuthorityIndex_at_returns (A := unit) "verifying block" (b_author block)) as [e He].
      eapply Hfail; [exact He|]. intros []. rewrite members_spec in bk_author0. congruence. }
  apply members_spec in Hauth. destruct (verify_signature_spec block Hauth) as (authority & Hl & ->).
  unfold try_bind at 1. cbn [mbind M_bind].
  destruct (verify_block_signature _ _ _) as [[]|e] eqn:Hsig.
  2:{ eapply Hfail; [done|]. intros []. destruct bk_signature0 as (? & ? & ?). congruence. }
  destruct (verify_contents_spec block) as (r & Hr & Hiff); [lia|done..|].
  exists r. split; [done|]. rewrite Hiff. apply (block_rules_contents block authority); (done || lia).
Qed.

(** C8: [verify_block] returns on every block, and accepts exactly the blocks
    that follow the rules: of this epoch, above the genesis round, of the version
    of the protocol, signed by a member of the committee, with the author's own
    previous block first and at most one ancestor per member, all of lower rounds
    (of round 0 only genesis blocks), a quorum of them in the previous round,
    well-formed transaction votes, and transactions within the limits. *)
Theorem SignedBlockVerifier_verify_block_exact (block : SignedBlock) :
  pc_gc_depth config < 2 ^ 32 → batch_size (b_transactions_data block) < 2 ^ 64 →
  ∃ r, SignedBlockVerifier_verify_block v block = Ret r ∧ (r = Ok tt ↔ block_rules block).
Proof using Hwf. apply verify_block_spec. Qed.

End Rules.

(** ** The DAG of verified blocks *)

Section VerifiedDag.
Context `{Profile} `{Crypto} `{Signing} (ctx : Context) (v : SignedBlockVerifier).
Let c := ctx_committee ctx.
Context (Hwf : Committee_wf c) (Hgc : pc_gc_depth (ctx_protocol_config ctx) < 2 ^ 32).
Context (gs : list VerifiedBlock) (Hgs : genesis_blocks ctx = Ret gs).

(** Blocks that were verified, with their ancestors, or are genesis blocks. *)
Record verified_dag (G : BlockRef → option VerifiedBlock) : Prop := {
  vd_ref : ∀ r b, G r = Some b → reference b = r;
  vd_genesis : ∀ r b, G r = Some b → br_round r = GENESIS_ROUND → b ∈ gs;
  vd_verified : ∀ r b, G r = Some b → br_round r ≠ GENESIS_ROUND →
    batch_size (b_transactions_data b) < 2 ^ 64 ∧
    SignedBlockVerifier_verify_block v b = Ret (Ok tt);
  vd_closed : ∀ r b a, G r = Some b → a ∈ b_ancestors b → is_Some (G a);
}.

Lemma genesis_fields (b : VerifiedBlock) : b ∈ gs → b_ancestors b = [] ∧ b_author b ∈ members c.
Proof using Hgs Hwf.
  intros [k Hk]%list_elem_of_lookup. unfold genesis_blocks in Hgs. rewrite mapP_Forall2 in Hgs.
  destruct (Forall2_lookup_r _ _ _ _ _ Hgs Hk) as (ia & Hia & Hg). split.
  - unfold genesis_block in Hg. mskip Hg. injection Hg as <-. simpl.
    by destruct (pc_enable_v3 (ctx_protocol_config ctx)),
      (pc_transaction_voting_enabled (ctx_protocol_config ctx)).
  - apply genesis_block_fields in Hg as [_ ->].
    assert (ia.1 ∈ (Committee_authorities_iter c).*1) as Hin.
    { apply list_elem_of_fmap_2. by eapply list_elem_of_lookup_2. }
    by apply members_authorities_iter in Hin.
Qed.

(** C15: whatever verification accepts, together with its ancestors and the
    genesis blocks, is a DAG as the commit rule needs it: filed under its
    references, authored by members, linking to lower rounds only, each block
    with a quorum of parents; moreover no block names an author twice, and each
    one starts with the previous block of its author. *)
Theorem SignedBlockVerifier_verified_dag G :
  SignedBlockVerifier_new ctx = Ret v → verified_dag G →
  dag_valid c G ∧
  ∀ r b, G r = Some b → NoDup (br_author <$> b_ancestors b) ∧
    (br_round r ≠ GENESIS_ROUND → ∃ a rest, b_ancestors b = a :: rest ∧ br_author a = br_author r).
Proof using Hwf Hgc Hgs.
  intros Hnew Hvd.
  assert (bv_context v = ctx) as Hctx.
  { unfold SignedBlockVerifier_new in Hnew. rewrite Hgs in Hnew. injection Hnew as Heq. by rewrite <- Heq. }
  assert (∀ r b, G r = Some b →
    (br_round r = GENESIS_ROUND ∧ b_ancestors b = [] ∧ b_author b ∈ members c) ∨
    (br_round r ≠ GENESIS_ROUND ∧ block_rules v b)) as Hcases.
  { intros r b Hb. destruct (decide (br_round r = GENESIS_ROUND)) as [Hz|Hz].
    - left. split; [done|]. by apply genesis_fields, (vd_genesis G Hvd r).
    - right. split; [done|]. destruct (vd_verified G Hvd r b Hb Hz) as [Hsize Hver].
      destruct (verify_block_spec v) with (block := vb_block b) as (x & Hx & Hiff);
        [by rewrite Hctx..|done|]. rewrite Hver in Hx. injection Hx as <-. by apply Hiff. }
  split; [split|].
  - apply Hvd.
  - intros r b Hb. rewrite <- (vd_ref G Hvd r b Hb). destruct (Hcases r b Hb) as [(_ & _ & ?)|[_ Hr]]; [done|].
    apply bk_author in Hr. by rewrite Hctx in Hr.
  - intros r b a Hb Ha. split; [|by eapply vd_closed]. rewrite <- (vd_ref G Hvd r b Hb).
    destruct (Hcases r b Hb) as [(_ & Hnil & _)|[_ Hr]]; [rewrite Hnil in Ha; by apply not_elem_of_nil in Ha|].
    apply bk_ancestors in Hr. rewrite Forall_forall in Hr. by apply (Hr a Ha).
  - intros r b Hb Hpos. destruct (Hcases r b Hb) as [(Hz & _)|[_ Hr]]; [unfold GENESIS_ROUND in Hz; lia|].
    apply bk_quorum in Hr. by rewrite Hctx in Hr.
  - intros r b Hb. destruct (Hcases r b Hb) as [(Hz & -> & _)|[_ Hr]]; [split; [apply NoDup_nil_2|done]|].
    split; [by apply bk_distinct in Hr|]. intros _. rewrite <- (vd_ref G Hvd r b Hb).
    by apply bk_own_first in Hr.
Qed.

End VerifiedDag.

(** ** Instances *)

#[local] Existing Instances DagRecovery.witness_profile DagRecovery.witness_crypto.

(** A signature scheme for which every signature is the message itself. *)
#[local] Instance sample_signing : Signing := {|
  ProtocolKeyPair := unit; ProtocolKeySignature := bytes;
  bcs_block _ := inl [Byte.x01]; bcs_intent _ := inl [Byte.x02];
  keypair_sign _ message := message; signature_to_bytes s := s;
  signature_from_bytes b := inl b;
  pubkey_verify _ _ _ := None |}.

Definition sample_verifier : SignedBlockVerifier :=
  mkSignedBlockVerifier sample_context (list_to_set (sample_ref 0 <$> [0; 1; 2; 3])).

Lemma SignedBlockVerifier_verify_block_exact_witness :
  block_rules sample_verifier (dag_block 2 1) ∧ ¬ block_rules sample_verifier (sample_block 2 1 5 [dag_ref 1 1]).
Proof.
  split.
  - destruct (SignedBlockVerifier_verify_block_exact sample_verifier sample_committee_wf (dag_block 2 1)
      ltac:(vm_compute; reflexivity) ltac:(vm_compute; reflexivity)) as (r & Hr & Hiff).
    apply Hiff. assert (Ret r = Ret (Ok tt)) as [=]; [|done]. rewrite <- Hr. vm_compute. reflexivity.
  - destruct (SignedBlockVerifier_verify_block_exact sample_verifier sample_committee_wf
      (sample_block 2 1 5 [dag_ref 1 1]) ltac:(vm_compute; reflexivity) ltac:(vm_compute; reflexivity))
      as (r & Hr & Hiff).
    rewrite <- Hiff. intros ->. vm_compute in Hr. discriminate Hr.
Defined.

Definition verified_map (gs : list VerifiedBlock) : gmap BlockRef VerifiedBlock :=
  list_to_map ((λ b, (reference b, b)) <$> (gs ++ round_blocks 1 ++ round_blocks 2)).

Definition is_ok {A} (r : ConsensusResult A) : bool := match r with Ok _ => true | Err _ => false end.

Definition verified_check (gs : list VerifiedBlock) : Prop :=
  map_Forall (λ r b, reference b = r ∧ (br_round r = GENESIS_ROUND → b ∈ gs) ∧
    (br_round r ≠ GENESIS_ROUND → batch_size (b_transactions_data (vb_block b)) < 2 ^ 64 ∧
       outcome_sat (SignedBlockVerifier_verify_block sample_verifier b) is_ok = true) ∧
    Forall (λ a, is_Some (verified_map gs !! a)) (b_ancestors (vb_block b))) (verified_map gs).

#[local] Instance verified_check_dec gs : base.Decision (verified_check gs).
Proof. unfold verified_check. apply _. Defined.

Lemma verified_check_dag gs : verified_check gs → verified_dag sample_verifier gs (λ r, verified_map gs !! r).
Proof.
  intros Hcheck. split; intros r b; [| | |intros a]; intros Hb; destruct (Hcheck r b Hb) as (? & ? & Hv & Hall);
    [done..| |].
  - intros Hz. destruct (Hv Hz) as [? Hok]. split; [done|].
    apply outcome_sat_spec in Hok as ([[]|] & Hr & Hok); [done|done].
  - rewrite Forall_forall in Hall. apply Hall.
Qed.

Lemma SignedBlockVerifier_verified_dag_witness :
  ∃ gs, genesis_blocks sample_context = Ret gs ∧
    dag_valid sample_committee (λ r, verified_map gs !! r) ∧ is_Some (verified_map gs !! dag_ref 2 3).
Proof.
  assert (outcome_sat (genesis_blocks sample_context) (λ gs, bool_decide (verified_check gs ∧
    is_Some (verified_map gs !! dag_ref 2 3)))
    = true) as Hr by (vm_compute; reflexivity).
  apply outcome_sat_spec in Hr as (gs & Hgs & (Hcheck & Hsome)%bool_decide_eq_true).
  exists gs. split; [exact Hgs|]. split; [|exact Hsome].
  apply (SignedBlockVerifier_verified_dag sample_context sample_verifier sample_committee_wf
           ltac:(vm_compute; reflexivity) gs Hgs); [vm_compute; reflexivity|by apply verified_check_dag].
Defined.
