(* ===== verification/BlockManager.v ===== *)
(** * The block manager (consensus/core/src/block_manager.rs)

    Verified blocks enter the DAG only when their ancestors above the garbage
    collection round have.  The block manager suspends the others, tells which
    blocks to fetch, and accepts suspended blocks when the last ancestor that
    they miss is accepted or garbage collected.

    The DAG state that it writes to is an interface, [BlockSink]; metrics and the
    times of suspension are left out, the lookups of host names for them, which
    panic on an unknown authority, are kept. *)

From S2P Require Import Prelude BTree Config Block Commit Store StakeAggregator ThresholdClock.
From S2P Require Import LeaderScoring DagState.
Local Open Scope N_scope.

(** ** The DAG that blocks are accepted into *)

Class BlockSink (D : Type) : Type := {
  sk_gc_round : D → Round;
  sk_contains_block : D → BlockRef → M bool;
  sk_contains_blocks : D → list BlockRef → M (list bool);
  sk_accept_blocks : D → list VerifiedBlock → M D;
}.

#[export] Instance DagState_block_sink `{Profile} {S : Type} `{Store S} : BlockSink (DagState S) := {
  sk_gc_round := DagState_gc_round;
  sk_contains_block := DagState_contains_block;
  sk_contains_blocks := DagState_contains_blocks;
  sk_accept_blocks := DagState_accept_blocks;
}.

(** ** The state *)

Record SuspendedBlock : Type := mkSuspendedBlock {
  su_block : VerifiedBlock;
  su_missing_ancestors : gset BlockRef;
}.

Record BlockManager {D : Type} : Type := mkBlockManager {
  bm_context : Context;
  bm_dag : D;
  bm_suspended_blocks : gmap BlockRef SuspendedBlock;
  bm_missing_ancestors : gmap BlockRef (gset BlockRef);
  bm_missing_blocks : gset BlockRef;
  bm_received_block_rounds : list (option (Round * Round));
}.
Arguments BlockManager : clear implicits.

Inductive TryAcceptResult : Type :=
| Accepted (block : VerifiedBlock)
| Suspended (ancestors_to_fetch : gset BlockRef)
| Processed
| Skipped.

Section BlockManagerOps.
Context {D : Type} `{BlockSink D}.
Implicit Types m : BlockManager D.

Definition BlockManager_new (context : Context) (dag : D) : BlockManager D :=
  mkBlockManager D context dag ∅ ∅ ∅
    (replicate (N.to_nat (Committee_size (ctx_committee context))) None).

Definition set_dag (dag : D) m : BlockManager D :=
  mkBlockManager D (bm_context m) dag (bm_suspended_blocks m) (bm_missing_ancestors m)
    (bm_missing_blocks m) (bm_received_block_rounds m).
Definition set_suspended (v : gmap BlockRef SuspendedBlock) m : BlockManager D :=
  mkBlockManager D (bm_context m) (bm_dag m) v (bm_missing_ancestors m)
    (bm_missing_blocks m) (bm_received_block_rounds m).
Definition set_missing_ancestors (v : gmap BlockRef (gset BlockRef)) m : BlockManager D :=
  mkBlockManager D (bm_context m) (bm_dag m) (bm_suspended_blocks m) v
    (bm_missing_blocks m) (bm_received_block_rounds m).
Definition set_missing_blocks (v : gset BlockRef) m : BlockManager D :=
  mkBlockManager D (bm_context m) (bm_dag m) (bm_suspended_blocks m) (bm_missing_ancestors m)
    v (bm_received_block_rounds m).
Definition set_received (v : list (option (Round * Round))) m : BlockManager D :=
  mkBlockManager D (bm_context m) (bm_dag m) (bm_suspended_blocks m) (bm_missing_ancestors m)
    (bm_missing_blocks m) v.

(** The lookup of the host name of an authority. *)
Definition hostname m (author : AuthorityIndex) : M string :=
  Authority_hostname <$> Committee_authority (ctx_committee (bm_context m)) author.

(** ** Suspension *)

Definition BlockManager_try_unsuspend_block m (block_ref accepted_dependency : BlockRef)
    : M (BlockManager D * option SuspendedBlock) :=
  block ← expect (bm_suspended_blocks m !! block_ref) "Block should be in suspended map";
  assert_that (bool_decide (accepted_dependency ∈ su_missing_ancestors block))
    "Block reference should be present in missing dependencies";;
  let block := mkSuspendedBlock (su_block block)
                 (su_missing_ancestors block ∖ {[accepted_dependency]}) in
  if bool_decide (su_missing_ancestors block = ∅)
  then Ret (set_suspended (delete block_ref (bm_suspended_blocks m)) m, Some block)
  else Ret (set_suspended (<[block_ref := block]> (bm_suspended_blocks m)) m, None).

(** The body of the loop over the children of [block_ref]. *)
Definition unsuspend_child (block_ref : BlockRef)
    (acc : BlockManager D * list BlockRef * list SuspendedBlock) (r : BlockRef)
    : M (BlockManager D * list BlockRef * list SuspendedBlock) :=
  let '(m, to_process_blocks, unsuspended_blocks) := acc in
  '(m, unsuspended) ← BlockManager_try_unsuspend_block m r block_ref;
  match unsuspended with
  | Some block => Ret (m, reference (su_block block) :: to_process_blocks, unsuspended_blocks ++ [block])
  | None => Ret (m, to_process_blocks, unsuspended_blocks)
  end.

(** The loop over the blocks to process, a stack whose top is the head. *)
Fixpoint unsuspend_loop (fuel : nat) m (to_process_blocks : list BlockRef)
    (unsuspended_blocks : list SuspendedBlock) : M (BlockManager D * list SuspendedBlock) :=
  match fuel with
  | O => NoFuel
  | Datatypes.S fuel =>
      match to_process_blocks with
      | [] => Ret (m, unsuspended_blocks)
      | block_ref :: to_process_blocks =>
          match bm_missing_ancestors m !! block_ref with
          | Some children =>
              let m := set_missing_ancestors (delete block_ref (bm_missing_ancestors m)) m in
              '(m, to_process_blocks, unsuspended_blocks) ←
                foldM (unsuspend_child block_ref) (m, to_process_blocks, unsuspended_blocks)
                  (bset_list children);
              unsuspend_loop fuel m to_process_blocks unsuspended_blocks
          | None => unsuspend_loop fuel m to_process_blocks unsuspended_blocks
          end
      end
  end.

Definition unsuspend_fuel m : nat := 2 + size (bm_suspended_blocks m).

Definition BlockManager_try_unsuspend_children_blocks m (accepted_block : BlockRef)
    : M (BlockManager D * list VerifiedBlock) :=
  '(m, unsuspended_blocks) ← unsuspend_loop (unsuspend_fuel m) m [accepted_block] [];
  mapP (λ block, hostname m (b_author (su_block block))) unsuspended_blocks;;
  Ret (m, su_block <$> unsuspended_blocks).

(** ** Acceptance *)

(** The body of the loop over the ancestors that are not in the DAG. *)
Definition miss_ancestor (block_ref : BlockRef)
    (acc : BlockManager D * gset BlockRef * gset BlockRef) (ancestor : BlockRef)
    : M (BlockManager D * gset BlockRef * gset BlockRef) :=
  let '(m, missing_ancestors, ancestors_to_fetch) := acc in
  let missing_ancestors := {[ancestor]} ∪ missing_ancestors in
  let children := default ∅ (bm_missing_ancestors m !! ancestor) in
  let m := set_missing_ancestors
             (<[ancestor := {[block_ref]} ∪ children]> (bm_missing_ancestors m)) m in
  hostname m (br_author ancestor);;
  if bool_decide (is_Some (bm_suspended_blocks m !! ancestor))
  then Ret (m, missing_ancestors, ancestors_to_fetch)
  else Ret (set_missing_blocks ({[ancestor]} ∪ bm_missing_blocks m) m, missing_ancestors,
            {[ancestor]} ∪ ancestors_to_fetch).

Definition BlockManager_try_accept_one_block m (block : VerifiedBlock)
    : M (BlockManager D * TryAcceptResult) :=
  let block_ref := reference block in
  let gc_round := sk_gc_round (bm_dag m) in
  known ← (if bool_decide (is_Some (bm_suspended_blocks m !! block_ref)) then Ret true
           else sk_contains_block (bm_dag m) block_ref);
  if known : bool then Ret (m, Processed)
  else if b_round block <=? gc_round
  then hostname m (b_author block);; Ret (m, Skipped)
  else
    let ancestors := filter (λ ancestor, br_round ancestor = GENESIS_ROUND ∨ gc_round < br_round ancestor)
                       (b_ancestors block) in
    found ← sk_contains_blocks (bm_dag m) ancestors;
    let unfound := (filter (λ e, e.1 = false) (zip found ancestors)).*2 in
    '(m, missing_ancestors, ancestors_to_fetch) ← foldM (miss_ancestor block_ref) (m, ∅, ∅) unfound;
    let m := set_missing_blocks (bm_missing_blocks m ∖ {[block_ref]}) m in
    if bool_decide (missing_ancestors = ∅) then Ret (m, Accepted block)
    else
      hostname m (b_author block);;
      Ret (set_suspended (<[block_ref := mkSuspendedBlock block missing_ancestors]>
                            (bm_suspended_blocks m)) m, Suspended ancestors_to_fetch).

Definition BlockManager_try_accept_one_committed_block m (block : VerifiedBlock)
    : M (BlockManager D * TryAcceptResult) :=
  let block_ref := reference block in
  known ← sk_contains_block (bm_dag m) block_ref;
  if known : bool then Ret (m, Processed)
  else
    let m := set_missing_blocks (bm_missing_blocks m ∖ {[block_ref]}) m in
    let m := match bm_suspended_blocks m !! block_ref with
             | Some suspended_block =>
                 set_missing_ancestors
                   (foldl (λ missing ancestor, alter (λ references, references ∖ {[block_ref]}) ancestor missing)
                      (bm_missing_ancestors m) (bset_list (su_missing_ancestors suspended_block)))
                   (set_suspended (delete block_ref (bm_suspended_blocks m)) m)
             | None => m
             end in
    dag ← sk_accept_blocks (bm_dag m) [block];
    Ret (set_dag dag m, Accepted block).

Definition BlockManager_update_block_received_metrics m (block : VerifiedBlock) : M (BlockManager D) :=
  current ← index (bm_received_block_rounds m) (b_author block);
  let rounds := match current with
                | Some (curr_min, curr_max) => (N.min curr_min (b_round block), N.max curr_max (b_round block))
                | None => (b_round block, b_round block)
                end in
  received ← index_update (bm_received_block_rounds m) (b_author block) (λ _, Some rounds);
  hostname m (b_author block);;
  Ret (set_received received m).

(** After a block is accepted: its children, and the DAG. *)
Definition accept_with_children m (block_ref : BlockRef) (accepted_blocks blocks_to_accept : list VerifiedBlock)
    (missing_blocks : gset BlockRef) : M (BlockManager D * list VerifiedBlock * gset BlockRef) :=
  '(m, unsuspended_blocks) ← BlockManager_try_unsuspend_children_blocks m block_ref;
  let blocks_to_accept := blocks_to_accept ++ unsuspended_blocks in
  dag ← sk_accept_blocks (bm_dag m) blocks_to_accept;
  Ret (set_dag dag m, accepted_blocks ++ blocks_to_accept, missing_blocks).

(** The body of the loop over the blocks. *)
Definition accept_step (committed : bool) (acc : BlockManager D * list VerifiedBlock * gset BlockRef)
    (block : VerifiedBlock) : M (BlockManager D * list VerifiedBlock * gset BlockRef) :=
  let '(m, accepted_blocks, missing_blocks) := acc in
  m ← BlockManager_update_block_received_metrics m block;
  let block_ref := reference block in
  if committed then
    '(m, result) ← BlockManager_try_accept_one_committed_block m block;
    match result with
    | Accepted block => accept_with_children m block_ref (accepted_blocks ++ [block]) [] missing_blocks
    | Processed => Ret (m, accepted_blocks, missing_blocks)
    | Suspended _ | Skipped => Panic (Explicit "Did not expect to suspend or skip a committed block")
    end
  else
    '(m, result) ← BlockManager_try_accept_one_block m block;
    match result with
    | Accepted block => accept_with_children m block_ref accepted_blocks [block] missing_blocks
    | Suspended ancestors_to_fetch => Ret (m, accepted_blocks, missing_blocks ∪ ancestors_to_fetch)
    | Processed | Skipped => Ret (m, accepted_blocks, missing_blocks)
    end.

Definition BlockManager_try_accept_blocks_internal m (blocks : list VerifiedBlock) (committed : bool)
    : M (BlockManager D * list VerifiedBlock * gset BlockRef) :=
  let blocks := stable_sort (λ a b : VerifiedBlock, b_round a <=? b_round b) blocks in
  foldM (accept_step committed) (m, [], ∅) blocks.

Definition BlockManager_try_accept_blocks m (blocks : list VerifiedBlock)
    : M (BlockManager D * list VerifiedBlock * gset BlockRef) :=
  BlockManager_try_accept_blocks_internal m blocks false.

Definition BlockManager_try_accept_committed_blocks m (blocks : list VerifiedBlock)
    : M (BlockManager D * list VerifiedBlock) :=
  '(m, accepted_blocks, missing_blocks) ← BlockManager_try_accept_blocks_internal m blocks true;
  assert_that (bool_decide (missing_blocks = ∅))
    "No missing blocks should be returned for committed blocks";;
  Ret (m, accepted_blocks).

(** ** Missing blocks *)

Definition find_block (acc : BlockManager D * gset BlockRef) (entry : bool * BlockRef)
    : M (BlockManager D * gset BlockRef) :=
  let '(m, missing_blocks) := acc in
  let '(found, block_ref) := entry in
  if found || bool_decide (is_Some (bm_suspended_blocks m !! block_ref)) then Ret acc
  else
    let missing_blocks := {[block_ref]} ∪ missing_blocks in
    if bool_decide (block_ref ∈ bm_missing_blocks m) then Ret (m, missing_blocks)
    else
      let m := set_missing_blocks ({[block_ref]} ∪ bm_missing_blocks m) m in
      let children := default ∅ (bm_missing_ancestors m !! block_ref) in
      let m := set_missing_ancestors (<[block_ref := children]> (bm_missing_ancestors m)) m in
      hostname m (br_author block_ref);;
      Ret (m, missing_blocks).

Definition BlockManager_try_find_blocks m (block_refs : list BlockRef)
    : M (BlockManager D * gset BlockRef) :=
  let gc_round := sk_gc_round (bm_dag m) in
  let block_refs := filter (λ block_ref, gc_round < br_round block_ref) block_refs in
  if bool_decide (block_refs = []) then Ret (m, ∅)
  else
    let block_refs := stable_sort (λ a b, br_round a <=? br_round b) block_refs in
    found ← sk_contains_blocks (bm_dag m) block_refs;
    foldM find_block (m, ∅) (zip found block_refs).

(** ** Garbage collection *)

Fixpoint gc_loop (fuel : nat) (gc_round : Round) m : M (BlockManager D) :=
  match fuel with
  | O => NoFuel
  | Datatypes.S fuel =>
      match bmap_first (bm_missing_ancestors m) with
      | None => Ret m
      | Some (block_ref, _) =>
          if gc_round <? br_round block_ref then Ret m
          else
            hostname m (br_author block_ref);;
            assert_that (negb (bool_decide (is_Some (bm_suspended_blocks m !! block_ref))))
              "Block should not be suspended, as we are causally GC'ing and no suspended block should exist for a missing ancestor.";;
            let m := set_missing_blocks (bm_missing_blocks m ∖ {[block_ref]}) m in
            '(m, unsuspended_blocks) ← BlockManager_try_unsuspend_children_blocks m block_ref;
            dag ← sk_accept_blocks (bm_dag m) unsuspended_blocks;
            let m := set_dag dag m in
            mapP (λ block : VerifiedBlock, hostname m (b_author block)) unsuspended_blocks;;
            gc_loop fuel gc_round m
      end
  end.

Definition BlockManager_try_unsuspend_blocks_for_latest_gc_round m : M (BlockManager D) :=
  gc_loop (Datatypes.S (size (bm_missing_ancestors m))) (sk_gc_round (bm_dag m)) m.

End BlockManagerOps.
