(* ===== verification/BlockManagerTheory.v ===== *)
(** * What the block manager guarantees

    Its invariant: the suspended blocks are those that miss an ancestor, the
    missing ancestors index them, and the blocks to fetch are the missing ones
    that are not suspended.  Blocks enter the DAG after their ancestors above the
    garbage collection round, and every block whose history has arrived enters,
    in whatever order the blocks came. *)

From S2P Require Import Prelude BTree Config Block Commit Store StakeAggregator ThresholdClock.
From S2P Require Import LeaderScoring DagState DagTheory BlockManager.
Local Open Scope N_scope.

(** ** What the manager relies on *)

(** The blocks that may arrive: filed under their references, authored by
    members, with ancestors of lower rounds. *)
Record universe (c : Committee) (U : BlockRef → option VerifiedBlock) : Prop := {
  un_ref : ∀ r b, U r = Some b → reference b = r;
  un_author : ∀ r b, U r = Some b → br_author r ∈ members c;
  un_ancestor : ∀ r b a, U r = Some b → a ∈ b_ancestors b →
    br_round a < br_round r ∧ br_author a ∈ members c;
}.

Class BlockSinkLaws (D : Type) `{BlockSink D} : Type := {
  sk_block : D → BlockRef → option VerifiedBlock;
  (** The DAG holds blocks of [U], and can accept all of them. *)
  sk_fits : Committee → (BlockRef → option VerifiedBlock) → D → Prop;
  sk_sub : ∀ c U d r b, sk_fits c U d → sk_block d r = Some b → U r = Some b;
  sk_contains_block_spec : ∀ c U d r, sk_fits c U d → br_author r ∈ members c →
    sk_contains_block d r = Ret (bool_decide (is_Some (sk_block d r)));
  sk_contains_blocks_spec : ∀ c U d refs, sk_fits c U d → (∀ r, r ∈ refs → br_author r ∈ members c) →
    sk_contains_blocks d refs = Ret ((λ r, bool_decide (is_Some (sk_block d r))) <$> refs);
  sk_accept_spec : ∀ c U d bs, sk_fits c U d →
    (∀ b, b ∈ bs → U (reference b) = Some b ∧ 0 < b_round b) →
    ∃ d', sk_accept_blocks d bs = Ret d' ∧ sk_fits c U d' ∧ sk_gc_round d' = sk_gc_round d ∧
      ∀ r, sk_block d' r = match sk_block d r with
                           | Some b => Some b
                           | None => if decide (r ∈ reference <$> bs) then U r else None
                           end;
}.

Section BlockManagerTheory.
Context {D : Type} `{BlockSinkLaws D}.
(** [floor] is the round up to which the index of missing ancestors was collected. *)
Context (c : Committee) (U : BlockRef → option VerifiedBlock) (floor : Round).
Implicit Types d : D.
Implicit Types m : BlockManager D.
Implicit Types S : gmap BlockRef SuspendedBlock.
Implicit Types A : gmap BlockRef (gset BlockRef).
Implicit Types B X T : gset BlockRef.

(** ** The invariant *)

(** The blocks that miss [a], and what [r] misses. *)
Definition children A (a : BlockRef) : gset BlockRef := default ∅ (A !! a).
Definition misses S (r : BlockRef) : gset BlockRef := from_option su_missing_ancestors ∅ (S !! r).

Lemma children_insert A p x a : children (<[p := x]> A) a = if decide (a = p) then x else children A a.
Proof.
  unfold children. destruct (decide (a = p)) as [->|]; [by rewrite lookup_insert_eq|].
  by rewrite lookup_insert_ne.
Qed.

Lemma children_delete A p a : children (delete p A) a = if decide (a = p) then ∅ else children A a.
Proof.
  unfold children. destruct (decide (a = p)) as [->|]; [by rewrite lookup_delete_eq|].
  by rewrite lookup_delete_ne.
Qed.

Lemma misses_insert S r sb r' :
  misses (<[r := sb]> S) r' = if decide (r' = r) then su_missing_ancestors sb else misses S r'.
Proof.
  unfold misses. destruct (decide (r' = r)) as [->|]; [by rewrite lookup_insert_eq|].
  by rewrite lookup_insert_ne.
Qed.

Lemma misses_delete S r r' : misses (delete r S) r' = if decide (r' = r) then ∅ else misses S r'.
Proof.
  unfold misses. destruct (decide (r' = r)) as [->|]; [by rewrite lookup_delete_eq|].
  by rewrite lookup_delete_ne.
Qed.

Lemma misses_Some S r sb : S !! r = Some sb → misses S r = su_missing_ancestors sb.
Proof. unfold misses. by intros ->. Qed.

Lemma misses_suspended S r a : a ∈ misses S r → ∃ sb, S !! r = Some sb ∧ a ∈ su_missing_ancestors sb.
Proof. unfold misses. destruct (S !! r) as [sb|]; simpl; [by eauto|set_solver]. Qed.

(** A reference that may be waited for. *)
Definition awaited (a : BlockRef) : Prop :=
  br_author a ∈ members c ∧ (br_round a = GENESIS_ROUND ∨ floor < br_round a).

(** The suspended blocks [S], the index [A] of the ancestors they miss and the
    blocks [B] to fetch, while the blocks [X] are about to be accepted and those
    in [T] are still to be removed from the index. *)
Record suspension d (gc : Round) S A B X T : Prop := {
  si_susp : ∀ r sb, S !! r = Some sb → U r = Some (su_block sb) ∧ 0 < br_round r ∧
    sk_block d r = None ∧ r ∉ X ∧ su_missing_ancestors sb ≠ ∅;
  si_missing : ∀ r sb a, S !! r = Some sb → a ∈ su_missing_ancestors sb →
    a ∈ b_ancestors (su_block sb) ∧ ((sk_block d a = None ∧ a ∉ X) ∨ a ∈ T);
  si_ancestors : ∀ r sb a, S !! r = Some sb → a ∈ b_ancestors (su_block sb) → gc < br_round a →
    a ∈ su_missing_ancestors sb ∨ is_Some (sk_block d a) ∨ a ∈ X;
  si_links : ∀ a r, r ∈ children A a ↔ a ∈ misses S r;
  si_keys : ∀ a, is_Some (A !! a) → awaited a ∧ ((sk_block d a = None ∧ a ∉ X) ∨ a ∈ T);
  si_fetch : ∀ a, a ∈ B ↔ is_Some (A !! a) ∧ S !! a = None ∧ a ∉ X;
  si_todo : T ⊆ X;
}.

Lemma suspension_key d gc S A B X T r sb a :
  suspension d gc S A B X T → S !! r = Some sb → a ∈ su_missing_ancestors sb → is_Some (A !! a).
Proof using.
  intros Hs Hr Ha. assert (r ∈ children A a) as Hch by (apply (si_links _ _ _ _ _ _ _ Hs); by rewrite (misses_Some _ _ _ Hr)).
  unfold children in Hch. destruct (A !! a); [by eexists|by apply not_elem_of_empty in Hch].
Qed.

(** Every block has its ancestors above [gc]. *)
Definition history_closed d (gc : Round) : Prop :=
  ∀ r b a, sk_block d r = Some b → a ∈ b_ancestors b → gc < br_round a → is_Some (sk_block d a).

Record bm_ok m : Prop := {
  bo_fits : sk_fits c U (bm_dag m);
  bo_committee : ctx_committee (bm_context m) = c;
  bo_floor : floor ≤ sk_gc_round (bm_dag m);
  bo_received : length (bm_received_block_rounds m) = length (Committee_authorities c);
  bo_suspension : suspension (bm_dag m) (sk_gc_round (bm_dag m)) (bm_suspended_blocks m)
                    (bm_missing_ancestors m) (bm_missing_blocks m) ∅ ∅;
  bo_closed : history_closed (bm_dag m) (sk_gc_round (bm_dag m));
}.

(** ** Releasing suspended blocks *)

(** A block that waits for one in [T] misses it. *)
Lemma suspension_child d gc S A B X T p r rest :
  suspension d gc S (<[p := {[r]} ∪ rest]> A) B X T →
  ∃ sb, S !! r = Some sb ∧ p ∈ su_missing_ancestors sb.
Proof using.
  intros Hs. apply misses_suspended, (si_links _ _ _ _ _ _ _ Hs).
  rewrite children_insert, decide_True by done. set_solver.
Qed.

(** A child that misses more than [p] stays suspended. *)
Lemma suspension_keep d gc S A B X T p r rest sb :
  suspension d gc S (<[p := {[r]} ∪ rest]> A) B X T → p ∈ T → r ∉ rest →
  S !! r = Some sb → su_missing_ancestors sb ∖ {[p]} ≠ ∅ →
  suspension d gc (<[r := mkSuspendedBlock (su_block sb) (su_missing_ancestors sb ∖ {[p]})]> S)
    (<[p := rest]> A) B X T.
Proof using.
  intros [H1 H2 H3 H4 H5 H6 H7] Hp Hr Hsb Hne. destruct (H1 r sb Hsb) as (HUr & Hpos & Hd & HX & _).
  split; [| | | | | |done].
  - intros r' sb' [[<- <-]|[? ?]]%lookup_insert_Some; [by split_and!|by apply H1].
  - intros r' sb' a [[<- <-]|[? ?]]%lookup_insert_Some Ha; simpl in *; [|by apply (H2 r' sb')].
    apply (H2 r sb a); [done|set_solver].
  - intros r' sb' a [[<- <-]|[? ?]]%lookup_insert_Some Ha Hgc; simpl in *; [|by apply (H3 r' sb')].
    destruct (H3 r sb a Hsb Ha Hgc) as [Hm|[?|?]]; [|by auto..].
    destruct (decide (a = p)) as [->|]; [right; right; set_solver|left; set_solver].
  - intros a r'. specialize (H4 a r'). rewrite children_insert, misses_insert in *. simpl.
    destruct (decide (a = p)) as [->|], (decide (r' = r)) as [->|]; rewrite ?(misses_Some _ _ _ Hsb) in *;
      set_solver.
  - intros a Ha. apply H5. rewrite lookup_insert_is_Some' in Ha |- *. done.
  - intros a. rewrite H6, !lookup_insert_is_Some', lookup_insert_None. naive_solver.
Qed.

(** A child that misses only [p] is released. *)
Lemma suspension_release d gc S A B X T p r rest sb :
  suspension d gc S (<[p := {[r]} ∪ rest]> A) B X T → p ∈ T → r ∉ rest →
  S !! r = Some sb → su_missing_ancestors sb ∖ {[p]} = ∅ →
  suspension d gc (delete r S) (<[p := rest]> A) B ({[r]} ∪ X) ({[r]} ∪ T).
Proof using.
  intros [H1 H2 H3 H4 H5 H6 H7] Hp Hr Hsb He. split; [| | | | | |set_solver].
  - intros r' sb' [? ?]%lookup_delete_Some. destruct (H1 r' sb') as (? & ? & ? & ? & ?); [done|].
    split_and!; [done..|set_solver|done].
  - intros r' sb' a [? ?]%lookup_delete_Some Ha. destruct (H2 r' sb' a) as [? Hcase]; [done..|].
    split; [done|]. destruct (decide (a = r)) as [->|]; [right; set_solver|]. destruct Hcase; set_solver.
  - intros r' sb' a [? ?]%lookup_delete_Some Ha Hgc.
    destruct (H3 r' sb' a) as [?|[?|?]]; [done..|by auto|by auto|right; right; set_solver].
  - intros a r'. specialize (H4 a r'). rewrite children_insert, misses_delete in *.
    destruct (decide (a = p)) as [->|], (decide (r' = r)) as [->|]; rewrite ?(misses_Some _ _ _ Hsb) in *;
      set_solver.
  - intros a Ha. destruct (H5 a) as [? Hcase]; [by rewrite lookup_insert_is_Some' in Ha |- *|].
    split; [done|]. destruct (decide (a = r)) as [->|]; [right; set_solver|]. destruct Hcase; set_solver.
  - intros a. rewrite H6, !lookup_insert_is_Some', lookup_delete_None.
    destruct (decide (a = r)) as [->|]; [|set_solver].
    split; [intros (_ & ? & _); congruence|]. intros (_ & _ & ?). set_solver.
Qed.

(** A block that nothing waits for is done. *)
Lemma suspension_done d gc S A B X T p :
  suspension d gc S A B X ({[p]} ∪ T) → children A p = ∅ →
  suspension d gc S (delete p A) B X T.
Proof using.
  intros [H1 H2 H3 H4 H5 H6 H7] He. split; [done| |done| | | |set_solver].
  - intros r sb a Hr Ha. destruct (H2 r sb a Hr Ha) as [? Hcase]. split; [done|].
    destruct (decide (a = p)) as [->|]; [|destruct Hcase; set_solver].
    assert (r ∈ children A p); [|set_solver]. apply H4. by rewrite (misses_Some _ _ _ Hr).
  - intros a r. rewrite children_delete, <- H4. destruct (decide (a = p)) as [->|]; [set_solver|done].
  - intros a Ha. rewrite lookup_delete_is_Some in Ha. destruct Ha as [? Ha].
    destruct (H5 a Ha) as [? Hcase]. split; [done|]. destruct Hcase; set_solver.
  - intros a. rewrite H6, lookup_delete_is_Some. destruct (decide (a = p)) as [->|]; [set_solver|naive_solver].
Qed.

(** Blocks to accept when the blocks [X] are. *)
Definition releasable d (gc : Round) X (b : VerifiedBlock) : Prop :=
  U (reference b) = Some b ∧ 0 < b_round b ∧ sk_block d (reference b) = None ∧ reference b ∉ X ∧
  ∀ a, a ∈ b_ancestors b → gc < br_round a → is_Some (sk_block d a) ∨ a ∈ X.

Definition refs_set (l : list VerifiedBlock) : gset BlockRef := list_to_set (reference <$> l).

(** A list of blocks in causal order. *)
Fixpoint released d (gc : Round) X (l : list VerifiedBlock) : Prop :=
  match l with
  | [] => True
  | b :: l => releasable d gc X b ∧ released d gc ({[reference b]} ∪ X) l
  end.

Lemma refs_set_app l1 l2 : refs_set (l1 ++ l2) = refs_set l1 ∪ refs_set l2.
Proof using. unfold refs_set. by rewrite fmap_app, list_to_set_app_L. Qed.

Lemma released_app d gc X l1 l2 :
  released d gc X (l1 ++ l2) ↔ released d gc X l1 ∧ released d gc (refs_set l1 ∪ X) l2.
Proof using.
  revert X. induction l1 as [|b l1 IH]; intros X; simpl.
  - change (refs_set []) with (∅ : gset BlockRef). rewrite union_empty_l_L. tauto.
  - rewrite IH. change (refs_set (b :: l1)) with ({[reference b]} ∪ refs_set l1).
    rewrite (assoc_L (∪)), (comm_L (∪) (refs_set l1)). tauto.
Qed.

Lemma only_member (Y : gset BlockRef) p a : Y ∖ {[p]} = ∅ → a ∈ Y → a = p.
Proof using.
  intros He Ha. destruct (decide (a = p)) as [|Hne]; [done|]. exfalso. apply (not_elem_of_empty (C := gset BlockRef) a).
  rewrite <- He. apply elem_of_difference. by rewrite elem_of_singleton.
Qed.

(** Suspended blocks stay suspended or are in [l], and the blocks suspended or in
    [l] were suspended or are in [I]. *)
Record keeps S (I : gset BlockRef) S' (l : list VerifiedBlock) : Prop := {
  ke_stay : ∀ r, is_Some (S !! r) → is_Some (S' !! r) ∨ r ∈ refs_set l;
  ke_from : ∀ r, is_Some (S' !! r) ∨ r ∈ refs_set l → is_Some (S !! r) ∨ r ∈ I;
}.

Lemma keeps_refl S I : keeps S I S [].
Proof using. split; intros r Hr; [by left|]. destruct Hr as [?|Hr]; [by left|by apply not_elem_of_empty in Hr]. Qed.

Lemma keeps_trans S S1 S2 I1 I2 l1 l2 :
  keeps S I1 S1 l1 → keeps S1 I2 S2 l2 → keeps S (I1 ∪ I2) S2 (l1 ++ l2).
Proof using.
  clear U. intros [H1 H2] [H3 H4]. split; intros r; rewrite refs_set_app, !elem_of_union; specialize (H1 r); specialize (H2 r);
    specialize (H3 r); specialize (H4 r); tauto.
Qed.

Lemma keeps_cons S I S' b l :
  keeps (delete (reference b) S) I S' l → keeps S ({[reference b]} ∪ I) S' (b :: l).
Proof using.
  clear U. intros [H1 H2].
  split; intros r; change (refs_set (b :: l)) with ({[reference b]} ∪ refs_set l); rewrite !elem_of_union, elem_of_singleton; specialize (H1 r); specialize (H2 r);
    rewrite lookup_delete_is_Some in *; [destruct (decide (r = reference b)); [tauto|]|];
    assert (reference b ≠ r ↔ r ≠ reference b) by (split; congruence); tauto.
Qed.

Lemma keeps_released S S' b l :
  is_Some (S !! reference b) → keeps (delete (reference b) S) ∅ S' l → keeps S ∅ S' (b :: l).
Proof using.
  intros Hb [H1 H2]%keeps_cons. split; [done|]. intros r Hr. left. destruct (H2 r Hr) as [?|Hin]; [done|].
  rewrite union_empty_r_L in Hin. by apply elem_of_singleton in Hin as ->.
Qed.

Context (HU : universe c U).

Lemma suspension_releasable d gc S A B X T p r sb :
  suspension d gc S A B X T → S !! r = Some sb → su_missing_ancestors sb ∖ {[p]} = ∅ → p ∈ T →
  reference (su_block sb) = r ∧ releasable d gc X (su_block sb).
Proof using HU.
  intros Hs Hsb He Hp. destruct (si_susp _ _ _ _ _ _ _ Hs r sb Hsb) as (HUr & Hpos & Hd & HX & _).
  pose proof (un_ref c U HU r _ HUr) as Href. split; [done|].
  unfold releasable. rewrite Href. split_and!; [done|by rewrite <- Href in Hpos|done..|].
  intros a Ha Hgc. destruct (si_ancestors _ _ _ _ _ _ _ Hs r sb a Hsb Ha Hgc) as [Hm|?]; [|done].
  right. apply (si_todo _ _ _ _ _ _ _ Hs). by rewrite (only_member _ _ _ He Hm).
Qed.

Lemma unsuspend_children_loop d gc p l m A tp us X T :
  suspension d gc (bm_suspended_blocks m) (<[p := list_to_set l]> A) (bm_missing_blocks m) X T →
  NoDup l → p ∈ T →
  ∃ S' L, foldM (unsuspend_child p) (m, tp, us) l
          = Ret (set_suspended S' m, reverse (reference <$> (su_block <$> L)) ++ tp, us ++ L) ∧
    suspension d gc S' (<[p := ∅]> A) (bm_missing_blocks m) (refs_set (su_block <$> L) ∪ X)
      (refs_set (su_block <$> L) ∪ T) ∧
    released d gc X (su_block <$> L) ∧ (size S' + length L = size (bm_suspended_blocks m))%nat ∧
    keeps (bm_suspended_blocks m) ∅ S' (su_block <$> L).
Proof using HU.
  revert m tp us X T. induction l as [|r l IH]; intros m tp us X T Hs Hnd Hp.
  { exists (bm_suspended_blocks m), []. rewrite app_nil_r. change (refs_set _) with (∅ : gset BlockRef).
    rewrite !union_empty_l_L. split_and!; [by destruct m|done|done|simpl; lia|apply keeps_refl]. }
  apply NoDup_cons in Hnd as [Hr Hnd]. change (list_to_set (r :: l)) with ({[r]} ∪ list_to_set l : gset BlockRef) in Hs.
  assert (r ∉ (list_to_set l : gset BlockRef)) as Hrl by (by rewrite elem_of_list_to_set).
  destruct (suspension_child _ _ _ _ _ _ _ _ _ _ Hs) as (sb & Hsb & Hpm).
  cbn [foldM]. unfold unsuspend_child at 2, BlockManager_try_unsuspend_block.
  rewrite Hsb. cbn [expect mbind M_bind].
  rewrite (bool_decide_eq_true_2 (p ∈ su_missing_ancestors sb)) by done.
  cbn [assert_that mbind M_bind su_missing_ancestors]. destruct (decide (su_missing_ancestors sb ∖ {[p]} = ∅)) as [He|Hne].
  - rewrite (bool_decide_eq_true_2 (_ = ∅)) by done. cbn [mbind M_bind].
    destruct (suspension_releasable _ _ _ _ _ _ _ _ _ _ Hs Hsb He Hp) as [Href Hrel].
    apply (suspension_release _ _ _ _ _ _ _ _ _ _ sb) in Hs; [|done..]. cbn [su_block].
    destruct (IH (set_suspended (delete r (bm_suspended_blocks m)) m) (reference (su_block sb) :: tp)
      (us ++ [mkSuspendedBlock (su_block sb) (su_missing_ancestors sb ∖ {[p]})]) ({[r]} ∪ X) ({[r]} ∪ T))
      as (S' & L & Hfold & Hs' & HL & Hsz & Hk); [done|done|set_solver|].
    exists S', (mkSuspendedBlock (su_block sb) (su_missing_ancestors sb ∖ {[p]}) :: L).
    rewrite Hfold. csimpl. rewrite reverse_cons, <- !app_assoc. rewrite Href in *.
    change (refs_set (su_block sb :: (su_block <$> L))) with ({[reference (su_block sb)]} ∪ refs_set (su_block <$> L)).
    rewrite Href, !(comm_L (∪) {[r]} (refs_set _)), <- !(assoc_L (∪)).
    split_and!; [done|done|done|done| |].
    + simpl in Hsz. rewrite map_size_delete_Some in Hsz by (by eexists).
      assert (size (bm_suspended_blocks m) ≠ 0%nat); [|simpl; lia].
      intros Hz%map_size_empty_inv. rewrite Hz in Hsb. done.
    + apply keeps_released; rewrite Href; [by eexists|done].
  - rewrite (bool_decide_eq_false_2 (_ = ∅)) by done. cbn [mbind M_bind].
    apply (suspension_keep _ _ _ _ _ _ _ _ _ _ sb) in Hs; [|done..].
    match goal with |- context [<[r := ?x]> _] =>
      destruct (IH (set_suspended (<[r := x]> (bm_suspended_blocks m)) m) tp us X T)
        as (S' & L & Hfold & Hs' & HL & Hsz & Hk); [done..|] end.
    exists S', L. rewrite Hfold. split_and!; [done..| |].
    + simpl in Hsz. by rewrite map_size_insert_Some in Hsz.
    + destruct Hk as [Hk1 Hk2]. assert (is_Some (bm_suspended_blocks m !! r)) as Hr' by eauto.
      split; intros r'; specialize (Hk1 r'); specialize (Hk2 r'); simpl in *; rewrite lookup_insert_is_Some' in *.
      * tauto.
      * intros Hin. destruct (Hk2 Hin) as [[<-|?]|?]; auto.
Qed.

Lemma unsuspend_loop_spec d gc fuel m tp us X :
  suspension d gc (bm_suspended_blocks m) (bm_missing_ancestors m) (bm_missing_blocks m) X (list_to_set tp) →
  (size (bm_suspended_blocks m) + length tp < fuel)%nat →
  ∃ S' A' L, unsuspend_loop fuel m tp us = Ret (set_suspended S' (set_missing_ancestors A' m), us ++ L) ∧
    suspension d gc S' A' (bm_missing_blocks m) (refs_set (su_block <$> L) ∪ X) ∅ ∧
    released d gc X (su_block <$> L) ∧ keeps (bm_suspended_blocks m) ∅ S' (su_block <$> L).
Proof using HU.
  revert m tp us X. induction fuel as [|fuel IH]; intros m tp us X Hs Hf; [lia|].
  cbn [unsuspend_loop]. destruct tp as [|p tp].
  { exists (bm_suspended_blocks m), (bm_missing_ancestors m), []. rewrite app_nil_r.
    change (refs_set _) with (∅ : gset BlockRef). rewrite union_empty_l_L. split_and!; [by destruct m|done|done|apply keeps_refl]. }
  change (list_to_set (p :: tp)) with ({[p]} ∪ list_to_set tp : gset BlockRef) in Hs. simpl length in Hf.
  destruct (bm_missing_ancestors m !! p) as [ch|] eqn:Hch.
  - assert (bm_missing_ancestors m = <[p := list_to_set (bset_list ch)]> (delete p (bm_missing_ancestors m))) as HA.
    { rewrite insert_delete_eq. symmetry. apply insert_id. rewrite Hch. f_equal. apply set_eq. intros x.
      by rewrite elem_of_list_to_set, bset_list_elem. }
    rewrite HA in Hs.
    destruct (unsuspend_children_loop d gc p (bset_list ch)
      (set_missing_ancestors (delete p (bm_missing_ancestors m)) m) (delete p (bm_missing_ancestors m)) tp us X
      ({[p]} ∪ list_to_set tp)) as (S' & L & -> & Hs' & HL & Hsz & Hk); [done|apply bset_list_NoDup|set_solver|].
    cbn [mbind M_bind].
    assert (refs_set (su_block <$> L) ∪ ({[p]} ∪ list_to_set tp)
            = {[p]} ∪ list_to_set (reverse (reference <$> (su_block <$> L)) ++ tp)) as HT.
    { rewrite list_to_set_app_L, (list_to_set_perm_L _ _ (reverse_Permutation _)). fold (refs_set (su_block <$> L)).
      by rewrite !(assoc_L (∪)), (comm_L (∪) (refs_set _)). }
    rewrite HT in Hs'. apply suspension_done in Hs'; [|by rewrite children_insert, decide_True].
    rewrite delete_insert_eq, delete_delete_eq in Hs'.
    destruct (IH (set_suspended S' (set_missing_ancestors (delete p (bm_missing_ancestors m)) m))
      (reverse (reference <$> (su_block <$> L)) ++ tp) (us ++ L) (refs_set (su_block <$> L) ∪ X))
      as (S2 & A2 & L2 & -> & Hs2 & HL2 & Hk2).
    { exact Hs'. }
    { rewrite length_app, length_reverse, !length_fmap. simpl in *. lia. }
    exists S2, A2, (L ++ L2). rewrite (assoc_L (++)), fmap_app, refs_set_app, released_app.
    rewrite (comm_L (∪) (refs_set (su_block <$> L)) (refs_set (su_block <$> L2))), <- (assoc_L (∪)).
    split_and!; [done..|]. rewrite <- (union_empty_l_L ∅). by eapply keeps_trans.
  - apply suspension_done in Hs; [|unfold children; by rewrite Hch]. rewrite delete_id in Hs by done.
    apply IH; [done|simpl in Hf; lia].
Qed.

Lemma hostname_returns m i :
  ctx_committee (bm_context m) = c → i ∈ members c → ∃ h, hostname m i = Ret h.
Proof using.
  intros Hc [a Ha]%Committee_authority_member. unfold hostname. rewrite Hc, Ha. by eexists.
Qed.

Lemma released_elem d gc X l b :
  released d gc X l → b ∈ l →
  U (reference b) = Some b ∧ 0 < b_round b ∧ sk_block d (reference b) = None ∧ reference b ∉ X ∧
  ∀ a, a ∈ b_ancestors b → gc < br_round a → is_Some (sk_block d a) ∨ a ∈ refs_set l ∪ X.
Proof using.
  revert X. induction l as [|b' l IH]; intros X Hl Hb; [by apply not_elem_of_nil in Hb|].
  destruct Hl as [(H1 & H2 & H3 & H4 & H5) Hl].
  change (refs_set (b' :: l)) with ({[reference b']} ∪ refs_set l).
  apply list.elem_of_cons in Hb as [->|Hb].
  - split_and!; [done..|]. intros a Ha Hgc. destruct (H5 a Ha Hgc) as [?|?]; [by left|right].
    by apply elem_of_union_r.
  - destruct (IH _ Hl Hb) as (? & ? & ? & Hn & Ha). split_and!; [done..| |].
    + intros Hx. by apply Hn, elem_of_union_r.
    + intros a Ha' Hgc. destruct (Ha a Ha' Hgc) as [?|Hin]; [by left|right].
      rewrite !elem_of_union in *. tauto.
Qed.

Lemma try_unsuspend_children_spec d gc m p X :
  ctx_committee (bm_context m) = c →
  suspension d gc (bm_suspended_blocks m) (bm_missing_ancestors m) (bm_missing_blocks m) X {[p]} →
  ∃ S' A' L, BlockManager_try_unsuspend_children_blocks m p
             = Ret (set_suspended S' (set_missing_ancestors A' m), L) ∧
    suspension d gc S' A' (bm_missing_blocks m) (refs_set L ∪ X) ∅ ∧
    released d gc X L ∧ keeps (bm_suspended_blocks m) ∅ S' L.
Proof using HU.
  intros Hc Hs. unfold BlockManager_try_unsuspend_children_blocks.
  destruct (unsuspend_loop_spec d gc (unsuspend_fuel m) m [p] [] X) as (S' & A' & L & -> & Hs' & HL & Hk).
  { simpl. by rewrite union_empty_r_L. }
  { unfold unsuspend_fuel. simpl. lia. }
  cbn [mbind M_bind app].
  destruct (mapP_returns (λ block, hostname (set_suspended S' (set_missing_ancestors A' m)) (b_author (su_block block))) L)
    as [hs ->].
  { intros sb Hsb. apply hostname_returns; [done|].
    destruct (released_elem d gc X _ (su_block sb) HL) as (HUb & _); [by apply list_elem_of_fmap_2|].
    by apply (un_author c U HU) in HUb. }
  cbn [mbind M_bind]. exists S', A', (su_block <$> L). by split_and!.
Qed.

(** ** Before and after a release *)

(** The block [p] is about to be accepted, in the DAG [d1] it may already be,
    and waits for nothing any more. *)
Lemma suspension_begin d d1 gc S A A' B p :
  suspension d gc S A B ∅ ∅ → (∀ a, a ≠ p → sk_block d1 a = sk_block d a) →
  (∀ a, children A' a = children A a ∖ {[p]}) → (∀ a, is_Some (A' !! a) ↔ is_Some (A !! a)) →
  suspension d1 gc (delete p S) A' (B ∖ {[p]}) {[p]} {[p]}.
Proof using.
  intros [H1 H2 H3 H4 H5 H6 H7] Hd HA HK.
  assert (∀ a, (sk_block d a = None ∧ a ∉ (∅ : gset BlockRef)) ∨ a ∈ (∅ : gset BlockRef) →
            (sk_block d1 a = None ∧ a ∉ ({[p]} : gset BlockRef)) ∨ a ∈ ({[p]} : gset BlockRef)) as Hcase.
  { intros a [[Ha _]|Ha%not_elem_of_empty]; [|done]. rewrite elem_of_singleton.
    destruct (decide (a = p)); [|rewrite Hd by done]; tauto. }
  split; [| | | | | |done].
  - intros r sb [Hne Hr]%lookup_delete_Some. destruct (H1 r sb Hr) as (? & ? & ? & _ & ?). rewrite Hd by done.
    split_and!; [done..| |done]. by rewrite elem_of_singleton.
  - intros r sb a [_ Hr]%lookup_delete_Some Ha. destruct (H2 r sb a Hr Ha) as [? Hc]. auto.
  - intros r sb a [_ Hr]%lookup_delete_Some Ha Hgc. rewrite elem_of_singleton. destruct (decide (a = p)); [by auto|].
    rewrite Hd by done. destruct (H3 r sb a Hr Ha Hgc) as [?|[?|Hin]]; [by auto..|].
    by apply not_elem_of_empty in Hin.
  - intros a r. rewrite HA, elem_of_difference, elem_of_singleton, H4, misses_delete.
    destruct (decide (r = p)); [rewrite elem_of_empty|]; tauto.
  - intros a Ha%HK. destruct (H5 a Ha) as [? Hc]. auto.
  - intros a. rewrite elem_of_difference, H6, elem_of_singleton, HK, lookup_delete_None.
    pose proof (not_elem_of_empty (C := gset BlockRef) a). naive_solver.
Qed.

Lemma suspension_start d gc S A B p :
  suspension d gc S A B ∅ ∅ → S !! p = None → suspension d gc S A (B ∖ {[p]}) {[p]} {[p]}.
Proof using.
  intros Hs HS. rewrite <- (delete_id S p) by done. apply (suspension_begin d _ _ _ A); [done..| |done].
  intros a. apply set_eq. intros r. rewrite elem_of_difference, elem_of_singleton, (si_links _ _ _ _ _ _ _ Hs).
  split; [|tauto]. intros Ha. split; [done|]. intros ->. apply misses_suspended in Ha as (sb & Hsb & _). congruence.
Qed.

(** The blocks [X] are accepted, or below [gc]. *)
Lemma suspension_accept d d' gc S A B X :
  suspension d gc S A B X ∅ →
  (∀ a, sk_block d a = None → a ∉ X → sk_block d' a = None) →
  (∀ a, is_Some (sk_block d a) → is_Some (sk_block d' a)) →
  (∀ a, a ∈ X → gc < br_round a → is_Some (sk_block d' a)) →
  suspension d' gc S A B ∅ ∅.
Proof using.
  intros [H1 H2 H3 H4 H5 H6 H7] Hnone Hsome HX.
  assert (∀ a, is_Some (A !! a) → a ∉ X) as Hkeys.
  { intros a Ha. destruct (H5 a Ha) as [_ [[_ ?]|Hin]]; [done|by apply not_elem_of_empty in Hin]. }
  split; [| | |done| | |done].
  - intros r sb Hr. destruct (H1 r sb Hr) as (? & ? & ? & ? & ?).
    split_and!; [done|done|by apply Hnone|apply not_elem_of_empty|done].
  - intros r sb a Hr Ha. destruct (H2 r sb a Hr Ha) as [? [[? ?]|Hin]]; [|by apply not_elem_of_empty in Hin].
    split; [done|]. left. split; [by apply Hnone|apply not_elem_of_empty].
  - intros r sb a Hr Ha Hgc. destruct (H3 r sb a Hr Ha Hgc) as [?|[?|?]]; [by left|right; left; by apply Hsome|].
    right. left. by apply HX.
  - intros a Ha. destruct (H5 a Ha) as [? [[? ?]|Hin]]; [|by apply not_elem_of_empty in Hin].
    split; [done|]. left. split; [by apply Hnone|apply not_elem_of_empty].
  - intros a. rewrite H6. pose proof (not_elem_of_empty (C := gset BlockRef) a). specialize (Hkeys a). tauto.
Qed.

(** ** Growth of the DAG *)

Definition grown d d' (bs : list VerifiedBlock) : Prop :=
  ∀ r, sk_block d' r = match sk_block d r with
                       | Some b => Some b
                       | None => if decide (r ∈ reference <$> bs) then U r else None
                       end.

Lemma grown_some d d' bs r b : grown d d' bs → sk_block d r = Some b → sk_block d' r = Some b.
Proof using. intros Hg Hr. by rewrite Hg, Hr. Qed.

Lemma grown_none d d' bs r : grown d d' bs → sk_block d r = None → r ∉ refs_set bs → sk_block d' r = None.
Proof using.
  intros Hg Hr Hn. rewrite Hg, Hr, decide_False; [done|]. by rewrite <- (elem_of_list_to_set (C := gset BlockRef)).
Qed.

Lemma grown_new d d' bs b :
  grown d d' bs → b ∈ bs → U (reference b) = Some b → is_Some (sk_block d' (reference b)).
Proof using.
  intros Hg Hb HUb. rewrite Hg. destruct (sk_block d (reference b)); [by eexists|].
  rewrite decide_True by (by apply list_elem_of_fmap_2). by eexists.
Qed.

Lemma grown_inv d d' bs r b :
  grown d d' bs → sk_block d' r = Some b → sk_block d r = Some b ∨ (r ∈ refs_set bs ∧ U r = Some b).
Proof using.
  intros Hg. rewrite Hg. destruct (sk_block d r) as [b'|]; [by left|].
  destruct (decide (r ∈ reference <$> bs)) as [Hin|]; [|done]. right. split; [by apply elem_of_list_to_set|done].
Qed.

Lemma grown_refl d : grown d d [].
Proof using.
  intros r. destruct (sk_block d r); [done|]. by rewrite decide_False by apply not_elem_of_nil.
Qed.

Lemma grown_trans d d1 d2 bs1 bs2 : grown d d1 bs1 → grown d1 d2 bs2 → grown d d2 (bs1 ++ bs2).
Proof using.
  intros H1 H2 r. rewrite H2, H1, fmap_app. destruct (sk_block d r); [done|].
  destruct (decide (r ∈ reference <$> bs1)) as [Hin|Hn].
  - rewrite (decide_True (P := r ∈ _ ++ _)) by (by apply elem_of_app, or_introl).
    destruct (U r) eqn:HUr; [done|]. by destruct (decide _).
  - destruct (decide (r ∈ reference <$> bs2)) as [Hin2|Hn2].
    + by rewrite decide_True by (by apply elem_of_app, or_intror).
    + rewrite decide_False; [done|]. rewrite elem_of_app. tauto.
Qed.

(** What processing the block [p] leads to, when it is accepted with [bs] or
    is below the garbage collection round. *)
Lemma release_spec m p bs :
  sk_fits c U (bm_dag m) → ctx_committee (bm_context m) = c →
  let d := bm_dag m in let gc := sk_gc_round d in
  suspension d gc (bm_suspended_blocks m) (bm_missing_ancestors m) (bm_missing_blocks m) {[p]} {[p]} →
  history_closed d gc →
  (∀ b : VerifiedBlock, b ∈ bs → reference b = p ∧ U p = Some b ∧ 0 < b_round b ∧
     ∀ a, a ∈ b_ancestors b → gc < br_round a → is_Some (sk_block d a)) →
  (gc < br_round p → is_Some (sk_block d p) ∨ ∃ b, b ∈ bs) →
  ∃ S' A' L d', BlockManager_try_unsuspend_children_blocks m p
                = Ret (set_suspended S' (set_missing_ancestors A' m), L) ∧
    sk_accept_blocks d (bs ++ L) = Ret d' ∧ sk_fits c U d' ∧ sk_gc_round d' = gc ∧
    suspension d' gc S' A' (bm_missing_blocks m) ∅ ∅ ∧ history_closed d' gc ∧
    grown d d' (bs ++ L) ∧ released d gc {[p]} L ∧ keeps (bm_suspended_blocks m) ∅ S' L.
Proof using HU.
  intros Hfit Hc d gc Hs Hcl Hbs Hp.
  destruct (try_unsuspend_children_spec d gc m p {[p]} Hc Hs) as (S' & A' & L & Hu & Hs' & HL & Hk).
  pose proof (released_elem d gc {[p]} L) as Hrel.
  destruct (sk_accept_spec c U d (bs ++ L) Hfit) as (d' & Hacc & Hfit' & Hgc' & Hg).
  { intros b [Hb|Hb]%elem_of_app; [destruct (Hbs b Hb) as (-> & ? & ? & _); done|].
    by destruct (Hrel b HL Hb) as (? & ? & _). }
  change (grown d d' (bs ++ L)) in Hg.
  assert (∀ a, a ∈ refs_set L ∪ {[p]} → gc < br_round a → is_Some (sk_block d' a)) as Hin.
  { intros a [(b & -> & Hb)%elem_of_list_to_set%list_elem_of_fmap| ->%elem_of_singleton]%elem_of_union Hgca.
    - apply (grown_new _ _ _ _ Hg); [by apply elem_of_app, or_intror|]. by apply (Hrel b HL Hb).
    - destruct (Hp Hgca) as [[b Hb]|[b Hb]]; [by rewrite (grown_some _ _ _ _ _ Hg Hb)|].
      destruct (Hbs b Hb) as (<- & ? & _). apply (grown_new _ _ _ _ Hg); [by apply elem_of_app, or_introl|done]. }
  exists S', A', L, d'. split_and!; [done|done|done|done| | |done|done|done].
  - eapply suspension_accept; [exact Hs'| | |done].
    + intros a Ha Hn. apply (grown_none _ _ _ _ Hg Ha). rewrite refs_set_app. rewrite not_elem_of_union in *.
      split; [|tauto]. intros (b & -> & Hb)%elem_of_list_to_set%list_elem_of_fmap.
      destruct (Hbs b Hb) as [Heq _]. rewrite Heq, elem_of_singleton in Hn. tauto.
    + intros a [b Hb]. by rewrite (grown_some _ _ _ _ _ Hg Hb).
  - intros r b a Hb Ha Hga. destruct (grown_inv _ _ _ _ _ Hg Hb) as [Hb'|[Hr HUr]].
    { destruct (Hcl r b a Hb' Ha Hga) as [x Hx]. by rewrite (grown_some _ _ _ _ _ Hg Hx). }
    apply elem_of_list_to_set, list_elem_of_fmap in Hr as (b' & -> & Hb'').
    apply elem_of_app in Hb'' as [Hb''|Hb''].
    + destruct (Hbs b' Hb'') as (Heq & HUp & _ & Hanc). rewrite Heq, HUp in HUr. simplify_eq.
      destruct (Hanc a Ha Hga) as [x Hx]. by rewrite (grown_some _ _ _ _ _ Hg Hx).
    + destruct (Hrel b' HL Hb'') as (HUb' & _ & _ & _ & Hanc). rewrite HUb' in HUr. simplify_eq.
      destruct (Hanc a Ha Hga) as [[x Hx]|?]; [by rewrite (grown_some _ _ _ _ _ Hg Hx)|by apply Hin].
Qed.

(** ** Suspending a block *)

Definition to_fetch S (l : list BlockRef) : gset BlockRef :=
  list_to_set (filter (λ a, ¬ is_Some (S !! a)) l).

Lemma to_fetch_elem S l a : a ∈ to_fetch S l ↔ a ∈ l ∧ S !! a = None.
Proof using.
  unfold to_fetch. rewrite elem_of_list_to_set, list_elem_of_filter, <- eq_None_not_Some. tauto.
Qed.

(** The index with [p] waiting for all of [l]. *)
Record waits A A' (p : BlockRef) (l : list BlockRef) : Prop := {
  wa_children : ∀ a r, r ∈ children A' a ↔ r ∈ children A a ∨ (r = p ∧ a ∈ l);
  wa_keys : ∀ a, is_Some (A' !! a) ↔ is_Some (A !! a) ∨ a ∈ l;
}.

Lemma waits_nil A p : waits A A p [].
Proof using. split; intros; rewrite elem_of_nil; tauto. Qed.

Lemma waits_nil_inv A A' p : waits A A' p [] → A' = A.
Proof using.
  intros [Hc Hk]. apply map_eq. intros a. specialize (Hk a). rewrite elem_of_nil in Hk.
  assert (children A' a = children A a) as He.
  { apply set_eq. intros r. rewrite Hc, elem_of_nil. tauto. }
  unfold children in He. unfold is_Some in Hk. destruct (A !! a), (A' !! a); simpl in He; naive_solver.
Qed.

Lemma waits_cons A A' p a l :
  waits (<[a := {[p]} ∪ children A a]> A) A' p l → waits A A' p (a :: l).
Proof using.
  intros [Hc Hk]. split.
  - intros a' r. rewrite Hc, children_insert, list.elem_of_cons.
    destruct (decide (a' = a)) as [->|]; [rewrite elem_of_union, elem_of_singleton|]; tauto.
  - intros a'. rewrite Hk, lookup_insert_is_Some', list.elem_of_cons.
    assert (a = a' ↔ a' = a) by (split; by intros ->). tauto.
Qed.

Lemma miss_loop_spec p l m M0 F0 :
  ctx_committee (bm_context m) = c → (∀ a, a ∈ l → br_author a ∈ members c) →
  ∃ A', foldM (miss_ancestor p) (m, M0, F0) l
        = Ret (set_missing_blocks (to_fetch (bm_suspended_blocks m) l ∪ bm_missing_blocks m)
                 (set_missing_ancestors A' m), list_to_set l ∪ M0, to_fetch (bm_suspended_blocks m) l ∪ F0) ∧
    waits (bm_missing_ancestors m) A' p l.
Proof using.
  intros Hc. revert m M0 F0 Hc. induction l as [|a l IH]; intros m M0 F0 Hc Hl; cbn [foldM].
  { exists (bm_missing_ancestors m). change (to_fetch _ []) with (∅ : gset BlockRef). simpl.
    rewrite !union_empty_l_L. split; [by destruct m|apply waits_nil]. }
  unfold miss_ancestor at 2. fold (children (bm_missing_ancestors m) a).
  set (m1 := set_missing_ancestors _ m).
  destruct (hostname_returns m1 (br_author a) Hc) as [h ->]; [apply Hl; left|]. cbn [mbind M_bind].
  change (bm_suspended_blocks m1) with (bm_suspended_blocks m).
  change (list_to_set (a :: l)) with ({[a]} ∪ list_to_set l : gset BlockRef).
  assert (∀ x, x ∈ l → br_author x ∈ members c) as Hl' by (intros; apply Hl; by right).
  unfold to_fetch. rewrite filter_cons. destruct (decide (is_Some (bm_suspended_blocks m !! a))) as [Hs|Hs].
  - rewrite bool_decide_eq_true_2, decide_False by (done || tauto). cbn [mbind M_bind].
    destruct (IH m1 ({[a]} ∪ M0) F0 Hc Hl') as (A' & -> & Hw). exists A'. split; [|by apply waits_cons].
    by rewrite (comm_L (∪) {[a]} (list_to_set l)), <- (assoc_L (∪)).
  - rewrite bool_decide_eq_false_2, decide_True by done. cbn [mbind M_bind].
    destruct (IH (set_missing_blocks ({[a]} ∪ bm_missing_blocks m1) m1) ({[a]} ∪ M0) ({[a]} ∪ F0) Hc Hl')
      as (A' & -> & Hw). exists A'. split; [|by apply waits_cons]. unfold to_fetch.
    change (list_to_set (a :: filter (λ x, ¬ is_Some (bm_suspended_blocks m !! x)) l)) with
      ({[a]} ∪ list_to_set (filter (λ x, ¬ is_Some (bm_suspended_blocks m !! x)) l) : gset BlockRef).
    rewrite !(comm_L (∪) {[a]} (list_to_set _)), <- !(assoc_L (∪)). done.
Qed.

Lemma suspension_add d gc S A A' B b l :
  suspension d gc S A B ∅ ∅ → waits A A' (reference b) l →
  S !! reference b = None → U (reference b) = Some b → 0 < b_round b → sk_block d (reference b) = None →
  l ≠ [] → (∀ a, a ∈ l → a ∈ b_ancestors b ∧ awaited a ∧ sk_block d a = None) →
  (∀ a, a ∈ b_ancestors b → gc < br_round a → a ∈ l ∨ is_Some (sk_block d a)) →
  suspension d gc (<[reference b := mkSuspendedBlock b (list_to_set l)]> S) A'
    ((to_fetch S l ∪ B) ∖ {[reference b]}) ∅ ∅.
Proof using HU.
  intros [H1 H2 H3 H4 H5 H6 H7] [Hwc Hwk] HS HUb Hpos Hd Hne Hl Hanc.
  assert (∀ a, a ∉ (∅ : gset BlockRef)) as Hempty by apply not_elem_of_empty.
  split; [| | | | | |done].
  - intros r sb [[<- <-]|[? ?]]%lookup_insert_Some; [|by apply H1]. simpl. split_and!; [done..|].
    destruct l as [|a l]; [done|]. intros He. apply (not_elem_of_empty (C := gset BlockRef) a).
    rewrite <- He. apply elem_of_list_to_set. left.
  - intros r sb a [[<- <-]|[? ?]]%lookup_insert_Some Ha; simpl in *; [|by apply (H2 r sb)].
    apply elem_of_list_to_set, Hl in Ha as (? & _ & ?). split; [done|by left].
  - intros r sb a [[<- <-]|[? ?]]%lookup_insert_Some Ha Hgc; simpl in *; [|by apply (H3 r sb)].
    rewrite elem_of_list_to_set. destruct (Hanc a Ha Hgc); tauto.
  - intros a r. rewrite Hwc, H4, misses_insert. destruct (decide (r = reference b)) as [->|]; [|tauto].
    simpl. rewrite elem_of_list_to_set. unfold misses. rewrite HS. simpl. specialize (Hempty a). tauto.
  - intros a [Ha|Ha]%Hwk; [by apply H5|]. destruct (Hl a Ha) as (_ & ? & ?).
    split; [done|by left].
  - intros a. rewrite elem_of_difference, elem_of_union, to_fetch_elem, elem_of_singleton, H6, Hwk, lookup_insert_None.
    specialize (Hempty a). assert (a ≠ reference b ↔ reference b ≠ a) by (split; congruence). tauto.
Qed.

(** The ancestors that are looked up and not found. *)
Definition unfound d (b : VerifiedBlock) : list BlockRef :=
  filter (λ a, ¬ is_Some (sk_block d a))
    (filter (λ a, br_round a = GENESIS_ROUND ∨ sk_gc_round d < br_round a) (b_ancestors b)).

Lemma unfound_zip d (l : list BlockRef) :
  (filter (λ e : bool * BlockRef, e.1 = false)
     (zip ((λ r, bool_decide (is_Some (sk_block d r))) <$> l) l)).*2
  = filter (λ a, ¬ is_Some (sk_block d a)) l.
Proof using.
  induction l as [|a l IH]; [done|]. csimpl. rewrite !filter_cons. simpl.
  destruct (decide (is_Some (sk_block d a))) as [Hs|Hs].
  - rewrite (bool_decide_eq_true_2 _ Hs). rewrite (decide_False (P := true = false)), (decide_False (P := ¬ _)); [done|tauto|done].
  - rewrite (bool_decide_eq_false_2 _ Hs). rewrite (decide_True (P := false = false)), (decide_True (P := ¬ _)) by done.
    csimpl. by rewrite IH.
Qed.

Lemma unfound_elem d (b : VerifiedBlock) a :
  a ∈ unfound d b ↔
  a ∈ b_ancestors b ∧ (br_round a = GENESIS_ROUND ∨ sk_gc_round d < br_round a) ∧ sk_block d a = None.
Proof using. unfold unfound. rewrite !list_elem_of_filter, <- eq_None_not_Some. tauto. Qed.

Lemma unfound_above d (b : VerifiedBlock) a :
  a ∈ b_ancestors b → sk_gc_round d < br_round a → a ∈ unfound d b ∨ is_Some (sk_block d a).
Proof using.
  intros Ha Hgc. destruct (sk_block d a) eqn:Hd; [by right|]. left. apply unfound_elem. tauto.
Qed.

(** What [try_accept_one_block] did. *)
Definition accept_one_post m (b : VerifiedBlock) m' (res : TryAcceptResult) : Prop :=
  match res with
  | Processed => m' = m ∧ (is_Some (bm_suspended_blocks m !! reference b) ∨ is_Some (sk_block (bm_dag m) (reference b)))
  | Skipped => m' = m ∧ b_round b ≤ sk_gc_round (bm_dag m)
  | Suspended fetch => bm_ok m' ∧ bm_dag m' = bm_dag m ∧ is_Some (bm_suspended_blocks m' !! reference b) ∧
      keeps (bm_suspended_blocks m) {[reference b]} (bm_suspended_blocks m') [] ∧ bm_missing_blocks m' ⊆ bm_missing_blocks m ∪ fetch ∧
      ∀ a, a ∈ fetch → a ∈ b_ancestors b ∧ sk_block (bm_dag m) a = None ∧ bm_suspended_blocks m !! a = None
  | Accepted b' => b' = b ∧ m' = set_missing_blocks (bm_missing_blocks m ∖ {[reference b]}) m ∧
      bm_suspended_blocks m !! reference b = None ∧ sk_block (bm_dag m) (reference b) = None ∧
      ∀ a, a ∈ b_ancestors b → sk_gc_round (bm_dag m) < br_round a → is_Some (sk_block (bm_dag m) a)
  end.

Lemma try_accept_one_block_spec m b :
  bm_ok m → U (reference b) = Some b → 0 < b_round b →
  ∃ m' res, BlockManager_try_accept_one_block m b = Ret (m', res) ∧ accept_one_post m b m' res.
Proof using HU.
  intros Hok HUb Hpos. pose proof Hok as [Hfit Hc Hfl Hrec Hs Hcl].
  pose proof (un_author c U HU _ _ HUb) as Hauth. unfold BlockManager_try_accept_one_block.
  set (d := bm_dag m) in *. set (gc := sk_gc_round d) in *.
  destruct (decide (is_Some (bm_suspended_blocks m !! reference b))) as [HS|HS%eq_None_not_Some].
  { rewrite bool_decide_eq_true_2 by done. cbn [mbind M_bind]. exists m, Processed. split; [done|]. split; [done|by left]. }
  rewrite bool_decide_eq_false_2 by (by rewrite HS; intros [? ?]).
  rewrite (sk_contains_block_spec c U) by done. cbn [mbind M_bind].
  destruct (decide (is_Some (sk_block d (reference b)))) as [Hd|Hd%eq_None_not_Some].
  { rewrite bool_decide_eq_true_2 by done. exists m, Processed. split; [done|]. split; [done|by right]. }
  rewrite bool_decide_eq_false_2 by (by rewrite Hd; intros [? ?]).
  destruct (hostname_returns m (b_author b) Hc Hauth) as [h Hh].
  destruct (N.leb_spec (b_round b) gc) as [Hle|Hgt].
  { rewrite Hh. cbn [mbind M_bind]. exists m, Skipped. by split. }
  set (anc := filter _ (b_ancestors b)).
  assert (∀ a, a ∈ anc → br_author a ∈ members c) as Hanc.
  { intros a [_ Ha]%list_elem_of_filter. by apply (un_ancestor c U HU _ _ _ HUb Ha). }
  rewrite (sk_contains_blocks_spec c U) by done. cbn [mbind M_bind]. rewrite unfound_zip.
  change (filter (λ a, ¬ is_Some (sk_block d a)) anc) with (unfound d b).
  destruct (miss_loop_spec (reference b) (unfound d b) m ∅ ∅ Hc) as (A' & -> & Hw).
  { intros a [_ Ha]%list_elem_of_filter. by apply Hanc. }
  cbn [mbind M_bind]. rewrite !union_empty_r_L.
  destruct (unfound d b) as [|a0 l0] eqn:Hl.
  - apply waits_nil_inv in Hw as ->. rewrite bool_decide_eq_true_2 by done. do 2 eexists. split; [done|].
    split_and!; [done| |done|done|].
    + change (to_fetch _ []) with (∅ : gset BlockRef). destruct m. unfold set_missing_blocks. simpl.
      by rewrite union_empty_l_L.
    + intros a Ha Hgc. destruct (unfound_above d b a Ha Hgc) as [Hu|?]; [|done]. rewrite Hl in Hu.
      by apply elem_of_nil in Hu.
  - rewrite <- Hl in *. rewrite bool_decide_eq_false_2.
    2:{ rewrite Hl. simpl. intros He. apply (not_elem_of_empty (C := gset BlockRef) a0). rewrite <- He. set_solver. }
    destruct (hostname_returns m (b_author b) Hc Hauth) as [h' Hh'].
    unfold hostname in *. simpl. rewrite Hh'. cbn [mbind M_bind]. do 2 eexists. split; [done|]. split_and!.
    + split; simpl; [done..| |done]. apply (suspension_add d gc _ (bm_missing_ancestors m)); try done.
      * by rewrite Hl.
      * intros a (Ha & Hr & ?)%unfound_elem. split_and!; [done| |done]. split.
        -- by apply (un_ancestor c U HU _ _ _ HUb Ha).
        -- destruct Hr; [by left|right]. unfold d in *. lia.
      * intros a Ha Hgc. by apply unfound_above.
    + done.
    + simpl. by rewrite lookup_insert_eq.
    + split; intros r; simpl; rewrite lookup_insert_is_Some'; [by auto|]. rewrite elem_of_singleton.
      intros [[->|?]|Hin]; [by auto..|by apply not_elem_of_empty in Hin].
    + intros a. simpl. rewrite elem_of_difference, !elem_of_union. tauto.
    + intros a [Ha%unfound_elem HSa]%to_fetch_elem. tauto.
Qed.

End BlockManagerTheory.
