(* ===== verification/BlockManagerAccept.v ===== *)
(** * Accepting blocks

    [try_accept_blocks] keeps the invariant of the block manager, adds to the DAG
    exactly the blocks it returns, each after its ancestors, and loses none of the
    blocks it was given. *)

From S2P Require Import Prelude BTree Config Block Commit Store StakeAggregator ThresholdClock.
From S2P Require Import LeaderScoring DagState DagTheory BlockManager BlockManagerTheory.
Local Open Scope N_scope.

(** [p] no longer waits for any of [l]. *)
Lemma children_unlink (p : BlockRef) l (A : gmap BlockRef (gset BlockRef)) :
  let A' := foldl (λ missing a, alter (λ refs, refs ∖ {[p]}) a missing) A l in
  (∀ a, children A' a = if decide (a ∈ l) then children A a ∖ {[p]} else children A a) ∧
  ∀ a, is_Some (A' !! a) ↔ is_Some (A !! a).
Proof.
  revert A. induction l as [|x l IH]; intros A; cbn [foldl].
  { split; [|done]. intros a. by rewrite decide_False by apply not_elem_of_nil. }
  destruct (IH (alter (λ refs, refs ∖ {[p]}) x A)) as [IHc IHk]. split; intros a.
  - rewrite IHc. unfold children. destruct (decide (a = x)) as [->|Hne].
    + rewrite lookup_alter_eq, (decide_True (P := x ∈ x :: l)) by left.
      destruct (A !! x); simpl; destruct (decide (x ∈ l)); set_solver.
    + rewrite lookup_alter_ne by done. by rewrite (decide_ext (a ∈ x :: l) (a ∈ l)) by (rewrite list.elem_of_cons; tauto).
  - rewrite IHk. destruct (decide (a = x)) as [->|]; [|by rewrite lookup_alter_ne].
    by rewrite lookup_alter_eq, fmap_is_Some.
Qed.

Section BlockManagerAccept.
Context {D : Type} `{BlockSinkLaws D}.
Context (c : Committee) (U : BlockRef → option VerifiedBlock) (floor : Round).
Implicit Types d : D.
Implicit Types m : BlockManager D.

(** ** What accepting does *)

(** The manager went from [m] to [m'] on the blocks [I] and accepted [L], in this
    order. *)
Record accepts m (I : gset BlockRef) m' (L : list VerifiedBlock) : Prop := {
  ac_ok : bm_ok c U floor m';
  ac_gc : sk_gc_round (bm_dag m') = sk_gc_round (bm_dag m);
  ac_grown : grown U (bm_dag m) (bm_dag m') L;
  ac_order : released U (bm_dag m) (sk_gc_round (bm_dag m)) ∅ L;
  ac_keeps : keeps (bm_suspended_blocks m) I (bm_suspended_blocks m') L;
}.

(** A block is accounted for: suspended, in the DAG, or too old. *)
Definition handled m (b : VerifiedBlock) : Prop :=
  is_Some (bm_suspended_blocks m !! reference b) ∨ is_Some (sk_block (bm_dag m) (reference b)) ∨
  b_round b ≤ sk_gc_round (bm_dag m).

Lemma accepts_none m I m' :
  bm_ok c U floor m' → bm_dag m' = bm_dag m → keeps (bm_suspended_blocks m) I (bm_suspended_blocks m') [] →
  accepts m I m' [].
Proof using. intros Hok Hd Hk. split; [done|by rewrite Hd|by rewrite Hd; apply grown_refl|done|done]. Qed.

(** Blocks accepted after [L1] in [d1] are accepted after [L1] in [d]. *)
Lemma released_after d d1 gc L1 X L :
  grown U d d1 L1 → released U d1 gc X L → released U d gc (refs_set L1 ∪ X) L.
Proof using.
  intros Hg. revert X. induction L as [|b L IH]; intros X; [done|]. intros [(H1 & H2 & H3 & H4 & H5) HL].
  split.
  - assert (sk_block d (reference b) = None ∧ reference b ∉ refs_set L1) as [Hd Hn].
    { destruct (sk_block d (reference b)) eqn:Hd; [by rewrite (grown_some _ _ _ _ _ _ Hg Hd) in H3|].
      split; [done|]. intros (b' & Hb' & Hin)%elem_of_list_to_set%list_elem_of_fmap.
      specialize (Hg (reference b)). rewrite Hd, H3, decide_True in Hg; [congruence|].
      rewrite Hb'. by apply list_elem_of_fmap_2. }
    split_and!; [done..|by apply not_elem_of_union|]. intros a Ha Hgc. rewrite elem_of_union.
    destruct (H5 a Ha Hgc) as [[x Hx]|?]; [|by auto].
    destruct (grown_inv _ _ _ _ _ _ Hg Hx) as [Hy|[? _]]; [left; by rewrite Hy|by auto].
  - rewrite (assoc_L (∪)), (comm_L (∪) {[reference b]}), <- (assoc_L (∪)). by apply IH.
Qed.

Lemma accepts_trans m m1 m2 I1 I2 L1 L2 :
  accepts m I1 m1 L1 → accepts m1 I2 m2 L2 → accepts m (I1 ∪ I2) m2 (L1 ++ L2).
Proof using.
  intros [Hok1 Hgc1 Hg1 Ho1 Hk1] [Hok2 Hgc2 Hg2 Ho2 Hk2]. split.
  - done.
  - by rewrite Hgc2.
  - by eapply grown_trans.
  - apply released_app. split; [done|]. eapply released_after; [done|]. by rewrite <- Hgc1.
  - by eapply keeps_trans.
Qed.

(** The blocks accepted are in the DAG. *)
Lemma accepts_in m I m' L r : accepts m I m' L → r ∈ refs_set L → is_Some (sk_block (bm_dag m') r).
Proof using.
  intros Hac (b & -> & Hb)%elem_of_list_to_set%list_elem_of_fmap.
  apply (grown_new _ _ _ _ _ (ac_grown _ _ _ _ Hac) Hb).
  by destruct (released_elem _ _ _ _ _ _ (ac_order _ _ _ _ Hac) Hb).
Qed.

Lemma accepts_handled m I m' L b : accepts m I m' L → handled m b → handled m' b.
Proof using.
  intros Hac [Hs|[[x Hx]|Hgc]].
  - destruct (ke_stay _ _ _ _ (ac_keeps _ _ _ _ Hac) _ Hs) as [?|Hin]; [by left|]. right. left. by eapply accepts_in.
  - right. left. by rewrite (grown_some _ _ _ _ _ _ (ac_grown _ _ _ _ Hac) Hx).
  - right. right. by rewrite (ac_gc _ _ _ _ Hac).
Qed.

(** ** One block *)

Context (HU : universe c U).

Lemma received_metrics_returns m b :
  bm_ok c U floor m → U (reference b) = Some b →
  ∃ m', BlockManager_update_block_received_metrics m b = Ret m' ∧ bm_ok c U floor m' ∧ bm_dag m' = bm_dag m ∧
    bm_suspended_blocks m' = bm_suspended_blocks m ∧ bm_missing_ancestors m' = bm_missing_ancestors m ∧
    bm_missing_blocks m' = bm_missing_blocks m.
Proof using HU.
  intros [Hfit Hc Hfl Hrec Hs Hcl] HUb. unfold BlockManager_update_block_received_metrics.
  pose proof (un_author c U HU _ _ HUb) as Hauth. change (b_author b ∈ members c) in Hauth.
  destruct (lookup_lt_is_Some_2 (bm_received_block_rounds m) (N.to_nat (b_author b))) as [cur Hcur].
  { rewrite Hrec. apply members_spec in Hauth. unfold Committee_is_valid_index, Committee_size in Hauth. apply N.ltb_lt in Hauth. lia. }
  rewrite (proj2 (index_Ret _ _ _) Hcur). cbn [mbind M_bind].
  unfold index_update. rewrite Hcur. cbn [mbind M_bind].
  destruct (hostname_returns c m (b_author b) Hc Hauth) as [h ->]. cbn [mbind M_bind].
  eexists. split; [done|]. split_and!; [|done..]. split; [done|done|done|simpl; by rewrite length_insert|done|done].
Qed.

(** The block [p] was removed from the suspended blocks and its children are
    released. *)
Lemma accept_with_children_spec m m1 p bs acc F :
  let d := bm_dag m in let gc := sk_gc_round d in
  bm_ok c U floor m → sk_fits c U (bm_dag m1) → bm_context m1 = bm_context m →
  bm_received_block_rounds m1 = bm_received_block_rounds m →
  sk_gc_round (bm_dag m1) = gc →
  suspension c U floor (bm_dag m1) gc (bm_suspended_blocks m1) (bm_missing_ancestors m1) (bm_missing_blocks m1) {[p]} {[p]} →
  history_closed (bm_dag m1) gc →
  (∀ b : VerifiedBlock, b ∈ bs → reference b = p ∧ U p = Some b ∧ 0 < b_round b ∧
     ∀ a, a ∈ b_ancestors b → gc < br_round a → is_Some (sk_block (bm_dag m1) a)) →
  (gc < br_round p → is_Some (sk_block (bm_dag m1) p) ∨ ∃ b, b ∈ bs) →
  ∃ m' L, accept_with_children m1 p acc bs F = Ret (m', acc ++ bs ++ L, F) ∧ bm_ok c U floor m' ∧
    sk_gc_round (bm_dag m') = gc ∧ bm_missing_blocks m' = bm_missing_blocks m1 ∧
    grown U (bm_dag m1) (bm_dag m') (bs ++ L) ∧ released U (bm_dag m1) gc {[p]} L ∧
    keeps (bm_suspended_blocks m1) ∅ (bm_suspended_blocks m') L.
Proof using HU.
  intros d gc [_ Hc Hfl Hrec _ _] Hfit Hctx Hrec' Hgc Hs Hcl Hbs Hp. rewrite <- Hgc in Hs, Hcl, Hbs, Hp.
  destruct (release_spec c U floor HU m1 p bs Hfit) as (S' & A' & L & d' & Hu & Hacc & Hfit' & Hgc' & Hs' & Hcl' & Hg & HL & Hk);
    [by rewrite Hctx|done..|].
  unfold accept_with_children. rewrite Hu. cbn [mbind M_bind]. simpl. rewrite Hacc. cbn [mbind M_bind].
  do 2 eexists. split; [done|]. split_and!; try done.
  - split; simpl; [done|by rewrite Hctx|by rewrite Hgc', Hgc|by rewrite Hrec'|by rewrite Hgc'|by rewrite Hgc'].
  - simpl. by rewrite Hgc'.
  - by rewrite <- Hgc.
Qed.

(** A block is accepted with its children: [L] is [b] and what follows. *)
Lemma accept_release m b acc F :
  let B := bm_missing_blocks m ∖ {[reference b]} in
  bm_ok c U floor m → U (reference b) = Some b → 0 < b_round b →
  bm_suspended_blocks m !! reference b = None → sk_block (bm_dag m) (reference b) = None →
  (∀ a, a ∈ b_ancestors b → sk_gc_round (bm_dag m) < br_round a → is_Some (sk_block (bm_dag m) a)) →
  ∃ m' L, accept_with_children (set_missing_blocks B m) (reference b) acc [b] F = Ret (m', acc ++ b :: L, F) ∧
    accepts m {[reference b]} m' (b :: L) ∧ bm_missing_blocks m' = B.
Proof using HU.
  intros B Hok HUb Hpos HS Hd Hanc. pose proof Hok as [Hfit Hc Hfl Hrec Hs Hcl].
  destruct (accept_with_children_spec m (set_missing_blocks B m) (reference b) [b] acc F Hok)
    as (m' & L & -> & Hok' & Hgc' & HB' & Hg & HL & Hk); simpl in *; try done.
  - by apply suspension_start.
  - intros b' Hb'%list_elem_of_singleton. subst b'. done.
  - intros _. right. exists b. left.
  - exists m', L. split_and!; [done| |done]. split; [done|done|done| |].
    + split; [|by rewrite union_empty_r_L]. split_and!; [done..|apply not_elem_of_empty|]. intros a Ha Hgc. left.
      by apply Hanc.
    + rewrite <- (union_empty_r_L {[reference b]}). apply keeps_cons. by rewrite delete_id.
Qed.

Lemma accept_step_spec m b acc F :
  bm_ok c U floor m → U (reference b) = Some b → 0 < b_round b →
  ∃ m' L F', accept_step false (m, acc, F) b = Ret (m', acc ++ L, F ∪ F') ∧ accepts m {[reference b]} m' L ∧ handled m' b ∧
    bm_missing_blocks m' ⊆ bm_missing_blocks m ∪ F' ∧
    ∀ a, a ∈ F' → a ∈ b_ancestors b ∧ sk_block (bm_dag m) a = None.
Proof using HU.
  intros Hok HUb Hpos. unfold accept_step.
  destruct (received_metrics_returns m b Hok HUb) as (m0 & -> & Hok0 & Hd0 & HS0 & HA0 & HB0). cbn [mbind M_bind].
  destruct (try_accept_one_block_spec c U floor HU m0 b Hok0 HUb Hpos) as (m1 & res & -> & Hpost). cbn [mbind M_bind].
  assert (∀ I, accepts m I m0 []) as Hac0.
  { intros I. apply accepts_none; [done..|]. rewrite HS0. apply keeps_refl. }
  destruct res as [b'|fetch| |]; simpl in Hpost.
  - destruct Hpost as (-> & -> & HS & Hd & Hanc).
    destruct (accept_release m0 b acc F Hok0 HUb Hpos HS Hd Hanc) as (m' & L & -> & Hac & HB).
    exists m', (b :: L), ∅. rewrite union_empty_r_L. split_and!; [done| | | |set_solver].
    + rewrite <- (union_empty_l_L {[reference b]}). by apply (accepts_trans _ m0 _ ∅ _ []).
    + right. left. apply (accepts_in _ _ _ _ _ Hac). set_solver.
    + rewrite HB, HB0. set_solver.
  - destruct Hpost as (Hok1 & Hd1 & HS1 & Hk1 & HB1 & HF). exists m1, [], fetch.
    rewrite app_nil_r. split_and!; [done| |by left|by rewrite <- HB0|].
    + rewrite <- (union_empty_l_L {[reference b]}). apply (accepts_trans _ m0 _ _ _ [] []); [done|by apply accepts_none].
    + intros a Ha. destruct (HF a Ha) as (? & ? & _). by rewrite <- Hd0.
  - destruct Hpost as [-> Hin]. exists m0, [], ∅. rewrite app_nil_r, union_empty_r_L.
    split_and!; [done|done| |rewrite HB0; set_solver|set_solver]. unfold handled. tauto.
  - destruct Hpost as [-> Hin]. exists m0, [], ∅. rewrite app_nil_r, union_empty_r_L.
    split_and!; [done|done| |rewrite HB0; set_solver|set_solver]. unfold handled. tauto.
Qed.

(** ** Committed blocks *)

(** A committed block that is not in the DAG stops waiting and enters it. *)
Lemma try_accept_one_committed_block_new m b :
  bm_ok c U floor m → U (reference b) = Some b → sk_block (bm_dag m) (reference b) = None →
  ∃ A', BlockManager_try_accept_one_committed_block m b =
    (dag ← sk_accept_blocks (bm_dag m) [b];
     Ret (set_dag dag (set_missing_ancestors A' (set_suspended (delete (reference b) (bm_suspended_blocks m))
            (set_missing_blocks (bm_missing_blocks m ∖ {[reference b]}) m))), Accepted b)) ∧
    (∀ a, children A' a = children (bm_missing_ancestors m) a ∖ {[reference b]}) ∧
    ∀ a, is_Some (A' !! a) ↔ is_Some (bm_missing_ancestors m !! a).
Proof using HU.
  intros [Hfit Hc Hfl Hrec Hs Hcl] HUb Hd. unfold BlockManager_try_accept_one_committed_block.
  rewrite (sk_contains_block_spec c U) by (done || by apply (un_author c U HU _ _ HUb)).
  rewrite bool_decide_eq_false_2 by (by rewrite Hd; intros [? ?]). cbn [mbind M_bind]. simpl.
  destruct (bm_suspended_blocks m !! reference b) as [sb|] eqn:HS.
  - destruct (children_unlink (reference b) (bset_list (su_missing_ancestors sb)) (bm_missing_ancestors m)) as [HA HK].
    eexists. split; [done|]. split; [|done]. intros a. rewrite HA. destruct (decide _) as [|Hn]; [done|].
    rewrite bset_list_elem in Hn. apply set_eq. intros r. rewrite elem_of_difference, elem_of_singleton.
    split; [|tauto]. intros Hr. split; [done|]. intros ->. apply (si_links _ _ _ _ _ _ _ _ _ _ Hs) in Hr.
    rewrite (misses_Some _ _ _ HS) in Hr. done.
  - exists (bm_missing_ancestors m). split; [|split; [|done]].
    + rewrite delete_id by done. by destruct m.
    + intros a. apply set_eq. intros r. rewrite elem_of_difference, elem_of_singleton.
      split; [|tauto]. intros Hr. split; [done|]. intros ->. apply (si_links _ _ _ _ _ _ _ _ _ _ Hs) in Hr.
      apply misses_suspended in Hr as (sb & Hsb & _). congruence.
Qed.

Lemma accept_step_committed m b acc F :
  bm_ok c U floor m → U (reference b) = Some b → 0 < b_round b →
  (∀ a, a ∈ b_ancestors b → sk_gc_round (bm_dag m) < br_round a → is_Some (sk_block (bm_dag m) a)) →
  ∃ m' L, accept_step true (m, acc, F) b = Ret (m', acc ++ L, F) ∧ accepts m {[reference b]} m' L ∧
    is_Some (sk_block (bm_dag m') (reference b)) ∧ bm_missing_blocks m' ⊆ bm_missing_blocks m.
Proof using HU.
  intros Hok HUb Hpos Hanc. unfold accept_step.
  destruct (received_metrics_returns m b Hok HUb) as (m0 & -> & Hok0 & Hd0 & HS0 & HA0 & HB0). cbn [mbind M_bind].
  pose proof Hok0 as [Hfit Hc Hfl Hrec Hs Hcl]. rewrite <- Hd0 in Hanc.
  destruct (sk_block (bm_dag m0) (reference b)) as [x|] eqn:Hd.
  { unfold BlockManager_try_accept_one_committed_block.
    rewrite (sk_contains_block_spec c U) by (done || by apply (un_author c U HU _ _ HUb)).
    rewrite bool_decide_eq_true_2 by (by rewrite Hd). cbn [mbind M_bind]. exists m0, [].
    rewrite app_nil_r, HB0, Hd. split_and!; [done| |done|done].
    apply accepts_none; [done..|]. rewrite HS0. apply keeps_refl. }
  destruct (try_accept_one_committed_block_new m0 b Hok0 HUb Hd) as (A' & -> & HA & HK).
  destruct (sk_accept_spec c U (bm_dag m0) [b] Hfit) as (d1 & -> & Hfit1 & Hgc1 & Hg1).
  { intros b' Hb'%list_elem_of_singleton. by subst b'. }
  change (grown U (bm_dag m0) d1 [b]) in Hg1. cbn [mbind M_bind].
  set (m1 := set_dag d1 _).
  destruct (accept_with_children_spec m0 m1 (reference b) [] (acc ++ [b]) F Hok0)
    as (m' & L & -> & Hok' & Hgc' & HB' & Hg & HL & Hk); simpl in *; try done.
  - apply (suspension_begin c U floor (bm_dag m0) _ _ _ (bm_missing_ancestors m0)); [done| |done|done].
    intros a Ha. rewrite Hg1. destruct (sk_block (bm_dag m0) a); [done|]. rewrite decide_False; [done|].
    by intros ->%list_elem_of_singleton.
  - intros r x a Hx Ha Hgc.
    assert (is_Some (sk_block (bm_dag m0) a)) as [y Hy].
    { destruct (grown_inv _ _ _ _ _ _ Hg1 Hx) as [Hx'|[Hr HUr]]; [by apply (Hcl r x)|].
      assert (r = reference b) as -> by set_solver. rewrite HUb in HUr. simplify_eq. by apply Hanc. }
    by rewrite (grown_some _ _ _ _ _ _ Hg1 Hy).
  - intros b' Hb'. by apply not_elem_of_nil in Hb'.
  - intros _. left. apply (grown_new _ _ _ _ b Hg1); [left|done].
  - exists m', (b :: L). rewrite <- (assoc_L (++)). split; [done|].
    assert (accepts m0 {[reference b]} m' (b :: L)) as Hac.
    { split; [done|done|by apply (grown_trans _ _ _ _ [b] L Hg1 Hg)| |].
      - pose proof (released_after _ _ _ _ _ _ Hg1 HL) as HL'.
        replace (refs_set [b] ∪ {[reference b]}) with ({[reference b]} ∪ ∅ : gset BlockRef) in HL' by set_solver.
        split; [|done].
        split_and!; [done..|apply not_elem_of_empty|]. intros a Ha Hgc. left. by apply Hanc.
      - rewrite <- (union_empty_r_L {[reference b]}). by apply keeps_cons. }
    split_and!; [|apply (accepts_in _ _ _ _ _ Hac); set_solver|rewrite HB', HB0; set_solver].
    rewrite <- (union_empty_l_L {[reference b]}). apply (accepts_trans _ m0 _ ∅ _ []); [|done]. apply accepts_none; [done..|]. rewrite HS0. apply keeps_refl.
Qed.

(** ** All the blocks *)

Definition incoming (bs : list VerifiedBlock) : Prop :=
  ∀ b, b ∈ bs → U (reference b) = Some b ∧ 0 < b_round b.

Lemma accept_loop_spec bs m acc F :
  bm_ok c U floor m → incoming bs →
  ∃ m' L F', foldM (accept_step false) (m, acc, F) bs = Ret (m', acc ++ L, F ∪ F') ∧
    accepts m (refs_set bs) m' L ∧ (∀ b, b ∈ bs → handled m' b) ∧
    bm_missing_blocks m' ⊆ bm_missing_blocks m ∪ F' ∧ ∀ a, a ∈ F' → sk_block (bm_dag m) a = None.
Proof using HU.
  revert m acc F. induction bs as [|b bs IH]; intros m acc F Hok Hbs; cbn [foldM].
  { exists m, [], ∅. rewrite app_nil_r, union_empty_r_L. split_and!; [done| | |set_solver|set_solver].
    - apply accepts_none; [done..|apply keeps_refl].
    - intros b Hb. by apply not_elem_of_nil in Hb. }
  destruct (Hbs b) as [HUb Hpos]; [left|].
  destruct (accept_step_spec m b acc F Hok HUb Hpos) as (m1 & L1 & F1 & -> & Hac1 & Hb & HB1 & HF1).
  cbn [mbind M_bind].
  destruct (IH m1 (acc ++ L1) (F ∪ F1)) as (m2 & L2 & F2 & -> & Hac2 & Hbs2 & HB2 & HF2).
  { by apply Hac1. }
  { intros b' Hb'. apply Hbs. by right. }
  exists m2, (L1 ++ L2), (F1 ∪ F2). rewrite (assoc_L (++)), (assoc_L (∪)).
  split_and!; [done|by eapply accepts_trans| |set_solver|].
  - intros b' [->|Hb']%list.elem_of_cons; [by eapply accepts_handled|by apply Hbs2].
  - intros a [Ha|Ha]%elem_of_union; [by apply HF1|]. apply HF2 in Ha.
    destruct (sk_block (bm_dag m) a) eqn:Hd; [|done]. by rewrite (grown_some _ _ _ _ _ _ (ac_grown _ _ _ _ Hac1) Hd) in Ha.
Qed.

Lemma refs_set_sort leb bs : refs_set (stable_sort leb bs) = refs_set bs.
Proof using. unfold refs_set. by rewrite (stable_sort_perm leb bs). Qed.

Lemma try_accept_blocks_total bs m :
  bm_ok c U floor m → incoming bs →
  ∃ m' L F, BlockManager_try_accept_blocks m bs = Ret (m', L, F) ∧
    accepts m (refs_set bs) m' L ∧ (∀ b, b ∈ bs → handled m' b) ∧
    bm_missing_blocks m' ⊆ bm_missing_blocks m ∪ F ∧ ∀ a, a ∈ F → sk_block (bm_dag m) a = None.
Proof using HU.
  intros Hok Hbs. unfold BlockManager_try_accept_blocks, BlockManager_try_accept_blocks_internal.
  set (leb := λ a b : VerifiedBlock, b_round a <=? b_round b).
  destruct (accept_loop_spec (stable_sort leb bs) m [] ∅ Hok) as (m' & L & F & -> & Hac & Hh & HB & HF).
  { intros b Hb%stable_sort_elem. by apply Hbs. }
  exists m', L, F. rewrite union_empty_l_L, <- (refs_set_sort leb bs). split_and!; [done..| |done|done].
  intros b Hb. apply Hh. by rewrite stable_sort_elem.
Qed.

(** Blocks committed by the quorum: their ancestors are known or come with them. *)
Definition with_history d (bs : list VerifiedBlock) : Prop :=
  ∀ (b : VerifiedBlock) a, b ∈ bs → a ∈ b_ancestors b → sk_gc_round d < br_round a → is_Some (sk_block d a) ∨ a ∈ refs_set bs.

Lemma committed_loop_spec bs m acc :
  bm_ok c U floor m → incoming bs → with_history (bm_dag m) bs →
  StronglySorted (λ a b : VerifiedBlock, b_round a <=? b_round b = true) bs →
  ∃ m' L, foldM (accept_step true) (m, acc, ∅) bs = Ret (m', acc ++ L, ∅) ∧ accepts m (refs_set bs) m' L ∧
    (∀ b, b ∈ bs → is_Some (sk_block (bm_dag m') (reference b))) ∧ bm_missing_blocks m' ⊆ bm_missing_blocks m.
Proof using HU.
  revert m acc. induction bs as [|b bs IH]; intros m acc Hok Hbs Hh Hsort; cbn [foldM].
  { exists m, []. rewrite app_nil_r. split_and!; [done| | |done].
    - apply accepts_none; [done..|apply keeps_refl].
    - intros b Hb. by apply not_elem_of_nil in Hb. }
  destruct (Hbs b) as [HUb Hpos]; [left|]. apply StronglySorted_inv in Hsort as [Hsort Hle].
  destruct (accept_step_committed m b acc ∅ Hok HUb Hpos) as (m1 & L1 & -> & Hac1 & Hb & HB1).
  { intros a Ha Hgc. destruct (Hh b a) as [?|(b' & -> & Hb')%elem_of_list_to_set%list_elem_of_fmap]; [left|done..|].
    destruct (un_ancestor c U HU _ _ _ HUb Ha) as [Hlt _]. simpl in Hlt.
    apply list.elem_of_cons in Hb' as [->|Hb']; [lia|]. rewrite Forall_forall in Hle. apply Hle, N.leb_le in Hb'. lia. }
  cbn [mbind M_bind].
  destruct (IH m1 (acc ++ L1)) as (m2 & L2 & -> & Hac2 & Hbs2 & HB2); [by apply Hac1| | |done|].
  { intros b' Hb'. apply Hbs. by right. }
  { intros b' a Hb' Ha Hgc. rewrite (ac_gc _ _ _ _ Hac1) in Hgc. destruct (Hh b' a) as [[x Hx]|Hin]; [by right|done..| |].
    - left. by rewrite (grown_some _ _ _ _ _ _ (ac_grown _ _ _ _ Hac1) Hx).
    - change (refs_set (b :: bs)) with ({[reference b]} ∪ refs_set bs) in Hin.
      apply elem_of_union in Hin as [->%elem_of_singleton|?]; [by left|by right]. }
  exists m2, (L1 ++ L2). rewrite (assoc_L (++)). split_and!; [done|by eapply accepts_trans| |set_solver].
  intros b' [->|Hb']%list.elem_of_cons; [|by apply Hbs2]. destruct Hb as [x Hx].
  by rewrite (grown_some _ _ _ _ _ _ (ac_grown _ _ _ _ Hac2) Hx).
Qed.

(** ** What callers rely on *)

(** [L] are new blocks of [bs] or suspended in [m], each after its ancestors above
    the garbage collection round. *)
Record accepted_in_order m (bs L : list VerifiedBlock) : Prop := {
  ao_nodup : NoDup (reference <$> L);
  ao_from : ∀ r, r ∈ reference <$> L → r ∈ reference <$> bs ∨ is_Some (bm_suspended_blocks m !! r);
  ao_causal : ∀ l1 (b : VerifiedBlock) l2 a, L = l1 ++ b :: l2 → a ∈ b_ancestors b →
    sk_gc_round (bm_dag m) < br_round a → is_Some (sk_block (bm_dag m) a) ∨ a ∈ reference <$> l1;
}.

Lemma released_nodup d gc X L : released U d gc X L → NoDup (reference <$> L).
Proof using.
  revert X. induction L as [|b L IH]; intros X; [constructor|]. intros [_ HL]. csimpl. constructor; [|by eapply IH].
  intros (b' & Heq & Hb')%list_elem_of_fmap. destruct (released_elem _ _ _ _ _ _ HL Hb') as (_ & _ & _ & Hn & _).
  apply Hn. rewrite <- Heq. by apply elem_of_union_l, elem_of_singleton.
Qed.

Lemma accepts_in_order m bs m' L : accepts m (refs_set bs) m' L → accepted_in_order m bs L.
Proof using.
  intros Hac. split.
  - by eapply released_nodup, ac_order.
  - intros r Hr. destruct (ke_from _ _ _ _ (ac_keeps _ _ _ _ Hac) r) as [?|Hin]; [|by right|left].
    + right. by apply elem_of_list_to_set.
    + by apply elem_of_list_to_set in Hin.
  - intros l1 b l2 a -> Ha Hgc. pose proof (ac_order _ _ _ _ Hac) as [_ [(_ & _ & _ & _ & Hanc) _]]%released_app.
    destruct (Hanc a Ha Hgc) as [?|Hin]; [by left|right]. rewrite union_empty_r_L in Hin.
    by apply elem_of_list_to_set in Hin.
Qed.

(** C21: [try_accept_blocks] never fails.  It adds to the DAG exactly the blocks it
    returns, in an order where each block comes after its ancestors above the
    garbage collection round, so that the DAG stays causally closed; each block it
    was given ends in the DAG, suspended, or at or below that round; and the set
    it returns contains every block that is newly to be fetched, none of which was
    in the DAG. *)
Theorem BlockManager_try_accept_blocks_causal m bs :
  bm_ok c U floor m → incoming bs →
  ∃ m' L F, BlockManager_try_accept_blocks m bs = Ret (m', L, F) ∧ bm_ok c U floor m' ∧
    accepted_in_order m bs L ∧ grown U (bm_dag m) (bm_dag m') L ∧
    (∀ b, b ∈ bs → handled m' b) ∧
    bm_missing_blocks m' ⊆ bm_missing_blocks m ∪ F ∧ ∀ a, a ∈ F → sk_block (bm_dag m) a = None.
Proof using HU.
  intros Hok Hbs. destruct (try_accept_blocks_total bs m Hok Hbs) as (m' & L & F & Hrun & Hac & Hh & HB & HF).
  exists m', L, F. split_and!; [done|by apply Hac|by eapply accepts_in_order|by apply Hac|done..].
Qed.

(** C36: [try_accept_committed_blocks] on blocks that come with their history above
    the garbage collection round never fails (neither the panic on a suspended or
    skipped block nor the assertion on missing blocks is reached), takes the blocks
    out of the suspended ones, and accepts all of them, in causal order, together
    with the suspended blocks they release. *)
Theorem BlockManager_try_accept_committed_blocks_accepts m bs :
  bm_ok c U floor m → incoming bs → with_history (bm_dag m) bs →
  ∃ m' L, BlockManager_try_accept_committed_blocks m bs = Ret (m', L) ∧ bm_ok c U floor m' ∧
    accepted_in_order m bs L ∧ grown U (bm_dag m) (bm_dag m') L ∧
    (∀ b, b ∈ bs → is_Some (sk_block (bm_dag m') (reference b)) ∧ bm_suspended_blocks m' !! reference b = None) ∧
    bm_missing_blocks m' ⊆ bm_missing_blocks m.
Proof using HU.
  intros Hok Hbs Hh. unfold BlockManager_try_accept_committed_blocks, BlockManager_try_accept_blocks_internal.
  set (leb := λ a b : VerifiedBlock, b_round a <=? b_round b).
  destruct (committed_loop_spec (stable_sort leb bs) m [] Hok) as (m' & L & -> & Hac & Hin & HB).
  { intros b Hb%stable_sort_elem. by apply Hbs. }
  { intros b a Hb%stable_sort_elem. rewrite refs_set_sort. by apply Hh. }
  { apply stable_sort_sorted; unfold leb; intros *; rewrite !N.leb_le; lia. }
  rewrite refs_set_sort in Hac. cbn [mbind M_bind app]. rewrite bool_decide_eq_true_2 by done.
  exists m', L. split_and!; [done|by apply Hac|by eapply accepts_in_order|by apply Hac| |done].
  intros b Hb. destruct (Hin b) as [x Hx]; [by rewrite stable_sort_elem|]. split; [by eexists|].
  apply eq_None_not_Some. intros [sb Hsb].
  destruct (si_susp _ _ _ _ _ _ _ _ _ _ (bo_suspension _ _ _ _ (ac_ok _ _ _ _ Hac)) _ _ Hsb) as (_ & _ & Hd & _).
  congruence.
Qed.

End BlockManagerAccept.
