(* ===== verification/BlockManagerLive.v ===== *)
(** * Every block whose history arrives is accepted

    What the block manager does with a sequence of batches: it accepts exactly the
    blocks whose history above the garbage collection round has arrived, and the
    result does not depend on the order of the blocks nor on how they were batched. *)

From S2P Require Import Prelude BTree Config Block Commit Store StakeAggregator ThresholdClock.
From S2P Require Import LeaderScoring DagState DagTheory BlockManager BlockManagerTheory BlockManagerAccept.
Local Open Scope N_scope.

Section BlockManagerLive.
Context {D : Type} `{BlockSinkLaws D}.
Implicit Types d : D.
Implicit Types m : BlockManager D.

(** The batches, one call of [try_accept_blocks] each. *)
Definition receive_all m (batches : list (list VerifiedBlock)) : M (BlockManager D) :=
  foldM (λ m blocks, '(m, _, _) ← BlockManager_try_accept_blocks m blocks; Ret m) m batches.

Context (c : Committee) (U : BlockRef → option VerifiedBlock) (HU : universe c U).

Lemma receive_all_spec floor batches m :
  bm_ok c U floor m → incoming U (concat batches) →
  ∃ m' L, receive_all m batches = Ret m' ∧ accepts c U floor m (refs_set (concat batches)) m' L ∧
    ∀ b, b ∈ concat batches → handled m' b.
Proof using HU.
  unfold receive_all. revert m. induction batches as [|bs batches IH]; intros m Hok Hin; cbn [foldM concat].
  { exists m, []. split_and!; [done|by apply accepts_none; [..|apply keeps_refl]|].
    intros b Hb. by apply not_elem_of_nil in Hb. }
  simpl in Hin. destruct (try_accept_blocks_total c U floor HU bs m Hok) as (m1 & L1 & F & -> & Hac1 & Hh1 & _).
  { intros b Hb. apply Hin, elem_of_app. by left. }
  cbn [mbind M_bind]. destruct (IH m1) as (m2 & L2 & -> & Hac2 & Hh2); [by apply Hac1| |].
  { intros b Hb. apply Hin, elem_of_app. by right. }
  exists m2, (L1 ++ L2). rewrite refs_set_app. split_and!; [done|by eapply accepts_trans|].
  intros b [Hb|Hb]%elem_of_app; [by eapply accepts_handled; [|apply Hh1]|by apply Hh2].
Qed.

(** The round-0 ancestors of the blocks are in the DAG. *)
Definition genesis_present d : Prop :=
  ∀ r b a, U r = Some b → a ∈ b_ancestors b → br_round a = GENESIS_ROUND → is_Some (sk_block d a).

(** The blocks [K] have their history above [gc] in [K] or in the DAG. *)
Definition closed_history d (gc : Round) (K : BlockRef → Prop) : Prop :=
  ∀ r b a, K r → U r = Some b → a ∈ b_ancestors b → gc < br_round a → K a ∨ is_Some (sk_block d a).

Section Settled.
Context (m m' : BlockManager D) (I : gset BlockRef) (L : list VerifiedBlock).
Let gc := sk_gc_round (bm_dag m).
Context (Hac : accepts c U gc m I m' L) (Hgen : genesis_present (bm_dag m)).
Context (Hh : ∀ r, r ∈ I → is_Some (bm_suspended_blocks m' !! r) ∨ is_Some (sk_block (bm_dag m') r) ∨ br_round r ≤ gc).

(** A suspended block waits for blocks above the garbage collection round. *)
Lemma settled_missing r sb a :
  bm_suspended_blocks m' !! r = Some sb → a ∈ su_missing_ancestors sb →
  U r = Some (su_block sb) ∧ a ∈ b_ancestors (su_block sb) ∧ gc < br_round a ∧ br_round a < br_round r ∧
  sk_block (bm_dag m') a = None.
Proof using HU Hac Hgen.
  intros Hr Ha. pose proof (bo_suspension _ _ _ _ (ac_ok _ _ _ _ _ _ _ Hac)) as Hs.
  destruct (si_susp _ _ _ _ _ _ _ _ _ _ Hs r sb Hr) as (HUr & _).
  destruct (si_missing _ _ _ _ _ _ _ _ _ _ Hs r sb a Hr Ha) as [Hin [[Hd _]|Hx]]; [|by apply not_elem_of_empty in Hx].
  destruct (un_ancestor c U HU _ _ _ HUr Hin) as [Hlt _]. split_and!; [done..| |done|done].
  destruct (si_keys _ _ _ _ _ _ _ _ _ _ Hs a) as [[_ [Hz|?]] _]; [|exfalso|done].
  { by apply (suspension_key _ _ _ _ _ _ _ _ _ _ r sb a Hs). }
  destruct (Hgen _ _ _ HUr Hin Hz) as [x Hx].
  by rewrite (grown_some _ _ _ _ _ _ (ac_grown _ _ _ _ _ _ _ Hac) Hx) in Hd.
Qed.

Lemma settled_suspended r :
  is_Some (bm_suspended_blocks m' !! r) → gc < br_round r ∧ sk_block (bm_dag m') r = None.
Proof using HU Hac Hgen.
  intros [sb Hr]. pose proof (bo_suspension _ _ _ _ (ac_ok _ _ _ _ _ _ _ Hac)) as Hs.
  destruct (si_susp _ _ _ _ _ _ _ _ _ _ Hs r sb Hr) as (_ & _ & Hd & _ & [a Ha]%set_choose_L).
  destruct (settled_missing r sb a Hr Ha) as (_ & _ & ? & ? & _). split; [lia|done].
Qed.

(** What a suspended block misses is decided by the DAG. *)
Lemma settled_misses r sb a :
  bm_suspended_blocks m' !! r = Some sb →
  a ∈ su_missing_ancestors sb ↔ a ∈ b_ancestors (su_block sb) ∧ gc < br_round a ∧ sk_block (bm_dag m') a = None.
Proof using HU Hac Hgen.
  intros Hr. split; [intros Ha; destruct (settled_missing r sb a Hr Ha); tauto|]. intros (Ha & Hgc & Hd).
  pose proof (bo_suspension _ _ _ _ (ac_ok _ _ _ _ _ _ _ Hac)) as Hs. rewrite (ac_gc _ _ _ _ _ _ _ Hac) in Hs.
  destruct (si_ancestors _ _ _ _ _ _ _ _ _ _ Hs r sb a Hr Ha Hgc) as [?|[[x Hx]|Hx]]; [done|congruence|].
  by apply not_elem_of_empty in Hx.
Qed.

(** Blocks that arrived, or were suspended, with their history are accepted. *)
Lemma settled_complete (K : BlockRef → Prop) :
  closed_history (bm_dag m) gc K →
  (∀ r, K r → gc < br_round r ∧ (r ∈ I ∨ is_Some (bm_suspended_blocks m !! r))) →
  ∀ r, K r → is_Some (sk_block (bm_dag m') r).
Proof using HU Hac Hgen Hh.
  intros Hcl HK r. remember (br_round r) as n eqn:Hn. revert r Hn.
  induction n as [n IH] using (well_founded_induction N.lt_wf_0). intros r -> Hr.
  pose proof (HK r Hr) as [Hgc Hin].
  assert (is_Some (bm_suspended_blocks m' !! r) ∨ is_Some (sk_block (bm_dag m') r)) as [[sb Hsb]|?]; [|exfalso|done].
  { destruct Hin as [Hin|Hs].
    - destruct (Hh r Hin) as [?|[?|?]]; [by left|by right|lia].
    - destruct (ke_stay _ _ _ _ (ac_keeps _ _ _ _ _ _ _ Hac) r Hs) as [?|Hl]; [by left|right].
      by apply (accepts_in c U gc _ _ _ _ _ Hac). }
  pose proof (bo_suspension _ _ _ _ (ac_ok _ _ _ _ _ _ _ Hac)) as Hs.
  destruct (si_susp _ _ _ _ _ _ _ _ _ _ Hs r sb Hsb) as (_ & _ & _ & _ & [a Ha]%set_choose_L).
  destruct (settled_missing r sb a Hsb Ha) as (HUr & Hanc & Hgca & Hlt & Hd).
  destruct (Hcl r (su_block sb) a Hr HUr Hanc Hgca) as [Ka|[x Hx]].
  - destruct (IH (br_round a) Hlt a eq_refl Ka). congruence.
  - rewrite (grown_some _ _ _ _ _ _ (ac_grown _ _ _ _ _ _ _ Hac) Hx) in Hd. done.
Qed.

(** The blocks accepted have their history, and arrived or were suspended. *)
Lemma settled_accepted :
  let K := λ r, r ∈ refs_set L ∧ gc < br_round r in
  closed_history (bm_dag m) gc K ∧
  ∀ r, K r → gc < br_round r ∧ (r ∈ I ∨ is_Some (bm_suspended_blocks m !! r)).
Proof using Hac.
  split.
  - intros r b a [(b' & -> & Hb')%elem_of_list_to_set%list_elem_of_fmap _] HUr Ha Hgc.
    destruct (released_elem _ _ _ _ _ _ (ac_order _ _ _ _ _ _ _ Hac) Hb') as (HUb & _ & _ & _ & Hanc).
    rewrite HUb in HUr. simplify_eq. destruct (Hanc a Ha Hgc) as [?|Hin]; [by right|left].
    rewrite union_empty_r_L in Hin. done.
  - intros r [Hr Hgc]. split; [done|].
    destruct (ke_from _ _ _ _ (ac_keeps _ _ _ _ _ _ _ Hac) r (or_intror Hr)); auto.
Qed.

End Settled.

(** Runs on the same blocks end alike. *)
Lemma settled_dag m m1 m2 I L1 L2 :
  let gc := sk_gc_round (bm_dag m) in
  accepts c U gc m I m1 L1 → accepts c U gc m I m2 L2 → genesis_present (bm_dag m) →
  (∀ r, r ∈ I → gc < br_round r) → (∀ r, is_Some (bm_suspended_blocks m !! r) → gc < br_round r) →
  (∀ r, r ∈ I → is_Some (bm_suspended_blocks m2 !! r) ∨ is_Some (sk_block (bm_dag m2) r) ∨ br_round r ≤ gc) →
  ∀ r b, sk_block (bm_dag m1) r = Some b → sk_block (bm_dag m2) r = Some b.
Proof using HU.
  intros gc Hac1 Hac2 Hgen HI HS Hh2 r b Hr.
  destruct (grown_inv _ _ _ _ _ _ (ac_grown _ _ _ _ _ _ _ Hac1) Hr) as [Hr'|[Hin HUr]].
  { by apply (grown_some _ _ _ _ _ _ (ac_grown _ _ _ _ _ _ _ Hac2) Hr'). }
  destruct (settled_accepted m m1 I L1 Hac1) as [Hcl HK].
  destruct (settled_complete m m2 I L2 Hac2 Hgen Hh2 _ Hcl HK r) as [x Hx].
  { split; [done|]. destruct (ke_from _ _ _ _ (ac_keeps _ _ _ _ _ _ _ Hac1) r (or_intror Hin)); auto. }
  pose proof (sk_sub c U _ _ _ (bo_fits _ _ _ _ (ac_ok _ _ _ _ _ _ _ Hac2)) Hx). congruence.
Qed.

(** What is suspended in one run and in the DAG of no run is suspended in the other. *)
Lemma settled_waits m m1 m2 I L1 L2 floor r :
  accepts c U floor m I m1 L1 → accepts c U floor m I m2 L2 →
  (∀ r, r ∈ I → is_Some (bm_suspended_blocks m2 !! r) ∨ is_Some (sk_block (bm_dag m2) r) ∨
     br_round r ≤ sk_gc_round (bm_dag m)) →
  is_Some (bm_suspended_blocks m1 !! r) → sk_gc_round (bm_dag m) < br_round r → sk_block (bm_dag m2) r = None →
  is_Some (bm_suspended_blocks m2 !! r).
Proof using.
  intros Hac1 Hac2 Hr2 Hr Hgc Hn.
  destruct (ke_from _ _ _ _ (ac_keeps _ _ _ _ _ _ _ Hac1) r (or_introl Hr)) as [HS|HI].
  - destruct (ke_stay _ _ _ _ (ac_keeps _ _ _ _ _ _ _ Hac2) r HS) as [?|Hl]; [done|].
    apply (accepts_in c U floor _ _ _ _ _ Hac2) in Hl as [x Hx]. congruence.
  - destruct (Hr2 r HI) as [?|[[x Hx]|?]]; [done|congruence|lia].
Qed.

Lemma settled_map m m1 m2 I L1 L2 :
  let gc := sk_gc_round (bm_dag m) in
  accepts c U gc m I m1 L1 → accepts c U gc m I m2 L2 → genesis_present (bm_dag m) →
  (∀ r, sk_block (bm_dag m1) r = sk_block (bm_dag m2) r) →
  (∀ r, is_Some (bm_suspended_blocks m1 !! r) ↔ is_Some (bm_suspended_blocks m2 !! r)) →
  bm_suspended_blocks m1 = bm_suspended_blocks m2.
Proof using HU.
  intros gc Hac1 Hac2 Hgen Hd HS. apply map_eq. intros r.
  destruct (bm_suspended_blocks m1 !! r) as [[b1 x1]|] eqn:H1, (bm_suspended_blocks m2 !! r) as [[b2 x2]|] eqn:H2;
    [|destruct (HS r) as [Hx _]; rewrite H1, H2 in Hx; by destruct Hx
     |destruct (HS r) as [_ Hx]; rewrite H1, H2 in Hx; by destruct Hx|done].
  pose proof (bo_suspension _ _ _ _ (ac_ok _ _ _ _ _ _ _ Hac1)) as Hs1.
  pose proof (bo_suspension _ _ _ _ (ac_ok _ _ _ _ _ _ _ Hac2)) as Hs2.
  destruct (si_susp _ _ _ _ _ _ _ _ _ _ Hs1 r _ H1) as (HU1 & _), (si_susp _ _ _ _ _ _ _ _ _ _ Hs2 r _ H2) as (HU2 & _).
  simpl in *. assert (b1 = b2) as -> by congruence. do 2 f_equal. apply set_eq. intros a.
  rewrite (settled_misses m m1 I L1 Hac1 Hgen r (mkSuspendedBlock b2 x1) a H1 : a ∈ x1 ↔ _).
  rewrite (settled_misses m m2 I L2 Hac2 Hgen r (mkSuspendedBlock b2 x2) a H2 : a ∈ x2 ↔ _). by rewrite Hd.
Qed.

Lemma settled_same m m1 m2 I L1 L2 :
  let gc := sk_gc_round (bm_dag m) in
  let reached m' r := is_Some (bm_suspended_blocks m' !! r) ∨ is_Some (sk_block (bm_dag m') r) ∨ br_round r ≤ gc in
  bm_ok c U gc m → accepts c U gc m I m1 L1 → accepts c U gc m I m2 L2 → genesis_present (bm_dag m) →
  (∀ r, r ∈ I → gc < br_round r) → (∀ r, r ∈ I → reached m1 r) → (∀ r, r ∈ I → reached m2 r) →
  (∀ r, sk_block (bm_dag m1) r = sk_block (bm_dag m2) r) ∧ bm_suspended_blocks m1 = bm_suspended_blocks m2.
Proof using HU.
  intros gc reached Hok Hac1 Hac2 Hgen HI Hr1 Hr2.
  assert (∀ r, is_Some (bm_suspended_blocks m !! r) → gc < br_round r) as HS.
  { intros r Hr. assert (accepts c U gc m ∅ m []) as Hac by (by apply accepts_none; [..|apply keeps_refl]).
    by apply (settled_suspended m m ∅ [] Hac Hgen). }
  assert (∀ r, sk_block (bm_dag m1) r = sk_block (bm_dag m2) r) as Hd.
  { intros r. pose proof (settled_dag m m1 m2 I L1 L2 Hac1 Hac2 Hgen HI HS Hr2 r) as H12.
    pose proof (settled_dag m m2 m1 I L2 L1 Hac2 Hac1 Hgen HI HS Hr1 r) as H21.
    destruct (sk_block (bm_dag m1) r) as [x|]; [by rewrite (H12 x)|].
    destruct (sk_block (bm_dag m2) r) as [y|]; [by rewrite (H21 y)|done]. }
  split; [done|]. apply (settled_map m m1 m2 I L1 L2 Hac1 Hac2 Hgen Hd).
  intros r. split; intros Hr.
  - destruct (settled_suspended m m1 I L1 Hac1 Hgen r Hr) as [Hgc Hn]. rewrite Hd in Hn.
    by apply (settled_waits m m1 m2 I L1 L2 gc r).
  - destruct (settled_suspended m m2 I L2 Hac2 Hgen r Hr) as [Hgc Hn]. rewrite <- Hd in Hn.
    by apply (settled_waits m m2 m1 I L2 L1 gc r).
Qed.

Lemma handled_all m' batches :
  (∀ b, b ∈ concat batches → handled m' b) →
  ∀ r, r ∈ refs_set (concat batches) →
    is_Some (bm_suspended_blocks m' !! r) ∨ is_Some (sk_block (bm_dag m') r) ∨ br_round r ≤ sk_gc_round (bm_dag m').
Proof using. intros Hh r (b & -> & Hb)%elem_of_list_to_set%list_elem_of_fmap. by apply Hh. Qed.

(** C6: liveness of the block manager.  Whatever the order and the batches in which
    verified blocks arrive, [try_accept_blocks] returns on each batch, and afterwards
    every block that has arrived (or was suspended) above the garbage collection
    round is in the DAG once the ancestors of its history above that round have
    arrived or were there: no block stays suspended for a block already received. *)
Theorem BlockManager_accepts_complete_histories m batches :
  let gc := sk_gc_round (bm_dag m) in
  bm_ok c U gc m → genesis_present (bm_dag m) → incoming U (concat batches) →
  ∃ m', receive_all m batches = Ret m' ∧ bm_ok c U gc m' ∧ sk_gc_round (bm_dag m') = gc ∧
    ∀ K : BlockRef → Prop, closed_history (bm_dag m) gc K →
      (∀ r, K r → gc < br_round r ∧ (r ∈ reference <$> concat batches ∨ is_Some (bm_suspended_blocks m !! r))) →
      ∀ r, K r → is_Some (sk_block (bm_dag m') r).
Proof using HU.
  intros gc Hok Hgen Hin. destruct (receive_all_spec gc batches m Hok Hin) as (m' & L & Hrun & Hac & Hh).
  exists m'. split_and!; [done|by apply Hac|by apply (ac_gc _ _ _ _ _ _ _ Hac)|].
  intros K Hcl HK. apply (settled_complete m m' _ L Hac Hgen).
  - intros r Hr. rewrite <- (ac_gc _ _ _ _ _ _ _ Hac). by apply (handled_all _ batches Hh).
  - done.
  - intros r Hr. unfold refs_set. rewrite elem_of_list_to_set. by apply HK.
Qed.

(** C17: the block manager is confluent.  Two sequences of batches that bring the
    same blocks, in any order, with any repetition and batched in any way, end with
    the same blocks in the DAG and the same suspended blocks waiting for the same
    ancestors. *)
Theorem BlockManager_order_independent m batches1 batches2 :
  let gc := sk_gc_round (bm_dag m) in
  bm_ok c U gc m → genesis_present (bm_dag m) → incoming U (concat batches1) →
  (∀ b : VerifiedBlock, b ∈ concat batches1 → gc < b_round b) →
  (∀ b, b ∈ concat batches1 ↔ b ∈ concat batches2) →
  ∃ m1 m2, receive_all m batches1 = Ret m1 ∧ receive_all m batches2 = Ret m2 ∧
    (∀ r, sk_block (bm_dag m1) r = sk_block (bm_dag m2) r) ∧
    bm_suspended_blocks m1 = bm_suspended_blocks m2.
Proof using HU.
  intros gc Hok Hgen Hin Hgc Hsame.
  assert (refs_set (concat batches2) = refs_set (concat batches1)) as HI.
  { apply set_eq. intros r. unfold refs_set. rewrite !elem_of_list_to_set, !list_elem_of_fmap. by setoid_rewrite Hsame. }
  destruct (receive_all_spec gc batches1 m Hok Hin) as (m1 & L1 & Hrun1 & Hac1 & Hh1).
  destruct (receive_all_spec gc batches2 m Hok) as (m2 & L2 & Hrun2 & Hac2 & Hh2).
  { intros b Hb%Hsame. by apply Hin. }
  pose proof (handled_all _ _ Hh1) as Hr1. pose proof (handled_all _ _ Hh2) as Hr2.
  rewrite HI in Hac2, Hr2. rewrite (ac_gc _ _ _ _ _ _ _ Hac1) in Hr1. rewrite (ac_gc _ _ _ _ _ _ _ Hac2) in Hr2.
  exists m1, m2. split; [done|]. split; [done|]. apply (settled_same m m1 m2 (refs_set (concat batches1)) L1 L2); try done.
  intros r (b & -> & Hb)%elem_of_list_to_set%list_elem_of_fmap. by apply Hgc.
Qed.

End BlockManagerLive.
