(* ===== verification/BlockManagerGc.v ===== *)
(** * Garbage collection and lookups of the block manager

    When the garbage collection round rises, the suspended blocks stop waiting for
    ancestors at or below it; and [try_find_blocks] registers unknown references
    for fetching. *)

From S2P Require Import Prelude BTree Config Block Commit Store StakeAggregator ThresholdClock.
From S2P Require Import LeaderScoring DagState DagTheory BlockManager BlockManagerTheory BlockManagerAccept.
Local Open Scope N_scope.

Section BlockManagerGc.
Context {D : Type} `{BlockSinkLaws D}.
Context (c : Committee) (U : BlockRef → option VerifiedBlock).
Implicit Types d : D.
Implicit Types m : BlockManager D.

(** The DAG was replaced by one with the same blocks and a higher round. *)
Lemma bm_ok_advanced floor m d' :
  bm_ok c U floor m → sk_fits c U d' → (∀ r, sk_block d' r = sk_block (bm_dag m) r) →
  sk_gc_round (bm_dag m) ≤ sk_gc_round d' → bm_ok c U floor (set_dag d' m).
Proof using.
  intros [Hfit Hc Hfl Hrec Hs Hcl] Hfit' Hd Hgc. split; simpl; [done|done|lia|done| |].
  - destruct Hs as [H1 H2 H3 H4 H5 H6 H7]. split; [| | |done| |done|done].
    + intros r sb. rewrite Hd. apply H1.
    + intros r sb a. rewrite Hd. apply H2.
    + intros r sb a Hr Ha Hlt. rewrite Hd. apply (H3 r sb a Hr Ha). lia.
    + intros a. rewrite Hd. apply H5.
  - intros r b a. rewrite !Hd. intros Hr Ha Hlt. apply (Hcl r b a Hr Ha). lia.
Qed.

(** The index was collected up to [floor']. *)
Lemma bm_ok_raise floor floor' m :
  bm_ok c U floor m → floor' ≤ sk_gc_round (bm_dag m) →
  (∀ a, is_Some (bm_missing_ancestors m !! a) → floor' < br_round a) → bm_ok c U floor' m.
Proof using.
  intros [Hfit Hc Hfl Hrec Hs Hcl] Hle Hk. split; try done.
  destruct Hs as [H1 H2 H3 H4 H5 H6 H7]. split; try done.
  intros a Ha. destruct (H5 a Ha) as [[Hm _] ?]. split; [|done]. split; [done|]. right. by apply Hk.
Qed.

(** Waiting for blocks at or below [gc] is waiting for nothing. *)
Lemma released_below d gc X Y L :
  (∀ x, x ∈ X → br_round x ≤ gc) → released U d gc (Y ∪ X) L → released U d gc Y L.
Proof using.
  intros HX. revert Y. induction L as [|b L IH]; intros Y; [done|].
  intros [(H1 & H2 & H3 & H4 & H5) HL]. apply not_elem_of_union in H4 as [H4 _].
  split; [|apply IH; by rewrite <- (assoc_L (∪))]. split_and!; [done..|].
  intros a Ha Hgc. destruct (H5 a Ha Hgc) as [?|[?|Hx]%elem_of_union]; [by left|by right|].
  apply HX in Hx. lia.
Qed.

Context (HU : universe c U) (floor : Round).

(** The first missing ancestor is not suspended: its own missing ancestors would
    come before it. *)
Lemma first_missing_not_suspended m k v :
  bm_ok c U floor m → bmap_first (bm_missing_ancestors m) = Some (k, v) → bm_suspended_blocks m !! k = None.
Proof using HU.
  intros Hok [_ Hmin]%bmap_first_Some. pose proof (bo_suspension _ _ _ _ Hok) as Hs.
  apply eq_None_not_Some. intros [sb Hsb].
  destruct (si_susp _ _ _ _ _ _ _ _ _ _ Hs k sb Hsb) as (HUk & _ & _ & _ & [a Ha]%set_choose_L).
  destruct (si_missing _ _ _ _ _ _ _ _ _ _ Hs k sb a Hsb Ha) as [Hanc _].
  destruct (un_ancestor c U HU _ _ _ HUk Hanc) as [Hlt _].
  pose proof (suspension_key _ _ _ _ _ _ _ _ _ _ k sb a Hs Hsb Ha) as Hka.
  apply Hmin, BlockRef_le_round in Hka. lia.
Qed.

(** A missing ancestor at or below the round is dropped. *)
Lemma gc_step m k :
  let m0 := set_missing_blocks (bm_missing_blocks m ∖ {[k]}) m in
  bm_ok c U floor m → bm_suspended_blocks m !! k = None → br_round k ≤ sk_gc_round (bm_dag m) →
  ∃ m1 L d', BlockManager_try_unsuspend_children_blocks m0 k = Ret (m1, L) ∧
    bm_dag m1 = bm_dag m ∧ sk_accept_blocks (bm_dag m) L = Ret d' ∧ accepts c U floor m ∅ (set_dag d' m1) L ∧
    bm_missing_blocks m1 = bm_missing_blocks m ∖ {[k]}.
Proof using HU.
  intros m0 [Hfit Hc Hfl Hrec Hs Hcl] HSk Hge.
  destruct (release_spec c U floor HU m0 k []) as (S' & A' & L & d' & Hu & Hacc & Hfit' & Hgc' & Hs' & Hcl' & Hg & HL & Hk);
    simpl in *; [done|done|by apply suspension_start|done| |lia|].
  { intros b Hb. by apply not_elem_of_nil in Hb. }
  do 3 eexists. split_and!; [exact Hu|done|exact Hacc| |done]. split; simpl; try done.
  - split; simpl; [done|done|by rewrite Hgc'|done|by rewrite Hgc'|by rewrite Hgc'].
  - apply (released_below _ _ {[k]}); [by intros x ->%elem_of_singleton|by rewrite union_empty_l_L].
Qed.

Lemma gc_loop_spec fuel m :
  bm_ok c U floor m → (size (bm_missing_blocks m) < fuel)%nat →
  ∃ m' L, gc_loop fuel (sk_gc_round (bm_dag m)) m = Ret m' ∧ accepts c U floor m ∅ m' L ∧
    ∀ a, is_Some (bm_missing_ancestors m' !! a) → sk_gc_round (bm_dag m) < br_round a.
Proof using HU.
  revert m. induction fuel as [|fuel IH]; intros m Hok Hf; [lia|]. cbn [gc_loop].
  destruct (bmap_first (bm_missing_ancestors m)) as [[k ch]|] eqn:Hfirst.
  2:{ apply bmap_first_None in Hfirst. exists m, []. split; [done|].
      split; [by apply accepts_none; [..|apply keeps_refl]|]. rewrite Hfirst. intros a [? ?]. done. }
  pose proof (first_missing_not_suspended m k ch Hok Hfirst) as HSk.
  apply bmap_first_Some in Hfirst as [Hk Hmin]. destruct (N.ltb_spec (sk_gc_round (bm_dag m)) (br_round k)) as [Hlt|Hge].
  { exists m, []. split; [done|]. split; [by apply accepts_none; [..|apply keeps_refl]|].
    intros a Ha. apply Hmin, BlockRef_le_round in Ha. lia. }
  pose proof Hok as [Hfit Hc Hfl Hrec Hs Hcl].
  destruct (si_keys _ _ _ _ _ _ _ _ _ _ Hs k) as [[Hauth _] _]; [by eexists|].
  destruct (hostname_returns c m (br_author k) Hc Hauth) as [h ->]. cbn [mbind M_bind].
  rewrite bool_decide_eq_false_2 by (by rewrite HSk; intros [? ?]). cbn [negb assert_that mbind M_bind].
  destruct (gc_step m k Hok HSk Hge) as (m1 & L & d' & -> & Hd1 & Hacc & Hac & HB). cbn [mbind M_bind].
  rewrite Hd1, Hacc. cbn [mbind M_bind].
  destruct (mapP_returns (λ block : VerifiedBlock, hostname (set_dag d' m1) (b_author block)) L) as [hs ->].
  { intros b Hb. destruct (released_elem _ _ _ _ _ _ (ac_order _ _ _ _ _ _ _ Hac) Hb) as (HUb & _).
    apply (hostname_returns c); [by apply Hac|]. by apply (un_author c U HU _ _ HUb). }
  cbn [mbind M_bind]. rewrite <- (ac_gc _ _ _ _ _ _ _ Hac).
  destruct (IH (set_dag d' m1)) as (m' & L' & -> & Hac' & Hkeys).
  { by apply Hac. }
  { assert (({[k]} : gset BlockRef) ⊆ bm_missing_blocks m) as Hsub.
    { apply singleton_subseteq_l, (si_fetch _ _ _ _ _ _ _ _ _ _ Hs). split_and!; [by eexists|done|apply not_elem_of_empty]. }
    simpl. rewrite HB, size_difference by done. apply subseteq_size in Hsub. rewrite size_singleton in *. lia. }
  exists m', (L ++ L'). split_and!; [done| |done]. rewrite <- (union_empty_l_L ∅). by eapply accepts_trans.
Qed.

Lemma missing_blocks_size m : bm_ok c U floor m → (size (bm_missing_blocks m) ≤ size (bm_missing_ancestors m))%nat.
Proof using.
  intros Hok. rewrite <- size_dom. apply subseteq_size. intros a Ha. apply elem_of_dom.
  by apply (si_fetch _ _ _ _ _ _ _ _ _ _ (bo_suspension _ _ _ _ Hok)).
Qed.


(** ** Looking blocks up *)

(** What [try_find_blocks] reports of [refs]. *)
Definition unknown m (refs : list BlockRef) : gset BlockRef :=
  list_to_set (filter (λ r, sk_block (bm_dag m) r = None ∧ bm_suspended_blocks m !! r = None) refs).

Lemma suspension_find d gc S A B a :
  suspension c U floor d gc S A B ∅ ∅ → awaited c floor a → sk_block d a = None → S !! a = None →
  suspension c U floor d gc S (<[a := children A a]> A) ({[a]} ∪ B) ∅ ∅.
Proof using.
  intros [H1 H2 H3 H4 H5 H6 H7] Ha Hd HS.
  split; [done|done|done| | | |done].
  - intros a' r. rewrite children_insert. destruct (decide (a' = a)) as [->|]; apply H4.
  - intros a' [<-|Ha']%lookup_insert_is_Some'; [|by apply H5]. split; [done|]. left. split; [done|apply not_elem_of_empty].
  - intros a'. rewrite elem_of_union, elem_of_singleton, H6, lookup_insert_is_Some'.
    pose proof (not_elem_of_empty (C := gset BlockRef) a'). split; [|naive_solver].
    intros [->|?]; [|tauto]. split_and!; [by left|done|apply not_elem_of_empty].
Qed.

Lemma find_block_spec m F r :
  bm_ok c U floor m → awaited c floor r →
  ∃ m', find_block (m, F) (bool_decide (is_Some (sk_block (bm_dag m) r)), r) = Ret (m', unknown m [r] ∪ F) ∧
    bm_ok c U floor m' ∧ bm_dag m' = bm_dag m ∧ bm_suspended_blocks m' = bm_suspended_blocks m ∧
    bm_missing_blocks m' = unknown m [r] ∪ bm_missing_blocks m.
Proof using.
  intros Hok Hr. unfold find_block, unknown. rewrite filter_cons, filter_nil.
  destruct (decide (sk_block (bm_dag m) r = None ∧ bm_suspended_blocks m !! r = None)) as [[Hd HS]|Hn].
  - rewrite bool_decide_eq_false_2 by (by rewrite Hd; intros [? ?]).
    rewrite bool_decide_eq_false_2 by (by rewrite HS; intros [? ?]). simpl orb.
    change (list_to_set [r]) with ({[r]} ∪ ∅ : gset BlockRef). rewrite union_empty_r_L.
    case_bool_decide as HB; [exists m; split_and!; [done..|]; symmetry; by apply subseteq_union_1_L, singleton_subseteq_l|].
    pose proof Hok as [Hfit Hc Hfl Hrec Hs Hcl]. fold (children (bm_missing_ancestors m) r). simpl bm_missing_ancestors.
    set (m1 := set_missing_ancestors _ _).
    destruct (hostname_returns c m1 (br_author r) Hc (proj1 Hr)) as [h ->]. cbn [mbind M_bind].
    exists m1. split_and!; [done| |done..]. split; simpl; try done. by apply suspension_find.
  - exists m. change (list_to_set []) with (∅ : gset BlockRef). rewrite !union_empty_l_L. split_and!; [|done..].
    destruct (decide (is_Some (sk_block (bm_dag m) r))) as [Hd|Hd%eq_None_not_Some]; [by rewrite bool_decide_eq_true_2|].
    rewrite (bool_decide_eq_true_2 (is_Some (bm_suspended_blocks m !! r))); [by rewrite orb_true_r|].
    apply not_eq_None_Some. tauto.
Qed.

Lemma find_loop_spec refs m F :
  bm_ok c U floor m → (∀ r, r ∈ refs → awaited c floor r) →
  ∃ m', foldM find_block (m, F) (zip ((λ r, bool_decide (is_Some (sk_block (bm_dag m) r))) <$> refs) refs)
        = Ret (m', unknown m refs ∪ F) ∧
    bm_ok c U floor m' ∧ bm_dag m' = bm_dag m ∧ bm_suspended_blocks m' = bm_suspended_blocks m ∧
    bm_missing_blocks m' = unknown m refs ∪ bm_missing_blocks m.
Proof using.
  revert m F. induction refs as [|r refs IH]; intros m F Hok Hr.
  { exists m. change (unknown m []) with (∅ : gset BlockRef). by rewrite !union_empty_l_L. }
  cbn [fmap list_fmap zip zip_with foldM]. destruct (find_block_spec m F r Hok) as (m1 & -> & Hok1 & Hd1 & HS1 & HB1); [apply Hr; left|].
  cbn [mbind M_bind]. rewrite <- Hd1.
  destruct (IH m1 (unknown m [r] ∪ F) Hok1) as (m2 & -> & Hok2 & Hd2 & HS2 & HB2); [intros x Hx; apply Hr; by right|].
  assert (∀ X, unknown m1 refs ∪ (unknown m [r] ∪ X) = unknown m (r :: refs) ∪ X) as Hun.
  { intros X. unfold unknown. rewrite Hd1, HS1. change (r :: refs) with ([r] ++ refs).
    rewrite filter_app, list_to_set_app_L, (assoc_L (∪)). f_equal. apply (comm_L (∪)). }
  exists m2. rewrite Hun. split_and!; [done|done|by rewrite Hd2|by rewrite HS2|]. by rewrite HB2, HB1, Hun.
Qed.

(** [try_find_blocks] returns exactly the references above the garbage
    collection round that are neither in the DAG nor suspended, and registers them
    as blocks to fetch; it changes neither the DAG nor the suspended blocks, and
    keeps the invariant. *)
Theorem BlockManager_try_find_blocks_exact m refs :
  bm_ok c U floor m → (∀ r, r ∈ refs → br_author r ∈ members c) →
  ∃ m' F, BlockManager_try_find_blocks m refs = Ret (m', F) ∧ bm_ok c U floor m' ∧
    (∀ r, r ∈ F ↔ r ∈ refs ∧ sk_gc_round (bm_dag m) < br_round r ∧ sk_block (bm_dag m) r = None ∧
                  bm_suspended_blocks m !! r = None) ∧
    bm_missing_blocks m' = F ∪ bm_missing_blocks m ∧
    bm_dag m' = bm_dag m ∧ bm_suspended_blocks m' = bm_suspended_blocks m.
Proof using.
  intros Hok Hauth. unfold BlockManager_try_find_blocks.
  set (gc := sk_gc_round (bm_dag m)). set (above := filter (λ r, gc < br_round r) refs).
  assert (∀ r, r ∈ above ↔ r ∈ refs ∧ gc < br_round r) as Habove.
  { intros r. unfold above. rewrite list_elem_of_filter. tauto. }
  case_bool_decide as Hnil.
  { exists m, ∅. rewrite union_empty_l_L. split_and!; [done|done| |done..]. intros r. rewrite elem_of_empty.
    specialize (Habove r). rewrite Hnil, elem_of_nil in Habove. tauto. }
  set (sorted := stable_sort _ above).
  assert (∀ r, r ∈ sorted ↔ r ∈ refs ∧ gc < br_round r) as Hsorted.
  { intros r. unfold sorted. by rewrite stable_sort_elem. }
  rewrite (sk_contains_blocks_spec c U) by (by apply Hok || (intros r [? _]%Hsorted; by apply Hauth)).
  cbn [mbind M_bind].
  destruct (find_loop_spec sorted m ∅ Hok) as (m' & -> & Hok' & Hd' & HS' & HB').
  { intros r [Hr Hgc]%Hsorted. split; [by apply Hauth|]. right. pose proof (bo_floor _ _ _ _ Hok). unfold gc in *. lia. }
  rewrite union_empty_r_L. exists m', (unknown m sorted). split_and!; [done|done| |done..].
  intros r. unfold unknown. rewrite elem_of_list_to_set, list_elem_of_filter, Hsorted. tauto.
Qed.

End BlockManagerGc.
