(* ===== verification/BlockManagerDag.v ===== *)
(** * The block manager over the DAG state

    [DagState] provides what the block manager relies on; the guarantees of the
    block manager are instantiated on a DAG of four authorities whose blocks arrive
    out of order. *)

From S2P Require Import Prelude BTree Config Block Commit Store StakeAggregator ThresholdClock.
From S2P Require Import LeaderScoring DagState DagTheory DagRecovery.
From S2P Require Import BlockManager BlockManagerTheory BlockManagerAccept BlockManagerLive BlockManagerGc CommitSamples.
Local Open Scope N_scope.

Section DagSink.
Context `{Profile} `{Crypto} {S : Type} `{StoreLaws S}.
Implicit Types s : DagState S.

(** The DAG state holds blocks of [U] and can accept the others: their fields fit
    their types, and this authority has one block per slot. *)
Record dag_fits (c : Committee) (U : BlockRef → option VerifiedBlock) s : Prop := {
  df_ok : ds_ok s;
  df_committee : DagState_committee s = c;
  df_v3 : pc_enable_v3 (DagState_protocol_config s) = false;
  df_sub : ∀ r b, ds_block s r = Some b → U r = Some b;
  df_valid : ∀ r b, U r = Some b → reference b = r ∧ ref_valid r ∧ br_author r ∈ members c ∧ br_round r < u32_max;
  df_own : ∀ r r' b b', U r = Some b → U r' = Some b' → br_author r = ctx_own_index (ds_context s) →
    Slot_from r = Slot_from r' → r = r';
}.

Lemma dag_fits_accept_block c U s b :
  dag_fits c U s → U (reference b) = Some b → 0 < b_round b →
  ∃ s', DagState_accept_block s b = Ret s' ∧ dag_fits c U s' ∧ DagState_gc_round s' = DagState_gc_round s ∧
    ∀ r, ds_block s' r = if decide (r = reference b ∧ ds_block s r = None) then Some b else ds_block s r.
Proof.
  intros [Hok Hc Hv3 Hsub Hval Hown] HUb Hpos. destruct (Hval _ _ HUb) as (_ & Hrv & Hauth & Hmax).
  assert (block_valid s b) as Hbv by (split; [done|by rewrite Hc]).
  assert (∃ s', DagState_accept_block s b = Ret s') as [s' Hs'].
  { unfold DagState_accept_block. destruct (N.eqb_spec (b_round b) 0); [lia|]. cbn [negb assert_that mbind M_bind].
    rewrite contains_block_spec by (done || by rewrite Hc). cbn [mbind M_bind].
    case_bool_decide as Hd; [by eexists|].
    destruct (index_member s _ _ (eq_refl _) (proj2 Hbv)) as [a Ha%index_Ret]. unfold Committee_authority.
    change (br_author (reference b)) with (b_author b). rewrite Ha. cbn [mbind M_bind].
    destruct (own_slot_check s b Hok) as [[(Ho & _ & b' & Hb' & Hslot) _]|[_ ->]]; cbn [mbind M_bind].
    - exfalso. apply Hd. assert (ds_block s (reference b') = Some b') as Hb2.
      { destruct (ok_cached s Hok _ _ Hb') as (_ & Hp & _). rewrite ds_block_cached. unfold GENESIS_ROUND.
        destruct (N.eqb_spec (br_round (reference b')) 0); [lia|]. by rewrite Hb'. }
      rewrite (Hown (reference b) (reference b') b b' HUb (Hsub _ _ Hb2) Ho (eq_sym Hslot)). by rewrite Hb2.
    - destruct (update_block_metadata_returns s b (v3_off_ready s b Hv3) Hok Hbv Hmax) as [s1 ->]. by eexists. }
  destruct (accept_block_spec s b s' Hok Hbv Hs') as (Hok' & Hctx & Hlc & Hb). exists s'. split; [done|].
  split; [|split; [|done]].
  - split; unfold DagState_committee, DagState_protocol_config in *; try rewrite Hctx; try done.
    intros r x. rewrite Hb. case_decide as Hd; [|apply Hsub]. destruct Hd as [-> _]. congruence.
  - unfold DagState_gc_round, DagState_calculate_gc_round, DagState_protocol_config, DagState_last_commit_round.
    by rewrite Hctx, Hlc.
Qed.

Lemma dag_fits_accept_blocks c U s bs :
  dag_fits c U s → (∀ b, b ∈ bs → U (reference b) = Some b ∧ 0 < b_round b) →
  ∃ s', DagState_accept_blocks s bs = Ret s' ∧ dag_fits c U s' ∧ DagState_gc_round s' = DagState_gc_round s ∧
    ∀ r, ds_block s' r = match ds_block s r with
                         | Some b => Some b
                         | None => if decide (r ∈ reference <$> bs) then U r else None
                         end.
Proof.
  unfold DagState_accept_blocks. revert s. induction bs as [|b bs IH]; intros s Hfit Hbs; cbn [foldM].
  { exists s. split_and!; [done..|]. intros r. rewrite decide_False by apply not_elem_of_nil. by destruct (ds_block s r). }
  destruct (Hbs b) as [HUb Hpos]; [left|].
  destruct (dag_fits_accept_block c U s b Hfit HUb Hpos) as (s1 & -> & Hfit1 & Hgc1 & Hb1). cbn [mbind M_bind].
  destruct (IH s1 Hfit1) as (s2 & -> & Hfit2 & Hgc2 & Hb2); [intros b' Hb'; apply Hbs; by right|].
  exists s2. split_and!; [done|done|by rewrite Hgc2|]. intros r. rewrite Hb2, Hb1. csimpl.
  destruct (ds_block s r) as [x|] eqn:Hx.
  - rewrite decide_False by (intros [_ ?]; congruence). done.
  - destruct (decide (r = reference b)) as [->|Hne].
    + rewrite decide_True by done. by rewrite decide_True by left.
    + rewrite decide_False by tauto.
      by rewrite (decide_ext (r ∈ reference b :: (reference <$> bs)) (r ∈ reference <$> bs)) by (rewrite list.elem_of_cons; tauto).
Qed.

#[export] Instance DagState_block_sink_laws : BlockSinkLaws (DagState S).
Proof.
  refine (Build_BlockSinkLaws _ _ ds_block dag_fits _ _ _ _).
  - intros c U s r b Hf. apply (df_sub _ _ _ Hf).
  - intros c U s r Hf Hr. apply contains_block_spec; [by apply Hf|]. by rewrite (df_committee _ _ _ Hf).
  - intros c U s refs Hf Hr. apply contains_blocks_spec; [by apply Hf|]. by rewrite (df_committee _ _ _ Hf).
  - intros c U s bs Hf Hbs. by apply dag_fits_accept_blocks.
Defined.

End DagSink.

(** ** A manager over an empty DAG *)

Lemma bm_ok_new {D} `{BlockSinkLaws D} c U floor ctx (d : D) :
  ctx_committee ctx = c → sk_fits c U d → floor ≤ sk_gc_round d → history_closed d (sk_gc_round d) →
  bm_ok c U floor (BlockManager_new ctx d).
Proof.
  intros <- Hfit Hfl Hcl. split; simpl; try done.
  - rewrite length_replicate. unfold Committee_size. lia.
  - split; intros *; rewrite ?lookup_empty; try done; try by intros [? ?].
    split; [by intros ?%not_elem_of_empty|]. by intros [[? ?] _].
Qed.

#[local] Existing Instances DagRecovery.witness_profile DagRecovery.witness_crypto.

Definition arriving_blocks : list VerifiedBlock := round_blocks 1 ++ round_blocks 2 ++ round_blocks 3.

(** What is going to be received, with the genesis blocks of the DAG. *)
Definition arriving (s : DagState MemStore) : gmap BlockRef VerifiedBlock :=
  list_to_map ((λ b : VerifiedBlock, (reference b, b)) <$> arriving_blocks) ∪ blocks_of s.

Definition arriving_check (s : DagState MemStore) : Prop :=
  ms_blocks (ds_store s) = ∅ ∧ DagState_gc_round s = 0 ∧
  map_Forall (λ r b, arriving s !! r = Some b ∧ b_ancestors (vb_block b) = []) (blocks_of s) ∧
  map_Forall (λ r b, reference b = r ∧ (br_round r < u32_max ∧ br_author r ≤ u32_max ∧ br_digest r ≤ BlockDigest_MAX) ∧
    br_author r ∈ members sample_committee ∧
    Forall (λ a, (br_round a < br_round r ∧ br_author a ∈ members sample_committee) ∧
                 (br_round a = 0 → is_Some (blocks_of s !! a))) (b_ancestors (vb_block b))) (arriving s) ∧
  map_Forall (λ r _, map_Forall (λ r' _, br_author r = 0 → Slot_from r = Slot_from r' → r = r') (arriving s)) (arriving s) ∧
  Forall (λ b : VerifiedBlock, arriving s !! reference b = Some b ∧ 0 < b_round b) arriving_blocks.
#[local] Instance arriving_check_dec s : base.Decision (arriving_check s).
Proof. unfold arriving_check. apply _. Defined.

Lemma arriving_checks :
  outcome_sat (DagState_new sample_context MemStore_new) (λ s, bool_decide (arriving_check s)) = true.
Proof. vm_compute. reflexivity. Qed.

(** The manager before the first block. *)
Lemma arriving_world :
  ∃ (s : DagState MemStore) (U : BlockRef → option VerifiedBlock),
    let m := BlockManager_new sample_context s in
    DagState_new sample_context MemStore_new = Ret s ∧ universe sample_committee U ∧
    bm_ok sample_committee U 0 m ∧ sk_gc_round s = 0 ∧ genesis_present U s ∧ incoming U arriving_blocks.
Proof.
  destruct (outcome_sat_spec _ _ arriving_checks) as (s & Hs & Hchk%bool_decide_eq_true).
  destruct Hchk as (Hst & Hgc & Hgen & Hval & Hown & Hin).
  destruct sample_dag as (s' & Hs' & Hok & Hctx & _). rewrite Hs in Hs'. injection Hs' as <-.
  pose proof (blocks_of_spec s) as Heq. exists s, (λ r, arriving s !! r). split_and!; [done| | |done| |].
  - split; intros r b; [..|intros a]; intros Hb; destruct (Hval r b Hb) as (? & ? & ? & Hanc); [done..|].
    rewrite Forall_forall in Hanc. intros Ha. by apply (Hanc a Ha).
  - apply bm_ok_new; [done| |apply N.le_0_l|].
    + split; [done|by unfold DagState_committee; rewrite Hctx|by unfold DagState_protocol_config; rewrite Hctx| | |].
      * intros r b Hb. rewrite Heq in Hb by done. by apply (Hgen r b Hb).
      * intros r b Hb. destruct (Hval r b Hb) as (? & (? & ? & ?) & ? & _). split_and!; [done| |done..]. split_and!; [lia|done..].
      * intros r r' b b' Hb Hb' Ho. apply (Hown r b Hb r' b' Hb'). by rewrite Hctx in Ho.
    + intros r b a Hb Ha. change (ds_block s r = Some b) in Hb. rewrite Heq in Hb by done.
      destruct (Hgen r b Hb) as [_ Hnil]. rewrite Hnil in Ha. by apply not_elem_of_nil in Ha.
  - intros r b a Hb Ha Hz. destruct (Hval r b Hb) as (_ & _ & _ & Hanc). rewrite Forall_forall in Hanc.
    change (is_Some (ds_block s a)). rewrite Heq by done. by apply (Hanc a Ha).
  - intros b Hb. rewrite Forall_forall in Hin. by apply Hin.
Qed.

Lemma reversed_arrival b :
  b ∈ concat [round_blocks 3; round_blocks 2; round_blocks 1] ↔ b ∈ arriving_blocks.
Proof. unfold arriving_blocks. cbn [concat]. rewrite !elem_of_app, elem_of_nil. tauto. Qed.

Lemma arriving_links :
  Forall (λ b : VerifiedBlock, Forall (λ a, 0 < br_round a → a ∈ reference <$> arriving_blocks) (b_ancestors b))
    arriving_blocks.
Proof. by_eval. Qed.

Lemma arriving_parents U (s : DagState MemStore) r b a :
  genesis_present U s → incoming U arriving_blocks → r ∈ reference <$> arriving_blocks → U r = Some b →
  a ∈ b_ancestors b → sk_gc_round s < br_round a → a ∈ reference <$> arriving_blocks.
Proof.
  intros Hgen Hin (b' & -> & Hb')%list_elem_of_fmap HUb Ha Hlt. destruct (Hin b' Hb') as [HUb' _].
  rewrite HUb in HUb'. simplify_eq. pose proof arriving_links as Hall. rewrite Forall_forall in Hall.
  specialize (Hall _ Hb'). rewrite Forall_forall in Hall. apply Hall; [done|lia].
Qed.

Lemma arriving_history U (s : DagState MemStore) :
  genesis_present U s → incoming U arriving_blocks → with_history s arriving_blocks.
Proof.
  intros Hgen Hin b a Hb Ha Hlt. right. apply elem_of_list_to_set. destruct (Hin b Hb) as [HUb _].
  apply (arriving_parents U s (reference b) b); try done. by apply list_elem_of_fmap_2.
Qed.

Lemma arriving_received r :
  r ∈ reference <$> arriving_blocks →
  0 < br_round r ∧ r ∈ reference <$> concat [round_blocks 3; round_blocks 2; round_blocks 1].
Proof.
  intros Hr. assert (Forall (λ r, 0 < br_round r) (reference <$> arriving_blocks)) as Hall by by_eval.
  rewrite Forall_forall in Hall. split; [by apply Hall|]. apply list_elem_of_fmap in Hr as (b & -> & Hb).
  apply list_elem_of_fmap_2. by apply reversed_arrival.
Qed.

(** ** Instances of the guarantees *)

Lemma BlockManager_try_accept_blocks_causal_witness :
  ∃ (s : DagState MemStore) U m' L F, DagState_new sample_context MemStore_new = Ret s ∧
    BlockManager_try_accept_blocks (BlockManager_new sample_context s) arriving_blocks = Ret (m', L, F) ∧
    bm_ok sample_committee U 0 m'.
Proof.
  destruct arriving_world as (s & U & Hs & HU & Hok & Hgc & Hgen & Hin).
  destruct (BlockManager_try_accept_blocks_causal sample_committee U 0 HU _ arriving_blocks Hok Hin)
    as (m' & L & F & Hrun & Hok' & _).
  exists s, U, m', L, F. split; [exact Hs|]. split; [exact Hrun|exact Hok'].
Defined.

Lemma BlockManager_try_accept_committed_blocks_accepts_witness :
  ∃ (s : DagState MemStore) m' L, DagState_new sample_context MemStore_new = Ret s ∧
    BlockManager_try_accept_committed_blocks (BlockManager_new sample_context s) arriving_blocks = Ret (m', L) ∧
    is_Some (ds_block (bm_dag m') (dag_ref 3 2)).
Proof.
  destruct arriving_world as (s & U & Hs & HU & Hok & Hgc & Hgen & Hin).
  destruct (BlockManager_try_accept_committed_blocks_accepts sample_committee U 0 HU _ arriving_blocks Hok Hin
    (arriving_history U s Hgen Hin)) as (m' & L & Hrun & _ & _ & _ & Hacc & _).
  exists s, m', L. split; [exact Hs|]. split; [exact Hrun|].
  apply (Hacc (dag_block 3 2) ltac:(by_eval)).
Defined.

Lemma BlockManager_accepts_complete_histories_witness :
  ∃ (s : DagState MemStore) m', DagState_new sample_context MemStore_new = Ret s ∧
    receive_all (BlockManager_new sample_context s) [round_blocks 3; round_blocks 2; round_blocks 1] = Ret m' ∧
    is_Some (ds_block (bm_dag m') (dag_ref 3 2)).
Proof.
  destruct arriving_world as (s & U & Hs & HU & Hok & Hgc & Hgen & Hin). rewrite <- Hgc in Hok.
  destruct (BlockManager_accepts_complete_histories sample_committee U HU (BlockManager_new sample_context s)
    [round_blocks 3; round_blocks 2; round_blocks 1] Hok Hgen ltac:(intros b Hb; apply Hin, reversed_arrival, Hb))
    as (m' & Hrun & _ & _ & Hlive).
  exists s, m'. split; [exact Hs|]. split; [exact Hrun|].
  apply (Hlive (λ r, r ∈ reference <$> arriving_blocks)).
  - intros r b a Hr HUr Ha Hlt. left. exact (arriving_parents U s r b a Hgen Hin Hr HUr Ha Hlt).
  - intros r Hr. cbn [BlockManager_new bm_dag]. rewrite Hgc. destruct (arriving_received r Hr) as [Hpos Hrec]. split; [exact Hpos|left; exact Hrec].
  - by_eval.
Defined.

Lemma BlockManager_order_independent_witness :
  ∃ (s : DagState MemStore) m1 m2, DagState_new sample_context MemStore_new = Ret s ∧
    receive_all (BlockManager_new sample_context s) [round_blocks 3; round_blocks 2; round_blocks 1] = Ret m1 ∧
    receive_all (BlockManager_new sample_context s) [arriving_blocks] = Ret m2 ∧
    ∀ r, ds_block (bm_dag m1) r = ds_block (bm_dag m2) r.
Proof.
  destruct arriving_world as (s & U & Hs & HU & Hok & Hgc & Hgen & Hin). rewrite <- Hgc in Hok.
  destruct (BlockManager_order_independent sample_committee U HU (BlockManager_new sample_context s)
    [round_blocks 3; round_blocks 2; round_blocks 1] [arriving_blocks] Hok Hgen
    ltac:(intros b Hb; apply Hin, reversed_arrival, Hb)
    ltac:(intros b Hb; cbn [BlockManager_new bm_dag]; rewrite Hgc; apply Hin, reversed_arrival, Hb)
    ltac:(intros b; rewrite reversed_arrival; cbn [concat]; by rewrite app_nil_r)) as (m1 & m2 & H1 & H2 & Hd & _).
  exists s, m1, m2. split; [exact Hs|]. split; [exact H1|]. split; [exact H2|exact Hd].
Defined.


(** ** The order of the accepted blocks *)

(** Two branches over one block: [a2 - a3] and [b3 - b4]. *)
Definition branch_root : VerifiedBlock := sample_block 1 0 100 (dag_ref 0 <$> [0; 1; 2]).
Definition branch_blocks : list VerifiedBlock :=
  let a2 := sample_block 2 0 200 [reference branch_root] in
  let b3 := sample_block 3 1 301 [reference branch_root] in
  [a2; b3; sample_block 3 0 300 [reference a2]; sample_block 4 1 401 [reference b3]].

Definition rounds_of (bs : list VerifiedBlock) : list Round := (λ b : VerifiedBlock, b_round b) <$> bs.

(** The rounds of the blocks accepted when [branch_root] arrives last. *)
Definition branch_rounds : M (list Round) :=
  s ← DagState_new sample_context MemStore_new;
  m ← receive_all (BlockManager_new sample_context s) [branch_blocks];
  '(_, accepted, _) ← BlockManager_try_accept_blocks m [branch_root];
  Ret (rounds_of accepted).

(** the blocks returned by [try_accept_blocks] come in causal order but not, as
    its documentation says, in ascending order of their rounds: when the block that
    two branches wait for arrives, the branches are returned one after the other. *)
Theorem BlockManager_accepted_not_by_round : branch_rounds = Ret [1; 2; 3; 4; 3].
Proof. vm_compute. reflexivity. Qed.
