(* ===== verification/TransactionPool.v ===== *)
(** * Transactions waiting for a block (consensus/core/src/transaction.rs)

    [TransactionClient] checks submitted bundles of transactions and sends them over one of two bounded channels,
    [TransactionConsumer] takes bundles from the channels for the next proposed block, tells the submitters in which
    block their transactions are, and later whether the block was sequenced or garbage collected.

    A channel is the list of the bundles in it.  A oneshot channel is a number, the position of the submission that
    created it; the status channel that comes with an acknowledgement has the number of the channel that the
    acknowledgement was sent on.  [tc_sent] records what was sent over oneshot channels, in order.  A submission that finds its
    channel full waits, which is the absence of a step. *)

From S2P Require Import Prelude BTree Config Block.
Local Open Scope N_scope.

Definition MAX_PENDING_TRANSACTIONS : nat := 2000.
Definition MAX_PENDING_PRIORITY_TRANSACTIONS : nat := 128.
Definition PING_TRANSACTION_INDEX : TransactionIndex := 2 ^ 16 - 1.

Inductive Priority : Type := Normal | High.

Inductive BlockStatus : Type :=
| Sequenced (block_ref : BlockRef)
| GarbageCollected (block_ref : BlockRef).

Inductive LimitReached : Type := MaxNumOfTransactions | MaxBytes | AllTransactionsIncluded.

Definition oneshot : Type := N.

Record TransactionsGuard : Type := mkTransactionsGuard {
  tg_transactions : list Transaction;
  tg_included_in_block_ack : oneshot;
}.

(** What is sent over oneshot channels. *)
Inductive message : Type :=
| AckSent (ack : oneshot) (block_ref : BlockRef) (indices : list TransactionIndex)
| StatusSent (status_tx : oneshot) (status : BlockStatus).

Record TransactionConsumer : Type := mkTransactionConsumer {
  tc_tx_receiver : list TransactionsGuard;
  tc_priority_tx_receiver : list TransactionsGuard;
  tc_max_transactions_in_block_bytes : N;
  tc_max_num_transactions_in_block : N;
  tc_pending_transactions : option TransactionsGuard;
  tc_block_status_subscribers : gmap BlockRef (list oneshot);
  tc_sent : list message;
}.

Section Consumer.
Context `{Profile}.
Implicit Types t : TransactionConsumer.

Definition TransactionConsumer_new (tx_receiver priority_tx_receiver : list TransactionsGuard) (ctx : Context)
    : M TransactionConsumer :=
  let max_num := pc_max_num_transactions_in_block (ctx_protocol_config ctx) in
  assert_that (max_num - 1 <? 2 ^ 16 - 1 - NUM_RESERVED_TRANSACTION_INDICES) "Unsupported max_num_transactions_in_block";;
  Ret (mkTransactionConsumer tx_receiver priority_tx_receiver
         (pc_max_transactions_in_block_bytes (ctx_protocol_config ctx)) max_num None ∅ []).

(** The variables that the closure [handle_txs] of [next] updates. *)
Record next_state : Type := mkNextState {
  ns_transactions : list Transaction;
  ns_acks : list (oneshot * list TransactionIndex);
  ns_total_bytes : N;
  ns_limit_reached : LimitReached;
}.

Definition set_limit_reached (l : LimitReached) (n : next_state) : next_state :=
  mkNextState (ns_transactions n) (ns_acks n) (ns_total_bytes n) l.

Definition tx_len (tx : Transaction) : N := N.of_nat (length (tx_data tx)).

(** [(lo..hi).collect()] of transaction indices. *)
Definition index_range (lo hi : TransactionIndex) : list TransactionIndex :=
  (λ k, lo + N.of_nat k) <$> seq 0 (N.to_nat (hi - lo)).

Definition handle_txs (max_bytes max_num : N) (n : next_state) (t : TransactionsGuard)
    : M (next_state * option TransactionsGuard) :=
  let transactions_num := N.of_nat (length (tg_transactions t)) in
  if transactions_num =? 0 then
    Ret (mkNextState (ns_transactions n) (ns_acks n ++ [(tg_included_in_block_ack t, [PING_TRANSACTION_INDEX])])
           (ns_total_bytes n) (ns_limit_reached n), None)
  else
    transactions_bytes ← u64_sum (tx_len <$> tg_transactions t);
    new_bytes ← u64_add (ns_total_bytes n) transactions_bytes;
    if max_bytes <? new_bytes then Ret (set_limit_reached MaxBytes n, Some t)
    else
      new_num ← u64_add (N.of_nat (length (ns_transactions n))) transactions_num;
      if max_num <? new_num then Ret (set_limit_reached MaxNumOfTransactions n, Some t)
      else
        let start_idx := N.of_nat (length (ns_transactions n)) mod 2 ^ 16 in
        end_idx ← int_add 16 start_idx (transactions_num mod 2 ^ 16);
        Ret (mkNextState (ns_transactions n ++ tg_transactions t)
               (ns_acks n ++ [(tg_included_in_block_ack t, index_range start_idx end_idx)])
               new_bytes (ns_limit_reached n), None).

(** The loop that pulls from one receiver until a bundle has to wait for the next block. *)
Fixpoint pull_loop (max_bytes max_num : N) (n : next_state) (pending : option TransactionsGuard)
    (receiver : list TransactionsGuard) : M (next_state * option TransactionsGuard * list TransactionsGuard) :=
  match pending, receiver with
  | None, t :: receiver =>
      '(n, pending) ← handle_txs max_bytes max_num n t;
      pull_loop max_bytes max_num n pending receiver
  | _, _ => Ret (n, pending, receiver)
  end.

(** The callback that [next] returns holds the acknowledgements [ns_acks]. *)
Definition TransactionConsumer_next t
    : M (TransactionConsumer * list Transaction * list (oneshot * list TransactionIndex) * LimitReached) :=
  let handle := handle_txs (tc_max_transactions_in_block_bytes t) (tc_max_num_transactions_in_block t) in
  let pull := pull_loop (tc_max_transactions_in_block_bytes t) (tc_max_num_transactions_in_block t) in
  let n := mkNextState [] [] 0 AllTransactionsIncluded in
  n ← match tc_pending_transactions t with
      | None => Ret n
      | Some pending =>
          '(n, dropped) ← handle n pending;
          match dropped with
          | Some _ =>
              if overflow_checks
              then Panic (Explicit "Previously pending transaction(s) should fit into an empty block! Dropping")
              else Ret n
          | None => Ret n
          end
      end;
  '(n, pending, priority_tx_receiver) ← pull n None (tc_priority_tx_receiver t);
  '(n, pending, tx_receiver) ← pull n pending (tc_tx_receiver t);
  Ret (mkTransactionConsumer tx_receiver priority_tx_receiver (tc_max_transactions_in_block_bytes t)
         (tc_max_num_transactions_in_block t) pending (tc_block_status_subscribers t) (tc_sent t),
       ns_transactions n, ns_acks n, ns_limit_reached n).

Definition set_subscribers (subscribers : gmap BlockRef (list oneshot)) (sent : list message) t : TransactionConsumer :=
  mkTransactionConsumer (tc_tx_receiver t) (tc_priority_tx_receiver t) (tc_max_transactions_in_block_bytes t)
    (tc_max_num_transactions_in_block t) (tc_pending_transactions t) subscribers (tc_sent t ++ sent).

(** The body of the callback for one acknowledgement. *)
Definition send_ack (block_ref : BlockRef) t (e : oneshot * list TransactionIndex) : TransactionConsumer :=
  set_subscribers (partial_alter (λ l, Some (default [] l ++ [e.1])) block_ref (tc_block_status_subscribers t))
    [AckSent e.1 block_ref e.2] t.

Definition ack_transactions t (acks : list (oneshot * list TransactionIndex)) (block_ref : BlockRef) : TransactionConsumer :=
  foldl (send_ack block_ref) t acks.

Definition notify_sequenced t (block_ref : BlockRef) : TransactionConsumer :=
  match tc_block_status_subscribers t !! block_ref with
  | Some subscribers =>
      set_subscribers (delete block_ref (tc_block_status_subscribers t))
        ((λ s, StatusSent s (Sequenced block_ref)) <$> subscribers) t
  | None => t
  end.

Fixpoint notify_collected (fuel : nat) (gc_round : Round) t : M TransactionConsumer :=
  match fuel with
  | O => NoFuel
  | S fuel =>
      match bmap_first (tc_block_status_subscribers t) with
      | Some (block_ref, subscribers) =>
          if br_round block_ref <=? gc_round then
            notify_collected fuel gc_round
              (set_subscribers (delete block_ref (tc_block_status_subscribers t))
                 ((λ s, StatusSent s (GarbageCollected block_ref)) <$> subscribers) t)
          else Ret t
      | None => Ret t
      end
  end.

Definition TransactionConsumer_notify_own_blocks_status t (committed_blocks : list BlockRef) (gc_round : Round)
    : M TransactionConsumer :=
  let t := foldl notify_sequenced t committed_blocks in
  notify_collected (S (size (tc_block_status_subscribers t))) gc_round t.

End Consumer.

(** ** The interface to the proposer *)

(** The trait [TransactionPool]; [pool_acks] is what the callback returned by [take] holds and
    [pool_ack] is its invocation. *)
Class TransactionPool (P : Type) : Type := {
  pool_acks : Type;
  pool_take : P → N → N → M (P * list Transaction * pool_acks * LimitReached);
  pool_ack : P → pool_acks → BlockRef → P;
  pool_notify_committed : P → list BlockRef → Round → M P;
}.

(** [TransactionConsumerPool]. *)
#[export] Instance TransactionConsumerPool `{Profile} : TransactionPool TransactionConsumer := {
  pool_acks := list (oneshot * list TransactionIndex);
  pool_take := λ t _ _, TransactionConsumer_next t;
  pool_ack := ack_transactions;
  pool_notify_committed := TransactionConsumer_notify_own_blocks_status;
}.

(** ** The client *)

(** [ConsensusShuttingDown] is the error of a send after the consumer is gone, which no step below is. *)
Inductive ClientError : Type :=
| ConsensusShuttingDown (why : string)
| OversizedTransaction (size limit : N)
| OversizedTransactionBundleBytes (size limit : N)
| OversizedTransactionBundleCount (count limit : N).

Record TransactionClient : Type := mkTransactionClient {
  cl_max_transaction_size : N;
  cl_max_transactions_in_block_bytes : N;
  cl_max_transactions_in_block_count : N;
}.

Definition TransactionClient_new (ctx : Context) : TransactionClient :=
  mkTransactionClient (pc_max_transaction_size_bytes (ctx_protocol_config ctx))
    (pc_max_transactions_in_block_bytes (ctx_protocol_config ctx))
    (pc_max_num_transactions_in_block (ctx_protocol_config ctx)).

Section Client.
Context `{Profile}.
Implicit Types c : TransactionClient.

(** The loop over the transactions of a bundle: its error, if any. *)
Fixpoint check_bundle c (bundle_size : N) (transactions : list bytes) : M (option ClientError) :=
  match transactions with
  | [] => Ret None
  | transaction :: transactions =>
      let size := N.of_nat (length transaction) in
      if cl_max_transaction_size c <? size then Ret (Some (OversizedTransaction size (cl_max_transaction_size c)))
      else
        bundle_size ← u64_add bundle_size size;
        if cl_max_transactions_in_block_bytes c <? bundle_size
        then Ret (Some (OversizedTransactionBundleBytes bundle_size (cl_max_transactions_in_block_bytes c)))
        else check_bundle c bundle_size transactions
  end.

Definition check_submission c (transactions : list bytes) : M (option ClientError) :=
  let count := N.of_nat (length transactions) in
  if cl_max_transactions_in_block_count c <? count
  then Ret (Some (OversizedTransactionBundleCount count (cl_max_transactions_in_block_count c)))
  else check_bundle c 0 transactions.

Definition send_lane (priority : Priority) (t : TransactionConsumer) (guard : TransactionsGuard) : option TransactionConsumer :=
  match priority with
  | High =>
      if (length (tc_priority_tx_receiver t) <? MAX_PENDING_PRIORITY_TRANSACTIONS)%nat
      then Some (mkTransactionConsumer (tc_tx_receiver t) (tc_priority_tx_receiver t ++ [guard])
                   (tc_max_transactions_in_block_bytes t) (tc_max_num_transactions_in_block t)
                   (tc_pending_transactions t) (tc_block_status_subscribers t) (tc_sent t))
      else None
  | Normal =>
      if (length (tc_tx_receiver t) <? MAX_PENDING_TRANSACTIONS)%nat
      then Some (mkTransactionConsumer (tc_tx_receiver t ++ [guard]) (tc_priority_tx_receiver t)
                   (tc_max_transactions_in_block_bytes t) (tc_max_num_transactions_in_block t)
                   (tc_pending_transactions t) (tc_block_status_subscribers t) (tc_sent t))
      else None
  end.

(** The error, or the consumer after the bundle was sent ([None] while the channel is full). *)
Definition TransactionClient_submit_no_wait c t (transactions : list bytes) (priority : Priority) (ack : oneshot)
    : M (ClientError + option TransactionConsumer) :=
  error ← check_submission c transactions;
  match error with
  | Some e => Ret (inl e)
  | None => Ret (inr (send_lane priority t (mkTransactionsGuard (mkTransaction <$> transactions) ack)))
  end.

End Client.
