(* ===== verification/TransactionPoolTheory.v ===== *)
(** * The pool of transactions: every accepted submission is answered exactly once

    A run is a sequence of submissions, proposals and notifications of commits.  The history of a run is kept beside the consumer: the
    accepted submissions with their lanes, the transactions of the proposed blocks, and the notifications. *)

From S2P Require Import Prelude BTree Config Block TransactionPool.
Local Open Scope N_scope.

Definition waiting (t : TransactionConsumer) : list TransactionsGuard :=
  option_list (tc_pending_transactions t) ++ tc_priority_tx_receiver t ++ tc_tx_receiver t.

Definition bytes_of (txs : list Transaction) : N := sumN (tx_len <$> txs).

(** [idxs] are the positions of the transactions [tx] of a submission in a block of transactions [txs]. *)
Definition places (txs tx : list Transaction) (idxs : list TransactionIndex) : Prop :=
  if decide (tx = []) then idxs = [PING_TRANSACTION_INDEX]
  else Forall2 (λ i x, txs !! N.to_nat i = Some x) idxs tx.

Lemma places_app txs more tx idxs : places txs tx idxs → places (txs ++ more) tx idxs.
Proof.
  unfold places. destruct (decide (tx = [])); [done|]. intros Hp. eapply Forall2_impl; [exact Hp|]. intros i x Hx. by apply lookup_app_l_Some.
Qed.

Lemma places_new txs tx :
  N.of_nat (length txs) + N.of_nat (length tx) < 2 ^ 16 → tx ≠ [] →
  places (txs ++ tx) tx (index_range (N.of_nat (length txs)) (N.of_nat (length txs) + N.of_nat (length tx))).
Proof.
  intros Hlt Hne. unfold places, index_range. rewrite decide_False by done. apply Forall2_fmap_l.
  replace (N.to_nat _) with (length tx) by lia. apply Forall2_same_length_lookup_2; [by rewrite length_seq|].
  intros k a x [-> _]%lookup_seq Hx. cbn. rewrite lookup_app_r by lia. rewrite <- Hx. f_equal. lia.
Qed.

Lemma bytes_of_app l k : bytes_of (l ++ k) = bytes_of l + bytes_of k.
Proof. unfold bytes_of. by rewrite fmap_app, sumN_app. Qed.

Section Next.
Context `{Profile} (max_bytes max_num : N).
Context (Hbytes : max_bytes < 2 ^ 63) (Hnum : max_num ≤ 2 ^ 16 - 1 - NUM_RESERVED_TRANSACTION_INDICES).

Definition fits (g : TransactionsGuard) : Prop :=
  N.of_nat (length (tg_transactions g)) ≤ max_num ∧ bytes_of (tg_transactions g) ≤ max_bytes.

Definition overflows (txs : list Transaction) (g : TransactionsGuard) : Prop :=
  max_bytes < bytes_of txs + bytes_of (tg_transactions g) ∨
  max_num < N.of_nat (length txs) + N.of_nat (length (tg_transactions g)).

(** The bundles [gs] have been taken, in this order. *)
Record consumed (n : next_state) (gs : list TransactionsGuard) : Prop := {
  cn_transactions : ns_transactions n = gs ≫= tg_transactions;
  cn_acks : Forall2 (λ g e, e.1 = tg_included_in_block_ack g ∧ places (ns_transactions n) (tg_transactions g) e.2) gs (ns_acks n);
  cn_bytes : ns_total_bytes n = bytes_of (ns_transactions n) ∧ ns_total_bytes n ≤ max_bytes;
  cn_num : N.of_nat (length (ns_transactions n)) ≤ max_num;
}.

Lemma handle_txs_spec n gs g :
  consumed n gs → fits g →
  ∃ n' o, handle_txs max_bytes max_num n g = Ret (n', o) ∧
    (o = None ∧ consumed n' (gs ++ [g]) ∨ o = Some g ∧ consumed n' gs ∧ ns_transactions n' = ns_transactions n ∧ overflows (ns_transactions n) g).
Proof using Hbytes Hnum.
  intros [Et Ha [Eb Hb] Hn] [Hgn Hgb]. unfold handle_txs. unfold NUM_RESERVED_TRANSACTION_INDICES in Hnum.
  destruct (N.of_nat (length (tg_transactions g)) =? 0) eqn:E0; nbool.
  { assert (tg_transactions g = []) as Eg by (apply nil_length_inv; lia). eexists _, _. split; [done|]. left. split; [done|]. split; [|cbn|done..].
    { cbn. by rewrite bind_app, <- Et, bind_singleton, Eg, app_nil_r. }
    apply Forall2_app; [done|]. constructor; [|done]. split; [done|]. unfold places. by rewrite decide_True. }
  rewrite int_sum_exact by (unfold bytes_of in Hgb; lia). fold (bytes_of (tg_transactions g)). cbn [mbind M_bind]. rewrite (int_add_exact 64 (ns_total_bytes n)) by lia. cbn [mbind M_bind].
  case_match eqn:E1; nbool.
  { eexists _, _. split; [done|]. right. split; [done|]. split; [by split|]. split; [done|]. left. lia. }
  rewrite (int_add_exact 64) by lia. cbn [mbind M_bind]. case_match eqn:E2; nbool.
  { eexists _, _. split; [done|]. right. split; [done|]. split; [by split|]. split; [done|]. right. lia. }
  rewrite !N.mod_small by lia. rewrite (int_add_exact 16) by lia. cbn [mbind M_bind]. eexists _, _. split; [done|]. left. split; [done|]. split; cbn [ns_acks ns_transactions ns_total_bytes].
  - by rewrite bind_app, <- Et, bind_singleton.
  - apply Forall2_app.
    + eapply Forall2_impl; [exact Ha|]. intros g' e [He Hp]. split; [done|]. by apply places_app.
    + constructor; [|done]. split; [done|]. apply places_new; [lia|]. intros Eg. by rewrite Eg in E0.
  - rewrite bytes_of_app. lia.
  - rewrite length_app. lia.
Qed.

Lemma pull_loop_spec n gs pending receiver :
  consumed n gs → Forall fits receiver → (∀ g, pending = Some g → overflows (ns_transactions n) g) →
  ∃ n' pending' receiver' taken, pull_loop max_bytes max_num n pending receiver = Ret (n', pending', receiver') ∧
    consumed n' (gs ++ taken) ∧ option_list pending ++ receiver = taken ++ option_list pending' ++ receiver' ∧
    (pending' = None → receiver' = []) ∧ (is_Some pending → taken = [] ∧ pending' = pending) ∧
    (∀ g, pending' = Some g → overflows (ns_transactions n') g).
Proof using Hbytes Hnum.
  intros Hc Hfit. revert n gs pending Hc. induction Hfit as [|g receiver Hg _ IH]; intros n gs pending Hc Hp.
  { exists n, pending, [], []. rewrite app_nil_r. destruct pending; repeat (split; [done|]); done. }
  destruct pending as [g'|].
  { exists n, (Some g'), (g :: receiver), []. rewrite app_nil_r. repeat (split; [done|]); done. }
  cbn [pull_loop option_list app]. destruct (handle_txs_spec n gs g Hc Hg) as (n1 & o & -> & Ho). cbn [mbind M_bind].
  destruct Ho as [[-> Hc1]|(-> & Hc1 & Etx & Hov)].
  - destruct (IH n1 (gs ++ [g]) None Hc1) as (n2 & p2 & r2 & taken & -> & Hc2 & Heq & Hemp & _ & Hov); [done|].
    exists n2, p2, r2, (g :: taken). rewrite cons_middle, (assoc_L (++)). split; [done|]. split; [done|]. split; [cbn in *; by rewrite Heq|].
    split; [done|]. split; [by intros []|done].
  - destruct (IH n1 gs (Some g) Hc1) as (n2 & p2 & r2 & taken & -> & Hc2 & Heq & Hemp & Hpend & Hov2); [rewrite Etx; by intros ? [= <-]|].
    exists n2, p2, r2, taken. split; [done|]. split; [done|]. split; [exact Heq|]. split; [done|]. split; [by intros []|done].
Qed.

Lemma next_spec t :
  tc_max_transactions_in_block_bytes t = max_bytes → tc_max_num_transactions_in_block t = max_num → Forall fits (waiting t) →
  ∃ t' n taken, TransactionConsumer_next t = Ret (t', ns_transactions n, ns_acks n, ns_limit_reached n) ∧
    consumed n taken ∧ waiting t = taken ++ waiting t' ∧
    t' = mkTransactionConsumer (tc_tx_receiver t') (tc_priority_tx_receiver t') max_bytes max_num (tc_pending_transactions t')
           (tc_block_status_subscribers t) (tc_sent t) ∧
    tc_priority_tx_receiver t' `suffix_of` tc_priority_tx_receiver t ∧ tc_tx_receiver t' `suffix_of` tc_tx_receiver t ∧
    (∀ g, head (waiting t') = Some g → overflows (ns_transactions n) g).
Proof using Hbytes Hnum.
  intros Eb En Hfit. unfold TransactionConsumer_next, waiting in *. rewrite Eb, En. apply Forall_app in Hfit as [Hp [Hpr Hno]%Forall_app].
  set (n0 := mkNextState [] [] 0 AllTransactionsIncluded). assert (consumed n0 []) as H0 by (split; [done|constructor|split; [done|cbn; lia]|cbn; lia]).
  assert (∃ n1, consumed n1 (option_list (tc_pending_transactions t)) ∧
    match tc_pending_transactions t with
    | None => Ret n0
    | Some pending => '(n, dropped) ← handle_txs max_bytes max_num n0 pending;
        match dropped with Some _ => if overflow_checks then Panic (Explicit "Previously pending transaction(s) should fit into an empty block! Dropping") else Ret n | None => Ret n end
    end = Ret n1) as (n1 & Hc1 & ->).
  { destruct (tc_pending_transactions t) as [g|]; [|by exists n0]. apply Forall_cons in Hp as [Hp _].
    destruct (handle_txs_spec n0 [] g H0 Hp) as (n' & o & Hh & Ho). destruct Ho as [[-> Hc]|(_ & _ & _ & Hov)]; [by exists n'; rewrite Hh|].
    exfalso. destruct Hp as [Hp1 Hp2], Hov as [Hov|Hov]; cbn in Hov; lia. }
  cbn [mbind M_bind]. destruct (pull_loop_spec n1 _ None _ Hc1 Hpr) as (n2 & p2 & pr2 & tk2 & -> & Hc2 & Heq2 & Hemp2 & _ & Hov2); [done|].
  cbn [mbind M_bind]. destruct (pull_loop_spec n2 _ p2 _ Hc2 Hno Hov2) as (n3 & p3 & no3 & tk3 & -> & Hc3 & Heq3 & Hemp3 & Hpend3 & Hov3).
  cbn [mbind M_bind]. eexists _, n3, (option_list (tc_pending_transactions t) ++ tk2 ++ tk3). split; [done|]. cbn. cbn in Heq2.
  split; [by rewrite (assoc_L (++))|]. destruct p2 as [g|].
  - destruct (Hpend3 ltac:(by eexists)) as [-> ->]. cbn in Heq3. rewrite Heq2. injection Heq3 as <-. cbn.
    split; [by rewrite app_nil_r, <- !(assoc_L (++))|]. split; [done|]. split; [by exists (tk2 ++ [g]); rewrite <- (assoc_L (++))|]. split; [done|].
    intros g' [= <-]. by apply Hov3.
  - rewrite (Hemp2 eq_refl) in *. rewrite Heq2. cbn in Heq3 |- *. rewrite Heq3, !app_nil_r, <- !(assoc_L (++)).
    split; [done|]. split; [done|]. split; [apply suffix_nil|]. split; [by exists (tk3 ++ option_list p3); rewrite (assoc_L (++))|].
    intros g'. destruct p3 as [g3|]; [|by rewrite (Hemp3 eq_refl)]. intros [= <-]. by apply Hov3.
Qed.
End Next.

(** ** Acknowledgements and statuses *)

Definition status_block (s : BlockStatus) : BlockRef :=
  match s with Sequenced r | GarbageCollected r => r end.

Definition acks_of (sent : list message) : list (oneshot * BlockRef) :=
  omap (λ m, match m with AckSent a r _ => Some (a, r) | StatusSent _ _ => None end) sent.
Definition statuses_of (sent : list message) : list (oneshot * BlockRef) :=
  omap (λ m, match m with StatusSent a s => Some (a, status_block s) | AckSent _ _ _ => None end) sent.

Definition subscribed (m : gmap BlockRef (list oneshot)) : list (oneshot * BlockRef) :=
  map_to_list m ≫= λ e, (λ a, (a, e.1)) <$> e.2.

(** Every acknowledged submission either has its status, once, or is subscribed for it. *)
Definition ledger (t : TransactionConsumer) : Prop :=
  acks_of (tc_sent t) ≡ₚ statuses_of (tc_sent t) ++ subscribed (tc_block_status_subscribers t).

Lemma omap_app {A B} (f : A → option B) l k : omap f (l ++ k) = omap f l ++ omap f k.
Proof. induction l as [|x l IH]; csimpl; [done|]. rewrite IH. by destruct (f x). Qed.

Lemma subscribed_insert m r l : m !! r = None → subscribed (<[r := l]> m) ≡ₚ ((λ a, (a, r)) <$> l) ++ subscribed m.
Proof. intros Hr. unfold subscribed. by rewrite map_to_list_insert. Qed.

Lemma subscribed_delete m r l : m !! r = Some l → subscribed m ≡ₚ ((λ a, (a, r)) <$> l) ++ subscribed (delete r m).
Proof. intros Hr. rewrite <- subscribed_insert by apply lookup_delete_eq. by rewrite insert_delete_eq, insert_id. Qed.

Lemma subscribed_push m r a :
  subscribed (partial_alter (λ l, Some (default [] l ++ [a])) r m) ≡ₚ (a, r) :: subscribed m.
Proof.
  destruct (m !! r) as [l|] eqn:Hr.
  - rewrite (subscribed_delete m r l Hr), (subscribed_delete _ r (l ++ [a])) by (by rewrite lookup_partial_alter_eq, Hr).
    rewrite delete_partial_alter_eq, fmap_app, <- (assoc_L (++)). cbn [fmap list_fmap app]. by rewrite <- Permutation_middle.
  - rewrite (subscribed_delete _ r [a]) by (by rewrite lookup_partial_alter_eq, Hr). rewrite delete_partial_alter_eq. cbn. by rewrite delete_id.
Qed.

Lemma statuses_acks l f : acks_of ((λ s, StatusSent s f) <$> l) = [].
Proof. induction l; csimpl; done. Qed.
Lemma statuses_statuses l f : statuses_of ((λ s, StatusSent s f) <$> l) = (λ a, (a, status_block f)) <$> l.
Proof. induction l as [|a l IH]; csimpl; [done|]. by rewrite <- IH. Qed.

Lemma send_ack_ledger r t e : ledger t → ledger (send_ack r t e).
Proof.
  unfold ledger, send_ack, acks_of, statuses_of. cbn [tc_sent tc_block_status_subscribers set_subscribers]. rewrite !omap_app.
  cbn. intros Hl. by rewrite subscribed_push, Hl, app_nil_r, <- !Permutation_middle, app_nil_r.
Qed.

(** Sending a status to all subscribers of a block. *)
Definition resolve (t : TransactionConsumer) (l : list oneshot) (s : BlockStatus) : TransactionConsumer :=
  set_subscribers (delete (status_block s) (tc_block_status_subscribers t)) ((λ a, StatusSent a s) <$> l) t.

Lemma resolve_ledger t l s : tc_block_status_subscribers t !! status_block s = Some l → ledger t → ledger (resolve t l s).
Proof.
  unfold ledger, resolve. cbn [tc_sent tc_block_status_subscribers set_subscribers]. intros Hl Hled.
  unfold acks_of, statuses_of in *. rewrite !omap_app. fold (acks_of ((λ a, StatusSent a s) <$> l)). fold (statuses_of ((λ a, StatusSent a s) <$> l)).
  rewrite statuses_acks, statuses_statuses, app_nil_r, Hled. rewrite (subscribed_delete _ _ l Hl). by rewrite (assoc_L (++)).
Qed.

(** [t'] is [t] after statuses that satisfy [ok] were sent to some of the subscribers. *)
Definition progressed (ok : BlockStatus → Prop) (t t' : TransactionConsumer) : Prop :=
  ∃ subscribers new, t' = set_subscribers subscribers new t ∧ subscribers ⊆ tc_block_status_subscribers t ∧
    (∀ m, m ∈ new → ∃ a s, m = StatusSent a s ∧ ok s) ∧ (ledger t → ledger t').

Lemma set_subscribers_trans m n m' n' t : set_subscribers m' n' (set_subscribers m n t) = set_subscribers m' (n ++ n') t.
Proof. unfold set_subscribers. cbn. by rewrite (assoc_L (++)). Qed.

Lemma progressed_refl ok t : progressed ok t t.
Proof.
  exists (tc_block_status_subscribers t), []. split; [by destruct t; unfold set_subscribers; cbn; rewrite app_nil_r|]. split; [done|].
  split; [by intros m Hm%not_elem_of_nil|done].
Qed.

Lemma progressed_trans ok t t' t'' : progressed ok t t' → progressed ok t' t'' → progressed ok t t''.
Proof.
  intros (m1 & n1 & -> & Hs1 & Hn1 & Hl1) (m2 & n2 & -> & Hs2 & Hn2 & Hl2). rewrite set_subscribers_trans in *. exists m2, (n1 ++ n2).
  split; [done|]. split; [by transitivity m1|]. split; [|tauto]. intros m [Hm|Hm]%elem_of_app; [by apply Hn1|by apply Hn2].
Qed.

Lemma progressed_subscribers ok t t' : progressed ok t t' → tc_block_status_subscribers t' ⊆ tc_block_status_subscribers t.
Proof. by intros (m & n & -> & Hs & _). Qed.

Lemma progressed_mono (ok ok' : BlockStatus → Prop) t t' : (∀ s, ok s → ok' s) → progressed ok t t' → progressed ok' t t'.
Proof.
  intros Himp (m & n & -> & Hs & Hn & Hl). exists m, n. split; [done|]. split; [done|]. split; [|done].
  intros x Hx. destruct (Hn x Hx) as (a & s & -> & Hok). eauto.
Qed.

Lemma progressed_resolve (ok : BlockStatus → Prop) t l s :
  tc_block_status_subscribers t !! status_block s = Some l → ok s → progressed ok t (resolve t l s).
Proof.
  intros Hl Hok. exists (delete (status_block s) (tc_block_status_subscribers t)), ((λ a, StatusSent a s) <$> l). split; [done|].
  split; [apply delete_subseteq|]. split; [|by apply resolve_ledger]. intros m (a & -> & _)%list_elem_of_fmap. eauto.
Qed.

Lemma notify_sequenced_spec blocks t :
  let t' := foldl notify_sequenced t blocks in
  progressed (λ s, ∃ r, r ∈ blocks ∧ s = Sequenced r) t t' ∧ ∀ r, r ∈ blocks → tc_block_status_subscribers t' !! r = None.
Proof.
  cbn. revert t. induction blocks as [|r blocks IH]; intros t; cbn; [split; [apply progressed_refl|by intros r Hr%not_elem_of_nil]|].
  assert (progressed (λ s, ∃ r', r' ∈ r :: blocks ∧ s = Sequenced r') t (notify_sequenced t r) ∧
    tc_block_status_subscribers (notify_sequenced t r) !! r = None) as [H1 Hr].
  { unfold notify_sequenced. destruct (tc_block_status_subscribers t !! r) as [l|] eqn:E; [|by split; [apply progressed_refl|]].
    split; [|apply lookup_delete_eq]. apply (progressed_resolve _ t l (Sequenced r) E). exists r. split; [left|done]. }
  destruct (IH (notify_sequenced t r)) as [H2 Hrest]. split.
  - eapply progressed_trans; [exact H1|]. eapply progressed_mono; [|exact H2]. intros s (r' & Hr' & ->). exists r'. split; [by right|done].
  - intros r' [->|Hr']%elem_of_cons; [|by apply Hrest]. destruct H2 as (m & n & -> & Hsub & _). cbn. cbn in Hsub.
    eapply lookup_weaken_None; [exact Hr|done].
Qed.

Lemma notify_collected_spec fuel gc t :
  (size (tc_block_status_subscribers t) < fuel)%nat →
  ∃ t', notify_collected fuel gc t = Ret t' ∧
    progressed (λ s, ∃ r, is_Some (tc_block_status_subscribers t !! r) ∧ br_round r ≤ gc ∧ s = GarbageCollected r) t t' ∧
    ∀ r, r ∈ dom (tc_block_status_subscribers t') → gc < br_round r.
Proof.
  revert t. induction fuel as [|fuel IH]; intros t Hf; [lia|]. cbn [notify_collected].
  destruct (bmap_first (tc_block_status_subscribers t)) as [[r l]|] eqn:Ef.
  2:{ apply bmap_first_None in Ef. eexists. split; [done|]. split; [apply progressed_refl|]. rewrite Ef. set_solver. }
  apply bmap_first_Some in Ef as [Hr Hleast]. destruct (br_round r <=? gc) eqn:E; nbool.
  - destruct (IH (resolve t l (GarbageCollected r))) as (t' & Ht' & Hp & Hgc).
    { unfold resolve. cbn. rewrite map_size_delete_Some by done. assert (size (tc_block_status_subscribers t) ≠ 0)%nat; [|lia].
      intros Hz%map_size_empty_inv. by rewrite Hz in Hr. }
    exists t'. split; [exact Ht'|]. split; [|done]. eapply progressed_trans; [apply (progressed_resolve _ t l (GarbageCollected r) Hr); eauto|].
    eapply progressed_mono; [|exact Hp]. intros s (r' & Hr' & Hle & ->). exists r'. split; [|done]. unfold resolve in Hr'. cbn in Hr'.
    destruct Hr' as [l' Hl']. apply lookup_delete_Some in Hl' as [_ ?]. eauto.
  - exists t. split; [done|]. split; [apply progressed_refl|]. intros r' Hr'%elem_of_dom.
    pose proof (BlockRef_le_round _ _ (Hleast r' Hr')). lia.
Qed.

Lemma ack_transactions_spec acks t r :
  ∃ m, ack_transactions t acks r = set_subscribers m ((λ e, AckSent e.1 r e.2) <$> acks) t ∧ (ledger t → ledger (ack_transactions t acks r)).
Proof.
  unfold ack_transactions. revert t. induction acks as [|e acks IH]; intros t; cbn.
  { exists (tc_block_status_subscribers t). split; [|done]. destruct t. unfold set_subscribers. cbn. by rewrite app_nil_r. }
  destruct (IH (send_ack r t e)) as (m & -> & Hl). exists m. unfold send_ack at 1. rewrite set_subscribers_trans. split; [done|].
  intros Ht. apply Hl. by apply send_ack_ledger.
Qed.

Lemma acks_of_elem sent a r : (a, r) ∈ acks_of sent ↔ ∃ idxs, AckSent a r idxs ∈ sent.
Proof.
  unfold acks_of. rewrite list_elem_of_omap. split.
  - intros ([a' r' idxs|] & Hm & [= <- <-]). eauto.
  - intros (idxs & Hm). eexists. split; [exact Hm|done].
Qed.

Lemma acks_of_app l k : acks_of (l ++ k) = acks_of l ++ acks_of k.
Proof. apply omap_app. Qed.

Lemma acks_of_acks r acks : acks_of ((λ e, AckSent e.1 r e.2) <$> acks) = (λ e, (e.1, r)) <$> acks.
Proof. unfold acks_of. induction acks as [|e acks IH]; csimpl; [done|]. by rewrite IH. Qed.

(** ** Runs *)

Inductive pool_event : Type :=
| EvSubmit (transactions : list bytes) (priority : Priority)
| EvPropose (block_ref : BlockRef)
| EvCommit (own_committed_blocks : list BlockRef) (gc_round : Round).

Record pool : Type := mkPool {
  pl_consumer : TransactionConsumer;
  pl_submissions : list (Priority * list Transaction);
  pl_blocks : list (BlockRef * list Transaction);
  pl_commits : list (list BlockRef * Round);
}.

Definition in_lane (subs : list (Priority * list Transaction)) (pr : Priority) (a : oneshot) : Prop :=
  fst <$> subs !! N.to_nat a = Some pr.
#[export] Instance Priority_eq_dec : EqDecision Priority.
Proof. solve_decision. Defined.
#[export] Instance in_lane_dec subs pr a : base.Decision (in_lane subs pr a).
Proof. unfold in_lane. apply _. Defined.

Definition tickets (n : nat) : list oneshot := N.of_nat <$> seq 0 n.

Lemma in_lane_app subs x pr a : (N.to_nat a < length subs)%nat → in_lane (subs ++ [x]) pr a ↔ in_lane subs pr a.
Proof. intros Ha. unfold in_lane. by rewrite lookup_app_l. Qed.

Lemma tickets_S n : tickets (S n) = tickets n ++ [N.of_nat n].
Proof. unfold tickets. by rewrite seq_S, fmap_app. Qed.

(** A new submission comes last in its lane. *)
Lemma lanes_submit subs pr x before after :
  (∀ a, a ∈ before ++ after → (N.to_nat a < length subs)%nat) → (∀ a, a ∈ after → ¬ in_lane subs pr a) →
  (∀ pr', filter (in_lane subs pr') (before ++ after) = filter (in_lane subs pr') (tickets (length subs))) →
  ∀ pr', filter (in_lane (subs ++ [(pr, x)]) pr') (before ++ N.of_nat (length subs) :: after) =
    filter (in_lane (subs ++ [(pr, x)]) pr') (tickets (length (subs ++ [(pr, x)]))).
Proof.
  intros Hlt Hafter Hold pr'. rewrite length_app, Nat.add_1_r, tickets_S, !filter_app.
  assert (∀ l : list oneshot, (∀ a, a ∈ l → (N.to_nat a < length subs)%nat) → filter (in_lane (subs ++ [(pr, x)]) pr') l = filter (in_lane subs pr') l) as Hf.
  { intros l Hl. apply list_filter_ext_in. intros a Ha. apply in_lane_app, Hl, Ha. }
  rewrite (Hf (tickets _)) by (intros a (k & -> & Hk%elem_of_seq)%list_elem_of_fmap; lia). rewrite <- Hold, filter_app.
  rewrite filter_cons. assert (in_lane (subs ++ [(pr, x)]) pr' (N.of_nat (length subs)) ↔ pr' = pr) as Hnew.
  { unfold in_lane. rewrite Nat2N.id, lookup_app_r, Nat.sub_diag by lia. cbn. naive_solver. }
  rewrite (Hf before), (Hf after) by (intros a Ha; apply Hlt; set_solver). rewrite filter_cons, filter_nil.
  destruct (decide (pr' = pr)) as [->|Hne].
  - rewrite !decide_True by (by apply Hnew). rewrite (filter_none_in (in_lane subs pr) after Hafter). by rewrite app_nil_r.
  - rewrite !decide_False by (by rewrite Hnew). by rewrite app_nil_r.
Qed.
Section Run.
Context `{Profile} (ctx : Context).

Definition pool_step (p : pool) (ev : pool_event) : M pool :=
  match ev with
  | EvSubmit transactions priority =>
      r ← TransactionClient_submit_no_wait (TransactionClient_new ctx) (pl_consumer p) transactions priority
            (N.of_nat (length (pl_submissions p)));
      match r with
      | inr (Some t) => Ret (mkPool t (pl_submissions p ++ [(priority, mkTransaction <$> transactions)]) (pl_blocks p) (pl_commits p))
      | _ => Ret p
      end
  | EvPropose block_ref =>
      '(t, transactions, acks, _) ← TransactionConsumer_next (pl_consumer p);
      Ret (mkPool (ack_transactions t acks block_ref) (pl_submissions p) (pl_blocks p ++ [(block_ref, transactions)]) (pl_commits p))
  | EvCommit blocks gc_round =>
      t ← TransactionConsumer_notify_own_blocks_status (pl_consumer p) blocks gc_round;
      Ret (mkPool t (pl_submissions p) (pl_blocks p) (pl_commits p ++ [(blocks, gc_round)]))
  end.

Definition pool_run (evs : list pool_event) : M pool :=
  t ← TransactionConsumer_new [] [] ctx;
  foldM pool_step (mkPool t [] [] []) evs.

Definition max_bytes : N := pc_max_transactions_in_block_bytes (ctx_protocol_config ctx).
Definition max_num : N := pc_max_num_transactions_in_block (ctx_protocol_config ctx).

Record limits_ok : Prop := {
  lim_num : max_num ≤ 2 ^ 16 - 1 - NUM_RESERVED_TRANSACTION_INDICES;
  lim_bytes : max_bytes < 2 ^ 63;
  lim_size : pc_max_transaction_size_bytes (ctx_protocol_config ctx) < 2 ^ 63;
}.

(** A status is only sent for a notification that says so. *)
Definition status_true (commits : list (list BlockRef * Round)) (s : BlockStatus) : Prop :=
  ∃ blocks gc, (blocks, gc) ∈ commits ∧
    match s with
    | Sequenced r => r ∈ blocks
    | GarbageCollected r => r ∉ blocks ∧ br_round r ≤ gc
    end.

(** The invariant: every accepted submission waits or was acknowledged, once, and in the order of its lane; an
    acknowledgement names the positions of the transactions in the block; blocks keep the limits; and every acknowledged submission
    waits for its status or was sent it, once, and truly. *)
Record pool_ok (p : pool) : Prop := {
  pk_limits : tc_max_transactions_in_block_bytes (pl_consumer p) = max_bytes ∧
    tc_max_num_transactions_in_block (pl_consumer p) = max_num;
  pk_waiting : ∀ g, g ∈ waiting (pl_consumer p) → fits max_bytes max_num g ∧
    snd <$> pl_submissions p !! N.to_nat (tg_included_in_block_ack g) = Some (tg_transactions g);
  pk_normal : ∀ g, g ∈ tc_tx_receiver (pl_consumer p) → in_lane (pl_submissions p) Normal (tg_included_in_block_ack g);
  pk_high : ∀ g, g ∈ tc_priority_tx_receiver (pl_consumer p) → in_lane (pl_submissions p) High (tg_included_in_block_ack g);
  pk_lanes : ∀ pr, filter (in_lane (pl_submissions p) pr)
      ((acks_of (tc_sent (pl_consumer p))).*1 ++ (tg_included_in_block_ack <$> waiting (pl_consumer p))) =
    filter (in_lane (pl_submissions p) pr) (tickets (length (pl_submissions p)));
  pk_acks : ∀ a r idxs, AckSent a r idxs ∈ tc_sent (pl_consumer p) →
    ∃ txs tx, (r, txs) ∈ pl_blocks p ∧ snd <$> pl_submissions p !! N.to_nat a = Some tx ∧ places txs tx idxs;
  pk_blocks : ∀ r txs, (r, txs) ∈ pl_blocks p → N.of_nat (length txs) ≤ max_num ∧ bytes_of txs ≤ max_bytes;
  pk_ledger : ledger (pl_consumer p);
  pk_statuses : ∀ a s, StatusSent a s ∈ tc_sent (pl_consumer p) → status_true (pl_commits p) s;
}.

Lemma check_bundle_spec size txs :
  limits_ok → size ≤ max_bytes →
  ∃ o, check_bundle (TransactionClient_new ctx) size txs = Ret o ∧ (o = None → size + bytes_of (mkTransaction <$> txs) ≤ max_bytes).
Proof using.
  intros [_ Hb Hs]. revert size. induction txs as [|tx txs IH]; intros size Hsz; cbn [check_bundle].
  { eexists. split; [done|]. intros _. cbn. lia. }
  cbn [cl_max_transaction_size cl_max_transactions_in_block_bytes TransactionClient_new]. fold max_bytes. case_match; nbool; [eexists; by split|].
  rewrite (int_add_exact 64) by lia. cbn [mbind M_bind]. case_match; nbool; [eexists; by split|].
  destruct (IH (size + N.of_nat (length tx))) as (o & -> & Ho); [done|]. exists o. split; [done|]. intros E. specialize (Ho E).
  change (bytes_of (mkTransaction <$> tx :: txs)) with (N.of_nat (length tx) + bytes_of (mkTransaction <$> txs)). lia.
Qed.

Lemma check_submission_spec txs a :
  limits_ok → ∃ o, check_submission (TransactionClient_new ctx) txs = Ret o ∧
    (o = None → fits max_bytes max_num (mkTransactionsGuard (mkTransaction <$> txs) a)).
Proof using.
  intros Hl. unfold check_submission. cbn [cl_max_transactions_in_block_count TransactionClient_new]. fold max_num.
  case_match; nbool; [eexists; by split|]. destruct (check_bundle_spec 0 txs Hl) as (o & -> & Ho); [lia|]. exists o. split; [done|].
  intros E. specialize (Ho E). split; cbn [tg_transactions]; [rewrite length_fmap|]; lia.
Qed.


Lemma pool_ok_bounded p a :
  pool_ok p → a ∈ (acks_of (tc_sent (pl_consumer p))).*1 ++ (tg_included_in_block_ack <$> waiting (pl_consumer p)) →
  (N.to_nat a < length (pl_submissions p))%nat.
Proof using.
  intros Hp [([a' r] & -> & (idxs & Hin)%acks_of_elem)%list_elem_of_fmap|(g & -> & Hg)%list_elem_of_fmap]%elem_of_app; apply lookup_lt_is_Some.
  - destruct (pk_acks p Hp _ _ _ Hin) as (txs & tx & _ & Hs & _). cbn. by destruct (pl_submissions p !! N.to_nat a').
  - destruct (pk_waiting p Hp g Hg) as [_ Hs]. by destruct (pl_submissions p !! _).
Qed.

Lemma submitted_app subs x k tx :
  snd <$> subs !! k = Some tx → snd <$> (subs ++ [x] : list (Priority * list Transaction)) !! k = Some tx.
Proof using. destruct (subs !! k) as [e|] eqn:E; [|done]. by rewrite (lookup_app_l_Some _ _ _ _ E). Qed.

(** The bundle is queued behind all bundles of its lane. *)
Lemma send_lane_spec pr p g t :
  pool_ok p → send_lane pr (pl_consumer p) g = Some t →
  ∃ before after, waiting (pl_consumer p) = before ++ after ∧ waiting t = before ++ g :: after ∧
    (∀ x, x ∈ after → ¬ in_lane (pl_submissions p) pr (tg_included_in_block_ack x)) ∧
    t = mkTransactionConsumer (tc_tx_receiver t) (tc_priority_tx_receiver t) max_bytes max_num (tc_pending_transactions t)
          (tc_block_status_subscribers (pl_consumer p)) (tc_sent (pl_consumer p)) ∧
    (∀ x, x ∈ tc_tx_receiver t → x ∈ tc_tx_receiver (pl_consumer p) ∨ x = g ∧ pr = Normal) ∧
    (∀ x, x ∈ tc_priority_tx_receiver t → x ∈ tc_priority_tx_receiver (pl_consumer p) ∨ x = g ∧ pr = High).
Proof using.
  intros Hp Hs. destruct (pk_limits p Hp) as [Eb En]. unfold send_lane in Hs. destruct pr; case_match; try done; injection Hs as <-; rewrite Eb, En; unfold waiting; cbn.
  - eexists _, []. rewrite !app_nil_r, !(assoc_L (++)). split; [done|]. split; [done|]. split; [by intros x Hx%not_elem_of_nil|].
    split; [done|]. split; [|by left]. intros x [Hx|Hx%list_elem_of_singleton]%elem_of_app; auto.
  - exists (option_list (tc_pending_transactions (pl_consumer p)) ++ tc_priority_tx_receiver (pl_consumer p)), (tc_tx_receiver (pl_consumer p)).
    rewrite <- !(assoc_L (++)). split; [done|]. split; [done|]. split; [|split; [done|split; [by left|]]].
    + intros x Hx Hl. pose proof (pk_normal p Hp x Hx) as Hn. unfold in_lane in *. congruence.
    + intros x [Hx|Hx%list_elem_of_singleton]%elem_of_app; auto.
Qed.

Lemma submit_step p txs pr : limits_ok → pool_ok p → ∃ p', pool_step p (EvSubmit txs pr) = Ret p' ∧ pool_ok p'.
Proof using.
  intros Hlim Hp. cbn [pool_step]. unfold TransactionClient_submit_no_wait. set (a := N.of_nat (length (pl_submissions p))).
  destruct (check_submission_spec txs a Hlim) as (o & -> & Ho). cbn [mbind M_bind]. destruct o as [e|]; [by exists p|]. specialize (Ho eq_refl).
  cbn [mbind M_bind]. set (g := mkTransactionsGuard (mkTransaction <$> txs) a) in *.
  destruct (send_lane pr (pl_consumer p) g) as [t|] eqn:Es; [|by exists p]. eexists. split; [done|].
  destruct (send_lane_spec pr p g t Hp Es) as (before & after & Hw & Hw' & Hafter & Et & Hno & Hhi).
  pose proof (λ x, pool_ok_bounded p x Hp) as Hlt. rewrite Hw, fmap_app, (assoc_L (++)) in Hlt.
  assert (∀ x pr', in_lane (pl_submissions p) pr' x → in_lane (pl_submissions p ++ [(pr, mkTransaction <$> txs)]) pr' x) as Hlane.
  { intros x pr' Hx. apply in_lane_app; [|done]. apply lookup_lt_is_Some. unfold in_lane in Hx. by destruct (pl_submissions p !! _). }
  assert (in_lane (pl_submissions p ++ [(pr, mkTransaction <$> txs)]) pr a) as Hnew.
  { unfold in_lane, a. by rewrite Nat2N.id, lookup_app_r, Nat.sub_diag. }
  split; cbn [pl_consumer pl_submissions pl_blocks pl_commits].
  - by rewrite Et.
  - rewrite Hw'. intros x Hx. assert (x = g ∨ x ∈ waiting (pl_consumer p)) as [->|Hx'] by (rewrite Hw; set_solver).
    + split; [done|]. unfold g, a. cbn [tg_included_in_block_ack tg_transactions]. by rewrite Nat2N.id, lookup_app_r, Nat.sub_diag.
    + destruct (pk_waiting p Hp x Hx') as [? ?]. split; [done|]. by apply submitted_app.
  - intros x [Hx|[-> ->]]%Hno; [by apply Hlane, (pk_normal p Hp)|done].
  - intros x [Hx|[-> ->]]%Hhi; [by apply Hlane, (pk_high p Hp)|done].
  - rewrite Hw', Et. cbn [tc_sent]. rewrite fmap_app, fmap_cons, (assoc_L (++)). apply lanes_submit; [done| |].
    + intros x (y & -> & Hy)%list_elem_of_fmap. by apply Hafter.
    + intros pr'. rewrite <- (assoc_L (++)), <- fmap_app, <- Hw. apply (pk_lanes p Hp).
  - rewrite Et. intros x r idxs Hin. destruct (pk_acks p Hp x r idxs Hin) as (btxs & tx & Hb & Hs & Hpl). exists btxs, tx.
    split; [done|]. split; [by apply submitted_app|done].
  - apply (pk_blocks p Hp).
  - rewrite Et. apply (pk_ledger p Hp).
  - rewrite Et. apply (pk_statuses p Hp).
Qed.

Lemma propose_step p r : limits_ok → pool_ok p →
  ∃ p', pool_step p (EvPropose r) = Ret p' ∧ pool_ok p' ∧
    ∀ g, head (waiting (pl_consumer p)) = Some g → (tg_included_in_block_ack g, r) ∈ acks_of (tc_sent (pl_consumer p')).
Proof using.
  intros [Hnum Hbytes _] Hp. cbn [pool_step]. destruct (pk_limits p Hp) as [Eb En].
  destruct (next_spec max_bytes max_num Hbytes Hnum (pl_consumer p) Eb En) as (t & n & taken & -> & [Etx Ha [Ebt Hb] Hn] & Hw & Et & Hpr & Hno & Hov).
  { apply Forall_forall. intros g Hg. by apply (pk_waiting p Hp). }
  cbn [mbind M_bind]. destruct (ack_transactions_spec (ns_acks n) t r) as (m & Eack & Hled). eexists. split; [done|].
  rewrite Eack in *. cbn [pl_consumer pl_submissions pl_blocks pl_commits].
  assert (acks_of (tc_sent (set_subscribers m ((λ e, AckSent e.1 r e.2) <$> ns_acks n) t)) =
    acks_of (tc_sent (pl_consumer p)) ++ ((λ e, (e.1, r)) <$> ns_acks n)) as Eacks.
  { rewrite Et. cbn [tc_sent set_subscribers]. by rewrite acks_of_app, acks_of_acks. }
  assert ((ns_acks n).*1 = tg_included_in_block_ack <$> taken) as Etaken.
  { clear -Ha. induction Ha as [|g e gs es [He _] _ IH]; [done|]. cbn. by rewrite He, <- IH. }
  split; [|]. 1: split; cbn [pl_consumer pl_submissions pl_blocks pl_commits].
  - by rewrite Et.
  - intros g Hg. apply (pk_waiting p Hp). rewrite Hw. apply elem_of_app. right. exact Hg.
  - intros g Hg. apply (pk_normal p Hp). destruct Hno as [k ->]. apply elem_of_app. right. exact Hg.
  - intros g Hg. apply (pk_high p Hp). destruct Hpr as [k ->]. apply elem_of_app. right. exact Hg.
  - intros pr. rewrite <- (pk_lanes p Hp pr), Eacks, Hw, !fmap_app, <- (assoc_L (++)). f_equal. f_equal. f_equal.
    rewrite <- Etaken, <- list_fmap_compose. done.
  - intros a r' idxs. rewrite Et. cbn [tc_sent set_subscribers]. rewrite elem_of_app. intros [Hin|(e & [= -> -> ->] & He)%list_elem_of_fmap].
    + destruct (pk_acks p Hp a r' idxs Hin) as (txs & tx & Hb' & Hrest). exists txs, tx. split; [set_solver|done].
    + apply list_elem_of_lookup in He as [k Hk]. destruct (Forall2_lookup_r _ _ _ _ _ Ha Hk) as (g & Hg & -> & Hpl).
      exists (ns_transactions n), (tg_transactions g). split; [set_solver|]. split; [|done].
      apply (pk_waiting p Hp). rewrite Hw. apply elem_of_app. left. by eapply list_elem_of_lookup_2.
  - intros r' txs [Hin|[= -> ->]%list_elem_of_singleton]%elem_of_app; [by apply (pk_blocks p Hp r')|]. split; [done|]. by rewrite <- Ebt.
  - apply Hled. rewrite Et. apply (pk_ledger p Hp).
  - intros a s. rewrite Et. cbn [tc_sent set_subscribers]. rewrite elem_of_app. intros [Hin|(e & [=] & _)%list_elem_of_fmap]. by apply (pk_statuses p Hp a).
  - intros g Hg. destruct taken as [|g' taken].
    + rewrite Hw in Hg. destruct (Hov g Hg) as [Hbad|Hbad]; rewrite Etx in Hbad; cbn in Hbad;
        (destruct (pk_waiting p Hp g) as [[Hf1 Hf2] _]; [rewrite Hw; destruct (waiting t); [done|injection Hg as ->; left]|lia]).
    + rewrite Hw in Hg. injection Hg as ->. rewrite Eacks. apply elem_of_app. right.
      destruct (ns_acks n) as [|e es]; [done|]. injection Etaken as <- _. left.
Qed.

Lemma commit_step p blocks gc : pool_ok p →
  ∃ p', pool_step p (EvCommit blocks gc) = Ret p' ∧ pool_ok p' ∧
    ∀ r, r ∈ dom (tc_block_status_subscribers (pl_consumer p')) → r ∉ blocks ∧ gc < br_round r.
Proof using.
  intros Hp. cbn [pool_step]. unfold TransactionConsumer_notify_own_blocks_status.
  destruct (notify_sequenced_spec blocks (pl_consumer p)) as [Hs Hnone]. set (t1 := foldl notify_sequenced _ _) in *.
  destruct (notify_collected_spec (S (size (tc_block_status_subscribers t1))) gc t1) as (t2 & -> & Hc & Hgc); [lia|].
  cbn [mbind M_bind]. eexists. split; [done|].
  assert (progressed (status_true (pl_commits p ++ [(blocks, gc)])) (pl_consumer p) t2) as (m & new & -> & Hsub & Hnew & Hled).
  { eapply progressed_trans; [eapply progressed_mono; [|exact Hs]|eapply progressed_mono; [|exact Hc]].
    - intros s (r & Hr & ->). exists blocks, gc. split; [set_solver|done].
    - intros s (r & [l Hr] & Hle & ->). exists blocks, gc. split; [set_solver|]. split; [|done]. intros Hin. by rewrite (Hnone r Hin) in Hr. }
  cbn [pl_consumer pl_submissions pl_blocks pl_commits] in *.
  assert (acks_of new = []) as Enew.
  { clear -Hnew. induction new as [|x new IH]; [done|]. destruct (Hnew x ltac:(left)) as (a & s & -> & _). apply IH. intros y Hy. apply Hnew. by right. }
  split; [split|]; cbn [pl_consumer pl_submissions pl_blocks pl_commits]; try apply Hp.
  - intros pr. cbn [tc_sent set_subscribers]. rewrite acks_of_app, Enew, app_nil_r. apply (pk_lanes p Hp).
  - intros a r idxs. cbn [tc_sent set_subscribers]. rewrite elem_of_app. intros [Hin|Hin]; [by apply (pk_acks p Hp)|].
    by destruct (Hnew _ Hin) as (? & ? & [=] & _).
  - apply Hled, (pk_ledger p Hp).
  - intros a s. cbn [tc_sent set_subscribers]. rewrite elem_of_app. intros [Hin|Hin].
    + destruct (pk_statuses p Hp a s Hin) as (bs & g & Hbs & Hok). exists bs, g. split; [set_solver|done].
    + by destruct (Hnew _ Hin) as (? & ? & [= <- <-] & ?).
  - intros r Hr. split; [|by apply Hgc]. intros Hin. apply elem_of_dom in Hr as [l Hl].
    pose proof (lookup_weaken _ _ _ _ Hl (progressed_subscribers _ _ _ Hc)) as Hl1. by rewrite (Hnone r Hin) in Hl1.
Qed.

(** C19: Every bundle of transactions that the client accepts is answered exactly once, whatever the interleaving of submissions,
    proposals and commits.  A run never fails; every accepted submission waits in a lane or was acknowledged, once and in the order of
    its lane, with the positions of its transactions in the block; no block exceeds the limits; and every acknowledged submission waits for the
    status of its block or was sent it, once, with a status that a commit notification justifies.  After a notification nobody waits for a
    block that it names or that it garbage collects, and the next proposal includes the first waiting bundle. *)
Theorem TransactionPool_answers_exactly_once evs :
  limits_ok →
  ∃ p, pool_run evs = Ret p ∧ pool_ok p ∧
    (∀ blocks gc, last evs = Some (EvCommit blocks gc) →
       ∀ r, r ∈ dom (tc_block_status_subscribers (pl_consumer p)) → r ∉ blocks ∧ gc < br_round r) ∧
    (∀ r g, head (waiting (pl_consumer p)) = Some g →
       ∃ p', pool_step p (EvPropose r) = Ret p' ∧ (tg_included_in_block_ack g, r) ∈ acks_of (tc_sent (pl_consumer p'))).
Proof using.
  intros Hlim. unfold pool_run. unfold TransactionConsumer_new. pose proof (lim_num Hlim) as Hnum. fold max_num. unfold assert_that.
  rewrite (proj2 (N.ltb_lt _ _)) by (unfold NUM_RESERVED_TRANSACTION_INDICES in *; lia). cbn [mbind M_bind]. fold max_bytes.
  set (p0 := mkPool _ [] [] []).
  assert (pool_ok p0) as H0.
  { split; cbn; try done; try (intros; set_solver). unfold ledger, subscribed. cbn. by rewrite map_to_list_empty. }
  induction evs as [|ev evs IH] using rev_ind.
  - exists p0. split; [done|]. split; [done|]. split; [done|]. done.
  - destruct IH as (p & Hr & Hp & _ & _). rewrite foldM_app, Hr. cbn [mbind M_bind foldM].
    assert (∃ p', pool_step p ev = Ret p' ∧ pool_ok p' ∧ ∀ blocks gc, ev = EvCommit blocks gc →
      ∀ r, r ∈ dom (tc_block_status_subscribers (pl_consumer p')) → r ∉ blocks ∧ gc < br_round r) as (p' & -> & Hp' & Hlast).
    { destruct ev as [txs pr|r|blocks gc].
      - destruct (submit_step p txs pr Hlim Hp) as (p' & ? & ?). by exists p'.
      - destruct (propose_step p r Hlim Hp) as (p' & ? & ? & _). by exists p'.
      - destruct (commit_step p blocks gc Hp) as (p' & ? & ? & Hd). exists p'. split; [done|]. split; [done|]. by intros ? ? [= <- <-]. }
    cbn [mbind M_bind]. exists p'. split; [done|]. split; [done|]. split.
    + intros blocks gc. rewrite last_snoc. intros [= ->]. by apply Hlast.
    + intros r g Hg. destruct (propose_step p' r Hlim Hp') as (p'' & ? & _ & Hin). exists p''. split; [done|]. by apply Hin.
Qed.
End Run.

(** ** The contract of a pool with the proposer *)

Section Contract.
Context (ctx : Context).

(** Transactions that a block may carry. *)
Record takeable (txs : list Transaction) : Prop := {
  tk_size : Forall (λ tx, tx_len tx ≤ pc_max_transaction_size_bytes (ctx_protocol_config ctx)) txs;
  tk_num : N.of_nat (length txs) ≤ max_num ctx;
  tk_bytes : bytes_of txs ≤ max_bytes ctx;
}.

(** What a pool promises to the proposer: from states that satisfy [pool_inv], [take] returns transactions that a block
    may carry. *)
Class TransactionPoolLaws (P : Type) `{TransactionPool P} : Type := {
  pool_inv : P → Prop;
  pool_take_inv : ∀ t, pool_inv t → ∃ t' txs acks limit,
    pool_take t (max_num ctx) (max_bytes ctx) = Ret (t', txs, acks, limit) ∧ pool_inv t' ∧ takeable txs;
  pool_ack_inv : ∀ t acks r, pool_inv t → pool_inv (pool_ack t acks r);
  pool_notify_inv : ∀ t refs gc, pool_inv t → ∃ t', pool_notify_committed t refs gc = Ret t' ∧ pool_inv t';
}.
End Contract.
#[global] Arguments pool_inv : clear implicits.
#[global] Arguments pool_inv ctx {P _ _} _.

Section ConsumerContract.
Context `{Profile} (ctx : Context) (Hlim : limits_ok ctx).

(** Only bundles that the client let through wait. *)
Record consumer_inv (t : TransactionConsumer) : Prop := {
  ci_bytes : tc_max_transactions_in_block_bytes t = max_bytes ctx;
  ci_num : tc_max_num_transactions_in_block t = max_num ctx;
  ci_waiting : Forall (λ g, takeable ctx (tg_transactions g)) (waiting t);
}.

Lemma takeable_fits g : takeable ctx (tg_transactions g) → fits (max_bytes ctx) (max_num ctx) g.
Proof using. by intros [_ ? ?]. Qed.

Lemma check_bundle_sizes size txs :
  check_bundle (TransactionClient_new ctx) size txs = Ret None →
  Forall (λ tx, tx_len tx ≤ pc_max_transaction_size_bytes (ctx_protocol_config ctx)) (mkTransaction <$> txs).
Proof using.
  revert size. induction txs as [|tx txs IH]; intros size; cbn [check_bundle]; [constructor|]. case_match eqn:E; [done|].
  intros (size' & _ & Hc)%bind_Ret. case_match; [done|]. nbool. constructor; [done|]. by eapply IH.
Qed.

(** A bundle that the client lets through keeps the invariant. *)
Lemma submit_inv t txs priority ack r :
  consumer_inv t → TransactionClient_submit_no_wait (TransactionClient_new ctx) t txs priority ack = Ret r →
  match r with inr (Some t') => consumer_inv t' | _ => True end.
Proof using Hlim.
  intros [Hb Hn Hw]. unfold TransactionClient_submit_no_wait. destruct (check_submission_spec ctx txs ack Hlim) as (o & Ho & Hfit). rewrite Ho. cbn [mbind M_bind].
  destruct o as [e|]; intros [= <-]; [done|]. destruct (Hfit eq_refl) as [Hf1 Hf2].
  assert (takeable ctx (mkTransaction <$> txs)) as Hnew.
  { split; [|done..]. unfold check_submission in Ho. case_match; [done|]. by eapply check_bundle_sizes. }
  unfold waiting in Hw. apply Forall_app in Hw as [Hp [Hpr Hno]%Forall_app].
  unfold send_lane. destruct priority; destruct (_ <? _)%nat; try done; (split; [done..|]); unfold waiting; cbn; rewrite !Forall_app, Forall_singleton; done.
Qed.

Lemma next_inv t :
  consumer_inv t → ∃ t' txs acks limit, TransactionConsumer_next t = Ret (t', txs, acks, limit) ∧ consumer_inv t' ∧ takeable ctx txs.
Proof using Hlim.
  intros [Hb Hn Hw]. destruct (next_spec (max_bytes ctx) (max_num ctx) (lim_bytes ctx Hlim) (lim_num ctx Hlim) t Hb Hn)
    as (t' & n & taken & Hnext & [Htx _ [Eb Hbytes] Hnum] & Hsplit & Ht' & _).
  { eapply Forall_impl; [exact Hw|]. apply takeable_fits. }
  rewrite Hsplit in Hw. apply Forall_app in Hw as [Htk Hw]. do 4 eexists. split; [exact Hnext|]. split.
  - rewrite Ht'. split; [done|done|]. by rewrite <- Ht'.
  - split; [|done|by rewrite <- Eb]. rewrite Htx. apply Forall_bind. eapply Forall_impl; [exact Htk|]. by intros g [].
Qed.

(** The view of the invariant does not contain subscribers. *)
Lemma set_subscribers_inv m sent t : consumer_inv t → consumer_inv (set_subscribers m sent t).
Proof using. by intros [? ? ?]. Qed.

#[export] Instance TransactionConsumerPoolLaws : TransactionPoolLaws ctx TransactionConsumer.
Proof using Hlim.
  refine {| pool_inv := consumer_inv |}.
  - apply next_inv.
  - intros t acks r Ht. cbn. destruct (ack_transactions_spec acks t r) as (m & -> & _). by apply set_subscribers_inv.
  - intros t refs gc Ht. cbn. unfold TransactionConsumer_notify_own_blocks_status.
    destruct (notify_sequenced_spec refs t) as [(m & sent & -> & _) _].
    destruct (notify_collected_spec (S (size m)) gc (set_subscribers m sent t)) as (t' & Ht' & (m' & sent' & -> & _) & _); [cbn; lia|].
    eexists. split; [exact Ht'|]. by do 2 apply set_subscribers_inv.
Defined.
End ConsumerContract.

#[local] Existing Instance debug_profile.

(** Two normal bundles, the second too large for the first block, and a ping with priority. *)
Lemma TransactionPool_answers_exactly_once_witness :
  ∃ p, pool_run sample_context
      [EvSubmit [repeat Byte.x00 (N.to_nat 200000); repeat Byte.x00 (N.to_nat 200000)] Normal; EvSubmit [repeat Byte.x01 (N.to_nat 200000)] Normal; EvSubmit [] High;
       EvPropose (sample_ref 1 0); EvPropose (sample_ref 2 0); EvCommit [sample_ref 1 0] 0] = Ret p ∧ pool_ok sample_context p.
Proof.
  edestruct (TransactionPool_answers_exactly_once sample_context) as (p & Hr & Hp & _); [|exists p; split; [exact Hr|exact Hp]].
  split; by_eval.
Defined.
