(* ===== verification/TransactionVoteTracker.v ===== *)
(** * Votes on transactions (consensus/core/src/transaction_vote_tracker.rs)

    The tracker keeps this authority's own reject votes on the transactions of
    each block, and adds up the reject votes that blocks carry, for the
    finalization of transactions after their commit.  Metrics are left out; the
    lookup of the host name for one of them, which panics on an unknown authority,
    is kept.  The DAG state that the tracker shares is an argument. *)

From S2P Require Import Prelude BTree Config Block Commit Store StakeAggregator ThresholdClock.
From S2P Require Import LeaderScoring DagState BlockVerifier.
Local Open Scope N_scope.

Record VoteInfo : Type := mkVoteInfo {
  vi_block : option VerifiedBlock;
  vi_own_reject_txn_votes : list TransactionIndex;
  vi_reject_txn_votes : gmap TransactionIndex (StakeAggregator QuorumThreshold);
}.

Definition VoteInfo_default : VoteInfo := mkVoteInfo None [] ∅.

Record VoteTrackerState : Type := mkVoteTrackerState {
  vt_context : Context;
  vt_votes : gmap BlockRef VoteInfo;
  vt_gc_round : Round;
}.

Definition VoteTrackerState_new (ctx : Context) : VoteTrackerState := mkVoteTrackerState ctx ∅ GENESIS_ROUND.

Definition set_votes (v : gmap BlockRef VoteInfo) (t : VoteTrackerState) : VoteTrackerState :=
  mkVoteTrackerState (vt_context t) v (vt_gc_round t).

Section VoteTracker.
Context `{Profile}.
Implicit Types t : VoteTrackerState.

(** The body of the loop over the rejects of one target block. *)
Definition add_reject (c : Committee) (voter : AuthorityIndex) (info : VoteInfo) (reject : TransactionIndex)
    : M VoteInfo :=
  '(aggregator, _) ← StakeAggregator_add_unique
                       (default StakeAggregator_new (vi_reject_txn_votes info !! reject)) voter c;
  Ret (mkVoteInfo (vi_block info) (vi_own_reject_txn_votes info)
         (<[reject := aggregator]> (vi_reject_txn_votes info))).

(** The body of the loop over the votes of a block. *)
Definition add_block_votes (voter : AuthorityIndex) t (block_votes : BlockTransactionVotes) : M VoteTrackerState :=
  let target := btv_block_ref block_votes in
  if br_round target <=? vt_gc_round t then Ret t
  else
    info ← foldM (add_reject (ctx_committee (vt_context t)) voter)
             (default VoteInfo_default (vt_votes t !! target)) (btv_rejects block_votes);
    Ret (set_votes (<[target := info]> (vt_votes t)) t).

Definition VoteTrackerState_add_voted_block t (voted_block : VerifiedBlock)
    (reject_txn_votes : list TransactionIndex) : M VoteTrackerState :=
  if b_round voted_block <=? vt_gc_round t then Ret t
  else
    Committee_authority (ctx_committee (vt_context t)) (b_author voted_block);;
    let vote_info := default VoteInfo_default (vt_votes t !! reference voted_block) in
    match vi_block vote_info with
    | Some _ => Ret t
    | None =>
        let vote_info := mkVoteInfo (Some voted_block) reject_txn_votes (vi_reject_txn_votes vote_info) in
        foldM (add_block_votes (b_author voted_block))
          (set_votes (<[reference voted_block := vote_info]> (vt_votes t)) t)
          (b_transaction_votes voted_block)
    end.

Definition VoteTrackerState_add_voted_blocks t (voted_blocks : list (VerifiedBlock * list TransactionIndex))
    : M VoteTrackerState :=
  foldM (λ t e, VoteTrackerState_add_voted_block t e.1 e.2) t voted_blocks.

(** The loop that removes the votes at or below the garbage collection round. *)
Fixpoint pop_votes (fuel : nat) (gc_round : Round) (votes : gmap BlockRef VoteInfo) : M (gmap BlockRef VoteInfo) :=
  match fuel with
  | O => NoFuel
  | Datatypes.S fuel =>
      match bmap_first votes with
      | Some (block_ref, _) =>
          if br_round block_ref <=? gc_round then pop_votes fuel gc_round (delete block_ref votes) else Ret votes
      | None => Ret votes
      end
  end.

Definition VoteTrackerState_update_gc_round t (gc_round : Round) : M VoteTrackerState :=
  votes ← pop_votes (Datatypes.S (size (vt_votes t))) gc_round (vt_votes t);
  Ret (mkVoteTrackerState (vt_context t) votes gc_round).

(** ** The tracker *)

(** The body of the loop over the blocks voted on. *)
Definition own_votes_step t (votes : list BlockTransactionVotes) (block_ref : BlockRef)
    : M (list BlockTransactionVotes) :=
  if br_round block_ref <=? vt_gc_round t then Ret votes
  else
    match vt_votes t !! block_ref with
    | None => Panic (Explicit "Ancestor block not found in vote tracker state")
    | Some vote_info =>
        if bool_decide (vi_own_reject_txn_votes vote_info = []) then Ret votes
        else Ret (votes ++ [mkBlockTransactionVotes block_ref (vi_own_reject_txn_votes vote_info)])
    end.

Definition TransactionVoteTracker_get_own_votes t (block_refs : list BlockRef) : M (list BlockTransactionVotes) :=
  foldM (own_votes_step t) [] block_refs.

Definition TransactionVoteTracker_get_reject_votes t (block_ref : BlockRef) : option (list (TransactionIndex * Stake)) :=
  vote_info ← vt_votes t !! block_ref;
  Some ((λ e : TransactionIndex * StakeAggregator QuorumThreshold, (e.1, sa_stake e.2))
          <$> bmap_list (vi_reject_txn_votes vote_info)).

Section WithDag.
Context {S : Type} `{Store S} `{TransactionVerifier}.
Implicit Types s : DagState S.

Definition TransactionVoteTracker_run_gc t s (gc_round : Round) : M VoteTrackerState :=
  assert_that (gc_round <=? DagState_gc_round s) "TransactionVoteTracker cannot GC higher than DagState GC round";;
  VoteTrackerState_update_gc_round t gc_round.

Definition should_vote s (b : VerifiedBlock) : M bool :=
  if DagState_gc_round s <? b_round b then included ← DagState_has_been_included s (reference b); Ret (negb included)
  else Ret false.

Definition vote_on (e : VerifiedBlock * bool) : M (VerifiedBlock * list TransactionIndex) :=
  if e.2 then
    match SignedBlockVerifier_vote e.1 with
    | Ok reject_transaction_votes => Ret (e.1, reject_transaction_votes)
    | Err _ => Panic (Explicit "Failed to vote on block during recovery")
    end
  else Ret (e.1, []).

Definition TransactionVoteTracker_recover_and_vote_on_blocks t s (blocks : list VerifiedBlock) : M VoteTrackerState :=
  should_vote_blocks ← mapP (should_vote s) blocks;
  zipped ← zip_debug_eq blocks should_vote_blocks;
  voted_blocks ← mapP vote_on zipped;
  VoteTrackerState_add_voted_blocks t voted_blocks.

Definition TransactionVoteTracker_recover_blocks_after_round t s (after_round : Round) : M VoteTrackerState :=
  if negb (pc_transaction_voting_enabled (ctx_protocol_config (vt_context t))) then Ret t
  else
    recovery_start_round ← u32_add after_round 1;
    foldM (λ t e,
             blocks ← unwrap_ok (store_scan_blocks_by_author (ds_store s) e.1 recovery_start_round) "unwrap";
             Committee_authority (ctx_committee (vt_context t)) e.1;;
             TransactionVoteTracker_recover_and_vote_on_blocks t s blocks)
      t (Committee_authorities_iter (ctx_committee (vt_context t))).

End WithDag.
End VoteTracker.
