(* ===== verification/VoteTrackerTheory.v ===== *)
(** * The votes that the tracker counts

    Over any interleaving of blocks received and garbage collections, the reject
    votes reported for a block above the garbage collection round are the stake
    of the set of authorities whose blocks reject the transaction: each authority
    counts once, whatever the order in which the blocks arrive, also when a vote
    arrives before the block voted on. *)

From S2P Require Import Prelude BTree Config Block Commit Store StakeAggregator ThresholdClock.
From S2P Require Import LeaderScoring DagState DagRecovery BlockVerifier TransactionVoteTracker.
Local Open Scope N_scope.

Abbreviation VotedBlock := (VerifiedBlock * list TransactionIndex)%type (only parsing).

(** ** What a history of voted blocks says *)

(** The transactions of block [R] that a list of votes rejects. *)
Definition rejected_of (votes : list BlockTransactionVotes) (R : BlockRef) : list TransactionIndex :=
  mjoin (btv_rejects <$> filter (λ v, btv_block_ref v = R) votes).

Definition rejecters (blocks : list VerifiedBlock) (R : BlockRef) (i : TransactionIndex) : gset AuthorityIndex :=
  list_to_set ((λ b : VerifiedBlock, b_author b) <$>
                 filter (λ b : VerifiedBlock, i ∈ rejected_of (b_transaction_votes b) R) blocks).

Definition voted_on (b : VerifiedBlock) (R : BlockRef) : Prop := R ∈ btv_block_ref <$> b_transaction_votes b.

(** The tracker has an entry for the blocks received and for the blocks voted on. *)
Definition known (blocks : list VerifiedBlock) (R : BlockRef) : Prop :=
  ∃ b, b ∈ blocks ∧ (reference b = R ∨ voted_on b R).

Definition first_add (adds : list VotedBlock) (R : BlockRef) : option VotedBlock :=
  head (filter (λ e : VotedBlock, reference e.1 = R) adds).

Definition entry (t : VoteTrackerState) (R : BlockRef) : VoteInfo := default VoteInfo_default (vt_votes t !! R).

(** The aggregator of a set of voters, absent while there is none. *)
Definition tally (c : Committee) (s : gset AuthorityIndex) : option (StakeAggregator QuorumThreshold) :=
  if decide (s = ∅) then None else Some (SA_of c s).

Record tracks (c : Committee) (adds : list VotedBlock) (t : VoteTrackerState) : Prop := {
  tk_known : ∀ R, vt_gc_round t < br_round R → is_Some (vt_votes t !! R) ↔ known adds.*1 R;
  tk_block : ∀ R, vt_gc_round t < br_round R → vi_block (entry t R) = fst <$> first_add adds R;
  tk_own : ∀ R, vt_gc_round t < br_round R →
    vi_own_reject_txn_votes (entry t R) = default [] (snd <$> first_add adds R);
  tk_rejects : ∀ R i, vt_gc_round t < br_round R →
    vi_reject_txn_votes (entry t R) !! i = tally c (rejecters adds.*1 R i);
}.

Lemma rejected_of_cons v votes R :
  rejected_of (v :: votes) R = (if decide (btv_block_ref v = R) then btv_rejects v else []) ++ rejected_of votes R.
Proof. unfold rejected_of. rewrite filter_cons. by destruct (decide _). Qed.

Lemma rejected_of_self v : rejected_of [v] (btv_block_ref v) = btv_rejects v.
Proof. rewrite rejected_of_cons, decide_True by done. apply app_nil_r. Qed.

Lemma rejected_of_other v R : btv_block_ref v ≠ R → rejected_of [v] R = [].
Proof. intros Hne. rewrite rejected_of_cons, decide_False by done. done. Qed.

Lemma rejected_of_voted_on (b : VerifiedBlock) R i : i ∈ rejected_of (b_transaction_votes b) R → voted_on b R.
Proof.
  unfold rejected_of, voted_on. rewrite list_elem_of_join. intros (l & _ & Hl).
  apply list_elem_of_fmap in Hl as (v & -> & Hv). apply list_elem_of_filter in Hv as [<- Hv].
  by apply list_elem_of_fmap_2.
Qed.

Lemma rejecters_elem blocks R i a :
  a ∈ rejecters blocks R i ↔ ∃ b : VerifiedBlock, b ∈ blocks ∧ b_author b = a ∧ i ∈ rejected_of (b_transaction_votes b) R.
Proof.
  unfold rejecters. rewrite elem_of_list_to_set, list_elem_of_fmap. setoid_rewrite list_elem_of_filter. naive_solver.
Qed.

Lemma rejecters_snoc blocks (b : VerifiedBlock) R i :
  rejecters (blocks ++ [b]) R i =
  if decide (i ∈ rejected_of (b_transaction_votes b) R) then {[b_author b]} ∪ rejecters blocks R i
  else rejecters blocks R i.
Proof.
  apply set_eq. intros a. destruct (decide _) as [Hr|Hr]; rewrite ?elem_of_union, ?elem_of_singleton, !rejecters_elem;
    setoid_rewrite elem_of_app; setoid_rewrite list_elem_of_singleton; naive_solver.
Qed.

Lemma known_snoc blocks b R : known (blocks ++ [b]) R ↔ known blocks R ∨ reference b = R ∨ voted_on b R.
Proof. unfold known. setoid_rewrite elem_of_app. setoid_rewrite list_elem_of_singleton. naive_solver. Qed.

Lemma first_add_snoc adds e R :
  first_add (adds ++ [e]) R =
  match first_add adds R with
  | Some e' => Some e'
  | None => if decide (reference e.1 = R) then Some e else None
  end.
Proof.
  unfold first_add. rewrite filter_app, filter_cons, filter_nil, head_app.
  destruct (head _); [done|]. by destruct (decide _).
Qed.

Lemma first_add_Some adds R e : first_add adds R = Some e → e ∈ adds ∧ reference e.1 = R.
Proof.
  unfold first_add. intros Hh. assert (e ∈ filter (λ e : VotedBlock, reference e.1 = R) adds) as He.
  { destruct (filter _ adds); simplify_eq/=. left. }
  apply list_elem_of_filter in He as [??]. done.
Qed.

Lemma tally_union c v s : tally c ({[v]} ∪ s) = Some (SA_of c ({[v]} ∪ s)).
Proof. unfold tally. rewrite decide_False by set_solver. done. Qed.

Lemma entry_set_ne t R R' info : R ≠ R' → entry (set_votes (<[R := info]> (vt_votes t)) t) R' = entry t R'.
Proof. intros Hne. unfold entry. simpl. by rewrite lookup_insert_ne. Qed.

Lemma entry_set_eq t R info : entry (set_votes (<[R := info]> (vt_votes t)) t) R = info.
Proof. unfold entry. simpl. by rewrite lookup_insert_eq. Qed.

(** ** Counting the votes of a block *)

Section Counting.
Context `{Profile} (c : Committee) (Hwf : Committee_wf c).

Lemma add_reject_spec voter info i (f : TransactionIndex → gset AuthorityIndex) :
  voter ∈ members c → (∀ j, f j ⊆ members c) → (∀ j, vi_reject_txn_votes info !! j = tally c (f j)) →
  ∃ info', add_reject c voter info i = Ret info' ∧ vi_block info' = vi_block info ∧
    vi_own_reject_txn_votes info' = vi_own_reject_txn_votes info ∧
    ∀ j, vi_reject_txn_votes info' !! j = tally c (if decide (j = i) then {[voter]} ∪ f j else f j).
Proof using Hwf.
  intros Hv Hf Hi. unfold add_reject.
  replace (default StakeAggregator_new (vi_reject_txn_votes info !! i)) with (SA_of (T := QuorumThreshold) c (f i)).
  2: { rewrite Hi. unfold tally. destruct (decide (f i = ∅)) as [->|]; [|done]. simpl. symmetry. apply SA_of_new. }
  rewrite StakeAggregator_add_unique_spec by done. cbn [mbind M_bind]. eexists. split; [done|]. split; [done|]. split; [done|].
  intros j. cbn [vi_reject_txn_votes]. destruct (decide (j = i)) as [->|Hne].
  - by rewrite lookup_insert_eq, tally_union.
  - rewrite lookup_insert_ne by done. apply Hi.
Qed.

Lemma add_rejects_spec voter rejects info (f : TransactionIndex → gset AuthorityIndex) :
  voter ∈ members c → (∀ j, f j ⊆ members c) → (∀ j, vi_reject_txn_votes info !! j = tally c (f j)) →
  ∃ info', foldM (add_reject c voter) info rejects = Ret info' ∧ vi_block info' = vi_block info ∧
    vi_own_reject_txn_votes info' = vi_own_reject_txn_votes info ∧
    ∀ j, vi_reject_txn_votes info' !! j = tally c (if decide (j ∈ rejects) then {[voter]} ∪ f j else f j).
Proof using Hwf.
  intros Hv. revert info f. induction rejects as [|i rejects IH]; intros info f Hf Hi.
  - exists info. split; [done|]. split; [done|]. split; [done|]. intros j. rewrite decide_False by apply not_elem_of_nil. apply Hi.
  - cbn [foldM]. destruct (add_reject_spec voter info i f Hv Hf Hi) as (info1 & -> & Hb1 & Ho1 & H1). cbn [mbind M_bind].
    destruct (IH info1 (λ j, if decide (j = i) then {[voter]} ∪ f j else f j)) as (info2 & -> & Hb2 & Ho2 & H2);
      [intros j; specialize (Hf j); destruct (decide _); set_solver|exact H1|].
    exists info2. split; [done|]. rewrite Hb2, Ho2. split; [done|]. split; [done|]. intros j. rewrite H2. f_equal.
    destruct (decide (j ∈ rejects)), (decide (j = i)), (decide (j ∈ i :: rejects)); set_solver.
Qed.

(** [counts t K f]: above the garbage collection round the tracker has the
    entries [K], with the reject votes [f]. *)
Definition counts (t : VoteTrackerState) (K : BlockRef → Prop) (f : BlockRef → TransactionIndex → gset AuthorityIndex) : Prop :=
  ∀ R, vt_gc_round t < br_round R →
    (is_Some (vt_votes t !! R) ↔ K R) ∧ ∀ i, vi_reject_txn_votes (entry t R) !! i = tally c (f R i).

(** [t'] differs from [t] by reject votes only. *)
Record same_blocks (t t' : VoteTrackerState) : Prop := {
  sbl_context : vt_context t' = vt_context t;
  sbl_gc : vt_gc_round t' = vt_gc_round t;
  sbl_block R : vi_block (entry t' R) = vi_block (entry t R);
  sbl_own R : vi_own_reject_txn_votes (entry t' R) = vi_own_reject_txn_votes (entry t R);
}.

Lemma add_block_votes_spec voter t v (K : BlockRef → Prop) f :
  ctx_committee (vt_context t) = c → voter ∈ members c → (∀ R i, f R i ⊆ members c) → counts t K f →
  ∃ t', add_block_votes voter t v = Ret t' ∧ same_blocks t t' ∧
    counts t' (λ R, K R ∨ btv_block_ref v = R)
      (λ R i, if decide (i ∈ rejected_of [v] R) then {[voter]} ∪ f R i else f R i).
Proof using Hwf.
  intros Hc Hv Hf Ht. unfold add_block_votes. rewrite Hc. set (R0 := btv_block_ref v).
  destruct (N.leb_spec (br_round R0) (vt_gc_round t)) as [Hle|Hgt].
  - exists t. split; [done|]. split; [by constructor|]. intros R HR. destruct (Ht R HR) as [HK Hi].
    assert (R0 ≠ R) by (intros <-; lia). split; [naive_solver|]. intros i. rewrite rejected_of_other by done.
    rewrite decide_False by apply not_elem_of_nil. apply Hi.
  - fold (entry t R0).
    destruct (add_rejects_spec voter (btv_rejects v) (entry t R0) (f R0)) as (info & -> & Hb & Ho & Hi);
      [done|apply Hf|by apply Ht|]. cbn [mbind M_bind].
    eexists. split; [done|]. split; [|intros R HR].
    + split; [done|done|..]; intros R; (destruct (decide (R0 = R)) as [<-|]; [rewrite entry_set_eq|rewrite entry_set_ne by done]; done).
    + destruct (Ht R HR) as [HK HRi]. destruct (decide (R0 = R)) as [<-|Hne].
      * rewrite entry_set_eq. simpl. rewrite lookup_insert_eq. split; [naive_solver|]. intros i.
        unfold R0. rewrite rejected_of_self. apply Hi.
      * rewrite entry_set_ne by done. simpl. rewrite lookup_insert_ne by done. split; [naive_solver|]. intros i.
        rewrite rejected_of_other, decide_False by (done || apply not_elem_of_nil). apply HRi.
Qed.

Lemma same_blocks_trans t1 t2 t3 : same_blocks t1 t2 → same_blocks t2 t3 → same_blocks t1 t3.
Proof. intros [] []. split; intros; etrans; eauto. Qed.

Lemma add_votes_of_block_spec voter votes t (K : BlockRef → Prop) f :
  ctx_committee (vt_context t) = c → voter ∈ members c → (∀ R i, f R i ⊆ members c) → counts t K f →
  ∃ t', foldM (add_block_votes voter) t votes = Ret t' ∧ same_blocks t t' ∧
    counts t' (λ R, K R ∨ R ∈ btv_block_ref <$> votes)
      (λ R i, if decide (i ∈ rejected_of votes R) then {[voter]} ∪ f R i else f R i).
Proof using Hwf.
  intros Hc Hv. revert t K f Hc. induction votes as [|v votes IH]; intros t K f Hc Hf Ht.
  - exists t. split; [done|]. split; [by constructor|]. intros R HR. destruct (Ht R HR) as [HK Hi].
    split; [rewrite HK; set_solver|]. intros i. rewrite decide_False by apply not_elem_of_nil. apply Hi.
  - cbn [foldM]. destruct (add_block_votes_spec voter t v K f Hc Hv Hf Ht) as (t1 & -> & Hs1 & H1). cbn [mbind M_bind].
    edestruct (IH t1) as (t2 & -> & Hs2 & H2); [by rewrite (sbl_context _ _ Hs1)| |exact H1|].
    { intros R i. specialize (Hf R i). simpl. destruct (decide _); set_solver. }
    exists t2. split; [done|]. split; [by eapply same_blocks_trans|]. intros R HR. destruct (H2 R HR) as [HK Hi].
    split; [rewrite HK, fmap_cons, elem_of_cons; naive_solver|]. intros i. rewrite Hi. f_equal. rewrite !rejected_of_cons.
    change (rejected_of [] R) with (@nil TransactionIndex). rewrite app_nil_r.
    repeat destruct (decide _); set_solver.
Qed.

End Counting.

(** ** The operations of the tracker *)

Section Operations.
Context `{Profile} (c : Committee) (Hwf : Committee_wf c).
Implicit Types (adds : list VotedBlock) (t : VoteTrackerState).

(** What block verification ensures of a voted block: a committee member proposed it,
    and it votes on blocks of lower rounds. *)
Record votes_down (b : VerifiedBlock) : Prop := {
  vd_author : b_author b ∈ members c;
  vd_votes : ∀ R, voted_on b R → br_round R < b_round b;
}.

Lemma rejecters_members blocks R i : Forall votes_down blocks → rejecters blocks R i ⊆ members c.
Proof. intros Hb a (b & Hin & <- & _)%rejecters_elem. rewrite Forall_forall in Hb. apply (vd_author b), Hb, Hin. Qed.

Lemma tracks_counts adds t : tracks c adds t → counts c t (known adds.*1) (rejecters adds.*1).
Proof. intros Ht R HR. split; [by apply (tk_known c adds t Ht)|]. intros i. by apply (tk_rejects c adds t Ht). Qed.

(** A block at or below the garbage collection round changes nothing above it. *)
Lemma tracks_old adds t e :
  tracks c adds t → votes_down e.1 → b_round e.1 ≤ vt_gc_round t → tracks c (adds ++ [e]) t.
Proof.
  intros Ht He Hle. assert (∀ R, vt_gc_round t < br_round R → reference e.1 ≠ R ∧ ¬ voted_on e.1 R) as Hnone.
  { intros R HR. split; [intros <-; simpl in HR; lia|]. intros Hv%(vd_votes _ He). lia. }
  split; intros R; [| | |intros i]; intros HR; destruct (Hnone R HR) as [Hne Hnv];
    rewrite ?fmap_app, ?first_add_snoc; cbn [fmap list_fmap].
  - rewrite known_snoc, (tk_known c adds t Ht) by done. naive_solver.
  - rewrite (tk_block c adds t Ht), decide_False by done. by destruct (first_add adds R).
  - rewrite (tk_own c adds t Ht), decide_False by done. by destruct (first_add adds R).
  - rewrite rejecters_snoc, (tk_rejects c adds t Ht), decide_False by (done || by intros ?%rejected_of_voted_on). done.
Qed.

(** A block that was added before changes nothing. *)
Lemma tracks_again adds t e :
  tracks c adds t → e.1 ∈ adds.*1 → is_Some (first_add adds (reference e.1)) → tracks c (adds ++ [e]) t.
Proof.
  intros Ht He Hf. split; intros R; [| | |intros i]; intros HR; rewrite ?fmap_app, ?first_add_snoc; cbn [fmap list_fmap].
  - rewrite known_snoc, (tk_known c adds t Ht) by done. unfold known. naive_solver.
  - rewrite (tk_block c adds t Ht) by done. destruct (first_add adds R) eqn:E; [done|].
    rewrite decide_False; [done|]. intros <-. rewrite E in Hf. by destruct Hf.
  - rewrite (tk_own c adds t Ht) by done. destruct (first_add adds R) eqn:E; [done|].
    rewrite decide_False; [done|]. intros <-. rewrite E in Hf. by destruct Hf.
  - rewrite rejecters_snoc, (tk_rejects c adds t Ht) by done. destruct (decide _) as [Hr|]; [|done]. f_equal.
    assert (b_author e.1 ∈ rejecters adds.*1 R i); [|set_solver]. apply rejecters_elem. by exists e.1.
Qed.

(** A new block above the garbage collection round. *)
Lemma tracks_new adds t b own :
  tracks c adds t → Forall votes_down adds.*1 → votes_down b → vt_gc_round t < b_round b →
  ctx_committee (vt_context t) = c → first_add adds (reference b) = None →
  ∃ t', foldM (add_block_votes (b_author b))
          (set_votes (<[reference b := mkVoteInfo (Some b) own (vi_reject_txn_votes (entry t (reference b)))]> (vt_votes t)) t)
          (b_transaction_votes b) = Ret t' ∧
    vt_context t' = vt_context t ∧ vt_gc_round t' = vt_gc_round t ∧ tracks c (adds ++ [(b, own)]) t'.
Proof using Hwf.
  intros Ht Hall Hb Hgc Hc Hnone. set (info := mkVoteInfo _ _ _). set (t0 := set_votes _ t).
  assert (counts c t0 (λ R, known adds.*1 R ∨ reference b = R) (rejecters adds.*1)) as H0.
  { intros R HR. destruct (tracks_counts adds t Ht R HR) as [HK Hi]. destruct (decide (reference b = R)) as [<-|Hne].
    - unfold t0. rewrite entry_set_eq. simpl. rewrite lookup_insert_eq. split; [naive_solver|exact Hi].
    - unfold t0. rewrite entry_set_ne by done. simpl. rewrite lookup_insert_ne by done. split; [naive_solver|exact Hi]. }
  destruct (add_votes_of_block_spec c Hwf (b_author b) (b_transaction_votes b) t0 _ _ Hc (vd_author b Hb)
    (λ R i, rejecters_members _ R i Hall) H0) as (t' & Ht' & [Hctx Hgc' Hbl Ho] & Hcnt).
  exists t'. split; [exact Ht'|]. split; [exact Hctx|]. split; [exact Hgc'|].
  assert (∀ R, vt_gc_round t' < br_round R → vt_gc_round t < br_round R) as Hlt by (rewrite Hgc'; done).
  split; intros R; [| | |intros i]; intros HR; rewrite ?fmap_app, ?first_add_snoc; cbn [fmap list_fmap fst snd].
  - destruct (Hcnt R HR) as [-> _]. rewrite known_snoc. unfold voted_on. tauto.
  - rewrite Hbl. unfold t0. destruct (decide (reference b = R)) as [<-|Hne].
    + by rewrite entry_set_eq, Hnone.
    + rewrite entry_set_ne by done. rewrite (tk_block c adds t Ht) by auto. by destruct (first_add adds R).
  - rewrite Ho. unfold t0. destruct (decide (reference b = R)) as [<-|Hne].
    + by rewrite entry_set_eq, Hnone.
    + rewrite entry_set_ne by done. rewrite (tk_own c adds t Ht) by auto. by destruct (first_add adds R).
  - destruct (Hcnt R HR) as [_ ->]. by rewrite rejecters_snoc.
Qed.

Lemma add_voted_block_spec adds t b own :
  tracks c adds t → Forall votes_down adds.*1 → votes_down b → ctx_committee (vt_context t) = c →
  (∀ b', b' ∈ adds.*1 → reference b' = reference b → b' = b) →
  ∃ t', VoteTrackerState_add_voted_block t b own = Ret t' ∧
    vt_context t' = vt_context t ∧ vt_gc_round t' = vt_gc_round t ∧ tracks c (adds ++ [(b, own)]) t'.
Proof using Hwf.
  intros Ht Hall Hb Hc Hinj. unfold VoteTrackerState_add_voted_block.
  destruct (N.leb_spec (b_round b) (vt_gc_round t)) as [Hle|Hgt].
  { exists t. repeat (split; [done|]). by apply (tracks_old adds t (b, own)). }
  rewrite Hc. destruct (Committee_authority_member c (b_author b)) as [a ->]; [by apply vd_author|]. cbn [mbind M_bind].
  fold (entry t (reference b)). rewrite (tk_block c adds t Ht (reference b)) by done.
  destruct (first_add adds (reference b)) as [e|] eqn:E; cbn [fmap option_fmap option_map].
  - exists t. repeat (split; [done|]). apply (tracks_again adds t (b, own)); [done| |by exists e].
    apply first_add_Some in E as [Hin Hr]. simpl. rewrite <- (Hinj e.1) by (done || by apply list_elem_of_fmap_2).
    by apply list_elem_of_fmap_2.
  - by apply tracks_new.
Qed.

End Operations.

Lemma reject_votes_sorted (m : gmap TransactionIndex (StakeAggregator QuorumThreshold)) :
  StronglySorted N.lt
    ((λ e : TransactionIndex * StakeAggregator QuorumThreshold, (e.1, sa_stake e.2)) <$> bmap_list m).*1.
Proof.
  rewrite <- list_fmap_compose. eapply (StronglySorted_fmap _ (λ a b, lt_ord a.1 b.1 = true)).
  - intros x y _ _. simpl. apply lt_ord_N.
  - apply sorted_strict; [apply bmap_list_sorted|apply bmap_list_NoDup].
Qed.

Lemma get_reject_votes_sorted t R votes :
  TransactionVoteTracker_get_reject_votes t R = Some votes → StronglySorted N.lt votes.*1.
Proof.
  unfold TransactionVoteTracker_get_reject_votes. destruct (vt_votes t !! R); cbn [mbind option_bind]; [|done].
  intros [= <-]. apply reject_votes_sorted.
Qed.

Lemma get_reject_votes_NoDup t R votes : TransactionVoteTracker_get_reject_votes t R = Some votes → NoDup votes.*1.
Proof.
  unfold TransactionVoteTracker_get_reject_votes. destruct (vt_votes t !! R); cbn [mbind option_bind]; [|done].
  intros [= <-]. rewrite <- list_fmap_compose. apply bmap_list_NoDup.
Qed.

(** ** Garbage collection *)

Lemma pop_votes_spec fuel g (votes : gmap BlockRef VoteInfo) :
  (size votes < fuel)%nat →
  ∃ votes', pop_votes fuel g votes = Ret votes' ∧
    (∀ R, g < br_round R → votes' !! R = votes !! R) ∧ ∀ R, br_round R ≤ g → votes' !! R = None.
Proof.
  revert votes. induction fuel as [|fuel IH]; intros votes Hf; [lia|]. cbn [pop_votes].
  destruct (bmap_first votes) as [[R0 info]|] eqn:E.
  2: { apply bmap_first_None in E as ->. by exists ∅. }
  apply bmap_first_Some in E as [HR0 Hmin]. destruct (N.leb_spec (br_round R0) g) as [Hle|Hgt].
  - destruct (IH (delete R0 votes)) as (v' & -> & Hup & Hdown).
    { rewrite map_size_delete_Some by (by exists info). assert (size votes ≠ 0%nat); [|lia].
      intros ->%map_size_empty_iff. done. }
    exists v'. split; [done|]. split; [|exact Hdown]. intros R HR. rewrite Hup by done.
    rewrite lookup_delete_ne; [done|]. intros <-. lia.
  - exists votes. split; [done|]. split; [done|]. intros R HR. destruct (votes !! R) eqn:ER; [|done].
    specialize (BlockRef_le_round _ _ (Hmin R ltac:(by eexists))). lia.
Qed.

Section Runs.
Context `{Profile} (ctx : Context).
Local Abbreviation c := (ctx_committee ctx).
Context (Hwf : Committee_wf c).

Lemma update_gc_round_spec adds t g :
  tracks c adds t → vt_gc_round t ≤ g →
  ∃ t', VoteTrackerState_update_gc_round t g = Ret t' ∧
    vt_context t' = vt_context t ∧ vt_gc_round t' = g ∧ tracks c adds t'.
Proof using.
  intros Ht Hg. unfold VoteTrackerState_update_gc_round.
  destruct (pop_votes_spec (Datatypes.S (size (vt_votes t))) g (vt_votes t)) as (v' & -> & Hup & _); [lia|].
  cbn [mbind M_bind]. eexists. repeat (split; [done|]).
  assert (∀ R, g < br_round R → vt_gc_round t < br_round R) as Hlt by (intros; lia).
  split; unfold entry; simpl; intros R; [| | |intros i]; intros HR; rewrite Hup by done; apply Ht; auto.
Qed.

(** What happens to a tracker: a block comes in with this authority's votes on it,
    or commits are finalized and the votes below a round are collected. *)
Inductive tracker_event : Type :=
| Voted (b : VerifiedBlock) (own : list TransactionIndex)
| Collected (gc_round : Round).

Definition tracker_step (t : VoteTrackerState) (e : tracker_event) : M VoteTrackerState :=
  match e with
  | Voted b own => VoteTrackerState_add_voted_block t b own
  | Collected gc_round => VoteTrackerState_update_gc_round t gc_round
  end.

Definition voted (e : tracker_event) : option VotedBlock :=
  match e with Voted b own => Some (b, own) | Collected _ => None end.
Definition collected (e : tracker_event) : option Round :=
  match e with Voted _ _ => None | Collected g => Some g end.

Record history_ok (events : list tracker_event) : Prop := {
  ho_blocks : Forall (votes_down c) (omap voted events).*1;
  ho_references : ∀ b1 b2, b1 ∈ (omap voted events).*1 → b2 ∈ (omap voted events).*1 →
    reference b1 = reference b2 → b1 = b2;
  ho_gc : StronglySorted N.le (omap collected events);
}.

Lemma history_ok_prefix events e : history_ok (events ++ [e]) → history_ok events.
Proof using.
  intros [Hb Hr Hg]. rewrite !omap_app, ?fmap_app in *. split.
  - by apply Forall_app in Hb as [? _].
  - intros b1 b2 H1 H2. apply Hr; apply elem_of_app; by left.
  - by apply StronglySorted_app in Hg as (_ & ? & _).
Qed.

Lemma tracker_run_spec events :
  history_ok events →
  ∃ t, foldM tracker_step (VoteTrackerState_new ctx) events = Ret t ∧ vt_context t = ctx ∧
    (vt_gc_round t = 0 ∨ vt_gc_round t ∈ omap collected events) ∧ tracks c (omap voted events) t.
Proof using Hwf.
  induction events as [|e events IH] using rev_ind; intros Hok.
  - exists (VoteTrackerState_new ctx). split; [done|]. split; [done|]. split; [by left|].
    split; intros R; [| | |intros i]; intros _; unfold entry; simpl; rewrite ?lookup_empty; simpl; try done.
    split; [by intros []|]. intros (b & Hb & _). by apply not_elem_of_nil in Hb.
  - destruct (IH (history_ok_prefix _ _ Hok)) as (t & Hrun & Hctx & Hgc & Ht).
    rewrite foldM_app, Hrun. cbn [mbind M_bind foldM]. destruct Hok as [Hb Hr Hg].
    rewrite !omap_app in *. destruct e as [b own|g]; cbn [omap list_omap voted collected tracker_step] in *.
    + rewrite fmap_app in Hb, Hr. apply Forall_app in Hb as [Hb [Hlast _]%Forall_cons].
      destruct (add_voted_block_spec c Hwf _ t b own Ht Hb Hlast) as (t' & -> & Hctx' & Hgc' & Ht'); [by rewrite Hctx| |].
      { intros b' Hin. apply Hr; apply elem_of_app; [by left|right; apply list_elem_of_singleton; done]. }
      exists t'. rewrite Hctx', Hgc', app_nil_r. auto.
    + apply StronglySorted_app in Hg as (Hlt & _ & _).
      destruct (update_gc_round_spec _ t g Ht) as (t' & -> & Hctx' & Hgc' & Ht').
      { destruct Hgc as [->|Hin]; [lia|]. apply Hlt; [done|]. left. }
      exists t'. rewrite Hctx', Hgc', app_nil_r. split; [done|]. split; [done|]. split; [|done].
      right. apply elem_of_app. right. left.
Qed.

Lemma tally_Some s sa : tally c s = Some sa ↔ s ≠ ∅ ∧ sa = SA_of c s.
Proof using. unfold tally. destruct (decide (s = ∅)); naive_solver. Qed.


End Runs.

(** ** A sample history

    Authority 1 rejects two transactions of a block of authority 0 before the block arrives, and
    authority 2 rejects one of them in two equivocating blocks; then round 1 is
    collected, and authority 3 adds its vote. *)

Definition voting_block (round author digest : N) (votes : list (BlockRef * list TransactionIndex)) : VerifiedBlock :=
  mkVerifiedBlock
    (mkSignedBlock
       (BV2 {| v2_epoch := 0; v2_round := round; v2_author := author; v2_timestamp_ms := 0; v2_ancestors := [];
               v2_transactions := []; v2_transaction_votes := (λ e, mkBlockTransactionVotes e.1 e.2) <$> votes;
               v2_commit_votes := []; v2_misbehavior_reports := [] |}) [])
    digest [].

Definition sample_target : BlockRef := mkBlockRef 2 0 20.

Definition sample_events : list tracker_event :=
  [Voted (voting_block 1 0 10 []) [3];
   Voted (voting_block 3 1 31 [(sample_target, [0; 2]); (mkBlockRef 1 0 10, [1])]) [];
   Voted (voting_block 2 0 20 []) [0];
   Voted (voting_block 3 2 32 [(sample_target, [2])]) [];
   Voted (voting_block 3 2 33 [(sample_target, [2])]) [];
   Collected 1;
   Voted (voting_block 3 1 31 [(sample_target, [0; 2]); (mkBlockRef 1 0 10, [1])]) [];
   Voted (voting_block 3 3 34 [(sample_target, [2]); (mkBlockRef 1 0 10, [1])]) []].

Lemma votes_down_check ctx (b : VerifiedBlock) :
  bool_decide (b_author b ∈ members (ctx_committee ctx)) &&
  forallb (λ v, br_round (btv_block_ref v) <? b_round b) (b_transaction_votes b) = true →
  votes_down (ctx_committee ctx) b.
Proof.
  intros [Ha%bool_decide_eq_true Hv]%andb_true_iff. split; [done|]. intros R HR.
  apply list_elem_of_fmap in HR as (v & -> & Hin). rewrite forallb_forall in Hv.
  apply N.ltb_lt, Hv. by apply list_elem_of_In.
Qed.

