(* ===== verification/Proposer.v ===== *)
(** * Proposing blocks (consensus/core/src/proposer.rs)

    A validator proposes a block when its threshold clock has passed its last block: it waits for the leaders of the previous round and the
    minimum delay (unless forced), selects one ancestor per authority, takes transactions from the pool, votes on the transactions of the newly
    included blocks, and adds the signed block to its own DAG.

    The components that the proposer shares with the rest of the node (DAG state, vote tracker, round tracker, transaction
    pool) are an argument and a result of its operations; the wall-clock times that it reads are arguments.  Metrics and tracing are left out, but not the lookups and
    sums computed for them that can panic. *)

From S2P Require Import Prelude BTree Config Block Commit Store StakeAggregator ThresholdClock LeaderScoring.
From S2P Require Import RoundTracker AncestorState DagState LeaderSchedule LeaderScheduleV3 BaseCommitter UniversalCommitter BlockVerifier.
From S2P Require Import TransactionPool TransactionVoteTracker.
Local Open Scope N_scope.

Definition MAX_COMMIT_VOTES_PER_BLOCK : N := 100.

(** ** Limiting the votes *)

(** [sort_unstable_by_key(|votes| Reverse(votes.block_ref.round))]: the order of votes of the same round is not specified. *)
Class UnstableSort : Type := sort_unstable_by_round : list BlockTransactionVotes → list BlockTransactionVotes.

Class UnstableSortLaws `{UnstableSort} : Prop := {
  sort_unstable_perm : ∀ l, sort_unstable_by_round l ≡ₚ l;
  sort_unstable_sorted : ∀ l,
    StronglySorted (λ a b, br_round (btv_block_ref b) ≤ br_round (btv_block_ref a)) (sort_unstable_by_round l);
}.

(** The loop that pops the oldest targets up to the cutoff. *)
Fixpoint pop_front_oldest (cutoff_round : Round) (oldest_first : list BlockTransactionVotes) : list BlockTransactionVotes :=
  match oldest_first with
  | votes :: rest => if br_round (btv_block_ref votes) <=? cutoff_round then pop_front_oldest cutoff_round rest else oldest_first
  | [] => []
  end.
Definition pop_oldest (cutoff_round : Round) (transaction_votes : list BlockTransactionVotes) : list BlockTransactionVotes :=
  reverse (pop_front_oldest cutoff_round (reverse transaction_votes)).

Fixpoint truncate_loop (fuel : nat) (limit : N) (cutoff_round : Round) (transaction_votes : list BlockTransactionVotes)
    : M (list BlockTransactionVotes * Round) :=
  match fuel with
  | O => NoFuel
  | Datatypes.S fuel =>
      let transaction_votes := pop_oldest cutoff_round transaction_votes in
      if N.of_nat (length transaction_votes) <=? limit then Ret (transaction_votes, cutoff_round)
      else
        oldest ← expect (last transaction_votes) "Target count above the limit means targets remain";
        truncate_loop fuel limit (br_round (btv_block_ref oldest)) transaction_votes
  end.

Definition truncate_transaction_votes `{UnstableSort} (transaction_votes : list BlockTransactionVotes) (limit : N)
    (gc_round : Round) : M (list BlockTransactionVotes * Round) :=
  truncate_loop (Datatypes.S (length transaction_votes)) limit gc_round (sort_unstable_by_round transaction_votes).

(** ** Leaders to wait for *)

Inductive ProposalLeaderWaiter : Type :=
| WaiterV2 (committer : UniversalCommitter)
| WaiterV3 (schedule : NextCommitLeaderSchedule).

Definition ProposalLeaderWaiter_leader_slots_to_wait_for `{Profile} `{Rng} (waiter : ProposalLeaderWaiter) (round : Round)
    : M (list Slot) :=
  match waiter with
  | WaiterV2 committer =>
      leaders ← UniversalCommitter_get_leaders committer round;
      Ret (mkSlot round <$> (leaders : list AuthorityIndex))
  | WaiterV3 schedule =>
      if round <? nc_min_next_leader_round schedule then Ret []
      else Ret (mkSlot round <$> nc_allowed_leaders schedule)
  end.

Definition ProposalLeaderWaiter_update_v3_schedule (waiter : ProposalLeaderWaiter) (schedule : NextCommitLeaderSchedule)
    : ProposalLeaderWaiter :=
  match waiter with WaiterV2 committer => WaiterV2 committer | WaiterV3 _ => WaiterV3 schedule end.

(** [leader_slots.iter().all(f)]: stops at the first slot without a block. *)
Fixpoint forall_slots (f : Slot → M bool) (slots : list Slot) : M bool :=
  match slots with
  | [] => Ret true
  | slot :: slots => found ← f slot; if found : bool then forall_slots f slots else Ret false
  end.

(** ** The proposer *)

Section Proposer.
Context `{Profile} `{Crypto} `{Signing} `{Rng} `{UnstableSort}.
Context {S : Type} `{Store S} {P : Type} `{TransactionPool P}.

Record ValidatorProposer : Type := mkValidatorProposer {
  vp_context : Context;
  vp_propagation_delay : Round;
  vp_last_included_ancestors : list (option BlockRef);
  vp_block_signer : ProtocolKeyPair;
  vp_last_known_proposed_round : option Round;
  vp_ancestor_state_manager : AncestorStateManager;
  vp_leader_waiter : ProposalLeaderWaiter;
}.

(** What the proposer shares with the other components. *)
Record shared : Type := mkShared {
  sh_dag_state : DagState S;
  sh_transaction_vote_tracker : VoteTrackerState;
  sh_round_tracker : RoundTracker;
  sh_transaction_pool : P;
}.
Implicit Types (p : ValidatorProposer) (s : DagState S).

Definition ValidatorProposer_new (ctx : Context) (block_signer : ProtocolKeyPair) (last_known_proposed_round : option Round)
    (ancestor_state_manager : AncestorStateManager) (leader_waiter : ProposalLeaderWaiter) : ValidatorProposer :=
  mkValidatorProposer ctx 0 (replicate (N.to_nat (Committee_size (ctx_committee ctx))) None) block_signer
    last_known_proposed_round ancestor_state_manager leader_waiter.

Definition set_last_included (last_included : list (option BlockRef)) p : ValidatorProposer :=
  mkValidatorProposer (vp_context p) (vp_propagation_delay p) last_included (vp_block_signer p)
    (vp_last_known_proposed_round p) (vp_ancestor_state_manager p) (vp_leader_waiter p).
Definition set_ancestor_states (m : AncestorStateManager) p : ValidatorProposer :=
  mkValidatorProposer (vp_context p) (vp_propagation_delay p) (vp_last_included_ancestors p) (vp_block_signer p)
    (vp_last_known_proposed_round p) m (vp_leader_waiter p).
Definition ValidatorProposer_set_propagation_delay p (delay : Round) : ValidatorProposer :=
  mkValidatorProposer (vp_context p) delay (vp_last_included_ancestors p) (vp_block_signer p)
    (vp_last_known_proposed_round p) (vp_ancestor_state_manager p) (vp_leader_waiter p).
Definition ValidatorProposer_set_last_known_proposed_round p (round : Round) : ValidatorProposer :=
  mkValidatorProposer (vp_context p) (vp_propagation_delay p) (vp_last_included_ancestors p) (vp_block_signer p)
    (Some round) (vp_ancestor_state_manager p) (vp_leader_waiter p).
Definition ValidatorProposer_set_propagation_scores p (scores : ReputationScores) : ValidatorProposer :=
  set_ancestor_states (AncestorStateManager_set_propagation_scores (vp_ancestor_state_manager p) scores) p.
Definition ValidatorProposer_set_next_commit_leader_schedule p (schedule : NextCommitLeaderSchedule) : ValidatorProposer :=
  mkValidatorProposer (vp_context p) (vp_propagation_delay p) (vp_last_included_ancestors p) (vp_block_signer p)
    (vp_last_known_proposed_round p) (vp_ancestor_state_manager p)
    (ProposalLeaderWaiter_update_v3_schedule (vp_leader_waiter p) schedule).

Definition DagState_threshold_clock_round s : Round := tc_round (ds_threshold_clock s).

Definition last_proposed_block s : M VerifiedBlock :=
  block ← DagState_get_last_proposed_block s; expect block "A block should have been returned".

(** *** The choice of ancestors *)

(** The variables of the selection: the included ancestors, the ancestors set aside with their scores, and
    the references that will not be included. *)
Record selection : Type := mkSelection {
  sl_included : list VerifiedBlock;
  sl_pending_excluded : list (N * VerifiedBlock);
  sl_excluded_and_equivocating : gset BlockRef;
}.

(** The closure over the last block of each authority. *)
Definition classify_ancestor p (leader_slots : list Slot) (states : list AncestorState) (acc : selection)
    (entry : VerifiedBlock * list BlockRef) : M selection :=
  let '(ancestor, equivocating_ancestors) := entry in
  if b_author ancestor =? ctx_own_index (vp_context p) then Ret acc
  else
    last ← index (vp_last_included_ancestors p) (b_author ancestor);
    if from_option (λ r, b_round ancestor <=? br_round r) false last then Ret acc
    else
      let excluded := sl_excluded_and_equivocating acc ∪ list_to_set equivocating_ancestors in
      ancestor_state ← index states (b_author ancestor);
      match ancestor_state with
      | Include => Ret (mkSelection (sl_included acc ++ [ancestor]) (sl_pending_excluded acc) excluded)
      | Exclude score =>
          if bool_decide (b_slot ancestor ∈ leader_slots)
          then Ret (mkSelection (sl_included acc ++ [ancestor]) (sl_pending_excluded acc) excluded)
          else Ret (mkSelection (sl_included acc) (sl_pending_excluded acc ++ [(score, ancestor)]) excluded)
      end.

(** The loop that includes the best of the ancestors set aside until the parents are a quorum. *)
Definition include_for_quorum p (quorum_round : Round)
    (acc : StakeAggregator QuorumThreshold * list VerifiedBlock * list (N * VerifiedBlock))
    (e : N * VerifiedBlock) : M (StakeAggregator QuorumThreshold * list VerifiedBlock * list (N * VerifiedBlock)) :=
  let '(parent_round_quorum, ancestors_to_propose, excluded_ancestors) := acc in
  let '(score, ancestor) := e in
  let c := ctx_committee (vp_context p) in
  Committee_authority c (b_author ancestor);;
  if negb (StakeAggregator_reached_threshold parent_round_quorum c) && (b_round ancestor =? quorum_round)
  then
    '(parent_round_quorum, _) ← StakeAggregator_add parent_round_quorum (b_author ancestor) c;
    Ret (parent_round_quorum, ancestors_to_propose ++ [ancestor], excluded_ancestors)
  else Ret (parent_round_quorum, ancestors_to_propose, excluded_ancestors ++ [(score, ancestor)]).

(** The loop over the ancestors that stay excluded: one of them, or an earlier block of its author, is
    included when a quorum has accepted it. *)
Definition include_accepted p s (quorum_round : Round) (accepted_quorum_rounds : list QuorumRound)
    (acc : list (option BlockRef) * list VerifiedBlock * gset BlockRef) (e : N * VerifiedBlock)
    : M (list (option BlockRef) * list VerifiedBlock * gset BlockRef) :=
  let '(last_included, ancestors_to_propose, excluded) := acc in
  let '(_, ancestor) := e in
  let excluded_author := b_author ancestor in
  Committee_authority (ctx_committee (vp_context p)) excluded_author;;
  rounds ← index accepted_quorum_rounds excluded_author;
  let accepted_low_quorum_round := N.min rounds.1 quorum_round in
  last ← index last_included excluded_author;
  let last_included_round := from_option br_round GENESIS_ROUND last in
  if b_round ancestor <=? last_included_round then Ret acc
  else if accepted_low_quorum_round <=? last_included_round then
    Ret (last_included, ancestors_to_propose, {[reference ancestor]} ∪ excluded)
  else
    '(chosen, excluded) ←
      (if b_round ancestor <=? accepted_low_quorum_round then Ret (Some ancestor, excluded)
       else
         start_round ← u32_add last_included_round 1;
         end_round ← u32_add accepted_low_quorum_round 1;
         earlier ← DagState_get_last_cached_block_in_range s excluded_author start_round end_round;
         Ret (earlier, {[reference ancestor]} ∪ excluded));
    match chosen with
    | None => Ret (last_included, ancestors_to_propose, excluded)
    | Some ancestor =>
        last_included ← index_update last_included excluded_author (λ _, Some (reference ancestor));
        Ret (last_included, ancestors_to_propose ++ [ancestor], excluded)
    end.

Definition ValidatorProposer_smart_ancestors_to_propose p s (round_tracker : RoundTracker) (clock_round : Round)
    (smart_select : bool) (leader_slots : list Slot) : M (ValidatorProposer * list VerifiedBlock * gset BlockRef) :=
  let c := ctx_committee (vp_context p) in
  let leader_slots := if pc_enable_v3 (ctx_protocol_config (vp_context p)) then leader_slots else [] in
  all_ancestors ← DagState_get_last_cached_block_per_authority s clock_round;
  assert_that (N.of_nat (length all_ancestors) =? Committee_size c)
    "Fatal error, number of returned ancestors don't match committee size.";;
  accepted_quorum_rounds ← RoundTracker_compute_accepted_quorum_rounds round_tracker;
  asm ← AncestorStateManager_update_all_ancestors_state (vp_ancestor_state_manager p) (DagState_threshold_clock_round s)
          accepted_quorum_rounds;
  let p := set_ancestor_states asm p in
  let quorum_round := clock_round - 1 in
  own ← last_proposed_block s;
  selected ← foldM (classify_ancestor p leader_slots (AncestorStateManager_get_ancestor_states asm))
               (mkSelection [own] [] ∅) all_ancestors;
  parent_round_quorum ← foldM (λ a (ancestor : VerifiedBlock), fst <$> StakeAggregator_add a (b_author ancestor) c)
                          StakeAggregator_new (filter (λ a : VerifiedBlock, b_round a = quorum_round) (sl_included selected));
  if smart_select && negb (StakeAggregator_reached_threshold parent_round_quorum c) then Ret (p, [], ∅)
  else
    '(parent_round_quorum, ancestors_to_propose, excluded_ancestors) ←
      foldM (include_for_quorum p quorum_round) (parent_round_quorum, sl_included selected, [])
        (stable_sort (λ a b, b.1 <=? a.1) (sl_pending_excluded selected));
    '(last_included, ancestors_to_propose, excluded) ←
      foldM (include_accepted p s quorum_round accepted_quorum_rounds)
        (vp_last_included_ancestors p, ancestors_to_propose, sl_excluded_and_equivocating selected) excluded_ancestors;
    assert_that (StakeAggregator_reached_threshold parent_round_quorum c)
      "Fatal error, quorum not reached for parent round when proposing. Possible mismatch between DagState and Core.";;
    Ret (set_last_included last_included p, ancestors_to_propose, excluded).

(** *** The block *)

Definition ValidatorProposer_should_propose p s : bool :=
  let clock_round := DagState_threshold_clock_round s in
  if ctx_propagation_delay_stop_proposal_threshold (vp_context p) <? vp_propagation_delay p then false
  else
    match vp_last_known_proposed_round p with
    | None => false
    | Some last_known_proposed_round => negb (clock_round <=? last_known_proposed_round)
    end.

(** The checks before an unforced proposal: the leaders of the previous round are there and the minimum delay has passed.  A
    [Duration] is in nanoseconds. *)
Definition ready_to_propose p s (leader_slots : list Slot) (timestamp_utc_ms : BlockTimestampMs) : M bool :=
  leaders_exist ← forall_slots (DagState_contains_cached_block_at_slot s) leader_slots;
  if leaders_exist : bool then
    last ← last_proposed_block s;
    Ret (negb ((timestamp_utc_ms - b_timestamp_ms (last : VerifiedBlock)) * 1000000 <? ctx_min_round_delay (vp_context p)))
  else Ret false.

(** The newly linked history, and the votes on its transactions with the cutoff round that they are signed with. *)
Definition own_transaction_votes p s (tracker : VoteTrackerState) (ancestors : list VerifiedBlock)
    : M (DagState S * list BlockTransactionVotes * Round) :=
  let config := ctx_protocol_config (vp_context p) in
  let cutoff_round := DagState_gc_round s in
  if pc_transaction_voting_enabled config then
    '(s, new_causal_history) ←
      foldM (λ (acc : DagState S * list BlockRef) (ancestor : VerifiedBlock),
               '(s, linked) ← DagState_link_causal_history acc.1 (reference ancestor); Ret (s, acc.2 ++ linked))
        (s, []) ancestors;
    let vote_targets := filter (λ block_ref, cutoff_round < br_round block_ref) new_causal_history in
    transaction_votes ← TransactionVoteTracker_get_own_votes tracker vote_targets;
    '(transaction_votes, cutoff_round) ←
      (if pc_enable_v3 config then
         limit ← max_transaction_vote_targets (vp_context p);
         truncate_transaction_votes transaction_votes limit cutoff_round
       else Ret (transaction_votes, cutoff_round));
    u64_sum ((λ votes, N.of_nat (length (btv_rejects votes))) <$> transaction_votes);;
    Ret (s, transaction_votes, cutoff_round)
  else Ret (s, [], cutoff_round).

Definition create_block p (clock_round : Round) (now : BlockTimestampMs) (ancestors : list VerifiedBlock)
    (transactions : list Transaction) (transaction_votes : list BlockTransactionVotes) (transaction_votes_cutoff_round : Round)
    (commit_votes : list CommitVote) : Block :=
  let config := ctx_protocol_config (vp_context p) in
  let epoch := Committee_epoch (ctx_committee (vp_context p)) in
  let own_index := ctx_own_index (vp_context p) in
  let ancestors := reference <$> ancestors in
  if pc_enable_v3 config then
    BV3 (mkBlockV3 epoch clock_round own_index now ancestors transactions transaction_votes transaction_votes_cutoff_round commit_votes [])
  else if pc_transaction_voting_enabled config then
    BV2 (mkBlockV2 epoch clock_round own_index now ancestors transactions transaction_votes commit_votes [])
  else BV1 (mkBlockV1 epoch clock_round own_index now ancestors transactions commit_votes []).

Definition sign_block p (block : Block) : M VerifiedBlock :=
  match SignedBlock_new block (vp_block_signer p) with
  | Err _ => Panic (Expected "Block signing failed.")
  | Ok signed_block =>
      match bcs_signed_block signed_block with
      | None => Panic (Expected "Block serialization failed.")
      | Some serialized => Ret (VerifiedBlock_new_verified signed_block serialized)
      end
  end.

(** The lookups of host names for the metrics of a proposal. *)
Definition proposal_metrics p (leader_slots : list Slot) (ancestors : list VerifiedBlock) : M unit :=
  let c := ctx_committee (vp_context p) in
  (if pc_enable_v3 (ctx_protocol_config (vp_context p)) then Ret tt
   else leader_slot ← expect (head leader_slots) "unwrap"; Committee_authority c (slot_authority leader_slot);; Ret tt);;
  mapP (λ ancestor : VerifiedBlock, Committee_authority c (b_author ancestor)) ancestors;;
  Ret tt.

(** The rest of a proposal once its ancestors are known. *)
Definition propose_with_ancestors p (sh : shared) (clock_round : Round) (leader_slots : list Slot) (now : BlockTimestampMs)
    (ancestors : list VerifiedBlock) (excluded : gset BlockRef) : M (ValidatorProposer * shared * ExtendedBlock) :=
  let config := ctx_protocol_config (vp_context p) in
  excluded_ancestors_limit ← u64_mul (Committee_size (ctx_committee (vp_context p))) 2;
  let excluded_ancestors := take (N.to_nat excluded_ancestors_limit) (bset_list excluded) in
  last_included ← foldM (λ l (ancestor : VerifiedBlock), index_update l (b_author ancestor) (λ _, Some (reference ancestor)))
                    (vp_last_included_ancestors p) ancestors;
  let p := set_last_included last_included p in
  proposal_metrics p leader_slots ancestors;;
  '(pool, transactions, acks, _) ←
    pool_take (sh_transaction_pool sh) (pc_max_num_transactions_in_block config) (pc_max_transactions_in_block_bytes config);
  u64_sum (tx_len <$> transactions);;
  let '(s, commit_votes) := DagState_take_commit_votes (sh_dag_state sh) MAX_COMMIT_VOTES_PER_BLOCK in
  '(s, transaction_votes, cutoff_round) ← own_transaction_votes p s (sh_transaction_vote_tracker sh) ancestors;
  verified_block ← sign_block p (create_block p clock_round now ancestors transactions transaction_votes cutoff_round commit_votes);
  last_proposed_block s;;
  s ← DagState_accept_block s verified_block;
  '(s, tracker) ←
    (if pc_transaction_voting_enabled config then
       tracker ← VoteTrackerState_add_voted_blocks (sh_transaction_vote_tracker sh) [(verified_block, [])];
       '(s, _) ← DagState_link_causal_history s (reference verified_block);
       Ret (s, tracker)
     else Ret (s, sh_transaction_vote_tracker sh));
  s ← DagState_flush s;
  let pool := pool_ack pool acks (reference verified_block) in
  let extended_block := mkExtendedBlock verified_block excluded_ancestors in
  round_tracker ← RoundTracker_update_from_verified_block (sh_round_tracker sh) extended_block;
  Ret (p, mkShared s tracker round_tracker pool, extended_block).

(** [clock_ms] is the time read before the delay is checked, [now] the time of the block. *)
Definition ValidatorProposer_try_new_block p (sh : shared) (clock_ms now : BlockTimestampMs) (force : bool)
    : M (ValidatorProposer * shared * option ExtendedBlock) :=
  let s := sh_dag_state sh in
  if negb (ValidatorProposer_should_propose p s) then Ret (p, sh, None)
  else
    let clock_round := DagState_threshold_clock_round s in
    last ← last_proposed_block s;
    if clock_round <=? b_round (last : VerifiedBlock) then Ret (p, sh, None)
    else
      let quorum_round := clock_round - 1 in
      leader_slots ← ProposalLeaderWaiter_leader_slots_to_wait_for (vp_leader_waiter p) quorum_round;
      ready ← (if force then Ret true else ready_to_propose p s leader_slots clock_ms);
      if negb ready then Ret (p, sh, None)
      else
        '(p, ancestors, excluded) ←
          ValidatorProposer_smart_ancestors_to_propose p s (sh_round_tracker sh) clock_round (negb force) leader_slots;
        if bool_decide (ancestors = []) then
          assert_that (negb force) "Ancestors should have been returned if force is true!";;
          Ret (p, sh, None)
        else
          '(p, sh, extended_block) ← propose_with_ancestors p sh clock_round leader_slots now ancestors excluded;
          Ret (p, sh, Some extended_block).

Definition ValidatorProposer_last_proposed_round s : M Round :=
  block ← last_proposed_block s; Ret (b_round (block : VerifiedBlock)).

Definition ValidatorProposer_notify_own_blocks_committed (sh : shared) (block_refs : list BlockRef) (gc_round : Round) : M shared :=
  pool ← pool_notify_committed (sh_transaction_pool sh) block_refs gc_round;
  Ret (mkShared (sh_dag_state sh) (sh_transaction_vote_tracker sh) (sh_round_tracker sh) pool).
End Proposer.
