(* ===== verification/ProposerTruncate.v ===== *)
(** * Limiting the transaction votes of a proposal

    [truncate_transaction_votes] keeps complete rounds of vote targets, the newest ones, and signs the round up to which
    targets were removed. *)

From S2P Require Import Prelude BTree Config Block Commit Store StakeAggregator ThresholdClock LeaderScoring.
From S2P Require Import RoundTracker AncestorState DagState LeaderSchedule BaseCommitter UniversalCommitter BlockVerifier.
From S2P Require Import TransactionPool TransactionVoteTracker Proposer.
Local Open Scope N_scope.

Definition target_round (votes : BlockTransactionVotes) : Round := br_round (btv_block_ref votes).

Definition newest_first (l : list BlockTransactionVotes) : Prop :=
  StronglySorted (λ a b, target_round b ≤ target_round a) l.

Lemma pop_front_oldest_filter cutoff l :
  StronglySorted (λ a b, target_round a ≤ target_round b) l →
  pop_front_oldest cutoff l = filter (λ v, cutoff < target_round v) l.
Proof.
  induction 1 as [|v l Hl IH Hall]; [done|]. cbn [pop_front_oldest]. fold (target_round v). rewrite filter_cons.
  destruct (N.leb_spec (target_round v) cutoff).
  - rewrite decide_False by lia. exact IH.
  - rewrite decide_True by done. f_equal. symmetry. apply filter_all_in. rewrite Forall_forall in Hall. intros x Hx. specialize (Hall x Hx). lia.
Qed.

Lemma pop_oldest_filter cutoff l : newest_first l → pop_oldest cutoff l = filter (λ v, cutoff < target_round v) l.
Proof.
  intros Hs. unfold pop_oldest. rewrite pop_front_oldest_filter by (apply (StronglySorted_reverse _ _ Hs)).
  by rewrite filter_reverse, reverse_involutive.
Qed.

Lemma last_lookup_nonempty {A} (l : list A) : l ≠ [] → ∃ x, last l = Some x ∧ x ∈ l.
Proof. intros Hne. destruct (last l) as [x|] eqn:E; [|by apply last_None in E]. exists x. split; [done|]. by apply last_Some_elem_of. Qed.

Definition targets_above (cutoff : Round) (votes : list BlockTransactionVotes) : list BlockTransactionVotes :=
  filter (λ v, cutoff < target_round v) votes.

(** [cutoff] is the least round, not below [gc], with at most [limit] targets above it. *)
Definition least_cutoff (limit : N) (gc cutoff : Round) (votes : list BlockTransactionVotes) : Prop :=
  gc ≤ cutoff ∧ N.of_nat (length (targets_above cutoff votes)) ≤ limit ∧
  ∀ cutoff', gc ≤ cutoff' → cutoff' < cutoff → limit < N.of_nat (length (targets_above cutoff' votes)).

Lemma targets_above_above cutoff cutoff' votes :
  cutoff ≤ cutoff' → targets_above cutoff' (targets_above cutoff votes) = targets_above cutoff' votes.
Proof. intros Hle. unfold targets_above. rewrite list_filter_filter. apply list_filter_ext_in. intros x _. lia. Qed.

Lemma targets_above_sorted cutoff votes : newest_first votes → newest_first (targets_above cutoff votes).
Proof. apply StronglySorted_filter. Qed.

(** The loop after the targets up to [earlier] were popped, at a cutoff below which no cutoff will do. *)
Lemma truncate_loop_spec fuel limit gc cutoff earlier votes :
  newest_first votes → gc ≤ cutoff → earlier ≤ cutoff → (length (targets_above cutoff votes) < fuel)%nat →
  (∀ cutoff', gc ≤ cutoff' → cutoff' < cutoff → limit < N.of_nat (length (targets_above cutoff' votes))) →
  ∃ cutoff', truncate_loop fuel limit cutoff (targets_above earlier votes) = Ret (targets_above cutoff' votes, cutoff') ∧
    least_cutoff limit gc cutoff' votes.
Proof.
  intros Hs. revert cutoff earlier. induction fuel as [|fuel IH]; intros cutoff earlier Hgc He Hf Hmin; [lia|]. cbn [truncate_loop].
  rewrite pop_oldest_filter by (by apply targets_above_sorted). fold (targets_above cutoff (targets_above earlier votes)).
  rewrite targets_above_above by done. destruct (N.leb_spec (N.of_nat (length (targets_above cutoff votes))) limit) as [Hle|Hgt].
  { exists cutoff. split; [done|]. by split_and!. }
  destruct (last_lookup_nonempty (targets_above cutoff votes)) as (v & Hv & Hin); [intros E; rewrite E in Hgt; cbn in Hgt; lia|].
  rewrite Hv. cbn [expect mbind M_bind]. fold (target_round v).
  assert (∀ x, x ∈ targets_above cutoff votes → target_round v ≤ target_round x) as Hleast.
  { eapply (sorted_last (λ a b, target_round b ≤ target_round a)); [by apply targets_above_sorted|done]. Unshelve. intros x. lia. }
  assert (cutoff < target_round v) as Hcv by (by apply list_elem_of_filter in Hin as [? _]).
  apply IH; [lia|lia| |].
  - assert (length (targets_above (target_round v) votes) < length (targets_above cutoff votes))%nat; [|lia].
    rewrite <- (targets_above_above cutoff) by lia. apply length_filter_lt with v; [done|lia].
  - intros cutoff' Hgc' Hlt. destruct (decide (cutoff' < cutoff)) as [?|Hn]; [by apply Hmin|].
    assert (targets_above cutoff' votes = targets_above cutoff votes) as ->; [|done].
    rewrite <- (targets_above_above cutoff) by lia. apply filter_all_in. intros x Hx. specialize (Hleast x Hx). lia.
Qed.

(** C40: [truncate_transaction_votes] returns the least cutoff round, not below the garbage collection round, that leaves at most [limit]
    targets, and keeps exactly the targets above it, whatever the order in which the sort leaves targets of one round. *)
Theorem truncate_transaction_votes_exact `{UnstableSortLaws} votes limit gc :
  ∃ kept cutoff, truncate_transaction_votes votes limit gc = Ret (kept, cutoff) ∧
    kept ≡ₚ targets_above cutoff votes ∧ newest_first kept ∧ least_cutoff limit gc cutoff votes.
Proof.
  unfold truncate_transaction_votes. set (sorted := sort_unstable_by_round votes).
  assert (newest_first sorted) as Hs by apply sort_unstable_sorted. assert (sorted ≡ₚ votes) as Hp by apply sort_unstable_perm.
  assert (∀ c, targets_above c sorted ≡ₚ targets_above c votes) as Hta by (intros c; unfold targets_above; by rewrite Hp).
  assert (truncate_loop (Datatypes.S (length votes)) limit gc sorted = truncate_loop (Datatypes.S (length votes)) limit gc (targets_above gc sorted)) as ->.
  { cbn [truncate_loop]. rewrite (pop_oldest_filter gc sorted Hs). rewrite pop_oldest_filter by (by apply targets_above_sorted).
    fold (targets_above gc sorted). fold (targets_above gc (targets_above gc sorted)). by rewrite targets_above_above. }
  destruct (truncate_loop_spec (Datatypes.S (length votes)) limit gc gc gc sorted Hs) as (cutoff & -> & Hc1 & Hc2 & Hc3); [lia|lia| |intros; lia|].
  { rewrite Hta. unfold targets_above. pose proof (length_filter (λ v, gc < target_round v) votes). lia. }
  exists (targets_above cutoff sorted), cutoff. split; [done|]. split; [apply Hta|]. split; [by apply targets_above_sorted|].
  split; [done|]. rewrite <- Hta. split; [done|]. intros c Hc Hlt. rewrite <- Hta. by apply Hc3.
Qed.

(** An unstable sort that happens to be stable. *)
#[local] Instance stable_unstable_sort : UnstableSort := λ l, stable_sort (λ a b, target_round b <=? target_round a) l.

#[local] Instance stable_unstable_sort_laws : UnstableSortLaws.
Proof.
  split; [intros l; apply stable_sort_perm|]. intros l. unfold sort_unstable_by_round, stable_unstable_sort. 
  pose proof (stable_sort_sorted (λ a b, target_round b <=? target_round a)) as Hs. specialize (Hs ltac:(intros; rewrite !N.leb_le; lia)
    ltac:(intros *; rewrite !N.leb_le; lia) l).
  induction Hs as [|a k _ IH Hall]; constructor; [done|]. eapply Forall_impl; [exact Hall|]. intros b. apply N.leb_le.
Qed.

Definition sample_votes (round : Round) (author : AuthorityIndex) : BlockTransactionVotes :=
  mkBlockTransactionVotes (sample_ref round author) [0].

(** One target above the limit: the complete oldest round is removed. *)
Lemma truncate_transaction_votes_exact_witness :
  ∃ kept, truncate_transaction_votes [sample_votes 8 0; sample_votes 6 1; sample_votes 6 2; sample_votes 7 3] 3 5 = Ret (kept, 6) ∧
    target_round <$> kept = [8; 7].
Proof.
  destruct (truncate_transaction_votes_exact [sample_votes 8 0; sample_votes 6 1; sample_votes 6 2; sample_votes 7 3] 3 5)
    as (kept & cutoff & Hr & _). exists kept.
  assert (outcome_sat (truncate_transaction_votes [sample_votes 8 0; sample_votes 6 1; sample_votes 6 2; sample_votes 7 3] 3 5)
    (λ r, bool_decide (r.2 = 6 ∧ target_round <$> r.1 = [8; 7])) = true) as Hc by (vm_compute; reflexivity).
  rewrite Hr in Hc |- *. apply bool_decide_eq_true in Hc as [Hc1 Hc2]. cbn in Hc1. subst cutoff. split; [reflexivity|exact Hc2].
Defined.
