(* ===== verification/ProposerDag.v ===== *)
(** * What the proposer reads from the DAG state

    The last block of the proposer, the last block of every authority below a round, and the last block of an authority in a range of rounds,
    for a state that satisfies the invariant of DagTheory.v. *)

From S2P Require Import Prelude BTree Config Block Commit Store StakeAggregator ThresholdClock LeaderScoring.
From S2P Require Import RoundTracker AncestorState DagState DagTheory DagRecovery LeaderSchedule BaseCommitter UniversalCommitter BlockVerifier.
From S2P Require Import TransactionPool TransactionVoteTracker Proposer.
Local Open Scope N_scope.

(** The blocks of one author in a range of rounds. *)
Lemma author_range (lo hi : Round) (a x : AuthorityIndex) (r : BlockRef) :
  br_author r = a → x ≤ a →
  in_range (Included (mkBlockRef lo a BlockDigest_MIN)) (Excluded (mkBlockRef hi x BlockDigest_MIN)) r = true ↔ lo ≤ br_round r < hi.
Proof.
  destruct r as [r a' d]. intros [= ->] Hx.
  unfold in_range, above, below, le_ord, lt_ord, cmp, Ord_BlockRef, cmp, Ord_prod, BlockRef_tuple, lex.
  unfold cmp, Ord_N, BlockDigest_MIN; simpl. rewrite N.compare_refl.
  destruct (N.compare_spec lo r) as [->| |]; simpl.
  - destruct (N.compare_spec 0 d); simpl; [..|lia]; destruct (N.compare_spec r hi); simpl; destruct (N.compare_spec a x); simpl; try lia;
      destruct (N.compare_spec d 0); simpl; try lia; split; try done; lia.
  - destruct (N.compare_spec r hi); simpl; destruct (N.compare_spec a x); simpl; try lia;
      destruct (N.compare_spec d 0); simpl; try lia; split; try done; lia.
  - split; [done|lia].
Qed.

Lemma author_range_ok (lo hi : Round) (a x : AuthorityIndex) :
  lo < hi → range_ok (Included (mkBlockRef lo a BlockDigest_MIN)) (Excluded (mkBlockRef hi x BlockDigest_MIN)) = true.
Proof.
  intros Hlt. simpl. unfold le_ord, cmp, Ord_BlockRef, cmp, Ord_prod, lex, cmp, Ord_N; simpl.
  destruct (N.compare_spec lo hi); [lia|done|lia].
Qed.

Lemma foldM_fmap {A B C} (f : B → A → M B) (g : C → A) l b : foldM f b (g <$> l) = foldM (λ b c, f b (g c)) b l.
Proof. revert b. induction l as [|c l IH]; intros b; csimpl; [done|]. destruct (f b (g c)); cbn; [apply IH|done..]. Qed.

(** A loop over a vector with positions. *)
Lemma foldM_positions {A B} (f : B → nat * A → M B) (I : nat → B → Prop) l b :
  I O b → (∀ k x b, l !! k = Some x → I k b → ∃ b', f b (k, x) = Ret b' ∧ I (S k) b') →
  ∃ b', foldM f b (imap pair l) = Ret b' ∧ I (length l) b'.
Proof.
  revert f I b. induction l as [|x l IH]; intros f I b H0 Hstep; [by exists b|].
  destruct (Hstep O x b eq_refl H0) as (b1 & Hb1 & H1). rewrite imap_cons. cbn [foldM]. rewrite Hb1. cbn [mbind M_bind].
  replace (imap (pair ∘ S) l) with ((λ e : nat * A, (S e.1, e.2)) <$> imap pair l) by (by rewrite fmap_imap).
  rewrite foldM_fmap. apply (IH _ (λ k, I (S k))); [done|]. intros k y b2 Hk. by apply (Hstep (S k)).
Qed.

Lemma StronglySorted_lookup {A} (R : A → A → Prop) l :
  (∀ i j x y, (i < j)%nat → l !! i = Some x → l !! j = Some y → R x y) → StronglySorted R l.
Proof.
  induction l as [|a l IH]; intros Hl; constructor.
  - apply IH. intros i j x y Hij. apply (Hl (S i) (S j)). lia.
  - apply Forall_forall. intros y [k Hk]%list_elem_of_lookup. apply (Hl O (S k)); [lia|done|done].
Qed.

Lemma BlockRef_le_author (r r' : BlockRef) : br_round r = br_round r' → br_author r < br_author r' → le_ord r r' = true.
Proof.
  intros Hr Ha. unfold le_ord, cmp, Ord_BlockRef, cmp, Ord_prod, BlockRef_tuple, lex; simpl. rewrite Hr. unfold cmp, Ord_N. rewrite N.compare_refl.
  simpl. destruct (N.compare_spec (br_author r) (br_author r')); [lia|done|lia].
Qed.

Section Reads.
Context `{Profile} `{Crypto} {S : Type} `{StoreLaws S}.
Implicit Types s : DagState S.

(** ** The last block of an authority *)

Lemma block_below_cached s r b :
  ds_ok s → ds_block s r = Some b → br_round r = GENESIS_ROUND ∨
  ∃ r', is_Some (ds_cached s r') ∧ br_author r' = br_author r ∧ br_round r ≤ br_round r'.
Proof.
  intros Hok. rewrite ds_block_cached. destruct (N.eqb_spec (br_round r) GENESIS_ROUND) as [E|_]; [by left|].
  destruct (ds_cached s r) as [b'|] eqn:Hc; [intros _; right; exists r; split; [by eexists|done]|]. intros Hb. right. by eapply ok_frontier.
Qed.

(** [b] is the newest block of authority [i]. *)
Definition newest_of s (i : AuthorityIndex) (b : VerifiedBlock) : Prop :=
  b_author b = i ∧ ds_block s (reference b) = Some b ∧ ∀ r, br_author r = i → is_Some (ds_block s r) → br_round r ≤ b_round b.

Lemma last_block_spec s i :
  ds_ok s → i ∈ members (DagState_committee s) →
  ∃ b, DagState_get_last_block_for_authority s i = Ret b ∧ newest_of s i b.
Proof.
  intros Hok Hi. unfold DagState_get_last_block_for_authority.
  destruct (index_member s _ _ (ok_refs_len s Hok) Hi) as [refs Hrefs]. rewrite (proj2 (index_Ret _ i refs) Hrefs). cbn [mbind M_bind].
  pose proof (ok_refs s Hok i refs Hrefs) as Helem. destruct (bset_last refs) as [l|] eqn:El.
  - apply bset_last_Some in El as [[Ha [b Hb]]%Helem Hmax]. pose proof Hb as Hb'. unfold ds_cached in Hb'.
    destruct (ds_recent_blocks s !! l) as [info|] eqn:Ei; [|done]. injection Hb' as Eb. cbn [expect mbind M_bind]. eexists. split; [done|]. rewrite Eb.
    destruct (ok_cached s Hok l b Hb) as (Hr & _). split; [by rewrite <- Ha, <- Hr|]. split; [by rewrite Hr; apply cached_is_block|].
    intros r Har [b' [Hz|(r' & Hc' & Har' & Hle)]%(block_below_cached s r b' Hok)]; [rewrite Hz; unfold GENESIS_ROUND; lia|].
    assert (le_ord r' l = true) as Hle'%BlockRef_le_round by (apply Hmax, Helem; by rewrite Har', Har).
    change (b_round b) with (br_round (reference b)). rewrite Hr. lia.
  - apply bset_last_None in El. destruct (ok_genesis_author s Hok i Hi) as (r0 & b0 & Hg & Ha).
    destruct (filter (λ e, br_author e.1 = i) (bmap_list (ds_genesis s))) as [|[r1 b1] rest] eqn:Ef.
    { assert ((r0, b0) ∈ filter (λ e, br_author e.1 = i) (bmap_list (ds_genesis s))) as Hf
        by (apply list_elem_of_filter; split; [done|by apply bmap_list_elem]). rewrite Ef in Hf. by apply not_elem_of_nil in Hf. }
    assert ((r1, b1) ∈ filter (λ e, br_author e.1 = i) (bmap_list (ds_genesis s))) as [Ha1 Hg1%bmap_list_elem]%list_elem_of_filter
      by (rewrite Ef; left). cbn in Ha1. cbn [head expect mbind M_bind]. eexists. split; [done|].
    destruct (ok_genesis s Hok r1 b1 Hg1) as [Hr1 Hz1]. split; [by rewrite <- Ha1, <- Hr1|]. split.
    + rewrite Hr1. unfold ds_block. rewrite (proj2 (N.eqb_eq _ _) Hz1). done.
    + intros r Har [b' [Hz|(r' & Hc' & Har' & Hle)]%(block_below_cached s r b' Hok)]; [rewrite Hz; unfold GENESIS_ROUND; lia|].
      assert (r' ∈ refs) as Hin by (apply Helem; by rewrite Har', Har). rewrite El in Hin. by apply not_elem_of_empty in Hin.
Qed.

Lemma last_proposed_block_spec s :
  ds_ok s → ctx_own_index (ds_context s) ∈ members (DagState_committee s) →
  ∃ b, last_proposed_block s = Ret b ∧ newest_of s (ctx_own_index (ds_context s)) b.
Proof.
  intros Hok Hown. destruct (last_block_spec s _ Hok Hown) as (b & Hb & Hn). exists b. split; [|done].
  unfold last_proposed_block, DagState_get_last_proposed_block, Context_is_validator.
  apply members_spec in Hown. unfold DagState_committee in Hown. rewrite Hown, Hb. done.
Qed.

(** ** The last block in a range of rounds *)

Lemma last_cached_in_range_spec s i lo hi :
  ds_ok s → i ∈ members (DagState_committee s) →
  ∃ o, DagState_get_last_cached_block_in_range s i lo hi = Ret o ∧
    ∀ b, o = Some b → b_author b = i ∧ lo ≤ b_round b < hi ∧ ds_cached s (reference b) = Some b.
Proof.
  intros Hok Hi. unfold DagState_get_last_cached_block_in_range. destruct (N.leb_spec hi lo) as [Hle|Hlt]; [by eexists|].
  destruct (index_member s _ _ (ok_refs_len s Hok) Hi) as [refs Hrefs]. rewrite (proj2 (index_Ret _ i refs) Hrefs). cbn [mbind M_bind].
  unfold bset_range. rewrite author_range_ok by done. cbn [mbind M_bind]. eexists. split; [done|].
  intros b. destruct (last _) as [r|] eqn:El; [|done]. cbn [mbind option_bind].
  apply last_Some_elem_of, list_elem_of_filter in El as [Hin [Ha [b' Hb']]%bset_list_elem%(ok_refs s Hok i refs Hrefs)].
  intros Hb. unfold ds_cached in Hb'. assert (ds_cached s r = Some b) as Hc by (unfold ds_cached; done).
  destruct (ok_cached s Hok r b Hc) as (Hr & _). apply author_range in Hin; [|done|unfold AuthorityIndex_ZERO; lia].
  change (b_author b) with (br_author (reference b)). change (b_round b) with (br_round (reference b)). by rewrite Hr.
Qed.

(** ** The last block of every authority below a round *)

(** [b] is of authority [i], below [hi], and not below any cached block of [i] between [lo] and [hi]. *)
Definition last_between s (lo hi : Round) (i : AuthorityIndex) (b : VerifiedBlock) : Prop :=
  b_author b = i ∧ b_round b < hi ∧ ds_block s (reference b) = Some b ∧
  ∀ r, br_author r = i → is_Some (ds_cached s r) → lo < br_round r < hi → br_round r ≤ b_round b.

Lemma last_cached_loop_equivocating s i last_round blocks equivocating refs eqs :
  equivocating !! N.to_nat i = Some eqs → last_round ≠ 0 →
  ∃ n, last_cached_loop s i last_round blocks equivocating refs = Ret (blocks, <[N.to_nat i := eqs ++ take n refs]> equivocating).
Proof.
  revert equivocating eqs. induction refs as [|r refs IH]; intros equivocating eqs Heq Hne; cbn [last_cached_loop].
  { exists 0%nat. by rewrite app_nil_r, list_insert_id. }
  rewrite (proj2 (N.eqb_neq _ _) Hne). destruct (br_round r <? last_round).
  { exists 0%nat. by rewrite app_nil_r, list_insert_id. }
  unfold index_update at 1. rewrite Heq. cbn [mbind M_bind].
  destruct (IH (<[N.to_nat i := eqs ++ [r]]> equivocating) (eqs ++ [r])) as (n & ->); [|done|].
  { apply list_lookup_insert_eq. by eapply lookup_lt_Some. }
  exists (Datatypes.S n). by rewrite list_insert_insert_eq, <- (assoc_L (++)).
Qed.

Lemma last_cached_step_spec s hi k refs er blocks equivocating (b0 : VerifiedBlock) eqs :
  ds_ok s → hi < 2 ^ 32 → ds_recent_refs_by_authority s !! k = Some refs → ds_evicted_rounds s !! k = Some er → er < hi - 1 →
  blocks !! k = Some b0 → equivocating !! k = Some eqs → (∀ r, r ∈ eqs → br_author r = N.of_nat k) →
  b_author b0 = N.of_nat k → b_round b0 = GENESIS_ROUND → ds_block s (reference b0) = Some b0 →
  ∃ b eqs', last_cached_step s hi (blocks, equivocating) (k, refs) = Ret (<[k := b]> blocks, <[k := eqs']> equivocating) ∧
    last_between s er hi (N.of_nat k) b ∧ ∀ r, r ∈ eqs' → br_author r = N.of_nat k.
Proof.
  intros Hok Hhi Hrefs Her Hlt Hb0 Heqs Heqa Ha0 Hz0 Hd0. unfold last_cached_step. cbn [fst snd].
  assert (N.of_nat k ∈ members (DagState_committee s)) as Hk.
  { apply members_spec. unfold Committee_is_valid_index, Committee_size. apply N.ltb_lt. rewrite <- (ok_refs_len s Hok).
    apply lookup_lt_Some in Hrefs. lia. }
  assert (Committee_to_authority_index (DagState_committee s) (N.of_nat k) = Some (N.of_nat k)) as ->.
  { apply members_spec in Hk. unfold Committee_to_authority_index, Committee_is_valid_index in *. rewrite Hk.
    pose proof (wf_size _ (ok_committee s Hok)). nbool. by rewrite N.mod_small by lia. }
  cbn [fst snd expect mbind M_bind]. rewrite (proj2 (index_Ret (ds_evicted_rounds s) (N.of_nat k) er)) by (by rewrite Nat2N.id). cbn [mbind M_bind].
  destruct (N.leb_spec (hi - 1) er) as [?|_]; [lia|]. rewrite (int_add_exact 32) by lia. cbn [mbind M_bind].
  unfold bset_range. rewrite author_range_ok by lia. cbn [mbind M_bind]. set (keys := filter _ _).
  assert (∀ r, r ∈ keys ↔ br_author r = N.of_nat k ∧ is_Some (ds_cached s r) ∧ er < br_round r < hi) as Hkeys.
  { intros r. unfold keys. rewrite list_elem_of_filter, bset_list_elem, (ok_refs s Hok (N.of_nat k) refs) by (by rewrite Nat2N.id).
    split; [intros (Hr & Ha & Hc); apply author_range in Hr; [|done..]; by split_and!; try lia|].
    intros (Ha & Hc & Hr). split; [apply author_range; [done|done|lia]|done]. }
  assert (StronglySorted (λ a b, le_ord b a = true) (reverse keys)) as Hsort.
  { apply (StronglySorted_reverse (λ a b, le_ord a b = true)), StronglySorted_filter, bset_list_sorted. }
  cbn [fst snd]. destruct (reverse keys) as [|r rest] eqn:Erev.
  - assert (keys = []) as Ekeys by (by rewrite <- (reverse_involutive keys), Erev).
    cbn [last_cached_loop]. exists b0, eqs. rewrite !list_insert_id by done. split; [done|]. split; [|done]. split_and!; [done| |done|].
    + rewrite Hz0. unfold GENESIS_ROUND. lia.
    + intros r Ha Hc Hr. assert (r ∈ keys) as Hin by (by apply Hkeys). rewrite Ekeys in Hin. by apply not_elem_of_nil in Hin.
  - assert (r ∈ keys) as Hr by (rewrite <- elem_of_reverse, Erev; left). apply Hkeys in Hr as (Ha & [b Hb] & Hr).
    cbn [last_cached_loop]. rewrite N.eqb_refl. pose proof Hb as Hb'. unfold ds_cached in Hb'.
    destruct (ds_recent_blocks s !! r) as [info|] eqn:Ei; [|done]. injection Hb' as Eb. cbn [expect mbind M_bind].
    unfold index_update at 1. rewrite Nat2N.id, Hb0. cbn [mbind M_bind].
    destruct (last_cached_loop_equivocating s (N.of_nat k) (br_round r) (<[k := bi_block info]> blocks) equivocating rest eqs) as (n & ->);
      [by rewrite Nat2N.id|lia|]. rewrite Nat2N.id, Eb. exists b, (eqs ++ take n rest). split; [done|].
    destruct (ok_cached s Hok r b Hb) as (Hrb & _). split.
    + unfold last_between. change (b_author b) with (br_author (reference b)). change (b_round b) with (br_round (reference b)). rewrite Hrb.
      split; [done|]. split; [lia|]. split; [by apply cached_is_block|]. intros r' Ha' Hc' Hr'.
      assert (r' ∈ r :: rest) as [->|Hin]%elem_of_cons by (rewrite <- Erev, elem_of_reverse; by apply Hkeys); [done|].
      apply StronglySorted_cons in Hsort as [Hall _]. rewrite Forall_forall in Hall. by apply BlockRef_le_round, Hall.
    + intros r' [Hr'|Hr'%elem_of_take]%elem_of_app; [by apply Heqa|]. destruct Hr' as (j & Hj & _). apply list_elem_of_lookup_2 in Hj.
      apply Hkeys. rewrite <- elem_of_reverse, Erev. by right.
Qed.

Lemma genesis_blocks_lookup ctx gs k (b : VerifiedBlock) :
  Committee_wf (ctx_committee ctx) → genesis_blocks ctx = Ret gs → gs !! k = Some b → b_round b = GENESIS_ROUND ∧ b_author b = N.of_nat k.
Proof.
  intros Hwf Hgs Hk. unfold genesis_blocks in Hgs. rewrite mapP_Forall2 in Hgs.
  destruct (Forall2_lookup_r _ _ _ _ _ Hgs Hk) as ([i a] & Hi & Hb). apply genesis_block_fields in Hb as [? ->]. split; [done|]. cbn.
  unfold Committee_authorities_iter in Hi. rewrite list_lookup_imap_Some in Hi. destruct Hi as (a' & Ha & [= -> _]).
  pose proof (wf_size _ Hwf) as Hsz. unfold Committee_size in Hsz. apply lookup_lt_Some in Ha. by rewrite N.mod_small by lia.
Qed.

Lemma genesis_map_elem ctx gs r b :
  Committee_wf (ctx_committee ctx) → genesis_blocks ctx = Ret gs →
  NoDup (reference <$> gs) ∧ (genesis_map gs !! r = Some b ↔ (r, b) ∈ (λ b, (reference b, b)) <$> gs).
Proof.
  intros Hwf Hgs. pose proof (genesis_blocks_lookup ctx gs) as Hl.
  assert (NoDup (reference <$> gs)) as Hnd.
  { apply NoDup_alt. intros i j r'. rewrite !list_lookup_fmap. intros (b1 & Hb & ->)%fmap_Some (b' & Hb' & Heq)%fmap_Some.
    destruct (Hl i b1 Hwf Hgs Hb) as [_ Ha], (Hl j b' Hwf Hgs Hb') as [_ Ha']. injection Heq as _ Hau _. lia. }
  split; [done|]. unfold genesis_map. rewrite <- elem_of_list_to_map; [by rewrite elem_of_reverse|].
  rewrite fmap_reverse, reverse_Permutation, <- list_fmap_compose. exact Hnd.
Qed.

Lemma genesis_list ctx gs :
  Committee_wf (ctx_committee ctx) → genesis_blocks ctx = Ret gs →
  bmap_list (genesis_map gs) = (λ b, (reference b, b)) <$> gs.
Proof.
  intros Hwf Hgs. pose proof (genesis_blocks_lookup ctx gs) as Hl. pose proof (λ r b, genesis_map_elem ctx gs r b Hwf Hgs) as Hmap.
  apply (StronglySorted_unique_strong (λ x y, le_ord x.1 y.1 = true)).
  - intros [r1 b1] [r2 b2] Hx1%bmap_list_elem Hx2 Hle1 Hle2. pose proof (le_ord_antisym _ _ Hle1 Hle2) as Heq. cbn in Heq. subst r2.
    apply (proj2 (proj2 (Hmap r1 b2))) in Hx2. congruence.
  - apply bmap_list_sorted.
  - apply (StronglySorted_fmap _ (λ b b' : VerifiedBlock, le_ord (reference b) (reference b') = true)); [done|].
    apply StronglySorted_lookup. intros i j b b' Hij Hb Hb'. destruct (Hl i b Hwf Hgs Hb) as [Hr Ha], (Hl j b' Hwf Hgs Hb') as [Hr' Ha'].
    apply BlockRef_le_author; cbn; [by rewrite Hr, Hr'|lia].
  - apply NoDup_Permutation.
    + apply (NoDup_fmap_1 fst), bmap_list_NoDup.
    + apply (NoDup_fmap_1 fst). rewrite <- list_fmap_compose. apply (Hmap BlockRef_MIN (sample_block 0 0 0 [])).
    + intros [r b]. rewrite bmap_list_elem. apply Hmap.
Qed.

(** The genesis blocks of the state are those of its context. *)
Definition genesis_ok s : Prop := ∃ gs, genesis_blocks (ds_context s) = Ret gs ∧ ds_genesis s = genesis_map gs.

Lemma last_per_authority_spec s hi :
  ds_ok s → genesis_ok s → 0 < hi → hi < 2 ^ 32 → hi = 1 ∨ DagState_gc_round s < hi - 1 →
  ∃ l, DagState_get_last_cached_block_per_authority s hi = Ret l ∧ length l = length (Committee_authorities (DagState_committee s)) ∧
    ∀ k b eqs, l !! k = Some (b, eqs) →
      last_between s (DagState_gc_round s) hi (N.of_nat k) b ∧ ∀ r, r ∈ eqs → br_author r = N.of_nat k.
Proof.
  intros Hok (gs & Hgs & Hg) Hpos Hhi Hgc. pose proof (ok_committee s Hok) as Hwf. unfold DagState_committee in *.
  unfold DagState_get_last_cached_block_per_authority, DagState_committee. rewrite Hg, (genesis_list (ds_context s) gs) by done.
  assert (((λ b : VerifiedBlock, (reference b, b)) <$> gs).*2 = gs) as -> by (rewrite <- list_fmap_compose; apply list_fmap_id).
  assert (length gs = length (Committee_authorities (ctx_committee (ds_context s)))) as Hlen.
  { unfold genesis_blocks in Hgs. rewrite mapP_Forall2 in Hgs. rewrite <- (Forall2_length _ _ _ Hgs). unfold Committee_authorities_iter.
    by rewrite length_imap. }
  assert (∀ k (b : VerifiedBlock), gs !! k = Some b → b_author b = N.of_nat k ∧ b_round b = GENESIS_ROUND ∧ ds_block s (reference b) = Some b) as Hgen.
  { intros k b Hk. destruct (genesis_blocks_lookup _ gs k b Hwf Hgs Hk) as [Hr Ha]. split; [done|]. split; [done|].
    unfold ds_block. cbn. rewrite Hr, N.eqb_refl, Hg. apply (genesis_map_elem (ds_context s) gs _ _ Hwf Hgs). apply list_elem_of_fmap. exists b.
    split; [|by eapply list_elem_of_lookup_2]. unfold reference. by rewrite Hr. }
  set (n := length (Committee_authorities (ctx_committee (ds_context s)))) in *. unfold GENESIS_ROUND at 1 2.
  destruct (N.eqb_spec hi 0) as [?|_]; [lia|]. destruct (N.eqb_spec hi (0 + 1)) as [->|Hne].
  { eexists. split; [done|]. rewrite length_fmap. split; [done|]. intros k b eqs Hk. rewrite list_lookup_fmap in Hk.
    destruct (gs !! k) as [b'|] eqn:Eb; [|done]. injection Hk as <- <-. destruct (Hgen k b' Eb) as (Ha & Hr & Hd).
    split; [|by intros r Hr'%not_elem_of_nil]. split_and!; [done|rewrite Hr; unfold GENESIS_ROUND; lia|done|]. intros r _ _. lia. }
  assert (DagState_gc_round s < hi - 1) as Hgc' by (destruct Hgc; [lia|done]).
  set (I := λ (k : nat) (acc : list VerifiedBlock * list (list BlockRef)),
    length acc.1 = n ∧ length acc.2 = n ∧
    (∀ j b, (k ≤ j)%nat → acc.1 !! j = Some b → gs !! j = Some b) ∧ (∀ j eqs, (k ≤ j)%nat → acc.2 !! j = Some eqs → eqs = []) ∧
    ∀ j b eqs, (j < k)%nat → acc.1 !! j = Some b → acc.2 !! j = Some eqs →
      last_between s (DagState_gc_round s) hi (N.of_nat j) b ∧ ∀ r, r ∈ eqs → br_author r = N.of_nat j).
  destruct (foldM_positions (last_cached_step s hi) I (ds_recent_refs_by_authority s)
    (gs, replicate (N.to_nat (Committee_size (ctx_committee (ds_context s)))) [])) as ([blocks eqvs] & -> & Hb & He & _ & _ & Hall).
  - unfold I. cbn [fst snd]. split; [done|]. split; [unfold Committee_size; rewrite length_replicate; lia|]. split; [done|].
    split; [by intros j eqs _ [-> _]%lookup_replicate|]. intros; lia.
  - intros k refs [blocks eqvs] Hk (Hlb & Hle & Hgb & Hge & Hdone). cbn [fst snd] in *.
    pose proof (lookup_lt_Some _ _ _ Hk) as Hkn. rewrite (ok_refs_len s Hok) in Hkn. unfold DagState_committee in Hkn. fold n in Hkn.
    destruct (lookup_lt_is_Some_2 blocks k) as [b0 Hb0]; [lia|]. destruct (lookup_lt_is_Some_2 eqvs k) as [eqs Heqs]; [lia|].
    destruct (lookup_lt_is_Some_2 (ds_evicted_rounds s) k) as [er Her]; [rewrite (ok_evicted_len s Hok); exact Hkn|].
    destruct (Hgen k b0) as (Ha0 & Hr0 & Hd0); [by apply Hgb|]. pose proof (Hge k eqs (le_n k) Heqs) as ->.
    pose proof (ok_evicted_gc s Hok (N.of_nat k) er ltac:(by rewrite Nat2N.id)) as Hergc.
    destruct (last_cached_step_spec s hi k refs er blocks eqvs b0 []) as (b & eqs & -> & (Hba & Hbr & Hbd & Hmax) & Heqa); try done; [lia|set_solver|].
    eexists. split; [done|]. unfold I. cbn [fst snd]. rewrite !length_insert. split; [done|]. split; [done|]. split; [|split].
    + intros j x Hj. rewrite list_lookup_insert_ne by lia. apply Hgb. lia.
    + intros j x Hj. rewrite list_lookup_insert_ne by lia. apply Hge. lia.
    + intros j x y Hj. destruct (decide (j = k)) as [->|Hjk].
      * rewrite !list_lookup_insert_eq by lia. intros [= <-] [= <-]. split; [|done]. split_and!; [done..|]. intros r Har Hc Hr. apply Hmax; [done..|lia].
      * rewrite !list_lookup_insert_ne by done. apply Hdone. lia.
  - cbn [mbind M_bind]. eexists. split; [done|]. split.
    + cbn [fst snd] in *. rewrite length_zip_with. lia.
    + intros k b eqs Hk. apply lookup_zip_with_Some in Hk as (b' & eqs' & [= <- <-] & Hk1 & Hk2). apply (Hall k b eqs); [|done..].
      apply lookup_lt_Some in Hk1. rewrite (ok_refs_len s Hok). cbn [fst snd] in *. unfold DagState_committee. lia.
Qed.
End Reads.
