(* ===== verification/ProposerHistory.v ===== *)
(** * The history and the votes of a proposal

    Linking the ancestors of a proposal collects the blocks that no earlier own block has in its history, each once; the
    proposal votes on the transactions of exactly these blocks. *)

From S2P Require Import Prelude BTree Config Block Commit Store StakeAggregator ThresholdClock LeaderScoring.
From S2P Require Import DagState DagTheory DagRecovery DagTraversal BlockVerifier TransactionVoteTracker VoteTrackerTheory ProposerDag.
Local Open Scope N_scope.

Section History.
Context `{Profile} {S : Type} `{StoreLaws S}.
Implicit Types s : DagState S.

(** Ancestors have lower rounds, and are there above the garbage collection round. *)
Definition dag_closed s : Prop :=
  ∀ r b a, ds_block s r = Some b → a ∈ b_ancestors b →
    br_round a < br_round r ∧ (DagState_gc_round s < br_round a → is_Some (ds_block s a)).

Lemma cached_recent s r : is_Some (ds_cached s r) ↔ is_Some (ds_recent_blocks s !! r).
Proof. unfold ds_cached. by rewrite fmap_is_Some. Qed.

Lemma dag_closed_linkable s root :
  ds_ok s → dag_closed s → is_Some (ds_block s root) → linkable (DagState_gc_round s) root (ds_recent_blocks s).
Proof.
  intros Hok Hcl Hroot.
  assert (∀ r, is_Some (ds_block s r) → DagState_gc_round s < br_round r → is_Some (ds_recent_blocks s !! r)) as Hrec.
  { intros r [b Hb] Hr. apply cached_recent. exists b. by apply block_above_gc_cached. }
  apply cache_closed_linkable; [|intros Hr; by apply Hrec]. intros r info Hi. apply Forall_forall. intros a Ha Hgc. apply Hrec; [|done].
  refine (proj2 (Hcl r (bi_block info) a _ Ha) Hgc). apply cached_is_block; [done|]. unfold ds_cached. by rewrite Hi.
Qed.

(** The history of the blocks [roots] that is not yet included in an own block. *)
Definition new_history s (roots : list BlockRef) (r : BlockRef) : Prop :=
  (∃ root, root ∈ roots ∧ rtc (fresh_link (DagState_gc_round s) (ds_recent_blocks s)) root r) ∧
  ∃ info, fresh (DagState_gc_round s) (ds_recent_blocks s) r info.

(** [s'] is [s] after the blocks [l] were marked as included. *)
Record marked s (l : list BlockRef) s' : Prop := {
  mk_view : same_view s s' ∧ ds_last_commit s' = ds_last_commit s;
  mk_marks : ∀ r, ds_recent_blocks s' !! r = if bool_decide (r ∈ l) then mark_included <$> ds_recent_blocks s !! r else ds_recent_blocks s !! r;
}.

Lemma marked_gc s l s' : marked s l s' → DagState_gc_round s' = DagState_gc_round s.
Proof. intros [[Hv Hl] _]. unfold DagState_gc_round, DagState_calculate_gc_round, DagState_last_commit_round, DagState_protocol_config. by rewrite (sv_context _ _ Hv), Hl. Qed.

Lemma marked_fresh s l s' gc r :
  marked s l s' → (∃ info, fresh gc (ds_recent_blocks s') r info) ↔ r ∉ l ∧ ∃ info, fresh gc (ds_recent_blocks s) r info.
Proof.
  intros [_ Hm]. unfold fresh. rewrite (Hm r). case_bool_decide as Hr; [|naive_solver]. split; [|by intros [? _]].
  intros (info & _ & Hi & Hinc). apply fmap_Some in Hi as (i0 & _ & ->). done.
Qed.

Lemma marked_link s l s' gc r a :
  marked s l s' → fresh_link gc (ds_recent_blocks s') r a ↔ r ∉ l ∧ fresh_link gc (ds_recent_blocks s) r a.
Proof.
  intros [_ Hm]. unfold fresh_link, fresh. rewrite (Hm r). case_bool_decide as Hr; [|naive_solver]. split; [|by intros [? _]].
  intros (info & (_ & Hi & Hinc) & _). apply fmap_Some in Hi as (i0 & _ & ->). done.
Qed.

Lemma marked_none s : marked s [] s.
Proof. split; [by split; [split|]|]. intros r. by rewrite bool_decide_eq_false_2 by apply not_elem_of_nil. Qed.

Lemma marked_trans s l s1 l' s2 : marked s l s1 → marked s1 l' s2 → marked s (l ++ l') s2.
Proof.
  intros [[V1 C1] M1] [[V2 C2] M2]. split.
  - split; [|by rewrite C2]. destruct V1, V2. split; congruence.
  - intros r. rewrite M2, M1. rewrite (bool_decide_ext (r ∈ l ++ l') (r ∈ l ∨ r ∈ l')) by apply elem_of_app.
    destruct (decide (r ∈ l)), (decide (r ∈ l'));
      repeat first [rewrite bool_decide_eq_true_2 by tauto|rewrite bool_decide_eq_false_2 by tauto]; try done.
    all: by destruct (ds_recent_blocks s !! r).
Qed.

Lemma marked_ok s l s' : ds_ok s → marked s l s' → ds_ok s'.
Proof. intros Hok Hm. destruct (mk_view _ _ _ Hm) as [Hv _]. apply (same_view_ok s s' Hv); [|done]. by rewrite (marked_gc _ _ _ Hm). Qed.

Lemma marked_block s l s' r : marked s l s' → ds_block s' r = ds_block s r.
Proof. intros [[Hv _] _]. by apply same_view_block. Qed.

Lemma marked_closed s l s' : marked s l s' → dag_closed s → dag_closed s'.
Proof.
  intros Hm Hcl r b a. rewrite !(marked_block _ _ _ _ Hm), (marked_gc _ _ _ Hm). apply Hcl.
Qed.

(** Reachability after the closed set [l] was marked. *)
Lemma marked_reach s l s' gc root r :
  marked s l s' → (∀ x y, x ∈ l → fresh_link gc (ds_recent_blocks s) x y → (∃ info, fresh gc (ds_recent_blocks s) y info) → y ∈ l) →
  (∃ info, fresh gc (ds_recent_blocks s) r info) → r ∉ l →
  rtc (fresh_link gc (ds_recent_blocks s')) root r ↔ rtc (fresh_link gc (ds_recent_blocks s)) root r.
Proof.
  intros Hm Hcl Hf Hr. split.
  - apply rtc_subrel. intros x y Hxy. by apply (marked_link s l s' gc x y Hm) in Hxy as [_ ?].
  - intros Hreach. revert Hf Hr. pattern r. revert r Hreach. apply rtc_ind_r; [constructor|]. intros y z Hroot Hyz IH Hf Hr.
    assert (∃ info, fresh gc (ds_recent_blocks s) y info) as Hfy by (destruct Hyz as (info & ? & _); by exists info).
    assert (y ∉ l) as Hy by (intros Hy; apply Hr; by eapply Hcl).
    eapply rtc_r; [by apply IH|]. by apply (marked_link s l s' gc y z Hm).
Qed.

Lemma new_history_snoc s roots root r :
  new_history s (roots ++ [root]) r ↔ new_history s roots r ∨ new_history s [root] r.
Proof. unfold new_history. setoid_rewrite elem_of_app. setoid_rewrite list_elem_of_singleton. naive_solver. Qed.

(** Linking the blocks [roots] one after the other. *)
Lemma link_all s (roots : list VerifiedBlock) :
  ds_ok s → dag_closed s → Forall (λ b, is_Some (ds_block s (reference b))) roots →
  ∃ s' l, foldM (λ (acc : DagState S * list BlockRef) (ancestor : VerifiedBlock),
               '(s, linked) ← DagState_link_causal_history acc.1 (reference ancestor); Ret (s, acc.2 ++ linked)) (s, []) roots = Ret (s', l) ∧
    marked s l s' ∧ NoDup l ∧ ∀ r, r ∈ l ↔ new_history s (reference <$> roots) r.
Proof.
  intros Hok Hcl. induction roots as [|root roots IH] using rev_ind; intros Hroots.
  { exists s, []. split; [done|]. split; [apply marked_none|]. split; [constructor|]. intros r. split; [by intros Hr%not_elem_of_nil|].
    by intros [(x & Hx%not_elem_of_nil & _) _]. }
  apply Forall_app in Hroots as [Hroots [Hroot _]%Forall_cons]. destruct (IH Hroots) as (s1 & l & Hf & Hm & Hnd & Hel).
  rewrite foldM_app, Hf. cbn [mbind M_bind foldM fst snd].
  destruct (link_causal_history_spec s1 (reference root)) as (s2 & l2 & Hl2 & Hnd2 & Hel2 & Hmk & _).
  { apply dag_closed_linkable; [by eapply marked_ok|by eapply marked_closed|]. by rewrite (marked_block _ _ _ _ Hm). }
  rewrite Hl2. cbn [mbind M_bind]. rewrite (marked_gc _ _ _ Hm) in Hel2.
  assert (∀ r, r ∈ l2 ↔ r ∉ l ∧ new_history s [reference root] r) as Hnew.
  { intros r. rewrite Hel2, (marked_fresh s l s1 _ r Hm). unfold new_history. setoid_rewrite list_elem_of_singleton.
    assert (∀ x y, x ∈ l → fresh_link (DagState_gc_round s) (ds_recent_blocks s) x y →
      (∃ info, fresh (DagState_gc_round s) (ds_recent_blocks s) y info) → y ∈ l) as Hclosed.
    { intros x y [(z & Hz & Hzx) _]%Hel Hxy Hy. apply Hel. split; [|done]. exists z. split; [done|]. by eapply rtc_r. }
    split.
    - intros (Hre & Hnl & Hfr). split; [done|]. split; [|done]. eexists. split; [done|]. by eapply (marked_reach s l s1).
    - intros (Hnl & (x & -> & Hre) & Hfr). split; [|by split]. by eapply (marked_reach s l s1). }
  exists s2, (l ++ l2). split; [done|]. split; [|split].
  - apply (marked_trans s l s1); [done|]. split; [by eapply link_causal_history_view|done].
  - apply NoDup_app. split; [done|]. split; [|done]. intros r Hr Hr2. by apply Hnew in Hr2 as [? _].
  - intros r. rewrite fmap_app. cbn [fmap list_fmap]. rewrite new_history_snoc, elem_of_app, Hnew, <- Hel. destruct (decide (r ∈ l)); tauto.
Qed.

Lemma new_history_round s root r :
  ds_ok s → dag_closed s → rtc (fresh_link (DagState_gc_round s) (ds_recent_blocks s)) root r → br_round r ≤ br_round root.
Proof.
  intros Hok Hcl. induction 1 as [|x y z (info & (_ & Hi & _) & Ha) _ IH]; [done|].
  destruct (Hcl x (bi_block info) y) as [Hlt _]; [|done|lia]. apply cached_is_block; [done|]. unfold ds_cached. by rewrite Hi.
Qed.

Lemma new_history_cached s roots r : new_history s roots r → is_Some (ds_cached s r).
Proof. intros [_ (info & _ & Hi & _)]. apply cached_recent. by eexists. Qed.
End History.

(** ** Own votes *)

Lemma NoDup_length_size (l : list BlockRef) {A} (m : gmap BlockRef A) :
  NoDup l → (∀ r, r ∈ l → is_Some (m !! r)) → (length l ≤ size m)%nat.
Proof.
  intros Hnd Hl. rewrite <- size_dom, <- (size_list_to_set (C := gset BlockRef) l Hnd). apply subseteq_size.
  intros r Hr%elem_of_list_to_set. by apply elem_of_dom, Hl.
Qed.

Definition own_rejects (t : VoteTrackerState) (r : BlockRef) : list TransactionIndex := vi_own_reject_txn_votes (entry t r).

Definition own_votes_of (t : VoteTrackerState) (refs : list BlockRef) : list BlockTransactionVotes :=
  (λ r, mkBlockTransactionVotes r (own_rejects t r)) <$> filter (λ r, vt_gc_round t < br_round r ∧ own_rejects t r ≠ []) refs.

Lemma get_own_votes_spec `{Profile} t refs :
  (∀ r, r ∈ refs → vt_gc_round t < br_round r → is_Some (vt_votes t !! r)) →
  TransactionVoteTracker_get_own_votes t refs = Ret (own_votes_of t refs).
Proof.
  unfold TransactionVoteTracker_get_own_votes, own_votes_of. induction refs as [|r refs IH] using rev_ind; intros Hk; [done|].
  rewrite foldM_app, IH by (intros r' Hr'; apply Hk; apply elem_of_app; by left). cbn [mbind M_bind foldM]. unfold own_votes_step.
  rewrite filter_app, filter_cons, filter_nil, fmap_app. destruct (N.leb_spec (br_round r) (vt_gc_round t)) as [Hle|Hgt].
  { rewrite decide_False by (intros [? _]; lia). cbn. by rewrite app_nil_r. }
  destruct (Hk r) as [info Hi]; [apply elem_of_app; right; by apply list_elem_of_singleton|done|]. rewrite Hi.
  assert (own_rejects t r = vi_own_reject_txn_votes info) as Ho by (unfold own_rejects, entry; by rewrite Hi).
  case_bool_decide as Hn; cbn [mbind M_bind].
  - rewrite decide_False by (intros [_ Hne]; by rewrite Ho in Hne). cbn. by rewrite app_nil_r.
  - rewrite decide_True by (split; [done|by rewrite Ho]). cbn. by rewrite Ho.
Qed.

Lemma sumN_bound k l : Forall (λ n, n ≤ k) l → sumN l ≤ N.of_nat (length l) * k.
Proof. induction 1; cbn [sumN foldr length]; [lia|]. fold (sumN l). lia. Qed.

(** The rejections are counted without overflow. *)
Lemma own_votes_total t refs :
  (∀ r, vt_gc_round t < br_round r → N.of_nat (length (own_rejects t r)) ≤ 2 ^ 16) → N.of_nat (length refs) < 2 ^ 47 →
  sumN ((λ votes, N.of_nat (length (btv_rejects votes))) <$> own_votes_of t refs) < 2 ^ 64.
Proof.
  intros Hr Hlen. eapply N.le_lt_trans; [apply (sumN_bound (2 ^ 16))|].
  - apply Forall_fmap, Forall_fmap, Forall_forall. intros r [[Hgc _] _]%list_elem_of_filter. by apply Hr.
  - unfold own_votes_of. rewrite !length_fmap. pose proof (length_filter (λ r, vt_gc_round t < br_round r ∧ own_rejects t r ≠ []) refs). lia.
Qed.
