(* ===== verification/ProposerAncestors.v ===== *)
(** * The ancestors of a proposal

    [smart_ancestors_to_propose] starts with the proposer's own last block, takes at most one newer block of every other
    authority, and has a quorum of parents in the round before the proposal whenever the DAG has one. *)

From S2P Require Import Prelude BTree Config Block Commit Store StakeAggregator ThresholdClock LeaderScoring.
From S2P Require Import RoundTracker RoundTrackerTheory AncestorState AncestorStateTheory DagState DagTheory DagRecovery.
From S2P Require Import LeaderSchedule BaseCommitter UniversalCommitter BlockVerifier TransactionPool TransactionVoteTracker.
From S2P Require Import Proposer ProposerDag.
Local Open Scope N_scope.

Definition authors (l : list VerifiedBlock) : list AuthorityIndex := (λ b : VerifiedBlock, b_author b) <$> l.

(** The authors of the blocks of [l] in a round. *)
Definition authors_in (round : Round) (l : list VerifiedBlock) : gset AuthorityIndex :=
  list_to_set (authors (filter (λ b : VerifiedBlock, b_round b = round) l)).

Lemma authors_in_elem round l i : i ∈ authors_in round l ↔ ∃ b : VerifiedBlock, b ∈ l ∧ b_round b = round ∧ b_author b = i.
Proof. unfold authors_in, authors. rewrite elem_of_list_to_set, list_elem_of_fmap. setoid_rewrite list_elem_of_filter. naive_solver. Qed.

Lemma authors_elem l i : i ∈ authors l ↔ ∃ b : VerifiedBlock, b ∈ l ∧ b_author b = i.
Proof. unfold authors. rewrite list_elem_of_fmap. naive_solver. Qed.

Lemma authors_app l k : authors (l ++ k) = authors l ++ authors k.
Proof. apply fmap_app. Qed.

Section Ancestors.
Context `{Profile} `{Crypto} `{Signing} {S : Type} `{StoreLaws S}.
Context (p : ValidatorProposer) (s : DagState S) (clock : Round).
Abbreviation ctx := (vp_context p).
Abbreviation c := (ctx_committee (vp_context p)).
Abbreviation size := (length (Committee_authorities (ctx_committee (vp_context p)))).

(** A block that can be an ancestor of the proposal. *)
Definition candidate (b : VerifiedBlock) : Prop :=
  b_author b ∈ members c ∧ b_round b < clock ∧ ds_block s (reference b) = Some b.

(** Not included before. *)
Definition newer (b : VerifiedBlock) : Prop :=
  ∀ r, vp_last_included_ancestors p !! N.to_nat (b_author b) = Some (Some r) → br_round r < b_round b.

Definition selectable (all : list (VerifiedBlock * list BlockRef)) (b : VerifiedBlock) : Prop :=
  b ∈ all.*1 ∧ b_author b ≠ ctx_own_index ctx ∧ newer b.

(** After the blocks [all] were classified. *)
Record classified (own : VerifiedBlock) (all : list (VerifiedBlock * list BlockRef)) (sl : selection) : Prop := {
  cl_own : ∃ inc, sl_included sl = own :: inc ∧ NoDup (authors (inc ++ (sl_pending_excluded sl).*2)) ∧
    ∀ b, b ∈ inc ++ (sl_pending_excluded sl).*2 ↔ selectable all b;
  cl_excluded : ∀ r, r ∈ sl_excluded_and_equivocating sl → br_author r ∈ members c;
}.

Lemma selectable_snoc all e b : selectable (all ++ [e]) b ↔ selectable all b ∨ selectable [e] b.
Proof using. unfold selectable. rewrite fmap_app, elem_of_app. cbn. rewrite !list_elem_of_singleton. naive_solver. Qed.

Lemma not_selectable_snoc own all e sl : ¬ selectable [e] e.1 → classified own all sl → classified own (all ++ [e]) sl.
Proof using.
  intros Hn [(inc & Hi & Hnd & Hel) He]. split; [|done]. exists inc. split; [done|]. split; [done|]. intros b. rewrite Hel, selectable_snoc.
  split; [tauto|]. intros [?|Hs]; [done|]. destruct Hn. destruct Hs as [Hb%list_elem_of_singleton Hrest]. subst b. split; [by apply list_elem_of_singleton|done].
Qed.

Lemma classify_step own all sl (b : VerifiedBlock) eqs leader_slots states :
  length states = size → length (vp_last_included_ancestors p) = size → b_author b ∈ members c →
  (∀ r, r ∈ eqs → br_author r = b_author b) → b_author b ∉ authors all.*1 → classified own all sl →
  ∃ sl', classify_ancestor p leader_slots states sl (b, eqs) = Ret sl' ∧ classified own (all ++ [(b, eqs)]) sl'.
Proof using.
  intros Hst Hla Hb Heqs Hfresh Hcl. unfold classify_ancestor. destruct (N.eqb_spec (b_author b) (ctx_own_index ctx)) as [Ho|Ho].
  { eexists. split; [done|]. apply not_selectable_snoc; [|done]. by intros (_ & ? & _). }
  assert (N.to_nat (b_author b) < size)%nat as Hlt.
  { apply members_spec in Hb. unfold Committee_is_valid_index, Committee_size in Hb. nbool. lia. }
  destruct (lookup_lt_is_Some_2 (vp_last_included_ancestors p) (N.to_nat (b_author b))) as [last Hlast]; [lia|].
  rewrite (proj2 (index_Ret _ _ last) Hlast). cbn [mbind M_bind].
  destruct (from_option _ false last) eqn:Efil.
  { eexists. split; [done|]. apply not_selectable_snoc; [|done]. intros (_ & _ & Hnew). destruct last as [r|]; [|done]. cbn in Efil. nbool.
    specialize (Hnew r Hlast). cbn in Hnew. lia. }
  assert (newer b) as Hnew.
  { intros r Hr. rewrite Hlast in Hr. injection Hr as ->. cbn in Efil. nbool. done. }
  destruct (lookup_lt_is_Some_2 states (N.to_nat (b_author b))) as [state Hstate]; [lia|].
  rewrite (proj2 (index_Ret _ _ state) Hstate). cbn [mbind M_bind].
  destruct Hcl as [(inc & Hi & Hnd & Hel) He].
  assert (∀ r, r ∈ sl_excluded_and_equivocating sl ∪ list_to_set eqs → br_author r ∈ members c) as He'.
  { intros r [Hr|Hr%elem_of_list_to_set]%elem_of_union; [by apply He|]. by rewrite (Heqs r Hr). }
  assert (∀ inc' pend, inc' ++ pend.*2 ≡ₚ b :: inc ++ (sl_pending_excluded sl).*2 →
    classified own (all ++ [(b, eqs)]) (mkSelection (own :: inc') pend (sl_excluded_and_equivocating sl ∪ list_to_set eqs))) as Hdone.
  { intros inc' pend Hperm. split; [|done]. exists inc'. split; [done|]. cbn [sl_pending_excluded]. split.
    - unfold authors. rewrite Hperm. apply NoDup_cons. split; [|done]. intros (b' & Ha & Hb')%list_elem_of_fmap. apply Hel in Hb' as [Hb' _].
      apply Hfresh. apply authors_elem. by exists b'.
    - intros b'. rewrite Hperm, elem_of_cons, Hel, selectable_snoc. split; [intros [->|?]; [right|by left]|intros [?|(Hb'%list_elem_of_singleton & _)]; [by right|by left]].
      split; [by apply list_elem_of_singleton|done]. }
  assert (∃ sl', Ret (mkSelection (sl_included sl ++ [b]) (sl_pending_excluded sl) (sl_excluded_and_equivocating sl ∪ list_to_set eqs)) = Ret sl' ∧
    classified own (all ++ [(b, eqs)]) sl') as Hinc.
  { eexists. split; [done|]. rewrite Hi. apply (Hdone (inc ++ [b])). rewrite <- (assoc_L (++)). cbn. by rewrite <- Permutation_middle. }
  destruct state as [|score]; [done|]. case_bool_decide; [done|]. eexists. split; [done|]. rewrite Hi. apply (Hdone inc).
  rewrite fmap_app, (assoc_L (++)). cbn. by rewrite <- Permutation_cons_append.
Qed.

Lemma member_position k : (k < size)%nat → N.of_nat k ∈ members c.
Proof using. intros Hk. apply members_spec. unfold Committee_is_valid_index, Committee_size. apply N.ltb_lt. lia. Qed.

Lemma classify_all own all leader_slots states :
  length states = size → length (vp_last_included_ancestors p) = size → (length all ≤ size)%nat →
  (∀ k (b : VerifiedBlock) eqs, all !! k = Some (b, eqs) → b_author b = N.of_nat k ∧ ∀ r, r ∈ eqs → br_author r = N.of_nat k) →
  ∃ sl, foldM (classify_ancestor p leader_slots states) (mkSelection [own] [] ∅) all = Ret sl ∧ classified own all sl.
Proof using.
  intros Hst Hla. induction all as [|[b eqs] all IH] using rev_ind; intros Hlen Hall.
  { eexists. split; [done|]. split; cbn; [|set_solver]. exists []. split; [done|]. split; [constructor|].
    intros b. split; [by intros Hb%not_elem_of_nil|by intros [Hb%not_elem_of_nil _]]. }
  rewrite length_app in Hlen. cbn in Hlen. destruct IH as (sl & Hf & Hcl); [lia| |].
  { intros k b' eqs' Hk. apply Hall. by apply lookup_app_l_Some. }
  destruct (Hall (length all) b eqs) as [Ha Heq]; [by rewrite lookup_app_r, Nat.sub_diag|].
  rewrite foldM_app, Hf. cbn [mbind M_bind foldM].
  destruct (classify_step own all sl b eqs leader_slots states) as (sl' & -> & Hcl'); try done.
  - rewrite Ha. apply member_position. lia.
  - intros r Hr. by rewrite Ha, (Heq r Hr).
  - rewrite Ha. intros (b' & Hb' & Ha')%authors_elem. apply list_elem_of_fmap in Hb' as ([b1 e1] & -> & [k Hk]%list_elem_of_lookup).
    destruct (Hall k b1 e1) as [Hk' _]; [by apply lookup_app_l_Some|]. apply lookup_lt_Some in Hk. cbn in *. lia.
  - cbn [mbind M_bind]. by exists sl'.
Qed.

Lemma authors_in_members q l : (∀ b : VerifiedBlock, b ∈ l → b_author b ∈ members c) → authors_in q l ⊆ members c.
Proof using. intros Hl i (b & Hb & _ & <-)%authors_in_elem. by apply Hl. Qed.

Context (Hwf : Committee_wf (ctx_committee (vp_context p))).

(** The first count of parents. *)
Lemma count_parents q (l : list VerifiedBlock) :
  (∀ b : VerifiedBlock, b ∈ l → b_author b ∈ members c) →
  foldM (λ a (ancestor : VerifiedBlock), fst <$> StakeAggregator_add a (b_author ancestor) c) StakeAggregator_new
    (filter (λ a : VerifiedBlock, b_round a = q) l) = Ret (SA_of (T := QuorumThreshold) c (authors_in q l)).
Proof using Hwf.
  intros Hl. rewrite (SA_of_new c).
  rewrite <- (foldM_fmap (λ a v, fst <$> StakeAggregator_add a v c) (λ b : VerifiedBlock, b_author b)).
  pose proof (add_votes_spec (T := QuorumThreshold) c Hwf ∅ (authors (filter (λ a : VerifiedBlock, b_round a = q) l))) as Hadd. unfold add_votes in Hadd.
  unfold authors in Hadd. rewrite Hadd; [by rewrite union_empty_r_L|set_solver|]. intros v (b & -> & Hb)%list_elem_of_fmap. apply list_elem_of_filter in Hb as [_ Hb]. by apply Hl.
Qed.

(** After the ancestors [done] that were set aside were offered for the quorum. *)
Record offered (q : Round) (anc0 : list VerifiedBlock) (done : list (N * VerifiedBlock))
    (st : StakeAggregator QuorumThreshold * list VerifiedBlock * list (N * VerifiedBlock)) : Prop := {
  of_count : st.1.1 = SA_of c (authors_in q st.1.2);
  of_prefix : anc0 `prefix_of` st.1.2;
  of_perm : st.1.2 ++ st.2.*2 ≡ₚ anc0 ++ done.*2;
  of_reached : is_quorum c (authors_in q st.1.2) ∨ ∀ e : N * VerifiedBlock, e ∈ st.2 → b_round e.2 ≠ q;
}.

Lemma offer_step q anc0 done st (e : N * VerifiedBlock) :
  (∀ b : VerifiedBlock, b ∈ anc0 ++ done.*2 → b_author b ∈ members c) → b_author e.2 ∈ members c → offered q anc0 done st →
  ∃ st', include_for_quorum p q st e = Ret st' ∧ offered q anc0 (done ++ [e]) st'.
Proof using Hwf.
  destruct st as [[agg anc] excl], e as [score b]. intros Hmem Hb [Hc Hp Hperm Hr]. cbn [fst snd] in *. unfold include_for_quorum.
  destruct (Committee_authority_member c (b_author b) Hb) as [a ->]. cbn [mbind M_bind]. subst agg.
  assert (authors_in q anc ⊆ members c) as Hsub.
  { apply authors_in_members. intros b' Hb'. apply Hmem. rewrite <- Hperm. apply elem_of_app. by left. }
  assert (StakeAggregator_reached_threshold (SA_of (T := QuorumThreshold) c (authors_in q anc)) c = true ↔ is_quorum c (authors_in q anc)) as Hq.
  { unfold is_quorum, StakeAggregator_reached_threshold. cbn. tauto. }
  assert ((anc ++ [b]) ++ excl.*2 ≡ₚ anc0 ++ (done ++ [(score, b)]).*2) as Hperm1.
  { rewrite fmap_app, (assoc_L (++) anc0), <- Hperm. cbn. rewrite <- (assoc_L (++)). cbn.
    by rewrite <- Permutation_middle, <- Permutation_cons_append. }
  destruct (negb _ && _) eqn:E.
  - apply andb_true_iff in E as [En Eq]. nbool. rewrite StakeAggregator_add_spec by done. cbn [mbind M_bind]. eexists. split; [done|]. split; cbn [fst snd].
    + f_equal. unfold authors_in. rewrite filter_app, filter_cons, decide_True, filter_nil, authors_app by done. unfold authors at 2. cbn. set_solver.
    + by apply prefix_app_r.
    + done.
    + right. intros e He. destruct Hr as [Hr|Hr]; [apply Hq in Hr; congruence|by apply Hr].
  - eexists. split; [done|]. split; cbn [fst snd]; [done|done| |].
    + rewrite fmap_app. cbn. rewrite (assoc_L (++)), Hperm, fmap_app, <- (assoc_L (++)). done.
    + destruct Hr as [Hr|Hr]; [by left|]. destruct (StakeAggregator_reached_threshold _ c) eqn:Et; [left; by apply Hq|]. cbn in E. nbool.
      right. intros e [He|He%list_elem_of_singleton]%elem_of_app; [by apply Hr|]. by subst e.
Qed.

Lemma offer_all q anc0 pend :
  (∀ b : VerifiedBlock, b ∈ anc0 ++ pend.*2 → b_author b ∈ members c) →
  ∃ st, foldM (include_for_quorum p q) (SA_of c (authors_in q anc0), anc0, []) pend = Ret st ∧ offered q anc0 pend st.
Proof using Hwf.
  induction pend as [|e pend IH] using rev_ind; intros Hmem.
  { eexists. split; [done|]. split; cbn; [done|done|done|]. right. by intros e He%not_elem_of_nil. }
  rewrite fmap_app in Hmem. destruct IH as (st & Hf & Hof); [intros b Hb; apply Hmem; set_solver|].
  rewrite foldM_app, Hf. cbn [mbind M_bind foldM].
  destruct (offer_step q anc0 pend st e) as (st' & -> & Hof'); [intros b Hb; apply Hmem; set_solver|apply Hmem; set_solver|done|].
  cbn [mbind M_bind]. by exists st'.
Qed.

Context (Hok : ds_ok s) (Hds : ds_context s = vp_context p) (Hclock : 0 < clock) (Hmax : clock < 2 ^ 32).

(** After the excluded ancestors [done] were reconsidered. *)
Record reconsidered (anc0 : list VerifiedBlock) (done : list (N * VerifiedBlock))
    (st : list (option BlockRef) * list VerifiedBlock * gset BlockRef) : Prop := {
  rc_len : length st.1.1 = size;
  rc_more : ∃ more, st.1.2 = anc0 ++ more ∧ NoDup (authors more) ∧ Forall candidate more ∧
    ∀ i, i ∈ authors more → i ∈ authors done.*2;
  rc_included : ∀ i r, st.1.1 !! N.to_nat i = Some (Some r) →
    vp_last_included_ancestors p !! N.to_nat i = Some (Some r) ∨ ∃ b : VerifiedBlock, b ∈ st.1.2 ∧ reference b = r ∧ b_author b = i;
  rc_excluded : ∀ r, r ∈ st.2 → br_author r ∈ members c;
}.

Lemma reconsidered_skip anc0 done li anc ex (e : N * VerifiedBlock) ex' :
  reconsidered anc0 done (li, anc, ex) → (∀ r, r ∈ ex' → r ∈ ex ∨ br_author r ∈ members c) →
  reconsidered anc0 (done ++ [e]) (li, anc, ex').
Proof using.
  intros [Hl (more & Hm & Hnd & Hca & Hin) Hi He] Hex. split; cbn in *; [done| |done|].
  - exists more. split; [done|]. split; [done|]. split; [done|]. intros i Hi'. rewrite fmap_app, authors_app. apply elem_of_app. left. by apply Hin.
  - intros r [Hr|Hr]%Hex; [by apply He|done].
Qed.

(** [b], of the author of [e], is included. *)
Lemma reconsidered_include anc0 done li anc ex (e : N * VerifiedBlock) (b : VerifiedBlock) ex' :
  reconsidered anc0 done (li, anc, ex) → (∀ r, r ∈ ex' → r ∈ ex ∨ br_author r ∈ members c) →
  candidate b → b_author b = b_author e.2 → b_author e.2 ∉ authors done.*2 →
  reconsidered anc0 (done ++ [e]) (<[N.to_nat (b_author e.2) := Some (reference b)]> li, anc ++ [b], ex').
Proof using.
  intros [Hl (more & Hm & Hnd & Hca & Hin) Hi He] Hex Hb Ha Hfresh. split; cbn [fst snd] in *.
  - by rewrite length_insert.
  - exists (more ++ [b]). rewrite Hm, (assoc_L (++)). split; [done|]. rewrite authors_app, fmap_app, authors_app. split.
    + apply NoDup_app. split; [done|]. split; [|apply NoDup_singleton]. intros i Hi1 Hi2%list_elem_of_singleton. subst i.
      apply Hfresh. rewrite <- Ha. by apply Hin.
    + split; [apply Forall_app; split; [done|by apply Forall_singleton]|].
      intros i [Hi'|Hi'%list_elem_of_singleton]%elem_of_app; apply elem_of_app; [left; by apply Hin|right]. subst i. apply list_elem_of_singleton. cbn. by rewrite Ha.
  - intros i r Hr. apply list_lookup_insert_Some in Hr as [(Hii & [= <-] & _)|[_ Hr]].
    + right. exists b. split; [apply elem_of_app; right; by apply list_elem_of_singleton|]. split; [done|]. rewrite Ha. by apply N2Nat.inj.
    + destruct (Hi i r Hr) as [?|(b' & Hb' & ?)]; [by left|right]. exists b'. split; [apply elem_of_app; by left|done].
  - intros r [Hr|Hr]%Hex; [by apply He|done].
Qed.

Lemma reconsider_step anc0 done st (e : N * VerifiedBlock) (rounds : list QuorumRound) :
  length rounds = size → candidate e.2 → b_author e.2 ∉ authors done.*2 → reconsidered anc0 done st →
  ∃ st', include_accepted p s (clock - 1) rounds st e = Ret st' ∧ reconsidered anc0 (done ++ [e]) st'.
Proof using Hok Hds Hclock Hmax.
  destruct st as [[li anc] ex], e as [score b]. cbn [fst snd]. intros Hr Hb Hfresh Hst. unfold include_accepted.
  pose proof Hb as (Hm & Hbr & Hbd). destruct (Committee_authority_member c (b_author b) Hm) as [a ->]. cbn [mbind M_bind].
  assert (N.to_nat (b_author b) < size)%nat as Hlt.
  { apply members_spec in Hm. unfold Committee_is_valid_index, Committee_size in Hm. nbool. lia. }
  destruct (lookup_lt_is_Some_2 rounds (N.to_nat (b_author b))) as [q Hq]; [lia|]. rewrite (proj2 (index_Ret _ _ q) Hq). cbn [mbind M_bind].
  pose proof (rc_len _ _ _ Hst) as Hli. cbn in Hli.
  destruct (lookup_lt_is_Some_2 li (N.to_nat (b_author b))) as [l Hl]; [lia|]. rewrite (proj2 (index_Ret _ _ l) Hl). cbn [mbind M_bind].
  set (low := N.min q.1 (clock - 1)). set (last := from_option br_round GENESIS_ROUND l).
  assert (∀ r, r ∈ {[reference b]} ∪ ex → r ∈ ex ∨ br_author r ∈ members c) as Hex.
  { intros r [->%elem_of_singleton|?]%elem_of_union; [by right|by left]. }
  destruct (N.leb_spec (b_round b) last) as [Hle|Hgt]. { eexists. split; [done|]. eapply reconsidered_skip; [exact Hst|by left]. }
  destruct (N.leb_spec low last) as [Hle|Hgt']. { eexists. split; [done|]. by eapply reconsidered_skip. }
  destruct (N.leb_spec (b_round b) low) as [Hlow|Hlow]; cbn [mbind M_bind].
  - unfold index_update. rewrite Hl. cbn [mbind M_bind]. eexists. split; [done|].
    apply (reconsidered_include anc0 done li anc ex (score, b) b ex Hst); [by left|done..].
  - rewrite (int_add_exact 32 last 1) by lia. cbn [mbind M_bind]. rewrite (int_add_exact 32 low 1) by lia. cbn [mbind M_bind].
    destruct (last_cached_in_range_spec s (b_author b) (last + 1) (low + 1) Hok) as (o & -> & Ho); [unfold DagState_committee; by rewrite Hds|].
    cbn [mbind M_bind]. destruct o as [b'|]; [|eexists; split; [done|]; by eapply reconsidered_skip].
    destruct (Ho b' eq_refl) as (Ha' & Hr' & Hc'). unfold index_update. rewrite Hl. cbn [mbind M_bind]. eexists. split; [done|].
    apply (reconsidered_include anc0 done li anc ex (score, b) b' _ Hst); [done| |done|done].
    split; [by rewrite Ha'|]. split; [lia|]. by apply cached_is_block.
Qed.

Lemma reconsider_all anc0 excl ex (rounds : list QuorumRound) :
  length rounds = size → length (vp_last_included_ancestors p) = size → Forall candidate excl.*2 → NoDup (authors excl.*2) →
  (∀ r, r ∈ ex → br_author r ∈ members c) →
  ∃ st, foldM (include_accepted p s (clock - 1) rounds) (vp_last_included_ancestors p, anc0, ex) excl = Ret st ∧
    reconsidered anc0 excl st.
Proof using Hok Hds Hclock Hmax.
  intros Hr Hla. induction excl as [|e excl IH] using rev_ind; intros Hca Hnd Hex.
  { eexists. split; [done|]. split; cbn; [done| |by left|done]. exists []. rewrite app_nil_r. split; [done|].
    split; [constructor|]. split; [constructor|]. by intros i Hi%not_elem_of_nil. }
  rewrite fmap_app in Hca, Hnd. apply Forall_app in Hca as [Hca Hce]. rewrite authors_app in Hnd. apply NoDup_app in Hnd as (Hnd & Hdis & _).
  destruct IH as (st & Hf & Hst); [done..|]. rewrite foldM_app, Hf. cbn [mbind M_bind foldM].
  destruct (reconsider_step anc0 excl st e rounds) as (st' & -> & Hst'); [done|by inversion Hce| |done|].
  - intros Hin. apply (Hdis _ Hin). apply list_elem_of_singleton. done.
  - cbn [mbind M_bind]. by exists st'.
Qed.

(** A quorum of authorities has blocks in a round. *)
Definition round_quorum (q : Round) : Prop :=
  ∃ Q, is_quorum c Q ∧ ∀ i, i ∈ Q → ∃ r, br_author r = i ∧ br_round r = q ∧ is_Some (ds_block s r).

Context (Hown : ctx_own_index ctx ∈ members c) (Hgen : genesis_ok s) (Hgc : clock = 1 ∨ DagState_gc_round s < clock - 1).
Context (Hla : length (vp_last_included_ancestors p) = size).
Context (Hbelow : ∀ i r, vp_last_included_ancestors p !! N.to_nat i = Some (Some r) → br_round r < clock - 1).

(** The ancestors of a proposal on top of the block [own]. *)
Record ancestors_ok (own : VerifiedBlock) (anc : list VerifiedBlock) : Prop := {
  an_own : head anc = Some own;
  an_authors : NoDup (authors anc);
  an_candidates : Forall candidate anc;
  an_quorum : is_quorum c (authors_in (clock - 1) anc);
}.

(** The last block of every authority below the clock round. *)
Definition last_blocks (all : list (VerifiedBlock * list BlockRef)) : Prop :=
  length all = size ∧
  ∀ k b eqs, all !! k = Some (b, eqs) →
    last_between s (DagState_gc_round s) clock (N.of_nat k) b ∧ ∀ r, r ∈ eqs → br_author r = N.of_nat k.

Lemma last_blocks_candidate all (b : VerifiedBlock) : last_blocks all → b ∈ all.*1 → candidate b.
Proof using.
  intros [Hlen Hall] ([b' eqs] & -> & [k Hk]%list_elem_of_lookup)%list_elem_of_fmap. destruct (Hall k b' eqs Hk) as [(Ha & Hr & Hd & _) _].
  split; [cbn; rewrite Ha; apply member_position; rewrite <- Hlen; by eapply lookup_lt_Some|]. by split.
Qed.

(** An authority with a block in the round before the proposal is selectable with such a block, or is the proposer itself. *)
Lemma parent_selectable own all i :
  newest_of s (ctx_own_index ctx) own → b_round own < clock → last_blocks all →
  (∃ r, br_author r = i ∧ br_round r = clock - 1 ∧ is_Some (ds_block s r)) → i ∈ members c →
  ∃ b : VerifiedBlock, b_author b = i ∧ b_round b = clock - 1 ∧ (b = own ∨ selectable all b).
Proof using Hok Hgc Hbelow Hclock Hmax Hla.
  intros (Hoa & Hod & Homax) Hor [Hlen Hall] (r & Ha & Hr & [b0 Hb0]) Hi. destruct (decide (i = ctx_own_index ctx)) as [->|Hne].
  { exists own. split; [done|]. split; [|by left]. pose proof (Homax r Ha ltac:(by eexists)). lia. }
  apply members_spec in Hi. unfold Committee_is_valid_index, Committee_size in Hi. nbool.
  destruct (lookup_lt_is_Some_2 all (N.to_nat i)) as [[b eqs] Hk]; [lia|]. destruct (Hall _ _ _ Hk) as [(Hba & Hbr & Hbd & Hbmax) _].
  rewrite N2Nat.id in Hba, Hbmax. exists b. split; [done|].
  assert (b_round b = clock - 1) as Hbq.
  { destruct Hgc as [->|Hg]; [lia|]. pose proof (Hbmax r Ha) as Hm. rewrite Hr in Hm. enough (clock - 1 ≤ b_round b) by lia.
    apply Hm; [|lia]. exists b0. apply block_above_gc_cached; [done|done|lia]. }
  split; [done|]. right. split; [apply list_elem_of_fmap; exists (b, eqs); split; [done|by eapply list_elem_of_lookup_2]|]. split; [by rewrite Hba|].
  intros r' Hr'. rewrite Hbq. by eapply Hbelow.
Qed.

Context (Hparents : round_quorum (clock - 1)).

(** Everything selected or set aside is a candidate, with one block per authority. *)
Lemma offered_candidates own all sl q_st :
  newest_of s (ctx_own_index ctx) own → b_round own < clock → last_blocks all → classified own all sl →
  offered (clock - 1) (sl_included sl) (stable_sort (λ a b, b.1 <=? a.1) (sl_pending_excluded sl)) q_st →
  (∀ b : VerifiedBlock, b ∈ q_st.1.2 ++ q_st.2.*2 ↔ b = own ∨ selectable all b) ∧
  Forall candidate (q_st.1.2 ++ q_st.2.*2) ∧ NoDup (authors (q_st.1.2 ++ q_st.2.*2)).
Proof using Hown.
  intros Hn Hor Hlast [(inc & Hinc & Hnd & Hsel) _] [_ _ Hperm _].
  rewrite stable_sort_perm in Hperm. rewrite Hinc in Hperm. cbn [app] in Hperm.
  assert (∀ b : VerifiedBlock, b ∈ q_st.1.2 ++ q_st.2.*2 ↔ b = own ∨ selectable all b) as Hel.
  { intros b. by rewrite Hperm, elem_of_cons, Hsel. }
  split; [done|]. split.
  - apply Forall_forall. intros b. rewrite Hel. intros [->|[Hb _]]; [|by eapply last_blocks_candidate].
    destruct Hn as (Ha & Hd & _). split; [by rewrite Ha|]. by split.
  - unfold authors. rewrite Hperm. apply NoDup_cons. split; [|done]. intros (b & Ha & Hb)%list_elem_of_fmap. apply Hsel in Hb as (_ & Hne & _).
    destruct Hn as (Hoa & _). congruence.
Qed.

(** The selection when the ancestors set aside have been offered for the quorum and reconsidered. *)
Lemma selection_ok own all sl q_st li anc ex :
  newest_of s (ctx_own_index ctx) own → b_round own < clock → last_blocks all → classified own all sl →
  offered (clock - 1) (sl_included sl) (stable_sort (λ a b, b.1 <=? a.1) (sl_pending_excluded sl)) q_st →
  reconsidered q_st.1.2 q_st.2 (li, anc, ex) →
  is_quorum c (authors_in (clock - 1) q_st.1.2) ∧ ancestors_ok own anc.
Proof using Hok Hgc Hbelow Hclock Hmax Hla Hparents Hown.
  intros Hn Hor Hlast Hcl Hof [_ (extra & Hextra & Hndx & Hcax & Hinx) _ _].
  destruct (offered_candidates own all sl q_st Hn Hor Hlast Hcl Hof) as (Hel & Hcand & Hndall). rewrite Forall_forall in Hcand.
  destruct Hcl as [(inc & Hinc & _) _], Hof as [_ [more Hmore] _ Hreached]. cbn [fst snd] in *. rewrite Hinc in Hmore.
  assert (is_quorum c (authors_in (clock - 1) q_st.1.2)) as Hquorum.
  { destruct Hreached as [?|Hnone]; [done|]. destruct Hparents as (Q & HQ & Hblocks). apply (is_quorum_mono c Q); [done| |].
    - intros i Hi. assert (i ∈ members c) as Him by (by apply (proj1 HQ)).
      destruct (parent_selectable own all i Hn Hor Hlast (Hblocks i Hi) Him) as (b & Ha & Hr & Hb).
      apply authors_in_elem. exists b. split; [|done].
      assert (b ∈ q_st.1.2 ++ q_st.2.*2) as [?|Hex]%elem_of_app; [|done|].
      { by apply Hel. }
      apply list_elem_of_fmap in Hex as (e & -> & He). by destruct (Hnone e He).
    - apply authors_in_members. intros b Hb. apply Hcand. apply elem_of_app. by left. }
  split; [done|]. subst anc. split.
  - by rewrite Hmore.
  - rewrite authors_app in *. apply NoDup_app in Hndall as (Hnd1 & Hdis & _). apply NoDup_app. split; [done|]. split; [|done].
    intros i Hi1 Hi2. by apply (Hdis i Hi1), Hinx.
  - apply Forall_app. split; [|done]. apply Forall_forall. intros b Hb. apply Hcand. apply elem_of_app. by left.
  - apply (is_quorum_mono c _ _ Hquorum).
    + intros i (b & Hb & ?)%authors_in_elem. apply authors_in_elem. exists b. split; [apply elem_of_app; by left|done].
    + apply authors_in_members. intros b [Hb|Hb]%elem_of_app; [apply Hcand; apply elem_of_app; by left|].
      rewrite Forall_forall in Hcax. by apply Hcax.
Qed.
End Ancestors.

Section SmartAncestors.
Context `{Profile} `{Crypto} `{Signing} {S : Type} `{StoreLaws S}.

(** What the selection of ancestors relies on. *)
Record selection_ready (p : ValidatorProposer) (s : DagState S) (rt : RoundTracker) : Prop := {
  sr_dag : ds_ok s;
  sr_context : ds_context s = vp_context p;
  sr_genesis : genesis_ok s;
  sr_own : ctx_own_index (vp_context p) ∈ members (ctx_committee (vp_context p));
  sr_clock : 0 < DagState_threshold_clock_round s ∧ DagState_threshold_clock_round s + STATE_LOCK_CLOCK_ROUNDS < 2 ^ 32;
  sr_gc : DagState_threshold_clock_round s = 1 ∨ DagState_gc_round s < DagState_threshold_clock_round s - 1;
  sr_parents : round_quorum p s (DagState_threshold_clock_round s - 1);
  sr_included_len : length (vp_last_included_ancestors p) = length (Committee_authorities (ctx_committee (vp_context p)));
  sr_included : ∀ i r, vp_last_included_ancestors p !! N.to_nat i = Some (Some r) → br_round r < DagState_threshold_clock_round s - 1;
  sr_tracker : rt_ok rt ∧ rt_context rt = vp_context p;
  sr_states : asm_ok (vp_ancestor_state_manager p) ∧ am_context (vp_ancestor_state_manager p) = vp_context p;
  sr_scores : (length (rs_scores_per_authority (am_propagation_scores (vp_ancestor_state_manager p))) ≤
      length (Committee_authorities (ctx_committee (vp_context p))))%nat ∧
    ReputationScores_highest_score (am_propagation_scores (vp_ancestor_state_manager p)) * 20 < 2 ^ 64;
}.

(** The proposer after a selection: new ancestor states, and references to selected ancestors. *)
Record selected_from (p p' : ValidatorProposer) (anc : list VerifiedBlock) : Prop := {
  sf_same : ∃ asm li, p' = set_last_included li (set_ancestor_states asm p) ∧ asm_ok asm ∧ am_context asm = vp_context p ∧
    am_propagation_scores asm = am_propagation_scores (vp_ancestor_state_manager p) ∧ length li = length (vp_last_included_ancestors p);
  sf_included : ∀ i r, vp_last_included_ancestors p' !! N.to_nat i = Some (Some r) →
    vp_last_included_ancestors p !! N.to_nat i = Some (Some r) ∨ ∃ b : VerifiedBlock, b ∈ anc ∧ reference b = r ∧ b_author b = i;
}.

Lemma smart_ancestors_spec p s rt own smart_select leader_slots :
  selection_ready p s rt → last_proposed_block s = Ret own → b_round own < DagState_threshold_clock_round s →
  ∃ p' anc ex,
    ValidatorProposer_smart_ancestors_to_propose p s rt (DagState_threshold_clock_round s) smart_select leader_slots = Ret (p', anc, ex) ∧
    selected_from p p' anc ∧ (∀ r, r ∈ ex → br_author r ∈ members (ctx_committee (vp_context p))) ∧
    (smart_select = true ∧ anc = [] ∨ ancestors_ok p s (DagState_threshold_clock_round s) own anc).
Proof.
  intros [Hok Hds Hgen Hown [Hpos Hlock] Hgc Hpar Hla Hbelow [Hrt Hrtc] [Hasm Hasmc] [Hsc Hhigh]] Hlast Hor.
  unfold ValidatorProposer_smart_ancestors_to_propose. set (clock := DagState_threshold_clock_round s) in *. unfold STATE_LOCK_CLOCK_ROUNDS in Hlock.
  pose proof (ok_committee s Hok) as Hwf. unfold DagState_committee in Hwf. rewrite Hds in Hwf.
  destruct (last_per_authority_spec s clock Hok Hgen Hpos ltac:(lia) Hgc) as (all & -> & Hall). unfold DagState_committee in Hall. rewrite Hds in Hall.
  cbn [mbind M_bind]. unfold Committee_size. rewrite (proj1 Hall), N.eqb_refl. cbn [assert_that mbind M_bind].
  destruct (compute_accepted_spec rt Hrt) as (rounds & -> & Hrounds). rewrite Hrtc in Hrounds. cbn [mbind M_bind].
  destruct (update_all_ancestors_spec (vp_ancestor_state_manager p) clock rounds Hasm) as (network & asm & _ & Hup & Hasm' & Hasmc' & _);
    [rewrite Hasmc; apply Hrounds|rewrite Hasmc; exact Hsc|exact Hhigh|unfold STATE_LOCK_CLOCK_ROUNDS; lia|].
  pose proof (update_all_ancestors_scores _ _ _ _ Hup) as Hscores. rewrite Hup, Hlast. cbn [mbind M_bind]. rewrite Hasmc in Hasmc'.
  assert (newest_of s (ctx_own_index (vp_context p)) own) as Hn.
  { destruct (last_proposed_block_spec s Hok) as (own' & Ho & Hn); [unfold DagState_committee; by rewrite Hds|].
    rewrite Hlast in Ho. injection Ho as <-. by rewrite Hds in Hn. }
  set (p1 := set_ancestor_states asm p).
  destruct (classify_all p1 own all (if pc_enable_v3 (ctx_protocol_config (vp_context p)) then leader_slots else []) (AncestorStateManager_get_ancestor_states asm))
    as (sl & -> & Hcl); [|exact Hla|by rewrite (proj1 Hall)| |].
  { unfold AncestorStateManager_get_ancestor_states. rewrite length_fmap, (ao_len _ Hasm'), Hasmc'. done. }
  { intros k b eqs Hk. destruct (proj2 Hall k b eqs Hk) as [(Ha & _) He]. done. }
  cbn [mbind M_bind]. pose proof Hcl as [(inc & Hinc & Hnd & Hsel) Hexcl].
  assert (∀ b : VerifiedBlock, b ∈ sl_included sl ++ (stable_sort (λ a b, b.1 <=? a.1) (sl_pending_excluded sl)).*2 →
    b_author b ∈ members (ctx_committee (vp_context p))) as Hmem.
  { intros b. rewrite stable_sort_perm, Hinc. cbn [app]. rewrite elem_of_cons, Hsel. intros [->|[Hb _]]; [destruct Hn as [-> _]; done|].
    destruct (last_blocks_candidate p s clock all b Hall Hb) as (? & _). done. }
  rewrite (count_parents p Hwf) by (intros b Hb; apply Hmem; apply elem_of_app; by left). cbn [mbind M_bind].
  destruct (smart_select && _) eqn:Esmart.
  { apply andb_true_iff in Esmart as [-> _]. exists p1, [], ∅. split; [done|]. split; [|split; [by intros r Hr%not_elem_of_empty|by left]]. split.
    - exists asm, (vp_last_included_ancestors p). done.
    - by left. }
  destruct (offer_all p1 Hwf (clock - 1) _ _ Hmem) as ([[agg anc0] excl] & Hoff & Hof).
  change (ctx_committee (vp_context p1)) with (ctx_committee (vp_context p)) in Hoff. rewrite Hoff. cbn [mbind M_bind].
  destruct (offered_candidates p1 s clock Hown own all sl _ Hn Hor Hall Hcl Hof) as (_ & Hcand & Hndall). cbn [fst snd] in Hcand, Hndall.
  destruct (reconsider_all p1 s clock Hok Hds Hpos ltac:(lia) anc0 excl (sl_excluded_and_equivocating sl) rounds) as ([[li anc] ex] & Hre & Hrc).
  { apply Hrounds. }
  { exact Hla. }
  { by apply Forall_app in Hcand as [_ ?]. }
  { rewrite authors_app in Hndall. by apply NoDup_app in Hndall as (_ & _ & ?). }
  { exact Hexcl. }
  rewrite Hre. cbn [mbind M_bind].
  destruct (selection_ok p1 s clock Hok Hpos ltac:(lia) Hown Hgc Hla Hbelow Hpar own all sl (agg, anc0, excl) li anc ex Hn Hor Hall Hcl Hof Hrc) as [Hq Han].
  pose proof (of_count _ _ _ _ _ Hof) as Hagg. cbn [fst snd] in Hagg, Hq.
  assert (StakeAggregator_reached_threshold agg (ctx_committee (vp_context p)) = true) as ->. { rewrite Hagg. apply Hq. }
  cbn [assert_that mbind M_bind]. exists (set_last_included li p1), anc, ex. split; [done|]. split; [|split; [apply (rc_excluded _ _ _ _ _ _ Hrc)|right; destruct Han; by split]]. split.
  - exists asm, li. split; [done|]. split; [done|]. split; [done|]. split; [done|]. rewrite Hla. apply (rc_len _ _ _ _ _ _ Hrc).
  - apply (rc_included _ _ _ _ _ _ Hrc).
Qed.
End SmartAncestors.
