(* ===== verification/ProposerBlock.v ===== *)
(** * Proposed blocks are valid

    A proposal from a consistent node returns: the block follows the rules that every authority checks, and enters the proposer's own DAG
    and vote tracker. *)

From S2P Require Import Prelude BTree Config Block Commit Store StakeAggregator ThresholdClock LeaderScoring.
From S2P Require Import RoundTracker RoundTrackerTheory AncestorState AncestorStateTheory DagState DagTheory DagRecovery DagTraversal.
From S2P Require Import LeaderSchedule BaseCommitter UniversalCommitter CommitSequence BlockVerifier BlockVerifierTheory.
From S2P Require Import TransactionPool TransactionPoolTheory TransactionVoteTracker VoteTrackerTheory.
From S2P Require Import Proposer ProposerDag ProposerHistory ProposerAncestors.
Local Open Scope N_scope.

(** ** The votes *)

Section Votes.
Context `{Profile} `{Crypto} `{Signing} `{UnstableSort} {S : Type} `{StoreLaws S}.

(** The votes that the proposer owes on the newly included history of [roots]. *)
Definition owed (s : DagState S) (t : VoteTrackerState) (roots : list BlockRef) (v : BlockTransactionVotes) : Prop :=
  new_history s roots (btv_block_ref v) ∧ vt_gc_round t < br_round (btv_block_ref v) ∧
  btv_rejects v = own_rejects t (btv_block_ref v) ∧ btv_rejects v ≠ [].

Lemma own_transaction_votes_spec p s t anc :
  let config := ctx_protocol_config (vp_context p) in
  pc_enable_v3 config = false → ds_ok s → dag_closed s → Forall (λ b, is_Some (ds_block s (reference b))) anc →
  (pc_transaction_voting_enabled config = true → ∀ r, is_Some (ds_block s r) → DagState_gc_round s < br_round r → vt_gc_round t < br_round r →
    is_Some (vt_votes t !! r)) →
  (∀ r, vt_gc_round t < br_round r → N.of_nat (length (own_rejects t r)) ≤ 2 ^ 16) → N.of_nat (size (ds_recent_blocks s)) < 2 ^ 47 →
  ∃ s' l votes, own_transaction_votes p s t anc = Ret (s', votes, DagState_gc_round s) ∧ marked s l s' ∧
    ∀ v, v ∈ votes ↔ pc_transaction_voting_enabled config = true ∧ owed s t (reference <$> anc) v.
Proof.
  intros config Hv3 Hok Hcl Hanc Hknown Hrej Hsize. unfold own_transaction_votes. fold config. rewrite Hv3.
  destruct (pc_transaction_voting_enabled config).
  2:{ exists s, [], []. split; [done|]. split; [apply marked_none|]. intros v. split; [by intros Hv%not_elem_of_nil|by intros [? _]]. }
  destruct (link_all s anc Hok Hcl Hanc) as (s' & l & Hl & Hm & Hnd & Hel). rewrite Hl. cbn [mbind M_bind].
  set (targets := filter _ l). rewrite get_own_votes_spec.
  2:{ intros r [Hgt Hr]%list_elem_of_filter Hgc. apply Hel, new_history_cached in Hr as [b Hb]. apply (Hknown eq_refl); [|done..]. exists b. by apply cached_is_block. }
  cbn [mbind M_bind]. rewrite int_sum_exact.
  2:{ apply own_votes_total; [done|]. pose proof (length_filter (λ block_ref, DagState_gc_round s < br_round block_ref) l) as Hf.
      pose proof (NoDup_length_size l (ds_recent_blocks s) Hnd) as Hle. fold targets in Hf. enough (length l ≤ size (ds_recent_blocks s))%nat by lia. apply Hle.
      intros r Hr%Hel. by eapply cached_recent, new_history_cached. }
  cbn [mbind M_bind]. exists s', l, (own_votes_of t targets). split; [done|]. split; [done|]. intros v. unfold own_votes_of, owed, targets.
  rewrite list_elem_of_fmap. setoid_rewrite list_elem_of_filter. setoid_rewrite list_elem_of_filter. setoid_rewrite Hel. split.
  - intros (r & -> & [? ?] & ? & ?). done.
  - intros (_ & Hnew & Hgc & Hr & Hne). exists (btv_block_ref v). split; [destruct v; cbn in *; by subst|]. rewrite <- Hr.
    split; [done|]. split; [|done]. by destruct Hnew as [_ (info & ? & _)].
Qed.
End Votes.

(** ** The leaders to wait for *)

Section Leaders.
Context `{Profile} `{Crypto} `{Signing} `{Rng} {S : Type} `{StoreLaws S}.

Lemma collect_leaders_spec c round cs :
  Forall (elects c) cs → round < u32_max → collect_leaders round cs = Ret (slot_authority <$> elected_at cs round).
Proof.
  intros Hcs Hr. induction Hcs as [|bc cs Hbc _ IH]; [done|]. cbn [collect_leaders]. rewrite (el_returns c bc Hbc round Hr). cbn [mbind M_bind].
  rewrite IH. cbn [mbind M_bind]. unfold elected_at. csimpl. by destruct (elected bc round).
Qed.

Lemma contains_cached_at_slot_returns (s : DagState S) slot :
  ds_ok s → slot_authority slot ∈ members (DagState_committee s) → slot_round slot = GENESIS_ROUND ∨ DagState_gc_round s < slot_round slot →
  ∃ found, DagState_contains_cached_block_at_slot s slot = Ret found.
Proof.
  intros Hok Ha Hr. unfold DagState_contains_cached_block_at_slot. destruct (N.eqb_spec (slot_round slot) GENESIS_ROUND); [by eexists|].
  destruct (index_member s _ _ (ok_evicted_len s Hok) Ha) as [er Her]. rewrite (proj2 (index_Ret _ _ er) Her). cbn [mbind M_bind].
  pose proof (ok_evicted_gc s Hok _ er Her). destruct (N.leb_spec (slot_round slot) er); [lia|].
  destruct (index_member s _ _ (ok_refs_len s Hok) Ha) as [refs Hrefs]. rewrite (proj2 (index_Ret _ _ refs) Hrefs). cbn [mbind M_bind].
  unfold bset_range. rewrite slot_bounds_ok. cbn [mbind M_bind]. by eexists.
Qed.

Lemma ready_to_propose_returns p (s : DagState S) slots clock_ms own :
  ds_ok s → last_proposed_block s = Ret own →
  Forall (λ slot, slot_authority slot ∈ members (DagState_committee s) ∧ (slot_round slot = GENESIS_ROUND ∨ DagState_gc_round s < slot_round slot)) slots →
  ∃ ready, ready_to_propose p s slots clock_ms = Ret ready.
Proof.
  intros Hok Hown Hslots. unfold ready_to_propose.
  assert (∃ found, forall_slots (DagState_contains_cached_block_at_slot s) slots = Ret found) as [found ->].
  { induction Hslots as [|slot slots [Ha Hr] _ IH]; [by eexists|]. cbn [forall_slots].
    destruct (contains_cached_at_slot_returns s slot Hok Ha Hr) as [[] ->]; cbn [mbind M_bind]; [exact IH|by eexists]. }
  cbn [mbind M_bind]. destruct found; [|by eexists]. rewrite Hown. by eexists.
Qed.
End Leaders.

(** ** The block *)

(** What the signature scheme, the serialization and the hash function promise for the key of the proposer. *)
Record signs `{Crypto} `{Signing} (key : ProtocolKeyPair) (pubkey : bytes) : Prop := {
  sg_message : ∀ b, ∃ m, block_message b = Ok m;
  sg_bytes : ∀ m, signature_from_bytes (signature_to_bytes (keypair_sign key m)) = inl (keypair_sign key m);
  sg_verify : ∀ m, pubkey_verify pubkey m (keypair_sign key m) = None;
  sg_serialize : ∀ sb, is_Some (bcs_signed_block sb);
  sg_hash : ∀ bs, hash bs ≤ BlockDigest_MAX;
}.

Lemma sign_block_spec `{Crypto} `{Signing} p block pubkey :
  signs (vp_block_signer p) pubkey →
  ∃ b : VerifiedBlock, sign_block p block = Ret b ∧ sb_inner (vb_block b) = block ∧
    verify_block_signature block (sb_signature (vb_block b)) pubkey = Ok tt ∧ br_digest (reference b) ≤ BlockDigest_MAX.
Proof.
  intros [Hm Hb Hv Hs Hh]. unfold sign_block, SignedBlock_new, compute_block_signature. destruct (Hm block) as [m Em]. rewrite Em.
  destruct (Hs (mkSignedBlock block (signature_to_bytes (keypair_sign (vp_block_signer p) m)))) as [bs ->]. eexists. split; [done|]. split; [done|].
  split; [|apply Hh]. unfold verify_block_signature. cbn [VerifiedBlock_new_verified vb_block sb_signature]. by rewrite Em, Hb, Hv.
Qed.

(** The same protocol, at another authority. *)
Definition same_protocol `{Crypto} (ctx ctx' : Context) : Prop :=
  ctx_committee ctx' = ctx_committee ctx ∧ ctx_protocol_config ctx' = ctx_protocol_config ctx ∧ genesis_blocks ctx' = genesis_blocks ctx.

Section Rules.
Context `{Profile} `{Crypto} `{Signing} {S : Type} `{StoreLaws S}.

Lemma create_block_fields p clock now anc txs votes cutoff commit_votes :
  pc_enable_v3 (ctx_protocol_config (vp_context p)) = false →
  let b := create_block p clock now anc txs votes cutoff commit_votes in
  b_epoch b = Committee_epoch (ctx_committee (vp_context p)) ∧ b_round b = clock ∧ b_author b = ctx_own_index (vp_context p) ∧
  b_timestamp_ms b = now ∧ b_ancestors b = reference <$> anc ∧ b_transactions b = txs ∧ b_commit_votes b = commit_votes ∧
  version_matches (vp_context p) b = true ∧
  b_transaction_votes b = if pc_transaction_voting_enabled (ctx_protocol_config (vp_context p)) then votes else [].
Proof. intros Hv3. unfold create_block, version_matches. rewrite Hv3. by destruct (pc_transaction_voting_enabled _). Qed.

Lemma parent_authors_of clock (anc : list VerifiedBlock) :
  0 < clock → parent_authors clock (reference <$> anc) = authors_in (clock - 1) anc.
Proof.
  intros Hpos. apply set_eq. intros i. unfold parent_authors. rewrite authors_in_elem, elem_of_list_to_set, list_elem_of_fmap. setoid_rewrite list_elem_of_filter.
  setoid_rewrite list_elem_of_fmap. split.
  - intros (r & -> & Hr & b & -> & Hb). exists b. cbn in *. split; [done|]. split; [lia|done].
  - intros (b & Hb & Hr & <-). exists (reference b). cbn. split; [done|]. split; [lia|]. by exists b.
Qed.

Lemma takeable_batch ctx txs :
  takeable ctx txs → batch_size (tx_data <$> txs) = bytes_of txs ∧
  Forall (λ t, within (pc_max_transaction_size_bytes (ctx_protocol_config ctx)) (N.of_nat (length t))) (tx_data <$> txs) ∧
  within (pc_max_num_transactions_in_block (ctx_protocol_config ctx)) (N.of_nat (length (tx_data <$> txs))) ∧
  within (pc_max_transactions_in_block_bytes (ctx_protocol_config ctx)) (bytes_of txs).
Proof.
  intros [Hs Hn Hb]. split; [unfold batch_size, bytes_of; by rewrite <- list_fmap_compose|]. split; [|split; right; [by rewrite length_fmap|done]].
  apply Forall_fmap. eapply Forall_impl; [exact Hs|]. intros tx Htx. by right.
Qed.

(** A signed block on top of selected ancestors is valid at every authority. *)
Lemma block_rules_of p (s : DagState S) own anc txs ctx' v (b : SignedBlock) authority :
  let clock := DagState_threshold_clock_round s in
  ds_ok s → ds_context s = vp_context p → genesis_ok s → 0 < clock → ctx_own_index (vp_context p) ∈ members (ctx_committee (vp_context p)) →
  newest_of s (ctx_own_index (vp_context p)) own → ancestors_ok p s clock own anc → takeable (vp_context p) txs →
  same_protocol (vp_context p) ctx' → SignedBlockVerifier_new ctx' = Ret v →
  pc_enable_v3 (ctx_protocol_config (vp_context p)) = false →
  Committee_authorities (ctx_committee (vp_context p)) !! N.to_nat (ctx_own_index (vp_context p)) = Some authority →
  verify_block_signature (sb_inner b) (sb_signature b) (Authority_protocol_key authority) = Ok tt →
  b_epoch b = Committee_epoch (ctx_committee (vp_context p)) → b_round b = clock → b_author b = ctx_own_index (vp_context p) →
  b_ancestors b = reference <$> anc → b_transactions b = txs → version_matches (vp_context p) b = true →
  block_rules v b.
Proof.
  intros clock Hok Hds (gs & Hgs & Hgm) Hpos Hown (Hoa & _) [Hhead Hnd Hcand Hq] Htx (Ec & Ep & Eg) Hnew Hv3 Hauth Hsig He Hr Ha Hanc Htxs Hver.
  unfold SignedBlockVerifier_new in Hnew. rewrite Eg, <- Hds, Hgs in Hnew. injection Hnew as <-.
  destruct (takeable_batch _ _ Htx) as (Ebatch & Hbatch).
  split; cbn [bv_context bv_genesis]; rewrite ?Ec, ?Ep, ?Hr, ?Ha, ?Hanc; try done.
  - unfold version_matches in *. by rewrite Ep.
  - by exists authority.
  - destruct anc as [|own' rest]; [done|]. injection Hhead as ->. exists (reference own), (reference <$> rest). split; [done|]. exact Hoa.
  - by rewrite <- list_fmap_compose.
  - apply Forall_fmap. eapply Forall_impl; [exact Hcand|]. intros a (Hm & Hlt & Hblk). unfold ancestor_rules. cbn [bv_context bv_genesis compose].
    rewrite Ec, Hr. split; [done|]. split; [done|]. intros Hz. apply elem_of_list_to_set, list_elem_of_fmap. exists a. split; [done|].
    rewrite ds_block_cached, Hz, N.eqb_refl, Hgm in Hblk.
    apply (genesis_map_elem (ds_context s) gs _ _ (ok_committee s Hok) Hgs) in Hblk. apply list_elem_of_fmap in Hblk as (a' & Heq & ?).
    by assert (a = a') as -> by congruence.
  - by rewrite parent_authors_of.
  - by rewrite Hv3.
  - unfold batch_rules, b_transactions_data. cbn [bv_context]. rewrite Ep, Htxs, Ebatch. done.
Qed.
End Rules.

(** ** The block in the DAG *)

Section Install.
Context `{Profile} `{Crypto} {S : Type} `{StoreLaws S}.
Implicit Types s : DagState S.

(** [s'] has the blocks of [s] and those of [f]. *)
Record extended s (f : BlockRef → option VerifiedBlock) s' : Prop := {
  ex_ok : ds_ok s';
  ex_context : ds_context s' = ds_context s;
  ex_commit : ds_last_commit s' = ds_last_commit s;
  ex_blocks : ∀ r, ds_block s' r = match f r with Some b => Some b | None => ds_block s r end;
}.

Lemma extended_genesis s f s' :
  ds_ok s → extended s f s' → (∀ r, br_round r = GENESIS_ROUND → f r = None) → genesis_ok s → genesis_ok s'.
Proof.
  intros Hok [Hok' Hc _ Hb] Hf (gs & Hgs & Hg). exists gs. split; [by rewrite Hc|]. rewrite <- Hg. apply map_eq. intros r.
  destruct (decide (br_round r = GENESIS_ROUND)) as [Hz|Hz].
  - specialize (Hb r). rewrite (Hf r Hz), !ds_block_cached, Hz in Hb. exact Hb.
  - transitivity (@None VerifiedBlock); [|symmetry]; apply eq_None_not_Some; intros [b Hr]; apply Hz.
    + by apply (ok_genesis s' Hok' r b).
    + by apply (ok_genesis s Hok r b).
Qed.

Lemma marked_extended s l s' : ds_ok s → marked s l s' → extended s (λ _, None) s'.
Proof.
  intros Hok Hm. split; [by eapply marked_ok|by destruct Hm as [[[] _] _]|by destruct Hm as [[_ ?] _]|]. intros r. by apply (marked_block _ _ _ _ Hm).
Qed.

(** A new own block above all others, with its ancestors. *)
Record fits_dag s (b : VerifiedBlock) : Prop := {
  fd_valid : block_valid s b;
  fd_round : 0 < b_round b ∧ b_round b < u32_max;
  fd_new : ∀ r, br_author r = b_author b → is_Some (ds_block s r) → br_round r < b_round b;
  fd_ancestors : ∀ a, a ∈ b_ancestors b → br_round a < b_round b ∧ is_Some (ds_block s a);
}.

Definition just (b : VerifiedBlock) (r : BlockRef) : option VerifiedBlock := if decide (r = reference b) then Some b else None.

Lemma fits_dag_fresh s b : fits_dag s b → ds_block s (reference b) = None.
Proof. intros []. apply eq_None_not_Some. intros Hs. specialize (fd_new0 (reference b) eq_refl Hs). cbn in fd_new0. lia. Qed.

Lemma extended_closed s b s' : fits_dag s b → dag_closed s → extended s (just b) s' → dag_closed s'.
Proof.
  intros Hf Hcl [_ Hc Hl Hb] r b' a Hr Ha. rewrite (gc_round_same s s') by done. rewrite Hb in Hr. rewrite Hb.
  assert (is_Some (ds_block s a) → is_Some (match just b a with Some x => Some x | None => ds_block s a end)) as Hmono by (by destruct (just b a)).
  unfold just in Hr. destruct (decide (r = reference b)) as [->|].
  - injection Hr as <-. destruct (fd_ancestors s b Hf a Ha) as [Hlt Hs]. split; [done|]. intros _. by apply Hmono.
  - destruct (Hcl r b' a Hr Ha) as [Hlt Hs]. split; [done|]. intros Hgc. by apply Hmono, Hs.
Qed.

Lemma accept_own_block s b :
  ds_ok s → pc_enable_v3 (DagState_protocol_config s) = false → fits_dag s b →
  ∃ s', DagState_accept_block s b = Ret s' ∧ extended s (just b) s'.
Proof.
  intros Hok Hv3 Hf. pose proof (fits_dag_fresh s b Hf) as Hnone. destruct Hf as [Hval [Hpos Hmax] Hnew _].
  destruct (accept_block_outcome s b Hok (v3_off_ready s b Hv3) Hval Hpos Hmax) as [[Hs _]|[(_ & Ht & _)|(_ & _ & s' & Hs' & _ & _)]].
  - rewrite Hnone in Hs. by destruct Hs.
  - destruct Ht as (_ & _ & b0 & Hb0 & Hslot). apply cached_is_block in Hb0; [|done]. injection Hslot as Hr Ha.
    specialize (Hnew (reference b0)). cbn in Hnew. rewrite Ha, Hr in Hnew. specialize (Hnew eq_refl ltac:(by eexists)). lia.
  - exists s'. split; [done|]. destruct (accept_block_spec s b s' Hok Hval Hs') as (Hok' & Hc & Hl & Hb). split; try done.
    intros r. rewrite Hb. unfold just. destruct (decide (r = reference b)) as [->|Hne].
    + by rewrite decide_True.
    + by rewrite decide_False by naive_solver.
Qed.

Lemma flush_extended s : ds_ok s → ∃ s', DagState_flush s = Ret s' ∧ flushed s' ∧ extended s (λ _, None) s'.
Proof. intros Hok. destruct (flush_spec s Hok) as (s' & Hs' & Hok' & Hf & Hc & Hl & Hb & _). exists s'. split; [done|]. split; [done|]. by split. Qed.

Lemma extended_trans s f s1 g s2 :
  extended s f s1 → extended s1 g s2 → (∀ r, g r = None) → extended s f s2.
Proof. intros [_ Hc Hl Hb] [Hok Hc' Hl' Hb'] Hg. split; [done|congruence|congruence|]. intros r. rewrite Hb', Hg. apply Hb. Qed.

Lemma extended_start s s1 f s2 : extended s (λ _, None) s1 → extended s1 f s2 → extended s f s2.
Proof. intros [_ Hc Hl Hb] [Hok Hc' Hl' Hb']. split; [done|congruence|congruence|]. intros r. rewrite Hb'. by rewrite Hb. Qed.

Lemma extended_closed_same s s' : extended s (λ _, None) s' → dag_closed s → dag_closed s'.
Proof. intros [_ Hc Hl Hb] Hcl r b a. rewrite (gc_round_same s s'), !Hb by done. apply Hcl. Qed.

Lemma fits_dag_same s s' b : extended s (λ _, None) s' → fits_dag s b → fits_dag s' b.
Proof.
  intros [_ Hc _ Hb] [[Hv Ha] Hr Hn Han]. split; [split; [done|unfold DagState_committee in *; by rewrite Hc]|done| |].
  - intros r. rewrite Hb. apply Hn.
  - intros a. rewrite Hb. apply Han.
Qed.

Lemma take_commit_votes_extended s limit :
  ds_ok s → extended s (λ _, None) (DagState_take_commit_votes s limit).1 ∧
  ds_recent_blocks (DagState_take_commit_votes s limit).1 = ds_recent_blocks s.
Proof.
  intros Hok. unfold DagState_take_commit_votes. destruct (take_votes_loop _ _ _) as [votes pending]. cbn [fst].
  split; [|done]. assert (same_view s (set_pending_commit_votes pending s)) as Hv by (by split). split; [|done..]. by apply (same_view_ok s).
Qed.

(** Accepting the block, linking its history when blocks are voted on, and flushing. *)
Lemma install_own_block s b voting :
  ds_ok s → dag_closed s → pc_enable_v3 (DagState_protocol_config s) = false → fits_dag s b →
  ∃ s1 s2 s3, DagState_accept_block s b = Ret s1 ∧
    (if voting : bool then ∃ l, DagState_link_causal_history s1 (reference b) = Ret (s2, l) else s2 = s1) ∧
    DagState_flush s2 = Ret s3 ∧ flushed s3 ∧ extended s (just b) s3 ∧ dag_closed s3.
Proof.
  intros Hok Hcl Hv3 Hf. destruct (accept_own_block s b Hok Hv3 Hf) as (s1 & Hs1 & He1).
  pose proof (extended_closed s b s1 Hf Hcl He1) as Hcl1. pose proof (ex_ok _ _ _ He1) as Hok1. pose proof (ex_context _ _ _ He1) as Hc1.
  assert (∃ s2, (if voting then ∃ l, DagState_link_causal_history s1 (reference b) = Ret (s2, l) else s2 = s1) ∧ extended s (just b) s2) as (s2 & Hs2 & He2).
  { destruct voting; [|by exists s1]. destruct (link_all s1 [b] Hok1 Hcl1) as (s2 & l & Hl & Hm & _).
    - constructor; [|constructor]. rewrite (ex_blocks _ _ _ He1). unfold just. by rewrite decide_True.
    - cbn [foldM] in Hl. apply bind_Ret in Hl as ([s' l'] & Hl & [= <- <-]). apply bind_Ret in Hl as ([s'' l''] & Hl & [= <- _]).
      exists s''. split; [by exists l''|]. eapply extended_trans; [exact He1|by eapply marked_extended|done]. }
  pose proof (extended_closed s b s2 Hf Hcl He2) as Hcl2. destruct (flush_extended s2 (ex_ok _ _ _ He2)) as (s3 & Hs3 & Hfl & He3).
  exists s1, s2, s3. repeat (split; [done|]). split; [by eapply extended_trans|by eapply extended_closed_same].
Qed.
End Install.
