(* ===== verification/ProposerRun.v ===== *)
(** * A proposal

    From a consistent node, [try_new_block] returns; a forced one returns a block when this authority may propose.  The node
    after the proposal is consistent again. *)

From S2P Require Import Prelude BTree Config Block Commit Store StakeAggregator ThresholdClock LeaderScoring.
From S2P Require Import RoundTracker RoundTrackerTheory AncestorState AncestorStateTheory DagState DagTheory DagRecovery DagTraversal.
From S2P Require Import LeaderSchedule BaseCommitter UniversalCommitter CommitSequence BlockVerifier BlockVerifierTheory.
From S2P Require Import TransactionPool TransactionPoolTheory TransactionVoteTracker VoteTrackerTheory.
From S2P Require Import Proposer ProposerDag ProposerHistory ProposerAncestors ProposerBlock.
Local Open Scope N_scope.

Section Run.
Context `{Profile} `{Crypto} `{Signing} `{Rng} `{UnstableSort} {S : Type} `{StoreLaws S} {P : Type} `{TransactionPool P}.
Abbreviation VotedBlock := (VerifiedBlock * list TransactionIndex)%type (only parsing).

(** The node around a proposer: its DAG is closed, its vote tracker has seen the blocks [adds], among them every block of the DAG, and its pool
    keeps the limits. *)
Record node_ok (ctx : Context) `{!TransactionPoolLaws ctx P} (sh : shared (S := S) (P := P)) (adds : list VotedBlock) : Prop := {
  no_dag : ds_ok (sh_dag_state sh);
  no_context : ds_context (sh_dag_state sh) = ctx;
  no_genesis : genesis_ok (sh_dag_state sh);
  no_closed : dag_closed (sh_dag_state sh);
  no_tracker : ctx_committee (vt_context (sh_transaction_vote_tracker sh)) = ctx_committee ctx;
  no_tracks : tracks (ctx_committee ctx) adds (sh_transaction_vote_tracker sh);
  no_voted : Forall (votes_down (ctx_committee ctx)) adds.*1;
  no_seen : pc_transaction_voting_enabled (ctx_protocol_config ctx) = true →
    ∀ r, is_Some (ds_block (sh_dag_state sh) r) → DagState_gc_round (sh_dag_state sh) < br_round r → r ∈ reference <$> adds.*1;
  no_own : ∀ b : VerifiedBlock, b ∈ adds.*1 → b_author b = ctx_own_index ctx → is_Some (ds_block (sh_dag_state sh) (reference b));
  no_rejects : ∀ e : VotedBlock, e ∈ adds → N.of_nat (length e.2) ≤ 2 ^ 16;
  no_rounds : rt_ok (sh_round_tracker sh) ∧ rt_context (sh_round_tracker sh) = ctx;
  no_pool : pool_inv ctx (sh_transaction_pool sh);
}.

Lemma include_all (anc : list VerifiedBlock) (li : list (option BlockRef)) :
  Forall (λ b : VerifiedBlock, (N.to_nat (b_author b) < length li)%nat) anc →
  ∃ li', foldM (λ l (ancestor : VerifiedBlock), index_update l (b_author ancestor) (λ _, Some (reference ancestor))) li anc = Ret li' ∧
    length li' = length li ∧
    ∀ i r, li' !! N.to_nat i = Some (Some r) → li !! N.to_nat i = Some (Some r) ∨ ∃ b : VerifiedBlock, b ∈ anc ∧ reference b = r.
Proof using.
  revert li. induction anc as [|b anc IH]; intros li Hanc; cbn [foldM]; [exists li; split; [done|]; split; [done|by left]|].
  apply Forall_cons in Hanc as [Hb Hanc]. destruct (lookup_lt_is_Some_2 li (N.to_nat (b_author b)) Hb) as [x Hx].
  assert (index_update li (b_author b) (λ _, Some (reference b)) = Ret (<[N.to_nat (b_author b) := Some (reference b)]> li)) as ->.
  { unfold index_update. by rewrite Hx. }
  cbn [mbind M_bind].
  destruct (IH (<[N.to_nat (b_author b) := Some (reference b)]> li)) as (li' & -> & Hlen & Hli'); [by rewrite length_insert|].
  exists li'. split; [done|]. rewrite length_insert in Hlen. split; [done|]. intros i r Hr. destruct (Hli' i r Hr) as [Ho|(b' & Hb' & ?)].
  - apply list_lookup_insert_Some in Ho as [(_ & [= <-] & _)|[_ ?]]; [right|by left]. exists b. split; [left|done].
  - right. exists b'. split; [by right|done].
Qed.

Context (ctx : Context).
Abbreviation c := (ctx_committee ctx).

(** What a proposer of [ctx] needs besides the node: a committee that it is in, its key, and configured limits. *)
Record proposer_ok (p : ValidatorProposer) : Prop := {
  po_context : vp_context p = ctx;
  po_v2 : pc_enable_v3 (ctx_protocol_config ctx) = false;
  po_own : ctx_own_index ctx ∈ members c;
  po_key : ∀ authority, Committee_authorities c !! N.to_nat (ctx_own_index ctx) = Some authority →
    signs (vp_block_signer p) (Authority_protocol_key authority);
  po_included : length (vp_last_included_ancestors p) = length (Committee_authorities c);
  po_bytes : max_bytes ctx < 2 ^ 64;
  po_gc_depth : pc_gc_depth (ctx_protocol_config ctx) < 2 ^ 32;
}.

Abbreviation voting := (pc_transaction_voting_enabled (ctx_protocol_config ctx)).

(** The block that is signed, before it enters the DAG. *)
Lemma signed_block_spec p (s : DagState S) own anc now txs votes cutoff commit_votes :
  let clock := DagState_threshold_clock_round s in
  proposer_ok p → ds_ok s → ds_context s = ctx → genesis_ok s → 0 < clock → clock < u32_max → newest_of s (ctx_own_index ctx) own → b_round own < clock →
  ancestors_ok p s clock own anc → takeable ctx txs →
  ∃ b : VerifiedBlock, sign_block p (create_block p clock now anc txs votes cutoff commit_votes) = Ret b ∧ fits_dag s b ∧
    b_author b = ctx_own_index ctx ∧ b_round b = clock ∧ b_timestamp_ms b = now ∧ b_ancestors b = reference <$> anc ∧
    b_transaction_votes b = (if voting then votes else []) ∧
    ∀ ctx' v, same_protocol ctx ctx' → SignedBlockVerifier_new ctx' = Ret v → SignedBlockVerifier_verify_block v (vb_block b) = Ret (Ok tt).
Proof using.
  intros clock [Hctx Hv3 Hown Hkey _ Hbytes Hgcd] Hok Hds Hgen Hpos Hmax Hn Hor Hanc Htx. subst ctx.
  pose proof (ok_committee s Hok) as Hwf. unfold DagState_committee in Hwf. rewrite Hds in Hwf.
  destruct (index_member s _ _ (eq_refl _) ltac:(unfold DagState_committee; rewrite Hds; exact Hown)) as [authority Hauth].
  unfold DagState_committee in Hauth. rewrite Hds in Hauth.
  set (block := create_block p clock now anc txs votes cutoff commit_votes).
  destruct (sign_block_spec p block _ (Hkey _ Hauth)) as (b & Hsign & Hinner & Hsig & Hdig).
  destruct (create_block_fields p clock now anc txs votes cutoff commit_votes Hv3) as (He & Hr & Ha & Ht & Han & Htxs & _ & Hver & Hvo).
  fold block in He, Hr, Ha, Ht, Han, Htxs, Hver, Hvo. rewrite <- Hinner in *. exists b. split; [done|].
  pose proof (wf_size _ Hwf) as Hsz. pose proof Hown as Hown'. apply members_spec in Hown'. unfold Committee_is_valid_index in Hown'. nbool.
  split; [|repeat (split; [done|])].
  - split.
    + split; [|unfold DagState_committee; by rewrite Hds, Ha]. split; [cbn; lia|]. split; [cbn; lia|done].
    + lia.
    + intros r Har Hs. rewrite Ha in Har. pose proof (proj2 (proj2 Hn) r Har Hs). lia.
    + intros a. rewrite Han. intros (a' & -> & Hin)%list_elem_of_fmap. pose proof (an_candidates _ _ _ _ _ Hanc) as Hc.
      rewrite Forall_forall in Hc. destruct (Hc a' Hin) as (_ & Hlt & Hblk). split; [cbn; lia|by eexists].
  - intros ctx' v Hsame Hnew. pose proof Hsame as (Ec & Ep & _). assert (bv_context v = ctx') as Hv.
    { unfold SignedBlockVerifier_new in Hnew. by apply bind_Ret in Hnew as (g & _ & [= <-]). }
    destruct (verify_block_spec v) with (block := vb_block b) as (x & Hx & Hiff); [by rewrite Hv, Ec|by rewrite Hv, Ep| |].
    { unfold b_transactions_data. rewrite Htxs, (proj1 (takeable_batch _ _ Htx)). pose proof (tk_bytes _ _ Htx). lia. }
    rewrite Hx. f_equal. apply Hiff. by eapply (block_rules_of p s own anc txs ctx' v (vb_block b) authority).
Qed.
Context `{!TransactionPoolLaws ctx P}.

Lemma node_known sh adds r :
  node_ok ctx sh adds → r ∈ reference <$> adds.*1 → vt_gc_round (sh_transaction_vote_tracker sh) < br_round r →
  is_Some (vt_votes (sh_transaction_vote_tracker sh) !! r).
Proof using.
  intros Hn (b & -> & Hb)%list_elem_of_fmap Hgc. apply (tk_known _ _ _ (no_tracks _ _ _ Hn)); [done|]. exists b. split; [done|by left].
Qed.

Lemma node_rejects sh adds r :
  node_ok ctx sh adds → vt_gc_round (sh_transaction_vote_tracker sh) < br_round r →
  N.of_nat (length (own_rejects (sh_transaction_vote_tracker sh) r)) ≤ 2 ^ 16.
Proof using.
  intros Hn Hgc. unfold own_rejects. rewrite (tk_own _ _ _ (no_tracks _ _ _ Hn)) by done.
  destruct (first_add adds r) as [e|] eqn:E; cbn; [|lia]. apply first_add_Some in E as [He _]. by apply (no_rejects _ _ _ Hn).
Qed.

(** The node [sh'] after the block [b] was proposed at time [now] on top of the own block [own]. *)
Record proposed (sh : shared (S := S) (P := P)) (adds : list VotedBlock) (own : VerifiedBlock) (now : BlockTimestampMs)
    (sh' : shared (S := S) (P := P)) (b : VerifiedBlock) : Prop := {
  pp_author : b_author b = ctx_own_index ctx;
  pp_round : b_round b = DagState_threshold_clock_round (sh_dag_state sh);
  pp_time : b_timestamp_ms b = now;
  pp_valid : ∀ ctx' v, same_protocol ctx ctx' → SignedBlockVerifier_new ctx' = Ret v → SignedBlockVerifier_verify_block v (vb_block b) = Ret (Ok tt);
  pp_chain : head (b_ancestors b) = Some (reference own);
  pp_votes : ∀ v, v ∈ b_transaction_votes b ↔
    voting = true ∧ owed (sh_dag_state sh) (sh_transaction_vote_tracker sh) (b_ancestors b) v;
  pp_dag : ∀ r, ds_block (sh_dag_state sh') r = if decide (r = reference b) then Some b else ds_block (sh_dag_state sh) r;
  pp_stored : flushed (sh_dag_state sh');
  pp_node : node_ok ctx sh' (if voting then adds ++ [(b, [])] else adds);
}.

(** The block enters the vote tracker, without own votes on its transactions. *)
Lemma track_own_block sh adds (b : VerifiedBlock) :
  node_ok ctx sh adds → fits_dag (sh_dag_state sh) b → votes_down c b → b_author b = ctx_own_index ctx →
  ∃ t', VoteTrackerState_add_voted_blocks (sh_transaction_vote_tracker sh) [(b, [])] = Ret t' ∧
    ctx_committee (vt_context t') = c ∧ tracks c (adds ++ [(b, [])]) t'.
Proof using.
  intros Hn Hf Hvd Ha. pose proof (ok_committee _ (no_dag _ _ _ Hn)) as Hwf. unfold DagState_committee in Hwf. rewrite (no_context _ _ _ Hn) in Hwf.
  destruct (add_voted_block_spec c Hwf adds (sh_transaction_vote_tracker sh) b []) as (t' & Ht' & Hc & _ & Htr);
    [apply (no_tracks _ _ _ Hn)|apply (no_voted _ _ _ Hn)|done|apply (no_tracker _ _ _ Hn)| |].
  - intros b' Hb' Hr. exfalso. assert (b_author b' = b_author b) as Hab by (by injection Hr).
    destruct (no_own _ _ _ Hn b' Hb') as [x Hx]; [congruence|]. rewrite Hr, (fits_dag_fresh _ _ Hf) in Hx. done.
  - exists t'. unfold VoteTrackerState_add_voted_blocks. cbn [foldM fst snd]. rewrite Ht'. split; [done|]. split; [|done]. by rewrite Hc, (no_tracker _ _ _ Hn).
Qed.

Lemma node_after sh adds (b : VerifiedBlock) s' t' rt' pool' :
  node_ok ctx sh adds → fits_dag (sh_dag_state sh) b → votes_down c b → extended (sh_dag_state sh) (just b) s' → dag_closed s' →
  (if voting then ctx_committee (vt_context t') = c ∧ tracks c (adds ++ [(b, [])]) t' else t' = sh_transaction_vote_tracker sh) →
  rt_ok rt' → rt_context rt' = ctx → pool_inv ctx pool' →
  node_ok ctx (mkShared s' t' rt' pool') (if voting then adds ++ [(b, [])] else adds).
Proof using.
  intros Hn Hf Hvd Hex Hcl Ht Hrt Hrtc Hpool. pose proof (ex_blocks _ _ _ Hex) as Hb.
  assert (∀ r, is_Some (ds_block (sh_dag_state sh) r) → is_Some (ds_block s' r)) as Hmono by (intros r Hr; rewrite Hb; by destruct (just b r)).
  assert (is_Some (ds_block s' (reference b))) as Hself by (rewrite Hb; unfold just; by rewrite decide_True).
  split; cbn [sh_dag_state sh_transaction_vote_tracker sh_round_tracker sh_transaction_pool]; try done.
  - by destruct Hex.
  - rewrite (ex_context _ _ _ Hex). apply (no_context _ _ _ Hn).
  - eapply extended_genesis; [apply (no_dag _ _ _ Hn)|exact Hex| |apply (no_genesis _ _ _ Hn)].
    intros r Hz. unfold just. destruct (decide (r = reference b)) as [->|]; [|done]. pose proof (fd_round _ _ Hf). cbn in Hz. unfold GENESIS_ROUND in Hz. lia.
  - destruct voting; [by destruct Ht|subst t'; apply (no_tracker _ _ _ Hn)].
  - destruct voting; [by destruct Ht|subst t'; apply (no_tracks _ _ _ Hn)].
  - destruct voting; [|apply (no_voted _ _ _ Hn)]. rewrite fmap_app, Forall_app. split; [apply (no_voted _ _ _ Hn)|by apply Forall_singleton].
  - intros Ev r Hr Hgc. rewrite Ev, fmap_app, fmap_app, elem_of_app. rewrite Hb in Hr. unfold just in Hr.
    destruct (decide (r = reference b)) as [->|]; [right; by apply list_elem_of_singleton|left].
    apply (no_seen _ _ _ Hn Ev r Hr). by rewrite <- (gc_round_same _ _ (ex_context _ _ _ Hex) (ex_commit _ _ _ Hex)).
  - intros b' Hb' Ha'. destruct voting; [rewrite fmap_app, elem_of_app in Hb'; destruct Hb' as [Hb'|Hb'%list_elem_of_singleton]; [|by subst b']|];
      by apply Hmono, (no_own _ _ _ Hn).
  - intros e He. destruct voting; [apply elem_of_app in He as [He|He%list_elem_of_singleton]; [|subst e; cbn; lia]|]; by apply (no_rejects _ _ _ Hn).
Qed.
(** The proposal votes on blocks below it. *)
Lemma owed_below s (t : VoteTrackerState) roots round v :
  ds_ok s → dag_closed s → (∀ root, root ∈ roots → br_round root < round) → owed s t roots v → br_round (btv_block_ref v) < round.
Proof using. intros Hok Hcl Hr [[(root & Hroot & Hreach) _] _]. apply new_history_round in Hreach; [|done..]. specialize (Hr root Hroot). lia. Qed.

Lemma proposal_metrics_returns p slots (anc : list VerifiedBlock) slot :
  vp_context p = ctx → head slots = Some slot → slot_authority slot ∈ members c → Forall (λ b : VerifiedBlock, b_author b ∈ members c) anc →
  proposal_metrics p slots anc = Ret tt.
Proof using.
  intros Hctx Hs Hm Hanc. unfold proposal_metrics. rewrite Hctx, Hs. cbn [expect mbind M_bind].
  destruct (Committee_authority_member c (slot_authority slot) Hm) as [a ->].
  assert (∃ l, mapP (λ ancestor : VerifiedBlock, Committee_authority c (b_author ancestor)) anc = Ret l) as [l ->]; [|by destruct (pc_enable_v3 _)].
  induction Hanc as [|b anc Hb _ [l IH]]; [by eexists|]. cbn [mapP]. destruct (Committee_authority_member c (b_author b) Hb) as [a' ->].
  cbn [mbind M_bind]. rewrite IH. by eexists.
Qed.

(** The votes of a proposal of the node, after the commit votes were taken. *)
Lemma own_votes_in_node p sh adds s1 (anc : list VerifiedBlock) :
  vp_context p = ctx → pc_enable_v3 (ctx_protocol_config ctx) = false → node_ok ctx sh adds → N.of_nat (size (ds_recent_blocks (sh_dag_state sh))) < 2 ^ 47 →
  Forall (λ b, is_Some (ds_block (sh_dag_state sh) (reference b))) anc →
  extended (sh_dag_state sh) (λ _, None) s1 → ds_recent_blocks s1 = ds_recent_blocks (sh_dag_state sh) →
  ∃ s2 votes, own_transaction_votes p s1 (sh_transaction_vote_tracker sh) anc = Ret (s2, votes, DagState_gc_round s1) ∧
    extended (sh_dag_state sh) (λ _, None) s2 ∧
    ∀ v, v ∈ votes ↔ voting = true ∧ owed (sh_dag_state sh) (sh_transaction_vote_tracker sh) (reference <$> anc) v.
Proof using.
  intros Hctx Hv3 Hn Hsize Hanc He Hrec. pose proof (gc_round_same _ _ (ex_context _ _ _ He) (ex_commit _ _ _ He)) as Hgc.
  destruct (own_transaction_votes_spec p s1 (sh_transaction_vote_tracker sh) anc) as (s2 & l & votes & Hvotes & Hm & Hvel); rewrite ?Hctx in *; try done.
  - by destruct He.
  - eapply extended_closed_same; [exact He|apply (no_closed _ _ _ Hn)].
  - eapply Forall_impl; [exact Hanc|]. intros b Hb. by rewrite (ex_blocks _ _ _ He).
  - intros Ev r Hr Hgt Hgt'. rewrite (ex_blocks _ _ _ He) in Hr. rewrite Hgc in Hgt. eapply node_known; [done| |done]. by apply (no_seen _ _ _ Hn).
  - intros r Hgt. by eapply node_rejects.
  - by rewrite Hrec.
  - exists s2, votes. split; [done|]. split; [eapply extended_trans; [exact He|eapply marked_extended; [by destruct He|exact Hm]|done]|].
    intros v. rewrite Hvel. unfold owed, new_history. by rewrite Hrec, Hgc.
Qed.

(** The rest of a proposal on the ancestors [anc]. *)
Lemma propose_with_ancestors_spec p sh adds own slots slot now anc ex :
  let s := sh_dag_state sh in
  let clock := DagState_threshold_clock_round s in
  proposer_ok p → node_ok ctx sh adds → 0 < clock → clock < u32_max → last_proposed_block s = Ret own → newest_of s (ctx_own_index ctx) own → b_round own < clock →
  N.of_nat (size (ds_recent_blocks s)) < 2 ^ 47 → ancestors_ok p s clock own anc → (∀ r, r ∈ ex → br_author r ∈ members c) →
  head slots = Some slot → slot_authority slot ∈ members c →
  ∃ li sh' eb, propose_with_ancestors p sh clock slots now anc ex = Ret (set_last_included li p, sh', eb) ∧ proposed sh adds own now sh' (eb_block eb) ∧
    length li = length (vp_last_included_ancestors p) ∧
    ∀ i r, li !! N.to_nat i = Some (Some r) → vp_last_included_ancestors p !! N.to_nat i = Some (Some r) ∨ ∃ b : VerifiedBlock, b ∈ anc ∧ reference b = r.
Proof using.
  intros s clock Hp Hn Hpos Hmax Hlast Hnew Hor Hsize Hanc Hex Hslot Hslotm. pose proof Hp as [Hctx Hv3 Hown _ Hli Hbytes _].
  pose proof (no_dag _ _ _ Hn) as Hok. pose proof (no_context _ _ _ Hn) as Hds. pose proof (ok_committee _ Hok) as Hwf.
  unfold DagState_committee in Hwf. rewrite Hds in Hwf. pose proof (wf_size _ Hwf) as Hsz. pose proof (an_candidates _ _ _ _ _ Hanc) as Hcand.
  assert (Forall (λ b : VerifiedBlock, b_author b ∈ members c) anc) as Hmem.
  { eapply Forall_impl; [exact Hcand|]. intros b (Hm & _). by rewrite Hctx in Hm. }
  unfold propose_with_ancestors. rewrite Hctx. rewrite (int_mul_exact 64) by lia. cbn [mbind M_bind].
  destruct (include_all anc (vp_last_included_ancestors p)) as (li & Hinc & Hlen & Hli').
  { eapply Forall_impl; [exact Hmem|]. intros b Hm%members_spec. unfold Committee_is_valid_index, Committee_size in Hm. nbool. lia. }
  rewrite Hinc. cbn [mbind M_bind]. rewrite (proposal_metrics_returns (set_last_included li p) slots anc slot Hctx) by done. cbn [mbind M_bind].
  set (p1 := set_last_included li p).
  assert (proposer_ok p1) as Hp1 by (destruct Hp; split; try done; by rewrite <- Hli).
  assert (ancestors_ok p1 s clock own anc) as Hanc1 by (destruct Hanc; by split).
  destruct (pool_take_inv ctx (sh_transaction_pool sh) (no_pool _ _ _ Hn)) as (pool' & txs & acks & limit & Htake & Hpool & Htx).
  unfold max_num, max_bytes in Htake. rewrite Htake. cbn [mbind M_bind].
  rewrite int_sum_exact by (pose proof (tk_bytes _ _ Htx); unfold bytes_of in *; lia). cbn [mbind M_bind].
  destruct (take_commit_votes_extended s MAX_COMMIT_VOTES_PER_BLOCK Hok) as [He1 Hrec1]. fold s.
  destruct (DagState_take_commit_votes s MAX_COMMIT_VOTES_PER_BLOCK) as [s1 commit_votes]. cbn [fst] in He1, Hrec1.
  destruct (own_votes_in_node p1 sh adds s1 anc Hctx Hv3 Hn Hsize) as (s2 & votes & -> & He2 & Hvel); [|done..|].
  { eapply Forall_impl; [exact Hcand|]. intros b (_ & _ & Hb). by eexists. }
  cbn [mbind M_bind].
  destruct (signed_block_spec p1 s own anc now txs votes (DagState_gc_round s1) commit_votes Hp1 Hok Hds (no_genesis _ _ _ Hn) Hpos Hmax Hnew Hor Hanc1 Htx)
    as (b & Hsign & Hfit & Ha & Hr & Ht & Han & Hvo & Hvalid). fold clock in Hsign, Hr. rewrite Hsign. cbn [mbind M_bind].
  destruct (last_proposed_block_spec s2) as (own2 & -> & _); [by destruct He2|unfold DagState_committee; rewrite (ex_context _ _ _ He2), Hds; exact Hown|].
  cbn [mbind M_bind].
  destruct (install_own_block s2 b voting) as (s3 & s4 & s5 & -> & Hlink & Hflush & Hflushed & He5 & Hcl5).
  { by destruct He2. }
  { eapply extended_closed_same; [exact He2|apply (no_closed _ _ _ Hn)]. }
  { unfold DagState_protocol_config. by rewrite (ex_context _ _ _ He2), Hds. }
  { by eapply fits_dag_same. }
  cbn [mbind M_bind]. pose proof (extended_start _ _ _ _ He2 He5) as He.
  assert (∀ v, v ∈ b_transaction_votes b ↔ voting = true ∧ owed s (sh_transaction_vote_tracker sh) (b_ancestors b) v) as Hvotes.
  { intros v. rewrite Hvo, Han. fold s in Hvel. destruct voting; [apply Hvel|]. split; [by intros Hv%not_elem_of_nil|by intros [? _]]. }
  assert (votes_down c b) as Hvd.
  { split; [by rewrite Ha|]. intros R (v & -> & Hv)%list_elem_of_fmap. apply Hvotes in Hv as [_ Hv].
    apply (owed_below s (sh_transaction_vote_tracker sh) (b_ancestors b) (b_round b) v Hok (no_closed _ _ _ Hn)); [|done].
    intros root Hroot. by apply (fd_ancestors _ _ Hfit). }
  assert (∃ t', (if voting then
       tracker ← VoteTrackerState_add_voted_blocks (sh_transaction_vote_tracker sh) [(b, [])];
       '(s, _) ← DagState_link_causal_history s3 (reference b); Ret (s, tracker)
     else Ret (s3, sh_transaction_vote_tracker sh)) = Ret (s4, t') ∧
    if voting then ctx_committee (vt_context t') = c ∧ tracks c (adds ++ [(b, [])]) t' else t' = sh_transaction_vote_tracker sh) as (t' & -> & Ht').
  { destruct (track_own_block sh adds b Hn Hfit Hvd Ha) as (t' & Htr & Hc & Htracks). destruct voting; [|by subst s4; eexists].
    destruct Hlink as [l Hl]. exists t'. rewrite Htr. cbn [mbind M_bind]. by rewrite Hl. }
  cbn [mbind M_bind]. rewrite Hflush. cbn [mbind M_bind]. destruct (no_rounds _ _ _ Hn) as [Hrt Hrtc].
  set (eb := mkExtendedBlock b _).
  destruct (update_from_verified_block_spec (sh_round_tracker sh) eb Hrt) as (rt' & -> & Hrt' & Hrtc' & _).
  { rewrite Hrtc. cbn. by rewrite Ha. }
  { rewrite Hrtc. cbn [eb eb_block eb_excluded_ancestors]. intros r. rewrite Han. intros [(a & -> & Hin)%list_elem_of_fmap|Hin]%elem_of_app.
    - rewrite Forall_forall in Hmem. by apply Hmem.
    - apply Hex, bset_list_elem. apply elem_of_take in Hin as (k & Hk & _). by eapply list_elem_of_lookup_2. }
  cbn [mbind M_bind]. exists li. do 2 eexists. split; [done|]. cbn [eb eb_block]. split; [|done]. split; cbn [sh_dag_state]; try done.
  - rewrite Han. pose proof (an_own _ _ _ _ _ Hanc) as Hh. destruct anc as [|a anc]; [done|]. by injection Hh as ->.
  - intros r. rewrite (ex_blocks _ _ _ He). unfold just. by destruct (decide (r = reference b)).
  - eapply node_after; try done; [by rewrite Hrtc'|by apply pool_ack_inv].
Qed.

(** The committers that name the leaders to wait for, one of which elects a leader for the round before the proposal. *)
Definition leaders_known (p : ValidatorProposer) (round : Round) : Prop :=
  ∃ uc, vp_leader_waiter p = WaiterV2 uc ∧ Forall (elects c) (uc_committers uc) ∧ elected_at (uc_committers uc) round ≠ [].

Lemma leader_slots_spec p round :
  leaders_known p round → round < u32_max →
  ∃ slots slot, ProposalLeaderWaiter_leader_slots_to_wait_for (vp_leader_waiter p) round = Ret slots ∧ head slots = Some slot ∧
    Forall (λ slot, slot_authority slot ∈ members c ∧ slot_round slot = round) slots.
Proof using.
  intros (uc & -> & Hel & Hne) Hr. cbn [ProposalLeaderWaiter_leader_slots_to_wait_for]. unfold UniversalCommitter_get_leaders.
  rewrite (collect_leaders_spec c round _ Hel Hr). cbn [mbind M_bind].
  assert (∃ slot, head (mkSlot round <$> (slot_authority <$> elected_at (uc_committers uc) round)) = Some slot) as [slot Hs]
    by (destruct (elected_at _ _); [done|by eexists]).
  exists (mkSlot round <$> (slot_authority <$> elected_at (uc_committers uc) round)), slot. split; [done|]. split; [done|].
  apply Forall_fmap, Forall_fmap, Forall_forall. intros sl (bc & Hbc & Hsl)%elected_at_elem. rewrite Forall_forall in Hel. cbn. split; [|done].
  by eapply (el_member c bc (Hel bc Hbc)).
Qed.

(** What the proposer [p'] keeps: its ancestor states, and references below the round of the proposal. *)
Record proposer_kept (p p' : ValidatorProposer) (clock : Round) : Prop := {
  kp_proposer : proposer_ok p';
  kp_states : asm_ok (vp_ancestor_state_manager p') ∧ am_context (vp_ancestor_state_manager p') = ctx;
  kp_waiter : vp_leader_waiter p' = vp_leader_waiter p;
  kp_included : ∀ i r, vp_last_included_ancestors p' !! N.to_nat i = Some (Some r) → br_round r < clock;
}.

(** The outcomes of a call, with last own block [own]. *)
Definition proposal_outcome (p : ValidatorProposer) sh adds now (force : bool) (own : VerifiedBlock)
    (r : ValidatorProposer * shared (S := S) (P := P) * option ExtendedBlock) : Prop :=
  let '(p', sh', o) := r in
  let clock := DagState_threshold_clock_round (sh_dag_state sh) in
  proposer_kept p p' clock ∧
  match o with
  | Some eb => ValidatorProposer_should_propose p (sh_dag_state sh) = true ∧ b_round own < clock ∧ proposed sh adds own now sh' (eb_block eb)
  | None => sh' = sh ∧ (force = true → ValidatorProposer_should_propose p (sh_dag_state sh) = false ∨ clock ≤ b_round own)
  end.

(** The proposal once the leaders to wait for are known and the checks have passed. *)
Lemma select_and_propose p sh adds now force own slots slot :
  let s := sh_dag_state sh in
  let clock := DagState_threshold_clock_round s in
  proposer_ok p → node_ok ctx sh adds → selection_ready p s (sh_round_tracker sh) → N.of_nat (size (ds_recent_blocks s)) < 2 ^ 47 →
  last_proposed_block s = Ret own → newest_of s (ctx_own_index ctx) own → b_round own < clock → ValidatorProposer_should_propose p s = true →
  head slots = Some slot → slot_authority slot ∈ members c → proposer_kept p p clock →
  ∃ r, ('(p, ancestors, excluded) ←
          ValidatorProposer_smart_ancestors_to_propose p s (sh_round_tracker sh) clock (negb force) slots;
        if bool_decide (ancestors = []) then
          assert_that (negb force) "Ancestors should have been returned if force is true!";;
          Ret (p, sh, None)
        else
          '(p, sh, extended_block) ← propose_with_ancestors p sh clock slots now ancestors excluded;
          Ret (p, sh, Some extended_block)) = Ret r ∧ proposal_outcome p sh adds now force own r.
Proof using.
  intros s clock Hp Hn Hsel Hsize Hlast Hnew Hor Esp Hhead Hslot Hkept. destruct (sr_clock _ _ _ Hsel) as [Hpos Hlock]. fold clock in Hpos, Hlock.
  destruct (smart_ancestors_spec p s (sh_round_tracker sh) own (negb force) slots Hsel Hlast Hor) as (p1 & anc & ex & Hsmart & Hfrom & Hex & Hanc).
  fold clock in Hsmart, Hanc. rewrite Hsmart. cbn [mbind M_bind]. destruct Hfrom as [(asm & li & -> & Hasm & Hasmc & _ & Hlen) Hincl].
  pose proof (po_context _ Hp) as Hctx. rewrite Hctx in Hex, Hasmc. set (p1 := set_last_included li (set_ancestor_states asm p)) in *.
  assert (proposer_ok p1) as Hp1 by (destruct Hp; split; try done; cbn; congruence).
  assert (∀ li', length li' = length li → (∀ i r, li' !! N.to_nat i = Some (Some r) → br_round r < clock) → proposer_kept p (set_last_included li' p1) clock) as Hk.
  { intros li' Hl' Hr. split; [|done..|done]. destruct Hp1; split; try done. cbn. rewrite Hl'. done. }
  assert (∀ b : VerifiedBlock, b ∈ anc → b_round b < clock) as Hbelow.
  { intros b Hb. destruct Hanc as [[_ ->]|Hanc]; [by apply not_elem_of_nil in Hb|]. pose proof (an_candidates _ _ _ _ _ Hanc) as Hc.
    rewrite Forall_forall in Hc. by destruct (Hc b Hb) as (_ & ? & _). }
  assert (∀ i r, li !! N.to_nat i = Some (Some r) → br_round r < clock) as Hli.
  { intros i r Hr. destruct (Hincl i r Hr) as [Ho|(b & Hb & <- & _)]; [by apply (kp_included _ _ _ Hkept i)|by apply Hbelow]. }
  case_bool_decide as Hemp.
  - destruct Hanc as [[Hf _]|Hanc]; [|rewrite Hemp in Hanc; by destruct Hanc]. rewrite Hf. cbn [assert_that mbind M_bind]. eexists. split; [done|].
    split; [by apply (Hk li)|]. split; [done|]. intros ->. done.
  - destruct Hanc as [[_ ?]|Hanc]; [done|].
    destruct (propose_with_ancestors_spec p1 sh adds own slots slot now anc ex Hp1 Hn Hpos) as (li' & sh' & eb & Hprop & Hpd & Hlen' & Hli'); try done.
    + unfold STATE_LOCK_CLOCK_ROUNDS in Hlock. fold s clock. lia.
    + destruct Hanc; by split.
    + fold s clock in Hprop. rewrite Hprop. cbn [mbind M_bind]. eexists. split; [done|]. split; [|done]. apply (Hk li' Hlen').
      intros i r Hr. destruct (Hli' i r Hr) as [Ho|(b & Hb & <-)]; [by eapply Hli|by apply Hbelow].
Qed.

End Run.
