(* ===== verification/ProposerSamples.v ===== *)
(** * A proposal in a concrete node

    Authority 0 has received the blocks of the three others in round 1, rejects a transaction of one of them, and is forced to propose. *)

From S2P Require Import Prelude BTree Config Block Commit Store StakeAggregator ThresholdClock LeaderScoring.
From S2P Require Import RoundTracker RoundTrackerTheory AncestorState AncestorStateTheory DagState DagTheory DagRecovery DagTraversal.
From S2P Require Import LeaderSchedule BaseCommitter UniversalCommitter CommitSequence CommitSamples BlockVerifier BlockVerifierTheory.
From S2P Require Import TransactionPool TransactionPoolTheory TransactionVoteTracker VoteTrackerTheory.
From S2P Require Import Proposer ProposerDag ProposerHistory ProposerAncestors ProposerBlock ProposerRun.
Local Open Scope N_scope.

#[local] Existing Instances DagRecovery.witness_profile DagRecovery.witness_crypto BlockVerifierTheory.sample_signing.
#[local] Existing Instances LeaderSchedule.witness_rng LeaderSchedule.witness_rng_laws.
#[local] Instance proposer_sort : UnstableSort := stable_sort (λ a b, br_round (btv_block_ref b) <=? br_round (btv_block_ref a)).

Definition received_blocks : list VerifiedBlock := dag_block 1 <$> [1; 2; 3].
Definition received_votes : list (VerifiedBlock * list TransactionIndex) := zip received_blocks [[0]; []; []].

Lemma sample_limits : limits_ok sample_context.
Proof. split; vm_compute; congruence. Qed.
#[local] Instance sample_pool_laws : TransactionPoolLaws sample_context TransactionConsumer := TransactionConsumerPoolLaws sample_context sample_limits.

Definition sample_proposer (m : AncestorStateManager) : ValidatorProposer :=
  ValidatorProposer_new sample_context tt (Some 0) m (WaiterV2 sample_universal).

Definition sample_node : M (ValidatorProposer * shared (S := MemStore) (P := TransactionConsumer)) :=
  s ← DagState_new sample_context MemStore_new;
  s ← DagState_accept_blocks s received_blocks;
  t ← VoteTrackerState_add_voted_blocks (VoteTrackerState_new sample_context) received_votes;
  rt ← RoundTracker_new sample_context [];
  pool ← TransactionConsumer_new [] [] sample_context;
  m ← AncestorStateManager_new sample_context;
  Ret (sample_proposer m, mkShared s t rt pool).

(** What evaluation shows of the node. *)
Definition node_check (s : DagState MemStore) : Prop :=
  DagState_gc_round s = 0 ∧ DagState_threshold_clock_round s = 2 ∧ ms_blocks (ds_store s) = ∅ ∧
  map_Forall (λ r b, Forall (λ a, br_round a < br_round r ∧ is_Some (blocks_of s !! a)) (b_ancestors (vb_block b))) (blocks_of s) ∧
  map_Forall (λ r _, 0 < br_round r → r ∈ reference <$> received_votes.*1) (blocks_of s) ∧
  Forall (λ i, is_Some (blocks_of s !! dag_ref 1 i)) [1; 2; 3] ∧
  outcome_sat (genesis_blocks sample_context) (λ gs, bool_decide (ds_genesis s = genesis_map gs)) = true ∧
  N.of_nat (size (ds_recent_blocks s)) < 2 ^ 47.
#[local] Instance node_check_dec s : base.Decision (node_check s).
Proof. unfold node_check. apply _. Defined.

Lemma sample_node_check :
  outcome_sat sample_node (λ n, bool_decide (node_check (sh_dag_state n.2)) &&
    outcome_sat (ValidatorProposer_try_new_block n.1 n.2 0 1000 true) (λ r, bool_decide (is_Some r.2))) = true.
Proof. vm_compute. reflexivity. Qed.

Lemma run_accepts (s : DagState MemStore) bs : DagState_accept_blocks s bs = foldM run_op s (OpAccept <$> bs).
Proof. unfold DagState_accept_blocks. by rewrite foldM_fmap. Qed.

Lemma received_down : Forall (votes_down sample_committee) received_votes.*1.
Proof. repeat (apply Forall_cons; split; [apply (votes_down_check sample_context); vm_compute; reflexivity|]). constructor. Qed.

Lemma received_tracked :
  ∃ t, VoteTrackerState_add_voted_blocks (VoteTrackerState_new sample_context) received_votes = Ret t ∧ vt_context t = sample_context ∧
    tracks sample_committee received_votes t.
Proof.
  destruct (tracker_run_spec sample_context sample_committee_wf ((λ e, Voted e.1 e.2) <$> received_votes)) as (t & Ht & Hc & _ & Htr).
  - split.
    + apply received_down.
    + assert (Forall (λ b1, Forall (λ b2, reference b1 = reference b2 → b1 = b2) received_votes.*1) received_votes.*1) as Hinj by by_eval.
      intros b1 b2 Hb1 Hb2. rewrite Forall_forall in Hinj. specialize (Hinj b1 Hb1). rewrite Forall_forall in Hinj. auto.
    + repeat constructor.
  - exists t. unfold VoteTrackerState_add_voted_blocks. rewrite foldM_fmap in Ht. done.
Qed.

Lemma sample_node_ok :
  ∃ m sh, sample_node = Ret (sample_proposer m, sh) ∧ node_ok sample_context sh received_votes ∧ node_check (sh_dag_state sh) ∧
    asm_ok m ∧ am_context m = sample_context ∧ am_propagation_scores m = ReputationScores_default.
Proof.
  destruct (outcome_sat_spec _ _ sample_node_check) as (n & Hn & [Hc%bool_decide_eq_true _]%andb_true_iff).
  pose proof Hn as Hrun. unfold sample_node in Hrun.
  apply bind_Ret in Hrun as (s0 & Hs0 & Hrun). apply bind_Ret in Hrun as (s & Hs & Hrun). apply bind_Ret in Hrun as (t & Ht & Hrun).
  apply bind_Ret in Hrun as (rt & Hrt & Hrun). apply bind_Ret in Hrun as (pool & Hpool & Hrun). apply bind_Ret in Hrun as (m & Hm & [= <-]).
  exists m, (mkShared s t rt pool). split; [done|]. cbn [snd sh_dag_state] in Hc |- *.
  destruct sample_dag as (s0' & Hn' & Hok0 & Hctx0 & _). rewrite Hs0 in Hn'. injection Hn' as <-. rewrite run_accepts in Hs.
  destruct (run_ops_spec (OpAccept <$> received_blocks) s0 s Hok0) as (Hok & Hctx & _); [|done|].
  { apply static_ops_valid; [done|]. unfold DagState_committee. rewrite Hctx0. repeat (constructor; [split; by_eval|]). constructor. }
  rewrite Hctx0 in Hctx.
  destruct received_tracked as (t' & Ht' & Htc & Htr). rewrite Ht in Ht'. injection Ht' as <-.
  destruct (RoundTracker_new_ok sample_context [] sample_committee_wf (or_introl eq_refl)) as (rt' & Hrt' & Hrtok & Hrtc).
  rewrite Hrt in Hrt'. injection Hrt' as <-.
  destruct (AncestorStateManager_new_ok sample_context sample_committee_wf) as (m' & Hm' & Hmok & Hmc & _ & Hms); [by_eval..|].
  rewrite Hm in Hm'. injection Hm' as <-. split; [|exact (conj Hc (conj Hmok (conj Hmc Hms)))].
  pose proof (blocks_of_spec s) as Heq. destruct Hc as (Hgc & _ & Hst & Hcl & Hseen & _ & Hgen & _).
  split; cbn [sh_dag_state sh_transaction_vote_tracker sh_round_tracker sh_transaction_pool].
  - exact Hok.
  - exact Hctx.
  - destruct (outcome_sat_spec _ _ Hgen) as (gs & Hgs & Hg%bool_decide_eq_true). exists gs. rewrite Hctx. exact (conj Hgs Hg).
  - intros r b a Hb Ha. rewrite !Heq in * by done. specialize (Hcl r b Hb). cbn in Hcl. rewrite Forall_forall in Hcl.
    destruct (Hcl a Ha) as [Hlt Hsome]. exact (conj Hlt (λ _, Hsome)).
  - rewrite Htc. reflexivity.
  - exact Htr.
  - apply received_down.
  - intros _ r [b Hb] Hr. rewrite Heq in Hb by done. apply (Hseen r b Hb). lia.
  - intros b Hb Ha. exfalso. assert (Forall (λ b : VerifiedBlock, b_author b ≠ 0) received_votes.*1) as Hall by by_eval.
    rewrite Forall_forall in Hall. by apply (Hall b Hb).
  - assert (Forall (λ e : VerifiedBlock * list TransactionIndex, N.of_nat (length e.2) ≤ 2 ^ 16) received_votes) as Hall by by_eval.
    rewrite Forall_forall in Hall. exact Hall.
  - exact (conj Hrtok Hrtc).
  - revert Hpool. vm_compute. intros [= <-]. split; [done|done|constructor].
Qed.

Lemma sample_selection m sh :
  node_ok sample_context sh received_votes → node_check (sh_dag_state sh) → asm_ok m → am_context m = sample_context →
  am_propagation_scores m = ReputationScores_default → selection_ready (sample_proposer m) (sh_dag_state sh) (sh_round_tracker sh).
Proof.
  intros Hn (Hgc & Hclock & Hst & _ & _ & Hparents & _) Hm Hmc Hms. split; rewrite ?Hclock, ?Hgc.
  - apply (no_dag _ _ _ Hn).
  - apply (no_context _ _ _ Hn).
  - apply (no_genesis _ _ _ Hn).
  - by_eval.
  - split; by_eval.
  - right. by_eval.
  - exists {[1; 2; 3]}. split; [by_eval|]. intros i Hi.
    assert (i ∈ [1; 2; 3]) as Hin by (clear -Hi; set_solver). rewrite Forall_forall in Hparents. specialize (Hparents i Hin).
    exists (dag_ref 1 i). split; [done|]. split; [done|]. rewrite blocks_of_spec by (done || apply (no_dag _ _ _ Hn)). exact Hparents.
  - by_eval.
  - intros i r Hr. apply list_elem_of_lookup_2, elem_of_replicate in Hr as [? _]. done.
  - apply (no_rounds _ _ _ Hn).
  - by split.
  - cbn [sample_proposer ValidatorProposer_new vp_ancestor_state_manager]. rewrite Hms. split; by_eval.
Qed.

Lemma sample_proposer_ok m : proposer_ok sample_context (sample_proposer m).
Proof.
  split; try by_eval; try done. intros authority _. split.
  - intros b. by eexists.
  - done.
  - done.
  - intros sb. by eexists.
  - intros bs. by_eval.
Qed.

Lemma sample_leaders m : leaders_known sample_context (sample_proposer m) (2 - 1).
Proof.
  exists sample_universal. split; [reflexivity|]. split.
  - repeat (constructor; [apply sample_elects; by_eval|]). constructor.
  - vm_compute. discriminate.
Qed.

