(* ===== verification/CommitFinalizer.v ===== *)
(** * Finalizing the transactions of commits (consensus/core/src/commit_finalizer.rs)

    The finalizer takes the commits in order and outputs each one, in the same order, once every
    transaction in it is finalized or rejected.  The DAG state and the vote tracker are
    shared with other tasks: they are arguments, read as they are when a commit is processed.
    The blocks of a commit are searched in chunks by tasks on the blocking pool;
    [cancelled] says which of these tasks the runtime cancels while it shuts down.  Metrics
    are left out, except for the arithmetic and the lookups of host names that may panic. *)

From S2P Require Import Prelude BTree Config Block Commit Store StakeAggregator ThresholdClock.
From S2P Require Import LeaderScoring DagState TransactionVoteTracker.
Local Open Scope N_scope.
Local Open Scope result_scope.

Definition INDIRECT_REJECT_DEPTH : Round := 3.
Definition BLOCKS_PER_INDIRECT_COMMIT_TASK : nat := 8.

(** [iter.collect::<BTreeMap<_, _>>()]: a later entry replaces an earlier one. *)
Definition bmap_collect {K V} `{Countable K} (l : list (K * V)) : gmap K V :=
  foldl (λ m e, <[e.1 := e.2]> m) ∅ l.

(** [map.entry(k).or_default().extend(s)]. *)
Definition extend_entry (m : gmap BlockRef (gset TransactionIndex)) (k : BlockRef) (s : gset TransactionIndex)
    : gmap BlockRef (gset TransactionIndex) := <[k := default ∅ (m !! k) ∪ s]> m.

(** ** Commits *)

Record CommitState : Type := mkCommitState {
  cs_commit : CommittedSubDag;
  cs_pending_blocks : gmap BlockRef N;
  cs_pending_transactions : gmap BlockRef (gset TransactionIndex);
  cs_rejected_transactions : gmap BlockRef (gset TransactionIndex);
}.

Definition CommitState_new (commit : CommittedSubDag) : M CommitState :=
  let pending_blocks :=
    bmap_collect ((λ b : VerifiedBlock, (reference b, N.of_nat (length (b_transactions b)))) <$> sd_blocks commit) in
  assert_that (negb (bool_decide (pending_blocks = ∅))) "!pending_blocks.is_empty()";;
  Ret (mkCommitState commit pending_blocks ∅ ∅).

Definition set_pending_transactions (p : gmap BlockRef (gset TransactionIndex)) (cs : CommitState) : CommitState :=
  mkCommitState (cs_commit cs) (cs_pending_blocks cs) p (cs_rejected_transactions cs).
Definition set_rejected_transactions (r : gmap BlockRef (gset TransactionIndex)) (cs : CommitState) : CommitState :=
  mkCommitState (cs_commit cs) (cs_pending_blocks cs) (cs_pending_transactions cs) r.

Definition CommitState_remove_pending_transactions (cs : CommitState) (block_ref : BlockRef)
    (transactions : list TransactionIndex) : CommitState :=
  match cs_pending_transactions cs !! block_ref with
  | None => cs
  | Some block_pending_txns =>
      let block_pending_txns := foldl (λ p t, p ∖ {[t]}) block_pending_txns transactions in
      set_pending_transactions
        (if decide (block_pending_txns = ∅) then delete block_ref (cs_pending_transactions cs)
         else <[block_ref := block_pending_txns]> (cs_pending_transactions cs)) cs
  end.

(** Moves transactions of a block to the rejected ones. *)
Definition reject_transactions (cs : CommitState) (e : BlockRef * list TransactionIndex) : CommitState :=
  let cs := CommitState_remove_pending_transactions cs e.1 e.2 in
  set_rejected_transactions (extend_entry (cs_rejected_transactions cs) e.1 (list_to_set e.2)) cs.

(** ** Blocks *)

Record BlockState : Type := mkBlockState {
  bs_block : VerifiedBlock;
  bs_children : gset BlockRef;
  bs_reject_votes : gmap BlockRef (gset TransactionIndex);
  bs_origin_descendants : list BlockRef;
  bs_commit_index : CommitIndex;
}.

Definition BlockState_new (block : VerifiedBlock) (commit_index : CommitIndex) : BlockState :=
  mkBlockState block ∅
    (bmap_collect ((λ v, (btv_block_ref v, list_to_set (btv_rejects v))) <$> b_transaction_votes block))
    [] commit_index.

Definition add_child (child : BlockRef) (st : BlockState) : BlockState :=
  mkBlockState (bs_block st) ({[child]} ∪ bs_children st) (bs_reject_votes st) (bs_origin_descendants st)
    (bs_commit_index st).
Definition push_origin_descendant (r : BlockRef) (st : BlockState) : BlockState :=
  mkBlockState (bs_block st) (bs_children st) (bs_reject_votes st) (bs_origin_descendants st ++ [r])
    (bs_commit_index st).

(** The body of the loop that links the blocks of the last commit. *)
Definition link_block (commit_index : CommitIndex) (blocks : gmap BlockRef BlockState) (block : VerifiedBlock)
    : gmap BlockRef BlockState :=
  let block_ref := reference block in
  let blocks := foldl (λ m ancestor, alter (add_child block_ref) ancestor m) blocks (b_ancestors block) in
  match blocks !! block_ref with
  | Some _ => blocks
  | None => <[block_ref := BlockState_new block commit_index]> blocks
  end.

Definition first_ancestor (block : VerifiedBlock) : M BlockRef :=
  expect (head (b_ancestors block)) "unwrap".

(** The loop over the chain of blocks of the same origin below a committed block. *)
Fixpoint origin_loop (fuel : nat) (committed_block_ref origin_ancestor_ref : BlockRef)
    (blocks : gmap BlockRef BlockState) : M (gmap BlockRef BlockState) :=
  match fuel with
  | O => NoFuel
  | Datatypes.S fuel =>
      if br_author origin_ancestor_ref =? br_author committed_block_ref then
        match blocks !! origin_ancestor_ref with
        | None => Ret blocks
        | Some origin_ancestor_block =>
            let blocks :=
              <[origin_ancestor_ref := push_origin_descendant committed_block_ref origin_ancestor_block]> blocks in
            next ← first_ancestor (bs_block origin_ancestor_block);
            origin_loop fuel committed_block_ref next blocks
        end
      else Ret blocks
  end.

Definition append_origin (blocks : gmap BlockRef BlockState) (committed_block : VerifiedBlock)
    : M (gmap BlockRef BlockState) :=
  let committed_block_ref := reference committed_block in
  st ← expect (blocks !! committed_block_ref) "unwrap";
  origin_ancestor_ref ← first_ancestor (bs_block st);
  origin_loop (Datatypes.S (N.to_nat (br_round origin_ancestor_ref))) committed_block_ref origin_ancestor_ref blocks.

Definition sort_by_round (blocks : list VerifiedBlock) : list VerifiedBlock :=
  stable_sort (λ a b : VerifiedBlock, b_round a <=? b_round b) blocks.

(** ** The finalizer *)

Record CommitFinalizer : Type := mkCommitFinalizer {
  cf_context : Context;
  cf_last_processed_commit : option CommitIndex;
  cf_pending_commits : list CommitState;
  cf_blocks : gmap BlockRef BlockState;
}.

Definition CommitFinalizer_new (ctx : Context) : CommitFinalizer := mkCommitFinalizer ctx None [] ∅.

Definition set_pending_commits (p : list CommitState) (f : CommitFinalizer) : CommitFinalizer :=
  mkCommitFinalizer (cf_context f) (cf_last_processed_commit f) p (cf_blocks f).
Definition set_blocks (b : gmap BlockRef BlockState) (f : CommitFinalizer) : CommitFinalizer :=
  mkCommitFinalizer (cf_context f) (cf_last_processed_commit f) (cf_pending_commits f) b.

Definition leader_round (cs : CommitState) : Round := br_round (sd_leader (cs_commit cs)).

Section Finalizer.
Context `{Profile} {S : Type} `{Store S}.
Implicit Types (f : CommitFinalizer) (t : VoteTrackerState) (s : DagState S).

Definition reject_votes_of t (block_ref : BlockRef) : M (list (TransactionIndex * Stake)) :=
  match TransactionVoteTracker_get_reject_votes t block_ref with
  | Some votes => Ret votes
  | None => Panic (Explicit "No vote info found. It is either incorrectly gc'ed or failed to be recovered after crash.")
  end.

(** *** Direct finalization *)

Definition direct_vote (quorum_threshold : Stake) (block_ref : BlockRef) (cs : CommitState)
    (e : TransactionIndex * Stake) : CommitState :=
  if e.2 <? quorum_threshold
  then set_pending_transactions (extend_entry (cs_pending_transactions cs) block_ref {[e.1]}) cs
  else set_rejected_transactions (extend_entry (cs_rejected_transactions cs) block_ref {[e.1]}) cs.

(** [(0..(num_transactions as TransactionIndex)).collect::<BTreeSet<_>>()]. *)
Definition all_transactions (num_transactions : N) : gset TransactionIndex :=
  list_to_set (N.of_nat <$> seq 0 (N.to_nat (num_transactions mod 2 ^ 16))).

(** The body of the loop over the blocks of a commit. *)
Definition direct_block (ctx : Context) t (vote_gc_round : Round) (cs : CommitState) (e : BlockRef * N)
    : M CommitState :=
  let '(block_ref, num_transactions) := e in
  if (br_round block_ref <=? vote_gc_round) && (0 <? num_transactions) then
    let cs := set_pending_transactions
                (extend_entry (cs_pending_transactions cs) block_ref (all_transactions num_transactions)) cs in
    Committee_authority (ctx_committee ctx) (br_author block_ref);;
    Ret cs
  else
    reject_votes ← reject_votes_of t block_ref;
    u64_sub num_transactions (N.of_nat (length reject_votes));;
    Committee_authority (ctx_committee ctx) (br_author block_ref);;
    Ret (foldl (direct_vote (Committee_quorum_threshold (ctx_committee ctx)) block_ref) cs reject_votes).

Definition CommitFinalizer_try_direct_finalize_commit f t s (i : nat) : M CommitFinalizer :=
  match cf_pending_commits f !! i with
  | None => Panic (Explicit "Commit does not exist")
  | Some commit_state =>
      round ← u32_add (leader_round commit_state) INDIRECT_REJECT_DEPTH;
      let vote_gc_round := DagState_calculate_gc_round s round in
      let pending_blocks := cs_pending_blocks commit_state in
      assert_that (negb (bool_decide (pending_blocks = ∅))) "!commit_state.pending_blocks.is_empty()";;
      let commit_state := mkCommitState (cs_commit commit_state) ∅ (cs_pending_transactions commit_state)
                            (cs_rejected_transactions commit_state) in
      commit_state ← foldM (direct_block (cf_context f) t vote_gc_round) commit_state (bmap_list pending_blocks);
      Ret (set_pending_commits (<[i := commit_state]> (cf_pending_commits f)) f)
  end.

(** The loop over the pending commits: [continue] past a commit already processed, [break] at a
    remote commit whose leader certificate may be missing. *)
Fixpoint direct_loop f t s (indices : list nat) : M CommitFinalizer :=
  match indices with
  | [] => Ret f
  | i :: indices =>
      commit_state ← index (cf_pending_commits f) (N.of_nat i);
      if bool_decide (cs_pending_blocks commit_state = ∅) then direct_loop f t s indices
      else
        stop ← (if sd_decided_with_local_blocks (cs_commit commit_state) then Ret false
                else last_commit_state ← expect (last (cf_pending_commits f)) "unwrap";
                     round ← u32_add (leader_round commit_state) DEFAULT_WAVE_LENGTH;
                     Ret (leader_round last_commit_state <? round));
        if stop : bool then Ret f
        else f ← CommitFinalizer_try_direct_finalize_commit f t s i; direct_loop f t s indices
  end.

(** *** Linking the blocks of the last commit *)

Definition last_commit_state f : M CommitState :=
  match last (cf_pending_commits f) with Some cs => Ret cs | None => Panic (Explicit "No pending commit.") end.

Definition CommitFinalizer_link_blocks_in_last_commit f : M CommitFinalizer :=
  commit_state ← last_commit_state f;
  Ret (set_blocks
         (foldl (link_block (cr_index (sd_commit_ref (cs_commit commit_state)))) (cf_blocks f)
            (sort_by_round (sd_blocks (cs_commit commit_state)))) f).

Definition CommitFinalizer_append_origin_descendants_from_last_commit f : M CommitFinalizer :=
  commit_state ← last_commit_state f;
  blocks ← foldM append_origin (cf_blocks f) (sort_by_round (sd_blocks (cs_commit commit_state)));
  Ret (set_blocks blocks f).

(** *** Indirect finalization *)

Definition rejected_by_quorum (ctx : Context) t (e : BlockRef * gset TransactionIndex)
    : M (BlockRef * list TransactionIndex) :=
  votes ← reject_votes_of t e.1;
  let reject_votes := bmap_collect votes in
  Ret (e.1, filter (λ i, Committee_quorum_threshold (ctx_committee ctx) ≤ default 0 (reject_votes !! i))
              (bset_list e.2)).

Definition CommitFinalizer_check_pending_transactions_in_first_commit f t : M CommitFinalizer :=
  first ← index (cf_pending_commits f) 0;
  all_rejected_transactions ← mapP (rejected_by_quorum (cf_context f) t) (bmap_list (cs_pending_transactions first));
  let all_rejected_transactions :=
    filter (λ e : BlockRef * list TransactionIndex, e.2 ≠ []) all_rejected_transactions in
  Ret (set_pending_commits (<[0%nat := foldl reject_transactions first all_rejected_transactions]> (cf_pending_commits f)) f).

Definition gced_transaction_votes_for_pending_block (gc_rounds : list (CommitIndex * Round))
    (pending_block_round : Round) (pending_commit_index current_commit_index : CommitIndex) : M bool :=
  assert_that (pending_commit_index <=? current_commit_index) "Pending should be <= current";;
  if pending_commit_index =? current_commit_index then Ret false
  else
    previous ← u32_sub current_commit_index 1;
    position ← u32_sub previous pending_commit_index;
    '(commit_index, gc_round) ← expect (gc_rounds !! N.to_nat position) "unwrap";
    assert_that (commit_index =? previous) "Commit index mismatch";;
    Ret (pending_block_round <=? gc_round).

(** The loop over the transactions still to accept, for one voting block: the aggregators and
    the transactions that reach a quorum. *)
Definition accept_vote (c : Committee) (voter : AuthorityIndex) (rejects : gset TransactionIndex)
    (acc : gmap TransactionIndex (StakeAggregator QuorumThreshold) * list TransactionIndex)
    (e : TransactionIndex * StakeAggregator QuorumThreshold)
    : M (gmap TransactionIndex (StakeAggregator QuorumThreshold) * list TransactionIndex) :=
  if decide (e.1 ∈ rejects) then Ret acc
  else
    '(stake, reached) ← StakeAggregator_add e.2 voter c;
    Ret (<[e.1 := stake]> acc.1, if reached : bool then acc.2 ++ [e.1] else acc.2).

Fixpoint accept_traversal (fuel : nat) (ctx : Context) (blocks : gmap BlockRef BlockState)
    (gc_rounds : list (CommitIndex * Round)) (pending_block_ref : BlockRef) (pending_commit_index : CommitIndex)
    (to_visit_blocks visited ignored : gset BlockRef)
    (accept_votes : gmap TransactionIndex (StakeAggregator QuorumThreshold))
    (finalized_transactions : list TransactionIndex) : M (list TransactionIndex) :=
  match fuel with
  | O => NoFuel
  | Datatypes.S fuel =>
      match bset_first to_visit_blocks with
      | None => Ret finalized_transactions
      | Some curr_block_ref =>
          let to_visit_blocks := to_visit_blocks ∖ {[curr_block_ref]} in
          if decide (curr_block_ref ∈ visited) then
            accept_traversal fuel ctx blocks gc_rounds pending_block_ref pending_commit_index to_visit_blocks visited
              ignored accept_votes finalized_transactions
          else
            let visited := {[curr_block_ref]} ∪ visited in
            curr_block_state ← expect (blocks !! curr_block_ref) "Block is either incorrectly gc'ed or failed to be recovered after crash.";
            let to_visit_next := to_visit_blocks ∪ (bs_children curr_block_state ∖ visited) in
            votes_gced ← gced_transaction_votes_for_pending_block gc_rounds (br_round pending_block_ref)
                           pending_commit_index (bs_commit_index curr_block_state);
            if decide (curr_block_ref ∉ ignored) then
              let ignored := {[curr_block_ref]} ∪ ignored ∪ list_to_set (bs_origin_descendants curr_block_state) in
              if votes_gced : bool then
                Committee_authority (ctx_committee ctx) (br_author pending_block_ref);;
                accept_traversal fuel ctx blocks gc_rounds pending_block_ref pending_commit_index to_visit_blocks visited
                  ignored accept_votes finalized_transactions
              else
                let curr_block_reject_votes := default ∅ (bs_reject_votes curr_block_state !! pending_block_ref) in
                '(accept_votes, newly_finalized) ←
                  foldM (accept_vote (ctx_committee ctx) (br_author curr_block_ref) curr_block_reject_votes)
                    (accept_votes, []) (bmap_list accept_votes);
                let accept_votes := foldl (λ m i, delete i m) accept_votes newly_finalized in
                let finalized_transactions := finalized_transactions ++ newly_finalized in
                if decide (accept_votes = ∅) then Ret finalized_transactions
                else accept_traversal fuel ctx blocks gc_rounds pending_block_ref pending_commit_index to_visit_next visited
                       ignored accept_votes finalized_transactions
            else
              accept_traversal fuel ctx blocks gc_rounds pending_block_ref pending_commit_index to_visit_next visited
                ignored accept_votes finalized_transactions
      end
  end.

Definition try_indirect_finalize_pending_transactions_in_block (ctx : Context) (blocks : gmap BlockRef BlockState)
    (gc_rounds : list (CommitIndex * Round)) (pending_block_ref : BlockRef)
    (pending_transactions : gset TransactionIndex) : M (list TransactionIndex) :=
  if decide (pending_transactions = ∅) then Ret []
  else
    let accept_votes := gset_to_gmap StakeAggregator_new pending_transactions in
    block_state ← expect (blocks !! pending_block_ref) "unwrap";
    accept_traversal (Datatypes.S (size blocks)) ctx blocks gc_rounds pending_block_ref (bs_commit_index block_state)
      (bs_children block_state) ∅ ∅ accept_votes [].

(** [v.chunks(n)]. *)
Fixpoint chunks_loop {A} (fuel n : nat) (l : list A) : list (list A) :=
  match fuel, l with
  | _, [] | O, _ => []
  | Datatypes.S fuel, _ => take n l :: chunks_loop fuel n (drop n l)
  end.
Definition chunks {A} (n : nat) (l : list A) : list (list A) := chunks_loop (length l) n l.

Section Tasks.
Context (cancelled : CommitIndex → nat → bool).

(** The work of one task, and awaiting its result. *)
Definition chunk_task (ctx : Context) (blocks : gmap BlockRef BlockState) (gc_rounds : list (CommitIndex * Round))
    (chunk : list (BlockRef * gset TransactionIndex)) : M (list (BlockRef * list TransactionIndex)) :=
  results ← mapP (λ e : BlockRef * gset TransactionIndex,
                    finalized ← try_indirect_finalize_pending_transactions_in_block ctx blocks gc_rounds e.1 e.2;
                    Ret (e.1, finalized)) chunk;
  Ret (filter (λ e : BlockRef * list TransactionIndex, e.2 ≠ []) results).

Fixpoint await_tasks (commit_index : CommitIndex) (k : nat)
    (tasks : list (M (list (BlockRef * list TransactionIndex))))
    : M (ConsensusResult (list (BlockRef * list TransactionIndex))) :=
  match tasks with
  | [] => Ret (Ok [])
  | task :: tasks =>
      if cancelled commit_index k then Ret (Err Shutdown)
      else results ← task; rest ←? await_tasks commit_index (Datatypes.S k) tasks; Ret (Ok (results ++ rest))
  end.

Definition commit_gc_round s (cs : CommitState) : CommitIndex * Round :=
  (cr_index (sd_commit_ref (cs_commit cs)), DagState_calculate_gc_round s (leader_round cs)).

Definition CommitFinalizer_try_indirect_finalize_pending_transactions_in_first_commit f s
    : M (ConsensusResult CommitFinalizer) :=
  first ← index (cf_pending_commits f) 0;
  let pending_blocks := bmap_list (cs_pending_transactions first) in
  let gc_rounds := commit_gc_round s <$> cf_pending_commits f in
  all_finalized_transactions ←?
    await_tasks (cr_index (sd_commit_ref (cs_commit first))) 0
      (chunk_task (cf_context f) (cf_blocks f) gc_rounds <$> chunks BLOCKS_PER_INDIRECT_COMMIT_TASK pending_blocks);
  let first := foldl (λ cs e, CommitState_remove_pending_transactions cs e.1 e.2) first all_finalized_transactions in
  Ret (Ok (set_pending_commits (<[0%nat := first]> (cf_pending_commits f)) f)).

Definition CommitFinalizer_try_indirect_reject_pending_transactions_in_first_commit f : M CommitFinalizer :=
  first ← index (cf_pending_commits f) 0;
  last_commit ← expect (last (cf_pending_commits f)) "unwrap";
  reject_round ← u32_add (leader_round first) INDIRECT_REJECT_DEPTH;
  if reject_round <=? leader_round last_commit then
    assert_that (bool_decide (cs_pending_blocks first = ∅)) "curr_commit_state.pending_blocks.is_empty()";;
    let rejected := foldl (λ m (e : BlockRef * gset TransactionIndex), extend_entry m e.1 e.2)
                      (cs_rejected_transactions first) (bmap_list (cs_pending_transactions first)) in
    Ret (set_pending_commits
           (<[0%nat := mkCommitState (cs_commit first) (cs_pending_blocks first) ∅ rejected]> (cf_pending_commits f)) f)
  else Ret f.

Definition CommitFinalizer_try_indirect_finalize_first_commit f t s : M (ConsensusResult CommitFinalizer) :=
  assert_that (negb (is_nil (cf_pending_commits f))) "!self.pending_commits.is_empty()";;
  first ← index (cf_pending_commits f) 0;
  assert_that (bool_decide (cs_pending_blocks first = ∅)) "self.pending_commits[0].pending_blocks.is_empty()";;
  f ← CommitFinalizer_check_pending_transactions_in_first_commit f t;
  f ←? CommitFinalizer_try_indirect_finalize_pending_transactions_in_first_commit f s;
  f ← CommitFinalizer_try_indirect_reject_pending_transactions_in_first_commit f;
  Ret (Ok f).

(** *** Output *)

Definition finalized_commit (cs : CommitState) : CommittedSubDag :=
  let commit := cs_commit cs in
  mkCommittedSubDag (sd_leader commit) (sd_blocks commit) (sd_timestamp_ms commit) (sd_commit_ref commit)
    (sd_decided_with_local_blocks commit) (sd_recovered_rejected_transactions commit)
    (foldl (λ m (e : BlockRef * gset TransactionIndex), <[e.1 := bset_list e.2]> m)
       (sd_rejected_transactions_by_block commit) (bmap_list (cs_rejected_transactions cs))).

Fixpoint pop_loop (finalized_commits : list CommittedSubDag) (pending : list CommitState)
    (blocks : gmap BlockRef BlockState) : M (list CommittedSubDag * list CommitState * gmap BlockRef BlockState) :=
  match pending with
  | [] => Ret (finalized_commits, pending, blocks)
  | commit_state :: rest =>
      if bool_decide (cs_pending_blocks commit_state = ∅) && bool_decide (cs_pending_transactions commit_state = ∅) then
        let commit := finalized_commit commit_state in
        let blocks := foldl (λ m (b : VerifiedBlock), delete (reference b) m) blocks (sd_blocks commit) in
        (match last rest with
         | Some last_commit => u32_sub (leader_round last_commit) (br_round (sd_leader commit))
         | None => Ret 0
         end);;
        pop_loop (finalized_commits ++ [commit]) rest blocks
      else Ret (finalized_commits, pending, blocks)
  end.

Definition CommitFinalizer_pop_finalized_commits f : M (CommitFinalizer * list CommittedSubDag) :=
  '(finalized_commits, pending, blocks) ← pop_loop [] (cf_pending_commits f) (cf_blocks f);
  Ret (mkCommitFinalizer (cf_context f) (cf_last_processed_commit f) pending blocks, finalized_commits).

(** *** Processing a commit *)

(** The loop that finalizes a prefix of the buffered commits. *)
Fixpoint indirect_commits_loop (fuel : nat) f t s (finalized_commits : list CommittedSubDag)
    : M (ConsensusResult (CommitFinalizer * list CommittedSubDag)) :=
  match fuel with
  | O => NoFuel
  | Datatypes.S fuel =>
      if (1 <? length (cf_pending_commits f))%nat then
        first ← index (cf_pending_commits f) 0;
        if negb (bool_decide (cs_pending_blocks first = ∅)) then Ret (Ok (f, finalized_commits))
        else
          f ←? CommitFinalizer_try_indirect_finalize_first_commit f t s;
          '(f, indirect_finalized_commits) ← CommitFinalizer_pop_finalized_commits f;
          if is_nil indirect_finalized_commits then Ret (Ok (f, finalized_commits))
          else indirect_commits_loop fuel f t s (finalized_commits ++ indirect_finalized_commits)
      else Ret (Ok (f, finalized_commits))
  end.

Definition CommitFinalizer_process_commit f t s (committed_sub_dag : CommittedSubDag)
    : M (ConsensusResult (CommitFinalizer * list CommittedSubDag)) :=
  let commit_index := cr_index (sd_commit_ref committed_sub_dag) in
  (match cf_last_processed_commit f with
   | Some last_processed_commit =>
       next ← u32_add last_processed_commit 1; assert_that (next =? commit_index) "last_processed_commit + 1"
   | None => Ret tt
   end);;
  commit_state ← CommitState_new committed_sub_dag;
  let f := mkCommitFinalizer (cf_context f) (Some commit_index) (cf_pending_commits f ++ [commit_state]) (cf_blocks f) in
  f ← direct_loop f t s (seq 0 (length (cf_pending_commits f)));
  '(f, finalized_commits) ← CommitFinalizer_pop_finalized_commits f;
  if is_nil (cf_pending_commits f) then Ret (Ok (f, finalized_commits))
  else
    f ← CommitFinalizer_link_blocks_in_last_commit f;
    f ← CommitFinalizer_append_origin_descendants_from_last_commit f;
    indirect_commits_loop (length (cf_pending_commits f)) f t s finalized_commits.

(** ** The task

    One iteration of [run]: the commits to send on, or [None] when the task stops because
    the runtime shuts down. *)

Definition CommitFinalizer_try_update_gc_round t s (last_finalized_commit_round : Round) : M VoteTrackerState :=
  TransactionVoteTracker_run_gc t s (DagState_calculate_gc_round s last_finalized_commit_round).

Definition CommitFinalizer_run_step f t s (committed_sub_dag : CommittedSubDag)
    : M (option (CommitFinalizer * VoteTrackerState * DagState S * list CommittedSubDag)) :=
  let already_finalized := negb (pc_transaction_voting_enabled (ctx_protocol_config (cf_context f)))
                           || sd_recovered_rejected_transactions committed_sub_dag in
  result ← (if negb already_finalized then CommitFinalizer_process_commit f t s committed_sub_dag
            else Ret (Ok (f, [committed_sub_dag])));
  match result with
  | Err Shutdown => Ret None
  | Err _ => Panic (Explicit "Failed to finalize commit")
  | Ok (f, finalized_commits) =>
      match last finalized_commits with
      | None => Ret (Some (f, t, s, finalized_commits))
      | Some last_commit =>
          t ← CommitFinalizer_try_update_gc_round t s (br_round (sd_leader last_commit));
          let s := if already_finalized then s
                   else foldl (λ s commit, DagState_add_finalized_commit s (sd_commit_ref commit)
                                             (sd_rejected_transactions_by_block commit)) s finalized_commits in
          s ← DagState_flush s;
          Ret (Some (f, t, s, finalized_commits))
      end
  end.

End Tasks.
End Finalizer.
