(* ===== verification/FinalizerVotes.v ===== *)
(** * The search for accept votes in the commit finalizer

    A transaction that has reject votes is finalized when a quorum of authorities accept it.
    A committed block accepts what it does not reject in the blocks below it, when it is the first of its
    origin to descend from them and when its proposer cannot have collected them yet.
    The traversal, which pops the least reference first and stops early, computes exactly this. *)

From S2P Require Import Prelude BTree Config Block Commit Store StakeAggregator ThresholdClock.
From S2P Require Import LeaderScoring DagState TransactionVoteTracker CommitFinalizer.
Local Open Scope N_scope.

Abbreviation block_map := (gmap BlockRef BlockState) (only parsing).

(** ** The reference definition *)

Definition children_of (B : block_map) (r : BlockRef) : gset BlockRef := from_option bs_children ∅ (B !! r).
Definition origin_of (B : block_map) (r : BlockRef) : list BlockRef := from_option bs_origin_descendants [] (B !! r).

(** The blocks that descend from [P], collected in the order of references. *)
Definition descendants (B : block_map) (P : BlockRef) : gset BlockRef :=
  foldl (λ D r, if decide (r ∈ D) then D ∪ children_of B r else D) (children_of B P) (bset_list (dom B)).

(** The first blocks of each origin: a block that descends from a kept block of its origin is dropped. *)
Fixpoint first_votes (B : block_map) (ignored : gset BlockRef) (l : list BlockRef) : list BlockRef :=
  match l with
  | [] => []
  | r :: l =>
      if decide (r ∈ ignored) then first_votes B ignored l
      else r :: first_votes B (ignored ∪ list_to_set (origin_of B r)) l
  end.

Definition rejects_in (B : block_map) (P r : BlockRef) : gset TransactionIndex :=
  match B !! r with Some st => default ∅ (bs_reject_votes st !! P) | None => ∅ end.

(** The block in commit [ci] may have been proposed after [P] was collected: the gc round of the
    commit before is not below [P]. *)
Definition voted_out (G : list (CommitIndex * Round)) (P : BlockRef) (pc ci : CommitIndex) : bool :=
  (pc <? ci) && from_option (λ e : CommitIndex * Round, br_round P <=? e.2) false (G !! N.to_nat (ci - 1 - pc)).

Definition timely (B : block_map) (G : list (CommitIndex * Round)) (P : BlockRef) (pc : CommitIndex) (r : BlockRef) : Prop :=
  from_option (λ st, voted_out G P pc (bs_commit_index st)) true (B !! r) = false.
#[export] Instance timely_dec B G P pc r : base.Decision (timely B G P pc r).
Proof. unfold timely. apply _. Defined.

Definition voting_blocks (B : block_map) (G : list (CommitIndex * Round)) (P : BlockRef) (pc : CommitIndex) : list BlockRef :=
  first_votes B ∅ (filter (timely B G P pc) (bset_list (descendants B P))).

Definition accepters_in (B : block_map) (P : BlockRef) (l : list BlockRef) (i : TransactionIndex) : gset AuthorityIndex :=
  list_to_set (br_author <$> filter (λ r, i ∉ rejects_in B P r) l).

(** The authorities whose first vote on transaction [i] of [P] accepts it. *)
Definition accepters (B : block_map) (G : list (CommitIndex * Round)) (P : BlockRef) (pc : CommitIndex) (i : TransactionIndex)
    : gset AuthorityIndex := accepters_in B P (voting_blocks B G P pc) i.

(** ** Descendants *)

Inductive descends (B : block_map) (P : BlockRef) : BlockRef → Prop :=
| descends_child r : r ∈ children_of B P → descends B P r
| descends_step r r' : descends B P r → r' ∈ children_of B r → descends B P r'.

(** What holds of the blocks that the finalizer has linked: children and origin descendants
    are linked, of a higher round, and in the same commit or a later one. *)
Definition above_in (B : block_map) (st : BlockState) (r r' : BlockRef) : Prop :=
  ∃ st', B !! r' = Some st' ∧ br_round r < br_round r' ∧ bs_commit_index st ≤ bs_commit_index st'.

Record linked (c : Committee) (B : block_map) : Prop := {
  lk_children : ∀ r st r', B !! r = Some st → r' ∈ bs_children st → above_in B st r r';
  lk_origin : ∀ r st r', B !! r = Some st → r' ∈ bs_origin_descendants st → above_in B st r r';
  lk_author : ∀ r, r ∈ dom B → br_author r ∈ members c;
}.

Section Descendants.
Context (c : Committee) (B : block_map) (P : BlockRef) (Hlk : linked c B).

Lemma children_of_above r r' : r' ∈ children_of B r → r ∈ dom B ∧ r' ∈ dom B ∧ br_round r < br_round r'.
Proof using Hlk.
  unfold children_of. destruct (B !! r) as [st|] eqn:E; cbn [from_option]; [|set_solver]. intros Hr.
  destruct (lk_children c B Hlk r st r' E Hr) as (st' & Hst' & Hlt & _).
  split; [by apply elem_of_dom_2 in E|]. split; [by apply elem_of_dom_2 in Hst'|done].
Qed.

Lemma descends_above r : descends B P r → r ∈ dom B ∧ br_round P < br_round r.
Proof using Hlk.
  induction 1 as [r Hr|r r' _ [_ IH] Hr]; apply children_of_above in Hr as (_ & ? & ?); split; (done || lia).
Qed.

Local Abbreviation mark := (λ D r, if decide (r ∈ D) then D ∪ children_of B r else D).

Lemma mark_mono l D : D ⊆ foldl mark D l.
Proof using.
  clear Hlk. revert D. induction l as [|r l IH]; intros D; simpl; [done|]. etrans; [|apply IH].
  destruct (decide _); set_solver.
Qed.

Lemma mark_sound l D r : (∀ x, x ∈ D → descends B P x) → r ∈ foldl mark D l → descends B P r.
Proof using.
  revert D. induction l as [|q l IH]; intros D HD; simpl; [apply HD|]. apply IH. intros x Hx.
  destruct (decide (q ∈ D)); [|by apply HD]. apply elem_of_union in Hx as [Hx|Hx]; [by apply HD|].
  eapply descends_step; [by apply HD|done].
Qed.

(** A reference at or below those still to be visited is not marked any more. *)
Lemma mark_late l D r : (∀ q, q ∈ l → br_round r ≤ br_round q) → r ∈ foldl mark D l → r ∈ D.
Proof using Hlk.
  revert D. induction l as [|q l IH]; intros D Hl; simpl; [done|]. intros Hr.
  apply IH in Hr; [|intros x Hx; apply Hl; by right]. destruct (decide (q ∈ D)); [|done].
  apply elem_of_union in Hr as [|Hr]; [done|]. apply children_of_above in Hr as (_ & _ & Hlt).
  specialize (Hl q ltac:(left)). lia.
Qed.

Lemma descendants_spec r : r ∈ descendants B P ↔ descends B P r.
Proof using Hlk.
  unfold descendants. split.
  - apply mark_sound. apply descends_child.
  - induction 1 as [r Hr|r r' _ IH Hr]; [by apply mark_mono|].
    pose proof (children_of_above _ _ Hr) as (Hdom & _).
    apply bset_list_elem, list_elem_of_split in Hdom as (l1 & l2 & El).
    pose proof (bset_list_sorted (dom B)) as Hs. rewrite El in Hs, IH |- *.
    apply StronglySorted_app in Hs as (_ & _ & Hs). apply StronglySorted_cons in Hs as [Hs _].
    rewrite Forall_forall in Hs. rewrite foldl_app in IH |- *. cbn [foldl] in IH |- *.
    set (D := foldl mark (children_of B P) l1) in *. rewrite decide_True; [apply mark_mono; set_solver|].
    apply (mark_late (r :: l2)); [|exact IH]. intros q [->|Hq]%elem_of_cons; [lia|].
    apply BlockRef_le_round, Hs, Hq.
Qed.

End Descendants.

(** ** First votes *)

Lemma first_votes_ext B (I I' : gset BlockRef) l :
  (∀ r, r ∈ l → r ∈ I ↔ r ∈ I') → first_votes B I l = first_votes B I' l.
Proof.
  revert I I'. induction l as [|r l IH]; intros I I' HI; [done|]. cbn [first_votes].
  assert (r ∈ I ↔ r ∈ I') as Hr by (apply HI; left).
  destruct (decide (r ∈ I)), (decide (r ∈ I')); try tauto; [|f_equal]; apply IH; intros x Hx;
    rewrite ?elem_of_union, (HI x) by (by right); done.
Qed.

Lemma first_votes_sub B I l r : r ∈ first_votes B I l → r ∈ l.
Proof.
  revert I. induction l as [|x l IH]; intros I; [done|]. cbn [first_votes].
  destruct (decide _); [intros Hr; right; by eapply IH|].
  intros [->|Hr]%elem_of_cons; [by left|right; by eapply IH].
Qed.

Lemma accepters_in_elem B P l i a :
  a ∈ accepters_in B P l i ↔ ∃ r, r ∈ l ∧ br_author r = a ∧ i ∉ rejects_in B P r.
Proof.
  unfold accepters_in. rewrite elem_of_list_to_set, list_elem_of_fmap. setoid_rewrite list_elem_of_filter. naive_solver.
Qed.

Lemma accepters_in_snoc B P l r i :
  accepters_in B P (l ++ [r]) i =
  if decide (i ∈ rejects_in B P r) then accepters_in B P l i else {[br_author r]} ∪ accepters_in B P l i.
Proof.
  apply set_eq. intros a. destruct (decide _); rewrite ?elem_of_union, ?elem_of_singleton, !accepters_in_elem;
    setoid_rewrite elem_of_app; setoid_rewrite list_elem_of_singleton; naive_solver.
Qed.

Lemma accepters_in_mono B P l l' i : accepters_in B P l i ⊆ accepters_in B P (l ++ l') i.
Proof. intros a. rewrite !accepters_in_elem. setoid_rewrite elem_of_app. naive_solver. Qed.

(** ** Counting the votes of one block *)

Lemma delete_all_lookup {V} (l : list TransactionIndex) (m : gmap TransactionIndex V) i :
  foldl (λ m i, delete i m) m l !! i = if decide (i ∈ l) then None else m !! i.
Proof.
  revert m. induction l as [|j l IH]; intros m; cbn [foldl].
  - rewrite decide_False by apply not_elem_of_nil. done.
  - rewrite IH. destruct (decide (i ∈ l)); [by rewrite decide_True by set_solver|].
    destruct (decide (i = j)) as [->|Hne].
    + rewrite lookup_delete_eq, decide_True by set_solver. done.
    + rewrite lookup_delete_ne, decide_False by set_solver. done.
Qed.

Section Accept.
Context `{Profile} (c : Committee) (Hwf : Committee_wf c).

Lemma reached_is_quorum s : s ⊆ members c → is_threshold (T := QuorumThreshold) c (set_stake c s) = bool_decide (is_quorum c s).
Proof using.
  intros Hs. unfold is_quorum. simpl. destruct (Committee_reached_quorum c (set_stake c s)) eqn:E.
  - by rewrite bool_decide_eq_true_2.
  - rewrite bool_decide_eq_false_2; [done|]. by intros [_ ?].
Qed.

Lemma accept_votes_fold voter (R : gset TransactionIndex) (A : TransactionIndex → gset AuthorityIndex) l m new :
  voter ∈ members c → (∀ i, A i ⊆ members c) → NoDup l.*1 → (∀ e, e ∈ l → e.2 = SA_of c (A e.1)) →
  ∃ m', foldM (accept_vote c voter R) (m, new) l =
          Ret (m', new ++ filter (λ i, i ∉ R ∧ is_quorum c ({[voter]} ∪ A i)) l.*1) ∧
    ∀ i, m' !! i = if decide (i ∈ l.*1 ∧ i ∉ R) then Some (SA_of c ({[voter]} ∪ A i)) else m !! i.
Proof using Hwf.
  intros Hv HA. revert m new. induction l as [|[i sa] l IH]; intros m new Hnd Hl.
  - exists m. split; [by rewrite app_nil_r|]. intros i. rewrite decide_False; [done|]. intros [[]%not_elem_of_nil _].
  - rewrite fmap_cons in Hnd. apply NoDup_cons in Hnd as [Hi Hnd]. cbn [foldM]. unfold accept_vote at 2. cbn [fst snd].
    assert (∀ e, e ∈ l → e.2 = SA_of c (A e.1)) as Hl' by (intros e He; apply Hl; by right).
    assert (sa = SA_of c (A i)) as -> by apply (Hl (i, sa) ltac:(left)).
    rewrite fmap_cons. cbn [fst]. rewrite filter_cons. destruct (decide (i ∈ R)) as [HR|HR].
    + cbn [mbind M_bind]. destruct (IH m new Hnd Hl') as (m' & -> & Hm'). exists m'.
      rewrite decide_False by tauto. split; [done|]. intros j. rewrite Hm'.
      destruct (decide (j ∈ l.*1 ∧ j ∉ R)), (decide (j ∈ i :: l.*1 ∧ j ∉ R)); set_solver.
    + rewrite StakeAggregator_add_spec by done. cbn [mbind M_bind fst snd].
      specialize (HA i). rewrite reached_is_quorum by set_solver.
      destruct (IH (<[i := SA_of c ({[voter]} ∪ A i)]> m)
        (if bool_decide (is_quorum c ({[voter]} ∪ A i)) then new ++ [i] else new) Hnd Hl') as (m' & -> & Hm').
      exists m'. split.
      * do 2 f_equal. case_bool_decide; [rewrite decide_True by done|rewrite decide_False by tauto; done].
        by rewrite <- (assoc_L (++)).
      * intros j. rewrite Hm'. destruct (decide (j ∈ l.*1 ∧ j ∉ R)) as [[??]|Hj].
        { rewrite decide_True by set_solver. done. }
        destruct (decide (j = i)) as [->|Hne].
        { rewrite lookup_insert_eq, decide_True by set_solver. done. }
        rewrite lookup_insert_ne, decide_False by set_solver. done.
Qed.

(** The aggregators of the transactions of [T] that no quorum accepts yet, and those accepted. *)
Definition votes_ok (T : gset TransactionIndex) (A : TransactionIndex → gset AuthorityIndex)
    (votes : gmap TransactionIndex (StakeAggregator QuorumThreshold)) (finalized : list TransactionIndex) : Prop :=
  (∀ i, votes !! i = if decide (i ∈ T ∧ ¬ is_quorum c (A i)) then Some (SA_of c (A i)) else None) ∧
  (∀ i, i ∈ finalized ↔ i ∈ T ∧ is_quorum c (A i)).

Lemma votes_ok_ext T A A' votes fin : (∀ i, A i = A' i) → votes_ok T A votes fin → votes_ok T A' votes fin.
Proof using. intros HA [H1 H2]. split; intros i; [rewrite H1|rewrite H2]; by rewrite HA. Qed.

Lemma accept_votes_step voter (R : gset TransactionIndex) T A votes fin :
  voter ∈ members c → (∀ i, A i ⊆ members c) → votes_ok T A votes fin →
  ∃ votes' new, foldM (accept_vote c voter R) (votes, []) (bmap_list votes) = Ret (votes', new) ∧
    votes_ok T (λ i, if decide (i ∈ R) then A i else {[voter]} ∪ A i)
      (foldl (λ m i, delete i m) votes' new) (fin ++ new).
Proof using Hwf.
  intros Hv HA [Hvotes Hfin].
  assert (∀ i, i ∈ (bmap_list votes).*1 ↔ i ∈ T ∧ ¬ is_quorum c (A i)) as Hkeys.
  { intros i. rewrite list_elem_of_fmap. split.
    - intros ([j sa] & -> & Hin%bmap_list_elem). simpl. rewrite Hvotes in Hin. by destruct (decide _).
    - intros Hi. exists (i, SA_of c (A i)). split; [done|]. apply bmap_list_elem. rewrite Hvotes. by rewrite decide_True. }
  destruct (accept_votes_fold voter R A (bmap_list votes) votes []) as (m' & -> & Hm'); [done|done|apply bmap_list_NoDup| |].
  { intros [i sa] Hin%bmap_list_elem. simpl. rewrite Hvotes in Hin. destruct (decide _); by simplify_eq. }
  cbn [app]. set (new := filter _ _). exists m', new. split; [reflexivity|].
  split; intros i; specialize (Hkeys i); specialize (HA i).
  all: assert (i ∈ new ↔ (i ∉ R ∧ is_quorum c ({[voter]} ∪ A i)) ∧ i ∈ T ∧ ¬ is_quorum c (A i)) as Hnew
    by (unfold new; by rewrite list_elem_of_filter, Hkeys).
  all: assert (is_quorum c (A i) → is_quorum c ({[voter]} ∪ A i)) as Hmono
    by (intros Hq; eapply is_quorum_mono; [exact Hq|set_solver|set_solver]).
  - rewrite delete_all_lookup, Hm', Hvotes. clearbody new. clear HA Hm' Hvotes Hfin Hv.
    destruct (decide (i ∈ R)); repeat destruct (decide _); tauto || naive_solver.
  - rewrite elem_of_app, Hfin, Hnew. clearbody new. clear HA Hm' Hvotes Hfin Hv.
    destruct (decide (i ∈ R)), (decide (is_quorum c (A i))); tauto || naive_solver.
Qed.

End Accept.

(** ** The traversal *)

(** The gc rounds of consecutive commits from [pc] on, which cover the commits of the linked blocks. *)
Record gc_table (G : list (CommitIndex * Round)) (pc : CommitIndex) (B : block_map) : Prop := {
  gt_index : ∀ k e, G !! k = Some e → e.1 = pc + N.of_nat k;
  gt_mono : ∀ k k' e e', (k ≤ k')%nat → G !! k = Some e → G !! k' = Some e' → e.2 ≤ e'.2;
  gt_covers : ∀ r st, B !! r = Some st → bs_commit_index st ≤ pc + N.of_nat (length G);
}.

Lemma gced_spec `{Profile} G B P pc r st :
  gc_table G pc B → B !! r = Some st → pc ≤ bs_commit_index st →
  gced_transaction_votes_for_pending_block G (br_round P) pc (bs_commit_index st) =
    Ret (voted_out G P pc (bs_commit_index st)).
Proof.
  intros HG Hr Hle. pose proof (gt_covers G pc B HG r st Hr) as Hc.
  unfold gced_transaction_votes_for_pending_block, voted_out. set (ci := bs_commit_index st) in *.
  rewrite (proj2 (N.leb_le _ _) Hle). cbn [assert_that mbind M_bind].
  destruct (N.eqb_spec pc ci) as [<-|Hne]; [by rewrite N.ltb_irrefl|].
  rewrite (proj2 (N.ltb_lt pc ci)) by lia. rewrite (int_sub_exact 32 ci) by lia. cbn [mbind M_bind].
  arith.
  destruct (lookup_lt_is_Some_2 G (N.to_nat (ci - 1 - pc))) as [[ci' g] He]; [lia|].
  rewrite He. cbn [expect mbind M_bind]. rewrite (proj2 (N.eqb_eq ci' (ci - 1))); [done|].
  pose proof (gt_index G pc B HG _ _ He). simpl in *. lia.
Qed.

Lemma voted_out_mono G B P pc ci ci' :
  gc_table G pc B → ci ≤ ci' → ci' ≤ pc + N.of_nat (length G) → voted_out G P pc ci = true → voted_out G P pc ci' = true.
Proof.
  intros HG Hle Hc. unfold voted_out. rewrite !andb_true_iff, !N.ltb_lt. intros [Hlt Hg]. split; [lia|].
  destruct (lookup_lt_is_Some_2 G (N.to_nat (ci' - 1 - pc))) as [e' He']; [lia|]. rewrite He'.
  destruct (G !! N.to_nat (ci - 1 - pc)) as [e|] eqn:He; [|done]. simpl in *. nbool. apply N.leb_le.
  assert (N.to_nat (ci - 1 - pc) ≤ N.to_nat (ci' - 1 - pc))%nat as Hk by lia.
  pose proof (gt_mono G pc B HG _ _ e e' Hk He He'). lia.
Qed.

Section Traversal.
Context (c : Committee) (B : block_map) (G : list (CommitIndex * Round)) (P : BlockRef) (sp : BlockState).
Context (Hlk : linked c B) (HP : B !! P = Some sp) (HG : gc_table G (bs_commit_index sp) B).
Local Abbreviation pc := (bs_commit_index sp).
Local Abbreviation visits := (filter (timely B G P pc) (bset_list (descendants B P))).

Lemma visits_elem r : r ∈ visits ↔ descends B P r ∧ timely B G P pc r.
Proof using Hlk. rewrite list_elem_of_filter, bset_list_elem, (descendants_spec c B P Hlk). tauto. Qed.

Lemma visits_sorted : StronglySorted (λ a b, lt_ord a b = true) visits.
Proof using.
  clear. apply StronglySorted_filter. apply (sorted_strict (λ r, r)); [apply bset_list_sorted|].
  rewrite list_fmap_id. apply bset_list_NoDup.
Qed.

Lemma descends_later r : descends B P r → ∃ st, B !! r = Some st ∧ pc ≤ bs_commit_index st.
Proof using Hlk HP.
  assert (∀ q st r', B !! q = Some st → r' ∈ children_of B q → ∃ st', B !! r' = Some st' ∧ bs_commit_index st ≤ bs_commit_index st') as Hch.
  { intros q st r' Hq. unfold children_of. rewrite Hq. intros Hr.
    destruct (lk_children c B Hlk q st r' Hq Hr) as (st' & ? & _ & ?). eauto. }
  induction 1 as [r Hr|r r' _ (st & Hst & IH) Hr].
  - by eapply Hch.
  - destruct (Hch r st r' Hst Hr) as (st' & ? & ?). exists st'. split; [done|lia].
Qed.

(** Blocks above a late block are late. *)
Lemma timely_below q r st : B !! q = Some st → above_in B st q r → timely B G P pc r → timely B G P pc q.
Proof using HG.
  intros Hq (st' & Hr & _ & Hle). unfold timely. rewrite Hq, Hr. cbn [from_option]. intros Ht.
  destruct (voted_out G P pc (bs_commit_index st)) eqn:E; [|done].
  rewrite (voted_out_mono G B P pc _ _ HG Hle (gt_covers _ _ _ HG r st' Hr) E) in Ht. done.
Qed.

Lemma timely_parent q r : r ∈ children_of B q → timely B G P pc r → timely B G P pc q.
Proof using Hlk HP HG.
  unfold children_of. destruct (B !! q) as [st|] eqn:Hq; cbn [from_option]; [|set_solver]. intros Hr Ht.
  eapply timely_below; [exact Hq|by eapply (lk_children c B Hlk)|done].
Qed.

(** [search_ok todo visited ignored kept rest]: the timely blocks are visited in order, [rest] is left. *)
Record search_ok (todo visited ignored : gset BlockRef) (kept rest : list BlockRef) : Prop := {
  so_visited : visited ⊆ dom B;
  so_fresh : todo ## visited;
  so_todo : ∀ r, r ∈ todo → descends B P r;
  so_split : ∃ l1, visits = l1 ++ rest ∧ (∀ r, r ∈ l1 → r ∈ visited) ∧ (∀ r, r ∈ rest → r ∉ visited);
  so_front : ∀ r, r ∈ visits → r ∉ visited →
    (r ∈ children_of B P ∨ ∃ q, q ∈ visits ∧ q ∈ visited ∧ r ∈ children_of B q) → r ∈ todo;
  so_votes : voting_blocks B G P pc = kept ++ first_votes B ignored rest;
}.

Lemma search_start : search_ok (bs_children sp) ∅ ∅ [] visits.
Proof using Hlk HP HG.
  split; [set_solver|set_solver| |exists []; set_solver| |done].
  - intros r Hr. apply descends_child. unfold children_of. by rewrite HP.
  - intros r _ _ [Hr|(q & _ & Hq & _)]; [|set_solver]. unfold children_of in Hr. by rewrite HP in Hr.
Qed.

(** The next timely block is waiting. *)
Lemma search_next todo visited ignored kept r rest :
  search_ok todo visited ignored kept (r :: rest) → r ∈ todo.
Proof using Hlk HP HG.
  intros Hs. destruct (so_split _ _ _ _ _ Hs) as (l1 & El & H1 & H2).
  assert (r ∈ visits) as Hr by (rewrite El; set_solver). apply (so_front _ _ _ _ _ Hs); [done|apply H2; left|].
  pose proof Hr as [Hd Ht]%visits_elem. destruct Hd as [r Hc|q r Hd Hc]; [by left|right]. exists q.
  assert (q ∈ visits) as Hq by (apply visits_elem; split; [done|by eapply timely_parent]).
  split; [done|]. split; [|done]. apply H1. pose proof visits_sorted as Hsort.
  rewrite El in Hq, Hsort. apply elem_of_app in Hq as [|Hq]; [done|].
  apply StronglySorted_app in Hsort as (_ & _ & Hsort). apply StronglySorted_cons in Hsort as [Hsort _].
  pose proof (children_of_above c B Hlk q r Hc) as (_ & _ & Hlt). apply elem_of_cons in Hq as [->|Hq]; [lia|].
  rewrite Forall_forall in Hsort. specialize (Hsort q Hq). apply lt_ord_le, BlockRef_le_round in Hsort. lia.
Qed.

Lemma search_done visited ignored kept rest : search_ok ∅ visited ignored kept rest → rest = [].
Proof using Hlk HP HG. intros Hs. destruct rest; [done|]. apply search_next in Hs. set_solver. Qed.

(** Visiting a late block. *)
Lemma search_late todo visited ignored kept rest r (C I : gset BlockRef) :
  search_ok todo visited ignored kept rest → r ∈ todo → ¬ timely B G P pc r →
  C ⊆ children_of B r ∖ ({[r]} ∪ visited) → (∀ x, timely B G P pc x → x ∈ I ↔ x ∈ ignored) →
  search_ok (todo ∖ {[r]} ∪ C) ({[r]} ∪ visited) I kept rest.
Proof using Hlk HP HG.
  intros Hs Hr Ht HC HI. pose proof (so_todo _ _ _ _ _ Hs r Hr) as Hd.
  assert (∀ x, x ∈ visits → x ≠ r) as Hne by (intros x [_ Hx]%visits_elem ->; done).
  destruct (so_split _ _ _ _ _ Hs) as (l1 & El & H1 & H2). split.
  - pose proof (so_visited _ _ _ _ _ Hs). apply (descends_above c B P Hlk) in Hd as [Hd _]. set_solver.
  - pose proof (so_fresh _ _ _ _ _ Hs). set_solver.
  - intros x [Hx|Hx]%elem_of_union; [apply (so_todo _ _ _ _ _ Hs); set_solver|]. eapply descends_step; [exact Hd|set_solver].
  - exists l1. split; [done|]. split; [set_solver|]. intros x Hx.
    specialize (Hne x ltac:(rewrite El; set_solver)). specialize (H2 x Hx). set_solver.
  - intros x Hx Hv Hor. pose proof (Hne x Hx). apply elem_of_union. left. apply elem_of_difference. split; [|set_solver].
    apply (so_front _ _ _ _ _ Hs); [done|set_solver|]. destruct Hor as [|(q & Hq & Hqv & Hqx)]; [by left|right].
    exists q. specialize (Hne q Hq). set_solver.
  - rewrite (so_votes _ _ _ _ _ Hs). f_equal. apply first_votes_ext. intros x Hx.
    symmetry. apply HI. apply visits_elem. rewrite El. set_solver.
Qed.

(** The least block waiting, when timely, is the next one. *)
Lemma search_least todo visited ignored kept rest r :
  search_ok todo visited ignored kept rest → r ∈ todo → (∀ q, q ∈ todo → le_ord r q = true) → timely B G P pc r →
  ∃ rest', rest = r :: rest'.
Proof using Hlk HP HG.
  intros Hs Hr Hmin Ht. destruct (so_split _ _ _ _ _ Hs) as (l1 & El & H1 & H2).
  assert (r ∈ rest) as Hin.
  { assert (r ∈ visits) as Hv by (apply visits_elem; split; [by apply (so_todo _ _ _ _ _ Hs)|done]).
    rewrite El in Hv. apply elem_of_app in Hv as [Hv|]; [|done]. apply H1 in Hv. pose proof (so_fresh _ _ _ _ _ Hs). set_solver. }
  destruct rest as [|h rest]; [by apply not_elem_of_nil in Hin|]. exists rest. f_equal.
  pose proof (Hmin h (search_next _ _ _ _ _ _ Hs)) as Hle. pose proof visits_sorted as Hsort. rewrite El in Hsort.
  apply StronglySorted_app in Hsort as (_ & _ & Hsort). apply StronglySorted_cons in Hsort as [Hsort _].
  apply elem_of_cons in Hin as [->|Hin]; [done|]. rewrite Forall_forall in Hsort.
  apply le_ord_antisym; [apply lt_ord_le, Hsort, Hin|done].
Qed.

Lemma search_timely todo visited ignored kept rest r I kept' :
  search_ok todo visited ignored kept (r :: rest) →
  kept ++ first_votes B ignored (r :: rest) = kept' ++ first_votes B I rest →
  search_ok (todo ∖ {[r]} ∪ (children_of B r ∖ ({[r]} ∪ visited))) ({[r]} ∪ visited) I kept' rest.
Proof using Hlk HP HG.
  intros Hs Hk. pose proof (search_next _ _ _ _ _ _ Hs) as Hr. pose proof (so_todo _ _ _ _ _ Hs r Hr) as Hd.
  destruct (so_split _ _ _ _ _ Hs) as (l1 & El & H1 & H2). split.
  - pose proof (so_visited _ _ _ _ _ Hs). apply (descends_above c B P Hlk) in Hd as [Hd _]. set_solver.
  - pose proof (so_fresh _ _ _ _ _ Hs). set_solver.
  - intros x [Hx|Hx]%elem_of_union; [apply (so_todo _ _ _ _ _ Hs); set_solver|]. eapply descends_step; [exact Hd|set_solver].
  - exists (l1 ++ [r]). split; [by rewrite <- (assoc_L (++))|]. split; [set_solver|]. intros x Hx.
    assert (x ≠ r); [|specialize (H2 x ltac:(by right)); set_solver]. intros ->.
    pose proof (visits_sorted) as Hsort. rewrite El in Hsort. apply StronglySorted_app in Hsort as (_ & _ & Hsort).
    apply StronglySorted_cons in Hsort as [Hsort _]. rewrite Forall_forall in Hsort. specialize (Hsort r Hx).
    rewrite lt_ord_alt, le_ord_refl in Hsort. done.
  - intros x Hx Hv Hor. apply elem_of_union. destruct (decide (x ∈ children_of B r)) as [|Hnc]; [right; set_solver|left].
    apply elem_of_difference. split; [|set_solver]. apply (so_front _ _ _ _ _ Hs); [done|set_solver|].
    destruct Hor as [|(q & Hq & Hqv & Hqx)]; [by left|right]. exists q. assert (q ≠ r) by (intros ->; done). set_solver.
  - by rewrite (so_votes _ _ _ _ _ Hs).
Qed.

Lemma voting_blocks_dom r : r ∈ voting_blocks B G P pc → r ∈ dom B.
Proof using Hlk HP HG. intros [Hd _]%first_votes_sub%visits_elem. by apply (descends_above c B P Hlk) in Hd as [? _]. Qed.

Lemma accepters_in_members l i : (∀ r, r ∈ l → r ∈ dom B) → accepters_in B P l i ⊆ members c.
Proof using Hlk HP HG. intros Hl a (r & Hr & <- & _)%accepters_in_elem. apply (lk_author c B Hlk), Hl, Hr. Qed.

Section Loop.
Context `{Profile} (ctx : Context) (Hc : ctx_committee ctx = c) (Hwf : Committee_wf c) (T : gset TransactionIndex).

Definition found (result : list TransactionIndex) : Prop :=
  ∀ i, i ∈ result ↔ i ∈ T ∧ is_quorum c (accepters B G P pc i).

Lemma found_early todo visited ignored kept rest votes fin :
  search_ok todo visited ignored kept rest → votes_ok c T (accepters_in B P kept) votes fin → votes = ∅ → found fin.
Proof using Hlk HP HG Hwf Hc.
  intros Hs [Hv Hf] -> i. rewrite Hf. unfold accepters. rewrite (so_votes _ _ _ _ _ Hs). split; intros [HT Hq]; (split; [done|]).
  - eapply is_quorum_mono; [exact Hq|apply accepters_in_mono|]. apply accepters_in_members.
    intros r Hr. apply voting_blocks_dom. by rewrite (so_votes _ _ _ _ _ Hs).
  - specialize (Hv i). rewrite lookup_empty in Hv. destruct (decide (i ∈ T ∧ _)) as [|Hn]; [done|].
    destruct (decide (is_quorum c (accepters_in B P kept i))); [done|]. destruct Hn. done.
Qed.

Lemma found_done visited ignored kept rest votes fin :
  search_ok ∅ visited ignored kept rest → votes_ok c T (accepters_in B P kept) votes fin → found fin.
Proof using Hlk HP HG Hwf Hc.
  intros Hs [_ Hf] i. rewrite Hf. unfold accepters. pose proof (search_done _ _ _ _ Hs) as ->.
  rewrite (so_votes _ _ _ _ _ Hs). cbn [first_votes]. by rewrite app_nil_r.
Qed.

(** Counting the votes of the next timely block that is the first of its origin. *)
Lemma search_count todo visited ignored kept r rest votes fin st :
  search_ok todo visited ignored kept (r :: rest) → r ∉ ignored → B !! r = Some st →
  votes_ok c T (accepters_in B P kept) votes fin →
  ∃ votes' new,
    foldM (accept_vote c (br_author r) (default ∅ (bs_reject_votes st !! P))) (votes, []) (bmap_list votes) = Ret (votes', new) ∧
    votes_ok c T (accepters_in B P (kept ++ [r])) (foldl (λ m i, delete i m) votes' new) (fin ++ new) ∧
    search_ok (todo ∖ {[r]} ∪ (children_of B r ∖ ({[r]} ∪ visited))) ({[r]} ∪ visited)
      ({[r]} ∪ ignored ∪ list_to_set (bs_origin_descendants st)) (kept ++ [r]) rest.
Proof using Hlk HP HG Hwf Hc.
  intros Hs Hi Hr Hv.
  destruct (accept_votes_step c Hwf (br_author r) (rejects_in B P r) T (accepters_in B P kept) votes fin)
    as (votes' & new & Hf & Hv'); [apply (lk_author c B Hlk); by apply elem_of_dom_2 in Hr| |done|].
  { intros i. apply accepters_in_members. intros x Hx. apply voting_blocks_dom. rewrite (so_votes _ _ _ _ _ Hs). set_solver. }
  exists votes', new. unfold rejects_in in Hf. rewrite Hr in Hf. split; [exact Hf|]. split.
  - eapply votes_ok_ext; [|exact Hv']. intros i. by rewrite accepters_in_snoc.
  - assert (r ∉ rest) as Hnin.
    { destruct (so_split _ _ _ _ _ Hs) as (l1 & El & _ & _). pose proof visits_sorted as Hsort. rewrite El in Hsort.
      apply StronglySorted_app in Hsort as (_ & _ & Hsort). apply StronglySorted_cons in Hsort as [Hsort _].
      rewrite Forall_forall in Hsort. intros Hin. specialize (Hsort r Hin). by rewrite lt_ord_alt, le_ord_refl in Hsort. }
    eapply search_timely; [exact Hs|]. cbn [first_votes]. rewrite decide_False by done.
    rewrite <- (assoc_L (++)). do 2 f_equal. unfold origin_of. rewrite Hr. cbn [from_option].
    apply first_votes_ext. intros x Hx. assert (x ≠ r) by (intros ->; done). set_solver.
Qed.

Lemma accept_traversal_spec fuel todo visited ignored kept rest votes fin :
  search_ok todo visited ignored kept rest → votes_ok c T (accepters_in B P kept) votes fin →
  (size (dom B ∖ visited) < fuel)%nat →
  ∃ result, accept_traversal fuel ctx B G P pc todo visited ignored votes fin = Ret result ∧ found result.
Proof using Hlk HP HG Hwf Hc.
  revert todo visited ignored kept rest votes fin.
  induction fuel as [|fuel IH]; intros todo visited ignored kept rest votes fin Hs Hv Hf; [lia|].
  cbn [accept_traversal]. destruct (bset_first todo) as [r|] eqn:Er.
  2: { apply bset_first_None in Er as ->. exists fin. split; [done|]. by eapply found_done. }
  apply bset_first_Some in Er as [Hr Hmin]. pose proof (so_todo _ _ _ _ _ Hs r Hr) as Hd.
  pose proof (so_fresh _ _ _ _ _ Hs) as Hfresh. rewrite decide_False by set_solver.
  destruct (descends_later r Hd) as (st & Hst & Hle). rewrite Hst. cbn [expect mbind M_bind].
  rewrite (gced_spec G B P pc r st HG Hst Hle). cbn [mbind M_bind].
  assert (children_of B r = bs_children st) as Hch by (unfold children_of; by rewrite Hst).
  assert (size (dom B ∖ ({[r]} ∪ visited)) < fuel)%nat as Hfuel.
  { assert (r ∈ dom B) by (by apply elem_of_dom_2 in Hst). assert (size (dom B ∖ ({[r]} ∪ visited)) < size (dom B ∖ visited))%nat; [|lia].
    apply subset_size. set_solver. }
  destruct (voted_out G P pc (bs_commit_index st)) eqn:Eg.
  - assert (¬ timely B G P pc r) as Hlate by (unfold timely; rewrite Hst; simpl; by rewrite Eg).
    destruct (decide (r ∉ ignored)) as [Hi|Hi].
    + destruct (Committee_authority_member c (br_author P)) as [a Ha].
      { apply (lk_author c B Hlk). by apply elem_of_dom_2 in HP. }
      rewrite Hc, Ha. cbn [mbind M_bind]. eapply IH; [|exact Hv|exact Hfuel].
      rewrite <- (union_empty_r_L (todo ∖ {[r]})). eapply search_late; [exact Hs|done|done|set_solver|].
      intros x Hx. assert (x ≠ r) by (intros ->; done). assert (x ∉ bs_origin_descendants st); [|set_solver].
      intros Hx'. destruct Hlate. eapply timely_below; [exact Hst|by eapply (lk_origin c B Hlk)|done].
    + eapply IH; [|exact Hv|exact Hfuel]. rewrite <- Hch. by eapply search_late.
  - assert (timely B G P pc r) as Ht by (unfold timely; rewrite Hst; exact Eg).
    destruct (search_least _ _ _ _ _ r Hs Hr Hmin Ht) as [rest' ->]. rewrite <- Hch.
    destruct (decide (r ∉ ignored)) as [Hi|Hi].
    + rewrite Hc. destruct (search_count _ _ _ _ _ _ _ _ _ Hs Hi Hst Hv) as (votes' & new & -> & Hv' & Hs').
      cbn [mbind M_bind]. destruct (decide _) as [He|_]; [exists (fin ++ new); split; [done|]; by eapply found_early|].
      by eapply IH.
    + eapply IH; [|exact Hv|exact Hfuel]. eapply search_timely; [exact Hs|]. cbn [first_votes].
      rewrite decide_True by (by apply dec_stable). done.
Qed.

End Loop.
End Traversal.

Lemma indirect_finalize_spec `{Profile} ctx B G P sp (T : gset TransactionIndex) :
  Committee_wf (ctx_committee ctx) → linked (ctx_committee ctx) B → B !! P = Some sp → gc_table G (bs_commit_index sp) B →
  ∃ result, try_indirect_finalize_pending_transactions_in_block ctx B G P T = Ret result ∧
    ∀ i, i ∈ result ↔ i ∈ T ∧ is_quorum (ctx_committee ctx) (accepters B G P (bs_commit_index sp) i).
Proof.
  intros Hwf Hlk HP HG. unfold try_indirect_finalize_pending_transactions_in_block.
  destruct (decide (T = ∅)) as [->|_]; [exists []; split; [done|]; set_solver|].
  rewrite HP. cbn [expect mbind M_bind].
  eapply (accept_traversal_spec _ _ _ _ _ Hlk HP HG ctx eq_refl Hwf T); [by eapply search_start| |].
  - assert (∀ i, ¬ is_quorum (ctx_committee ctx) (accepters_in B P [] i)) as Hno.
    { intros i [_ Hq]. unfold accepters_in, Committee_reached_quorum, set_stake in Hq. simpl in Hq.
      rewrite weight_empty in Hq. nbool. pose proof (wf_quorum_pos _ Hwf). lia. }
    split; intros i.
    + rewrite lookup_gset_to_gmap. change (accepters_in B P [] i) with (∅ : gset AuthorityIndex).
      specialize (Hno i). destruct (decide (i ∈ T ∧ _)) as [[HT _]|Hn].
      * rewrite option_guard_True by done. rewrite (SA_of_new (ctx_committee ctx)). done.
      * rewrite option_guard_False; [done|]. tauto.
    + specialize (Hno i). split; [by intros []%not_elem_of_nil|tauto].
  - rewrite difference_empty_L, size_dom. lia.
Qed.

(** C16: The search for accept votes on the pending transactions of a committed block returns, and
    what it returns is exact: a pending transaction is finalized if and only if the authorities that accept it are a quorum,
    where an authority accepts when one of its blocks that descend from the pending block, is the first of its
    origin to do so and cannot have missed the pending block through garbage collection does not reject the transaction.
    Neither the order of the traversal nor its early exits change the result. *)
Theorem try_indirect_finalize_pending_transactions_in_block_exact `{Profile} ctx B G P sp (T : gset TransactionIndex) :
  Committee_wf (ctx_committee ctx) → linked (ctx_committee ctx) B → B !! P = Some sp → gc_table G (bs_commit_index sp) B →
  ∃ result, try_indirect_finalize_pending_transactions_in_block ctx B G P T = Ret result ∧
    ∀ i, i ∈ result ↔ i ∈ T ∧ is_quorum (ctx_committee ctx) (accepters B G P (bs_commit_index sp) i).
Proof. apply indirect_finalize_spec. Qed.
