(* ===== verification/FinalizerLinks.v ===== *)
(** * The blocks that the commit finalizer has linked

    The map of linked blocks mirrors the blocks of the pending commits: the children of a block are
    exactly the committed blocks that list it as an ancestor, and its origin descendants are
    exactly the committed blocks above it on the chain of first ancestors of its author. Linking a commit and
    removing the first commits keep this. *)

From S2P Require Import Prelude BTree Config Block Commit Store StakeAggregator ThresholdClock.
From S2P Require Import LeaderScoring DagState TransactionVoteTracker CommitFinalizer FinalizerVotes.
Local Open Scope N_scope.

(** A committed block with the index of its commit. *)
Abbreviation placed := (VerifiedBlock * CommitIndex)%type (only parsing).
Implicit Types (L N : list placed) (e : placed) (B : gmap BlockRef BlockState).

Definition ref_of (e : placed) : BlockRef := reference e.1.
Definition origin_parent (b : VerifiedBlock) : option BlockRef := head (b_ancestors b).

(** [q] is on the chain of first ancestors of authority [a] that starts at [x]. *)
Inductive chain_from (L : list placed) (a : AuthorityIndex) : BlockRef → BlockRef → Prop :=
| chain_here e : e ∈ L → b_author e.1 = a → chain_from L a (ref_of e) (ref_of e)
| chain_next e x q : e ∈ L → b_author e.1 = a → origin_parent e.1 = Some x → chain_from L a x q → chain_from L a (ref_of e) q.

Lemma chain_from_mono L L' a x q : (∀ e, e ∈ L → e ∈ L') → chain_from L a x q → chain_from L' a x q.
Proof. intros HL. induction 1; [apply chain_here|eapply chain_next]; eauto. Qed.

Definition origin_above (L : list placed) (b : VerifiedBlock) (q : BlockRef) : Prop :=
  ∃ x, origin_parent b = Some x ∧ chain_from L (b_author b) x q.

(** ** What the commits give *)

Record placed_ok (c : Committee) (e : placed) : Prop := {
  po_author : b_author e.1 ∈ members c;
  po_rounds : ∀ a, a ∈ b_ancestors e.1 → br_round a < b_round e.1;
  po_origin : is_Some (origin_parent e.1);
}.

Record causal (c : Committee) (L : list placed) : Prop := {
  ca_placed : ∀ e, e ∈ L → placed_ok c e;
  ca_refs : ∀ e e', e ∈ L → e' ∈ L → ref_of e = ref_of e' → e = e';
  ca_order : ∀ e e', e ∈ L → e' ∈ L → ref_of e ∈ b_ancestors e'.1 → e.2 ≤ e'.2;
}.

Lemma causal_sub c L L' : causal c L → (∀ e, e ∈ L' → e ∈ L) → causal c L'.
Proof. intros [H1 H2 H3] Hs. split; eauto. Qed.

(** ** The mirror

    [mirror L N B]: [B] holds the blocks of [L], and the blocks of [N] are announced to the blocks below them. *)

Definition rejects_of (b : VerifiedBlock) : gmap BlockRef (gset TransactionIndex) := bs_reject_votes (BlockState_new b 0).

Record mirror (L N : list placed) (B : gmap BlockRef BlockState) : Prop := {
  mi_block : ∀ r st, B !! r = Some st →
    ∃ e, e ∈ L ∧ ref_of e = r ∧ bs_block st = e.1 ∧ bs_commit_index st = e.2 ∧ bs_reject_votes st = rejects_of e.1;
  mi_dom : ∀ e, e ∈ L → ref_of e ∈ dom B;
  mi_children : ∀ r st r', B !! r = Some st → r' ∈ bs_children st ↔ ∃ e, e ∈ L ∧ ref_of e = r' ∧ r ∈ b_ancestors e.1;
  mi_origin : ∀ r st r', B !! r = Some st → r' ∈ bs_origin_descendants st ↔ ∃ e, e ∈ N ∧ ref_of e = r' ∧ origin_above L e.1 r;
}.

Lemma mirror_ext L L' N N' B : (∀ e, e ∈ L ↔ e ∈ L') → (∀ e, e ∈ N ↔ e ∈ N') → mirror L N B → mirror L' N' B.
Proof.
  intros HL HN [H1 H2 H3 H4].
  assert (∀ a x q, chain_from L a x q ↔ chain_from L' a x q) as Hch.
  { intros a x q. split; apply chain_from_mono; intros e; apply HL. }
  split.
  - intros r st Hr. destruct (H1 r st Hr) as (e & He & ?). exists e. split; [by apply HL|done].
  - intros e He. by apply H2, HL.
  - intros r st r' Hr. rewrite (H3 r st r' Hr). by setoid_rewrite HL.
  - intros r st r' Hr. rewrite (H4 r st r' Hr). unfold origin_above. setoid_rewrite HN. by setoid_rewrite Hch.
Qed.

Lemma chain_from_end L a x q : chain_from L a x q → ∃ e, e ∈ L ∧ ref_of e = q ∧ b_author e.1 = a.
Proof. induction 1; eauto. Qed.

Lemma chain_from_start L a x q : chain_from L a x q → ∃ e, e ∈ L ∧ ref_of e = x.
Proof. destruct 1; eauto. Qed.

Lemma origin_parent_ancestor (b : VerifiedBlock) x : origin_parent b = Some x → x ∈ b_ancestors b.
Proof. unfold origin_parent. destruct (b_ancestors b); [done|]. intros [= ->]. left. Qed.

Lemma chain_from_round c L a x q : causal c L → chain_from L a x q → br_round q ≤ br_round x.
Proof.
  intros Hc. induction 1 as [|e x q He _ Hp _ IH]; [lia|]. apply origin_parent_ancestor in Hp.
  pose proof (po_rounds c e (ca_placed c L Hc e He) x Hp). unfold ref_of. simpl. lia.
Qed.

(** Along a chain the commits do not decrease. *)
Lemma chain_from_commit c L a x q e e' :
  causal c L → chain_from L a x q → e ∈ L → ref_of e = q → e' ∈ L → ref_of e' = x → e.2 ≤ e'.2.
Proof.
  intros Hc Hch. revert e'. induction Hch as [e0 He0 Ha|e0 x q He0 Ha Hp Hch IH]; intros e' He Hq He' Hx.
  - rewrite (ca_refs c L Hc e e') by congruence. lia.
  - pose proof (ca_refs c L Hc e' e0 He' He0 Hx) as ->. destruct (chain_from_start _ _ _ _ Hch) as (e1 & He1 & Hr1).
    specialize (IH e1 He Hq He1 Hr1). apply origin_parent_ancestor in Hp. rewrite <- Hr1 in Hp.
    pose proof (ca_order c L Hc e1 e0 He1 He0 Hp). lia.
Qed.

Lemma mirror_linked c L N B : causal c L → (∀ e, e ∈ N → e ∈ L) → mirror L N B → linked c B.
Proof.
  intros Hc HN Hm.
  assert (∀ r st e, B !! r = Some st → e ∈ L → br_round r < br_round (ref_of e) →
    (∀ e', e' ∈ L → ref_of e' = r → e'.2 ≤ e.2) → above_in B st r (ref_of e)) as Habove.
  { intros r st e Hr He Hlt Hle. pose proof (mi_dom L N B Hm e He) as [st' Hst']%elem_of_dom.
    exists st'. split; [done|]. split; [done|]. destruct (mi_block L N B Hm r st Hr) as (e1 & He1 & Hr1 & _ & -> & _).
    destruct (mi_block L N B Hm _ _ Hst') as (e2 & He2 & Hr2 & _ & -> & _).
    rewrite (ca_refs c L Hc e2 e He2 He Hr2). by apply Hle. }
  split.
  - intros r st r' Hr. rewrite (mi_children L N B Hm r st r' Hr). intros (e & He & <- & Ha). apply Habove; [done|done| |].
    + apply (po_rounds c e); [by apply (ca_placed c L Hc)|done].
    + intros e' He' <-. by apply (ca_order c L Hc).
  - intros r st r' Hr. rewrite (mi_origin L N B Hm r st r' Hr). intros (e & He%HN & <- & x & Hp & Hch).
    apply origin_parent_ancestor in Hp. apply Habove; [done|done| |].
    + pose proof (po_rounds c e (ca_placed c L Hc e He) x Hp) as Hlt. pose proof (chain_from_round c L _ _ _ Hc Hch).
      unfold ref_of. simpl in *. lia.
    + intros e' He' Hr'. destruct (chain_from_start _ _ _ _ Hch) as (e1 & He1 & <-).
      pose proof (chain_from_commit c L _ _ _ e' e1 Hc Hch He' Hr' He1 eq_refl).
      pose proof (ca_order c L Hc e1 e He1 He Hp). lia.
  - intros r [st Hr]%elem_of_dom. destruct (mi_block L N B Hm r st Hr) as (e & He & <- & _).
    apply (po_author c e), (ca_placed c L Hc), He.
Qed.

(** ** Linking a block *)

Lemma add_child_idemp r st : add_child r (add_child r st) = add_child r st.
Proof. destruct st. unfold add_child. simpl. f_equal. set_solver. Qed.

Lemma link_ancestors_lookup child (l : list BlockRef) B r :
  foldl (λ m ancestor, alter (add_child child) ancestor m) B l !! r =
  if decide (r ∈ l) then add_child child <$> B !! r else B !! r.
Proof.
  revert B. induction l as [|a l IH]; intros B; cbn [foldl].
  - rewrite decide_False by apply not_elem_of_nil. done.
  - rewrite IH. destruct (decide (r = a)) as [->|Hne].
    + rewrite lookup_alter_eq, (decide_True (P := a ∈ a :: l)) by set_solver.
      destruct (decide (a ∈ l)); [|done]. destruct (B !! a); [|done]. simpl. by rewrite add_child_idemp.
    + rewrite lookup_alter_ne by done. destruct (decide (r ∈ l)), (decide (r ∈ a :: l)); set_solver.
Qed.

Section Link.
Context (c : Committee).

(** A block that no linked block has as an ancestor starts no chain. *)
Lemma chain_from_fresh L e0 a x q :
  (∀ e, e ∈ L → ref_of e0 ∉ b_ancestors e.1) → (∀ e, e ∈ L → ref_of e ≠ ref_of e0) → x ≠ ref_of e0 →
  chain_from (L ++ [e0]) a x q ↔ chain_from L a x q.
Proof using.
  intros Hanc Hne Hx. split; [|apply chain_from_mono; intros e He; apply elem_of_app; by left].
  induction 1 as [e He Ha|e x q He Ha Hp _ IH]; apply elem_of_app in He as [He|He%list_elem_of_singleton];
    try (subst; done).
  - by constructor.
  - econstructor; [done..|]. apply IH. intros ->. apply origin_parent_ancestor in Hp. by apply (Hanc e He).
Qed.

Lemma link_block_spec L N B e0 :
  mirror L N B → causal c (L ++ [e0]) → (∀ e, e ∈ N → e ∈ L) → ref_of e0 ∉ dom B →
  (∀ e, e ∈ L → ref_of e0 ∉ b_ancestors e.1) → mirror (L ++ [e0]) N (link_block e0.2 B e0.1).
Proof using.
  intros Hm Hc HN Hnew Hanc. unfold link_block. fold (ref_of e0). cbv zeta.
  assert (ref_of e0 ∉ b_ancestors e0.1) as Hself.
  { intros Ha. pose proof (po_rounds c e0 (ca_placed c _ Hc e0 ltac:(set_solver)) _ Ha). unfold ref_of in *. simpl in *. lia. }
  rewrite link_ancestors_lookup, decide_False by done. pose proof Hnew as ->%not_elem_of_dom.
  set (B' := <[_ := _]> _).
  assert (∀ r, r ≠ ref_of e0 → B' !! r = if decide (r ∈ b_ancestors e0.1) then add_child (ref_of e0) <$> B !! r else B !! r) as Hold.
  { intros r Hr. unfold B'. rewrite lookup_insert_ne by done. apply link_ancestors_lookup. }
  assert (B' !! ref_of e0 = Some (BlockState_new e0.1 e0.2)) as Hat by apply lookup_insert_eq.
  assert (∀ e, e ∈ L → ref_of e ≠ ref_of e0) as Hne by (intros e He Heq; apply Hnew; rewrite <- Heq; by apply (mi_dom L N B Hm)).
  assert (∀ r st, r ≠ ref_of e0 → B' !! r = Some st → ∃ st0, B !! r = Some st0 ∧ bs_block st = bs_block st0 ∧
    bs_commit_index st = bs_commit_index st0 ∧ bs_reject_votes st = bs_reject_votes st0 ∧
    bs_origin_descendants st = bs_origin_descendants st0 ∧
    ∀ r', r' ∈ bs_children st ↔ r' ∈ bs_children st0 ∨ r' = ref_of e0 ∧ r ∈ b_ancestors e0.1) as Hst.
  { intros r st Hr. rewrite Hold by done. destruct (decide _) as [Ha|Ha].
    - destruct (B !! r) as [st0|]; [|done]. intros [= <-]. exists st0. repeat (split; [done|]). simpl. set_solver.
    - intros Hr'. exists st. repeat (split; [done|]). naive_solver. }
  split.
  - intros r st Hr. destruct (decide (r = ref_of e0)) as [->|Hr0].
    { rewrite Hat in Hr. injection Hr as <-. exists e0. split; [set_solver|]. done. }
    destruct (Hst r st Hr0 Hr) as (st0 & H0 & -> & -> & -> & _). destruct (mi_block L N B Hm r st0 H0) as (e & He & ?).
    exists e. split; [set_solver|done].
  - intros e [He| ->%list_elem_of_singleton]%elem_of_app; [|by apply elem_of_dom_2 in Hat].
    pose proof (mi_dom L N B Hm e He) as [st0 H0]%elem_of_dom. apply elem_of_dom. rewrite Hold by (by apply Hne).
    rewrite H0. destruct (decide _); by eexists.
  - intros r st r' Hr. setoid_rewrite elem_of_app. setoid_rewrite list_elem_of_singleton.
    destruct (decide (r = ref_of e0)) as [->|Hr0].
    + rewrite Hat in Hr. injection Hr as <-. simpl. split; [set_solver|]. intros (e & [He| ->] & _ & Ha); [by apply Hanc in Ha|done].
    + destruct (Hst r st Hr0 Hr) as (st0 & H0 & _ & _ & _ & _ & ->). rewrite (mi_children L N B Hm r st0 r' H0). naive_solver.
  - intros r st r' Hr. unfold origin_above. destruct (decide (r = ref_of e0)) as [->|Hr0].
    + rewrite Hat in Hr. injection Hr as <-. simpl. split; [set_solver|]. intros (e & He%HN & _ & x & Hp & Hch).
      apply chain_from_fresh in Hch; [|done|done|].
      { apply chain_from_end in Hch as (e1 & He1 & Hr1 & _). by apply Hne in Hr1. }
      intros ->. apply origin_parent_ancestor in Hp. by apply Hanc in Hp.
    + destruct (Hst r st Hr0 Hr) as (st0 & H0 & _ & _ & _ & -> & _). rewrite (mi_origin L N B Hm r st0 r' H0). unfold origin_above.
      assert (∀ e x, e ∈ N → origin_parent e.1 = Some x → chain_from (L ++ [e0]) (b_author e.1) x r ↔ chain_from L (b_author e.1) x r) as Hch.
      { intros e x He%HN Hp. apply chain_from_fresh; [done|done|]. intros ->. apply origin_parent_ancestor in Hp. by apply Hanc in Hp. }
      split; intros (e & He & Hr' & x & Hp & Hx); exists e; (split; [done|]); (split; [done|]); exists x; (split; [done|]); by apply (Hch e x).
Qed.

(** Blocks linked in the order of their rounds. *)
Lemma link_blocks_spec k (blocks : list VerifiedBlock) L N B :
  mirror L N B → (∀ e, e ∈ N → e ∈ L) → causal c (L ++ ((., k) <$> blocks)) → NoDup (reference <$> blocks) →
  (∀ b, b ∈ blocks → reference b ∉ dom B) →
  (∀ e b, e ∈ L → b ∈ blocks → reference b ∉ b_ancestors e.1) →
  StronglySorted (λ a b : VerifiedBlock, b_round a ≤ b_round b) blocks →
  mirror (L ++ ((., k) <$> blocks)) N (foldl (link_block k) B blocks).
Proof using.
  revert L B. induction blocks as [|b blocks IH]; intros L B Hm HN Hc Hnd Hdom Hanc Hsort; [by rewrite app_nil_r|].
  rewrite fmap_cons in Hc |- *. rewrite fmap_cons in Hnd. apply NoDup_cons in Hnd as [Hb Hnd]. apply StronglySorted_cons in Hsort as [Hle Hsort].
  rewrite Forall_forall in Hle. cbn [foldl]. rewrite cons_middle, (assoc_L (++)) in Hc |- *.
  assert (mirror (L ++ [(b, k)]) N (link_block k B b)) as Hm1.
  { apply (link_block_spec L N B (b, k)); [done| |done|apply Hdom; by left|intros e He; apply Hanc; [done|by left]].
    eapply causal_sub; [exact Hc|]. intros e He. apply elem_of_app. by left. }
  assert (∀ b', b' ∈ blocks → reference b' ≠ reference b) as Hne.
  { intros b' Hb' Heq. apply Hb. rewrite <- Heq. by apply list_elem_of_fmap_2. }
  apply IH; [done|set_solver|done|done| | |done].
  - intros b' Hb' [st Hst]%elem_of_dom. destruct (mi_block _ _ _ Hm1 _ _ Hst) as (e & He & Hr & _).
    apply elem_of_app in He as [He| ->%list_elem_of_singleton]; [|by apply (Hne b')].
    apply (Hdom b'); [by right|]. rewrite <- Hr. by apply (mi_dom L N B Hm).
  - intros e b' [He| ->%list_elem_of_singleton]%elem_of_app Hb'; [apply Hanc; [done|by right]|]. simpl. intros Ha.
    assert ((b, k) ∈ (L ++ [(b, k)]) ++ ((., k) <$> blocks)) as Hin by set_solver.
    pose proof (po_rounds c _ (ca_placed c _ Hc _ Hin) _ Ha) as Hlt. specialize (Hle b' Hb'). simpl in *. lia.
Qed.

End Link.

(** ** Announcing a block to the blocks of its origin *)

Section Origin.
Context (c : Committee) (L : list placed) (Hc : causal c L).

Definition shape (B : gmap BlockRef BlockState) : Prop :=
  (∀ r st, B !! r = Some st → ∃ e, e ∈ L ∧ ref_of e = r ∧ bs_block st = e.1) ∧ ∀ e, e ∈ L → ref_of e ∈ dom B.

(** [B'] is [B] with [new] pushed to the blocks that satisfy [P]. *)
Definition pushed (P : BlockRef → Prop) (new : BlockRef) (B B' : gmap BlockRef BlockState) : Prop :=
  (∀ e, e ∈ L → ref_of e ∈ dom B') ∧
  ∀ q st', B' !! q = Some st' →
    ∃ st, B !! q = Some st ∧ (P q ∧ st' = push_origin_descendant new st ∨ ¬ P q ∧ st' = st).

Lemma pushed_none (P : BlockRef → Prop) new B : shape B → (∀ q, ¬ P q) → pushed P new B B.
Proof using. intros [_ Hd] HP. split; [done|]. intros q st' Hq. exists st'. naive_solver. Qed.

Lemma chain_from_unfold a e x q :
  e ∈ L → b_author e.1 = a → origin_parent e.1 = Some x →
  chain_from L a (ref_of e) q ↔ q = ref_of e ∨ chain_from L a x q.
Proof using Hc.
  intros He Ha Hp. split; [|intros [->|Hx]; [by constructor|by eapply chain_next]].
  remember (ref_of e) as r eqn:Hr. intros Hch. destruct Hch as [e' He' _|e' x' q He' _ Hp' Hch]; [by left|right].
  pose proof (ca_refs c L Hc e' e He' He Hr) as ->. congruence.
Qed.

Lemma origin_loop_spec fuel new x B :
  shape B → (N.to_nat (br_round x) < fuel)%nat →
  ∃ B', origin_loop fuel new x B = Ret B' ∧ pushed (chain_from L (br_author new) x) new B B'.
Proof using Hc.
  revert x B. induction fuel as [|fuel IH]; intros x B Hs Hf; [lia|]. cbn [origin_loop].
  destruct (N.eqb_spec (br_author x) (br_author new)) as [Ha|Ha].
  2: { exists B. split; [done|]. apply pushed_none; [done|]. intros q Hch.
       inversion Hch; subst; apply Ha; unfold ref_of; simpl; congruence. }
  destruct (B !! x) as [st|] eqn:Hx.
  2: { exists B. split; [done|]. apply pushed_none; [done|]. intros q (e & He & Hr)%chain_from_start.
       destruct Hs as [_ Hd]. specialize (Hd e He). rewrite Hr in Hd. by apply not_elem_of_dom in Hx. }
  destruct (proj1 Hs x st Hx) as (e & He & <- & Hb).
  destruct (ca_placed c L Hc e He) as [_ Hrounds [y Hy]]. unfold first_ancestor. rewrite Hb. fold (origin_parent e.1). rewrite Hy.
  cbn [expect mbind M_bind]. pose proof (Hrounds y (origin_parent_ancestor _ _ Hy)) as Hlt.
  set (B1 := <[_ := _]> B).
  assert (shape B1) as Hs1.
  { destruct Hs as [Hs Hd]. split.
    - intros r st' Hr. unfold B1 in Hr. apply lookup_insert_Some in Hr as [[<- <-]|[_ Hr]]; [by exists e|by apply Hs].
    - intros e' He'. unfold B1. rewrite dom_insert_L. set_solver. }
  destruct (IH y B1 Hs1) as (B' & -> & Hd & Hp); [unfold ref_of in Hf; simpl in Hf; lia|].
  exists B'. split; [done|]. split; [done|]. intros q st' Hq. destruct (Hp q st' Hq) as (st1 & Hst1 & Hcase).
  assert (chain_from L (br_author new) (ref_of e) q ↔ q = ref_of e ∨ chain_from L (br_author new) y q) as Hiff.
  { by apply chain_from_unfold. }
  unfold B1 in Hst1. apply lookup_insert_Some in Hst1 as [[<- <-]|[Hne Hst1]].
  - exists st. split; [done|]. destruct Hcase as [[Hch _]|[_ ->]]; [|left; split; [apply Hiff; by left|done]].
    pose proof (chain_from_round c L _ _ _ Hc Hch). unfold ref_of in *. simpl in *. lia.
  - exists st1. split; [done|]. destruct Hcase as [[Hch ->]|[Hch ->]]; [left|right]; (split; [|done]); rewrite Hiff; naive_solver.
Qed.

Lemma append_origin_spec N B e0 :
  mirror L N B → e0 ∈ L →
  ∃ B', append_origin B e0.1 = Ret B' ∧ mirror L (N ++ [e0]) B'.
Proof using Hc.
  intros Hm He0. unfold append_origin. fold (ref_of e0).
  pose proof (mi_dom L N B Hm e0 He0) as [st0 Hst0]%elem_of_dom. rewrite Hst0. cbn [expect mbind M_bind].
  destruct (mi_block L N B Hm _ _ Hst0) as (e & He & Hr & Hb & _). pose proof (ca_refs c L Hc e e0 He He0 Hr) as ->.
  destruct (ca_placed c L Hc e0 He0) as [_ _ [y Hy]]. unfold first_ancestor. rewrite Hb. fold (origin_parent e0.1). rewrite Hy.
  cbn [expect mbind M_bind].
  destruct (origin_loop_spec (Datatypes.S (N.to_nat (br_round y))) (ref_of e0) y B) as (B' & -> & Hd & Hp); [|lia|].
  { split; [|apply (mi_dom L N B Hm)]. intros r st Hr'. destruct (mi_block L N B Hm r st Hr') as (e & ? & ? & ? & _). by exists e. }
  exists B'. split; [done|]. change (br_author (ref_of e0)) with (b_author e0.1) in Hp. split.
  - intros r st' Hr'. destruct (Hp r st' Hr') as (st & Hst & [[_ ->]|[_ ->]]); exact (mi_block L N B Hm r st Hst).
  - done.
  - intros r st' r' Hr'. destruct (Hp r st' Hr') as (st & Hst & [[_ ->]|[_ ->]]); exact (mi_children L N B Hm r st r' Hst).
  - intros r st' r' Hr'. setoid_rewrite elem_of_app. setoid_rewrite list_elem_of_singleton.
    assert (origin_above L e0.1 r ↔ chain_from L (b_author e0.1) y r) as Habove.
    { unfold origin_above. rewrite Hy. split; [by intros (x & [= <-] & ?)|by eauto]. }
    destruct (Hp r st' Hr') as (st & Hst & [[Hch ->]|[Hch ->]]); cbn [bs_origin_descendants push_origin_descendant];
      rewrite ?elem_of_app, ?list_elem_of_singleton, (mi_origin L N B Hm r st r' Hst); naive_solver.
Qed.

Lemma append_origins_spec l N B :
  mirror L N B → (∀ e, e ∈ l → e ∈ L) →
  ∃ B', foldM append_origin B l.*1 = Ret B' ∧ mirror L (N ++ l) B'.
Proof using Hc.
  revert N B. induction l as [|e l IH]; intros N B Hm Hl; [exists B; by rewrite app_nil_r|].
  rewrite fmap_cons. cbn [foldM]. destruct (append_origin_spec N B e Hm) as (B1 & -> & Hm1); [apply Hl; left|]. cbn [mbind M_bind].
  destruct (IH _ _ Hm1) as (B' & -> & Hm'); [intros x Hx; apply Hl; by right|]. exists B'. split; [done|].
  by rewrite <- (assoc_L (++)) in Hm'.
Qed.

End Origin.

(** ** Removing the blocks of the first commits *)

Lemma delete_blocks_lookup (blocks : list VerifiedBlock) B r :
  foldl (λ m (b : VerifiedBlock), delete (reference b) m) B blocks !! r =
  if decide (r ∈ reference <$> blocks) then None else B !! r.
Proof.
  revert B. induction blocks as [|b blocks IH]; intros B; cbn [foldl]; [by rewrite decide_False by apply not_elem_of_nil|].
  rewrite IH, fmap_cons. destruct (decide (r ∈ reference <$> blocks)); [by rewrite decide_True by set_solver|].
  destruct (decide (r = reference b)) as [->|Hne].
  - rewrite lookup_delete_eq, decide_True by set_solver. done.
  - rewrite lookup_delete_ne, decide_False by set_solver. done.
Qed.

Lemma chain_from_drop c L1 L2 a x e :
  causal c (L1 ++ L2) → (∀ e1 e2, e1 ∈ L1 → e2 ∈ L2 → e1.2 < e2.2) → e ∈ L2 →
  chain_from (L1 ++ L2) a x (ref_of e) → chain_from L2 a x (ref_of e).
Proof.
  intros Hc Hlt He Hch. remember (ref_of e) as q eqn:Hq.
  assert (∀ e', e' ∈ L1 ++ L2 → chain_from (L1 ++ L2) a (ref_of e') q → e' ∈ L2) as Hin.
  { intros e' He' Hch'. assert (e.2 ≤ e'.2).
    { eapply (chain_from_commit c _ _ _ q); [done|exact Hch'|set_solver|by subst|done|done]. }
    apply elem_of_app in He' as [He'|]; [|done]. specialize (Hlt e' e He' He). lia. }
  induction Hch as [e' He' Ha|e' x q He' Ha Hp Hch IH].
  - apply chain_here; [|done]. apply Hin; [done|by constructor].
  - eapply chain_next; [|done|done|by apply IH]. apply Hin; [done|]. by eapply chain_next.
Qed.

Lemma mirror_drop c L1 L2 B (blocks : list VerifiedBlock) :
  mirror (L1 ++ L2) (L1 ++ L2) B → causal c (L1 ++ L2) → (∀ e1 e2, e1 ∈ L1 → e2 ∈ L2 → e1.2 < e2.2) →
  (∀ e, e ∈ L1 → ref_of e ∈ reference <$> blocks) → (∀ e, e ∈ L2 → ref_of e ∉ reference <$> blocks) →
  mirror L2 L2 (foldl (λ m (b : VerifiedBlock), delete (reference b) m) B blocks).
Proof.
  intros Hm Hc Hlt Hbl1 Hbl2. set (B' := foldl _ _ _).
  assert (∀ r st, B' !! r = Some st → B !! r = Some st ∧ ∃ e, e ∈ L2 ∧ ref_of e = r) as Hsub.
  { intros r st. unfold B'. rewrite delete_blocks_lookup. destruct (decide _) as [|Hr]; [done|]. intros Hst. split; [done|].
    destruct (mi_block _ _ _ Hm r st Hst) as (e & [He|He]%elem_of_app & Hr' & _); [|by exists e].
    destruct Hr. rewrite <- Hr'. by apply Hbl1. }
  assert (∀ e e', e ∈ L2 → e' ∈ L1 → ref_of e ∈ b_ancestors e'.1 → False) as Hno.
  { intros e e' He He' Ha. pose proof (ca_order c _ Hc e e' ltac:(set_solver) ltac:(set_solver) Ha). specialize (Hlt e' e He' He). lia. }
  split.
  - intros r st Hr. destruct (Hsub r st Hr) as (Hst & e2 & He2 & Hr2). destruct (mi_block _ _ _ Hm r st Hst) as (e & He & Hr' & ?).
    exists e. split; [|done]. rewrite (ca_refs c _ Hc e e2); [done|done|set_solver|congruence].
  - intros e He. apply elem_of_dom. unfold B'. rewrite delete_blocks_lookup, decide_False.
    + apply elem_of_dom, (mi_dom _ _ _ Hm). set_solver.
    + by apply Hbl2.
  - intros r st r' Hr. destruct (Hsub r st Hr) as (Hst & e2 & He2 & <-). rewrite (mi_children _ _ _ Hm _ st r' Hst).
    setoid_rewrite elem_of_app. split; [|naive_solver]. intros (e & [He|He] & Hr' & Ha); [by destruct (Hno e2 e)|by exists e].
  - intros r st r' Hr. destruct (Hsub r st Hr) as (Hst & e2 & He2 & <-). rewrite (mi_origin _ _ _ Hm _ st r' Hst). split.
    + intros (e & He & Hr' & x & Hp & Hch). apply (chain_from_drop c) in Hch; [|done..].
      destruct (chain_from_start _ _ _ _ Hch) as (e1 & He1 & <-). exists e. split; [|by split; [|exists (ref_of e1)]].
      apply elem_of_app in He as [He|]; [|done]. apply origin_parent_ancestor in Hp. by destruct (Hno e1 e).
    + intros (e & He & Hr' & x & Hp & Hch). exists e. split; [set_solver|]. split; [done|]. exists x. split; [done|].
      eapply chain_from_mono; [|exact Hch]. set_solver.
Qed.
