(* ===== verification/FinalizerReasons.v ===== *)
(** * Why the commit finalizer finalizes or rejects a transaction

    A transaction of a pending commit is pending, rejected for a reason, or finalized for a reason:
    no authority was known to reject it, or a quorum of authorities accept it in committed blocks above;
    it is rejected when a quorum rejects it, or when a commit three rounds
    later has arrived without a quorum to accept it.  Each operation on a commit keeps this. *)

From S2P Require Import Prelude BTree Config Block Commit Store StakeAggregator ThresholdClock.
From S2P Require Import LeaderScoring DagState TransactionVoteTracker VoteTrackerTheory.
From S2P Require Import CommitFinalizer FinalizerVotes FinalizerLinks.
Local Open Scope N_scope.

Definition txs (m : gmap BlockRef (gset TransactionIndex)) (R : BlockRef) : gset TransactionIndex := default ∅ (m !! R).
Definition num_transactions (b : VerifiedBlock) : N := N.of_nat (length (b_transactions b)).

(** Block [r] of a list of blocks descends from [R] through the list. *)
Inductive reaches (blocks : list VerifiedBlock) (R : BlockRef) : BlockRef → Prop :=
| reaches_parent (b : VerifiedBlock) : b ∈ blocks → R ∈ b_ancestors b → reaches blocks R (reference b)
| reaches_step (b : VerifiedBlock) r : b ∈ blocks → reaches blocks R r → r ∈ b_ancestors b → reaches blocks R (reference b).

Definition commit_index (commit : CommittedSubDag) : CommitIndex := cr_index (sd_commit_ref commit).
Definition placed_in (hist : list CommittedSubDag) : list (VerifiedBlock * CommitIndex) :=
  hist ≫= λ commit, (., commit_index commit) <$> sd_blocks commit.

Definition leader_of (commit : CommittedSubDag) : Round := br_round (sd_leader commit).

Section Reasons.
Context (c : Committee) (depth : Round).
Implicit Types (seen : list VoteTrackerState) (hist : list CommittedSubDag) (cs : CommitState).

(** A quorum of authorities have a committed block that descends from [R] and does not reject [i]. *)
Definition certified hist (R : BlockRef) (i : TransactionIndex) : Prop :=
  ∃ Q : list VerifiedBlock,
    (∀ q, q ∈ Q → reaches (hist ≫= sd_blocks) R (reference q) ∧ q ∈ hist ≫= sd_blocks ∧ i ∉ txs (rejects_of q) R) ∧
    is_quorum c (list_to_set ((λ q : VerifiedBlock, b_author q) <$> Q)).

(** No reject vote on [i] was known, and the blocks that certify the leader have voted on [R]. *)
Definition unopposed seen (leader : Round) (R : BlockRef) (i : TransactionIndex) : Prop :=
  ∃ t votes, t ∈ seen ∧ TransactionVoteTracker_get_reject_votes t R = Some votes ∧ i ∉ votes.*1 ∧
    leader + INDIRECT_REJECT_DEPTH - depth < br_round R.

Definition accepted seen hist (leader : Round) (R : BlockRef) (i : TransactionIndex) : Prop :=
  unopposed seen leader R i ∨ certified hist R i.

Definition outvoted seen (R : BlockRef) (i : TransactionIndex) : Prop :=
  ∃ t votes stake, t ∈ seen ∧ TransactionVoteTracker_get_reject_votes t R = Some votes ∧ (i, stake) ∈ votes ∧
    Committee_quorum_threshold c ≤ stake.

(** In the consecutive commits [window], no quorum of first votes accepts [i]. *)
Definition unaccepted (window : list CommittedSubDag) (R : BlockRef) (i : TransactionIndex) : Prop :=
  ∃ B st, mirror (placed_in window) (placed_in window) B ∧ B !! R = Some st ∧
    ¬ is_quorum c (accepters B ((λ commit, (commit_index commit, leader_of commit - depth)) <$> window) R (bs_commit_index st) i).

(** A commit three rounds later has arrived, and the commits up to it do not accept [i]. *)
Definition expired hist (commit : CommittedSubDag) (R : BlockRef) (i : TransactionIndex) : Prop :=
  ∃ before window after later, hist = before ++ window ++ after ∧ head window = Some commit ∧ last window = Some later ∧
    leader_of commit + INDIRECT_REJECT_DEPTH ≤ leader_of later ∧ unaccepted window R i.

Definition refused seen hist (commit : CommittedSubDag) (R : BlockRef) (i : TransactionIndex) : Prop :=
  outvoted seen R i ∨ expired hist commit R i.

Definition fresh_state (commit : CommittedSubDag) : CommitState :=
  mkCommitState commit
    (bmap_collect ((λ b : VerifiedBlock, (reference b, num_transactions b)) <$> sd_blocks commit)) ∅ ∅.

(** Transaction [i] of a block of the commit. *)
Definition transaction_in (commit : CommittedSubDag) (R : BlockRef) (i : TransactionIndex) : Prop :=
  ∃ b : VerifiedBlock, b ∈ sd_blocks commit ∧ reference b = R ∧ i < num_transactions b.

Record cs_ok seen hist cs : Prop := {
  co_fresh : cs_pending_blocks cs = ∅ ∨ cs = fresh_state (cs_commit cs);
  co_pending : ∀ R i, i ∈ txs (cs_pending_transactions cs) R → transaction_in (cs_commit cs) R i;
  co_rejected : ∀ R i, i ∈ txs (cs_rejected_transactions cs) R →
    transaction_in (cs_commit cs) R i ∧ refused seen hist (cs_commit cs) R i;
  co_accepted : ∀ R i, cs_pending_blocks cs = ∅ → transaction_in (cs_commit cs) R i →
    i ∉ txs (cs_pending_transactions cs) R → i ∉ txs (cs_rejected_transactions cs) R →
    accepted seen hist (leader_round cs) R i;
  co_pending_keys : ∀ R, R ∈ dom (cs_pending_transactions cs) → R ∈ reference <$> sd_blocks (cs_commit cs);
}.

Lemma reaches_mono blocks blocks' R r : (∀ b, b ∈ blocks → b ∈ blocks') → reaches blocks R r → reaches blocks' R r.
Proof. intros Hb. induction 1; [apply reaches_parent|eapply reaches_step]; eauto. Qed.

Lemma certified_mono hist hist' R i : hist ⊆ hist' → certified hist R i → certified hist' R i.
Proof.
  intros Hh (Q & HQ & Hq). exists Q. split; [|done]. intros q (H1 & H2 & H3)%HQ.
  assert (∀ b, b ∈ hist ≫= sd_blocks → b ∈ hist' ≫= sd_blocks) as Hb.
  { intros b. rewrite !list_elem_of_bind. intros (cm & ? & ?). exists cm. auto. }
  split; [by eapply reaches_mono|]. auto.
Qed.

Lemma accepted_mono seen seen' hist hist' leader R i :
  seen ⊆ seen' → hist ⊆ hist' → accepted seen hist leader R i → accepted seen' hist' leader R i.
Proof.
  intros Hs Hh [(t & votes & Ht & ?)|Hc]; [left; exists t, votes; auto|right; by eapply certified_mono].
Qed.

Lemma refused_mono seen seen' hist new commit R i :
  seen ⊆ seen' → refused seen hist commit R i → refused seen' (hist ++ new) commit R i.
Proof.
  intros Hs [(t & votes & stake & Ht & ?)|(b & w & a & l & -> & ?)]; [left; exists t, votes, stake; auto|right].
  exists b, w, (a ++ new), l. by rewrite <- !(assoc_L (++)).
Qed.

Lemma cs_ok_mono seen seen' hist new cs : seen ⊆ seen' → cs_ok seen hist cs → cs_ok seen' (hist ++ new) cs.
Proof.
  intros Hs [H1 H2 H3 H4 H5]. split; [done|done| | |done].
  - intros R i Hi. destruct (H3 R i Hi). split; [done|by eapply refused_mono].
  - intros R i ????. eapply (accepted_mono seen _ hist); [done|set_solver|]. eauto.
Qed.

Lemma fresh_nonempty commit : sd_blocks commit ≠ [] → cs_pending_blocks (fresh_state commit) ≠ ∅.
Proof.
  cbn [fresh_state cs_pending_blocks]. intros Hne. destruct (sd_blocks commit) as [|b l] using rev_ind; [done|].
  unfold bmap_collect. rewrite fmap_app, foldl_app. simpl. apply insert_non_empty.
Qed.

Lemma fresh_ok seen hist commit : sd_blocks commit ≠ [] → cs_ok seen hist (fresh_state commit).
Proof.
  intros Hne. split; [by right|..]; unfold txs; simpl.
  - intros R i. rewrite lookup_empty. simpl. set_solver.
  - intros R i. rewrite lookup_empty. simpl. set_solver.
  - intros R i He. by apply fresh_nonempty in He.
  - intros R. rewrite dom_empty_L. set_solver.
Qed.

(** ** Moving transactions *)

Lemma txs_extend m R s R' : txs (extend_entry m R s) R' = if decide (R' = R) then txs m R ∪ s else txs m R'.
Proof.
  unfold txs, extend_entry. destruct (decide (R' = R)) as [->|Hne]; [by rewrite lookup_insert_eq|by rewrite lookup_insert_ne by done].
Qed.

Lemma dom_extend m R s : dom (extend_entry m R s) = {[R]} ∪ dom m.
Proof. unfold extend_entry. by rewrite dom_insert_L. Qed.

Lemma remove_all_elem (l : list TransactionIndex) (p : gset TransactionIndex) i :
  i ∈ foldl (λ p t, p ∖ {[t]}) p l ↔ i ∈ p ∧ i ∉ l.
Proof. revert p. induction l as [|t l IH]; intros p; simpl; [set_solver|]. rewrite IH. set_solver. Qed.

Lemma remove_pending_spec cs R l :
  let cs' := CommitState_remove_pending_transactions cs R l in
  cs_commit cs' = cs_commit cs ∧ cs_pending_blocks cs' = cs_pending_blocks cs ∧
  cs_rejected_transactions cs' = cs_rejected_transactions cs ∧
  dom (cs_pending_transactions cs') ⊆ dom (cs_pending_transactions cs) ∧
  ∀ R' i, i ∈ txs (cs_pending_transactions cs') R' ↔ i ∈ txs (cs_pending_transactions cs) R' ∧ ¬ (R' = R ∧ i ∈ l).
Proof.
  unfold CommitState_remove_pending_transactions. destruct (cs_pending_transactions cs !! R) as [p|] eqn:E; cbv zeta.
  - repeat (split; [done|]). pose proof (remove_all_elem l p) as Hp. set (p' := foldl _ p l) in *. cbn [cs_pending_transactions set_pending_transactions].
    split.
    { destruct (decide _); [rewrite dom_delete_L|rewrite dom_insert_L; apply elem_of_dom_2 in E]; set_solver. }
    intros R' i. unfold txs. destruct (decide (R' = R)) as [->|Hne].
    + rewrite E. specialize (Hp i). destruct (decide (p' = ∅)) as [He|_].
      * rewrite lookup_delete_eq. simpl. set_solver.
      * rewrite lookup_insert_eq. simpl. rewrite Hp. naive_solver.
    + destruct (decide _); [rewrite lookup_delete_ne by done|rewrite lookup_insert_ne by done]; naive_solver.
  - repeat (split; [done|]). intros R' i. split; [|tauto]. intros Hi. split; [done|]. intros [-> _]. unfold txs in Hi. rewrite E in Hi. set_solver.
Qed.

(** Finalizing accepted transactions. *)
Lemma cs_ok_accept seen hist cs R l :
  cs_ok seen hist cs → (∀ i, i ∈ l → accepted seen hist (leader_round cs) R i) →
  cs_ok seen hist (CommitState_remove_pending_transactions cs R l).
Proof.
  intros [H1 H2 H3 H4 H5] Hl. destruct (remove_pending_spec cs R l) as (Ec & Eb & Er & Hd & Hp).
  set (cs' := CommitState_remove_pending_transactions cs R l) in *.
  assert (leader_round cs' = leader_round cs) as El by (unfold leader_round; by rewrite Ec).
  split; rewrite ?Ec, ?Eb, ?Er, ?El.
  - destruct H1 as [H1|H1]; [by left|]. right. subst cs'. rewrite H1. unfold CommitState_remove_pending_transactions. simpl.
    rewrite lookup_empty. done.
  - intros R' i [Hi _]%Hp. by apply H2.
  - done.
  - intros R' i Hb Ht Hnp Hnr. destruct (decide (R' = R ∧ i ∈ l)) as [[-> Hi]|Hn]; [by apply Hl|].
    apply H4; [done|done| |done]. intros Hi. apply Hnp, Hp. done.
  - intros R' HR. apply H5. set_solver.
Qed.

(** Rejecting transactions. *)
Lemma cs_ok_reject seen hist cs R l :
  cs_ok seen hist cs → cs_pending_blocks cs = ∅ →
  (∀ i, i ∈ l → transaction_in (cs_commit cs) R i ∧ refused seen hist (cs_commit cs) R i) →
  cs_ok seen hist (reject_transactions cs (R, l)).
Proof.
  intros [H1 H2 H3 H4 H5] Hb Hl. destruct (remove_pending_spec cs R l) as (Ec & Eb & Er & Hd & Hp).
  unfold reject_transactions. cbn [fst snd]. set (cs' := CommitState_remove_pending_transactions cs R l) in *. rewrite Er.
  set (cs2 := set_rejected_transactions _ _).
  assert (leader_round cs2 = leader_round cs) as El by (unfold leader_round; simpl; by rewrite Ec).
  split; cbn [cs_commit cs_pending_blocks cs_pending_transactions cs_rejected_transactions set_rejected_transactions cs2];
    fold cs2; rewrite ?Ec, ?Eb, ?El.
  - by left.
  - intros R' i [Hi _]%Hp. by apply H2.
  - intros R' i. rewrite txs_extend. destruct (decide (R' = R)) as [->|]; [|apply H3].
    rewrite elem_of_union, elem_of_list_to_set. intros [Hi|Hi]; [by apply H3|by apply Hl].
  - intros R' i _ Ht Hnp Hnr. rewrite txs_extend in Hnr. apply H4; [done|done| |].
    + intros Hi. apply Hnp, Hp. split; [done|]. intros [-> Hin]. apply Hnr. rewrite decide_True by done. set_solver.
    + intros Hi. apply Hnr. destruct (decide (R' = R)) as [->|]; [set_solver|done].
  - intros R' HR. apply H5. set_solver.
Qed.

End Reasons.

(** ** Direct finalization *)

(** The tracker knows the votes on the blocks of a commit, and they are on transactions of the blocks. *)
Definition covers (t : VoteTrackerState) (commit : CommittedSubDag) : Prop :=
  ∀ b, b ∈ sd_blocks commit →
    ∃ votes, TransactionVoteTracker_get_reject_votes t (reference b) = Some votes ∧
      ∀ i, i ∈ votes.*1 → i < num_transactions b.

Record commit_ok (c : Committee) (commit : CommittedSubDag) : Prop := {
  cm_blocks : sd_blocks commit ≠ [];
  cm_refs : NoDup (reference <$> sd_blocks commit);
  cm_authors : ∀ b : VerifiedBlock, b ∈ sd_blocks commit → b_author b ∈ members c;
  cm_leader : br_round (sd_leader commit) + INDIRECT_REJECT_DEPTH < 2 ^ 32;
  cm_transactions : ∀ b, b ∈ sd_blocks commit → num_transactions b < 2 ^ 16;
  cm_undecided : sd_rejected_transactions_by_block commit = ∅;
}.

Lemma direct_votes_spec q R votes cs :
  let cs' := foldl (direct_vote q R) cs votes in
  cs_commit cs' = cs_commit cs ∧ cs_pending_blocks cs' = cs_pending_blocks cs ∧
  dom (cs_pending_transactions cs') ⊆ {[R]} ∪ dom (cs_pending_transactions cs) ∧
  (∀ R' i, i ∈ txs (cs_pending_transactions cs') R' ↔
     i ∈ txs (cs_pending_transactions cs) R' ∨ R' = R ∧ ∃ st, (i, st) ∈ votes ∧ st < q) ∧
  (∀ R' i, i ∈ txs (cs_rejected_transactions cs') R' ↔
     i ∈ txs (cs_rejected_transactions cs) R' ∨ R' = R ∧ ∃ st, (i, st) ∈ votes ∧ q ≤ st).
Proof.
  revert cs. induction votes as [|[j st] votes IH]; intros cs; cbv zeta; cbn [foldl].
  - do 3 (split; [set_solver|]). split; intros R' i; (split; [tauto|]); intros [|(_ & ? & []%not_elem_of_nil & _)]; done.
  - destruct (IH (direct_vote q R cs (j, st))) as (H1 & H2 & H3 & H4 & H5). rewrite H1, H2.
    unfold direct_vote in *. cbn [fst snd] in *. destruct (N.ltb_spec st q) as [Hlt|Hge]; (split; [done|]); (split; [done|]); split.
    + simpl in H3. rewrite dom_extend in H3. set_solver.
    + split; intros R' i; [rewrite H4|rewrite H5]; simpl.
      * rewrite txs_extend. setoid_rewrite elem_of_cons. destruct (decide (R' = R)) as [->|]; [|naive_solver].
        rewrite elem_of_union, elem_of_singleton. naive_solver.
      * setoid_rewrite elem_of_cons. naive_solver lia.
    + simpl in H3. set_solver.
    + split; intros R' i; [rewrite H4|rewrite H5]; simpl.
      * setoid_rewrite elem_of_cons. naive_solver lia.
      * rewrite txs_extend. setoid_rewrite elem_of_cons. destruct (decide (R' = R)) as [->|]; [|naive_solver].
        rewrite elem_of_union, elem_of_singleton. naive_solver.
Qed.

Lemma all_transactions_elem n i : n < 2 ^ 16 → i ∈ all_transactions n ↔ i < n.
Proof.
  intros Hn. unfold all_transactions. rewrite N.mod_small by done. rewrite elem_of_list_to_set, list_elem_of_fmap. split.
  - intros (k & -> & Hk%elem_of_seq). lia.
  - intros Hi. exists (N.to_nat i). rewrite elem_of_seq. lia.
Qed.

Section Direct.
Context `{Profile} (ctx : Context) (depth : Round) (t : VoteTrackerState) (commit : CommittedSubDag).
Local Abbreviation c := (ctx_committee ctx).
Context (Hcm : commit_ok c commit) (Hcov : covers t commit).
Local Abbreviation leader := (leader_of commit).
Local Abbreviation vote_gc_round := (leader + INDIRECT_REJECT_DEPTH - depth).

(** What direct finalization decides on a block. *)
Record block_decided (b : VerifiedBlock) (cs : CommitState) : Prop := {
  bd_pending : ∀ i, i ∈ txs (cs_pending_transactions cs) (reference b) → i < num_transactions b;
  bd_rejected : ∀ i, i ∈ txs (cs_rejected_transactions cs) (reference b) → i < num_transactions b ∧ outvoted c [t] (reference b) i;
  bd_accepted : ∀ i, i < num_transactions b → i ∉ txs (cs_pending_transactions cs) (reference b) →
    i ∉ txs (cs_rejected_transactions cs) (reference b) → unopposed depth [t] leader (reference b) i;
}.

Definition same_outside (R : BlockRef) (cs cs' : CommitState) : Prop :=
  cs_commit cs' = cs_commit cs ∧ cs_pending_blocks cs' = cs_pending_blocks cs ∧
  dom (cs_pending_transactions cs') ⊆ {[R]} ∪ dom (cs_pending_transactions cs) ∧
  ∀ R', R' ≠ R → (∀ i, i ∈ txs (cs_pending_transactions cs') R' ↔ i ∈ txs (cs_pending_transactions cs) R') ∧
    (∀ i, i ∈ txs (cs_rejected_transactions cs') R' ↔ i ∈ txs (cs_rejected_transactions cs) R').

Lemma direct_block_spec cs b :
  b ∈ sd_blocks commit → txs (cs_pending_transactions cs) (reference b) = ∅ →
  txs (cs_rejected_transactions cs) (reference b) = ∅ →
  ∃ cs', direct_block ctx t vote_gc_round cs (reference b, num_transactions b) = Ret cs' ∧
    same_outside (reference b) cs cs' ∧ block_decided b cs'.
Proof using Hcm Hcov.
  intros Hb Hp Hr. unfold direct_block. destruct (Hcov b Hb) as (votes & Hv & Hlt).
  destruct (Committee_authority_member c (br_author (reference b))) as [a Ha]; [by apply (cm_authors c commit Hcm)|].
  pose proof (cm_transactions c commit Hcm b Hb) as Hn. destruct (andb _ _) eqn:E.
  - rewrite Ha. cbn [mbind M_bind]. eexists. split; [done|]. apply andb_true_iff in E as [Hle Hpos]. nbool. split.
    + split; [done|]. split; [done|]. split; [simpl; rewrite dom_extend; done|]. intros R' Hne. simpl.
      rewrite txs_extend, decide_False by done. done.
    + assert (∀ i, i ∈ txs (extend_entry (cs_pending_transactions cs) (reference b) (all_transactions (num_transactions b))) (reference b)
        ↔ i < num_transactions b) as Hall.
      { intros i. rewrite txs_extend, decide_True, Hp, union_empty_l_L by done. by apply all_transactions_elem. }
      split; cbn [cs_pending_transactions cs_rejected_transactions set_pending_transactions]; intros i; rewrite ?Hall, ?Hr; [done|set_solver|tauto].
  - unfold reject_votes_of. rewrite Hv. cbn [mbind M_bind].
    pose proof (get_reject_votes_sorted t _ _ Hv) as Hsort.
    rewrite int_sub_exact.
    2: { rewrite <- (length_fmap fst). apply increasing_length; [done|]. by apply Forall_forall. }
    cbn [mbind M_bind]. rewrite Ha. cbn [mbind M_bind]. eexists. split; [done|].
    destruct (direct_votes_spec (Committee_quorum_threshold c) (reference b) votes cs) as (H1 & H2 & H3 & H4 & H5).
    split; [split; [done|]; split; [done|]; split; [done|]; intros R' Hne; split; intros i; [rewrite H4|rewrite H5]; naive_solver|].
    assert (∀ i st, (i, st) ∈ votes → i ∈ votes.*1) as Hin by (intros i st Hin; by apply (list_elem_of_fmap_2 fst) in Hin).
    split; intros i; rewrite ?H4, ?H5, ?Hp, ?Hr.
    + intros [|(_ & st & Hst & _)]; [set_solver|]. eapply Hlt, Hin, Hst.
    + intros [|(_ & st & Hst & Hq)]; [set_solver|]. split; [eapply Hlt, Hin, Hst|]. exists t, votes, st. split; [left|done].
    + intros Hi Hnp Hnr. exists t, votes. split; [left|]. split; [done|]. split.
      * intros ([j st] & -> & Hst)%list_elem_of_fmap. simpl in *. destruct (N.ltb_spec st (Committee_quorum_threshold c)).
        { apply Hnp. right. split; [done|]. by exists st. } { apply Hnr. right. split; [done|]. by exists st. }
      * apply andb_false_iff in E as [E|E]; nbool; [done|lia].
Qed.

Lemma commit_refs_inj b b' : b ∈ sd_blocks commit → b' ∈ sd_blocks commit → reference b = reference b' → b = b'.
Proof using Hcm.
  intros [i Hi]%list_elem_of_lookup [j Hj]%list_elem_of_lookup Heq.
  assert (i = j) as ->; [|congruence]. eapply (NoDup_lookup (reference <$> sd_blocks commit) i j (reference b)).
  - apply (cm_refs c commit Hcm).
  - by rewrite list_lookup_fmap, Hi.
  - by rewrite list_lookup_fmap, Hj, Heq.
Qed.

Lemma direct_blocks_spec (es : list (BlockRef * N)) cs :
  NoDup es.*1 → (∀ e, e ∈ es → ∃ b, b ∈ sd_blocks commit ∧ e = (reference b, num_transactions b)) →
  (∀ R, R ∈ es.*1 → txs (cs_pending_transactions cs) R = ∅ ∧ txs (cs_rejected_transactions cs) R = ∅) →
  ∃ cs', foldM (direct_block ctx t vote_gc_round) cs es = Ret cs' ∧
    cs_commit cs' = cs_commit cs ∧ cs_pending_blocks cs' = cs_pending_blocks cs ∧
    (∀ R, R ∈ dom (cs_pending_transactions cs') → R ∈ dom (cs_pending_transactions cs) ∨ R ∈ es.*1) ∧
    (∀ R, R ∉ es.*1 → (∀ i, i ∈ txs (cs_pending_transactions cs') R ↔ i ∈ txs (cs_pending_transactions cs) R) ∧
       (∀ i, i ∈ txs (cs_rejected_transactions cs') R ↔ i ∈ txs (cs_rejected_transactions cs) R)) ∧
    (∀ b, b ∈ sd_blocks commit → reference b ∈ es.*1 → block_decided b cs').
Proof using Hcm Hcov.
  revert cs. induction es as [|e es IH]; intros cs Hnd Hes Hempty.
  - exists cs. split; [done|]. split; [done|]. split; [done|]. split; [by left|]. split; [done|]. intros b _ []%not_elem_of_nil.
  - destruct (Hes e ltac:(left)) as (b & Hb & ->). rewrite fmap_cons in Hnd, Hempty |- *. cbn [fst] in *.
    apply NoDup_cons in Hnd as [Hnin Hnd]. cbn [foldM].
    destruct (direct_block_spec cs b Hb) as (cs1 & -> & (Ec & Eb & Hd & Hs) & Hdec); [apply Hempty; left..|]. cbn [mbind M_bind].
    destruct (IH cs1 Hnd) as (cs' & -> & Ec' & Eb' & Hd' & Hs' & Hdec').
    { intros e He. apply Hes. by right. }
    { intros R HR. destruct (Hempty R ltac:(by right)) as [H1 H2]. destruct (Hs R) as [Hp Hr]; [by intros ->|].
      split; apply set_eq; intros i; [rewrite Hp|rewrite Hr]; set_solver. }
    exists cs'. rewrite Ec', Eb'. split; [done|]. split; [done|]. split; [done|]. split; [|split].
    + intros R [HR|HR]%Hd'; [|right; by right]. apply Hd, elem_of_union in HR as [->%elem_of_singleton|HR]; [right; left|by left].
    + intros R [Hne HR]%not_elem_of_cons. destruct (Hs R Hne) as [Hp Hr], (Hs' R HR) as [Hp' Hr'].
      split; intros i; [by rewrite Hp', Hp|by rewrite Hr', Hr].
    + intros b' Hb' [Heq|Hin]%elem_of_cons; [|by apply Hdec']. rewrite (commit_refs_inj b' b) by done.
      destruct (Hs' (reference b) Hnin) as [Hp' Hr']. destruct Hdec as [D1 D2 D3].
      split; intros i; rewrite ?Hp', ?Hr'; auto.
Qed.

End Direct.

Lemma bmap_collect_lookup {K V} `{Countable K} (l : list (K * V)) k v :
  NoDup l.*1 → bmap_collect l !! k = Some v ↔ (k, v) ∈ l.
Proof.
  intros Hnd. unfold bmap_collect. replace (foldl (λ m e, <[e.1 := e.2]> m) ∅ l) with (list_to_map (reverse l) : gmap K V).
  - rewrite <- elem_of_list_to_map, elem_of_reverse; [done|]. by rewrite fmap_reverse, reverse_Permutation.
  - clear. induction l as [|[k v] l IH] using rev_ind; [done|]. rewrite reverse_snoc, foldl_app. simpl. by rewrite IH.
Qed.

Lemma fresh_blocks_elem c commit R n :
  commit_ok c commit →
  (R, n) ∈ bmap_list (cs_pending_blocks (fresh_state commit)) ↔
  ∃ b, b ∈ sd_blocks commit ∧ R = reference b ∧ n = num_transactions b.
Proof.
  intros Hcm. rewrite bmap_list_elem. cbn [fresh_state cs_pending_blocks]. rewrite bmap_collect_lookup.
  - rewrite list_elem_of_fmap. naive_solver.
  - rewrite <- list_fmap_compose. apply (cm_refs c commit Hcm).
Qed.

Lemma fresh_blocks_keys c commit R :
  commit_ok c commit → R ∈ (bmap_list (cs_pending_blocks (fresh_state commit))).*1 ↔ R ∈ reference <$> sd_blocks commit.
Proof.
  intros Hcm. rewrite !list_elem_of_fmap. split.
  - intros ([R' n] & -> & Hin). apply (fresh_blocks_elem c) in Hin as (b & Hb & -> & _); [|done]. by exists b.
  - intros (b & -> & Hb). exists (reference b, num_transactions b). split; [done|]. apply (fresh_blocks_elem c); [done|]. by exists b.
Qed.

(** Direct finalization of a commit. *)
Lemma direct_commit_spec `{Profile} ctx depth t seen hist commit :
  commit_ok (ctx_committee ctx) commit → covers t commit →
  let cs := fresh_state commit in
  ∃ cs', foldM (direct_block ctx t (leader_of commit + INDIRECT_REJECT_DEPTH - depth)) (mkCommitState commit ∅ ∅ ∅)
           (bmap_list (cs_pending_blocks cs)) = Ret cs' ∧
    cs_commit cs' = commit ∧ cs_pending_blocks cs' = ∅ ∧ cs_ok (ctx_committee ctx) depth (seen ++ [t]) hist cs'.
Proof.
  intros Hcm Hcov. cbv zeta.
  destruct (direct_blocks_spec ctx depth t commit Hcm Hcov (bmap_list (cs_pending_blocks (fresh_state commit))) (mkCommitState commit ∅ ∅ ∅))
    as (cs' & -> & Ec & Eb & Hd & Hs & Hdec).
  { apply bmap_list_NoDup. }
  { intros [R n] (b & Hb & -> & ->)%(fresh_blocks_elem (ctx_committee ctx)); [|done]. by exists b. }
  { intros R _. done. }
  exists cs'. cbn [cs_commit cs_pending_blocks cs_pending_transactions cs_rejected_transactions] in *.
  setoid_rewrite (fresh_blocks_keys (ctx_committee ctx) commit) in Hs; [|done].
  setoid_rewrite (fresh_blocks_keys (ctx_committee ctx) commit) in Hdec; [|done].
  setoid_rewrite (fresh_blocks_keys (ctx_committee ctx) commit) in Hd; [|done].
  assert (∀ R, R ∉ reference <$> sd_blocks commit → txs (cs_pending_transactions cs') R = ∅ ∧ txs (cs_rejected_transactions cs') R = ∅) as Hout.
  { intros R HR. destruct (Hs R HR) as [H1 H2]. split; apply set_eq; intros i; [rewrite H1|rewrite H2]; unfold txs; rewrite lookup_empty; done. }
  assert (∀ R i, i ∈ txs (cs_pending_transactions cs') R ∨ i ∈ txs (cs_rejected_transactions cs') R →
    ∃ b, b ∈ sd_blocks commit ∧ reference b = R) as Hin.
  { intros R i Hi. destruct (decide (R ∈ reference <$> sd_blocks commit)) as [(b & -> & Hb)%list_elem_of_fmap|HR]; [by exists b|].
    destruct (Hout R HR) as [E1 E2]. rewrite E1, E2 in Hi. set_solver. }
  assert ([t] ⊆ seen ++ [t]) as Hseen by set_solver.
  assert (leader_round cs' = leader_of commit) as El by (unfold leader_round; by rewrite Ec).
  repeat (split; [done|]). split; rewrite ?Ec, ?El.
  - by left.
  - intros R i Hi. destruct (Hin R i ltac:(by left)) as (b & Hb & <-). exists b. split; [done|]. split; [done|].
    apply (bd_pending _ _ _ _ _ _ (Hdec b Hb ltac:(by apply list_elem_of_fmap_2))), Hi.
  - intros R i Hi. destruct (Hin R i ltac:(by right)) as (b & Hb & <-).
    destruct (bd_rejected _ _ _ _ _ _ (Hdec b Hb ltac:(by apply list_elem_of_fmap_2)) i Hi) as [Hlt Hov].
    split; [by exists b|]. left. destruct Hov as (t' & votes & st & Ht & ?). exists t', votes, st. split; [by apply Hseen|done].
  - intros R i _ (b & Hb & <- & Hi) Hnp Hnr. eapply (accepted_mono _ _ [t] _ hist); [exact Hseen|done|left].
    by apply (bd_accepted _ _ _ _ _ _ (Hdec b Hb ltac:(by apply list_elem_of_fmap_2))).
  - intros R [HR|HR]%Hd; [|done]. rewrite dom_empty_L in HR. set_solver.
Qed.
