(* ===== verification/FinalizerDirect.v ===== *)
(** * Commits on their way through the finalizer

    The stream of commits as the linearizer produces it, the pending commits as a part of the stream,
    popping the finalized ones from the front, and the loop of direct finalization over them. *)

From S2P Require Import Prelude BTree Config StakeLists Block Commit Store StakeAggregator ThresholdClock.
From S2P Require Import LeaderScoring DagState TransactionVoteTracker VoteTrackerTheory.
From S2P Require Import CommitFinalizer FinalizerVotes FinalizerLinks FinalizerReasons.
Local Open Scope N_scope.
Local Open Scope result_scope.

(** ** The stream of commits *)

Record stream_ok (c : Committee) (hist : list CommittedSubDag) : Prop := {
  st_causal : causal c (placed_in hist);
  st_commits : Forall (commit_ok c) hist;
  st_leaders : StronglySorted N.le (leader_of <$> hist);
  st_indices : ∀ k a b, hist !! k = Some a → hist !! Datatypes.S k = Some b → commit_index b = commit_index a + 1;
  st_bound : Forall (λ commit, commit_index commit < 2 ^ 32) hist;
}.

Lemma placed_in_elem hist e : e ∈ placed_in hist ↔ ∃ commit, commit ∈ hist ∧ e.1 ∈ sd_blocks commit ∧ e.2 = commit_index commit.
Proof.
  unfold placed_in. rewrite list_elem_of_bind. split.
  - intros (cm & (b & -> & Hb)%list_elem_of_fmap & Hcm). by exists cm.
  - intros (cm & Hcm & Hb & He). exists cm. split; [|done]. apply list_elem_of_fmap. exists e.1. destruct e. simpl in *. by subst.
Qed.

Lemma stream_ok_l c h1 h2 : stream_ok c (h1 ++ h2) → stream_ok c h1.
Proof.
  intros [H1 H2 H3 H4 H5]. split.
  - eapply causal_sub; [exact H1|]. intros e. rewrite !placed_in_elem. setoid_rewrite elem_of_app. naive_solver.
  - by apply Forall_app in H2 as [? _].
  - rewrite fmap_app in H3. by apply StronglySorted_app in H3 as (_ & ? & _).
  - intros k a b Ha Hb. apply (H4 k); by apply lookup_app_l_Some.
  - by apply Forall_app in H5 as [? _].
Qed.

Lemma stream_ok_r c h1 h2 : stream_ok c (h1 ++ h2) → stream_ok c h2.
Proof.
  intros [H1 H2 H3 H4 H5]. split.
  - eapply causal_sub; [exact H1|]. intros e. rewrite !placed_in_elem. setoid_rewrite elem_of_app. naive_solver.
  - by apply Forall_app in H2 as [_ ?].
  - rewrite fmap_app in H3. by apply StronglySorted_app in H3 as (_ & _ & ?).
  - intros k a b Ha Hb. apply (H4 (length h1 + k)%nat).
    + by rewrite lookup_app_r, Nat.add_comm, Nat.add_sub by lia.
    + rewrite <- Nat.add_succ_r, lookup_app_r by lia. by rewrite Nat.add_comm, Nat.add_sub.
  - by apply Forall_app in H5 as [_ ?].
Qed.

Lemma stream_index c hist n i a b :
  stream_ok c hist → hist !! i = Some a → hist !! (i + n)%nat = Some b → commit_index b = commit_index a + N.of_nat n.
Proof.
  intros Hs Ha. revert b. induction n as [|n IH]; intros b Hb.
  - rewrite Nat.add_0_r in Hb. simplify_eq. lia.
  - rewrite Nat.add_succ_r in Hb. destruct (lookup_lt_is_Some_2 hist (i + n)%nat) as [b' Hb'].
    { apply lookup_lt_Some in Hb. lia. }
    rewrite (st_indices c hist Hs _ _ _ Hb' Hb), (IH b' Hb'). lia.
Qed.

Lemma stream_index_lt c h1 h2 a b : stream_ok c (h1 ++ h2) → a ∈ h1 → b ∈ h2 → commit_index a < commit_index b.
Proof.
  intros Hs [i Ha]%list_elem_of_lookup [j Hb]%list_elem_of_lookup. pose proof (lookup_lt_Some _ _ _ Ha).
  assert ((h1 ++ h2) !! (i + (length h1 + j - i))%nat = Some b) as Hb'.
  { rewrite lookup_app_r by lia. rewrite <- Hb. f_equal. lia. }
  rewrite (stream_index c _ _ i a b Hs (lookup_app_l_Some _ _ _ _ Ha) Hb'). lia.
Qed.

Lemma stream_leader_le c h1 h2 a b : stream_ok c (h1 ++ h2) → a ∈ h1 → b ∈ h2 → leader_of a ≤ leader_of b.
Proof.
  intros Hs Ha Hb. pose proof (st_leaders c _ Hs) as Hl. rewrite fmap_app in Hl. apply StronglySorted_app in Hl as (Hl & _ & _).
  apply Hl; by apply list_elem_of_fmap_2.
Qed.

Lemma stream_last_leader c hist a b : stream_ok c hist → a ∈ hist → last hist = Some b → leader_of a ≤ leader_of b.
Proof.
  intros Hs Ha Hb. apply last_Some in Hb as [l ->]. apply elem_of_app in Ha as [Ha| ->%list_elem_of_singleton]; [|lia].
  eapply stream_leader_le; [exact Hs|done|left].
Qed.

(** ** Pending commits *)

Definition commits_of (ps : list CommitState) : list CommittedSubDag := cs_commit <$> ps.
Definition placed_of (ps : list CommitState) : list (VerifiedBlock * CommitIndex) := placed_in (commits_of ps).
Definition finished (cs : CommitState) : Prop := cs_pending_blocks cs = ∅ ∧ cs_pending_transactions cs = ∅.
Definition outputs (ps : list CommitState) : list CommittedSubDag := finalized_commit <$> ps.

Lemma leader_round_of cs : leader_round cs = leader_of (cs_commit cs).
Proof. done. Qed.

Lemma commits_of_elem ps cs : cs ∈ ps → cs_commit cs ∈ commits_of ps.
Proof. apply list_elem_of_fmap_2. Qed.

Lemma last_leader_le c ps cs l :
  stream_ok c (commits_of ps) → cs ∈ ps → last ps = Some l → leader_round cs ≤ leader_round l.
Proof.
  intros Hs Hcs Hl. rewrite !leader_round_of. eapply stream_last_leader; [exact Hs|by apply commits_of_elem|].
  unfold commits_of. by rewrite fmap_last, Hl.
Qed.

(** The popped commits are a prefix. *)
Lemma pop_loop_spec `{Profile} c ps acc B :
  stream_ok c (commits_of ps) →
  ∃ popped rest, ps = popped ++ rest ∧
    pop_loop acc ps B = Ret (acc ++ outputs popped, rest,
      foldl (λ m (b : VerifiedBlock), delete (reference b) m) B (commits_of popped ≫= sd_blocks)) ∧
    Forall finished popped ∧ ∀ cs, head rest = Some cs → ¬ finished cs.
Proof.
  revert acc B. induction ps as [|cs ps IH]; intros acc B Hs.
  - exists [], []. cbn [pop_loop outputs fmap list_fmap]. split; [done|]. split; [by rewrite app_nil_r|]. by split.
  - cbn [pop_loop]. destruct (bool_decide (cs_pending_blocks cs = ∅) && bool_decide (cs_pending_transactions cs = ∅)) eqn:E.
    + apply andb_true_iff in E as [E1%bool_decide_eq_true E2%bool_decide_eq_true].
      assert ((match last ps with
         | Some last_commit => u32_sub (leader_round last_commit) (br_round (sd_leader (finalized_commit cs)))
         | None => Ret 0
         end) = Ret match last ps with Some l => leader_round l - leader_round cs | None => 0 end) as ->.
      { destruct (last ps) as [l|] eqn:El; [|done]. rewrite int_sub_exact; [done|].
        change (leader_round cs ≤ leader_round l). eapply last_leader_le; [exact Hs|left|]. rewrite last_cons. by rewrite El. }
      cbn [mbind M_bind]. destruct (IH (acc ++ [finalized_commit cs])
        (foldl (λ m (b : VerifiedBlock), delete (reference b) m) B (sd_blocks (finalized_commit cs)))) as (popped & rest & -> & -> & Hfin & Hrest).
      { by apply (stream_ok_r c [cs_commit cs]). }
      exists (cs :: popped), rest. split; [done|]. split; [|split; [by constructor|done]].
      unfold outputs, commits_of. rewrite !fmap_cons, bind_cons, foldl_app, <- (assoc_L (++)). done.
    + exists [], (cs :: ps). split; [done|]. split; [by rewrite app_nil_r|]. split; [constructor|].
      intros cs' [= <-] [E1 E2]. by rewrite E1, E2, !bool_decide_eq_true_2 in E.
Qed.

Lemma placed_of_app ps qs : placed_of (ps ++ qs) = placed_of ps ++ placed_of qs.
Proof. unfold placed_of, commits_of, placed_in. by rewrite fmap_app, bind_app. Qed.

(** Popping the first commits keeps the mirror of the linked ones; [extra] is not linked. *)
Lemma mirror_pop c popped rest extra B :
  stream_ok c (commits_of (popped ++ rest ++ extra)) →
  mirror (placed_of (popped ++ rest)) (placed_of (popped ++ rest)) B →
  ∀ gone, gone = popped ∨ (rest = [] ∧ gone = popped ++ extra) →
  mirror (placed_of rest) (placed_of rest)
    (foldl (λ m (b : VerifiedBlock), delete (reference b) m) B (commits_of gone ≫= sd_blocks)).
Proof.
  intros Hs Hm gone Hgone. rewrite placed_of_app in Hm. rewrite (assoc_L (++)) in Hs. unfold commits_of in Hs. rewrite fmap_app in Hs.
  apply stream_ok_l in Hs. fold (commits_of (popped ++ rest)) in Hs.
  pose proof (st_causal c _ Hs) as Hc. fold (placed_of (popped ++ rest)) in Hc. rewrite placed_of_app in Hc.
  unfold commits_of in Hs. rewrite fmap_app in Hs. fold (commits_of popped) (commits_of rest) in Hs.
  assert (∀ e, e ∈ placed_of popped → ref_of e ∈ reference <$> (commits_of popped ≫= sd_blocks)) as Hin.
  { intros e (cm & Hcm & Hb & _)%placed_in_elem. unfold ref_of. apply list_elem_of_fmap_2, list_elem_of_bind. by exists cm. }
  eapply mirror_drop; [exact Hm|exact Hc| | |].
  - intros e1 e2 (a & Ha & _ & ->)%placed_in_elem (b & Hb & _ & ->)%placed_in_elem. by eapply stream_index_lt.
  - intros e He. destruct Hgone as [->|[_ ->]]; [by apply Hin|]. unfold commits_of. rewrite fmap_app, bind_app, fmap_app.
    apply elem_of_app. left. by apply Hin.
  - intros e He. destruct Hgone as [->|[-> _]]; [|by apply not_elem_of_nil in He].
    intros (b & Hr & (cm & Hb & Hcm)%list_elem_of_bind)%list_elem_of_fmap.
    pose proof He as (cm' & Hcm' & _ & Hi)%placed_in_elem. pose proof (stream_index_lt c _ _ cm cm' Hs Hcm Hcm') as Hlt.
    assert ((b, commit_index cm) = e) as <-; [|simpl in Hi; lia].
    apply (ca_refs c _ Hc); [apply elem_of_app; left|apply elem_of_app; by right|by rewrite Hr].
    apply placed_in_elem. by exists cm.
Qed.

(** ** The steps on the pending commits *)

Section Steps.
Context `{Profile} {S : Type} `{Store S} (ctx : Context).
Local Abbreviation c := (ctx_committee ctx).
Local Abbreviation depth := (pc_gc_depth (ctx_protocol_config ctx)).
Context (Hwf : Committee_wf c).
Implicit Types (f : CommitFinalizer) (t : VoteTrackerState) (s : DagState S) (ps : list CommitState).

Lemma calculate_gc_round_ctx s r : ds_context s = ctx → DagState_calculate_gc_round s r = r - depth.
Proof using. intros Hs. unfold DagState_calculate_gc_round, DagState_protocol_config. by rewrite Hs. Qed.

(** Commits that wait for direct finalization have leaders less than three rounds behind. *)
Definition direct_done ps : Prop :=
  ∀ cs l, cs ∈ ps → cs_pending_blocks cs ≠ ∅ → last ps = Some l → leader_round l < leader_round cs + DEFAULT_WAVE_LENGTH.

Lemma try_direct_spec f t s seen hist i cs :
  cf_context f = ctx → ds_context s = ctx → cf_pending_commits f !! i = Some cs → cs_pending_blocks cs ≠ ∅ →
  commit_ok c (cs_commit cs) → covers t (cs_commit cs) → cs_ok c depth (seen ++ [t]) hist cs →
  ∃ cs', CommitFinalizer_try_direct_finalize_commit f t s i =
      Ret (set_pending_commits (<[i := cs']> (cf_pending_commits f)) f) ∧
    cs_commit cs' = cs_commit cs ∧ cs_pending_blocks cs' = ∅ ∧ cs_ok c depth (seen ++ [t]) hist cs'.
Proof using.
  intros Hf Hs Hi Hb Hcm Hcov Hok. unfold CommitFinalizer_try_direct_finalize_commit. rewrite Hi, Hf.
  destruct (co_fresh _ _ _ _ _ Hok) as [|Hfresh]; [done|].
  rewrite int_add_exact by apply (cm_leader c _ Hcm). cbn [mbind M_bind]. rewrite calculate_gc_round_ctx by done.
  rewrite bool_decide_eq_false_2 by done. cbn [negb assert_that mbind M_bind].
  destruct (direct_commit_spec ctx depth t seen hist (cs_commit cs) Hcm Hcov) as (cs' & Hrun & ?).
  rewrite <- Hfresh in Hrun. assert (cs_pending_transactions cs = ∅ ∧ cs_rejected_transactions cs = ∅) as [-> ->].
  { rewrite Hfresh. done. }
  change (leader_round cs) with (leader_of (cs_commit cs)). rewrite Hrun. cbn [mbind M_bind]. by exists cs'.
Qed.

Lemma direct_loop_spec n i f t s seen hist :
  cf_context f = ctx → ds_context s = ctx → stream_ok c (commits_of (cf_pending_commits f)) →
  (∀ cs, cs ∈ cf_pending_commits f → covers t (cs_commit cs)) →
  Forall (cs_ok c depth (seen ++ [t]) hist) (cf_pending_commits f) →
  length (cf_pending_commits f) = (i + n)%nat →
  (∀ k cs, cf_pending_commits f !! k = Some cs → (k < i)%nat → cs_pending_blocks cs = ∅) →
  ∃ ps, direct_loop f t s (seq i n) = Ret (set_pending_commits ps f) ∧
    commits_of ps = commits_of (cf_pending_commits f) ∧ Forall (cs_ok c depth (seen ++ [t]) hist) ps ∧ direct_done ps.
Proof using.
  intros Hf Hs. revert i f Hf. induction n as [|n IH]; intros i f Hf Hst Hcov Hok Hlen Hdone.
  - exists (cf_pending_commits f). split; [by destruct f|]. split; [done|]. split; [done|].
    intros cs l [k Hk]%list_elem_of_lookup Hne _. destruct Hne. apply (Hdone k); [done|]. apply lookup_lt_Some in Hk. lia.
  - cbn [seq direct_loop]. destruct (lookup_lt_is_Some_2 (cf_pending_commits f) i) as [cs Hi]; [lia|].
    assert (cs ∈ cf_pending_commits f) as Hin by (by apply list_elem_of_lookup_2 in Hi).
    assert (index (cf_pending_commits f) (N.of_nat i) = Ret cs) as -> by (apply index_Ret; by rewrite Nat2N.id).
    cbn [mbind M_bind]. case_bool_decide as Hb.
    { apply (IH (Datatypes.S i)); [done|done|done|done|lia|]. intros k cs' Hk Hlt.
      destruct (decide (k = i)) as [->|]; [congruence|]. apply (Hdone k); [done|lia]. }
    pose proof (st_commits c _ Hst) as Hcms. rewrite Forall_forall in Hcms. pose proof (Hcms _ (commits_of_elem _ _ Hin)) as Hcm.
    assert (∃ l, last (cf_pending_commits f) = Some l) as [l Hl].
    { destruct (last (cf_pending_commits f)) eqn:E; [by eexists|]. apply last_None in E. rewrite E in Hi. done. }
    assert ((if sd_decided_with_local_blocks (cs_commit cs) then Ret false
             else last_commit_state ← expect (last (cf_pending_commits f)) "unwrap";
                  round ← u32_add (leader_round cs) DEFAULT_WAVE_LENGTH;
                  Ret (leader_round last_commit_state <? round)) =
            Ret (if sd_decided_with_local_blocks (cs_commit cs) then false else leader_round l <? leader_round cs + DEFAULT_WAVE_LENGTH)) as ->.
    { destruct (sd_decided_with_local_blocks _); [done|]. rewrite Hl. cbn [expect mbind M_bind].
      rewrite int_add_exact by apply (cm_leader c _ Hcm). done. }
    cbn [mbind M_bind]. destruct (if sd_decided_with_local_blocks (cs_commit cs) then false else _) eqn:Estop.
    + exists (cf_pending_commits f). split; [by destruct f|]. split; [done|]. split; [done|].
      destruct (sd_decided_with_local_blocks _); [done|]. nbool. intros cs' l' [k Hk]%list_elem_of_lookup Hne Hl'. assert (l' = l) as -> by congruence.
      assert (leader_round cs ≤ leader_round cs'); [|lia]. destruct (decide (k < i)%nat) as [Hlt|Hge].
      { destruct Hne. by apply (Hdone k). }
      destruct (decide (k = i)) as [->|Hki]; [assert (cs' = cs) as -> by congruence; lia|].
      rewrite !leader_round_of. apply (stream_leader_le c (commits_of (take (Datatypes.S i) (cf_pending_commits f)))
        (commits_of (drop (Datatypes.S i) (cf_pending_commits f)))).
      * unfold commits_of. by rewrite <- fmap_app, take_drop.
      * apply commits_of_elem. apply (list_elem_of_lookup_2 _ i). by rewrite lookup_take_lt by lia.
      * apply commits_of_elem. apply (list_elem_of_lookup_2 _ (k - Datatypes.S i)). rewrite lookup_drop. rewrite <- Hk. f_equal. lia.
    + rewrite Forall_forall in Hok. destruct (try_direct_spec f t s seen hist i cs Hf Hs Hi Hb Hcm (Hcov cs Hin) (Hok cs Hin))
        as (cs' & -> & Ec & Eb & Hok'). cbn [mbind M_bind].
      set (f1 := set_pending_commits _ f).
      assert (commits_of (cf_pending_commits f1) = commits_of (cf_pending_commits f)) as Ecs.
      { unfold f1, commits_of. cbn [cf_pending_commits set_pending_commits]. rewrite list_fmap_insert, Ec. apply list_insert_id.
        by rewrite list_lookup_fmap, Hi. }
      destruct (IH (Datatypes.S i) f1) as (ps & Hrun & Eps & Hps & Hdd).
      * done.
      * by rewrite Ecs.
      * intros x Hx. assert (cs_commit x ∈ commits_of (cf_pending_commits f)) as Hx' by (rewrite <- Ecs; by apply commits_of_elem).
        apply list_elem_of_fmap in Hx' as (y & -> & Hy). by apply Hcov.
      * apply Forall_forall. intros x [k Hk]%list_elem_of_lookup. unfold f1 in Hk. cbn [cf_pending_commits set_pending_commits] in Hk.
        apply list_lookup_insert_Some in Hk as [(_ & <- & _)|[_ Hk]]; [done|]. apply Hok. by apply list_elem_of_lookup_2 in Hk.
      * unfold f1. cbn [cf_pending_commits set_pending_commits]. rewrite length_insert. lia.
      * intros k x Hk Hlt. unfold f1 in Hk. cbn [cf_pending_commits set_pending_commits] in Hk.
        apply list_lookup_insert_Some in Hk as [(_ & <- & _)|[Hne Hk]]; [done|]. apply (Hdone k); [done|lia].
      * exists ps. rewrite Hrun, Eps. done.
Qed.

End Steps.
