(* ===== verification/FinalizerIndirect.v ===== *)
(** * Indirect finalization of the first pending commit

    Linking the last commit keeps the mirror of the pending commits; late rejections, the search for
    accept votes and the rejection after three rounds keep the reasons of the first commit, and the last one
    leaves nothing pending in it. *)

From S2P Require Import Prelude BTree Config StakeLists Block Commit Store StakeAggregator ThresholdClock.
From S2P Require Import LeaderScoring DagState TransactionVoteTracker VoteTrackerTheory.
From S2P Require Import CommitFinalizer FinalizerVotes FinalizerLinks FinalizerReasons FinalizerDirect.
Local Open Scope N_scope.
Local Open Scope result_scope.

(** ** Linking the last commit *)

Lemma sort_by_round_sorted blocks : StronglySorted (λ a b : VerifiedBlock, b_round a ≤ b_round b) (sort_by_round blocks).
Proof.
  eapply StronglySorted_weaken; [|apply stable_sort_sorted].
  - intros a b Hab. by apply N.leb_le.
  - intros a b. rewrite !N.leb_le. lia.
  - intros a b d. rewrite !N.leb_le. lia.
Qed.

Lemma sort_by_round_elem blocks b : b ∈ sort_by_round blocks ↔ b ∈ blocks.
Proof. unfold sort_by_round. by rewrite stable_sort_elem. Qed.

Lemma link_last_spec c f old new :
  cf_pending_commits f = old ++ [new] → stream_ok c (commits_of (old ++ [new])) →
  mirror (placed_of old) (placed_of old) (cf_blocks f) →
  ∃ f1 B, CommitFinalizer_link_blocks_in_last_commit f = Ret f1 ∧
    CommitFinalizer_append_origin_descendants_from_last_commit f1 = Ret (set_blocks B f) ∧
    mirror (placed_of (old ++ [new])) (placed_of (old ++ [new])) B.
Proof.
  intros Hp Hs Hm. unfold CommitFinalizer_link_blocks_in_last_commit, last_commit_state.
  rewrite Hp, last_snoc. cbn [mbind M_bind].
  set (k := cr_index (sd_commit_ref (cs_commit new))). set (blocks := sort_by_round (sd_blocks (cs_commit new))).
  assert (∀ e, e ∈ placed_of (old ++ [new]) ↔ e ∈ placed_of old ++ ((., k) <$> blocks)) as Hall.
  { intros e. rewrite placed_of_app, !elem_of_app. apply or_iff_compat_l.
    unfold placed_of, commits_of. rewrite placed_in_elem, list_elem_of_fmap. cbn [fmap list_fmap].
    unfold blocks. setoid_rewrite list_elem_of_singleton. setoid_rewrite sort_by_round_elem. destruct e. simpl. naive_solver. }
  pose proof (st_causal c _ Hs) as Hc. fold (placed_of (old ++ [new])) in Hc.
  assert (causal c (placed_of old ++ ((., k) <$> blocks))) as Hc' by (eapply causal_sub; [exact Hc|]; intros e; apply Hall).
  unfold commits_of in Hs. rewrite fmap_app in Hs. fold (commits_of old) (commits_of [new]) in Hs.
  assert (∀ e b, e ∈ placed_of old → b ∈ blocks → e.2 < k) as Hlt.
  { intros e b (cm & Hcm & _ & ->)%placed_in_elem _. eapply (stream_index_lt c _ _ cm (cs_commit new) Hs); [done|left]. }
  assert (∀ b, b ∈ blocks → (b, k) ∈ placed_of old ++ ((., k) <$> blocks)) as Hb.
  { intros b Hb. apply elem_of_app. right. apply list_elem_of_fmap. by exists b. }
  assert (mirror (placed_of old ++ ((., k) <$> blocks)) (placed_of old) (foldl (link_block k) (cf_blocks f) blocks)) as Hm1.
  { apply (link_blocks_spec c); [done|done|done| | | |apply sort_by_round_sorted].
    - unfold blocks, sort_by_round. rewrite stable_sort_perm. pose proof (st_commits c _ Hs) as [_ Hcm]%Forall_app.
      apply Forall_cons in Hcm as [Hcm _]. apply (cm_refs c _ Hcm).
    - intros b Hin [st Hst]%elem_of_dom. destruct (mi_block _ _ _ Hm _ _ Hst) as (e & He & Hr & _).
      assert (e = (b, k)) as ->; [|specialize (Hlt _ b He Hin); simpl in Hlt; lia].
      apply (ca_refs c _ Hc'); [apply elem_of_app; by left|by apply Hb|done].
    - intros e b He Hin Ha. specialize (Hlt e b He Hin).
      pose proof (ca_order c _ Hc' (b, k) e (Hb b Hin) ltac:(apply elem_of_app; by left) Ha). simpl in *. lia. }
  destruct (append_origins_spec c _ Hc' ((., k) <$> blocks) (placed_of old) _ Hm1) as (B & HB & Hm2).
  { intros e He. apply elem_of_app. by right. }
  eexists _, B. split; [done|]. split.
  - unfold CommitFinalizer_append_origin_descendants_from_last_commit, last_commit_state.
    cbn [cf_pending_commits set_blocks cf_blocks]. rewrite Hp, last_snoc. cbn [mbind M_bind]. fold blocks.
    replace (((., k) <$> blocks).*1) with blocks in HB; [by rewrite HB|].
    rewrite <- list_fmap_compose. symmetry. apply list_fmap_id.
  - eapply mirror_ext; [| |exact Hm2]; intros e; symmetry; apply Hall.
Qed.

(** ** A quorum of first votes certifies *)

Lemma descends_reaches L N B R r :
  mirror L N B → descends B R r → reaches L.*1 R r.
Proof.
  intros Hm. assert (∀ q r', r' ∈ children_of B q → ∃ e, e ∈ L ∧ ref_of e = r' ∧ q ∈ b_ancestors e.1) as Hch.
  { intros q r'. unfold children_of. destruct (B !! q) as [st|] eqn:E; cbn [from_option]; [|set_solver].
    by rewrite (mi_children L N B Hm q st r' E). }
  induction 1 as [r Hr|r r' _ IH Hr]; destruct (Hch _ _ Hr) as (e & He & <- & Ha).
  - apply reaches_parent; [by apply list_elem_of_fmap_2|done].
  - eapply reaches_step; [by apply list_elem_of_fmap_2|exact IH|done].
Qed.

Lemma accepters_certified c window hist B G R pc i :
  causal c (placed_in window) → mirror (placed_in window) (placed_in window) B → window ⊆ hist →
  is_quorum c (accepters B G R pc i) → certified c hist R i.
Proof.
  intros Hc Hm Hh Hq. pose proof (mirror_linked c _ _ _ Hc (λ e He, He) Hm) as Hlk.
  set (voters := filter (λ r, i ∉ rejects_in B R r) (voting_blocks B G R pc)).
  assert (∀ r, r ∈ voters → i ∉ rejects_in B R r ∧ descends B R r) as Hv.
  { intros r [Hr Hin]%list_elem_of_filter. split; [done|]. apply first_votes_sub, list_elem_of_filter in Hin as [_ Hin].
    by apply bset_list_elem, (descendants_spec c B R Hlk) in Hin. }
  assert (∀ b, b ∈ (placed_in window).*1 → b ∈ hist ≫= sd_blocks) as Hsub.
  { intros b (e & -> & (cm & Hcm & Hb & _)%placed_in_elem)%list_elem_of_fmap. apply list_elem_of_bind. exists cm. auto. }
  exists (omap (λ r, bs_block <$> B !! r) voters). split.
  - intros q (r & Hr & Hq')%list_elem_of_omap. destruct (Hv r Hr) as [Hrej Hd]. destruct (B !! r) as [st|] eqn:E; [|done].
    injection Hq' as <-. destruct (mi_block _ _ _ Hm r st E) as (e & He & Her & -> & _ & Hvotes).
    change (reference e.1) with (ref_of e). rewrite Her. split; [|split].
    + eapply reaches_mono; [exact Hsub|]. by eapply descends_reaches.
    + apply Hsub. by apply list_elem_of_fmap_2.
    + unfold rejects_in in Hrej. by rewrite E, Hvotes in Hrej.
  - eapply is_quorum_mono; [exact Hq| |].
    + intros a (r & Hr & <- & Hrej)%accepters_in_elem. apply elem_of_list_to_set, list_elem_of_fmap.
      assert (r ∈ voters) as Hr' by (by apply list_elem_of_filter). destruct (Hv r Hr') as [_ Hd].
      apply (descends_above c B R Hlk) in Hd as [[st E]%elem_of_dom _].
      destruct (mi_block _ _ _ Hm r st E) as (e & _ & Her & Hb & _). exists (bs_block st). split; [rewrite Hb, <- Her; done|].
      apply list_elem_of_omap. exists r. split; [done|]. by rewrite E.
    + intros a (q & -> & (r & _ & Hq')%list_elem_of_omap)%elem_of_list_to_set%list_elem_of_fmap.
      destruct (B !! r) as [st|] eqn:E; [|done]. injection Hq' as <-.
      destruct (mi_block _ _ _ Hm r st E) as (e & He & _ & -> & _). apply (po_author c e), (ca_placed c _ Hc), He.
Qed.

(** ** The first commit *)

Lemma Forall2_elem_r {A B} (P : A → B → Prop) l k b : Forall2 P l k → b ∈ k → ∃ a, a ∈ l ∧ P a b.
Proof.
  intros Hl [i Hi]%list_elem_of_lookup. destruct (Forall2_lookup_r _ _ _ _ _ Hl Hi) as (a & Ha & HP).
  exists a. split; [by apply list_elem_of_lookup_2 in Ha|done].
Qed.

Lemma Forall2_elem_l {A B} (P : A → B → Prop) l k a : Forall2 P l k → a ∈ l → ∃ b, b ∈ k ∧ P a b.
Proof.
  intros Hl [i Hi]%list_elem_of_lookup. destruct (Forall2_lookup_l _ _ _ _ _ Hl Hi) as (b & Hb & HP).
  exists b. split; [by apply list_elem_of_lookup_2 in Hb|done].
Qed.

Lemma chunks_loop_join {A} fuel n (l : list A) : (0 < n)%nat → (length l ≤ fuel)%nat → mjoin (chunks_loop fuel n l) = l.
Proof.
  intros Hn. revert l. induction fuel as [|fuel IH]; intros l Hl; [destruct l; simpl in *; [done|lia]|].
  destruct l as [|a l]; [done|]. cbn [chunks_loop]. change (mjoin (take n (a :: l) :: chunks_loop fuel n (drop n (a :: l))))
    with (take n (a :: l) ++ mjoin (chunks_loop fuel n (drop n (a :: l)))).
  rewrite IH; [apply take_drop|]. rewrite length_drop. simpl in *. lia.
Qed.

Lemma chunks_join {A} n (l : list A) : (0 < n)%nat → mjoin (chunks n l) = l.
Proof. intros Hn. by apply chunks_loop_join. Qed.

(** Each transaction pending in a block of the commit belongs to it. *)
Lemma pending_block c depth seen hist cs R X :
  cs_ok c depth seen hist cs → (R, X) ∈ bmap_list (cs_pending_transactions cs) →
  ∃ b, b ∈ sd_blocks (cs_commit cs) ∧ R = reference b ∧ X = txs (cs_pending_transactions cs) R.
Proof.
  intros Hok Hin%bmap_list_elem. pose proof (co_pending_keys _ _ _ _ _ Hok R) as Hk.
  apply (list_elem_of_fmap reference) in Hk as (b & -> & Hb); [|by apply elem_of_dom_2 in Hin].
  exists b. split; [done|]. split; [done|]. unfold txs. by rewrite Hin.
Qed.

Section First.
Context `{Profile} {S : Type} `{Store S} (ctx : Context).
Local Abbreviation c := (ctx_committee ctx).
Local Abbreviation depth := (pc_gc_depth (ctx_protocol_config ctx)).
Context (Hwf : Committee_wf c).
Implicit Types (f : CommitFinalizer) (t : VoteTrackerState) (s : DagState S) (ps : list CommitState).

(** *** Late rejections *)

Lemma rejected_by_quorum_spec t cs seen hist e :
  covers t (cs_commit cs) → t ∈ seen → cs_ok c depth seen hist cs → e ∈ bmap_list (cs_pending_transactions cs) →
  ∃ r, rejected_by_quorum ctx t e = Ret r ∧
    ∀ i, i ∈ r.2 → transaction_in (cs_commit cs) r.1 i ∧ refused c depth seen hist (cs_commit cs) r.1 i.
Proof using Hwf.
  intros Hcov Ht Hok Hin. destruct e as [R X]. destruct (pending_block _ _ _ _ _ _ _ Hok Hin) as (b & Hb & -> & ->).
  unfold rejected_by_quorum, reject_votes_of. cbn [fst snd]. destruct (Hcov b Hb) as (votes & Hv & _). rewrite Hv.
  cbn [mbind M_bind]. eexists. split; [done|]. cbn [fst snd]. intros i [Hq Hi]%list_elem_of_filter.
  apply bset_list_elem in Hi. split; [by apply (co_pending _ _ _ _ _ Hok)|]. left.
  destruct (bmap_collect votes !! i) as [st|] eqn:E; simpl in Hq; [|pose proof (wf_quorum_pos c Hwf); lia].
  exists t, votes, st. split; [done|]. split; [done|]. split; [|done]. apply bmap_collect_lookup; [|done].
  by eapply get_reject_votes_NoDup.
Qed.

Lemma reject_all_ok seen hist l cs :
  cs_ok c depth seen hist cs → cs_pending_blocks cs = ∅ →
  (∀ e i, e ∈ l → i ∈ e.2 → transaction_in (cs_commit cs) e.1 i ∧ refused c depth seen hist (cs_commit cs) e.1 i) →
  let cs' := foldl reject_transactions cs l in
  cs_commit cs' = cs_commit cs ∧ cs_pending_blocks cs' = ∅ ∧ cs_ok c depth seen hist cs'.
Proof using.
  revert cs. induction l as [|[R l0] l IH]; intros cs Hok Hb Hl; cbv zeta; cbn [foldl]; [done|].
  destruct (remove_pending_spec cs R l0) as (Ec & Eb & _).
  assert (cs_commit (reject_transactions cs (R, l0)) = cs_commit cs) as Ec' by done.
  destruct (IH (reject_transactions cs (R, l0))) as (H1 & H2 & H3).
  - apply cs_ok_reject; [done|done|]. intros i Hi. apply (Hl (R, l0)); [left|done].
  - unfold reject_transactions. simpl. by rewrite Eb.
  - rewrite Ec'. intros e i He. apply Hl. by right.
  - by rewrite H1.
Qed.

Lemma check_pending_spec f t cs rest seen hist :
  cf_context f = ctx → cf_pending_commits f = cs :: rest → cs_pending_blocks cs = ∅ →
  covers t (cs_commit cs) → t ∈ seen → cs_ok c depth seen hist cs →
  ∃ cs', CommitFinalizer_check_pending_transactions_in_first_commit f t = Ret (set_pending_commits (cs' :: rest) f) ∧
    cs_commit cs' = cs_commit cs ∧ cs_pending_blocks cs' = ∅ ∧ cs_ok c depth seen hist cs'.
Proof using Hwf.
  intros Hf Hp Hb Hcov Ht Hok. unfold CommitFinalizer_check_pending_transactions_in_first_commit. rewrite Hp, Hf.
  rewrite (proj2 (index_Ret (cs :: rest) 0 cs) eq_refl). cbn [mbind M_bind].
  edestruct (mapP_spec (rejected_by_quorum ctx t)) as (l & -> & Hl).
  { intros e He. by eapply rejected_by_quorum_spec. }
  cbn [mbind M_bind]. eexists. split; [done|]. apply reject_all_ok; [done|done|]. intros e i [_ He]%list_elem_of_filter.
  destruct (Forall2_elem_r _ _ _ _ Hl He) as (a & _ & Ha). apply Ha.
Qed.

(** *** The search for accept votes *)

Lemma remove_all_spec seen hist (l : list (BlockRef * list TransactionIndex)) cs :
  cs_ok c depth seen hist cs →
  (∀ e i, e ∈ l → i ∈ e.2 → accepted c depth seen hist (leader_round cs) e.1 i) →
  let cs' := foldl (λ cs e, CommitState_remove_pending_transactions cs e.1 e.2) cs l in
  cs_commit cs' = cs_commit cs ∧ cs_pending_blocks cs' = cs_pending_blocks cs ∧ cs_ok c depth seen hist cs' ∧
  ∀ R i, i ∈ txs (cs_pending_transactions cs') R → i ∈ txs (cs_pending_transactions cs) R ∧ ¬ ∃ r, (R, r) ∈ l ∧ i ∈ r.
Proof using.
  revert cs. induction l as [|[R0 l0] l IH]; intros cs Hok Hl; cbv zeta; cbn [foldl fst snd].
  - split; [done|]. split; [done|]. split; [done|]. intros R i Hi. split; [done|]. by intros (r & []%not_elem_of_nil & _).
  - destruct (remove_pending_spec cs R0 l0) as (Ec & Eb & _ & _ & Hp).
    destruct (IH (CommitState_remove_pending_transactions cs R0 l0)) as (H1 & H2 & H3 & H4).
    { apply cs_ok_accept; [done|]. intros i Hi. apply (Hl (R0, l0)); [left|done]. }
    { intros e i He. unfold leader_round. rewrite Ec. apply Hl. by right. }
    rewrite H1, H2. split; [done|]. split; [done|]. split; [done|]. intros R i Hi. destruct (H4 R i Hi) as [Hi' Hno].
    apply Hp in Hi' as [Hi' Hn]. split; [done|]. intros (r & [[= -> ->]|Hr]%elem_of_cons & Hir); [by apply Hn|apply Hno; by exists r].
Qed.

Definition gc_rounds_of (window : list CommittedSubDag) : list (CommitIndex * Round) :=
  (λ commit, (commit_index commit, leader_of commit - depth)) <$> window.

Lemma gc_table_of window commit B :
  stream_ok c window → window !! 0%nat = Some commit → mirror (placed_in window) (placed_in window) B →
  gc_table (gc_rounds_of window) (commit_index commit) B.
Proof using.
  intros Hs Hw0 Hm. split.
  - intros k e. unfold gc_rounds_of. rewrite list_lookup_fmap. destruct (window !! k) as [cm|] eqn:E; [|done].
    intros [= <-]. by apply (stream_index c window k 0 commit cm Hs Hw0).
  - intros k k' e e' Hk. unfold gc_rounds_of. rewrite !list_lookup_fmap.
    destruct (window !! k) as [a|] eqn:Ea; [|done]. destruct (window !! k') as [b|] eqn:Eb; [|done]. intros [= <-] [= <-]. simpl.
    destruct (decide (k = k')) as [->|]; [simplify_eq; lia|].
    assert (leader_of a ≤ leader_of b); [|lia].
    apply (stream_leader_le c (take (Datatypes.S k) window) (drop (Datatypes.S k) window)).
    + by rewrite take_drop.
    + apply (list_elem_of_lookup_2 _ k). by rewrite lookup_take_lt by lia.
    + apply (list_elem_of_lookup_2 _ (k' - Datatypes.S k)). rewrite lookup_drop, <- Eb. f_equal. lia.
  - intros r st Hr. destruct (mi_block _ _ _ Hm r st Hr) as (e & (cm & [k Hk]%list_elem_of_lookup & _ & He)%placed_in_elem & _ & _ & -> & _).
    rewrite He, (stream_index c window k 0 commit cm Hs Hw0 Hk). apply lookup_lt_Some in Hk. unfold gc_rounds_of. rewrite length_fmap. lia.
Qed.

Lemma first_block_state window commit B b :
  stream_ok c window → window !! 0%nat = Some commit → mirror (placed_in window) (placed_in window) B → b ∈ sd_blocks commit →
  ∃ st, B !! reference b = Some st ∧ bs_commit_index st = commit_index commit.
Proof using.
  intros Hs Hw0 Hm Hb. assert ((b, commit_index commit) ∈ placed_in window) as Hin.
  { apply placed_in_elem. exists commit. split; [by apply list_elem_of_lookup_2 in Hw0|done]. }
  pose proof (mi_dom _ _ _ Hm _ Hin) as [st Hst]%elem_of_dom. exists st. split; [exact Hst|].
  destruct (mi_block _ _ _ Hm _ _ Hst) as (e & He & Hr & _ & -> & _). by rewrite (ca_refs c _ (st_causal c _ Hs) e _ He Hin Hr).
Qed.

(** *** Rejection after three rounds *)

Lemma reject_pending_txs (l : list (BlockRef * gset TransactionIndex)) m R i :
  i ∈ txs (foldl (λ m (e : BlockRef * gset TransactionIndex), extend_entry m e.1 e.2) m l) R ↔
  i ∈ txs m R ∨ ∃ X, (R, X) ∈ l ∧ i ∈ X.
Proof using.
  clear. revert m. induction l as [|[R0 X0] l IH]; intros m; cbn [foldl fst snd].
  - split; [by left|]. intros [|(X & []%not_elem_of_nil & _)]; done.
  - rewrite IH, txs_extend. setoid_rewrite elem_of_cons. destruct (decide (R = R0)) as [->|]; [rewrite elem_of_union|]; naive_solver.
Qed.

Lemma indirect_reject_spec f cs rest seen hist before l :
  cf_pending_commits f = cs :: rest → cs_pending_blocks cs = ∅ → commit_ok c (cs_commit cs) →
  last (cs :: rest) = Some l → hist = before ++ commits_of (cs :: rest) → cs_ok c depth seen hist cs →
  (∀ R i, i ∈ txs (cs_pending_transactions cs) R → unaccepted c depth (commits_of (cs :: rest)) R i) →
  ∃ cs', CommitFinalizer_try_indirect_reject_pending_transactions_in_first_commit f = Ret (set_pending_commits (cs' :: rest) f) ∧
    cs_commit cs' = cs_commit cs ∧ cs_pending_blocks cs' = ∅ ∧ cs_ok c depth seen hist cs' ∧
    (leader_round cs + INDIRECT_REJECT_DEPTH ≤ leader_round l → finished cs').
Proof using Hwf.
  intros Hp Hb Hcm Hl Hh Hok Hun. unfold CommitFinalizer_try_indirect_reject_pending_transactions_in_first_commit.
  rewrite Hp, (proj2 (index_Ret (cs :: rest) 0 cs) eq_refl), Hl. cbn [mbind M_bind expect].
  rewrite int_add_exact by apply (cm_leader c _ Hcm). cbn [mbind M_bind].
  destruct (N.leb_spec (leader_round cs + INDIRECT_REJECT_DEPTH) (leader_round l)) as [Hle|Hgt].
  2: { exists cs. split; [by destruct f; simpl in *; rewrite Hp|]. split; [done|]. split; [done|]. split; [done|]. lia. }
  rewrite bool_decide_eq_true_2 by done. cbn [assert_that mbind M_bind]. set (rej := foldl _ _ _). eexists. split; [done|].
  cbn [cs_commit cs_pending_blocks]. split; [done|]. split; [done|]. split; [|done].
  assert (∀ R i, i ∈ txs rej R ↔ i ∈ txs (cs_rejected_transactions cs) R ∨ i ∈ txs (cs_pending_transactions cs) R) as Hrej.
  { intros R i. unfold rej. rewrite reject_pending_txs. apply or_iff_compat_l. unfold txs at 1. split.
    - intros (X & HX%bmap_list_elem & Hi). by rewrite HX.
    - intros Hi. destruct (cs_pending_transactions cs !! R) as [X|] eqn:E; [|set_solver]. exists X. split; [by apply bmap_list_elem|done]. }
  destruct Hok as [H1 H2 H3 H4 H5]. split; cbn [cs_commit cs_pending_blocks cs_pending_transactions cs_rejected_transactions].
  - by left.
  - intros R i. unfold txs. rewrite lookup_empty. set_solver.
  - intros R i [Hi|Hi]%Hrej; [by apply H3|]. split; [by apply H2|]. right. exists before, (commits_of (cs :: rest)), [], (cs_commit l).
    rewrite app_nil_r. split; [done|]. split; [done|]. split; [unfold commits_of; by rewrite fmap_last, Hl|]. split; [done|by apply Hun].
  - intros R i _ Ht _ Hnr. apply H4; [done|done| |]; intros Hi; apply Hnr, Hrej; auto.
  - intros R. rewrite dom_empty_L. set_solver.
Qed.

(** *** The tasks *)

Context (cancelled : CommitIndex → nat → bool).

Section Search.
Context (B : gmap BlockRef BlockState) (G : list (CommitIndex * Round)) (Q : BlockRef * gset TransactionIndex → list TransactionIndex → Prop).

Definition searched (es : list (BlockRef * gset TransactionIndex)) (out : list (BlockRef * list TransactionIndex)) : Prop :=
  (∀ o, o ∈ out → ∃ e, e ∈ es ∧ o.1 = e.1 ∧ Q e o.2) ∧ (∀ e, e ∈ es → ∃ r, Q e r ∧ (r = [] ∨ (e.1, r) ∈ out)).

Lemma chunk_task_spec chunk :
  (∀ e, e ∈ chunk → ∃ r, try_indirect_finalize_pending_transactions_in_block ctx B G e.1 e.2 = Ret r ∧ Q e r) →
  ∃ out, chunk_task ctx B G chunk = Ret out ∧ searched chunk out.
Proof using.
  intros Hch. unfold chunk_task.
  edestruct (mapP_spec (λ e : BlockRef * gset TransactionIndex,
     finalized ← try_indirect_finalize_pending_transactions_in_block ctx B G e.1 e.2; Ret (e.1, finalized))
     (λ e o, o.1 = e.1 ∧ Q e o.2) chunk) as (bs & -> & Hbs).
  { intros e He. destruct (Hch e He) as (r & -> & Hr). cbn [mbind M_bind]. by exists (e.1, r). }
  cbn [mbind M_bind]. eexists. split; [done|]. split.
  - intros o [_ Ho]%list_elem_of_filter. destruct (Forall2_elem_r _ _ _ _ Hbs Ho) as (e & He & ? & ?). by exists e.
  - intros e He. destruct (Forall2_elem_l _ _ _ _ Hbs He) as ([R r] & Ho & Hr & HQ). simpl in *. exists r. split; [done|].
    destruct (decide (r = [])) as [|Hne]; [by left|right]. apply list_elem_of_filter. subst. done.
Qed.

Lemma await_tasks_spec ci k chs :
  (∀ e, e ∈ mjoin chs → ∃ r, try_indirect_finalize_pending_transactions_in_block ctx B G e.1 e.2 = Ret r ∧ Q e r) →
  ∃ r, await_tasks cancelled ci k (chunk_task ctx B G <$> chs) = Ret r ∧
    match r with Ok out => searched (mjoin chs) out | Err er => er = Shutdown ∧ ∃ j, cancelled ci j = true end.
Proof using.
  revert k. induction chs as [|ch chs IH]; intros k Hch.
  - exists (Ok []). split; [done|]. split; [by intros o []%not_elem_of_nil|by intros e []%not_elem_of_nil].
  - rewrite fmap_cons. cbn [await_tasks]. change (mjoin (ch :: chs)) with (ch ++ mjoin chs) in *.
    destruct (cancelled ci k) eqn:Ek; [exists (Err Shutdown); split; [done|]; split; [done|by exists k]|].
    destruct (chunk_task_spec ch) as (out & -> & Hout); [intros e He; apply Hch, elem_of_app; by left|]. cbn [mbind M_bind].
    destruct (IH (Datatypes.S k)) as (r & -> & Hr); [intros e He; apply Hch, elem_of_app; by right|].
    unfold try_bind. cbn [mbind M_bind]. destruct r as [rest|er]; [|by exists (Err er)].
    exists (Ok (out ++ rest)). split; [done|]. destruct Hout as [O1 O2], Hr as [R1 R2]. split.
    + intros o [Ho|Ho]%elem_of_app; [destruct (O1 o Ho) as (e & ? & ?)|destruct (R1 o Ho) as (e & ? & ?)];
        exists e; (split; [apply elem_of_app; auto|done]).
    + intros e [He|He]%elem_of_app; [destruct (O2 e He) as (r & HQ & [->|Hr])|destruct (R2 e He) as (r & HQ & [->|Hr])];
        exists r || exists []; (split; [done|]); rewrite elem_of_app; auto.
Qed.

End Search.
Lemma indirect_accept_spec f s cs rest seen hist :
  cf_context f = ctx → ds_context s = ctx → cf_pending_commits f = cs :: rest → cs_pending_blocks cs = ∅ →
  stream_ok c (commits_of (cs :: rest)) → mirror (placed_of (cs :: rest)) (placed_of (cs :: rest)) (cf_blocks f) →
  commits_of (cs :: rest) ⊆ hist → cs_ok c depth seen hist cs →
  ∃ r, CommitFinalizer_try_indirect_finalize_pending_transactions_in_first_commit cancelled f s = Ret r ∧
    match r with
    | Ok f' => ∃ cs', f' = set_pending_commits (cs' :: rest) f ∧ cs_commit cs' = cs_commit cs ∧ cs_pending_blocks cs' = ∅ ∧
        cs_ok c depth seen hist cs' ∧
        ∀ R i, i ∈ txs (cs_pending_transactions cs') R → unaccepted c depth (commits_of (cs :: rest)) R i
    | Err er => er = Shutdown ∧ ∃ k j, cancelled k j = true
    end.
Proof using Hwf.
  intros Hf Hds Hp Hb Hs Hm Hh Hok. unfold CommitFinalizer_try_indirect_finalize_pending_transactions_in_first_commit.
  rewrite Hp, (proj2 (index_Ret (cs :: rest) 0 cs) eq_refl), Hf. cbn [mbind M_bind].
  assert (commit_gc_round s <$> (cs :: rest) = gc_rounds_of (commits_of (cs :: rest))) as ->.
  { unfold gc_rounds_of, commits_of. rewrite <- list_fmap_compose. apply list_fmap_ext. intros _ x _.
    unfold commit_gc_round, compose. by rewrite (calculate_gc_round_ctx ctx). }
  set (B := cf_blocks f) in *. set (window := commits_of (cs :: rest)) in *.
  assert (window !! 0%nat = Some (cs_commit cs)) as Hw0 by done.
  pose proof (gc_table_of window (cs_commit cs) B Hs Hw0 Hm) as HG.
  pose proof (mirror_linked c _ _ _ (st_causal c _ Hs) (λ e He, He) Hm) as Hlk.
  set (Q := λ (e : BlockRef * gset TransactionIndex) (r : list TransactionIndex), ∀ i, i ∈ r ↔ i ∈ e.2 ∧
    is_quorum c (accepters B (gc_rounds_of window) e.1 (commit_index (cs_commit cs)) i)).
  destruct (await_tasks_spec B (gc_rounds_of window) Q (cr_index (sd_commit_ref (cs_commit cs))) 0
    (chunks BLOCKS_PER_INDIRECT_COMMIT_TASK (bmap_list (cs_pending_transactions cs)))) as (r & -> & Hr).
  { rewrite chunks_join by (unfold BLOCKS_PER_INDIRECT_COMMIT_TASK; lia). intros [R X] Hin.
    destruct (pending_block _ _ _ _ _ _ _ Hok Hin) as (b & Hbl & -> & _).
    destruct (first_block_state window (cs_commit cs) B b Hs Hw0 Hm Hbl) as (st & Hst & Hci). unfold Q. simpl. rewrite <- Hci.
    apply indirect_finalize_spec; [done|done|done|by rewrite Hci]. }
  rewrite chunks_join in Hr by (unfold BLOCKS_PER_INDIRECT_COMMIT_TASK; lia).
  unfold try_bind. cbn [mbind M_bind]. destruct r as [out|er]; [|exists (Err er); split; [done|]; destruct Hr as [-> [j Hj]]; eauto].
  eexists. split; [done|]. cbn beta iota. destruct Hr as [Hout Hall].
  destruct (remove_all_spec seen hist out cs Hok) as (Ec & Eb & Hok' & Hpend).
  { intros o i Ho Hi. destruct (Hout o Ho) as (e & He & Heq & HQ). rewrite Heq. right. pose proof (proj1 (HQ i) Hi) as [_ Hq].
    by eapply accepters_certified; [apply (st_causal c _ Hs)|exact Hm|done|]. }
  eexists. split; [done|]. split; [done|]. split; [by rewrite Eb|]. split; [done|]. intros R i Hi. destruct (Hpend R i Hi) as [Hi' Hno].
  unfold txs in Hi'. destruct (cs_pending_transactions cs !! R) as [X|] eqn:EX; [|set_solver].
  assert ((R, X) ∈ bmap_list (cs_pending_transactions cs)) as Hin by (by apply bmap_list_elem).
  destruct (pending_block _ _ _ _ _ _ _ Hok Hin) as (b & Hbl & -> & _).
  destruct (first_block_state window (cs_commit cs) B b Hs Hw0 Hm Hbl) as (st & Hst & Hci). exists B, st.
  split; [done|]. split; [done|]. rewrite Hci. intros Hq. destruct (Hall _ Hin) as (r & HQ & Hr).
  assert (i ∈ r) as Hir by (by apply HQ). destruct Hr as [->|Hr]; [by apply not_elem_of_nil in Hir|]. apply Hno. by exists r.
Qed.

(** *** The first commit is finalized after three rounds *)

Lemma indirect_first_spec f t s cs rest seen hist before l :
  cf_context f = ctx → ds_context s = ctx → cf_pending_commits f = cs :: rest → cs_pending_blocks cs = ∅ →
  stream_ok c (commits_of (cs :: rest)) → mirror (placed_of (cs :: rest)) (placed_of (cs :: rest)) (cf_blocks f) →
  last (cs :: rest) = Some l → hist = before ++ commits_of (cs :: rest) →
  covers t (cs_commit cs) → t ∈ seen → cs_ok c depth seen hist cs →
  ∃ r, CommitFinalizer_try_indirect_finalize_first_commit cancelled f t s = Ret r ∧
    match r with
    | Ok f' => ∃ cs', f' = set_pending_commits (cs' :: rest) f ∧ cs_commit cs' = cs_commit cs ∧ cs_pending_blocks cs' = ∅ ∧
        cs_ok c depth seen hist cs' ∧ (leader_round cs + INDIRECT_REJECT_DEPTH ≤ leader_round l → finished cs')
    | Err er => er = Shutdown ∧ ∃ k j, cancelled k j = true
    end.
Proof using Hwf.
  intros Hf Hds Hp Hb Hs Hm Hl Hh Hcov Ht Hok. unfold CommitFinalizer_try_indirect_finalize_first_commit.
  rewrite Hp, (proj2 (index_Ret (cs :: rest) 0 cs) eq_refl). cbn [is_nil negb assert_that mbind M_bind].
  rewrite bool_decide_eq_true_2 by done. cbn [assert_that mbind M_bind].
  destruct (check_pending_spec f t cs rest seen hist Hf Hp Hb Hcov Ht Hok) as (cs1 & -> & Ec1 & Eb1 & Hok1). cbn [mbind M_bind].
  assert (∀ cs', cs_commit cs' = cs_commit cs → commits_of (cs' :: rest) = commits_of (cs :: rest)) as Hsame.
  { intros cs' Ec. unfold commits_of. by rewrite !fmap_cons, Ec. }
  destruct (indirect_accept_spec (set_pending_commits (cs1 :: rest) f) s cs1 rest seen hist Hf Hds eq_refl Eb1) as (r & -> & Hr);
    [by rewrite Hsame|unfold placed_of; by rewrite Hsame|rewrite Hsame by done; set_solver|done|].
  unfold try_bind. cbn [mbind M_bind]. destruct r as [f1|er]; [|by exists (Err er)].
  destruct Hr as (cs2 & -> & Ec2 & Eb2 & Hok2 & Hun).
  assert (∃ l', last (cs2 :: rest) = Some l' ∧ leader_round l' = leader_round l) as (l' & Hl' & El').
  { destruct rest as [|x rest]; [simpl in Hl |- *; injection Hl as <-; exists cs2; split; [done|]; unfold leader_round; by rewrite Ec2, Ec1|].
    exists l. by rewrite last_cons_cons in Hl |- *. }
  assert (cs_commit cs2 = cs_commit cs) as Ec by (by rewrite Ec2).
  destruct (indirect_reject_spec (set_pending_commits (cs2 :: rest) f) cs2 rest seen hist before l' eq_refl Eb2)
    as (cs3 & Hrun & Ec3 & Eb3 & Hok3 & Hfin); [|done|by rewrite Hsame|done|by rewrite Hsame in Hun |- *|].
  { rewrite Ec. pose proof (st_commits c _ Hs) as [Hcm _]%Forall_cons. exact Hcm. }
  change (set_pending_commits (cs2 :: rest) (set_pending_commits (cs1 :: rest) f)) with (set_pending_commits (cs2 :: rest) f).
  rewrite Hrun. cbn [mbind M_bind]. eexists. split; [done|]. exists cs3. split; [done|]. rewrite Ec3. split; [done|]. split; [done|].
  split; [done|]. intros Hle. apply Hfin. rewrite El'. unfold leader_round in *. by rewrite Ec.
Qed.

End First.
