(* ===== verification/FinalizerRun.v ===== *)
(** * Running the commit finalizer

    The finalizer outputs the commits that it is given in their order, each at the latest when a commit
    arrives whose leader is three rounds later, and with a reason for each transaction finalized or
    rejected.  The commits are as the linearizer produces them, and the vote tracker knows
    the blocks that are not finalized yet. *)

From S2P Require Import Prelude BTree Config StakeLists Block Commit Store StakeAggregator ThresholdClock.
From S2P Require Import LeaderScoring DagState TransactionVoteTracker VoteTrackerTheory.
From S2P Require Import CommitFinalizer FinalizerVotes FinalizerLinks FinalizerReasons FinalizerDirect FinalizerIndirect.
Local Open Scope N_scope.
Local Open Scope result_scope.

(** ** Pending commits are less than three rounds behind *)

Definition waiting (ps : list CommitState) : Prop :=
  ∀ cs l, cs ∈ ps → last ps = Some l → leader_round l < leader_round cs + INDIRECT_REJECT_DEPTH.

Lemma waiting_head c ps :
  stream_ok c (commits_of ps) →
  (∀ cs l, head ps = Some cs → last ps = Some l → leader_round l < leader_round cs + INDIRECT_REJECT_DEPTH) → waiting ps.
Proof.
  intros Hs Hh cs l Hcs Hl. destruct ps as [|cs0 ps]; [by apply not_elem_of_nil in Hcs|].
  specialize (Hh cs0 l eq_refl Hl). apply elem_of_cons in Hcs as [->|Hcs]; [done|].
  assert (leader_round cs0 ≤ leader_round cs); [|lia]. rewrite !leader_round_of.
  apply (stream_leader_le c [cs_commit cs0] (commits_of ps)); [done|left|by apply commits_of_elem].
Qed.

Lemma last_suffix {A} (l1 l2 : list A) x : last l2 = Some x → last (l1 ++ l2) = Some x.
Proof. intros Hl. rewrite last_app, Hl. done. Qed.

Lemma direct_done_suffix ps qs : direct_done (ps ++ qs) → direct_done qs.
Proof.
  intros Hd cs l Hcs Hb Hl. apply Hd; [apply elem_of_app; by right|done|by apply last_suffix].
Qed.

Section Run.
Context `{Profile} {S : Type} `{Store S} (ctx : Context).
Local Abbreviation c := (ctx_committee ctx).
Local Abbreviation depth := (pc_gc_depth (ctx_protocol_config ctx)).
Context (Hwf : Committee_wf c) (cancelled : CommitIndex → nat → bool).
Implicit Types (f : CommitFinalizer) (t : VoteTrackerState) (s : DagState S) (ps : list CommitState).

(** [advances seen hist ps f out ps']: of the pending commits [ps] a prefix is output and [ps'] is left. *)
Record advances (seen : list VoteTrackerState) (hist : list CommittedSubDag) ps (out : list CommittedSubDag)
    (f : CommitFinalizer) : Prop := {
  ad_split : ∃ popped, out = outputs popped ∧ commits_of popped ++ commits_of (cf_pending_commits f) = commits_of ps ∧
    Forall finished popped ∧ Forall (cs_ok c depth seen hist) popped;
  ad_states : Forall (cs_ok c depth seen hist) (cf_pending_commits f);
  ad_mirror : mirror (placed_of (cf_pending_commits f)) (placed_of (cf_pending_commits f)) (cf_blocks f);
}.

Definition shut_down (e : ConsensusError) : Prop := e = Shutdown ∧ ∃ k j, cancelled k j = true.

Lemma advances_app seen hist ps qs out1 out2 popped f :
  out1 = outputs popped → Forall finished popped → Forall (cs_ok c depth seen hist) popped →
  commits_of popped ++ commits_of qs = commits_of ps → advances seen hist qs out2 f →
  advances seen hist ps (out1 ++ out2) f.
Proof using.
  intros -> Hfin Hok Heq [(p2 & -> & Heq2 & Hfin2 & Hok2) Hst Hm]. split; [|done|done].
  exists (popped ++ p2). unfold outputs, commits_of in *. rewrite !fmap_app. split; [done|].
  rewrite <- (assoc_L (++)), Heq2. split; [done|]. by rewrite !Forall_app.
Qed.

Lemma indirect_commits_loop_spec fuel f t s seen hist before acc :
  (length (cf_pending_commits f) ≤ fuel)%nat → (0 < fuel)%nat → cf_context f = ctx → ds_context s = ctx →
  stream_ok c (commits_of (cf_pending_commits f)) →
  mirror (placed_of (cf_pending_commits f)) (placed_of (cf_pending_commits f)) (cf_blocks f) →
  hist = before ++ commits_of (cf_pending_commits f) →
  (∀ cs, cs ∈ cf_pending_commits f → covers t (cs_commit cs)) → t ∈ seen →
  Forall (cs_ok c depth seen hist) (cf_pending_commits f) → direct_done (cf_pending_commits f) →
  ∃ r, indirect_commits_loop cancelled fuel f t s acc = Ret r ∧
    match r with
    | Ok (f', out) => ∃ new, out = acc ++ new ∧ cf_context f' = ctx ∧ cf_last_processed_commit f' = cf_last_processed_commit f ∧
        advances seen hist (cf_pending_commits f) new f' ∧ waiting (cf_pending_commits f')
    | Err e => shut_down e
    end.
Proof using Hwf.
  revert f before acc. induction fuel as [|fuel IH]; intros f before acc Hlen Hpos Hf Hds Hs Hm Hh Hcov Ht Hok Hdd; [lia|].
  assert (∀ f', f' = f → waiting (cf_pending_commits f) → ∃ r : ConsensusResult (CommitFinalizer * list CommittedSubDag),
    Ret (Ok (f', acc)) = Ret r ∧ match r with
    | Ok (f', out) => ∃ new, out = acc ++ new ∧ cf_context f' = ctx ∧ cf_last_processed_commit f' = cf_last_processed_commit f ∧
        advances seen hist (cf_pending_commits f) new f' ∧ waiting (cf_pending_commits f')
    | Err e => shut_down e end) as Hstop.
  { intros f' -> Hw. eexists. split; [done|]. exists []. rewrite app_nil_r. split; [done|]. split; [done|]. split; [done|].
    split; [|done]. split; [by exists []|done|done]. }
  cbn [indirect_commits_loop]. destruct (Nat.ltb_spec 1 (length (cf_pending_commits f))) as [Hlt|Hge].
  2: { apply Hstop; [done|]. eapply waiting_head; [exact Hs|]. intros cs l Hcs Hl.
       destruct (cf_pending_commits f) as [|x [|y ps]]; [done| |simpl in Hge; lia]. simpl in *. injection Hcs as <-. injection Hl as <-.
       unfold INDIRECT_REJECT_DEPTH. lia. }
  destruct (cf_pending_commits f) as [|cs rest] eqn:Eps; [simpl in Hlt; lia|].
  rewrite (proj2 (index_Ret (cs :: rest) 0 cs) eq_refl). cbn [mbind M_bind].
  assert (∃ l, last (cs :: rest) = Some l) as [l Hl] by (destruct (last (cs :: rest)) eqn:E; [by eexists|by apply last_None in E]).
  destruct (bool_decide (cs_pending_blocks cs = ∅)) eqn:Eb; cbn [negb].
  2: { apply bool_decide_eq_false in Eb. apply Hstop; [done|]. eapply waiting_head; [exact Hs|]. intros x l' [= <-] Hl'.
       apply Hdd; [left|done|done]. }
  apply bool_decide_eq_true in Eb. pose proof Hok as [Hok0 Hokr]%Forall_cons.
  destruct (indirect_first_spec ctx Hwf cancelled f t s cs rest seen hist before l Hf Hds Eps Eb Hs Hm Hl Hh (Hcov cs ltac:(left)) Ht Hok0)
    as (r & -> & Hr). unfold try_bind. cbn [mbind M_bind]. destruct r as [f1|e]; [|by exists (Err e)].
  destruct Hr as (cs' & -> & Ec & Eb' & Hok' & Hfin).
  assert (commits_of (cs' :: rest) = commits_of (cs :: rest)) as Ecs by (unfold commits_of; by rewrite !fmap_cons, Ec).
  unfold CommitFinalizer_pop_finalized_commits. cbn [cf_pending_commits set_pending_commits cf_blocks].
  destruct (pop_loop_spec c (cs' :: rest) [] (cf_blocks f)) as (popped & ps' & Esplit & -> & Hpop & Hhead); [by rewrite Ecs|].
  cbn [mbind M_bind app]. assert (Forall (cs_ok c depth seen hist) (popped ++ ps')) as [Hok1 Hok2]%Forall_app by (rewrite <- Esplit; by constructor).
  set (f2 := mkCommitFinalizer _ _ _ _).
  assert (commits_of popped ++ commits_of ps' = commits_of (cs :: rest)) as Ecs'.
  { rewrite <- Ecs, Esplit. unfold commits_of. by rewrite fmap_app. }
  assert (mirror (placed_of ps') (placed_of ps') (cf_blocks f2)) as Hm2.
  { unfold f2. cbn [cf_blocks]. eapply (mirror_pop c popped ps' []); [|  |by left].
    - rewrite app_nil_r, <- Esplit, Ecs. done.
    - rewrite <- Esplit. unfold placed_of. rewrite Ecs. done. }
  assert (direct_done (cs' :: rest)) as Hdd'.
  { intros x l' [->|Hx]%elem_of_cons Hb Hl'; [done|]. destruct rest as [|y rest]; [by apply not_elem_of_nil in Hx|].
    rewrite last_cons_cons in Hl'. apply Hdd; [by right|done|by rewrite last_cons_cons]. }
  destruct popped as [|x popped].
  - cbn [outputs fmap list_fmap is_nil]. eexists. split; [done|]. exists []. rewrite app_nil_r. split; [done|]. split; [done|]. split; [done|].
    cbn [app] in Esplit. subst ps'. split; [split; [exists []; done|by constructor|done]|].
    change (waiting (cs' :: rest)). apply (waiting_head c); [by rewrite Ecs|]. intros x l' [= <-] Hl'.
    assert (leader_round l' = leader_round l) as ->.
    { destruct rest; simpl in *; [simplify_eq; unfold leader_round; by rewrite Ec|congruence]. }
    assert (leader_round cs' = leader_round cs) as -> by (unfold leader_round; by rewrite Ec).
    destruct (N.le_gt_cases (leader_round cs + INDIRECT_REJECT_DEPTH) (leader_round l)) as [Hle|]; [|done].
    by apply Hfin, (Hhead cs') in Hle.
  - change (is_nil (outputs (x :: popped))) with false. cbv iota.
    destruct (IH f2 (before ++ commits_of (x :: popped)) (acc ++ outputs (x :: popped))) as (r & -> & Hr).
    + assert (length (cs' :: rest) = length (x :: popped) + length ps')%nat by (by rewrite Esplit, length_app).
      cbn [f2 cf_pending_commits]. simpl in *. lia.
    + simpl in *. lia.
    + done.
    + done.
    + apply (stream_ok_r c (commits_of (x :: popped))). unfold f2. cbn [cf_pending_commits]. by rewrite Ecs'.
    + done.
    + rewrite <- (assoc_L (++)). unfold f2. cbn [cf_pending_commits]. by rewrite Ecs'.
    + intros y Hy. assert (cs_commit y ∈ commits_of (cs :: rest)) as Hy'.
      { rewrite <- Ecs'. apply elem_of_app. right. by apply commits_of_elem. }
      apply list_elem_of_fmap in Hy' as (z & -> & Hz). by apply Hcov.
    + done.
    + done.
    + rewrite Esplit in Hdd'. by apply direct_done_suffix in Hdd'.
    + exists r. split; [done|]. destruct r as [[f' out]|e]; [|done]. destruct Hr as (new & -> & H1 & H2 & H3 & H4).
      exists (outputs (x :: popped) ++ new). rewrite (assoc_L (++)). split; [done|]. split; [done|]. split; [done|]. split; [|done].
      by eapply advances_app.
Qed.

(** ** Processing a commit *)

(** The finalizer has processed [hist], and read the trackers [seen] on the way. *)
Record fin_ok (seen : list VoteTrackerState) (hist : list CommittedSubDag) (f : CommitFinalizer) : Prop := {
  fo_context : cf_context f = ctx;
  fo_last : cf_last_processed_commit f = commit_index <$> last hist;
  fo_suffix : ∃ before, hist = before ++ commits_of (cf_pending_commits f);
  fo_states : Forall (cs_ok c depth seen hist) (cf_pending_commits f);
  fo_mirror : mirror (placed_of (cf_pending_commits f)) (placed_of (cf_pending_commits f)) (cf_blocks f);
  fo_waiting : waiting (cf_pending_commits f);
}.

Lemma new_ok : fin_ok [] [] (CommitFinalizer_new ctx).
Proof using.
  split; [done|done|by exists []|constructor| |].
  - by split; cbn [CommitFinalizer_new cf_blocks]; [intros r st|intros e []%not_elem_of_nil|intros r st r'|intros r st r']; rewrite lookup_empty.
  - intros cs l []%not_elem_of_nil.
Qed.

Lemma CommitState_new_fresh commit : commit_ok c commit → CommitState_new commit = Ret (fresh_state commit).
Proof using.
  intros Hcm. unfold CommitState_new. cbv zeta. rewrite bool_decide_eq_false_2; [done|].
  apply fresh_nonempty, (cm_blocks c _ Hcm).
Qed.

(** Commits popped right after direct finalization: either the last commit stays, or nothing does. *)
Lemma pop_direct ps' popped (rest old : list CommitState) (new : CommitState) :
  ps' = popped ++ rest → commits_of ps' = commits_of (old ++ [new]) →
  (∃ rest' last', rest = rest' ++ [last'] ∧ commits_of (popped ++ rest') = commits_of old ∧ cs_commit last' = cs_commit new) ∨
  (rest = [] ∧ ∃ popped' last', popped = popped' ++ [last'] ∧ commits_of popped' = commits_of old ∧ cs_commit last' = cs_commit new).
Proof using.
  intros -> Heq. unfold commits_of in *. rewrite !fmap_app in Heq.
  destruct rest as [|l rest _] using rev_ind.
  - right. split; [done|]. rewrite app_nil_r in Heq. destruct popped as [|l popped _] using rev_ind.
    { by destruct (cs_commit <$> old). }
    rewrite fmap_app in Heq. cbn [fmap list_fmap] in Heq. apply app_inj_tail in Heq as [H1 H2]. by exists popped, l.
  - left. exists rest, l. split; [done|]. rewrite fmap_app, (assoc_L (++)) in Heq. cbn [fmap list_fmap] in Heq.
    apply app_inj_tail in Heq as [H1 H2]. by rewrite fmap_app.
Qed.

Lemma process_commit_spec f t s seen hist commit :
  fin_ok seen hist f → ds_context s = ctx → stream_ok c (hist ++ [commit]) →
  (∀ cs, cs ∈ cf_pending_commits f → covers t (cs_commit cs)) → covers t commit →
  ∃ r, CommitFinalizer_process_commit cancelled f t s commit = Ret r ∧
    match r with
    | Ok (f', out) => fin_ok (seen ++ [t]) (hist ++ [commit]) f' ∧
        ∃ popped, out = outputs popped ∧ commits_of popped ++ commits_of (cf_pending_commits f') = commits_of (cf_pending_commits f) ++ [commit] ∧
          Forall finished popped ∧ Forall (cs_ok c depth (seen ++ [t]) (hist ++ [commit])) popped
    | Err e => shut_down e
    end.
Proof using Hwf.
  intros [Hf Hlast [before Hh] Hok Hm Hw] Hds Hs Hcov Hcov'. unfold CommitFinalizer_process_commit.
  pose proof (st_commits c _ Hs) as [_ [Hcm _]%Forall_cons]%Forall_app.
  pose proof (st_bound c _ Hs) as [_ [Hb _]%Forall_cons]%Forall_app.
  assert ((match cf_last_processed_commit f with
     | Some last_processed_commit =>
         next ← u32_add last_processed_commit 1;
         assert_that (next =? cr_index (sd_commit_ref commit)) "last_processed_commit + 1"
     | None => Ret tt
     end) = Ret tt) as ->.
  { rewrite Hlast. destruct (last hist) as [l|] eqn:El; cbn [fmap option_fmap option_map]; [|done].
    apply last_Some in El as [h ->].
    assert (commit_index commit = commit_index l + 1) as Hi.
    { apply (st_indices c _ Hs (length h)); rewrite <- (assoc_L (++)); [by apply list_lookup_middle|].
      rewrite cons_middle, (assoc_L (++)). apply list_lookup_middle. rewrite length_app. simpl. lia. }
    arith. rewrite <- Hi. unfold commit_index. by rewrite N.eqb_refl. }
  cbn [mbind M_bind]. rewrite CommitState_new_fresh by done. cbn [mbind M_bind].
  set (ps := cf_pending_commits f) in *. set (f0 := mkCommitFinalizer _ _ _ _).
  assert (stream_ok c (commits_of (ps ++ [fresh_state commit]))) as Hs0.
  { apply (stream_ok_r c before). unfold commits_of. rewrite fmap_app. cbn [fmap list_fmap cs_commit fresh_state].
    rewrite (assoc_L (++)). fold (commits_of ps). by rewrite <- Hh. }
  assert (∀ x, cs_commit x ∈ commits_of (ps ++ [fresh_state commit]) → covers t (cs_commit x)) as Hcovall.
  { intros x. unfold commits_of. rewrite fmap_app, elem_of_app. cbn [fmap list_fmap].
    intros [(y & -> & Hy)%list_elem_of_fmap| ->%list_elem_of_singleton]; [by apply Hcov|done]. }
  destruct (direct_loop_spec ctx (length (cf_pending_commits f0)) 0 f0 t s seen (hist ++ [commit])) as (ps1 & -> & Ecs & Hok1 & Hdd);
    [done|done|done| | |done|intros; lia|].
  { intros x Hx. apply Hcovall. by apply commits_of_elem. }
  { apply Forall_app. split; [|apply Forall_singleton, fresh_ok, (cm_blocks c _ Hcm)].
    eapply Forall_impl; [exact Hok|]. intros x Hx. eapply cs_ok_mono; [|exact Hx]. set_solver. }
  cbn [mbind M_bind]. unfold CommitFinalizer_pop_finalized_commits. cbn [cf_pending_commits set_pending_commits cf_blocks].
  change (cf_pending_commits f0) with (ps ++ [fresh_state commit]) in *.
  destruct (pop_loop_spec c ps1 [] (cf_blocks f0)) as (popped & rest & Esplit & -> & Hpop & Hhead); [by rewrite Ecs|].
  cbn [mbind M_bind app]. rewrite Esplit in Hok1, Hdd. apply Forall_app in Hok1 as [Hokp Hokr]. apply direct_done_suffix in Hdd.
  set (f1 := mkCommitFinalizer _ _ _ _).
  assert (hist ++ [commit] = (before ++ commits_of popped) ++ commits_of rest) as Hh1.
  { rewrite <- (assoc_L (++)). unfold commits_of. rewrite <- fmap_app, <- Esplit. fold (commits_of ps1). rewrite Ecs, Hh.
    unfold commits_of. rewrite fmap_app. by rewrite (assoc_L (++)). }
  assert (commits_of popped ++ commits_of rest = commits_of ps ++ [commit]) as Ecs1.
  { unfold commits_of. rewrite <- fmap_app, <- Esplit. fold (commits_of ps1). rewrite Ecs. unfold commits_of. by rewrite fmap_app. }
  assert (Some (commit_index commit) = commit_index <$> last (hist ++ [commit])) as Hlast1 by (by rewrite last_snoc).
  destruct (pop_direct ps1 popped rest ps (fresh_state commit) Esplit Ecs) as
    [(rest' & last' & -> & Ec & El)|(-> & popped' & last' & -> & Ec & El)].
  - assert (mirror (placed_of rest') (placed_of rest') (cf_blocks f1)) as Hm1.
    { unfold f1. cbn [cf_blocks]. eapply (mirror_pop c popped rest' [last']); [| |by left].
      - rewrite <- Esplit, Ecs. done.
      - unfold placed_of. by rewrite Ec. }
    assert (is_nil (rest' ++ [last']) = false) as Enil by (by destruct rest').
    cbn [f1 cf_pending_commits]. rewrite Enil. fold f1.
    assert (stream_ok c (commits_of (rest' ++ [last']))) as Hs1.
    { apply (stream_ok_r c (before ++ commits_of popped)). by rewrite <- Hh1. }
    destruct (link_last_spec c f1 rest' last' eq_refl Hs1 Hm1) as (f2 & B & -> & Happ & Hm2). cbn [mbind M_bind]. rewrite Happ. cbn [mbind M_bind].
    destruct (indirect_commits_loop_spec (length (rest' ++ [last'])) (set_blocks B f1) t s (seen ++ [t]) (hist ++ [commit])
      (before ++ commits_of popped) (outputs popped)) as (r & Hr & Hpost); try done.
    { rewrite length_app. simpl. lia. }
    { intros x Hx. apply Hcovall. rewrite <- Ecs, Esplit. apply commits_of_elem, elem_of_app. by right. }
    { set_solver. }
    exists r. split; [exact Hr|]. destruct r as [[f' out]|e]; [|done].
    destruct Hpost as (new & -> & Hctx' & Hlast' & [(p2 & -> & Ecs2 & Hfin2 & Hokp2) Hst2 Hmir2] & Hw2).
    change (commits_of p2 ++ commits_of (cf_pending_commits f') = commits_of (rest' ++ [last'])) in Ecs2.
    split.
    + split; [done|by rewrite Hlast'| |done|done|done]. exists (before ++ commits_of popped ++ commits_of p2).
      rewrite Hh1, <- Ecs2, <- !(assoc_L (++)). done.
    + exists (popped ++ p2). unfold outputs, commits_of in *. rewrite !fmap_app. split; [done|].
      rewrite <- (assoc_L (++)), Ecs2. split; [exact Ecs1|]. by rewrite !Forall_app.
  - cbn [f1 cf_pending_commits is_nil]. eexists. split; [done|]. split.
    + assert (mirror (placed_of []) (placed_of []) (cf_blocks f1)) as Hm1.
      { unfold f1. cbn [cf_blocks]. eapply (mirror_pop c popped' [] [last']); [| |right; by split].
        - cbn [app]. rewrite app_nil_r in Esplit. rewrite <- Esplit, Ecs. done.
        - rewrite app_nil_r. unfold placed_of. by rewrite Ec. }
      split; [done|done| |constructor|done|intros cs l []%not_elem_of_nil].
      exists (before ++ commits_of (popped' ++ [last'])). exact Hh1.
    + exists (popped' ++ [last']). done.
Qed.

(** ** A run *)

(** A commit to process, with the vote tracker and the DAG state as they are then. *)
Record finalizer_input : Type := mkInput {
  in_tracker : VoteTrackerState;
  in_dag : DagState S;
  in_commit : CommittedSubDag;
}.

Fixpoint finalizer_run f (inputs : list finalizer_input) : M (ConsensusResult (CommitFinalizer * list CommittedSubDag)) :=
  match inputs with
  | [] => Ret (Ok (f, []))
  | i :: inputs =>
      r ←? CommitFinalizer_process_commit cancelled f (in_tracker i) (in_dag i) (in_commit i);
      r' ←? finalizer_run r.1 inputs;
      Ret (Ok (r'.1, r.2 ++ r'.2))
  end.

(** The commits come as the linearizer makes them; the vote tracker covers a commit when it arrives, and
    later while the last commit is less than three rounds ahead of it. *)
Record inputs_ok (inputs : list finalizer_input) : Prop := {
  io_dag : Forall (λ i, ds_context (in_dag i) = ctx) inputs;
  io_stream : stream_ok c (in_commit <$> inputs);
  io_covers : ∀ pre i post, inputs = pre ++ i :: post → covers (in_tracker i) (in_commit i) ∧
    ∀ commit l, commit ∈ in_commit <$> pre → last (in_commit <$> pre) = Some l →
      leader_of l < leader_of commit + INDIRECT_REJECT_DEPTH → covers (in_tracker i) commit;
}.

Lemma finalizer_run_spec pre inputs f :
  inputs_ok (pre ++ inputs) → fin_ok (in_tracker <$> pre) (in_commit <$> pre) f →
  ∃ r, finalizer_run f inputs = Ret r ∧
    match r with
    | Ok (f', outs) => fin_ok (in_tracker <$> pre ++ inputs) (in_commit <$> pre ++ inputs) f' ∧
        ∃ popped, outs = outputs popped ∧
          commits_of popped ++ commits_of (cf_pending_commits f') = commits_of (cf_pending_commits f) ++ (in_commit <$> inputs) ∧
          Forall finished popped ∧ Forall (cs_ok c depth (in_tracker <$> pre ++ inputs) (in_commit <$> pre ++ inputs)) popped
    | Err e => shut_down e
    end.
Proof using Hwf.
  revert pre f. induction inputs as [|i inputs IH]; intros pre f Hin Hf.
  - rewrite app_nil_r. eexists. split; [done|]. split; [done|]. exists []. by rewrite app_nil_r.
  - cbn [finalizer_run]. destruct (io_covers _ Hin pre i inputs eq_refl) as [Hcov Hcov'].
    rewrite cons_middle, (assoc_L (++)) in Hin |- *.
    pose proof (io_dag _ Hin) as [[_ [Hds _]%Forall_cons]%Forall_app _]%Forall_app.
    destruct (process_commit_spec f (in_tracker i) (in_dag i) _ _ (in_commit i) Hf Hds) as (r & -> & Hr); [|  |done|].
    { pose proof (io_stream _ Hin) as Hs. rewrite fmap_app in Hs. apply stream_ok_l in Hs. by rewrite fmap_app in Hs. }
    { intros cs Hcs. destruct (fo_suffix _ _ _ Hf) as [before Hb].
      assert (∃ l, last (cf_pending_commits f) = Some l) as [l Hl].
      { destruct (last (cf_pending_commits f)) eqn:E; [by eexists|]. apply last_None in E. rewrite E in Hcs. by apply not_elem_of_nil in Hcs. }
      apply (Hcov' _ (cs_commit l)).
      - rewrite Hb. apply elem_of_app. right. by apply commits_of_elem.
      - rewrite Hb. apply last_suffix. unfold commits_of. by rewrite fmap_last, Hl.
      - by apply (fo_waiting _ _ _ Hf). }
    unfold try_bind at 1. cbn [mbind M_bind]. destruct r as [[f1 out1]|e]; [|by exists (Err e)].
    destruct Hr as [Hf1 (p1 & -> & E1 & Hfin1 & Hok1)]. cbn [fst snd].
    destruct (IH (pre ++ [i]) f1) as (r & -> & Hr); [done|by rewrite !fmap_app|].
    unfold try_bind. cbn [mbind M_bind]. destruct r as [[f2 out2]|e]; [|by exists (Err e)]. cbn [fst snd].
    destruct Hr as [Hf2 (p2 & -> & E2 & Hfin2 & Hok2)]. eexists. split; [done|]. split; [done|].
    exists (p1 ++ p2). split; [unfold outputs; by rewrite fmap_app|]. split.
    { unfold commits_of in *. rewrite fmap_app, <- (assoc_L (++)), E2, (assoc_L (++)), E1, <- (assoc_L (++)). done. }
    rewrite !Forall_app. split; [done|]. split; [|done]. eapply Forall_impl; [exact Hok1|]. intros x Hx.
    rewrite (fmap_app in_tracker (pre ++ [i])), (fmap_app in_commit (pre ++ [i])).
    eapply cs_ok_mono; [|rewrite (fmap_app in_commit); exact Hx]. rewrite fmap_app. set_solver.
Qed.

(** ** What is output *)

(** A commit as it was before its rejected transactions were recorded. *)
Definition undecided (commit : CommittedSubDag) : CommittedSubDag :=
  mkCommittedSubDag (sd_leader commit) (sd_blocks commit) (sd_timestamp_ms commit) (sd_commit_ref commit)
    (sd_decided_with_local_blocks commit) (sd_recovered_rejected_transactions commit) ∅.

Definition rejects_transaction (commit : CommittedSubDag) (R : BlockRef) (i : TransactionIndex) : Prop :=
  i ∈ default [] (sd_rejected_transactions_by_block commit !! R).

Lemma undecided_finalized cs : commit_ok c (cs_commit cs) → undecided (finalized_commit cs) = cs_commit cs.
Proof using.
  intros Hcm. pose proof (cm_undecided c _ Hcm) as Hu. unfold undecided, finalized_commit. simpl.
  destruct (cs_commit cs); simpl in *. by rewrite Hu.
Qed.

Lemma insert_lists_lookup (l : list (BlockRef * gset TransactionIndex)) (m : gmap BlockRef (list TransactionIndex)) R :
  NoDup l.*1 →
  foldl (λ m (e : BlockRef * gset TransactionIndex), <[e.1 := bset_list e.2]> m) m l !! R =
  match (list_to_map l : gmap BlockRef (gset TransactionIndex)) !! R with Some X => Some (bset_list X) | None => m !! R end.
Proof using.
  clear. revert m. induction l as [|[R0 X0] l IH]; intros m Hnd; [done|]. rewrite fmap_cons in Hnd. apply NoDup_cons in Hnd as [Hn Hnd].
  cbn [foldl list_to_map fst snd] in *. rewrite IH by done. change (list_to_map ((R0, X0) :: l)) with (<[R0 := X0]> (list_to_map l : gmap BlockRef (gset TransactionIndex))).
  destruct (decide (R = R0)) as [->|Hne].
  - rewrite lookup_insert_eq. rewrite (not_elem_of_list_to_map_1 l R0 Hn), lookup_insert_eq. done.
  - rewrite !lookup_insert_ne by done. done.
Qed.

Lemma rejects_finalized cs R i :
  commit_ok c (cs_commit cs) → rejects_transaction (finalized_commit cs) R i ↔ i ∈ txs (cs_rejected_transactions cs) R.
Proof using.
  intros Hcm. unfold rejects_transaction, finalized_commit. cbn [sd_rejected_transactions_by_block].
  rewrite insert_lists_lookup by apply bmap_list_NoDup. rewrite (cm_undecided c _ Hcm), lookup_empty.
  assert ((list_to_map (bmap_list (cs_rejected_transactions cs)) : gmap BlockRef (gset TransactionIndex)) = cs_rejected_transactions cs) as ->.
  { apply map_eq. intros k. apply option_eq. intros X. rewrite <- elem_of_list_to_map by apply bmap_list_NoDup. apply bmap_list_elem. }
  unfold txs. destruct (cs_rejected_transactions cs !! R) as [X|]; simpl; [apply bset_list_elem|].
  split; [by intros []%not_elem_of_nil|by intros []%not_elem_of_empty].
Qed.

Lemma popped_commit inputs popped (rest : list CommittedSubDag) cs :
  inputs_ok inputs → commits_of popped ++ rest = in_commit <$> inputs → cs ∈ popped → commit_ok c (cs_commit cs).
Proof using.
  intros Hin Heq Hcs. pose proof (st_commits c _ (io_stream _ Hin)) as Hcm. rewrite Forall_forall in Hcm. apply Hcm.
  rewrite <- Heq. apply elem_of_app. left. by apply commits_of_elem.
Qed.


(** C4: Every transaction of an output commit is decided for a reason. It is rejected only when a quorum
    rejects it, or when a commit three rounds later has arrived and no quorum of first votes
    accepts it in the commits from its own to that one; and it is finalized only when no reject vote on it was known in a block that the
    certifying blocks have voted on, or when a quorum of authorities have committed blocks that descend from its block and do not reject it. *)
Theorem CommitFinalizer_decides_with_reason inputs f outs commit R i :
  inputs_ok inputs → finalizer_run (CommitFinalizer_new ctx) inputs = Ret (Ok (f, outs)) →
  commit ∈ outs → transaction_in commit R i →
  (rejects_transaction commit R i →
     refused c depth (in_tracker <$> inputs) (in_commit <$> inputs) (undecided commit) R i) ∧
  (¬ rejects_transaction commit R i →
     accepted c depth (in_tracker <$> inputs) (in_commit <$> inputs) (leader_of commit) R i).
Proof using Hwf.
  intros Hin Hrun Hcommit Htx. destruct (finalizer_run_spec [] inputs _ Hin new_ok) as (r & Hr & Hpost). rewrite Hrun in Hr. injection Hr as <-.
  destruct Hpost as [_ (popped & -> & Heq & Hfin & Hok)]. cbn [app CommitFinalizer_new cf_pending_commits commits_of fmap list_fmap] in *.
  apply list_elem_of_fmap in Hcommit as (cs & -> & Hcs).
  assert (commit_ok c (cs_commit cs)) as Hcm by (by eapply popped_commit).
  rewrite Forall_forall in Hfin, Hok. specialize (Hok cs Hcs). destruct (Hfin cs Hcs) as [Hb Hp].
  rewrite (undecided_finalized cs Hcm), (rejects_finalized cs R i Hcm).
  change (leader_of (finalized_commit cs)) with (leader_round cs). split.
  - intros Hi. by apply (co_rejected _ _ _ _ _ Hok).
  - intros Hi. apply (co_accepted _ _ _ _ _ Hok); [done|exact Htx| |done]. rewrite Hp. unfold txs. rewrite lookup_empty. set_solver.
Qed.

End Run.
