(* ===== verification/FinalizerSamples.v ===== *)
(** * A sample run of the commit finalizer

    Four commits with leaders in rounds 1 to 4.  The first holds a block with three transactions:
    transaction 0 has one reject vote and is finalized by the accept votes of the third commit,
    transaction 1 is rejected by two of the four authorities and expires with the fourth commit, and transaction 2
    has no reject vote. *)

From S2P Require Import Prelude BTree Config Block Commit Store StakeAggregator ThresholdClock.
From S2P Require Import LeaderScoring DagState DagRecovery TransactionVoteTracker VoteTrackerTheory.
From S2P Require Import CommitFinalizer FinalizerVotes FinalizerLinks FinalizerReasons FinalizerDirect FinalizerRun.
Local Open Scope N_scope.

#[local] Existing Instances DagRecovery.witness_profile DagRecovery.witness_crypto.

Definition fin_ref (round author : N) : BlockRef := mkBlockRef round author (100 * round + author).

(** The blocks of a round have all blocks of the round below as ancestors, their own first. *)
Definition fin_block (round author : N) (transactions : nat) (votes : list BlockTransactionVotes) : VerifiedBlock :=
  mkVerifiedBlock
    (mkSignedBlock
       (BV2 {| v2_epoch := 1; v2_round := round; v2_author := author; v2_timestamp_ms := 0;
               v2_ancestors := fin_ref (round - 1) <$> (author :: filter (λ a, a ≠ author) [0; 1; 2; 3]);
               v2_transactions := replicate transactions (mkTransaction []); v2_transaction_votes := votes;
               v2_commit_votes := []; v2_misbehavior_reports := [] |}) [])
    (100 * round + author) [].

Definition fin_votes (rejects : list TransactionIndex) : list BlockTransactionVotes :=
  [mkBlockTransactionVotes (fin_ref 1 1) rejects].

Definition fin_commit (index : N) (leader : BlockRef) (blocks : list VerifiedBlock) : CommittedSubDag :=
  CommittedSubDag_new leader blocks 0 (mkCommitRef index 0).

Definition fin_commits : list CommittedSubDag :=
  [fin_commit 1 (fin_ref 1 1) [fin_block 1 1 3 []];
   fin_commit 2 (fin_ref 2 1) [fin_block 1 0 0 []; fin_block 1 2 0 []; fin_block 1 3 0 []; fin_block 2 1 0 []];
   fin_commit 3 (fin_ref 3 1) [fin_block 2 0 0 []; fin_block 2 2 0 (fin_votes [0; 1]); fin_block 2 3 0 (fin_votes [1]); fin_block 3 1 0 []];
   fin_commit 4 (fin_ref 4 1) [fin_block 3 0 0 []; fin_block 3 2 0 []; fin_block 3 3 0 []; fin_block 4 1 0 []]].

Definition fin_tracker : VoteTrackerState :=
  match VoteTrackerState_add_voted_blocks (VoteTrackerState_new sample_context) ((., []) <$> (fin_commits ≫= sd_blocks)) with
  | Ret t => t
  | _ => VoteTrackerState_new sample_context
  end.

Definition fin_inputs (s : DagState MemStore) : list finalizer_input := mkInput fin_tracker s <$> fin_commits.

(** ** The inputs are as the theorems expect them *)

Definition placed_check (e : VerifiedBlock * CommitIndex) : Prop :=
  b_author e.1 ∈ members sample_committee ∧ Forall (λ a, br_round a < b_round e.1) (b_ancestors e.1) ∧ b_ancestors e.1 ≠ [].

Lemma fin_causal : causal sample_committee (placed_in fin_commits).
Proof.
  assert (Forall placed_check (placed_in fin_commits)) as H1 by (unfold placed_check; by_eval).
  assert (Forall (λ e, Forall (λ e', (ref_of e = ref_of e' → e = e') ∧ (ref_of e ∈ b_ancestors e'.1 → e.2 ≤ e'.2)) (placed_in fin_commits))
    (placed_in fin_commits)) as H2 by by_eval.
  rewrite Forall_forall in H1, H2. split.
  - intros e He. destruct (H1 e He) as (Ha & Hr & Hn). split; [done|by rewrite Forall_forall in Hr|].
    unfold origin_parent. destruct (b_ancestors e.1); [done|by eexists].
  - intros e e' He He'. specialize (H2 e He). rewrite Forall_forall in H2. by apply H2.
  - intros e e' He He'. specialize (H2 e He). rewrite Forall_forall in H2. by apply H2.
Qed.

Lemma fin_stream : stream_ok sample_committee fin_commits.
Proof.
  split.
  - apply fin_causal.
  - repeat (apply Forall_cons; split; [split; [done|by_eval| |by_eval| |done]|]); [..|constructor].
    all: apply Forall_forall; by_eval.
  - repeat constructor; by_eval.
  - intros k a b. do 4 (destruct k as [|k]; [by intros [= <-] [= <-]|]). done.
  - by_eval.
Qed.

Definition covers_check (t : VoteTrackerState) (b : VerifiedBlock) : bool :=
  match TransactionVoteTracker_get_reject_votes t (reference b) with
  | Some votes => forallb (λ i, i <? num_transactions b) votes.*1
  | None => false
  end.

Lemma fin_covers commit : commit ∈ fin_commits → covers fin_tracker commit.
Proof.
  assert (Forall (λ commit, Forall (λ b, covers_check fin_tracker b = true) (sd_blocks commit)) fin_commits) as Hc by by_eval.
  rewrite Forall_forall in Hc. intros Hin b Hb. specialize (Hc commit Hin). rewrite Forall_forall in Hc. specialize (Hc b Hb).
  unfold covers_check in Hc. destruct (TransactionVoteTracker_get_reject_votes fin_tracker (reference b)) as [votes|]; [|done].
  exists votes. split; [done|]. intros i Hi. rewrite forallb_forall in Hc. apply N.ltb_lt, Hc. by apply list_elem_of_In.
Qed.

Lemma inputs_commits t (s : DagState MemStore) (commits : list CommittedSubDag) : in_commit <$> (mkInput t s <$> commits) = commits.
Proof. induction commits as [|cm commits IH]; [done|]. rewrite !fmap_cons, IH. done. Qed.

Lemma fin_inputs_ok s : ds_context s = sample_context → inputs_ok sample_context (fin_inputs s).
Proof.
  intros Hs. pose proof (inputs_commits fin_tracker s fin_commits : in_commit <$> fin_inputs s = fin_commits) as Ec.
  assert (∀ x, x ∈ fin_inputs s → in_dag x = s ∧ in_tracker x = fin_tracker ∧ in_commit x ∈ fin_commits) as Hall.
  { unfold fin_inputs. intros x (cm & -> & Hcm)%list_elem_of_fmap. exact (conj eq_refl (conj eq_refl Hcm)). }
  split.
  - apply Forall_forall. intros x Hx. destruct (Hall x Hx) as [-> _]. exact Hs.
  - rewrite Ec. apply fin_stream.
  - intros pre i post Heq. destruct (Hall i) as (_ & -> & Hi); [rewrite Heq; apply elem_of_app; right; apply elem_of_cons; by left|].
    split; [by apply fin_covers|].
    intros commit l Hc _ _. apply fin_covers. rewrite <- Ec, Heq, fmap_app. apply elem_of_app. left. exact Hc.
Qed.

Definition never (_ : CommitIndex) (_ : nat) : bool := false.


(** The first commit is output with transaction 1 rejected and transaction 0 finalized. *)
Definition fin_check (r : ConsensusResult (CommitFinalizer * list CommittedSubDag)) : bool :=
  match r with
  | Ok (_, commit :: _) => bool_decide (sd_blocks commit = [fin_block 1 1 3 []] ∧
      sd_rejected_transactions_by_block commit !! fin_ref 1 1 = Some [1])
  | _ => false
  end.

Lemma fin_run_check :
  outcome_sat (s ← DagState_new sample_context MemStore_new; finalizer_run never (CommitFinalizer_new sample_context) (fin_inputs s))
    fin_check = true.
Proof. vm_compute. reflexivity. Qed.

Lemma CommitFinalizer_decides_with_reason_witness :
  ∃ s commit,
    refused sample_committee 60 (in_tracker <$> fin_inputs s) (in_commit <$> fin_inputs s) (undecided commit) (fin_ref 1 1) 1 ∧
    accepted sample_committee 60 (in_tracker <$> fin_inputs s) (in_commit <$> fin_inputs s) (leader_of commit) (fin_ref 1 1) 0.
Proof.
  destruct (outcome_sat_spec _ _ fin_run_check) as (r & Hr & Hchk).
  apply bind_Ret in Hr as (s & Hn & Hr). destruct r as [[f [|commit outs]]|e]; [discriminate Hchk| |discriminate Hchk].
  apply bool_decide_eq_true in Hchk as [Hb Hrej].
  assert (ds_context s = sample_context) as Hctx.
  { destruct sample_dag as (s' & Hn' & _ & Hc & _). rewrite Hn in Hn'. injection Hn' as ->. exact Hc. }
  assert (∀ i, i < 3 → transaction_in commit (fin_ref 1 1) i) as Htx.
  { intros i Hi. exists (fin_block 1 1 3 []). rewrite Hb. split; [apply list_elem_of_here|split; [reflexivity|exact Hi]]. }
  pose proof (λ i, CommitFinalizer_decides_with_reason sample_context sample_committee_wf never (fin_inputs s) f (commit :: outs) commit
    (fin_ref 1 1) i (fin_inputs_ok s Hctx) Hr (list_elem_of_here _ _)) as Hdec.
  exists s, commit. split.
  - apply (Hdec 1); [by apply Htx|]. unfold rejects_transaction. rewrite Hrej. apply list_elem_of_here.
  - apply (Hdec 0); [by apply Htx|]. unfold rejects_transaction. rewrite Hrej. by intros [[=]|[]%not_elem_of_nil]%elem_of_cons.
Defined.

(** ** A search over five linked blocks *)

Definition fin_state (round author : N) (children : list BlockRef) (rejects : list TransactionIndex) (index : N) : BlockRef * BlockState :=
  (fin_ref round author,
   mkBlockState (fin_block round author 0 []) (list_to_set children) (list_to_map [(fin_ref 1 1, list_to_set rejects)]) [] index).

Definition fin_map : block_map :=
  list_to_map [fin_state 1 1 (fin_ref 2 <$> [0; 1; 2; 3]) [] 1; fin_state 2 1 [] [] 2;
    fin_state 2 0 [] [] 3; fin_state 2 2 [] [0; 1] 3; fin_state 2 3 [] [1] 3].

Definition above_check (B : block_map) (r : BlockRef) (st : BlockState) : Prop :=
  br_author r ∈ members sample_committee ∧
  Forall (λ r', from_option (λ st', br_round r < br_round r' ∧ bs_commit_index st ≤ bs_commit_index st') False (B !! r'))
    (elements (bs_children st) ++ bs_origin_descendants st).
#[local] Instance above_check_dec B r st : base.Decision (above_check B r st).
Proof.
  unfold above_check. apply and_dec; [apply _|]. apply Forall_dec. intros r'. destruct (B !! r'); simpl; apply _.
Defined.

Lemma above_check_linked B : Forall (λ e, above_check B e.1 e.2) (map_to_list B) → linked sample_committee B.
Proof.
  intros Hc. rewrite Forall_forall in Hc.
  assert (∀ r st r', B !! r = Some st → r' ∈ elements (bs_children st) ++ bs_origin_descendants st → above_in B st r r') as Habove.
  { intros r st r' Hr Hr'. destruct (Hc (r, st)) as [_ Hf]; [by apply elem_of_map_to_list|]. rewrite Forall_forall in Hf. specialize (Hf r' Hr').
    destruct (B !! r') as [st'|] eqn:E; [|done]. exists st'. done. }
  split.
  - intros r st r' Hr Hr'. apply (Habove r st r' Hr). set_solver.
  - intros r st r' Hr Hr'. apply (Habove r st r' Hr). set_solver.
  - intros r [st Hr]%elem_of_dom. destruct (Hc (r, st)) as [Ha _]; [by apply elem_of_map_to_list|done].
Qed.

Lemma fin_gc_table : gc_table [(1, 0); (2, 0)] 1 fin_map.
Proof.
  assert (Forall (λ e, bs_commit_index e.2 ≤ 3) (map_to_list fin_map)) as Hc by by_eval. rewrite Forall_forall in Hc. split.
  - by intros [|[|k]] e; [intros [= <-]|intros [= <-]|].
  - by intros [|[|k]] [|[|k']] e e' _; [intros [= <-] [= <-]..| | | |].
  - intros r st Hr%elem_of_map_to_list. exact (Hc _ Hr).
Qed.

Lemma try_indirect_finalize_pending_transactions_in_block_exact_witness :
  ∃ result, try_indirect_finalize_pending_transactions_in_block sample_context fin_map [(1, 0); (2, 0)] (fin_ref 1 1) {[0; 1]} = Ret result ∧
    0 ∈ result ∧ 1 ∉ result.
Proof.
  destruct (fin_map !! fin_ref 1 1) as [sp|] eqn:Hp; [|vm_compute in Hp; discriminate Hp].
  assert (bs_commit_index sp = 1) as Hi by (vm_compute in Hp; by injection Hp as <-).
  destruct (try_indirect_finalize_pending_transactions_in_block_exact sample_context fin_map [(1, 0); (2, 0)] (fin_ref 1 1) sp {[0; 1]}
    sample_committee_wf) as (result & Hr & Hex); [apply above_check_linked; by_eval|exact Hp|rewrite Hi; exact fin_gc_table|].
  rewrite Hi in Hex. exists result. split; [exact Hr|]. split.
  - apply Hex. split; [by_eval|]. split; by_eval.
  - intros [_ [_ Hq]]%Hex. vm_compute in Hq. discriminate Hq.
Defined.
