(* ===== verification/SlotRule.v ===== *)
(** * Commit rule v3, and why it is safe

    Votes, certificates and decisions of commit rule v3 on the blocks that all
    authorities together have accepted, and that two decisions on one slot agree,
    however they were taken: a direct decision rests on a quorum of the voting
    round, an indirect one on the history of an anchor block. *)

From S2P Require Import Prelude BTree Config Block Commit Store StakeAggregator ThresholdClock.
From S2P Require Import DagState DagTheory DagTraversal CommitRule.
Local Open Scope N_scope.

(** What [Committee::new_v3] promises of its thresholds: a certifying set and a
    quorum share more than the faults, and two quorums share a certifying set
    besides the faults. *)
Record v3_thresholds (c : Committee) : Prop := {
  v3_certification : Committee_total_stake c + Committee_validity_threshold c
                     ≤ Committee_certification_threshold c + Committee_quorum_threshold c;
  v3_quorum : Committee_total_stake c + Committee_validity_threshold c +
              Committee_certification_threshold c ≤ 2 * Committee_quorum_threshold c + 1;
}.

Lemma Committee_new_v3_thresholds `{Profile} epoch authorities F C r :
  total_of authorities < 2 ^ 64 → 5 * F + 3 * C < 2 ^ 64 →
  Committee_new_v3 epoch authorities F C = Ret r → v3_thresholds r.
Proof.
  intros Ht HB (Hpos & _ & ->)%Committee_new_v3_fields; [|done..].
  pose proof (v3_budget_fits (total_of authorities) F C Hpos). split; simpl; lia.
Qed.

Section SlotRule.
Context (c : Committee) (G : BlockRef → option VerifiedBlock).

(** No block names two ancestors of one author. *)
Definition distinct_ancestors : Prop :=
  ∀ r b, G r = Some b → NoDup (br_author <$> b_ancestors b).

Context (Hwf : Committee_wf c) (Hv3 : v3_thresholds c).
Context (Hdag : dag_valid c G) (Hdist : distinct_ancestors).
Context (byz : gset AuthorityIndex) (Hmaj : honest_majority c G byz).

(** ** Decisions *)

(** A quorum of the voting round links to the block, or does not. *)
Definition backed (leader : BlockRef) : Prop :=
  block_quorum c G (λ v bv, br_round v = br_round leader + 1 ∧ leader ∈ b_ancestors bv).
Definition skipped (leader : BlockRef) : Prop :=
  block_quorum c G (λ v bv, br_round v = br_round leader + 1 ∧ leader ∉ b_ancestors bv).

(** Authors of voting blocks for [leader] in the history of an anchor. *)
Definition backers (anchor : VerifiedBlock) (leader : BlockRef) (K : gset AuthorityIndex) : Prop :=
  ∀ i, i ∈ K → ∃ v bv, reaches_at G anchor (br_round leader + 1) v ∧ G v = Some bv ∧
                       leader ∈ b_ancestors bv ∧ br_author v = i.

Definition certified_by (anchor : VerifiedBlock) (leader : BlockRef) : Prop :=
  ∃ K, backers anchor leader K ∧ Committee_certification_threshold c ≤ set_stake c K.

Definition direct_decision (slot : Slot) (status : LeaderStatus) : Prop :=
  match status with
  | LCommit b => G (reference b) = Some b ∧ Slot_from (reference b) = slot ∧ backed (reference b)
  | LSkip slot' => slot' = slot ∧
                   ∀ l, is_Some (G l) → Slot_from l = slot → skipped l
  | LUndecided _ => False
  end.

Definition indirect_decision (anchor : VerifiedBlock) (slot : Slot) (status : LeaderStatus)
    : Prop :=
  match status with
  | LCommit b => G (reference b) = Some b ∧ Slot_from (reference b) = slot ∧
                 ∀ l, Slot_from l = slot → certified_by anchor l ↔ l = reference b
  | LSkip slot' => slot' = slot ∧
                   ∀ l, Slot_from l = slot → certified_by anchor l →
                   ∃ l', Slot_from l' = slot ∧ certified_by anchor l' ∧ l' ≠ l
  | LUndecided _ => False
  end.

Lemma dag_valid_sound : dag_sound G.
Proof using Hdag.
  intros r b Hb. split; [by apply (dv_ref c G Hdag)|]. intros a Ha. by apply (dv_ancestor c G Hdag r b a).
Qed.

(** ** Overlaps of votes *)

Lemma certification_meets K Q :
  K ⊆ members c → Committee_certification_threshold c ≤ set_stake c K → is_quorum c Q →
  ∃ i, i ∈ K ∧ i ∈ Q ∧ i ∉ byz.
Proof using Hwf Hv3 Hmaj.
  intros HK Hk [HQ Hq]. unfold Committee_reached_quorum in Hq. apply N.leb_le in Hq.
  pose proof (proj1 Hmaj) as Hbyz. pose proof (v3_certification c Hv3).
  pose proof (weight_overlap (stake_at c) K Q (members c) HK HQ).
  pose proof (wf_total c Hwf). pose proof (set_stake_members c).
  destruct (weight_pos_inhabited (stake_at c) ((K ∩ Q) ∖ byz)) as [i Hi].
  - pose proof (weight_split (stake_at c) (K ∩ Q) byz).
    pose proof (weight_mono (stake_at c) (K ∩ Q ∩ byz) byz (intersection_subseteq_r _ _)).
    unfold set_stake in *. lia.
  - apply elem_of_difference in Hi as [[? ?]%elem_of_intersection ?]. by exists i.
Qed.

Lemma quorums_certify Q1 Q2 :
  is_quorum c Q1 → is_quorum c Q2 →
  Committee_certification_threshold c ≤ set_stake c ((Q1 ∩ Q2) ∖ byz).
Proof using Hwf Hv3 Hmaj.
  intros [HQ1 Hq1] [HQ2 Hq2]. unfold Committee_reached_quorum in *. apply N.leb_le in Hq1, Hq2.
  pose proof (proj1 Hmaj) as Hbyz. pose proof (v3_quorum c Hv3).
  pose proof (weight_overlap (stake_at c) Q1 Q2 (members c) HQ1 HQ2).
  pose proof (wf_total c Hwf). pose proof (set_stake_members c).
  pose proof (weight_split (stake_at c) (Q1 ∩ Q2) byz).
  pose proof (weight_mono (stake_at c) (Q1 ∩ Q2 ∩ byz) byz (intersection_subseteq_r _ _)).
  unfold set_stake in *. lia.
Qed.

(** Two blocks of one slot are not both ancestors of one block. *)
Lemma ancestors_one_per_slot r b l l' :
  G r = Some b → l ∈ b_ancestors b → l' ∈ b_ancestors b → Slot_from l = Slot_from l' → l = l'.
Proof using Hdist.
  intros Hb (i & Hi)%list_elem_of_lookup_1 (j & Hj)%list_elem_of_lookup_1 [= _ Hauthor].
  assert (i = j) as ->; [|congruence].
  apply (NoDup_lookup _ i j (br_author l) (Hdist r b Hb));
    by rewrite list_lookup_fmap, ?Hi, ?Hj; simpl; rewrite ?Hauthor.
Qed.

Lemma backers_members anchor leader K : backers anchor leader K → K ⊆ members c.
Proof using Hdag.
  intros HK i (v & bv & _ & Hv & _ & <-)%HK. by apply (dv_author c G Hdag v bv).
Qed.

(** An anchor that certifies a block and a quorum of the voting round share an
    honest voting block. *)
Lemma certified_meets anchor l P :
  certified_by anchor l →
  block_quorum c G (λ v bv, br_round v = br_round l + 1 ∧ P bv) →
  ∃ v bv, G v = Some bv ∧ l ∈ b_ancestors bv ∧ P bv.
Proof using Hwf Hv3 Hdag Hmaj.
  intros (K & HK & Hk) (Q & HQ & HP).
  destruct (certification_meets K Q) as (i & HiK & HiQ & Hi); [by eapply backers_members|done..|].
  destruct (HK i HiK) as (v & bv & [Hr _] & Hv & Hl & Hvi).
  destruct (HP i HiQ) as (v' & bv' & Hv' & Hvi' & Hr' & HPv).
  destruct (honest_one_per_round G i v bv v' bv') as [-> ->]; [|done..|lia|eauto].
  apply (proj2 Hmaj); [|done]. destruct HQ as [HQ _]. by apply HQ.
Qed.

Lemma skipped_not_certified anchor l : skipped l → ¬ certified_by anchor l.
Proof using Hwf Hv3 Hdag Hmaj.
  intros Hs Hc. by destruct (certified_meets anchor l _ Hc Hs) as (v & bv & _ & Hin & Hnin).
Qed.

(** Only one block of a slot can be backed by a quorum and certified. *)
Lemma backed_certified_unique anchor l l' :
  Slot_from l = Slot_from l' → backed l → certified_by anchor l' → l' = l.
Proof using Hwf Hv3 Hdag Hdist Hmaj.
  intros Hslot Hb Hc.
  destruct (certified_meets anchor l' (λ bv, l ∈ b_ancestors bv) Hc) as (v & bv & Hv & Hin & Hin').
  { replace (br_round l') with (br_round l) by by injection Hslot. done. }
  by eapply ancestors_one_per_slot.
Qed.

Lemma backed_not_skipped l : backed l → ¬ skipped l.
Proof using Hwf Hdag Hmaj.
  intros Hb Hs. destruct (block_quorums_meet c G Hwf byz _ _ Hmaj Hb Hs)
    as (i & v & bv & v' & bv' & Hi & Hv & Hv' & Ha & Ha' & [Hr Hin] & [Hr' Hnin]).
  destruct (honest_one_per_round G i v bv v' bv') as [-> ->]; [done..|lia|done].
Qed.

Lemma backed_unique l l' : Slot_from l = Slot_from l' → backed l → backed l' → l = l'.
Proof using Hwf Hdag Hdist Hmaj.
  intros Hslot Hb Hb'. destruct (block_quorums_meet c G Hwf byz _ _ Hmaj Hb Hb')
    as (i & v & bv & v' & bv' & Hi & Hv & Hv' & Ha & Ha' & [Hr Hin] & [Hr' Hin']).
  injection Hslot as Hround Hauthor.
  destruct (honest_one_per_round G i v bv v' bv') as [-> ->]; [done..|lia|].
  apply (ancestors_one_per_slot v' bv'); [done..|].
  unfold Slot_from. by rewrite Hround, Hauthor.
Qed.

(** ** A backed block is certified by every later anchor *)

(** Some block of the history of an anchor, two rounds above [round] or later,
    has a quorum of parents in round [round + 1]. *)
Lemma anchor_parents_reached r b lo :
  G r = Some b → lo < br_round r →
  ∃ Q, is_quorum c Q ∧ ∀ i, i ∈ Q → ∃ v, reaches_at G b lo v ∧ br_author v = i.
Proof using Hwf Hdag.
  remember (br_round r) as n eqn:Hn. revert r b Hn.
  induction n as [n IH] using (well_founded_induction N.lt_wf_0). intros r b -> Hb Hlo.
  destruct (parents_quorum c G Hdag r b Hb ltac:(lia)) as (Q & HQ & Hpar).
  destruct (decide (br_round r = lo + 1)) as [Heq|Hne].
  - exists Q. split; [done|]. intros i Hi. destruct (Hpar i Hi) as (a & ba & _ & Hai & Hin & Har).
    exists a. split; [|done]. split; [lia|]. exists a. split; [done|apply rtc_refl].
  - destruct (quorum_inhabited c Hwf Q HQ) as [j Hj].
    destruct (Hpar j Hj) as (a & ba & Hba & _ & Hin & Har).
    destruct (IH (br_round a) ltac:(lia) a ba) as (Q' & HQ' & Hreach); [done..|lia|].
    exists Q'. split; [done|]. intros i Hi. destruct (Hreach i Hi) as (v & (Hvr & x & Hx & Hxv) & Hvi).
    exists v. split; [|done]. split; [done|]. exists a. split; [done|].
    eapply rtc_l; [|done]. split; [lia|]. eauto.
Qed.

Lemma reaches_at_known r b lo v :
  G r = Some b → reaches_at G b lo v → is_Some (G v).
Proof using Hdag.
  intros Hb (Hv & x & Hx & Hreach). destruct (dv_ancestor c G Hdag r b x Hb Hx) as [_ Hsome].
  clear Hx Hb Hv r b. revert Hsome. induction Hreach as [|x y z (_ & b & Hb & Hy) _ IH]; [done|].
  intros _. apply IH. by apply (dv_ancestor c G Hdag x b).
Qed.

(** Every anchor two rounds above a backed block certifies it. *)
Lemma backed_certified l r anchor :
  backed l → G r = Some anchor → br_round l + 2 ≤ br_round r → certified_by anchor l.
Proof using Hwf Hv3 Hdag Hmaj.
  intros (Q1 & HQ1 & Hback) Hr Hle.
  destruct (anchor_parents_reached r anchor (br_round l + 1) Hr) as (Q2 & HQ2 & Hreach); [lia|].
  exists ((Q1 ∩ Q2) ∖ byz). split; [|by apply quorums_certify].
  intros i [[Hi1 Hi2]%elem_of_intersection Hi]%elem_of_difference.
  destruct (Hback i Hi1) as (v & bv & Hv & Hvi & Hvr & Hl).
  destruct (Hreach i Hi2) as (v' & Hv' & Hvi').
  destruct (reaches_at_known r anchor _ v' Hr Hv') as [bv' Hbv'].
  destruct (honest_one_per_round G i v bv v' bv') as [-> ->]; [|done..| |].
  - apply (proj2 Hmaj); [|done]. destruct HQ1 as [HQ1 _]. by apply HQ1.
  - destruct Hv' as [-> _]. lia.
  - exists v', bv'. done.
Qed.

(** ** Agreement on one slot *)

Lemma committed_eq b b' :
  G (reference b) = Some b → G (reference b') = Some b' → reference b = reference b' →
  LCommit b = LCommit b'.
Proof. congruence. Qed.

Lemma v3_direct_agree slot st st' :
  direct_decision slot st → direct_decision slot st' → st = st'.
Proof using Hwf Hdag Hdist Hmaj.
  destruct st as [b|sl|sl], st' as [b'|sl'|sl']; simpl; try done.
  - intros (Hb & Hs & Hq) (Hb' & Hs' & Hq'). apply committed_eq; [done..|].
    apply backed_unique; [congruence|done..].
  - intros (Hb & Hs & Hq) [_ Hskip]. destruct (backed_not_skipped (reference b) Hq). by apply Hskip.
  - intros [_ Hskip] (Hb & Hs & Hq). destruct (backed_not_skipped (reference b') Hq). by apply Hskip.
  - by intros [-> _] [-> _].
Qed.

Lemma certified_known r anchor l : G r = Some anchor → certified_by anchor l → is_Some (G l).
Proof using Hwf Hv3 Hdag Hmaj.
  intros Hr (K & HK & Hk).
  destruct (weight_pos_inhabited (stake_at c) K) as [i Hi].
  { pose proof (v3_certification c Hv3). pose proof (wf_quorum_reachable c Hwf).
    pose proof (proj1 Hmaj). unfold set_stake in Hk. lia. }
  destruct (HK i Hi) as (v & bv & _ & Hv & Hl & _). by apply (dv_ancestor c G Hdag v bv).
Qed.

Lemma direct_indirect_agree slot st st' r anchor :
  G r = Some anchor → slot_round slot + 2 ≤ br_round r →
  direct_decision slot st → indirect_decision anchor slot st' → st = st'.
Proof using Hwf Hv3 Hdag Hdist Hmaj.
  intros Hr Hle. destruct st as [b|sl|sl], st' as [b'|sl'|sl']; simpl; try done.
  - intros (Hb & Hs & Hq) (Hb' & Hs' & Hc). apply committed_eq; [done..|]. symmetry.
    apply (backed_certified_unique anchor); [congruence|done|]. by apply Hc.
  - intros (Hb & Hs & Hq) [_ Hc]. exfalso.
    destruct (Hc (reference b) Hs) as (l' & Hl' & Hc' & Hne).
    { apply (backed_certified _ r); [done..|]. rewrite <- Hs in Hle. done. }
    apply Hne. apply (backed_certified_unique anchor); [congruence|done..].
  - intros [_ Hskip] (Hb' & Hs' & Hc). exfalso.
    apply (skipped_not_certified anchor (reference b')); [apply Hskip; [by eexists|done]|].
    by apply Hc.
  - by intros [-> _] [-> _].
Qed.

Lemma indirect_indirect_agree slot st st' anchor :
  indirect_decision anchor slot st → indirect_decision anchor slot st' → st = st'.
Proof.
  destruct st as [b|sl|sl], st' as [b'|sl'|sl']; simpl; try done.
  - intros (Hb & Hs & Hc) (Hb' & Hs' & Hc'). apply committed_eq; [done..|].
    apply Hc'; [done|]. by apply Hc.
  - intros (Hb & Hs & Hc) [_ Hc']. exfalso.
    destruct (Hc' (reference b) Hs) as (l' & Hl' & Hcl & Hne); [by apply Hc|].
    apply Hne. by apply Hc.
  - intros [_ Hc'] (Hb & Hs & Hc). exfalso.
    destruct (Hc' (reference b') Hs) as (l' & Hl' & Hcl & Hne); [by apply Hc|].
    apply Hne. by apply Hc.
  - by intros [-> _] [-> _].
Qed.

(** ** Decisions of a committer *)

(** [order r] lists the leader slots of round [r].  A slot is decided directly,
    or through the first committed slot two rounds above it or later, the slots
    before this anchor being skipped. *)
Inductive decided (order : Round → list Slot) : Slot → LeaderStatus → Prop :=
| decided_direct slot st : direct_decision slot st → decided order slot st
| decided_indirect slot st round before anchor after :
    slot_round slot + 2 ≤ round →
    order round = before ++ Slot_from (reference anchor) :: after →
    b_round anchor = round →
    (∀ q sl, slot_round slot + 2 ≤ q < round → sl ∈ order q → decided order sl (LSkip sl)) →
    (∀ sl, sl ∈ before → decided order sl (LSkip sl)) →
    decided order (Slot_from (reference anchor)) (LCommit anchor) →
    indirect_decision anchor slot st →
    decided order slot st.

Lemma slot_decided_status order slot st :
  decided order slot st →
  match st with
  | LCommit b => G (reference b) = Some b ∧ Slot_from (reference b) = slot
  | LSkip sl => sl = slot
  | LUndecided _ => False
  end.
Proof using.
  destruct 1 as [slot [b|sl|sl] Hd|slot [b|sl|sl] ? ? ? ? _ _ _ _ _ _ Hd];
    first [exact (conj (proj1 Hd) (proj1 (proj2 Hd)))|exact (proj1 Hd)|exact Hd].
Qed.

Lemma decided_commit order slot b :
  decided order slot (LCommit b) → G (reference b) = Some b ∧ Slot_from (reference b) = slot.
Proof using. exact (slot_decided_status order slot (LCommit b)). Qed.

(** Two lists that continue with a marked element after a prefix. *)
Lemma split_compare {A} (before before' : list A) x x' after after' :
  before ++ x :: after = before' ++ x' :: after' →
  x ∈ before' ∨ x' ∈ before ∨ (before = before' ∧ x = x').
Proof.
  revert before'. induction before as [|y before IH]; intros [|y' before'] Heq; simpl in *;
    simplify_eq.
  - by right; right.
  - left. left.
  - right; left. left.
  - destruct (IH before') as [?|[?|[-> ->]]]; [done|left; by right|right; left; by right|by right; right].
Qed.

Lemma decided_agree order slot st st' :
  decided order slot st → decided order slot st' → st = st'.
Proof using Hwf Hv3 Hdag Hdist Hmaj.
  intros Hd. revert st'. induction Hd as
    [slot st Hdir|slot st round before anchor after Hle Horder Hround Hskips IHskips Hbefore IHbefore
       Hanchor IHanchor Hind]; intros st' Hd'.
  - inversion Hd' as [? ? Hdir'|? ? round' ? anchor' ? Hle' _ Hr' _ _ Ha' Hind']; subst.
    + by eapply v3_direct_agree.
    + apply decided_commit in Ha' as [Ha' _]. by eapply (direct_indirect_agree slot).
  - inversion Hd' as [? ? Hdir'|? ? round' before' anchor' after' Hle' Horder' Hround' Hskips' Hbefore'
                      Ha' Hind']; subst.
    + apply decided_commit in Hanchor as [Ha _]. symmetry. by eapply (direct_indirect_agree slot).
    + destruct (N.lt_trichotomy (b_round anchor) (b_round anchor')) as [Hlt|[Heq|Hgt]].
      * discriminate (IHanchor (LSkip _) (Hskips' (b_round anchor) _ (conj Hle Hlt)
          ltac:(rewrite Horder; apply elem_of_app; right; left))).
      * rewrite Heq, Horder' in Horder.
        destruct (split_compare _ _ _ _ _ _ Horder) as [Hin|[Hin|[_ Hsame]]].
        -- discriminate (IHbefore _ Hin _ Ha').
        -- discriminate (IHanchor _ (Hbefore' _ Hin)).
        -- rewrite Hsame in Ha'. injection (IHanchor _ Ha') as <-.
           by eapply indirect_indirect_agree.
      * discriminate (IHskips (b_round anchor') _ (conj Hle' Hgt)
          ltac:(rewrite Horder'; apply elem_of_app; right; left) _ Ha').
Qed.

End SlotRule.
