(* ===== verification/V3Metadata.v ===== *)
(** * The votes kept in the DAG state

    With v3 enabled, [DagState] keeps with each block the blocks of the next
    round that link to it, and with each round its blocks, both with the stake of
    their authors.  These counts are exact above the garbage collection round
    after any sequence of acceptances, commits and flushes, and a valid block is
    always accepted. *)

From S2P Require Import Prelude BTree Config Block Commit Store StakeAggregator ThresholdClock.
From S2P Require Import LeaderScoring DagState DagTheory DagTraversal ProposerDag ProposerHistory.
Local Open Scope N_scope.

Definition authors (refs : gset BlockRef) : gset AuthorityIndex := set_map br_author refs.

Lemma authors_spec refs i : i ∈ authors refs ↔ ∃ r, r ∈ refs ∧ br_author r = i.
Proof. unfold authors. rewrite elem_of_map. naive_solver. Qed.

Lemma authors_insert r refs : authors ({[r]} ∪ refs) = {[br_author r]} ∪ authors refs.
Proof. unfold authors. by rewrite set_map_union_L, set_map_singleton_L. Qed.

Section V3Metadata.
Context `{Profile} `{Crypto} {S : Type} `{StoreLaws S}.
Implicit Types (s : DagState S) (b : VerifiedBlock).

(** ** The invariant *)

(** The information on rounds is contiguous from [front], which is at most the
    first round above the garbage collection round, reaches all cached blocks,
    and lists the blocks of each round with the stake of their authors. *)
Record round_infos_ok s (front : Round) (infos : list RoundInfo) : Prop := {
  ro_contiguous : ∀ k info, infos !! k = Some info → ri_round info = front + N.of_nat k;
  ro_front : front ≤ DagState_gc_round s + 1 ≤ front + N.of_nat (length infos);
  ro_bound : front + N.of_nat (length infos) ≤ u32_max;
  ro_covered : ∀ r, is_Some (ds_cached s r) → DagState_gc_round s < br_round r →
    br_round r < front + N.of_nat (length infos);
  ro_blocks : ∀ info, info ∈ infos → DagState_gc_round s < ri_round info →
    (∀ r, r ∈ ri_blocks info ↔ br_round r = ri_round info ∧ is_Some (ds_cached s r)) ∧
    ri_total_stake info = SA_of (DagState_committee s) (authors (ri_blocks info));
}.

(** The children of a block are the cached blocks of the next round that link to it. *)
Definition children_ok s (recent : gmap BlockRef BlockInfo) (r : BlockRef) (info : BlockInfo) : Prop :=
  (∀ v, v ∈ bi_children info ↔
        ∃ iv, recent !! v = Some iv ∧ br_round v = br_round r + 1 ∧ r ∈ b_ancestors (bi_block iv)) ∧
  bi_children_stake info = SA_of (DagState_committee s) (authors (bi_children info)).

Record v3_meta s : Prop := {
  vm_closed : dag_closed s;
  vm_infos : ∃ front, round_infos_ok s front (ds_round_info s);
  vm_children : ∀ r info, ds_recent_blocks s !! r = Some info → DagState_gc_round s < br_round r →
    children_ok s (ds_recent_blocks s) r info;
}.

(** A block that can be accepted: valid, with a parent in the round before, and
    with its ancestors above the garbage collection round. *)
Record v3_fits s (b : VerifiedBlock) : Prop := {
  vf_valid : block_valid s b;
  vf_round : 0 < b_round b ∧ b_round b < u32_max;
  vf_ancestors : ∀ a, a ∈ b_ancestors b → br_round a < b_round b ∧
    (DagState_gc_round s < br_round a → is_Some (ds_block s a));
  vf_parent : ∃ a, a ∈ b_ancestors b ∧ br_round a + 1 = b_round b;
}.

(** ** Reading *)

Lemma round_infos_lookup s front infos round info :
  round_infos_ok s front infos → front ≤ round →
  infos !! N.to_nat (round - front) = Some info ↔ info ∈ infos ∧ ri_round info = round.
Proof.
  intros [Hc _ _ _ _] Hle. split.
  - intros Hi. split; [by eapply list_elem_of_lookup_2|]. rewrite (Hc _ _ Hi). lia.
  - intros [[k Hk]%list_elem_of_lookup_1 <-]. rewrite (Hc _ _ Hk).
    by replace (N.to_nat (front + N.of_nat k - front)) with k by lia.
Qed.

(** [get_round_info] above the garbage collection round. *)
Lemma get_round_info_spec s round :
  v3_meta s → DagState_gc_round s < round →
  (∃ info, DagState_get_round_info s round = Ret (Some info) ∧
     (∀ r, r ∈ ri_blocks info ↔ br_round r = round ∧ is_Some (ds_cached s r)) ∧
     ri_total_stake info = SA_of (DagState_committee s) (authors (ri_blocks info))) ∨
  (DagState_get_round_info s round = Ret None ∧ ∀ r, br_round r = round → ds_cached s r = None).
Proof.
  intros Hm Hgc. destruct (vm_infos s Hm) as (front & Hro). pose proof (ro_front _ _ _ Hro) as [Hf _].
  unfold DagState_get_round_info. destruct (ds_round_info s) as [|first rest] eqn:Ei.
  - right. split; [done|]. intros r Hr. apply eq_None_not_Some. intros Hs.
    pose proof (ro_covered _ _ _ Hro r Hs ltac:(lia)) as Hlt. simpl in Hlt. lia.
  - assert (ri_round first = front) as Hfirst.
    { pose proof (ro_contiguous _ _ _ Hro 0%nat first eq_refl). lia. }
    rewrite Hfirst. destruct (N.ltb_spec round front); [lia|].
    destruct (N.leb_spec round (DagState_gc_round s)); [lia|]. cbn [orb].
    arith.
    destruct ((first :: rest) !! N.to_nat (round - front)) as [info|] eqn:El.
    + left. apply (round_infos_lookup s front) in El as [Hin <-]; [|done|lia].
      rewrite N.eqb_refl. exists info. split; [done|]. by apply (ro_blocks _ _ _ Hro).
    + right. split; [done|]. intros r Hr. apply eq_None_not_Some. intros Hs.
      pose proof (ro_covered _ _ _ Hro r Hs ltac:(lia)). apply lookup_ge_None in El. lia.
Qed.

(** ** Extending the rounds *)

Lemma round_infos_extend s front infos :
  round_infos_ok s front infos → front + N.of_nat (length infos) < u32_max →
  round_infos_ok s front (infos ++ [RoundInfo_new (front + N.of_nat (length infos))]).
Proof.
  intros [Hc Hf Hb Hcov Hbl] Hlt. split; rewrite ?length_app; simpl length.
  - intros k info [Hk|[Hk Hi]]%lookup_app_Some; [by apply Hc|].
    apply list_lookup_singleton_Some in Hi as [Hz <-]. simpl. lia.
  - lia.
  - lia.
  - intros r Hs Hgc. specialize (Hcov r Hs Hgc). lia.
  - intros info [Hin| ->%list_elem_of_singleton]%elem_of_app Hgc; [by apply Hbl|]. simpl in *.
    split; [|apply SA_of_new]. intros r. split; [set_solver|]. intros [Hr Hs].
    specialize (Hcov r Hs ltac:(lia)). lia.
Qed.

Definition info_add (b : VerifiedBlock) (c : Committee) (info : RoundInfo) : RoundInfo :=
  mkRoundInfo (ri_round info) ({[reference b]} ∪ ri_blocks info)
    (SA_of c (authors ({[reference b]} ∪ ri_blocks info))).

(** The infos that [update_round_info] leaves. *)
Definition infos_for (b : VerifiedBlock) (front : Round) (infos : list RoundInfo) : list RoundInfo :=
  if b_round b =? front + N.of_nat (length infos)
  then infos ++ [RoundInfo_new (b_round b)] else infos.

Lemma infos_for_ok s b front infos :
  round_infos_ok s front infos → b_round b < u32_max → round_infos_ok s front (infos_for b front infos).
Proof.
  intros Hro Hlt. unfold infos_for. destruct (N.eqb_spec (b_round b) (front + N.of_nat (length infos))) as [E|]; [|done].
  rewrite E. apply round_infos_extend; [done|lia].
Qed.

Lemma infos_for_lookup s b front infos :
  round_infos_ok s front infos → DagState_gc_round s < b_round b ≤ front + N.of_nat (length infos) →
  b_round b < u32_max →
  ∃ info, infos_for b front infos !! N.to_nat (b_round b - front) = Some info ∧ ri_round info = b_round b.
Proof.
  intros Hro [Hgc Hle] Hlt. pose proof (ro_front _ _ _ Hro).
  destruct (lookup_lt_is_Some_2 (infos_for b front infos) (N.to_nat (b_round b - front))) as [info Hi].
  - unfold infos_for. destruct (N.eqb_spec (b_round b) (front + N.of_nat (length infos)));
      rewrite ?length_app; simpl length; lia.
  - exists info. split; [done|].
    rewrite (ro_contiguous _ _ _ (infos_for_ok s b front infos Hro Hlt) _ _ Hi). lia.
Qed.

Lemma last_contiguous s front infos info :
  round_infos_ok s front infos → last infos = Some info →
  ri_round info + 1 = front + N.of_nat (length infos).
Proof.
  intros Hro Hl. rewrite last_lookup in Hl. rewrite (ro_contiguous _ _ _ Hro _ _ Hl).
  apply lookup_lt_Some in Hl. lia.
Qed.

Lemma info_add_stake s front infos b info :
  ds_ok s → round_infos_ok s front infos → info ∈ infos → DagState_gc_round s < ri_round info →
  b_author b ∈ members (DagState_committee s) →
  StakeAggregator_add_unique (ri_total_stake info) (b_author b) (DagState_committee s) =
  Ret (SA_of (DagState_committee s) (authors ({[reference b]} ∪ ri_blocks info)),
       bool_decide (b_author b ∉ authors (ri_blocks info))).
Proof.
  intros Hok Hro Hin Hgc Ha. destruct (ro_blocks _ _ _ Hro info Hin Hgc) as [Hbl ->].
  rewrite authors_insert. apply StakeAggregator_add_unique_spec; [apply Hok| |done].
  intros i (r & [_ [br Hr]]%Hbl & <-)%authors_spec. by apply (ok_cached s Hok r br).
Qed.

(** [update_round_info] returns, and adds the block to its round. *)
Lemma update_round_info_spec s b front :
  ds_ok s → round_infos_ok s front (ds_round_info s) → b_author b ∈ members (DagState_committee s) →
  DagState_gc_round s < b_round b ≤ front + N.of_nat (length (ds_round_info s)) → b_round b < u32_max →
  ∃ info, infos_for b front (ds_round_info s) !! N.to_nat (b_round b - front) = Some info ∧
    ri_round info = b_round b ∧
    DagState_update_round_info s b =
      Ret (set_round_info (<[N.to_nat (b_round b - front) := info_add b (DagState_committee s) info]>
                             (infos_for b front (ds_round_info s))) s).
Proof.
  intros Hok Hro Ha Hr Hlt. destruct (infos_for_lookup s b front _ Hro Hr Hlt) as (info & Hi & Hround).
  exists info. split; [done|]. split; [done|].
  pose proof (infos_for_ok s b front _ Hro Hlt) as Hro'. pose proof (ro_front _ _ _ Hro) as Hf.
  pose proof (ro_bound _ _ _ Hro) as Hbound.
  unfold DagState_update_round_info. destruct (N.leb_spec (b_round b) (DagState_gc_round s)); [lia|].
  rewrite (int_add_exact 32 (DagState_gc_round s) 1) by lia. cbn [mbind M_bind].
  assert (match last (ds_round_info s) with
          | Some info => u32_add (ri_round info) 1
          | None => Ret (DagState_gc_round s + 1)
          end = Ret (front + N.of_nat (length (ds_round_info s)))) as ->.
  { destruct (last (ds_round_info s)) as [linfo|] eqn:El.
    - rewrite <- (last_contiguous s front _ linfo Hro El). apply int_add_exact.
      pose proof (last_contiguous s front _ linfo Hro El). lia.
    - apply last_None in El. rewrite El in Hf |- *. simpl in *. f_equal. lia. }
  cbn [mbind M_bind]. destruct (N.leb_spec (b_round b) (front + N.of_nat (length (ds_round_info s)))); [|lia].
  cbn [assert_that mbind M_bind]. fold (infos_for b front (ds_round_info s)).
  destruct (infos_for b front (ds_round_info s)) as [|first rest] eqn:Einf; [done|].
  assert (ri_round first = front) as Hfirst.
  { pose proof (ro_contiguous _ _ _ Hro' 0%nat first eq_refl). lia. }
  cbn [head expect mbind M_bind]. rewrite Hfirst, int_sub_exact by lia. cbn [mbind M_bind].
  rewrite (proj2 (index_Ret _ _ _) Hi). cbn [mbind M_bind]. cbn [reference br_author].
  rewrite (info_add_stake s front (first :: rest)); [|done|done|by eapply list_elem_of_lookup_2|lia|done].
  cbn [mbind M_bind]. unfold index_update. rewrite Hi. done.
Qed.

(** ** Adding a child *)

Definition child_add (c : Committee) (v : BlockRef) (info : BlockInfo) : BlockInfo :=
  mkBlockInfo (bi_block info) ({[v]} ∪ bi_children info)
    (SA_of c (authors ({[v]} ∪ bi_children info))) (bi_committed info) (bi_included info).

Lemma child_add_twice c v info : child_add c v (child_add c v info) = child_add c v info.
Proof. unfold child_add. simpl. by replace ({[v]} ∪ ({[v]} ∪ bi_children info)) with ({[v]} ∪ bi_children info) by set_solver. Qed.

(** [a] is a parent of [v] whose votes are counted. *)
Definition counted_parent (gc : Round) (v a : BlockRef) : Prop := br_round a + 1 = br_round v ∧ gc < br_round a.

#[local] Instance counted_parent_dec gc v a : base.Decision (counted_parent gc v a).
Proof. unfold counted_parent. apply _. Defined.

Definition stake_exact (c : Committee) (info : BlockInfo) : Prop :=
  bi_children_stake info = SA_of c (authors (bi_children info)) ∧ authors (bi_children info) ⊆ members c.

Lemma child_add_exact c v info : br_author v ∈ members c → stake_exact c info → stake_exact c (child_add c v info).
Proof. intros Hv [_ Hsub]. split; [done|]. simpl. rewrite authors_insert. set_solver. Qed.

Lemma update_children_step s v recent a :
  ds_ok s → br_author v ∈ members (DagState_committee s) → br_round v ≤ u32_max → br_round a < br_round v →
  (counted_parent (DagState_gc_round s) v a →
     ∃ info, recent !! a = Some info ∧ stake_exact (DagState_committee s) info) →
  ∃ recent', update_children s v recent a = Ret recent' ∧
    ∀ r, recent' !! r = (if decide (r = a ∧ counted_parent (DagState_gc_round s) v r)
                         then child_add (DagState_committee s) v else id) <$> recent !! r.
Proof.
  intros Hok Hv Hmax Hlt Hp. unfold update_children. arith.
  destruct (decide (counted_parent (DagState_gc_round s) v a)) as [Hc|Hc].
  - destruct (Hp Hc) as (info & Ha & Hst & Hsub). destruct Hc as [Hr Hgc].
    rewrite (proj2 (N.eqb_eq _ _) Hr), (proj2 (N.leb_gt _ _) Hgc). cbn [negb orb]. rewrite Ha, Hst.
    rewrite StakeAggregator_add_unique_spec by (done || apply Hok). cbn [mbind M_bind]. eexists. split; [done|].
    intros r. destruct (decide (r = a)) as [->|Hne].
    + rewrite lookup_insert_eq, decide_True by done. rewrite Ha. simpl. unfold child_add. by rewrite authors_insert.
    + rewrite lookup_insert_ne by done. rewrite decide_False by naive_solver. by rewrite option_fmap_id.
  - exists recent. split.
    + unfold counted_parent in Hc. destruct (N.eqb_spec (br_round a + 1) (br_round v)); [|done].
      destruct (N.leb_spec (br_round a) (DagState_gc_round s)); [done|]. by destruct Hc.
    + intros r. rewrite decide_False by naive_solver. by rewrite option_fmap_id.
Qed.

Lemma update_children_spec s v ancestors recent :
  ds_ok s → br_author v ∈ members (DagState_committee s) → br_round v ≤ u32_max →
  (∀ a, a ∈ ancestors → br_round a < br_round v ∧
     (counted_parent (DagState_gc_round s) v a →
        ∃ info, recent !! a = Some info ∧ stake_exact (DagState_committee s) info)) →
  ∃ recent', foldM (update_children s v) recent ancestors = Ret recent' ∧
    ∀ r, recent' !! r = (if decide (r ∈ ancestors ∧ counted_parent (DagState_gc_round s) v r)
                         then child_add (DagState_committee s) v else id) <$> recent !! r.
Proof.
  intros Hok Hv Hmax. revert recent. induction ancestors as [|a ancestors IH]; intros recent Hanc; cbn [foldM].
  { exists recent. split; [done|]. intros r. rewrite decide_False by (by intros [?%not_elem_of_nil _]). by rewrite option_fmap_id. }
  destruct (Hanc a) as [Hlt Hp]; [left|].
  destruct (update_children_step s v recent a Hok Hv Hmax Hlt Hp) as (recent1 & -> & Hr1). cbn [mbind M_bind].
  destruct (IH recent1) as (recent' & Hf & Hr').
  { intros a' Ha'. destruct (Hanc a') as [Hlt' Hp']; [by right|]. split; [done|]. intros Hc.
    destruct (Hp' Hc) as (info & Hi & He). rewrite Hr1, Hi. simpl. eexists. split; [done|].
    case_decide; [by apply child_add_exact|done]. }
  exists recent'. split; [done|]. intros r. rewrite Hr', Hr1, <- option_fmap_compose.
  clear IH Hanc Hp Hr1 Hr' Hf. apply option_fmap_ext. intros info. unfold compose. pose proof (elem_of_cons ancestors r a).
  repeat case_decide; try naive_solver. apply child_add_twice.
Qed.

(** ** Accepting a block *)

(** [s'] has the block [b] besides those of [s]. *)
Record adds_block s b s' : Prop := {
  ab_context : ds_context s' = ds_context s;
  ab_commit : ds_last_commit s' = ds_last_commit s;
  ab_cached : ∀ r, ds_cached s' r = if decide (r = reference b) then Some b else ds_cached s r;
}.

Lemma adds_block_gc s b s' : adds_block s b s' → DagState_gc_round s' = DagState_gc_round s.
Proof. intros [Hc Hl _]. by apply gc_round_same. Qed.

Lemma adds_block_committee s b s' : adds_block s b s' → DagState_committee s' = DagState_committee s.
Proof. intros [Hc _ _]. unfold DagState_committee. by rewrite Hc. Qed.

Lemma adds_block_cached s b s' r :
  adds_block s b s' → is_Some (ds_cached s' r) ↔ r = reference b ∨ is_Some (ds_cached s r).
Proof. intros [_ _ Hca]. rewrite Hca. destruct (decide (r = reference b)); naive_solver. Qed.

Lemma round_infos_low s b s' front infos :
  adds_block s b s' → b_round b ≤ DagState_gc_round s → round_infos_ok s front infos →
  round_infos_ok s' front infos.
Proof.
  intros Hab Hle [Hc Hf Hb Hcov Hbl].
  split; rewrite ?(adds_block_gc s b s' Hab), ?(adds_block_committee s b s' Hab); [done..| |].
  - intros r [->|Hs]%(adds_block_cached s b s' r Hab) Hgc; [simpl in Hgc; lia|by apply Hcov].
  - intros info Hin Hgc. destruct (Hbl info Hin Hgc) as [Hi Ht]. split; [|done].
    intros r. rewrite Hi, (adds_block_cached s b s' r Hab). split; [naive_solver|].
    intros [Hr [->|Hs]]; [simpl in Hr; lia|done].
Qed.

Lemma round_infos_high s b s' front infos k info :
  adds_block s b s' → DagState_gc_round s < b_round b → round_infos_ok s front infos →
  infos !! k = Some info → ri_round info = b_round b →
  round_infos_ok s' front (<[k := info_add b (DagState_committee s) info]> infos).
Proof.
  intros Hab Hgc [Hc Hf Hb Hcov Hbl] Hk Hround.
  assert (k < length infos)%nat as Hkl by (by eapply lookup_lt_Some).
  split; rewrite ?(adds_block_gc s b s' Hab), ?(adds_block_committee s b s' Hab), ?length_insert; [|done..| |].
  - intros j info' [(-> & <- & _)|(_ & Hj)]%list_lookup_insert_Some; [|by apply Hc]. simpl. by apply Hc.
  - intros r [->|Hs]%(adds_block_cached s b s' r Hab) Hr; [|by apply Hcov].
    rewrite (Hc k info Hk) in Hround. simpl. lia.
  - intros info' (j & [(-> & <- & _)|(Hne & Hj)]%list_lookup_insert_Some)%list_elem_of_lookup_1 Hr; simpl in Hr |- *.
    + destruct (Hbl info) as [Hi _]; [by eapply list_elem_of_lookup_2|lia|]. split; [|done].
      intros r. rewrite elem_of_union, elem_of_singleton, Hi, (adds_block_cached s b s' r Hab).
      split; [|naive_solver]. intros [->|[? ?]]; [by split; [|left]|by split; [|right]].
    + destruct (Hbl info') as [Hi Ht]; [by eapply list_elem_of_lookup_2|done|]. split; [|done].
      intros r. rewrite Hi, (adds_block_cached s b s' r Hab). split; [naive_solver|].
      intros [Hrr [->|Hs]]; [|done]. simpl in Hrr. exfalso. apply Hne.
      apply Hc in Hk, Hj. lia.
Qed.

Lemma children_accept s b s' recent' r info' :
  ds_ok s → v3_meta s → v3_fits s b → ds_block s (reference b) = None → adds_block s b s' →
  (∀ r, recent' !! r = (if decide (r ∈ b_ancestors b ∧ counted_parent (DagState_gc_round s) (reference b) r)
                        then child_add (DagState_committee s) (reference b) else id) <$>
                       <[reference b := BlockInfo_new b]> (ds_recent_blocks s) !! r) →
  recent' !! r = Some info' → DagState_gc_round s < br_round r → children_ok s' recent' r info'.
Proof.
  intros Hok Hm Hf Hnone Hab Hrec Hi Hgc.
  assert (ds_recent_blocks s !! reference b = None) as Hnr.
  { apply eq_None_not_Some. intros [b0 Hb0]%cached_recent. apply cached_is_block in Hb0; congruence. }
  assert (∀ v, (∃ iv, recent' !! v = Some iv ∧ br_round v = br_round r + 1 ∧ r ∈ b_ancestors (bi_block iv)) ↔
               (v = reference b ∧ b_round b = br_round r + 1 ∧ r ∈ b_ancestors b) ∨
               (∃ iv, ds_recent_blocks s !! v = Some iv ∧ br_round v = br_round r + 1 ∧ r ∈ b_ancestors (bi_block iv)))
    as Hrhs.
  { intros v. rewrite Hrec. destruct (decide (v = reference b)) as [->|Hne].
    - rewrite lookup_insert_eq, Hnr. simpl. split.
      + intros (iv & [= <-] & Hr & Hin). left. case_decide; naive_solver.
      + intros [(_ & Hr & Hin)|(iv & ? & _)]; [|done]. eexists. split; [done|]. split; [done|]. by case_decide.
    - rewrite lookup_insert_ne by done. split.
      + intros (iv & Hv & Hr & Hin). right. apply fmap_Some in Hv as (i0 & -> & ->). exists i0. split; [done|].
        split; [done|]. by case_decide.
      + intros [[? _]|(iv & -> & Hr & Hin)]; [done|]. eexists. split; [done|]. split; [done|]. by case_decide. }
  unfold children_ok. setoid_rewrite Hrhs. rewrite (adds_block_committee s b s' Hab).
  rewrite Hrec in Hi. destruct (decide (r = reference b)) as [->|Hne].
  - rewrite lookup_insert_eq in Hi. rewrite decide_False in Hi.
    2:{ intros [Hin _]. apply (vf_ancestors s b Hf) in Hin as [Hlt _]. simpl in Hlt. lia. }
    injection Hi as <-. split; [|apply SA_of_new]. intros v. split; [set_solver|].
    intros [(_ & Hr & _)|(iv & Hiv & _ & Hin)]; [simpl in Hr; lia|].
    destruct (vm_closed s Hm v (bi_block iv) (reference b)) as [_ Hs]; [|done|].
    + apply cached_is_block; [done|]. unfold ds_cached. by rewrite Hiv.
    + destruct (Hs Hgc) as [? ?]. congruence.
  - rewrite lookup_insert_ne in Hi by done. apply fmap_Some in Hi as (info & Hinfo & ->).
    destruct (vm_children s Hm r info Hinfo Hgc) as [Hch Hst].
    case_decide as Hp; simpl.
    + split; [|done]. intros v. rewrite elem_of_union, elem_of_singleton, Hch. destruct Hp as [Hin [Hr _]].
      simpl in Hr. split; [|naive_solver]. intros [->|?]; [left; split_and!; [done|lia|done]|by right].
    + split; [|done]. intros v. rewrite Hch. split; [by right|]. intros [(-> & Hr & Hin)|?]; [|done].
      destruct Hp. split; [done|]. split; [|done]. simpl. lia.
Qed.

(** The next round is at most one above the blocks that the state has. *)
Lemma fits_next_round s b front :
  ds_ok s → v3_fits s b → round_infos_ok s front (ds_round_info s) →
  b_round b ≤ front + N.of_nat (length (ds_round_info s)).
Proof.
  intros Hok Hf Hro. destruct (vf_parent s b Hf) as (a & Ha & Hr). pose proof (ro_front _ _ _ Hro).
  destruct (N.lt_ge_cases (DagState_gc_round s) (br_round a)) as [Hgc|]; [|lia].
  destruct (vf_ancestors s b Hf a Ha) as [_ Hs]. destruct (Hs Hgc) as [ba Hba].
  apply block_above_gc_cached in Hba; [|done..].
  pose proof (ro_covered _ _ _ Hro a ltac:(by eexists) Hgc). lia.
Qed.

Lemma fits_children s b :
  ds_ok s → v3_meta s → v3_fits s b →
  ∃ recent', foldM (update_children s (reference b))
               (<[reference b := BlockInfo_new b]> (ds_recent_blocks s)) (b_ancestors b) = Ret recent' ∧
    ∀ r, recent' !! r = (if decide (r ∈ b_ancestors b ∧ counted_parent (DagState_gc_round s) (reference b) r)
                         then child_add (DagState_committee s) (reference b) else id) <$>
                        <[reference b := BlockInfo_new b]> (ds_recent_blocks s) !! r.
Proof.
  intros Hok Hm Hf. destruct (vf_valid s b Hf) as [_ Hmem]. destruct (vf_round s b Hf) as [_ Hmax].
  apply update_children_spec; [done..|simpl; lia|]. intros a Ha.
  destruct (vf_ancestors s b Hf a Ha) as [Hlt Hs]. split; [done|]. intros [_ Hgc].
  destruct (Hs Hgc) as [ba Hba]. apply block_above_gc_cached in Hba; [|done..].
  assert (is_Some (ds_recent_blocks s !! a)) as [info Hi] by (apply cached_recent; by eexists).
  rewrite lookup_insert_ne by (intros <-; simpl in Hlt; lia). exists info. split; [done|].
  destruct (vm_children s Hm a info Hi Hgc) as [Hch Hst]. split; [done|].
  intros i (v & (iv & Hv & _)%Hch & <-)%authors_spec.
  apply (ok_cached s Hok v (bi_block iv)). unfold ds_cached. by rewrite Hv.
Qed.

Lemma fits_ready s b : ds_ok s → v3_meta s → v3_fits s b → v3_ready s b.
Proof.
  intros Hok Hm Hf _. destruct (fits_children s b Hok Hm Hf) as (recent & Hr & _). exists recent.
  destruct (N.le_gt_cases (b_round b) (DagState_gc_round s)) as [Hle|Hgt].
  - exists s. split; [done|]. unfold DagState_update_round_info. by rewrite (proj2 (N.leb_le _ _) Hle).
  - destruct (vm_infos s Hm) as (front & Hro).
    destruct (update_round_info_spec s b front Hok Hro) as (info & _ & _ & Hu);
      [apply Hf|split; [done|by apply fits_next_round]|apply Hf|].
    eexists. split; [done|exact Hu].
Qed.

(** The fields that v3 reads after [update_block_metadata]. *)
Lemma metadata_v3_fields s b s' :
  pc_enable_v3 (DagState_protocol_config s) = true → DagState_update_block_metadata s b = Ret s' →
  foldM (update_children s (reference b)) (<[reference b := BlockInfo_new b]> (ds_recent_blocks s))
    (b_ancestors b) = Ret (ds_recent_blocks s') ∧
  ∃ s1, DagState_update_round_info s b = Ret s1 ∧ ds_round_info s' = ds_round_info s1.
Proof.
  intros Hv3 Hu. unfold DagState_update_block_metadata in Hu.
  apply bind_Ret in Hu as (refs & _ & Hu). cbn beta zeta in Hu.
  apply bind_Ret in Hu as (s1 & Hs1 & Hu). unfold DagState_protocol_config in Hs1, Hv3. simpl in Hs1.
  rewrite Hv3 in Hs1. apply bind_Ret in Hs1 as (recent & Hrec & Hs1).
  assert (ds_recent_blocks s1 = recent) as Hr1.
  { pose proof (update_round_info_fields _ _ _ Hs1) as [infos ->]. done. }
  mskip Hu. injection Hu as <-. simpl. rewrite Hr1. split; [exact Hrec|].
  eexists. split; [by apply (update_round_info_transfer _ s) in Hs1|]. done.
Qed.

Lemma adds_block_closed s b s' :
  v3_fits s b → dag_closed s → DagState_gc_round s' = DagState_gc_round s →
  (∀ r, ds_block s' r = if decide (r = reference b) then Some b else ds_block s r) → dag_closed s'.
Proof.
  intros Hf Hcl Hgc Hb r b' a Hr Ha. rewrite Hgc, Hb. rewrite Hb in Hr.
  assert (br_round a < br_round r ∧ (DagState_gc_round s < br_round a → is_Some (ds_block s a))) as [Hlt Hs].
  { destruct (decide (r = reference b)) as [->|]; [|by apply (Hcl r b')].
    injection Hr as <-. by apply (vf_ancestors s b Hf). }
  split; [done|]. intros Hgt. destruct (decide (a = reference b)); [by eexists|by apply Hs].
Qed.

Lemma v3_meta_metadata s b s' :
  ds_ok s → pc_enable_v3 (DagState_protocol_config s) = true → v3_meta s → v3_fits s b →
  ds_block s (reference b) = None → DagState_update_block_metadata s b = Ret s' → dag_closed s' →
  v3_meta s'.
Proof.
  intros Hok Hv3 Hm Hf Hnone Hu Hcl.
  pose proof (metadata_v3_fields s b s' Hv3 Hu) as (Hrec & s1 & Hs1 & Hinfos).
  apply update_block_metadata_fields in Hu as (refs & _ & _ & Hca & Hctx & _ & _ & _ & _ & _ & Hlc & _).
  assert (adds_block s b s') as Hab by done. split; [done| |].
  - destruct (vm_infos s Hm) as (front & Hro). exists front. rewrite Hinfos.
    destruct (N.le_gt_cases (b_round b) (DagState_gc_round s)) as [Hle|Hgt].
    + unfold DagState_update_round_info in Hs1. rewrite (proj2 (N.leb_le _ _) Hle) in Hs1. injection Hs1 as <-.
      by apply (round_infos_low s b).
    + destruct (update_round_info_spec s b front Hok Hro) as (info & Hi & Hr & Hu);
        [apply Hf|split; [done|by apply fits_next_round]|apply Hf|].
      rewrite Hu in Hs1. injection Hs1 as <-. simpl.
      apply (round_infos_high s b); [done..| |done|done]. apply infos_for_ok; [done|apply Hf].
  - destruct (fits_children s b Hok Hm Hf) as (recent' & Hrec' & Hspec). rewrite Hrec in Hrec'.
    injection Hrec' as <-. intros r info Hi Hgc. rewrite (adds_block_gc s b s' Hab) in Hgc.
    by apply (children_accept s b).
Qed.

(** ** The other operations *)

Definition bi_votes (info : BlockInfo) : VerifiedBlock * gset BlockRef * StakeAggregator QuorumThreshold :=
  (bi_block info, bi_children info, bi_children_stake info).

(** Above the garbage collection round of [s'], the blocks and votes are those of [s]. *)
Record same_votes s s' : Prop := {
  sm_context : ds_context s' = ds_context s;
  sm_gc : DagState_gc_round s ≤ DagState_gc_round s';
  sm_block : ∀ r, ds_block s' r = ds_block s r;
  sm_recent : ∀ r, DagState_gc_round s' < br_round r →
    bi_votes <$> ds_recent_blocks s' !! r = bi_votes <$> ds_recent_blocks s !! r;
}.

Lemma same_votes_lookup s s' r info' :
  same_votes s s' → DagState_gc_round s' < br_round r → ds_recent_blocks s' !! r = Some info' →
  ∃ info, ds_recent_blocks s !! r = Some info ∧ bi_votes info = bi_votes info'.
Proof.
  intros Hs Hgc Hi. pose proof (sm_recent _ _ Hs r Hgc) as Hr. rewrite Hi in Hr. simpl in Hr. symmetry in Hr.
  apply fmap_Some in Hr as (info & ? & ?). by exists info.
Qed.

Lemma same_votes_sym s s' r info :
  same_votes s s' → DagState_gc_round s' < br_round r → ds_recent_blocks s !! r = Some info →
  ∃ info', ds_recent_blocks s' !! r = Some info' ∧ bi_votes info = bi_votes info'.
Proof.
  intros Hs Hgc Hi. pose proof (sm_recent _ _ Hs r Hgc) as Hr. rewrite Hi in Hr. simpl in Hr.
  apply fmap_Some in Hr as (info' & ? & ?). by exists info'.
Qed.

Lemma same_votes_cached s s' r :
  same_votes s s' → DagState_gc_round s' < br_round r → is_Some (ds_cached s' r) ↔ is_Some (ds_cached s r).
Proof.
  intros Hs Hgc. rewrite !cached_recent. split.
  - intros [i (j & Hj & _)%(same_votes_lookup s s' r i Hs Hgc)]. by eexists.
  - intros [i (j & Hj & _)%(same_votes_sym s s' r i Hs Hgc)]. by eexists.
Qed.

Lemma round_infos_same s s' front infos :
  same_votes s s' → round_infos_ok s front infos →
  DagState_gc_round s' + 1 ≤ front + N.of_nat (length infos) → round_infos_ok s' front infos.
Proof.
  intros Hs [Hc Hf Hb Hcov Hbl] Hle. pose proof (sm_gc _ _ Hs) as Hgc. split; [done|lia|done| |].
  - intros r Hr Hgt. apply Hcov; [by apply (same_votes_cached s s')|lia].
  - intros info Hin Hgt. destruct (Hbl info Hin ltac:(lia)) as [Hi Ht].
    unfold DagState_committee in *. rewrite (sm_context _ _ Hs). split; [|done]. intros r. rewrite Hi.
    split; intros [Hr Hca]; (split; [done|]); by apply (same_votes_cached s s' r Hs ltac:(by rewrite Hr)).
Qed.

(** Rounds at or below the garbage collection round are dropped from the front. *)
Lemma round_infos_drop s front infos :
  round_infos_ok s front infos → ∃ front', round_infos_ok s front' (drop_round_info (DagState_gc_round s) infos).
Proof.
  revert front. induction infos as [|info infos IH]; intros front Hro; [by exists front|]. simpl.
  destruct (N.leb_spec (ri_round info) (DagState_gc_round s)) as [Hle|]; [|by exists front].
  pose proof (ro_contiguous _ _ _ Hro 0%nat info eq_refl) as Hfirst.
  apply (IH (front + 1)). destruct Hro as [Hc Hf Hb Hcov Hbl]. simpl length in *. split.
  - intros k i Hk. rewrite (Hc (Datatypes.S k) i Hk). lia.
  - lia.
  - lia.
  - intros r Hr Hgc. specialize (Hcov r Hr Hgc). lia.
  - intros i Hi. apply Hbl. by right.
Qed.

Lemma v3_meta_same s s' :
  same_votes s s' → v3_meta s →
  (∀ front, round_infos_ok s front (ds_round_info s) →
     ∃ front', round_infos_ok s' front' (ds_round_info s')) → v3_meta s'.
Proof.
  intros Hs Hm Hinfos. pose proof (sm_gc _ _ Hs) as Hgc. split.
  - intros r b a. rewrite !(sm_block _ _ Hs). intros Hr Ha. destruct (vm_closed s Hm r b a Hr Ha) as [Hlt Hcl].
    split; [done|]. intros Hgt. apply Hcl. lia.
  - destruct (vm_infos s Hm) as (front & Hro). by apply (Hinfos front).
  - intros r info' Hi' Hgt. destruct (same_votes_lookup s s' r info' Hs Hgt Hi') as (info & Hi & [= Hb Hch Hst]).
    destruct (vm_children s Hm r info Hi ltac:(lia)) as [Hchildren Hstake]. unfold children_ok, DagState_committee in *.
    rewrite (sm_context _ _ Hs), <- Hch, <- Hst. split; [|done]. intros v. rewrite Hchildren. split.
    + intros (iv & Hv & Hr & Hin). destruct (same_votes_sym s s' v iv Hs ltac:(lia) Hv) as (iv' & Hv' & [= Hbv _ _]).
      exists iv'. by rewrite <- Hbv.
    + intros (iv' & Hv' & Hr & Hin). destruct (same_votes_lookup s s' v iv' Hs ltac:(lia) Hv') as (iv & Hv & [= Hbv _ _]).
      exists iv. by rewrite Hbv.
Qed.

(** The garbage collection round may rise up to the rounds that are there. *)
Lemma v3_meta_raise s s' :
  same_votes s s' → ds_round_info s' = ds_round_info s → v3_meta s →
  (DagState_gc_round s' = DagState_gc_round s ∨
   ∃ r, is_Some (ds_cached s r) ∧ DagState_gc_round s' ≤ br_round r) →
  v3_meta s'.
Proof.
  intros Hs Hri Hm Hgc. apply (v3_meta_same s); [done..|]. intros front Hro. exists front. rewrite Hri.
  apply (round_infos_same s); [done..|]. pose proof (ro_front _ _ _ Hro) as Hf.
  destruct Hgc as [->|(r & Hr & Hle)]; [lia|].
  destruct (N.lt_ge_cases (DagState_gc_round s) (br_round r)) as [Hgt|]; [|lia].
  pose proof (ro_covered _ _ _ Hro r Hr Hgt). lia.
Qed.

Lemma v3_meta_view s s' :
  same_votes s s' → ds_last_commit s' = ds_last_commit s ∧ ds_round_info s' = ds_round_info s →
  v3_meta s → v3_meta s'.
Proof.
  intros Hs [Hl Hri] Hm. apply (v3_meta_raise s); [done..|]. left. apply gc_round_same; [apply Hs|done].
Qed.

(** A valid block that is not a second one of this authority in its slot is
    accepted, and the counts stay exact. *)
Lemma accept_new s b s' :
  ds_ok s → block_valid s b → ds_block s (reference b) = None → DagState_accept_block s b = Ret s' →
  ∃ s1, DagState_update_block_metadata s b = Ret s1 ∧ s' = set_blocks_to_write (ds_blocks_to_write s1 ++ [b]) s1.
Proof.
  intros Hok Hval Hnone Hacc. unfold DagState_accept_block in Hacc. apply bind_Ret in Hacc as (_ & _ & Hacc).
  rewrite contains_block_spec, Hnone in Hacc by (done || apply Hval).
  rewrite bool_decide_eq_false_2 in Hacc by (by intros [? ?]). cbn [mbind M_bind] in Hacc.
  apply bind_Ret in Hacc as (_ & _ & Hacc). apply bind_Ret in Hacc as (_ & _ & Hacc).
  apply bind_Ret in Hacc as (s1 & Hs1 & [= <-]). by exists s1.
Qed.

Lemma accept_known s b s' :
  ds_ok s → block_valid s b → is_Some (ds_block s (reference b)) → DagState_accept_block s b = Ret s' → s' = s.
Proof.
  intros Hok Hval Hsome Hacc. unfold DagState_accept_block in Hacc. apply bind_Ret in Hacc as (_ & _ & Hacc).
  rewrite contains_block_spec, bool_decide_eq_true_2 in Hacc by (done || apply Hval). by injection Hacc as <-.
Qed.

Lemma accept_v3 s b :
  ds_ok s → pc_enable_v3 (DagState_protocol_config s) = true → v3_meta s → v3_fits s b →
  ¬ own_slot_taken s b →
  ∃ s', DagState_accept_block s b = Ret s' ∧ ds_ok s' ∧ v3_meta s' ∧ ds_context s' = ds_context s ∧
    ds_last_commit s' = ds_last_commit s ∧
    ∀ r, ds_block s' r = if decide (r = reference b ∧ ds_block s r = None) then Some b else ds_block s r.
Proof.
  intros Hok Hv3 Hm Hf Hown. pose proof (vf_valid s b Hf) as Hval. destruct (vf_round s b Hf) as [Hpos Hmax].
  destruct (accept_block_outcome s b Hok (fits_ready s b Hok Hm Hf) Hval Hpos Hmax)
    as [[Hs Hacc]|[(_ & Ht & _)|(Hnone & _ & s' & Hacc & Hok' & Hb)]]; [|done|].
  - exists s. destruct (accept_block_spec s b s Hok Hval Hacc) as (_ & _ & _ & Hb). done.
  - exists s'. destruct (accept_block_spec s b s' Hok Hval Hacc) as (_ & Hctx & Hlc & Hb'). split_and!; try done.
    assert (dag_closed s') as Hcl.
    { apply (adds_block_closed s b); [done|apply Hm|by apply gc_round_same|done]. }
    destruct (accept_new s b s' Hok Hval Hnone Hacc) as (s1 & Hs1 & ->).
    apply (v3_meta_view s1); [by split|done|]. by apply (v3_meta_metadata s b s1).
Qed.

Lemma same_votes_recent s s' :
  ds_context s' = ds_context s → ds_genesis s' = ds_genesis s → ds_store s' = ds_store s →
  ds_last_commit s' = ds_last_commit s →
  (∀ r, bi_votes <$> ds_recent_blocks s' !! r = bi_votes <$> ds_recent_blocks s !! r) → same_votes s s'.
Proof.
  intros Hc Hg Hst Hl Hv. split; [done| | |done].
  - by rewrite (gc_round_same s s').
  - intros r. unfold ds_block. rewrite Hg, Hst. destruct (_ =? _); [done|]. specialize (Hv r).
    destruct (ds_recent_blocks s' !! r), (ds_recent_blocks s !! r); try done. by injection Hv as ->.
Qed.

Lemma set_committed_v3 s r s' fresh : DagState_set_committed s r = Ret (s', fresh) → v3_meta s → v3_meta s'.
Proof.
  unfold DagState_set_committed. destruct (ds_recent_blocks s !! r) as [info|] eqn:Hr; [|done].
  destruct (negb _); intros [= <- _] Hm; [|done].
  apply (v3_meta_view s); [|done|done]. apply same_votes_recent; [done..|]. intros r'. simpl.
  destruct (decide (r = r')) as [<-|]; [by rewrite lookup_insert_eq, Hr|by rewrite lookup_insert_ne].
Qed.

Lemma link_loop_votes fuel gc recent linked targets recent' linked' :
  link_loop fuel gc recent linked targets = Ret (recent', linked') →
  ∀ r, bi_votes <$> recent' !! r = bi_votes <$> recent !! r.
Proof.
  revert recent linked targets. induction fuel as [|fuel IH]; intros recent linked targets; simpl; [done|].
  destruct targets as [|r targets]; [by intros [= -> _]|].
  destruct (_ <=? _); [apply IH|]. destruct (recent !! r) as [info|] eqn:Hr; [|done].
  destruct (bi_included info); [apply IH|]. intros Hs r'. rewrite (IH _ _ _ Hs r').
  destruct (decide (r = r')) as [<-|]; [by rewrite lookup_insert_eq, Hr|by rewrite lookup_insert_ne].
Qed.

Lemma link_causal_history_v3 s r s' linked :
  DagState_link_causal_history s r = Ret (s', linked) → v3_meta s → v3_meta s'.
Proof.
  unfold DagState_link_causal_history. intros Hl Hm. apply bind_Ret in Hl as ([recent l] & Hl & [= <- _]).
  apply (v3_meta_view s); [|done|done]. apply same_votes_recent; [done..|]. intros r'. by apply (link_loop_votes _ _ _ _ _ _ _ Hl).
Qed.

Lemma add_commit_v3 s commit s' :
  DagState_add_commit s commit = Ret s' → DagState_last_commit_round s ≤ c_round commit →
  is_Some (ds_cached s (c_leader commit)) → v3_meta s → v3_meta s'.
Proof.
  unfold DagState_add_commit. intros Ha Hle Hlead Hm. apply bind_Ret in Ha as ([] & _ & Ha); [by injection Ha as <-|].
  mskip Ha. injection Ha as <-. apply (v3_meta_raise s); [|done|done|].
  - split; [done| |done..]. apply gc_round_mono; [done|exact Hle].
  - right. exists (c_leader commit). split; [done|]. apply N.le_sub_l.
Qed.

(** *** Flush *)

Lemma evict_authority_votes s i s' :
  evict_authority s i = Ret s' →
  ds_context s' = ds_context s ∧ ds_last_commit s' = ds_last_commit s ∧ ds_round_info s' = ds_round_info s ∧
  ∀ r, DagState_gc_round s < br_round r → ds_recent_blocks s' !! r = ds_recent_blocks s !! r.
Proof.
  unfold evict_authority, DagState_calculate_authority_eviction_round. intros He.
  apply bind_Ret in He as (er & Her & He). apply bind_Ret in Her as (refs0 & _ & [= <-]).
  apply bind_Ret in He as (refs & _ & He).
  destruct (evict_loop _ _ _ _) as [recent refs'] eqn:El. mskip He. injection He as <-.
  split_and!; [done..|]. intros r Hr. simpl.
  apply evict_loop_spec in El as [El _]; [|apply bset_list_sorted]. rewrite El, decide_False; [done|].
  intros [_ Hle]. unfold eviction_round in Hle. lia.
Qed.

Lemma flush_v3 s s' : ds_ok s → DagState_flush s = Ret s' → v3_meta s → v3_meta s'.
Proof.
  intros Hok Hf Hm. destruct (flush_spec s Hok) as (s'' & Hf' & _ & _ & Hctx & Hlc & Hb & _).
  rewrite Hf in Hf'. injection Hf' as <-. unfold DagState_flush in Hf. cbv zeta in Hf.
  destruct (_ && _ && _ && _).
  { injection Hf as <-. apply (v3_meta_view s); [|done|done]. by apply same_votes_recent. }
  apply bind_Ret in Hf as (store & _ & Hf). apply bind_Ret in Hf as (s1 & Hs1 & [= <-]).
  set (s0 := set_store store _) in Hs1.
  assert (DagState_gc_round s1 = DagState_gc_round s) as Hgc by (by apply gc_round_same).
  assert (ds_round_info s1 = ds_round_info s ∧
          ∀ r, DagState_gc_round s < br_round r → ds_recent_blocks s1 !! r = ds_recent_blocks s !! r) as [Hri Hrec].
  { apply (foldM_invariant _ (λ s1, DagState_gc_round s1 = DagState_gc_round s ∧ ds_round_info s1 = ds_round_info s ∧
      ∀ r, DagState_gc_round s < br_round r → ds_recent_blocks s1 !! r = ds_recent_blocks s !! r)) in Hs1;
      [by destruct Hs1 as (_ & ? & ?)| |done].
    intros s2 i s3 _ (Hg & Hi & Hr) (Hc3 & Hl3 & Hi3 & Hr3)%evict_authority_votes.
    split_and!; [by rewrite (gc_round_same s2 s3)|congruence|]. intros r Hgt. rewrite Hr3 by (by rewrite Hg). by apply Hr. }
  assert (same_votes s (set_round_info (drop_round_info (DagState_gc_round s1) (ds_round_info s1)) s1)) as Hsv.
  { split; [done| |done|].
    - change (DagState_gc_round s ≤ DagState_gc_round s1). lia.
    - intros r Hgt. simpl. rewrite Hrec; [done|]. rewrite <- Hgc. exact Hgt. }
  set (t1 := set_round_info _ s1) in *. apply (v3_meta_same s); [done..|]. intros front Hro.
  change (∃ front', round_infos_ok t1 front' (drop_round_info (DagState_gc_round t1) (ds_round_info s1))).
  rewrite Hri. apply (round_infos_drop _ front), (round_infos_same s); [done..|].
  pose proof (ro_front _ _ _ Hro). change (DagState_gc_round s1 + 1 ≤ front + N.of_nat (length (ds_round_info s))). lia.
Qed.

End V3Metadata.
