(* ===== verification/V3Run.v ===== *)
(** * Runs of the DAG state under v3

    The votes that the v3 rules read (the children of each block with their
    stake, and the blocks of each round with theirs) are exact after every run
    of operations on the DAG state. *)

From S2P Require Import Prelude BTree Config Block Commit Store StakeAggregator ThresholdClock.
From S2P Require Import LeaderScoring DagState DagTheory DagRecovery CommitRule V3Metadata.
Local Open Scope N_scope.

Section V3Run.
Context `{Profile} `{Crypto} {S : Type} `{StoreLaws S}.
Implicit Types (s : DagState S) (b : VerifiedBlock) (op : DagOp).

Definition enabled_v3 s : Prop := pc_enable_v3 (DagState_protocol_config s) = true.

(** What an operation needs: a block that fits, a commit of a cached leader
    that is not below the last one. *)
Definition v3_op_ready s op : Prop :=
  match op with
  | OpAccept b => v3_fits s b
  | OpAddCommit commit => DagState_last_commit_round s ≤ c_round commit ∧ is_Some (ds_cached s (c_leader commit))
  | _ => True
  end.

Lemma v3_op_valid s op : v3_op_ready s op → op_valid s op.
Proof. destruct op; simpl; try done; [intros Hf; apply Hf|by intros [? _]]. Qed.

Lemma accept_run_v3 s b s' :
  ds_ok s → enabled_v3 s → v3_meta s → v3_fits s b → DagState_accept_block s b = Ret s' → v3_meta s'.
Proof.
  intros Hok Hv3 Hm Hf Hacc. destruct (vf_round s b Hf) as [Hpos Hmax].
  destruct (accept_block_outcome s b Hok (fits_ready s b Hok Hm Hf) (vf_valid s b Hf) Hpos Hmax)
    as [[_ Heq]|[(_ & _ & Heq)|(Hnone & Hown & _)]].
  - rewrite Hacc in Heq. by injection Heq as ->.
  - congruence.
  - destruct (accept_v3 s b Hok Hv3 Hm Hf Hown) as (s1 & Hs1 & _ & Hm1 & _). rewrite Hacc in Hs1. by injection Hs1 as ->.
Qed.

Lemma run_op_v3 s op s' :
  ds_ok s → enabled_v3 s → v3_meta s → v3_op_ready s op → run_op s op = Ret s' → v3_meta s'.
Proof.
  intros Hok Hv3 Hm Hr Hrun. destruct op; simpl in *.
  - by apply (accept_run_v3 s block).
  - by apply (flush_v3 s).
  - apply fmap_fst_Ret in Hrun as [f Hrun]. by apply (set_committed_v3 s r s' f).
  - apply fmap_fst_Ret in Hrun as [f Hrun]. by apply (link_causal_history_v3 s r s' f).
  - destruct Hr as [Hle Hl]. by apply (add_commit_v3 s commit).
  - unfold DagState_add_commit_info in Hrun. mskip Hrun. injection Hrun as <-. apply (v3_meta_view s); [by apply same_votes_recent|done..].
  - injection Hrun as <-. apply (v3_meta_view s); [by apply same_votes_recent|done..].
  - injection Hrun as <-. unfold DagState_take_commit_votes. destruct (take_votes_loop _ _ _).
    apply (v3_meta_view s); [by apply same_votes_recent|done..].
  - unfold DagState_add_scoring_subdags in Hrun. mskip Hrun. injection Hrun as <-. apply (v3_meta_view s); [by apply same_votes_recent|done..].
  - injection Hrun as <-. apply (v3_meta_view s); [by apply same_votes_recent|done..].
Qed.

(** A run, each operation ready where it is applied. *)
Inductive v3_run s : list DagOp → DagState S → Prop :=
  | v3_run_nil : v3_run s [] s
  | v3_run_snoc ops s1 op s2 : v3_run s ops s1 → v3_op_ready s1 op → run_op s1 op = Ret s2 → v3_run s (ops ++ [op]) s2.

Lemma v3_run_inv s ops s' :
  ds_ok s → enabled_v3 s → v3_meta s → v3_run s ops s' → ds_ok s' ∧ enabled_v3 s' ∧ v3_meta s'.
Proof.
  intros Hok Hv3 Hm Hrun. induction Hrun as [|ops s1 op s2 _ (Hok1 & Hv1 & Hm1) Hready Hop]; [done|].
  destruct (run_op_spec s1 op s2 Hok1 (v3_op_valid s1 op Hready) Hop) as (Hok2 & Hctx & _ & _).
  split_and!; [done| |by apply (run_op_v3 s1 op)]. unfold enabled_v3, DagState_protocol_config in *. by rewrite Hctx.
Qed.

(** ** The empty DAG *)

Lemma genesis_block_ancestors ctx i b : genesis_block ctx i = Ret b → b_ancestors b = [].
Proof.
  unfold genesis_block. intros Hb. mskip Hb. simplify_eq. simpl.
  by destruct (pc_enable_v3 (ctx_protocol_config ctx)), (pc_transaction_voting_enabled (ctx_protocol_config ctx)).
Qed.

Lemma genesis_map_ancestors ctx gs r b :
  genesis_blocks ctx = Ret gs → genesis_map gs !! r = Some b → b_ancestors b = [].
Proof.
  unfold genesis_blocks. rewrite mapP_Forall2. intros Hgs Hb%elem_of_list_to_map_2. rewrite elem_of_reverse in Hb.
  apply list_elem_of_fmap in Hb as (b' & [= -> ->] & Hb). apply list_elem_of_lookup in Hb as [k Hk].
  destruct (Forall2_lookup_r _ _ _ _ _ Hgs Hk) as (ia & _ & Hg). by apply genesis_block_ancestors in Hg.
Qed.

Lemma fresh_v3_meta s :
  ds_ok s → ds_last_commit s = None → ds_round_info s = [] → ds_recent_blocks s = ∅ →
  (∀ r b, ds_block s r = Some b → b_ancestors b = []) → v3_meta s.
Proof.
  intros Hok Hl Hi Hr Hb.
  assert (DagState_gc_round s = 0) as Hgc.
  { unfold DagState_gc_round, DagState_calculate_gc_round, DagState_last_commit_round. rewrite Hl. lia. }
  assert (∀ r, ds_cached s r = None) as Hc by (intros r; unfold ds_cached; by rewrite Hr).
  split.
  - intros r b a Hrb Ha. rewrite (Hb r b Hrb) in Ha. by apply not_elem_of_nil in Ha.
  - exists 1. rewrite Hi. split; rewrite ?Hgc; cbn [length].
    + by intros k info.
    + lia.
    + lia.
    + intros r [b Hrb]. by rewrite Hc in Hrb.
    + by intros info ?%not_elem_of_nil.
  - intros r info Hri. by rewrite Hr in Hri.
Qed.

(** [DagState::new] on an empty store. *)
Lemma fresh_v3 ctx store gs :
  Committee_wf (ctx_committee ctx) → 1 ≤ ctx_dag_state_cached_rounds ctx →
  genesis_blocks ctx = Ret gs → store_fresh store →
  ∃ s, DagState_new ctx store = Ret s ∧ ds_ok s ∧ ds_context s = ctx ∧ ds_last_commit s = None ∧ v3_meta s ∧
       ds_recent_blocks s = ∅ ∧ ds_highest_accepted_round s = 0 ∧
       (∀ r, ds_block s r = if br_round r =? GENESIS_ROUND then genesis_map gs !! r else None).
Proof.
  intros Hwf Hcr Hgs Hf. destruct (fresh_state_empty ctx store gs Hwf Hgs Hf) as (s & Hn & Hlc & Hrec & Hri & Hh & Hgen).
  destruct (fresh_state_ok ctx store gs Hwf Hcr Hgs Hf) as (s' & Hn' & Hok & Hctx & _ & Hb).
  rewrite Hn in Hn'. injection Hn' as <-.
  assert (∀ r, ds_block s r = if br_round r =? GENESIS_ROUND then genesis_map gs !! r else None) as Hblock.
  { intros r. destruct (N.eqb_spec (br_round r) GENESIS_ROUND) as [E|E].
    - unfold ds_block. by rewrite E, Hgen.
    - apply Hb. unfold GENESIS_ROUND in E. lia. }
  exists s. split_and!; [done..| |done|done|done]. apply fresh_v3_meta; [done..|].
  intros r b Hr. rewrite Hblock in Hr. destruct (_ =? _); [|done]. by eapply genesis_map_ancestors.
Qed.

(** C11: under v3 the votes that the commit rule reads are exact: from an empty
    store, after any run of accepted blocks, commits, flushes and other
    operations on the DAG state, each cached block above the garbage collection
    round has as its children exactly the cached blocks of the next round that
    link to it, with the stake of their distinct authors, and the information on
    a round lists exactly its cached blocks, with the stake of theirs. *)
Theorem DagState_v3_votes_exact ctx store gs s0 ops s :
  Committee_wf (ctx_committee ctx) → 1 ≤ ctx_dag_state_cached_rounds ctx →
  pc_enable_v3 (ctx_protocol_config ctx) = true → genesis_blocks ctx = Ret gs → store_fresh store →
  DagState_new ctx store = Ret s0 → v3_run s0 ops s →
  (∀ r info, ds_recent_blocks s !! r = Some info → DagState_gc_round s < br_round r →
     (∀ v, v ∈ bi_children info ↔ ∃ b, ds_cached s v = Some b ∧ br_round v = br_round r + 1 ∧ r ∈ b_ancestors b) ∧
     bi_children_stake info = SA_of (DagState_committee s) (authors (bi_children info))) ∧
  (∀ round, DagState_gc_round s < round →
     (∃ info, DagState_get_round_info s round = Ret (Some info) ∧
        (∀ r, r ∈ ri_blocks info ↔ br_round r = round ∧ is_Some (ds_cached s r)) ∧
        ri_total_stake info = SA_of (DagState_committee s) (authors (ri_blocks info))) ∨
     (DagState_get_round_info s round = Ret None ∧ ∀ r, br_round r = round → ds_cached s r = None)).
Proof.
  intros Hwf Hcr Hv3 Hgs Hf Hnew Hrun. destruct (fresh_v3 ctx store gs Hwf Hcr Hgs Hf) as (s1 & Hn & Hok & Hctx & _ & Hm & _).
  rewrite Hnew in Hn. injection Hn as <-.
  destruct (v3_run_inv s0 ops s) as (_ & _ & Hms); [done| |done..|].
  { unfold enabled_v3, DagState_protocol_config. by rewrite Hctx. }
  split; [|intros round; by apply get_round_info_spec].
  intros r info Hr Hgc. destruct (vm_children s Hms r info Hr Hgc) as [Hch Hst]. split; [|done].
  intros v. rewrite Hch. unfold ds_cached. setoid_rewrite fmap_Some. naive_solver.
Qed.

End V3Run.
