(* ===== verification/LeaderSlotDecider.v ===== *)
(** * Deciding leader slots, commit rule v3 (consensus/core/src/leader_slot_decider.rs)

    The direct rule counts the votes that [DagState] keeps with each block and
    round; the indirect rule counts the votes in the history of an anchor block.
    The decider has no state of its own: the DAG state is an argument. *)

From S2P Require Import Prelude BTree Config Block Commit Store StakeAggregator ThresholdClock.
From S2P Require Import LeaderScoring DagState.
Local Open Scope N_scope.

#[export] Instance Slot_countable : Countable Slot.
Proof.
  apply (inj_countable' (λ s, (slot_round s, slot_authority s)) (λ p, mkSlot p.1 p.2)).
  by intros [].
Defined.

Definition INDIRECT_COMMIT_DEPTH : Round := 2.

Record LeaderSlotDecider : Type := mkLeaderSlotDecider { sd_context : Context }.

Definition LeaderSlotDecider_new (context : Context) : LeaderSlotDecider :=
  mkLeaderSlotDecider context.

Section LeaderSlotDecider.
Context `{Profile} {S : Type} `{Store S}.
Implicit Types s : DagState S.

(** *** The direct rule *)

(** The authors of a set of voting blocks, each counted once. *)
Definition count_votes {T : Type} (c : Committee) (votes : StakeAggregator T)
    (refs : gset BlockRef) : M (StakeAggregator T) :=
  foldM (λ votes block_ref, fst <$> StakeAggregator_add_unique votes (br_author block_ref) c)
    votes (bset_list refs).

(** The loop over the blocks of the slot: the block to commit, or the number of
    blocks that a quorum skips. *)
Fixpoint direct_decide_loop (c : Committee) (voting_blocks : gset BlockRef) (num_skipped : N)
    (block_infos : list BlockInfo) : M (VerifiedBlock + N) :=
  match block_infos with
  | [] => Ret (inr num_skipped)
  | block_info :: block_infos =>
      reject_votes ← count_votes c (StakeAggregator_new (T := QuorumThreshold))
                       (voting_blocks ∖ bi_children block_info);
      let block_rejected := StakeAggregator_reached_threshold reject_votes c in
      if StakeAggregator_reached_threshold (bi_children_stake block_info) c then
        assert_that (negb block_rejected) "Block cannot be both committed and skipped.";;
        Ret (inl (bi_block block_info))
      else
        direct_decide_loop c voting_blocks
          (if block_rejected then num_skipped + 1 else num_skipped) block_infos
  end.

Definition LeaderSlotDecider_try_direct_decide (self : LeaderSlotDecider) s (slot : Slot)
    : M LeaderStatus :=
  let c := ctx_committee (sd_context self) in
  voting_round ← u32_add (slot_round slot) 1;
  round_info ← DagState_get_round_info s voting_round;
  match round_info with
  | None => Ret (LUndecided slot)
  | Some voting_round_info =>
      if negb (StakeAggregator_reached_threshold (ri_total_stake voting_round_info) c)
      then Ret (LUndecided slot)
      else
        block_infos ← DagState_get_block_info_at_slot s slot;
        decision ← direct_decide_loop c (ri_blocks voting_round_info) 0 block_infos;
        match decision with
        | inl block => Ret (LCommit block)
        | inr num_skipped =>
            if num_skipped =? N.of_nat (length block_infos)
            then Ret (LSkip slot) else Ret (LUndecided slot)
        end
  end.

(** *** The indirect rule *)

(** What the search from the anchor block holds: the queue, the references met,
    and the votes for each decision block. *)
Record VoteSearch : Type := mkVoteSearch {
  vs_to_visit : list VerifiedBlock;
  vs_visited : gset BlockRef;
  vs_votes : gmap BlockRef (StakeAggregator CertificationThreshold);
}.

(** [dag_state.get_block(r).unwrap_or_else(|| panic!(...))]. *)
Definition must_get_block s (r : BlockRef) : M VerifiedBlock :=
  found ← DagState_get_block s r;
  match found with
  | Some block => Ret block
  | None => Panic (Explicit "Block must exist")
  end.

(** The body of the loop over the ancestors of a visited block. *)
Definition search_ancestor (c : Committee) s (decision_round : Round)
    (decision_blocks : gset BlockRef) (block : VerifiedBlock) (search : VoteSearch)
    (ancestor : BlockRef) : M VoteSearch :=
  search ← (if (decision_round <? br_round ancestor) &&
               negb (bool_decide (ancestor ∈ vs_visited search)) then
              ancestor_block ← must_get_block s ancestor;
              Ret (mkVoteSearch (vs_to_visit search ++ [ancestor_block])
                     ({[ancestor]} ∪ vs_visited search) (vs_votes search))
            else Ret search);
  if bool_decide (ancestor ∈ decision_blocks) then
    voting_round ← u32_add decision_round 1;
    if b_round block =? voting_round then
      '(commit_stake, _) ← StakeAggregator_add_unique
                             (default StakeAggregator_new (vs_votes search !! ancestor))
                             (b_author block) c;
      Ret (mkVoteSearch (vs_to_visit search) (vs_visited search)
             (<[ancestor := commit_stake]> (vs_votes search)))
    else Ret search
  else Ret search.

Fixpoint search_votes (fuel : nat) (c : Committee) s (decision_round : Round)
    (decision_blocks : gset BlockRef) (search : VoteSearch)
    : M (gmap BlockRef (StakeAggregator CertificationThreshold)) :=
  match fuel with
  | O => NoFuel
  | Datatypes.S fuel =>
      match vs_to_visit search with
      | [] => Ret (vs_votes search)
      | block :: to_visit =>
          search ← foldM (search_ancestor c s decision_round decision_blocks block)
                     (mkVoteSearch to_visit (vs_visited search) (vs_votes search))
                     (b_ancestors block);
          search_votes fuel c s decision_round decision_blocks search
      end
  end.

(** Each block is queued once, when its reference is met; the blocks below the
    anchor are cached. *)
Definition search_fuel s : nat := 2 + size (ds_recent_blocks s).

(** [certified_slots.entry(slot).or_default().push(...)], for one entry of the
    votes. *)
Definition collect_certified (c : Committee) s (certified_slots : gmap Slot (list VerifiedBlock))
    (entry : BlockRef * StakeAggregator CertificationThreshold)
    : M (gmap Slot (list VerifiedBlock)) :=
  let '(block_ref, commit_stake) := entry in
  let slot := mkSlot (br_round block_ref) (br_author block_ref) in
  if StakeAggregator_reached_threshold commit_stake c then
    block ← must_get_block s block_ref;
    Ret (<[slot := default [] (certified_slots !! slot) ++ [block]]> certified_slots)
  else Ret certified_slots.

Definition slot_decision (certified_slots : gmap Slot (list VerifiedBlock)) (slot : Slot)
    : LeaderStatus :=
  match default [] (certified_slots !! slot) with
  | [block] => LCommit block
  | _ => LSkip slot
  end.

Definition LeaderSlotDecider_try_indirect_decide (self : LeaderSlotDecider) s
    (anchor_block : VerifiedBlock) (decision_slots : list Slot) : M (list LeaderStatus) :=
  let c := ctx_committee (sd_context self) in
  assert_that (negb (is_nil decision_slots)) "!decision_slots.is_empty()";;
  first ← index decision_slots 0;
  let decision_round := slot_round first in
  assert_that (forallb (λ slot, slot_round slot =? decision_round) decision_slots)
    "decision_slots.iter().all(|s| s.round == decision_round)";;
  lowest_anchor ← u32_add decision_round INDIRECT_COMMIT_DEPTH;
  assert_that (lowest_anchor <=? b_round anchor_block)
    "Anchor block is too close to decision round";;
  blocks ← mapP (DagState_get_uncommitted_blocks_at_slot s) decision_slots;
  let decision_blocks : gset BlockRef := list_to_set (reference <$> concat blocks) in
  votes ← search_votes (search_fuel s) c s decision_round decision_blocks
            (mkVoteSearch [anchor_block] {[reference anchor_block]} ∅);
  certified_slots ← foldM (collect_certified c s) ∅ (bmap_list votes);
  Ret (slot_decision certified_slots <$> decision_slots).

End LeaderSlotDecider.
