(* ===== verification/SlotDeciderTheory.v ===== *)
(** * The slot decider implements commit rule v3

    What [LeaderSlotDecider] returns on the DAG state of one authority, in terms
    of the rule on the blocks of all authorities: the direct rule returns, and a
    decision it takes is a direct decision; the indirect rule returns an indirect
    decision of the anchor for each slot. *)

From S2P Require Import Prelude BTree Config Block Commit Store StakeAggregator ThresholdClock.
From S2P Require Import LeaderScoring DagState DagTheory DagTraversal CommitRule.
From S2P Require Import ProposerHistory V3Metadata SlotRule LeaderSlotDecider.
Local Open Scope N_scope.

(** The votes counted are the authors of the voting blocks. *)
Lemma count_votes_spec `{Profile} (T : Type) (c : Committee) (refs : gset BlockRef) :
  Committee_wf c → authors refs ⊆ members c →
  count_votes c (StakeAggregator_new (T := T)) refs = Ret (SA_of c (authors refs)).
Proof.
  intros Hwf Hsub. unfold count_votes. rewrite (SA_of_new c).
  assert (∀ l V, V ⊆ members c → (∀ r, r ∈ l → br_author r ∈ members c) →
    foldM (λ votes block_ref, fst <$> StakeAggregator_add_unique votes (br_author block_ref) c)
      (SA_of (T := T) c V) l = Ret (SA_of c (list_to_set (br_author <$> l) ∪ V))) as Hfold.
  { intros l. induction l as [|r l IH]; intros V HV Hl; cbn [foldM].
    - by rewrite fmap_nil, list_to_set_nil, union_empty_l_L.
    - rewrite StakeAggregator_add_unique_spec by (done || apply Hl; left). cbn [fmap M_fmap fst mbind M_bind].
      rewrite IH; [|apply union_subseteq; split; [apply singleton_subseteq_l, Hl; left|done]|intros; apply Hl; by right].
      do 2 f_equal. rewrite fmap_cons, list_to_set_cons. apply set_eq. intros i. set_solver. }
  rewrite Hfold; [|apply empty_subseteq|].
  - do 2 f_equal. rewrite union_empty_r_L. apply set_eq. intros i.
    rewrite elem_of_list_to_set, list_elem_of_fmap, authors_spec. setoid_rewrite bset_list_elem. naive_solver.
  - intros r Hr%bset_list_elem. apply Hsub, authors_spec. by exists r.
Qed.

Section SlotDecider.
Context `{Profile} `{Crypto} {S : Type} `{StoreLaws S}.
Implicit Types (s : DagState S) (b : VerifiedBlock).
Context (c : Committee) (G : BlockRef → option VerifiedBlock).

(** The state of one authority: some of the blocks, with exact votes. *)
Record v3_view s : Prop := {
  vw_ok : ds_ok s;
  vw_meta : v3_meta s;
  vw_committee : DagState_committee s = c;
  vw_sub : ∀ r b, ds_block s r = Some b → G r = Some b;
}.

Context (Hwf : Committee_wf c) (Hv3 : v3_thresholds c).
Context (Hdag : dag_valid c G) (Hdist : distinct_ancestors G).
Context (byz : gset AuthorityIndex) (Hmaj : honest_majority c G byz).

(** ** Views *)

Lemma view_cached s r b : v3_view s → ds_cached s r = Some b → G r = Some b ∧ ds_block s r = Some b.
Proof. intros Hv Hc. apply cached_is_block in Hc; [|apply Hv]. split; [by apply (vw_sub s Hv)|done]. Qed.

Lemma view_recent s r info :
  v3_view s → ds_recent_blocks s !! r = Some info →
  G r = Some (bi_block info) ∧ ds_cached s r = Some (bi_block info) ∧ reference (bi_block info) = r.
Proof.
  intros Hv Hi. assert (ds_cached s r = Some (bi_block info)) as Hc by (unfold ds_cached; by rewrite Hi).
  split_and!; [by eapply view_cached|done|]. by apply (ok_cached s (vw_ok s Hv) r (bi_block info)).
Qed.

(** An ancestor above the garbage collection round of a block that is there. *)
Lemma v3_view_ancestor s r b a :
  v3_view s → ds_block s r = Some b → a ∈ b_ancestors b → DagState_gc_round s < br_round a →
  ∃ ba, ds_cached s a = Some ba ∧ ds_block s a = Some ba ∧ G a = Some ba.
Proof.
  intros Hv Hb Ha Hgc. destruct (vm_closed s (vw_meta s Hv) r b a Hb Ha) as [_ Hs].
  destruct (Hs Hgc) as [ba Hba]. exists ba. split_and!; [|done|by apply (vw_sub s Hv)].
  by apply block_above_gc_cached; [apply Hv|..].
Qed.

Lemma cached_authors s refs :
  v3_view s → (∀ r, r ∈ refs → is_Some (ds_cached s r)) → authors refs ⊆ members c.
Proof.
  intros Hv Hrefs i (r & [br Hr]%Hrefs & <-)%authors_spec. rewrite <- (vw_committee s Hv).
  by apply (ok_cached s (vw_ok s Hv) r br).
Qed.

(** ** Votes *)

Definition slot_reached (V : gset AuthorityIndex) : bool := Committee_reached_quorum c (set_stake c V).

Lemma reached_quorum V : V ⊆ members c → slot_reached V = true → is_quorum c V.
Proof. by split. Qed.

(** ** The direct rule *)

Lemma block_info_at_slot_spec s slot :
  v3_view s → DagState_gc_round s < slot_round slot →
  ∃ l, DagState_get_block_info_at_slot s slot = Ret l ∧
    ∀ info, info ∈ l ↔ ∃ r, ds_recent_blocks s !! r = Some info ∧ Slot_from r = slot.
Proof.
  intros Hv Hgc. unfold DagState_get_block_info_at_slot, bmap_range.
  rewrite (proj2 (N.ltb_lt _ _) Hgc), slot_bounds_ok. cbn [assert_that mbind M_bind]. eexists. split; [done|].
  intros info. rewrite list_elem_of_fmap. setoid_rewrite list_elem_of_filter. split.
  - intros ([r i] & -> & Hr & Hin). exists r. split; [by apply bmap_list_elem|].
    simpl in Hr. rewrite slot_range in Hr by (apply (cached_digest s (r, i)); [apply Hv|done]).
    by apply bool_decide_eq_true in Hr.
  - intros (r & Hr & Hslot). exists (r, info). split; [done|].
    assert ((r, info) ∈ bmap_list (ds_recent_blocks s)) as Hin by (by apply bmap_list_elem). split; [|done].
    simpl. rewrite slot_range by (apply (cached_digest s (r, info)); [apply Hv|done]). by apply bool_decide_eq_true.
Qed.

(** The blocks of the voting round. *)
Definition voting_round s (round : Round) (refs : gset BlockRef) : Prop :=
  ∀ v, v ∈ refs ↔ br_round v = round ∧ is_Some (ds_cached s v).

(** The voters for and against a block that is there. *)
Lemma children_backed s r info :
  v3_view s → DagState_gc_round s < br_round r → ds_recent_blocks s !! r = Some info →
  authors (bi_children info) ⊆ members c ∧ (slot_reached (authors (bi_children info)) = true → backed c G r).
Proof.
  intros Hv Hgc Hi. destruct (vm_children s (vw_meta s Hv) r info Hi Hgc) as [Hch _].
  assert (∀ v, v ∈ bi_children info →
    ∃ bv, ds_cached s v = Some bv ∧ G v = Some bv ∧ br_round v = br_round r + 1 ∧ r ∈ b_ancestors bv) as Hvote.
  { intros v (iv & Hvr & Hr & Hin)%Hch. exists (bi_block iv).
    destruct (view_recent s v iv Hv Hvr) as (? & ? & _). done. }
  assert (authors (bi_children info) ⊆ members c) as Hsub.
  { apply (cached_authors s); [done|]. intros v (bv & ? & _)%Hvote. by eexists. }
  split; [done|]. intros Hq. exists (authors (bi_children info)). split; [by apply reached_quorum|].
  intros i (v & (bv & _ & Hg & Hr & Hin)%Hvote & Hvi)%authors_spec. by exists v, bv.
Qed.

Lemma others_skipped s r info refs :
  v3_view s → DagState_gc_round s < br_round r → ds_recent_blocks s !! r = Some info →
  voting_round s (br_round r + 1) refs →
  authors (refs ∖ bi_children info) ⊆ members c ∧
  (slot_reached (authors (refs ∖ bi_children info)) = true → skipped c G r).
Proof.
  intros Hv Hgc Hi Href. destruct (vm_children s (vw_meta s Hv) r info Hi Hgc) as [Hch _].
  assert (∀ v, v ∈ refs ∖ bi_children info →
    ∃ bv, ds_cached s v = Some bv ∧ G v = Some bv ∧ br_round v = br_round r + 1 ∧ r ∉ b_ancestors bv) as Hvote.
  { intros v [[Hr [iv Hc]%cached_recent]%Href Hn]%elem_of_difference. exists (bi_block iv).
    destruct (view_recent s v iv Hv Hc) as (Hg & Hca & _). split_and!; [done..|].
    intros Hin. apply Hn, Hch. by exists iv. }
  assert (authors (refs ∖ bi_children info) ⊆ members c) as Hsub.
  { apply (cached_authors s); [done|]. intros v (bv & ? & _)%Hvote. by eexists. }
  split; [done|]. intros Hq. exists (authors (refs ∖ bi_children info)). split; [by apply reached_quorum|].
  intros i (v & (bv & _ & Hg & Hr & Hin)%Hvote & Hvi)%authors_spec. by exists v, bv.
Qed.

(** A block that is not there is skipped by every voting block that is there. *)
Lemma unknown_skipped s l refs :
  v3_view s → DagState_gc_round s < br_round l → ds_cached s l = None →
  voting_round s (br_round l + 1) refs → is_quorum c (authors refs) → skipped c G l.
Proof.
  intros Hv Hgc Hl Href Hq. exists (authors refs). split; [done|].
  intros i (v & [Hr [bv Hbv]]%Href & Hvi)%authors_spec. destruct (view_cached s v bv Hv Hbv) as [Hg Hb].
  exists v, bv. split_and!; [done..|]. intros Hin.
  destruct (v3_view_ancestor s v bv l Hv Hb Hin Hgc) as (bl & Hbl & _). congruence.
Qed.

(** A block of the slot that is there. *)
Definition at_slot s (slot : Slot) (info : BlockInfo) (r : BlockRef) : Prop :=
  ds_recent_blocks s !! r = Some info ∧ Slot_from r = slot.

(** The loop commits a block that a quorum backs, or counts the blocks that a
    quorum skips. *)
Lemma slot_direct_loop_spec s slot refs infos n :
  v3_view s → DagState_gc_round s < slot_round slot → voting_round s (slot_round slot + 1) refs →
  (∀ info, info ∈ infos → ∃ r, at_slot s slot info r) →
  (∃ info r, at_slot s slot info r ∧ backed c G r ∧
     direct_decide_loop c refs n infos = Ret (inl (bi_block info))) ∨
  (∃ m, direct_decide_loop c refs n infos = Ret (inr m) ∧ m ≤ n + N.of_nat (length infos) ∧
     (m = n + N.of_nat (length infos) → ∀ info, info ∈ infos → ∃ r, at_slot s slot info r ∧ skipped c G r)).
Proof using Hwf Hdag Hmaj.
  intros Hv Hgc Href. revert n. induction infos as [|info infos IH]; intros n Hinfos; cbn [direct_decide_loop].
  { right. exists n. split_and!; [done|simpl; lia|]. by intros _ info ?%not_elem_of_nil. }
  destruct (Hinfos info) as (r & Hi & Hslot); [left|].
  assert (slot_round slot = br_round r) as Hround by (by rewrite <- Hslot). rewrite Hround in Hgc, Href.
  destruct (others_skipped s r info refs Hv Hgc Hi Href) as [Hsub Hskip].
  destruct (children_backed s r info Hv Hgc Hi) as [_ Hback].
  destruct (vm_children s (vw_meta s Hv) r info Hi Hgc) as [_ Hst]. rewrite (vw_committee s Hv) in Hst.
  rewrite count_votes_spec by done. cbn [mbind M_bind]. cbv zeta. rewrite Hst.
  unfold StakeAggregator_reached_threshold. cbn [SA_of sa_stake is_threshold QuorumThreshold_impl].
  fold (slot_reached (authors (bi_children info))) (slot_reached (authors (refs ∖ bi_children info))).
  destruct (slot_reached (authors (bi_children info))) eqn:Hb.
  - left. exists info, r. split; [done|]. split; [by apply Hback|].
    destruct (slot_reached (authors (refs ∖ bi_children info))); [|done].
    destruct (backed_not_skipped c G Hwf Hdag byz Hmaj r); auto.
  - destruct (IH (if slot_reached (authors (refs ∖ bi_children info)) then n + 1 else n)) as [Hl|(m & Hm & Hle & Hall)];
      [intros; apply Hinfos; by right|by left|].
    right. exists m. rewrite Hm. cbn [length] in *. destruct (slot_reached (authors (refs ∖ bi_children info))) eqn:Hs.
    + split_and!; [done|lia|]. intros Hmn info' [->|Hin]%elem_of_cons; [exists r; split; [done|by apply Hskip]|]. apply Hall; [lia|done].
    + split_and!; [done|lia|]. intros. lia.
Qed.

(** The direct rule returns; what it decides is a direct decision. *)
Lemma slot_direct_decide_spec d s slot :
  ctx_committee (sd_context d) = c → v3_view s → DagState_gc_round s < slot_round slot →
  slot_round slot < u32_max →
  ∃ st, LeaderSlotDecider_try_direct_decide d s slot = Ret st ∧
    (st = LUndecided slot ∨ direct_decision c G slot st) ∧
    (∀ b, st = LCommit b → ds_cached s (reference b) = Some b).
Proof using Hwf Hdag Hmaj.
  intros Hd Hv Hgc Hmax. unfold LeaderSlotDecider_try_direct_decide. rewrite Hd.
  arith.
  destruct (get_round_info_spec s (slot_round slot + 1) (vw_meta s Hv) ltac:(lia))
    as [(vinfo & -> & Hblocks & Htotal)|[-> _]]; cbn [mbind M_bind]; [|exists (LUndecided slot); split_and!; auto; done].
  rewrite Htotal, (vw_committee s Hv). unfold StakeAggregator_reached_threshold.
  cbn [SA_of sa_stake is_threshold QuorumThreshold_impl].
  destruct (Committee_reached_quorum c (set_stake c (authors (ri_blocks vinfo)))) eqn:Hq; cbn [negb];
    [|exists (LUndecided slot); split_and!; auto; done].
  assert (is_quorum c (authors (ri_blocks vinfo))) as Hquorum.
  { split; [|done]. apply (cached_authors s); [done|]. by intros v [_ ?]%Hblocks. }
  destruct (block_info_at_slot_spec s slot Hv Hgc) as (infos & -> & Hinfos). cbn [mbind M_bind].
  destruct (slot_direct_loop_spec s slot (ri_blocks vinfo) infos 0 Hv Hgc Hblocks) as
    [(info & r & (Hi & Hslot) & Hb & ->)|(m & -> & Hle & Hall)]; [by intros info ?%Hinfos|..]; cbn [mbind M_bind].
  - destruct (view_recent s r info Hv Hi) as (Hg & Hca & Href). exists (LCommit (bi_block info)). split; [done|].
    split; [right; simpl; rewrite Href; by split_and!|]. intros b [= <-]. by rewrite Href.
  - destruct (N.eqb_spec m (N.of_nat (length infos))) as [->|_]; [|exists (LUndecided slot); split_and!; auto; done].
    exists (LSkip slot). split; [done|]. split; [right|done]. split; [done|]. intros l _ Hslot.
    assert (br_round l = slot_round slot) as Hround by (by rewrite <- Hslot).
    destruct (ds_recent_blocks s !! l) as [info|] eqn:Hl.
    + destruct (Hall ltac:(lia) info) as (r & (Hr & Hrs) & Hsk); [apply Hinfos; by exists l|].
      by rewrite <- (proj2 (proj2 (view_recent s l info Hv Hl))), (proj2 (proj2 (view_recent s r info Hv Hr))).
    + apply (unknown_skipped s l (ri_blocks vinfo) Hv); [lia| |by rewrite Hround|done].
      unfold ds_cached. by rewrite Hl.
Qed.

End SlotDecider.
