(* ===== verification/SlotSearch.v ===== *)
(** * The search of the indirect rule

    The search from the anchor block visits the blocks of its history above the
    decision round, each once, and counts for each decision block the authors of
    the visited blocks of the voting round that link to it. *)

From S2P Require Import Prelude BTree Config Block Commit Store StakeAggregator ThresholdClock.
From S2P Require Import LeaderScoring DagState DagTheory DagTraversal CommitRule.
From S2P Require Import ProposerHistory V3Metadata SlotRule LeaderSlotDecider SlotDeciderTheory.
Local Open Scope N_scope.

Section SlotSearch.
Context `{Profile} `{Crypto} {S : Type} `{StoreLaws S}.
Context (c : Committee) (G : BlockRef → option VerifiedBlock) (Hwf : Committee_wf c) (Hdag : dag_valid c G).
Context (s : DagState S) (Hv : v3_view c G s).
Context (anchor : VerifiedBlock) (R : Round) (D : gset BlockRef).
Context (HR : DagState_gc_round s < R ∧ R + 2 ≤ b_round anchor) (Hmax : b_round anchor ≤ u32_max).
Context (Hanchor : ds_cached s (reference anchor) = Some anchor).
Implicit Types (b : VerifiedBlock) (votes : gmap BlockRef (StakeAggregator CertificationThreshold)).

(** [x] links to [l], and its links have been followed. *)
Definition followed (P : gset BlockRef) (x l : BlockRef) : Prop :=
  x ∈ P ∧ ∃ bx, G x = Some bx ∧ l ∈ b_ancestors bx.

(** The votes counted so far, for the links [L]. *)
Definition slot_votes_ok (L : BlockRef → BlockRef → Prop) votes : Prop :=
  ∀ l, (l ∉ D → votes !! l = None) ∧
       (l ∈ D → ∃ V, default StakeAggregator_new (votes !! l) = SA_of c V ∧ V ⊆ members c ∧
                ∀ i, i ∈ V ↔ ∃ x, L x l ∧ br_round x = R + 1 ∧ br_author x = i).

Record visited_ok (visited : gset BlockRef) : Prop := {
  vi_anchor : reference anchor ∈ visited;
  vi_reach : ∀ r, r ∈ visited → R < br_round r ∧ rtc (parent G R) (reference anchor) r ∧
                                is_Some (ds_cached s r);
}.

Definition cached_refs : gset BlockRef := dom (ds_recent_blocks s).

Lemma cached_refs_spec r : r ∈ cached_refs ↔ is_Some (ds_cached s r).
Proof. unfold cached_refs. by rewrite elem_of_dom, cached_recent. Qed.

(** The steps left: the queue, and the blocks not met yet. *)
Definition steps_left (search : VoteSearch) : nat :=
  length (vs_to_visit search) + size (cached_refs ∖ vs_visited search).

(** ** The links of one block *)

(** While the ancestors [done] of [b] have been followed. *)
Record follow_ok (P : gset BlockRef) b (seen : list BlockRef) (search : VoteSearch) : Prop := {
  fo_visited : visited_ok (vs_visited search);
  fo_queue : ∀ q, q ∈ vs_to_visit search → ds_cached s (reference q) = Some q;
  fo_split : vs_visited search = {[reference b]} ∪ P ∪ list_to_set (reference <$> vs_to_visit search);
  fo_seen : ∀ a, a ∈ seen → R < br_round a → a ∈ vs_visited search;
  fo_votes : slot_votes_ok (λ x l, followed P x l ∨ x = reference b ∧ l ∈ seen) (vs_votes search);
}.

Lemma must_get_cached r b : ds_cached s r = Some b → must_get_block s r = Ret b.
Proof using Hv.
  intros Hc. unfold must_get_block. rewrite get_block_spec by apply Hv.
  by rewrite (proj2 (view_cached c G s r b Hv Hc)).
Qed.

(** Queueing an ancestor that is met for the first time. *)
Lemma queue_ancestor P b seen search a :
  ds_cached s (reference b) = Some b → reference b ∈ vs_visited search → a ∈ b_ancestors b →
  follow_ok P b seen search →
  ∃ search', (if (R <? br_round a) && negb (bool_decide (a ∈ vs_visited search)) then
                ancestor_block ← must_get_block s a;
                Ret (mkVoteSearch (vs_to_visit search ++ [ancestor_block])
                       ({[a]} ∪ vs_visited search) (vs_votes search))
              else Ret search) = Ret search' ∧
    follow_ok P b seen search' ∧ vs_votes search' = vs_votes search ∧
    steps_left search' = steps_left search ∧ vs_visited search ⊆ vs_visited search' ∧
    (R < br_round a → a ∈ vs_visited search').
Proof using Hv Hdag HR Hmax.
  intros Hb Hbv Ha Hf. pose proof Hf as [Hvis Hq Hsp Hseen Hvo].
  destruct (N.ltb_spec R (br_round a)) as [Hlt|Hge]; cbn [andb];
    [|exists search; split_and!; [done..|lia]].
  destruct (bool_decide (a ∈ vs_visited search)) eqn:Hin; cbn [negb].
  { exists search. split_and!; [done..|]. intros _. by apply bool_decide_eq_true in Hin. }
  apply bool_decide_eq_false in Hin. destruct (view_cached c G s _ b Hv Hb) as [HGb Hbb].
  destruct (v3_view_ancestor c G s (reference b) b a Hv Hbb Ha ltac:(lia)) as (ba & Hba & _ & HGa).
  rewrite (must_get_cached a ba Hba). cbn [mbind M_bind].
  assert (reference ba = a) as Hra by (by apply (dv_ref c G Hdag)). eexists. split; [done|].
  split_and!; [|done| |cbn [vs_visited]; apply union_subseteq_r|intros _; cbn [vs_visited]; by apply elem_of_union_l, elem_of_singleton].
  - split; cbn [vs_to_visit vs_visited vs_votes]; [| | | |done].
    + split; [apply elem_of_union_r, Hvis|]. intros r [->%elem_of_singleton|Hr]%elem_of_union; [|by apply Hvis].
      split; [done|]. split; [|by eexists].
      destruct (vi_reach _ Hvis _ Hbv) as (Hbr & Hreach & _). eapply rtc_r; [exact Hreach|]. split; [done|by exists b].
    + intros q [Hin'| ->%list_elem_of_singleton]%elem_of_app; [by apply Hq|]. by rewrite Hra.
    + rewrite fmap_app, list_to_set_app_L, Hsp. simpl. rewrite Hra. apply set_eq. intros r.
      rewrite !elem_of_union, !elem_of_singleton, elem_of_empty. tauto.
    + intros a' Ha' Hr'. apply elem_of_union_r. by apply Hseen.
  - unfold steps_left. cbn [vs_to_visit vs_visited]. rewrite length_app. simpl length.
    assert (a ∈ cached_refs ∖ vs_visited search) as Hmem.
    { apply elem_of_difference. split; [by apply cached_refs_spec; eexists|done]. }
    assert (cached_refs ∖ ({[a]} ∪ vs_visited search) = (cached_refs ∖ vs_visited search) ∖ {[a]}) as ->.
    { apply set_eq. intros r. rewrite !elem_of_difference, elem_of_union, elem_of_singleton. tauto. }
    rewrite size_difference by (by apply singleton_subseteq_l). rewrite size_singleton.
    assert (size (cached_refs ∖ vs_visited search) ≠ 0%nat) by (intros E%size_empty_inv; by apply E in Hmem). lia.
Qed.

(** Counting the vote of [b] for the ancestor [a]. *)
Lemma votes_ok_other (L L' : BlockRef → BlockRef → Prop) votes :
  slot_votes_ok L votes →
  (∀ x l, l ∈ D → br_round x = R + 1 → L x l ↔ L' x l) → slot_votes_ok L' votes.
Proof.
  intros Hvo Hiff l. destruct (Hvo l) as [Hn Hs]. split; [done|]. intros Hl.
  destruct (Hs Hl) as (V & Hd & Hsub & HV). exists V. split_and!; [done..|]. intros i. rewrite HV.
  split; intros (x & HL & Hr & Hi); exists x; (split; [by apply (Hiff x l Hl Hr)|done]).
Qed.

Lemma votes_ok_add (L L' : BlockRef → BlockRef → Prop) votes a x :
  slot_votes_ok L votes → a ∈ D → br_round x = R + 1 → br_author x ∈ members c →
  (∀ y l, L' y l ↔ L y l ∨ (y = x ∧ l = a)) →
  ∃ sa fresh, StakeAggregator_add_unique (default StakeAggregator_new (votes !! a)) (br_author x) c = Ret (sa, fresh) ∧
    slot_votes_ok L' (<[a := sa]> votes).
Proof using Hwf.
  intros Hvo Ha Hx Hmem HL. destruct (proj2 (Hvo a) Ha) as (V & Hd & Hsub & HV). rewrite Hd.
  rewrite StakeAggregator_add_unique_spec by done. eexists _, _. split; [done|]. intros l.
  destruct (Hvo l) as [Hn Hs]. destruct (decide (l = a)) as [->|Hne].
  - split; [done|]. intros _. rewrite lookup_insert_eq. exists ({[br_author x]} ∪ V). split; [done|].
    split; [by apply union_subseteq; split; [apply singleton_subseteq_l|]|].
    intros i. rewrite elem_of_union, elem_of_singleton, HV. setoid_rewrite HL. split.
    + intros [->|(y & Hy & Hr & Hi)]; [exists x|exists y]; auto.
    + intros (y & [Hy|[-> _]] & Hr & Hi); [right; by exists y|by left].
  - rewrite lookup_insert_ne by done. split; [done|]. intros Hl. destruct (Hs Hl) as (V' & Hd' & Hsub' & HV').
    exists V'. split_and!; [done..|]. intros i. rewrite HV'. setoid_rewrite HL.
    split; intros (y & Hy & Hr & Hi); exists y; (split; [|done]); [by left|]. by destruct Hy as [?|[_ ?]].
Qed.

Lemma search_ancestor_spec P b seen search a :
  ds_cached s (reference b) = Some b → reference b ∈ vs_visited search → a ∈ b_ancestors b →
  follow_ok P b seen search →
  ∃ search', search_ancestor c s R D b search a = Ret search' ∧ follow_ok P b (seen ++ [a]) search' ∧
    steps_left search' = steps_left search ∧ vs_visited search ⊆ vs_visited search'.
Proof using Hwf Hv Hdag HR Hmax.
  intros Hb Hbv Ha Hf. unfold search_ancestor.
  destruct (queue_ancestor P b seen search a Hb Hbv Ha Hf) as (s1 & -> & [Hvis Hq Hsp Hseen Hvo] & Hvotes & Hsteps & Hmono & Hav).
  cbn [mbind M_bind]. destruct (view_cached c G s _ b Hv Hb) as [HGb _].
  assert (∀ a', a' ∈ seen ++ [a] → R < br_round a' → a' ∈ vs_visited s1) as Hseen'.
  { intros a' [?| ->%list_elem_of_singleton]%elem_of_app; [by apply Hseen|done]. }
  assert (∀ y l, (followed P y l ∨ y = reference b ∧ l ∈ seen ++ [a]) ↔
                 (followed P y l ∨ y = reference b ∧ l ∈ seen) ∨ (y = reference b ∧ l = a)) as HL.
  { intros y l. rewrite elem_of_app, list_elem_of_singleton. tauto. }
  assert ((a ∉ D ∨ b_round b ≠ R + 1) → follow_ok P b (seen ++ [a]) s1) as Hskip.
  { intros Hno. split; [done..|]. apply (votes_ok_other (λ x l, followed P x l ∨ x = reference b ∧ l ∈ seen)); [done|].
    intros x l Hl Hr. rewrite HL. split; [by left|]. intros [?|[-> ->]]; [done|]. destruct Hno; done. }
  destruct (bool_decide (a ∈ D)) eqn:HaD; [apply bool_decide_eq_true in HaD|apply bool_decide_eq_false in HaD; exists s1; auto].
  arith.
  destruct (N.eqb_spec (b_round b) (R + 1)) as [Hround|]; [|exists s1; auto].
  destruct (votes_ok_add _ (λ x l, followed P x l ∨ x = reference b ∧ l ∈ seen ++ [a]) (vs_votes s1) a (reference b) Hvo HaD Hround)
    as (sa & fresh & Hadd & Hok); [by apply (dv_author c G Hdag (reference b) b)|exact HL|].
  cbn [reference br_author] in Hadd. rewrite Hadd. cbn [mbind M_bind]. eexists. split; [done|].
  split_and!; [|done..]. by split.
Qed.

(** All the links of a block. *)
Lemma follow_block P b search :
  ds_cached s (reference b) = Some b → reference b ∈ vs_visited search → follow_ok P b [] search →
  ∃ search', foldM (search_ancestor c s R D b) search (b_ancestors b) = Ret search' ∧
    follow_ok P b (b_ancestors b) search' ∧ steps_left search' = steps_left search ∧
    vs_visited search ⊆ vs_visited search'.
Proof using Hwf Hv Hdag HR Hmax.
  intros Hb Hbv Hf.
  assert (∀ rest seen search1, seen ++ rest = b_ancestors b → reference b ∈ vs_visited search1 →
    follow_ok P b seen search1 →
    ∃ search', foldM (search_ancestor c s R D b) search1 rest = Ret search' ∧
      follow_ok P b (b_ancestors b) search' ∧ steps_left search' = steps_left search1 ∧
      vs_visited search1 ⊆ vs_visited search') as Hloop.
  { intros rest. induction rest as [|a rest IH]; intros seen search1 Heq Hbv1 Hf1; cbn [foldM].
    - exists search1. rewrite app_nil_r in Heq. by rewrite <- Heq.
    - destruct (search_ancestor_spec P b seen search1 a Hb Hbv1) as (s2 & -> & Hf2 & Hst & Hm2); [|done|].
      { rewrite <- Heq. apply elem_of_app. right. left. }
      cbn [mbind M_bind]. destruct (IH (seen ++ [a]) s2) as (s3 & Hs3 & Hf3 & Hst3 & Hm3); [by rewrite <- app_assoc|by apply Hm2|done|].
      exists s3. split_and!; [done..|congruence|by etrans]. }
  by apply (Hloop _ []).
Qed.

(** ** The search *)

Record slot_search_ok (P : gset BlockRef) (search : VoteSearch) : Prop := {
  so_visited : visited_ok (vs_visited search);
  so_queue : ∀ q, q ∈ vs_to_visit search → ds_cached s (reference q) = Some q;
  so_split : vs_visited search = P ∪ list_to_set (reference <$> vs_to_visit search);
  so_closed : ∀ x bx a, x ∈ P → G x = Some bx → a ∈ b_ancestors bx → R < br_round a → a ∈ vs_visited search;
  so_votes : slot_votes_ok (followed P) (vs_votes search);
}.

(** The visited blocks are the history of the anchor above the decision round. *)
Definition in_history (x : BlockRef) : Prop := R < br_round x ∧ rtc (parent G R) (reference anchor) x.

Lemma search_complete P search :
  slot_search_ok P search → vs_to_visit search = [] → ∀ x, x ∈ P ↔ in_history x.
Proof using Hdag HR.
  intros [Hvis _ Hsp Hcl _] Hq. rewrite Hq in Hsp. simpl in Hsp. rewrite union_empty_r_L in Hsp. rewrite Hsp in Hvis, Hcl.
  intros x. split; [intros Hx; by destruct (vi_reach _ Hvis x Hx) as (? & ? & _)|].
  intros [Hr Hreach]. revert Hr. pattern x. revert x Hreach. apply rtc_ind_r.
  - intros _. apply Hvis.
  - intros y z _ (Hyr & by_ & Hby & Hz) IH Hr. by apply (Hcl y by_ z (IH Hyr)).
Qed.

Lemma search_votes_spec fuel P search :
  slot_search_ok P search → (steps_left search < fuel)%nat →
  ∃ votes, search_votes fuel c s R D search = Ret votes ∧
    slot_votes_ok (λ x l, in_history x ∧ ∃ bx, G x = Some bx ∧ l ∈ b_ancestors bx) votes.
Proof using Hwf Hv Hdag HR Hmax.
  revert P search. induction fuel as [|fuel IH]; intros P search Hso Hfuel; [lia|]. cbn [search_votes].
  destruct (vs_to_visit search) as [|b to_visit] eqn:Eq.
  - eexists. split; [done|]. apply (votes_ok_other (followed P)); [apply Hso|]. intros x l _ _. unfold followed.
    by rewrite (search_complete P search Hso Eq).
  - destruct Hso as [Hvis Hq Hsp Hcl Hvo]. rewrite Eq in Hq, Hsp. simpl in Hsp.
    assert (ds_cached s (reference b) = Some b) as Hb by (apply Hq; left).
    destruct (follow_block P b (mkVoteSearch to_visit (vs_visited search) (vs_votes search)) Hb) as (s1 & -> & [Hvis1 Hq1 Hsp1 Hseen1 Hvo1] & Hst & Hmono).
    + cbn [vs_visited]. rewrite Hsp. apply elem_of_union_r, elem_of_union_l. by apply elem_of_singleton.
    + split; cbn [vs_to_visit vs_visited vs_votes]; [done| | |by intros a ?%not_elem_of_nil|].
      * intros q Hin. apply Hq. by right.
      * rewrite Hsp. apply set_eq. intros r. rewrite !elem_of_union. tauto.
      * apply (votes_ok_other (followed P)); [done|]. intros x l _ _. split; [by left|]. by intros [?|[_ ?%not_elem_of_nil]].
    + cbn [mbind M_bind]. apply (IH ({[reference b]} ∪ P)).
      * destruct (view_cached c G s _ b Hv Hb) as [HGb _]. split; [done..| |].
        -- intros x bx a [->%elem_of_singleton|Hx]%elem_of_union HGx Ha Hr.
           ++ apply Hseen1; [congruence|done].
           ++ apply Hmono. by apply (Hcl x bx).
        -- apply (votes_ok_other (λ x l, followed P x l ∨ x = reference b ∧ l ∈ b_ancestors b)); [done|].
           intros x l _ _. unfold followed. rewrite elem_of_union, elem_of_singleton. split.
           ++ intros [(Hx & bx & HGx & Hl)|[-> Hl]]; [split; [by right|by exists bx]|]. split; [by left|by exists b].
           ++ intros ([->|Hx] & bx & HGx & Hl); [right; split; [done|congruence]|left; by split; [|exists bx]].
      * rewrite Hst. unfold steps_left in *. rewrite Eq in Hfuel. cbn [vs_to_visit vs_visited length] in *. lia.
Qed.

End SlotSearch.

(** ** The indirect rule *)

Section IndirectRule.
Context `{Profile} `{Crypto} {S : Type} `{StoreLaws S}.
Context (c : Committee) (G : BlockRef → option VerifiedBlock).
Context (Hwf : Committee_wf c) (Hv3 : v3_thresholds c) (Hdag : dag_valid c G).
Context (byz : gset AuthorityIndex) (Hmaj : honest_majority c G byz).
Context (s : DagState S) (Hv : v3_view c G s).
Implicit Types (anchor b : VerifiedBlock) (votes : gmap BlockRef (StakeAggregator CertificationThreshold)).

Lemma certification_pos : 0 < Committee_certification_threshold c.
Proof using Hwf Hv3 Hmaj.
  pose proof (v3_certification c Hv3). pose proof (wf_quorum_reachable c Hwf). pose proof (proj1 Hmaj). lia.
Qed.

Lemma history_voting anchor R x :
  R + 2 ≤ b_round anchor → G (reference anchor) = Some anchor → br_round x = R + 1 →
  in_history G anchor R x ↔ reaches_at G anchor (R + 1) x.
Proof using Hdag.
  intros Hle Hanchor Hx.
  pose proof (dag_valid_sound c G Hdag) as Hsound.
  assert (∀ y, rtc (parent G R) y x → rtc (parent G (R + 1)) y x) as Hlow.
  { intros y. induction 1 as [|y z x' (Hyr & b & Hb & Hz) Hzx IH]; [apply rtc_refl|].
    pose proof (rtc_parent_round G R z x' Hsound Hzx). destruct (dv_ancestor c G Hdag y b z Hb Hz) as [Hlt _].
    eapply rtc_l; [|by apply IH]. split; [lia|by exists b]. }
  split.
  - intros [_ Hreach]. split; [done|].
    apply rtc_inv in Hreach as [Heq|(y & (_ & b & Hb & Hy) & Hyx)]; [rewrite <- Heq in Hx; simpl in Hx; lia|].
    exists y. split; [congruence|by apply Hlow].
  - intros [_ (y & Hy & Hyx)]. split; [lia|]. eapply rtc_l; [split; [simpl; lia|by exists anchor]|].
    eapply rtc_subrel; [|exact Hyx]. intros p q [? ?]. split; [lia|done].
Qed.

(** What the counted votes say of a decision block. *)
Definition reached_cert (sa : StakeAggregator CertificationThreshold) : bool :=
  StakeAggregator_reached_threshold sa c.

Lemma counted_certified anchor R D votes l :
  R + 2 ≤ b_round anchor → G (reference anchor) = Some anchor → l ∈ D → br_round l = R →
  slot_votes_ok c R D (λ x l, in_history G anchor R x ∧ ∃ bx, G x = Some bx ∧ l ∈ b_ancestors bx) votes →
  certified_by c G anchor l ↔ ∃ sa, votes !! l = Some sa ∧ reached_cert sa = true.
Proof using Hwf Hv3 Hdag Hmaj.
  intros Hle Hanchor Hl Hround Hvo. destruct (proj2 (Hvo l) Hl) as (V & Hd & Hsub & HV).
  pose proof certification_pos as Hpos.
  assert (certified_by c G anchor l ↔ Committee_certification_threshold c ≤ set_stake c V) as ->.
  { split.
    - intros (K & HK & Hk). assert (K ⊆ V) as HKV.
      { intros i (v & bv & Hreach & Hv' & Hlin & Hvi)%HK. apply HV. exists v. rewrite Hround in Hreach.
        destruct Hreach as [Hvr Hx]. split; [|done]. split; [|by exists bv]. by apply (history_voting anchor R v Hle Hanchor Hvr). }
      pose proof (weight_mono (stake_at c) K V HKV). unfold set_stake in *. lia.
    - intros Hk. exists V. split; [|done]. intros i (x & [Hh (bx & HGx & Hlin)] & Hxr & Hxi)%HV. exists x, bx.
      rewrite Hround. split; [by apply history_voting|done]. }
  unfold reached_cert, StakeAggregator_reached_threshold. cbn [is_threshold CertificationThreshold_impl]. split.
  - intros Hk. destruct (votes !! l) as [sa|]; simpl in Hd.
    + exists sa. split; [done|]. rewrite Hd. simpl. by apply N.leb_le.
    + assert (sa_stake (T := CertificationThreshold) (SA_of c V) = 0) as Hz by (by rewrite <- Hd). simpl in Hz. lia.
  - intros (sa & Hsa & Hk%N.leb_le). rewrite Hsa in Hd. simpl in Hd. by rewrite Hd in Hk.
Qed.

(** The certified blocks of a slot, in the order of the votes. *)
Definition certified_at (slot : Slot) (entries : list (BlockRef * StakeAggregator CertificationThreshold))
    : list (BlockRef * StakeAggregator CertificationThreshold) :=
  filter (λ e, Slot_from e.1 = slot ∧ reached_cert e.2 = true) entries.

Lemma collect_certified_spec entries :
  (∀ e, e ∈ entries → is_Some (ds_cached s e.1)) →
  ∃ m, foldM (collect_certified c s) ∅ entries = Ret m ∧
    ∀ slot, Forall2 (λ e b, ds_cached s e.1 = Some b) (certified_at slot entries) (default [] (m !! slot)).
Proof using Hv.
  intros Hknown.
  assert (∀ rest seen m, (∀ e, e ∈ rest → is_Some (ds_cached s e.1)) →
    (∀ slot, Forall2 (λ e b, ds_cached s e.1 = Some b) (certified_at slot seen) (default [] (m !! slot))) →
    ∃ m', foldM (collect_certified c s) m rest = Ret m' ∧
      ∀ slot, Forall2 (λ e b, ds_cached s e.1 = Some b) (certified_at slot (seen ++ rest)) (default [] (m' !! slot))) as Hloop.
  { intros rest. induction rest as [|[l sa] rest IH]; intros seen m Hk Hm; cbn [foldM].
    - exists m. split; [done|]. by rewrite app_nil_r.
    - destruct (Hk (l, sa)) as [b Hb]; [left|]. simpl in Hb. cbn [collect_certified].
      change (l, sa) with ((l, sa) : BlockRef * StakeAggregator CertificationThreshold).
      replace (seen ++ (l, sa) :: rest) with ((seen ++ [(l, sa)]) ++ rest) by (by rewrite <- app_assoc).
      assert (∀ slot, certified_at slot (seen ++ [(l, sa)]) = certified_at slot seen ++ certified_at slot [(l, sa)]) as Happ
        by (intros slot; unfold certified_at; apply filter_app).
      fold (reached_cert sa). destruct (reached_cert sa) eqn:Hr.
      + rewrite (must_get_cached c G s Hv l b Hb). cbn [mbind M_bind]. apply IH; [intros; apply Hk; by right|].
        intros slot. rewrite Happ. unfold certified_at at 2. fold (Slot_from l).
        destruct (decide (Slot_from l = slot)) as [<-|Hne].
        * rewrite lookup_insert_eq, filter_cons_True by done. simpl. apply Forall2_app; [apply Hm|]. by constructor.
        * rewrite lookup_insert_ne by done. rewrite filter_cons_False by (by intros [? _]).
          rewrite app_nil_r. apply Hm.
      + apply IH; [intros; apply Hk; by right|]. intros slot. rewrite Happ. unfold certified_at at 2.
        rewrite filter_cons_False by (intros [_ ?]; simpl in *; congruence). rewrite app_nil_r. apply Hm. }
  apply (Hloop entries [] ∅); [done|]. intros slot. rewrite lookup_empty. constructor.
Qed.

(** The decision blocks: the known blocks of the slots. *)
Lemma decision_blocks_spec slots :
  ∃ blocks, mapP (DagState_get_uncommitted_blocks_at_slot s) slots = Ret blocks ∧
    ∀ l, l ∈ (list_to_set (reference <$> concat blocks) : gset BlockRef) ↔
         Slot_from l ∈ slots ∧ is_Some (ds_cached s l).
Proof using Hv.
  induction slots as [|slot slots (blocks & Hb & HD)]; cbn [mapP].
  - exists []. split; [done|]. intros l. simpl. split; [by intros ?%elem_of_empty|by intros [?%not_elem_of_nil _]].
  - destruct (get_uncommitted_blocks_at_slot_spec s slot (vw_ok c G s Hv)) as (l0 & -> & _ & Hl0). cbn [mbind M_bind].
    rewrite Hb. cbn [mbind M_bind]. exists (l0 :: blocks). split; [done|]. intros l. cbn [concat].
    rewrite fmap_app, list_to_set_app_L, elem_of_union, HD, elem_of_cons, elem_of_list_to_set, list_elem_of_fmap.
    split.
    + intros [(b & -> & [Hc Hs]%Hl0)|[? ?]]; [|by split; [right|]]. split; [by left|by eexists].
    + intros [[Hs|Hs] [b Hb']]; [left|by right]. exists b.
      assert (reference b = l) as Hr by (by apply (ok_cached s (vw_ok c G s Hv) l b)).
      split; [done|]. apply Hl0. by rewrite Hr.
Qed.

(** What an anchor certifies is there. *)
Lemma certified_cached anchor l :
  ds_cached s (reference anchor) = Some anchor → br_round l + 2 ≤ b_round anchor →
  DagState_gc_round s < br_round l → certified_by c G anchor l → is_Some (ds_cached s l).
Proof using Hwf Hv3 Hdag Hmaj Hv.
  intros Hanchor Hle Hgc (K & HK & Hk). destruct (weight_pos_inhabited (stake_at c) K) as [i Hi].
  { pose proof certification_pos. unfold set_stake in Hk. lia. }
  destruct (HK i Hi) as (v & bv & Hreach & HGv & Hl & _). destruct (view_cached c G s _ anchor Hv Hanchor) as [HGa Hba].
  assert (ds_block s v = Some bv) as Hbv.
  { destruct Hreach as (Hvr & x & Hx & Hxv).
    assert (∀ x, rtc (parent G (br_round l + 1)) x v → is_Some (ds_block s x) → is_Some (ds_block s v)) as Hwalk.
    { intros y. induction 1 as [|y z w (Hyr & b & Hb & Hz) Hzw IH]; [done|]. intros [by_ Hby]. apply IH; [done..|].
      pose proof (vw_sub c G s Hv _ _ Hby) as HGy. rewrite Hb in HGy. injection HGy as ->.
      assert (br_round w ≤ br_round z) as Hzr.
      { by eapply rtc_parent_round; [apply (dag_valid_sound c G Hdag)|]. }
      destruct (v3_view_ancestor c G s y by_ z Hv Hby Hz) as (bz & _ & Hbz & _); [lia|]. by eexists. }
    assert (br_round v ≤ br_round x) as Hxr.
    { by eapply rtc_parent_round; [apply (dag_valid_sound c G Hdag)|]. }
    destruct (Hwalk x Hxv) as [bv' Hbv'].
    - destruct (v3_view_ancestor c G s _ anchor x Hv Hba Hx) as (bx & _ & Hbx & _); [lia|]. by eexists.
    - pose proof (vw_sub c G s Hv _ _ Hbv'). congruence. }
  destruct (v3_view_ancestor c G s v bv l Hv Hbv Hl Hgc) as (bl & Hbl & _). by eexists.
Qed.

(** One slot's decision, from the certified blocks of the slot. *)
Lemma slot_decision_spec anchor m slot entries :
  Forall2 (λ e b, ds_cached s e.1 = Some b) (certified_at slot entries) (default [] (m !! slot)) →
  NoDup entries.*1 →
  (∀ l, Slot_from l = slot → certified_by c G anchor l ↔ ∃ sa, (l, sa) ∈ entries ∧ reached_cert sa = true) →
  indirect_decision c G anchor slot (slot_decision m slot) ∧
  (∀ b, slot_decision m slot = LCommit b → ds_cached s (reference b) = Some b).
Proof using Hv.
  intros Hblocks Hnd Hcert. unfold slot_decision.
  assert (∀ l, Slot_from l = slot → certified_by c G anchor l ↔ l ∈ (certified_at slot entries).*1) as Hin.
  { intros l Hl. rewrite (Hcert l Hl), list_elem_of_fmap. unfold certified_at. setoid_rewrite list_elem_of_filter. split.
    - intros (sa & He & Hr). by exists (l, sa).
    - intros ([l' sa] & -> & [_ Hr] & He). by exists sa. }
  assert (NoDup (certified_at slot entries).*1) as Hnd'.
  { eapply sublist_NoDup; [exact Hnd|]. apply fmap_sublist, sublist_filter. }
  assert (∀ e, e ∈ certified_at slot entries → Slot_from e.1 = slot) as Hslot
    by (intros e [[? _] _]%list_elem_of_filter; done).
  destruct (default [] (m !! slot)) as [|b [|b' bs]].
  - apply Forall2_nil_inv_r in Hblocks. rewrite Hblocks in Hin. split; [|done]. split; [done|].
    intros l Hl Hc. by apply Hin, not_elem_of_nil in Hc.
  - apply Forall2_cons_inv_r in Hblocks as (e & es & Hb & Hes & Heq). apply Forall2_nil_inv_r in Hes as ->.
    rewrite Heq in Hin, Hslot. pose proof (Hslot e ltac:(left)) as He.
    assert (reference b = e.1) as Hr by (by apply (ok_cached s (vw_ok c G s Hv) e.1 b)).
    split; [|intros b0 [= <-]; by rewrite Hr]. simpl. rewrite Hr.
    split; [by apply (view_cached c G s)|]. split; [done|]. intros l Hl. rewrite (Hin l Hl). simpl. apply list_elem_of_singleton.
  - apply Forall2_cons_inv_r in Hblocks as (e & es & _ & Hes & Heq).
    apply Forall2_cons_inv_r in Hes as (e' & es' & _ & _ & ->). rewrite Heq in Hin, Hslot, Hnd'. simpl in Hnd'.
    apply NoDup_cons in Hnd' as [Hne _]. split; [|done]. split; [done|]. intros l Hl Hc.
    pose proof (Hslot e ltac:(left)) as He. pose proof (Hslot e' ltac:(right; left)) as He'.
    destruct (decide (l = e.1)) as [->|Hle].
    + exists e'.1. split; [done|]. split; [apply Hin; [done|simpl; right; left]|]. intros Heq'. apply Hne. rewrite <- Heq'. left.
    + exists e.1. split; [done|]. split; [apply Hin; [done|left]|]. intros Heq'. by apply Hle.
Qed.

(** The indirect rule returns an indirect decision for each slot. *)
Lemma slot_indirect_decide_spec d anchor slots R :
  ctx_committee (sd_context d) = c → slots ≠ [] → (∀ slot, slot ∈ slots → slot_round slot = R) →
  DagState_gc_round s < R → R + 2 ≤ b_round anchor → b_round anchor ≤ u32_max →
  ds_cached s (reference anchor) = Some anchor →
  ∃ sts, LeaderSlotDecider_try_indirect_decide d s anchor slots = Ret sts ∧
    Forall2 (λ slot st, indirect_decision c G anchor slot st ∧
                        ∀ b, st = LCommit b → ds_cached s (reference b) = Some b) slots sts.
Proof using Hwf Hv3 Hdag Hmaj Hv.
  intros Hd Hne Hround Hgc Hle Hmax Hanchor. unfold LeaderSlotDecider_try_indirect_decide. rewrite Hd.
  destruct slots as [|slot0 rest] eqn:Eslots; [done|]. rewrite <- Eslots in *. clear Hne.
  assert (is_nil slots = false ∧ index slots 0 = Ret slot0) as [-> ->] by (by rewrite Eslots).
  cbn [negb assert_that mbind M_bind]. cbv zeta. rewrite (Hround slot0) by (rewrite Eslots; left).
  assert (forallb (λ slot, slot_round slot =? R) slots = true) as ->.
  { apply forallb_forall. intros slot Hin. apply N.eqb_eq, Hround. by apply list_elem_of_In. }
  cbn [assert_that mbind M_bind]. unfold INDIRECT_COMMIT_DEPTH. arith.
  rewrite (proj2 (N.leb_le _ _) Hle). cbn [assert_that mbind M_bind].
  destruct (decision_blocks_spec slots) as (blocks & -> & HD). cbn [mbind M_bind].
  set (D := list_to_set (reference <$> concat blocks) : gset BlockRef) in *.
  destruct (view_cached c G s _ anchor Hv Hanchor) as [HGa _].
  destruct (search_votes_spec c G Hwf Hdag s Hv anchor R D (conj Hgc Hle) Hmax (search_fuel s) ∅
              (mkVoteSearch [anchor] {[reference anchor]} ∅)) as (votes & -> & Hvo).
  - split; cbn [vs_to_visit vs_visited vs_votes].
    + split; [by apply elem_of_singleton|]. intros r ->%elem_of_singleton. split_and!; [simpl; lia|apply rtc_refl|by eexists].
    + by intros q ->%list_elem_of_singleton.
    + simpl. by rewrite union_empty_l_L, union_empty_r_L.
    + by intros x bx a ?%elem_of_empty.
    + intros l. rewrite lookup_empty. split; [done|]. intros _. exists ∅. split; [apply SA_of_new|].
      split; [apply empty_subseteq|]. intros i. split; [by intros ?%elem_of_empty|]. by intros (x & [?%elem_of_empty _] & _).
  - unfold steps_left, search_fuel, cached_refs. cbn [vs_to_visit vs_visited length].
    pose proof (subseteq_size (dom (ds_recent_blocks s) ∖ {[reference anchor]}) (dom (ds_recent_blocks s)) ltac:(apply subseteq_difference_l; done)).
    rewrite size_dom in *. lia.
  - cbn [mbind M_bind]. destruct (collect_certified_spec (bmap_list votes)) as (m & -> & Hm).
    { intros [l sa] Hin%bmap_list_elem. destruct (decide (l ∈ D)) as [Hl|Hl]; [by apply HD in Hl as [_ ?]|].
      by rewrite (proj1 (Hvo l) Hl) in Hin. }
    cbn [mbind M_bind]. eexists. split; [done|]. apply Forall2_fmap_r, Forall_Forall2_diag, Forall_forall. intros slot Hslot.
    apply (slot_decision_spec anchor m slot (bmap_list votes)); [apply Hm|apply bmap_list_NoDup|]. intros l Hl.
    setoid_rewrite bmap_list_elem. assert (br_round l = R) as Hlr by (by rewrite <- (Hround slot Hslot), <- Hl).
    destruct (decide (l ∈ D)) as [HlD|HlD]; [by apply (counted_certified anchor R D)|]. split.
    + intros Hc. destruct HlD. apply HD. split; [by rewrite Hl|]. apply (certified_cached anchor l); [done|by rewrite Hlr|by rewrite Hlr|done].
    + intros (sa & Hsa & _). by rewrite (proj1 (Hvo l) HlD) in Hsa.
Qed.

End IndirectRule.
