(* ===== verification/FlexCommitter.v ===== *)
(** * The committer of commit rule v3 (consensus/core/src/flex_committer.rs)

    Any number of leaders per round are decided, directly or through an anchor
    block; a commit takes all committed leaders of the first round that has one
    once this round and the rounds before it are decided.  The DAG state that
    the committer shares is passed explicitly; logs and metrics are left out,
    except for what can panic in them. *)

From S2P Require Import Prelude BTree Config Block Commit Store StakeAggregator ThresholdClock.
From S2P Require Import LeaderScoring DagState LeaderSchedule Linearizer LeaderSlotDecider.
From S2P Require Import LeaderScheduleV3.
Local Open Scope N_scope.

(** [start..stop] for rounds. *)
Definition round_interval (start stop : Round) : list Round :=
  N.of_nat <$> seq (N.to_nat start) (N.to_nat (stop - start)).

(** ** Data *)

Record LeaderSlot : Type := mkLeaderSlot {
  lsl_slot : Slot;
  lsl_leader_status : LeaderStatus;
  lsl_decision : option Decision;
}.

Record RoundState : Type := mkRoundState {
  rst_round : Round;
  rst_leader_slots : list LeaderSlot;
  rst_undecided_slots : gset Slot;
  rst_num_committed : N;
}.

Record PendingCommitState : Type := mkPendingCommitState {
  pcs_next_commit_leaders : NextCommitLeaderSchedule;
  pcs_rounds : list RoundState;
}.

Definition PendingCommitState_default : PendingCommitState :=
  mkPendingCommitState NextCommitLeaderSchedule_default [].

Record FlexCommitter : Type := mkFlexCommitter {
  fc_context : Context;
  fc_slot_decider : LeaderSlotDecider;
  fc_pending_commit_state : PendingCommitState;
}.

Definition FlexCommitter_new (context : Context) : FlexCommitter :=
  mkFlexCommitter context (LeaderSlotDecider_new context) PendingCommitState_default.

Definition set_pending_commit_state (v : PendingCommitState) (fc : FlexCommitter) : FlexCommitter :=
  mkFlexCommitter (fc_context fc) (fc_slot_decider fc) v.

(** The derived [PartialEq] of [LeaderStatus], with that of [VerifiedBlock]. *)
Definition LeaderStatus_eqb (a b : LeaderStatus) : bool :=
  match a, b with
  | LCommit x, LCommit y => VerifiedBlock_eqb x y
  | LSkip x, LSkip y => bool_decide (x = y)
  | LUndecided x, LUndecided y => bool_decide (x = y)
  | _, _ => false
  end.

Definition is_commit (status : LeaderStatus) : bool :=
  match status with LCommit _ => true | _ => false end.

(** ** The state of a round *)

(** [leader_slots.iter_mut().find(|s| s.slot == slot)], as a position. *)
Definition find_slot (slot : Slot) (slots : list LeaderSlot) : option (nat * LeaderSlot) :=
  list_find (λ s, lsl_slot s = slot) slots.

Definition RoundState_update_slot_decision (rs : RoundState) (slot : Slot)
    (new_status : LeaderStatus) (decision : Decision) : M RoundState :=
  match find_slot slot (rst_leader_slots rs) with
  | None => Panic (Explicit "Slot must be in round")
  | Some (position, leader_slot) =>
      if negb (LeaderStatus_is_decided new_status) then
        if negb (LeaderStatus_is_decided (lsl_leader_status leader_slot)) then Ret rs
        else Panic (Explicit "Cannot undecide slot")
      else if bool_decide (slot ∈ rst_undecided_slots rs) then
        Ret (mkRoundState (rst_round rs)
               (<[position := mkLeaderSlot (lsl_slot leader_slot) new_status (Some decision)]>
                  (rst_leader_slots rs))
               (rst_undecided_slots rs ∖ {[slot]})
               (if is_commit new_status then rst_num_committed rs + 1 else rst_num_committed rs))
      else
        assert_that (LeaderStatus_eqb (lsl_leader_status leader_slot) new_status)
          "Cannot update slot decision";;
        Ret rs
  end.

Section FlexCommitter.
Context `{Profile} `{Crypto} `{CommitBcs} `{Rng} {S : Type} `{Store S}.
Implicit Types (s : DagState S) (fc : FlexCommitter) (p : PendingCommitState).

(** ** The pending commit state *)

(** The position and the state of a round. *)
Definition PendingCommitState_get_round_state p (round : Round) : M (nat * RoundState) :=
  offset ← expect (checked_sub round (nc_min_next_leader_round (pcs_next_commit_leaders p)))
             "unwrap";
  rs ← expect (pcs_rounds p !! N.to_nat offset) "unwrap";
  Ret (N.to_nat offset, rs).

Definition RoundState_new (allowed_leaders : list AuthorityIndex) (r : Round) : RoundState :=
  let leaders := rng_shuffle (elect_seed r) allowed_leaders in
  let leader_slots := (λ leader, let slot := mkSlot r leader in
                                 mkLeaderSlot slot (LUndecided slot) None) <$> leaders in
  mkRoundState r leader_slots (list_to_set (lsl_slot <$> leader_slots)) 0.

Definition PendingCommitState_get_or_create_round_state p (round : Round)
    : M (PendingCommitState * (nat * RoundState)) :=
  add_from_round ← match last (pcs_rounds p) with
                   | Some state => u32_add (rst_round state) 1
                   | None => Ret (nc_min_next_leader_round (pcs_next_commit_leaders p))
                   end;
  let created := RoundState_new (nc_allowed_leaders (pcs_next_commit_leaders p)) <$>
                   round_interval add_from_round (round + 1) in
  let p := mkPendingCommitState (pcs_next_commit_leaders p) (pcs_rounds p ++ created) in
  found ← PendingCommitState_get_round_state p round;
  Ret (p, found).

(** Writes back the state of the round at a position. *)
Definition put_round_state p (position : nat) (rs : RoundState) : PendingCommitState :=
  mkPendingCommitState (pcs_next_commit_leaders p) (<[position := rs]> (pcs_rounds p)).

(** ** A change of the schedule *)

Fixpoint drop_rounds_below (round : Round) (rounds : list RoundState) : list RoundState :=
  match rounds with
  | [] => []
  | state :: rest => if rst_round state <? round then drop_rounds_below round rest else rounds
  end.

Definition FlexCommitter_maybe_refresh_pending_commit_state fc
    (next_commit_leaders : NextCommitLeaderSchedule) : M FlexCommitter :=
  let p := fc_pending_commit_state fc in
  let current := pcs_next_commit_leaders p in
  if nc_next_commit_index current =? nc_next_commit_index next_commit_leaders then
    assert_that (nc_min_next_leader_round current =? nc_min_next_leader_round next_commit_leaders)
      "minimum leader round must not change at the same commit index";;
    assert_that (bool_decide (nc_allowed_leaders current = nc_allowed_leaders next_commit_leaders))
      "leader schedule must not change at the same commit index";;
    Ret fc
  else
    assert_that (nc_next_commit_index current <? nc_next_commit_index next_commit_leaders)
      "next_commit_index should only move forward";;
    assert_that (nc_min_next_leader_round current <? nc_min_next_leader_round next_commit_leaders)
      "min_next_leader_round should only move forward";;
    if negb (bool_decide (nc_allowed_leaders current = nc_allowed_leaders next_commit_leaders))
    then Ret (set_pending_commit_state (mkPendingCommitState next_commit_leaders []) fc)
    else
      let min_next_leader_round := nc_min_next_leader_round next_commit_leaders in
      let rounds := drop_rounds_below min_next_leader_round (pcs_rounds p) in
      match rounds with
      | first :: _ =>
          assert_that (rst_round first =? min_next_leader_round)
            "first.round == min_next_leader_round"
      | [] => Ret tt
      end;;
      Ret (set_pending_commit_state (mkPendingCommitState next_commit_leaders rounds) fc).

(** ** The direct rule *)

Definition undecided_slots (rs : RoundState) : list Slot :=
  lsl_slot <$> filter (λ ls, LeaderStatus_is_decided (lsl_leader_status ls) = false)
                 (rst_leader_slots rs).

Definition direct_slot fc s (rs : RoundState) (slot : Slot) : M RoundState :=
  status ← LeaderSlotDecider_try_direct_decide (fc_slot_decider fc) s slot;
  RoundState_update_slot_decision rs slot status Direct.

Definition direct_round s fc (leader_round : Round) : M FlexCommitter :=
  '(p, (position, rs)) ← PendingCommitState_get_or_create_round_state
                           (fc_pending_commit_state fc) leader_round;
  rs' ← foldM (direct_slot fc s) rs (undecided_slots rs);
  Ret (set_pending_commit_state (put_round_state p position rs') fc).

Definition FlexCommitter_try_direct_commit fc s : M FlexCommitter :=
  let min_next_leader_round :=
    nc_min_next_leader_round (pcs_next_commit_leaders (fc_pending_commit_state fc)) in
  foldM (direct_round s) fc (round_interval min_next_leader_round (ds_highest_accepted_round s)).

(** ** The indirect rule *)

(** One round of the search for an anchor: found, impossible, or go on. *)
Fixpoint find_anchor_in_round (slots : list LeaderSlot) : option (option VerifiedBlock) :=
  match slots with
  | [] => None
  | slot :: slots =>
      match lsl_leader_status slot with
      | LCommit block => Some (Some block)
      | LUndecided _ => Some None
      | LSkip _ => find_anchor_in_round slots
      end
  end.

Fixpoint find_anchor_loop (rounds : list RoundState) : option VerifiedBlock :=
  match rounds with
  | [] => None
  | round_state :: rounds =>
      match find_anchor_in_round (rst_leader_slots round_state) with
      | Some found => found
      | None => find_anchor_loop rounds
      end
  end.

Definition FlexCommitter_find_anchor_block fc (start_round : Round) : M (option VerifiedBlock) :=
  let p := fc_pending_commit_state fc in
  start_index ← u32_sub start_round (nc_min_next_leader_round (pcs_next_commit_leaders p));
  Ret (find_anchor_loop (drop (N.to_nat start_index) (pcs_rounds p))).

Definition FlexCommitter_decide_with_anchor_block fc s (anchor_block : VerifiedBlock)
    (decision_round : Round) : M FlexCommitter :=
  '(p, (position, rs)) ← PendingCommitState_get_or_create_round_state
                           (fc_pending_commit_state fc) decision_round;
  if bool_decide (rst_undecided_slots rs = ∅) then Ret (set_pending_commit_state p fc)
  else
    let slots := lsl_slot <$> rst_leader_slots rs in
    statuses ← LeaderSlotDecider_try_indirect_decide (fc_slot_decider fc) s anchor_block slots;
    assert_that (length slots =? length statuses)%nat
      "zip_eq: iterators of different lengths";;
    rs' ← foldM (λ rs '(slot, status), RoundState_update_slot_decision rs slot status Indirect)
            rs (zip slots statuses);
    Ret (set_pending_commit_state (put_round_state p position rs') fc).

Definition indirect_round s fc (round : Round) : M FlexCommitter :=
  start_round ← u32_add round INDIRECT_COMMIT_DEPTH;
  anchor ← FlexCommitter_find_anchor_block fc start_round;
  match anchor with
  | None => Ret fc
  | Some anchor_block => FlexCommitter_decide_with_anchor_block fc s anchor_block round
  end.

Definition FlexCommitter_try_indirect_commit fc s : M FlexCommitter :=
  let min_next_leader_round :=
    nc_min_next_leader_round (pcs_next_commit_leaders (fc_pending_commit_state fc)) in
  foldM (indirect_round s) fc
    (reverse (round_interval min_next_leader_round
                (ds_highest_accepted_round s - INDIRECT_COMMIT_DEPTH + 1))).

(** ** Building a commit *)

Fixpoint find_commit_loop (rounds : list RoundState) : option Round :=
  match rounds with
  | [] => None
  | round_state :: rounds =>
      if negb (bool_decide (rst_undecided_slots round_state = ∅)) then None
      else if 0 <? rst_num_committed round_state then Some (rst_round round_state)
      else find_commit_loop rounds
  end.

Definition FlexCommitter_find_commit_leader_round fc : option Round :=
  find_commit_loop (pcs_rounds (fc_pending_commit_state fc)).

(** One slot of the report: its decision must be known, and its authority a
    member. *)
Definition report_slot (c : Committee) (leader_slot : LeaderSlot) : M unit :=
  authority ← match lsl_leader_status leader_slot with
              | LCommit block => Ret (b_author block)
              | LSkip slot => Ret (slot_authority slot)
              | LUndecided _ => Panic (Explicit "Unexpected undecided slot")
              end;
  expect (lsl_decision leader_slot) "Decided slot must have a decision";;
  Committee_authority c authority;;
  Ret tt.

Fixpoint report_rounds (c : Committee) (commit_leader_round : Round) (rounds : list RoundState)
    : M unit :=
  match rounds with
  | [] => Ret tt
  | round_state :: rounds =>
      if commit_leader_round <? rst_round round_state then Ret tt
      else
        mapP (report_slot c) (rst_leader_slots round_state);;
        report_rounds c commit_leader_round rounds
  end.

Definition FlexCommitter_report_decided_prefix_metrics fc (commit_leader_round : Round) : M unit :=
  report_rounds (ctx_committee (fc_context fc)) commit_leader_round
    (pcs_rounds (fc_pending_commit_state fc)).

(** The committed leaders among the slots of a round. *)
Fixpoint collect_committed_leaders (slots : list LeaderSlot) : M (list VerifiedBlock) :=
  match slots with
  | [] => Ret []
  | slot :: slots =>
      match lsl_leader_status slot with
      | LCommit block => leaders ← collect_committed_leaders slots; Ret (block :: leaders)
      | LSkip _ => collect_committed_leaders slots
      | LUndecided _ => Panic (Explicit "Unexpected undecided slot")
      end
  end.

Definition mark_leader (gc_round : Round) s (leader : VerifiedBlock) : M (DagState S) :=
  assert_that (gc_round <? b_round leader)
    "Leader block at or below gc_round should not be committed";;
  '(s, fresh) ← DagState_set_committed s (reference leader);
  assert_that fresh "Leader block attempted to be committed twice";;
  Ret s.

(** The stack of blocks to visit has its top at the head. *)
Definition visit_ancestor (gc_round : Round) (acc : DagState S * list VerifiedBlock)
    (ancestor_ref : BlockRef) : M (DagState S * list VerifiedBlock) :=
  let '(s, to_visit) := acc in
  if br_round ancestor_ref <=? gc_round then Ret acc
  else
    '(s, fresh) ← DagState_set_committed s ancestor_ref;
    if negb fresh then Ret (s, to_visit)
    else
      found ← DagState_get_block s ancestor_ref;
      block ← expect found "unwrap";
      Ret (s, block :: to_visit).

Fixpoint collect_loop (fuel : nat) (gc_round : Round) s (to_visit to_commit : list VerifiedBlock)
    : M (DagState S * list VerifiedBlock) :=
  match fuel with
  | O => NoFuel
  | Datatypes.S fuel =>
      match to_visit with
      | [] => Ret (s, to_commit)
      | block :: to_visit =>
          '(s, to_visit) ← foldM (visit_ancestor gc_round) (s, to_visit) (b_ancestors block);
          collect_loop fuel gc_round s to_visit (to_commit ++ [block])
      end
  end.

(** *** The order of the blocks and the timestamp *)

Definition digest_bytes (d : N) : bytes :=
  (λ x, default Byte.x00 (Byte.of_N x)) <$> to_be_bytes 32 d.

Definition compute_sort_seed (committed_leaders : list VerifiedBlock) : N :=
  hash (concat ((λ leader, digest_bytes (vb_digest leader)) <$> committed_leaders)).

Definition block_sort_key (seed : N) (block_ref : BlockRef) : Round * N :=
  (br_round block_ref, hash (digest_bytes seed ++ digest_bytes (br_digest block_ref))).

Definition sort_committed_blocks (blocks : list VerifiedBlock) (seed : N) : list VerifiedBlock :=
  stable_sort (λ a b, le_ord (block_sort_key seed (reference a)) (block_sort_key seed (reference b)))
    blocks.

Definition add_parent_ref (leader_round : Round) (parent_refs : gmap AuthorityIndex BlockRef)
    (ancestor : BlockRef) : M (gmap AuthorityIndex BlockRef) :=
  next ← u32_add (br_round ancestor) 1;
  Ret (if next =? leader_round then <[br_author ancestor := ancestor]> parent_refs
       else parent_refs).

(** [.unwrap_or_else(|e| panic!(...))] on the median, and the monotonicity. *)
Definition commit_timestamp_of (context : Context) s (blocks : list VerifiedBlock)
    : M BlockTimestampMs :=
  median ← median_timestamp_by_stake context blocks;
  match median with
  | inl ts => Ret (N.max ts (DagState_last_commit_timestamp_ms s))
  | inr _ => Panic (Explicit "Cannot compute commit timestamp")
  end.

Definition calculate_commit_timestamp (context : Context) s (committed_leaders : list VerifiedBlock)
    : M BlockTimestampMs :=
  first ← index committed_leaders 0;
  let leader_round := b_round (vb_block first) in
  (if overflow_checks
   then assert_that (forallb (λ b : VerifiedBlock, b_round b =? leader_round) committed_leaders)
          "committed_leaders.iter().all(|b| b.round() == leader_round)"
   else Ret tt);;
  total_leader_stake ← stake_sum (ctx_committee context)
                         ((λ b : VerifiedBlock, b_author b) <$> committed_leaders);
  if Committee_certification_threshold (ctx_committee context) <=? total_leader_stake
  then commit_timestamp_of context s committed_leaders
  else
    parent_refs ← foldM (λ parent_refs leader,
                     foldM (add_parent_ref leader_round) parent_refs (b_ancestors (vb_block leader)))
                     ∅ committed_leaders;
    block_opts ← DagState_get_blocks s (bmap_list parent_refs).*2;
    blocks ← mapP (λ b, expect b "Parent block must be in dag state") block_opts;
    commit_timestamp_of context s blocks.

Definition FlexCommitter_build_commit fc s (commit_leader_round : Round)
    : M (DagState S * (TrustedCommit * CommittedSubDag)) :=
  '(_, round_state) ← PendingCommitState_get_round_state (fc_pending_commit_state fc)
                        commit_leader_round;
  committed_leaders ← collect_committed_leaders (rst_leader_slots round_state);
  assert_that (negb (is_nil committed_leaders)) "No committed leaders found";;
  FlexCommitter_report_decided_prefix_metrics fc commit_leader_round;;
  let last_commit_digest := DagState_last_commit_digest s in
  let gc_round := DagState_gc_round s in
  s ← foldM (mark_leader gc_round) s committed_leaders;
  '(s, to_commit) ← collect_loop (linearize_fuel s) gc_round s (reverse committed_leaders) [];
  let to_commit := sort_committed_blocks to_commit (compute_sort_seed committed_leaders) in
  last_block ← expect (last to_commit) "At least one committed leader must be in to_commit";
  let leader_ref := reference last_block in
  assert_that (br_round leader_ref =? commit_leader_round) "leader_ref.round == commit_leader_round";;
  timestamp_ms ← calculate_commit_timestamp (fc_context fc) s committed_leaders;
  let commit := Commit_new
                  (nc_next_commit_index (pcs_next_commit_leaders (fc_pending_commit_state fc)))
                  last_commit_digest timestamp_ms leader_ref (reference <$> to_commit) in
  match bcs_commit commit with
  | None => Panic (Explicit "Failed to serialize commit")
  | Some serialized =>
      let trusted_commit := TrustedCommit_new_trusted commit serialized in
      Ret (s, (trusted_commit,
               CommittedSubDag_new leader_ref to_commit timestamp_ms
                 (TrustedCommit_reference trusted_commit)))
  end.

(** ** The committer *)

Definition FlexCommitter_try_commit fc s (next_commit_leaders : NextCommitLeaderSchedule)
    : M (FlexCommitter * DagState S * option (TrustedCommit * CommittedSubDag)) :=
  fc ← FlexCommitter_maybe_refresh_pending_commit_state fc next_commit_leaders;
  fc ← FlexCommitter_try_direct_commit fc s;
  match FlexCommitter_find_commit_leader_round fc with
  | Some commit_leader_round =>
      '(s, built) ← FlexCommitter_build_commit fc s commit_leader_round;
      Ret (fc, s, Some built)
  | None =>
      fc ← FlexCommitter_try_indirect_commit fc s;
      match FlexCommitter_find_commit_leader_round fc with
      | Some commit_leader_round =>
          '(s, built) ← FlexCommitter_build_commit fc s commit_leader_round;
          Ret (fc, s, Some built)
      | None => Ret (fc, s, None)
      end
  end.

Definition mark_certified s (block_ref : BlockRef) : M (DagState S) :=
  '(s, fresh) ← DagState_set_committed s block_ref;
  assert_that fresh "Block attempted to be committed twice";;
  Ret s.

Definition FlexCommitter_handle_certified_commit fc s (commit : TrustedCommit)
    : M (DagState S * CommittedSubDag) :=
  s ← foldM mark_certified s (c_blocks commit);
  found ← DagState_get_blocks s (c_blocks commit);
  blocks ← mapP (λ b, expect b "All blocks referenced by a trusted commit must be in DagState")
             found;
  mapP (λ block : VerifiedBlock,
          if b_round block =? br_round (c_leader commit)
          then Committee_authority (ctx_committee (fc_context fc)) (b_author block);; Ret tt
          else Ret tt) blocks;;
  Ret (s, {| sd_leader := c_leader commit; sd_blocks := blocks;
             sd_timestamp_ms := c_timestamp_ms commit;
             sd_commit_ref := TrustedCommit_reference commit;
             sd_decided_with_local_blocks := false;
             sd_recovered_rejected_transactions := false;
             sd_rejected_transactions_by_block := ∅ |}).

End FlexCommitter.
