(* ===== verification/FlexRounds.v ===== *)
(** * The pending decisions of the flex committer

    Every decision that [FlexCommitter] keeps follows from commit rule v3, for
    the order of leaders that its schedule gives; the direct and the indirect
    passes return and keep this invariant, so the checks on repeated decisions
    never fire. *)

From S2P Require Import Prelude BTree Config Block Commit Store StakeAggregator ThresholdClock.
From S2P Require Import LeaderScoring DagState DagTheory DagTraversal LeaderSchedule CommitRule Linearizer.
From S2P Require Import V3Metadata SlotRule LeaderSlotDecider SlotDeciderTheory SlotSearch LeaderScheduleV3 FlexCommitter.
Local Open Scope N_scope.

(** ** Ranges of rounds *)

Lemma round_interval_elem start stop r : r ∈ round_interval start stop ↔ start ≤ r < stop.
Proof.
  unfold round_interval. rewrite list_elem_of_fmap. setoid_rewrite elem_of_seq. split.
  - intros (k & -> & ?). lia.
  - intros ?. exists (N.to_nat r). lia.
Qed.

Lemma round_interval_lookup start stop k :
  N.of_nat k < stop - start → round_interval start stop !! k = Some (start + N.of_nat k).
Proof. intros Hk. unfold round_interval. rewrite list_lookup_fmap, lookup_seq_lt by lia. simpl. f_equal. lia. Qed.

Lemma round_interval_length start stop : length (round_interval start stop) = N.to_nat (stop - start).
Proof. unfold round_interval. by rewrite length_fmap, length_seq. Qed.

(** The leader slots of a round, in order. *)
Definition leader_order `{Rng} (allowed : list AuthorityIndex) (r : Round) : list Slot :=
  mkSlot r <$> rng_shuffle (elect_seed r) allowed.

Section FlexRounds.
Context `{Profile} `{Crypto} `{Rng} `{Hrng : !RngLaws} {S : Type} `{StoreLaws S}.
Context (c : Committee) (G : BlockRef → option VerifiedBlock).
Context (allowed : list AuthorityIndex) (Hallowed : NoDup allowed).
Implicit Types (s : DagState S) (b : VerifiedBlock) (rs : RoundState) (p : PendingCommitState).

Abbreviation order := (leader_order allowed) (only parsing).
Abbreviation decided := (decided c G order) (only parsing).

Lemma order_slots r slot : slot ∈ order r ↔ slot_round slot = r ∧ slot_authority slot ∈ allowed.
Proof.
  unfold leader_order. rewrite list_elem_of_fmap. setoid_rewrite (shuffle_perm (elect_seed r) _ allowed).
  destruct slot as [r' a]. simpl. naive_solver.
Qed.

Lemma order_NoDup r : NoDup (order r).
Proof using Hallowed Hrng.
  unfold leader_order. apply NoDup_fmap_2; [by intros ? ? [= ->]|]. by rewrite shuffle_perm.
Qed.

(** ** The invariant *)

(** A decision taken with a rule, on a block that is there. *)
Definition justified s (slot : Slot) (st : LeaderStatus) : Prop :=
  decided slot st ∧ ∀ b, st = LCommit b → ds_cached s (reference b) = Some b.

Definition leader_slot_ok s (ls : LeaderSlot) : Prop :=
  if LeaderStatus_is_decided (lsl_leader_status ls)
  then justified s (lsl_slot ls) (lsl_leader_status ls) ∧ is_Some (lsl_decision ls)
  else lsl_leader_status ls = LUndecided (lsl_slot ls).

Definition undecided_in (slots : list LeaderSlot) (slot : Slot) : Prop :=
  ∃ ls, ls ∈ slots ∧ lsl_slot ls = slot ∧ LeaderStatus_is_decided (lsl_leader_status ls) = false.

Definition commits_in (slots : list LeaderSlot) : list LeaderSlot :=
  filter (λ ls, is_commit (lsl_leader_status ls) = true) slots.

Record round_state_ok s rs : Prop := {
  rk_slots : lsl_slot <$> rst_leader_slots rs = order (rst_round rs);
  rk_each : ∀ ls, ls ∈ rst_leader_slots rs → leader_slot_ok s ls;
  rk_undecided : ∀ slot, slot ∈ rst_undecided_slots rs ↔ undecided_in (rst_leader_slots rs) slot;
  rk_committed : rst_num_committed rs = N.of_nat (length (commits_in (rst_leader_slots rs)));
}.

Record pending_ok s p : Prop := {
  pk_allowed : nc_allowed_leaders (pcs_next_commit_leaders p) = allowed;
  pk_rounds : ∀ k rs, pcs_rounds p !! k = Some rs →
    rst_round rs = nc_min_next_leader_round (pcs_next_commit_leaders p) + N.of_nat k ∧ round_state_ok s rs;
  pk_bound : nc_min_next_leader_round (pcs_next_commit_leaders p) + N.of_nat (length (pcs_rounds p)) ≤ u32_max;
}.

Lemma find_slot_lookup s rs k ls :
  round_state_ok s rs → rst_leader_slots rs !! k = Some ls →
  find_slot (lsl_slot ls) (rst_leader_slots rs) = Some (k, ls).
Proof using Hallowed Hrng.
  intros Hok Hk. apply list_find_Some. split; [done|]. split; [done|]. intros j ls' Hj Hlt Heq.
  assert (j = k) as ->; [|lia]. pose proof (order_NoDup (rst_round rs)) as Hnd. rewrite <- (rk_slots s rs Hok) in Hnd.
  apply (NoDup_lookup _ j k (lsl_slot ls) Hnd); rewrite list_lookup_fmap; [rewrite Hj|rewrite Hk]; simpl; by rewrite ?Heq.
Qed.

(** ** A new round *)

Lemma new_round_ok s r : round_state_ok s (RoundState_new allowed r).
Proof.
  split; cbn [RoundState_new rst_round rst_leader_slots rst_undecided_slots rst_num_committed].
  - unfold leader_order. rewrite <- list_fmap_compose. done.
  - intros ls (leader & -> & _)%list_elem_of_fmap. done.
  - intros slot. unfold undecided_in. rewrite elem_of_list_to_set, list_elem_of_fmap. split.
    + intros (ls & -> & Hls). exists ls. split; [done|]. split; [done|]. by apply list_elem_of_fmap in Hls as (leader & -> & _).
    + intros (ls & Hls & <- & _). by exists ls.
  - destruct (commits_in _) as [|ls l] eqn:E; [done|].
    assert (ls ∈ ls :: l) as Hin by left. rewrite <- E in Hin.
    apply list_elem_of_filter in Hin as [Hc (leader & -> & _)%list_elem_of_fmap]. done.
Qed.

(** [get_or_create_round_state] returns the state of the round, and keeps the others. *)
Lemma get_or_create_spec s p round :
  pending_ok s p → nc_min_next_leader_round (pcs_next_commit_leaders p) ≤ round → round < u32_max →
  ∃ rounds k rs, PendingCommitState_get_or_create_round_state p round =
      Ret (mkPendingCommitState (pcs_next_commit_leaders p) rounds, (k, rs)) ∧
    pending_ok s (mkPendingCommitState (pcs_next_commit_leaders p) rounds) ∧
    rounds !! k = Some rs ∧ rst_round rs = round ∧ round_state_ok s rs.
Proof.
  intros Hp Hmin Hmax. unfold PendingCommitState_get_or_create_round_state.
  set (min := nc_min_next_leader_round (pcs_next_commit_leaders p)) in *.
  assert (match last (pcs_rounds p) with
          | Some state => u32_add (rst_round state) 1
          | None => Ret min
          end = Ret (min + N.of_nat (length (pcs_rounds p)))) as ->.
  { pose proof (pk_bound s p Hp) as Hb. fold min in Hb. destruct (last (pcs_rounds p)) as [rs|] eqn:El.
    - rewrite last_lookup in El. destruct (pk_rounds s p Hp _ _ El) as [-> _].
      apply lookup_lt_Some in El. fold min. rewrite int_add_exact by lia. f_equal. lia.
    - apply last_None in El. rewrite El. simpl. f_equal. lia. }
  cbn [mbind M_bind]. cbv zeta. rewrite (pk_allowed s p Hp).
  set (from := min + N.of_nat (length (pcs_rounds p))).
  set (rounds := pcs_rounds p ++ (RoundState_new allowed <$> round_interval from (round + 1))).
  assert (length rounds = N.to_nat (N.max from (round + 1) - min)) as Hlen.
  { unfold rounds. rewrite length_app, length_fmap, round_interval_length. unfold from. lia. }
  assert (pending_ok s (mkPendingCommitState (pcs_next_commit_leaders p) rounds)) as Hp'.
  { split; [apply Hp| |].
    - intros k rs. cbn [pcs_rounds pcs_next_commit_leaders]. fold min. unfold rounds.
      intros [Hk|[Hge Hk]]%lookup_app_Some; [by apply (pk_rounds s p Hp)|].
      apply list_lookup_fmap_Some in Hk as (r & -> & Hr). split; [|apply new_round_ok].
      assert (k - length (pcs_rounds p) < length (round_interval from (round + 1)))%nat as Hlt by (by eapply lookup_lt_Some).
      rewrite round_interval_length in Hlt. rewrite round_interval_lookup in Hr by lia. injection Hr as <-.
      cbn [RoundState_new rst_round]. unfold from. lia.
    - cbn [pcs_rounds pcs_next_commit_leaders]. fold min. rewrite Hlen. pose proof (pk_bound s p Hp) as Hb. fold min in Hb. unfold from. lia. }
  destruct (lookup_lt_is_Some_2 rounds (N.to_nat (round - min))) as [rs Hrs]; [rewrite Hlen; lia|].
  destruct (pk_rounds s _ Hp' _ _ Hrs) as [Hround Hok].
  exists rounds, (N.to_nat (round - min)), rs. unfold PendingCommitState_get_round_state, checked_sub.
  cbn [pcs_rounds pcs_next_commit_leaders] in *. fold min in Hround |- *.
  rewrite (proj2 (N.leb_le _ _) Hmin). cbn [expect mbind M_bind]. rewrite Hrs. cbn [expect mbind M_bind].
  split_and!; [done..|lia|done].
Qed.

(** ** One decision *)

Context (Hwf : Committee_wf c) (Hv3 : v3_thresholds c) (Hdag : dag_valid c G) (Hdist : distinct_ancestors G).
Context (byz : gset AuthorityIndex) (Hmaj : honest_majority c G byz).

Lemma decided_is_decided slot st : decided slot st → LeaderStatus_is_decided st = true.
Proof. intros Hd%slot_decided_status. by destruct st. Qed.

Lemma LeaderStatus_eqb_refl st : LeaderStatus_eqb st st = true.
Proof. destruct st; simpl; [unfold VerifiedBlock_eqb; apply N.eqb_refl|by apply bool_decide_eq_true..]. Qed.

(** The slot of a position, among the slots of its round. *)
Lemma round_split s rs k ls :
  round_state_ok s rs → rst_leader_slots rs !! k = Some ls →
  ∃ l1 l2, rst_leader_slots rs = l1 ++ ls :: l2 ∧ (∀ x, <[k := x]> (rst_leader_slots rs) = l1 ++ x :: l2) ∧
    (∀ ls', ls' ∈ l1 ∨ ls' ∈ l2 → lsl_slot ls' ≠ lsl_slot ls).
Proof using Hallowed Hrng.
  intros Hok Hk. destruct (list_elem_of_split_length _ _ _ Hk) as (l1 & l2 & Heq & ->).
  exists l1, l2. split; [done|]. split.
  - intros x. rewrite Heq. by rewrite insert_app_r_alt, Nat.sub_diag by done.
  - pose proof (order_NoDup (rst_round rs)) as Hnd. rewrite <- (rk_slots s rs Hok), Heq, fmap_app, fmap_cons in Hnd.
    apply NoDup_app in Hnd as (_ & Hd & [Hn _]%NoDup_cons). intros ls' [Hin|Hin] Hs.
    + apply (Hd (lsl_slot ls)); [rewrite <- Hs; by apply list_elem_of_fmap_2|left].
    + apply Hn. rewrite <- Hs. by apply list_elem_of_fmap_2.
Qed.

Lemma undecided_split s rs k ls :
  round_state_ok s rs → rst_leader_slots rs !! k = Some ls →
  lsl_slot ls ∈ rst_undecided_slots rs ↔ LeaderStatus_is_decided (lsl_leader_status ls) = false.
Proof using Hallowed Hrng.
  intros Hok Hk. destruct (round_split s rs k ls Hok Hk) as (l1 & l2 & Heq & _ & Hne).
  rewrite (rk_undecided s rs Hok). unfold undecided_in. rewrite Heq. split.
  - intros (ls' & Hin & Hs & Hu). apply elem_of_app in Hin as [Hin|[->|Hin]%elem_of_cons]; [|done|].
    + by destruct (Hne ls'); [left|].
    + by destruct (Hne ls'); [right|].
  - intros Hu. exists ls. split; [apply elem_of_app; right; left|done].
Qed.

(** The state of a round in which one undecided slot gets decided. *)
Lemma decide_slot_ok s rs k ls st dec :
  round_state_ok s rs → rst_leader_slots rs !! k = Some ls →
  LeaderStatus_is_decided (lsl_leader_status ls) = false → justified s (lsl_slot ls) st →
  round_state_ok s (mkRoundState (rst_round rs)
    (<[k := mkLeaderSlot (lsl_slot ls) st (Some dec)]> (rst_leader_slots rs))
    (rst_undecided_slots rs ∖ {[lsl_slot ls]})
    (if is_commit st then rst_num_committed rs + 1 else rst_num_committed rs)).
Proof using Hallowed Hrng.
  intros Hok Hk Hu Hj. destruct (round_split s rs k ls Hok Hk) as (l1 & l2 & Heq & Hins & Hne). rewrite Hins.
  pose proof (decided_is_decided _ _ (proj1 Hj)) as Hd. set (ls' := mkLeaderSlot _ _ _).
  split; cbn [rst_round rst_leader_slots rst_undecided_slots rst_num_committed].
  - rewrite <- (rk_slots s rs Hok), Heq, !fmap_app, !fmap_cons. done.
  - intros l [Hin|[->|Hin]%elem_of_cons]%elem_of_app.
    + apply (rk_each s rs Hok). rewrite Heq. apply elem_of_app. by left.
    + unfold leader_slot_ok, ls'. cbn [lsl_slot lsl_leader_status lsl_decision]. rewrite Hd. by split; [|eexists].
    + apply (rk_each s rs Hok). rewrite Heq. apply elem_of_app. right. by right.
  - intros slot. rewrite elem_of_difference, elem_of_singleton, (rk_undecided s rs Hok), Heq. unfold undecided_in. split.
    + intros [(l & Hin & Hs & Hlu) Hns]. exists l. split; [|done].
      apply elem_of_app in Hin as [Hin|[->|Hin]%elem_of_cons]; [by apply elem_of_app; left|congruence|].
      apply elem_of_app. right. by right.
    + intros (l & Hin & Hs & Hlu).
      assert (l ∈ l1 ∨ l ∈ l2) as Hl.
      { apply elem_of_app in Hin as [Hin|[->|Hin]%elem_of_cons]; [by left| |by right].
        unfold ls' in Hlu. cbn [lsl_leader_status] in Hlu. congruence. }
      split; [|intros ->; by destruct (Hne l Hl)]. exists l. split; [|done]. apply elem_of_app.
      destruct Hl; [by left|right; by right].
  - rewrite (rk_committed s rs Hok), Heq. unfold commits_in. rewrite !filter_app.
    rewrite (filter_cons_False _ ls) by (by destruct (lsl_leader_status ls)).
    destruct (is_commit st) eqn:Hc.
    + rewrite filter_cons_True by done. rewrite !length_app. simpl length. lia.
    + rewrite filter_cons_False by (unfold ls'; cbn [lsl_leader_status]; congruence). done.
Qed.

(** A justified status is always taken, and never conflicts with an earlier one. *)
Lemma update_slot_spec s rs k ls st dec :
  round_state_ok s rs → rst_leader_slots rs !! k = Some ls → justified s (lsl_slot ls) st →
  ∃ rs' ls', RoundState_update_slot_decision rs (lsl_slot ls) st dec = Ret rs' ∧ round_state_ok s rs' ∧
    rst_round rs' = rst_round rs ∧ rst_leader_slots rs' = <[k := ls']> (rst_leader_slots rs) ∧
    lsl_slot ls' = lsl_slot ls ∧ lsl_leader_status ls' = st.
Proof using Hallowed Hrng Hwf Hv3 Hdag Hdist Hmaj.
  intros Hok Hk Hj. unfold RoundState_update_slot_decision. rewrite (find_slot_lookup s rs k ls Hok Hk).
  rewrite (decided_is_decided _ _ (proj1 Hj)). cbn [negb].
  pose proof (undecided_split s rs k ls Hok Hk) as Hu. destruct (LeaderStatus_is_decided (lsl_leader_status ls)) eqn:Hd.
  - rewrite bool_decide_eq_false_2 by (by intros ?%Hu).
    pose proof (rk_each s rs Hok ls ltac:(by eapply list_elem_of_lookup_2)) as Hls. unfold leader_slot_ok in Hls.
    rewrite Hd in Hls. destruct Hls as [[Hls _] _].
    rewrite (decided_agree c G Hwf Hv3 Hdag Hdist byz Hmaj order _ _ _ Hls (proj1 Hj)) in *.
    rewrite LeaderStatus_eqb_refl. cbn [assert_that mbind M_bind]. exists rs, ls. split_and!; [done..| |done|].
    + by rewrite list_insert_id.
    + by apply (decided_agree c G Hwf Hv3 Hdag Hdist byz Hmaj order _ _ _ Hls (proj1 Hj)).
  - rewrite bool_decide_eq_true_2 by (by apply Hu). eexists _, _. split; [done|].
    split; [by apply decide_slot_ok|]. done.
Qed.

(** ** The direct pass *)

Lemma put_round_ok s p k rs rs' :
  pending_ok s p → pcs_rounds p !! k = Some rs → rst_round rs' = rst_round rs → round_state_ok s rs' →
  pending_ok s (put_round_state p k rs').
Proof.
  intros [Ha Hr Hb] Hk Hround Hok. split; [done| |cbn [put_round_state pcs_rounds pcs_next_commit_leaders]; by rewrite length_insert].
  intros j rsj. cbn [put_round_state pcs_rounds pcs_next_commit_leaders].
  intros [(-> & <- & _)|(_ & Hj)]%list_lookup_insert_Some; [|by apply Hr].
  rewrite Hround. split; [by apply Hr|done].
Qed.

(** What the committer holds: its decisions follow from the rule, and are on
    rounds above the garbage collection round. *)
Record fc_ok s (fc : FlexCommitter) : Prop := {
  fk_context : ctx_committee (fc_context fc) = c;
  fk_decider : ctx_committee (sd_context (fc_slot_decider fc)) = c;
  fk_pending : pending_ok s (fc_pending_commit_state fc);
  fk_gc : DagState_gc_round s < nc_min_next_leader_round (pcs_next_commit_leaders (fc_pending_commit_state fc));
  fk_highest : ds_highest_accepted_round s < u32_max;
}.

Definition fc_schedule (fc : FlexCommitter) : NextCommitLeaderSchedule :=
  pcs_next_commit_leaders (fc_pending_commit_state fc).

Lemma set_pending_ok s fc p :
  fc_ok s fc → pcs_next_commit_leaders p = fc_schedule fc → pending_ok s p →
  fc_ok s (set_pending_commit_state p fc) ∧ fc_schedule (set_pending_commit_state p fc) = fc_schedule fc.
Proof.
  intros [Hc Hd Hp Hgc Hh] Hs Hp'. split; [|done]. split; [done..| |done].
  cbn [set_pending_commit_state fc_pending_commit_state]. unfold fc_schedule in Hs. by rewrite Hs.
Qed.

Lemma undecided_slots_spec s rs slot : round_state_ok s rs → slot ∈ undecided_slots rs ↔ slot ∈ rst_undecided_slots rs.
Proof.
  intros Hok. rewrite (rk_undecided s rs Hok). unfold undecided_slots, undecided_in. rewrite list_elem_of_fmap.
  setoid_rewrite list_elem_of_filter. naive_solver.
Qed.

Lemma undecided_slots_NoDup s rs : round_state_ok s rs → NoDup (undecided_slots rs).
Proof using Hallowed Hrng.
  intros Hok. pose proof (order_NoDup (rst_round rs)) as Hnd. rewrite <- (rk_slots s rs Hok) in Hnd.
  eapply sublist_NoDup; [exact Hnd|]. unfold undecided_slots. apply fmap_sublist, sublist_filter.
Qed.

(** Updating one slot leaves the others undecided. *)
Lemma update_keeps_undecided s rs rs' k ls ls' slot :
  round_state_ok s rs → round_state_ok s rs' → rst_leader_slots rs !! k = Some ls →
  rst_leader_slots rs' = <[k := ls']> (rst_leader_slots rs) → lsl_slot ls ≠ slot →
  slot ∈ rst_undecided_slots rs → slot ∈ rst_undecided_slots rs'.
Proof using Hallowed Hrng.
  intros Hok Hok' Hk Heq Hne. rewrite (rk_undecided s rs Hok), (rk_undecided s rs' Hok').
  intros (l & Hl & Hs & Hu). exists l. split; [|done]. rewrite Heq.
  destruct (round_split s rs k ls Hok Hk) as (l1 & l2 & Hsp & Hins & _). rewrite Hins. rewrite Hsp in Hl.
  apply elem_of_app in Hl as [Hl|[->|Hl]%elem_of_cons]; [by apply elem_of_app; left|done|]. apply elem_of_app. right. by right.
Qed.

Lemma direct_slot_spec fc s rs slot :
  v3_view c G s → ctx_committee (sd_context (fc_slot_decider fc)) = c →
  DagState_gc_round s < rst_round rs → rst_round rs < u32_max → round_state_ok s rs → slot ∈ rst_undecided_slots rs →
  ∃ rs', direct_slot fc s rs slot = Ret rs' ∧ round_state_ok s rs' ∧ rst_round rs' = rst_round rs ∧
    ∀ slot', slot' ≠ slot → slot' ∈ rst_undecided_slots rs → slot' ∈ rst_undecided_slots rs'.
Proof using Hallowed Hrng Hwf Hv3 Hdag Hdist Hmaj.
  intros Hv Hd Hgc Hmax Hok Hslot. pose proof (proj1 (rk_undecided s rs Hok slot) Hslot) as (ls & Hls & Hs & Hu).
  apply list_elem_of_lookup_1 in Hls as [k Hk].
  assert (slot_round slot = rst_round rs) as Hround.
  { apply (order_slots (rst_round rs)). rewrite <- (rk_slots s rs Hok), <- Hs. by apply list_elem_of_fmap_2, (list_elem_of_lookup_2 _ k). }
  unfold direct_slot.
  destruct (slot_direct_decide_spec c G Hwf Hdag byz Hmaj (fc_slot_decider fc) s slot Hd Hv) as (st & -> & Hst & Hca); [lia..|].
  cbn [mbind M_bind]. destruct Hst as [->|Hdir].
  - exists rs. unfold RoundState_update_slot_decision. rewrite <- Hs, (find_slot_lookup s rs k ls Hok Hk). cbn [LeaderStatus_is_decided negb].
    rewrite Hu. done.
  - destruct (update_slot_spec s rs k ls st Direct Hok Hk) as (rs' & ls' & Hup & Hok' & Hr & Heq & _ & _).
    { rewrite Hs. split; [by apply decided_direct|done]. }
    rewrite Hs in Hup. exists rs'. split_and!; [done..|]. intros slot' Hne. eapply update_keeps_undecided; [done..|congruence].
Qed.

Lemma direct_slots_spec fc s rs todo :
  v3_view c G s → ctx_committee (sd_context (fc_slot_decider fc)) = c →
  DagState_gc_round s < rst_round rs → rst_round rs < u32_max → round_state_ok s rs → NoDup todo →
  (∀ slot, slot ∈ todo → slot ∈ rst_undecided_slots rs) →
  ∃ rs', foldM (direct_slot fc s) rs todo = Ret rs' ∧ round_state_ok s rs' ∧ rst_round rs' = rst_round rs.
Proof using Hallowed Hrng Hwf Hv3 Hdag Hdist Hmaj.
  intros Hv Hd Hgc Hmax Hok Hnd. revert rs Hgc Hmax Hok. induction Hnd as [|slot todo Hn _ IH]; intros rs Hgc Hmax Hok Htodo; cbn [foldM].
  { by exists rs. }
  destruct (direct_slot_spec fc s rs slot Hv Hd Hgc Hmax Hok) as (rs1 & -> & Hok1 & Hr1 & Hkeep); [apply Htodo; left|].
  cbn [mbind M_bind]. destruct (IH rs1) as (rs2 & Hrs2 & Hok2 & Hr2); [by rewrite Hr1..|done| |].
  - intros slot' Hin. apply Hkeep; [by intros ->|]. apply Htodo. by right.
  - exists rs2. split_and!; [done..|congruence].
Qed.

Lemma direct_round_spec fc s round :
  v3_view c G s → fc_ok s fc → nc_min_next_leader_round (fc_schedule fc) ≤ round → round < u32_max →
  ∃ fc', direct_round s fc round = Ret fc' ∧ fc_ok s fc' ∧ fc_schedule fc' = fc_schedule fc.
Proof using Hallowed Hrng Hwf Hv3 Hdag Hdist Hmaj.
  intros Hv Hfc Hmin Hmax. unfold direct_round.
  destruct (get_or_create_spec s (fc_pending_commit_state fc) round) as (rounds & k & rs & -> & Hp & Hk & Hround & Hok);
    [apply Hfc|done..|]. cbn [mbind M_bind].
  destruct (direct_slots_spec fc s rs (undecided_slots rs) Hv) as (rs' & -> & Hok' & Hr');
    [apply Hfc| |by rewrite Hround|done|by eapply undecided_slots_NoDup|by intros slot ?%(undecided_slots_spec s)|].
  { pose proof (fk_gc s fc Hfc) as Hgc. unfold fc_schedule in Hmin. lia. }
  cbn [mbind M_bind]. eexists. split; [done|]. apply set_pending_ok; [done..|].
  by apply (put_round_ok s _ k rs).
Qed.

Lemma try_direct_commit_spec fc s :
  v3_view c G s → fc_ok s fc →
  ∃ fc', FlexCommitter_try_direct_commit fc s = Ret fc' ∧ fc_ok s fc' ∧ fc_schedule fc' = fc_schedule fc.
Proof using Hallowed Hrng Hwf Hv3 Hdag Hdist Hmaj.
  intros Hv Hfc. unfold FlexCommitter_try_direct_commit.
  apply (foldM_returns _ (λ fc', fc_ok s fc' ∧ fc_schedule fc' = fc_schedule fc)); [|done].
  intros fc1 round [Hle Hlt]%round_interval_elem [Hfc1 Hs1]. pose proof (fk_highest s fc Hfc).
  destruct (direct_round_spec fc1 s round Hv Hfc1) as (fc2 & Hfc2 & Hok2 & Hs2); [by rewrite Hs1|lia|].
  exists fc2. split_and!; [done..|congruence].
Qed.

(** ** The indirect pass *)

Definition is_skip (ls : LeaderSlot) : Prop := ∃ slot, lsl_leader_status ls = LSkip slot.

(** The anchor found is the first committed slot, after skipped slots only. *)
Lemma find_anchor_in_round_spec slots anchor :
  find_anchor_in_round slots = Some (Some anchor) →
  ∃ before ls after, slots = before ++ ls :: after ∧ lsl_leader_status ls = LCommit anchor ∧ Forall is_skip before.
Proof.
  induction slots as [|ls slots IH]; cbn [find_anchor_in_round]; [done|].
  destruct (lsl_leader_status ls) as [b|slot|slot] eqn:Hst; [intros [= ->]|intros Hf|done].
  - by exists [], ls, slots.
  - destruct (IH Hf) as (before & ls' & after & -> & Hst' & Hsk). exists (ls :: before), ls', after.
    split_and!; [done..|]. constructor; [by exists slot|done].
Qed.

Lemma find_anchor_in_round_none slots : find_anchor_in_round slots = None → Forall is_skip slots.
Proof.
  induction slots as [|ls slots IH]; cbn [find_anchor_in_round]; [constructor|].
  destruct (lsl_leader_status ls) as [b|slot|slot] eqn:Hst; [done| |done]. intros Hf. constructor; [by exists slot|by apply IH].
Qed.

Lemma find_anchor_loop_spec rounds anchor :
  find_anchor_loop rounds = Some anchor →
  ∃ k rs before ls after, rounds !! k = Some rs ∧ rst_leader_slots rs = before ++ ls :: after ∧
    lsl_leader_status ls = LCommit anchor ∧ Forall is_skip before ∧
    ∀ j rsj, (j < k)%nat → rounds !! j = Some rsj → Forall is_skip (rst_leader_slots rsj).
Proof.
  induction rounds as [|rs rounds IH]; cbn [find_anchor_loop]; [done|].
  destruct (find_anchor_in_round (rst_leader_slots rs)) as [[b|]|] eqn:Ef; [intros [= ->]|done|intros Hf].
  - apply find_anchor_in_round_spec in Ef as (before & ls & after & Heq & Hst & Hsk).
    exists 0%nat, rs, before, ls, after. split_and!; [done..|]. intros. lia.
  - destruct (IH Hf) as (k & rs' & before & ls & after & Hk & Heq & Hst & Hsk & Hbelow).
    exists (Datatypes.S k), rs', before, ls, after. split_and!; [done..|]. intros [|j] rsj Hj Hr.
    + injection Hr as <-. by apply find_anchor_in_round_none.
    + apply (Hbelow j); [lia|done].
Qed.

Lemma skipped_decided s ls : leader_slot_ok s ls → is_skip ls → decided (lsl_slot ls) (LSkip (lsl_slot ls)).
Proof.
  unfold leader_slot_ok. intros Hok [slot Hst]. rewrite Hst in Hok. destruct Hok as [[Hd _] _].
  pose proof (slot_decided_status c G order _ _ Hd) as Hs. simpl in Hs. by rewrite Hs in Hd.
Qed.

(** A slot of the decision round is decided by the anchor that is found for it. *)
Lemma anchor_decides s p anchor start :
  pending_ok s p →
  find_anchor_loop (drop (N.to_nat (start - nc_min_next_leader_round (pcs_next_commit_leaders p))) (pcs_rounds p)) = Some anchor →
  nc_min_next_leader_round (pcs_next_commit_leaders p) ≤ start →
  ds_cached s (reference anchor) = Some anchor ∧ start ≤ b_round anchor ∧ b_round anchor < u32_max ∧
  ∀ slot st, slot_round slot + 2 = start → indirect_decision c G anchor slot st → decided slot st.
Proof.
  intros Hp Hf Hmin. set (min := nc_min_next_leader_round (pcs_next_commit_leaders p)) in *.
  apply find_anchor_loop_spec in Hf as (k & rs & before & ls & after & Hk & Heq & Hst & Hsk & Hbelow).
  rewrite lookup_drop in Hk. destruct (pk_rounds s p Hp _ _ Hk) as [Hround Hok]. fold min in Hround.
  assert (k + N.to_nat (start - min) < length (pcs_rounds p))%nat as Hlt by (apply lookup_lt_Some in Hk; lia).
  pose proof (pk_bound s p Hp) as Hb. fold min in Hb.
  pose proof (rk_each s rs Hok ls ltac:(rewrite Heq; apply elem_of_app; right; left)) as Hls.
  unfold leader_slot_ok in Hls. rewrite Hst in Hls. cbn [LeaderStatus_is_decided] in Hls. destruct Hls as [[Hd Hca] _].
  pose proof (decided_commit c G order _ _ Hd) as [_ Hslot].
  assert (order (rst_round rs) = (lsl_slot <$> before) ++ Slot_from (reference anchor) :: (lsl_slot <$> after)) as Horder.
  { by rewrite <- (rk_slots s rs Hok), Heq, fmap_app, fmap_cons, Hslot. }
  assert (b_round anchor = rst_round rs) as Hanchor.
  { assert (Slot_from (reference anchor) ∈ order (rst_round rs)) as Hin by (rewrite Horder; apply elem_of_app; right; left).
    by apply order_slots in Hin as [Hr _]. }
  split; [by apply Hca|]. split; [lia|]. split; [lia|]. intros slot st Hs Hind.
  apply (decided_indirect c G order slot st (rst_round rs) (lsl_slot <$> before) anchor (lsl_slot <$> after));
    [lia|done|done| | |by rewrite Hslot|done].
  - intros q sl [Hq1 Hq2] Hsl.
    destruct (lookup_lt_is_Some_2 (pcs_rounds p) (N.to_nat (q - min))) as [rq Hrq]; [lia|].
    destruct (pk_rounds s p Hp _ _ Hrq) as [Hrr Hrok]. fold min in Hrr.
    replace q with (rst_round rq) in Hsl by lia. rewrite <- (rk_slots s rq Hrok) in Hsl.
    apply list_elem_of_fmap in Hsl as (lq & -> & Hlq). apply (skipped_decided s); [by apply (rk_each s rq Hrok)|].
    assert (Forall is_skip (rst_leader_slots rq)) as Hall.
    { apply (Hbelow (N.to_nat (q - start))); [lia|]. rewrite lookup_drop. rewrite <- Hrq. f_equal. lia. }
    by apply (proj1 (Forall_forall _ _) Hall).
  - intros sl (l & -> & Hl)%list_elem_of_fmap. apply (skipped_decided s).
    + apply (rk_each s rs Hok). rewrite Heq. apply elem_of_app. by left.
    + by apply (proj1 (Forall_forall _ _) Hsk).
Qed.

(** Updating the slots of a round one after another. *)
Lemma update_slots_spec s rs l dec :
  round_state_ok s rs → (∀ slot st, (slot, st) ∈ l → slot ∈ order (rst_round rs) ∧ justified s slot st) →
  ∃ rs', foldM (λ rs '(slot, status), RoundState_update_slot_decision rs slot status dec) rs l = Ret rs' ∧
    round_state_ok s rs' ∧ rst_round rs' = rst_round rs.
Proof using Hallowed Hrng Hwf Hv3 Hdag Hdist Hmaj.
  revert rs. induction l as [|[slot st] l IH]; intros rs Hok Hl; cbn [foldM]; [by exists rs|].
  destruct (Hl slot st) as [Hin Hj]; [left|]. rewrite <- (rk_slots s rs Hok) in Hin.
  apply list_elem_of_fmap in Hin as (ls & -> & [k Hk]%list_elem_of_lookup_1).
  destruct (update_slot_spec s rs k ls st dec Hok Hk Hj) as (rs1 & ls' & -> & Hok1 & Hr1 & _). cbn [mbind M_bind].
  destruct (IH rs1) as (rs2 & Hrs2 & Hok2 & Hr2); [done| |].
  - intros slot' st' Hin'. rewrite Hr1. apply Hl. by right.
  - exists rs2. split_and!; [done..|congruence].
Qed.

Lemma decide_with_anchor_spec fc s anchor round :
  v3_view c G s → fc_ok s fc → nc_min_next_leader_round (fc_schedule fc) ≤ round →
  ds_cached s (reference anchor) = Some anchor → round + 2 ≤ b_round anchor → b_round anchor < u32_max →
  (∀ slot st, slot_round slot + 2 = round + 2 → indirect_decision c G anchor slot st → decided slot st) →
  ∃ fc', FlexCommitter_decide_with_anchor_block fc s anchor round = Ret fc' ∧ fc_ok s fc' ∧
    fc_schedule fc' = fc_schedule fc.
Proof using Hallowed Hrng Hwf Hv3 Hdag Hdist Hmaj.
  intros Hv Hfc Hmin Hca Hle Hmax Hdec. unfold FlexCommitter_decide_with_anchor_block.
  destruct (get_or_create_spec s (fc_pending_commit_state fc) round) as (rounds & k & rs & -> & Hp & Hk & Hround & Hok);
    [apply Hfc|done|lia|]. cbn [mbind M_bind].
  destruct (bool_decide (rst_undecided_slots rs = ∅)) eqn:Hu; [eexists; split; [done|]; by apply set_pending_ok|].
  apply bool_decide_eq_false in Hu. apply set_choose_L in Hu as [slot0 Hslot0]. cbv zeta.
  rewrite (rk_slots s rs Hok), Hround.
  destruct (slot_indirect_decide_spec c G Hwf Hv3 Hdag byz Hmaj s Hv (fc_slot_decider fc) anchor (order round) round)
    as (sts & -> & Hsts); [apply Hfc| |by intros slot [? _]%order_slots| |done|lia|done|].
  { apply (rk_undecided s rs Hok) in Hslot0 as (ls & Hls & _). intros Hnil.
    assert (lsl_slot ls ∈ order round) as Hin by (rewrite <- Hround, <- (rk_slots s rs Hok); by apply list_elem_of_fmap_2).
    rewrite Hnil in Hin. by apply not_elem_of_nil in Hin. }
  { pose proof (fk_gc s fc Hfc). unfold fc_schedule in Hmin. lia. }
  cbn [mbind M_bind]. rewrite (Forall2_length _ _ _ Hsts), Nat.eqb_refl. cbn [assert_that mbind M_bind].
  destruct (update_slots_spec s rs (zip (order round) sts) Indirect Hok) as (rs' & -> & Hok' & Hr').
  { rewrite Hround. intros slot st (i & Hi)%list_elem_of_lookup_1. rewrite lookup_zip_with in Hi.
    apply bind_Some in Hi as (x & Hx & Hi). apply bind_Some in Hi as (y & Hy & [= <- <-]).
    destruct (Forall2_lookup_lr _ _ _ _ _ _ Hsts Hx Hy) as [Hind Hc].
    assert (x ∈ order round) as Hin by (by eapply list_elem_of_lookup_2). split; [done|]. split; [|done].
    apply Hdec; [|done]. apply order_slots in Hin as [-> _]. done. }
  cbn [mbind M_bind]. eexists. split; [done|]. apply set_pending_ok; [done..|]. by apply (put_round_ok s _ k rs).
Qed.

Lemma try_indirect_commit_spec fc s :
  v3_view c G s → fc_ok s fc →
  ∃ fc', FlexCommitter_try_indirect_commit fc s = Ret fc' ∧ fc_ok s fc' ∧ fc_schedule fc' = fc_schedule fc.
Proof using Hallowed Hrng Hwf Hv3 Hdag Hdist Hmaj.
  intros Hv Hfc. unfold FlexCommitter_try_indirect_commit.
  apply (foldM_returns _ (λ fc', fc_ok s fc' ∧ fc_schedule fc' = fc_schedule fc)); [|done].
  intros fc1 round Hin [Hfc1 Hs1]. rewrite elem_of_reverse in Hin. apply round_interval_elem in Hin as [Hle Hlt].
  pose proof (fk_highest s fc Hfc) as Hh. pose proof (fk_gc s fc Hfc) as Hgc. unfold indirect_round, INDIRECT_COMMIT_DEPTH in *.
  fold (fc_schedule fc) in Hle, Hgc. rewrite <- Hs1 in Hle, Hgc.
  arith. unfold FlexCommitter_find_anchor_block. cbv zeta.
  fold (fc_schedule fc1). arith.
  destruct (find_anchor_loop _) as [anchor|] eqn:Ha; [|by exists fc1].
  destruct (anchor_decides s (fc_pending_commit_state fc1) anchor (round + 2)) as (Hca & Hstart & Hmax & Hdec);
    [apply Hfc1|done|unfold fc_schedule in Hle; lia|].
  destruct (decide_with_anchor_spec fc1 s anchor round Hv Hfc1 Hle Hca Hstart Hmax Hdec) as (fc2 & Hfc2 & Hok2 & Hs2).
  exists fc2. split_and!; [done..|congruence].
Qed.

End FlexRounds.
