(* ===== verification/FlexLeaders.v ===== *)
(** * The leaders that the flex committer commits

    The next commit is made of the committed leaders of the first round with one,
    once all slots up to this round are decided; two committers with the same
    schedule choose the same round and the same leaders, in the same order. *)

From S2P Require Import Prelude BTree Config Block Commit Store StakeAggregator ThresholdClock.
From S2P Require Import LeaderScoring DagState DagTheory DagTraversal LeaderSchedule CommitRule Linearizer.
From S2P Require Import V3Metadata SlotRule LeaderSlotDecider SlotDeciderTheory LeaderScheduleV3 FlexCommitter FlexRounds.
Local Open Scope N_scope.

(** The committed blocks among the slots of a round. *)
Definition committed_block (ls : LeaderSlot) : option VerifiedBlock :=
  match lsl_leader_status ls with LCommit b => Some b | _ => None end.
Definition committed_leaders (slots : list LeaderSlot) : list VerifiedBlock := omap committed_block slots.

Definition all_decided (slots : list LeaderSlot) : Prop :=
  Forall (λ ls, LeaderStatus_is_decided (lsl_leader_status ls) = true) slots.

Lemma collect_committed_decided slots : all_decided slots → collect_committed_leaders slots = Ret (committed_leaders slots).
Proof.
  induction 1 as [|ls slots Hd _ IH]; [done|]. cbn [collect_committed_leaders committed_leaders omap list_omap].
  unfold committed_block at 1. destruct (lsl_leader_status ls) as [b|sl|sl]; [|done|done]. by rewrite IH.
Qed.

Section FlexLeaders.
Context `{Profile} `{Crypto} `{Rng} `{Hrng : !RngLaws} {S : Type} `{StoreLaws S}.
Context (c : Committee) (G : BlockRef → option VerifiedBlock).
Context (allowed : list AuthorityIndex) (Hallowed : NoDup allowed).
Context (Hwf : Committee_wf c) (Hv3 : v3_thresholds c) (Hdag : dag_valid c G) (Hdist : distinct_ancestors G).
Context (byz : gset AuthorityIndex) (Hmaj : honest_majority c G byz).
Implicit Types (s : DagState S) (b : VerifiedBlock) (rs : RoundState) (p : PendingCommitState).

Abbreviation order := (leader_order allowed) (only parsing).
Abbreviation decided := (decided c G order) (only parsing).
Abbreviation round_state_ok := (round_state_ok c G allowed) (only parsing).
Abbreviation pending_ok := (pending_ok c G allowed) (only parsing).

Lemma no_undecided s rs : round_state_ok s rs → rst_undecided_slots rs = ∅ → all_decided (rst_leader_slots rs).
Proof using.
  intros Hok He. apply Forall_forall. intros ls Hls. apply not_false_iff_true. intros Hd.
  apply (not_elem_of_empty (C := gset Slot) (lsl_slot ls)). rewrite <- He. apply (rk_undecided _ _ _ _ _ Hok). by exists ls.
Qed.

(** In a decided round without a committed leader every slot is skipped. *)
Lemma no_commit_skipped s rs :
  round_state_ok s rs → all_decided (rst_leader_slots rs) → rst_num_committed rs = 0 → Forall is_skip (rst_leader_slots rs).
Proof using.
  intros Hok Hd Hn. rewrite (rk_committed _ _ _ _ _ Hok) in Hn. apply Forall_forall. intros ls Hls.
  pose proof (proj1 (Forall_forall _ _) Hd ls Hls) as Hdl. simpl in Hdl. unfold is_skip.
  destruct (lsl_leader_status ls) as [b|sl|sl] eqn:Hst; [|by exists sl|done].
  assert (ls ∈ commits_in (rst_leader_slots rs)) as Hin.
  { apply list_elem_of_filter. split; [by rewrite Hst|done]. }
  destruct (commits_in (rst_leader_slots rs)) as [|x l]; [by apply not_elem_of_nil in Hin|]. simpl in Hn. lia.
Qed.

(** The round of the next commit. *)
Record commit_round s p (r : Round) (k : nat) (rs : RoundState) : Prop := {
  cr_lookup : pcs_rounds p !! k = Some rs;
  cr_round : rst_round rs = r;
  cr_ok : round_state_ok s rs;
  cr_decided : all_decided (rst_leader_slots rs);
  cr_commits : committed_leaders (rst_leader_slots rs) ≠ [];
  cr_before : ∀ j rsj, (j < k)%nat → pcs_rounds p !! j = Some rsj → Forall is_skip (rst_leader_slots rsj);
}.

Lemma commits_leaders slots : commits_in slots ≠ [] → committed_leaders slots ≠ [].
Proof using.
  intros Hne Hnil. destruct (commits_in slots) as [|ls l] eqn:E; [done|].
  assert (ls ∈ ls :: l) as Hin by left. rewrite <- E in Hin. apply list_elem_of_filter in Hin as [Hc Hin].
  destruct (lsl_leader_status ls) as [b|sl|sl] eqn:Hst; try done.
  apply (not_elem_of_nil b). rewrite <- Hnil. apply list_elem_of_omap. exists ls. split; [done|]. unfold committed_block. by rewrite Hst.
Qed.

Lemma find_commit_spec s p r :
  pending_ok s p → find_commit_loop (pcs_rounds p) = Some r → ∃ k rs, commit_round s p r k rs.
Proof using.
  intros Hp Hf.
  assert (∀ rounds, (∀ rs, rs ∈ rounds → round_state_ok s rs) → find_commit_loop rounds = Some r →
    ∃ k rs, rounds !! k = Some rs ∧ rst_round rs = r ∧ all_decided (rst_leader_slots rs) ∧
      committed_leaders (rst_leader_slots rs) ≠ [] ∧
      ∀ j rsj, (j < k)%nat → rounds !! j = Some rsj → Forall is_skip (rst_leader_slots rsj)) as Hloop.
  { intros rounds. induction rounds as [|rs rounds IH]; intros Hok; cbn [find_commit_loop]; [done|].
    destruct (bool_decide (rst_undecided_slots rs = ∅)) eqn:Hu; cbn [negb]; [|done]. apply bool_decide_eq_true in Hu.
    pose proof (Hok rs ltac:(left)) as Hrs. pose proof (no_undecided s rs Hrs Hu) as Hd.
    destruct (N.ltb_spec 0 (rst_num_committed rs)) as [Hpos|Hz].
    - intros [= <-]. exists 0%nat, rs. split_and!; [done..| |intros; lia]. apply commits_leaders. intros Hnil.
      rewrite (rk_committed _ _ _ _ _ Hrs), Hnil in Hpos. simpl in Hpos. lia.
    - intros Hf'. destruct (IH ltac:(intros; apply Hok; by right) Hf') as (k & rs' & Hk & Hr & Hd' & Hc & Hb).
      exists (Datatypes.S k), rs'. split_and!; [done..|]. intros [|j] rsj Hj Hl.
      + injection Hl as <-. apply (no_commit_skipped s); [done..|lia].
      + apply (Hb j); [lia|done]. }
  destruct (Hloop (pcs_rounds p)) as (k & rs & Hk & Hr & Hd & Hc & Hb); [|done|].
  - intros rs [k Hk]%list_elem_of_lookup_1. by apply (pk_rounds _ _ _ _ _ Hp k).
  - exists k, rs. split; [done..| |done|done|done]. by apply (pk_rounds _ _ _ _ _ Hp k).
Qed.

Lemma leader_decided s ls : leader_slot_ok c G allowed s ls → LeaderStatus_is_decided (lsl_leader_status ls) = true →
  decided (lsl_slot ls) (lsl_leader_status ls).
Proof using. unfold leader_slot_ok. intros Hok Hd. rewrite Hd in Hok. by destruct Hok as [[? _] _]. Qed.

(** Decided slots with the same order carry the same statuses. *)
Lemma same_statuses s1 s2 slots1 slots2 :
  lsl_slot <$> slots1 = lsl_slot <$> slots2 → all_decided slots1 → all_decided slots2 →
  (∀ ls, ls ∈ slots1 → leader_slot_ok c G allowed s1 ls) → (∀ ls, ls ∈ slots2 → leader_slot_ok c G allowed s2 ls) →
  lsl_leader_status <$> slots1 = lsl_leader_status <$> slots2.
Proof using Hwf Hv3 Hdag Hdist Hmaj.
  revert slots2. induction slots1 as [|ls1 slots1 IH]; intros [|ls2 slots2] Hs Hd1 Hd2 Hok1 Hok2; [done..|].
  csimpl in *. injection Hs as Hs Hrest. apply Forall_cons in Hd1 as [Hd1 Hr1]. apply Forall_cons in Hd2 as [Hd2 Hr2].
  f_equal; [|apply IH; [done..|intros; apply Hok1; by right|intros; apply Hok2; by right]].
  apply (decided_agree c G Hwf Hv3 Hdag Hdist byz Hmaj order (lsl_slot ls1)).
  - apply (leader_decided s1); [apply Hok1; left|done].
  - rewrite Hs. apply (leader_decided s2); [apply Hok2; left|done].
Qed.

Lemma committed_leaders_statuses slots1 slots2 :
  lsl_leader_status <$> slots1 = lsl_leader_status <$> slots2 → committed_leaders slots1 = committed_leaders slots2.
Proof using.
  revert slots2. induction slots1 as [|ls1 slots1 IH]; intros [|ls2 slots2] Hs; [done..|].
  csimpl in Hs. injection Hs as Hs Hrest. cbn [committed_leaders omap list_omap].
  assert (committed_block ls1 = committed_block ls2) as -> by (unfold committed_block; by rewrite Hs).
  apply IH in Hrest. unfold committed_leaders in Hrest. by rewrite Hrest.
Qed.

(** A round with a committed leader at one committer is not all skipped at another. *)
Lemma committed_not_skipped s1 s2 rs1 rs2 :
  round_state_ok s1 rs1 → round_state_ok s2 rs2 → rst_round rs1 = rst_round rs2 → all_decided (rst_leader_slots rs1) →
  committed_leaders (rst_leader_slots rs1) ≠ [] → ¬ Forall is_skip (rst_leader_slots rs2).
Proof using Hwf Hv3 Hdag Hdist Hmaj.
  intros Hok1 Hok2 Hr Hd Hc Hsk. apply Hc. rewrite (committed_leaders_statuses _ (rst_leader_slots rs2)).
  - induction Hsk as [|ls slots [sl Hst] _ IH]; [done|]. cbn [committed_leaders omap list_omap]. unfold committed_block at 1. by rewrite Hst.
  - apply (same_statuses s1 s2); [|done| |apply Hok1|apply Hok2].
    + by rewrite (rk_slots _ _ _ _ _ Hok1), (rk_slots _ _ _ _ _ Hok2), Hr.
    + eapply Forall_impl; [exact Hsk|]. intros ls [sl Hst]. simpl. by rewrite Hst.
Qed.

(** Two committers with the same schedule commit the same leaders. *)
Lemma commit_rounds_agree s1 s2 p1 p2 r1 r2 k1 k2 rs1 rs2 :
  pending_ok s1 p1 → pending_ok s2 p2 →
  nc_min_next_leader_round (pcs_next_commit_leaders p1) = nc_min_next_leader_round (pcs_next_commit_leaders p2) →
  commit_round s1 p1 r1 k1 rs1 → commit_round s2 p2 r2 k2 rs2 →
  r1 = r2 ∧ committed_leaders (rst_leader_slots rs1) = committed_leaders (rst_leader_slots rs2).
Proof using Hwf Hv3 Hdag Hdist Hmaj.
  intros Hp1 Hp2 Hmin [Hl1 Hr1 Hok1 Hd1 Hc1 Hb1] [Hl2 Hr2 Hok2 Hd2 Hc2 Hb2].
  destruct (pk_rounds _ _ _ _ _ Hp1 _ _ Hl1) as [Hk1 _]. destruct (pk_rounds _ _ _ _ _ Hp2 _ _ Hl2) as [Hk2 _].
  destruct (Nat.lt_trichotomy k1 k2) as [Hlt|[->|Hlt]].
  - exfalso. destruct (lookup_lt_is_Some_2 (pcs_rounds p2) k1) as [rs Hrs]; [apply lookup_lt_Some in Hl2; lia|].
    destruct (pk_rounds _ _ _ _ _ Hp2 _ _ Hrs) as [Hrr Hrok].
    apply (committed_not_skipped s1 s2 rs1 rs); [done..|congruence|done|done|]. by apply (Hb2 k1).
  - assert (rst_round rs1 = rst_round rs2) as Hround by congruence. split; [congruence|].
    apply committed_leaders_statuses, (same_statuses s1 s2); [|done|done|apply Hok1|apply Hok2].
    by rewrite (rk_slots _ _ _ _ _ Hok1), (rk_slots _ _ _ _ _ Hok2), Hround.
  - exfalso. destruct (lookup_lt_is_Some_2 (pcs_rounds p1) k2) as [rs Hrs]; [apply lookup_lt_Some in Hl1; lia|].
    destruct (pk_rounds _ _ _ _ _ Hp1 _ _ Hrs) as [Hrr Hrok].
    apply (committed_not_skipped s2 s1 rs2 rs); [done..|congruence|done|done|]. by apply (Hb1 k2).
Qed.

(** ** The committed leaders *)

Lemma committed_leader_spec s rs b :
  round_state_ok s rs → b ∈ committed_leaders (rst_leader_slots rs) →
  ds_cached s (reference b) = Some b ∧ G (reference b) = Some b ∧ b_round b = rst_round rs ∧ b_author b ∈ allowed.
Proof using Hrng.
  intros Hok (ls & Hls & Hb)%list_elem_of_omap. unfold committed_block in Hb.
  destruct (lsl_leader_status ls) as [b'|sl|sl] eqn:Hst; [injection Hb as ->|done..].
  pose proof (rk_each _ _ _ _ _ Hok ls Hls) as Hok'. unfold leader_slot_ok in Hok'. rewrite Hst in Hok'.
  destruct Hok' as [[Hd Hca] _]. pose proof (decided_commit c G order _ _ Hd) as [HG Hslot].
  assert (lsl_slot ls ∈ order (rst_round rs)) as Hin by (rewrite <- (rk_slots _ _ _ _ _ Hok); by apply list_elem_of_fmap_2).
  rewrite <- Hslot in Hin. apply order_slots in Hin as [Hr Ha]. split; [by apply Hca|done].
Qed.

Lemma committed_leaders_NoDup s rs :
  round_state_ok s rs → NoDup ((λ b : VerifiedBlock, b_author b) <$> committed_leaders (rst_leader_slots rs)).
Proof using Hallowed Hrng.
  intros Hok. pose proof (order_NoDup allowed Hallowed (rst_round rs)) as Hnd. rewrite <- (rk_slots _ _ _ _ _ Hok) in Hnd.
  pose proof (rk_each _ _ _ _ _ Hok) as Heach.
  assert (∀ ls, ls ∈ rst_leader_slots rs → slot_round (lsl_slot ls) = rst_round rs) as Hround.
  { intros ls Hls. apply (order_slots allowed (rst_round rs)). rewrite <- (rk_slots _ _ _ _ _ Hok). by apply list_elem_of_fmap_2. }
  clear Hok. revert Hnd Heach Hround. generalize (rst_leader_slots rs) as slots. intros slots.
  induction slots as [|ls slots IH]; intros Hnd Heach Hround; [constructor|]. rewrite fmap_cons in Hnd. apply NoDup_cons in Hnd as [Hn Hnd].
  cbn [committed_leaders omap list_omap].
  specialize (IH Hnd ltac:(intros; apply Heach; by right) ltac:(intros; apply Hround; by right)).
  assert (∀ l b, l ∈ ls :: slots → lsl_leader_status l = LCommit b → Slot_from (reference b) = lsl_slot l) as Hst.
  { intros l b Hl Hb. pose proof (Heach l Hl) as Hok. unfold leader_slot_ok in Hok. rewrite Hb in Hok.
    destruct Hok as [[Hd _] _]. by apply (decided_commit c G order) in Hd as [_ ?]. }
  unfold committed_block at 1. destruct (lsl_leader_status ls) as [b|sl|sl] eqn:Hs; [|done|done].
  rewrite fmap_cons. apply NoDup_cons. split; [|done].
  intros (b' & Ha & (l & Hl & Hb')%list_elem_of_omap)%list_elem_of_fmap. unfold committed_block in Hb'.
  destruct (lsl_leader_status l) as [b''|?|?] eqn:Hsl; [injection Hb' as ->|done..].
  apply Hn, list_elem_of_fmap. exists l. split; [|done].
  pose proof (Hst ls b ltac:(left) Hs) as H1s. pose proof (Hst l b' ltac:(by right) Hsl) as H2s.
  pose proof (Hround ls ltac:(left)) as H1r. pose proof (Hround l ltac:(by right)) as H2r.
  destruct (lsl_slot ls) as [r1 a1], (lsl_slot l) as [r2 a2]. injection H1s as E1 E2. injection H2s as E3 E4.
  cbn [slot_round] in *. congruence.
Qed.

End FlexLeaders.
