(* ===== verification/FlexCollect.v ===== *)
(** * The blocks of a commit under rule v3

    From the committed leaders, the flex committer collects the blocks of their
    histories that are above the garbage collection round and not committed
    before, marks them, and visits each once; two authorities whose marks agree
    collect the same blocks in the same order. *)

From S2P Require Import Prelude BTree Config Block Commit Store StakeAggregator ThresholdClock.
From S2P Require Import LeaderScoring DagState DagTheory DagTraversal LeaderSchedule CommitRule Linearizer.
From S2P Require Import ProposerHistory V3Metadata SlotRule LeaderSlotDecider SlotDeciderTheory LeaderScheduleV3 FlexCommitter.
Local Open Scope N_scope.

Section Marks.
Context `{Profile} `{Crypto} {S : Type} `{StoreLaws S}.
Implicit Types s : DagState S.

Definition committed_ref s (r : BlockRef) : Prop :=
  ∃ info, ds_recent_blocks s !! r = Some info ∧ bi_committed info = true.

Lemma committed_ref_dec s r : committed_ref s r ∨ ¬ committed_ref s r.
Proof.
  unfold committed_ref. destruct (ds_recent_blocks s !! r) as [info|]; [|right; by intros (? & ? & _)].
  destruct (bi_committed info) eqn:E; [left; by exists info|right; intros (i & [= <-] & ?); congruence].
Qed.

(** Only marks differ. *)
Record only_marks s s' : Prop := {
  om_view : same_view s s';
  om_commit : ds_last_commit s' = ds_last_commit s;
  om_rounds : ds_round_info s' = ds_round_info s;
  om_highest : ds_highest_accepted_round s' = ds_highest_accepted_round s;
  om_recent : ∀ r, bi_votes <$> ds_recent_blocks s' !! r = bi_votes <$> ds_recent_blocks s !! r;
}.

Lemma only_marks_refl s : only_marks s s.
Proof. by split. Qed.

Lemma only_marks_trans s1 s2 s3 : only_marks s1 s2 → only_marks s2 s3 → only_marks s1 s3.
Proof.
  intros [[] Hc1 Hr1 Hh1 Hv1] [[] Hc2 Hr2 Hh2 Hv2]. split; [split|..]; congruence.
Qed.

Lemma only_marks_gc s s' : only_marks s s' → DagState_gc_round s' = DagState_gc_round s.
Proof. intros [[] ? _ _ _]. by apply gc_round_same. Qed.

Lemma only_marks_v3 s s' : only_marks s s' → v3_meta s → v3_meta s'.
Proof.
  intros [[] Hc Hr Hh Hv]. apply v3_meta_view; [|done]. by apply same_votes_recent.
Qed.

Lemma only_marks_ok s s' : only_marks s s' → ds_ok s → ds_ok s'.
Proof. intros Hm. apply same_view_ok; [apply Hm|]. by rewrite (only_marks_gc s s'). Qed.

Lemma only_marks_view c G s s' : only_marks s s' → v3_view c G s → v3_view c G s'.
Proof.
  intros Hm [Hok Hmeta Hc Hsub]. split; [by apply (only_marks_ok s)|by apply (only_marks_v3 s)| |].
  - unfold DagState_committee in *. by rewrite (sv_context _ _ (om_view _ _ Hm)).
  - intros r b. rewrite (same_view_block s s') by apply Hm. apply Hsub.
Qed.

(** [set_committed] on a cached block. *)
Lemma set_committed_cached s r info :
  ds_recent_blocks s !! r = Some info →
  ∃ s', DagState_set_committed s r = Ret (s', negb (bi_committed info)) ∧ only_marks s s' ∧
    (∀ r', committed_ref s' r' ↔ committed_ref s r' ∨ r' = r) ∧
    (bi_committed info = true → s' = s).
Proof.
  intros Hr. unfold DagState_set_committed. rewrite Hr. destruct (bi_committed info) eqn:Hc; cbn [negb].
  - exists s. split_and!; [done|apply only_marks_refl| |done]. intros r'. split; [by left|]. intros [?| ->]; [done|by exists info].
  - eexists. split; [done|]. split_and!; [| |done].
    + split; [|done..|].
      * apply same_view_recent. intros r'. destruct (decide (r = r')) as [<-|]; [by rewrite lookup_insert_eq, Hr|by rewrite lookup_insert_ne].
      * intros r'. simpl. destruct (decide (r = r')) as [<-|]; [by rewrite lookup_insert_eq, Hr|by rewrite lookup_insert_ne].
    + intros r'. unfold committed_ref. simpl. destruct (decide (r = r')) as [<-|Hne].
      * rewrite lookup_insert_eq. split; [by right|]. intros _. by eexists.
      * rewrite lookup_insert_ne by done. naive_solver.
Qed.

(** The blocks that are not committed. *)
Definition uncommitted s : gset BlockRef :=
  dom (filter (λ e : BlockRef * BlockInfo, bi_committed e.2 = false) (ds_recent_blocks s)).

Lemma uncommitted_spec s r : r ∈ uncommitted s ↔ is_Some (ds_recent_blocks s !! r) ∧ ¬ committed_ref s r.
Proof.
  unfold uncommitted, committed_ref. rewrite elem_of_dom. split.
  - intros [info [Hi Hc]%map_lookup_filter_Some]. split; [by eexists|]. intros (i & Hi' & Hc'). simpl in *. congruence.
  - intros [[info Hi] Hn]. exists info. apply map_lookup_filter_Some. split; [done|]. simpl.
    destruct (bi_committed info) eqn:Hc; [|done]. destruct Hn. by exists info.
Qed.

Lemma uncommitted_size s : (size (uncommitted s) ≤ size (ds_recent_blocks s))%nat.
Proof.
  rewrite <- (size_dom (D := gset BlockRef)). apply subseteq_size. intros r Hr%uncommitted_spec. apply elem_of_dom, Hr.
Qed.

(** Marking one block makes it one less. *)
Lemma uncommitted_mark s s' r :
  (∀ r', is_Some (ds_recent_blocks s' !! r') ↔ is_Some (ds_recent_blocks s !! r')) →
  (∀ r', committed_ref s' r' ↔ committed_ref s r' ∨ r' = r) → r ∈ uncommitted s →
  size (uncommitted s) = Datatypes.S (size (uncommitted s')).
Proof.
  intros Hd Hm Hr. assert (uncommitted s' = uncommitted s ∖ {[r]}) as ->.
  { apply set_eq. intros r'. rewrite elem_of_difference, elem_of_singleton, !uncommitted_spec, Hd, Hm. tauto. }
  rewrite size_difference by (by apply singleton_subseteq_l). rewrite size_singleton.
  assert (size (uncommitted s) ≠ 0%nat) by (intros E%size_empty_inv; by apply E in Hr). lia.
Qed.

Lemma only_marks_known s s' r :
  only_marks s s' → is_Some (ds_recent_blocks s' !! r) ↔ is_Some (ds_recent_blocks s !! r).
Proof.
  intros [_ _ _ _ Hv]. rewrite <- (fmap_is_Some bi_votes), Hv. apply fmap_is_Some.
Qed.

End Marks.

(** ** The search from the leaders *)

Section Collect.
Context `{Profile} `{Crypto} {S : Type} `{StoreLaws S}.
Context (c : Committee) (G : BlockRef → option VerifiedBlock) (Hdag : dag_valid c G).
Context (s0 : DagState S) (Hv : v3_view c G s0) (leaders : list VerifiedBlock).
Implicit Types (s : DagState S) (b : VerifiedBlock) (found to_visit : list VerifiedBlock).

(** From a block to an ancestor that is not committed before. *)
Definition new_link (r a : BlockRef) : Prop :=
  ∃ b, G r = Some b ∧ a ∈ b_ancestors b ∧ DagState_gc_round s0 < br_round a ∧ ¬ committed_ref s0 a.

(** The new blocks of the commit. *)
Definition in_commit (r : BlockRef) : Prop := ∃ l, l ∈ leaders ∧ rtc new_link (reference l) r.

(** [found] are the blocks marked so far; the ancestors [owed] have been followed. *)
Record collect_inv (owed : BlockRef → Prop) s found : Prop := {
  ci_marks : only_marks s0 s;
  ci_committed : ∀ r, committed_ref s r ↔ committed_ref s0 r ∨ r ∈ reference <$> found;
  ci_known : ∀ b, b ∈ found → ds_cached s0 (reference b) = Some b ∧ DagState_gc_round s0 < b_round b ∧
                              ¬ committed_ref s0 (reference b);
  ci_owed : ∀ a, owed a → DagState_gc_round s0 < br_round a → committed_ref s a;
  ci_reach : ∀ b, b ∈ found → in_commit (reference b);
  ci_NoDup : NoDup (reference <$> found);
}.

Lemma collect_inv_perm owed s found found' :
  found ≡ₚ found' → collect_inv owed s found → collect_inv owed s found'.
Proof.
  intros Hp [Hm Hc Hk Ho Hr Hn]. split; [done|intros r; by rewrite <- Hp|intros b; rewrite <- Hp; apply Hk|done| |by rewrite <- Hp].
  intros b. rewrite <- Hp. apply Hr.
Qed.

Lemma collect_inv_owed owed owed' s found :
  (∀ a, owed' a → owed a) → collect_inv owed s found → collect_inv owed' s found.
Proof. intros Himp [Hm Hc Hk Ho Hr Hn]. split; auto. Qed.

Lemma collect_view owed s found : collect_inv owed s found → v3_view c G s.
Proof using Hv. intros [Hm _ _ _ _ _]. by apply (only_marks_view c G s0). Qed.

(** The steps left: blocks to visit, and blocks that may still be marked. *)
Definition collect_steps s to_visit : nat := length to_visit + size (uncommitted s).

Lemma visit_ancestor_spec owed s done to_visit b a :
  collect_inv owed s (done ++ to_visit) → b ∈ done → a ∈ b_ancestors b →
  ∃ s' to_visit', visit_ancestor (DagState_gc_round s0) (s, to_visit) a = Ret (s', to_visit') ∧
    collect_inv (λ x, owed x ∨ x = a) s' (done ++ to_visit') ∧
    collect_steps s' to_visit' = collect_steps s to_visit ∧ (∃ more, to_visit' = more ++ to_visit).
Proof using Hv Hdag.
  intros Hinv Hb Ha. cbn [visit_ancestor].
  destruct (N.leb_spec (br_round a) (DagState_gc_round s0)) as [Hle|Hgt].
  { exists s, to_visit. split; [done|]. split; [|by split; [|exists []]]. destruct Hinv as [Hm Hc Hk Ho Hr Hn]. split; try done.
    intros x [Hx| ->] Hgt; [by apply Ho|lia]. }
  destruct (ci_known _ _ _ Hinv b ltac:(apply elem_of_app; by left)) as (Hbc & _ & _).
  destruct (view_cached c G s0 _ b Hv Hbc) as [HGb Hbb].
  destruct (v3_view_ancestor c G s0 _ b a Hv Hbb Ha Hgt) as (ba & Hca & Hba & HGa).
  assert (reference ba = a) as Hra by (by apply (dv_ref c G Hdag)).
  pose proof (ci_marks _ _ _ Hinv) as Hm.
  assert (is_Some (ds_recent_blocks s !! a)) as [info Hi].
  { apply (only_marks_known s0 s a Hm). apply cached_recent. by eexists. }
  destruct (set_committed_cached s a info Hi) as (s' & -> & Hm' & Hcom' & Hsame). cbn [mbind M_bind].
  destruct (bi_committed info) eqn:Hci; cbn [negb].
  - rewrite (Hsame eq_refl). exists s, to_visit. split; [done|]. split; [|by split; [|exists []]].
    destruct Hinv as [_ Hc Hk Ho Hr Hn]. split; try done. intros x [Hx| ->] Hx'; [by apply Ho|by exists info].
  - assert (only_marks s0 s') as Hm2 by (by apply (only_marks_trans s0 s)).
    rewrite get_block_spec by (apply (only_marks_view c G s0 s' Hm2 Hv)).
    rewrite (same_view_block s0 s') by apply Hm2. rewrite Hba. cbn [mbind M_bind expect].
    exists s', (ba :: to_visit). split; [done|].
    assert (¬ committed_ref s a) as Hna by (intros (i & Hi' & ?); congruence).
    split_and!; [|unfold collect_steps; cbn [length]; rewrite (uncommitted_mark s s' a); [lia| |done|]|by exists [ba]].
    + apply (collect_inv_perm _ _ (ba :: done ++ to_visit)); [by rewrite Permutation_middle|].
      destruct Hinv as [_ Hc Hk Ho Hr Hn]. split; [done| | | | |].
      * intros r. rewrite Hcom', Hc, fmap_cons, elem_of_cons, Hra. tauto.
      * intros x [->|Hx]%elem_of_cons; [|by apply Hk]. rewrite Hra. split_and!; [done| |].
        -- rewrite <- Hra in Hgt. exact Hgt.
        -- intros Hc0. apply Hna, Hc. by left.
      * intros x Hx Hxg. apply Hcom'. destruct Hx as [Hx| ->]; [left; by apply Ho|by right].
      * intros x [->|Hx]%elem_of_cons; [|by apply Hr]. destruct (Hr b) as (l & Hl & Hreach); [apply elem_of_app; by left|].
        exists l. split; [done|]. eapply rtc_r; [exact Hreach|]. rewrite Hra. exists b. split_and!; [done..|].
        intros Hc0. apply Hna, Hc. by left.
      * rewrite fmap_cons. apply NoDup_cons. split; [|done]. rewrite Hra. intros Hin. apply Hna, Hc. by right.
    + intros r'. by apply only_marks_known.
    + apply uncommitted_spec. split; [by eexists|done].
Qed.

Lemma visit_ancestors_spec owed s done to_visit b seen rest :
  collect_inv (λ x, owed x ∨ x ∈ seen) s (done ++ to_visit) → b ∈ done → seen ++ rest = b_ancestors b →
  ∃ s' to_visit', foldM (visit_ancestor (DagState_gc_round s0)) (s, to_visit) rest = Ret (s', to_visit') ∧
    collect_inv (λ x, owed x ∨ x ∈ b_ancestors b) s' (done ++ to_visit') ∧
    collect_steps s' to_visit' = collect_steps s to_visit ∧ (∃ more, to_visit' = more ++ to_visit).
Proof using Hv Hdag.
  revert s to_visit seen. induction rest as [|a rest IH]; intros s to_visit seen Hinv Hb Heq; cbn [foldM].
  { rewrite app_nil_r in Heq. rewrite <- Heq. exists s, to_visit. by split_and!; [..|exists []]. }
  destruct (visit_ancestor_spec _ s done to_visit b a Hinv Hb) as (s1 & tv1 & -> & Hinv1 & Hst1 & more1 & ->).
  { rewrite <- Heq. apply elem_of_app. right. left. }
  cbn [mbind M_bind]. destruct (IH s1 (more1 ++ to_visit) (seen ++ [a])) as (s2 & tv2 & Hf & Hinv2 & Hst2 & more2 & ->).
  - eapply collect_inv_owed; [|exact Hinv1]. intros x. rewrite elem_of_app, list_elem_of_singleton. tauto.
  - done.
  - by rewrite <- app_assoc.
  - exists s2, (more2 ++ more1 ++ to_visit). split_and!; [done..|congruence|]. exists (more2 ++ more1). by rewrite app_assoc.
Qed.

Definition followed_by (done : list VerifiedBlock) (a : BlockRef) : Prop := ∃ b, b ∈ done ∧ a ∈ b_ancestors b.

Lemma collect_loop_spec fuel s to_visit to_commit :
  collect_inv (followed_by to_commit) s (to_commit ++ to_visit) → (collect_steps s to_visit < fuel)%nat →
  ∃ s' found, collect_loop fuel (DagState_gc_round s0) s to_visit to_commit = Ret (s', found) ∧
    collect_inv (followed_by found) s' found ∧ (∀ b, b ∈ to_commit ++ to_visit → b ∈ found).
Proof using Hv Hdag.
  revert s to_visit to_commit. induction fuel as [|fuel IH]; intros s to_visit to_commit Hinv Hfuel; [lia|].
  cbn [collect_loop]. destruct to_visit as [|b to_visit].
  { rewrite app_nil_r in *. by exists s, to_commit. }
  destruct (visit_ancestors_spec (followed_by to_commit) s (to_commit ++ [b]) to_visit b [] (b_ancestors b))
    as (s1 & tv1 & -> & Hinv1 & Hst1 & more & ->).
  - rewrite <- app_assoc. eapply collect_inv_owed; [|exact Hinv]. by intros x [?|?%not_elem_of_nil].
  - apply elem_of_app. right. left.
  - done.
  - cbn [mbind M_bind]. destruct (IH s1 (more ++ to_visit) (to_commit ++ [b])) as (s2 & found & Hl & Hinv2 & Hin).
    + eapply collect_inv_owed; [|exact Hinv1]. intros a (x & [Hx| ->%list_elem_of_singleton]%elem_of_app & Ha); [left; by exists x|by right].
    + rewrite Hst1. unfold collect_steps in *. cbn [length] in Hfuel. lia.
    + exists s2, found. split_and!; [done..|]. intros x Hx. apply Hin. rewrite <- app_assoc.
      apply elem_of_app in Hx as [Hx|[->|Hx]%elem_of_cons]; apply elem_of_app; [by left|right; left|right; right].
      apply elem_of_app. by right.
Qed.

(** What is collected: exactly the new blocks of the leaders' histories. *)
Lemma collected_exact s found :
  collect_inv (followed_by found) s found → (∀ l, l ∈ leaders → l ∈ found) →
  ∀ r, r ∈ reference <$> found ↔ in_commit r.
Proof using Hv.
  intros Hinv Hlead r. split; [intros (b & -> & Hb)%list_elem_of_fmap; by apply (ci_reach _ _ _ Hinv)|].
  intros (l & Hl & Hreach). pattern r. revert r Hreach. apply rtc_ind_r.
  - by apply list_elem_of_fmap_2, Hlead.
  - intros x y _ (b & HGb & Ha & Hgc & Hn) (bx & Hx & Hbx)%list_elem_of_fmap.
    assert (b = bx) as ->.
    { destruct (ci_known _ _ _ Hinv bx Hbx) as (Hc & _ & _). apply (view_cached c G s0 _ _ Hv) in Hc as [HG _]. congruence. }
    assert (committed_ref s y) as Hcom by (apply (ci_owed _ _ _ Hinv); [by exists bx|done]).
    apply (ci_committed _ _ _ Hinv) in Hcom as [?|?]; done.
Qed.

Lemma mark_leader_spec gc s (l : VerifiedBlock) :
  gc < b_round l → is_Some (ds_recent_blocks s !! reference l) → ¬ committed_ref s (reference l) →
  ∃ s', mark_leader gc s l = Ret s' ∧ only_marks s s' ∧
    ∀ r, committed_ref s' r ↔ committed_ref s r ∨ r = reference l.
Proof using.
  intros Hgc [info Hi] Hn. unfold mark_leader. rewrite (proj2 (N.ltb_lt _ _) Hgc). cbn [assert_that mbind M_bind].
  destruct (set_committed_cached s (reference l) info Hi) as (s1 & -> & Hm1 & Hc1 & _). cbn [mbind M_bind].
  destruct (bi_committed info) eqn:Hci; [destruct Hn; by exists info|]. by exists s1.
Qed.

(** Marking the leaders. *)
Lemma mark_leaders_spec :
  (∀ l, l ∈ leaders → ds_cached s0 (reference l) = Some l ∧ DagState_gc_round s0 < b_round l ∧
                      ¬ committed_ref s0 (reference l)) →
  NoDup (reference <$> leaders) →
  ∃ s, foldM (mark_leader (DagState_gc_round s0)) s0 leaders = Ret s ∧
    collect_inv (λ _, False) s leaders ∧ (collect_steps s leaders ≤ size (ds_recent_blocks s0))%nat.
Proof using.
  intros Hlead Hnd.
  assert (∀ rest seen s, seen ++ rest = leaders → collect_inv (λ _, False) s seen →
    (collect_steps s seen ≤ size (ds_recent_blocks s0))%nat →
    ∃ s', foldM (mark_leader (DagState_gc_round s0)) s rest = Ret s' ∧ collect_inv (λ _, False) s' leaders ∧
      (collect_steps s' leaders ≤ size (ds_recent_blocks s0))%nat) as Hloop.
  { intros rest. induction rest as [|l rest IH]; intros seen s Heq Hinv Hst; cbn [foldM].
    { rewrite app_nil_r in Heq. subst seen. by exists s. }
    assert (l ∈ leaders) as Hl by (rewrite <- Heq; apply elem_of_app; right; left).
    destruct (Hlead l Hl) as (Hca & Hgc & Hn).
    destruct Hinv as [Hm Hc Hk Ho Hr Hn'].
    assert (is_Some (ds_recent_blocks s !! reference l)) as Hi.
    { apply (only_marks_known s0 s _ Hm), cached_recent. by eexists. }
    assert (reference l ∉ reference <$> seen) as Hnl.
    { rewrite <- Heq, fmap_app, fmap_cons in Hnd. apply NoDup_app in Hnd as (_ & Hd & _). intros Hin. apply (Hd _ Hin). left. }
    assert (¬ committed_ref s (reference l)) as Hns by (intros [?|?]%Hc; done).
    destruct (mark_leader_spec (DagState_gc_round s0) s l Hgc Hi Hns) as (s1 & -> & Hm1 & Hc1). cbn [mbind M_bind].
    destruct (IH (seen ++ [l]) s1) as (s2 & Hf & Hinv2 & Hst2); [by rewrite <- app_assoc| | |by exists s2].
    - split; [by apply (only_marks_trans s0 s)| | |done| |].
      + intros r. rewrite Hc1, Hc, fmap_app, elem_of_app. simpl. rewrite list_elem_of_singleton. tauto.
      + intros b [Hb| ->%list_elem_of_singleton]%elem_of_app; [by apply Hk|done].
      + intros b [Hb| ->%list_elem_of_singleton]%elem_of_app; [by apply Hr|]. exists l. split; [done|apply rtc_refl].
      + rewrite fmap_app. apply NoDup_app. split_and!; [done| |apply NoDup_singleton].
        intros r Hin ->%list_elem_of_singleton. done.
    - unfold collect_steps in *. rewrite length_app. cbn [length].
      rewrite (uncommitted_mark s s1 (reference l)) in Hst; [lia| |done|].
      + intros r'. by apply only_marks_known.
      + by apply uncommitted_spec. }
  apply (Hloop leaders [] s0); [done| |unfold collect_steps; cbn [length]; pose proof (uncommitted_size s0); lia].
  split; [apply only_marks_refl| |by intros b ?%not_elem_of_nil|done|by intros b ?%not_elem_of_nil|constructor].
  intros r. split; [by left|]. by intros [?|?%not_elem_of_nil].
Qed.

End Collect.

(** ** Two authorities *)

Section Twins.
Context `{Profile} `{Crypto} {S : Type} `{StoreLaws S}.
Context (c : Committee) (G : BlockRef → option VerifiedBlock).
Implicit Types (s t : DagState S) (b : VerifiedBlock).

(** Two states with the same garbage collection round, whose marks agree on the
    blocks that both have. *)
Record twins s t : Prop := {
  tw_view1 : v3_view c G s;
  tw_view2 : v3_view c G t;
  tw_gc : DagState_gc_round t = DagState_gc_round s;
  tw_marks : ∀ r i j, DagState_gc_round s < br_round r → ds_recent_blocks s !! r = Some i →
    ds_recent_blocks t !! r = Some j → bi_committed i = bi_committed j;
}.

Lemma twins_committed s t r :
  twins s t → DagState_gc_round s < br_round r → is_Some (ds_recent_blocks s !! r) → is_Some (ds_recent_blocks t !! r) →
  committed_ref s r ↔ committed_ref t r.
Proof.
  intros Htw Hgc [i Hi] [j Hj]. pose proof (tw_marks s t Htw r i j Hgc Hi Hj) as Heq. unfold committed_ref. split.
  - intros (i' & Hi' & Hc). exists j. split; [done|congruence].
  - intros (j' & Hj' & Hc). exists i. split; [done|congruence].
Qed.

Lemma twins_mark s t r s' t' f g :
  twins s t → DagState_gc_round s < br_round r →
  DagState_set_committed s r = Ret (s', f) → DagState_set_committed t r = Ret (t', g) → f = g ∧ twins s' t'.
Proof.
  intros Htw Hgc Hs Ht.
  assert (∃ i, ds_recent_blocks s !! r = Some i) as [i Hi].
  { unfold DagState_set_committed in Hs. destruct (ds_recent_blocks s !! r); [by eexists|done]. }
  assert (∃ j, ds_recent_blocks t !! r = Some j) as [j Hj].
  { unfold DagState_set_committed in Ht. destruct (ds_recent_blocks t !! r); [by eexists|done]. }
  destruct (set_committed_cached s r i Hi) as (s1 & Es & Hms & Hcs & _). rewrite Hs in Es. injection Es as <- ->.
  destruct (set_committed_cached t r j Hj) as (t1 & Et & Hmt & Hct & _). rewrite Ht in Et. injection Et as <- ->.
  pose proof (tw_marks s t Htw r i j Hgc Hi Hj) as Hij. split; [by rewrite Hij|].
  split; [by apply (only_marks_view c G s), Htw|by apply (only_marks_view c G t), Htw| |].
  - rewrite (only_marks_gc s s'), (only_marks_gc t t'), (tw_gc s t Htw) by done. done.
  - rewrite (only_marks_gc s s') by done. intros r' i' j' Hgc' Hi' Hj'.
    assert (is_Some (ds_recent_blocks s !! r')) as Hks by (apply (only_marks_known s s'); [done|by eexists]).
    assert (is_Some (ds_recent_blocks t !! r')) as Hkt by (apply (only_marks_known t t'); [done|by eexists]).
    pose proof (twins_committed s t r' Htw Hgc' Hks Hkt) as Hiff.
    assert (committed_ref s' r' ↔ committed_ref t' r') as Hiff' by (rewrite Hcs, Hct, Hiff; done).
    unfold committed_ref in Hiff'. rewrite Hi', Hj' in Hiff'.
    destruct (bi_committed i') eqn:E1, (bi_committed j') eqn:E2; try done.
    + destruct (proj1 Hiff') as (x & [= <-] & ?); [by exists i'|congruence].
    + destruct (proj2 Hiff') as (x & [= <-] & ?); [by exists j'|congruence].
Qed.

Lemma twins_leaders gc leaders s t s' t' :
  twins s t → gc = DagState_gc_round s →
  foldM (mark_leader gc) s leaders = Ret s' → foldM (mark_leader gc) t leaders = Ret t' →
  twins s' t' ∧ gc = DagState_gc_round s'.
Proof.
  intros Htw Hgc. revert s t Htw Hgc.
  induction leaders as [|l leaders IH]; intros s t Htw Hgc; cbn [foldM]; [by intros [= <-] [= <-]|].
  intros (s1 & Hs1 & Hs)%bind_Ret (t1 & Ht1 & Ht)%bind_Ret. unfold mark_leader in Hs1, Ht1.
  apply bind_Ret in Hs1 as ([] & Hgt & Hs1). apply assert_that_Ret in Hgt. nbool.
  apply bind_Ret in Ht1 as ([] & _ & Ht1).
  apply bind_Ret in Hs1 as ([s2 f] & Hs2 & Hs1). apply bind_Ret in Hs1 as ([] & _ & [= <-]).
  apply bind_Ret in Ht1 as ([t2 g] & Ht2 & Ht1). apply bind_Ret in Ht1 as ([] & _ & [= <-]).
  destruct (twins_mark s t (reference l) s2 t2 f g Htw) as [_ Htw2]; [by rewrite <- Hgc|done..|].
  apply (IH s2 t2); [done| |done..]. rewrite Hgc. symmetry. destruct (set_committed_view s _ s2 f Hs2) as [Hv Hl].
  apply gc_round_same; [apply Hv|done].
Qed.

Lemma visit_fresh gc s (tv : list VerifiedBlock) a s' tv' :
  gc < br_round a → v3_view c G s → visit_ancestor gc (s, tv) a = Ret (s', tv') →
  ∃ f, DagState_set_committed s a = Ret (s', f) ∧
    if f : bool then ∃ b, G a = Some b ∧ tv' = b :: tv else tv' = tv.
Proof.
  intros Hgt Hvw Hv. cbn [visit_ancestor] in Hv. rewrite (proj2 (N.leb_gt _ _) Hgt) in Hv.
  apply bind_Ret in Hv as ([s1 f] & Hs1 & Hv). destruct (set_committed_view s a s1 f Hs1) as [Hsv _].
  destruct f; cbn [negb] in Hv; [|injection Hv as <- <-; by exists false]. exists true.
  rewrite get_block_spec in Hv by (rewrite (sv_store _ _ Hsv); apply Hvw). cbn [mbind M_bind] in Hv.
  rewrite (same_view_block s s1) in Hv by done. destruct (ds_block s a) as [b|] eqn:Hb; [|done].
  injection Hv as <- <-. split; [done|]. exists b. split; [by apply (vw_sub c G s Hvw)|done].
Qed.

Lemma twins_visit gc s t tv s' t' tv1 tv2 ancestors :
  twins s t → gc = DagState_gc_round s →
  foldM (visit_ancestor gc) (s, tv) ancestors = Ret (s', tv1) → foldM (visit_ancestor gc) (t, tv) ancestors = Ret (t', tv2) →
  twins s' t' ∧ tv1 = tv2 ∧ gc = DagState_gc_round s'.
Proof.
  revert s t tv. induction ancestors as [|a ancestors IH]; intros s t tv Htw Hgc; cbn [foldM].
  { by intros [= <- <-] [= <- <-]. }
  intros ([s1 v1] & Hs1 & Hs)%bind_Ret ([t1 v2] & Ht1 & Ht)%bind_Ret.
  destruct (N.le_gt_cases (br_round a) gc) as [Hle|Hgt].
  { cbn [visit_ancestor] in Hs1, Ht1. rewrite (proj2 (N.leb_le _ _) Hle) in Hs1, Ht1.
    injection Hs1 as <- <-. injection Ht1 as <- <-. by apply (IH s t tv). }
  apply visit_fresh in Hs1 as (f & Hs1 & Hf); [|done|apply Htw]. apply visit_fresh in Ht1 as (g & Ht1 & Hg); [|done|apply Htw].
  destruct (twins_mark s t a s1 t1 f g Htw) as [<- Htw1]; [by rewrite <- Hgc|done..|].
  assert (v1 = v2) as <-.
  { destruct f; [|congruence]. destruct Hf as (b & Hb & ->), Hg as (b' & Hb' & ->). congruence. }
  apply (IH s1 t1 v1); [done| |done..]. rewrite Hgc. symmetry. destruct (set_committed_view s a s1 f Hs1) as [Hv Hl].
  apply gc_round_same; [apply Hv|done].
Qed.

(** The blocks collected are the same, in the same order. *)
Lemma twins_collect fuel1 fuel2 gc s t tv tc s' t' f1 f2 :
  twins s t → gc = DagState_gc_round s →
  collect_loop fuel1 gc s tv tc = Ret (s', f1) → collect_loop fuel2 gc t tv tc = Ret (t', f2) →
  twins s' t' ∧ f1 = f2.
Proof.
  revert fuel2 s t tv tc. induction fuel1 as [|fuel1 IH]; intros [|fuel2] s t tv tc Htw Hgc; cbn [collect_loop]; try done.
  destruct tv as [|b tv]; [by intros [= <- <-] [= <- <-]|].
  intros ([s1 v1] & Hs1 & Hs)%bind_Ret ([t1 v2] & Ht1 & Ht)%bind_Ret.
  destruct (twins_visit gc s t tv s1 t1 v1 v2 (b_ancestors b) Htw Hgc Hs1 Ht1) as (Htw1 & <- & Hgc1).
  by apply (IH fuel2 s1 t1 v1 (tc ++ [b])).
Qed.

End Twins.
