(* ===== verification/FlexTimestamp.v ===== *)
(** * The timestamp of a commit under rule v3

    The committed leaders themselves give the timestamp when they hold the
    certification threshold, their parents otherwise.  The median demands a
    quorum of stake in both cases: leaders between the two thresholds make the
    committer panic. *)

From S2P Require Import Prelude BTree Config Block Commit Store StakeAggregator ThresholdClock.
From S2P Require Import LeaderScoring DagState DagTheory LeaderSchedule CommitRule Linearizer LinearizerTheory CommitTimestamp.
From S2P Require Import V3Metadata SlotRule LeaderSlotDecider SlotDeciderTheory LeaderScheduleV3 FlexCommitter.
Local Open Scope N_scope.

Definition leader_stake (c : Committee) (leaders : list VerifiedBlock) : Stake :=
  set_stake c (CommitTimestamp.authors leaders).

(** The stake that is enough for the first branch and not for the median. *)
Definition stake_gap (c : Committee) (leaders : list VerifiedBlock) : Prop :=
  Committee_certification_threshold c ≤ leader_stake c leaders < Committee_quorum_threshold c.

Definition timestamp_panic : panic := Explicit "Cannot compute commit timestamp".

Section FlexTimestamp.
Context `{Profile} `{Crypto} {S : Type} `{StoreLaws S}.
Context (ctx : Context) (G : BlockRef → option VerifiedBlock).
Abbreviation c := (ctx_committee ctx) (only parsing).
Context (Hwf : Committee_wf c) (Hdag : dag_valid c G).
Implicit Types (s : DagState S) (l b : VerifiedBlock) (leaders : list VerifiedBlock).

Lemma commit_timestamp_of_spec s blocks :
  one_per_author ctx blocks → blocks ≠ [] →
  (set_stake c (CommitTimestamp.authors blocks) < Committee_quorum_threshold c ∧
   commit_timestamp_of ctx s blocks = Panic timestamp_panic) ∨
  (is_quorum c (CommitTimestamp.authors blocks) ∧
   ∃ m, commit_timestamp_of ctx s blocks = Ret (N.max m (DagState_last_commit_timestamp_ms s)) ∧
        weighted_median ctx m blocks).
Proof using Hwf.
  intros Hone Hne. unfold commit_timestamp_of.
  destruct (median_timestamp_by_stake_spec ctx Hwf blocks Hone) as [[? _]|[(_ & Hlt & ->)|(Hq & m & -> & Hm)]]; [done|by left|].
  right. split; [done|]. by exists m.
Qed.

Lemma stake_sum_spec blocks :
  one_per_author ctx blocks → stake_sum c ((λ b : VerifiedBlock, b_author b) <$> blocks) = Ret (leader_stake c blocks).
Proof using Hwf.
  intros Hone. unfold stake_sum. rewrite (mapP_pure _ (stake_at c)).
  - cbn [mbind M_bind].
    assert (sumN (stake_at c <$> ((λ b : VerifiedBlock, b_author b) <$> blocks)) = leader_stake c blocks) as Heq.
    { unfold leader_stake, set_stake, CommitTimestamp.authors. by rewrite weight_list_to_set by apply Hone. }
    rewrite int_sum_exact; [by rewrite Heq|]. rewrite Heq.
    pose proof (set_stake_le_total c (CommitTimestamp.authors blocks) Hwf (CommitTimestamp.authors_members ctx blocks Hone)).
    pose proof (wf_total_u64 c Hwf). unfold leader_stake. lia.
  - intros i (b & -> & Hb)%list_elem_of_fmap. apply Committee_stake_valid, members_spec. by apply Hone.
Qed.

(** ** The parents of the leaders *)

Record parents_of (round : Round) leaders (m : gmap AuthorityIndex BlockRef) : Prop := {
  po_sound : ∀ i r, m !! i = Some r → br_author r = i ∧ br_round r + 1 = round ∧ ∃ l, l ∈ leaders ∧ r ∈ b_ancestors l;
  po_complete : ∀ l a, l ∈ leaders → a ∈ b_ancestors l → br_round a + 1 = round → is_Some (m !! br_author a);
}.

Lemma add_parent_ref_spec round m a :
  br_round a < round → round ≤ u32_max →
  add_parent_ref round m a = Ret (if br_round a + 1 =? round then <[br_author a := a]> m else m).
Proof using.
  intros. unfold add_parent_ref. by rewrite int_add_exact by (change u32_max with 4294967295 in *; lia).
Qed.

Lemma add_parents_spec round leaders m l ancestors :
  round ≤ u32_max → (∀ a, a ∈ ancestors → br_round a < round) → (∀ a, a ∈ ancestors → a ∈ b_ancestors l) → l ∈ leaders →
  (∀ i r, m !! i = Some r → br_author r = i ∧ br_round r + 1 = round ∧ ∃ l, l ∈ leaders ∧ r ∈ b_ancestors l) →
  ∃ m', foldM (add_parent_ref round) m ancestors = Ret m' ∧
    (∀ i r, m' !! i = Some r → br_author r = i ∧ br_round r + 1 = round ∧ ∃ l, l ∈ leaders ∧ r ∈ b_ancestors l) ∧
    (∀ i, is_Some (m !! i) → is_Some (m' !! i)) ∧
    (∀ a, a ∈ ancestors → br_round a + 1 = round → is_Some (m' !! br_author a)).
Proof using.
  intros Hmax. revert m. induction ancestors as [|a ancestors IH]; intros m Hlt Hin Hl Hm; cbn [foldM].
  { exists m. split_and!; [done..|]. by intros a ?%not_elem_of_nil. }
  rewrite add_parent_ref_spec by (done || (apply Hlt; left)). cbn [mbind M_bind].
  set (m1 := if br_round a + 1 =? round then <[br_author a := a]> m else m).
  assert ((∀ i r, m1 !! i = Some r → br_author r = i ∧ br_round r + 1 = round ∧ ∃ l, l ∈ leaders ∧ r ∈ b_ancestors l) ∧
          (∀ i, is_Some (m !! i) → is_Some (m1 !! i)) ∧ (br_round a + 1 = round → is_Some (m1 !! br_author a))) as (Hs1 & Hk1 & Ha1).
  { unfold m1. destruct (N.eqb_spec (br_round a + 1) round) as [Hr|Hr]; [|done]. split_and!.
    - intros i r. destruct (decide (br_author a = i)) as [<-|Hne].
      + rewrite lookup_insert_eq. intros [= <-]. split_and!; [done..|]. exists l. split; [done|]. apply Hin. left.
      + rewrite lookup_insert_ne by done. apply Hm.
    - intros i Hi. apply lookup_insert_is_Some'. by right.
    - intros _. rewrite lookup_insert_eq. by eexists. }
  destruct (IH m1) as (m2 & Hf & Hs2 & Hk2 & Ha2);
    [intros; apply Hlt; by right|intros; apply Hin; by right|done..|].
  exists m2. split_and!; [done..|intros i Hi; by apply Hk2, Hk1|].
  intros x [->|Hx]%elem_of_cons Hr; [by apply Hk2, Ha1|by apply Ha2].
Qed.

Lemma parents_of_spec round leaders :
  round ≤ u32_max → (∀ l a, l ∈ leaders → a ∈ b_ancestors l → br_round a < round) →
  ∃ m, foldM (λ parent_refs leader, foldM (add_parent_ref round) parent_refs (b_ancestors (vb_block leader))) ∅ leaders = Ret m ∧
    parents_of round leaders m.
Proof using.
  intros Hmax Hlt.
  assert (∀ rest m, (∀ l, l ∈ rest → l ∈ leaders) →
    (∀ i r, m !! i = Some r → br_author r = i ∧ br_round r + 1 = round ∧ ∃ l, l ∈ leaders ∧ r ∈ b_ancestors l) →
    ∃ m', foldM (λ parent_refs leader, foldM (add_parent_ref round) parent_refs (b_ancestors (vb_block leader))) m rest = Ret m' ∧
      (∀ i r, m' !! i = Some r → br_author r = i ∧ br_round r + 1 = round ∧ ∃ l, l ∈ leaders ∧ r ∈ b_ancestors l) ∧
      (∀ i, is_Some (m !! i) → is_Some (m' !! i)) ∧
      (∀ l a, l ∈ rest → a ∈ b_ancestors l → br_round a + 1 = round → is_Some (m' !! br_author a))) as Hloop.
  { intros rest. induction rest as [|l rest IH]; intros m Hsub Hm; cbn [foldM].
    { exists m. split_and!; [done..|]. by intros l a ?%not_elem_of_nil. }
    destruct (add_parents_spec round leaders m l (b_ancestors l)) as (m1 & -> & Hs1 & Hk1 & Ha1);
      [done|intros a Ha; apply (Hlt l); [apply Hsub; left|done]|done|apply Hsub; left|done|].
    cbn [mbind M_bind]. destruct (IH m1) as (m2 & Hf & Hs2 & Hk2 & Ha2); [intros; apply Hsub; by right|done|].
    exists m2. split_and!; [done..|intros i Hi; by apply Hk2, Hk1|].
    intros x a [->|Hx]%elem_of_cons Ha Hr; [by apply Hk2, Ha1|by apply (Ha2 x)]. }
  destruct (Hloop leaders ∅) as (m & Hf & Hs & _ & Ha); [done|intros i r Hi; by rewrite lookup_empty in Hi|].
  exists m. split; [done|]. by split.
Qed.

(** ** The timestamp *)

(** Leaders of one round, of distinct authors, whose parents are known. *)
Record commit_leaders_ok s (r : Round) leaders : Prop := {
  lo_store : st_ok (ds_store s);
  lo_some : leaders ≠ [];
  lo_pos : 0 < r ≤ u32_max;
  lo_round : ∀ l, l ∈ leaders → b_round l = r;
  lo_valid : ∀ l, l ∈ leaders → G (reference l) = Some l;
  lo_NoDup : NoDup ((λ b : VerifiedBlock, b_author b) <$> leaders);
  lo_parents : ∀ l a, l ∈ leaders → a ∈ b_ancestors l → br_round a + 1 = r → is_Some (G a) ∧ ds_block s a = G a;
}.

Lemma leaders_one_per_author s r leaders : commit_leaders_ok s r leaders → one_per_author ctx leaders.
Proof using Hdag.
  intros Hok. split; [apply Hok|]. intros b Hb. apply (dv_author c G Hdag (reference b) b). by apply (lo_valid s r _ Hok).
Qed.

Lemma leaders_parents s r leaders :
  commit_leaders_ok s r leaders →
  ∃ m, foldM (λ parent_refs leader, foldM (add_parent_ref r) parent_refs (b_ancestors (vb_block leader))) ∅ leaders = Ret m ∧
    parents_of r leaders m.
Proof using Hdag.
  intros Hok. apply parents_of_spec; [apply Hok|]. intros l a Hl Ha.
  destruct (dv_ancestor c G Hdag (reference l) l a) as [Hlt _]; [by apply (lo_valid s r _ Hok)|done|].
  rewrite <- (lo_round s r _ Hok l Hl). exact Hlt.
Qed.

Lemma calculate_unfold s r leaders :
  commit_leaders_ok s r leaders →
  calculate_commit_timestamp ctx s leaders =
    (if Committee_certification_threshold c <=? leader_stake c leaders then commit_timestamp_of ctx s leaders
     else
       parent_refs ← foldM (λ parent_refs leader, foldM (add_parent_ref r) parent_refs (b_ancestors (vb_block leader))) ∅ leaders;
       block_opts ← DagState_get_blocks s (bmap_list parent_refs).*2;
       blocks ← mapP (λ o, expect o "Parent block must be in dag state") block_opts;
       commit_timestamp_of ctx s blocks).
Proof using Hdag Hwf.
  intros Hok. unfold calculate_commit_timestamp. destruct leaders as [|l leaders]; [by destruct (lo_some s r _ Hok)|].
  change (index (l :: leaders) 0) with (Ret l). cbn [mbind M_bind]. cbv zeta.
  pose proof (lo_round s r _ Hok l ltac:(left)) as Hr. rewrite Hr.
  assert (forallb (λ b : VerifiedBlock, b_round b =? r) (l :: leaders) = true) as Hall.
  { apply forallb_forall. intros b Hb%list_elem_of_In. apply N.eqb_eq. by apply (lo_round s r _ Hok). }
  destruct overflow_checks; rewrite ?Hall; cbn [assert_that mbind M_bind];
    by rewrite stake_sum_spec by (by eapply leaders_one_per_author).
Qed.

(** The blocks of the parents, one for each author. *)
Lemma parent_blocks_spec s r leaders m :
  commit_leaders_ok s r leaders → parents_of r leaders m →
  ∃ blocks, (block_opts ← DagState_get_blocks s (bmap_list m).*2;
             mapP (λ o, expect o "Parent block must be in dag state") block_opts) = Ret blocks ∧
    one_per_author ctx blocks ∧ Forall2 (λ a b, G a = Some b) (bmap_list m).*2 blocks ∧
    ∀ l, l ∈ leaders → parents l ⊆ CommitTimestamp.authors blocks.
Proof using Hdag.
  intros Hok [Hs Hc]. rewrite get_blocks_spec by apply Hok. cbn [mbind M_bind].
  assert (∀ a, a ∈ (bmap_list m).*2 → is_Some (G a) ∧ ds_block s a = G a) as Hknown.
  { intros a ([i a'] & -> & Hin)%list_elem_of_fmap. apply bmap_list_elem, Hs in Hin as (_ & Hr & l & Hl & Ha).
    by apply (lo_parents s r _ Hok l). }
  destruct (mapP_expect (ds_block s) "Parent block must be in dag state" (bmap_list m).*2) as (blocks & -> & Hall).
  { intros a [HG ->]%Hknown. done. }
  assert (Forall2 (λ a b, G a = Some b) (bmap_list m).*2 blocks) as HallG.
  { apply Forall2_same_length_lookup. pose proof (Forall2_length _ _ _ Hall). split; [done|]. intros k a b Hka Hkb.
    rewrite <- (proj2 (Hknown a (list_elem_of_lookup_2 _ _ _ Hka))). by apply (Forall2_lookup_lr _ _ _ _ _ _ Hall Hka). }
  assert ((λ b : VerifiedBlock, b_author b) <$> blocks = (bmap_list m).*1) as Hauth.
  { assert (br_author <$> (bmap_list m).*2 = (bmap_list m).*1) as <-.
    { rewrite <- list_fmap_compose. apply list_fmap_ext. intros k [i a] Hk%list_elem_of_lookup_2.
      apply bmap_list_elem, Hs in Hk. by destruct Hk. }
    clear Hall Hknown. induction HallG as [|a b l bs Hab _ IH]; [done|]. csimpl. rewrite IH. f_equal.
    by rewrite <- (dv_ref c G Hdag a b Hab). }
  exists blocks. split_and!; [done| |done|].
  - split; [rewrite Hauth; apply bmap_list_NoDup|]. intros b [k Hk]%list_elem_of_lookup_1.
    destruct (Forall2_lookup_r _ _ _ _ _ HallG Hk) as (a & _ & HG).
    pose proof (dv_author c G Hdag a b HG) as Hm. by rewrite <- (dv_ref c G Hdag a b HG) in Hm.
  - intros l Hl i (a & -> & [Hr Ha]%list_elem_of_filter)%elem_of_list_to_set%list_elem_of_fmap.
    rewrite (lo_round s r _ Hok l Hl) in Hr. destruct (Hc l a Hl Ha Hr) as [x Hx].
    apply elem_of_list_to_set. rewrite Hauth. apply list_elem_of_fmap. exists (br_author a, x). split; [done|].
    by apply bmap_list_elem.
Qed.

(** The timestamp is computed unless the leaders' stake is in the gap. *)
Lemma calculate_commit_timestamp_v3_spec s r leaders :
  commit_leaders_ok s r leaders →
  (stake_gap c leaders ∧ calculate_commit_timestamp ctx s leaders = Panic timestamp_panic) ∨
  (¬ stake_gap c leaders ∧ ∃ m blocks, calculate_commit_timestamp ctx s leaders = Ret (N.max m (DagState_last_commit_timestamp_ms s)) ∧
     is_quorum c (CommitTimestamp.authors blocks) ∧ one_per_author ctx blocks ∧ weighted_median ctx m blocks).
Proof using Hdag Hwf.
  intros Hok. rewrite (calculate_unfold s r leaders Hok). unfold stake_gap.
  pose proof (leaders_one_per_author s r leaders Hok) as Hone.
  destruct (N.leb_spec (Committee_certification_threshold c) (leader_stake c leaders)) as [Hge|Hlt].
  { destruct (commit_timestamp_of_spec s leaders Hone (lo_some s r _ Hok)) as [[Hlt ->]|([Hsub Hq%N.leb_le] & m & -> & Hm)].
    - left. by split; [split|].
    - right. split; [unfold leader_stake; lia|]. exists m, leaders. split_and!; [done| |done..]. split; [done|]. by apply N.leb_le. }
  right. split; [lia|]. destruct (leaders_parents s r leaders Hok) as (m & -> & Hm). cbn [mbind M_bind].
  destruct (parent_blocks_spec s r leaders m Hok Hm) as (blocks & Hb & Hone' & _ & Hsub).
  destruct (DagState_get_blocks s (bmap_list m).*2) as [opts| |]; try done. cbn [mbind M_bind] in Hb |- *. rewrite Hb. cbn [mbind M_bind].
  assert (∃ l, l ∈ leaders) as [l Hl].
  { pose proof (lo_some s r _ Hok) as Hne. destruct leaders as [|l ls]; [done|]. exists l. left. }
  assert (is_quorum c (CommitTimestamp.authors blocks)) as Hq.
  { apply (is_quorum_mono c (parents l)); [|by apply Hsub|by apply CommitTimestamp.authors_members].
    apply (dv_parents c G Hdag (reference l)); [by apply (lo_valid s r _ Hok)|].
    pose proof (lo_round s r _ Hok l Hl) as Hr. change (br_round (reference l)) with (b_round l). pose proof (lo_pos s r _ Hok). lia. }
  assert (blocks ≠ []) as Hne.
  { intros ->. destruct Hq as [_ Hq%N.leb_le]. unfold set_stake, CommitTimestamp.authors in Hq. simpl in Hq.
    rewrite weight_empty in Hq. pose proof (wf_quorum_pos c Hwf). lia. }
  destruct (commit_timestamp_of_spec s blocks Hone' Hne) as [[Hlt' _]|(_ & med & -> & Hmed)].
  - destruct Hq as [_ Hq%N.leb_le]. lia.
  - by exists med, blocks.
Qed.

(** Two authorities compute the same timestamp. *)
Lemma calculate_commit_timestamp_agree s t r leaders :
  commit_leaders_ok s r leaders → commit_leaders_ok t r leaders →
  DagState_last_commit_timestamp_ms s = DagState_last_commit_timestamp_ms t →
  calculate_commit_timestamp ctx s leaders = calculate_commit_timestamp ctx t leaders.
Proof using Hdag Hwf.
  intros Hs Ht Hts. rewrite (calculate_unfold s r leaders Hs), (calculate_unfold t r leaders Ht).
  assert (∀ blocks, commit_timestamp_of ctx s blocks = commit_timestamp_of ctx t blocks) as Hof.
  { intros blocks. unfold commit_timestamp_of. by rewrite Hts. }
  destruct (_ <=? _); [apply Hof|]. destruct (leaders_parents s r leaders Hs) as (m & -> & Hm). cbn [mbind M_bind].
  rewrite !get_blocks_spec by (apply Hs || apply Ht). cbn [mbind M_bind].
  assert (ds_block s <$> (bmap_list m).*2 = ds_block t <$> (bmap_list m).*2) as ->.
  { apply list_fmap_ext. intros k a Hk%list_elem_of_lookup_2. apply list_elem_of_fmap in Hk as ([i a'] & -> & Hin).
    apply bmap_list_elem, (po_sound _ _ _ Hm) in Hin as (_ & Hr & l & Hl & Ha).
    cbn [snd]. destruct (lo_parents s r _ Hs l a' Hl Ha Hr) as [_ ->]. by destruct (lo_parents t r _ Ht l a' Hl Ha Hr) as [_ ->]. }
  destruct (mapP _ _); cbn [mbind M_bind]; [apply Hof|done..].
Qed.

End FlexTimestamp.
