(* ===== verification/FlexBuild.v ===== *)
(** * Building a commit under rule v3

    The flex committer builds the commit of the first round with a committed
    leader: the new blocks of the leaders' histories, each marked once, ordered
    by round, the last one of them being the leader of the commit. *)

From S2P Require Import Prelude BTree Config Block Commit Store StakeAggregator ThresholdClock.
From S2P Require Import LeaderScoring DagState DagTheory DagTraversal LeaderSchedule CommitRule Linearizer CommitTimestamp.
From S2P Require Import V3Metadata SlotRule LeaderSlotDecider SlotDeciderTheory LeaderScheduleV3 FlexCommitter.
From S2P Require Import FlexRounds FlexLeaders FlexCollect FlexTimestamp.
Local Open Scope N_scope.

(** ** The order of the blocks *)

Section Sort.
Context `{Profile} `{Crypto}.
Implicit Types (b : VerifiedBlock) (blocks : list VerifiedBlock).

Lemma sort_committed_perm blocks seed : sort_committed_blocks blocks seed ≡ₚ blocks.
Proof. apply stable_sort_perm. Qed.

Lemma sort_committed_sorted blocks seed :
  StronglySorted (λ a b : VerifiedBlock, b_round a ≤ b_round b) (sort_committed_blocks blocks seed).
Proof.
  assert (StronglySorted (λ a b : VerifiedBlock, le_ord (block_sort_key seed (reference a)) (block_sort_key seed (reference b)) = true)
            (sort_committed_blocks blocks seed)) as Hs.
  { apply (stable_sort_sorted (λ a b : VerifiedBlock, _)); [intros a b; apply le_ord_total|intros a b b'; apply le_ord_trans]. }
  induction Hs as [|b l _ IH Hb]; [constructor|]. constructor; [done|].
  eapply Forall_impl; [exact Hb|]. intros b' [Hlt|[Heq _]]%le_ord_prod; simpl in *.
  - apply lt_ord_N in Hlt. change (b_round b < b_round b') in Hlt. lia.
  - change (b_round b = b_round b') in Heq. lia.
Qed.

End Sort.

Section FlexBuild.
Context `{Profile} `{Crypto} `{CommitBcs} `{Rng} `{Hrng : !RngLaws} {S : Type} `{StoreLaws S}.
Context (c : Committee) (G : BlockRef → option VerifiedBlock).
Context (Hwf : Committee_wf c) (Hv3 : v3_thresholds c) (Hdag : dag_valid c G) (Hdist : distinct_ancestors G).
Context (byz : gset AuthorityIndex) (Hmaj : honest_majority c G byz).
Context (Hbcs : ∀ commit, is_Some (bcs_commit commit)).
Implicit Types (s : DagState S) (b l : VerifiedBlock) (rs : RoundState) (p : PendingCommitState) (fc : FlexCommitter).

(** The state of an authority that looks for the commit of a schedule: what is
    committed is below the schedule's first round, garbage collection has not
    slot_reached the parents of that round, and the genesis blocks are there. *)
Record dag_ready s (nxt : NextCommitLeaderSchedule) : Prop := {
  dr_view : v3_view c G s;
  dr_committed : ∀ r, committed_ref s r → br_round r < nc_min_next_leader_round nxt;
  dr_gc : DagState_gc_round s < nc_min_next_leader_round nxt;
  dr_parents : 0 < DagState_gc_round s → DagState_gc_round s + 1 < nc_min_next_leader_round nxt;
  dr_genesis : ∀ r b, G r = Some b → br_round r = 0 → ds_block s r = Some b;
  dr_highest : ds_highest_accepted_round s < u32_max;
}.

Record schedule_ok (nxt : NextCommitLeaderSchedule) : Prop := {
  sk_NoDup : NoDup (nc_allowed_leaders nxt);
  sk_members : ∀ a, a ∈ nc_allowed_leaders nxt → a ∈ members c;
  sk_bound : nc_min_next_leader_round nxt ≤ u32_max;
}.

Section Node.
Context (nxt : NextCommitLeaderSchedule) (Hsched : schedule_ok nxt).
Abbreviation allowed := (nc_allowed_leaders nxt) (only parsing).
Abbreviation commit_round := (commit_round c G allowed) (only parsing).

(** *** The report on the decided rounds *)

Lemma report_slot_returns s ls :
  leader_slot_ok c G allowed s ls → slot_authority (lsl_slot ls) ∈ allowed →
  LeaderStatus_is_decided (lsl_leader_status ls) = true → report_slot c ls = Ret tt.
Proof using Hsched.
  intros Hok Ha Hd. unfold leader_slot_ok in Hok. rewrite Hd in Hok. destruct Hok as [[Hdec _] [d Hdn]].
  unfold report_slot. rewrite Hdn.
  assert (∃ authority, Committee_authority c (slot_authority (lsl_slot ls)) = Ret authority) as [authority Hau].
  { apply Committee_authority_member. by apply (sk_members nxt Hsched). }
  destruct (lsl_leader_status ls) as [b|slot|slot]; [| |done].
  - apply decided_commit in Hdec as [_ Hs]. rewrite <- Hs in Hau. change (slot_authority (Slot_from (reference b))) with (b_author b) in Hau.
    cbn [mbind M_bind expect]. by rewrite Hau.
  - apply slot_decided_status in Hdec. simpl in Hdec. rewrite <- Hdec in Hau. cbn [mbind M_bind expect]. by rewrite Hau.
Qed.

Lemma report_round_returns s rs :
  round_state_ok c G allowed s rs → all_decided (rst_leader_slots rs) →
  ∃ us, mapP (report_slot c) (rst_leader_slots rs) = Ret us.
Proof using Hsched Hrng.
  intros Hok Hd. apply mapP_returns. intros ls Hls. exists tt. apply (report_slot_returns s).
  - by apply (rk_each _ _ _ _ _ Hok).
  - apply (order_slots allowed (rst_round rs)). rewrite <- (rk_slots _ _ _ _ _ Hok). by apply list_elem_of_fmap_2.
  - by apply (proj1 (Forall_forall _ _) Hd).
Qed.

Lemma report_rounds_returns r rounds :
  (∀ rs, rs ∈ rounds → rst_round rs ≤ r → ∃ us, mapP (report_slot c) (rst_leader_slots rs) = Ret us) →
  report_rounds c r rounds = Ret tt.
Proof using.
  induction rounds as [|rs rounds IH]; intros Hall; cbn [report_rounds]; [done|].
  destruct (N.ltb_spec r (rst_round rs)); [done|]. destruct (Hall rs) as [us ->]; [left|done|].
  cbn [mbind M_bind]. apply IH. intros rs' Hin. apply Hall. by right.
Qed.

Lemma report_returns s fc r k rs :
  fc_ok c G allowed s fc → commit_round s (fc_pending_commit_state fc) r k rs →
  FlexCommitter_report_decided_prefix_metrics fc r = Ret tt.
Proof using Hsched Hrng.
  intros Hfc [Hk Hr Hok Hd Hc Hb]. unfold FlexCommitter_report_decided_prefix_metrics. rewrite (fk_context _ _ _ _ _ Hfc).
  apply report_rounds_returns. intros rsj [j Hj]%list_elem_of_lookup_1 Hle.
  destruct (pk_rounds _ _ _ _ _ (fk_pending _ _ _ _ _ Hfc) j rsj Hj) as [Hrj Hokj].
  destruct (pk_rounds _ _ _ _ _ (fk_pending _ _ _ _ _ Hfc) k rs Hk) as [Hrk _].
  apply (report_round_returns s); [done|]. destruct (Nat.lt_trichotomy j k) as [Hlt|[->|Hgt]].
  - eapply Forall_impl; [by apply (Hb j)|]. intros ls [sl Hst]. simpl. by rewrite Hst.
  - congruence.
  - lia.
Qed.

Lemma get_round_state_commit s p r k rs :
  pending_ok c G allowed s p → commit_round s p r k rs → PendingCommitState_get_round_state p r = Ret (k, rs).
Proof using.
  intros Hp [Hk Hr _ _ _ _]. destruct (pk_rounds _ _ _ _ _ Hp k rs Hk) as [Hrk _].
  unfold PendingCommitState_get_round_state, checked_sub. rewrite (proj2 (N.leb_le _ _)) by lia. cbn [expect mbind M_bind].
  replace (N.to_nat (r - nc_min_next_leader_round (pcs_next_commit_leaders p))) with k by lia. by rewrite Hk.
Qed.

(** *** The leaders of the commit *)

Lemma leaders_ready s fc r k rs :
  dag_ready s nxt → fc_ok c G allowed s fc → fc_schedule fc = nxt → commit_round s (fc_pending_commit_state fc) r k rs →
  commit_leaders_ok G s r (committed_leaders (rst_leader_slots rs)) ∧
  ∀ l, l ∈ committed_leaders (rst_leader_slots rs) →
    ds_cached s (reference l) = Some l ∧ DagState_gc_round s < b_round l ∧ ¬ committed_ref s (reference l).
Proof using Hsched Hrng Hdag.
  intros Hr Hfc Hs [Hk Hround Hok Hd Hc Hb]. pose proof (fk_pending _ _ _ _ _ Hfc) as Hp.
  destruct (pk_rounds _ _ _ _ _ Hp k rs Hk) as [Hrk _]. pose proof (pk_bound _ _ _ _ _ Hp) as Hmax.
  unfold fc_schedule in Hs. rewrite Hs in Hrk, Hmax. apply lookup_lt_Some in Hk. pose proof (dr_gc s nxt Hr).
  assert (∀ l, l ∈ committed_leaders (rst_leader_slots rs) →
    ds_cached s (reference l) = Some l ∧ G (reference l) = Some l ∧ b_round l = r ∧ b_author l ∈ allowed) as Hl.
  { intros l Hl. rewrite <- Hround. by apply (committed_leader_spec c G allowed s). }
  split.
  - split; [apply (vw_ok _ _ _ (dr_view s nxt Hr))|done|lia|apply Hl|apply Hl| |].
    + apply (committed_leaders_NoDup c G allowed (sk_NoDup nxt Hsched) s rs Hok).
    + intros l a Hin Ha Har. destruct (Hl l Hin) as (Hca & HG & Hlr & _).
      destruct (dv_ancestor c G Hdag _ l a HG Ha) as [_ [ba HGa]]. split; [by eexists|]. rewrite HGa.
      destruct (decide (br_round a = 0)) as [Hz|Hnz]; [by apply (dr_genesis s nxt Hr)|].
      apply (cached_is_block s) in Hca; [|apply (dr_view s nxt Hr)].
      destruct (v3_view_ancestor c G s _ l a (dr_view s nxt Hr) Hca Ha) as (ba' & _ & -> & HGa'); [|congruence].
      pose proof (dr_parents s nxt Hr). lia.
  - intros l Hin. destruct (Hl l Hin) as (Hca & _ & Hlr & _). split_and!; [done|lia|].
    intros Hcom%(dr_committed s nxt Hr). change (b_round l < nc_min_next_leader_round nxt) in Hcom. lia.
Qed.

Lemma leaders_references_NoDup (leaders : list VerifiedBlock) :
  NoDup ((λ b : VerifiedBlock, b_author b) <$> leaders) → NoDup (reference <$> leaders).
Proof using.
  intros Hnd. apply (NoDup_fmap_1 br_author). by rewrite <- list_fmap_compose.
Qed.

(** The rounds of the blocks of a commit. *)
Lemma in_commit_round s leaders r x :
  (∀ l, l ∈ leaders → b_round l = r) → in_commit G s leaders x → br_round x ≤ r ∧ (br_round x = r → ∃ l, l ∈ leaders ∧ x = reference l).
Proof using Hdag.
  intros Hround (l & Hl & Hreach). destruct (rtc_inv_r _ _ Hreach) as [<-|(y & Hy & b & HG & Ha & _)].
  - split; [|by exists l]. change (b_round l ≤ r). by rewrite (Hround l Hl).
  - assert (br_round y ≤ r).
    { clear Ha HG. pattern y. revert y Hy. apply rtc_ind_r.
      - change (b_round l ≤ r). by rewrite (Hround l Hl).
      - intros y z _ (b' & HG & Ha & _) Hle. destruct (dv_ancestor c G Hdag y b' z HG Ha). lia. }
    destruct (dv_ancestor c G Hdag y b x HG Ha). lia.
Qed.

Lemma leaders_ok_marks s s' r leaders : only_marks s s' → commit_leaders_ok G s r leaders → commit_leaders_ok G s' r leaders.
Proof using.
  intros Hm [L1 L2 L3 L4 L5 L6 L7]. split; try done; [by rewrite (sv_store _ _ (om_view _ _ Hm))|].
  intros l a Hl Ha Har. rewrite (same_view_block s s') by apply Hm. by apply (L7 l).
Qed.

Lemma only_marks_timestamp s s' :
  only_marks s s' → DagState_last_commit_timestamp_ms s' = DagState_last_commit_timestamp_ms s.
Proof using. intros Hm. unfold DagState_last_commit_timestamp_ms. by rewrite (om_commit _ _ Hm). Qed.

(** *** The commit *)

Record built s fc (r : Round) (leaders : list VerifiedBlock) s' (tc : TrustedCommit) (sd : CommittedSubDag) : Prop := {
  bu_marks : only_marks s s';
  bu_committed : ∀ x, committed_ref s' x ↔ committed_ref s x ∨ x ∈ c_blocks tc;
  bu_exact : ∀ x, x ∈ c_blocks tc ↔ in_commit G s leaders x;
  bu_NoDup : NoDup (c_blocks tc);
  bu_blocks : c_blocks tc = reference <$> sd_blocks sd;
  bu_valid : ∀ b, b ∈ sd_blocks sd → G (reference b) = Some b;
  bu_sorted : StronglySorted (λ a b : VerifiedBlock, b_round a ≤ b_round b) (sd_blocks sd);
  bu_last : last (c_blocks tc) = Some (c_leader tc);
  bu_leader : ∃ l, l ∈ leaders ∧ c_leader tc = reference l;
  bu_round : br_round (c_leader tc) = r;
  bu_index : c_index tc = nc_next_commit_index (fc_schedule fc);
  bu_previous : c_previous_digest tc = DagState_last_commit_digest s;
  bu_time : DagState_last_commit_timestamp_ms s ≤ c_timestamp_ms tc;
  bu_sub_dag : sd = CommittedSubDag_new (c_leader tc) (sd_blocks sd) (c_timestamp_ms tc) (TrustedCommit_reference tc);
}.

(** The leaders are marked and their histories collected, within the fuel. *)
Lemma collect_commit_spec s (leaders : list VerifiedBlock) :
  v3_view c G s → NoDup (reference <$> leaders) →
  (∀ l, l ∈ leaders → ds_cached s (reference l) = Some l ∧ DagState_gc_round s < b_round l ∧ ¬ committed_ref s (reference l)) →
  ∃ s1 s2 found, foldM (mark_leader (DagState_gc_round s)) s leaders = Ret s1 ∧
    collect_loop (linearize_fuel s1) (DagState_gc_round s) s1 (reverse leaders) [] = Ret (s2, found) ∧
    collect_inv G s leaders (followed_by found) s2 found ∧ (∀ x, x ∈ reference <$> found ↔ in_commit G s leaders x).
Proof using Hdag.
  intros Hv Hnd Hlead. destruct (mark_leaders_spec G s leaders Hlead Hnd) as (s1 & -> & Hinv & Hsteps).
  assert (size (ds_recent_blocks s1) = size (ds_recent_blocks s)) as Hsize.
  { rewrite <- !(size_dom (D := gset BlockRef)). f_equal. apply set_eq. intros x. rewrite !elem_of_dom.
    apply only_marks_known, Hinv. }
  destruct (collect_loop_spec c G Hdag s Hv leaders (linearize_fuel s1) s1 (reverse leaders) []) as (s2 & found & Hl & Hinv2 & Hin).
  - eapply collect_inv_owed; [|eapply collect_inv_perm; [|exact Hinv]]; [|symmetry; apply reverse_Permutation].
    by intros a (b & ?%not_elem_of_nil & _).
  - unfold linearize_fuel. rewrite Hsize. unfold collect_steps in *. rewrite length_reverse. lia.
  - exists s1, s2, found. split_and!; [done..|]. apply (collected_exact c G s Hv leaders s2); [done|].
    intros l Hll. apply Hin. by rewrite app_nil_l, elem_of_reverse.
Qed.

(** The last block in the order is a leader. *)
Lemma last_is_leader s (leaders found : list VerifiedBlock) r seed :
  leaders ≠ [] → (∀ l, l ∈ leaders → b_round l = r) → (∀ x, x ∈ reference <$> found ↔ in_commit G s leaders x) →
  ∃ b, last (sort_committed_blocks found seed) = Some b ∧ b_round b = r ∧ ∃ l, l ∈ leaders ∧ reference b = reference l.
Proof using Hdag.
  intros Hne Hround Hex. destruct leaders as [|l leaders]; [done|].
  assert (in_commit G s (l :: leaders) (reference l)) as Hin by (exists l; split; [left|apply rtc_refl]).
  apply Hex, list_elem_of_fmap in Hin as (b0 & Hb0 & Hin).
  rewrite <- (sort_committed_perm found seed) in Hin.
  destruct (last (sort_committed_blocks found seed)) as [b|] eqn:Hlast.
  2:{ apply last_None in Hlast. rewrite Hlast in Hin. by apply not_elem_of_nil in Hin. }
  assert (b_round b0 ≤ b_round b) as Hle.
  { assert (Reflexive (λ a b : VerifiedBlock, b_round a ≤ b_round b)) as Hrefl by (intros x; apply N.le_refl).
    by apply (sorted_last _ _ b (sort_committed_sorted found seed) Hlast). }
  assert (in_commit G s (l :: leaders) (reference b)) as Hb.
  { apply Hex, list_elem_of_fmap_2. rewrite <- (sort_committed_perm found seed).
    rewrite last_lookup in Hlast. by eapply list_elem_of_lookup_2. }
  destruct (in_commit_round s (l :: leaders) r (reference b) Hround Hb) as [Hle' Heq].
  change (br_round (reference b)) with (b_round b) in Hle', Heq.
  assert (b_round b0 = r) as Hr0.
  { change (b_round b0) with (br_round (reference b0)). rewrite <- Hb0. apply Hround. left. }
  exists b. split_and!; [done|lia|apply Heq; lia].
Qed.

(** [build_commit] builds the commit of the round, or panics on the timestamp. *)
Lemma build_commit_spec s fc r k rs :
  dag_ready s nxt → fc_ok c G allowed s fc → fc_schedule fc = nxt → commit_round s (fc_pending_commit_state fc) r k rs →
  (stake_gap c (committed_leaders (rst_leader_slots rs)) ∧
   FlexCommitter_build_commit fc s r = Panic timestamp_panic) ∨
  (¬ stake_gap c (committed_leaders (rst_leader_slots rs)) ∧
   ∃ s' tc sd, FlexCommitter_build_commit fc s r = Ret (s', (tc, sd)) ∧
     built s fc r (committed_leaders (rst_leader_slots rs)) s' tc sd).
Proof using Hsched Hrng Hdag Hwf Hbcs.
  intros Hr Hfc Hs Hcr. destruct (leaders_ready s fc r k rs Hr Hfc Hs Hcr) as [Hlok Hlead].
  unfold FlexCommitter_build_commit. rewrite (get_round_state_commit s _ r k rs) by (done || apply Hfc). cbn [mbind M_bind].
  rewrite collect_committed_decided by apply Hcr. cbn [mbind M_bind].
  set (leaders := committed_leaders (rst_leader_slots rs)) in *.
  assert (is_nil leaders = false) as -> by (pose proof (lo_some _ _ _ _ Hlok) as Hne; by destruct leaders).
  cbn [negb assert_that mbind M_bind]. rewrite (report_returns s fc r k rs) by done. cbn [mbind M_bind]. cbv zeta.
  destruct (collect_commit_spec s leaders) as (s1 & s2 & found & -> & Hcol & Hinv & Hex);
    [apply (dr_view s nxt Hr)|apply leaders_references_NoDup, Hlok|done|].
  cbn [mbind M_bind]. rewrite Hcol. cbn [mbind M_bind].
  set (seed := compute_sort_seed leaders). destruct (last_is_leader s leaders found r seed) as (b & Hlast & Hbr & l & Hl & Hbl);
    [apply Hlok|apply Hlok|done|].
  rewrite Hlast. cbn [expect mbind M_bind]. change (br_round (reference b)) with (b_round b). rewrite Hbr, N.eqb_refl. cbn [assert_that mbind M_bind].
  pose proof (ci_marks _ _ _ _ _ _ Hinv) as Hm.
  pose proof (leaders_ok_marks s s2 r leaders Hm Hlok) as Hlok2. pose proof (only_marks_timestamp s s2 Hm) as Hts.
  destruct (calculate_commit_timestamp_v3_spec (fc_context fc) G) with (s := s2) (r := r) (leaders := leaders)
    as [[Hgap ->]|(Hgap & m & blocks & -> & _)]; [by rewrite (fk_context _ _ _ _ _ Hfc)..|done| |];
    rewrite (fk_context _ _ _ _ _ Hfc) in Hgap; [by left|].
  right. split; [done|]. cbn [mbind M_bind]. rewrite Hts.
  set (commit := Commit_new _ _ _ _ _). destruct (Hbcs commit) as [bytes ->]. eexists _, _, _. split; [done|].
  assert (sort_committed_blocks found seed ≡ₚ found) as Hp by apply sort_committed_perm.
  split; try (cbn; done).
  - intros x. cbn. rewrite Hp. apply Hinv.
  - intros x. cbn. rewrite Hp. apply Hex.
  - cbn. rewrite Hp. apply Hinv.
  - intros b'. cbn. rewrite Hp. intros Hb'. apply (ci_known _ _ _ _ _ _ Hinv) in Hb' as (Hca & _ & _).
    by apply (view_cached c G s _ _ (dr_view s nxt Hr)) in Hca as [? _].
  - apply sort_committed_sorted.
  - cbn. by rewrite fmap_last, Hlast.
  - cbn. by exists l.
  - cbn. lia.
Qed.

End Node.
End FlexBuild.
