(* ===== verification/FlexCommit.v ===== *)
(** * The commits of the flex committer

    A call of [try_commit] returns: it brings the pending decisions to the
    schedule of the next commit, decides what can be decided, and either finds
    nothing to commit or builds the commit of the first round with a committed
    leader.  Two authorities that build the commit of the same schedule on top
    of the same commit build the same commit. *)

From S2P Require Import Prelude BTree Config Block Commit Store StakeAggregator ThresholdClock.
From S2P Require Import LeaderScoring DagState DagTheory DagTraversal LeaderSchedule CommitRule Linearizer CommitTimestamp.
From S2P Require Import V3Metadata SlotRule LeaderSlotDecider SlotDeciderTheory LeaderScheduleV3 FlexCommitter.
From S2P Require Import FlexRounds FlexLeaders FlexCollect FlexTimestamp FlexBuild.
Local Open Scope N_scope.

(** ** The rounds that are dropped *)

Lemma drop_rounds_spec m min rounds :
  (∀ k rs, rounds !! k = Some rs → rst_round rs = m + N.of_nat k) →
  drop_rounds_below min rounds = drop (N.to_nat (min - m)) rounds.
Proof.
  revert m. induction rounds as [|rs rounds IH]; intros m Hr; [by rewrite drop_nil|]. cbn [drop_rounds_below].
  pose proof (Hr 0%nat rs eq_refl) as H0r. destruct (N.ltb_spec (rst_round rs) min) as [Hlt|Hge].
  - rewrite (IH (m + 1)).
    + replace (N.to_nat (min - m)) with (Datatypes.S (N.to_nat (min - (m + 1)))) by lia. done.
    + intros k rs' Hk. specialize (Hr (Datatypes.S k) rs' Hk). lia.
  - by replace (N.to_nat (min - m)) with 0%nat by lia.
Qed.

Section FlexCommit.
Context `{Profile} `{Crypto} `{CommitBcs} `{Rng} `{Hrng : !RngLaws} {S : Type} `{StoreLaws S}.
Context (c : Committee) (G : BlockRef → option VerifiedBlock).
Context (Hwf : Committee_wf c) (Hv3 : v3_thresholds c) (Hdag : dag_valid c G) (Hdist : distinct_ancestors G).
Context (byz : gset AuthorityIndex) (Hmaj : honest_majority c G byz).
Context (Hbcs : ∀ commit, is_Some (bcs_commit commit)).
Implicit Types (s : DagState S) (b l : VerifiedBlock) (rs : RoundState) (p : PendingCommitState) (fc : FlexCommitter).
Implicit Types nxt : NextCommitLeaderSchedule.

(** ** The schedule of the next commit *)

Abbreviation min_round := nc_min_next_leader_round (only parsing).

(** A committer whose pending decisions are those of the schedule, or of an
    earlier one with, where the leaders are the same, decisions that still hold. *)
Record committer_ready s fc nxt : Prop := {
  cy_context : ctx_committee (fc_context fc) = c;
  cy_decider : ctx_committee (sd_context (fc_slot_decider fc)) = c;
  cy_progress : fc_schedule fc = nxt ∨
    (nc_next_commit_index (fc_schedule fc) < nc_next_commit_index nxt ∧ min_round (fc_schedule fc) < min_round nxt);
  cy_rounds : ∀ k rs, pcs_rounds (fc_pending_commit_state fc) !! k = Some rs →
    rst_round rs = min_round (fc_schedule fc) + N.of_nat k ∧
    (nc_allowed_leaders (fc_schedule fc) = nc_allowed_leaders nxt → min_round nxt ≤ rst_round rs →
     round_state_ok c G (nc_allowed_leaders nxt) s rs);
  cy_bound : min_round (fc_schedule fc) + N.of_nat (length (pcs_rounds (fc_pending_commit_state fc))) ≤ u32_max;
}.

Lemma new_committer_ready s ctx nxt :
  ctx_committee ctx = c → 0 < nc_next_commit_index nxt → 0 < min_round nxt →
  committer_ready s (FlexCommitter_new ctx) nxt.
Proof using.
  intros Hc Hi Hm. split; [done..|by right|by intros [|k] rs|]. cbn. lia.
Qed.

Lemma refresh_spec s fc nxt :
  dag_ready c G s nxt → schedule_ok c nxt → committer_ready s fc nxt →
  ∃ fc', FlexCommitter_maybe_refresh_pending_commit_state fc nxt = Ret fc' ∧
    fc_ok c G (nc_allowed_leaders nxt) s fc' ∧ fc_schedule fc' = nxt ∧ fc_context fc' = fc_context fc.
Proof using.
  intros Hr Hs [Hc Hd Hp Hrounds Hbound]. unfold FlexCommitter_maybe_refresh_pending_commit_state. cbv zeta. fold (fc_schedule fc).
  pose proof (dr_gc c G s nxt Hr) as Hgc. pose proof (dr_highest c G s nxt Hr) as Hh.
  destruct Hp as [Heq|[Hi Hm]].
  { rewrite Heq, !N.eqb_refl, bool_decide_eq_true_2 by done. cbn [assert_that mbind M_bind]. exists fc. split_and!; [done| |done..].
    unfold fc_schedule in *. split; [done..| |by rewrite Heq|done]. split; [by rewrite Heq| |done].
    intros k rs Hk. destruct (Hrounds k rs Hk) as [Hrk Hok]. split; [done|]. apply Hok; [by rewrite Heq|]. rewrite Hrk, Heq. lia. }
  rewrite (proj2 (N.eqb_neq _ _)), !(proj2 (N.ltb_lt _ _)) by lia. cbn [assert_that mbind M_bind].
  destruct (bool_decide (nc_allowed_leaders (fc_schedule fc) = nc_allowed_leaders nxt)) eqn:Ha; cbn [negb].
  - apply bool_decide_eq_true in Ha. rewrite (drop_rounds_spec (min_round (fc_schedule fc))) by (intros k rs Hk; apply (Hrounds k rs Hk)).
    set (n := N.to_nat (min_round nxt - min_round (fc_schedule fc))).
    set (rounds := drop n (pcs_rounds (fc_pending_commit_state fc))).
    assert (∀ k rs, rounds !! k = Some rs → rst_round rs = min_round nxt + N.of_nat k ∧
              round_state_ok c G (nc_allowed_leaders nxt) s rs) as Hnew.
    { intros k rs Hk. unfold rounds in Hk. rewrite lookup_drop in Hk. destruct (Hrounds _ rs Hk) as [Hrk Hok].
      assert (rst_round rs = min_round nxt + N.of_nat k) by lia. split; [done|]. apply Hok; [done|lia]. }
    assert (match rounds with
            | first :: _ => assert_that (rst_round first =? min_round nxt) "first.round == min_next_leader_round"
            | [] => Ret tt
            end = Ret tt) as ->.
    { destruct rounds as [|rs rounds']; [done|]. destruct (Hnew 0%nat rs eq_refl) as [-> _].
      by rewrite (proj2 (N.eqb_eq _ _)) by lia. }
    cbn [mbind M_bind]. eexists. split; [done|]. split; [|done]. split; [done..| |done|done].
    split; [done|done|]. cbn [set_pending_commit_state fc_pending_commit_state pcs_rounds pcs_next_commit_leaders].
    pose proof (sk_bound c nxt Hs). unfold rounds. rewrite length_drop. lia.
  - eexists. split; [done|]. split; [|done]. split; [done..| |done|done].
    split; [done|by intros [|k] rs|]. cbn. pose proof (sk_bound c nxt Hs). lia.
Qed.

(** Decisions survive as long as the blocks do: the states of rounds above
    garbage collection hold in a later state of the DAG. *)
Lemma round_state_later s s' allowed rs :
  ds_ok s → ds_ok s' → (∀ r b, ds_block s r = Some b → ds_block s' r = Some b) → DagState_gc_round s' < rst_round rs →
  round_state_ok c G allowed s rs → round_state_ok c G allowed s' rs.
Proof using Hrng.
  intros Hok Hok' Hkeep Hgc Hrs. pose proof Hrs as [Hsl He Hu Hn]. split; [done| |done..].
  intros ls Hls. pose proof (He ls Hls) as Hl. unfold leader_slot_ok in *.
  destruct (LeaderStatus_is_decided (lsl_leader_status ls)) eqn:Hd; [|done]. destruct Hl as [[Hdec Hca] Hsome]. split; [|done].
  split; [done|]. intros b Hb. pose proof (Hca b Hb) as Hcb. apply block_above_gc_cached; [done|by apply Hkeep, cached_is_block|].
  destruct (committed_leader_spec c G allowed s rs b Hrs) as (_ & _ & Hr & _).
  - apply list_elem_of_omap. exists ls. split; [done|]. unfold committed_block. by rewrite Hb.
  - change (DagState_gc_round s' < b_round b). by rewrite Hr.
Qed.

Lemma committer_ready_later s s' fc nxt nxt' :
  ds_ok s → ds_ok s' → (∀ r b, ds_block s r = Some b → ds_block s' r = Some b) →
  fc_ok c G (nc_allowed_leaders nxt) s fc → fc_schedule fc = nxt → DagState_gc_round s' < min_round nxt' →
  nxt' = nxt ∨ (nc_next_commit_index nxt < nc_next_commit_index nxt' ∧ min_round nxt < min_round nxt') →
  committer_ready s' fc nxt'.
Proof using Hrng.
  intros Hok Hok' Hkeep [Hc Hd [Ha Hr Hb] _ _] Hs Hgc Hp. unfold fc_schedule in Hs. rewrite Hs in *.
  split; unfold fc_schedule; rewrite ?Hs; [done..|destruct Hp as [->|?]; auto| |done].
  intros k rs Hk. destruct (Hr k rs Hk) as [Hrk Hrs]. split; [done|]. intros Hsame Hmin. rewrite <- Hsame.
  apply (round_state_later s); [done..|lia|done].
Qed.

(** ** One attempt to commit *)

(** The pending decisions [fc'] after an attempt; the commit is built unless
    the stake of its leaders is in the gap. *)
Definition attempt s fc nxt fc' : Prop :=
  FlexCommitter_try_commit fc s nxt = Ret (fc', s, None) ∨
  ∃ r k rs, commit_round c G (nc_allowed_leaders nxt) s (fc_pending_commit_state fc') r k rs ∧
    ((stake_gap c (committed_leaders (rst_leader_slots rs)) ∧ FlexCommitter_try_commit fc s nxt = Panic timestamp_panic) ∨
     (¬ stake_gap c (committed_leaders (rst_leader_slots rs)) ∧
      ∃ s' tc sd, FlexCommitter_try_commit fc s nxt = Ret (fc', s', Some (tc, sd)) ∧
        FlexCommitter_build_commit fc' s r = Ret (s', (tc, sd)) ∧
        built G s fc' r (committed_leaders (rst_leader_slots rs)) s' tc sd)).

Lemma try_commit_spec s fc nxt :
  dag_ready c G s nxt → schedule_ok c nxt → committer_ready s fc nxt →
  ∃ fc', fc_ok c G (nc_allowed_leaders nxt) s fc' ∧ fc_schedule fc' = nxt ∧ attempt s fc nxt fc'.
Proof using Hrng Hwf Hv3 Hdag Hdist Hmaj Hbcs.
  intros Hr Hs Hy. unfold attempt, FlexCommitter_try_commit.
  destruct (refresh_spec s fc nxt Hr Hs Hy) as (fc0 & -> & Hfc0 & Hs0 & _). cbn [mbind M_bind].
  pose proof (sk_NoDup c nxt Hs) as Hnd. pose proof (dr_view c G s nxt Hr) as Hv.
  destruct (try_direct_commit_spec c G (nc_allowed_leaders nxt) Hnd Hwf Hv3 Hdag Hdist byz Hmaj fc0 s Hv Hfc0) as (fc1 & -> & Hfc1 & Hs1).
  cbn [mbind M_bind]. rewrite Hs0 in Hs1.
  destruct (FlexCommitter_find_commit_leader_round fc1) as [r|] eqn:Hf.
  { exists fc1. split_and!; [done..|]. right. destruct (find_commit_spec c G _ s _ r (fk_pending _ _ _ _ _ Hfc1) Hf) as (k & rs & Hcr).
    exists r, k, rs. split; [done|].
    destruct (build_commit_spec c G Hwf Hdag Hbcs nxt Hs s fc1 r k rs Hr Hfc1 Hs1 Hcr) as [[Hg ->]|(Hg & s' & tc & sd & -> & Hb)];
      [by left|right]. split; [done|]. by exists s', tc, sd. }
  destruct (try_indirect_commit_spec c G (nc_allowed_leaders nxt) Hnd Hwf Hv3 Hdag Hdist byz Hmaj fc1 s Hv Hfc1) as (fc2 & -> & Hfc2 & Hs2).
  cbn [mbind M_bind]. rewrite Hs1 in Hs2. exists fc2. split_and!; [done..|].
  destruct (FlexCommitter_find_commit_leader_round fc2) as [r|] eqn:Hf2; [right|by left].
  destruct (find_commit_spec c G _ s _ r (fk_pending _ _ _ _ _ Hfc2) Hf2) as (k & rs & Hcr).
  exists r, k, rs. split; [done|].
  destruct (build_commit_spec c G Hwf Hdag Hbcs nxt Hs s fc2 r k rs Hr Hfc2 Hs2 Hcr) as [[Hg ->]|(Hg & s' & tc & sd & -> & Hb)];
    [by left|right]. split; [done|]. by exists s', tc, sd.
Qed.

(** ** Two authorities *)

Lemma calculate_committee ctx1 ctx2 s (leaders : list VerifiedBlock) :
  ctx_committee ctx1 = ctx_committee ctx2 → calculate_commit_timestamp ctx1 s leaders = calculate_commit_timestamp ctx2 s leaders.
Proof using.
  intros Hc.
  assert (∀ blocks, commit_timestamp_of ctx1 s blocks = commit_timestamp_of ctx2 s blocks) as Hof.
  { intros blocks. unfold commit_timestamp_of, median_timestamp_by_stake, collect_timestamp. by rewrite Hc. }
  unfold calculate_commit_timestamp. rewrite Hc. destruct (index leaders 0) as [l| |]; [|done..]. cbn [mbind M_bind].
  destruct (if overflow_checks then _ else _); [|done..]. cbn [mbind M_bind].
  destruct (stake_sum _ _) as [total| |]; [|done..]. cbn [mbind M_bind]. destruct (_ <=? total); [apply Hof|].
  destruct (foldM _ _ _) as [refs| |]; [|done..]. cbn [mbind M_bind].
  destruct (DagState_get_blocks _ _) as [opts| |]; [|done..]. cbn [mbind M_bind].
  destruct (mapP _ _) as [blocks| |]; [apply Hof|done..].
Qed.

Lemma build_agree s1 s2 fc1 fc2 nxt r k1 k2 rs1 rs2 s1' s2' built1 built2 :
  schedule_ok c nxt → dag_ready c G s1 nxt → dag_ready c G s2 nxt →
  fc_ok c G (nc_allowed_leaders nxt) s1 fc1 → fc_ok c G (nc_allowed_leaders nxt) s2 fc2 →
  fc_schedule fc1 = nxt → fc_schedule fc2 = nxt →
  commit_round c G (nc_allowed_leaders nxt) s1 (fc_pending_commit_state fc1) r k1 rs1 →
  commit_round c G (nc_allowed_leaders nxt) s2 (fc_pending_commit_state fc2) r k2 rs2 →
  committed_leaders (rst_leader_slots rs1) = committed_leaders (rst_leader_slots rs2) →
  ds_last_commit s1 = ds_last_commit s2 → twins c G s1 s2 →
  FlexCommitter_build_commit fc1 s1 r = Ret (s1', built1) → FlexCommitter_build_commit fc2 s2 r = Ret (s2', built2) →
  built1 = built2 ∧ twins c G s1' s2'.
Proof using Hrng Hwf Hdag.
  intros Hs Hr1 Hr2 Hfc1 Hfc2 Hs1 Hs2 Hcr1 Hcr2 Hleaders Hlast Htw.
  destruct (leaders_ready c G Hdag nxt Hs s1 fc1 r k1 rs1 Hr1 Hfc1 Hs1 Hcr1) as [Hlok1 Hlead1].
  destruct (leaders_ready c G Hdag nxt Hs s2 fc2 r k2 rs2 Hr2 Hfc2 Hs2 Hcr2) as [Hlok2 Hlead2].
  unfold FlexCommitter_build_commit.
  rewrite (get_round_state_commit c G nxt s1 _ r k1 rs1) by (done || apply Hfc1).
  rewrite (get_round_state_commit c G nxt s2 _ r k2 rs2) by (done || apply Hfc2). cbn [mbind M_bind].
  rewrite !collect_committed_decided by (apply Hcr1 || apply Hcr2). cbn [mbind M_bind]. rewrite <- Hleaders in *.
  set (leaders := committed_leaders (rst_leader_slots rs1)) in *. cbv zeta.
  intros ([] & _ & E1)%bind_Ret ([] & _ & E2)%bind_Ret. apply bind_Ret in E1 as ([] & _ & E1). apply bind_Ret in E2 as ([] & _ & E2).
  destruct (collect_commit_spec c G Hdag s1 leaders) as (m1 & t1 & f1 & Em1 & Ec1 & Hinv1 & _);
    [apply Htw|apply leaders_references_NoDup, Hlok1|done|].
  destruct (collect_commit_spec c G Hdag s2 leaders) as (m2 & t2 & f2 & Em2 & Ec2 & Hinv2 & _);
    [apply Htw|apply leaders_references_NoDup, Hlok1|done|].
  rewrite Em1 in E1. rewrite Em2 in E2. cbn [mbind M_bind] in E1, E2. rewrite Ec1 in E1. rewrite Ec2 in E2. cbn [mbind M_bind] in E1, E2.
  rewrite (tw_gc _ _ _ _ Htw) in Em2, Ec2.
  destruct (twins_leaders c G _ leaders s1 s2 m1 m2 Htw eq_refl Em1 Em2) as [Htwm Hgcm].
  destruct (twins_collect c G _ _ _ m1 m2 _ _ t1 t2 f1 f2 Htwm Hgcm Ec1 Ec2) as [Htwt <-].
  apply bind_Ret in E1 as (b1 & Eb1 & E1). rewrite Eb1 in E2. cbn [mbind M_bind] in E2.
  apply bind_Ret in E1 as ([] & _ & E1). apply bind_Ret in E2 as ([] & _ & E2).
  rewrite (calculate_committee (fc_context fc2) (fc_context fc1)) in E2
    by (rewrite (fk_context _ _ _ _ _ Hfc1); apply (fk_context _ _ _ _ _ Hfc2)).
  pose proof (ci_marks _ _ _ _ _ _ Hinv1) as Hm1. pose proof (ci_marks _ _ _ _ _ _ Hinv2) as Hm2.
  rewrite (calculate_commit_timestamp_agree (fc_context fc1) G) with (s := t1) (t := t2) (r := r) in E1.
  2,3: by rewrite (fk_context _ _ _ _ _ Hfc1).
  2,3: by eapply leaders_ok_marks.
  2:{ rewrite (only_marks_timestamp s1 t1), (only_marks_timestamp s2 t2) by done.
      unfold DagState_last_commit_timestamp_ms. by rewrite Hlast. }
  destruct (calculate_commit_timestamp (fc_context fc1) t2 leaders) as [ts| |]; [|done..]. cbn [mbind M_bind] in E1, E2.
  assert (DagState_last_commit_digest s1 = DagState_last_commit_digest s2) as Hdig by (unfold DagState_last_commit_digest; by rewrite Hlast).
  unfold fc_schedule in Hs1, Hs2. rewrite Hs1 in E1. rewrite Hs2, <- Hdig in E2.
  destruct (bcs_commit _) as [bytes|]; [|done]. injection E1 as <- <-. injection E2 as <- <-. done.
Qed.

(** Two authorities that build the commit of the same schedule build the same one. *)
Lemma try_commit_agree s1 s2 fc1 fc2 nxt fc1' fc2' s1' s2' built1 built2 :
  schedule_ok c nxt → dag_ready c G s1 nxt → dag_ready c G s2 nxt →
  committer_ready s1 fc1 nxt → committer_ready s2 fc2 nxt → ds_last_commit s1 = ds_last_commit s2 → twins c G s1 s2 →
  FlexCommitter_try_commit fc1 s1 nxt = Ret (fc1', s1', Some built1) →
  FlexCommitter_try_commit fc2 s2 nxt = Ret (fc2', s2', Some built2) → built1 = built2.
Proof using Hrng Hwf Hv3 Hdag Hdist Hmaj Hbcs.
  intros Hs Hr1 Hr2 Hy1 Hy2 Hlast Htw E1 E2.
  destruct (try_commit_spec s1 fc1 nxt Hr1 Hs Hy1) as (f1 & Hf1 & Hs1 & [Ha|(r1 & k1 & rs1 & Hc1 & [[_ Ha]|(_ & t1 & tc1 & sd1 & Ha & Hb1 & _)])]);
    [congruence..|]. rewrite E1 in Ha. injection Ha as <- <- ->.
  destruct (try_commit_spec s2 fc2 nxt Hr2 Hs Hy2) as (f2 & Hf2 & Hs2 & [Ha|(r2 & k2 & rs2 & Hc2 & [[_ Ha]|(_ & t2 & tc2 & sd2 & Ha & Hb2 & _)])]);
    [congruence..|]. rewrite E2 in Ha. injection Ha as <- <- ->.
  destruct (commit_rounds_agree c G (nc_allowed_leaders nxt) Hwf Hv3 Hdag Hdist byz Hmaj s1 s2 (fc_pending_commit_state fc1')
    (fc_pending_commit_state fc2') r1 r2 k1 k2 rs1 rs2) as [<- Hlead]; [apply Hf1|apply Hf2| |done..|].
  { unfold fc_schedule in Hs1, Hs2. by rewrite Hs1, Hs2. }
  by destruct (build_agree s1 s2 fc1' fc2' nxt r1 k1 k2 rs1 rs2 s1' s2' (tc1, sd1) (tc2, sd2)) as [Heq _].
Qed.

End FlexCommit.
