(* ===== verification/FlexMarks.v ===== *)
(** * Commit marks across operations on the DAG state

    Apart from committing itself, no operation changes a commit mark above the
    garbage collection round: accepted blocks start unmarked, a flush evicts
    below that round only. *)

From S2P Require Import Prelude BTree Config Block Commit Store StakeAggregator ThresholdClock.
From S2P Require Import LeaderScoring DagState DagTheory DagRecovery CommitRule ProposerHistory V3Metadata V3Run.
From S2P Require Import SlotRule LeaderSlotDecider SlotDeciderTheory LeaderScheduleV3 FlexCommitter FlexCollect.
Local Open Scope N_scope.

Section FlexMarks.
Context `{Profile} `{Crypto} {S : Type} `{StoreLaws S}.
Implicit Types (s : DagState S) (b : VerifiedBlock) (op : DagOp).

Definition mark s (r : BlockRef) : option bool := bi_committed <$> ds_recent_blocks s !! r.

Lemma mark_committed s r : committed_ref s r ↔ mark s r = Some true.
Proof. unfold committed_ref, mark. rewrite fmap_Some. naive_solver. Qed.

(** The operations besides those of a commit. *)
Definition background op : Prop :=
  match op with OpSetCommitted _ | OpAddCommit _ => False | _ => True end.

(** What they leave of a state: marks of known blocks above garbage collection,
    new blocks unmarked, evicted ones gone. *)
Record marks_kept s s' : Prop := {
  mk_last : ds_last_commit s' = ds_last_commit s;
  mk_above : ∀ r m, DagState_gc_round s < br_round r → mark s r = Some m → mark s' r = Some m;
  mk_from : ∀ r m, mark s' r = Some m → mark s r = Some m ∨ (m = false ∧ ds_block s r = None);
}.

Lemma marks_kept_same s s' :
  ds_last_commit s' = ds_last_commit s → (∀ r, mark s' r = mark s r) → marks_kept s s'.
Proof. intros Hl Hm. split; [done|intros r m _; by rewrite Hm|]. intros r m. rewrite Hm. by left. Qed.

Lemma update_children_marks s v recent ancestors recent' :
  foldM (update_children s v) recent ancestors = Ret recent' →
  ∀ r, bi_committed <$> recent' !! r = bi_committed <$> recent !! r.
Proof.
  apply (foldM_invariant _ (λ m, ∀ r, bi_committed <$> m !! r = bi_committed <$> recent !! r)); [|done].
  intros m a m' _ Hm Hu r. rewrite <- Hm. unfold update_children in Hu. apply bind_Ret in Hu as (next & _ & Hu).
  destruct (_ || _); [by injection Hu as <-|]. destruct (m !! a) as [info|] eqn:Ha; [|done].
  apply bind_Ret in Hu as ([stake fresh] & _ & [= <-]). destruct (decide (a = r)) as [<-|].
  - by rewrite lookup_insert_eq, Ha.
  - by rewrite lookup_insert_ne.
Qed.

Lemma link_loop_marks fuel gc recent linked targets recent' linked' :
  link_loop fuel gc recent linked targets = Ret (recent', linked') →
  ∀ r, bi_committed <$> recent' !! r = bi_committed <$> recent !! r.
Proof.
  revert recent linked targets. induction fuel as [|fuel IH]; intros recent linked targets; simpl; [done|].
  destruct targets as [|r targets]; [by intros [= -> _]|].
  destruct (_ <=? _); [apply IH|]. destruct (recent !! r) as [info|] eqn:Hr; [|done].
  destruct (bi_included info); [apply IH|]. intros Hs r'. rewrite (IH _ _ _ Hs r').
  destruct (decide (r = r')) as [<-|]; [by rewrite lookup_insert_eq, Hr|by rewrite lookup_insert_ne].
Qed.

Lemma evict_loop_subset er recent refs sorted : (evict_loop er recent refs sorted).1 ⊆ recent.
Proof.
  revert recent refs. induction sorted as [|r sorted IH]; intros recent refs; simpl; [done|].
  destruct (_ <=? _); [|done]. etrans; [apply IH|apply delete_subseteq].
Qed.

Lemma evict_authority_subset s i s' :
  evict_authority s i = Ret s' →
  ds_recent_blocks s' ⊆ ds_recent_blocks s ∧ ds_highest_accepted_round s' = ds_highest_accepted_round s.
Proof.
  unfold evict_authority. intros He. apply bind_Ret in He as (er & _ & He). apply bind_Ret in He as (refs & _ & He).
  pose proof (evict_loop_subset er (ds_recent_blocks s) refs (bset_list refs)) as Hsub.
  destruct (evict_loop _ _ _ _) as [recent refs']. mskip He. by injection He as <-.
Qed.

(** Acceptance: a new block starts unmarked, and may raise the highest round. *)
Lemma accept_marks s b s' :
  ds_ok s → enabled_v3 s → block_valid s b → DagState_accept_block s b = Ret s' →
  marks_kept s s' ∧ ds_highest_accepted_round s' ≤ N.max (ds_highest_accepted_round s) (b_round b).
Proof.
  intros Hok Hv3 Hval Hacc. destruct (ds_block s (reference b)) as [b0|] eqn:Hnone.
  { rewrite (accept_known s b s') by (done || by eexists). split; [by apply marks_kept_same|lia]. }
  destruct (accept_new s b s' Hok Hval Hnone Hacc) as (s1 & Hs1 & ->).
  destruct (update_block_metadata_fields s b s1 Hs1) as (_ & _ & _ & _ & _ & _ & _ & _ & _ & _ & Hl & Hh & _).
  destruct (metadata_v3_fields s b s1 Hv3 Hs1) as [Hrec _]. pose proof (update_children_marks _ _ _ _ _ Hrec) as Hm.
  assert (∀ r, mark s1 r = if decide (r = reference b) then Some false else mark s r) as Hmark.
  { intros r. unfold mark. rewrite Hm. case_decide as Hr; [by rewrite Hr, lookup_insert_eq|by rewrite lookup_insert_ne]. }
  assert (mark s (reference b) = None) as Hnm.
  { unfold mark. destruct (ds_recent_blocks s !! reference b) as [info|] eqn:E; [|done].
    assert (ds_cached s (reference b) = Some (bi_block info)) as Hc by (unfold ds_cached; by rewrite E).
    apply cached_is_block in Hc; [congruence|done]. }
  split; [|change (ds_highest_accepted_round s1 ≤ N.max (ds_highest_accepted_round s) (b_round b)); lia].
  split; [done| |].
  - intros r m _ Hr. change (mark s1 r = Some m). rewrite Hmark. case_decide as Heq; [|done]. congruence.
  - intros r m Hr. change (mark s1 r = Some m) in Hr. rewrite Hmark in Hr. case_decide as Heq; [|by left].
    injection Hr as <-. right. by rewrite Heq.
Qed.

Lemma flush_marks s s' :
  ds_ok s → DagState_flush s = Ret s' →
  marks_kept s s' ∧ ds_highest_accepted_round s' = ds_highest_accepted_round s.
Proof.
  intros Hok Hf. destruct (flush_spec s Hok) as (s'' & Hf' & _ & _ & Hctx & Hlc & Hb & _).
  rewrite Hf in Hf'. injection Hf' as <-. unfold DagState_flush in Hf. cbv zeta in Hf.
  destruct (_ && _ && _ && _); [injection Hf as <-; by split; [apply marks_kept_same|]|].
  apply bind_Ret in Hf as (store & _ & Hf). apply bind_Ret in Hf as (s1 & Hs1 & [= <-]).
  set (s0 := set_store store _) in Hs1.
  apply (foldM_invariant _ (λ s1, DagState_gc_round s1 = DagState_gc_round s ∧
      ds_highest_accepted_round s1 = ds_highest_accepted_round s ∧ ds_recent_blocks s1 ⊆ ds_recent_blocks s ∧
      ∀ r, DagState_gc_round s < br_round r → ds_recent_blocks s1 !! r = ds_recent_blocks s !! r)) in Hs1 as (_ & Hh & Hsub & Hr).
  - split; [|done]. split; [done| |].
    + intros r m Hgc Hm. unfold mark. simpl. by rewrite Hr.
    + intros r m Hm. left. unfold mark in *. simpl in Hm. apply fmap_Some in Hm as (info & Hi & ->).
      by rewrite (lookup_weaken _ _ _ _ Hi Hsub).
  - intros s2 i s3 _ (Hg & Hh & Hsub & Hr) He. pose proof (evict_authority_votes s2 i s3 He) as (Hc3 & Hl3 & _ & Hr3).
    destruct (evict_authority_subset s2 i s3 He) as [Hsub3 Hh3].
    split_and!; [by rewrite (gc_round_same s2 s3)|congruence|by etrans|]. intros r Hgt. rewrite Hr3 by (by rewrite Hg). by apply Hr.
  - done.
Qed.

Lemma run_op_marks s op s' :
  ds_ok s → enabled_v3 s → background op → v3_op_ready s op → run_op s op = Ret s' →
  marks_kept s s' ∧ (ds_highest_accepted_round s < u32_max → ds_highest_accepted_round s' < u32_max).
Proof.
  intros Hok Hv3 Hbg Hr Hrun. destruct op; simpl in *; try done.
  - destruct (accept_marks s block s' Hok Hv3 (vf_valid s block Hr) Hrun) as [Hm Hh]. split; [done|].
    pose proof (vf_round s block Hr). lia.
  - destruct (flush_marks s s' Hok Hrun) as [Hm ->]. done.
  - apply fmap_fst_Ret in Hrun as [f Hrun]. pose proof (link_causal_history_view s r s' f Hrun) as [_ Hl].
    unfold DagState_link_causal_history in Hrun. apply bind_Ret in Hrun as ([recent l] & Hloop & [= <- _]).
    split; [|done]. apply marks_kept_same; [done|]. intros r'. by apply (link_loop_marks _ _ _ _ _ _ _ Hloop).
  - unfold DagState_add_commit_info in Hrun. mskip Hrun. injection Hrun as <-. split; [by apply marks_kept_same|done].
  - injection Hrun as <-. split; [by apply marks_kept_same|done].
  - injection Hrun as <-. unfold DagState_take_commit_votes. destruct (take_votes_loop _ _ _). split; [by apply marks_kept_same|done].
  - unfold DagState_add_scoring_subdags in Hrun. mskip Hrun. injection Hrun as <-. split; [by apply marks_kept_same|done].
  - injection Hrun as <-. split; [by apply marks_kept_same|done].
Qed.

End FlexMarks.
