(* ===== verification/FlexChain.v ===== *)
(** * The chain of commits under rule v3

    An authority accepts blocks, flushes, and commits with the schedule that its
    past commits give; whatever the order of these steps at two authorities, the
    commits of one are a prefix of the commits of the other, and an attempt to
    commit fails only on the timestamp. *)

From S2P Require Import Prelude BTree Config Block Commit Store StakeAggregator ThresholdClock.
From S2P Require Import LeaderScoring DagState DagTheory DagRecovery DagTraversal LeaderSchedule LeaderScheduleV3 CommitRule Linearizer.
From S2P Require Import CommitTimestamp ProposerHistory V3Metadata V3Run SlotRule LeaderSlotDecider SlotDeciderTheory FlexCommitter.
From S2P Require Import FlexRounds FlexLeaders FlexCollect FlexTimestamp FlexBuild FlexCommit FlexMarks.
Local Open Scope N_scope.

(** ** The schedule of the next commit, as a function of the commits *)

Class CommitSchedule : Type := next_schedule : list CommittedSubDag → option NextCommitLeaderSchedule.

Definition last_index (commits : list CommittedSubDag) : CommitIndex :=
  default 0 ((λ sd, cr_index (sd_commit_ref sd)) <$> last commits).
Definition last_leader_round (commits : list CommittedSubDag) : Round :=
  default 0 ((λ sd, br_round (sd_leader sd)) <$> last commits).

Class CommitScheduleLaws (c : Committee) `{CommitSchedule} : Prop := {
  next_schedule_ok : ∀ commits nxt, next_schedule commits = Some nxt → schedule_ok c nxt;
  next_schedule_index : ∀ commits nxt, next_schedule commits = Some nxt →
    nc_next_commit_index nxt = last_index commits + 1;
  next_schedule_round : ∀ commits nxt, next_schedule commits = Some nxt →
    nc_min_next_leader_round nxt = last_leader_round commits + 1;
}.

Section FlexChain.
Context `{Profile} `{Crypto} `{CommitBcs} `{Rng} `{Hrng : !RngLaws} {S : Type} `{StoreLaws S}.
Context (c : Committee) (G : BlockRef → option VerifiedBlock).
Context (Hwf : Committee_wf c) (Hv3 : v3_thresholds c) (Hdag : dag_valid c G) (Hdist : distinct_ancestors G).
Context (byz : gset AuthorityIndex) (Hmaj : honest_majority c G byz).
Context (Hbcs : ∀ commit, is_Some (bcs_commit commit)).
Context (depth : Round) (Hdepth : 1 ≤ depth).
Context `{CommitSchedule} `{Hlaws : !CommitScheduleLaws c}.
Implicit Types (s : DagState S) (b : VerifiedBlock) (fc : FlexCommitter) (tc : TrustedCommit).

(** ** Authorities *)

Abbreviation commit_pair := (TrustedCommit * CommittedSubDag)%type (only parsing).

Record node : Type := mkNode {
  nd_dag : DagState S;
  nd_committer : FlexCommitter;
  nd_commits : list commit_pair;
}.
Implicit Types n : node.

Inductive node_step : node → node → Prop :=
  | step_background s fc cs op s' :
      background op → v3_op_ready s op → (∀ b, op = OpAccept b → G (reference b) = Some b) →
      run_op s op = Ret s' → node_step (mkNode s fc cs) (mkNode s' fc cs)
  | step_idle s fc cs nxt fc' s' :
      next_schedule cs.*2 = Some nxt → FlexCommitter_try_commit fc s nxt = Ret (fc', s', None) →
      node_step (mkNode s fc cs) (mkNode s' fc' cs)
  | step_commit s fc cs nxt fc' s1 tc sd s2 :
      next_schedule cs.*2 = Some nxt → FlexCommitter_try_commit fc s nxt = Ret (fc', s1, Some (tc, sd)) →
      DagState_add_commit s1 tc = Ret s2 → node_step (mkNode s fc cs) (mkNode s2 fc' (cs ++ [(tc, sd)])).

(** A new authority, on an empty store. *)
Inductive initial : node → Prop :=
  | initial_node ctx store gs s :
      ctx_committee ctx = c → 1 ≤ ctx_dag_state_cached_rounds ctx → pc_enable_v3 (ctx_protocol_config ctx) = true →
      pc_gc_depth (ctx_protocol_config ctx) = depth → genesis_blocks ctx = Ret gs → store_fresh store →
      (∀ r, br_round r = 0 → G r = genesis_map gs !! r) → DagState_new ctx store = Ret s →
      initial (mkNode s (FlexCommitter_new ctx) []).

Definition reachable n : Prop := ∃ n0, initial n0 ∧ rtc node_step n0 n.

(** ** The invariant *)

(** The blocks of the commits. *)
Definition done_refs (cs : list commit_pair) : list BlockRef := concat ((λ p : commit_pair, c_blocks p.1) <$> cs).

Record node_ok n : Prop := {
  no_view : v3_view c G (nd_dag n);
  no_enabled : enabled_v3 (nd_dag n);
  no_depth : pc_gc_depth (DagState_protocol_config (nd_dag n)) = depth;
  no_last : ds_last_commit (nd_dag n) = fst <$> last (nd_commits n);
  no_pairs : ∀ tc sd, (tc, sd) ∈ nd_commits n → sd_commit_ref sd = TrustedCommit_reference tc ∧ sd_leader sd = c_leader tc;
  no_marks : ∀ r m, DagState_gc_round (nd_dag n) < br_round r → mark (nd_dag n) r = Some m →
    m = bool_decide (r ∈ done_refs (nd_commits n));
  no_done : ∀ r, r ∈ done_refs (nd_commits n) → is_Some (ds_block (nd_dag n) r);
  no_low : ∀ r, committed_ref (nd_dag n) r → br_round r ≤ DagState_last_commit_round (nd_dag n);
  no_genesis : ∀ r b, G r = Some b → br_round r = 0 → ds_block (nd_dag n) r = Some b;
  no_highest : ds_highest_accepted_round (nd_dag n) < u32_max;
  no_committer : ∀ nxt, next_schedule (nd_commits n).*2 = Some nxt → committer_ready c G (nd_dag n) (nd_committer n) nxt;
}.

Lemma last_commit_round_pairs n :
  node_ok n → last_leader_round (nd_commits n).*2 = DagState_last_commit_round (nd_dag n) ∧
              last_index (nd_commits n).*2 = DagState_last_commit_index (nd_dag n).
Proof using.
  intros Hok. unfold last_leader_round, last_index, DagState_last_commit_round, DagState_last_commit_index.
  rewrite (no_last n Hok), fmap_last. destruct (last (nd_commits n)) as [[tc sd]|] eqn:El; [|done].
  rewrite last_lookup in El. apply list_elem_of_lookup_2 in El. destruct (no_pairs n Hok tc sd El) as [Hc Hl].
  simpl. by rewrite Hc, Hl.
Qed.

Lemma node_gc n : node_ok n → DagState_gc_round (nd_dag n) = DagState_last_commit_round (nd_dag n) - depth.
Proof using. intros Hok. unfold DagState_gc_round, DagState_calculate_gc_round. by rewrite (no_depth n Hok). Qed.

(** What the invariant gives an attempt to commit. *)
Lemma node_dag_ready n nxt :
  node_ok n → next_schedule (nd_commits n).*2 = Some nxt → dag_ready c G (nd_dag n) nxt ∧ schedule_ok c nxt.
Proof using Hlaws Hdepth.
  intros Hok Hs. split; [|by eapply next_schedule_ok]. pose proof (next_schedule_round _ _ Hs) as Hr.
  destruct (last_commit_round_pairs n Hok) as [Hlr _]. rewrite Hlr in Hr. pose proof (node_gc n Hok).
  split; [apply Hok| |lia|lia|apply Hok|apply Hok]. intros r Hc%(no_low n Hok). lia.
Qed.

(** ** The steps *)

Lemma committer_ready_kept s s' fc nxt :
  ds_ok s → ds_ok s' → (∀ r b, ds_block s r = Some b → ds_block s' r = Some b) → DagState_gc_round s' < nc_min_next_leader_round nxt →
  committer_ready c G s fc nxt → committer_ready c G s' fc nxt.
Proof using Hrng.
  intros Hok Hok' Hkeep Hgc [Hc Hd Hp Hr Hb]. split; [done..| |done]. intros k rs Hk. destruct (Hr k rs Hk) as [Hrk Hrs].
  split; [done|]. intros Ha Hm. apply (round_state_later c G s); [done..|by eapply N.lt_le_trans|by apply Hrs].
Qed.

Lemma background_ok s fc cs op s' :
  node_ok (mkNode s fc cs) → background op → v3_op_ready s op → (∀ b, op = OpAccept b → G (reference b) = Some b) →
  run_op s op = Ret s' → node_ok (mkNode s' fc cs).
Proof using Hrng Hlaws Hdepth.
  intros Hn Hbg Hready HG Hrun. pose proof (no_view _ Hn) as Hv. pose proof (vw_ok c G s Hv) as Hok.
  destruct (run_op_spec s op s' Hok (v3_op_valid s op Hready) Hrun) as (Hok' & Hctx & _ & Hb).
  destruct (run_op_marks s op s' Hok (no_enabled _ Hn) Hbg Hready Hrun) as [[Hl Habove Hfrom] Hh].
  assert (∀ r b, ds_block s r = Some b → ds_block s' r = Some b) as Hkeep.
  { intros r b Hr. rewrite Hb. destruct op; simpl; try done. rewrite decide_False; [done|]. intros [_ ?]. congruence. }
  assert (DagState_gc_round s' = DagState_gc_round s) as Hgc by (by apply gc_round_same).
  split; cbn [nd_dag nd_committer nd_commits] in *.
  - split; [done|apply (run_op_v3 s op); [done|apply Hn|apply Hv|done|done]|unfold DagState_committee; rewrite Hctx; apply Hv|].
    intros r b Hr. rewrite Hb in Hr. destruct op; simpl in Hr; try by apply (vw_sub c G s Hv).
    case_decide as Hd; [|by apply (vw_sub c G s Hv)]. injection Hr as <-. destruct Hd as [-> _]. by apply HG.
  - unfold enabled_v3, DagState_protocol_config. rewrite Hctx. apply (no_enabled _ Hn).
  - unfold DagState_protocol_config. rewrite Hctx. apply (no_depth _ Hn).
  - rewrite Hl. apply (no_last _ Hn).
  - apply (no_pairs _ Hn).
  - intros r m. rewrite Hgc. intros Hr Hm. destruct (Hfrom r m Hm) as [Hm'|[-> Hnone]]; [by apply (no_marks _ Hn)|].
    symmetry. apply bool_decide_eq_false. intros Hin. destruct (no_done _ Hn r Hin) as [b Hrb]. cbn [nd_dag] in Hrb. congruence.
  - intros r Hr. destruct (no_done _ Hn r Hr) as [b Hrb]. exists b. by apply Hkeep.
  - intros r Hr%mark_committed. unfold DagState_last_commit_round. rewrite Hl. apply (no_low _ Hn). apply mark_committed.
    by destruct (Hfrom r true Hr) as [?|[? _]].
  - intros r b Hr Hz. apply Hkeep. by apply (no_genesis _ Hn).
  - apply Hh, (no_highest _ Hn).
  - intros nxt Hs. apply (committer_ready_kept s); [done..| |by apply (no_committer _ Hn)].
    rewrite Hgc. apply (dr_gc c G s nxt). by apply (node_dag_ready (mkNode s fc cs) nxt Hn).
Qed.

Lemma idle_ok s fc cs nxt fc' s' :
  node_ok (mkNode s fc cs) → next_schedule cs.*2 = Some nxt → FlexCommitter_try_commit fc s nxt = Ret (fc', s', None) →
  node_ok (mkNode s' fc' cs).
Proof using Hrng Hwf Hv3 Hdag Hdist Hmaj Hbcs Hlaws Hdepth.
  intros Hn Hs Ht. destruct (node_dag_ready _ nxt Hn Hs) as [Hr Hso]. cbn [nd_dag nd_commits] in *.
  destruct (try_commit_spec c G Hwf Hv3 Hdag Hdist byz Hmaj Hbcs s fc nxt Hr Hso (no_committer _ Hn nxt Hs))
    as (f & Hf & Hfs & [Ha|(r & k & rs & _ & [[_ Ha]|(_ & s1 & tc & sd & Ha & _)])]); [|congruence..].
  rewrite Ht in Ha. injection Ha as -> ->. destruct Hn. split; try done. cbn [nd_dag nd_committer nd_commits] in *.
  intros nxt' Hs'. rewrite Hs in Hs'. injection Hs' as <-.
  apply (committer_ready_later c G s s f nxt nxt); [apply no_view0|apply no_view0|done|done|done|apply Hr|by left].
Qed.

(** Adding the next commit. *)
Lemma add_commit_advances s tc s' :
  (∀ last, ds_last_commit s = Some last → c_index last < c_index tc) → DagState_add_commit s tc = Ret s' →
  ds_last_commit s' = Some tc ∧ same_view s s' ∧ ds_recent_blocks s' = ds_recent_blocks s ∧
  ds_highest_accepted_round s' = ds_highest_accepted_round s.
Proof using.
  intros Hlt Ha. destruct (add_commit_view s tc s' Ha) as [Hv _]. unfold DagState_add_commit in Ha.
  apply bind_Ret in Ha as ([] & Hskip & Ha).
  - exfalso. destruct (ds_last_commit s) as [last|]; [|by mskip Hskip].
    specialize (Hlt last eq_refl). rewrite (proj2 (N.leb_gt _ _) Hlt) in Hskip. mskip Hskip. by destruct (_ <? _).
  - mskip Ha. injection Ha as <-. done.
Qed.

(** A committed leader is cached, in a round from the schedule's first one on. *)
Lemma commit_leader_cached s fc nxt r k rs l :
  fc_ok c G (nc_allowed_leaders nxt) s fc → fc_schedule fc = nxt →
  commit_round c G (nc_allowed_leaders nxt) s (fc_pending_commit_state fc) r k rs →
  l ∈ committed_leaders (rst_leader_slots rs) → ds_cached s (reference l) = Some l ∧ nc_min_next_leader_round nxt ≤ r < u32_max.
Proof using Hrng.
  intros Hfc Hs Hcr Hl. destruct (committed_leader_spec c G _ s rs l (cr_ok _ _ _ _ _ _ _ _ Hcr) Hl) as (Hca & _ & _). split; [done|].
  pose proof (fk_pending _ _ _ _ _ Hfc) as Hp. pose proof (cr_lookup _ _ _ _ _ _ _ _ Hcr) as Hk.
  destruct (pk_rounds _ _ _ _ _ Hp k rs Hk) as [Hrk _]. pose proof (pk_bound _ _ _ _ _ Hp) as Hb. apply lookup_lt_Some in Hk.
  rewrite <- (cr_round _ _ _ _ _ _ _ _ Hcr), Hrk. unfold fc_schedule in Hs. rewrite Hs in *. clear -Hb Hk. lia.
Qed.

Lemma done_refs_snoc cs tc sd x : x ∈ done_refs (cs ++ [(tc, sd)]) ↔ x ∈ done_refs cs ∨ x ∈ c_blocks tc.
Proof using. unfold done_refs. rewrite fmap_app, concat_app, elem_of_app. simpl. by rewrite app_nil_r. Qed.

(** The DAG state after a commit. *)
Record commits_to s tc s' : Prop := {
  ct_view : v3_view c G s';
  ct_context : ds_context s' = ds_context s;
  ct_last : ds_last_commit s' = Some tc;
  ct_block : ∀ r, ds_block s' r = ds_block s r;
  ct_committed : ∀ r, committed_ref s' r ↔ committed_ref s r ∨ r ∈ c_blocks tc;
  ct_known : ∀ r, is_Some (mark s' r) ↔ is_Some (mark s r);
  ct_highest : ds_highest_accepted_round s' = ds_highest_accepted_round s;
}.

Lemma built_commits s fc r leaders s1 tc sd s2 :
  v3_view c G s → built G s fc r leaders s1 tc sd → (∀ l, l ∈ leaders → ds_cached s (reference l) = Some l) →
  (∀ last, ds_last_commit s = Some last → c_index last < c_index tc) → DagState_last_commit_round s ≤ r →
  DagState_add_commit s1 tc = Ret s2 → commits_to s tc s2.
Proof using.
  intros Hv Hbu Hlead Hidx Hround Hadd. pose proof (bu_marks _ _ _ _ _ _ _ _ Hbu) as Hm.
  pose proof (only_marks_view c G s s1 Hm Hv) as Hv1.
  destruct (add_commit_advances s1 tc s2) as (Hlast & Hsv & Hrec & Hh); [by rewrite (om_commit _ _ Hm)|done|].
  assert (∀ x, ds_block s2 x = ds_block s x) as Hb.
  { intros x. rewrite (same_view_block s1 s2) by done. apply (same_view_block s s1), Hm. }
  assert (DagState_last_commit_round s1 ≤ c_round tc) as Hcr.
  { unfold DagState_last_commit_round at 1. rewrite (om_commit _ _ Hm). unfold c_round. by rewrite (bu_round _ _ _ _ _ _ _ _ Hbu). }
  assert (ds_context s2 = ds_context s1) as Hctx by apply Hsv. pose proof (sv_context _ _ (om_view _ _ Hm)) as Hctx1.
  split; [|congruence|done|done| | |by rewrite Hh, (om_highest _ _ Hm)].
  - split.
    + apply (same_view_ok s1); [done| |apply Hv1]. apply gc_round_mono; [done|]. unfold DagState_last_commit_round at 2. by rewrite Hlast.
    + apply (add_commit_v3 s1 tc); [done..| |apply Hv1].
      destruct (bu_leader _ _ _ _ _ _ _ _ Hbu) as (l & Hl & ->). apply cached_recent, (only_marks_known s s1 _ Hm), cached_recent.
      exists l. by apply Hlead.
    + unfold DagState_committee. rewrite Hctx, Hctx1. apply Hv.
    + intros x b. rewrite Hb. apply Hv.
  - intros x. unfold committed_ref at 1. rewrite Hrec. apply (bu_committed _ _ _ _ _ _ _ _ Hbu).
  - intros x. unfold mark. rewrite Hrec, !fmap_is_Some. by apply only_marks_known.
Qed.

(** The marks after a commit. *)
Lemma commit_marks s fc cs tc sd s2 :
  node_ok (mkNode s fc cs) → commits_to s tc s2 → DagState_gc_round s ≤ DagState_gc_round s2 →
  ∀ x m, DagState_gc_round s2 < br_round x → mark s2 x = Some m → m = bool_decide (x ∈ done_refs (cs ++ [(tc, sd)])).
Proof using.
  intros Hn [_ _ _ _ Hcom Hknown _] Hgc x m Hx Hmx. destruct (proj1 (Hknown x)) as [m0 Hm0]; [by eexists|].
  assert (m0 = bool_decide (x ∈ done_refs cs)) as Hd by (apply (no_marks _ Hn); [by eapply N.le_lt_trans|done]).
  assert (committed_ref s2 x ↔ x ∈ done_refs (cs ++ [(tc, sd)])) as Hiff.
  { rewrite Hcom, done_refs_snoc, mark_committed, Hm0, (inj_iff Some), Hd, bool_decide_eq_true. done. }
  symmetry. destruct m; [apply bool_decide_eq_true, Hiff; by apply mark_committed|].
  apply bool_decide_eq_false. intros Hc%Hiff%mark_committed. congruence.
Qed.

(** The schedule after a commit. *)
Lemma schedule_after_commit cs tc sd nxt :
  next_schedule (cs ++ [(tc, sd)]).*2 = Some nxt →
  sd_leader sd = c_leader tc ∧ sd_commit_ref sd = TrustedCommit_reference tc →
  nc_min_next_leader_round nxt = br_round (c_leader tc) + 1 ∧ nc_next_commit_index nxt = c_index tc + 1.
Proof using Hlaws.
  intros Hs [Hsl Hsr]. pose proof (next_schedule_round _ _ Hs) as Hr. pose proof (next_schedule_index _ _ Hs) as Hi.
  unfold last_leader_round in Hr. unfold last_index in Hi. rewrite fmap_app in Hr, Hi.
  change ([(tc, sd)].*2) with [sd] in Hr, Hi. rewrite last_snoc in Hr, Hi. simpl in Hr, Hi. by rewrite Hr, Hi, Hsl, Hsr.
Qed.

Lemma commit_ok s fc cs nxt fc' s1 tc sd s2 :
  node_ok (mkNode s fc cs) → next_schedule cs.*2 = Some nxt →
  FlexCommitter_try_commit fc s nxt = Ret (fc', s1, Some (tc, sd)) → DagState_add_commit s1 tc = Ret s2 →
  node_ok (mkNode s2 fc' (cs ++ [(tc, sd)])).
Proof using Hrng Hwf Hv3 Hdag Hdist Hmaj Hbcs Hlaws Hdepth.
  intros Hn Hs Ht Hadd. destruct (node_dag_ready _ nxt Hn Hs) as [Hr Hso]. cbn [nd_dag nd_commits] in *.
  destruct (try_commit_spec c G Hwf Hv3 Hdag Hdist byz Hmaj Hbcs s fc nxt Hr Hso (no_committer _ Hn nxt Hs))
    as (f & Hf & Hfs & [Ha|(r & k & rs & Hcr & [[_ Ha]|(_ & s1' & tc' & sd' & Ha & _ & Hbu)])]); [congruence..|].
  rewrite Ht in Ha. injection Ha as <- <- <- <-.
  pose proof (bu_marks _ _ _ _ _ _ _ _ Hbu) as Hm. pose proof (no_view _ Hn) as Hv. cbn [nd_dag] in Hv.
  destruct (bu_leader _ _ _ _ _ _ _ _ Hbu) as (l & Hl & Hlead).
  destruct (commit_leader_cached s fc' nxt r k rs l Hf Hfs Hcr Hl) as [Hlc [Hmin _]].
  pose proof (next_schedule_round _ _ Hs) as Hnr. pose proof (next_schedule_index _ _ Hs) as Hni.
  destruct (last_commit_round_pairs _ Hn) as [Hlr Hli]. cbn [nd_dag nd_commits] in Hlr, Hli.
  pose proof (bu_index _ _ _ _ _ _ _ _ Hbu) as Hidx. rewrite Hfs in Hidx. pose proof (bu_round _ _ _ _ _ _ _ _ Hbu) as Hround.
  assert (DagState_last_commit_round s < r) as Hrise by lia.
  assert (commits_to s tc s2) as Hct.
  { apply (built_commits s fc' r (committed_leaders (rst_leader_slots rs)) s1 tc sd s2); [done..| | |lia|done].
    - intros x Hx. by apply (commit_leader_cached s fc' nxt r k rs x Hf Hfs Hcr).
    - intros last Hll. unfold DagState_last_commit_index in Hli. rewrite Hll in Hli. lia. }
  pose proof Hct as [Hv2 Hctx Hlast Hblock Hcom _ Hhigh].
  assert (DagState_last_commit_round s2 = r) as Hlr2 by (unfold DagState_last_commit_round; by rewrite Hlast).
  assert (DagState_gc_round s ≤ DagState_gc_round s2) as Hgc by (apply gc_round_mono; [done|lia]).
  assert (∀ x, x ∈ c_blocks tc → br_round x ≤ r) as Hrounds.
  { intros x Hx%(bu_exact _ _ _ _ _ _ _ _ Hbu). apply (in_commit_round c G Hdag s (committed_leaders (rst_leader_slots rs)) r x); [|done].
    apply (leaders_ready c G Hdag nxt Hso s fc' r k rs Hr Hf Hfs Hcr). }
  split; cbn [nd_dag nd_committer nd_commits].
  - done.
  - unfold enabled_v3, DagState_protocol_config. rewrite Hctx. apply (no_enabled _ Hn).
  - unfold DagState_protocol_config. rewrite Hctx. apply (no_depth _ Hn).
  - by rewrite Hlast, last_snoc.
  - intros tc' sd' [Hin|Heq%list_elem_of_singleton]%elem_of_app; [by apply (no_pairs _ Hn)|]. injection Heq as -> ->.
    rewrite (bu_sub_dag _ _ _ _ _ _ _ _ Hbu). done.
  - by apply (commit_marks s fc cs tc sd s2).
  - intros x [Hx|Hx]%done_refs_snoc; rewrite Hblock; [by apply (no_done _ Hn)|].
    assert (committed_ref s2 x) as (info & Hi & _) by (apply Hcom; by right).
    rewrite <- Hblock. exists (bi_block info). apply cached_is_block; [apply Hv2|]. unfold ds_cached. by rewrite Hi.
  - intros x [Hx|Hx]%Hcom; rewrite Hlr2; [|by apply Hrounds]. apply (no_low _ Hn) in Hx. cbn [nd_dag] in Hx. lia.
  - intros x b Hx Hz. rewrite Hblock. by apply (no_genesis _ Hn).
  - rewrite Hhigh. apply (no_highest _ Hn).
  - intros nxt' Hs'. destruct (schedule_after_commit cs tc sd nxt' Hs') as [Hnr' Hni'].
    { by rewrite (bu_sub_dag _ _ _ _ _ _ _ _ Hbu). }
    apply (committer_ready_later c G s s2 fc' nxt nxt'); [apply Hv|apply Hv2| |done|done| |right; lia].
    + intros x b. by rewrite Hblock.
    + unfold DagState_gc_round, DagState_calculate_gc_round. rewrite Hlr2. lia.
Qed.

Lemma initial_ok n : initial n → node_ok n.
Proof using Hwf Hlaws Hdag Hdepth.
  intros [ctx store gs s Hc Hcr Hen Hd Hgs Hf HG Hnew].
  destruct (fresh_v3 ctx store gs) as (s' & Hn & Hok & Hctx & Hl & Hm & Hrec & Hh & Hb); [by rewrite Hc|done..|].
  rewrite Hnew in Hn. injection Hn as <-.
  assert (∀ r, committed_ref s r → False) as Hnc by (intros r (info & Hi & _); by rewrite Hrec in Hi).
  assert (∀ r b, ds_block s r = Some b → G r = Some b) as Hsub.
  { intros r b Hr. rewrite Hb in Hr. destruct (N.eqb_spec (br_round r) GENESIS_ROUND) as [E|E]; [by rewrite HG|done]. }
  split; cbn [nd_dag nd_committer nd_commits].
  - split; [done|done| |done]. unfold DagState_committee. by rewrite Hctx.
  - unfold enabled_v3, DagState_protocol_config. by rewrite Hctx.
  - unfold DagState_protocol_config. by rewrite Hctx.
  - done.
  - by intros tc sd ?%not_elem_of_nil.
  - intros r m _ Hmr. unfold mark in Hmr. by rewrite Hrec in Hmr.
  - by intros r ?%not_elem_of_nil.
  - by intros r ?%Hnc.
  - intros r b Hr Hz. rewrite Hb. unfold GENESIS_ROUND. rewrite Hz, N.eqb_refl, <- HG by done. done.
  - by rewrite Hh.
  - intros nxt Hs. pose proof (next_schedule_round _ _ Hs) as Hnr. pose proof (next_schedule_index _ _ Hs) as Hni.
    apply new_committer_ready; [done|rewrite Hni; lia|rewrite Hnr; lia].
Qed.

Lemma step_ok n n' : node_ok n → node_step n n' → node_ok n'.
Proof using Hrng Hwf Hv3 Hdag Hdist Hmaj Hbcs Hlaws Hdepth.
  intros Hn Hstep. destruct Hstep as [s fc cs op s' Hbg Hr HG Hrun|s fc cs nxt fc' s' Hs Ht|s fc cs nxt fc' s1 tc sd s2 Hs Ht Ha].
  - by apply (background_ok s fc cs op).
  - by apply (idle_ok s fc cs nxt).
  - by apply (commit_ok s fc cs nxt fc' s1).
Qed.

Lemma reachable_ok n : reachable n → node_ok n.
Proof using Hrng Hwf Hv3 Hdag Hdist Hmaj Hbcs Hlaws Hdepth.
  intros (n0 & Hi & Hsteps). apply initial_ok in Hi. induction Hsteps as [|n1 n2 n3 Hstep _ IH]; [done|].
  by apply IH, (step_ok n1).
Qed.

(** ** The history of the commits *)

(** Each commit was built in an earlier state, on the commits before it. *)
Definition history n : Prop :=
  ∀ k p, nd_commits n !! k = Some p →
  ∃ m nxt fc' s', node_ok m ∧ nd_commits m = take k (nd_commits n) ∧ next_schedule (nd_commits m).*2 = Some nxt ∧
    FlexCommitter_try_commit (nd_committer m) (nd_dag m) nxt = Ret (fc', s', Some p).

Lemma history_step n n' : node_ok n → history n → node_step n n' → history n'.
Proof using Hdepth.
  intros Hn Hh Hstep. destruct Hstep as [s fc cs op s' Hbg Hr HG Hrun|s fc cs nxt fc' s' Hs Ht|s fc cs nxt fc' s1 tc sd s2 Hs Ht Ha]; [done..|].
  intros k p Hk. cbn [nd_commits] in *. apply lookup_app_Some in Hk as [Hk|[Hge Hk]].
  - rewrite take_app_le by (apply lookup_lt_Some in Hk; lia). by apply Hh.
  - apply list_lookup_singleton_Some in Hk as [Hz <-]. assert (k = length cs) as -> by lia.
    exists (mkNode s fc cs), nxt, fc', s1. by rewrite take_app_length.
Qed.

Lemma reachable_history n : reachable n → history n.
Proof using Hrng Hwf Hv3 Hdag Hdist Hmaj Hbcs Hlaws Hdepth.
  intros (n0 & Hi & Hsteps). pose proof (initial_ok n0 Hi) as Hn0.
  assert (history n0) as Hh0 by (destruct Hi; by intros [|k] p). clear Hi.
  induction Hsteps as [|n1 n2 n3 Hstep _ IH]; [done|]. apply IH; [by apply (step_ok n1)|by apply (history_step n1)].
Qed.

(** ** Agreement *)

Lemma same_commits_twins n1 n2 :
  node_ok n1 → node_ok n2 → nd_commits n1 = nd_commits n2 →
  ds_last_commit (nd_dag n1) = ds_last_commit (nd_dag n2) ∧ twins c G (nd_dag n1) (nd_dag n2).
Proof using.
  intros H1n H2n Heq. assert (ds_last_commit (nd_dag n1) = ds_last_commit (nd_dag n2)) as Hl.
  { by rewrite (no_last _ H1n), (no_last _ H2n), Heq. }
  split; [done|]. assert (DagState_gc_round (nd_dag n2) = DagState_gc_round (nd_dag n1)) as Hgc.
  { rewrite (node_gc n1 H1n), (node_gc n2 H2n). unfold DagState_last_commit_round. by rewrite Hl. }
  split; [apply H1n|apply H2n|done|]. intros r i j Hr Hi Hj.
  rewrite (no_marks n1 H1n r (bi_committed i)), (no_marks n2 H2n r (bi_committed j)); rewrite ?Hgc; try done.
  - by rewrite Heq.
  - unfold mark. by rewrite Hj.
  - unfold mark. by rewrite Hi.
Qed.

Lemma commits_agree n1 n2 k :
  reachable n1 → reachable n2 → (k ≤ length (nd_commits n1))%nat → (k ≤ length (nd_commits n2))%nat →
  take k (nd_commits n1) = take k (nd_commits n2).
Proof using Hrng Hwf Hv3 Hdag Hdist Hmaj Hbcs Hlaws Hdepth.
  intros H1r H2r. induction k as [|k IH]; intros Hk1 Hk2; [done|].
  destruct (lookup_lt_is_Some_2 (nd_commits n1) k Hk1) as [p1 Hp1]. destruct (lookup_lt_is_Some_2 (nd_commits n2) k Hk2) as [p2 Hp2].
  rewrite (take_S_r _ _ _ Hp1), (take_S_r _ _ _ Hp2), IH by lia. do 2 f_equal.
  destruct (reachable_history n1 H1r k p1 Hp1) as (m1 & nxt1 & f1 & s1 & Hm1 & Hc1 & Hs1 & Ht1).
  destruct (reachable_history n2 H2r k p2 Hp2) as (m2 & nxt2 & f2 & s2 & Hm2 & Hc2 & Hs2 & Ht2).
  assert (nd_commits m1 = nd_commits m2) as Heq by (rewrite Hc1, Hc2; apply IH; lia).
  destruct (same_commits_twins m1 m2 Hm1 Hm2 Heq) as [Hl Htw].
  destruct (node_dag_ready m1 nxt1 Hm1 Hs1) as [Hr1 Hso]. destruct (node_dag_ready m2 nxt2 Hm2 Hs2) as [Hr2 _].
  pose proof (no_committer m1 Hm1 nxt1 Hs1) as Hy1. pose proof (no_committer m2 Hm2 nxt2 Hs2) as Hy2.
  assert (nxt2 = nxt1) as -> by (rewrite Heq, Hs2 in Hs1; by injection Hs1).
  by apply (try_commit_agree c G Hwf Hv3 Hdag Hdist byz Hmaj Hbcs (nd_dag m1) (nd_dag m2) (nd_committer m1) (nd_committer m2) nxt1 f1 f2 s1 s2).
Qed.

(** The commits of one authority are a prefix of the commits of the other. *)
Lemma commits_prefix n1 n2 :
  reachable n1 → reachable n2 →
  nd_commits n1 `prefix_of` nd_commits n2 ∨ nd_commits n2 `prefix_of` nd_commits n1.
Proof using Hrng Hwf Hv3 Hdag Hdist Hmaj Hbcs Hlaws Hdepth.
  intros H1r H2r. destruct (Nat.le_ge_cases (length (nd_commits n1)) (length (nd_commits n2))) as [Hle|Hle].
  - left. exists (drop (length (nd_commits n1)) (nd_commits n2)).
    pose proof (commits_agree n1 n2 (length (nd_commits n1)) H1r H2r ltac:(lia) Hle) as Ht. rewrite firstn_all in Ht.
    by rewrite Ht at 1; rewrite take_drop.
  - right. exists (drop (length (nd_commits n2)) (nd_commits n1)).
    pose proof (commits_agree n1 n2 (length (nd_commits n2)) H1r H2r Hle ltac:(lia)) as Ht. rewrite (firstn_all (nd_commits n2)) in Ht.
    by rewrite <- Ht at 1; rewrite take_drop.
Qed.

(** What an attempt to commit gives. *)
Lemma try_commit_outcome n nxt :
  node_ok n → next_schedule (nd_commits n).*2 = Some nxt →
  (∃ fc', FlexCommitter_try_commit (nd_committer n) (nd_dag n) nxt = Ret (fc', nd_dag n, None)) ∨
  ∃ r leaders, commit_leaders_ok G (nd_dag n) r leaders ∧ nc_min_next_leader_round nxt ≤ r < u32_max ∧
    ((stake_gap c leaders ∧ FlexCommitter_try_commit (nd_committer n) (nd_dag n) nxt = Panic timestamp_panic) ∨
     (¬ stake_gap c leaders ∧ ∃ fc' s' tc sd,
        FlexCommitter_try_commit (nd_committer n) (nd_dag n) nxt = Ret (fc', s', Some (tc, sd)) ∧
        fc_schedule fc' = nxt ∧ built G (nd_dag n) fc' r leaders s' tc sd)).
Proof using Hrng Hwf Hv3 Hdag Hdist Hmaj Hbcs Hlaws Hdepth.
  intros Hn Hs. destruct (node_dag_ready n nxt Hn Hs) as [Hr Hso].
  destruct (try_commit_spec c G Hwf Hv3 Hdag Hdist byz Hmaj Hbcs _ _ nxt Hr Hso (no_committer n Hn nxt Hs))
    as (fc' & Hf & Hfs & [Ha|(r & k & rs & Hcr & Hout)]); [by left; exists fc'|right].
  destruct (leaders_ready c G Hdag nxt Hso _ fc' r k rs Hr Hf Hfs Hcr) as [Hlok _].
  exists r, (committed_leaders (rst_leader_slots rs)). split; [done|]. split.
  - pose proof (lo_some _ _ _ _ Hlok) as Hne. destruct (committed_leaders (rst_leader_slots rs)) as [|l ls] eqn:El; [done|].
    apply (commit_leader_cached (nd_dag n) fc' nxt r k rs l); [done..|]. rewrite El. left.
  - destruct Hout as [Hgap|(Hgap & s' & tc & sd & Ht & _ & Hb)]; [by left|right]. split; [done|]. by exists fc', s', tc, sd.
Qed.

End FlexChain.
