(* ===== verification/ScheduleTotals.v ===== *)
(** * The running totals of the v3 leader schedule

    The totals are the sums of the entries of the window; entries enter and
    leave it one at a time. *)

From S2P Require Import Prelude BTree Config Block Commit Store StakeAggregator ThresholdClock.
From S2P Require Import LeaderScoring DagState DagTheory LeaderSchedule LeaderScheduleV3.
Local Open Scope N_scope.

(** ** Updating a vector of totals *)

Fixpoint zip_op (op : N → N → option N) (ts ds : list N) : option (list N) :=
  match ts, ds with
  | t :: ts, d :: ds => t' ← op t d; ts' ← zip_op op ts ds; Some (t' :: ts')
  | _, _ => Some []
  end.

Lemma update_totals_loop op pre ts ds :
  length ts = length ds →
  foldM (λ totals '(i, delta), total ← index totals (N.of_nat i); total ← expect (op total delta) "unwrap";
           index_update totals (N.of_nat i) (λ _, total))
    (pre ++ ts) (imap (λ i d, ((length pre + i)%nat, d)) ds) =
  match zip_op op ts ds with Some ts' => Ret (pre ++ ts') | None => Panic (Expected "unwrap") end.
Proof.
  revert pre ds. induction ts as [|t ts IH]; intros pre [|d ds] Hlen; try done. rewrite imap_cons. cbn [foldM zip_op].
  rewrite Nat.add_0_r. assert (index (pre ++ t :: ts) (N.of_nat (length pre)) = Ret t) as ->.
  { apply index_Ret. rewrite Nat2N.id. by apply list_lookup_middle. }
  cbn [mbind M_bind option_bind].
  destruct (op t d) as [t'|]; cbn [expect mbind M_bind option_bind]; [|done].
  assert (index_update (pre ++ t :: ts) (N.of_nat (length pre)) (λ _, t') = Ret (pre ++ t' :: ts)) as ->.
  { apply index_update_Ret. exists t. rewrite Nat2N.id. split; [by apply list_lookup_middle|].
    by rewrite insert_app_r_alt, Nat.sub_diag by done. }
  cbn [mbind M_bind].
  specialize (IH (pre ++ [t']) ds ltac:(simpl in Hlen; lia)). rewrite <- app_assoc in IH. simpl in IH.
  rewrite (imap_ext _ (λ i d, ((length (pre ++ [t']) + i)%nat, d))); [rewrite IH|].
  - destruct (zip_op op ts ds); [|done]. cbn. by rewrite <- app_assoc.
  - intros i x _. simpl. f_equal. rewrite length_app. simpl. lia.
Qed.

Lemma update_totals_eq op totals deltas :
  length totals = length deltas →
  update_totals op totals deltas =
  match zip_op op totals deltas with Some ts => Ret ts | None => Panic (Expected "unwrap") end.
Proof. intros Hlen. apply (update_totals_loop op [] totals deltas Hlen). Qed.

Lemma zip_op_fmap {A} op (f g h : A → N) l :
  (∀ x, x ∈ l → op (f x) (g x) = Some (h x)) → zip_op op (f <$> l) (g <$> l) = Some (h <$> l).
Proof.
  induction l as [|x l IH]; intros Hop; [done|]. csimpl. cbn [zip_op]. rewrite Hop by left. cbn [mbind option_bind].
  rewrite IH; [done|]. intros y Hy. apply Hop. by right.
Qed.

Lemma zip_op_fmap_inv {A} op (f g : A → N) l ts :
  zip_op op (f <$> l) (g <$> l) = Some ts → ∀ x, x ∈ l → is_Some (op (f x) (g x)).
Proof.
  revert ts. induction l as [|y l IH]; intros ts Hz x; [by intros ?%not_elem_of_nil|]. csimpl in Hz. cbn [zip_op] in Hz.
  destruct (op (f y) (g y)) as [t|] eqn:Ey; [|done]. cbn [mbind option_bind] in Hz.
  destruct (zip_op op (f <$> l) (g <$> l)) as [ts'|]; [|done]. intros [->|Hx]%elem_of_cons; [by rewrite Ey|by apply (IH ts')].
Qed.

(** ** The sums of a window *)

Definition contribution (e : ScoresEntry) (i : nat) : N := default 0 (se_score_contributions e !! i).
Definition score_at (es : list ScoresEntry) (i : nat) : N := sumN ((λ e, contribution e i) <$> es).
Definition leaders_in (es : list ScoresEntry) : N := sumN (se_num_leaders <$> es).
Definition stakes_in (es : list ScoresEntry) : N := sumN (se_leader_stakes <$> es).

Lemma score_at_app es es' i : score_at (es ++ es') i = score_at es i + score_at es' i.
Proof. unfold score_at. by rewrite fmap_app, sumN_app. Qed.

Lemma contributions_seq e n :
  length (se_score_contributions e) = n → se_score_contributions e = contribution e <$> seq 0 n.
Proof.
  intros Hlen. apply list_eq. intros i. rewrite list_lookup_fmap. destruct (decide (i < n)%nat) as [Hi|Hi].
  - rewrite lookup_seq_lt by done. simpl. unfold contribution.
    destruct (lookup_lt_is_Some_2 (se_score_contributions e) i) as [x ->]; [by rewrite Hlen|done].
  - rewrite lookup_ge_None_2 by lia. by rewrite (lookup_ge_None_2 (seq 0 n)) by (rewrite length_seq; lia).
Qed.

Section ScheduleTotals.
Context `{Profile} `{Rng}.
Implicit Types ls : LeaderScheduleV3.

(** The totals of a schedule are the sums of the entries of its window. *)
Record totals_ok (ctx : Context) ls : Prop := {
  to_context : l3_context ls = ctx;
  to_lengths : ∀ e, e ∈ l3_scores_entries ls →
    length (se_score_contributions e) = length (Committee_authorities (ctx_committee ctx));
  to_scores : l3_total_scores_per_authority ls =
    score_at (l3_scores_entries ls) <$> seq 0 (length (Committee_authorities (ctx_committee ctx)));
  to_leaders : l3_total_num_leaders ls = leaders_in (l3_scores_entries ls);
  to_stakes : l3_total_leader_stakes ls = stakes_in (l3_scores_entries ls);
  to_window : N.of_nat (length (l3_scores_entries ls)) ≤ l3_window_size ls;
  to_pending : N.of_nat (length (l3_pending_commits ls)) ≤ MAX_PENDING_COMMITS;
}.

Lemma checked_sub_add a b : checked_sub (a + b) a = Some b.
Proof. unfold checked_sub. rewrite (proj2 (N.leb_le _ _)) by lia. f_equal. lia. Qed.

(** The oldest entry leaves. *)
Lemma remove_entry_spec ctx ls e es :
  totals_ok ctx ls → l3_scores_entries ls = e :: es →
  ∃ ls', remove_entry ls e es = Ret ls' ∧ totals_ok ctx ls' ∧ l3_scores_entries ls' = es ∧
    l3_pending_commits ls' = l3_pending_commits ls ∧ l3_current_schedule ls' = l3_current_schedule ls.
Proof.
  intros [Hc Hlen Hs Hl Hst Hw Hp] He. rewrite He in *. unfold remove_entry.
  pose proof (Hlen e ltac:(left)) as Hle. set (n := length (Committee_authorities (ctx_committee ctx))) in *.
  rewrite update_totals_eq by (by rewrite Hs, length_fmap, length_seq, Hle).
  rewrite Hs, (contributions_seq e n Hle).
  rewrite (zip_op_fmap _ _ _ (score_at es)) by (intros i _; apply checked_sub_add). cbn [mbind M_bind].
  rewrite Hl, Hst. unfold leaders_in, stakes_in. rewrite !fmap_cons. cbn [sumN foldr].
  change (foldr N.add 0 (se_num_leaders <$> es)) with (leaders_in es). change (foldr N.add 0 (se_leader_stakes <$> es)) with (stakes_in es).
  rewrite !checked_sub_add. cbn [expect mbind M_bind]. eexists. split; [done|]. split; [|done].
  split; try done; cbn [l3_scores_entries l3_pending_commits].
  - intros e' He'. apply Hlen. by right.
  - simpl length in Hw. unfold l3_window_size in *. cbn [l3_context]. lia.
Qed.

Lemma evict_entries_spec ctx ls :
  totals_ok ctx ls → 1 ≤ l3_window_size ls →
  ∃ ls', evict_entries ls (l3_scores_entries ls) = Ret ls' ∧ totals_ok ctx ls' ∧
    l3_scores_entries ls' = (if decide (N.of_nat (length (l3_scores_entries ls)) = l3_window_size ls)
                             then drop 1 (l3_scores_entries ls) else l3_scores_entries ls) ∧
    l3_pending_commits ls' = l3_pending_commits ls ∧ l3_current_schedule ls' = l3_current_schedule ls.
Proof.
  intros Hok Hw1. pose proof (to_window _ _ Hok) as Hw. case_decide as Hfull.
  - destruct (l3_scores_entries ls) as [|e es] eqn:He; [simpl in Hfull; lia|]. cbn [evict_entries].
    rewrite (proj2 (N.leb_le _ _)) by lia. destruct (remove_entry_spec ctx ls e es Hok He) as (ls' & -> & Hok' & He' & Hp & Hc).
    cbn [mbind M_bind]. exists ls'. split_and!; [|done..].
    assert (l3_window_size ls' = l3_window_size ls) as Hws.
    { unfold l3_window_size. by rewrite (to_context _ _ Hok'), (to_context _ _ Hok). }
    assert (l3_window_size ls' <=? N.of_nat (length es) = false) as Hlt by (apply N.leb_gt; rewrite Hws; simpl in Hfull; lia).
    destruct es; cbn [evict_entries]; by rewrite Hlt.
  - exists ls. split_and!; [|done..].
    assert (l3_window_size ls <=? N.of_nat (length (l3_scores_entries ls)) = false) as Hlt by (apply N.leb_gt; lia).
    destruct (l3_scores_entries ls); cbn [evict_entries]; by rewrite Hlt.
Qed.

(** An entry enters when the sums fit in 64 bits. *)
Record entry_fits (n : nat) (es : list ScoresEntry) (e : ScoresEntry) : Prop := {
  ef_scores : ∀ i, i ∈ seq 0 n → score_at es i + contribution e i < 2 ^ 64;
  ef_leaders : leaders_in es + se_num_leaders e < 2 ^ 64;
  ef_stakes : stakes_in es + se_leader_stakes e < 2 ^ 64;
}.

Lemma entry_fits_suffix n pre es e : entry_fits n (pre ++ es) e → entry_fits n es e.
Proof.
  intros [Hs Hl Hst]. unfold leaders_in, stakes_in in *. rewrite fmap_app, sumN_app in Hl, Hst. split; [|unfold leaders_in; lia|unfold stakes_in; lia].
  intros i Hi. specialize (Hs i Hi). rewrite score_at_app in Hs. lia.
Qed.

Lemma checked_add_Some a b : a + b < 2 ^ 64 → checked_add 64 a b = Some (a + b).
Proof. intros. unfold checked_add. by rewrite (proj2 (N.ltb_lt _ _)). Qed.

Lemma checked_add_is_Some a b : is_Some (checked_add 64 a b) → a + b < 2 ^ 64.
Proof. intros [x Hx]. unfold checked_add in Hx. destruct (N.ltb_spec (a + b) (2 ^ 64)); [done|by inversion Hx]. Qed.

Lemma add_entry_spec ctx ls e :
  totals_ok ctx ls → length (se_score_contributions e) = length (Committee_authorities (ctx_committee ctx)) →
  N.of_nat (length (l3_scores_entries ls)) < l3_window_size ls →
  entry_fits (length (Committee_authorities (ctx_committee ctx))) (l3_scores_entries ls) e →
  ∃ ls', add_entry ls e = Ret ls' ∧ totals_ok ctx ls' ∧ l3_scores_entries ls' = l3_scores_entries ls ++ [e] ∧
    l3_pending_commits ls' = l3_pending_commits ls ∧ l3_current_schedule ls' = l3_current_schedule ls.
Proof.
  intros [Hc Hlen Hs Hl Hst Hw Hp] Hle Hroom [Fs Fl Fst]. set (n := length (Committee_authorities (ctx_committee ctx))) in *.
  unfold add_entry. rewrite update_totals_eq by (by rewrite Hs, length_fmap, length_seq, Hle).
  rewrite Hs, (contributions_seq e n Hle).
  rewrite (zip_op_fmap _ _ _ (λ i, score_at (l3_scores_entries ls) i + contribution e i))
    by (intros i Hi; by apply checked_add_Some, Fs). cbn [mbind M_bind].
  rewrite Hl, Hst, !checked_add_Some by done. cbn [expect mbind M_bind]. eexists. split; [done|]. split; [|done].
  split; try done; cbn [l3_scores_entries l3_total_scores_per_authority l3_total_num_leaders l3_total_leader_stakes].
  - intros e' [He'|<-%list_elem_of_singleton]%elem_of_app; [by apply Hlen|done].
  - apply list_fmap_ext. intros k i _. rewrite score_at_app. unfold score_at at 3. simpl. lia.
  - unfold leaders_in. rewrite fmap_app, sumN_app. simpl. lia.
  - unfold stakes_in. rewrite fmap_app, sumN_app. simpl. lia.
  - rewrite length_app. simpl length. unfold l3_window_size in *. cbn [l3_context]. lia.
Qed.

Lemma add_entry_fits ctx ls e ls' :
  totals_ok ctx ls → length (se_score_contributions e) = length (Committee_authorities (ctx_committee ctx)) →
  add_entry ls e = Ret ls' → entry_fits (length (Committee_authorities (ctx_committee ctx))) (l3_scores_entries ls) e.
Proof.
  intros [Hc Hlen Hs Hl Hst Hw Hp] Hle Ha. set (n := length (Committee_authorities (ctx_committee ctx))) in *.
  unfold add_entry in Ha. rewrite update_totals_eq in Ha by (by rewrite Hs, length_fmap, length_seq, Hle).
  rewrite Hs, (contributions_seq e n Hle), Hl, Hst in Ha.
  apply bind_Ret in Ha as (ts & Hz & Ha). destruct (zip_op _ _ _) as [ts'|] eqn:Ez; [|done].
  destruct (checked_add 64 (leaders_in _) _) as [a|] eqn:E1; [|done]. cbn [expect mbind M_bind] in Ha.
  destruct (checked_add 64 (stakes_in _) _) as [b|] eqn:E2; [|done].
  split; [|apply checked_add_is_Some; by rewrite E1|apply checked_add_is_Some; by rewrite E2].
  intros i Hi. by apply checked_add_is_Some, (zip_op_fmap_inv _ _ _ _ _ Ez).
Qed.

(** ** The entry of a commit *)

Lemma authority_score_length c refs certifying scores entry scores' :
  authority_score c refs certifying scores entry = Ret scores' → length scores' = length scores.
Proof.
  unfold authority_score. destruct entry.2 as [|b [|b' l]]; [by intros [= <-]| |by intros [= <-]].
  intros (v & _ & Hv)%bind_Ret. destruct (v =? 0); [by injection Hv as <-|].
  apply bind_Ret in Hv as (w & _ & Hv). apply bind_Ret in Hv as (x & _ & (a & _ & ->)%index_update_Ret). by rewrite length_insert.
Qed.

Lemma score_commit_length c pending cmt e :
  score_commit c pending cmt = Ret e → length (se_score_contributions e) = N.to_nat (Committee_size c).
Proof.
  unfold score_commit. intros Hs. cbv zeta in Hs. repeat (apply bind_Ret in Hs as (? & ? & Hs)). injection Hs as <-. cbn [se_score_contributions].
  match goal with Hf : foldM (authority_score _ _ _) _ _ = Ret _ |- _ => revert Hf end.
  apply (foldM_invariant _ (λ scores, length scores = N.to_nat (Committee_size c))); [|by rewrite length_replicate].
  intros scores entry scores' _ <- Ha. by apply authority_score_length in Ha.
Qed.

End ScheduleTotals.
