(* ===== verification/ScheduleReplay.v ===== *)
(** * Recovery of the v3 leader schedule

    After a restart the schedule is rebuilt from the commits since
    [replay_start].  That start is early enough: the rebuilt state is the one
    that all commits since the first give. *)

From S2P Require Import Prelude BTree Config Block Commit Store StakeAggregator ThresholdClock.
From S2P Require Import LeaderScoring DagState DagTheory LeaderSchedule LeaderScheduleV3 ScheduleTotals.
Local Open Scope N_scope.

Section ScheduleReplay.
Context `{Profile} `{Rng} `{Hrng : !RngLaws}.
Context (ctx : Context).
Abbreviation c := (ctx_committee ctx) (only parsing).
Context (Hwf : Committee_wf c).
Abbreviation size := (length (Committee_authorities c)) (only parsing).
Implicit Types (ls live rep : LeaderScheduleV3) (cmt : CommittedSubDag).

(** ** The leaders that a schedule allows *)

Lemma drop_bad_spec cutoff acc (l : list (AuthorityIndex * N)) :
  (∀ a, a ∈ l.*1 → a ∈ members c) → acc + sumN (stake_at c <$> l.*1) < 2 ^ 64 →
  ∃ k, drop_bad_authorities c cutoff acc l = Ret (drop k l).
Proof using.
  revert acc. induction l as [|[a score] l IH]; intros acc Hm Hfit; [by exists 0%nat|]. cbn [drop_bad_authorities]. csimpl in *.
  rewrite Committee_stake_valid by (apply members_spec, Hm; left). cbn [mbind M_bind].
  arith. destruct (_ <? _); [by exists 0%nat|].
  destruct (IH (acc + stake_at c a)) as [k Hk]; [intros a' Ha'; apply Hm; by right|lia|]. by exists (Datatypes.S k).
Qed.

Definition cutoff_product : M N :=
  u64_mul (pc_bad_nodes_stake_threshold (ctx_protocol_config ctx)) (Committee_total_stake c).

Lemma scored_indices (scores : list N) :
  ((λ '(i, score), (N.of_nat i, score)) <$> imap pair scores).*1 = N.of_nat <$> seq 0 (length scores).
Proof using.
  rewrite <- list_fmap_compose, fmap_imap. rewrite <- (imap_seq_0 scores N.of_nat). by apply imap_ext.
Qed.

Lemma authority_index_member i : (i < size)%nat → Committee_to_authority_index c (N.of_nat i) = Some (N.of_nat i) ∧ N.of_nat i ∈ members c.
Proof using Hwf.
  intros Hi. pose proof (wf_size c Hwf) as Hs. unfold Committee_size in Hs.
  assert (N.of_nat i <? Committee_size c = true) as Hlt by (apply N.ltb_lt; unfold Committee_size; lia).
  split; [|by apply members_spec]. unfold Committee_to_authority_index. rewrite Hlt. by rewrite N.mod_small by lia.
Qed.

Lemma all_stake : sumN (stake_at c <$> (N.of_nat <$> seq 0 size)) < 2 ^ 64.
Proof using Hwf.
  assert (NoDup (N.of_nat <$> seq 0 size)) as Hnd by (apply NoDup_fmap_2; [apply _|apply NoDup_seq]).
  rewrite <- weight_list_to_set by done. change (set_stake c (list_to_set (N.of_nat <$> seq 0 size)) < 2 ^ 64).
  pose proof (wf_total_u64 c Hwf). eapply N.le_lt_trans; [|done]. apply set_stake_le_total; [done|].
  intros a (i & -> & Hi%elem_of_seq)%elem_of_list_to_set%list_elem_of_fmap. apply authority_index_member. lia.
Qed.

Lemma select_spec ls product :
  l3_context ls = ctx → length (l3_total_scores_per_authority ls) = size → cutoff_product = Ret product →
  ∃ allowed, LeaderScheduleV3_select_allowed_leaders_with_fixed_config ls = Ret allowed ∧ NoDup allowed ∧
    ∀ a, a ∈ allowed → a ∈ members c.
Proof using Hwf Hrng.
  intros Hc Hlen Hprod. unfold LeaderScheduleV3_select_allowed_leaders_with_fixed_config. rewrite Hc. cbv zeta.
  rewrite (mapP_pure _ (λ '(i, score), (N.of_nat i, score))).
  2:{ intros [i score] (j & y & [= -> ->] & Hj%lookup_lt_Some)%elem_of_lookup_imap_1.
      destruct (authority_index_member j) as [Hi _]; [by rewrite <- Hlen|]. by rewrite Hi. }
  cbn [mbind M_bind]. unfold cutoff_product in Hprod. rewrite Hprod. cbn [mbind M_bind].
  set (scored := stable_sort _ _).
  assert (reverse scored ≡ₚ (λ '(i, score), (N.of_nat i, score)) <$> imap pair (l3_total_scores_per_authority ls)) as Hp.
  { rewrite reverse_Permutation. unfold scored. by rewrite stable_sort_perm, shuffle_perm. }
  assert ((reverse scored).*1 ≡ₚ N.of_nat <$> seq 0 size) as Hp1 by (by rewrite Hp, scored_indices, Hlen).
  assert (∀ a, a ∈ (reverse scored).*1 → a ∈ members c) as Hm.
  { intros a. rewrite Hp1. intros (i & -> & Hi%elem_of_seq)%list_elem_of_fmap. apply authority_index_member. lia. }
  destruct (drop_bad_spec (product / 100) 0 (reverse scored)) as [k Hk]; [done|rewrite Hp1; apply all_stake|].
  rewrite Hk. cbn [mbind M_bind]. eexists. split; [done|]. rewrite fmap_drop. split.
  - rewrite reverse_Permutation. eapply sublist_NoDup; [|apply sublist_drop]. rewrite Hp1. apply NoDup_fmap_2; [apply _|apply NoDup_seq].
  - intros a. rewrite elem_of_reverse. intros (i & Hi)%list_elem_of_lookup_1. rewrite lookup_drop in Hi. by eapply Hm, list_elem_of_lookup_2.
Qed.

(** ** Refreshing the schedule *)

Definition on_boundary ls (i : CommitIndex) : bool := (i - 1) mod l3_update_interval ls =? 0.

Lemma refresh_schedule_spec ls product i r :
  l3_context ls = ctx → length (l3_total_scores_per_authority ls) = size → cutoff_product = Ret product →
  LeaderScheduleV3_next_commit_index ls = Ret i → LeaderScheduleV3_min_next_leader_round ls = Ret r →
  ∃ allowed, LeaderScheduleV3_refresh_current_schedule ls = Ret (set_current_schedule (mkNextCommitLeaderSchedule i r allowed) ls) ∧
    if on_boundary ls i then LeaderScheduleV3_select_allowed_leaders_with_fixed_config ls = Ret allowed
    else allowed = nc_allowed_leaders (l3_current_schedule ls).
Proof using Hwf Hrng.
  intros Hc Hlen Hp Hi Hr. unfold LeaderScheduleV3_refresh_current_schedule, LeaderScheduleV3_compute_next_commit_leader_schedule.
  rewrite Hi, Hr. cbn [mbind M_bind]. fold (on_boundary ls i). destruct (on_boundary ls i); [|by eexists].
  destruct (select_spec ls product Hc Hlen Hp) as (allowed & Hs & _). rewrite Hs. cbn [mbind M_bind]. by exists allowed.
Qed.

Lemma refresh_schedule_inv ls ls' :
  LeaderScheduleV3_refresh_current_schedule ls = Ret ls' →
  ∃ i r, LeaderScheduleV3_next_commit_index ls = Ret i ∧ LeaderScheduleV3_min_next_leader_round ls = Ret r.
Proof using.
  unfold LeaderScheduleV3_refresh_current_schedule, LeaderScheduleV3_compute_next_commit_leader_schedule.
  intros (i & Hi & Hls)%bind_Ret. exists i. rewrite Hi in Hls. destruct (_ =? 0).
  - apply bind_Ret in Hls as (sch & Hsch & _). apply bind_Ret in Hsch as (allowed & _ & Hsch). cbn [mbind M_bind] in Hsch.
    apply bind_Ret in Hsch as (r & Hr & _). by exists r.
  - apply bind_Ret in Hls as (r & Hr & _). by exists r.
Qed.

(** The metrics fail only when a product does not fit; smaller totals do not. *)
Lemma report_metrics_mono ls ls' u :
  l3_context ls = ctx → l3_context ls' = ctx →
  length (l3_total_scores_per_authority ls) = size → length (l3_total_scores_per_authority ls') = size →
  l3_total_leader_stakes ls' ≤ l3_total_leader_stakes ls →
  LeaderScheduleV3_report_metrics ls = Ret u → LeaderScheduleV3_report_metrics ls' = Ret u.
Proof using.
  intros Hc Hc' Hl Hl' Hle. unfold LeaderScheduleV3_report_metrics. rewrite Hc, Hc', Hl, Hl'. cbv zeta.
  intros (us & Hus & [= <-])%bind_Ret. apply mapP_Forall2 in Hus.
  match goal with |- (mapP ?f ?l ≫= _) = _ => destruct (mapP_returns f l) as [us' Hus'] end; [|by rewrite Hus'].
  intros i [k Hk]%list_elem_of_lookup_1. destruct (Forall2_lookup_l _ _ _ _ _ Hus Hk) as (u & _ & Hu).
  apply bind_Ret in Hu as (a & Ha & Hu). rewrite Ha. cbn [mbind M_bind]. apply bind_Ret in Hu as (au & Hau & Hu). rewrite Hau.
  cbn [mbind M_bind]. destruct (bool_decide _); [by eexists|]. apply bind_Ret in Hu as (x & Hx & _).
  unfold checked_mul in *. destruct (N.ltb_spec (l3_total_leader_stakes ls * Committee_total_stake c) (2 ^ 64)) as [Hlt|]; [|done].
  rewrite (proj2 (N.ltb_lt _ _)); [by eexists|]. eapply N.le_lt_trans; [|exact Hlt]. by apply N.mul_le_mono_r.
Qed.

(** ** One commit *)

(** [add_commit] between the check of the index and the refresh. *)
Definition advance ls cmt : M LeaderScheduleV3 :=
  if N.of_nat (length (l3_pending_commits ls)) <? MAX_PENDING_COMMITS
  then Ret (set_l3_pending_commits (l3_pending_commits ls ++ [cmt]) ls)
  else
    entry ← score_commit (ctx_committee (l3_context ls)) (l3_pending_commits ls) cmt;
    ls ← evict_entries ls (l3_scores_entries ls);
    ls ← add_entry ls entry;
    Ret (set_l3_pending_commits (drop 1 (l3_pending_commits ls) ++ [cmt]) ls).

Definition index_check ls cmt : M unit :=
  match last (l3_pending_commits ls) with
  | Some last =>
      next ← u32_add (cr_index (sd_commit_ref last)) 1;
      assert_that (cr_index (sd_commit_ref cmt) =? next) "c.commit_ref.index == last.commit_ref.index + 1"
  | None => Ret tt
  end.

Lemma add_commit_unfold ls cmt :
  LeaderScheduleV3_add_commit ls cmt =
    (index_check ls cmt;; ls ← advance ls cmt; ls ← LeaderScheduleV3_refresh_current_schedule ls;
     LeaderScheduleV3_report_metrics ls;; Ret ls).
Proof using. done. Qed.

(** The entries left after eviction. *)
Definition evicted ls : list ScoresEntry :=
  if decide (N.of_nat (length (l3_scores_entries ls)) = l3_window_size ls)
  then drop 1 (l3_scores_entries ls) else l3_scores_entries ls.

Definition advanced ls ls' (pending : list CommittedSubDag) (entries : list ScoresEntry) : Prop :=
  totals_ok ctx ls' ∧ l3_pending_commits ls' = pending ∧ l3_scores_entries ls' = entries ∧
  l3_current_schedule ls' = l3_current_schedule ls.

Lemma totals_pending ls pending :
  totals_ok ctx ls → N.of_nat (length pending) ≤ MAX_PENDING_COMMITS → totals_ok ctx (set_l3_pending_commits pending ls).
Proof using. intros [] Hp. by split. Qed.

Lemma advance_warmup ls cmt :
  totals_ok ctx ls → N.of_nat (length (l3_pending_commits ls)) < MAX_PENDING_COMMITS →
  ∃ ls', advance ls cmt = Ret ls' ∧ advanced ls ls' (l3_pending_commits ls ++ [cmt]) (l3_scores_entries ls).
Proof using.
  intros Hok Hlt. unfold advance. rewrite (proj2 (N.ltb_lt _ _) Hlt). eexists. split; [done|]. split; [|done].
  apply totals_pending; [done|]. rewrite length_app. simpl. lia.
Qed.

Lemma advance_scored ls cmt e :
  totals_ok ctx ls → 1 ≤ l3_window_size ls → MAX_PENDING_COMMITS ≤ N.of_nat (length (l3_pending_commits ls)) →
  score_commit c (l3_pending_commits ls) cmt = Ret e → entry_fits size (evicted ls) e →
  ∃ ls', advance ls cmt = Ret ls' ∧ advanced ls ls' (drop 1 (l3_pending_commits ls) ++ [cmt]) (evicted ls ++ [e]).
Proof using.
  intros Hok Hw Hge He Hfit. unfold advance. rewrite (proj2 (N.ltb_ge _ _) Hge), (to_context _ _ Hok), He. cbn [mbind M_bind].
  destruct (evict_entries_spec ctx ls Hok Hw) as (ls1 & -> & Hok1 & He1 & Hp1 & Hc1). cbn [mbind M_bind]. fold (evicted ls) in He1.
  assert (l3_window_size ls1 = l3_window_size ls) as Hws by (unfold l3_window_size; by rewrite (to_context _ _ Hok1), (to_context _ _ Hok)).
  destruct (add_entry_spec ctx ls1 e) as (ls2 & -> & Hok2 & He2 & Hp2 & Hc2); [done| | |by rewrite He1|].
  - apply score_commit_length in He. unfold Committee_size in He. by rewrite Nat2N.id in He.
  - rewrite He1, Hws. unfold evicted. pose proof (to_window _ _ Hok). case_decide; rewrite ?length_drop; lia.
  - cbn [mbind M_bind]. eexists. split; [done|]. rewrite Hp2, Hp1. split; [|cbn; split_and!; [done|by rewrite He2, He1|congruence]].
    apply totals_pending; [done|]. pose proof (to_pending _ _ Hok). unfold MAX_PENDING_COMMITS in *. rewrite length_app, length_drop. simpl. lia.
Qed.

Lemma advance_inv ls cmt ls' :
  totals_ok ctx ls → 1 ≤ l3_window_size ls → MAX_PENDING_COMMITS ≤ N.of_nat (length (l3_pending_commits ls)) →
  advance ls cmt = Ret ls' → ∃ e, score_commit c (l3_pending_commits ls) cmt = Ret e ∧ entry_fits size (evicted ls) e.
Proof using.
  intros Hok Hw Hge. unfold advance. rewrite (proj2 (N.ltb_ge _ _) Hge), (to_context _ _ Hok).
  intros (e & He & Ha)%bind_Ret. exists e. split; [done|].
  destruct (evict_entries_spec ctx ls Hok Hw) as (ls1 & Hev & Hok1 & He1 & _). rewrite Hev in Ha. cbn [mbind M_bind] in Ha.
  apply bind_Ret in Ha as (ls2 & Ha & _). unfold evicted. rewrite <- He1. apply (add_entry_fits ctx ls1 e ls2); [done| |done].
  apply score_commit_length in He. unfold Committee_size in He. by rewrite Nat2N.id in He.
Qed.

(** ** A replay follows the live schedule *)

Abbreviation window := (pc_leader_schedule_window_size (ctx_protocol_config ctx)) (only parsing).
Context (Hwindow : 1 ≤ window) (product : N) (Hproduct : cutoff_product = Ret product).

(** After [m] commits of a replay: its pending commits and its entries are the
    latest ones of the live schedule. *)
Record follows live rep (m : nat) : Prop := {
  fo_live : totals_ok ctx live;
  fo_rep : totals_ok ctx rep;
  fo_pending : l3_pending_commits rep `suffix_of` l3_pending_commits live;
  fo_pending_length : length (l3_pending_commits rep) = Nat.min 3 m;
  fo_entries : l3_scores_entries rep `suffix_of` l3_scores_entries live;
  fo_entries_length : length (l3_scores_entries rep) = Nat.min (N.to_nat window) (m - 3);
}.

Lemma totals_window ls : totals_ok ctx ls → l3_window_size ls = window.
Proof using. intros Hok. unfold l3_window_size. by rewrite (to_context _ _ Hok). Qed.

Lemma totals_length ls : totals_ok ctx ls → length (l3_total_scores_per_authority ls) = size.
Proof using. intros Hok. by rewrite (to_scores _ _ Hok), length_fmap, length_seq. Qed.

(** A suffix that is as long as the list can be is the list. *)
Lemma suffix_full {A} (l l' : list A) : l `suffix_of` l' → (length l' ≤ length l)%nat → l = l'.
Proof using.
  intros [pre ->] Hlen. rewrite length_app in Hlen. destruct pre; [done|]. simpl in Hlen. exfalso. revert Hlen. apply Nat.nle_gt, le_n_S, Nat.le_add_l.
Qed.

Lemma suffix_push {A} (l l' : list A) x : l `suffix_of` l' → l ++ [x] `suffix_of` l' ++ [x].
Proof using. intros [pre ->]. exists pre. by rewrite app_assoc. Qed.

Lemma suffix_drop {A} (l l' : list A) : l `suffix_of` l' → (length l < length l')%nat → l `suffix_of` drop 1 l'.
Proof using.
  intros [pre ->] Hlen. destruct pre as [|a pre]; [by apply Nat.lt_irrefl in Hlen|]. exists pre. simpl. by rewrite drop_0.
Qed.

Lemma suffix_last {A} (l l' : list A) : l `suffix_of` l' → l ≠ [] → last l = last l'.
Proof using. intros [pre ->] Hne. rewrite last_app. destruct (last l) eqn:E; [done|]. by apply last_None in E. Qed.

(** The entries after eviction of a window that follows another one. *)
Lemma evicted_follows live rep :
  totals_ok ctx live → totals_ok ctx rep → l3_scores_entries rep `suffix_of` l3_scores_entries live →
  evicted rep `suffix_of` evicted live ∧
  length (evicted rep) = Nat.min (N.to_nat window - 1) (length (l3_scores_entries rep)).
Proof using Hwindow.
  intros Hl Hr Hsuf. pose proof (suffix_length _ _ Hsuf) as Hle. pose proof (to_window _ _ Hl) as Hwl.
  pose proof (to_window _ _ Hr) as Hwr. unfold evicted. rewrite (totals_window live), (totals_window rep) in * by done.
  split.
  - case_decide as Er; case_decide as El.
    + rewrite (suffix_full _ _ Hsuf); [done|]. lia.
    + lia.
    + apply suffix_drop; [done|lia].
    + done.
  - case_decide as Er; rewrite ?length_drop; lia.
Qed.

Lemma advance_follows live rep m cmt live' :
  follows live rep m → advance live cmt = Ret live' →
  ∃ rep', advance rep cmt = Ret rep' ∧ follows live' rep' (Datatypes.S m) ∧ l3_current_schedule rep' = l3_current_schedule rep ∧
    last (l3_pending_commits live') = Some cmt ∧ last (l3_pending_commits rep') = Some cmt.
Proof using Hwindow.
  intros [Hl Hr Hps Hpl Hes Hel] Ha. pose proof (suffix_length _ _ Hps) as Hple. pose proof (to_pending _ _ Hl) as Hp3.
  unfold MAX_PENDING_COMMITS in *. assert (1 ≤ l3_window_size live ∧ 1 ≤ l3_window_size rep) as [Hwl Hwr] by (by rewrite !totals_window).
  destruct (N.lt_ge_cases (N.of_nat (length (l3_pending_commits live))) 3) as [Hlive|Hlive].
  - destruct (advance_warmup live cmt Hl Hlive) as (l1 & Hl1 & Hok1 & Hp1 & He1 & _). rewrite Ha in Hl1. injection Hl1 as <-.
    destruct (advance_warmup rep cmt Hr) as (r1 & Hr1 & Hok2 & Hp2 & He2 & Hc2); [unfold MAX_PENDING_COMMITS; lia|].
    exists r1. split; [done|]. rewrite Hp1, Hp2, !last_snoc. split_and!; try done.
    split; rewrite ?Hp1, ?Hp2, ?He1, ?He2, ?length_app; [done|done|by apply suffix_push|cbn [length]; lia|done|lia].
  - destruct (advance_inv live cmt live' Hl Hwl Hlive Ha) as (e & He & Hfit).
    destruct (advance_scored live cmt e Hl Hwl Hlive He Hfit) as (l1 & Hl1 & Hok1 & Hp1 & He1 & _). rewrite Ha in Hl1. injection Hl1 as <-.
    destruct (N.lt_ge_cases (N.of_nat (length (l3_pending_commits rep))) 3) as [Hrep|Hrep].
    + destruct (advance_warmup rep cmt Hr Hrep) as (r1 & Hr1 & Hok2 & Hp2 & He2 & Hc2). exists r1.
      split; [done|]. rewrite Hp1, Hp2, !last_snoc. split_and!; try done.
      assert (l3_scores_entries rep = []) as Hnil by (apply length_zero_iff_nil; lia).
      split; rewrite ?Hp1, ?Hp2, ?He1, ?He2, ?length_app; [done|done| |cbn [length]; lia|rewrite Hnil; apply suffix_nil|lia].
      apply suffix_push, suffix_drop; [done|lia].
    + pose proof (suffix_full _ _ Hps ltac:(lia)) as Heq.
      destruct (evicted_follows live rep Hl Hr Hes) as [Hev Hevl].
      destruct (advance_scored rep cmt e Hr Hwr Hrep) as (r1 & Hr1 & Hok2 & Hp2 & He2 & Hc2).
      * by rewrite Heq.
      * destruct Hev as [pre Hpre]. rewrite Hpre in Hfit. by eapply entry_fits_suffix.
      * exists r1. split; [done|]. rewrite Hp1, Hp2, !last_snoc. split_and!; try done.
        split; rewrite ?Hp1, ?Hp2, ?He1, ?He2, ?length_app, ?length_drop; [done|done|by rewrite Heq|cbn [length]; lia|by apply suffix_push|cbn [length]; lia].
Qed.

Lemma follows_schedule live rep m x y :
  follows live rep m → follows (set_current_schedule x live) (set_current_schedule y rep) m.
Proof using. intros [[] [] ? ? ? ?]. split; try done; by split. Qed.

(** Once the window has been filled the two differ at most in the schedule. *)
Lemma follows_same live rep m :
  follows live rep m → (N.to_nat window + 3 ≤ m)%nat → live = set_current_schedule (l3_current_schedule live) rep.
Proof using Hwindow.
  intros [Hl Hr Hps Hpl Hes Hel] Hm.
  assert (l3_pending_commits live = l3_pending_commits rep) as Hp.
  { symmetry. apply suffix_full; [done|]. pose proof (to_pending _ _ Hl) as Hp3. unfold MAX_PENDING_COMMITS in Hp3.
    rewrite Hpl. lia. }
  assert (l3_scores_entries live = l3_scores_entries rep) as He.
  { symmetry. apply suffix_full; [done|]. pose proof (to_window _ _ Hl) as Hw. rewrite (totals_window live Hl) in Hw.
    rewrite Hel. lia. }
  destruct Hl as [Hc1 _ Hs1 Hn1 Hk1 _ _], Hr as [Hc2 _ Hs2 Hn2 Hk2 _ _]. rewrite He in Hs1, Hn1, Hk1.
  destruct live, rep. cbn in *. unfold set_current_schedule. cbn. congruence.
Qed.

(** Adding a commit to both; on a boundary a replay with a full window catches up. *)
Lemma add_commit_follows live rep m cmt live' :
  follows live rep m → LeaderScheduleV3_add_commit live cmt = Ret live' →
  ∃ rep', LeaderScheduleV3_add_commit rep cmt = Ret rep' ∧ follows live' rep' (Datatypes.S m) ∧
    ((N.to_nat window + 3 ≤ Datatypes.S m)%nat → on_boundary live (nc_next_commit_index (l3_current_schedule live')) = true →
     live' = rep').
Proof using Hwf Hrng Hwindow Hproduct.
  intros Hf. rewrite !add_commit_unfold. intros ([] & Hchk & Ha)%bind_Ret. apply bind_Ret in Ha as (live1 & Hl1 & Ha).
  apply bind_Ret in Ha as (live2 & Hl2 & Ha). apply bind_Ret in Ha as ([] & Hrep & [= <-]).
  assert (index_check rep cmt = Ret tt) as ->.
  { unfold index_check in *. destruct (last (l3_pending_commits rep)) as [lst|] eqn:El; [|done].
    rewrite <- (suffix_last _ _ (fo_pending _ _ _ Hf)), El in Hchk; [done|]. intros Hn. by rewrite Hn in El. }
  destruct (advance_follows live rep m cmt live1 Hf Hl1) as (rep1 & -> & Hf1 & Hsch & Hlast1 & Hlast2). cbn [mbind M_bind].
  destruct (refresh_schedule_inv live1 live2 Hl2) as (i & r & Hi & Hr).
  assert (LeaderScheduleV3_next_commit_index rep1 = Ret i ∧ LeaderScheduleV3_min_next_leader_round rep1 = Ret r) as [Hi' Hr'].
  { unfold LeaderScheduleV3_next_commit_index, LeaderScheduleV3_min_next_leader_round in *. by rewrite Hlast1 in Hi, Hr; rewrite Hlast2. }
  destruct Hf1 as [Hlok Hrok Hps Hpl Hes Hel] eqn:Ef1. clear Ef1.
  destruct (refresh_schedule_spec live1 product i r) as (al & Hal & Hb1); [apply Hlok|by apply totals_length|done..|].
  rewrite Hl2 in Hal. injection Hal as ->.
  destruct (refresh_schedule_spec rep1 product i r) as (ar & -> & Hb2); [apply Hrok|by apply totals_length|done..|]. cbn [mbind M_bind].
  assert (LeaderScheduleV3_report_metrics (set_current_schedule (mkNextCommitLeaderSchedule i r ar) rep1) = Ret tt) as ->.
  { eapply report_metrics_mono; [| | | | |exact Hrep]; cbn; [apply Hlok|apply Hrok|by apply totals_length..|].
    rewrite (to_stakes _ _ Hlok), (to_stakes _ _ Hrok). destruct Hes as [pre ->]. unfold stakes_in. rewrite fmap_app, sumN_app.
    apply N.le_add_l. }
  cbn [mbind M_bind]. eexists. split; [done|]. split; [by apply follows_schedule|].
  intros Hfull Hbound. pose proof (follows_same live1 rep1 (Datatypes.S m) Hf1 Hfull) as Heq.
  assert (∀ ls, totals_ok ctx ls → on_boundary ls i = true) as Hon.
  { intros ls Hls. unfold on_boundary, l3_update_interval in *. cbn in Hbound. rewrite (to_context _ _ Hls).
    by rewrite (to_context _ _ (fo_live _ _ _ Hf)) in Hbound. }
  rewrite Hon in Hb1, Hb2 by done.
  assert (al = ar) as ->.
  { rewrite Heq in Hb1. change (LeaderScheduleV3_select_allowed_leaders_with_fixed_config rep1 = Ret al) in Hb1. congruence. }
  rewrite Heq. done.
Qed.

Lemma run_follows commits live rep m live' :
  follows live rep m → foldM LeaderScheduleV3_add_commit live commits = Ret live' →
  ∃ rep', foldM LeaderScheduleV3_add_commit rep commits = Ret rep' ∧ follows live' rep' (m + length commits).
Proof using Hwf Hrng Hwindow Hproduct.
  revert live rep m. induction commits as [|cmt commits IH]; intros live rep m Hf; cbn [foldM].
  { intros [= <-]. exists rep. split; [done|]. by rewrite Nat.add_0_r. }
  intros (live1 & Hl1 & Hrun)%bind_Ret. destruct (add_commit_follows live rep m cmt live1 Hf Hl1) as (rep1 & -> & Hf1 & _).
  cbn [mbind M_bind]. destruct (IH live1 rep1 (Datatypes.S m) Hf1 Hrun) as (rep' & -> & Hf'). exists rep'. split; [done|].
  by replace (m + length (cmt :: commits))%nat with (Datatypes.S m + length commits)%nat by (cbn [length]; lia).
Qed.

(** ** The schedule after a commit *)

Record schedule_of cmt (sch : NextCommitLeaderSchedule) : Prop := {
  so_index : cr_index (sd_commit_ref cmt) < u32_max → nc_next_commit_index sch = cr_index (sd_commit_ref cmt) + 1;
  so_round : br_round (sd_leader cmt) < u32_max → nc_min_next_leader_round sch = br_round (sd_leader cmt) + 1;
}.

Definition allowed_ok (sch : NextCommitLeaderSchedule) : Prop :=
  NoDup (nc_allowed_leaders sch) ∧ ∀ a, a ∈ nc_allowed_leaders sch → a ∈ members c.

Lemma advance_ok ls cmt ls' :
  totals_ok ctx ls → advance ls cmt = Ret ls' →
  totals_ok ctx ls' ∧ last (l3_pending_commits ls') = Some cmt ∧ l3_current_schedule ls' = l3_current_schedule ls.
Proof using Hwindow.
  intros Hok Ha. assert (1 ≤ l3_window_size ls) as Hw by (by rewrite totals_window).
  destruct (N.lt_ge_cases (N.of_nat (length (l3_pending_commits ls))) MAX_PENDING_COMMITS) as [Hlt|Hge].
  - destruct (advance_warmup ls cmt Hok Hlt) as (l1 & Hl1 & Hok1 & Hp1 & _ & Hc1). rewrite Ha in Hl1. injection Hl1 as <-.
    by rewrite Hp1, last_snoc.
  - destruct (advance_inv ls cmt ls' Hok Hw Hge Ha) as (e & He & Hfit).
    destruct (advance_scored ls cmt e Hok Hw Hge He Hfit) as (l1 & Hl1 & Hok1 & Hp1 & _ & Hc1). rewrite Ha in Hl1. injection Hl1 as <-.
    by rewrite Hp1, last_snoc.
Qed.

Lemma add_commit_schedule ls cmt ls' :
  totals_ok ctx ls → LeaderScheduleV3_add_commit ls cmt = Ret ls' →
  totals_ok ctx ls' ∧ schedule_of cmt (l3_current_schedule ls') ∧
  (allowed_ok (l3_current_schedule ls) → allowed_ok (l3_current_schedule ls')).
Proof using Hwf Hrng Hwindow Hproduct.
  intros Hok. rewrite add_commit_unfold. intros ([] & _ & Ha)%bind_Ret. apply bind_Ret in Ha as (l1 & Hl1 & Ha).
  apply bind_Ret in Ha as (l2 & Hl2 & Ha). apply bind_Ret in Ha as ([] & _ & [= <-]).
  destruct (advance_ok ls cmt l1 Hok Hl1) as (Hok1 & Hlast & Hsch).
  destruct (refresh_schedule_inv l1 l2 Hl2) as (i & r & Hi & Hr).
  destruct (refresh_schedule_spec l1 product i r) as (al & Heq & Hb); [apply Hok1|by apply totals_length|done..|].
  rewrite Hl2 in Heq. injection Heq as ->. split; [destruct Hok1; by split|].
  unfold LeaderScheduleV3_next_commit_index, LeaderScheduleV3_min_next_leader_round in Hi, Hr. rewrite Hlast in Hi, Hr. cbn in Hi, Hr. split.
  - split; cbn; intros Hlt; [rewrite int_add_exact in Hi by lia|rewrite int_add_exact in Hr by lia]; congruence.
  - intros Hal. unfold allowed_ok. cbn. destruct (on_boundary l1 i); [|by rewrite Hb, Hsch].
    destruct (select_spec l1 product) as (al' & Hsel & Hnd & Hm); [apply Hok1|by apply totals_length|done|].
    rewrite Hb in Hsel. by injection Hsel as <-.
Qed.

End ScheduleReplay.

Section Recovery.
Context `{Profile} `{Rng} `{Hrng : !RngLaws}.
Context (ctx : Context).
Abbreviation c := (ctx_committee ctx) (only parsing).
Abbreviation window := (pc_leader_schedule_window_size (ctx_protocol_config ctx)) (only parsing).
Abbreviation interval := (pc_leader_schedule_update_interval (ctx_protocol_config ctx)) (only parsing).
Context (Hwf : Committee_wf c) (Hwindow : 1 ≤ window).
Implicit Types (ls live : LeaderScheduleV3) (commits : list CommittedSubDag).

Definition zero_scores : list N := replicate (N.to_nat (Committee_size c)) 0.

Lemma new_schedule_ok ls0 :
  LeaderScheduleV3_new ctx zero_scores = Ret ls0 →
  (∃ product, cutoff_product ctx = Ret product) ∧ totals_ok ctx ls0 ∧ follows ctx ls0 ls0 0 ∧
  allowed_ok ctx (l3_current_schedule ls0) ∧
  nc_next_commit_index (l3_current_schedule ls0) = 1 ∧ nc_min_next_leader_round (l3_current_schedule ls0) = 1.
Proof using Hwf Hrng.
  unfold LeaderScheduleV3_new. intros ([] & _ & Hn)%bind_Ret. cbv zeta in Hn.
  set (ls := mkLeaderScheduleV3 _ _ _ _ _ _ _) in Hn. apply bind_Ret in Hn as (sch & Hsch & [= <-]).
  unfold LeaderScheduleV3_compute_next_commit_leader_schedule in Hsch.
  apply bind_Ret in Hsch as (al & Hal & Hsch).
  change (LeaderScheduleV3_next_commit_index ls) with (Ret (A := N) 1) in Hsch.
  change (LeaderScheduleV3_min_next_leader_round ls) with (Ret (A := N) 1) in Hsch. cbn [mbind M_bind] in Hsch. injection Hsch as <-.
  assert (∃ product, cutoff_product ctx = Ret product) as [product Hp].
  { unfold LeaderScheduleV3_select_allowed_leaders_with_fixed_config in Hal. cbv zeta in Hal.
    apply bind_Ret in Hal as (scored & _ & Hal). apply bind_Ret in Hal as (product & Hp & _). by exists product. }
  assert (length (l3_total_scores_per_authority ls) = length (Committee_authorities c)) as Hlen.
  { cbn. unfold zero_scores, Committee_size. by rewrite length_replicate, Nat2N.id. }
  assert (totals_ok ctx ls) as Hok.
  { split; try done; [by intros e ?%not_elem_of_nil| |].
    - cbn. unfold zero_scores, Committee_size. rewrite Nat2N.id. by rewrite (const_fmap (score_at []) _ 0), length_seq by done.
    - apply N.le_0_l. }
  destruct (select_spec ctx Hwf ls product) as (al' & Hal' & Hnd & Hm); [done|done|done|]. rewrite Hal in Hal'. injection Hal' as <-.
  split; [by exists product|]. assert (totals_ok ctx (set_current_schedule (mkNextCommitLeaderSchedule 1 1 al) ls)) as Hok' by (destruct Hok; by split).
  split_and!; [done| |done|done..]. split; try done. cbn. by rewrite Nat.min_0_r.
Qed.

(** What a replay starts with. *)
Lemma replay_start_spec n :
  1 ≤ interval → window + MAX_PENDING_COMMITS ≤ u32_max → n < u32_max →
  LeaderScheduleV3_replay_start ctx n =
    Ret (N.max (n / interval * interval + 1 - (window + MAX_PENDING_COMMITS)) 1).
Proof using Hwindow.
  intros Hi Hw Hn. unfold LeaderScheduleV3_replay_start, int_div. rewrite (proj2 (N.eqb_neq _ _)) by lia. cbn [mbind M_bind].
  pose proof (N.Div0.mul_div_le n interval) as Hle. rewrite (N.mul_comm interval) in Hle.
  do 2 arith. done.
Qed.

(** A replay that has filled the window when a new schedule is computed has
    caught up. *)
Lemma catch_up ls0 before filling x after live :
  LeaderScheduleV3_new ctx zero_scores = Ret ls0 → length filling = N.to_nat (window + 2) →
  cr_index (sd_commit_ref x) < u32_max → cr_index (sd_commit_ref x) mod interval = 0 →
  foldM LeaderScheduleV3_add_commit ls0 (before ++ filling ++ x :: after) = Ret live →
  foldM LeaderScheduleV3_add_commit ls0 (filling ++ x :: after) = Ret live.
Proof using Hwf Hrng Hwindow.
  intros Hnew Hlen Hmax Hmod Hrun. destruct (new_schedule_ok ls0 Hnew) as ([product Hprod] & Hok0 & Hf0 & _).
  rewrite foldM_app in Hrun. apply bind_Ret in Hrun as (live1 & Hl1 & Hrun).
  rewrite foldM_app in Hrun. apply bind_Ret in Hrun as (live2 & Hl2 & Hrun).
  cbn [foldM] in Hrun. apply bind_Ret in Hrun as (live3 & Hl3 & Hrun).
  destruct (run_follows ctx Hwf Hwindow product Hprod before ls0 ls0 0 live1 Hf0 Hl1) as (_ & _ & [Hlok1 _ _ _ _ _]).
  assert (follows ctx live1 ls0 0) as Hf1.
  { destruct Hf0 as [_ Hrok0 _ Hpl0 _ Hel0]. split; try done.
    - rewrite Nat.min_0_r in Hpl0. apply length_zero_iff_nil in Hpl0. rewrite Hpl0. apply suffix_nil.
    - simpl in Hel0. rewrite Nat.min_0_r in Hel0. apply length_zero_iff_nil in Hel0. rewrite Hel0. apply suffix_nil. }
  destruct (run_follows ctx Hwf Hwindow product Hprod filling live1 ls0 0 live2 Hf1 Hl2) as (rep2 & Hr2 & Hf2).
  rewrite foldM_app, Hr2. cbn [mbind M_bind foldM].
  destruct (add_commit_follows ctx Hwf Hwindow product Hprod live2 rep2 _ x live3 Hf2 Hl3) as (rep3 & Hr3 & _ & Hsame).
  rewrite Hr3. cbn [mbind M_bind]. rewrite <- Hsame; [done|lia|].
  destruct (add_commit_schedule ctx Hwf Hwindow product Hprod live2 x live3) as (_ & [Hni _] & _); [apply Hf2|done|].
  rewrite Hni by done. unfold on_boundary, l3_update_interval. rewrite (to_context _ _ (fo_live _ _ _ _ Hf2)), N.add_sub.
  by apply N.eqb_eq.
Qed.

(** Rebuilding from [replay_start] on gives the schedule that all commits give. *)
Lemma replay_from_start ls0 commits live :
  LeaderScheduleV3_new ctx zero_scores = Ret ls0 →
  (∀ k cmt, commits !! k = Some cmt → cr_index (sd_commit_ref cmt) = N.of_nat k + 1) →
  N.of_nat (length commits) < u32_max → 1 ≤ interval → window + MAX_PENDING_COMMITS ≤ u32_max →
  foldM LeaderScheduleV3_add_commit ls0 commits = Ret live →
  ∃ start, LeaderScheduleV3_replay_start ctx (N.of_nat (length commits)) = Ret start ∧ 1 ≤ start ≤ N.max 1 (N.of_nat (length commits)) ∧
    foldM LeaderScheduleV3_add_commit ls0 (drop (N.to_nat (start - 1)) commits) = Ret live.
Proof using Hwf Hrng Hwindow.
  intros Hnew Hidx Hn Hi Hw Hrun. rewrite replay_start_spec by done. set (n := N.of_nat (length commits)) in *.
  set (boundary := n / interval * interval). assert (boundary ≤ n) as Hb.
  { unfold boundary. rewrite N.mul_comm. apply N.Div0.mul_div_le. }
  eexists. split; [done|]. split; [lia|]. unfold MAX_PENDING_COMMITS in *.
  destruct (N.le_gt_cases boundary (window + 3)) as [Hsmall|Hlarge].
  { replace (N.max (boundary + 1 - (window + 3)) 1 - 1) with 0 by lia. by rewrite drop_0. }
  replace (N.max (boundary + 1 - (window + 3)) 1 - 1) with (boundary - (window + 3)) by lia.
  set (a := N.to_nat (boundary - (window + 3))). set (m := N.to_nat (window + 2)).
  destruct (lookup_lt_is_Some_2 commits (a + m)) as [x Hx]; [lia|]. pose proof (Hidx (a + m)%nat x Hx) as Hix.
  assert (drop a commits = take m (drop a commits) ++ x :: drop (Datatypes.S (a + m)) commits) as Hdrop.
  { rewrite <- (take_drop m (drop a commits)) at 1. f_equal. rewrite drop_drop. by apply drop_S. }
  rewrite Hdrop. apply (catch_up ls0 (take a commits)); [done| | | |].
  - rewrite length_take, length_drop. lia.
  - rewrite Hix. lia.
  - rewrite Hix. replace (N.of_nat (a + m) + 1) with boundary by lia. apply N.Div0.mod_mul.
  - rewrite <- Hdrop, take_drop. done.
Qed.

End Recovery.
