(* ===== verification/ScheduleRecovery.v ===== *)
(** * Recovery of the leader schedule from the store

    [from_store] replays the sub-dags loaded from the store, which differ from
    the sub-dags of the commits in what the finalizer keeps in them (where they
    were decided, the rejected transactions).  The schedule does not read these
    fields, and recovers exactly. *)

From S2P Require Import Prelude BTree Config Block Commit Store StakeAggregator ThresholdClock.
From S2P Require Import LeaderScoring DagState LeaderSchedule LeaderScheduleV3 ScheduleTotals ScheduleReplay.
Local Open Scope N_scope.

(** What the schedule reads of a sub-dag. *)
Definition scored_part (sd : CommittedSubDag) : CommittedSubDag :=
  mkCommittedSubDag (sd_leader sd) (sd_blocks sd) 0 (sd_commit_ref sd) false false ∅.

(** A schedule up to the rest of its pending commits. *)
Definition schedule_part (ls : LeaderScheduleV3) : LeaderScheduleV3 :=
  set_l3_pending_commits (scored_part <$> l3_pending_commits ls) ls.

Section ScheduleRecovery.
Context `{Profile} `{Rng} `{Hrng : !RngLaws}.
Implicit Types (ls live : LeaderScheduleV3) (cmt : CommittedSubDag) (commits pending : list CommittedSubDag).

Lemma scan_commits_part upper commits : scan_commits upper (scored_part <$> commits) = scored_part <$> scan_commits upper commits.
Proof. induction commits as [|cmt commits IH]; csimpl; [done|]. destruct (_ <? _); csimpl; by rewrite ?IH. Qed.

Lemma scan_until_part pending cmt upper :
  LeaderScheduleV3_scan_commits_until_leader_round_above (scored_part <$> pending) (scored_part cmt) upper =
  (λ commits : list CommittedSubDag, scored_part <$> commits) <$> LeaderScheduleV3_scan_commits_until_leader_round_above pending cmt upper.
Proof.
  unfold LeaderScheduleV3_scan_commits_until_leader_round_above. rewrite <- fmap_drop.
  change [scored_part cmt] with (scored_part <$> [cmt]). rewrite <- fmap_app, scan_commits_part, fmap_last.
  destruct (last (scan_commits upper (drop 1 pending ++ [cmt]))) as [x|]; [|done]. simpl. by destruct (_ <? _).
Qed.

Lemma blocks_at_round_part round commits : blocks_at_round round (scored_part <$> commits) = blocks_at_round round commits.
Proof. unfold blocks_at_round. by rewrite <- list_fmap_compose. Qed.

Lemma index_part pending i : index (scored_part <$> pending) i = scored_part <$> index pending i.
Proof. unfold index. rewrite list_lookup_fmap. by destruct (pending !! _). Qed.

Lemma score_commit_part c pending cmt : score_commit c (scored_part <$> pending) (scored_part cmt) = score_commit c pending cmt.
Proof.
  unfold score_commit. rewrite !index_part.
  destruct (index pending 0) as [c3| |]; cbn [mbind M_bind fmap M_fmap]; [|done..].
  destruct (index pending 1) as [c2| |]; cbn [mbind M_bind fmap M_fmap]; [|done..].
  destruct (index pending 2) as [c1| |]; cbn [mbind M_bind fmap M_fmap]; [|done..]. cbv zeta.
  change [scored_part c3] with (scored_part <$> [c3]). rewrite blocks_at_round_part. cbn [sd_leader scored_part sd_commit_ref].
  destruct (u32_add (br_round (sd_leader c3)) 1) as [vote_round| |]; cbn [mbind M_bind]; [|done..].
  destruct (u32_add (br_round (sd_leader c3)) 2) as [certify_round| |]; cbn [mbind M_bind]; [|done..].
  rewrite !scan_until_part.
  destruct (LeaderScheduleV3_scan_commits_until_leader_round_above pending cmt vote_round); cbn [mbind M_bind fmap M_fmap]; [|done..].
  destruct (LeaderScheduleV3_scan_commits_until_leader_round_above pending cmt certify_round); cbn [mbind M_bind fmap M_fmap]; [|done..].
  by rewrite !blocks_at_round_part.
Qed.

(** ** The window under another context and other pending commits *)

Definition relabel (ctx : Context) (pending : list CommittedSubDag) ls : LeaderScheduleV3 :=
  mkLeaderScheduleV3 ctx (l3_total_scores_per_authority ls) (l3_total_num_leaders ls) (l3_total_leader_stakes ls)
    pending (l3_scores_entries ls) (l3_current_schedule ls).

Definition same_labels ls ls' : Prop := l3_context ls' = l3_context ls ∧ l3_pending_commits ls' = l3_pending_commits ls.

Lemma remove_entry_relabel ctx pending ls e entries :
  remove_entry (relabel ctx pending ls) e entries = relabel ctx pending <$> remove_entry ls e entries.
Proof.
  unfold remove_entry. cbn. destruct (update_totals _ _ _); cbn [mbind M_bind]; [|done..].
  destruct (checked_sub (l3_total_num_leaders ls) _); cbn; [|done]. by destruct (checked_sub (l3_total_leader_stakes ls) _).
Qed.

Lemma add_entry_relabel ctx pending ls e :
  add_entry (relabel ctx pending ls) e = relabel ctx pending <$> add_entry ls e.
Proof.
  unfold add_entry. cbn. destruct (update_totals _ _ _); cbn [mbind M_bind]; [|done..].
  destruct (checked_add _ (l3_total_num_leaders ls) _); cbn; [|done]. by destruct (checked_add _ (l3_total_leader_stakes ls) _).
Qed.

Lemma remove_entry_labels ls e entries ls' : remove_entry ls e entries = Ret ls' → same_labels ls ls'.
Proof. unfold remove_entry. intros Hr. mskip Hr. by injection Hr as <-. Qed.

Lemma add_entry_labels ls e ls' : add_entry ls e = Ret ls' → same_labels ls ls'.
Proof. unfold add_entry. intros Hr. mskip Hr. by injection Hr as <-. Qed.

Lemma evict_entries_labels entries ls ls' : evict_entries ls entries = Ret ls' → same_labels ls ls'.
Proof.
  revert ls. induction entries as [|e entries IH]; intros ls; cbn [evict_entries]; destruct (_ <=? _); try done.
  - by intros [= <-].
  - intros (l1 & [Hc Hp]%remove_entry_labels & [Hc' Hp']%IH)%bind_Ret. by split; congruence.
  - by intros [= <-].
Qed.

Lemma evict_entries_relabel ctx pending entries ls :
  ctx_protocol_config (l3_context ls) = ctx_protocol_config ctx →
  evict_entries (relabel ctx pending ls) entries = relabel ctx pending <$> evict_entries ls entries.
Proof.
  revert ls. induction entries as [|e entries IH]; intros ls Hs; cbn [evict_entries];
    unfold l3_window_size; cbn [relabel l3_context]; rewrite Hs; destruct (_ <=? _); try done.
  rewrite remove_entry_relabel. destruct (remove_entry ls e entries) as [ls'| |] eqn:Er; cbn; [|done..].
  apply IH. apply remove_entry_labels in Er as [-> _]. done.
Qed.

(** Adding a commit under another context, up to what the schedule reads. *)
Lemma advance_relabel ctx pending ls cmt cmt' :
  ctx_committee (l3_context ls) = ctx_committee ctx → ctx_protocol_config (l3_context ls) = ctx_protocol_config ctx →
  scored_part <$> pending = scored_part <$> l3_pending_commits ls → scored_part cmt' = scored_part cmt →
  advance (relabel ctx pending ls) cmt' =
    (λ ls', relabel ctx (if N.of_nat (length pending) <? MAX_PENDING_COMMITS then pending ++ [cmt'] else drop 1 pending ++ [cmt']) ls')
      <$> advance ls cmt.
Proof.
  intros Hc Hp Hpend Hcmt. unfold advance. cbn [relabel l3_pending_commits l3_scores_entries l3_context].
  assert (length pending = length (l3_pending_commits ls)) as <- by (by rewrite <- (length_fmap scored_part pending), Hpend, length_fmap).
  destruct (_ <? _); [done|]. rewrite <- Hc, <- (score_commit_part _ pending cmt'), Hpend, Hcmt, score_commit_part.
  destruct (score_commit _ _ _) as [e| |]; cbn [mbind M_bind]; [|done..].
  rewrite evict_entries_relabel by done. destruct (evict_entries ls _) as [l1| |]; cbn [mbind M_bind fmap M_fmap]; [|done..].
  rewrite add_entry_relabel. by destruct (add_entry l1 e) as [l2| |] eqn:Ea.
Qed.

(** ** Schedules that agree *)

(** What the schedule reads of the context. *)
Definition same_schedule_config (ctx ctx' : Context) : Prop :=
  ctx_committee ctx = ctx_committee ctx' ∧ ctx_protocol_config ctx = ctx_protocol_config ctx' ∧
  ctx_epoch_start_timestamp_ms ctx = ctx_epoch_start_timestamp_ms ctx'.

Record same_schedule ls ls' : Prop := {
  ss_config : same_schedule_config (l3_context ls) (l3_context ls');
  ss_pending : scored_part <$> l3_pending_commits ls = scored_part <$> l3_pending_commits ls';
  ss_window : ls' = relabel (l3_context ls') (l3_pending_commits ls') ls;
}.

#[export] Instance same_schedule_equiv : Equivalence same_schedule.
Proof.
  split.
  - intros []. split; by try apply _.
  - intros [] [] [(Hc & Hp & He) Hpend Hw]. unfold relabel in Hw. cbn in *. injection Hw as -> -> -> -> ->. by split.
  - intros [] [] [] [(Hc & Hp & He) Hpend Hw] [(Hc' & Hp' & He') Hpend' Hw']. unfold relabel in Hw, Hw'. cbn in *.
    injection Hw as -> -> -> -> ->. injection Hw' as -> -> -> -> ->. split; [|by etrans|done]. by split_and!; etrans.
Qed.

Lemma relabel_same ctx pending ls :
  same_schedule_config (l3_context ls) ctx → scored_part <$> l3_pending_commits ls = scored_part <$> pending →
  same_schedule ls (relabel ctx pending ls).
Proof. by split. Qed.

Lemma last_part pending pending' :
  scored_part <$> pending = scored_part <$> pending' → scored_part <$> last pending = scored_part <$> last pending'.
Proof. intros Heq. by rewrite <- !fmap_last, Heq. Qed.

(** What is read of the last pending commit. *)
Lemma last_read {A} (f : CommittedSubDag → A) pending pending' :
  (∀ sd, f (scored_part sd) = f sd) → scored_part <$> pending = scored_part <$> pending' → f <$> last pending = f <$> last pending'.
Proof.
  intros Hf Heq%last_part. destruct (last pending) as [x|], (last pending') as [y|]; try done. simpl in *.
  assert (scored_part x = scored_part y) as Hxy by congruence. by rewrite <- (Hf x), <- (Hf y), Hxy.
Qed.

Lemma next_commit_index_same ls ls' :
  same_schedule ls ls' → LeaderScheduleV3_next_commit_index ls' = LeaderScheduleV3_next_commit_index ls.
Proof.
  intros [_ Hp _]. unfold LeaderScheduleV3_next_commit_index.
  by rewrite (last_read (λ c, cr_index (sd_commit_ref c)) _ _ (λ _, eq_refl) Hp).
Qed.

Lemma min_next_leader_round_same ls ls' :
  same_schedule ls ls' → LeaderScheduleV3_min_next_leader_round ls' = LeaderScheduleV3_min_next_leader_round ls.
Proof.
  intros [_ Hp _]. unfold LeaderScheduleV3_min_next_leader_round.
  by rewrite (last_read (λ c, br_round (sd_leader c)) _ _ (λ _, eq_refl) Hp).
Qed.

Lemma shuffle_seed_same ls ls' : same_schedule ls ls' → shuffle_seed ls' = shuffle_seed ls.
Proof.
  intros [(Hc & _ & He) Hp _]. unfold shuffle_seed. rewrite Hc, He. apply last_part in Hp.
  destruct (last (l3_pending_commits ls)) as [x|], (last (l3_pending_commits ls')) as [y|]; try done.
  simpl in Hp. apply (inj Some) in Hp. by rewrite (f_equal sd_commit_ref Hp : sd_commit_ref x = sd_commit_ref y).
Qed.

Lemma compute_schedule_same ls ls' :
  same_schedule ls ls' → LeaderScheduleV3_compute_next_commit_leader_schedule ls' = LeaderScheduleV3_compute_next_commit_leader_schedule ls.
Proof.
  intros Hs. unfold LeaderScheduleV3_compute_next_commit_leader_schedule, LeaderScheduleV3_select_allowed_leaders_with_fixed_config.
  rewrite (next_commit_index_same ls ls'), (min_next_leader_round_same ls ls'), (shuffle_seed_same ls ls') by done.
  destruct Hs as [(Hc & Hp & _) _ ->]. cbn. by rewrite Hc, Hp.
Qed.

Lemma refresh_schedule_same ls ls' :
  same_schedule ls ls' →
  LeaderScheduleV3_refresh_current_schedule ls' =
    relabel (l3_context ls') (l3_pending_commits ls') <$> LeaderScheduleV3_refresh_current_schedule ls.
Proof.
  intros Hs. unfold LeaderScheduleV3_refresh_current_schedule, l3_update_interval.
  rewrite (next_commit_index_same ls ls'), (min_next_leader_round_same ls ls'), (compute_schedule_same ls ls') by done.
  destruct Hs as [(_ & <- & _) _ ->]. destruct (LeaderScheduleV3_next_commit_index ls); cbn [mbind M_bind]; [|done..]. destruct (_ =? _).
  - by destruct (LeaderScheduleV3_compute_next_commit_leader_schedule ls).
  - by destruct (LeaderScheduleV3_min_next_leader_round ls).
Qed.

Lemma refresh_labels ls ls' : LeaderScheduleV3_refresh_current_schedule ls = Ret ls' → same_labels ls ls'.
Proof.
  unfold LeaderScheduleV3_refresh_current_schedule. intros (i & _ & Hr)%bind_Ret. destruct (_ =? _); mskip Hr; by injection Hr as <-.
Qed.

Lemma report_metrics_same ls ls' :
  same_schedule ls ls' → LeaderScheduleV3_report_metrics ls' = LeaderScheduleV3_report_metrics ls.
Proof. intros [(Hc & _ & _) _ ->]. unfold LeaderScheduleV3_report_metrics. cbn. by rewrite Hc. Qed.

Lemma index_check_same ls ls' cmt cmt' :
  same_schedule ls ls' → scored_part cmt = scored_part cmt' → index_check ls' cmt' = index_check ls cmt.
Proof.
  intros [_ Hp%last_part _] Hcmt. unfold index_check.
  destruct (last (l3_pending_commits ls)) as [x|], (last (l3_pending_commits ls')) as [y|]; try done. apply (inj Some) in Hp.
  by rewrite (f_equal sd_commit_ref Hp : sd_commit_ref x = sd_commit_ref y), (f_equal sd_commit_ref Hcmt : sd_commit_ref cmt = sd_commit_ref cmt').
Qed.

Lemma advance_labels ls cmt ls' :
  advance ls cmt = Ret ls' → l3_context ls' = l3_context ls ∧
  l3_pending_commits ls' = (if N.of_nat (length (l3_pending_commits ls)) <? MAX_PENDING_COMMITS
                            then l3_pending_commits ls else drop 1 (l3_pending_commits ls)) ++ [cmt].
Proof.
  unfold advance. destruct (_ <? _); [by intros [= <-]|]. intros (e & _ & Ha)%bind_Ret.
  apply bind_Ret in Ha as (l1 & [Hc Hp]%evict_entries_labels & Ha). apply bind_Ret in Ha as (l2 & [Hc' Hp']%add_entry_labels & [= <-]).
  simpl. rewrite Hp', Hp. split; [congruence|done].
Qed.

Lemma advance_same ls ls' cmt cmt' r :
  same_schedule ls ls' → scored_part cmt = scored_part cmt' → advance ls cmt = Ret r →
  ∃ r', advance ls' cmt' = Ret r' ∧ same_schedule r r'.
Proof.
  intros [Hcfg Hp Hw] Hcmt Ha. pose proof Hcfg as (Hc & Hpc & _). rewrite Hw, (advance_relabel _ _ ls cmt cmt'), Ha by done.
  eexists. split; [done|]. apply advance_labels in Ha as [Hrc Hrp]. apply relabel_same; [by rewrite Hrc|].
  assert (length (l3_pending_commits ls') = length (l3_pending_commits ls)) as ->
    by (by rewrite <- (length_fmap scored_part (l3_pending_commits ls')), <- Hp, length_fmap).
  rewrite Hrp. destruct (_ <? _); rewrite !fmap_app, ?fmap_drop, Hp; csimpl; by rewrite Hcmt.
Qed.

(** Adding a commit to schedules that agree. *)
Lemma add_commit_same ls ls' cmt cmt' r :
  same_schedule ls ls' → scored_part cmt = scored_part cmt' → LeaderScheduleV3_add_commit ls cmt = Ret r →
  ∃ r', LeaderScheduleV3_add_commit ls' cmt' = Ret r' ∧ same_schedule r r'.
Proof.
  intros Hs Hcmt. rewrite !add_commit_unfold, (index_check_same ls ls' cmt cmt') by done.
  intros ([] & -> & Ha)%bind_Ret. cbn [mbind M_bind]. apply bind_Ret in Ha as (l1 & Hl1 & Ha).
  destruct (advance_same ls ls' cmt cmt' l1 Hs Hcmt Hl1) as (l1' & -> & Hs1). cbn [mbind M_bind].
  apply bind_Ret in Ha as (l2 & Hl2 & Ha). rewrite (refresh_schedule_same l1 l1'), Hl2 by done. cbn [mbind M_bind fmap M_fmap].
  apply refresh_labels in Hl2 as [Hc2 Hp2].
  assert (same_schedule l2 (relabel (l3_context l1') (l3_pending_commits l1') l2)) as Hs2
    by (apply relabel_same; [rewrite Hc2|rewrite Hp2]; apply Hs1).
  rewrite (report_metrics_same _ _ Hs2). apply bind_Ret in Ha as ([] & -> & [= <-]). by eexists.
Qed.

Lemma add_commits_same commits commits' ls ls' r :
  same_schedule ls ls' → scored_part <$> commits = scored_part <$> commits' →
  foldM LeaderScheduleV3_add_commit ls commits = Ret r →
  ∃ r', foldM LeaderScheduleV3_add_commit ls' commits' = Ret r' ∧ same_schedule r r'.
Proof.
  revert commits' ls ls'. induction commits as [|cmt commits IH]; intros [|cmt' commits'] ls ls' Hs Heq; try done; cbn [foldM].
  - intros [= <-]. by exists ls'.
  - rewrite !fmap_cons in Heq. apply (inj2 cons) in Heq as [Hcmt Heq]. intros (l1 & Hl1 & Hrun)%bind_Ret.
    destruct (add_commit_same ls ls' cmt cmt' l1 Hs Hcmt Hl1) as (l1' & -> & Hs1). cbn [mbind M_bind]. by apply (IH commits' l1).
Qed.

Lemma new_same ctx ctx' scores ls :
  same_schedule_config ctx ctx' → LeaderScheduleV3_new ctx scores = Ret ls →
  ∃ ls', LeaderScheduleV3_new ctx' scores = Ret ls' ∧ same_schedule ls ls'.
Proof.
  intros Hs. unfold LeaderScheduleV3_new. rewrite <- (proj1 Hs). intros ([] & -> & Hn)%bind_Ret. cbn [mbind M_bind].
  set (ls0 := mkLeaderScheduleV3 ctx _ _ _ _ _ _) in *. set (ls1 := mkLeaderScheduleV3 ctx' _ _ _ _ _ _).
  rewrite (compute_schedule_same ls0 ls1) by (by apply (relabel_same ctx' [] ls0)).
  apply bind_Ret in Hn as (sch & -> & [= <-]). eexists. split; [done|].
  by apply (relabel_same ctx' [] (set_current_schedule sch ls0)).
Qed.

End ScheduleRecovery.

(** ** Recovery *)

Section FromStore.
Context `{Profile} `{Rng} `{Hrng : !RngLaws} {S : Type} `{Store S}.
Context (ctx : Context).
Abbreviation window := (pc_leader_schedule_window_size (ctx_protocol_config ctx)) (only parsing).
Abbreviation interval := (pc_leader_schedule_update_interval (ctx_protocol_config ctx)) (only parsing).
Context (Hwf : Committee_wf (ctx_committee ctx)) (Hwindow : 1 ≤ window).
Implicit Types (ls live : LeaderScheduleV3) (commits : list CommittedSubDag).

(** The store holds the commits [stored]; what the schedule reads of the
    sub-dags loaded from them is that of [commits]. *)
Record stores_commits (store : S) (stored : list TrustedCommit) commits : Prop := {
  sc_scan : ∀ start, 1 ≤ start ≤ N.of_nat (length commits) →
    store_scan_commits store (CommitRange_new start (N.of_nat (length commits))) = Ret (Ok (drop (N.to_nat (start - 1)) stored));
  sc_load : Forall2 (λ commit sd, ∃ sd', load_committed_subdag_from_store store commit = Ret sd' ∧ scored_part sd = scored_part sd')
              stored commits;
}.

Lemma replay_loaded (store : S) stored commits ls live :
  Forall2 (λ commit sd, ∃ sd', load_committed_subdag_from_store store commit = Ret sd' ∧ scored_part sd = scored_part sd')
    stored commits → foldM LeaderScheduleV3_add_commit ls commits = Ret live →
  ∃ recovered,
    foldM (λ ls commit, subdag ← load_committed_subdag_from_store store commit; LeaderScheduleV3_add_commit ls subdag) ls stored
      = Ret recovered ∧ same_schedule live recovered.
Proof using.
  intros Hload. revert ls. assert (∀ ls ls', same_schedule ls ls' → foldM LeaderScheduleV3_add_commit ls commits = Ret live →
    ∃ recovered, foldM (λ ls commit, subdag ← load_committed_subdag_from_store store commit; LeaderScheduleV3_add_commit ls subdag) ls' stored
      = Ret recovered ∧ same_schedule live recovered) as Hgen; [|intros ls; by apply Hgen].
  induction Hload as [|commit sd stored' commits' (sd' & Hl & Hpart) _ IH]; intros ls ls' Hs; cbn [foldM].
  - intros [= <-]. by exists ls'.
  - rewrite Hl. cbn [mbind M_bind]. intros (l1 & Hl1 & Hrun)%bind_Ret.
    destruct (add_commit_same ls ls' sd sd' l1 Hs Hpart Hl1) as (l1' & -> & Hs1). cbn [mbind M_bind]. by apply (IH l1).
Qed.

(** C10: recovery of the v3 leader schedule is exact: [from_store] replays only
    the stored commits from [replay_start] on, and returns the state (running
    totals, window of scores, current schedule, and pending commits up to the
    fields that scoring does not read) that adding every commit since the first
    one gives. *)
Theorem LeaderScheduleV3_from_store_exact (dag : DagState S) stored commits ls0 live :
  stores_commits (ds_store dag) stored commits → DagState_last_commit_index dag = N.of_nat (length commits) →
  (∀ k cmt, commits !! k = Some cmt → cr_index (sd_commit_ref cmt) = N.of_nat k + 1) →
  N.of_nat (length commits) < u32_max → 1 ≤ interval → window + MAX_PENDING_COMMITS ≤ u32_max →
  LeaderScheduleV3_new ctx (zero_scores ctx) = Ret ls0 → foldM LeaderScheduleV3_add_commit ls0 commits = Ret live →
  ∃ recovered, LeaderScheduleV3_from_store ctx dag = Ret recovered ∧ same_schedule live recovered ∧
    l3_current_schedule recovered = l3_current_schedule live.
Proof using Hwf Hrng Hwindow.
  intros [Hscan Hload] Hlast Hidx Hn Hi Hw Hnew Hrun.
  assert (∃ recovered, LeaderScheduleV3_from_store ctx dag = Ret recovered ∧ same_schedule live recovered) as (recovered & Hr & Hs);
    [|exists recovered; split_and!; [done|done|by rewrite (ss_window _ _ Hs)]].
  unfold LeaderScheduleV3_from_store. fold (zero_scores ctx). rewrite Hnew. cbn [mbind M_bind].
  rewrite Hlast. destruct (N.eqb_spec (N.of_nat (length commits)) 0) as [Hz|Hnz].
  { destruct commits; [injection Hrun as ->; by exists live|done]. }
  destruct (replay_from_start ctx Hwf Hwindow ls0 commits live Hnew Hidx Hn Hi Hw Hrun) as (start & -> & Hstart & Hrep).
  cbn [mbind M_bind]. rewrite Hscan by lia. cbn [unwrap_ok mbind M_bind].
  by apply (replay_loaded (ds_store dag) _ (drop (N.to_nat (start - 1)) commits)); [apply Forall2_drop|].
Qed.

End FromStore.
