(* ===== verification/ScheduleChain.v ===== *)
(** * Commits with the leader schedule of the code

    The schedule of the next commit is the one [LeaderScheduleV3] holds after
    the past commits: it is a function of these commits and of what the
    authorities share (the committee, the protocol parameters, the start of the
    epoch), so the results of FlexChain.v hold of authorities that run
    [Core::try_commit_v3] with their own leader schedules. *)

From S2P Require Import Prelude BTree Config Block Commit Store StakeAggregator ThresholdClock.
From S2P Require Import LeaderScoring DagState DagTheory DagRecovery DagTraversal LeaderSchedule LeaderScheduleV3 CommitRule Linearizer.
From S2P Require Import CommitTimestamp ProposerHistory V3Metadata V3Run SlotRule LeaderSlotDecider SlotDeciderTheory FlexCommitter.
From S2P Require Import FlexRounds FlexLeaders FlexCollect FlexTimestamp FlexBuild FlexCommit FlexMarks FlexChain ScheduleTotals ScheduleReplay ScheduleRecovery.
Local Open Scope N_scope.

(** ** The schedule after the past commits *)

Section ScheduleAfter.
Context `{Profile} `{Rng} `{Hrng : !RngLaws}.
Context (ctx : Context).
Context (Hwf : Committee_wf (ctx_committee ctx)) (Hwindow : 1 ≤ pc_leader_schedule_window_size (ctx_protocol_config ctx)).
Implicit Types (ls : LeaderScheduleV3) (commits : list CommittedSubDag).

Definition schedule_after commits : M LeaderScheduleV3 :=
  ls ← LeaderScheduleV3_new ctx (zero_scores ctx); foldM LeaderScheduleV3_add_commit ls commits.

Lemma schedule_after_snoc commits cmt :
  schedule_after (commits ++ [cmt]) = (ls ← schedule_after commits; LeaderScheduleV3_add_commit ls cmt).
Proof using.
  unfold schedule_after. destruct (LeaderScheduleV3_new ctx (zero_scores ctx)) as [ls| |]; cbn [mbind M_bind]; [|done..].
  rewrite foldM_app. destruct (foldM _ ls commits) as [ls'| |]; cbn [mbind M_bind foldM]; [|done..].
  by destruct (LeaderScheduleV3_add_commit ls' cmt).
Qed.

(** The commits leave room for one more index and one more round. *)
Definition numbers_left commits : Prop := last_index commits < u32_max ∧ last_leader_round commits < u32_max.

Lemma schedule_after_ok commits ls :
  schedule_after commits = Ret ls →
  totals_ok ctx ls ∧ allowed_ok ctx (l3_current_schedule ls) ∧
  (numbers_left commits →
     nc_next_commit_index (l3_current_schedule ls) = last_index commits + 1 ∧
     nc_min_next_leader_round (l3_current_schedule ls) = last_leader_round commits + 1).
Proof using Hwf Hrng Hwindow.
  revert ls. induction commits as [|cmt commits IH] using rev_ind; intros ls.
  - unfold schedule_after. intros (ls0 & Hnew & [= <-])%bind_Ret.
    by destruct (new_schedule_ok ctx Hwf ls0 Hnew) as (_ & Hok & _ & Hal & Hi & Hr).
  - rewrite schedule_after_snoc. intros (ls1 & Hl1 & Ha)%bind_Ret. destruct (IH ls1 Hl1) as (Hok & Hal & _).
    assert (∃ product, cutoff_product ctx = Ret product) as [product Hp].
    { unfold schedule_after in Hl1. apply bind_Ret in Hl1 as (ls0 & Hnew & _). apply (new_schedule_ok ctx Hwf ls0 Hnew). }
    destruct (add_commit_schedule ctx Hwf Hwindow product Hp ls1 cmt ls Hok Ha) as (Hok' & [Hi Hr] & Hal').
    split; [done|]. split; [by apply Hal'|]. unfold numbers_left, last_index, last_leader_round. rewrite !last_snoc. simpl.
    intros [H1 H2]. by rewrite Hi, Hr.
Qed.

#[export] Instance numbers_left_dec commits : base.Decision (numbers_left commits) := _.

Definition ScheduleV3 : CommitSchedule := λ commits,
  match schedule_after commits with
  | Ret ls => if decide (numbers_left commits) then Some (l3_current_schedule ls) else None
  | _ => None
  end.
#[local] Existing Instance ScheduleV3.

(** What the committer expects of the schedule. *)
Lemma ScheduleV3_laws : CommitScheduleLaws (ctx_committee ctx).
Proof using Hwf Hrng Hwindow.
  assert (∀ commits nxt, next_schedule commits = Some nxt →
    numbers_left commits ∧ ∃ ls, schedule_after commits = Ret ls ∧ nxt = l3_current_schedule ls) as Hn.
  { intros commits nxt. unfold next_schedule, ScheduleV3. destruct (schedule_after commits) as [ls| |]; [|done..].
    case_decide; [|done]. intros [= <-]. split; [done|]. by exists ls. }
  split; intros commits nxt (Hleft & ls & Hls & ->)%Hn; destruct (schedule_after_ok commits ls Hls) as (_ & [Hnd Hm] & Hnum);
    destruct (Hnum Hleft) as [Hi Hr]; [split; [done..|]|done|done].
  rewrite Hr. destruct Hleft. lia.
Qed.

(** The schedule of an authority after the commits. *)
Definition holds_schedule commits ls : Prop := ∃ ls0, schedule_after commits = Ret ls0 ∧ same_schedule ls0 ls.

Lemma holds_schedule_next commits ls :
  holds_schedule commits ls → numbers_left commits → next_schedule commits = Some (l3_current_schedule ls).
Proof using.
  intros (ls0 & Hls & Hs) Hleft. unfold next_schedule, ScheduleV3. rewrite Hls, decide_True by done. by rewrite (ss_window _ _ Hs).
Qed.

Lemma holds_schedule_add commits ls cmt ls' :
  holds_schedule commits ls → LeaderScheduleV3_add_commit ls cmt = Ret ls' → holds_schedule (commits ++ [cmt]) ls'.
Proof using.
  intros (ls0 & Hls & Hs) Ha. destruct (add_commit_same ls ls0 cmt cmt ls') as (ls1 & Hl1 & Hs1); [by symmetry|done|done|].
  exists ls1. rewrite schedule_after_snoc, Hls. split; [done|by symmetry].
Qed.

Lemma holds_schedule_new ctx' ls :
  same_schedule_config ctx ctx' → LeaderScheduleV3_new ctx' (zero_scores ctx') = Ret ls → holds_schedule [] ls.
Proof using.
  intros (Hc & Hp & He) Hnew. destruct (new_same ctx' ctx (zero_scores ctx') ls) as (ls0 & Hn & Hs); [by split_and!|done|].
  exists ls0. split; [|by symmetry]. unfold schedule_after. unfold zero_scores in *. by rewrite Hc, Hn.
Qed.

End ScheduleAfter.

(** ** Authorities with their own schedules *)

Section ScheduleChain.
Context `{Profile} `{Crypto} `{CommitBcs} `{Rng} `{Hrng : !RngLaws} {S : Type} `{StoreLaws S}.
Context (ctx : Context) (G : BlockRef → option VerifiedBlock).
Abbreviation c := (ctx_committee ctx) (only parsing).
Abbreviation config := (ctx_protocol_config ctx) (only parsing).
Context (Hwf : Committee_wf c) (Hv3 : v3_thresholds c) (Hdag : dag_valid c G) (Hdist : distinct_ancestors G).
Context (byz : gset AuthorityIndex) (Hmaj : honest_majority c G byz).
Context (Hbcs : ∀ commit, is_Some (bcs_commit commit)).
Context (Hdepth : 1 ≤ pc_gc_depth config) (Hwindow : 1 ≤ pc_leader_schedule_window_size config).
Context (Henabled : pc_enable_v3 config = true).
Implicit Types (s : DagState S) (fc : FlexCommitter) (ls : LeaderScheduleV3).

#[local] Instance authority_schedule : CommitSchedule := ScheduleV3 ctx.
#[local] Instance schedule_laws : CommitScheduleLaws c := ScheduleV3_laws ctx Hwf Hwindow.

Record authority : Type := mkAuthority {
  au_dag : DagState S;
  au_committer : FlexCommitter;
  au_schedule : LeaderScheduleV3;
  au_commits : list (TrustedCommit * CommittedSubDag);
}.
Implicit Types a : authority.

(** Blocks are accepted and flushed between the iterations of the loop of
    [try_commit_v3], each of which asks the committer for a commit with the
    current schedule, and adds it to the DAG state and to the schedule. *)
Inductive authority_step : authority → authority → Prop :=
  | authority_background s fc ls cs op s' :
      background op → v3_op_ready s op → (∀ b, op = OpAccept b → G (reference b) = Some b) →
      run_op s op = Ret s' → authority_step (mkAuthority s fc ls cs) (mkAuthority s' fc ls cs)
  | authority_idle s fc ls cs fc' s' :
      FlexCommitter_try_commit fc s (l3_current_schedule ls) = Ret (fc', s', None) →
      authority_step (mkAuthority s fc ls cs) (mkAuthority s' fc' ls cs)
  | authority_commit s fc ls cs fc' s1 tc sd s2 ls' :
      FlexCommitter_try_commit fc s (l3_current_schedule ls) = Ret (fc', s1, Some (tc, sd)) → c_index tc < u32_max →
      DagState_add_commit s1 tc = Ret s2 → LeaderScheduleV3_add_commit ls sd = Ret ls' →
      authority_step (mkAuthority s fc ls cs) (mkAuthority s2 fc' ls' (cs ++ [(tc, sd)])).

(** A new authority, on an empty store, with parameters of its own. *)
Inductive new_authority : authority → Prop :=
  | new_authority_on ctx' store gs s ls :
      same_schedule_config ctx ctx' → 1 ≤ ctx_dag_state_cached_rounds ctx' → genesis_blocks ctx' = Ret gs → store_fresh store →
      (∀ r, br_round r = 0 → G r = genesis_map gs !! r) → DagState_new ctx' store = Ret s →
      LeaderScheduleV3_from_store ctx' s = Ret ls → new_authority (mkAuthority s (FlexCommitter_new ctx') ls []).

Definition runs_to a : Prop := ∃ a0, new_authority a0 ∧ rtc authority_step a0 a.

(** The state without the schedule. *)
Definition node_of a : node := mkNode (au_dag a) (au_committer a) (au_commits a).

Record authority_ok a : Prop := {
  ao_node : node_ok c G (pc_gc_depth config) (node_of a);
  ao_schedule : holds_schedule ctx (au_commits a).*2 (au_schedule a);
  ao_left : numbers_left (au_commits a).*2;
}.

Lemma authority_next a : authority_ok a → next_schedule (au_commits a).*2 = Some (l3_current_schedule (au_schedule a)).
Proof using. intros [_ Hs Hl]. by apply holds_schedule_next. Qed.

(** Each step is a step of FlexChain.v. *)
Lemma authority_simulates a a' :
  authority_ok a → authority_step a a' → node_step G (node_of a) (node_of a').
Proof using.
  intros Hok Hstep. pose proof (authority_next a Hok) as Hn.
  destruct Hstep as [s fc ls cs op s' Hbg Hr HG Hrun|s fc ls cs fc' s' Ht|s fc ls cs fc' s1 tc sd s2 ls' Ht _ Ha _]; cbn in *.
  - by apply (step_background G s fc cs op s').
  - by apply (step_idle G s fc cs (l3_current_schedule ls) fc' s').
  - by apply (step_commit G s fc cs (l3_current_schedule ls) fc' s1 tc sd s2).
Qed.

Lemma commit_numbers s fc ls cs fc' s1 tc sd :
  authority_ok (mkAuthority s fc ls cs) → FlexCommitter_try_commit fc s (l3_current_schedule ls) = Ret (fc', s1, Some (tc, sd)) →
  c_index tc < u32_max → numbers_left (cs ++ [(tc, sd)]).*2.
Proof using Hrng Hwf Hv3 Hdag Hdist Hmaj Hbcs Hwindow Hdepth.
  intros Hok Ht Hi. pose proof (authority_next _ Hok) as Hn.
  destruct (try_commit_outcome c G Hwf Hv3 Hdag Hdist byz Hmaj Hbcs _ Hdepth _ _ (ao_node _ Hok) Hn)
    as [[f Ha]|(r & leaders & _ & Hr & [[_ Ha]|(_ & f & s' & tc' & sd' & Ha & _ & Hb)])]; cbn in Ha; [congruence..|].
  rewrite Ht in Ha. injection Ha as <- <- <- <-.
  unfold numbers_left, last_index, last_leader_round. rewrite fmap_app. change ([(tc, sd)].*2) with [sd]. rewrite !last_snoc. simpl.
  rewrite (bu_sub_dag _ _ _ _ _ _ _ _ Hb). simpl. rewrite (bu_round _ _ _ _ _ _ _ _ Hb). lia.
Qed.

Lemma authority_step_ok a a' : authority_ok a → authority_step a a' → authority_ok a'.
Proof using Hrng Hwf Hv3 Hdag Hdist Hmaj Hbcs Hwindow Hdepth.
  intros Hok Hstep. split.
  - apply (step_ok c G Hwf Hv3 Hdag Hdist byz Hmaj Hbcs _ Hdepth (node_of a)); [apply Hok|by apply authority_simulates].
  - destruct Hok as [_ Hs _], Hstep as [| |s fc ls cs fc' s1 tc sd s2 ls' _ _ _ Ha]; [done..|]. cbn [au_commits au_schedule] in *.
    rewrite fmap_app. by apply (holds_schedule_add ctx _ ls).
  - destruct Hstep as [| |s fc ls cs fc' s1 tc sd s2 ls' Ht Hi _ _]; [apply Hok..|]. by apply (commit_numbers s fc ls cs fc' s1).
Qed.

Lemma new_authority_ok a : new_authority a → initial c G (pc_gc_depth config) (node_of a) ∧ authority_ok a.
Proof using Hrng Hwf Hdag Hwindow Hdepth Henabled.
  intros [ctx' store gs s ls Hs Hcr Hgs Hf HG Hnew Hsch]. pose proof Hs as (Hc & Hp & _).
  assert (initial c G (pc_gc_depth config) (mkNode s (FlexCommitter_new ctx') [])) as Hi
    by (eapply initial_node; rewrite <- ?Hp; done).
  split; [done|]. split; [by apply (initial_ok c G Hwf Hdag _ Hdepth)| |done].
  destruct (fresh_v3 ctx' store gs) as (s' & Hn & _ & _ & Hl & _); [by rewrite <- Hc|done..|]. rewrite Hnew in Hn. injection Hn as <-.
  unfold LeaderScheduleV3_from_store in Hsch. apply bind_Ret in Hsch as (ls0 & Hls & Hsch).
  unfold DagState_last_commit_index in Hsch. rewrite Hl in Hsch. injection Hsch as <-. by apply (holds_schedule_new ctx ctx').
Qed.

Lemma runs_to_ok a : runs_to a → authority_ok a ∧ reachable c G (pc_gc_depth config) (node_of a).
Proof using Hrng Hwf Hv3 Hdag Hdist Hmaj Hbcs Hwindow Hdepth Henabled.
  intros (a0 & Hnew & Hsteps). apply new_authority_ok in Hnew as [Hi Hok].
  assert (reachable c G (pc_gc_depth config) (node_of a0)) as Hr by (by exists (node_of a0)). clear Hi.
  induction Hsteps as [|a1 a2 a3 Hstep _ IH]; [done|]. apply IH; [by apply (authority_step_ok a1)|].
  destruct Hr as (n0 & Hi & Hrun). exists n0. split; [done|]. eapply rtc_r; [done|]. by apply authority_simulates.
Qed.

(** C2: under commit rule v3 the authorities agree: whatever blocks of the DAG
    two authorities accept, in whatever order, with flushes and attempts to
    commit in between, each with its own committer and leader schedule, the
    commits of one are a prefix of the commits of the other, with the same
    leaders, blocks in the same order, timestamps and digests, as long as the
    faulty authorities have less stake than the validity threshold. *)
Theorem FlexCommitter_commits_agree a1 a2 :
  runs_to a1 → runs_to a2 →
  au_commits a1 `prefix_of` au_commits a2 ∨ au_commits a2 `prefix_of` au_commits a1.
Proof using Hrng Hwf Hv3 Hdag Hdist Hmaj Hbcs Hwindow Hdepth Henabled.
  intros [_ Hr1]%runs_to_ok [_ Hr2]%runs_to_ok.
  by apply (commits_prefix c G Hwf Hv3 Hdag Hdist byz Hmaj Hbcs _ Hdepth (node_of a1) (node_of a2)).
Qed.


End ScheduleChain.
