(* ===== verification/FlexSamples.v ===== *)
(** * A concrete DAG under commit rule v3

    Six authorities of equal stake, one of which may be faulty.  The guarantees
    of the DAG state, the committer and the leader schedule are instantiated on
    runs that are computed. *)

From S2P Require Import Prelude BTree Config Block Commit Store StakeAggregator ThresholdClock.
From S2P Require Import LeaderScoring DagState DagTheory DagRecovery DagTraversal LeaderSchedule LeaderScheduleV3 CommitRule CommitSamples Linearizer.
From S2P Require Import CommitTimestamp CommitChain CommitChainSamples V3Metadata V3Run SlotRule LeaderSlotDecider SlotDeciderTheory FlexCommitter.
From S2P Require Import FlexRounds FlexTimestamp FlexBuild FlexCommit FlexMarks FlexChain ScheduleTotals ScheduleReplay ScheduleRecovery ScheduleChain.
Local Open Scope N_scope.

#[local] Existing Instances DagRecovery.witness_profile DagRecovery.witness_crypto CommitChainSamples.sample_bcs.
#[local] Existing Instances LeaderSchedule.witness_rng LeaderSchedule.witness_rng_laws CommitSamples.is_quorum_dec.
#[local] Existing Instance CommitSamples.extends_dec.

(** ** The committee *)

Definition v3_committee : Committee :=
  {| Committee_epoch := 1; Committee_authorities := replicate 6 (sample_authority 1);
     Committee_total_stake := 6; Committee_quorum_threshold := 5;
     Committee_certification_threshold := 3; Committee_validity_threshold := 2 |}.

Lemma v3_committee_new : Committee_new_v3 1 (replicate 6 (sample_authority 1)) 1 0 = Ret v3_committee.
Proof. vm_compute. reflexivity. Qed.

Lemma v3_committee_wf : Committee_wf v3_committee.
Proof. eapply Committee_new_v3_wf; [| |apply v3_committee_new]; by_eval. Qed.

Lemma v3_committee_thresholds : v3_thresholds v3_committee.
Proof. eapply Committee_new_v3_thresholds; [| |apply v3_committee_new]; by_eval. Qed.

(** One authority may be left out of the leaders; the scores of two commits
    count, and a new schedule is computed at every second commit. *)
Definition v3_config : ConsensusProtocolConfig := {|
  pc_protocol_version := 1; pc_chain := ChainUnknown; pc_max_transaction_size_bytes := 256 * 1024;
  pc_max_transactions_in_block_bytes := 512 * 1024; pc_max_num_transactions_in_block := 512; pc_gc_depth := 3;
  pc_slim_block_propagation_enabled := false; pc_transaction_voting_enabled := true; pc_num_leaders_per_round := None;
  pc_bad_nodes_stake_threshold := 20; pc_enable_v3 := true;
  pc_leader_schedule_window_size_raw := 2; pc_leader_schedule_update_interval_raw := 2 |}.

Definition v3_context (own_index : AuthorityIndex) : Context :=
  {| ctx_epoch_start_timestamp_ms := 0; ctx_own_index := own_index; ctx_committee := v3_committee;
     ctx_dag_state_cached_rounds := 2; ctx_skip_equivocation_validation := false;
     ctx_min_round_delay := 50000000; ctx_propagation_delay_stop_proposal_threshold := 5;
     ctx_protocol_config := v3_config |}.

(** ** Blocks *)

Definition v3_block (authors : list AuthorityIndex) (round : Round) (author : AuthorityIndex) : VerifiedBlock :=
  sample_block round author (100 * round + author)
    (dag_ref (round - 1) <$> (author :: filter (λ i, i ≠ author) authors)).

Definition v3_round (authors : list AuthorityIndex) (round : Round) : list VerifiedBlock := v3_block authors round <$> authors.

Definition v3_blocks (authors : list AuthorityIndex) (rounds : nat) : list VerifiedBlock :=
  concat (v3_round authors <$> (N.of_nat <$> seq 1 rounds)).

Definition v3_genesis : gmap BlockRef VerifiedBlock :=
  match genesis_blocks (v3_context 0) with Ret gs => genesis_map gs | _ => ∅ end.

Definition v3_world (authors : list AuthorityIndex) (rounds : nat) : gmap BlockRef VerifiedBlock :=
  list_to_map ((λ b, (reference b, b)) <$> v3_blocks authors rounds) ∪ v3_genesis.

(** ** Runs *)

Inductive event : Type := Op (op : DagOp) | TryCommit.

Section Run.
Context (W : gmap BlockRef VerifiedBlock).
Abbreviation state := (authority (S := MemStore)) (only parsing).

Definition event_ready (s : DagState MemStore) (op : DagOp) : Prop :=
  match op with
  | OpAccept b =>
      W !! reference b = Some b ∧ ref_valid (reference b) ∧ b_author b ∈ members (DagState_committee s) ∧
      0 < b_round b ∧ b_round b < u32_max ∧
      Forall (λ a, br_round a < b_round b ∧ is_Some (ds_block s a)) (b_ancestors b) ∧
      Exists (λ a, br_round a + 1 = b_round b) (b_ancestors b)
  | OpFlush => True
  | _ => False
  end.
#[local] Instance event_ready_dec s op : base.Decision (event_ready s op).
Proof. unfold event_ready, ref_valid. destruct op; apply _. Defined.

Definition run_event (a : state) (e : event) : M state :=
  match e with
  | Op op =>
      if decide (event_ready (au_dag a) op)
      then s ← run_op (au_dag a) op; Ret (mkAuthority s (au_committer a) (au_schedule a) (au_commits a))
      else Panic (Explicit "not ready")
  | TryCommit =>
      '(fc, s, committed) ← FlexCommitter_try_commit (au_committer a) (au_dag a) (l3_current_schedule (au_schedule a));
      match committed : option (TrustedCommit * CommittedSubDag) with
      | None => Ret (mkAuthority s fc (au_schedule a) (au_commits a))
      | Some (tc, sd) =>
          if c_index tc <? u32_max then
            s ← DagState_add_commit s tc;
            ls ← LeaderScheduleV3_add_commit (au_schedule a) sd;
            Ret (mkAuthority s fc ls (au_commits a ++ [(tc, sd)]))
          else Panic (Explicit "no index left")
      end
  end.

Definition run_authority (ctx : Context) (events : list event) : M state :=
  s ← DagState_new ctx MemStore_new;
  ls ← LeaderScheduleV3_from_store ctx s;
  foldM run_event (mkAuthority s (FlexCommitter_new ctx) ls []) events.

Lemma event_ready_op s op :
  event_ready s op → background op ∧ v3_op_ready s op ∧ ∀ b, op = OpAccept b → W !! reference b = Some b.
Proof.
  destruct op; simpl; try done. intros (Hw & Hr & Ha & Hp & Hm & Hanc & Hpar). split; [done|]. split; [|by intros b [= <-]].
  rewrite Forall_forall in Hanc. split; [done|done| |].
  - intros a Hin. destruct (Hanc a Hin). by split.
  - by apply Exists_exists in Hpar.
Qed.

Lemma run_event_step a e a' : run_event a e = Ret a' → authority_step (λ r, W !! r) a a'.
Proof.
  destruct a as [s fc ls cs], e as [op|]; cbn [run_event au_dag au_committer au_schedule au_commits].
  - case_decide as Hr; [|done]. intros (s' & Hrun & [= <-])%bind_Ret. apply event_ready_op in Hr as (Hbg & Hr & HW).
    by apply (authority_background (λ r, W !! r) s fc ls cs op).
  - intros ([[fc' s'] out] & Ht & Hout)%bind_Ret. destruct out as [[tc sd]|].
    + destruct (N.ltb_spec (c_index tc) u32_max); [|done]. apply bind_Ret in Hout as (s2 & Ha & Hout).
      apply bind_Ret in Hout as (ls' & Hl & [= <-]). by apply (authority_commit (λ r, W !! r) s fc ls cs fc' s' tc sd s2 ls').
    + injection Hout as <-. by apply (authority_idle (λ r, W !! r)).
Qed.

Lemma run_events_steps events a a' :
  foldM run_event a events = Ret a' → rtc (authority_step (λ r, W !! r)) a a'.
Proof.
  revert a. induction events as [|e events IH]; intros a; cbn [foldM]; [by intros [= <-]|].
  intros (a1 & Ha & Hrun)%bind_Ret. eapply rtc_l; [by apply run_event_step in Ha|by apply IH].
Qed.

End Run.
#[local] Existing Instance event_ready_dec.

(** ** Checking a world *)

Definition world_check (W : gmap BlockRef VerifiedBlock) (honest_ones : list AuthorityIndex) : Prop :=
  valid_map v3_committee W ∧ map_Forall (λ _ b, NoDup (br_author <$> b_ancestors (vb_block b))) W ∧
  Forall (honest_map W) honest_ones ∧ map_Forall (λ r _, br_round r = 0 → is_Some (v3_genesis !! r)) W.
#[local] Instance world_check_dec W l : base.Decision (world_check W l).
Proof. unfold world_check, valid_map, honest_map. apply _. Defined.

Lemma v3_genesis_blocks i : ∃ gs, genesis_blocks (v3_context i) = Ret gs ∧ genesis_map gs = v3_genesis.
Proof.
  change (genesis_blocks (v3_context i)) with (genesis_blocks (v3_context 0)). unfold v3_genesis.
  destruct (genesis_blocks (v3_context 0)) as [gs| |] eqn:Hgs; [|vm_compute in Hgs; discriminate..]. by exists gs.
Qed.

Record world_ok (G : BlockRef → option VerifiedBlock) : Prop := {
  wo_valid : dag_valid v3_committee G;
  wo_distinct : distinct_ancestors G;
  wo_honest : honest_majority v3_committee G ∅;
  wo_genesis : ∀ r, br_round r = 0 → G r = v3_genesis !! r;
}.

Definition six : list AuthorityIndex := [0; 1; 2; 3; 4; 5].

Lemma world_check_ok blocks :
  world_check (blocks ∪ v3_genesis) six → map_Forall (λ r _, 0 < br_round r) blocks →
  world_ok (λ r, (blocks ∪ v3_genesis) !! r).
Proof.
  intros (Hv & Hd & Hh & _) Hpos. split.
  - by apply valid_map_dag.
  - exact Hd.
  - split; [by_eval|]. intros i Hi _. apply honest_map_dag. rewrite Forall_forall in Hh. apply Hh.
    revert i Hi. assert (members v3_committee = list_to_set six) as -> by by_eval. intros i Hi. by apply elem_of_list_to_set in Hi.
  - intros r Hr. apply lookup_union_r. destruct (blocks !! r) as [b|] eqn:Hb; [|done]. apply Hpos in Hb. lia.
Qed.

Lemma run_authority_runs W i events a :
  world_ok (λ r, W !! r) → run_authority W (v3_context i) events = Ret a →
  runs_to (v3_context 0) (λ r, W !! r) a.
Proof.
  intros Hw (s & Hn & Hrun)%bind_Ret. apply bind_Ret in Hrun as (ls & Hls & Hrun).
  destruct (v3_genesis_blocks i) as (gs & Hgs & Hgm).
  eexists. split; [|by apply run_events_steps in Hrun].
  apply (new_authority_on (v3_context 0) (λ r, W !! r) (v3_context i) MemStore_new gs s ls);
    [done|by_eval|done|apply mem_fresh| |done|done].
  intros r Hr. rewrite Hgm. by apply (wo_genesis _ Hw).
Qed.

(** ** Two authorities that agree *)

Definition full_world : gmap BlockRef VerifiedBlock := v3_world six 9.

Lemma full_world_ok : world_ok (λ r, full_world !! r).
Proof. apply world_check_ok; by_eval. Qed.

(** Accepting the blocks round by round, with attempts to commit and flushes. *)
Definition round_events (authors : list AuthorityIndex) (round : Round) : list event :=
  (Op <$> (OpAccept <$> v3_round authors round)) ++ [TryCommit; TryCommit; Op OpFlush].

Definition slow_events : list event := concat (round_events six <$> [1; 2; 3; 4]).
Definition fast_events : list event :=
  (Op <$> (OpAccept <$> v3_blocks six 4)) ++ concat (round_events six <$> [5; 6; 7; 8; 9]) ++ replicate 4 TryCommit ++ [Op OpFlush].

Lemma sample_authorities_run :
  ∃ a1 a2, run_authority full_world (v3_context 0) slow_events = Ret a1 ∧
    run_authority full_world (v3_context 1) fast_events = Ret a2 ∧
    length (au_commits a1) = 3%nat ∧ length (au_commits a2) = 8%nat.
Proof.
  assert (outcome_sat (run_authority full_world (v3_context 0) slow_events) (λ a, Nat.eqb (length (au_commits a)) 3) = true)
    as (a1 & H1 & L1%Nat.eqb_eq)%outcome_sat_spec by (vm_compute; reflexivity).
  assert (outcome_sat (run_authority full_world (v3_context 1) fast_events) (λ a, Nat.eqb (length (au_commits a)) 8) = true)
    as (a2 & H2 & L2%Nat.eqb_eq)%outcome_sat_spec by (vm_compute; reflexivity).
  exists a1, a2. exact (conj H1 (conj H2 (conj L1 L2))).
Qed.

Lemma FlexCommitter_commits_agree_witness :
  ∃ a1 a2, run_authority full_world (v3_context 0) slow_events = Ret a1 ∧
    run_authority full_world (v3_context 1) fast_events = Ret a2 ∧
    length (au_commits a1) = 3%nat ∧ length (au_commits a2) = 8%nat ∧ au_commits a1 `prefix_of` au_commits a2.
Proof.
  destruct sample_authorities_run as (a1 & a2 & H1 & H2 & L1 & L2). exists a1, a2.
  split; [exact H1|]. split; [exact H2|]. split; [exact L1|]. split; [exact L2|].
  destruct (FlexCommitter_commits_agree (v3_context 0) (λ r, full_world !! r) v3_committee_wf v3_committee_thresholds
    (wo_valid _ full_world_ok) (wo_distinct _ full_world_ok) ∅ (wo_honest _ full_world_ok)
    sample_bcs_total ltac:(by_eval) ltac:(by_eval) eq_refl a1 a2) as [Hp|Hp].
  - eapply run_authority_runs; [apply full_world_ok|exact H1].
  - eapply run_authority_runs; [apply full_world_ok|exact H2].
  - exact Hp.
  - apply prefix_length in Hp. rewrite L1, L2 in Hp. lia.
Defined.

(** ** A silent leader

    Authority 5 is not allowed to lead and authority 4 is silent: the four other
    leaders of round 1 have the stake of a certificate and not of a quorum. *)

Definition five : list AuthorityIndex := [0; 1; 2; 3; 5].
Definition silent_world : gmap BlockRef VerifiedBlock := v3_world five 3.
Definition silent_events : list event := Op <$> (OpAccept <$> v3_blocks five 3).

Lemma silent_world_ok : world_ok (λ r, silent_world !! r).
Proof. apply world_check_ok; by_eval. Qed.

Definition panics {A} (m : M A) : bool := match m with Panic _ => true | _ => false end.


(** ** Votes *)

Definition checked_op (s : DagState MemStore) (op : DagOp) : M (DagState MemStore) :=
  if decide (event_ready full_world s op) then run_op s op else Panic (Explicit "not ready").

Lemma checked_run s ops s' : foldM checked_op s ops = Ret s' → foldM run_op s ops = Ret s' ∧ v3_run s ops s'.
Proof.
  revert s'. induction ops as [|op ops IH] using rev_ind; intros s'; [intros [= <-]; split; [done|constructor]|].
  rewrite !foldM_app. cbn [foldM]. intros (s1 & H1 & Hs)%bind_Ret. apply bind_Ret in Hs as (s2 & Hs & [= <-]).
  unfold checked_op in Hs. case_decide as Hr; [|done]. apply event_ready_op in Hr as (_ & Hr & _).
  destruct (IH s1 H1) as [-> Hrun]. cbn [mbind M_bind]. rewrite Hs. split; [done|]. by apply (v3_run_snoc s ops s1 op s2).
Qed.

Definition vote_ops : list DagOp :=
  (OpAccept <$> v3_round six 1) ++ [OpFlush] ++ (OpAccept <$> take 4 (v3_round six 2)) ++ [OpFlush].

Lemma DagState_v3_votes_exact_witness :
  ∃ s0 s info, DagState_new (v3_context 0) MemStore_new = Ret s0 ∧ foldM run_op s0 vote_ops = Ret s ∧
    ds_recent_blocks s !! dag_ref 1 0 = Some info ∧
    ∀ v, v ∈ bi_children info ↔ ∃ b, ds_cached s v = Some b ∧ br_round v = 2 ∧ dag_ref 1 0 ∈ b_ancestors b.
Proof.
  assert (outcome_sat (s0 ← DagState_new (v3_context 0) MemStore_new; foldM checked_op s0 vote_ops)
    (λ s, bool_decide (is_Some (ds_recent_blocks s !! dag_ref 1 0) ∧ DagState_gc_round s = 0)) = true)
    as (s & Hrun & [[info Hi] Hgc]%bool_decide_eq_true)%outcome_sat_spec by (vm_compute; reflexivity).
  apply bind_Ret in Hrun as (s0 & Hn & [Hrun Hv3]%checked_run). destruct (v3_genesis_blocks 0) as (gs & Hgs & _).
  destruct (DagState_v3_votes_exact (v3_context 0) MemStore_new gs s0 vote_ops s) as [Hch _];
    [apply v3_committee_wf|by_eval|reflexivity|exact Hgs|apply mem_fresh|exact Hn|exact Hv3|].
  destruct (Hch (dag_ref 1 0) info Hi) as [Hv _]; [rewrite Hgc; by_eval|].
  exists s0, s, info. split; [exact Hn|]. split; [exact Hrun|]. split; [exact Hi|exact Hv].
Defined.

(** ** Recovery of the schedule *)

#[local] Instance CommitV1_eq_dec : EqDecision CommitV1.
Proof. solve_decision. Defined.
#[local] Instance Commit_eq_dec : EqDecision Commit.
Proof. solve_decision. Defined.
#[local] Instance TrustedCommit_eq_dec : EqDecision TrustedCommit.
Proof. solve_decision. Defined.
#[local] Instance CommittedSubDag_eq_dec : EqDecision CommittedSubDag.
Proof. solve_decision. Defined.

(** A scan returns the given commits. *)
Definition scans (m : M (ConsensusResult (list TrustedCommit))) (commits : list TrustedCommit) : bool :=
  match m with Ret (Ok l) => bool_decide (l = commits) | _ => false end.

Lemma scans_Ret m commits : scans m commits = true → m = Ret (Ok commits).
Proof. destruct m as [[l|e]| |]; simpl; try done. by intros ->%bool_decide_eq_true. Qed.

(** A load gives a sub-dag that scores as the given one. *)
Definition loads (m : M CommittedSubDag) (sd : CommittedSubDag) : bool :=
  outcome_sat m (λ sd', bool_decide (scored_part sd = scored_part sd')).

Definition recovery_check (a : authority (S := MemStore)) : bool :=
  forallb (λ start, scans (store_scan_commits (ds_store (au_dag a)) (CommitRange_new start 8))
                      (drop (N.to_nat (start - 1)) (au_commits a).*1)) [1; 2; 3; 4; 5; 6; 7; 8] &&
  forallb (λ p, loads (load_committed_subdag_from_store (ds_store (au_dag a)) p.1) p.2) (au_commits a) &&
  bool_decide (DagState_last_commit_index (au_dag a) = 8) &&
  bool_decide ((λ sd, cr_index (sd_commit_ref sd)) <$> (au_commits a).*2 = [1; 2; 3; 4; 5; 6; 7; 8]) &&
  outcome_sat (schedule_after (v3_context 1) (au_commits a).*2) (λ _, true).

Lemma sample_recovery : outcome_sat (run_authority full_world (v3_context 1) fast_events) recovery_check = true.
Proof. vm_compute. reflexivity. Qed.

Lemma recovery_check_ok a :
  recovery_check a = true →
  stores_commits (ds_store (au_dag a)) (au_commits a).*1 (au_commits a).*2 ∧ length (au_commits a).*2 = 8%nat ∧
  DagState_last_commit_index (au_dag a) = 8 ∧
  (∀ k cmt, (au_commits a).*2 !! k = Some cmt → cr_index (sd_commit_ref cmt) = N.of_nat k + 1) ∧
  ∃ live, schedule_after (v3_context 1) (au_commits a).*2 = Ret live.
Proof.
  unfold recovery_check. rewrite !andb_true_iff, !forallb_forall, !bool_decide_eq_true. intros [[[[Hscan Hload] Hlast] Hidx] Hlive].
  assert (length (au_commits a).*2 = 8%nat) as Hlen by (by rewrite <- (length_fmap (λ sd, cr_index (sd_commit_ref sd)) (au_commits a).*2), Hidx).
  split; [split|split_and!; [done|done| |]].
  - intros start Hs. rewrite Hlen in *. apply scans_Ret, Hscan. assert (start ∈ [1; 2; 3; 4; 5; 6; 7; 8]) as Hin%list_elem_of_In; [|done].
    rewrite !elem_of_cons. lia.
  - rewrite Forall2_fmap. apply Forall_Forall2_diag, Forall_forall. intros p Hp%list_elem_of_In%Hload.
    apply outcome_sat_spec in Hp as (sd' & Hl & Hs%bool_decide_eq_true). by exists sd'.
  - intros k cmt Hk. assert (([1; 2; 3; 4; 5; 6; 7; 8] : list N) !! k = Some (cr_index (sd_commit_ref cmt))) as Hi
      by (by rewrite <- Hidx, list_lookup_fmap, Hk). clear -Hi.
    do 8 (destruct k as [|k]; [by injection Hi as <-|]). done.
  - apply outcome_sat_spec in Hlive as (live & Hl & _). by exists live.
Qed.

Lemma LeaderScheduleV3_from_store_exact_witness :
  ∃ a live recovered, run_authority full_world (v3_context 1) fast_events = Ret a ∧
    schedule_after (v3_context 1) (au_commits a).*2 = Ret live ∧
    LeaderScheduleV3_from_store (v3_context 1) (au_dag a) = Ret recovered ∧
    l3_current_schedule recovered = l3_current_schedule live.
Proof.
  destruct (outcome_sat_spec _ _ sample_recovery) as (a & Ha & Hc).
  destruct (recovery_check_ok a Hc) as (Hstore & Hlen & Hlast & Hidx & live & Hlive).
  pose proof Hlive as (ls0 & Hnew & Hrun)%bind_Ret.
  destruct (LeaderScheduleV3_from_store_exact (v3_context 1) v3_committee_wf ltac:(by_eval) (au_dag a)
    (au_commits a).*1 (au_commits a).*2 ls0 live Hstore) as (recovered & Hr & _ & Hcur).
  - rewrite Hlast, Hlen. reflexivity.
  - exact Hidx.
  - rewrite Hlen. by_eval.
  - by_eval.
  - by_eval.
  - exact Hnew.
  - exact Hrun.
  - exists a, live, recovered. exact (conj Ha (conj Hlive (conj Hr Hcur))).
Defined.
